(* ===== verification/_CoqProject ===== *)
-Q . S2P
Prelude.v
Types.v
ValidatorSet.v
EpochManager.v
LeaderElection.v
ProposerSchedule.v
SignatureCollection.v
Certificates.v
Messages.v
CertificateCache.v
Signing.v
MessageValidation.v
Safety.v
VoteState.v
NoEndorsementState.v
TimeoutAggregation.v
Pacemaker.v
Tree.v
BlockTree.v
BlockTreeSearch.v
ChainConfig.v
Timestamp.v
ConsensusState.v
ConsensusExample.v
ConsensusLogic.v
ConsensusSafety.v
ConsensusChain.v
ConsensusRounds.v
Merkle.v
ReplayFilter.v
BaseFee.v
EthTypes.v
NonceUsage.v
TxValidation.v
SystemCalls.v
EthBlockValidator.v
EthBlockPolicy.v
EthExample.v
EthNonces.v
EthChain.v
EthLedger.v
EthSolvency.v
EthTotal.v
BlockSync.v
BlockSyncSpec.v
BlockLedger.v
Containers.v
LeanUdp.v
LeanUdpSpec.v
LeanUdpFraming.v
RaptorSet.v
RaptorHeap.v
RaptorMatrix.v
RaptorTables.v
RaptorParams.v
RaptorDecoder.v
RaptorDecoderSpec.v
RaptorSteps.v
RaptorElimination.v
RaptorDecoding.v
RaptorEncoder.v
RaptorCode.v
RaptorKernel.v
RaptorRoundtrip.v
RaptorCheck.v
Raptorcast.v
DecoderCache.v
DecoderIndexSpec.v
