(* ===== verification/Prelude.v ===== *)
(** * Kinet: a verification development of the consensus core

    The program is a BFT blockchain node written in Rust.  Validators propose,
    vote for and time out of rounds; votes become quorum certificates (QCs),
    timeouts become timeout certificates (TCs), two consecutive QCs commit a
    block.  This development models the consensus core, the crates [types],
    [crypto], [validator], [multi-sig], [consensus-types], [consensus] and
    [blocktree] under [src/], as executable Gallina definitions, and proves the
    properties that make it correct.

    ** Files, parts of the program and correspondence

    - [Prelude]: outcomes of Rust code ([run], with [Panic] for every failed
      assertion, [expect] or checked operator; [result] for [Result]), 64-bit
      arithmetic, ordered maps, shared lemmas.
    - [Types] ([types/src/lib.rs]): [Round], [Epoch], [SeqNum], [Stake] and
      their operators; 64-bit values are [N] with the overflow test written out,
      stakes are 256-bit.
    - [ValidatorSet], [EpochManager], [LeaderElection], [ProposerSchedule]
      ([validator/src]): the validator set and its vote thresholds, the epoch
      of a round, the validators of an epoch, the two leader election rules, and
      the memoised schedule.
    - [SignatureCollection] ([crypto/src], [validator/src/signature_collection.rs],
      [multi-sig/src/lib.rs]): signing domains, signatures and signature
      collections as classes with laws, and the multi-signature that satisfies
      them.
    - [Certificates] ([consensus-types/src]): votes, QCs, timeouts, TCs, tips,
      fresh-proposal certificates, block headers; [TimeoutCertificate::new].
    - [Messages] ([consensus/src/messages]): protocol messages, prefilter.
    - [CertificateCache], [Signing], [MessageValidation] ([consensus/src/validation]):
      the certificate verifiers over the cache of verified certificates, and the
      validation of each message.
    - [Safety] ([consensus/src/validation/safety.rs]): the rules a node applies
      before it signs anything.
    - [VoteState], [NoEndorsementState] ([consensus/src]): aggregation of votes
      and no-endorsements into certificates.
    - [TimeoutAggregation], [Pacemaker] ([consensus/src/pacemaker.rs]): rounds,
      local and remote timeouts, construction of TCs.
    - [Tree], [BlockTree], [BlockTreeSearch] ([blocktree/src]): the uncommitted
      blocks, the commit of a branch, coherency, the tip to build on.

    A Rust struct is a [Record], an enum an [Inductive]; a method that changes
    its receiver returns the new one; [HashMap] is a [gmap] whose iteration
    order is the class [HashIter], [BTreeMap] a [gmap] iterated in key order,
    [HashSet] and [BTreeSet] a [gset] or a list without repetition.  Definitions
    keep the names of the source, with a prefix where two types share a name.

    ** Code outside the repository

    Hash functions, RLP encoders, the random generator, the LRU cache, the
    256-bit type and the signature schemes are class arguments ([Codec],
    [SeedableRng], [LruCache], [U256Ops], [CertificateSignature],
    [SignatureCollection], bundled in [Protocol]); the laws the code relies on
    are fields of the classes, and each class has an instance used by the
    concrete examples.

    ** What the theorems show

    - Quorums: thresholds are exact, super majorities intersect in a non-faulty
      node, f + 1 votes include one; every validator leads with the frequency
      its rule promises.
    - Certificates: verification accepts exactly the valid certificates and
      keeps the cache sound; a QC and a TC of one round share a non-faulty node;
      what one node aggregates (QCs, TCs, no-endorsement certificates) another
      one accepts.
    - Node safety: no double vote, no vote after a timeout or a refusal to
      endorse, whatever the order of calls.
    - Progress: aggregation and timeout handling terminate, never panic, blame
      only invalid senders, and a super majority of genuine messages suffices.
    - Blocks: the tree operations keep the tree well formed, commits return the
      path to the root in order, coherency is decided on coherent paths only,
      and the searches return what their documentation says.

    ** Fuel

    Loops without structural measure take fuel, and running out reads as
    [Panic]: the theorems prove that the operations return, so the fuel is
    enough.  Aggregation loops get two more than the pending messages (each turn
    drops one), walks and traversals of the block tree one or two more than its
    blocks (each visits a block once).

    ** Not modelled

    Logging, metrics, serialisation, networking, storage and execution, and
    commands of empty enum types.  Assertions of debug builds are absent, as in
    the release profile.  The consensus state machine that drives these parts is
    the next step. *)
From stdpp Require Export base gmap sets list sorting numbers option fin_maps.
#[export] Set Warnings "-clear-no-such-hyp".

(** ** Outcomes of Rust code

    A Rust function that can panic ([assert!], [expect], [unwrap],
    [unreachable!], the checked operators of [kinet_types]) returns a [run]:
    either a value or [Panic].  A Rust [Result<A, E>] is a [result A E]. *)

Inductive run (A : Type) : Type :=
| Ret (a : A)
| Panic.

Arguments Ret {A} a.
Arguments Panic {A}.

Inductive result (A E : Type) : Type :=
| Ok (a : A)
| Err (e : E).

Arguments Ok {A E} a.
Arguments Err {A E} e.

#[global] Instance run_ret : MRet run := @Ret.

#[global] Instance run_bind : MBind run := λ A B f m,
  match m with Ret a => f a | Panic => Panic end.

#[global] Instance run_fmap : FMap run := λ A B f m,
  match m with Ret a => Ret (f a) | Panic => Panic end.

(** [e?] on a fallible value inside a function that may panic. *)
Definition run_try {A B E} (m : run (result A E)) (f : A → run (result B E)) :
    run (result B E) :=
  match m with
  | Ret (Ok a) => f a
  | Ret (Err e) => Ret (Err e)
  | Panic => Panic
  end.

(** [e?] on a fallible value in a function that does not panic. *)
Definition res_try {A B E} (m : result A E) (f : A → result B E) : result B E :=
  match m with Ok a => f a | Err e => Err e end.

Declare Scope rust_scope.
Delimit Scope rust_scope with rust.
Notation "x ←? c ; k" := (run_try c (λ x, k))
  (at level 20, c at level 100, k at level 200, only parsing) : rust_scope.
Notation "' x ←? c ; k" := (run_try c (λ x, k))
  (at level 20, x pattern, c at level 100, k at level 200, only parsing) : rust_scope.
Notation "x ←! c ; k" := (res_try c (λ x, k))
  (at level 20, c at level 100, k at level 200, only parsing) : rust_scope.
Notation "' x ←! c ; k" := (res_try c (λ x, k))
  (at level 20, x pattern, c at level 100, k at level 200, only parsing) : rust_scope.
Open Scope rust_scope.

(** [assert!(P)]. *)
Definition assert (P : Prop) `{Decision P} : run () :=
  if decide P then Ret () else Panic.

(** [Option::expect] and [Option::unwrap]. *)
Definition expect {A} (o : option A) : run A :=
  match o with Some a => Ret a | None => Panic end.

(** [Option::ok_or(e)]. *)
Definition ok_or {A E} (o : option A) (e : E) : result A E :=
  match o with Some a => Ok a | None => Err e end.

(** ** Machine integers

    A [u64] is an [N] at most [u64_MAX]; the operations below are those of the
    Rust standard library. *)

Definition u64_MAX : N := 18446744073709551615.

Definition u64_checked_add (a b : N) : option N :=
  if decide (a + b ≤ u64_MAX)%N then Some (a + b)%N else None.

Definition u64_checked_sub (a b : N) : option N :=
  if decide (b ≤ a)%N then Some (a - b)%N else None.

Definition u64_saturating_add (a b : N) : N := ((a + b) `min` u64_MAX)%N.

Definition u64_saturating_sub (a b : N) : N := (a - b)%N.

(** ** Ordered maps

    [BTreeMap] is a [gmap] whose iteration order is the order of the keys:
    [btree_iter m] lists the entries the way [BTreeMap::iter] yields them. *)

Class OrdKey (K : Type) `{EqDecision K} := {
  key_le : relation K;
  key_le_dec :: RelDecision key_le;
  key_le_total :: TotalOrder key_le;
}.

#[global] Instance N_le_TotalOrder : TotalOrder N.le.
Proof.
  split; [apply _|]. intros a b. unfold strict.
  destruct (N.lt_trichotomy a b) as [?|[?|?]]; [left|right; left|right; right]; lia.
Qed.

#[global] Instance N_OrdKey : OrdKey N := {| key_le := N.le |}.

Definition entry_le {K V} `{OrdKey K} (a b : K * V) : Prop := key_le a.1 b.1.

#[global] Instance entry_le_dec {K V} `{OrdKey K} : RelDecision (@entry_le K V _ _).
Proof. intros a b. unfold entry_le. apply _. Defined.

Definition btree_iter {K V} `{Countable K, !OrdKey K} (m : gmap K V) : list (K * V) :=
  merge_sort entry_le (map_to_list m).

Definition btree_keys {K V} `{Countable K, !OrdKey K} (m : gmap K V) : list K :=
  (btree_iter m).*1.

Definition btree_values {K V} `{Countable K, !OrdKey K} (m : gmap K V) : list V :=
  (btree_iter m).*2.

(** The first element of a list that satisfies a test ([Iterator::find]), and
    the last one ([Iterator::rfind]). *)
Fixpoint find_first {A} (P : A → bool) (l : list A) : option A :=
  match l with
  | [] => None
  | a :: l => if P a then Some a else find_first P l
  end.

Definition find_last {A} (P : A → bool) (l : list A) : option A := find_first P (reverse l).

(** The sum of a list of numbers. *)
Definition nsum (l : list N) : N := foldr N.add 0%N l.

(** ** Automation *)

Create HintDb kinet.

(** Case analysis on every test, option and outcome met in the hypotheses. *)
Ltac run_inv :=
  repeat match goal with
  | H : Ret _ = Ret _ |- _ => injection H as H; try subst
  | H : Ok _ = Ok _ |- _ => injection H as H; try subst
  | H : Err _ = Err _ |- _ => injection H as H; try subst
  | H : Panic = Ret _ |- _ => discriminate H
  | H : Ret _ = Panic |- _ => discriminate H
  | H : Ok _ = Err _ |- _ => discriminate H
  | H : Err _ = Ok _ |- _ => discriminate H
  | H : (_, _) = (_, _) |- _ => injection H as ?H ?H; try subst
  | H : context [mbind _ _] |- _ => progress unfold mbind, run_bind in H
  | H : context [run_try _ _] |- _ => progress unfold run_try in H
  | H : context [res_try _ _] |- _ => progress unfold res_try in H
  | H : context [mret _] |- _ => progress unfold mret, run_ret in H
  | H : context [assert _] |- _ => progress unfold assert in H
  | H : context [expect _] |- _ => progress unfold expect in H
  | H : context [ok_or _ _] |- _ => progress unfold ok_or in H
  | H : context [match ?c with _ => _ end] |- _ => destruct c eqn:?; cbn beta iota in H
  end.

(** Replace the quotient of [a] by [b] by a variable with its defining bounds. *)
Ltac abstract_div a b :=
  let Hd := fresh "Hd" in
  let Hm := fresh "Hm" in
  pose proof (N.Div0.div_mod a b) as Hd;
  pose proof (N.mod_lt a b ltac:(lia)) as Hm;
  generalize dependent (a / b)%N; generalize dependent (a `mod` b)%N; intros.

(** ** Shared lemmas *)

Lemma run_bind_Ret {A B} (m : run A) (f : A → run B) b :
  (m ≫= f) = Ret b ↔ ∃ a, m = Ret a ∧ f a = Ret b.
Proof. destruct m; cbn; naive_solver. Qed.

Lemma run_bind_assoc {A B C} (m : run A) (f : A → run B) (g : B → run C) :
  ((m ≫= f) ≫= g) = (m ≫= λ a, f a ≫= g).
Proof. by destruct m. Qed.

Lemma run_try_Ok {A B E} (m : run (result A E)) (f : A → run (result B E)) b :
  run_try m f = Ret (Ok b) ↔ ∃ a, m = Ret (Ok a) ∧ f a = Ret (Ok b).
Proof. destruct m as [[]|]; cbn; naive_solver. Qed.

Lemma res_try_Ok {A B E} (m : result A E) (f : A → result B E) b :
  res_try m f = Ok b ↔ ∃ a, m = Ok a ∧ f a = Ok b.
Proof. destruct m; cbn; naive_solver. Qed.

Lemma assert_Ret P `{Decision P} u : assert P = Ret u ↔ P.
Proof. unfold assert. case_decide; destruct u; naive_solver. Qed.

Lemma assert_true P `{Decision P} : P → assert P = Ret ().
Proof. intros. by apply assert_Ret. Qed.

Lemma expect_Ret {A} (o : option A) a : expect o = Ret a ↔ o = Some a.
Proof. destruct o; cbn; naive_solver. Qed.

Lemma ok_or_Ok {A E} (o : option A) (e : E) a : ok_or o e = Ok a ↔ o = Some a.
Proof. destruct o; cbn; naive_solver. Qed.

Lemma u64_checked_add_Some a b c :
  u64_checked_add a b = Some c ↔ c = (a + b)%N ∧ (a + b ≤ u64_MAX)%N.
Proof. unfold u64_checked_add. case_decide; naive_solver. Qed.

Lemma u64_checked_sub_Some a b c :
  u64_checked_sub a b = Some c ↔ (b ≤ a)%N ∧ c = (a - b)%N.
Proof. unfold u64_checked_sub. case_decide; naive_solver. Qed.

(** A computation that can be run to see that it succeeds. *)
Definition is_ok {A E} (m : run (result A E)) : bool :=
  match m with Ret (Ok _) => true | _ => false end.

Lemma is_ok_true {A E} (m : run (result A E)) : is_ok m = true → ∃ a, m = Ret (Ok a).
Proof. destruct m as [[]|]; naive_solver. Qed.

Definition is_ret {A} (m : run A) : bool := match m with Ret _ => true | Panic => false end.

Lemma is_ret_true {A} (m : run A) : is_ret m = true → ∃ a, m = Ret a.
Proof. destruct m; naive_solver. Qed.

Section btree.
Context {K V : Type} `{Countable K, !OrdKey K}.
Implicit Types m : gmap K V.

#[local] Instance entry_le_trans : Transitive (@entry_le K V _ _).
Proof. intros a b c ??. unfold entry_le in *. by etrans. Qed.

#[local] Instance entry_le_total : Total (@entry_le K V _ _).
Proof. intros a b. unfold entry_le. apply (total key_le). Qed.

Lemma btree_iter_perm m : btree_iter m ≡ₚ map_to_list m.
Proof. apply merge_sort_Permutation. Qed.

Lemma elem_of_btree_iter m k v : (k, v) ∈ btree_iter m ↔ m !! k = Some v.
Proof. by rewrite btree_iter_perm, elem_of_map_to_list. Qed.

Lemma btree_iter_sorted m : StronglySorted entry_le (btree_iter m).
Proof. apply StronglySorted_merge_sort; apply _. Qed.

Lemma NoDup_btree_keys m : NoDup (btree_keys m).
Proof. unfold btree_keys. rewrite btree_iter_perm. apply NoDup_fst_map_to_list. Qed.

Lemma elem_of_btree_keys m k : k ∈ btree_keys m ↔ is_Some (m !! k).
Proof.
  unfold btree_keys. rewrite list_elem_of_fmap. split.
  - intros ([k' v] & -> & Hv). apply elem_of_btree_iter in Hv. eauto.
  - intros [v Hv]. exists (k, v). by rewrite elem_of_btree_iter.
Qed.

Lemma btree_keys_length m : length (btree_keys m) = size m.
Proof.
  unfold btree_keys. rewrite length_fmap, btree_iter_perm.
  apply length_map_to_list.
Qed.

Lemma btree_iter_empty : btree_iter (∅ : gmap K V) = [].
Proof. unfold btree_iter. by rewrite map_to_list_empty. Qed.

(** The only ordered list of the entries of a map is its iteration. *)
Lemma btree_iter_unique m l :
  StronglySorted entry_le l → NoDup l.*1 → (∀ k v, (k, v) ∈ l ↔ m !! k = Some v) → btree_iter m = l.
Proof.
  intros Hsort Hnd Hl. apply (StronglySorted_unique_strong entry_le).
  - intros [k1 v1] [k2 v2] H1%elem_of_btree_iter H2%Hl Hle Hge. unfold entry_le in *. cbn in *.
    assert (k1 = k2) as -> by (by apply (anti_symm key_le)). congruence.
  - apply btree_iter_sorted.
  - done.
  - rewrite btree_iter_perm. apply NoDup_Permutation.
    + apply NoDup_map_to_list.
    + by eapply NoDup_fmap_1.
    + intros [k v]. by rewrite elem_of_map_to_list, Hl.
Qed.

(** The first entry is the one with the lowest key. *)
Lemma btree_head m k v :
  head (btree_iter m) = Some (k, v) ↔ m !! k = Some v ∧ ∀ k' v', m !! k' = Some v' → key_le k k'.
Proof.
  pose proof (btree_iter_sorted m) as Hs. split.
  - destruct (btree_iter m) as [|e l] eqn:Hl; [done|]. intros [= ->].
    assert (∀ k' v', m !! k' = Some v' → (k', v') ∈ (k, v) :: l) as Hin.
    { intros k' v' Hk. apply elem_of_btree_iter in Hk. by rewrite Hl in Hk. }
    apply StronglySorted_inv in Hs as [_ Hall]. rewrite Forall_forall in Hall. split.
    + apply elem_of_btree_iter. rewrite Hl. set_solver.
    + intros k' v' [[= -> ->]|Hk]%Hin%elem_of_cons; [done|]. exact (Hall _ Hk).
  - intros [Hk Hmin]. apply elem_of_btree_iter in Hk as Hin.
    destruct (btree_iter m) as [|[k' v'] l] eqn:Hl; [by apply elem_of_nil in Hin|]. cbn.
    assert (m !! k' = Some v') as Hk'. { apply elem_of_btree_iter. rewrite Hl. set_solver. }
    assert (k' = k) as ->; [|congruence]. apply (anti_symm key_le); [|eauto].
    apply StronglySorted_inv in Hs as [_ Hall]. rewrite Forall_forall in Hall.
    apply elem_of_cons in Hin as [[= -> ->]|Hin]; [done|]. exact (Hall _ Hin).
Qed.

Lemma btree_iter_nil m : btree_iter m = [] → m = ∅.
Proof.
  intros Hnil. apply map_eq. intros k. rewrite lookup_empty.
  destruct (m !! k) eqn:Hk; [|done].
  apply elem_of_btree_iter in Hk. rewrite Hnil in Hk. by apply elem_of_nil in Hk.
Qed.
End btree.

#[export] Hint Resolve NoDup_btree_keys btree_iter_sorted : kinet.

(** ** Consecutively numbered lists *)

Fixpoint numbered_from {A} (n : N) (l : list A) : list (N * A) :=
  match l with
  | [] => []
  | x :: l => (n, x) :: numbered_from (n + 1) l
  end.

Section numbered.
Context {A : Type}.
Implicit Types (l : list A) (n k : N).

Lemma elem_of_numbered_from n l k x :
  (k, x) ∈ numbered_from n l ↔ (n ≤ k)%N ∧ l !! N.to_nat (k - n) = Some x.
Proof.
  revert n. induction l as [|y l IH]; intros n; cbn [numbered_from].
  { rewrite lookup_nil. split; [by intros ?%elem_of_nil|by intros []]. }
  rewrite elem_of_cons, IH. split.
  - intros [[= -> ->]|[Hle Hl]]; [split; [lia|by rewrite N.sub_diag]|]. split; [lia|].
    by replace (N.to_nat (k - n)) with (S (N.to_nat (k - (n + 1)))) by lia.
  - intros [Hle Hl]. destruct (decide (k = n)) as [->|Hne].
    + left. rewrite N.sub_diag in Hl. by injection Hl as ->.
    + right. split; [lia|]. by replace (N.to_nat (k - n)) with (S (N.to_nat (k - (n + 1)))) in Hl by lia.
Qed.

Lemma numbered_from_app n l1 l2 :
  numbered_from n (l1 ++ l2) = numbered_from n l1 ++ numbered_from (n + N.of_nat (length l1)) l2.
Proof.
  revert n. induction l1 as [|x l1 IH]; intros n; cbn [numbered_from app length].
  - f_equal. lia.
  - rewrite IH. do 3 f_equal. lia.
Qed.

Lemma numbered_from_snd n l : (numbered_from n l).*2 = l.
Proof. revert n. induction l as [|x l IH]; intros n; cbn; [done|]. by rewrite IH. Qed.

Lemma numbered_from_length n l : length (numbered_from n l) = length l.
Proof. revert n. induction l as [|x l IH]; intros n; cbn; [done|]. by rewrite IH. Qed.

Lemma numbered_from_lookup n l i :
  numbered_from n l !! i = (λ x, ((n + N.of_nat i)%N, x)) <$> l !! i.
Proof.
  revert n i. induction l as [|x l IH]; intros n [|i]; cbn; [done..| |].
  - by rewrite N.add_0_r.
  - rewrite IH. destruct (l !! i); cbn; [|done]. do 2 f_equal. lia.
Qed.

Lemma numbered_from_NoDup n l : NoDup (numbered_from n l).*1.
Proof.
  revert n. induction l as [|x l IH]; intros n; [constructor|]. cbn. constructor; [|done].
  rewrite list_elem_of_fmap. intros ([k y] & -> & [? _]%elem_of_numbered_from). cbn in *. lia.
Qed.

Lemma numbered_from_sorted n l : StronglySorted entry_le (numbered_from n l).
Proof.
  revert n. induction l as [|x l IH]; intros n; constructor; [done|].
  apply Forall_forall. intros [k y] [? _]%elem_of_numbered_from. unfold entry_le, key_le. cbn. lia.
Qed.

(** The iteration of a map whose keys are consecutive. *)
Lemma btree_iter_numbered (m : gmap N A) n l :
  (∀ k x, m !! k = Some x ↔ (n ≤ k)%N ∧ l !! N.to_nat (k - n) = Some x) →
  btree_iter m = numbered_from n l.
Proof.
  intros Hm. apply btree_iter_unique; [apply numbered_from_sorted|apply numbered_from_NoDup|].
  intros k x. by rewrite elem_of_numbered_from, Hm.
Qed.

Lemma numbered_from_filter_lt n l k :
  filter (λ p, (p.1 < k)%N) (numbered_from n l) = numbered_from n (take (N.to_nat (k - n)) l).
Proof.
  revert n. induction l as [|x l IH]; intros n; [by rewrite take_nil|]. cbn [numbered_from].
  rewrite filter_cons, IH. cbn [fst]. case_decide as Hk.
  - replace (N.to_nat (k - n)) with (S (N.to_nat (k - (n + 1)))) by lia. done.
  - replace (N.to_nat (k - n)) with 0 by lia. by replace (N.to_nat (k - (n + 1))) with 0 by lia.
Qed.

Lemma numbered_from_filter_ge n l k :
  (n ≤ k)%N →
  filter (λ p, (k ≤ p.1)%N) (numbered_from n l) = numbered_from k (drop (N.to_nat (k - n)) l).
Proof.
  revert n. induction l as [|x l IH]; intros n Hn; [by rewrite drop_nil|]. cbn [numbered_from].
  destruct (decide (k = n)) as [->|Hne].
  - rewrite N.sub_diag, filter_cons_True by done. change (N.to_nat 0) with 0. cbn [drop numbered_from]. f_equal.
    assert (Hall : ∀ j, (n ≤ j)%N → filter (λ p, (n ≤ p.1)%N) (numbered_from j l) = numbered_from j l).
    { clear. induction l as [|y l IH]; intros j Hj; [done|]. cbn [numbered_from].
      rewrite filter_cons_True by done. f_equal. apply IH. lia. }
    apply Hall. lia.
  - rewrite filter_cons_False by (cbn; lia). rewrite IH by lia.
    replace (N.to_nat (k - n)) with (S (N.to_nat (k - (n + 1)))) by lia. done.
Qed.
End numbered.

Section find.
Context {A : Type} (P : A → bool).

Lemma find_first_Some l a :
  find_first P l = Some a ↔
  ∃ l1 l2, l = l1 ++ a :: l2 ∧ P a = true ∧ Forall (λ b, P b = false) l1.
Proof.
  induction l as [|b l IH]; cbn.
  { split; [done|]. intros ([] & ? & ? & _); done. }
  destruct (P b) eqn:Hb.
  - split.
    + intros [= <-]. exists [], l. done.
    + intros ([|c l1] & l2 & Heq & HP & Hall); cbn in Heq; simplify_eq; [done|].
      apply Forall_cons in Hall as [? _]. congruence.
  - rewrite IH. split.
    + intros (l1 & l2 & -> & HP & Hall). exists (b :: l1), l2. by rewrite Forall_cons.
    + intros ([|c l1] & l2 & Heq & HP & Hall); cbn in Heq; simplify_eq; [congruence|].
      apply Forall_cons in Hall as [_ ?]. eauto.
Qed.

Lemma find_first_None l : find_first P l = None ↔ Forall (λ b, P b = false) l.
Proof.
  induction l as [|b l IH]; cbn; [done|].
  rewrite Forall_cons. destruct (P b) eqn:Hb; naive_solver.
Qed.

Lemma find_last_Some l a :
  find_last P l = Some a ↔
  ∃ l1 l2, l = l1 ++ a :: l2 ∧ P a = true ∧ Forall (λ b, P b = false) l2.
Proof.
  unfold find_last. rewrite find_first_Some. split.
  - intros (l1 & l2 & Heq & HP & Hall). exists (reverse l2), (reverse l1). split_and!.
    + apply (f_equal reverse) in Heq. rewrite reverse_involutive in Heq.
      rewrite Heq, reverse_app, reverse_cons, <- app_assoc. done.
    + done.
    + by apply Forall_reverse.
  - intros (l1 & l2 & -> & HP & Hall). exists (reverse l2), (reverse l1). split_and!.
    + rewrite reverse_app, reverse_cons, <- app_assoc. done.
    + done.
    + by apply Forall_reverse.
Qed.

Lemma find_last_None l : find_last P l = None ↔ Forall (λ b, P b = false) l.
Proof. unfold find_last. rewrite find_first_None. apply Forall_reverse. Qed.
End find.

Lemma nsum_cons a l : nsum (a :: l) = (a + nsum l)%N.
Proof. done. Qed.

Lemma nsum_app l1 l2 : nsum (l1 ++ l2) = (nsum l1 + nsum l2)%N.
Proof. induction l1 as [|a l1 IH]; [done|]. cbn [app]. rewrite !nsum_cons. lia. Qed.

#[global] Instance nsum_Proper : Proper ((≡ₚ) ==> (=)) nsum.
Proof. induction 1; rewrite ?nsum_cons in *; lia. Qed.

Lemma nsum_elem_of a l : a ∈ l → (a ≤ nsum l)%N.
Proof. induction 1; rewrite nsum_cons; lia. Qed.
