(* ===== verification/Types.v ===== *)
(** * The scalar types of the protocol ([src/types/src/lib.rs])

    [Round], [Epoch] and [SeqNum] are [u64] newtypes whose [+] and [-] panic
    instead of wrapping; [Stake] is a [U256] newtype with the same rule.
    [RoundSpan] is a non-empty interval of rounds, [LimitedVec] a vector with a
    capacity.  The theorems give the arithmetic of epochs over sequence
    numbers and the interval reading of [RoundSpan]. *)
From S2P Require Import Prelude.

(** ** Round *)

Abbreviation Round := N.

Definition Round_MIN : Round := 0%N.
Definition Round_MAX : Round := u64_MAX.

Definition immediately_follows (self previous_round : Round) : bool :=
  match u64_checked_add previous_round 1 with
  | Some next_round => bool_decide (next_round = self)
  | None => false
  end.

Definition Round_saturating_sub (self count : Round) : Round := u64_saturating_sub self count.
Definition Round_checked_sub (self count : Round) : option Round := u64_checked_sub self count.
Definition Round_saturating_add (self count : Round) : Round := u64_saturating_add self count.
Definition Round_checked_add (self count : Round) : option Round := u64_checked_add self count.
Definition Round_add (self rhs : Round) : run Round := expect (u64_checked_add self rhs).
Definition Round_sub (self rhs : Round) : run Round := expect (u64_checked_sub self rhs).

Definition GENESIS_ROUND : Round := 0%N.

Record RoundSpan := { span_start : Round; span_end : Round }.

Definition RoundSpan_new (start end_ : Round) : option RoundSpan :=
  if decide (end_ ≤ start)%N then None
  else Some {| span_start := start; span_end := end_ |}.

Definition RoundSpan_single (start : Round) : run (option RoundSpan) :=
  if decide (Round_MAX ≤ start)%N then Ret None
  else
    end_ ← Round_add start 1;
    Ret (Some {| span_start := start; span_end := end_ |}).

Definition RoundSpan_contains (self : RoundSpan) (round : Round) : bool :=
  bool_decide (span_start self ≤ round)%N && bool_decide (round < span_end self)%N.

Definition RoundSpan_overlaps (self other : RoundSpan) : bool :=
  bool_decide (span_start self < span_end other)%N &&
  bool_decide (span_start other < span_end self)%N.

(** ** Epoch *)

Abbreviation Epoch := N.

Definition Epoch_add (self rhs : Epoch) : run Epoch := expect (u64_checked_add self rhs).
Definition Epoch_sub (self rhs : Epoch) : run Epoch := expect (u64_checked_sub self rhs).
Definition Epoch_checked_sub (self : Epoch) (count : N) : option Epoch :=
  u64_checked_sub self count.

(** ** SeqNum

    The native [+ 1] of [to_epoch] wraps at the width of [u64] in the release
    profile; [/] and [%] panic on a zero divisor. *)

Abbreviation SeqNum := N.

Definition GENESIS_SEQ_NUM : SeqNum := 0%N.

Definition SeqNum_add (self other : SeqNum) : run SeqNum := expect (u64_checked_add self other).
Definition SeqNum_sub (self rhs : SeqNum) : run SeqNum := expect (u64_checked_sub self rhs).

Definition SeqNum_div (self rhs : SeqNum) : run SeqNum :=
  if decide (rhs = 0)%N then Panic else Ret (self / rhs)%N.

Definition SeqNum_rem (self rhs : SeqNum) : run SeqNum :=
  if decide (rhs = 0)%N then Panic else Ret (self `mod` rhs)%N.

Definition SeqNum_saturating_add (self other : SeqNum) : SeqNum := u64_saturating_add self other.

Definition to_epoch (self epoch_length : SeqNum) : run Epoch :=
  q ← SeqNum_div self epoch_length;
  Ret ((q + 1) `mod` (u64_MAX + 1))%N.

Definition is_boundary_block (self epoch_length : SeqNum) : run bool :=
  r ← SeqNum_rem self epoch_length;
  last ← SeqNum_sub epoch_length 1;
  Ret (bool_decide (r = last)).

Definition get_locked_epoch (self epoch_length : SeqNum) : run Epoch :=
  b ← is_boundary_block self epoch_length;
  assert (b = true) ≫= λ _,
  e ← to_epoch self epoch_length;
  Epoch_add e 1.

(** ** Node and block identities

    A [NodeId] is a transparent newtype over a public key; the generic public
    key type is a type with decidable equality and a total order (it is used
    as a [BTreeMap] key).  A [BlockId] is a 32 byte hash, read as a number. *)

Class PubKey (PT : Type) := {
  PubKey_eq_dec :: EqDecision PT;
  PubKey_countable :: Countable PT;
  PubKey_ord :: OrdKey PT;
}.

#[global] Instance N_PubKey : PubKey N := Build_PubKey N _ _ _.

Abbreviation BlockId := N.

Definition GENESIS_BLOCK_ID : BlockId := 0%N.

(** ** Stake *)

Abbreviation Stake := N.

Definition u256_MAX : N :=
  115792089237316195423570985008687907853269984665640564039457584007913129639935.

(** The operators of [alloy_primitives::U256].  [checked_add] and
    [checked_sub] are exact or absent; the infix [+], [-] and [*] agree with
    integer arithmetic when the result fits in 256 bits, and nothing is assumed
    of them otherwise. *)
Class U256Ops := {
  u256_add : N → N → N;
  u256_sub : N → N → N;
  u256_mul : N → N → N;
  u256_add_exact a b : (a + b ≤ u256_MAX)%N → u256_add a b = (a + b)%N;
  u256_sub_exact a b : (b ≤ a ≤ u256_MAX)%N → u256_sub a b = (a - b)%N;
  u256_mul_exact a b : (a * b ≤ u256_MAX)%N → u256_mul a b = (a * b)%N;
}.

Definition u256_checked_add (a b : N) : option N :=
  if decide (a + b ≤ u256_MAX)%N then Some (a + b)%N else None.

Definition u256_checked_sub (a b : N) : option N :=
  if decide (b ≤ a)%N then Some (a - b)%N else None.

(** Wrapping operators are one instance. *)
#[global] Program Instance U256_wrapping : U256Ops := {|
  u256_add a b := ((a + b) `mod` (u256_MAX + 1))%N;
  u256_sub a b := ((u256_MAX + 1 + a - b) `mod` (u256_MAX + 1))%N;
  u256_mul a b := ((a * b) `mod` (u256_MAX + 1))%N;
|}.
Next Obligation. intros a b ?. apply N.mod_small. lia. Qed.
Next Obligation.
  intros a b [? ?]. replace (u256_MAX + 1 + a - b)%N with (a - b + 1 * (u256_MAX + 1))%N by lia.
  rewrite N.Div0.mod_add. apply N.mod_small. lia.
Qed.
Next Obligation. intros a b ?. apply N.mod_small. lia. Qed.

Definition Stake_ZERO : Stake := 0%N.
Definition Stake_ONE : Stake := 1%N.

Definition Stake_add (self rhs : Stake) : run Stake := expect (u256_checked_add self rhs).
Definition Stake_sub (self rhs : Stake) : run Stake := expect (u256_checked_sub self rhs).

Definition Stake_sum (iter : list Stake) : run Stake :=
  foldl (λ acc b, a ← acc; Stake_add a b) (Ret Stake_ZERO) iter.

(** ** LimitedVec *)

Record LimitedVecCapacityError (T : Type) := { rejected : T; capacity : nat }.

Arguments rejected {T} _.
Arguments capacity {T} _.

Definition try_push {T} (n : nat) (self : list T) (item : T) :
    list T * result () (LimitedVecCapacityError T) :=
  if decide (n ≤ length self)
  then (self, Err {| rejected := item; capacity := n |})
  else (self ++ [item], Ok ()).

(** ** Lemmas *)

Lemma Round_add_Ret a b c : Round_add a b = Ret c ↔ c = (a + b)%N ∧ (a + b ≤ u64_MAX)%N.
Proof. unfold Round_add. by rewrite expect_Ret, u64_checked_add_Some. Qed.

Lemma Round_add_ok a b : (a + b ≤ u64_MAX)%N → Round_add a b = Ret (a + b)%N.
Proof. intros. by apply Round_add_Ret. Qed.

Lemma SeqNum_add_Ret a b : (a + b ≤ u64_MAX)%N → SeqNum_add a b = Ret (a + b)%N.
Proof. intros Hle. unfold SeqNum_add, u64_checked_add. by rewrite decide_True. Qed.

Lemma SeqNum_add_inv a b c : SeqNum_add a b = Ret c → c = (a + b)%N ∧ (a + b ≤ u64_MAX)%N.
Proof. unfold SeqNum_add, u64_checked_add. case_decide; cbn; [intros [= <-]|]; done. Qed.

Lemma SeqNum_sub_Ret a b : (b ≤ a)%N → SeqNum_sub a b = Ret (a - b)%N.
Proof. intros Hle. unfold SeqNum_sub, u64_checked_sub. by rewrite decide_True. Qed.

Lemma immediately_follows_spec r p :
  immediately_follows r p = true ↔ r = (p + 1)%N ∧ (p < u64_MAX)%N.
Proof.
  unfold immediately_follows. destruct (u64_checked_add p 1) eqn:He.
  - apply u64_checked_add_Some in He as [-> ?]. rewrite bool_decide_eq_true. lia.
  - unfold u64_checked_add in He. case_decide; [done|]. split; [done|]. lia.
Qed.

Lemma Stake_add_Ret a b c : Stake_add a b = Ret c ↔ c = (a + b)%N ∧ (a + b ≤ u256_MAX)%N.
Proof.
  unfold Stake_add, u256_checked_add. rewrite expect_Ret. case_decide; naive_solver.
Qed.

Lemma Stake_sum_acc l a :
  foldl (λ acc b, a ← acc; Stake_add a b) (Ret a) l =
  if decide (a + nsum l ≤ u256_MAX)%N then Ret (a + nsum l)%N
  else match l with [] => Ret a | _ => Panic end.
Proof.
  revert a. induction l as [|b l IH]; intros a; cbn [foldl].
  { rewrite N.add_0_r. by case_decide. }
  cbn [mbind run_bind]. unfold Stake_add, u256_checked_add. rewrite nsum_cons.
  destruct (decide (a + b ≤ u256_MAX)%N); cbn [expect].
  - rewrite IH, N.add_assoc. repeat case_decide; try done.
    destruct l; [|done]. exfalso. cbn in *. lia.
  - rewrite decide_False by lia. clear IH. induction l as [|c l IH]; [done|apply IH].
Qed.

Lemma Stake_sum_spec l :
  Stake_sum l = if decide (nsum l ≤ u256_MAX)%N then Ret (nsum l) else Panic.
Proof.
  unfold Stake_sum. rewrite Stake_sum_acc, N.add_0_l.
  case_decide; [done|]. destruct l; [cbn in *; lia|done].
Qed.

Lemma to_epoch_ok s len :
  (0 < len)%N → (s / len < u64_MAX)%N → to_epoch s len = Ret (s / len + 1)%N.
Proof.
  intros. unfold to_epoch, SeqNum_div. rewrite decide_False by lia.
  cbn. rewrite N.mod_small by lia. done.
Qed.

Lemma is_boundary_block_spec s len :
  (0 < len)%N →
  is_boundary_block s len = Ret (bool_decide (s `mod` len = len - 1)%N).
Proof.
  intros. unfold is_boundary_block, SeqNum_rem, SeqNum_sub, u64_checked_sub.
  rewrite (decide_False (P := (len = 0)%N)), (decide_True (P := (1 ≤ len)%N)) by lia. done.
Qed.

(** ** Theorems *)

(** Every sequence number belongs to one epoch and the boundary block is the
    last one of its epoch: for an epoch length of at least two, [to_epoch] maps
    the sequence numbers of [[(e-1)*len, e*len)] to [e] and no others, and
    [is_boundary_block] holds exactly where the next sequence number is in the
    next epoch. *)
Theorem to_epoch_partition (s e len : N) :
  (1 < len)%N → (s < u64_MAX)%N →
  (to_epoch s len = Ret e ↔ (1 ≤ e)%N ∧ ((e - 1) * len ≤ s < e * len)%N) ∧
  (is_boundary_block s len = Ret true ↔
   ∃ a, to_epoch s len = Ret a ∧ to_epoch (s + 1) len = Ret (a + 1)%N).
Proof.
  intros Hlen Hs. pose proof (N.Div0.div_mod s len) as Hd.
  pose proof (N.mod_lt s len ltac:(lia)) as Hm.
  assert (∀ x, (x ≤ u64_MAX)%N → (x / len < u64_MAX)%N) as Hq.
  { intros x ?. apply N.Div0.div_lt_upper_bound. unfold u64_MAX in *. lia. }
  rewrite !to_epoch_ok by (try apply Hq; lia). split.
  - split.
    + intros [= <-]. clear Hq. rewrite N.add_sub.
      generalize dependent (s / len)%N. generalize dependent (s `mod` len)%N. intros. nia.
    + intros [He Hb]. f_equal. enough (s / len = e - 1)%N by lia.
      symmetry. apply (N.div_unique _ _ _ (s - (e - 1) * len)); nia.
  - rewrite is_boundary_block_spec by lia. split.
    + intros [= Hb%bool_decide_eq_true]. eexists. split; [done|]. do 2 f_equal.
      symmetry. apply (N.div_unique _ _ _ 0); nia.
    + intros (a & [= <-] & [= Hn]). f_equal. apply bool_decide_eq_true.
      destruct (decide (s `mod` len = len - 1)%N) as [|Hne]; [done|exfalso].
      assert ((s + 1) / len = s / len)%N; [|lia].
      symmetry. apply (N.div_unique _ _ _ (s `mod` len + 1)); nia.
Qed.

Lemma to_epoch_partition_witness : is_boundary_block 9 5 = Ret true ∧ to_epoch 9 5 = Ret 2%N.
Proof.
  destruct (to_epoch_partition 9 2 5 ltac:(lia) ltac:(unfold u64_MAX; lia)) as [He Hb].
  split; [apply Hb; by exists 2%N|]. apply He. lia.
Defined.

(** Two spans built by [new] overlap exactly when they share a round. *)
Theorem RoundSpan_overlaps_iff a b c d s t :
  RoundSpan_new a b = Some s → RoundSpan_new c d = Some t →
  RoundSpan_overlaps s t = true ↔
  ∃ r, RoundSpan_contains s r = true ∧ RoundSpan_contains t r = true.
Proof.
  unfold RoundSpan_new, RoundSpan_overlaps, RoundSpan_contains. intros Hs Ht.
  destruct (decide (b ≤ a)%N), (decide (d ≤ c)%N); simplify_eq/=. rewrite andb_true_iff, !bool_decide_eq_true. split.
  - intros [? ?]. exists (a `max` c)%N. rewrite !andb_true_iff, !bool_decide_eq_true. lia.
  - intros (r & Hr). rewrite !andb_true_iff, !bool_decide_eq_true in Hr. lia.
Qed.
