(* ===== verification/ValidatorSet.v ===== *)
(** * Validator sets and quorums ([src/validator/src/validator_set.rs])

    [create] builds a [ValidatorSet] from a list of stakes; the vote tests
    compare the stake of a list of voters with a share of the total.  The
    theorems characterise [create], give the quorum intersection argument that
    the consensus protocol rests on, and show that the honest validators alone
    reach a super majority. *)
From S2P Require Import Prelude Types.

(** [Itertools::duplicates]: yields exactly the elements that occur more than
    once. *)
Class Duplicates (PT : Type) := {
  duplicates : list PT → list PT;
  duplicates_spec l x :
    x ∈ duplicates l ↔ ∃ i j, i ≠ j ∧ l !! i = Some x ∧ l !! j = Some x;
}.

Section validator_set.
Context {PT : Type} `{!PubKey PT, !Duplicates PT, !U256Ops}.

Inductive ValidatorSetCreationError :=
| EmptyValidatorSet
| ZeroStakeValidator (node_id : PT)
| CreationDuplicateValidator (node_id : PT).

Inductive ValidatorSetError :=
| DuplicateValidator (node_id : PT).

Record ValidatorSet := {
  validators : gmap PT Stake;
  total_stake : Stake;
}.

(** The loop of [create]: [vmap] and [total_stake] are its mutable locals. *)
Fixpoint create_loop (l : list (PT * Stake)) (vmap : gmap PT Stake) (total : Stake) :
    run (result (gmap PT Stake * Stake) ValidatorSetCreationError) :=
  match l with
  | [] => Ret (Ok (vmap, total))
  | (node_id, stake) :: l =>
      if decide (stake = Stake_ZERO) then Ret (Err (ZeroStakeValidator node_id))
      else
        match vmap !! node_id with
        | Some _ => Ret (Err (CreationDuplicateValidator node_id))
        | None =>
            total ← Stake_add total stake;
            create_loop l (<[node_id := stake]> vmap) total
        end
  end.

Definition create (l : list (PT * Stake)) :
    run (result ValidatorSet ValidatorSetCreationError) :=
  '(vmap, total) ←? create_loop l ∅ Stake_ZERO;
  if decide (vmap = ∅) then Ret (Err EmptyValidatorSet)
  else Ret (Ok {| validators := vmap; total_stake := total |}).

Definition new_unchecked (m : gmap PT Stake) : run ValidatorSet :=
  total ← Stake_sum (btree_values m);
  Ret {| validators := m; total_stake := total |}.

Definition get_members (self : ValidatorSet) : gmap PT Stake := validators self.

Definition get_total_stake (self : ValidatorSet) : Stake := total_stake self.

Definition is_member (self : ValidatorSet) (addr : PT) : bool :=
  bool_decide (is_Some (validators self !! addr)).

Definition calculate_current_stake (self : ValidatorSet) (addrs : list PT) :
    run (result Stake ValidatorSetError) :=
  match duplicates addrs with
  | node :: _ => Ret (Err (DuplicateValidator node))
  | [] =>
      s ← Stake_sum (omap (λ addr, validators self !! addr) addrs);
      Ret (Ok s)
  end.

Definition has_threshold_votes (self : ValidatorSet) (addrs : list PT) (threshold : Stake) :
    run (result bool ValidatorSetError) :=
  voter_stake ←? calculate_current_stake self addrs;
  Ret (Ok (bool_decide (threshold ≤ voter_stake)%N)).

Definition has_super_majority_votes (self : ValidatorSet) (addrs : list PT) :
    run (result bool ValidatorSetError) :=
  has_threshold_votes self addrs (u256_add (u256_mul (total_stake self) 2 / 3) 1)%N.

Definition has_honest_vote (self : ValidatorSet) (addrs : list PT) :
    run (result bool ValidatorSetError) :=
  has_threshold_votes self addrs (u256_add (total_stake self / 3) 1)%N.

(** ** Specification vocabulary *)

(** The stake a list of nodes holds. *)
Definition stake_of (m : gmap PT Stake) (addrs : list PT) : N :=
  nsum (omap (λ addr, m !! addr) addrs).

(** The sum of all stakes. *)
Definition map_stake (m : gmap PT Stake) : N := nsum (map_to_list m).*2.

(** The invariant of a validator set: members have positive stake, there is at
    least one, and the cached total is their sum. *)
Definition wf_validator_set (vs : ValidatorSet) : Prop :=
  validators vs ≠ ∅ ∧
  map_Forall (λ _ s, 0 < s)%N (validators vs) ∧
  total_stake vs = map_stake (validators vs) ∧
  (total_stake vs ≤ u256_MAX)%N.

(** ** Lemmas on stakes *)

Lemma duplicates_nil l : duplicates l = [] ↔ NoDup l.
Proof.
  split.
  - intros Hd. apply NoDup_alt. intros i j x Hi Hj.
    destruct (decide (i = j)) as [|Hne]; [done|].
    assert (x ∈ duplicates l) as Hx by (apply duplicates_spec; eauto).
    rewrite Hd in Hx. by apply elem_of_nil in Hx.
  - intros Hnd. destruct (duplicates l) as [|x d] eqn:Hd; [done|].
    assert (x ∈ duplicates l) as Hx by (rewrite Hd; left).
    apply duplicates_spec in Hx as (i & j & Hij & Hi & Hj).
    rewrite NoDup_alt in Hnd. naive_solver.
Qed.

Lemma stake_of_app m l1 l2 : stake_of m (l1 ++ l2) = (stake_of m l1 + stake_of m l2)%N.
Proof. unfold stake_of. by rewrite omap_app, nsum_app. Qed.

Lemma stake_of_cons m a l :
  stake_of m (a :: l) = (default 0 (m !! a) + stake_of m l)%N.
Proof. unfold stake_of. cbn. by destruct (m !! a). Qed.

#[global] Instance stake_of_Proper m : Proper ((≡ₚ) ==> (=)) (stake_of m).
Proof. intros l1 l2 Hl. unfold stake_of. by rewrite Hl. Qed.

Lemma stake_of_filter m (P : PT → Prop) `{∀ x, Decision (P x)} `{∀ x, Decision (¬ P x)} l :
  (stake_of m (filter P l) + stake_of m (filter (λ x, ¬ P x) l) = stake_of m l)%N.
Proof.
  induction l as [|a l IH]; [done|]. rewrite !filter_cons, (stake_of_cons _ a l).
  destruct (decide (P a)), (decide (¬ P a)); try done; rewrite stake_of_cons; lia.
Qed.

Lemma stake_of_delete m a l : a ∉ l → stake_of (delete a m) l = stake_of m l.
Proof.
  intros Ha. induction l as [|b l IH]; [done|].
  apply not_elem_of_cons in Ha as [? ?].
  rewrite !stake_of_cons, lookup_delete_ne, IH; done.
Qed.

Lemma map_stake_insert m a s :
  m !! a = None → map_stake (<[a := s]> m) = (s + map_stake m)%N.
Proof. intros. unfold map_stake. by rewrite map_to_list_insert. Qed.

Lemma map_stake_delete m a s :
  m !! a = Some s → map_stake m = (s + map_stake (delete a m))%N.
Proof.
  intros Ha. rewrite <- (insert_delete_id m a s) at 1 by done.
  by rewrite map_stake_insert by apply lookup_delete_eq.
Qed.

(** The stake of distinct nodes is at most the total. *)
Lemma stake_of_le_total m l : NoDup l → (stake_of m l ≤ map_stake m)%N.
Proof.
  intros Hnd. revert m. induction Hnd as [|a l Ha Hnd IH]; intros m; [cbn; lia|].
  rewrite stake_of_cons. destruct (m !! a) as [s|] eqn:Hm; cbn.
  - rewrite (map_stake_delete _ _ _ Hm). specialize (IH (delete a m)).
    rewrite stake_of_delete in IH by done. lia.
  - specialize (IH m). lia.
Qed.

(** All members together hold the total. *)
Lemma stake_of_members m : stake_of m (map_to_list m).*1 = map_stake m.
Proof.
  induction m as [|a s m Ha IH] using map_ind.
  { unfold stake_of, map_stake. by rewrite map_to_list_empty. }
  rewrite map_stake_insert, (map_to_list_insert m a s) by done. cbn [fmap list_fmap fst].
  rewrite stake_of_cons, lookup_insert_eq. cbn. f_equal. rewrite <- IH.
  rewrite <- (stake_of_delete (<[a := s]> m) a).
  - by rewrite delete_insert_id.
  - intros ([? ?] & -> & Hx)%list_elem_of_fmap. apply elem_of_map_to_list in Hx.
    cbn in Ha. congruence.
Qed.

(** Inclusion-exclusion: two lists of distinct voters overlap by at least what
    they hold beyond the total. *)
Lemma stake_of_overlap m l1 l2 :
  NoDup l1 → NoDup l2 →
  (stake_of m l1 + stake_of m l2 ≤ map_stake m + stake_of m (filter (.∈ l1) l2))%N.
Proof.
  intros H1 H2. pose proof (stake_of_filter m (.∈ l1) l2) as Hf.
  assert (stake_of m (l1 ++ filter (λ x, x ∉ l1) l2) ≤ map_stake m)%N as Hle.
  { apply stake_of_le_total, NoDup_app. split_and!; [done| |by apply NoDup_filter].
    intros x Hx. rewrite list_elem_of_filter. tauto. }
  rewrite stake_of_app in Hle. cbn in *. lia.
Qed.

Lemma stake_of_all_In m l B :
  NoDup l → (∀ x, x ∈ l → is_Some (m !! x) → x ∈ B) → NoDup B →
  (stake_of m l ≤ stake_of m B)%N.
Proof.
  intros Hl Hin HB. revert B Hin HB. induction Hl as [|a l Ha Hl IH]; intros B Hin HB; [cbn; lia|].
  rewrite stake_of_cons. destruct (m !! a) as [s|] eqn:Hm; cbn.
  - assert (a ∈ B) as (B1 & B2 & ->)%list_elem_of_split by (apply Hin; [left|eauto]).
    rewrite <- Permutation_middle, stake_of_cons, Hm. cbn.
    rewrite <- Permutation_middle, NoDup_cons in HB. destruct HB as [HaB HB].
    enough (stake_of m l ≤ stake_of m (B1 ++ B2))%N by lia.
    apply IH; [|done]. intros x Hx Hmx. specialize (Hin x ltac:(by right) Hmx).
    rewrite elem_of_app, elem_of_cons in Hin. rewrite elem_of_app.
    destruct Hin as [?|[->|?]]; tauto.
  - apply IH; [|done]. intros x Hx. apply Hin. by right.
Qed.

(** A list that holds more stake than [B] has a member outside [B]. *)
Lemma stake_of_exceeds m l B :
  NoDup l → NoDup B → (stake_of m B < stake_of m l)%N →
  ∃ x, x ∈ l ∧ is_Some (m !! x) ∧ x ∉ B.
Proof.
  intros Hl HB Hlt.
  destruct (decide (Forall (λ x, ¬ (is_Some (m !! x) ∧ x ∉ B)) l)) as [Hall|Hex].
  - exfalso. rewrite Forall_forall in Hall.
    assert (stake_of m l ≤ stake_of m B)%N; [|lia].
    apply stake_of_all_In; [done| |done].
    intros x Hx Hsome. specialize (Hall x Hx). destruct (decide (x ∈ B)); tauto.
  - apply not_Forall_Exists in Hex; [|apply _].
    apply Exists_exists in Hex as (x & Hx & Hn). exists x. cbn in Hn.
    destruct (decide (is_Some (m !! x))), (decide (x ∈ B)); tauto.
Qed.

(** ** Lemmas on the vote tests *)

Lemma calculate_current_stake_spec vs l :
  wf_validator_set vs → NoDup l →
  calculate_current_stake vs l = Ret (Ok (stake_of (validators vs) l)).
Proof.
  intros (_ & _ & Ht & Hmax) Hl. unfold calculate_current_stake.
  rewrite (proj2 (duplicates_nil l) Hl), Stake_sum_spec, decide_True; [done|].
  etrans; [by apply stake_of_le_total|]. by rewrite <- Ht.
Qed.

Lemma has_threshold_votes_true vs l t :
  wf_validator_set vs →
  has_threshold_votes vs l t = Ret (Ok true) ↔
  NoDup l ∧ (t ≤ stake_of (validators vs) l)%N.
Proof.
  intros Hwf. unfold has_threshold_votes. destruct (decide (NoDup l)) as [Hl|Hl].
  - rewrite calculate_current_stake_spec by done. cbn. split.
    + intros [= Hb%bool_decide_eq_true]. done.
    + intros [_ Hb]. by rewrite bool_decide_eq_true_2.
  - split; [|tauto]. intros Hrun. exfalso. apply Hl, duplicates_nil.
    unfold calculate_current_stake in Hrun. destruct (duplicates l); [done|]. done.
Qed.

Lemma has_threshold_votes_NoDup vs l t :
  wf_validator_set vs → NoDup l →
  has_threshold_votes vs l t = Ret (Ok (bool_decide (t ≤ stake_of (validators vs) l)%N)).
Proof.
  intros. unfold has_threshold_votes. by rewrite calculate_current_stake_spec.
Qed.

(** The thresholds, when twice the total stake fits in 256 bits. *)
Definition super_majority (vs : ValidatorSet) : N := (total_stake vs * 2 / 3 + 1)%N.
Definition honest_threshold (vs : ValidatorSet) : N := (total_stake vs / 3 + 1)%N.

Lemma u256_share_bound x : (x ≤ u256_MAX)%N → (x / 3 + 1 ≤ u256_MAX)%N.
Proof.
  intros. assert (x / 3 ≤ u256_MAX / 3)%N by (apply N.Div0.div_le_mono; done).
  assert (u256_MAX / 3 + 1 ≤ u256_MAX)%N by (vm_compute; discriminate). lia.
Qed.

Lemma has_super_majority_votes_spec vs l :
  wf_validator_set vs → (total_stake vs * 2 ≤ u256_MAX)%N → NoDup l →
  has_super_majority_votes vs l =
  Ret (Ok (bool_decide (super_majority vs ≤ stake_of (validators vs) l)%N)).
Proof.
  intros Hwf H2 Hl. unfold has_super_majority_votes, super_majority.
  rewrite u256_mul_exact, u256_add_exact by (try done; by apply u256_share_bound).
  by apply has_threshold_votes_NoDup.
Qed.

Lemma has_super_majority_votes_true vs l :
  wf_validator_set vs → (total_stake vs * 2 ≤ u256_MAX)%N →
  has_super_majority_votes vs l = Ret (Ok true) ↔
  NoDup l ∧ (super_majority vs ≤ stake_of (validators vs) l)%N.
Proof.
  intros Hwf H2. unfold has_super_majority_votes, super_majority.
  rewrite u256_mul_exact, u256_add_exact by (try done; by apply u256_share_bound).
  by apply has_threshold_votes_true.
Qed.

Lemma has_honest_vote_true vs l :
  wf_validator_set vs →
  has_honest_vote vs l = Ret (Ok true) ↔
  NoDup l ∧ (honest_threshold vs ≤ stake_of (validators vs) l)%N.
Proof.
  intros Hwf. pose proof Hwf as (_ & _ & _ & ?). unfold has_honest_vote, honest_threshold.
  rewrite u256_add_exact by (by apply u256_share_bound). by apply has_threshold_votes_true.
Qed.

Lemma has_honest_vote_NoDup vs l :
  wf_validator_set vs → NoDup l → ∃ b, has_honest_vote vs l = Ret (Ok b).
Proof.
  intros Hwf Hl. pose proof Hwf as (_ & _ & _ & ?). unfold has_honest_vote.
  rewrite u256_add_exact by (by apply u256_share_bound). rewrite has_threshold_votes_NoDup by done.
  eauto.
Qed.

(** A super majority contains an honest node. *)
Lemma super_majority_has_honest_vote vs l :
  wf_validator_set vs → (total_stake vs * 2 ≤ u256_MAX)%N →
  has_super_majority_votes vs l = Ret (Ok true) → has_honest_vote vs l = Ret (Ok true).
Proof.
  intros Hwf H2 [Hnd Hs]%has_super_majority_votes_true; [|done|done].
  apply has_honest_vote_true; [done|]. split; [done|]. etrans; [|exact Hs].
  unfold honest_threshold, super_majority. apply N.add_le_mono_r, N.Div0.div_le_mono. lia.
Qed.

Lemma create_loop_Ok l m t m' t' :
  (t ≤ u256_MAX)%N →
  create_loop l m t = Ret (Ok (m', t')) ↔
  Forall (λ p, p.2 ≠ 0%N) l ∧ NoDup l.*1 ∧ (∀ k, k ∈ l.*1 → m !! k = None) ∧
  (t + nsum l.*2 ≤ u256_MAX)%N ∧ t' = (t + nsum l.*2)%N ∧ m' = list_to_map l ∪ m.
Proof.
  revert m t. induction l as [|[k s] l IH]; intros m t Ht; cbn [create_loop].
  { cbn. rewrite map_empty_union, N.add_0_r.
    split; [intros [= <- <-]|intros (_ & _ & _ & _ & -> & ->); done].
    split_and!; try done; [constructor|by intros k ?%elem_of_nil]. }
  cbn [fmap list_fmap fst snd]. rewrite nsum_cons, Forall_cons, NoDup_cons. cbn [fst snd].
  destruct (decide (s = Stake_ZERO)) as [->|Hs].
  { split; [done|]. intros ([? _] & _). done. }
  destruct (m !! k) as [s'|] eqn:Hk.
  { split; [done|]. intros (_ & _ & Hn & _). specialize (Hn k ltac:(left)). congruence. }
  rewrite run_bind_Ret. setoid_rewrite Stake_add_Ret. split.
  - intros (? & [-> Hm] & Hl). apply IH in Hl as (Hall & Hnd & Hn & Hmax & -> & ->); [|done].
    split_and!; try done; try lia.
    + intros Hin. specialize (Hn _ Hin). by rewrite lookup_insert_eq in Hn.
    + intros k' [->|Hin]%elem_of_cons; [done|]. specialize (Hn _ Hin).
      apply lookup_insert_None in Hn. tauto.
    + cbn [list_to_map foldr fst snd]. rewrite <- insert_union_l. 
      rewrite insert_union_r; [done|]. apply not_elem_of_list_to_map_1.
      intros Hin. specialize (Hn _ Hin). by rewrite lookup_insert_eq in Hn.
  - intros ([_ Hall] & [Hin Hnd] & Hn & Hmax & -> & ->).
    exists (t + s)%N. split; [split; [done|lia]|]. apply IH; [lia|].
    split_and!; try done; try lia.
    + intros k' Hk'. rewrite lookup_insert_ne by (intros ->; done). apply Hn. by right.
    + cbn [list_to_map foldr fst snd]. rewrite <- insert_union_l.
      rewrite insert_union_r; [done|]. by apply not_elem_of_list_to_map_1.
Qed.

Lemma map_stake_list_to_map (l : list (PT * Stake)) :
  NoDup l.*1 → map_stake (list_to_map l) = nsum l.*2.
Proof. intros. unfold map_stake. by rewrite map_to_list_to_map. Qed.

(** The entries a validator set can be created from. *)
Definition valid_entries (l : list (PT * Stake)) : Prop :=
  l ≠ [] ∧ Forall (λ p, p.2 ≠ 0%N) l ∧ NoDup l.*1 ∧ (nsum l.*2 ≤ u256_MAX)%N.

Lemma create_Ok l vs :
  create l = Ret (Ok vs) ↔
  valid_entries l ∧ vs = {| validators := list_to_map l; total_stake := nsum l.*2 |}.
Proof.
  unfold create. rewrite run_try_Ok. split.
  - intros ([m t] & Hl & Hif). apply create_loop_Ok in Hl as (Hall & Hnd & _ & Hmax & -> & ->);
      [|unfold Stake_ZERO; lia].
    rewrite map_union_empty in *. case_decide as Hem; [done|]. injection Hif as <-.
    split; [|done]. split_and!; try done. by intros ->.
  - intros ((Hne & Hall & Hnd & Hmax) & ->). exists (list_to_map l, nsum l.*2). split.
    + apply create_loop_Ok; [unfold Stake_ZERO; lia|]. rewrite map_union_empty.
      split_and!; done.
    + rewrite decide_False; [done|]. destruct l as [|[k s] l]; [done|]. cbn.
      apply insert_non_empty.
Qed.

Lemma create_wf l vs : create l = Ret (Ok vs) → wf_validator_set vs.
Proof.
  intros ((Hne & Hall & Hnd & Hmax) & ->)%create_Ok. split_and!; cbn.
  - destruct l as [|[k s] l]; [done|]. cbn. apply insert_non_empty.
  - intros k s Hk%elem_of_list_to_map_2. rewrite Forall_forall in Hall.
    specialize (Hall _ Hk). cbn in Hall. lia.
  - by rewrite map_stake_list_to_map.
  - done.
Qed.
End validator_set.

Arguments ValidatorSet PT {_}.
Arguments ValidatorSetCreationError PT : clear implicits.
Arguments ValidatorSetError PT : clear implicits.

(** A list scan is one implementation of [duplicates]. *)
Fixpoint scan_duplicates {PT} `{EqDecision PT} (l : list PT) : list PT :=
  match l with
  | [] => []
  | x :: l => if decide (x ∈ l) then x :: scan_duplicates l else scan_duplicates l
  end.

Lemma scan_duplicates_spec {PT} `{EqDecision PT} (l : list PT) x :
  x ∈ scan_duplicates l ↔ ∃ i j, i ≠ j ∧ l !! i = Some x ∧ l !! j = Some x.
Proof.
  induction l as [|y l IH]; cbn.
  { split; [by intros ?%elem_of_nil|]. intros (i & j & _ & ? & _). done. }
  assert (x ∈ scan_duplicates l →
    ∃ i j, i ≠ j ∧ (y :: l) !! i = Some x ∧ (y :: l) !! j = Some x) as Htail.
  { intros (i & j & ? & ? & ?)%IH. exists (S i), (S j). split_and!; [lia|done|done]. }
  assert ((∃ i j, i ≠ j ∧ (y :: l) !! i = Some x ∧ (y :: l) !! j = Some x) →
    (x = y ∧ y ∈ l) ∨ x ∈ scan_duplicates l) as Hback.
  { intros ([|i] & [|j] & ? & Hi & Hj); cbn in *; simplify_eq; try lia.
    - left. split; [done|]. by eapply list_elem_of_lookup_2.
    - left. split; [done|]. by eapply list_elem_of_lookup_2.
    - right. apply IH. exists i, j. split_and!; [lia|done|done]. }
  case_decide as Hy.
  - rewrite elem_of_cons. split.
    + intros [->|?]; [|auto]. apply list_elem_of_lookup in Hy as [i Hi].
      exists 0, (S i). done.
    + intros [[-> _]|?]%Hback; auto.
  - split; [done|]. intros [[-> ?]|?]%Hback; done.
Qed.

#[global] Instance Duplicates_scan `{EqDecision PT} : Duplicates PT :=
  {| duplicates := scan_duplicates; duplicates_spec := scan_duplicates_spec |}.

(** ** Theorems *)

Section theorems.
Context {PT : Type} `{!PubKey PT, !Duplicates PT, !U256Ops}.

Lemma super_majority_overlap (vs : ValidatorSet PT) l1 l2 :
  wf_validator_set vs → (total_stake vs * 2 ≤ u256_MAX)%N →
  has_super_majority_votes vs l1 = Ret (Ok true) →
  has_super_majority_votes vs l2 = Ret (Ok true) →
  (total_stake vs < 3 * stake_of (validators vs) (filter (.∈ l1) l2))%N.
Proof.
  intros Hwf H2 [Hn1 H1]%has_super_majority_votes_true [Hn2 Hv2]%has_super_majority_votes_true;
    try done.
  pose proof (stake_of_overlap (validators vs) l1 l2 Hn1 Hn2) as Hov.
  pose proof Hwf as (_ & _ & Ht & _). rewrite <- Ht in Hov.
  unfold super_majority in *. abstract_div (total_stake vs * 2)%N 3%N. lia.
Qed.

(** Two super majorities share a node outside any set that holds at most a
    third of the stake. *)
Lemma super_majority_honest (vs : ValidatorSet PT) l1 l2 B :
  wf_validator_set vs → (total_stake vs * 2 ≤ u256_MAX)%N →
  has_super_majority_votes vs l1 = Ret (Ok true) →
  has_super_majority_votes vs l2 = Ret (Ok true) →
  NoDup B → (3 * stake_of (validators vs) B ≤ total_stake vs)%N →
  ∃ x, x ∈ l1 ∧ x ∈ l2 ∧ is_Some (validators vs !! x) ∧ x ∉ B.
Proof.
  intros Hwf Hm H1 H2 HB HBs.
  pose proof (super_majority_overlap vs l1 l2 Hwf Hm H1 H2) as Hlt.
  apply has_super_majority_votes_true in H2 as [Hn2 _]; [|done|done].
  destruct (stake_of_exceeds (validators vs) (filter (.∈ l1) l2) B) as (x & Hx & ? & ?);
    [by apply NoDup_filter|done|lia|].
  apply list_elem_of_filter in Hx as [? ?]. by exists x.
Qed.

(** [create] accepts exactly the non-empty lists of distinct nodes with
    non-zero stake whose total fits in 256 bits, and the set it returns holds
    those stakes, satisfies the validator set invariant, and finds every
    listed node a member. *)
Theorem create_characterised (l : list (PT * Stake)) :
  (valid_entries l ↔ ∃ vs, create l = Ret (Ok vs)) ∧
  ∀ vs, create l = Ret (Ok vs) →
    wf_validator_set vs ∧
    (∀ k s, (k, s) ∈ l ↔ get_members vs !! k = Some s) ∧
    (∀ k, is_member vs k = true ↔ k ∈ l.*1).
Proof.
  split.
  - split; [|by intros (vs & [? _]%create_Ok)].
    intros. eexists. by apply create_Ok.
  - intros vs Hvs. split; [by eapply create_wf|].
    apply create_Ok in Hvs as ((_ & _ & Hnd & _) & ->).
    assert (∀ k s, (k, s) ∈ l ↔ (list_to_map l : gmap PT Stake) !! k = Some s) as Hl.
    { intros. split; [by apply elem_of_list_to_map_1|apply elem_of_list_to_map_2]. }
    split; [done|]. intros k. unfold is_member. cbn. rewrite bool_decide_eq_true.
    rewrite list_elem_of_fmap. split.
    + intros [s Hs%Hl]. by exists (k, s).
    + intros ([? s] & -> & ?). exists s. by apply Hl.
Qed.

(** Quorum intersection.  Two voter lists that both pass
    [has_super_majority_votes] share validators holding more than a third of
    the total stake; so whenever the faulty nodes [B] hold at most a third, a
    node outside [B] is in both lists. *)
Theorem super_majorities_intersect (vs : ValidatorSet PT) l1 l2 B :
  wf_validator_set vs → (total_stake vs * 2 ≤ u256_MAX)%N →
  has_super_majority_votes vs l1 = Ret (Ok true) →
  has_super_majority_votes vs l2 = Ret (Ok true) →
  (total_stake vs < 3 * stake_of (validators vs) (filter (.∈ l1) l2))%N ∧
  (NoDup B → (3 * stake_of (validators vs) B ≤ total_stake vs)%N →
   ∃ x, x ∈ l1 ∧ x ∈ l2 ∧ is_Some (validators vs !! x) ∧ x ∉ B).
Proof.
  intros Hwf H2 Hv1 Hv2. split; [by apply super_majority_overlap|].
  intros. by apply (super_majority_honest vs l1 l2 B).
Qed.

(** Whenever the faulty nodes [B] hold at most a third of the stake, a
    voter list that passes [has_honest_vote] contains a validator outside [B];
    and if they hold strictly less than a third, the remaining validators pass
    [has_super_majority_votes]. *)
Theorem honest_vote_and_liveness (vs : ValidatorSet PT) B :
  wf_validator_set vs → (total_stake vs * 2 ≤ u256_MAX)%N → NoDup B →
  ((3 * stake_of (validators vs) B ≤ total_stake vs)%N →
   ∀ l, has_honest_vote vs l = Ret (Ok true) →
   ∃ x, x ∈ l ∧ is_Some (validators vs !! x) ∧ x ∉ B) ∧
  ((3 * stake_of (validators vs) B < total_stake vs)%N →
   has_super_majority_votes vs (filter (.∉ B) (btree_keys (validators vs))) = Ret (Ok true)).
Proof.
  intros Hwf H2 HB. pose proof Hwf as (_ & _ & Ht & Hmax). split.
  - intros HBs l [Hl Hs]%has_honest_vote_true; [|done]. unfold honest_threshold in Hs.
    apply stake_of_exceeds; [done|done|].
    abstract_div (total_stake vs) 3%N. lia.
  - intros HBs. apply has_super_majority_votes_true; [done|done|].
    split; [apply NoDup_filter, NoDup_btree_keys|].
    pose proof (stake_of_filter (validators vs) (.∈ B) (btree_keys (validators vs))) as Hf.
    change (λ x, ¬ x ∈ B) with (.∉ B) in Hf.
    assert (stake_of (validators vs) (btree_keys (validators vs)) = total_stake vs) as Hall.
    { unfold btree_keys. rewrite btree_iter_perm, stake_of_members. done. }
    assert (stake_of (validators vs) (filter (.∈ B) (btree_keys (validators vs)))
            ≤ stake_of (validators vs) B)%N.
    { apply stake_of_all_In; [apply NoDup_filter, NoDup_btree_keys| |done].
      intros x [? _]%list_elem_of_filter _. done. }
    unfold super_majority. rewrite Hall in Hf.
    abstract_div (total_stake vs * 2)%N 3%N. lia.
Qed.
End theorems.

(** Four validators of equal stake. *)
Definition four : list (N * Stake) := [(1, 1); (2, 1); (3, 1); (4, 1)]%N.

Definition four_validators : ValidatorSet N :=
  {| validators := list_to_map four; total_stake := 4%N |}.

Lemma four_validators_created : create four = Ret (Ok four_validators).
Proof. vm_compute. reflexivity. Qed.

Lemma super_majorities_intersect_witness :
  ∃ x, x ∈ [1; 2; 3]%N ∧ x ∈ [2; 3; 4]%N ∧ x ∉ [2]%N.
Proof.
  destruct (super_majorities_intersect four_validators [1; 2; 3]%N [2; 3; 4]%N [2]%N)
    as [_ Hx].
  - exact (create_wf _ _ four_validators_created).
  - vm_compute. discriminate.
  - vm_compute. reflexivity.
  - vm_compute. reflexivity.
  - destruct Hx as (x & ? & ? & _ & ?); [apply NoDup_singleton|vm_compute; discriminate|].
    exists x. split_and!; assumption.
Defined.

Lemma honest_vote_and_liveness_witness :
  has_super_majority_votes four_validators (filter (.∉ [2]%N) (btree_keys (validators four_validators)))
  = Ret (Ok true).
Proof.
  apply (honest_vote_and_liveness four_validators [2]%N).
  - exact (create_wf _ _ four_validators_created).
  - vm_compute. discriminate.
  - apply NoDup_singleton.
  - vm_compute. reflexivity.
Defined.

(** The bound on the total stake is needed: with the wrapping product of the
    256-bit type, one of two validators of stake 2^254 is a super majority. *)
Definition two_large : list (N * Stake) := [(1, 2 ^ 254); (2, 2 ^ 254)]%N.

Example super_majority_overflow :
  match create two_large with
  | Ret (Ok vs) => has_super_majority_votes vs [1%N]
  | _ => Panic
  end = Ret (Ok true).
Proof. vm_compute. reflexivity. Qed.
