(* ===== verification/EpochManager.v ===== *)
(** * Epochs ([src/validator/src/epoch_manager.rs] and
      [src/validator/src/validators_epoch_mapping.rs])

    [EpochManager] maps each known epoch to its first round;
    [ValidatorsEpochMapping] maps it to its validator set.  Both are filled when
    a boundary block is committed, possibly a second time after a restart.  The
    theorems characterise [get_epoch] and show that committing a chain never
    changes the epoch of a round already covered. *)
From S2P Require Import Prelude Types ValidatorSet.

(** ** EpochManager *)

Record EpochManager := {
  epoch_length : SeqNum;
  epoch_start_delay : Round;
  epoch_starts : gmap Epoch Round;
}.

Definition insert_epoch_start (self : EpochManager) (epoch : Epoch) (round : Round) :
    run EpochManager :=
  match epoch_starts self !! epoch with
  | None =>
      Ret {| epoch_length := epoch_length self;
             epoch_start_delay := epoch_start_delay self;
             epoch_starts := <[epoch := round]> (epoch_starts self) |}
  | Some r =>
      assert (r = round) ≫= λ _,
      Ret self
  end.

Definition EpochManager_new (len : SeqNum) (delay : Round) (known_epochs : list (Epoch * Round)) :
    run EpochManager :=
  foldl (λ acc p, em ← acc; insert_epoch_start em p.1 p.2)
    (Ret {| epoch_length := len; epoch_start_delay := delay; epoch_starts := ∅ |})
    known_epochs.

Definition schedule_epoch_start (self : EpochManager) (block_num : SeqNum) (block_round : Round) :
    run EpochManager :=
  boundary ← is_boundary_block block_num (epoch_length self);
  if negb boundary then Ret self
  else
    e ← to_epoch block_num (epoch_length self);
    next_epoch ← Epoch_add e 1;
    epoch_start_round ← Round_add block_round (epoch_start_delay self);
    insert_epoch_start self next_epoch epoch_start_round.

Definition get_epoch_start (self : EpochManager) (epoch : Epoch) : option Round :=
  epoch_starts self !! epoch.

Definition get_epoch (self : EpochManager) (round : Round) : option Epoch :=
  fst <$> find_last (λ k, bool_decide (k.2 ≤ round)%N) (btree_iter (epoch_starts self)).

(** ** ValidatorsEpochMapping *)

Section mapping.
Context {PT CertPubKey : Type} `{!PubKey PT, !EqDecision CertPubKey}.

(** The [HashMap] of the source, with the factory [ValidatorSetFactory]. *)
Record ValidatorsEpochMapping := {
  validator_map : gmap Epoch (ValidatorSet PT * gmap PT CertPubKey);
}.

Definition ValidatorsEpochMapping_new : ValidatorsEpochMapping := {| validator_map := ∅ |}.

Definition get_val_set (self : ValidatorsEpochMapping) (epoch : Epoch) : option (ValidatorSet PT) :=
  fst <$> validator_map self !! epoch.

Definition get_cert_pubkeys (self : ValidatorsEpochMapping) (epoch : Epoch) :
    option (gmap PT CertPubKey) :=
  snd <$> validator_map self !! epoch.

Definition ValidatorsEpochMapping_insert (self : ValidatorsEpochMapping) (epoch : Epoch)
    (val_stakes : list (PT * Stake)) (val_cert_pubkeys : gmap PT CertPubKey) :
    run ValidatorsEpochMapping :=
  created ← create val_stakes;
  vs ← match created with Ok vs => Ret vs | Err _ => Panic end;
  match validator_map self !! epoch with
  | None => Ret {| validator_map := <[epoch := (vs, val_cert_pubkeys)]> (validator_map self) |}
  | Some (vs0, keys0) =>
      assert (get_members vs0 = get_members vs) ≫= λ _,
      assert (keys0 = val_cert_pubkeys) ≫= λ _,
      Ret self
  end.
End mapping.

Arguments ValidatorsEpochMapping PT CertPubKey {_}.

(** ** Lemmas *)

(** The last entry of an ordered map that satisfies a test on the value is the
    one with the greatest key. *)
Lemma find_last_btree {V} (P : V → bool) (m : gmap N V) (e : N) :
  fst <$> find_last (λ k, P k.2) (btree_iter m) = Some e ↔
  (∃ v, m !! e = Some v ∧ P v = true) ∧
  ∀ e' v', m !! e' = Some v' → P v' = true → (e' ≤ e)%N.
Proof.
  pose proof (btree_iter_sorted m) as Hs. split.
  - intros ([e0 v] & Hf & ->)%fmap_Some. apply find_last_Some in Hf as (l1 & l2 & Hl & HP & Hn).
    cbn in *. split.
    { exists v. split; [|done]. apply elem_of_btree_iter. rewrite Hl. set_solver. }
    intros e' v' He' HP'. apply elem_of_btree_iter in He'. rewrite Hl in He', Hs.
    apply elem_of_app in He' as [He'|[He'|He']%elem_of_cons].
    + apply StronglySorted_app in Hs as (Hs & _ & _). 
      apply (Hs (e', v') (e0, v)); [done|left].
    + by simplify_eq.
    + rewrite Forall_forall in Hn. specialize (Hn _ He'). cbn in Hn. congruence.
  - intros ((v & Hv & HP) & Hmax).
    destruct (find_last (λ k, P k.2) (btree_iter m)) as [[e0 v0]|] eqn:Hf; cbn.
    + pose proof Hf as (l1 & l2 & Hl & HP0 & Hn)%find_last_Some. cbn in HP0.
      assert (m !! e0 = Some v0) as He0.
      { apply elem_of_btree_iter. rewrite Hl. set_solver. }
      assert (e0 ≤ e)%N as Hle by eauto. f_equal.
      apply elem_of_btree_iter in Hv. rewrite Hl in Hv, Hs.
      apply elem_of_app in Hv as [Hv|[Hv|Hv]%elem_of_cons].
      * apply StronglySorted_app in Hs as (Hs & _ & _).
        specialize (Hs (e, v) (e0, v0) Hv ltac:(left)). cbn in Hs. lia.
      * by simplify_eq.
      * rewrite Forall_forall in Hn. specialize (Hn _ Hv). cbn in Hn. congruence.
    + apply find_last_None in Hf. rewrite Forall_forall in Hf.
      apply elem_of_btree_iter in Hv. specialize (Hf _ Hv). cbn in Hf. congruence.
Qed.

Lemma find_last_btree_None {V} (P : V → bool) (m : gmap N V) :
  fst <$> find_last (λ k, P k.2) (btree_iter m) = None ↔
  ∀ e v, m !! e = Some v → P v = false.
Proof.
  rewrite fmap_None, find_last_None, Forall_forall. split.
  - intros Hall e v Hv%elem_of_btree_iter. apply (Hall _ Hv).
  - intros Hall [e v] Hv%elem_of_btree_iter. by eapply Hall.
Qed.

Lemma get_epoch_Some em r e :
  get_epoch em r = Some e ↔
  (∃ s, epoch_starts em !! e = Some s ∧ (s ≤ r)%N) ∧
  ∀ e' s', epoch_starts em !! e' = Some s' → (s' ≤ r)%N → (e' ≤ e)%N.
Proof.
  pose proof (find_last_btree (λ s, bool_decide (s ≤ r)%N) (epoch_starts em) e) as Hf.
  setoid_rewrite bool_decide_eq_true in Hf. exact Hf.
Qed.

Lemma get_epoch_None em r :
  get_epoch em r = None ↔ ∀ e s, epoch_starts em !! e = Some s → (r < s)%N.
Proof.
  pose proof (find_last_btree_None (λ s, bool_decide (s ≤ r)%N) (epoch_starts em)) as Hf.
  setoid_rewrite bool_decide_eq_false in Hf. setoid_rewrite N.nle_gt in Hf. exact Hf.
Qed.

(** Adding an epoch that starts after round [r] does not change the epoch of [r]. *)
Lemma get_epoch_insert em em' e s r :
  epoch_starts em' = <[e := s]> (epoch_starts em) → epoch_starts em !! e = None →
  (r < s)%N → get_epoch em' r = get_epoch em r.
Proof.
  intros Hem Hne Hrs. apply option_eq. intros e0. rewrite !get_epoch_Some, Hem.
  assert (∀ e' s', (s' ≤ r)%N →
    <[e := s]> (epoch_starts em) !! e' = Some s' ↔ epoch_starts em !! e' = Some s') as Hl.
  { intros e' s' Hle. rewrite lookup_insert. case_decide; [subst e'|done].
    rewrite Hne. split; [intros [= ->]; lia|done]. }
  split; intros [(s0 & Hs0 & Hle) Hmax]; (split; [exists s0|]); try (split; [|done]).
  1, 3: by apply Hl. all: intros; eapply Hmax; [|done]; by apply Hl.
Qed.

(** The start rounds grow with the epochs. *)
Definition starts_increase (em : EpochManager) : Prop :=
  ∀ e1 s1 e2 s2, epoch_starts em !! e1 = Some s1 → epoch_starts em !! e2 = Some s2 →
    (e1 < e2)%N → (s1 < s2)%N.

(** What holds once the block number [n] of round [r] is committed. *)
Definition committed_inv (em : EpochManager) (n : SeqNum) (r : Round) : Prop :=
  (1 < epoch_length em)%N ∧ starts_increase em ∧
  ∀ e s, epoch_starts em !! e = Some s →
    (e ≤ (n + 1) / epoch_length em + 1)%N ∧ (s ≤ r + epoch_start_delay em)%N.

(** Committing the blocks of a chain, oldest first. *)
Definition schedule_chain (em : EpochManager) (blocks : list (SeqNum * Round)) :
    run EpochManager :=
  foldl (λ acc b, em ← acc; schedule_epoch_start em b.1 b.2) (Ret em) blocks.

(** A chain that extends block [n] of round [r]: consecutive numbers, rounds
    that increase and leave room for the delay. *)
Fixpoint chain_from (delay : Round) (n : SeqNum) (r : Round) (blocks : list (SeqNum * Round)) :
    Prop :=
  match blocks with
  | [] => True
  | (n', r') :: blocks =>
      n' = (n + 1)%N ∧ (r < r')%N ∧ (r' + delay ≤ u64_MAX)%N ∧ (n' < u64_MAX)%N ∧
      chain_from delay n' r' blocks
  end.

Lemma schedule_epoch_start_step em n r r' :
  committed_inv em n r → (r < r')%N → (r' + epoch_start_delay em ≤ u64_MAX)%N →
  (n + 1 < u64_MAX)%N →
  ∃ em', schedule_epoch_start em (n + 1) r' = Ret em' ∧ committed_inv em' (n + 1) r' ∧
    epoch_length em' = epoch_length em ∧ epoch_start_delay em' = epoch_start_delay em ∧
    ∀ x, (x ≤ r + epoch_start_delay em)%N → get_epoch em' x = get_epoch em x.
Proof.
  intros (Hlen & Hinc & Hb) Hr Hmax Hn. set (len := epoch_length em) in *.
  unfold schedule_epoch_start. fold len. rewrite is_boundary_block_spec by lia.
  cbn [mbind run_bind]. case_bool_decide as Hbd; cbn [negb].
  - assert ((n + 1) / len < u64_MAX - 1)%N as Hq.
    { apply N.Div0.div_lt_upper_bound. unfold u64_MAX in *. nia. }
    assert ((n + 1 + 1) / len = (n + 1) / len + 1)%N as Hnext.
    { symmetry. apply (N.div_unique _ _ _ 0); [lia|].
      pose proof (N.Div0.div_mod (n + 1) len) as Hd. rewrite Hbd in Hd. nia. }
    rewrite to_epoch_ok by lia. cbn [mbind run_bind].
    unfold Epoch_add, u64_checked_add. rewrite decide_True by lia. cbn [expect mbind run_bind].
    rewrite Round_add_ok by done. cbn [mbind run_bind]. unfold insert_epoch_start.
    assert (epoch_starts em !! ((n + 1) / len + 1 + 1)%N = None) as Hnone.
    { destruct (epoch_starts em !! ((n + 1) / len + 1 + 1)%N) as [s|] eqn:He; [|done].
      apply Hb in He. lia. }
    rewrite Hnone. eexists. split; [done|]. unfold committed_inv, starts_increase.
    split_and!; try done; cbn.
    + intros e1 s1 e2 s2. rewrite !lookup_insert.
      case_decide as H1; case_decide as H2; intros H1' H2' Hlt; simplify_eq.
      * lia.
      * apply Hb in H2'. lia.
      * apply Hb in H1'. lia.
      * by eapply Hinc.
    + intros e s. fold len. rewrite Hnext, lookup_insert. case_decide.
      * intros [= <-]. lia.
      * intros [??]%Hb. lia.
    + intros x Hx. eapply get_epoch_insert; [done|done|]. cbn. lia.
  - exists em. unfold committed_inv. split_and!; try done. intros e s [He Hs]%Hb. fold len. split; [|lia].
    etrans; [exact He|]. assert ((n + 1) / len ≤ (n + 1 + 1) / len)%N; [|lia].
    apply N.Div0.div_le_mono. lia.
Qed.

Lemma schedule_chain_inv blocks em n r :
  committed_inv em n r → chain_from (epoch_start_delay em) n r blocks →
  ∃ em', schedule_chain em blocks = Ret em' ∧ starts_increase em' ∧
    ∀ x, (x ≤ r + epoch_start_delay em)%N → get_epoch em' x = get_epoch em x.
Proof.
  revert em n r. induction blocks as [|[n' r'] blocks IH]; intros em n r Hinv Hc.
  { exists em. split_and!; try done. apply Hinv. }
  destruct Hc as (-> & Hr & Hmax & Hn & Hc).
  destruct (schedule_epoch_start_step em n r r') as (em1 & H1 & Hinv1 & Hl1 & Hd1 & Hg1);
    try done.
  destruct (IH em1 (n + 1)%N r') as (em2 & H2 & Hinc2 & Hg2); [done|by rewrite Hd1|].
  exists em2. unfold schedule_chain in *. cbn [foldl fst snd]. rewrite <- H2. split_and!.
  - cbn [mbind run_bind]. by rewrite H1.
  - done.
  - intros x Hx. rewrite Hg2 by (rewrite Hd1; lia). auto.
Qed.

(** ** Theorems *)

(** [get_epoch] returns the greatest epoch that has started at the round,
    and none when no known epoch has; when the starts increase with the epochs
    it is monotone in the round and each epoch covers the rounds from its start
    to the start of the next known epoch. *)
Theorem get_epoch_correct (em : EpochManager) (r : Round) (e : Epoch) :
  (get_epoch em r = Some e ↔
   (∃ s, get_epoch_start em e = Some s ∧ (s ≤ r)%N) ∧
   ∀ e' s', get_epoch_start em e' = Some s' → (s' ≤ r)%N → (e' ≤ e)%N) ∧
  (starts_increase em → get_epoch em r = Some e →
   (∀ r' e', (r ≤ r')%N → get_epoch em r' = Some e' → (e ≤ e')%N) ∧
   (∀ e' s', (e < e')%N → get_epoch_start em e' = Some s' → (r < s')%N)).
Proof.
  split; [apply get_epoch_Some|].
  intros Hinc ((s & Hs & Hle) & Hmax)%get_epoch_Some. split.
  - intros r' e' Hr' (_ & Hmax')%get_epoch_Some. eapply Hmax'; [done|]. lia.
  - intros e' s' Hlt Hs'. apply N.nle_gt. intros Hle'. specialize (Hmax _ _ Hs' Hle'). lia.
Qed.

(** C40: committing any chain of consecutive blocks in increasing rounds never
    panics, keeps the epoch starts increasing, and never changes the epoch of a
    round up to [epoch_start_delay] rounds after the last committed block: the
    answers of [get_epoch] a node has already used are stable. *)
Theorem epochs_stable_under_commit (em : EpochManager) (n : SeqNum) (r : Round)
    (blocks : list (SeqNum * Round)) :
  committed_inv em n r → chain_from (epoch_start_delay em) n r blocks →
  ∃ em', schedule_chain em blocks = Ret em' ∧ starts_increase em' ∧
    ∀ x, (x ≤ r + epoch_start_delay em)%N → get_epoch em' x = get_epoch em x.
Proof. apply schedule_chain_inv. Qed.

(** The schedule of a fresh node with epochs of five blocks and a delay of
    three rounds, after the blocks 1 to 4 of rounds 1, 2, 4 and 7. *)
Lemma epochs_stable_under_commit_witness :
  ∃ em em', EpochManager_new 5 3 [(1, 0)]%N = Ret em ∧
    schedule_chain em [(1, 1); (2, 2); (3, 4); (4, 7)]%N = Ret em' ∧
    get_epoch em' 3 = get_epoch em 3 ∧ get_epoch em' 10 = Some 2%N.
Proof.
  exists {| epoch_length := 5; epoch_start_delay := 3; epoch_starts := {[1%N := 0%N]} |}.
  destruct (epochs_stable_under_commit
    {| epoch_length := 5; epoch_start_delay := 3; epoch_starts := {[1%N := 0%N]} |} 0 0
    [(1, 1); (2, 2); (3, 4); (4, 7)]%N) as (em' & Hc & _ & Hx).
  - split_and!; [done| |].
    + intros e1 s1 e2 s2. cbn. rewrite !lookup_singleton_Some. intros [<- <-] [<- <-]. lia.
    + intros e s. cbn. rewrite lookup_singleton_Some. intros [<- <-]. split; [vm_compute; discriminate|lia].
  - cbn. unfold u64_MAX. split_and!; lia || done.
  - exists em'. split; [vm_compute; reflexivity|]. split; [exact Hc|].
    split; [apply Hx; cbn; lia|]. vm_compute in Hc. injection Hc as <-. vm_compute. reflexivity.
Defined.

Section mapping_theorems.
Context {PT CertPubKey : Type} `{!PubKey PT, !EqDecision CertPubKey, !Duplicates PT, !U256Ops}.

(** [insert] installs a well-formed validator set for a new epoch and leaves
    every other epoch alone; for a known epoch it accepts only the members and
    certificate keys already stored and changes nothing, so the set used for an
    epoch never changes. *)
Theorem ValidatorsEpochMapping_insert_spec (self self' : ValidatorsEpochMapping PT CertPubKey)
    epoch stakes keys :
  ValidatorsEpochMapping_insert self epoch stakes keys = Ret self' →
  (∃ vs, get_val_set self' epoch = Some vs ∧ get_cert_pubkeys self' epoch = Some keys ∧
     get_members vs = list_to_map stakes) ∧
  (∀ e vs, get_val_set self e = Some vs → get_val_set self' e = Some vs) ∧
  (∀ e, e ≠ epoch → validator_map self' !! e = validator_map self !! e) ∧
  ((∀ e vs, get_val_set self e = Some vs → wf_validator_set vs) →
   ∀ e vs, get_val_set self' e = Some vs → wf_validator_set vs).
Proof.
  unfold ValidatorsEpochMapping_insert. rewrite run_bind_Ret. intros (c & Hc & Hrun).
  destruct c as [vs|?]; [|done]. cbn in Hrun.
  pose proof (create_wf _ _ Hc) as Hwf. apply create_Ok in Hc as (_ & Hvs).
  destruct (validator_map self !! epoch) as [[vs0 keys0]|] eqn:He.
  - rewrite run_bind_Ret in Hrun. destruct Hrun as ([] & Hm%assert_Ret & Hrun).
    rewrite run_bind_Ret in Hrun. destruct Hrun as ([] & Hk%assert_Ret & [= <-]).
    split_and!; try done. exists vs0. unfold get_val_set, get_cert_pubkeys. rewrite He.
    split_and!; [done|by rewrite <- Hk|]. rewrite Hm, Hvs. done.
  - injection Hrun as <-. unfold get_val_set, get_cert_pubkeys. cbn. split_and!.
    + exists vs. rewrite lookup_insert_eq. split_and!; [done|done|]. by rewrite Hvs.
    + intros e vs0 Hv. rewrite lookup_insert_ne; [done|]. intros <-. by rewrite He in Hv.
    + intros e Hne. by rewrite lookup_insert_ne.
    + intros Hall e vs0. rewrite lookup_insert. case_decide; [|apply Hall].
      by intros [= <-].
Qed.
End mapping_theorems.

(** Four validators for a new epoch, added to a mapping with no epochs. *)
Lemma ValidatorsEpochMapping_insert_spec_witness :
  ∃ self', ValidatorsEpochMapping_insert (ValidatorsEpochMapping_new : ValidatorsEpochMapping N N) 1 four
      (list_to_map [(1, 11); (2, 12); (3, 13); (4, 14)]%N) = Ret self' ∧
    ∀ vs, get_val_set self' 1 = Some vs → wf_validator_set vs.
Proof.
  destruct (is_ret_true (ValidatorsEpochMapping_insert (ValidatorsEpochMapping_new : ValidatorsEpochMapping N N) 1 four
      (list_to_map [(1, 11); (2, 12); (3, 13); (4, 14)]%N))) as [self' Hrun];
    [vm_compute; reflexivity|].
  exists self'. split; [exact Hrun|].
  destruct (ValidatorsEpochMapping_insert_spec _ _ _ _ _ Hrun) as (_ & _ & _ & Hwf).
  apply Hwf. intros e vs. unfold get_val_set. cbn. by rewrite lookup_empty.
Defined.
