(* ===== verification/LeaderElection.v ===== *)
(** * Leader election ([src/validator/src/leader_election.rs],
      [simple_round_robin.rs] and [weighted_round_robin.rs])

    The class [LeaderElection] is the trait of the source; the two round robin
    rules are its instances.  The weighted rule draws an index below the total
    stake by rejection sampling and finds the validator that owns the index by
    binary search over the partial sums.  The theorems show that the draw is
    exactly uniform over the accepted generator outputs, that the binary search
    agrees with a linear scan, and that each validator owns exactly as many
    indices as it has stake. *)
From S2P Require Import Prelude Types ValidatorSet.

(** ** The trait *)

Class LeaderElection (PT : Type) `{!PubKey PT} := {
  get_leader : Round → gmap PT Stake → run PT;
}.

(** What the users of an election rely on: the leader is a validator. *)
Class LeaderElectionLaws (PT : Type) `{!PubKey PT, !LeaderElection PT} := {
  get_leader_member r m x :
    (map_stake m ≤ u256_MAX)%N → get_leader r m = Ret x → is_Some (m !! x);
}.

(** ** SimpleRoundRobin *)

Definition simple_get_leader {PT} `{!PubKey PT} (round : Round) (validators : gmap PT Stake) :
    run PT :=
  let validators := btree_keys validators in
  if decide (length validators = 0) then Panic
  else expect (validators !! N.to_nat (round `mod` N.of_nat (length validators))).

#[global] Instance SimpleRoundRobin {PT} `{!PubKey PT} : LeaderElection PT | 100 :=
  {| get_leader := simple_get_leader |}.

(** ** The random generator

    [ChaCha20Rng]: a generator seeded by a [u64] that fills byte buffers. *)

Class SeedableRng := {
  rng : Type;
  seed_from_u64 : N → rng;
  fill_bytes : nat → rng → list N * rng;
  fill_bytes_length n g : length (fill_bytes n g).1 = n;
  fill_bytes_byte n g : Forall (λ b, b < 256)%N (fill_bytes n g).1;
}.

(** [U256::from_le_bytes]. *)
Definition from_le_bytes (bytes : list N) : N := foldr (λ b acc, b + 256 * acc)%N 0%N bytes.

(** ** Binary search

    [slice::binary_search_by] of the standard library; [base] and [size] are
    its mutable locals. *)

Fixpoint binary_search_loop {A} (fuel : nat) (f : A → comparison) (l : list A) (base size : nat) :
    option nat :=
  if decide (size ≤ 1) then Some base
  else
    match fuel with
    | 0 => None
    | S fuel =>
        let half := size / 2 in
        let mid := base + half in
        x ← l !! mid;
        let base := match f x with Gt => base | _ => mid end in
        binary_search_loop fuel f l base (size - half)
    end.

Definition binary_search_by {A} (f : A → comparison) (l : list A) : option (result nat nat) :=
  if decide (length l = 0) then Some (Err 0)
  else
    base ← binary_search_loop (length l) f l 0 (length l);
    x ← l !! base;
    Some match f x with
         | Eq => Ok base
         | Lt => Err (base + 1)
         | Gt => Err base
         end.

(** ** WeightedRoundRobin *)

Section weighted.
Context {PT : Type} `{!PubKey PT, !U256Ops, !SeedableRng}.

Definition rejection_max (m : N) : N :=
  u256_sub u256_MAX (u256_add (u256_sub u256_MAX m) 1 `mod` m)%N.

(** The [loop] of [randomize_256_with_rng]; [None] when the first [fuel] draws
    are all rejected. *)
Fixpoint randomize_loop (fuel : nat) (gen : rng) (max m : N) : option N :=
  match fuel with
  | 0 => None
  | S fuel =>
      let '(bytes, gen) := fill_bytes 32 gen in
      let r := from_le_bytes bytes in
      if decide (r ≤ max)%N then Some (r `mod` m)%N
      else randomize_loop fuel gen max m
  end.

Definition randomize_256_with_rng (fuel : nat) (gen : rng) (m : N) : run (option N) :=
  if decide (m = 0)%N then Panic
  else Ret (randomize_loop fuel gen (rejection_max m) m).

(** The [filter_map] that collects the partial sums, with the captured
    [total_stake]. *)
Fixpoint stake_bounds (validators : list (PT * Stake)) (total : N) : list (PT * N) * N :=
  match validators with
  | [] => ([], total)
  | (node_id, stake) :: validators =>
      if decide (0 < stake)%N then
        let total := u256_add total stake in
        let '(bounds, final) := stake_bounds validators total in
        ((node_id, total) :: bounds, final)
      else stake_bounds validators total
  end.

Definition generate_random_validator_with_randomizer (validators : list (PT * Stake))
    (randomize_from_total_stake : N → run (option N)) : run (option PT) :=
  let '(bounds, total_stake) := stake_bounds validators 0%N in
  if decide (bounds = []) then Panic
  else
    draw ← randomize_from_total_stake total_stake;
    match draw with
    | None => Ret None
    | Some stake_index =>
        match binary_search_by
                (λ b : PT * N, if decide (stake_index < b.2)%N then Gt else Lt) bounds with
        | Some (Err upper_bound) =>
            b ← expect (bounds !! upper_bound);
            Ret (Some b.1)
        | _ => Panic
        end
    end.

Definition weighted_get_leader (fuel : nat) (round : Round) (validators : gmap PT Stake) :
    run (option PT) :=
  let gen := seed_from_u64 round in
  generate_random_validator_with_randomizer (btree_iter validators)
    (randomize_256_with_rng fuel gen).

(** As an election: a call whose draws are all rejected does not return, which
    is no value, like a panic. *)
Definition WeightedRoundRobin (fuel : nat) : LeaderElection PT :=
  {| get_leader round validators :=
       match weighted_get_leader fuel round validators with
       | Ret (Some x) => Ret x
       | _ => Panic
       end |}.
End weighted.

(** ** Specification vocabulary *)

(** The validator that owns index [i]: the linear scan. *)
Fixpoint owner_of {PT} (l : list (PT * Stake)) (i : N) : option PT :=
  match l with
  | [] => None
  | (v, s) :: l => if decide (i < s)%N then Some v else owner_of l (i - s)
  end.

(** ** Lemmas *)

(** A test that is [Lt] up to an index and [Gt] from there on. *)
Definition partitioned {A} (f : A → comparison) (l : list A) (p : nat) : Prop :=
  p ≤ length l ∧ ∀ j x, l !! j = Some x → f x = if decide (j < p) then Lt else Gt.

Lemma binary_search_loop_spec {A} (f : A → comparison) l p fuel base size :
  partitioned f l p → size ≤ S fuel → 0 < size → base + size ≤ length l →
  base ≤ p ≤ base + size → (base = 0 ∨ base < p) →
  ∃ b, binary_search_loop fuel f l base size = Some b ∧ b < length l ∧
       b ≤ p ≤ b + 1 ∧ (b = 0 ∨ b < p).
Proof.
  intros [Hp Hf]. revert base size. induction fuel as [|fuel IH]; intros base size Hfu H0 Hl Hbp Hb;
    cbn [binary_search_loop]; destruct (decide (size ≤ 1)).
  1, 3: exists base; split_and!; (done || lia). { lia. }
  pose proof (Nat.div_mod_eq size 2). pose proof (Nat.mod_upper_bound size 2 ltac:(lia)).
  generalize dependent (size / 2). intros half Hh1.
  destruct (lookup_lt_is_Some_2 l (base + half)) as [x Hx]; [lia|].
  rewrite Hx. cbn [mbind option_bind]. rewrite (Hf _ _ Hx).
  case_decide as Hd; apply IH; lia.
Qed.

Lemma binary_search_by_spec {A} (f : A → comparison) l p :
  partitioned f l p → binary_search_by f l = Some (Err p).
Proof.
  intros Hpart. pose proof Hpart as [Hp Hf]. unfold binary_search_by. case_decide as Hl.
  { do 2 f_equal. lia. }
  destruct (binary_search_loop_spec f l p (length l) 0 (length l)) as (b & -> & Hbl & Hb & Hb0);
    [done|lia..|].
  cbn [mbind option_bind]. destruct (lookup_lt_is_Some_2 l b Hbl) as [x Hx].
  rewrite Hx. cbn [mbind option_bind]. rewrite (Hf _ _ Hx).
  do 2 f_equal. case_decide; f_equal; lia.
Qed.

(** The first index that passes a test splits a list sorted for the test. *)
Lemma partitioned_exists {A} (P : A → Prop) `{∀ x, Decision (P x)} l :
  (∀ j k x y, j < k → l !! j = Some x → l !! k = Some y → P x → P y) →
  ∃ p, partitioned (λ x, if decide (P x) then Gt else Lt) l p ∧
       l !! p = find_first (λ x, bool_decide (P x)) l.
Proof.
  induction l as [|a l IH]; intros Hmono.
  { exists 0. split; [split; [done|]|done]. intros j x Hx. by rewrite lookup_nil in Hx. }
  destruct (decide (P a)) as [Ha|Ha].
  - exists 0. cbn. rewrite bool_decide_eq_true_2 by done. split; [|done]. split; [cbn; lia|].
    intros j x Hx. rewrite (decide_False (P := j < 0)) by lia. rewrite decide_True; [done|].
    destruct j as [|j]; cbn in Hx; [by simplify_eq|]. by eapply (Hmono 0 (S j)); [lia|..].
  - destruct IH as (p & [Hp Hf] & Hl).
    { intros j k x y Hjk Hx Hy. apply (Hmono (S j) (S k)); [lia|done|done]. }
    exists (S p). cbn. rewrite bool_decide_eq_false_2 by done. split; [|done].
    split; [cbn; lia|]. intros [|j] x Hx; cbn in Hx.
    + simplify_eq. by rewrite decide_False, decide_True by (done || lia).
    + rewrite (Hf _ _ Hx). destruct (decide (j < p)), (decide (S j < S p)); done || lia.
Qed.

Lemma from_le_bytes_bound bytes :
  Forall (λ b, b < 256)%N bytes → (from_le_bytes bytes < 256 ^ N.of_nat (length bytes))%N.
Proof.
  induction 1 as [|b bytes Hb Hall IH]; cbn [from_le_bytes foldr length]; [done|].
  rewrite Nat2N.inj_succ, N.pow_succ_r'. unfold from_le_bytes in IH. lia.
Qed.

Lemma rejection_max_spec `{!U256Ops} m :
  (0 < m ≤ u256_MAX)%N →
  (rejection_max m + 1 = m * ((u256_MAX + 1) / m))%N ∧ (rejection_max m ≤ u256_MAX)%N.
Proof.
  intros [H0 Hm]. unfold rejection_max.
  rewrite (u256_sub_exact u256_MAX m), u256_add_exact by lia.
  replace (u256_MAX - m + 1)%N with ((u256_MAX + 1) - 1 * m)%N by lia.
  assert (((u256_MAX + 1) - 1 * m) `mod` m = (u256_MAX + 1) `mod` m)%N as ->.
  { rewrite <- (N.Div0.mod_add (u256_MAX + 1 - 1 * m) 1 m). f_equal. lia. }
  abstract_div (u256_MAX + 1)%N m. rewrite u256_sub_exact by lia. lia.
Qed.

Section weighted_lemmas.
Context {PT : Type} `{!PubKey PT, !U256Ops, !SeedableRng}.
Implicit Types l : list (PT * Stake).

Lemma stake_bounds_total l t :
  (t + nsum l.*2 ≤ u256_MAX)%N → (stake_bounds l t).2 = (t + nsum l.*2)%N.
Proof.
  revert t. induction l as [|[v s] l IH]; intros t; cbn [stake_bounds fmap list_fmap snd].
  { cbn. lia. }
  rewrite nsum_cons. intros Hmax. case_decide.
  - rewrite u256_add_exact by lia. specialize (IH (t + s)%N ltac:(lia)).
    destruct (stake_bounds l (t + s)). cbn in *. lia.
  - rewrite IH; lia.
Qed.

Lemma stake_bounds_lower l t x b :
  (t + nsum l.*2 ≤ u256_MAX)%N → (x, b) ∈ (stake_bounds l t).1 → (t < b)%N.
Proof.
  revert t. induction l as [|[v s] l IH]; intros t; cbn [stake_bounds fmap list_fmap snd].
  { by intros _ ?%elem_of_nil. }
  rewrite nsum_cons. intros Hmax. case_decide.
  - rewrite u256_add_exact by lia. specialize (IH (t + s)%N ltac:(lia)).
    destruct (stake_bounds l (t + s)). cbn in *.
    intros [?|?%IH]%elem_of_cons; simplify_eq; lia.
  - apply IH. lia.
Qed.

Lemma stake_bounds_mono l t j k x y :
  (t + nsum l.*2 ≤ u256_MAX)%N → j < k →
  (stake_bounds l t).1 !! j = Some x → (stake_bounds l t).1 !! k = Some y → (x.2 < y.2)%N.
Proof.
  revert t j k. induction l as [|[v s] l IH]; intros t j k; cbn [stake_bounds fmap list_fmap snd].
  { done. }
  rewrite nsum_cons. intros Hmax Hjk. case_decide; [|apply IH; lia].
  rewrite u256_add_exact by lia. specialize (IH (t + s)%N).
  pose proof (stake_bounds_lower l (t + s) y.1 y.2 ltac:(lia)) as Hlow.
  destruct (stake_bounds l (t + s)) as [bs f]. cbn in *.
  destruct k as [|k]; [lia|]. destruct j as [|j]; cbn.
  - intros [= <-] Hy. apply Hlow. rewrite <- surjective_pairing. by eapply list_elem_of_lookup_2.
  - apply IH; lia.
Qed.

Lemma stake_bounds_find l t i :
  (t + nsum l.*2 ≤ u256_MAX)%N → (t ≤ i)%N →
  fst <$> find_first (λ b, bool_decide (i < b.2)%N) (stake_bounds l t).1 = owner_of l (i - t).
Proof.
  revert t. induction l as [|[v s] l IH]; intros t; cbn [stake_bounds fmap list_fmap snd owner_of].
  { done. }
  rewrite nsum_cons. intros Hmax Hi. destruct (decide (0 < s)%N).
  - rewrite u256_add_exact by lia. specialize (IH (t + s)%N ltac:(lia)).
    destruct (stake_bounds l (t + s)). cbn in *. case_bool_decide.
    + by rewrite decide_True by lia.
    + rewrite decide_False by lia. rewrite IH by lia. f_equal. lia.
  - rewrite decide_False by lia. rewrite IH by lia. f_equal. lia.
Qed.

Lemma stake_bounds_nonempty l t :
  (0 < nsum l.*2)%N → (stake_bounds l t).1 ≠ [].
Proof.
  revert t. induction l as [|[v s] l IH]; intros t; cbn [stake_bounds fmap list_fmap snd].
  { done. }
  rewrite nsum_cons. intros Hmax. case_decide; [by destruct (stake_bounds l _)|].
  apply IH. lia.
Qed.

Lemma owner_of_interval l i v :
  owner_of l i = Some v ↔
  ∃ l1 s l2, l = l1 ++ (v, s) :: l2 ∧ (nsum l1.*2 ≤ i < nsum l1.*2 + s)%N.
Proof.
  revert i. induction l as [|[w s] l IH]; intros i; cbn [owner_of].
  { split; [done|]. by intros ([] & ? & ? & ? & _). }
  case_decide as Hi; [|rewrite IH]; split.
  - intros [= ->]. exists [], s, l. cbn. split; [done|lia].
  - intros ([|[u z] l1] & s' & l2 & Heq & Hb); [by simplify_eq/=|exfalso].
    cbn in Heq. simplify_eq. rewrite fmap_cons, nsum_cons in Hb. cbn in Hb. lia.
  - intros (l1 & s' & l2 & -> & Hb). exists ((w, s) :: l1), s', l2. split; [done|].
    rewrite fmap_cons, nsum_cons. cbn. lia.
  - intros ([|[u z] l1] & s' & l2 & Heq & Hb); cbn in Heq; simplify_eq.
    + exfalso. cbn in Hb. lia.
    + exists l1, s', l2. split; [done|]. rewrite fmap_cons, nsum_cons in Hb. cbn in Hb. lia.
Qed.

Lemma owner_of_total l i : (i < nsum l.*2)%N → is_Some (owner_of l i).
Proof.
  revert i. induction l as [|[w s] l IH]; intros i; cbn [owner_of fmap list_fmap snd].
  { cbn. lia. }
  rewrite nsum_cons. intros. case_decide; [eauto|]. apply IH. lia.
Qed.

(** The binary search over the partial sums finds the owner of the index. *)
Lemma generate_random_validator_spec l rand :
  (0 < nsum l.*2 ≤ u256_MAX)%N →
  (∀ i, rand (nsum l.*2) = Ret (Some i) → (i < nsum l.*2)%N) →
  generate_random_validator_with_randomizer l rand =
  (draw ← rand (nsum l.*2); Ret (draw ≫= owner_of l)).
Proof.
  intros [Hz Hmax] Hrand. unfold generate_random_validator_with_randomizer.
  pose proof (stake_bounds_total l 0 Hmax) as Ht. pose proof (stake_bounds_nonempty l 0 Hz) as Hne.
  pose proof (λ j k x y, stake_bounds_mono l 0 j k x y Hmax) as Hmono.
  pose proof (λ i, stake_bounds_find l 0 i Hmax ltac:(lia)) as Hfind.
  destruct (stake_bounds l 0) as [bounds total]. cbn [fst snd] in *. subst total.
  rewrite decide_False by done. rewrite N.add_0_l.
  destruct (rand (nsum l.*2)) as [[i|]|] eqn:Hr; cbn [mbind run_bind option_bind]; [|done..].
  specialize (Hfind i). rewrite N.sub_0_r in Hfind.
  destruct (partitioned_exists (λ b : PT * N, i < b.2)%N bounds) as (p & Hp & Hl).
  { intros j k x y Hjk Hx Hy Hlt. specialize (Hmono j k x y Hjk Hx Hy). lia. }
  rewrite (binary_search_by_spec _ _ _ Hp), Hl.
  destruct (owner_of_total l i) as [v Hv]; [by apply Hrand|].
  rewrite Hv in Hfind |- *. apply fmap_Some in Hfind as ([w b] & -> & ->). done.
Qed.

Lemma randomize_loop_bound fuel gen max m i :
  (0 < m)%N → randomize_loop fuel gen max m = Some i → (i < m)%N.
Proof.
  intros Hz. revert gen. induction fuel as [|fuel IH]; intros gen; cbn; [done|].
  destruct (fill_bytes 32 gen) as [bytes gen']. case_decide; [|apply IH].
  intros [= <-]. apply N.mod_lt. lia.
Qed.

Lemma weighted_get_leader_owner fuel r m x :
  (map_stake m ≤ u256_MAX)%N → weighted_get_leader fuel r m = Ret (Some x) →
  ∃ i, (i < map_stake m)%N ∧ owner_of (btree_iter m) i = Some x.
Proof.
  assert (nsum (btree_iter m).*2 = map_stake m) as Hs.
  { unfold map_stake. by rewrite btree_iter_perm. }
  intros Hmax. unfold weighted_get_leader.
  destruct (decide (map_stake m = 0)%N) as [Hz|Hz].
  - unfold generate_random_validator_with_randomizer. rewrite <- Hs in Hmax, Hz.
    pose proof (stake_bounds_total (btree_iter m) 0 Hmax) as Ht.
    destruct (stake_bounds (btree_iter m) 0) as [bs total]. cbn in Ht. rewrite Hz in Ht. subst.
    case_decide; [done|]. cbn. done.
  - rewrite generate_random_validator_spec; rewrite Hs.
    + rewrite run_bind_Ret. unfold randomize_256_with_rng. rewrite decide_False by done.
      intros (d & [= <-] & [= Hx]). apply bind_Some in Hx as (i & Hi & Ho).
      exists i. split; [|done]. eapply randomize_loop_bound; [lia|done].
    + lia.
    + intros i. unfold randomize_256_with_rng. rewrite decide_False by done.
      intros [= Hi]. eapply randomize_loop_bound; [lia|done].
Qed.
End weighted_lemmas.

(** ** Theorems *)

#[global] Instance SimpleRoundRobin_laws {PT} `{!PubKey PT} :
  LeaderElectionLaws PT (LeaderElection0 := SimpleRoundRobin).
Proof.
  split. cbn. unfold simple_get_leader. intros r m x _. case_decide; [done|].
  rewrite expect_Ret. intros Hx%list_elem_of_lookup_2. by apply elem_of_btree_keys.
Qed.

#[global] Instance WeightedRoundRobin_laws {PT} `{!PubKey PT, !U256Ops, !SeedableRng} fuel :
  LeaderElectionLaws PT (LeaderElection0 := WeightedRoundRobin fuel).
Proof.
  split. cbn. intros r m x Hmax.
  destruct (weighted_get_leader fuel r m) as [[y|]|] eqn:Hw; intros [= <-].
  apply weighted_get_leader_owner in Hw as (i & _ & Ho); [|done].
  apply owner_of_interval in Ho as (l1 & s & l2 & Hl & _).
  exists s. apply elem_of_btree_iter. rewrite Hl. set_solver.
Qed.

(** With the simple rule every validator leads exactly once in any window
    of as many consecutive rounds as there are validators. *)
Theorem simple_round_robin_fair {PT} `{!PubKey PT} (m : gmap PT Stake) (r : Round) (v : PT) :
  is_Some (m !! v) →
  ∃ k, (k < N.of_nat (size m))%N ∧ simple_get_leader (r + k) m = Ret v ∧
    ∀ k', (k' < N.of_nat (size m))%N → simple_get_leader (r + k') m = Ret v → k' = k.
Proof.
  intros Hv. apply elem_of_btree_keys in Hv as Hin. apply list_elem_of_lookup in Hin as [j Hj].
  pose proof (lookup_lt_Some _ _ _ Hj) as Hlt. rewrite btree_keys_length in Hlt.
  set (n := N.of_nat (size m)).
  assert (∀ k, simple_get_leader (r + k) m = Ret v ↔ ((r + k) `mod` n = N.of_nat j)%N) as Hl.
  { intros k. unfold simple_get_leader. rewrite btree_keys_length, decide_False by lia.
    rewrite expect_Ret. fold n. split.
    - intros Hk. pose proof (NoDup_lookup _ _ _ _ (NoDup_btree_keys m) Hj Hk). lia.
    - intros ->. by rewrite Nat2N.id. }
  setoid_rewrite Hl. pose proof (N.mod_lt r n ltac:(lia)) as Hr.
  pose proof (N.Div0.div_mod r n) as Hd. set (q := (r / n)%N) in *. set (t := (r `mod` n)%N) in *.
  assert (∀ k a b, (a < n → r + k = n * b + a → (r + k) `mod` n = a)%N) as Hmod.
  { intros k a b ??. symmetry. by apply (N.mod_unique _ _ b). }
  destruct (decide (t ≤ N.of_nat j)%N) as [Hle|Hgt].
  - exists (N.of_nat j - t)%N. split_and!; [lia| |].
    + apply (Hmod _ _ q); lia.
    + intros k' Hk'. destruct (decide (t + k' < n)%N).
      * rewrite (Hmod k' (t + k')%N q) by lia. lia.
      * rewrite (Hmod k' (t + k' - n)%N (q + 1)%N) by lia. lia.
  - exists (n + N.of_nat j - t)%N. split_and!; [lia| |].
    + apply (Hmod _ _ (q + 1)%N); lia.
    + intros k' Hk'. destruct (decide (t + k' < n)%N).
      * rewrite (Hmod k' (t + k')%N q) by lia. lia.
      * rewrite (Hmod k' (t + k' - n)%N (q + 1)%N) by lia. lia.
Qed.

Lemma simple_round_robin_fair_witness :
  ∃ k, (k < N.of_nat (size (list_to_map [(1, 5); (2, 1); (3, 1)]%N : gmap N Stake)))%N ∧
    simple_get_leader (7 + k) (list_to_map [(1, 5); (2, 1); (3, 1)]%N : gmap N Stake) = Ret 3%N.
Proof.
  destruct (simple_round_robin_fair (list_to_map [(1, 5); (2, 1); (3, 1)]%N : gmap N Stake) 7 3%N)
    as (k & ? & ? & _); [by exists 1%N|]. eauto.
Defined.

Section weighted_theorems.
Context {PT : Type} `{!PubKey PT, !U256Ops}.

(** A draw index is mapped to the validator that owns it: the binary search
    over the partial sums agrees with the linear scan, and the indices that
    select a validator are exactly an interval whose length is its stake. *)
Theorem weighted_selection_proportional (m : gmap PT Stake) (v : PT) (s : Stake) :
  (map_stake m ≤ u256_MAX)%N → m !! v = Some s →
  ∃ lo, (lo + s ≤ map_stake m)%N ∧
    ∀ i, (i < map_stake m)%N →
      generate_random_validator_with_randomizer (btree_iter m) (λ _, Ret (Some i)) =
        Ret (owner_of (btree_iter m) i) ∧
      (owner_of (btree_iter m) i = Some v ↔ (lo ≤ i < lo + s)%N).
Proof.
  assert (nsum (btree_iter m).*2 = map_stake m) as Hs.
  { unfold map_stake. by rewrite btree_iter_perm. }
  intros Hmax Hv. apply elem_of_btree_iter, list_elem_of_split in Hv as (l1 & l2 & Hl).
  exists (nsum l1.*2). split.
  { rewrite <- Hs, Hl, fmap_app, fmap_cons, nsum_app, nsum_cons. cbn. lia. }
  intros i Hi. split.
  { rewrite generate_random_validator_spec; rewrite ?Hs; [done|lia|]. by intros ? [= <-]. }
  rewrite owner_of_interval. split; [|by eauto].
  intros (l1' & s' & l2' & Hl' & Hb).
  assert (l1' = l1 ∧ s' = s) as [-> ->]; [|done].
  pose proof (NoDup_btree_keys m) as Hnd. unfold btree_keys in Hnd.
  assert ((btree_iter m).*1 !! length l1' = Some v ∧ (btree_iter m).*1 !! length l1 = Some v)
    as [H1 H2].
  { rewrite !list_lookup_fmap. split; [rewrite Hl'|rewrite Hl]; by rewrite list_lookup_middle. }
  pose proof (NoDup_lookup _ _ _ _ Hnd H1 H2) as Hlen. rewrite Hl in Hl'.
  apply app_inj_1 in Hl' as [-> Heq]; [|done]. by simplify_eq.
Qed.

(** The rejection sampling is exactly uniform.  The accepted outputs of the
    generator are those below a multiple of [m], so every residue below [m] has
    the same number of accepted outputs; the routine returns a residue as soon
    as one draw is accepted, and never anything but a residue. *)
Theorem rejection_sampling_uniform `{!SeedableRng} (m : N) (gen : rng) :
  (0 < m ≤ u256_MAX)%N →
  (∃ q, (0 < q)%N ∧ (rejection_max m + 1 = m * q)%N ∧
     ∀ i r, (i < m)%N → (r ≤ rejection_max m ∧ r `mod` m = i ↔
       ∃ k, k < q ∧ r = i + m * k)%N) ∧
  (∀ fuel, ∃ d, randomize_256_with_rng fuel gen m = Ret d ∧ ∀ i, d = Some i → (i < m)%N) ∧
  (∀ fuel, (from_le_bytes (fill_bytes 32 gen).1 ≤ rejection_max m)%N →
     randomize_256_with_rng (S fuel) gen m =
     Ret (Some (from_le_bytes (fill_bytes 32 gen).1 `mod` m)%N)).
Proof.
  intros Hm. destruct (rejection_max_spec m Hm) as [Hq Hmax].
  split_and!.
  - exists ((u256_MAX + 1) / m)%N. assert (0 < (u256_MAX + 1) / m)%N as Hpos.
    { apply N.div_str_pos. lia. }
    split_and!; [done|done|]. intros i r Hi. generalize dependent ((u256_MAX + 1) / m)%N.
    intros q Hq Hpos. split.
    + intros [Hr <-]. exists (r / m)%N. abstract_div r m. nia.
    + intros (k & Hk & ->). split; [nia|]. symmetry. by apply (N.mod_unique _ _ k); [lia|lia].
  - intros fuel. unfold randomize_256_with_rng. rewrite decide_False by lia. eexists.
    split; [done|]. intros i. apply randomize_loop_bound. lia.
  - intros fuel Hr. unfold randomize_256_with_rng. rewrite decide_False by lia. cbn.
    destruct (fill_bytes 32 gen) as [bytes g]. cbn in *. by rewrite decide_True.
Qed.
End weighted_theorems.

(** A counter stands in for the generator. *)
#[global] Program Instance counter_rng : SeedableRng := {|
  rng := N;
  seed_from_u64 s := s;
  fill_bytes n g := (replicate n (g `mod` 256)%N, (g + 1)%N);
|}.
Next Obligation. intros. cbn. apply length_replicate. Qed.
Next Obligation.
  intros. cbn. apply Forall_replicate. by apply N.mod_lt.
Qed.

Lemma weighted_selection_proportional_witness :
  ∃ lo, (lo + 5 ≤ 9)%N ∧
    ∀ i, (i < 9)%N →
      owner_of (btree_iter (list_to_map [(1, 3); (2, 5); (7, 1)]%N : gmap N Stake)) i = Some 2%N ↔
      (lo ≤ i < lo + 5)%N.
Proof.
  destruct (weighted_selection_proportional (list_to_map [(1, 3); (2, 5); (7, 1)]%N : gmap N Stake) 2%N 5)
    as (lo & Hlo & Hi); [vm_compute; discriminate|reflexivity|].
  exists lo. split; [exact Hlo|]. intros i Hlt. apply Hi. exact Hlt.
Defined.

Lemma rejection_sampling_uniform_witness :
  randomize_256_with_rng 1 (3%N : rng) 10 =
  Ret (Some (from_le_bytes (fill_bytes 32 (3%N : rng)).1 `mod` 10)%N).
Proof.
  apply rejection_sampling_uniform; [split; vm_compute; done|vm_compute; discriminate].
Defined.
