(* ===== verification/ProposerSchedule.v ===== *)
(** * The proposer schedule ([src/validator/src/proposer_schedule.rs])

    [ElectedProposerSchedule] answers who may propose in a round from the known
    epochs and memoises the elections.  The specification is the same schedule
    without the memo; the refinement theorem shows that no sequence of queries,
    epoch insertions and prunings can tell them apart. *)
From S2P Require Import Prelude Types ValidatorSet EpochManager LeaderElection.

Section schedule.
Context {PT : Type} `{!PubKey PT, !LeaderElection PT}.

Record ElectedProposerSchedule := {
  ps_epoch_starts : gmap Epoch Round;
  val_sets : gmap Epoch (ValidatorSet PT);
  cache : gmap Round PT;
}.

Definition ElectedProposerSchedule_new : ElectedProposerSchedule :=
  {| ps_epoch_starts := ∅; val_sets := ∅; cache := ∅ |}.

Definition epoch_of (self : ElectedProposerSchedule) (round : Round) : option Epoch :=
  fst <$> find_last (λ k, bool_decide (k.2 ≤ round)%N) (btree_iter (ps_epoch_starts self)).

(** The memo is behind a [RefCell]: the schedule is returned with it updated. *)
Definition leader (self : ElectedProposerSchedule) (round : Round) :
    run (option PT * ElectedProposerSchedule) :=
  match cache self !! round with
  | Some leader => Ret (Some leader, self)
  | None =>
      match epoch_of self round with
      | None => Ret (None, self)
      | Some epoch =>
          match val_sets self !! epoch with
          | None => Ret (None, self)
          | Some val_set =>
              leader ← get_leader round (get_members val_set);
              Ret (Some leader,
                   {| ps_epoch_starts := ps_epoch_starts self; val_sets := val_sets self;
                      cache := <[round := leader]> (cache self) |})
          end
      end
  end.

Definition check_proposer (self : ElectedProposerSchedule) (node : PT) (round : Round) :
    run (option bool * ElectedProposerSchedule) :=
  '(l, self) ← leader self round;
  Ret (fmap (M := option) (λ l, bool_decide (l = node)) l, self).

Definition check_epoch (self : ElectedProposerSchedule) (epoch : Epoch) (round : Round) :
    option bool :=
  (λ e, bool_decide (e = epoch)) <$> epoch_of self round.

Definition insert_epoch (self : ElectedProposerSchedule) (epoch : Epoch) (epoch_start : Round)
    (val_set : ValidatorSet PT) : run ElectedProposerSchedule :=
  match ps_epoch_starts self !! epoch with
  | Some existing => assert (existing = epoch_start) ≫= λ _, Ret self
  | None =>
      Ret {| ps_epoch_starts := <[epoch := epoch_start]> (ps_epoch_starts self);
             val_sets := <[epoch := val_set]> (val_sets self);
             cache := filter (λ p, p.1 < epoch_start)%N (cache self) |}
  end.

Definition prune_below (self : ElectedProposerSchedule) (cutoff : Round) :
    ElectedProposerSchedule :=
  match epoch_of self cutoff with
  | Some min_epoch =>
      {| ps_epoch_starts := filter (λ p, min_epoch ≤ p.1)%N (ps_epoch_starts self);
         val_sets := filter (λ p, min_epoch ≤ p.1)%N (val_sets self);
         cache := filter (λ p, cutoff ≤ p.1)%N (cache self) |}
  | None => self
  end.

(** ** The specification: the schedule without the memo *)

(** A schedule whose memo is dropped. *)
Definition forget (s : ElectedProposerSchedule) : ElectedProposerSchedule :=
  {| ps_epoch_starts := ps_epoch_starts s; val_sets := val_sets s; cache := ∅ |}.

(** Who leads a round, by the epochs alone. *)
Definition elect (s : ElectedProposerSchedule) (round : Round) : run (option PT) :=
  match epoch_of s round ≫= λ e, val_sets s !! e with
  | None => Ret None
  | Some val_set => Some <$> get_leader round (get_members val_set)
  end.

(** The calls of the trait, and what a call returns. *)
Inductive schedule_op :=
| CheckProposer (node : PT) (round : Round)
| CheckEpoch (epoch : Epoch) (round : Round)
| InsertEpoch (epoch : Epoch) (epoch_start : Round) (val_set : ValidatorSet PT)
| PruneBelow (cutoff : Round).

Definition schedule_step (s : ElectedProposerSchedule) (op : schedule_op) :
    run (option bool * ElectedProposerSchedule) :=
  match op with
  | CheckProposer node round => check_proposer s node round
  | CheckEpoch epoch round => Ret (check_epoch s epoch round, s)
  | InsertEpoch epoch start vs => s' ← insert_epoch s epoch start vs; Ret (None, s')
  | PruneBelow cutoff => Ret (None, prune_below s cutoff)
  end.

(** The specification forgets the memo before every call. *)
Definition spec_step (s : ElectedProposerSchedule) (op : schedule_op) :
    run (option bool * ElectedProposerSchedule) :=
  '(out, s') ← schedule_step (forget s) op;
  Ret (out, forget s').

Fixpoint run_ops (step : ElectedProposerSchedule → schedule_op →
                         run (option bool * ElectedProposerSchedule))
    (s : ElectedProposerSchedule) (ops : list schedule_op) :
    run (list (option bool) * ElectedProposerSchedule) :=
  match ops with
  | [] => Ret ([], s)
  | op :: ops =>
      '(out, s) ← step s op;
      '(outs, s) ← run_ops step s ops;
      Ret (out :: outs, s)
  end.

(** ** Lemmas *)

(** Every memoised leader is the one the epochs elect. *)
Definition cache_sound (s : ElectedProposerSchedule) : Prop :=
  dom (val_sets s) = dom (ps_epoch_starts s) ∧
  ∀ r x, cache s !! r = Some x → elect s r = Ret (Some x).

Lemma epoch_of_get_epoch s r len delay :
  epoch_of s r =
  get_epoch {| epoch_length := len; epoch_start_delay := delay;
               epoch_starts := ps_epoch_starts s |} r.
Proof. done. Qed.

Lemma leader_elect s r :
  cache_sound s →
  (∃ x s', leader s r = Ret (x, s') ∧ elect s r = Ret x ∧ forget s' = forget s ∧ cache_sound s') ∨
  (leader s r = Panic ∧ elect s r = Panic).
Proof.
  intros [Hd Hc]. unfold leader. destruct (cache s !! r) as [x|] eqn:Hr.
  { left. exists (Some x), s. split_and!; [done|by apply Hc|done|by split]. }
  unfold elect. destruct (epoch_of s r) as [e|] eqn:He; cbn [mbind option_bind].
  2: { left. exists None, s. split_and!; [done|done|done|by split]. }
  destruct (val_sets s !! e) as [vs|] eqn:Hv.
  2: { left. exists None, s. split_and!; [done|done|done|by split]. }
  destruct (get_leader r (get_members vs)) as [x|] eqn:Hl; cbn; [left|by right].
  eexists (Some x), _. split_and!; [done|done|done|]. split; [done|].
  cbn [cache]. intros r' x'. rewrite lookup_insert. case_decide as Hrr; [|apply Hc].
  subst r'. intros [= <-]. unfold elect, epoch_of in *. cbn. rewrite He. cbn.
  by rewrite Hv, Hl.
Qed.

Lemma elect_forget s r : elect (forget s) r = elect s r.
Proof. done. Qed.

Lemma insert_epoch_elect s e start vs s' r :
  ps_epoch_starts s !! e = None → insert_epoch s e start vs = Ret s' → (r < start)%N →
  elect s' r = elect s r.
Proof.
  unfold insert_epoch. intros He. rewrite He. intros [= <-] Hr. unfold elect.
  rewrite !(epoch_of_get_epoch _ _ 0%N 0%N). cbn.
  rewrite (get_epoch_insert {| epoch_length := 0; epoch_start_delay := 0;
                               epoch_starts := ps_epoch_starts s |} _ e start r) by done.
  destruct (get_epoch _ r) as [e'|] eqn:He'; [|done]. cbn.
  rewrite lookup_insert_ne; [done|]. intros <-.
  apply get_epoch_Some in He' as [(? & Hs & _) _]. cbn in Hs. congruence.
Qed.

Lemma prune_below_elect s cutoff r :
  (cutoff ≤ r)%N → elect (prune_below s cutoff) r = elect s r.
Proof.
  intros Hr. unfold prune_below. destruct (epoch_of s cutoff) as [m|] eqn:Hm; [|done].
  assert (∀ e, epoch_of s r = Some e → (m ≤ e)%N) as Hle.
  { intros e. rewrite (epoch_of_get_epoch s r 0%N 0%N).
    rewrite (epoch_of_get_epoch s cutoff 0%N 0%N) in Hm.
    apply get_epoch_Some in Hm as [(s0 & Hs0 & Hle) _].
    intros [_ Hmax]%get_epoch_Some. eapply Hmax; [exact Hs0|lia]. }
  assert (epoch_of {| ps_epoch_starts := filter (λ p, m ≤ p.1)%N (ps_epoch_starts s);
    val_sets := filter (λ p, m ≤ p.1)%N (val_sets s);
    cache := filter (λ p, cutoff ≤ p.1)%N (cache s) |} r = epoch_of s r) as He.
  { apply option_eq. intros e. rewrite !(epoch_of_get_epoch _ _ 0%N 0%N). cbn.
    setoid_rewrite (epoch_of_get_epoch s r 0%N 0%N) in Hle.
    setoid_rewrite get_epoch_Some in Hle. rewrite !get_epoch_Some. cbn in *. setoid_rewrite map_lookup_filter_Some. cbn. split.
    - intros [(s0 & [Hs0 ?] & ?) Hmax]. split; [by exists s0|]. intros e' s' Hs' Hr'.
      destruct (decide (m ≤ e')%N); [by eapply Hmax|lia].
    - intros [(s0 & Hs0 & ?) Hmax]. split.
      + exists s0. split_and!; [done| |done]. apply Hle. split; [by exists s0|done].
      + intros e' s' [Hs' _] Hr'. by eapply Hmax. }
  unfold elect. rewrite He. destruct (epoch_of s r) as [e|] eqn:Her; [|done]. cbn.
  assert (filter (λ p : N * ValidatorSet PT, m ≤ p.1)%N (val_sets s) !! e = val_sets s !! e)
    as ->; [|done].
  apply option_eq. intros vs. rewrite map_lookup_filter_Some. cbn.
  specialize (Hle e eq_refl). naive_solver.
Qed.

Lemma schedule_step_refines s op :
  cache_sound s →
  (∃ out s', schedule_step s op = Ret (out, s') ∧ spec_step s op = Ret (out, forget s') ∧
             cache_sound s') ∨
  (schedule_step s op = Panic ∧ spec_step s op = Panic).
Proof.
  intros Hc. pose proof Hc as [Hd Hs]. destruct op as [node r|e r|e start vs|cutoff];
    unfold spec_step; cbn [schedule_step].
  - unfold check_proposer.
    assert (cache_sound (forget s)) as Hcf by (split; [done|]; intros ??; cbn; by rewrite lookup_empty).
    destruct (leader_elect s r Hc) as [(x & s' & -> & He & Hf & Hc')|[-> He]].
    + left. destruct (leader_elect (forget s) r Hcf) as [(x' & s'' & -> & He' & Hf' & _)|[_ He']];
        rewrite elect_forget, He in He'; [injection He' as <-|done].
      eexists _, s'. split_and!; [done| |done]. cbn -[forget]. by rewrite Hf, Hf'.
    + right. destruct (leader_elect (forget s) r Hcf) as [(x' & s'' & _ & He' & _)|[-> _]];
        [rewrite elect_forget, He in He'; done|]. done.
  - left. by exists (check_epoch s e r), s.
  - destruct (insert_epoch s e start vs) as [s'|] eqn:Hi.
    + left. exists None, s'. cbn. split; [done|]. pose proof Hi as Hi'.
      unfold insert_epoch in Hi |- *. cbn [forget ps_epoch_starts].
      destruct (ps_epoch_starts s !! e) as [start'|] eqn:He.
      * destruct (assert (start' = start)) as [[]|]; [|done]. cbn in *. by simplify_eq.
      * injection Hi as <-. cbn. split; [done|]. split; cbn.
        { by rewrite !dom_insert_L, Hd. }
        intros r x [Hx Hr]%map_lookup_filter_Some.
        rewrite <- (Hs _ _ Hx). by eapply insert_epoch_elect.
    + right. split; [done|]. unfold insert_epoch in Hi |- *. cbn [forget ps_epoch_starts].
      destruct (ps_epoch_starts s !! e) as [start'|] eqn:He; [|done].
      by destruct (assert (start' = start)) as [[]|].
  - left. exists None, (prune_below s cutoff). split; [done|]. split.
    + cbn. do 2 f_equal. unfold prune_below. cbn. change (epoch_of (forget s) cutoff) with (epoch_of s cutoff).
      by destruct (epoch_of s cutoff).
    + split.
      * unfold prune_below. destruct (epoch_of s cutoff) as [m|]; [|done]. cbn.
        apply set_eq. intros e. rewrite !elem_of_dom. unfold is_Some.
        setoid_rewrite map_lookup_filter_Some. cbn.
        assert (e ∈ dom (val_sets s) ↔ e ∈ dom (ps_epoch_starts s)) as Hde by by rewrite Hd.
        rewrite !elem_of_dom in Hde. unfold is_Some in Hde. naive_solver.
      * intros r x Hx.
        assert (cache s !! r = Some x ∧ ((cutoff ≤ r)%N ∨ prune_below s cutoff = s)) as [Hx' Hr].
        { unfold prune_below in *. destruct (epoch_of s cutoff); [|by auto]. cbn in Hx.
          apply map_lookup_filter_Some in Hx as [??]. auto. }
        destruct Hr as [Hr|Hr]; [|rewrite Hr; by apply Hs].
        rewrite prune_below_elect by done. by apply Hs.
Qed.

Lemma run_ops_refines ops s :
  cache_sound s →
  (fst <$> run_ops schedule_step s ops) = (fst <$> run_ops spec_step (forget s) ops).
Proof.
  revert s. induction ops as [|op ops IH]; intros s Hc; [done|]. cbn [run_ops].
  change (spec_step (forget s) op) with (spec_step s op).
  destruct (schedule_step_refines s op Hc) as [(out & s' & -> & -> & Hc')|[-> ->]]; [|done].
  cbn. specialize (IH s' Hc').
  destruct (run_ops schedule_step s' ops) as [[]|], (run_ops spec_step (forget s') ops) as [[]|];
    cbn in *; congruence.
Qed.

(** ** Theorems *)

(** C39: the memo is invisible.  For every sequence of calls the schedule returns
    what the schedule without a memo returns (the same answers, or a panic in
    both), including across epoch insertions and prunings. *)
Theorem proposer_schedule_refines (ops : list schedule_op) :
  (fst <$> run_ops schedule_step ElectedProposerSchedule_new ops) =
  (fst <$> run_ops spec_step ElectedProposerSchedule_new ops).
Proof.
  apply (run_ops_refines ops ElectedProposerSchedule_new). split; [done|].
  intros r x. cbn. by rewrite lookup_empty.
Qed.

(** At most one node passes [check_proposer] for a round, it is a member of
    the validator set of the round's epoch, and the epoch agrees with
    [EpochManager::get_epoch] on the same starts. *)
Theorem check_proposer_unique `{!LeaderElectionLaws PT} (s s1 s2 : ElectedProposerSchedule) n1 n2 r :
  cache_sound s →
  (∀ e vs, val_sets s !! e = Some vs → wf_validator_set vs) →
  check_proposer s n1 r = Ret (Some true, s1) →
  check_proposer s n2 r = Ret (Some true, s2) →
  n1 = n2 ∧
  ∃ e vs, epoch_of s r = Some e ∧ val_sets s !! e = Some vs ∧ is_member vs n1 = true ∧
    ∀ len delay, get_epoch {| epoch_length := len; epoch_start_delay := delay;
                              epoch_starts := ps_epoch_starts s |} r = Some e.
Proof.
  intros Hc Hwf. unfold check_proposer.
  destruct (leader_elect s r Hc) as [(x & s' & -> & He & _)|[-> _]]; [|done].
  destruct x as [x|]; cbn; [|done].
  intros [= ->%bool_decide_eq_true_1 _] [= ->%bool_decide_eq_true_1 _]. split; [done|].
  unfold elect in He. destruct (epoch_of s r) as [e|] eqn:Her; cbn in He; [|done].
  destruct (val_sets s !! e) as [vs|] eqn:Hvs; [|done].
  destruct (get_leader r (get_members vs)) as [y|] eqn:Hl; cbn in He; [|done]. simplify_eq.
  exists e, vs. split_and!; [done|done| |done].
  apply bool_decide_eq_true. eapply get_leader_member; [|exact Hl].
  destruct (Hwf _ _ Hvs) as (_ & _ & <- & ?). done.
Qed.
End schedule.

Arguments ElectedProposerSchedule PT {_}.
Arguments schedule_op PT {_}.

(** The schedule of two validators over one epoch. *)
Lemma check_proposer_unique_witness :
  let vs := {| validators := list_to_map [(1, 1); (2, 1)]%N; total_stake := 2%N |} in
  let s := {| ps_epoch_starts := {[1%N := 0%N]}; val_sets := {[1%N := vs]}; cache := ∅ |} in
  ∃ e vs', epoch_of s 5 = Some e ∧ val_sets s !! e = Some vs' ∧ is_member vs' 2%N = true.
Proof.
  intros vs s. set (s1 := {| ps_epoch_starts := {[1%N := 0%N]}; val_sets := {[1%N := vs]};
                             cache := {[5%N := 2%N]} |}).
  destruct (check_proposer_unique s s1 s1 2%N 2%N 5) as (_ & e & vs' & He & Hv & Hm & _).
  - split; [vm_compute; reflexivity|]. intros r x. cbn. by rewrite lookup_empty.
  - intros e vs'. cbn. rewrite lookup_singleton_Some. intros [_ <-].
    split_and!; [vm_compute; discriminate| |vm_compute; reflexivity|vm_compute; discriminate].
    intros k st. cbn. rewrite !lookup_insert. repeat case_decide; rewrite ?lookup_empty; intros [= <-];
    lia.
  - vm_compute. reflexivity.
  - vm_compute. reflexivity.
  - eauto.
Defined.
