(* ===== verification/SignatureCollection.v ===== *)
(** * Signatures and signature collections ([src/crypto/src/signing_domain.rs],
      [src/crypto/src/certificate_signature.rs],
      [src/validator/src/signature_collection.rs] and [src/multi-sig/src/lib.rs])

    The traits are classes: what the protocol code may rely on is their laws.
    [NopSignature] and [MultiSig], the implementations of the repository whose
    code is in Rust, are instances that discharge the laws.  The theorems show
    that the signing domains separate messages, that an aggregate built by
    [MultiSig::new] verifies to exactly its signers, and that [new] blames only
    signatures that are not genuine. *)
From Stdlib Require Import String Ascii.
From S2P Require Import Prelude Types.

Abbreviation bytes := (list N).

(** ** Signing domains *)

Inductive SigningDomain :=
| ConsensusMessageDomain | TipDomain | VoteDomain | TimeoutDomain | NoEndorsementDomain
| RoundSignatureDomain | NameRecordDomain | RaptorcastAppMessageDomain | RaptorcastChunkDomain.

#[global] Instance SigningDomain_eq_dec : EqDecision SigningDomain.
Proof. solve_decision. Defined.

(** A byte string literal that ends with a newline. *)
Definition line (s : string) : bytes := (N_of_ascii <$> list_ascii_of_string s) ++ [10%N].

Definition PREFIX (sd : SigningDomain) : bytes :=
  match sd with
  | ConsensusMessageDomain => 0x1A%N :: line "kinet/consensus-message/1"
  | TipDomain => 0x0C%N :: line "kinet/tip/1"
  | VoteDomain => 0x0D%N :: line "kinet/vote/1"
  | TimeoutDomain => 0x10%N :: line "kinet/timeout/1"
  | NoEndorsementDomain => 0x17%N :: line "kinet/no-endorsement/1"
  | RoundSignatureDomain => 0x18%N :: line "kinet/round-signature/1"
  | NameRecordDomain => 0x14%N :: line "kinet/name-record/1"
  | RaptorcastAppMessageDomain => 0x1F%N :: line "kinet/raptorcast-app-message/1"
  | RaptorcastChunkDomain => 0x19%N :: line "kinet/raptorcast-chunk/1"
  end.

Definition assert_signing_prefix (prefix : bytes) : bool :=
  match prefix with
  | prefix_len :: rest =>
      bool_decide (prefix_len < 128)%N &&
      bool_decide (N.to_nat prefix_len = length rest) &&
      bool_decide (last prefix = Some 10%N)
  | [] => false
  end.

(** ** The signature traits *)

Class CertificateSignature (S KP PK : Type) := {
  sig_eq_dec :: EqDecision S;
  pubkey : KP → PK;
  sign : SigningDomain → bytes → KP → S;
  sig_verify : SigningDomain → bytes → S → PK → bool;
  sig_validate : S → bool;
  sign_validate sd msg kp : sig_validate (sign sd msg kp) = true;
  sign_verify sd msg kp : sig_verify sd msg (sign sd msg kp) (pubkey kp) = true;
}.

Class CertificateSignatureRecoverable (S KP PK : Type) := {
  recoverable_sig :: CertificateSignature S KP PK;
  recover_pubkey : SigningDomain → bytes → S → option PK;
  recover_sign sd msg kp : recover_pubkey sd msg (sign sd msg kp) = Some (pubkey kp);
}.

(** ** The signature collection trait *)

Inductive SignatureCollectionError (PT S : Type) :=
| NodeIdNotInMapping (sigs : list (PT * S))
| ConflictingSignatures (node_id : PT) (s1 s2 : S)
| InvalidSignaturesCreate (sigs : list (PT * S))
| InvalidSignaturesVerify
| DeserializeError.

Arguments NodeIdNotInMapping {PT S} _.
Arguments ConflictingSignatures {PT S} _ _ _.
Arguments InvalidSignaturesCreate {PT S} _.
Arguments InvalidSignaturesVerify {PT S}.
Arguments DeserializeError {PT S}.

(** [ValidatorMapping] is its map from nodes to certificate keys.  Two nodes
    with one key cannot be told apart by their signatures. *)
Definition mapping_injective {PT CPK} `{!PubKey PT} (vm : gmap PT CPK) : Prop :=
  ∀ a b pk, vm !! a = Some pk → vm !! b = Some pk → a = b.

(** What [new] may report about the signatures it was given: the report is not
    empty, lists only those signatures, and no signature listed as invalid is
    one the node's key produced. *)
Definition new_error_ok {PT S CKP CPK} `{!PubKey PT, !CertificateSignature S CKP CPK}
    (sd : SigningDomain) (sigs : list (PT * S)) (vm : gmap PT CPK) (msg : bytes)
    (e : SignatureCollectionError PT S) : Prop :=
  match e with
  | NodeIdNotInMapping l => ∃ p, p ∈ sigs ∧ vm !! p.1 = None
  | ConflictingSignatures id s1 s2 => (id, s1) ∈ sigs ∧ (id, s2) ∈ sigs ∧ s1 ≠ s2
  | InvalidSignaturesCreate l =>
      l ≠ [] ∧ l ⊆ sigs ∧
      ∀ id s kp, (id, s) ∈ l → vm !! id = Some (pubkey kp) → s ≠ sign sd msg kp
  | _ => False
  end.

Class SignatureCollection (SCT PT S CKP CPK : Type) `{!PubKey PT, !CertificateSignature S CKP CPK} := {
  SCT_eq_dec :: EqDecision SCT;
  sc_new : SigningDomain → list (PT * S) → gmap PT CPK → bytes →
           result SCT (SignatureCollectionError PT S);
  sc_verify : SigningDomain → SCT → gmap PT CPK → bytes →
              result (list PT) (SignatureCollectionError PT S);
  num_signatures : SCT → nat;
  sc_verify_ids sd sc vm msg ids :
    sc_verify sd sc vm msg = Ok ids → NoDup ids ∧ ∀ x, x ∈ ids → is_Some (vm !! x);
  sc_new_verify sd sigs vm msg sc :
    mapping_injective vm → sc_new sd sigs vm msg = Ok sc →
    ∃ ids, sc_verify sd sc vm msg = Ok ids ∧ ∀ x, x ∈ ids ↔ x ∈ sigs.*1;
  sc_new_error sd sigs vm msg e :
    sc_new sd sigs vm msg = Err e → new_error_ok sd sigs vm msg e;
  sc_new_empty sd vm msg : ∃ sc, sc_new sd [] vm msg = Ok sc;
  sc_new_num sd sigs vm msg sc :
    sc_new sd sigs vm msg = Ok sc → sigs ≠ [] → num_signatures sc ≠ 0;
}.

(** ** NopSignature

    The test signature of the repository: a signature is the public key and a
    hash of the message, for a hash function [hash] ([DefaultHasher]). *)

Section nop.
Context (hash : bytes → N).

Record NopSignature := { nop_pubkey : N; nop_id : N }.

#[global] Instance NopSignature_eq_dec : EqDecision NopSignature.
Proof. solve_decision. Defined.

#[global] Instance NopSignature_countable : Countable NopSignature.
Proof.
  apply (inj_countable' (λ s, (nop_pubkey s, nop_id s))
    (λ '(p, i), {| nop_pubkey := p; nop_id := i |})). by intros [].
Defined.

Definition nop_sign (sd : SigningDomain) (msg : bytes) (keypair : N) : NopSignature :=
  {| nop_pubkey := keypair; nop_id := hash (PREFIX sd ++ msg) |}.

Definition nop_verify (sd : SigningDomain) (msg : bytes) (self : NopSignature) (pubkey : N) : bool :=
  if decide (nop_pubkey self = pubkey) then
    if decide (nop_id self = hash (PREFIX sd ++ msg)) then true else false
  else false.

Definition nop_recover_pubkey (sd : SigningDomain) (msg : bytes) (self : NopSignature) : option N :=
  if decide (nop_id self = hash (PREFIX sd ++ msg)) then Some (nop_pubkey self) else None.

#[global] Program Instance Nop_CertificateSignature : CertificateSignature NopSignature N N := {|
  pubkey kp := kp;
  sign := nop_sign;
  sig_verify := nop_verify;
  sig_validate _ := true;
|}.
Next Obligation. done. Qed.
Next Obligation.
  intros. unfold nop_verify, nop_sign. cbn. by rewrite !decide_True.
Qed.

#[global] Program Instance Nop_Recoverable : CertificateSignatureRecoverable NopSignature N N := {|
  recover_pubkey := nop_recover_pubkey;
|}.
Next Obligation.
  intros. unfold nop_recover_pubkey. cbn. by rewrite decide_True.
Qed.
End nop.

(** ** MultiSig *)

Section multi_sig.
Context {PT S CKP CPK : Type} `{!PubKey PT, !CertificateSignatureRecoverable S CKP CPK}.
Context `{!EqDecision CPK, !Countable CPK}.
Implicit Types vm : gmap PT CPK.

Record MultiSig := { sigs : list S }.

#[global] Instance MultiSig_eq_dec : EqDecision MultiSig.
Proof. solve_decision. Defined.

#[global] Instance MultiSig_countable `{!Countable S} : Countable MultiSig.
Proof. apply (inj_countable' sigs (λ l, {| sigs := l |})). by intros []. Defined.

(** The loop of [new] with its mutable locals. *)
Fixpoint new_loop (sd : SigningDomain) (vm : gmap PT CPK) (msg : bytes) (l : list (PT * S))
    (sig_map : gmap PT S) (external_sigs invalid_sigs : list (PT * S)) :
    result (gmap PT S * list (PT * S) * list (PT * S)) (SignatureCollectionError PT S) :=
  match l with
  | [] => Ok (sig_map, external_sigs, invalid_sigs)
  | (node_id, sig) :: l =>
      match vm !! node_id with
      | Some pubkey =>
          match recover_pubkey sd msg sig with
          | Some pubkey_recovered =>
              if decide (pubkey_recovered ≠ pubkey) then
                new_loop sd vm msg l sig_map external_sigs (invalid_sigs ++ [(node_id, sig)])
              else if negb (sig_verify sd msg sig pubkey) then
                new_loop sd vm msg l sig_map external_sigs (invalid_sigs ++ [(node_id, sig)])
              else
                let sig_entry := default sig (sig_map !! node_id) in
                if decide (sig_entry ≠ sig) then
                  Err (ConflictingSignatures node_id sig_entry sig)
                else
                  new_loop sd vm msg l (<[node_id := sig_entry]> sig_map)
                    external_sigs invalid_sigs
          | None => new_loop sd vm msg l sig_map external_sigs (invalid_sigs ++ [(node_id, sig)])
          end
      | None => new_loop sd vm msg l sig_map (external_sigs ++ [(node_id, sig)]) invalid_sigs
      end
  end.

Definition multi_sig_new (sd : SigningDomain) (l : list (PT * S)) (vm : gmap PT CPK)
    (msg : bytes) : result MultiSig (SignatureCollectionError PT S) :=
  '(sig_map, external_sigs, invalid_sigs) ←! new_loop sd vm msg l ∅ [] [];
  if decide (external_sigs ≠ []) then Err (NodeIdNotInMapping external_sigs)
  else if decide (invalid_sigs ≠ []) then Err (InvalidSignaturesCreate invalid_sigs)
  else Ok {| sigs := btree_values sig_map |}.

Definition multi_sig_num_signatures (self : MultiSig) : nat := length (sigs self).

(** The first loop of [verify]: the recovered keys and the invalid signatures. *)
Fixpoint verify_sigs (sd : SigningDomain) (msg : bytes) (l : list S)
    (verified_unvalidated_sigs : gmap CPK S) (invalid_sigs : list S) : gmap CPK S * list S :=
  match l with
  | [] => (verified_unvalidated_sigs, invalid_sigs)
  | sig :: l =>
      match recover_pubkey sd msg sig with
      | Some pubkey =>
          if negb (sig_verify sd msg sig pubkey) then
            verify_sigs sd msg l verified_unvalidated_sigs (invalid_sigs ++ [sig])
          else
            verify_sigs sd msg l (<[pubkey := sig]> verified_unvalidated_sigs) invalid_sigs
      | None => verify_sigs sd msg l verified_unvalidated_sigs (invalid_sigs ++ [sig])
      end
  end.

(** The second loop: the nodes of the mapping whose key signed. *)
Fixpoint verify_nodes (l : list (PT * CPK)) (node_ids : list PT)
    (verified_unvalidated_sigs : gmap CPK S) : list PT * gmap CPK S :=
  match l with
  | [] => (node_ids, verified_unvalidated_sigs)
  | (node_id, pk) :: l =>
      match verified_unvalidated_sigs !! pk with
      | Some _ => verify_nodes l (node_ids ++ [node_id]) (delete pk verified_unvalidated_sigs)
      | None => verify_nodes l node_ids verified_unvalidated_sigs
      end
  end.

Definition multi_sig_verify (sd : SigningDomain) (self : MultiSig) (vm : gmap PT CPK)
    (msg : bytes) : result (list PT) (SignatureCollectionError PT S) :=
  let '(verified, invalid_sigs) := verify_sigs sd msg (sigs self) ∅ [] in
  let '(node_ids, rest) := verify_nodes (btree_iter vm) [] verified in
  if decide (invalid_sigs ++ (map_to_list rest).*2 ≠ []) then Err InvalidSignaturesVerify
  else Ok node_ids.

(** ** Lemmas *)

(** A signature that [new] and [verify] accept for a key. *)
Definition genuine (sd : SigningDomain) (msg : bytes) (s : S) (pk : CPK) : Prop :=
  recover_pubkey sd msg s = Some pk ∧ sig_verify sd msg s pk = true.

Lemma genuine_sign sd msg kp : genuine sd msg (sign sd msg kp) (pubkey kp).
Proof. split; [apply recover_sign|apply sign_verify]. Qed.

Lemma new_loop_Ok sd vm msg l m ext inv m' :
  new_loop sd vm msg l m ext inv = Ok (m', [], []) ↔
  ext = [] ∧ inv = [] ∧
  Forall (λ p, ∃ pk, vm !! p.1 = Some pk ∧ genuine sd msg p.2 pk) l ∧
  (∀ id s, (id, s) ∈ l → m' !! id = Some s) ∧ m ⊆ m' ∧
  (∀ id s, m' !! id = Some s → m !! id = Some s ∨ (id, s) ∈ l).
Proof.
  revert m ext inv. induction l as [|[id s] l IH]; intros m ext inv; cbn [new_loop].
  { split.
    - intros [= -> -> ->]. split_and!; try done; [|by eauto]. by intros ?? ?%elem_of_nil.
    - intros (-> & -> & _ & _ & Hsub & Hback). repeat f_equal. apply map_eq. intros i.
      apply option_eq. intros x. split; [intros; by eapply lookup_weaken|].
      intros [?|?%elem_of_nil]%Hback; done. }
  rewrite Forall_cons. cbn [fst snd]. unfold genuine.
  destruct (vm !! id) as [pk|] eqn:Hvm.
  2: { rewrite IH. split; [intros (? & _); by destruct ext|].
       intros (_ & _ & [(pk & ? & _) _] & _). done. }
  destruct (recover_pubkey sd msg s) as [pkr|] eqn:Hr.
  2: { rewrite IH. split; [intros (_ & ? & _); by destruct inv|].
       intros (_ & _ & [(pk' & ? & ? & _) _] & _). done. }
  destruct (decide (pkr ≠ pk)) as [Hne|Heq].
  { rewrite IH. split; [intros (_ & ? & _); by destruct inv|].
    intros (_ & _ & [(pk' & ? & ? & _) _] & _). congruence. }
  apply dec_stable in Heq as ->. destruct (sig_verify sd msg s pk) eqn:Hv; cbn [negb].
  2: { rewrite IH. split; [intros (_ & ? & _); by destruct inv|].
       intros (_ & _ & [(pk' & ? & ? & ?) _] & _). congruence. }
  destruct (decide (default s (m !! id) ≠ s)) as [Hne|Heq].
  { split; [done|]. intros (_ & _ & _ & Hall & Hsub & _). exfalso. apply Hne.
    destruct (m !! id) as [s'|] eqn:Hm; [cbn|done].
    specialize (Hall id s ltac:(left)). pose proof (lookup_weaken _ _ _ _ Hm Hsub). congruence. }
  apply dec_stable in Heq. rewrite Heq, IH.
  assert (m !! id = None ∨ m !! id = Some s) as Hm.
  { destruct (m !! id); cbn in Heq; subst; auto. }
  split.
  - intros (-> & -> & Hall & Hin & Hsub & Hback). split_and!; try done.
    + by exists pk.
    + intros id' s' [?|?]%elem_of_cons; simplify_eq; [|by auto].
      eapply lookup_weaken; [|done]. by rewrite lookup_insert_eq.
    + etrans; [|exact Hsub]. destruct Hm as [Hm|Hm]; [by apply insert_subseteq|].
      by rewrite insert_id.
    + intros id' s' [Hi|?]%Hback; [|by right; right].
      rewrite lookup_insert in Hi. case_decide; [simplify_eq|by left].
      right. left.
  - intros (-> & -> & [_ Hall] & Hin & Hsub & Hback). split_and!; try done.
    + intros id' s' ?. apply Hin. by right.
    + apply insert_subseteq_l; [apply Hin; left|done].
    + intros id' s' Hi. rewrite lookup_insert.
      destruct (Hback _ _ Hi) as [?|[?|?]%elem_of_cons]; [|simplify_eq|by right].
      * case_decide; [subst|by left]. left. destruct Hm; congruence.
      * left. by rewrite decide_True.
Qed.

Lemma new_loop_reports sd vm msg l m ext inv m' ext' inv' :
  new_loop sd vm msg l m ext inv = Ok (m', ext', inv') →
  (∀ p, p ∈ ext' → p ∈ ext ∨ (p ∈ l ∧ vm !! p.1 = None)) ∧
  (∀ p, p ∈ inv' → p ∈ inv ∨ (p ∈ l ∧ ∀ pk, vm !! p.1 = Some pk → ¬ genuine sd msg p.2 pk)).
Proof.
  revert m ext inv. induction l as [|[id s] l IH]; intros m ext inv; cbn [new_loop].
  { intros [= -> -> ->]. auto. }
  assert (∀ (A : Prop) p, (p ∈ l ∧ A) → (p ∈ (id, s) :: l ∧ A)) as Hl.
  { intros A p [??]. split; [by right|done]. }
  assert (∀ (P : PT * S → Prop) (l0 : list (PT * S)) p, P (id, s) →
    (p ∈ l0 ++ [(id, s)] ∨ (p ∈ l ∧ P p)) → p ∈ l0 ∨ (p ∈ (id, s) :: l ∧ P p)) as Hsnoc.
  { intros P l0 p HP [[?| ->%list_elem_of_singleton]%elem_of_app|?]; [by left| |].
    - right. split; [left|done]. - right. by apply Hl. }
  destruct (vm !! id) as [pk|] eqn:Hvm.
  2: { intros [He Hi]%IH. split; intros p Hp.
       - apply (Hsnoc (λ p, vm !! p.1 = None)); auto.
       - destruct (Hi p Hp); [by left|right; by apply Hl]. }
  assert (¬ genuine sd msg s pk →
    new_loop sd vm msg l m ext (inv ++ [(id, s)]) = Ok (m', ext', inv') →
    (∀ p, p ∈ ext' → p ∈ ext ∨ (p ∈ (id, s) :: l ∧ vm !! p.1 = None)) ∧
    (∀ p, p ∈ inv' → p ∈ inv ∨
      (p ∈ (id, s) :: l ∧ ∀ pk, vm !! p.1 = Some pk → ¬ genuine sd msg p.2 pk))) as Hbad.
  { intros Hng [He Hi]%IH. split; intros p Hp.
    - destruct (He p Hp); [by left|right; by apply Hl].
    - apply (Hsnoc (λ p, ∀ pk, vm !! p.1 = Some pk → ¬ genuine sd msg p.2 pk)); [|auto].
      cbn. intros pk' Hpk'. by simplify_eq. }
  unfold genuine in Hbad at 1. destruct (recover_pubkey sd msg s) as [pkr|] eqn:Hr;
    [|by apply Hbad; intros []].
  case_decide as Hne; [apply Hbad; intros []; congruence|].
  subst pkr. destruct (sig_verify sd msg s pk) eqn:Hv; cbn [negb];
    [|by apply Hbad; intros []].
  case_decide; [done|]. intros [He Hi]%IH. split; intros p Hp.
  - destruct (He p Hp); [by left|right; by apply Hl].
  - destruct (Hi p Hp); [by left|right; by apply Hl].
Qed.

Lemma new_loop_Err sd vm msg l m ext inv e :
  new_loop sd vm msg l m ext inv = Err e →
  ∃ id s1 s2, e = ConflictingSignatures id s1 s2 ∧ s1 ≠ s2 ∧ (id, s2) ∈ l ∧
    (m !! id = Some s1 ∨ (id, s1) ∈ l).
Proof.
  revert m ext inv. induction l as [|[id s] l IH]; intros m ext inv; cbn [new_loop]; [done|].
  assert (∀ ext inv, new_loop sd vm msg l m ext inv = Err e →
    ∃ id' s1 s2, e = ConflictingSignatures id' s1 s2 ∧ s1 ≠ s2 ∧ (id', s2) ∈ (id, s) :: l ∧
      (m !! id' = Some s1 ∨ (id', s1) ∈ (id, s) :: l)) as Hskip.
  { intros ? ? (id' & s1 & s2 & -> & ? & ? & Hor)%IH. exists id', s1, s2.
    split_and!; [done|done|by right|]. destruct Hor; [by left|right; by right]. }
  destruct (vm !! id) as [pk|]; [|apply Hskip].
  destruct (recover_pubkey sd msg s) as [pkr|]; [|apply Hskip].
  case_decide; [apply Hskip|]. destruct (negb _); [apply Hskip|].
  case_decide as Hne.
  - intros [= <-]. exists id, (default s (m !! id)), s. split_and!; [done|done|left|].
    destruct (m !! id) as [s0|]; cbn in *; [by left|done].
  - rewrite Hne.
    intros (id' & s1 & s2 & -> & ? & ? & Hor)%IH. exists id', s1, s2.
    split_and!; [done|done|by right|]. rewrite lookup_insert in Hor. case_decide; [subst|].
    + destruct Hor as [[= ->]|?]; [right; left|right; by right].
    + destruct Hor; [by left|right; by right].
Qed.

Lemma verify_sigs_spec sd msg l m inv m' inv' :
  verify_sigs sd msg l m inv = (m', inv') →
  (inv' = [] ↔ inv = [] ∧ Forall (λ s, ∃ pk, genuine sd msg s pk) l) ∧
  ∀ pk, is_Some (m' !! pk) ↔ is_Some (m !! pk) ∨ ∃ s, s ∈ l ∧ genuine sd msg s pk.
Proof.
  revert m inv. induction l as [|s l IH]; intros m inv; cbn [verify_sigs].
  { intros [= -> ->]. split; [by rewrite Forall_nil; naive_solver|]. intros pk.
    split; [by left|]. intros [?|(s & ?%elem_of_nil & _)]; done. }
  rewrite Forall_cons. setoid_rewrite elem_of_cons.
  assert ((∀ pk, ¬ genuine sd msg s pk) → verify_sigs sd msg l m (inv ++ [s]) = (m', inv') →
    (inv' = [] ↔ inv = [] ∧ (∃ pk, genuine sd msg s pk) ∧
       Forall (λ s, ∃ pk, genuine sd msg s pk) l) ∧
    ∀ pk, is_Some (m' !! pk) ↔
      is_Some (m !! pk) ∨ ∃ s0, (s0 = s ∨ s0 ∈ l) ∧ genuine sd msg s0 pk) as Hbad.
  { intros Hng [Hi Hm]%IH. split; [|naive_solver]. rewrite Hi. destruct inv; naive_solver. }
  unfold genuine in Hbad at 1. destruct (recover_pubkey sd msg s) as [pk0|] eqn:Hr;
    [|by apply Hbad; intros ? []].
  destruct (sig_verify sd msg s pk0) eqn:Hv; cbn [negb]; [|by apply Hbad; intros ? []; congruence].
  intros [Hi Hm]%IH. split; [rewrite Hi; unfold genuine; naive_solver|].
  intros pk. rewrite Hm, lookup_insert. unfold genuine. case_decide; naive_solver.
Qed.

Lemma verify_nodes_spec (l : list (PT * CPK)) ids (m : gmap CPK S) ids' m' :
  verify_nodes l ids m = (ids', m') →
  (∃ new, ids' = ids ++ new ∧ new `sublist_of` l.*1 ∧
     (∀ x, x ∈ new → ∃ pk, (x, pk) ∈ l ∧ is_Some (m !! pk)) ∧
     (NoDup l.*2 → ∀ x pk, (x, pk) ∈ l → is_Some (m !! pk) → x ∈ new)) ∧
  ∀ pk, is_Some (m' !! pk) ↔ is_Some (m !! pk) ∧ pk ∉ l.*2.
Proof.
  revert ids m. induction l as [|[x pk] l IH]; intros ids m; cbn [verify_nodes].
  { intros [= -> ->]. split; [|by intros; rewrite elem_of_nil; naive_solver].
    exists []. rewrite app_nil_r. split_and!; [done|done|by intros ? ?%elem_of_nil|].
    by intros _ ?? ?%elem_of_nil. }
  rewrite !fmap_cons. cbn [fst snd]. destruct (m !! pk) as [s|] eqn:Hpk.
  - intros [(new & -> & Hsub & Hin & Hall) Hm]%IH. split.
    + exists (x :: new). rewrite <- app_assoc. split_and!; [done|by apply sublist_skip| |].
      * intros y [->|Hy]%elem_of_cons; [exists pk; split; [left|by rewrite Hpk]|].
        apply Hin in Hy as (pk' & ? & Hs). exists pk'. split; [by right|].
        rewrite lookup_delete in Hs. case_decide; [by destruct Hs|done].
      * intros [Hnin Hnd]%NoDup_cons y pk' [?|Hy]%elem_of_cons Hs; simplify_eq; [left|].
        right. eapply Hall; [done|done|]. rewrite lookup_delete_ne; [done|].
        intros <-. apply Hnin, list_elem_of_fmap. by exists (y, pk).
    + intros pk'. rewrite Hm, lookup_delete, not_elem_of_cons. case_decide as Heq.
      * split; [by intros [[] _]|naive_solver].
      * naive_solver.
  - intros [(new & -> & Hsub & Hin & Hall) Hm]%IH. split.
    + exists new. split_and!; [done|by apply sublist_cons| |].
      * intros y (pk' & ? & Hs)%Hin. exists pk'. split; [by right|done].
      * intros [_ Hnd]%NoDup_cons y pk' [?|Hy]%elem_of_cons Hs; simplify_eq;
          [rewrite Hpk in Hs; by destruct Hs|by eapply Hall].
    + intros pk'. rewrite Hm, not_elem_of_cons. split; [|naive_solver].
      intros [Hs Hn]. split_and!; [done| |done]. intros ->. rewrite Hpk in Hs. by destruct Hs.
Qed.

(** What [verify] guarantees of the nodes it returns, and when it succeeds. *)
Lemma multi_sig_verify_Ok sd sc vm msg ids :
  multi_sig_verify sd sc vm msg = Ok ids →
  NoDup ids ∧
  ∀ x, x ∈ ids → ∃ pk s, vm !! x = Some pk ∧ s ∈ sigs sc ∧ genuine sd msg s pk.
Proof.
  unfold multi_sig_verify. destruct (verify_sigs sd msg (sigs sc) ∅ []) as [m inv] eqn:Hs.
  destruct (verify_nodes (btree_iter vm) [] m) as [ids' rest] eqn:Hn.
  case_decide; [done|]. intros [= ->].
  apply verify_sigs_spec in Hs as [_ Hm]. apply verify_nodes_spec in Hn as [(new & -> & Hsub & Hin & _) _].
  split; [by eapply sublist_NoDup, Hsub; apply NoDup_btree_keys|].
  intros x (pk & Hx & Hpk)%Hin. apply Hm in Hpk as [[? Hemp]|(s & ? & ?)].
  { by rewrite lookup_empty in Hemp. }
  exists pk, s. split_and!; [by apply elem_of_btree_iter|done|done].
Qed.

Lemma mapping_injective_keys vm : mapping_injective vm → NoDup (btree_iter vm).*2.
Proof.
  intros Hinj. apply NoDup_fmap_2_strong.
  - intros [a pk] [b pk'] Ha%elem_of_btree_iter Hb%elem_of_btree_iter Heq. cbn in Heq. subst.
    f_equal. by eapply Hinj.
  - rewrite btree_iter_perm. apply NoDup_map_to_list.
Qed.

Lemma multi_sig_verify_all sd sc vm msg :
  mapping_injective vm →
  (∀ s, s ∈ sigs sc → ∃ x pk, vm !! x = Some pk ∧ genuine sd msg s pk) →
  ∃ ids, multi_sig_verify sd sc vm msg = Ok ids ∧
    ∀ x, x ∈ ids ↔ ∃ pk s, vm !! x = Some pk ∧ s ∈ sigs sc ∧ genuine sd msg s pk.
Proof.
  intros Hinj Hall. unfold multi_sig_verify.
  destruct (verify_sigs sd msg (sigs sc) ∅ []) as [m inv] eqn:Hs.
  destruct (verify_nodes (btree_iter vm) [] m) as [ids rest] eqn:Hn.
  apply verify_sigs_spec in Hs as [Hinv Hm].
  apply verify_nodes_spec in Hn as [(new & -> & Hsub & Hin & Hnew) Hrest].
  assert (∀ pk, is_Some (m !! pk) ↔ ∃ s, s ∈ sigs sc ∧ genuine sd msg s pk) as Hm'.
  { intros pk. rewrite Hm, lookup_empty. split; [intros [[]|?]|right]; done. }
  assert (inv = []) as ->.
  { apply Hinv. split; [done|]. apply Forall_forall. intros s (x & pk & ? & ?)%Hall. eauto. }
  assert (rest = ∅) as ->.
  { apply map_eq. intros pk. rewrite lookup_empty. apply eq_None_not_Some.
    intros [(s & (x & pk' & Hx & Hg)%Hall & Hg')%Hm' Hnin]%Hrest.
    apply Hnin, list_elem_of_fmap. exists (x, pk). split; [done|]. apply elem_of_btree_iter.
    destruct Hg, Hg'. congruence. }
  rewrite map_to_list_empty. cbn. eexists. split; [done|]. intros x. split.
  - intros (pk & Hx%elem_of_btree_iter & (s & ? & ?)%Hm')%Hin. eauto.
  - intros (pk & s & Hx & ? & ?). eapply (Hnew (mapping_injective_keys _ Hinj) x pk).
    + by apply elem_of_btree_iter.
    + apply Hm'. eauto.
Qed.

Lemma multi_sig_new_Ok sd l vm msg sc :
  multi_sig_new sd l vm msg = Ok sc →
  Forall (λ p, ∃ pk, vm !! p.1 = Some pk ∧ genuine sd msg p.2 pk) l ∧
  ∀ s, s ∈ sigs sc ↔ s ∈ l.*2.
Proof.
  unfold multi_sig_new. rewrite res_try_Ok. intros ([[m ext] inv] & Hl & Hif).
  destruct (decide (ext ≠ [])) as [|Hext]; [done|]. apply dec_stable in Hext as ->.
  destruct (decide (inv ≠ [])) as [|Hinv]; [done|]. apply dec_stable in Hinv as ->.
  injection Hif as <-. apply new_loop_Ok in Hl as (_ & _ & Hall & Hin & _ & Hback).
  split; [done|]. intros s. unfold btree_values. cbn. rewrite !list_elem_of_fmap. split.
  - intros ([id s'] & -> & Hx%elem_of_btree_iter). apply Hback in Hx as [Hx|Hx].
    + by rewrite lookup_empty in Hx. + by exists (id, s').
  - intros ([id s'] & -> & Hx%Hin). exists (id, s'). by rewrite elem_of_btree_iter.
Qed.

Lemma multi_sig_new_verify sd l vm msg sc :
  mapping_injective vm → multi_sig_new sd l vm msg = Ok sc →
  ∃ ids, multi_sig_verify sd sc vm msg = Ok ids ∧ ∀ x, x ∈ ids ↔ x ∈ l.*1.
Proof.
  intros Hinj [Hall Hsig]%multi_sig_new_Ok. rewrite Forall_forall in Hall.
  destruct (multi_sig_verify_all sd sc vm msg Hinj) as (ids & Hv & Hids).
  { intros s ([id s'] & -> & (pk & ? & ?)%Hall)%Hsig%list_elem_of_fmap. eauto. }
  exists ids. split; [done|]. intros x. rewrite Hids, list_elem_of_fmap. split.
  - intros (pk & s & Hx & ([id s'] & -> & Hin)%Hsig%list_elem_of_fmap & Hg).
    exists (id, s'). split; [|done]. apply Hall in Hin as (pk' & Hid & Hg'). cbn in *.
    assert (pk' = pk) as -> by (destruct Hg, Hg'; congruence). by eapply Hinj.
  - intros ([id s] & -> & Hin). pose proof Hin as (pk & Hid & Hg)%Hall. exists pk, s.
    split_and!; [done| |done]. apply Hsig, list_elem_of_fmap. by exists (id, s).
Qed.

Lemma multi_sig_new_error sd l vm msg e :
  multi_sig_new sd l vm msg = Err e → new_error_ok sd l vm msg e.
Proof.
  unfold multi_sig_new. destruct (new_loop sd vm msg l ∅ [] []) as [[[m ext] inv]|e'] eqn:Hl; cbn.
  - pose proof (new_loop_reports _ _ _ _ _ _ _ _ _ _ Hl) as [He Hi].
    destruct (decide (ext ≠ [])) as [Hext|_].
    { intros [= <-]. destruct ext as [|p ext]; [done|]. cbn. exists p.
      destruct (He p ltac:(left)) as [?%elem_of_nil|[? ?]]; done. }
    destruct (decide (inv ≠ [])) as [Hinv|_]; [|done]. intros [= <-]. cbn. split_and!; [done| |].
    + intros p Hp. by destruct (Hi p Hp) as [?%elem_of_nil|[? _]].
    + intros id s kp Hin Hkp ->. destruct (Hi _ Hin) as [?%elem_of_nil|[_ Hng]]; [done|].
      eapply Hng; [exact Hkp|apply genuine_sign].
  - intros [= <-]. apply new_loop_Err in Hl as (id & s1 & s2 & -> & ? & ? & Hor).
    destruct Hor as [Hor|?]; [by rewrite lookup_empty in Hor|]. done.
Qed.

Lemma multi_sig_new_num sd l vm msg sc :
  multi_sig_new sd l vm msg = Ok sc → l ≠ [] → multi_sig_num_signatures sc ≠ 0.
Proof.
  intros [_ Hsig]%multi_sig_new_Ok Hne. destruct l as [|[id s] l]; [done|].
  assert (s ∈ sigs sc) as Hs by (apply Hsig; left).
  unfold multi_sig_num_signatures. destruct (sigs sc); [by apply elem_of_nil in Hs|done].
Qed.

#[global] Instance MultiSig_SignatureCollection :
  SignatureCollection MultiSig PT S CKP CPK := {|
  sc_new := multi_sig_new;
  sc_verify := multi_sig_verify;
  num_signatures := multi_sig_num_signatures;
  sc_verify_ids sd sc vm msg ids Hv :=
    conj (proj1 (multi_sig_verify_Ok sd sc vm msg ids Hv))
      (λ x Hx, let '(ex_intro _ pk (ex_intro _ _ (conj H _))) :=
         proj2 (multi_sig_verify_Ok sd sc vm msg ids Hv) x Hx in ex_intro _ pk H);
  sc_new_verify := multi_sig_new_verify;
  sc_new_error := multi_sig_new_error;
  sc_new_empty sd vm msg := ex_intro _ _ eq_refl;
  sc_new_num := multi_sig_new_num;
|}.
End multi_sig.

Arguments MultiSig S : clear implicits.

(** ** Theorems *)

(** The signing domains separate messages: the prefixes satisfy the
    assertions of the source and a prefixed message determines its domain and
    its body, so no signature can be replayed in another domain. *)
Theorem signing_domains_separate (sd1 sd2 : SigningDomain) (m1 m2 : bytes) :
  assert_signing_prefix (PREFIX sd1) = true ∧
  (PREFIX sd1 ++ m1 = PREFIX sd2 ++ m2 → sd1 = sd2 ∧ m1 = m2).
Proof.
  split; [by destruct sd1|]. intros Heq.
  assert (sd1 = sd2) as ->; [|split; [done|by apply app_inv_head in Heq]].
  assert (take 1 (PREFIX sd1 ++ m1) = take 1 (PREFIX sd2 ++ m2)) as Hhd by by rewrite Heq.
  destruct sd1, sd2; done || discriminate Hhd.
Qed.

Section multi_sig_theorems.
Context {PT S CKP CPK : Type} `{!PubKey PT, !CertificateSignatureRecoverable S CKP CPK}.
Context `{!EqDecision CPK, !Countable CPK}.

(** [MultiSig::new] and [MultiSig::verify] round trip: the aggregate of the
    signatures of distinct nodes over a message is built without error and
    verifies to exactly those nodes; and whatever collection is presented,
    every node [verify] returns has in it a genuine signature under its key. *)
Theorem multi_sig_roundtrip (sd : SigningDomain) (vm : gmap PT CPK) (msg : bytes)
    (signers : list (PT * CKP)) :
  mapping_injective vm → NoDup signers.*1 →
  (∀ id kp, (id, kp) ∈ signers → vm !! id = Some (pubkey kp)) →
  (∃ sc ids, multi_sig_new sd ((λ p, (p.1, sign sd msg p.2)) <$> signers) vm msg = Ok sc ∧
     multi_sig_verify sd sc vm msg = Ok ids ∧ NoDup ids ∧ ∀ x, x ∈ ids ↔ x ∈ signers.*1) ∧
  (∀ (sc : MultiSig S) ids, multi_sig_verify sd sc vm msg = Ok ids →
     NoDup ids ∧
     ∀ x, x ∈ ids → ∃ pk s, vm !! x = Some pk ∧ s ∈ sigs sc ∧ genuine sd msg s pk).
Proof.
  intros Hinj Hnd Hkeys. split; [|by intros; apply multi_sig_verify_Ok].
  destruct (multi_sig_new sd ((λ p, (p.1, sign sd msg p.2)) <$> signers) vm msg)
    as [sc|e] eqn:Hnew.
  - destruct (multi_sig_new_verify _ _ _ _ _ Hinj Hnew) as (ids & Hv & Hids).
    exists sc, ids. split_and!; [done|done|by eapply multi_sig_verify_Ok|].
    intros x. rewrite Hids, <- list_fmap_compose. done.
  - apply multi_sig_new_error in Hnew. destruct e as [l|id s1 s2|l| |]; cbn in Hnew; try done.
    + destruct Hnew as (p & ([id kp] & -> & Hin)%list_elem_of_fmap & Hnone). cbn in Hnone.
      by rewrite (Hkeys _ _ Hin) in Hnone.
    + destruct Hnew as (([i1 k1] & [= -> ->] & H1)%list_elem_of_fmap &
                        ([i2 k2] & [= -> ->] & H2)%list_elem_of_fmap & Hne).
      exfalso. apply Hne. do 2 f_equal.
      apply list_elem_of_lookup in H1 as [j1 H1], H2 as [j2 H2].
      assert (j1 = j2) as ->; [|congruence].
      eapply NoDup_lookup; [exact Hnd|by rewrite list_lookup_fmap, H1|by rewrite list_lookup_fmap, H2].
    + destruct Hnew as (Hne & Hsub & Hbad). destruct l as [|[id s] l]; [done|].
      assert ((id, s) ∈ (id, s) :: l) as Hin by left.
      pose proof (Hsub _ Hin) as ([id' kp] & [= -> ->] & Hs)%list_elem_of_fmap.
      exfalso. eapply Hbad; [exact Hin|by apply Hkeys|done].
Qed.
End multi_sig_theorems.

Lemma multi_sig_roundtrip_witness :
  ∃ (sc : MultiSig NopSignature) ids,
    multi_sig_new (CertificateSignatureRecoverable0 := Nop_Recoverable (nsum))
      VoteDomain ((λ p, (p.1, nop_sign nsum VoteDomain [7%N] p.2)) <$> [(1, 11); (2, 12)]%N)
      (list_to_map [(1, 11); (2, 12); (3, 13)]%N) [7%N] = Ok sc ∧
    multi_sig_verify (CertificateSignatureRecoverable0 := Nop_Recoverable (nsum))
      VoteDomain sc (list_to_map [(1, 11); (2, 12); (3, 13)]%N) [7%N] = Ok ids ∧
    (1%N ∈ ids ↔ 1%N ∈ [1; 2]%N).
Proof.
  destruct (multi_sig_roundtrip (CertificateSignatureRecoverable0 := Nop_Recoverable (nsum))
    VoteDomain (list_to_map [(1, 11); (2, 12); (3, 13)]%N) [7%N] [(1, 11); (2, 12)]%N)
    as [(sc & ids & H1 & H2 & _ & H3) _].
  - intros a b pk Ha%elem_of_list_to_map_2 Hb%elem_of_list_to_map_2.
    rewrite !elem_of_cons, elem_of_nil in Ha, Hb. naive_solver.
  - by apply (bool_decide_unpack _).
  - intros id kp. rewrite !elem_of_cons, elem_of_nil. intros [[= -> ->]|[[= -> ->]|[]]]; reflexivity.
  - exists sc, ids. split; [exact H1|]. split; [exact H2|]. apply H3.
Defined.
