(* ===== verification/Certificates.v ===== *)
(** * Certificates, tips, timeouts and blocks ([src/consensus-types/src])

    The data the protocol exchanges: votes and quorum certificates (QC),
    timeouts and timeout certificates (TC), block headers, tips, and the
    certificates that allow a fresh proposal.  The class [Protocol] bundles the
    generic parameters of the source ([ST], [SCT], [EPT]); the class [Codec]
    is RLP encoding and hashing.  The theorems show that the rank order of the
    certificates is a total order and that [TimeoutCertificate::new] keeps the
    highest ranked extension. *)
From S2P Require Import Prelude Types SignatureCollection.

(** ** The generic parameters *)

Class Protocol := {
  PT : Type;
  ST : Type;
  KP : Type;
  CST : Type;
  CKP : Type;
  CPK : Type;
  SCT : Type;
  ProposedHeader : Type;
  FinalizedHeader : Type;
  Body : Type;
  PT_PubKey :: PubKey PT;
  ST_signature :: CertificateSignatureRecoverable ST KP PT;
  CST_signature :: CertificateSignature CST CKP CPK;
  CPK_eq_dec :: EqDecision CPK;
  SCT_collection :: SignatureCollection SCT PT CST CKP CPK;
  ProposedHeader_eq_dec :: EqDecision ProposedHeader;
  FinalizedHeader_eq_dec :: EqDecision FinalizedHeader;
  Body_eq_dec :: EqDecision Body;
}.

(** The iteration order of a [HashMap] is not specified. *)
Class HashIter := {
  hash_iter {K V} `{Countable K} : gmap K V → list (K * V);
  hash_iter_perm {K V} `{Countable K} (m : gmap K V) : hash_iter m ≡ₚ map_to_list m;
}.

(** ** Votes and quorum certificates *)

Record Vote := { v_id : BlockId; v_round : Round; v_epoch : Epoch }.

#[global] Instance Vote_eq_dec : EqDecision Vote.
Proof. solve_decision. Defined.

#[global] Instance Vote_countable : Countable Vote.
Proof.
  apply (inj_countable' (λ v, (v_id v, v_round v, v_epoch v))
    (λ '(i, r, e), {| v_id := i; v_round := r; v_epoch := e |})). by intros [].
Defined.

Record TimeoutInfo := {
  ti_epoch : Epoch;
  ti_round : Round;
  ti_high_qc_round : Round;
  ti_high_tip_round : Round;
}.

#[global] Instance TimeoutInfo_eq_dec : EqDecision TimeoutInfo.
Proof. solve_decision. Defined.

#[global] Instance TimeoutInfo_countable : Countable TimeoutInfo.
Proof.
  apply (inj_countable' (λ t, (ti_epoch t, ti_round t, ti_high_qc_round t, ti_high_tip_round t))
    (λ '(e, r, q, h), {| ti_epoch := e; ti_round := r; ti_high_qc_round := q;
                         ti_high_tip_round := h |})). by intros [].
Defined.

Record NoEndorsement := { ne_epoch : Epoch; ne_round : Round; tip_qc_round : Round }.

#[global] Instance NoEndorsement_eq_dec : EqDecision NoEndorsement.
Proof. solve_decision. Defined.

#[global] Instance NoEndorsement_countable : Countable NoEndorsement.
Proof.
  apply (inj_countable' (λ n, (ne_epoch n, ne_round n, tip_qc_round n))
    (λ '(e, r, q), {| ne_epoch := e; ne_round := r; tip_qc_round := q |})). by intros [].
Defined.

Record RootInfo := {
  root_round : Round;
  root_seq_num : SeqNum;
  root_epoch : Epoch;
  root_block_id : BlockId;
  root_timestamp_ns : N;
}.

#[global] Instance RootInfo_eq_dec : EqDecision RootInfo.
Proof. solve_decision. Defined.

Record LockedEpoch := { le_epoch : Epoch; le_round : Round }.

Section data.
Context `{Protocol}.

Record QuorumCertificate := { qc_info : Vote; qc_signatures : SCT }.

#[global] Instance QuorumCertificate_eq_dec : EqDecision QuorumCertificate.
Proof. solve_decision. Defined.

Definition genesis_qc : run QuorumCertificate :=
  let vote := {| v_id := GENESIS_BLOCK_ID; v_epoch := 1%N; v_round := GENESIS_ROUND |} in
  match sc_new VoteDomain [] ∅ [] with
  | Ok sigs => Ret {| qc_info := vote; qc_signatures := sigs |}
  | Err _ => Panic
  end.

Definition qc_get_round (self : QuorumCertificate) : Round := v_round (qc_info self).
Definition qc_get_epoch (self : QuorumCertificate) : Epoch := v_epoch (qc_info self).
Definition qc_get_block_id (self : QuorumCertificate) : BlockId := v_id (qc_info self).

(** [Rank] compares quorum certificates by round. *)
Definition qc_rank_cmp (a b : QuorumCertificate) : comparison :=
  (v_round (qc_info a) ?= v_round (qc_info b))%N.

(** ** Blocks *)

Record ConsensusBlockHeader := {
  block_round : Round;
  hdr_epoch : Epoch;
  hdr_qc : QuorumCertificate;
  hdr_author : PT;
  hdr_seq_num : SeqNum;
  hdr_timestamp_ns : N;
  hdr_round_signature : CST;
  delayed_execution_results : list FinalizedHeader;
  execution_inputs : ProposedHeader;
  block_body_id : N;
  base_fee : N;
  base_fee_trend : N;
  base_fee_moment : N;
}.

#[global] Instance ConsensusBlockHeader_eq_dec : EqDecision ConsensusBlockHeader.
Proof. solve_decision. Defined.

Definition get_parent_id (self : ConsensusBlockHeader) : BlockId := qc_get_block_id (hdr_qc self).

Record ConsensusFullBlock := { header : ConsensusBlockHeader; body : Body }.

Inductive ConsensusFullBlockError := HeaderPayloadMismatch.

(** ** Fresh proposal certificates and tips *)

Record NoEndorsementCertificate := { nec_msg : NoEndorsement; nec_signatures : SCT }.

#[global] Instance NoEndorsementCertificate_eq_dec : EqDecision NoEndorsementCertificate.
Proof. solve_decision. Defined.

Record HighTipRoundSigColTuple := { ht_qc_round : Round; ht_tip_round : Round; ht_sigs : SCT }.

#[global] Instance HighTipRoundSigColTuple_eq_dec : EqDecision HighTipRoundSigColTuple.
Proof. solve_decision. Defined.

Record NoTipCertificate := {
  nt_epoch : Epoch;
  nt_round : Round;
  nt_tip_rounds : list HighTipRoundSigColTuple;
  nt_high_qc : QuorumCertificate;
}.

Inductive FreshProposalCertificate :=
| Nec (nec : NoEndorsementCertificate)
| NoTip (no_tip_cert : NoTipCertificate).

#[global] Instance FreshProposalCertificate_eq_dec : EqDecision FreshProposalCertificate.
Proof. assert (EqDecision NoTipCertificate) by solve_decision. solve_decision. Defined.

Record ConsensusTip := {
  tip_header : ConsensusBlockHeader;
  tip_signature : ST;
  fresh_certificate : option FreshProposalCertificate;
}.

#[global] Instance ConsensusTip_eq_dec : EqDecision ConsensusTip.
Proof. solve_decision. Defined.

(** ** Extensions and their ranks *)

Inductive HighExtend :=
| HeTip (tip : ConsensusTip)
| HeQc (qc : QuorumCertificate).

#[global] Instance HighExtend_eq_dec : EqDecision HighExtend.
Proof. solve_decision. Defined.

Inductive HighExtendVote :=
| HvTip (tip : ConsensusTip) (vote : option CST)
| HvQc (qc : QuorumCertificate).

#[global] Instance HighExtendVote_eq_dec : EqDecision HighExtendVote.
Proof. solve_decision. Defined.
End data.

Inductive HighExtendRank :=
| RankTip (tip_round qc_round : Round)
| RankQc (qc_round : Round).

#[global] Instance HighExtendRank_eq_dec : EqDecision HighExtendRank.
Proof. solve_decision. Defined.

Definition rank_cmp (self other : HighExtendRank) : comparison :=
  match self, other with
  | RankQc qc_round_1, RankQc qc_round_2 => (qc_round_1 ?= qc_round_2)%N
  | RankTip tip_round_1 qc_round_1, RankTip tip_round_2 qc_round_2 =>
      if decide (tip_round_1 ≠ tip_round_2) then (tip_round_1 ?= tip_round_2)%N
      else (qc_round_1 ?= qc_round_2)%N
  | RankQc qc_round_1, RankTip tip_round_2 _ =>
      if decide (qc_round_1 = tip_round_2) then Gt else (qc_round_1 ?= tip_round_2)%N
  | RankTip tip_round_1 _, RankQc qc_round_2 =>
      if decide (tip_round_1 = qc_round_2) then Lt else (tip_round_1 ?= qc_round_2)%N
  end.

Definition TimeoutInfo_rank (self : TimeoutInfo) : HighExtendRank :=
  if decide (ti_high_tip_round self = GENESIS_ROUND) then RankQc (ti_high_qc_round self)
  else RankTip (ti_high_tip_round self) (ti_high_qc_round self).

Section extensions.
Context `{Protocol}.

Definition tuple_rank (self : HighTipRoundSigColTuple) : HighExtendRank :=
  if decide (ht_tip_round self = GENESIS_ROUND) then RankQc (ht_qc_round self)
  else RankTip (ht_tip_round self) (ht_qc_round self).

Definition HighExtend_rank (self : HighExtend) : HighExtendRank :=
  match self with
  | HeTip tip => RankTip (block_round (tip_header tip)) (qc_get_round (hdr_qc (tip_header tip)))
  | HeQc qc => RankQc (qc_get_round qc)
  end.

Definition HighExtend_qc (self : HighExtend) : QuorumCertificate :=
  match self with HeTip tip => hdr_qc (tip_header tip) | HeQc qc => qc end.

Definition HighExtendVote_rank (self : HighExtendVote) : HighExtendRank :=
  match self with
  | HvTip tip _ => RankTip (block_round (tip_header tip)) (qc_get_round (hdr_qc (tip_header tip)))
  | HvQc qc => RankQc (qc_get_round qc)
  end.

Definition HighExtendVote_qc (self : HighExtendVote) : QuorumCertificate :=
  match self with HvTip tip _ => hdr_qc (tip_header tip) | HvQc qc => qc end.

(** [From<HighExtendVote> for HighExtend]. *)
Definition HighExtend_from (high_extend : HighExtendVote) : HighExtend :=
  match high_extend with HvQc qc => HeQc qc | HvTip tip _ => HeTip tip end.

Definition HighExtend_partial_cmp (self other : HighExtend) : option comparison :=
  match rank_cmp (HighExtend_rank self) (HighExtend_rank other) with
  | Eq => if decide (self ≠ other) then None else Some Eq
  | ord => Some ord
  end.

(** ** Timeouts and round certificates *)

Record TimeoutCertificate := {
  tc_epoch : Epoch;
  tc_round : Round;
  tc_tip_rounds : list HighTipRoundSigColTuple;
  tc_high_extend : HighExtend;
}.

#[global] Instance TimeoutCertificate_eq_dec : EqDecision TimeoutCertificate.
Proof. solve_decision. Defined.

Inductive RoundCertificate :=
| RcQc (qc : QuorumCertificate)
| RcTc (tc : TimeoutCertificate).

#[global] Instance RoundCertificate_eq_dec : EqDecision RoundCertificate.
Proof. solve_decision. Defined.

Definition rc_round (self : RoundCertificate) : Round :=
  match self with RcQc qc => v_round (qc_info qc) | RcTc tc => tc_round tc end.

Definition rc_tc (self : RoundCertificate) : option TimeoutCertificate :=
  match self with RcQc _ => None | RcTc tc => Some tc end.

Definition rc_qc (self : RoundCertificate) : QuorumCertificate :=
  match self with RcQc qc => qc | RcTc tc => HighExtend_qc (tc_high_extend tc) end.

Record Checkpoint := {
  cp_root : BlockId;
  cp_high_certificate : RoundCertificate;
  cp_validator_sets : list LockedEpoch;
}.

Record Timeout := {
  tm_info : TimeoutInfo;
  tm_signature : CST;
  tm_high_extend : HighExtendVote;
  tm_last_round_certificate : option RoundCertificate;
}.

#[global] Instance Timeout_eq_dec : EqDecision Timeout.
Proof. solve_decision. Defined.
End extensions.

(** ** Encoding and hashing

    [alloy_rlp::encode] on the signed structures, and the block hash. *)

Class Codec `{Protocol} := {
  encode_vote : Vote → bytes;
  encode_timeout_info : TimeoutInfo → bytes;
  encode_no_endorsement : NoEndorsement → bytes;
  encode_round : Round → bytes;
  encode_header : ConsensusBlockHeader → bytes;
  encode_body : Body → bytes;
  encode_qc : QuorumCertificate → bytes;
  encode_tc : TimeoutCertificate → bytes;
  encode_nec : NoEndorsementCertificate → bytes;
  hasher : bytes → N;
  encode_vote_inj :: Inj (=) (=) encode_vote;
  encode_timeout_info_inj :: Inj (=) (=) encode_timeout_info;
  encode_no_endorsement_inj :: Inj (=) (=) encode_no_endorsement;
  encode_round_inj :: Inj (=) (=) encode_round;
  encode_qc_inj :: Inj (=) (=) encode_qc;
  encode_tc_inj :: Inj (=) (=) encode_tc;
  encode_nec_inj :: Inj (=) (=) encode_nec;
}.

Section codec.
Context `{Codec}.

Definition get_id (self : ConsensusBlockHeader) : BlockId := hasher (encode_header self).

Definition body_get_id (self : Body) : N := hasher (encode_body self).

Definition ConsensusFullBlock_new (header : ConsensusBlockHeader) (body : Body) :
    result ConsensusFullBlock ConsensusFullBlockError :=
  if decide (body_get_id body ≠ block_body_id header) then Err HeaderPayloadMismatch
  else Ok {| header := header; body := body |}.

(** The commit rule. *)
Definition get_committable_id (self : QuorumCertificate) (qc_parent_block : ConsensusBlockHeader) :
    run (option BlockId) :=
  assert (v_id (qc_info self) = get_id qc_parent_block) ≫= λ _,
  next ← Round_add (v_round (qc_info (hdr_qc qc_parent_block))) 1;
  if decide (v_round (qc_info self) = next) then Ret (Some (get_parent_id qc_parent_block))
  else Ret None.

Definition RoundSignature_new (round : Round) (keypair : CKP) : CST :=
  sign RoundSignatureDomain (encode_round round) keypair.

Definition RoundSignature_verify (self : CST) (round : Round) (pubkey : CPK) : bool :=
  sig_verify RoundSignatureDomain (encode_round round) self pubkey.

Definition ConsensusTip_new (keypair : KP) (block_header : ConsensusBlockHeader)
    (fresh_certificate : option FreshProposalCertificate) : ConsensusTip :=
  {| tip_header := block_header;
     tip_signature := sign TipDomain (encode_header block_header) keypair;
     fresh_certificate := fresh_certificate |}.

Definition signature_author (self : ConsensusTip) : option PT :=
  recover_pubkey TipDomain (encode_header (tip_header self)) (tip_signature self).

Definition Timeout_new (cert_keypair : CKP) (timeout : TimeoutInfo) (high_extend : HighExtend)
    (safe_to_vote : bool) (last_round_certificate : option RoundCertificate) : Timeout :=
  let timeout_digest := encode_timeout_info timeout in
  let timeout_signature := sign TimeoutDomain timeout_digest cert_keypair in
  let high_extend :=
    match high_extend with
    | HeQc qc => HvQc qc
    | HeTip tip =>
        let maybe_vote_signature :=
          if safe_to_vote then
            Some (sign VoteDomain
                    (encode_vote {| v_round := ti_round timeout; v_epoch := ti_epoch timeout;
                                    v_id := get_id (tip_header tip) |}) cert_keypair)
          else None in
        HvTip tip maybe_vote_signature
    end in
  {| tm_info := timeout; tm_high_extend := high_extend;
     tm_last_round_certificate := last_round_certificate;
     tm_signature := timeout_signature |}.

(** ** TimeoutCertificate::new *)

Context `{!HashIter}.

(** The first loop: the signatures of each [TimeoutInfo], and the highest
    extension so far. *)
Fixpoint tc_collect (l : list (PT * Timeout)) (highest_extend : HighExtend)
    (sigs : gmap TimeoutInfo (list (PT * CST))) :
    HighExtend * gmap TimeoutInfo (list (PT * CST)) :=
  match l with
  | [] => (highest_extend, sigs)
  | (node_id, timeout) :: l =>
      let entry := default [] (sigs !! tm_info timeout) in
      let sigs := <[tm_info timeout := entry ++ [(node_id, tm_signature timeout)]]> sigs in
      let timeout_high_extend := HighExtend_from (tm_high_extend timeout) in
      let highest_extend :=
        if decide (HighExtend_partial_cmp timeout_high_extend highest_extend = Some Gt)
        then timeout_high_extend else highest_extend in
      tc_collect l highest_extend sigs
  end.

(** The second loop: one aggregate per [TimeoutInfo]. *)
Fixpoint tc_aggregate (l : list (TimeoutInfo * list (PT * CST))) (vm : gmap PT CPK)
    (tip_rounds : list HighTipRoundSigColTuple) :
    result (list HighTipRoundSigColTuple) (SignatureCollectionError PT CST) :=
  match l with
  | [] => Ok tip_rounds
  | (timeout_info, sigs) :: l =>
      sct ←! sc_new TimeoutDomain sigs vm (encode_timeout_info timeout_info);
      tc_aggregate l vm
        (tip_rounds ++ [{| ht_qc_round := ti_high_qc_round timeout_info;
                           ht_tip_round := ti_high_tip_round timeout_info;
                           ht_sigs := sct |}])
  end.

Definition TimeoutCertificate_new (epoch : Epoch) (round : Round)
    (high_tip_round_sig_tuple : list (PT * Timeout)) (validator_mapping : gmap PT CPK) :
    run (result TimeoutCertificate (SignatureCollectionError PT CST)) :=
  genesis ← genesis_qc;
  let '(highest_extend, sigs) := tc_collect high_tip_round_sig_tuple (HeQc genesis) ∅ in
  Ret (tip_rounds ←! tc_aggregate (hash_iter sigs) validator_mapping [];
       Ok {| tc_epoch := epoch; tc_round := round; tc_tip_rounds := tip_rounds;
             tc_high_extend := highest_extend |}).
End codec.

(** ** Lemmas *)

(** The rank order is the lexicographic order of round, kind and parent round. *)
Definition rank_key (r : HighExtendRank) : N * N * N :=
  match r with
  | RankTip t q => (t, 0, q)%N
  | RankQc q => (q, 1, 0)%N
  end.

Definition key_lt (a b : N * N * N) : Prop :=
  let '(a1, a2, a3) := a in let '(b1, b2, b3) := b in
  (a1 < b1 ∨ a1 = b1 ∧ (a2 < b2 ∨ a2 = b2 ∧ a3 < b3))%N.

Lemma rank_cmp_spec a b :
  match rank_cmp a b with
  | Lt => key_lt (rank_key a) (rank_key b)
  | Eq => a = b
  | Gt => key_lt (rank_key b) (rank_key a)
  end.
Proof.
  destruct a as [t1 q1|q1], b as [t2 q2|q2]; cbn; try case_decide; subst; cbn; try lia.
  - by destruct (N.compare_spec t1 t2); subst; cbn; [|lia..].
  - destruct (N.compare_spec q1 q2); subst; cbn; [done|lia..].
  - destruct (N.compare_spec t1 q2); subst; cbn; [done|lia..].
  - destruct (N.compare_spec q1 t2); subst; cbn; [done|lia..].
  - destruct (N.compare_spec q1 q2); subst; cbn; [done|lia..].
Qed.

Lemma key_lt_irrefl k : ¬ key_lt k k.
Proof. destruct k as [[k1 k2] k3]. cbn. lia. Qed.

Lemma key_lt_trans a b c : key_lt a b → key_lt b c → key_lt a c.
Proof. destruct a as [[] ?], b as [[] ?], c as [[] ?]. cbn. lia. Qed.

(** [a] ranks at most as high as [b]. *)
Definition rank_le (a b : HighExtendRank) : Prop := rank_cmp a b ≠ Gt.

Lemma rank_le_key a b : rank_le a b ↔ a = b ∨ key_lt (rank_key a) (rank_key b).
Proof.
  unfold rank_le. pose proof (rank_cmp_spec a b) as Hs.
  destruct (rank_cmp a b); [naive_solver..|]. split; [done|].
  intros [->|Hl] _; [by eapply key_lt_irrefl|]. eapply key_lt_irrefl, key_lt_trans; eauto.
Qed.

#[global] Instance rank_le_preorder : PreOrder rank_le.
Proof.
  split.
  - intros a. apply rank_le_key. by left.
  - intros a b c. rewrite !rank_le_key. intros [->|?] [->|?]; auto.
    right. by eapply key_lt_trans.
Qed.

Lemma rank_le_total a b : rank_le a b ∨ rank_le b a.
Proof.
  rewrite !rank_le_key. pose proof (rank_cmp_spec a b). destruct (rank_cmp a b); auto.
Qed.

Section tc_lemmas.
Context `{Codec, !HashIter}.

Lemma genesis_qc_Ret : ∃ qc, genesis_qc = Ret qc ∧ qc_get_round qc = GENESIS_ROUND.
Proof.
  unfold genesis_qc. destruct (sc_new_empty VoteDomain ∅ []) as [sc Hsc]. rewrite Hsc.
  eexists. split; [done|]. done.
Qed.

Lemma tc_collect_highest l h sigs h' sigs' :
  tc_collect l h sigs = (h', sigs') →
  (h' = h ∨ ∃ p, p ∈ l ∧ h' = HighExtend_from (tm_high_extend p.2)) ∧
  rank_le (HighExtend_rank h) (HighExtend_rank h') ∧
  ∀ p, p ∈ l → rank_le (HighExtend_rank (HighExtend_from (tm_high_extend p.2))) (HighExtend_rank h').
Proof.
  revert h sigs. induction l as [|[x t] l IH]; intros h sigs; cbn [tc_collect].
  { intros [= -> ->]. split_and!; [by left|done|]. by intros p ?%elem_of_nil. }
  set (e := HighExtend_from (tm_high_extend t)).
  assert (∀ h0, (h0 = h ∨ h0 = e) → rank_le (HighExtend_rank h) (HighExtend_rank h0) →
    rank_le (HighExtend_rank e) (HighExtend_rank h0) →
    ((h' = h0 ∨ ∃ p, p ∈ l ∧ h' = HighExtend_from (tm_high_extend p.2)) ∧
     rank_le (HighExtend_rank h0) (HighExtend_rank h') ∧
     ∀ p, p ∈ l → rank_le (HighExtend_rank (HighExtend_from (tm_high_extend p.2))) (HighExtend_rank h')) →
    (h' = h ∨ ∃ p, p ∈ (x, t) :: l ∧ h' = HighExtend_from (tm_high_extend p.2)) ∧
    rank_le (HighExtend_rank h) (HighExtend_rank h') ∧
    ∀ p, p ∈ (x, t) :: l →
      rank_le (HighExtend_rank (HighExtend_from (tm_high_extend p.2))) (HighExtend_rank h')) as Hstep.
  { intros h0 Hh0 Hle Hle' (Hor & Hl & Hall). split_and!.
    - destruct Hor as [->|(p & ? & ->)].
      + destruct Hh0 as [->| ->]; [by left|]. right. exists (x, t). split; [left|done].
      + right. exists p. split; [by right|done].
    - by etrans.
    - intros p [->|Hp]%elem_of_cons; [cbn; fold e; by etrans|auto]. }
  pose proof (rank_cmp_spec (HighExtend_rank e) (HighExtend_rank h)) as Hs.
  case_decide as Hgt; intros Hc%IH; eapply Hstep; try exact Hc; auto; try reflexivity.
  - unfold HighExtend_partial_cmp in Hgt. apply rank_le_key. right.
    destruct (rank_cmp _ _); [case_decide|..]; done.
  - unfold HighExtend_partial_cmp in Hgt. apply rank_le_key.
    destruct (rank_cmp _ _); [by left|by right|done].
Qed.

Lemma tc_aggregate_Ok l vm acc trs :
  tc_aggregate l vm acc = Ok trs ↔
  ∃ new, trs = acc ++ new ∧
    Forall2 (λ p t, ht_qc_round t = ti_high_qc_round p.1 ∧ ht_tip_round t = ti_high_tip_round p.1 ∧
      sc_new TimeoutDomain p.2 vm (encode_timeout_info p.1) = Ok (ht_sigs t)) l new.
Proof.
  revert acc. induction l as [|[ti sigs] l IH]; intros acc; cbn [tc_aggregate].
  { split.
    - intros [= ->]. exists []. by rewrite app_nil_r.
    - intros (new & -> & Hf). inversion Hf. by rewrite app_nil_r. }
  rewrite res_try_Ok. setoid_rewrite IH. split.
  - intros (sct & Hsc & new & -> & Hf). eexists (_ :: new). rewrite <- app_assoc.
    split; [done|]. by constructor.
  - intros (new & -> & Hf). inversion Hf as [|? t ? new' (Hq & Ht & Hs) Hf']; subst.
    exists (ht_sigs t). split; [done|]. exists new'. rewrite <- app_assoc. split; [|done].
    cbn in *. destruct t as [q h s]. cbn in *. by subst.
Qed.

(** The signatures grouped under a [TimeoutInfo] are those of the timeouts that
    carry it, in order. *)
Lemma tc_collect_sigs l h sigs h' sigs' ti :
  tc_collect l h sigs = (h', sigs') →
  default [] (sigs' !! ti) =
    default [] (sigs !! ti) ++
    ((λ p, (p.1, tm_signature p.2)) <$> filter (λ p, tm_info p.2 = ti) l) ∧
  (is_Some (sigs' !! ti) ↔ is_Some (sigs !! ti) ∨ ∃ p, p ∈ l ∧ tm_info p.2 = ti).
Proof.
  revert h sigs. induction l as [|[x t] l IH]; intros h sigs; cbn [tc_collect].
  { intros [= -> ->]. rewrite filter_nil. cbn. rewrite app_nil_r. split; [done|].
    split; [by left|]. intros [?|(p & ?%elem_of_nil & _)]; done. }
  intros [-> Hsome]%IH. rewrite Hsome, !filter_cons. cbn [snd]. rewrite !lookup_insert.
  setoid_rewrite elem_of_cons.
  destruct (decide (tm_info t = ti)) as [Ht|Ht]; cbn.
  - subst ti. split; [by rewrite <- app_assoc|]. split; [|by eauto].
    intros _. right. exists (x, t). auto.
  - split; [done|]. split.
    + intros [?|(p & ? & ?)]; [by left|]. right. exists p. auto.
    + intros [?|(p & [->|?] & ?)]; [by left|done|]. right. eauto.
Qed.
End tc_lemmas.

(** ** Theorems *)

(** The comparison of extension ranks is a strict total order: it decides
    equality, is antisymmetric and transitive, so the highest of a set of
    extensions does not depend on the order of comparison; and at equal rounds
    a QC outranks a tip. *)
Theorem high_extend_rank_total_order (a b c : HighExtendRank) (r q : Round) :
  (rank_cmp a b = Eq ↔ a = b) ∧
  rank_cmp b a = CompOpp (rank_cmp a b) ∧
  (rank_cmp a b = Lt → rank_cmp b c = Lt → rank_cmp a c = Lt) ∧
  rank_cmp (RankTip r q) (RankQc r) = Lt.
Proof.
  assert (∀ a b, rank_cmp a b = Lt ↔ key_lt (rank_key a) (rank_key b)) as Hlt.
  { intros x y. pose proof (rank_cmp_spec x y) as Hs. split; [intros He; by rewrite He in Hs|].
    intros Hl. destruct (rank_cmp x y); [subst|done|]; exfalso.
    - by eapply key_lt_irrefl.
    - eapply key_lt_irrefl, key_lt_trans; eauto. }
  assert (∀ a b, rank_cmp a b = Eq ↔ a = b) as Heq.
  { intros x y. pose proof (rank_cmp_spec x y) as Hs. split; [intros He; by rewrite He in Hs|].
    intros ->. destruct (rank_cmp y y) eqn:?; [done|..]; exfalso; by eapply key_lt_irrefl. }
  split_and!.
  - apply Heq.
  - pose proof (rank_cmp_spec a b) as Hs. destruct (rank_cmp a b) eqn:Hab; cbn.
    + by apply Heq.
    + destruct (rank_cmp b a) eqn:Hba; [apply Heq in Hba as ->|apply Hlt in Hba|done]; exfalso.
      * by eapply key_lt_irrefl.
      * eapply key_lt_irrefl, key_lt_trans; eauto.
    + by apply Hlt.
  - rewrite !Hlt. apply key_lt_trans.
  - cbn. by rewrite decide_True.
Qed.

Section tc_theorems.
Context `{Codec, !HashIter}.

(** The TC built from a list of timeouts carries an extension that is the
    genesis QC or comes from one of the timeouts, ranks at least as high as
    every timeout's, and aggregates for each reported pair of rounds exactly
    the signatures of the timeouts that report it: no timeout is dropped. *)
Theorem timeout_certificate_highest (e : Epoch) (r : Round) (l : list (PT * Timeout))
    (vm : gmap PT CPK) (tc : TimeoutCertificate) :
  TimeoutCertificate_new e r l vm = Ret (Ok tc) →
  tc_epoch tc = e ∧ tc_round tc = r ∧
  (genesis_qc = Ret (HighExtend_qc (tc_high_extend tc)) ∨
   ∃ p, p ∈ l ∧ tc_high_extend tc = HighExtend_from (tm_high_extend p.2)) ∧
  (∀ p, p ∈ l → rank_le (HighExtend_rank (HighExtend_from (tm_high_extend p.2)))
                        (HighExtend_rank (tc_high_extend tc))) ∧
  (∀ p, p ∈ l → ∃ t, t ∈ tc_tip_rounds tc ∧
     ht_qc_round t = ti_high_qc_round (tm_info p.2) ∧
     ht_tip_round t = ti_high_tip_round (tm_info p.2) ∧
     sc_new TimeoutDomain
       ((λ q, (q.1, tm_signature q.2)) <$> filter (λ q, tm_info q.2 = tm_info p.2) l)
       vm (encode_timeout_info (tm_info p.2)) = Ok (ht_sigs t)).
Proof.
  unfold TimeoutCertificate_new. destruct genesis_qc_Ret as (g & Hg & _). rewrite Hg. cbn [mbind run_bind].
  destruct (tc_collect l (HeQc g) ∅) as [h sigs] eqn:Hc. intros [= Hagg].
  apply res_try_Ok in Hagg as (trs & Hagg & [= <-]). cbn.
  apply tc_aggregate_Ok in Hagg as (new & -> & Hf).
  pose proof (tc_collect_highest _ _ _ _ _ Hc) as (Hor & _ & Hall).
  split_and!; [done|done| |done|].
  - destruct Hor as [->|?]; [by left|by right].
  - intros p Hp. destruct (tc_collect_sigs _ _ _ _ _ (tm_info p.2) Hc) as [Hs Hsome].
    rewrite lookup_empty in Hs. cbn in Hs.
    destruct (proj2 Hsome ltac:(right; eauto)) as [ss Hss]. rewrite Hss in Hs. cbn in Hs. subst ss.
    apply elem_of_map_to_list in Hss. rewrite <- hash_iter_perm in Hss.
    apply list_elem_of_lookup in Hss as [i Hi].
    destruct (Forall2_lookup_l _ _ _ _ _ Hf Hi) as (t & Ht & Hq & Hh & Hsc).
    exists t. split_and!; [by eapply list_elem_of_lookup_2|done|done|done].
Qed.
End tc_theorems.

(** ** Concrete parameters

    The test protocol of the repository: [NopSignature] for nodes and
    certificates, [MultiSig] aggregates, trivial execution types, and a
    positional encoding. *)

(** Certificates can be numbered when their parameters can. *)
Section countable.
Context `{Protocol} `{!Countable SCT, !Countable CST, !Countable ST}.
Context `{!Countable ProposedHeader, !Countable FinalizedHeader}.

#[global] Instance QuorumCertificate_countable : Countable QuorumCertificate.
Proof.
  apply (inj_countable' (λ q, (qc_info q, qc_signatures q))
    (λ '(i, s), {| qc_info := i; qc_signatures := s |})). by intros [].
Defined.

#[global] Instance NoEndorsementCertificate_countable : Countable NoEndorsementCertificate.
Proof.
  apply (inj_countable' (λ q, (nec_msg q, nec_signatures q))
    (λ '(i, s), {| nec_msg := i; nec_signatures := s |})). by intros [].
Defined.

#[global] Instance HighTipRoundSigColTuple_countable : Countable HighTipRoundSigColTuple.
Proof.
  apply (inj_countable' (λ t, (ht_qc_round t, ht_tip_round t, ht_sigs t))
    (λ '(q, h, s), {| ht_qc_round := q; ht_tip_round := h; ht_sigs := s |})). by intros [].
Defined.

#[global] Instance FreshProposalCertificate_countable : Countable FreshProposalCertificate.
Proof.
  apply (inj_countable'
    (λ c, match c with
          | Nec n => inl n
          | NoTip n => inr (nt_epoch n, nt_round n, nt_tip_rounds n, nt_high_qc n)
          end)
    (λ c, match c with
          | inl n => Nec n
          | inr (e, r, t, q) =>
              NoTip {| nt_epoch := e; nt_round := r; nt_tip_rounds := t; nt_high_qc := q |}
          end)). by intros [|[]].
Defined.

#[global] Instance ConsensusBlockHeader_countable : Countable ConsensusBlockHeader.
Proof.
  apply (inj_countable'
    (λ h, (block_round h, hdr_epoch h, hdr_qc h, hdr_author h, hdr_seq_num h, hdr_timestamp_ns h,
           hdr_round_signature h, delayed_execution_results h, execution_inputs h,
           block_body_id h, base_fee h, base_fee_trend h, base_fee_moment h))
    (λ '(r, e, q, a, n, t, s, d, x, b, f1, f2, f3),
      {| block_round := r; hdr_epoch := e; hdr_qc := q; hdr_author := a; hdr_seq_num := n;
         hdr_timestamp_ns := t; hdr_round_signature := s; delayed_execution_results := d;
         execution_inputs := x; block_body_id := b; base_fee := f1; base_fee_trend := f2;
         base_fee_moment := f3 |})). by intros [].
Defined.

#[global] Instance ConsensusTip_countable : Countable ConsensusTip.
Proof.
  apply (inj_countable' (λ t, (tip_header t, tip_signature t, fresh_certificate t))
    (λ '(h, s, f), {| tip_header := h; tip_signature := s; fresh_certificate := f |})).
  by intros [].
Defined.

#[global] Instance TimeoutCertificate_countable : Countable TimeoutCertificate.
Proof.
  apply (inj_countable'
    (λ t, (tc_epoch t, tc_round t, tc_tip_rounds t,
           match tc_high_extend t with HeTip t => inl t | HeQc q => inr q end))
    (λ '(e, r, t, h),
      {| tc_epoch := e; tc_round := r; tc_tip_rounds := t;
         tc_high_extend := match h with inl t => HeTip t | inr q => HeQc q end |})).
  by intros [? ? ? []].
Defined.
End countable.

Definition example_hash (b : bytes) : N := foldl (λ h x, h * 1000003 + x + 1)%N 7%N b.

Definition NopProtocol : Protocol := {|
  PT := N; ST := NopSignature; KP := N; CST := NopSignature; CKP := N; CPK := N;
  SCT := MultiSig NopSignature; ProposedHeader := (); FinalizedHeader := N; Body := N;
  PT_PubKey := N_PubKey;
  ST_signature := Nop_Recoverable example_hash;
  CST_signature := Nop_CertificateSignature example_hash;
  CPK_eq_dec := N.eq_dec;
  SCT_collection :=
    MultiSig_SignatureCollection (CertificateSignatureRecoverable0 := Nop_Recoverable example_hash);
  ProposedHeader_eq_dec := _; FinalizedHeader_eq_dec := _; Body_eq_dec := _;
|}.

#[local] Existing Instance NopProtocol.

Definition example_encode_header (h : ConsensusBlockHeader) : bytes :=
  [block_round h; hdr_epoch h; v_id (qc_info (hdr_qc h)); v_round (qc_info (hdr_qc h));
   hdr_author h : N; hdr_seq_num h; hdr_timestamp_ns h; block_body_id h; base_fee h].

#[local] Instance Nop_SCT_countable : Countable SCT := MultiSig_countable.
#[local] Instance Nop_CST_countable : Countable CST := NopSignature_countable.
#[local] Instance Nop_ST_countable : Countable ST := NopSignature_countable.
#[local] Instance Nop_ProposedHeader_countable : Countable ProposedHeader := unit_countable.
#[local] Instance Nop_FinalizedHeader_countable : Countable FinalizedHeader := N_countable.

Program Definition NopCodec : Codec := {|
  encode_vote v := [v_id v; v_round v; v_epoch v];
  encode_timeout_info t := [ti_epoch t; ti_round t; ti_high_qc_round t; ti_high_tip_round t];
  encode_no_endorsement n := [ne_epoch n; ne_round n; tip_qc_round n];
  encode_round r := [r];
  encode_header := example_encode_header;
  encode_body b := [b : N];
  encode_qc c := [Npos (encode c)];
  encode_tc c := [Npos (encode c)];
  encode_nec c := [Npos (encode c)];
  hasher := example_hash;
|}.
Next Obligation. intros [] [] [=]. by subst. Qed.
Next Obligation. intros [] [] [=]. by subst. Qed.
Next Obligation. intros [] [] [=]. by subst. Qed.
Solve All Obligations with (intros ?? [=]; by apply (inj encode)).

Definition list_HashIter : HashIter := {|
  hash_iter K V _ _ m := map_to_list m;
  hash_iter_perm K V _ _ m := reflexivity _;
|}.

#[local] Existing Instance NopCodec.
#[local] Existing Instance list_HashIter.

(** Two timeouts of round 5 that extend the genesis QC. *)
Definition example_timeout (key : N) : Timeout :=
  Timeout_new key {| ti_epoch := 1; ti_round := 5; ti_high_qc_round := 0; ti_high_tip_round := 0 |}
    (HeQc {| qc_info := {| v_id := 0; v_round := 0; v_epoch := 1 |};
             qc_signatures := {| sigs := [] |} |}) false None.

Definition example_timeouts : list (PT * Timeout) :=
  [(1%N, example_timeout 11%N); (2%N, example_timeout 12%N)].

Definition example_keys : gmap PT CPK := list_to_map [(1, 11); (2, 12)]%N.

Lemma timeout_certificate_highest_witness :
  ∃ tc, TimeoutCertificate_new 1 5 example_timeouts example_keys = Ret (Ok tc) ∧
    tc_epoch tc = 1%N ∧ tc_round tc = 5%N.
Proof.
  destruct (is_ok_true (TimeoutCertificate_new 1 5 example_timeouts example_keys)) as [tc Htc].
  { vm_compute. reflexivity. }
  exists tc. split; [exact Htc|].
  destruct (timeout_certificate_highest 1 5 example_timeouts example_keys tc Htc) as (He & Hr & _).
  split; [exact He|exact Hr].
Defined.
