(* ===== verification/Messages.v ===== *)
(** * Protocol messages ([src/consensus/src/messages])

    The messages consensus nodes exchange, their round, and the prefilter that
    discards obsolete ones before any signature is checked.  The theorem shows
    that the prefilter drops exactly the messages behind the node. *)
From S2P Require Import Prelude Types SignatureCollection Certificates.

Section messages.
Context `{Codec}.

Record VoteMessage := { vm_vote : Vote; vm_sig : CST }.

Definition VoteMessage_new (vote : Vote) (key : CKP) : VoteMessage :=
  {| vm_vote := vote; vm_sig := sign VoteDomain (encode_vote vote) key |}.

Record ProposalMessage := {
  proposal_round : Round;
  proposal_epoch : Epoch;
  pm_tip : ConsensusTip;
  block_body : Body;
  last_round_tc : option TimeoutCertificate;
}.

Record AdvanceRoundMessage := { ar_last_round_certificate : RoundCertificate }.

Record RoundRecoveryMessage := {
  rr_round : Round;
  rr_epoch : Epoch;
  rr_tc : TimeoutCertificate;
}.

Record NoEndorsementMessage := { nem_msg : NoEndorsement; nem_signature : CST }.

Definition NoEndorsementMessage_new (no_endorsement : NoEndorsement) (key : CKP) :
    NoEndorsementMessage :=
  {| nem_msg := no_endorsement;
     nem_signature := sign NoEndorsementDomain (encode_no_endorsement no_endorsement) key |}.

(** [TimeoutMessage] is a transparent wrapper of [Timeout]. *)
Inductive ProtocolMessage :=
| PmProposal (p : ProposalMessage)
| PmVote (v : VoteMessage)
| PmTimeout (t : Timeout)
| PmRoundRecovery (r : RoundRecoveryMessage)
| PmNoEndorsement (n : NoEndorsementMessage)
| PmAdvanceRound (a : AdvanceRoundMessage).

Record ConsensusMessage := { version : N; message : ProtocolMessage }.

Definition get_round (self : ProtocolMessage) : Round :=
  match self with
  | PmProposal p => proposal_round p
  | PmVote v => v_round (vm_vote v)
  | PmTimeout t => ti_round (tm_info t)
  | PmRoundRecovery r => rr_round r
  | PmNoEndorsement n => ne_round (nem_msg n)
  | PmAdvanceRound n => rc_round (ar_last_round_certificate n)
  end.

Inductive PrefilterError :=
| OutdatedProposal | OutdatedVote | OutdatedTimeout | OutdatedRoundRecovery
| OutdatedNoEndorsement | OutdatedAdvanceRoundQc | OutdatedAdvanceRoundTc.

Definition prefilter (self : ProtocolMessage) (root_info : option RootInfo)
    (current_round : Round) : result () PrefilterError :=
  match self with
  | PmProposal p =>
      match root_info with
      | Some root_info =>
          if decide (proposal_round p ≤ root_round root_info)%N then Err OutdatedProposal
          else Ok ()
      | None => Ok ()
      end
  | PmVote v =>
      if decide (v_round (vm_vote v) < current_round)%N then Err OutdatedVote else Ok ()
  | PmTimeout t =>
      if decide (ti_round (tm_info t) < current_round)%N then Err OutdatedTimeout else Ok ()
  | PmRoundRecovery r =>
      if decide (rr_round r < current_round)%N then Err OutdatedRoundRecovery else Ok ()
  | PmNoEndorsement n =>
      if decide (ne_round (nem_msg n) < current_round)%N then Err OutdatedNoEndorsement else Ok ()
  | PmAdvanceRound msg =>
      if decide (rc_round (ar_last_round_certificate msg) < current_round)%N then
        match ar_last_round_certificate msg with
        | RcQc _ => Err OutdatedAdvanceRoundQc
        | RcTc _ => Err OutdatedAdvanceRoundTc
        end
      else Ok ()
  end.

(** The error [prefilter] reports for a kind of message. *)
Definition outdated (self : ProtocolMessage) : PrefilterError :=
  match self with
  | PmProposal _ => OutdatedProposal
  | PmVote _ => OutdatedVote
  | PmTimeout _ => OutdatedTimeout
  | PmRoundRecovery _ => OutdatedRoundRecovery
  | PmNoEndorsement _ => OutdatedNoEndorsement
  | PmAdvanceRound a =>
      match ar_last_round_certificate a with
      | RcQc _ => OutdatedAdvanceRoundQc
      | RcTc _ => OutdatedAdvanceRoundTc
      end
  end.

(** A proposal is behind when a known root is not before it, another message
    when the current round is after it. *)
Definition behind (m : ProtocolMessage) (root : option RootInfo) (current : Round) : bool :=
  match m, root with
  | PmProposal _, Some ri => bool_decide (get_round m ≤ root_round ri)%N
  | PmProposal _, None => false
  | _, _ => bool_decide (get_round m < current)%N
  end.

(** ** Theorems *)

(** The prefilter uses the effective round of [get_round] for every message:
    it drops a proposal exactly when its round is not after a known root, any
    other message exactly when its round is before the current round, and
    reports the error of the message's kind. *)
Theorem prefilter_by_round (m : ProtocolMessage) (root : option RootInfo) (current : Round) :
  prefilter m root current =
  if behind m root current then Err (outdated m) else Ok ().
Proof.
  destruct m as [p|v|t|r|n|a]; cbn; try (destruct root); cbn;
    try case_decide; rewrite ?bool_decide_eq_true_2, ?bool_decide_eq_false_2 by done; try done;
    by destruct (ar_last_round_certificate a).
Qed.
End messages.
