(* ===== verification/CertificateCache.v ===== *)
(** * The certificate cache ([src/consensus/src/validation/certificate_cache.rs])

    Certificates that passed verification are remembered by their encoding in
    LRU caches, so a certificate seen again is not verified again.  The class
    [LruCache] is the third-party cache. *)
From S2P Require Import Prelude Types SignatureCollection Certificates.

(** An LRU cache evicts; it never holds a key that was not put. *)
Class LruCache (K : Type) := {
  lru : Type;
  lru_new : nat → lru;
  lru_put : K → lru → lru;
  lru_contains : lru → K → bool;
  lru_contains_new n k : lru_contains (lru_new n) k = false;
  lru_contains_put c k k' :
    lru_contains (lru_put k c) k' = true → k' = k ∨ lru_contains c k' = true;
}.

Arguments lru K {_}.

Section cache.
Context `{Codec, !LruCache bytes}.

Record CertificateCache := {
  qc_lru : lru bytes;
  tc_lru : lru bytes;
  nec_lru : lru bytes;
}.

Definition QC_CACHE_CAPACITY : N := 1000.
Definition TC_CACHE_CAPACITY : N := 1000.
Definition NEC_CACHE_CAPACITY : N := 1000.

Definition CertificateCache_default : CertificateCache :=
  {| qc_lru := lru_new (N.to_nat QC_CACHE_CAPACITY);
     tc_lru := lru_new (N.to_nat TC_CACHE_CAPACITY);
     nec_lru := lru_new (N.to_nat NEC_CACHE_CAPACITY) |}.

Definition cache_validated_qc (self : CertificateCache) (qc : QuorumCertificate) :
    CertificateCache :=
  {| qc_lru := lru_put (encode_qc qc) (qc_lru self); tc_lru := tc_lru self;
     nec_lru := nec_lru self |}.

Definition qc_is_cached_validated (self : CertificateCache) (qc : QuorumCertificate) : bool :=
  lru_contains (qc_lru self) (encode_qc qc).

Definition cache_validated_tc (self : CertificateCache) (tc : TimeoutCertificate) :
    CertificateCache :=
  {| qc_lru := qc_lru self; tc_lru := lru_put (encode_tc tc) (tc_lru self);
     nec_lru := nec_lru self |}.

Definition tc_is_cached_validated (self : CertificateCache) (tc : TimeoutCertificate) : bool :=
  lru_contains (tc_lru self) (encode_tc tc).

Definition cache_validated_nec (self : CertificateCache) (nec : NoEndorsementCertificate) :
    CertificateCache :=
  {| qc_lru := qc_lru self; tc_lru := tc_lru self;
     nec_lru := lru_put (encode_nec nec) (nec_lru self) |}.

Definition nec_is_cached_validated (self : CertificateCache) (nec : NoEndorsementCertificate) :
    bool :=
  lru_contains (nec_lru self) (encode_nec nec).

(** ** Lemmas *)

(** Every cached certificate satisfies the given predicates. *)
Definition cache_holds (Pqc : QuorumCertificate → Prop) (Ptc : TimeoutCertificate → Prop)
    (Pnec : NoEndorsementCertificate → Prop) (c : CertificateCache) : Prop :=
  (∀ qc, qc_is_cached_validated c qc = true → Pqc qc) ∧
  (∀ tc, tc_is_cached_validated c tc = true → Ptc tc) ∧
  (∀ nec, nec_is_cached_validated c nec = true → Pnec nec).

Context (Pqc : QuorumCertificate → Prop) (Ptc : TimeoutCertificate → Prop)
  (Pnec : NoEndorsementCertificate → Prop).

Lemma cache_holds_default : cache_holds Pqc Ptc Pnec CertificateCache_default.
Proof.
  split_and!; intros x; unfold qc_is_cached_validated, tc_is_cached_validated,
    nec_is_cached_validated; cbn [CertificateCache_default qc_lru tc_lru nec_lru];
    by rewrite lru_contains_new.
Qed.

Lemma cache_holds_qc c qc :
  cache_holds Pqc Ptc Pnec c → Pqc qc → cache_holds Pqc Ptc Pnec (cache_validated_qc c qc).
Proof.
  intros (Hq & Ht & Hn) Hqc. split_and!; [|done|done].
  intros qc' [Heq|?]%lru_contains_put; [|by apply Hq]. by apply (inj encode_qc) in Heq as ->.
Qed.

Lemma cache_holds_tc c tc :
  cache_holds Pqc Ptc Pnec c → Ptc tc → cache_holds Pqc Ptc Pnec (cache_validated_tc c tc).
Proof.
  intros (Hq & Ht & Hn) Htc. split_and!; [done| |done].
  intros tc' [Heq|?]%lru_contains_put; [|by apply Ht]. by apply (inj encode_tc) in Heq as ->.
Qed.

Lemma cache_holds_nec c nec :
  cache_holds Pqc Ptc Pnec c → Pnec nec → cache_holds Pqc Ptc Pnec (cache_validated_nec c nec).
Proof.
  intros (Hq & Ht & Hn) Hnec. split_and!; [done|done|].
  intros nec' [Heq|?]%lru_contains_put; [|by apply Hn]. by apply (inj encode_nec) in Heq as ->.
Qed.
End cache.

#[export] Hint Resolve cache_holds_default cache_holds_qc cache_holds_tc cache_holds_nec : kinet.

(** A list of the most recent keys is one LRU cache. *)
Definition list_LruCache {K} `{EqDecision K} : LruCache K.
Proof.
  refine {| lru := nat * list K;
            lru_new n := (n, []);
            lru_put k c := (c.1, take c.1 (k :: filter (.≠ k) c.2));
            lru_contains c k := bool_decide (k ∈ c.2) |}.
  - done.
  - intros [n l] k k'. cbn. rewrite !bool_decide_eq_true.
    intros Hin. assert (k' ∈ k :: filter (.≠ k) l) as Hin'.
    { rewrite <- (take_drop n). apply elem_of_app. by left. }
    apply elem_of_cons in Hin' as [->|Hin']; [by left|right].
    by apply list_elem_of_filter in Hin' as [_ ?].
Defined.
