(* ===== verification/Signing.v ===== *)
(** * Verification of messages and certificates
      ([src/consensus/src/validation/signing.rs])

    [verify_qc], [verify_tc], [verify_nec], [verify_tip] and
    [verify_high_extend] check certificates against the validators of their
    epoch, through the certificate cache; the [validate] functions of the
    messages call them.  A [verifier] threads the cache, which is kept also on
    the error paths.  The predicates [valid_qc], [valid_tc], ... say what a
    certificate must satisfy, without a cache; the theorems show that the
    verification functions never panic, accept exactly the valid certificates,
    and keep every cached certificate valid. *)
From S2P Require Import Prelude Types ValidatorSet EpochManager LeaderElection.
From S2P Require Import SignatureCollection Certificates Messages CertificateCache.

(** [kinet_consensus_types::validation::Error]. *)
Inductive Error :=
| InvalidAuthor | NotWellFormed | InvalidSignature | InvalidTcRound | DuplicateTcTipRound
| EmptySignersTcTipRound | TooManyTcTipRound | InsufficientStake | ValidatorSetDataUnavailable
| SignaturesDuplicateNode | InvalidVote | InvalidVersion | InvalidEpoch.

(** ** Validators of an epoch *)

Section epoch_to_validators.
Context `{Protocol, !LeaderElection PT}.

(** What [epoch_to_validators] finds: the set, the keys and the leader. *)
Definition EpochToValidators : Type :=
  Epoch → Round → run (result (ValidatorSet PT * gmap PT CPK * PT) Error).

Definition epoch_to_validators (epoch_manager : EpochManager)
    (val_epoch_map : ValidatorsEpochMapping PT CPK) : EpochToValidators := λ epoch round,
  match get_epoch epoch_manager round with
  | None => Ret (Err InvalidEpoch)
  | Some e =>
      if decide (epoch ≠ e) then Ret (Err InvalidEpoch)
      else
        match get_val_set val_epoch_map epoch, get_cert_pubkeys val_epoch_map epoch with
        | Some validator_set, Some validator_cert_pubkeys =>
            leader ← get_leader round (get_members validator_set);
            Ret (Ok (validator_set, validator_cert_pubkeys, leader))
        | _, _ => Ret (Err ValidatorSetDataUnavailable)
        end
  end.

(** [ValidatorPubKey::valid_pubkey]. *)
Definition valid_pubkey (self : PT) (validators : gmap PT Stake) : run (result PT Error) :=
  match validators !! self with
  | Some stake => assert (Stake_ZERO < stake)%N ≫= λ _, Ret (Ok self)
  | None => Ret (Err InvalidAuthor)
  end.
End epoch_to_validators.

(** ** Verifiers *)

Section verifier.
Context `{Codec, !LruCache bytes}.

(** A computation that may panic, fail, and update the certificate cache. *)
Definition verifier (A : Type) : Type :=
  CertificateCache → run (result A Error * CertificateCache).

#[global] Instance verifier_ret : MRet verifier := λ A a c, Ret (Ok a, c).

#[global] Instance verifier_bind : MBind verifier := λ A B f m c,
  match m c with
  | Ret (Ok a, c) => f a c
  | Ret (Err e, c) => Ret (Err e, c)
  | Panic => Panic
  end.

(** A call that does not touch the cache. *)
Definition lift {A} (m : run (result A Error)) : verifier A := λ c,
  match m with Ret r => Ret (r, c) | Panic => Panic end.

(** [return Err(e)] unless the condition holds. *)
Definition require (P : Prop) `{Decision P} (e : Error) : verifier () :=
  lift (Ret (if decide P then Ok () else Err e)).

(** [map_err]. *)
Definition map_err {A E} (r : result A E) (e : Error) : verifier A :=
  lift (Ret match r with Ok a => Ok a | Err _ => Err e end).

(** Update the cache. *)
Definition modify (f : CertificateCache → CertificateCache) : verifier () := λ c,
  Ret (Ok (), f c).
End verifier.

Section signing.
Context `{Codec, !LruCache bytes, !Duplicates PT, !U256Ops}.
Context (etv : EpochToValidators).

(** The [match] on [has_super_majority_votes] the certificates share. *)
Definition check_super_majority (validators : ValidatorSet PT) (node_ids : list PT) : verifier () :=
  lift match has_super_majority_votes validators node_ids with
       | Ret (Err (DuplicateValidator _)) => Ret (Err SignaturesDuplicateNode)
       | Ret (Ok false) => Ret (Err InsufficientStake)
       | Ret (Ok true) => Ret (Ok ())
       | Panic => Panic
       end.

Definition verify_qc (qc : QuorumCertificate) : verifier () := λ cert_cache,
  if qc_is_cached_validated cert_cache qc then Ret (Ok (), cert_cache)
  else
    ('(validators, validator_mapping, _) ← lift (etv (qc_get_epoch qc) (qc_get_round qc));
     if decide (qc_get_round qc = GENESIS_ROUND) then
       genesis ← lift (Ok <$> genesis_qc);
       require (qc = genesis) InvalidSignature
     else
       let qc_msg := encode_vote (qc_info qc) in
       node_ids ← map_err (sc_verify VoteDomain (qc_signatures qc) validator_mapping qc_msg)
                    InvalidSignature;
       check_super_majority validators node_ids ≫= λ _,
       modify (λ c, cache_validated_qc c qc)) cert_cache.

Definition verify_nec (nec : NoEndorsementCertificate) : verifier () := λ cert_cache,
  if nec_is_cached_validated cert_cache nec then Ret (Ok (), cert_cache)
  else
    ('(validators, validator_mapping, _) ←
       lift (etv (ne_epoch (nec_msg nec)) (ne_round (nec_msg nec)));
     let nec_msg := encode_no_endorsement (nec_msg nec) in
     node_ids ← map_err (sc_verify NoEndorsementDomain (nec_signatures nec) validator_mapping nec_msg)
                  InvalidSignature;
     check_super_majority validators node_ids ≫= λ _,
     modify (λ c, cache_validated_nec c nec)) cert_cache.

(** The signed content a tuple of a TC stands for. *)
Definition tuple_info (tc : TimeoutCertificate) (t : HighTipRoundSigColTuple) : TimeoutInfo :=
  {| ti_epoch := tc_epoch tc; ti_round := tc_round tc;
     ti_high_qc_round := ht_qc_round t; ti_high_tip_round := ht_tip_round t |}.

(** The inner loop over the signers of a tuple. *)
Fixpoint insert_signers (signers : list PT) (seen_node_ids : gset PT) : result (gset PT) Error :=
  match signers with
  | [] => Ok seen_node_ids
  | signer :: signers =>
      if decide (signer ∈ seen_node_ids) then Err SignaturesDuplicateNode
      else insert_signers signers ({[signer]} ∪ seen_node_ids)
  end.

(** The loop over the tuples of a TC, with its mutable locals. *)
Fixpoint tc_loop (tc : TimeoutCertificate) (validator_mapping : gmap PT CPK)
    (tip_rounds : list HighTipRoundSigColTuple) (node_ids : list PT)
    (highest_rank : HighExtendRank) (seen_tip_rounds : gset (Round * Round))
    (seen_node_ids : gset PT) : result (list PT * HighExtendRank) Error :=
  match tip_rounds with
  | [] => Ok (node_ids, highest_rank)
  | t :: tip_rounds =>
      if decide (tc_round tc ≤ ht_qc_round t)%N then Err InvalidTcRound
      else if decide ((ht_qc_round t, ht_tip_round t) ∈ seen_tip_rounds)
      then Err DuplicateTcTipRound
      else if decide (num_signatures (ht_sigs t) = 0) then Err EmptySignersTcTipRound
      else
        let highest_rank :=
          if decide (rank_cmp (tuple_rank t) highest_rank = Gt) then tuple_rank t
          else highest_rank in
        match sc_verify TimeoutDomain (ht_sigs t) validator_mapping
                (encode_timeout_info (tuple_info tc t)) with
        | Err _ => Err InvalidSignature
        | Ok signers =>
            seen_node_ids ←! insert_signers signers seen_node_ids;
            tc_loop tc validator_mapping tip_rounds (node_ids ++ signers) highest_rank
              ({[(ht_qc_round t, ht_tip_round t)]} ∪ seen_tip_rounds) seen_node_ids
        end
  end.

(** [verify_tc] and [verify_tip] call each other: a TC may extend a tip whose
    fresh certificate stands for a TC that extends a QC.  [verify_tc_body] is
    [verify_tc] with the call on its extension as an argument. *)
Definition verify_tc_body (verify_extension : verifier ()) (tc : TimeoutCertificate) :
    verifier () := λ cert_cache,
  if tc_is_cached_validated cert_cache tc then Ret (Ok (), cert_cache)
  else
    ('(validators, validator_mapping, _) ← lift (etv (tc_epoch tc) (tc_round tc));
     require (length (tc_tip_rounds tc) ≤ size (get_members validators)) TooManyTcTipRound ≫= λ _,
     '(node_ids, highest_rank) ←
       lift (Ret (tc_loop tc validator_mapping (tc_tip_rounds tc) [] (RankQc GENESIS_ROUND) ∅ ∅));
     check_super_majority validators node_ids ≫= λ _,
     verify_extension ≫= λ _,
     require (HighExtend_rank (tc_high_extend tc) = highest_rank) NotWellFormed ≫= λ _,
     modify (λ c, cache_validated_tc c tc)) cert_cache.

(** The checks of [verify_tip] on the certificate a fresh proposal needs. *)
Definition fresh_certificate_ok (tip : ConsensusTip) : bool :=
  let header := tip_header tip in
  if immediately_follows (block_round header) (qc_get_round (hdr_qc header)) then
    match fresh_certificate tip with Some _ => false | None => true end
  else
    match fresh_certificate tip with
    | None => false
    | Some (Nec nec) =>
        bool_decide (ne_round (nec_msg nec) = block_round header) &&
        bool_decide (tip_qc_round (nec_msg nec) = qc_get_round (hdr_qc header))
    | Some (NoTip no_tip) =>
        immediately_follows (block_round header) (nt_round no_tip) &&
        bool_decide (qc_get_round (nt_high_qc no_tip) = qc_get_round (hdr_qc header))
    end.

(** The TC a no-tip certificate stands for. *)
Definition no_tip_tc (no_tip : NoTipCertificate) : TimeoutCertificate :=
  {| tc_epoch := nt_epoch no_tip; tc_round := nt_round no_tip;
     tc_tip_rounds := nt_tip_rounds no_tip; tc_high_extend := HeQc (nt_high_qc no_tip) |}.

Definition verify_tip (tip : ConsensusTip) : verifier () :=
  let header := tip_header tip in
  '(_, _, leader) ← lift (etv (hdr_epoch header) (block_round header));
  tip_author ← lift (Ret (ok_or (signature_author tip) InvalidSignature));
  require (tip_author = leader ∧ tip_author = hdr_author header) InvalidAuthor ≫= λ _,
  require (fresh_certificate_ok tip = true) NotWellFormed ≫= λ _,
  verify_qc (hdr_qc header) ≫= λ _,
  match fresh_certificate tip with
  | Some (Nec nec) => verify_nec nec
  | Some (NoTip no_tip) => verify_tc_body (verify_qc (nt_high_qc no_tip)) (no_tip_tc no_tip)
  | None => mret ()
  end.

Definition verify_high_extend (high_extend : HighExtend) : verifier () :=
  match high_extend with
  | HeQc qc => verify_qc qc
  | HeTip tip => verify_tip tip
  end.

Definition verify_tc (tc : TimeoutCertificate) : verifier () :=
  verify_tc_body (verify_high_extend (tc_high_extend tc)) tc.

(** ** Validity, without a cache *)

Definition quorum (vs : ValidatorSet PT) (ids : list PT) : Prop :=
  has_super_majority_votes vs ids = Ret (Ok true).

Definition valid_qc (qc : QuorumCertificate) : Prop :=
  ∃ vs keys leader, etv (qc_get_epoch qc) (qc_get_round qc) = Ret (Ok (vs, keys, leader)) ∧
    if decide (qc_get_round qc = GENESIS_ROUND) then genesis_qc = Ret qc
    else ∃ ids, sc_verify VoteDomain (qc_signatures qc) keys (encode_vote (qc_info qc)) = Ok ids ∧
                quorum vs ids.

Definition valid_nec (nec : NoEndorsementCertificate) : Prop :=
  ∃ vs keys leader,
    etv (ne_epoch (nec_msg nec)) (ne_round (nec_msg nec)) = Ret (Ok (vs, keys, leader)) ∧
    ∃ ids, sc_verify NoEndorsementDomain (nec_signatures nec) keys
             (encode_no_endorsement (nec_msg nec)) = Ok ids ∧ quorum vs ids.

(** The highest of a list of ranks, starting from the genesis QC's. *)
Definition highest_rank (l : list HighExtendRank) : HighExtendRank :=
  foldl (λ h r, if decide (rank_cmp r h = Gt) then r else h) (RankQc GENESIS_ROUND) l.

(** The timeouts a TC aggregates, by tuple: [ids] are the signers of each. *)
Definition valid_tuples (tc : TimeoutCertificate) (keys : gmap PT CPK) (ids : list (list PT)) :
    Prop :=
  Forall (λ t, (ht_qc_round t < tc_round tc)%N ∧ num_signatures (ht_sigs t) ≠ 0) (tc_tip_rounds tc) ∧
  NoDup ((λ t, (ht_qc_round t, ht_tip_round t)) <$> tc_tip_rounds tc) ∧
  Forall2 (λ t ids, sc_verify TimeoutDomain (ht_sigs t) keys
             (encode_timeout_info (tuple_info tc t)) = Ok ids) (tc_tip_rounds tc) ids ∧
  NoDup (concat ids).

Definition valid_tc_body (valid_extension : Prop) (tc : TimeoutCertificate) : Prop :=
  ∃ vs keys leader, etv (tc_epoch tc) (tc_round tc) = Ret (Ok (vs, keys, leader)) ∧
    length (tc_tip_rounds tc) ≤ size (get_members vs) ∧
    ∃ ids, valid_tuples tc keys ids ∧ quorum vs (concat ids) ∧ valid_extension ∧
      HighExtend_rank (tc_high_extend tc) = highest_rank (tuple_rank <$> tc_tip_rounds tc).

Definition valid_tip (tip : ConsensusTip) : Prop :=
  ∃ vs keys leader,
    etv (hdr_epoch (tip_header tip)) (block_round (tip_header tip)) = Ret (Ok (vs, keys, leader)) ∧
    signature_author tip = Some leader ∧ hdr_author (tip_header tip) = leader ∧
    fresh_certificate_ok tip = true ∧ valid_qc (hdr_qc (tip_header tip)) ∧
    match fresh_certificate tip with
    | Some (Nec nec) => valid_nec nec
    | Some (NoTip no_tip) => valid_tc_body (valid_qc (nt_high_qc no_tip)) (no_tip_tc no_tip)
    | None => True
    end.

Definition valid_high_extend (h : HighExtend) : Prop :=
  match h with HeQc qc => valid_qc qc | HeTip tip => valid_tip tip end.

Definition valid_tc (tc : TimeoutCertificate) : Prop :=
  valid_tc_body (valid_high_extend (tc_high_extend tc)) tc.

Definition cache_valid (c : CertificateCache) : Prop := cache_holds valid_qc valid_tc valid_nec c.

(** The validators of every known epoch are well formed, and looking them up
    does not panic. *)
Definition validators_ok : Prop :=
  ∀ e r, ∃ res, etv e r = Ret res ∧
    ∀ vs keys leader, res = Ok (vs, keys, leader) →
      wf_validator_set vs ∧ (total_stake vs * 2 ≤ u256_MAX)%N.

(** [m] never panics, keeps the cache valid, and succeeds exactly when [P]. *)
Definition verifies (m : verifier ()) (P : Prop) : Prop :=
  ∀ c, cache_valid c → ∃ r c', m c = Ret (r, c') ∧ cache_valid c' ∧ (r = Ok () ↔ P).

(** A node whose cache is valid accepts. *)
Definition accepted (m : verifier ()) : Prop :=
  ∃ c c', cache_valid c ∧ m c = Ret (Ok (), c').

(** ** Lemmas on verifiers *)

Lemma verifies_accepted m P : verifies m P → accepted m ↔ P.
Proof.
  intros Hm. split.
  - intros (c & c' & Hc & Hrun). destruct (Hm c Hc) as (r & c'' & Hrun' & _ & Hr).
    rewrite Hrun in Hrun'. injection Hrun' as <- _. by apply Hr.
  - intros HP. destruct (Hm CertificateCache_default) as (r & c' & Hrun & _ & Hr);
      [apply cache_holds_default|]. apply Hr in HP as ->. exists CertificateCache_default, c'.
    split; [apply cache_holds_default|done].
Qed.

Hypothesis Hetv : validators_ok.

Lemma verifies_iff m P Q : (P ↔ Q) → verifies m P → verifies m Q.
Proof.
  intros HPQ Hm c Hc. destruct (Hm c Hc) as (r & c' & ? & ? & Hr).
  exists r, c'. by rewrite <- HPQ.
Qed.

Lemma verifies_ret : verifies (mret ()) True.
Proof. intros c Hc. by exists (Ok ()), c. Qed.

Lemma verifies_require P `{Decision P} e : verifies (require P e) P.
Proof.
  intros c Hc. unfold require, lift. eexists _, c. split; [done|]. split; [done|].
  case_decide; naive_solver.
Qed.

Lemma verifies_bind m k P Q :
  verifies m P → (P → verifies k Q) → verifies (m ≫= λ _, k) (P ∧ Q).
Proof.
  intros Hm Hk c Hc. destruct (Hm c Hc) as (r & c1 & Hmc & Hc1 & Hr).
  unfold mbind, verifier_bind. rewrite Hmc. destruct r as [[]|e].
  - destruct Hr as [Hr _]. destruct (Hk (Hr eq_refl) c1 Hc1) as (r2 & c2 & Hkc & Hc2 & Hr2).
    exists r2, c2. split_and!; [done|done|]. naive_solver.
  - exists (Err e), c1. split_and!; [done|done|]. naive_solver.
Qed.

Lemma verifies_bind_last m k P :
  verifies m P → (P → verifies k True) → verifies (m ≫= λ _, k) P.
Proof.
  intros Hm Hk. eapply verifies_iff; [|by apply verifies_bind; [apply Hm|apply Hk]]. tauto.
Qed.

Lemma verifies_lift {A} (res : result A Error) (k : A → verifier ()) (Q : A → Prop) :
  (∀ a, res = Ok a → verifies (k a) (Q a)) →
  verifies (lift (Ret res) ≫= k) (∃ a, res = Ok a ∧ Q a).
Proof.
  intros Hk c Hc. unfold mbind, verifier_bind, lift. destruct res as [a|e].
  - destruct (Hk a eq_refl c Hc) as (r & c' & ? & ? & Hr). exists r, c'.
    split_and!; [done|done|]. rewrite Hr. naive_solver.
  - exists (Err e), c. split_and!; [done|done|]. naive_solver.
Qed.

Lemma verifies_map_err {A E} (res : result A E) e (k : A → verifier ()) (Q : A → Prop) :
  (∀ a, res = Ok a → verifies (k a) (Q a)) →
  verifies (map_err res e ≫= k) (∃ a, res = Ok a ∧ Q a).
Proof.
  intros Hk. unfold map_err. eapply verifies_iff; [|apply (verifies_lift _ k Q)].
  - destruct res; naive_solver.
  - intros a Ha. apply Hk. by destruct res; simplify_eq.
Qed.

Lemma verifies_etv e r k (Q : ValidatorSet PT → gmap PT CPK → PT → Prop) :
  (∀ vs keys ld, etv e r = Ret (Ok (vs, keys, ld)) →
     wf_validator_set vs → (total_stake vs * 2 ≤ u256_MAX)%N →
     verifies (k (vs, keys, ld)) (Q vs keys ld)) →
  verifies (lift (etv e r) ≫= k)
    (∃ vs keys ld, etv e r = Ret (Ok (vs, keys, ld)) ∧ Q vs keys ld).
Proof.
  intros Hk. destruct (Hetv e r) as (res & Hres & Hwf). rewrite Hres in Hk |- *.
  eapply verifies_iff; [|apply (verifies_lift res k (λ p, Q p.1.1 p.1.2 p.2))].
  - split.
    + intros ([[vs keys] ld] & -> & ?). by exists vs, keys, ld.
    + intros (vs & keys & ld & [= ->] & ?). by exists (vs, keys, ld).
  - intros [[vs keys] ld] ->. destruct (Hwf _ _ _ eq_refl). by apply Hk.
Qed.

Lemma verifies_super_majority vs ids :
  wf_validator_set vs → (total_stake vs * 2 ≤ u256_MAX)%N → NoDup ids →
  verifies (check_super_majority vs ids) (quorum vs ids).
Proof.
  intros Hwf H2 Hnd c Hc. unfold check_super_majority, quorum.
  rewrite has_super_majority_votes_spec by done. case_bool_decide; cbn; eexists _, c; split; try done;
    (split; [done|]); naive_solver.
Qed.

Lemma verifies_modify_qc qc : valid_qc qc → verifies (modify (λ c, cache_validated_qc c qc)) True.
Proof. intros Hqc c Hc. eexists _, _. split; [done|]. split; [|done]. by apply cache_holds_qc. Qed.

Lemma verifies_modify_nec nec :
  valid_nec nec → verifies (modify (λ c, cache_validated_nec c nec)) True.
Proof. intros Hn c Hc. eexists _, _. split; [done|]. split; [|done]. by apply cache_holds_nec. Qed.

Lemma verifies_modify_tc tc : valid_tc tc → verifies (modify (λ c, cache_validated_tc c tc)) True.
Proof. intros Ht c Hc. eexists _, _. split; [done|]. split; [|done]. by apply cache_holds_tc. Qed.

(** A verifier that first looks in the cache. *)
Lemma verifies_cached (cached : CertificateCache → bool) (m : verifier ()) P :
  (∀ c, cache_valid c → cached c = true → P) → verifies m P →
  verifies (λ c, if cached c then Ret (Ok (), c) else m c) P.
Proof.
  intros Hcached Hm c Hc. destruct (cached c) eqn:Hcc; [|by apply Hm].
  exists (Ok ()), c. split_and!; [done|done|]. specialize (Hcached c Hc Hcc). naive_solver.
Qed.

(** ** The certificates *)

Lemma verify_qc_verifies qc : verifies (verify_qc qc) (valid_qc qc).
Proof.
  apply (verifies_cached (λ c, qc_is_cached_validated c qc)).
  { intros c (Hq & _). apply Hq. }
  apply verifies_etv. intros vs keys ld He Hwf H2. destruct (decide _) as [Hg|Hg].
  - destruct genesis_qc_Ret as (g & Hgq & _). rewrite Hgq. cbn [fmap run_fmap].
    eapply verifies_iff; [|apply (verifies_lift (Ok g) _ (λ g, qc = g))].
    + naive_solver.
    + intros ? [= <-]. apply verifies_require.
  - apply verifies_map_err. intros ids Hids.
    apply verifies_bind_last.
    + apply verifies_super_majority; [done|done|]. by eapply sc_verify_ids.
    + intros Hq. apply verifies_modify_qc. exists vs, keys, ld. split; [done|].
      rewrite decide_False by done. eauto.
Qed.

Lemma verify_nec_verifies nec : verifies (verify_nec nec) (valid_nec nec).
Proof.
  apply (verifies_cached (λ c, nec_is_cached_validated c nec)).
  { intros c (_ & _ & Hn). apply Hn. }
  apply verifies_etv. intros vs keys ld He Hwf H2.
  apply verifies_map_err. intros ids Hids.
  apply verifies_bind_last.
  - apply verifies_super_majority; [done|done|]. by eapply sc_verify_ids.
  - intros Hq. apply verifies_modify_nec. exists vs, keys, ld. eauto.
Qed.

Lemma insert_signers_Ok l seen seen' :
  insert_signers l seen = Ok seen' ↔
  NoDup l ∧ (∀ x, x ∈ l → x ∉ seen) ∧ seen' = list_to_set l ∪ seen.
Proof.
  revert seen. induction l as [|x l IH]; intros seen; cbn [insert_signers list_to_set].
  { split.
    - intros [= ->]. split_and!; [constructor|by intros ? ?%elem_of_nil|set_solver].
    - intros (_ & _ & ->). f_equal. set_solver. }
  rewrite NoDup_cons. case_decide as Hx.
  - split; [done|]. intros (_ & Hs & _). exfalso. apply (Hs x); [left|done].
  - rewrite IH. split.
    + intros (Hnd & Hs & ->). split_and!; [set_solver|done|set_solver|set_solver].
    + intros ([Hxl Hnd] & Hs & ->). split_and!; [done|set_solver|set_solver].
Qed.

Lemma tc_loop_Ok tc keys l ids hr st sn ids' hr' :
  tc_loop tc keys l ids hr st sn = Ok (ids', hr') ↔
  Forall (λ t, (ht_qc_round t < tc_round tc)%N ∧ num_signatures (ht_sigs t) ≠ 0) l ∧
  NoDup ((λ t, (ht_qc_round t, ht_tip_round t)) <$> l) ∧
  (∀ t, t ∈ l → (ht_qc_round t, ht_tip_round t) ∉ st) ∧
  ∃ idss, Forall2 (λ t ids, sc_verify TimeoutDomain (ht_sigs t) keys
                     (encode_timeout_info (tuple_info tc t)) = Ok ids) l idss ∧
    NoDup (concat idss) ∧ (∀ x, x ∈ concat idss → x ∉ sn) ∧ ids' = ids ++ concat idss ∧
    hr' = foldl (λ h r, if decide (rank_cmp r h = Gt) then r else h) hr (tuple_rank <$> l).
Proof.
  revert ids hr st sn. induction l as [|t l IH]; intros ids hr st sn; cbn [tc_loop].
  { split.
    - intros [= -> ->]. split_and!; [constructor|constructor|by intros ? ?%elem_of_nil|].
      exists []. cbn. rewrite app_nil_r. split_and!; try done; [constructor|].
      by intros ? ?%elem_of_nil.
    - intros (_ & _ & _ & idss & Hf & _ & _ & -> & ->). inversion Hf; subst. cbn.
      by rewrite app_nil_r. }
  rewrite Forall_cons, fmap_cons, NoDup_cons. cbn [fmap list_fmap foldl].
  destruct (decide (tc_round tc ≤ ht_qc_round t)%N).
  { split; [done|]. intros ([[? _] _] & _). lia. }
  destruct (decide ((ht_qc_round t, ht_tip_round t) ∈ st)) as [Hst|Hst].
  { split; [done|]. intros (_ & _ & Hn & _). by destruct (Hn t ltac:(left)). }
  destruct (decide (num_signatures (ht_sigs t) = 0)).
  { split; [done|]. intros ([[_ ?] _] & _). done. }
  destruct (sc_verify _ _ _ _) as [signers|e] eqn:Hv.
  2: { split; [done|]. intros (_ & _ & _ & idss & Hf & _). inversion Hf; subst. congruence. }
  rewrite res_try_Ok. setoid_rewrite insert_signers_Ok. setoid_rewrite IH. split.
  - intros (sn' & (Hnd & Hsn & ->) & Hall & Hkeys & Hst' & idss & Hf & Hnd' & Hsn' & -> & ->).
    setoid_rewrite not_elem_of_union in Hst'. setoid_rewrite not_elem_of_union in Hsn'.
    split_and!; try done; [lia| | |].
    + intros (t' & Heq & Ht')%list_elem_of_fmap. destruct (Hst' _ Ht') as [Hne _].
      apply Hne, elem_of_singleton. done.
    + intros t' [->|Ht']%elem_of_cons; [done|]. by apply Hst'.
    + exists (signers :: idss). cbn. rewrite <- app_assoc. split_and!; try done.
      * by constructor.
      * apply NoDup_app. split_and!; [done| |done]. intros x Hx Hx'.
        destruct (Hsn' _ Hx') as [Hn _]. by apply Hn, elem_of_list_to_set.
      * intros x [Hx|Hx]%elem_of_app; [by apply Hsn|]. by apply Hsn'.
  - intros ([_ Hall] & [Hnk Hkeys] & Hst' & idss & Hf & Hnd & Hsn & -> & ->).
    inversion Hf as [|? s ? idss' Hs Hf']; subst. rewrite Hv in Hs. injection Hs as <-.
    cbn in Hnd, Hsn. apply NoDup_app in Hnd as (Hnd1 & Hdisj & Hnd2).
    eexists. split_and!; [done| |done|done|done| |].
    + intros x Hx. apply Hsn, elem_of_app. by left.
    + intros t' Ht'. rewrite not_elem_of_union, not_elem_of_singleton. split.
      * intros Heq. apply Hnk. apply list_elem_of_fmap. by exists t'.
      * apply Hst'. by right.
    + exists idss'. cbn. rewrite <- app_assoc. split_and!; try done.
      intros x Hx. rewrite not_elem_of_union, elem_of_list_to_set. split.
      * intros Hx'. by eapply Hdisj.
      * apply Hsn, elem_of_app. by right.
Qed.

Lemma verify_tc_body_verifies m P tc :
  verifies m P → (P ↔ valid_high_extend (tc_high_extend tc)) →
  verifies (verify_tc_body m tc) (valid_tc_body P tc).
Proof.
  intros Hm HP.
  assert (valid_tc_body P tc ↔ valid_tc tc) as Hiff.
  { unfold valid_tc, valid_tc_body. by setoid_rewrite HP. }
  apply (verifies_cached (λ c, tc_is_cached_validated c tc)).
  { intros c (_ & Ht & _) Hcc. by apply Hiff, Ht. }
  apply verifies_etv. intros vs keys ld He Hwf H2.
  apply verifies_bind; [apply verifies_require|intros Hlen].
  eapply verifies_iff; [|apply (verifies_lift _ _ (λ p, quorum vs p.1 ∧ P ∧
    HighExtend_rank (tc_high_extend tc) = p.2))].
  - split.
    + intros ([ids hr] & (Hall & Hk & _ & idss & Hf & Hnd & _ & -> & ->)%tc_loop_Ok & Hq & HP' & Hr).
      exists idss. by split_and!.
    + intros (idss & (Hall & Hk & Hf & Hnd) & Hq & HP' & Hr).
      exists (concat idss, highest_rank (tuple_rank <$> tc_tip_rounds tc)).
      split; [|done]. apply tc_loop_Ok. split_and!; [done|done|by intros ? _ ?%elem_of_empty|].
      exists idss. split_and!; [done|done|by intros ? _ ?%elem_of_empty|done|done].
  - intros [ids hr] Hl. pose proof Hl as (Hall & Hk & _ & idss & Hf & Hnd & _ & -> & ->)%tc_loop_Ok.
    apply verifies_bind; [by apply verifies_super_majority|intros Hq].
    apply verifies_bind; [done|intros HP'].
    apply verifies_bind_last; [apply verifies_require|intros Hr].
    apply verifies_modify_tc, Hiff. exists vs, keys, ld. split_and!; [done|done|].
    exists idss. by split_and!.
Qed.

Lemma verify_tip_verifies tip : verifies (verify_tip tip) (valid_tip tip).
Proof.
  apply verifies_etv. intros vs keys ld He Hwf H2.
  eapply verifies_iff; [|apply (verifies_lift _ _ (λ a, (a = ld ∧ a = hdr_author (tip_header tip)) ∧
    fresh_certificate_ok tip = true ∧ valid_qc (hdr_qc (tip_header tip)) ∧
    match fresh_certificate tip with
    | Some (Nec nec) => valid_nec nec
    | Some (NoTip no_tip) => valid_tc_body (valid_qc (nt_high_qc no_tip)) (no_tip_tc no_tip)
    | None => True
    end))].
  - setoid_rewrite ok_or_Ok. naive_solver.
  - intros a _. apply verifies_bind; [apply verifies_require|intros _].
    apply verifies_bind; [apply verifies_require|intros _].
    apply verifies_bind; [apply verify_qc_verifies|intros _].
    destruct (fresh_certificate tip) as [[nec|no_tip]|].
    + apply verify_nec_verifies.
    + apply verify_tc_body_verifies; [apply verify_qc_verifies|done].
    + apply verifies_ret.
Qed.

Lemma verify_high_extend_verifies h : verifies (verify_high_extend h) (valid_high_extend h).
Proof. destruct h; [apply verify_tip_verifies|apply verify_qc_verifies]. Qed.

Lemma verify_tc_verifies tc : verifies (verify_tc tc) (valid_tc tc).
Proof. apply verify_tc_body_verifies; [apply verify_high_extend_verifies|done]. Qed.
End signing.

(** ** Theorems *)

Section theorems.
Context `{Codec, !LruCache bytes, !Duplicates PT, !U256Ops}.
Context (etv : EpochToValidators).

(** A rank at least as high as every element of a list, and one of them or the
    starting rank. *)
Lemma highest_rank_foldl l h :
  let m := foldl (λ h r, if decide (rank_cmp r h = Gt) then r else h) h l in
  rank_le h m ∧ (∀ r, r ∈ l → rank_le r m) ∧ (m = h ∨ m ∈ l).
Proof.
  revert h. induction l as [|r l IH]; intros h; cbn [foldl].
  { split_and!; [done|by intros ? ?%elem_of_nil|by left]. }
  destruct (IH (if decide (rank_cmp r h = Gt) then r else h)) as (Hle & Hall & Hor).
  set (m := foldl _ _ l) in *.
  assert (rank_le h (if decide (rank_cmp r h = Gt) then r else h) ∧
          rank_le r (if decide (rank_cmp r h = Gt) then r else h)) as [Ha Hb].
  { case_decide as Hgt; split; try reflexivity; [|done].
    destruct (rank_le_total h r) as [|Hr]; [done|]. by destruct Hr. }
  split_and!.
  - by etrans.
  - intros r' [->|?]%elem_of_cons; [by etrans|auto].
  - destruct Hor as [->|?]; [|by right; right]. case_decide; [right; left|by left].
Qed.

Lemma valid_tc_rank P tc t :
  valid_tc_body etv P tc → t ∈ tc_tip_rounds tc →
  rank_le (tuple_rank t) (HighExtend_rank (tc_high_extend tc)).
Proof.
  intros (vs & keys & ld & _ & _ & ids & _ & _ & _ & ->) Ht.
  apply (highest_rank_foldl (tuple_rank <$> tc_tip_rounds tc)). apply list_elem_of_fmap. eauto.
Qed.

Lemma concat_elem (idss : list (list PT)) x : x ∈ concat idss → ∃ ids, ids ∈ idss ∧ x ∈ ids.
Proof.
  induction idss as [|ids idss IH]; cbn; [by intros ?%elem_of_nil|].
  intros [?|(i & ? & ?)%IH]%elem_of_app.
  - exists ids. split; [left|done].
  - exists i. split; [by right|done].
Qed.

(** C12: the verification functions never panic, keep every cached certificate
    valid, and accept a QC, TC, no-endorsement certificate, tip or extension
    exactly when it is valid; in particular the cache never lets an invalid
    certificate through, and the TC a no-tip certificate stands for is verified
    as any TC. *)
Theorem certificate_verification_correct :
  validators_ok etv →
  cache_valid etv CertificateCache_default ∧
  (∀ qc, verifies etv (verify_qc etv qc) (valid_qc etv qc)) ∧
  (∀ tc, verifies etv (verify_tc etv tc) (valid_tc etv tc)) ∧
  (∀ nec, verifies etv (verify_nec etv nec) (valid_nec etv nec)) ∧
  (∀ tip, verifies etv (verify_tip etv tip) (valid_tip etv tip)) ∧
  (∀ h, verifies etv (verify_high_extend etv h) (valid_high_extend etv h)) ∧
  (∀ n, verify_tc_body etv (verify_qc etv (nt_high_qc n)) (no_tip_tc n) =
        verify_tc etv (no_tip_tc n)).
Proof.
  intros Hetv. split_and!.
  - apply cache_holds_default.
  - intros. by apply verify_qc_verifies.
  - intros. by apply verify_tc_verifies.
  - intros. by apply verify_nec_verifies.
  - intros. by apply verify_tip_verifies.
  - intros. by apply verify_high_extend_verifies.
  - done.
Qed.

(** C11: a QC and a TC of the same round that pass verification share a
    non-faulty node: for any faulty nodes [B] with at most a third of the stake
    there is a node outside [B] that signed the QC's vote and whose timeout is counted in the
    TC under rounds that rank no higher than the TC's extension. *)
Theorem qc_tc_share_honest_node (qc : QuorumCertificate) (tc : TimeoutCertificate) (B : list PT) :
  validators_ok etv → accepted etv (verify_qc etv qc) → accepted etv (verify_tc etv tc) →
  qc_get_epoch qc = tc_epoch tc → qc_get_round qc = tc_round tc → tc_round tc ≠ GENESIS_ROUND →
  NoDup B →
  (∀ vs keys ld, etv (tc_epoch tc) (tc_round tc) = Ret (Ok (vs, keys, ld)) →
     (3 * stake_of (validators vs) B ≤ total_stake vs)%N) →
  ∃ x vs keys ld voters t signers, (x ∉ B) ∧ is_member vs x = true ∧
    etv (tc_epoch tc) (tc_round tc) = Ret (Ok (vs, keys, ld)) ∧
    sc_verify VoteDomain (qc_signatures qc) keys (encode_vote (qc_info qc)) = Ok voters ∧
    x ∈ voters ∧ t ∈ tc_tip_rounds tc ∧
    sc_verify TimeoutDomain (ht_sigs t) keys (encode_timeout_info (tuple_info tc t)) = Ok signers ∧
    x ∈ signers ∧ rank_le (tuple_rank t) (HighExtend_rank (tc_high_extend tc)).
Proof.
  intros Hetv Hqc Htc He Hr Hg HB Hfaulty.
  apply (verifies_accepted etv _ _ (verify_qc_verifies etv Hetv qc)) in Hqc.
  apply (verifies_accepted etv _ _ (verify_tc_verifies etv Hetv tc)) in Htc.
  pose proof (λ t, valid_tc_rank _ tc t Htc) as Hrank.
  destruct Hqc as (vs & keys & ld & Hv & Hq), Htc as (vs' & keys' & ld' & Hv' & _ & idss & Htup & Hq' & _).
  rewrite He, Hr in Hv. rewrite Hv in Hv'. injection Hv' as <- <- <-.
  rewrite Hr, decide_False in Hq by done. destruct Hq as (voters & Hvoters & Hq).
  destruct (Hetv (tc_epoch tc) (tc_round tc)) as (res & Hres & Hwf). rewrite Hv in Hres.
  injection Hres as <-. destruct (Hwf _ _ _ eq_refl) as [Hvs H2].
  destruct (super_majority_honest vs voters (concat idss) B) as (x & Hx1 & Hx2 & Hm & HxB);
    [done..|by eapply Hfaulty|].
  apply concat_elem in Hx2 as (signers & Hs & Hx2). destruct Htup as (_ & _ & Hf & _).
  apply list_elem_of_lookup in Hs as [i Hi].
  destruct (Forall2_lookup_r _ _ _ _ _ Hf Hi) as (t & Ht & Hsig).
  apply list_elem_of_lookup_2 in Ht.
  exists x, vs, keys, ld, voters, t, signers. split_and!; try done; [|by apply Hrank].
  by apply bool_decide_eq_true.
Qed.

End theorems.

(** ** A concrete setting

    Four validators of equal stake whose certificate keys are their names, in
    one epoch led by the first. *)

#[local] Existing Instance NopProtocol.
#[local] Existing Instance NopCodec.
#[local] Existing Instance list_LruCache.

Definition example_etv : EpochToValidators := λ _ _,
  Ret (Ok (four_validators : ValidatorSet PT,
           (list_to_map [(1, 1); (2, 2); (3, 3); (4, 4)]%N : gmap PT CPK), 1%N : PT)).

Lemma example_etv_ok : validators_ok example_etv.
Proof.
  intros e r. eexists. split; [reflexivity|]. intros vs keys ld [= <- _ _].
  split; [exact (create_wf _ _ four_validators_created)|]. vm_compute. discriminate.
Qed.

(** The signatures of some validators over a message. *)
Definition example_sigs (sd : SigningDomain) (msg : bytes) (keys : list N) : SCT :=
  {| sigs := nop_sign example_hash sd msg <$> keys |}.

Definition example_vote : Vote := {| v_id := 77; v_round := 5; v_epoch := 1 |}.

Definition example_qc : QuorumCertificate :=
  {| qc_info := example_vote;
     qc_signatures := example_sigs VoteDomain (encode_vote example_vote) [1; 2; 3]%N |}.

Definition example_genesis : QuorumCertificate :=
  {| qc_info := {| v_id := 0; v_round := 0; v_epoch := 1 |}; qc_signatures := {| sigs := [] |} |}.

(** A TC of round 5 whose signers report the genesis QC. *)
Definition example_tc : TimeoutCertificate :=
  {| tc_epoch := 1; tc_round := 5;
     tc_tip_rounds :=
       [{| ht_qc_round := 0; ht_tip_round := 0;
           ht_sigs := example_sigs TimeoutDomain
             (encode_timeout_info {| ti_epoch := 1; ti_round := 5; ti_high_qc_round := 0;
                                     ti_high_tip_round := 0 |}) [2; 3; 4]%N |}];
     tc_high_extend := HeQc example_genesis |}.

(** A tip of round 6 that extends genesis, led by the first validator. *)
Definition example_header : ConsensusBlockHeader :=
  {| block_round := 6; hdr_epoch := 1; hdr_qc := example_genesis; hdr_author := 1%N : PT;
     hdr_seq_num := 1; hdr_timestamp_ns := 10;
     hdr_round_signature := (nop_sign example_hash RoundSignatureDomain [6%N] 1%N : CST);
     delayed_execution_results := []; execution_inputs := () : ProposedHeader;
     block_body_id := example_hash [9%N]; base_fee := 100; base_fee_trend := 0;
     base_fee_moment := 0 |}.

Definition example_no_tip : NoTipCertificate :=
  {| nt_epoch := 1; nt_round := 5; nt_tip_rounds := tc_tip_rounds example_tc;
     nt_high_qc := example_genesis |}.

Definition example_tip : ConsensusTip :=
  ConsensusTip_new (1%N : KP) example_header (Some (NoTip example_no_tip)).

Lemma example_genesis_valid : valid_qc example_etv example_genesis.
Proof. eexists _, _, _. split; [reflexivity|]. reflexivity. Qed.

Lemma example_qc_valid : valid_qc example_etv example_qc.
Proof.
  eexists _, _, _. split; [reflexivity|]. rewrite decide_False by discriminate.
  exists [1; 2; 3]%N. split; vm_compute; reflexivity.
Qed.

Lemma example_tc_valid : valid_tc example_etv example_tc.
Proof.
  eexists _, _, _. split; [reflexivity|]. split; [vm_compute; lia|].
  exists [[2; 3; 4]%N]. split; [|split_and!; [vm_compute; reflexivity|exact example_genesis_valid|reflexivity]].
  unfold valid_tuples. split_and!.
  - constructor; [split; [reflexivity|discriminate]|constructor].
  - apply NoDup_singleton.
  - constructor; [vm_compute; reflexivity|constructor].
  - by apply (bool_decide_unpack _).
Qed.

Lemma example_tip_valid : valid_tip example_etv example_tip.
Proof.
  eexists _, _, _. split; [reflexivity|]. split; [vm_compute; reflexivity|].
  split; [reflexivity|]. split; [vm_compute; reflexivity|].
  split; [exact example_genesis_valid|]. exact example_tc_valid.
Qed.

Lemma certificate_verification_correct_witness :
  verifies example_etv (verify_tc example_etv example_tc) (valid_tc example_etv example_tc).
Proof. apply (certificate_verification_correct example_etv example_etv_ok). Defined.

Definition example_faulty : list (@PT NopProtocol) := [2%N].

Lemma qc_tc_share_honest_node_witness :
  ∃ x vs keys ld voters, (x ∉ example_faulty) ∧ is_member vs x = true ∧
    example_etv 1%N 5%N = Ret (Ok (vs, keys, ld)) ∧
    sc_verify VoteDomain (qc_signatures example_qc) keys (encode_vote example_vote) = Ok voters ∧
    x ∈ voters.
Proof.
  destruct (qc_tc_share_honest_node example_etv example_qc example_tc example_faulty)
    as (x & vs & keys & ld & voters & _ & _ & Hx & Hm & Hv & Hs & Hin & _).
  - exact example_etv_ok.
  - apply (verifies_accepted _ _ _ (verify_qc_verifies _ example_etv_ok _)). exact example_qc_valid.
  - apply (verifies_accepted _ _ _ (verify_tc_verifies _ example_etv_ok _)). exact example_tc_valid.
  - reflexivity.
  - reflexivity.
  - discriminate.
  - apply NoDup_singleton.
  - intros vs keys ld [= <- _ _]. vm_compute. discriminate.
  - exists x, vs, keys, ld, voters. split_and!; assumption.
Defined.

