(* ===== verification/MessageValidation.v ===== *)
(** * Validation of messages ([src/consensus/src/validation/signing.rs])

    [Unverified::verify] recovers the author of a message; [Verified::validate]
    checks that the message is well formed, that its epoch agrees with the
    local records, and that the certificates it carries are valid.  The
    theorems characterise both, and show what a validated proposal proves about
    the round it is made for. *)
From S2P Require Import Prelude Types ValidatorSet EpochManager LeaderElection.
From S2P Require Import SignatureCollection Certificates Messages CertificateCache Signing.

(** [alloy_rlp::encode] on a whole message. *)
Class MessageCodec `{Codec} := { encode_message : ConsensusMessage → bytes }.

Section validation.
Context `{MessageCodec, !LruCache bytes, !Duplicates PT, !U256Ops, !LeaderElection PT}.

Record Unverified := { unv_obj : ConsensusMessage; author_signature : ST }.

Record Verified := { ver_author : PT; ver_message : Unverified }.

Definition Unverified_verify (self : Unverified) (epoch_manager : EpochManager)
    (val_epoch_map : ValidatorsEpochMapping PT CPK) : run (result Verified Error) :=
  match get_epoch epoch_manager (get_round (message (unv_obj self))) with
  | None => Ret (Err InvalidEpoch)
  | Some epoch =>
      match get_val_set val_epoch_map epoch with
      | None => Ret (Err ValidatorSetDataUnavailable)
      | Some validator_set =>
          match recover_pubkey ConsensusMessageDomain (encode_message (unv_obj self))
                  (author_signature self) with
          | None => Ret (Err InvalidSignature)
          | Some pk =>
              author ←? valid_pubkey pk (get_members validator_set);
              Ret (Ok {| ver_author := author; ver_message := self |})
          end
      end
  end.

(** ** The checks of each message *)

(** The match on [get_epoch] the [verify_epoch] methods share. *)
Definition epoch_is (epoch_manager : EpochManager) (round : Round) (epoch : Epoch) :
    result () Error :=
  match get_epoch epoch_manager round with
  | Some e => if decide (epoch = e) then Ok () else Err InvalidEpoch
  | None => Err InvalidEpoch
  end.

Definition well_formed_proposal (self : ProposalMessage) : result () Error :=
  let header := tip_header (pm_tip self) in
  if decide (block_body_id header ≠ body_get_id (block_body self)) then Err NotWellFormed
  else if immediately_follows (proposal_round self) (qc_get_round (hdr_qc header)) then
    match last_round_tc self with Some _ => Err NotWellFormed | None => Ok () end
  else
    match last_round_tc self with
    | None => Err NotWellFormed
    | Some tc =>
        if negb (immediately_follows (proposal_round self) (tc_round tc)) then Err NotWellFormed
        else
          match tc_high_extend tc with
          | HeQc tc_qc =>
              if decide (qc_get_round tc_qc ≠ qc_get_round (hdr_qc header)) then Err NotWellFormed
              else Ok ()
          | HeTip tc_tip =>
              if decide (tc_tip = pm_tip self) then Ok ()
              else if decide (proposal_round self ≠ block_round header) then Err NotWellFormed
              else if decide (qc_get_round (hdr_qc (tip_header tc_tip)) ≠
                              qc_get_round (hdr_qc header)) then Err NotWellFormed
              else Ok ()
          end
    end.

Definition proposal_verify_epoch (self : ProposalMessage) (em : EpochManager) : result () Error :=
  epoch_is em (proposal_round self) (proposal_epoch self).

Definition vote_verify_epoch (self : VoteMessage) (em : EpochManager) : result () Error :=
  epoch_is em (v_round (vm_vote self)) (v_epoch (vm_vote self)).

Definition VoteMessage_validate (self : VoteMessage) (em : EpochManager) : result () Error :=
  if negb (sig_validate (vm_sig self)) then Err InvalidSignature
  else vote_verify_epoch self em.

Definition well_formed_timeout (timeout : Timeout) : result () Error :=
  if decide (HighExtendVote_rank (tm_high_extend timeout) ≠ TimeoutInfo_rank (tm_info timeout))
  then Err NotWellFormed
  else if immediately_follows (ti_round (tm_info timeout))
            (qc_get_round (HighExtendVote_qc (tm_high_extend timeout))) then
    match tm_last_round_certificate timeout with Some _ => Err NotWellFormed | None => Ok () end
  else
    match tm_last_round_certificate timeout with
    | None => Err NotWellFormed
    | Some round_certificate =>
        if negb (immediately_follows (ti_round (tm_info timeout)) (rc_round round_certificate))
        then Err NotWellFormed else Ok ()
    end.

Definition timeout_verify_epoch (timeout : Timeout) (em : EpochManager) : result () Error :=
  epoch_is em (ti_round (tm_info timeout)) (ti_epoch (tm_info timeout)).

(** The assignment [self.0.last_round_certificate = None]. *)
Definition drop_certificate (timeout : Timeout) : Timeout :=
  {| tm_info := tm_info timeout; tm_signature := tm_signature timeout;
     tm_high_extend := tm_high_extend timeout; tm_last_round_certificate := None |}.

Definition well_formed_round_recovery (self : RoundRecoveryMessage) : result () Error :=
  if negb (immediately_follows (rr_round self) (tc_round (rr_tc self))) then Err InvalidTcRound
  else
    match tc_high_extend (rr_tc self) with
    | HeQc _ => Err NotWellFormed
    | HeTip _ => Ok ()
    end.

Definition round_recovery_verify_epoch (self : RoundRecoveryMessage) (em : EpochManager) :
    result () Error :=
  epoch_is em (rr_round self) (rr_epoch self).

Definition no_endorsement_verify_epoch (self : NoEndorsementMessage) (em : EpochManager) :
    result () Error :=
  epoch_is em (ne_round (nem_msg self)) (ne_epoch (nem_msg self)).

Definition NoEndorsementMessage_validate (self : NoEndorsementMessage) (em : EpochManager) :
    result () Error :=
  if negb (sig_validate (nem_signature self)) then Err InvalidSignature
  else no_endorsement_verify_epoch self em.

(** ** Validation *)

Section validate.
Context (epoch_manager : EpochManager) (val_epoch_map : ValidatorsEpochMapping PT CPK).

#[local] Abbreviation etv := (epoch_to_validators epoch_manager val_epoch_map).

Definition ProposalMessage_validate (self : ProposalMessage) : verifier () :=
  lift (Ret (well_formed_proposal self)) ≫= λ _,
  lift (Ret (proposal_verify_epoch self epoch_manager)) ≫= λ _,
  verify_tip etv (pm_tip self) ≫= λ _,
  match last_round_tc self with
  | Some tc => verify_tc etv tc
  | None => mret ()
  end.

Definition verify_round_certificate (rc : RoundCertificate) : verifier () :=
  match rc with
  | RcTc tc => verify_tc etv tc
  | RcQc qc => verify_qc etv qc
  end.

(** Returns the timeout as [validate] leaves it. *)
Definition TimeoutMessage_validate (self : Timeout) (current_round : Round) : verifier Timeout :=
  (if sig_validate (tm_signature self) then mret () else lift (Ret (Err InvalidSignature))) ≫= λ _,
  lift (Ret (well_formed_timeout self)) ≫= λ _,
  lift (Ret (timeout_verify_epoch self epoch_manager)) ≫= λ _,
  let timeout :=
    if decide (ti_round (tm_info self) ≤ current_round)%N then drop_certificate self else self in
  match tm_last_round_certificate timeout with
  | Some round_certificate => verify_round_certificate round_certificate
  | None => mret ()
  end ≫= λ _,
  verify_high_extend etv (HighExtend_from (tm_high_extend timeout)) ≫= λ _,
  mret timeout.

Definition RoundRecoveryMessage_validate (self : RoundRecoveryMessage) : verifier () :=
  lift (Ret (well_formed_round_recovery self)) ≫= λ _,
  lift (Ret (round_recovery_verify_epoch self epoch_manager)) ≫= λ _,
  verify_tc etv (rr_tc self).

Definition AdvanceRoundMessage_validate (self : AdvanceRoundMessage) : verifier () :=
  verify_round_certificate (ar_last_round_certificate self).

Definition validate (self : Verified) (client_version : N) (current_round : Round) :
    verifier Verified :=
  let msg := unv_obj (ver_message self) in
  require (version msg = client_version) InvalidVersion ≫= λ _,
  message ←
    match message msg with
    | PmProposal m => ProposalMessage_validate m ≫= λ _, mret (PmProposal m)
    | PmVote m => lift (Ret (VoteMessage_validate m epoch_manager)) ≫= λ _, mret (PmVote m)
    | PmTimeout m => m ← TimeoutMessage_validate m current_round; mret (PmTimeout m)
    | PmRoundRecovery m => RoundRecoveryMessage_validate m ≫= λ _, mret (PmRoundRecovery m)
    | PmNoEndorsement m =>
        lift (Ret (NoEndorsementMessage_validate m epoch_manager)) ≫= λ _, mret (PmNoEndorsement m)
    | PmAdvanceRound m => AdvanceRoundMessage_validate m ≫= λ _, mret (PmAdvanceRound m)
    end;
  mret {| ver_author := ver_author self;
          ver_message := {| unv_obj := {| version := version msg; message := message |};
                            author_signature := author_signature (ver_message self) |} |}.

(** ** What validation establishes, without a cache *)

Definition valid_round_certificate (rc : RoundCertificate) : Prop :=
  match rc with RcTc tc => valid_tc etv tc | RcQc qc => valid_qc etv qc end.

Definition valid_message (current_round : Round) (m : ProtocolMessage) : Prop :=
  match m with
  | PmProposal p =>
      well_formed_proposal p = Ok () ∧
      get_epoch epoch_manager (proposal_round p) = Some (proposal_epoch p) ∧
      valid_tip etv (pm_tip p) ∧
      match last_round_tc p with Some tc => valid_tc etv tc | None => True end
  | PmVote v =>
      sig_validate (vm_sig v) = true ∧
      get_epoch epoch_manager (v_round (vm_vote v)) = Some (v_epoch (vm_vote v))
  | PmTimeout t =>
      sig_validate (tm_signature t) = true ∧ well_formed_timeout t = Ok () ∧
      get_epoch epoch_manager (ti_round (tm_info t)) = Some (ti_epoch (tm_info t)) ∧
      (∀ rc, tm_last_round_certificate t = Some rc → (current_round < ti_round (tm_info t))%N →
             valid_round_certificate rc) ∧
      valid_high_extend etv (HighExtend_from (tm_high_extend t))
  | PmRoundRecovery r =>
      well_formed_round_recovery r = Ok () ∧
      get_epoch epoch_manager (rr_round r) = Some (rr_epoch r) ∧ valid_tc etv (rr_tc r)
  | PmNoEndorsement n =>
      sig_validate (nem_signature n) = true ∧
      get_epoch epoch_manager (ne_round (nem_msg n)) = Some (ne_epoch (nem_msg n))
  | PmAdvanceRound a => valid_round_certificate (ar_last_round_certificate a)
  end.

(** The message [validate] returns: a timeout of a round the node has already
    entered loses its certificate. *)
Definition stripped (current_round : Round) (m : ProtocolMessage) : ProtocolMessage :=
  match m with
  | PmTimeout t =>
      if decide (ti_round (tm_info t) ≤ current_round)%N then PmTimeout (drop_certificate t) else m
  | _ => m
  end.

(** ** Lemmas *)

(** A verifier with a value: never panics, keeps the cache valid, succeeds
    exactly when [P], and then returns [a]. *)
Definition returns {A} (m : verifier A) (P : Prop) (a : A) : Prop :=
  ∀ c, cache_valid etv c → ∃ r c', m c = Ret (r, c') ∧ cache_valid etv c' ∧
    (∀ x, r = Ok x ↔ P ∧ x = a).

Lemma verifies_returns m P : verifies etv m P ↔ returns m P ().
Proof.
  unfold verifies, returns. split; intros Hm c Hc; destruct (Hm c Hc) as (r & c' & ? & ? & Hr);
    exists r, c'; (split_and!; [done|done|]).
  - intros []. rewrite Hr. naive_solver.
  - rewrite Hr. naive_solver.
Qed.

Lemma returns_ret {A} (a : A) : returns (mret a) True a.
Proof. intros c Hc. exists (Ok a), c. split_and!; [done|done|]. naive_solver. Qed.

Lemma returns_bind {A B} (m : verifier A) (k : A → verifier B) P Q a b :
  returns m P a → returns (k a) Q b → returns (m ≫= k) (P ∧ Q) b.
Proof.
  intros Hm Hk c Hc. destruct (Hm c Hc) as (r & c1 & Hmc & Hc1 & Hr).
  unfold mbind, verifier_bind. rewrite Hmc. destruct r as [x|e].
  - destruct (Hk c1 Hc1) as (r2 & c2 & Hkc & Hc2 & Hr2).
    destruct (proj1 (Hr x) eq_refl) as [HP ->]. exists r2, c2.
    split_and!; [done|done|]. intros y. rewrite Hr2. naive_solver.
  - exists (Err e), c1. split_and!; [done|done|]. intros y. split; [done|].
    intros [[HP _] _]. assert (Err e = Ok a) by by apply Hr. done.
Qed.

Lemma returns_iff {A} (m : verifier A) P Q a : (P ↔ Q) → returns m P a → returns m Q a.
Proof.
  intros HPQ Hm c Hc. destruct (Hm c Hc) as (r & c' & ? & ? & Hr).
  exists r, c'. split_and!; [done|done|]. intros x. by rewrite Hr, HPQ.
Qed.

Lemma returns_map {A B} (m : verifier A) (f : A → B) P a :
  returns m P a → returns (m ≫= λ x, mret (f x)) P (f a).
Proof.
  intros Hm. eapply returns_iff; [apply (right_id True _)|].
  eapply returns_bind; [exact Hm|apply returns_ret].
Qed.

Lemma returns_lift (res : result () Error) : returns (lift (Ret res)) (res = Ok ()) ().
Proof.
  intros c Hc. exists res, c. split_and!; [done|done|]. intros []. naive_solver.
Qed.

Lemma returns_if (b : bool) e :
  returns (if b then mret () else lift (Ret (Err e))) (b = true) ().
Proof.
  destruct b; (eapply returns_iff; [|apply returns_ret || apply returns_lift]); naive_solver.
Qed.

Lemma epoch_is_Ok em r e : epoch_is em r e = Ok () ↔ get_epoch em r = Some e.
Proof.
  unfold epoch_is. destruct (get_epoch em r) as [e'|]; [|naive_solver].
  case_decide; naive_solver.
Qed.

Hypothesis Hetv : validators_ok etv.

Lemma returns_verify_tc tc : returns (verify_tc etv tc) (valid_tc etv tc) ().
Proof. by apply verifies_returns, verify_tc_verifies. Qed.

Lemma returns_round_certificate rc :
  returns (verify_round_certificate rc) (valid_round_certificate rc) ().
Proof.
  apply verifies_returns. destruct rc; [by apply verify_qc_verifies|by apply verify_tc_verifies].
Qed.

Lemma ProposalMessage_validate_returns p :
  returns (ProposalMessage_validate p) (valid_message 0 (PmProposal p)) ().
Proof.
  unfold ProposalMessage_validate, valid_message.
  eapply returns_bind; [apply returns_lift|].
  eapply returns_bind; [eapply returns_iff, returns_lift; apply epoch_is_Ok|].
  eapply returns_bind; [by apply verifies_returns, verify_tip_verifies|].
  destruct (last_round_tc p); [apply returns_verify_tc|apply returns_ret].
Qed.

Lemma TimeoutMessage_validate_returns t cur :
  returns (TimeoutMessage_validate t cur) (valid_message cur (PmTimeout t))
    (if decide (ti_round (tm_info t) ≤ cur)%N then drop_certificate t else t).
Proof.
  unfold TimeoutMessage_validate, valid_message.
  eapply returns_bind; [apply returns_if|].
  eapply returns_bind; [apply returns_lift|].
  eapply returns_bind; [eapply returns_iff, returns_lift; apply epoch_is_Ok|].
  cbv zeta. eapply returns_iff; [|eapply (returns_bind _ _
    (∀ rc, tm_last_round_certificate t = Some rc → (cur < ti_round (tm_info t))%N →
           valid_round_certificate rc)
    (valid_high_extend etv (HighExtend_from (tm_high_extend t)) ∧ True))].
  - tauto.
  - case_decide as Hle; cbn.
    + eapply returns_iff, returns_ret. split; [intros _ rc _ ?; lia|done].
    + destruct (tm_last_round_certificate t) as [rc|].
      * eapply returns_iff, returns_round_certificate. split; [by intros ? ? [= <-]|].
        intros Hrc. apply Hrc; [done|lia].
      * eapply returns_iff, returns_ret. naive_solver.
  - eapply returns_bind; [|apply returns_ret].
    apply verifies_returns. case_decide; cbn; by apply verify_high_extend_verifies.
Qed.

Lemma validate_message_returns v ver cur :
  returns (validate v ver cur)
    (version (unv_obj (ver_message v)) = ver ∧
     valid_message cur (message (unv_obj (ver_message v))))
    {| ver_author := ver_author v;
       ver_message :=
         {| unv_obj := {| version := version (unv_obj (ver_message v));
                          message := stripped cur (message (unv_obj (ver_message v))) |};
            author_signature := author_signature (ver_message v) |} |}.
Proof.
  unfold validate. eapply returns_bind; [apply verifies_returns, verifies_require|].
  apply (returns_map _ (λ m, {| ver_author := ver_author v;
    ver_message := {| unv_obj := {| version := version (unv_obj (ver_message v)); message := m |};
                      author_signature := author_signature (ver_message v) |} |})).
  destruct (message (unv_obj (ver_message v))) as [p|w|t|r|n|a]; cbn [stripped].
  - eapply (returns_map _ (λ _, PmProposal p)). apply ProposalMessage_validate_returns.
  - eapply (returns_map _ (λ _, PmVote w)). eapply returns_iff, returns_lift.
    unfold VoteMessage_validate, vote_verify_epoch. cbn. rewrite <- epoch_is_Ok.
    destruct (sig_validate (vm_sig w)); naive_solver.
  - pose proof (returns_map _ PmTimeout _ _ (TimeoutMessage_validate_returns t cur)) as Ht.
    by case_decide.
  - eapply (returns_map _ (λ _, PmRoundRecovery r)). unfold RoundRecoveryMessage_validate. cbn.
    eapply returns_bind; [apply returns_lift|].
    eapply returns_bind; [eapply returns_iff, returns_lift; apply epoch_is_Ok|].
    apply returns_verify_tc.
  - eapply (returns_map _ (λ _, PmNoEndorsement n)). eapply returns_iff, returns_lift.
    unfold NoEndorsementMessage_validate, no_endorsement_verify_epoch. cbn.
    rewrite <- epoch_is_Ok. destruct (sig_validate (nem_signature n)); naive_solver.
  - eapply (returns_map _ (λ _, PmAdvanceRound a)). apply returns_round_certificate.
Qed.
End validate.
End validation.

(** ** Theorems *)

Section theorems.
Context `{MessageCodec, !LruCache bytes, !Duplicates PT, !U256Ops, !LeaderElection PT}.
Context (em : EpochManager) (vem : ValidatorsEpochMapping PT CPK).

(** The lookup is safe when every installed validator set is well formed and the
    election returns for non-empty sets. *)
Lemma epoch_to_validators_ok :
  (∀ e vs, get_val_set vem e = Some vs →
     wf_validator_set vs ∧ (total_stake vs * 2 ≤ u256_MAX)%N) →
  (∀ r m, m ≠ ∅ → (map_stake m ≤ u256_MAX)%N → ∃ x, get_leader r m = Ret x) →
  validators_ok (epoch_to_validators em vem).
Proof.
  intros Hwf Hel e r. unfold epoch_to_validators. destruct (get_epoch em r) as [e'|]; [|by eexists].
  case_decide; [by eexists|]. destruct (get_val_set vem e) as [vs|] eqn:Hv; [|by eexists].
  destruct (get_cert_pubkeys vem e) as [keys|]; [|by eexists].
  destruct (Hwf _ _ Hv) as [Hvs H2']. pose proof Hvs as (Hne & _ & Ht & Hmax).
  destruct (Hel r (get_members vs)) as [x Hx]; [done|unfold get_members; by rewrite <- Ht|].
  rewrite Hx. cbn. eexists. split; [done|]. intros vs' keys' ld [= <- <- <-]. done.
Qed.

(** C17: [validate] never panics, keeps the certificate cache valid, and succeeds
    exactly when the version matches and the message is valid; the message is
    returned unchanged, except that a timeout for a round the node has already
    entered is returned without its unchecked certificate. *)
Theorem message_validation_correct (v : Verified) (ver : N) (current : Round)
    (c : CertificateCache) :
  validators_ok (epoch_to_validators em vem) →
  cache_valid (epoch_to_validators em vem) c →
  ∃ r c', validate em vem v ver current c = Ret (r, c') ∧
    cache_valid (epoch_to_validators em vem) c' ∧
    ∀ v', r = Ok v' ↔
      (version (unv_obj (ver_message v)) = ver ∧
       valid_message em vem current (message (unv_obj (ver_message v)))) ∧
      v' = {| ver_author := ver_author v;
              ver_message :=
                {| unv_obj := {| version := version (unv_obj (ver_message v));
                                 message := stripped current (message (unv_obj (ver_message v))) |};
                   author_signature := author_signature (ver_message v) |} |}.
Proof. intros Hetv Hc. by apply validate_message_returns. Qed.

(** C18: a valid proposal proves that its round may start and extends what the
    previous round decided: the tip's QC is from the previous round, or a valid
    TC of the previous round extends the same QC round; and if that TC extends
    another tip, the proposal is fresh and carries a valid certificate that
    allows it to skip the TC's tip. *)
Theorem validated_proposal_justified (current : Round) (p : ProposalMessage) :
  valid_message em vem current (PmProposal p) →
  let etv := epoch_to_validators em vem in
  let tip := pm_tip p in
  let qc := hdr_qc (tip_header tip) in
  valid_qc etv qc ∧
  (proposal_round p = (qc_get_round qc + 1)%N ∨
   ∃ tc, last_round_tc p = Some tc ∧ valid_tc etv tc ∧
     proposal_round p = (tc_round tc + 1)%N ∧
     qc_get_round (HighExtend_qc (tc_high_extend tc)) = qc_get_round qc ∧
     (∀ other, tc_high_extend tc = HeTip other → other ≠ tip →
        proposal_round p = block_round (tip_header tip) ∧
        ((∃ nec, fresh_certificate tip = Some (Nec nec) ∧ valid_nec etv nec ∧
            ne_round (nec_msg nec) = proposal_round p ∧
            tip_qc_round (nec_msg nec) = qc_get_round qc) ∨
         (∃ n, fresh_certificate tip = Some (NoTip n) ∧ valid_tc etv (no_tip_tc n) ∧
            proposal_round p = (nt_round n + 1)%N)))).
Proof.
  intros (Hwf & _ & Htip & Htc) etv tip qc.
  destruct Htip as (vs & keys & ld & _ & _ & _ & Hfok & Hqc & Hfc). split; [exact Hqc|].
  unfold well_formed_proposal in Hwf. fold tip in Hwf, Htc. fold qc in Hwf.
  destruct (decide (block_body_id _ ≠ _)) as [|_]; [done|].
  destruct (immediately_follows (proposal_round p) (qc_get_round qc)) eqn:Hif.
  { left. by apply immediately_follows_spec in Hif as [? _]. }
  right. destruct (last_round_tc p) as [tc|]; [|done]. exists tc.
  destruct (immediately_follows (proposal_round p) (tc_round tc)) eqn:Hft; [|done].
  apply immediately_follows_spec in Hft as [Hft _]. cbn [negb] in Hwf.
  split_and!; [done|done|done| |].
  - destruct (tc_high_extend tc) as [tct|q]; cbn.
    + destruct (decide (tct = tip)) as [->|]; [done|].
      destruct (decide (proposal_round p ≠ _)); [done|].
      destruct (decide (qc_get_round _ ≠ _)) as [|Hq]; [done|]. by apply dec_stable in Hq.
    + destruct (decide (qc_get_round q ≠ _)) as [|Hq]; [done|]. by apply dec_stable in Hq.
  - intros other Hother Hne. rewrite Hother in Hwf.
    rewrite decide_False in Hwf by done.
    destruct (decide (proposal_round p ≠ _)) as [|Hr]; [done|]. apply dec_stable in Hr.
    split; [done|]. unfold fresh_certificate_ok in Hfok. fold tip in Hfok, Hfc. fold qc in Hfok.
    rewrite <- Hr, Hif in Hfok. destruct (fresh_certificate tip) as [[nec|n]|]; [| |done].
    + apply andb_true_iff in Hfok as [?%bool_decide_eq_true ?%bool_decide_eq_true].
      left. by exists nec.
    + apply andb_true_iff in Hfok as [Hfn%immediately_follows_spec _].
      right. exists n. split_and!; [done|done|apply Hfn].
Qed.

(** A message accepted by [Unverified::verify] is attributed to the key its
    signature recovers to, which is a validator with stake in the epoch of the
    message's round; [verify] never panics on well-formed validator sets. *)
Theorem verified_author_is_validator (m : Unverified) :
  (∀ e vs, get_val_set vem e = Some vs → wf_validator_set vs) →
  ∃ r, Unverified_verify m em vem = Ret r ∧
    ∀ v, r = Ok v →
      ver_message v = m ∧
      recover_pubkey ConsensusMessageDomain (encode_message (unv_obj m)) (author_signature m) =
        Some (ver_author v) ∧
      ∃ e vs, get_epoch em (get_round (message (unv_obj m))) = Some e ∧
        get_val_set vem e = Some vs ∧ is_member vs (ver_author v) = true.
Proof.
  intros Hwf. unfold Unverified_verify.
  destruct (get_epoch em _) as [e|] eqn:He; [|by eexists].
  destruct (get_val_set vem e) as [vs|] eqn:Hv; [|by eexists].
  destruct (recover_pubkey _ _ _) as [pk|] eqn:Hr; [|by eexists].
  unfold valid_pubkey. destruct (get_members vs !! pk) as [st|] eqn:Hpk; [|by eexists].
  destruct (Hwf _ _ Hv) as (_ & Hpos & _). specialize (Hpos _ _ Hpk).
  rewrite assert_true by done. cbn. eexists. split; [done|]. intros v [= <-]. cbn.
  split_and!; [done|done|]. exists e, vs. split_and!; [done|done|].
  apply bool_decide_eq_true. by exists st.
Qed.
End theorems.

(** ** A concrete setting *)

#[local] Existing Instance NopProtocol.
#[local] Existing Instance NopCodec.
#[local] Existing Instance list_LruCache.

Definition example_message_codec : MessageCodec :=
  {| encode_message m := [version m; get_round (message m)] |}.

#[local] Existing Instance example_message_codec.

Definition example_epochs : EpochManager :=
  {| epoch_length := 100; epoch_start_delay := 10; epoch_starts := {[1%N := 0%N]} |}.

Definition example_mapping : ValidatorsEpochMapping PT CPK :=
  {| validator_map :=
       {[1%N := (four_validators, list_to_map [(1, 1); (2, 2); (3, 3); (4, 4)]%N)]} |}.

(** Elects the first validator. *)
Definition example_election : LeaderElection PT := {| get_leader _ _ := Ret (1%N : PT) |}.

#[local] Existing Instance example_election.

Lemma example_mapping_wf e vs :
  get_val_set example_mapping e = Some vs →
  wf_validator_set vs ∧ (total_stake vs * 2 ≤ u256_MAX)%N.
Proof.
  unfold get_val_set. cbn. intros ([vs' keys] & Hl & ->)%fmap_Some.
  apply lookup_singleton_Some in Hl as [_ [= <- <-]].
  split; [exact (create_wf _ _ four_validators_created)|]. vm_compute. discriminate.
Qed.

Lemma example_validators_ok : validators_ok (epoch_to_validators example_epochs example_mapping).
Proof. apply epoch_to_validators_ok; [apply example_mapping_wf|by eexists]. Qed.

Lemma example_lookup r :
  epoch_to_validators example_epochs example_mapping 1%N r = example_etv 1%N r.
Proof.
  unfold epoch_to_validators. assert (get_epoch example_epochs r = Some 1%N) as ->.
  { apply get_epoch_Some. cbn. split; [exists 0%N; split; [reflexivity|lia]|].
    intros e' s'. rewrite lookup_singleton_Some. intros [<- _] _. lia. }
  reflexivity.
Qed.

(** The proposal of round 6 after the TC of round 5. *)
Definition example_proposal : ProposalMessage :=
  {| proposal_round := 6; proposal_epoch := 1; pm_tip := example_tip; block_body := 9%N : Body;
     last_round_tc := Some example_tc |}.

Lemma example_proposal_valid :
  valid_message example_epochs example_mapping 5 (PmProposal example_proposal).
Proof.
  split; [vm_compute; reflexivity|]. split; [vm_compute; reflexivity|].
  assert (valid_qc (epoch_to_validators example_epochs example_mapping) example_genesis) as Hg.
  { destruct example_genesis_valid as (vs & keys & ld & He & Hq). exists vs, keys, ld.
    split; [|exact Hq]. etrans; [apply example_lookup|exact He]. }
  assert (valid_tc (epoch_to_validators example_epochs example_mapping) example_tc) as Htc.
  { destruct example_tc_valid as (vs & keys & ld & He & Hl & ids & Ht & Hq & _ & Hr).
    exists vs, keys, ld. split; [etrans; [apply example_lookup|exact He]|].
    split; [exact Hl|]. exists ids. split; [exact Ht|]. split; [exact Hq|]. split; [exact Hg|exact Hr]. }
  split; [|exact Htc].
  destruct example_tip_valid as (vs & keys & ld & He & Ha & Hb & Hf & _ & _).
  exists vs, keys, ld. split; [etrans; [apply example_lookup|exact He]|].
  split; [exact Ha|]. split; [exact Hb|]. split; [exact Hf|]. split; [exact Hg|exact Htc].
Qed.

Lemma validated_proposal_justified_witness :
  valid_qc (epoch_to_validators example_epochs example_mapping)
    (hdr_qc (tip_header (pm_tip example_proposal))).
Proof.
  apply (validated_proposal_justified example_epochs example_mapping 5 example_proposal
           example_proposal_valid).
Defined.

Definition example_unverified : Unverified :=
  {| unv_obj := {| version := 1; message := PmProposal example_proposal |};
     author_signature := (nop_sign example_hash ConsensusMessageDomain [1; 6]%N 1%N : ST) |}.

Definition example_verified : Verified :=
  {| ver_author := 1%N : PT; ver_message := example_unverified |}.

Lemma message_validation_correct_witness :
  ∃ r c', validate example_epochs example_mapping example_verified 1 5 CertificateCache_default =
    Ret (r, c') ∧ ∃ v', r = Ok v'.
Proof.
  destruct (message_validation_correct example_epochs example_mapping example_verified 1 5
    CertificateCache_default) as (r & c' & Hv & _ & Hr).
  - exact example_validators_ok.
  - apply cache_holds_default.
  - exists r, c'. split; [exact Hv|]. eexists. apply Hr. split; [|reflexivity].
    split; [reflexivity|exact example_proposal_valid].
Defined.

Lemma verified_author_is_validator_witness :
  ∃ r, Unverified_verify example_unverified example_epochs example_mapping = Ret r.
Proof.
  destruct (verified_author_is_validator example_epochs example_mapping example_unverified)
    as (r & Hr & _).
  - intros e vs Hv. apply (example_mapping_wf e vs Hv).
  - exists r. exact Hr.
Defined.
