(* ===== verification/Safety.v ===== *)
(** * The safety module ([src/consensus/src/validation/safety.rs])

    [Safety] records what the node has voted for, endorsed, proposed and timed
    out, and refuses to contradict it.  The theorems speak of any sequence of
    calls, through a machine that runs them and collects what the node signs:
    no two votes of a round differ, votes and no-endorsements of a round do not
    conflict, no vote is cast after timing out, and the tip a timeout reports is
    always above the QC. *)
From S2P Require Import Prelude Types SignatureCollection Certificates Signing.

Record HighNoEndorse := { hne_round : Round; hne_tip : BlockId }.

Section safety.
Context `{Codec}.

Record Safety := {
  maybe_high_tip : option ConsensusTip;
  high_certificate_qc_round : Round;
  highest_vote : Round;
  highest_no_endorse : HighNoEndorse;
  highest_propose : Round;
  highest_recovery_request : Round;
  handled_proposals : gset Round;
}.

Definition HANDLED_PROPOSAL_CACHE_SIZE : nat := 100.

Definition Safety_default : Safety := {|
  maybe_high_tip := None;
  high_certificate_qc_round := GENESIS_ROUND;
  highest_vote := GENESIS_ROUND;
  highest_no_endorse := {| hne_round := GENESIS_ROUND; hne_tip := GENESIS_BLOCK_ID |};
  highest_propose := GENESIS_ROUND;
  highest_recovery_request := GENESIS_ROUND;
  handled_proposals := ∅;
|}.

Definition Safety_new (high_certificate : RoundCertificate) (tip : option ConsensusTip) :
    run Safety :=
  current_round ← Round_add (rc_round high_certificate) 1;
  Ret {| maybe_high_tip := tip;
         high_certificate_qc_round := qc_get_round (rc_qc high_certificate);
         highest_vote := current_round;
         highest_no_endorse := {| hne_round := current_round; hne_tip := GENESIS_BLOCK_ID |};
         highest_propose := current_round;
         highest_recovery_request := current_round;
         handled_proposals := ∅ |}.

Definition safety_process_certificate (self : Safety) (certificate : RoundCertificate) : Safety :=
  let qc_round := qc_get_round (rc_qc certificate) in
  let high :=
    if decide (high_certificate_qc_round self < qc_round)%N then qc_round
    else high_certificate_qc_round self in
  {| maybe_high_tip :=
       match maybe_high_tip self with
       | Some tip => if decide (block_round (tip_header tip) ≤ high)%N then None else Some tip
       | None => None
       end;
     high_certificate_qc_round := high;
     highest_vote := highest_vote self;
     highest_no_endorse := highest_no_endorse self;
     highest_propose := highest_propose self;
     highest_recovery_request := highest_recovery_request self;
     handled_proposals := handled_proposals self |}.

Definition is_safe_to_vote (self : Safety) (round : Round) (last_round_tc_tip : option BlockId) :
    bool :=
  if decide (round = hne_round (highest_no_endorse self) ∧
             last_round_tc_tip ≠ Some (hne_tip (highest_no_endorse self)))
  then false
  else bool_decide (highest_vote self < round)%N.

Definition vote (self : Safety) (round : Round) (last_round_tc_tip : option BlockId)
    (tip : ConsensusTip) : run Safety :=
  assert (is_safe_to_vote self round last_round_tc_tip = true) ≫= λ _,
  Ret {| maybe_high_tip :=
           if decide (high_certificate_qc_round self < block_round (tip_header tip))%N
           then Some tip else None;
         high_certificate_qc_round := high_certificate_qc_round self;
         highest_vote := round;
         highest_no_endorse := highest_no_endorse self;
         highest_propose := highest_propose self;
         highest_recovery_request := highest_recovery_request self;
         handled_proposals := handled_proposals self |}.

Definition is_safe_to_no_endorse (self : Safety) (round : Round) : bool :=
  bool_decide (hne_round (highest_no_endorse self) `max` highest_vote self < round)%N.

Definition no_endorse (self : Safety) (round : Round) (tip : BlockId) : run Safety :=
  assert (is_safe_to_no_endorse self round = true) ≫= λ _,
  Ret {| maybe_high_tip := maybe_high_tip self;
         high_certificate_qc_round := high_certificate_qc_round self;
         highest_vote := highest_vote self;
         highest_no_endorse := {| hne_round := round; hne_tip := tip |};
         highest_propose := highest_propose self;
         highest_recovery_request := highest_recovery_request self;
         handled_proposals := handled_proposals self |}.

Definition timeout (self : Safety) (round : Round) : run (bool * Safety) :=
  assert (highest_vote self ≤ round)%N ≫= λ _,
  let self :=
    {| maybe_high_tip := maybe_high_tip self;
       high_certificate_qc_round := high_certificate_qc_round self;
       highest_vote := round;
       highest_no_endorse := highest_no_endorse self;
       highest_propose := highest_propose self;
       highest_recovery_request := highest_recovery_request self;
       handled_proposals := handled_proposals self |} in
  Ret (bool_decide (hne_round (highest_no_endorse self) < round)%N ||
       match maybe_high_tip self with
       | Some tip => bool_decide (block_round (tip_header tip) = round)
       | None => false
       end, self).

Definition is_safe_to_propose (self : Safety) (round : Round) : bool :=
  bool_decide (highest_propose self `max` highest_vote self < round)%N.

Definition propose (self : Safety) (round : Round) : run Safety :=
  assert (is_safe_to_propose self round = true) ≫= λ _,
  Ret {| maybe_high_tip := maybe_high_tip self;
         high_certificate_qc_round := high_certificate_qc_round self;
         highest_vote := highest_vote self;
         highest_no_endorse := highest_no_endorse self;
         highest_propose := round;
         highest_recovery_request := highest_recovery_request self;
         handled_proposals := handled_proposals self |}.

Definition is_safe_to_recovery_request (self : Safety) (round : Round) : bool :=
  bool_decide (highest_recovery_request self < round)%N.

Definition recovery_request (self : Safety) (round : Round) : run Safety :=
  assert (is_safe_to_recovery_request self round = true) ≫= λ _,
  Ret {| maybe_high_tip := maybe_high_tip self;
         high_certificate_qc_round := high_certificate_qc_round self;
         highest_vote := highest_vote self;
         highest_no_endorse := highest_no_endorse self;
         highest_propose := highest_propose self;
         highest_recovery_request := round;
         handled_proposals := handled_proposals self |}.

Definition is_safe_to_handle_proposal (self : Safety) (round : Round) : bool :=
  negb (bool_decide (round ∈ handled_proposals self)).

(** [BTreeSet::pop_first]. *)
Definition pop_first (s : gset Round) : gset Round :=
  match merge_sort N.le (elements s) with
  | [] => s
  | x :: _ => s ∖ {[x]}
  end.

(** The [while] of [handle_proposal]; the size of the set is enough fuel. *)
Fixpoint pop_while (fuel : nat) (s : gset Round) : gset Round :=
  match fuel with
  | 0 => s
  | S fuel =>
      if decide (HANDLED_PROPOSAL_CACHE_SIZE < size s) then pop_while fuel (pop_first s) else s
  end.

Definition handle_proposal (self : Safety) (round : Round) : run Safety :=
  assert (is_safe_to_handle_proposal self round = true) ≫= λ _,
  let handled := {[round]} ∪ handled_proposals self in
  Ret {| maybe_high_tip := maybe_high_tip self;
         high_certificate_qc_round := high_certificate_qc_round self;
         highest_vote := highest_vote self;
         highest_no_endorse := highest_no_endorse self;
         highest_propose := highest_propose self;
         highest_recovery_request := highest_recovery_request self;
         handled_proposals := pop_while (size handled) handled |}.

(** ** The calls as a machine

    What the node signs: a vote for a block in a round, with the TC tip of the
    proposal or inside a timeout; a no-endorsement; a proposal. *)

Inductive vote_source :=
| ByProposal (last_round_tc_tip : option BlockId)
| ByTimeout (tip_round : Round).

Inductive safety_event :=
| Voted (round : Round) (id : BlockId) (source : vote_source)
| NoEndorsed (round : Round) (tip : BlockId)
| TimedOut (round : Round)
| Proposed (round : Round).

Inductive safety_op :=
| OpVote (round : Round) (last_round_tc_tip : option BlockId) (tip : ConsensusTip)
| OpNoEndorse (round : Round) (tip : BlockId)
| OpTimeout (round : Round)
| OpPropose (round : Round)
| OpRecoveryRequest (round : Round)
| OpHandleProposal (round : Round)
| OpCertificate (certificate : RoundCertificate).

Definition safety_step (s : Safety) (op : safety_op) : run (list safety_event * Safety) :=
  match op with
  | OpVote round tc_tip tip =>
      s ← vote s round tc_tip tip;
      Ret ([Voted round (get_id (tip_header tip)) (ByProposal tc_tip)], s)
  | OpNoEndorse round tip => s ← no_endorse s round tip; Ret ([NoEndorsed round tip], s)
  | OpTimeout round =>
      '(safe_to_vote, s) ← timeout s round;
      Ret (match maybe_high_tip s with
           | Some tip =>
               if safe_to_vote : bool
               then [TimedOut round;
                     Voted round (get_id (tip_header tip)) (ByTimeout (block_round (tip_header tip)))]
               else [TimedOut round]
           | None => [TimedOut round]
           end, s)
  | OpPropose round => s ← propose s round; Ret ([Proposed round], s)
  | OpRecoveryRequest round => s ← recovery_request s round; Ret ([], s)
  | OpHandleProposal round => s ← handle_proposal s round; Ret ([], s)
  | OpCertificate certificate => Ret ([], safety_process_certificate s certificate)
  end.

(** Runs the calls and returns the events, latest first. *)
Fixpoint safety_run (s : Safety) (evs : list safety_event) (ops : list safety_op) :
    run (list safety_event * Safety) :=
  match ops with
  | [] => Ret (evs, s)
  | op :: ops =>
      '(new, s) ← safety_step s op;
      safety_run s (reverse new ++ evs) ops
  end.

(** ** Lemmas *)

(** The state agrees with the votes it has let through. *)
Definition votes_recorded (evs : list safety_event) (s : Safety) : Prop :=
  (∀ r i src, Voted r i src ∈ evs → (r ≤ highest_vote s)%N) ∧
  (∀ r i1 i2 src1 src2, Voted r i1 src1 ∈ evs → Voted r i2 src2 ∈ evs → i1 = i2) ∧
  (∀ i src tip, Voted (highest_vote s) i src ∈ evs → maybe_high_tip s = Some tip →
     get_id (tip_header tip) = i) ∧
  (∀ r, TimedOut r ∈ evs → (r ≤ highest_vote s)%N).

Lemma safety_run_inv (I : list safety_event → Safety → Prop) s evs ops evs' s' :
  (∀ evs s op new s', I evs s → safety_step s op = Ret (new, s') → I (reverse new ++ evs) s') →
  I evs s → safety_run s evs ops = Ret (evs', s') → I evs' s'.
Proof.
  intros Hstep. revert s evs. induction ops as [|op ops IH]; intros s evs HI; cbn.
  { intros [= <- <-]. done. }
  destruct (safety_step s op) as [[new s1]|] eqn:Hs; cbn; [|done].
  apply IH. by eapply Hstep.
Qed.

Lemma vote_Ret s r tt tip s' :
  vote s r tt tip = Ret s' ↔
  is_safe_to_vote s r tt = true ∧
  s' = {| maybe_high_tip :=
            if decide (high_certificate_qc_round s < block_round (tip_header tip))%N
            then Some tip else None;
          high_certificate_qc_round := high_certificate_qc_round s;
          highest_vote := r; highest_no_endorse := highest_no_endorse s;
          highest_propose := highest_propose s;
          highest_recovery_request := highest_recovery_request s;
          handled_proposals := handled_proposals s |}.
Proof.
  unfold vote. rewrite run_bind_Ret. setoid_rewrite assert_Ret. split.
  - by intros (_ & ? & [= <-]).
  - intros [? ->]. by exists ().
Qed.

Lemma is_safe_to_vote_true s r tt :
  is_safe_to_vote s r tt = true ↔
  (r = hne_round (highest_no_endorse s) → tt = Some (hne_tip (highest_no_endorse s))) ∧
  (highest_vote s < r)%N.
Proof.
  unfold is_safe_to_vote. case_decide as Hd.
  - split; [done|]. intros [Hr _]. destruct Hd as [Hd1 Hd2]. by destruct Hd2; auto.
  - rewrite bool_decide_eq_true. split; [|by intros [_ ?]]. intros Hlt. split; [|done].
    intros Hr. destruct (decide (tt = Some (hne_tip (highest_no_endorse s)))); [done|].
    by destruct Hd.
Qed.

(** A new vote for a round later than every recorded one. *)
Lemma votes_recorded_new evs s s' r i src :
  votes_recorded evs s → (highest_vote s < r)%N → highest_vote s' = r →
  (∀ tip, maybe_high_tip s' = Some tip → get_id (tip_header tip) = i) →
  votes_recorded (Voted r i src :: evs) s'.
Proof.
  intros (Hle & Huniq & Htip & Hto) Hlt Hv Ht. unfold votes_recorded. rewrite Hv.
  setoid_rewrite elem_of_cons.
  assert (∀ j src', Voted r j src' ∈ evs → False) as Hno by (intros ?? ?%Hle; lia).
  split_and!.
  - intros r0 ?? [[= -> _ _]|Hin]; [lia|]. apply Hle in Hin. lia.
  - intros r0 ???? [[= -> -> _]|H1] [[= -> _]|H2]; try done; try (by exfalso; eauto).
    by eapply Huniq.
  - intros ? ? tip [[= -> _]|Hin] Hm; [by apply Ht|]. by exfalso; eauto.
  - intros r0 [?|Hin]; [done|]. apply Hto in Hin. lia.
Qed.

(** Steps that cast no vote and keep the records. *)
Lemma votes_recorded_mono evs s s' :
  votes_recorded evs s → (highest_vote s ≤ highest_vote s')%N →
  (∀ tip, maybe_high_tip s' = Some tip → maybe_high_tip s = Some tip) →
  votes_recorded evs s'.
Proof.
  intros (Hle & Huniq & Htip & Hto) Hv Ht. split_and!.
  - intros ??? Hin%Hle. lia.
  - done.
  - intros i src tip Hin Hm. eapply Htip; [|by apply Ht].
    pose proof (Hle _ _ _ Hin). replace (highest_vote s) with (highest_vote s') by lia. done.
  - intros ? Hin%Hto. lia.
Qed.

Lemma votes_recorded_skip evs s e :
  votes_recorded evs s → (∀ r i src, e ≠ Voted r i src) →
  (∀ r, e = TimedOut r → (r ≤ highest_vote s)%N) →
  votes_recorded (e :: evs) s.
Proof.
  intros (Hle & Huniq & Htip & Hto) He Het. unfold votes_recorded. setoid_rewrite elem_of_cons.
  split_and!.
  - intros ??? [Hx|?]; [by destruct (He _ _ _ (eq_sym Hx))|eauto].
  - intros ????? [Hx|?] [Hy|?]; try (by destruct (He _ _ _ (eq_sym Hx)));
      try (by destruct (He _ _ _ (eq_sym Hy))). eauto.
  - intros ??? [Hx|?]; [by destruct (He _ _ _ (eq_sym Hx))|eauto].
  - intros r [<-|?]; eauto.
Qed.

(** Voting again, in the round of the last vote, for the recorded tip. *)
Lemma votes_recorded_again evs s tip src :
  votes_recorded evs s → maybe_high_tip s = Some tip →
  votes_recorded (Voted (highest_vote s) (get_id (tip_header tip)) src :: evs) s.
Proof.
  intros (Hle & Huniq & Htip & Hto) Hm. unfold votes_recorded. setoid_rewrite elem_of_cons.
  split_and!.
  - intros ??? [[= -> _ _]|Hin]; [done|by eapply Hle].
  - intros r i1 i2 ?? [Hx|Hx] [Hy|Hy]; simplify_eq; [done|by eapply Htip| |by eapply Huniq].
    symmetry. by eapply Htip.
  - intros i ? tip' [Hx|Hx] ?; simplify_eq; [done|by eapply Htip].
  - intros r [?|?]; [done|by apply Hto].
Qed.

Lemma votes_recorded_step evs s op new s' :
  votes_recorded evs s → safety_step s op = Ret (new, s') → votes_recorded (reverse new ++ evs) s'.
Proof.
  intros HI. destruct op as [r tt tip|r t|r|r|r|r|rc]; cbn [safety_step].
  - rewrite run_bind_Ret. intros (s1 & [Hsafe ->]%vote_Ret & [= <- <-]).
    apply is_safe_to_vote_true in Hsafe as [_ Hlt]. cbn.
    eapply votes_recorded_new; [done|done|done|]. cbn. intros tip'. case_decide; naive_solver.
  - rewrite run_bind_Ret. intros (s1 & Hne & [= <- <-]). unfold no_endorse in Hne.
    apply run_bind_Ret in Hne as (_ & _ & [= <-]). cbn.
    apply votes_recorded_skip; [|done|done]. by eapply votes_recorded_mono.
  - rewrite run_bind_Ret. intros ([b s1] & Ht & [= <- <-]). unfold timeout in Ht.
    apply run_bind_Ret in Ht as (_ & Hle%assert_Ret & [= <- <-]).
    set (s1 := {| maybe_high_tip := _ |}).
    assert (votes_recorded (TimedOut r :: evs) s1) as HI1.
    { apply votes_recorded_skip; [|done|by intros ? [= <-]]. by eapply votes_recorded_mono. }
    destruct (maybe_high_tip s) as [tip|] eqn:Htip; cbn; [|done].
    case_match; [|done]. cbn. by apply (votes_recorded_again _ s1).
  - rewrite run_bind_Ret. intros (s1 & Hp & [= <- <-]). unfold propose in Hp.
    apply run_bind_Ret in Hp as (_ & _ & [= <-]). cbn.
    apply votes_recorded_skip; [|done|done]. by eapply votes_recorded_mono.
  - rewrite run_bind_Ret. intros (s1 & Hp & [= <- <-]). unfold recovery_request in Hp.
    apply run_bind_Ret in Hp as (_ & _ & [= <-]). by eapply votes_recorded_mono.
  - rewrite run_bind_Ret. intros (s1 & Hp & [= <- <-]). unfold handle_proposal in Hp.
    apply run_bind_Ret in Hp as (_ & _ & [= <-]). by eapply votes_recorded_mono.
  - intros [= <- <-]. eapply votes_recorded_mono; [done|done|]. cbn. intros tip.
    destruct (maybe_high_tip s); [|done]. case_decide; naive_solver.
Qed.

(** A vote on a proposal comes after every earlier vote and timeout, by round. *)
Fixpoint votes_ordered (evs : list safety_event) : Prop :=
  match evs with
  | [] => True
  | Voted r _ (ByProposal _) :: evs =>
      (∀ r', TimedOut r' ∈ evs → (r' < r)%N) ∧ (∀ r' i src, Voted r' i src ∈ evs → (r' < r)%N) ∧
      votes_ordered evs
  | _ :: evs => votes_ordered evs
  end.

Lemma votes_ordered_app l evs :
  Forall (λ e, match e with Voted _ _ (ByProposal _) => False | _ => True end) l →
  votes_ordered evs → votes_ordered (l ++ evs).
Proof.
  induction 1 as [|e l He Hl IH]; [done|]. intros Ho. cbn. specialize (IH Ho).
  by destruct e as [r i [tt|br]|r t|r|r].
Qed.

Lemma votes_ordered_step evs s op new s' :
  votes_recorded evs s → votes_ordered evs → safety_step s op = Ret (new, s') →
  votes_ordered (reverse new ++ evs).
Proof.
  intros (Hle & _ & _ & Hto) Ho. destruct op as [r tt tip|r t|r|r|r|r|rc]; cbn [safety_step].
  - rewrite run_bind_Ret. intros (s1 & [Hsafe ->]%vote_Ret & [= <- <-]).
    apply is_safe_to_vote_true in Hsafe as [_ Hlt]. cbn. split_and!; [..|done].
    + intros r' Hr'%Hto. lia.
    + intros r' ? ? Hr'%Hle. lia.
  - rewrite run_bind_Ret. intros (s1 & _ & [= <- <-]). done.
  - rewrite run_bind_Ret. intros ([b s1] & _ & [= <- <-]). apply votes_ordered_app; [|done].
    destruct (maybe_high_tip s1), b; cbn; repeat constructor.
  - rewrite run_bind_Ret. intros (s1 & _ & [= <- <-]). done.
  - rewrite run_bind_Ret. intros (s1 & _ & [= <- <-]). done.
  - rewrite run_bind_Ret. intros (s1 & _ & [= <- <-]). done.
  - by intros [= <- <-].
Qed.

(** ** No-endorsements *)

(** The round a call signs something for. *)
Definition op_round (op : safety_op) : option Round :=
  match op with
  | OpVote r _ _ | OpNoEndorse r _ | OpTimeout r => Some r
  | _ => None
  end.

(** The rounds of the calls never decrease, as the node's current round. *)
Fixpoint rounds_in_order (current : Round) (ops : list safety_op) : Prop :=
  match ops with
  | [] => True
  | op :: ops =>
      match op_round op with
      | Some r => (current ≤ r)%N ∧ rounds_in_order r ops
      | None => rounds_in_order current ops
      end
  end.

(** A vote in a round where [t] was not endorsed extends [t], or repeats in a
    timeout a vote for a block of that round. *)
Definition compatible (r : Round) (t : BlockId) (src : vote_source) : Prop :=
  src = ByProposal (Some t) ∨ src = ByTimeout r.

Definition endorsements_ok (current : Round) (evs : list safety_event) (s : Safety) : Prop :=
  (∀ r i src, Voted r i src ∈ evs → (r ≤ highest_vote s)%N) ∧
  (∀ r t, NoEndorsed r t ∈ evs →
     (r ≤ hne_round (highest_no_endorse s) ≤ current)%N ∧
     (r = hne_round (highest_no_endorse s) → t = hne_tip (highest_no_endorse s))) ∧
  (∀ r t1 t2, NoEndorsed r t1 ∈ evs → NoEndorsed r t2 ∈ evs → t1 = t2) ∧
  (∀ r t i src, NoEndorsed r t ∈ evs → Voted r i src ∈ evs → compatible r t src).

Lemma endorsements_ok_mono cur cur' evs s s' :
  endorsements_ok cur evs s → (cur ≤ cur')%N → (highest_vote s ≤ highest_vote s')%N →
  highest_no_endorse s' = highest_no_endorse s → endorsements_ok cur' evs s'.
Proof.
  intros (Hv & Hn & Hu & Hc) Hcur Hle Heq. unfold endorsements_ok. rewrite Heq. split_and!.
  - intros ??? Hin%Hv. lia.
  - intros ?? [? ?]%Hn. split; [lia|done].
  - done.
  - done.
Qed.

Lemma endorsements_ok_vote cur evs s r i src :
  endorsements_ok cur evs s → (r ≤ highest_vote s)%N → (cur ≤ r)%N →
  (r = hne_round (highest_no_endorse s) → compatible r (hne_tip (highest_no_endorse s)) src) →
  endorsements_ok cur (Voted r i src :: evs) s.
Proof.
  intros (Hv & Hn & Hu & Hc) Hle Hcur Hcomp. unfold endorsements_ok. setoid_rewrite elem_of_cons.
  split_and!.
  - intros ??? [[= -> _ _]|Hin]; [done|by eapply Hv].
  - intros ?? [?|Hin]; [done|by apply Hn].
  - intros ??? [?|?] [?|?]; try done. by eapply Hu.
  - intros r0 t j src' [?|Hin] [Hx|Hx]; try done; [simplify_eq|by eapply Hc].
    destruct (Hn _ _ Hin) as [Hr Ht]. assert (r = hne_round (highest_no_endorse s)) as Hr' by lia.
    rewrite (Ht Hr'). by apply Hcomp.
Qed.

Lemma endorsements_ok_other cur evs s e :
  endorsements_ok cur evs s → match e with Voted _ _ _ | NoEndorsed _ _ => False | _ => True end →
  endorsements_ok cur (e :: evs) s.
Proof.
  intros (Hv & Hn & Hu & Hc) He. unfold endorsements_ok. setoid_rewrite elem_of_cons.
  split_and!; intros; repeat match goal with
    | Hx : _ = e ∨ _ |- _ => destruct Hx as [<-|Hx]; [done|] end; eauto.
Qed.

Lemma endorsements_ok_step cur evs s op new s' :
  endorsements_ok cur evs s → safety_step s op = Ret (new, s') →
  match op_round op with Some r => (cur ≤ r)%N | None => True end →
  endorsements_ok (default cur (op_round op)) (reverse new ++ evs) s'.
Proof.
  intros HI. destruct op as [r tt tip|r t|r|r|r|r|rc]; cbn [safety_step op_round default from_option].
  - rewrite run_bind_Ret. intros (s1 & [Hsafe ->]%vote_Ret & [= <- <-]) Hcur.
    apply is_safe_to_vote_true in Hsafe as [Hne Hlt]. cbn.
    apply endorsements_ok_vote; cbn; [|done|done|].
    + eapply endorsements_ok_mono; [done|done|cbn; lia|done].
    + intros Hr. left. by rewrite Hne.
  - rewrite run_bind_Ret. intros (s1 & Hne & [= <- <-]) Hcur. unfold no_endorse in Hne.
    apply run_bind_Ret in Hne as (_ & Hsafe%assert_Ret & [= <-]). cbn.
    apply bool_decide_eq_true in Hsafe. destruct HI as (Hv & Hn & Hu & Hc).
    unfold endorsements_ok. cbn. setoid_rewrite elem_of_cons. split_and!.
    + intros ??? [?|Hin]; [done|by eapply Hv].
    + intros r0 t0 [[= -> ->]|Hin]; [split; [lia|done]|]. destruct (Hn _ _ Hin). split; lia.
    + intros r0 t1 t2 [Hx|Hx] [Hy|Hy]; simplify_eq; [done|..|by eapply Hu].
      * destruct (Hn _ _ Hy). lia.
      * destruct (Hn _ _ Hx). lia.
    + intros r0 t0 i src [Hx|Hx] [Hy|Hy]; simplify_eq; [|by eapply Hc].
      apply Hv in Hy. lia.
  - rewrite run_bind_Ret. intros ([b s1] & Ht & [= <- <-]) Hcur. unfold timeout in Ht.
    apply run_bind_Ret in Ht as (_ & Hle%assert_Ret & [= <- <-]).
    set (s1 := {| maybe_high_tip := _ |}).
    assert (endorsements_ok r (TimedOut r :: evs) s1) as HI1.
    { apply endorsements_ok_other; [|done]. by eapply endorsements_ok_mono. }
    destruct (maybe_high_tip s) as [tip|] eqn:Htip; cbn; [|done].
    case_match eqn:Hb; [|done]. cbn. apply (endorsements_ok_vote r _ s1); cbn; [done|lia|lia|].
    intros Hr. right. apply orb_true_iff in Hb as [Hb|Hb]; apply bool_decide_eq_true in Hb; [lia|].
    by rewrite Hb.
  - rewrite run_bind_Ret. intros (s1 & Hp & [= <- <-]) _. unfold propose in Hp.
    apply run_bind_Ret in Hp as (_ & _ & [= <-]). cbn.
    apply endorsements_ok_other; [|done]. by eapply endorsements_ok_mono.
  - rewrite run_bind_Ret. intros (s1 & Hp & [= <- <-]) _. unfold recovery_request in Hp.
    apply run_bind_Ret in Hp as (_ & _ & [= <-]). by eapply endorsements_ok_mono.
  - rewrite run_bind_Ret. intros (s1 & Hp & [= <- <-]) _. unfold handle_proposal in Hp.
    apply run_bind_Ret in Hp as (_ & _ & [= <-]). by eapply endorsements_ok_mono.
  - intros [= <- <-] _. by eapply endorsements_ok_mono.
Qed.

Lemma endorsements_ok_run cur evs s ops evs' s' :
  endorsements_ok cur evs s → rounds_in_order cur ops → safety_run s evs ops = Ret (evs', s') →
  ∃ cur', endorsements_ok cur' evs' s'.
Proof.
  revert cur evs s. induction ops as [|op ops IH]; intros cur evs s HI Ho; cbn.
  { intros [= <- <-]. eauto. }
  destruct (safety_step s op) as [[new s1]|] eqn:Hs; cbn; [|done].
  cbn in Ho. apply (IH (default cur (op_round op))).
  - eapply endorsements_ok_step; [done|done|]. by destruct (op_round op); [destruct Ho|].
  - by destruct (op_round op); [destruct Ho|].
Qed.

(** ** The reported tip, and the handled proposals *)

(** The tip a timeout would report is above the QC it would report. *)
Definition tip_above_qc (s : Safety) : Prop :=
  ∀ tip, maybe_high_tip s = Some tip →
    (high_certificate_qc_round s < block_round (tip_header tip))%N.

Lemma tip_above_qc_certificate s rc : tip_above_qc s → tip_above_qc (safety_process_certificate s rc).
Proof.
  intros Ht tip. cbn. destruct (maybe_high_tip s) as [tip'|] eqn:Htip; [|done].
  specialize (Ht tip' Htip). destruct (decide (high_certificate_qc_round s < _)%N);
    case_decide; intros [= <-]; lia.
Qed.

Lemma tip_above_qc_step s op new s' :
  tip_above_qc s → safety_step s op = Ret (new, s') → tip_above_qc s'.
Proof.
  intros HI. destruct op as [r tt tip|r t|r|r|r|r|rc]; cbn [safety_step].
  - rewrite run_bind_Ret. intros (s1 & [_ ->]%vote_Ret & [= <- <-]) tip'. cbn.
    case_decide; [|done]. by intros [= <-].
  - rewrite run_bind_Ret. intros (s1 & Hp & [= <- <-]). unfold no_endorse in Hp.
    by apply run_bind_Ret in Hp as (_ & _ & [= <-]).
  - rewrite run_bind_Ret. intros ([b s1] & Hp & [= <- <-]). unfold timeout in Hp.
    by apply run_bind_Ret in Hp as (_ & _ & [= <- <-]).
  - rewrite run_bind_Ret. intros (s1 & Hp & [= <- <-]). unfold propose in Hp.
    by apply run_bind_Ret in Hp as (_ & _ & [= <-]).
  - rewrite run_bind_Ret. intros (s1 & Hp & [= <- <-]). unfold recovery_request in Hp.
    by apply run_bind_Ret in Hp as (_ & _ & [= <-]).
  - rewrite run_bind_Ret. intros (s1 & Hp & [= <- <-]). unfold handle_proposal in Hp.
    by apply run_bind_Ret in Hp as (_ & _ & [= <-]).
  - intros [= <- <-]. by apply tip_above_qc_certificate.
Qed.

Lemma pop_first_spec s :
  s ≠ ∅ → ∃ x, x ∈ s ∧ (∀ y, y ∈ s → (x ≤ y)%N) ∧ pop_first s = s ∖ {[x]}.
Proof.
  intros Hne. unfold pop_first.
  destruct (merge_sort N.le (elements s)) as [|x l] eqn:Hl.
  - exfalso. apply Hne, leibniz_equiv, elements_empty_inv, Permutation_nil_r.
    rewrite <- Hl. symmetry. apply merge_sort_Permutation.
  - assert (∀ y, y ∈ s ↔ y ∈ x :: l) as Hin.
    { intros y. rewrite <- elem_of_elements, <- Hl. by rewrite merge_sort_Permutation. }
    exists x. split_and!; [apply Hin; left| |done]. intros y [->|Hy]%Hin%elem_of_cons; [done|].
    assert (StronglySorted N.le (x :: l)) as Hs.
    { rewrite <- Hl. apply StronglySorted_merge_sort; [apply _|]. intros a b. lia. }
    apply StronglySorted_inv in Hs as [_ Hs]. rewrite Forall_forall in Hs. auto.
Qed.

Lemma pop_while_spec fuel s :
  size s ≤ fuel →
  size (pop_while fuel s) = size s `min` HANDLED_PROPOSAL_CACHE_SIZE ∧ pop_while fuel s ⊆ s ∧
  ∀ x y, x ∈ s ∖ pop_while fuel s → y ∈ pop_while fuel s → (x ≤ y)%N.
Proof.
  revert s. induction fuel as [|fuel IH]; intros s Hsz; cbn [pop_while].
  { split_and!; [lia|done|]. intros x y Hx. exfalso. set_solver. }
  case_decide as Hd; [|split_and!; [unfold HANDLED_PROPOSAL_CACHE_SIZE in *; lia|done|set_solver]].
  destruct (pop_first_spec s) as (x & Hx & Hmin & ->).
  { intros ->. rewrite size_empty in Hd. lia. }
  assert (size (s ∖ {[x]}) = size s - 1) as Hsz'.
  { rewrite size_difference by set_solver. by rewrite size_singleton. }
  destruct (IH (s ∖ {[x]})) as (Hs & Hsub & Hord); [lia|].
  split_and!; [lia|set_solver|]. intros y z Hy Hz.
  destruct (decide (y = x)) as [->|]; [apply Hmin; set_solver|]. apply Hord; set_solver.
Qed.

(** ** Theorems *)

(** Whatever the sequence of calls, from whatever state, a node never signs
    votes for two blocks in the same round, whether in votes on proposals or
    inside timeouts; and a vote on a proposal is always for a round after every
    round it has voted in or timed out before. *)
Theorem safety_no_double_vote (s s' : Safety) (ops : list safety_op) (evs : list safety_event) :
  safety_run s [] ops = Ret (evs, s') →
  (∀ r i1 i2 src1 src2, Voted r i1 src1 ∈ evs → Voted r i2 src2 ∈ evs → i1 = i2) ∧
  votes_ordered evs.
Proof.
  intros Hrun.
  assert (votes_recorded evs s' ∧ votes_ordered evs) as [(_ & Hu & _) Ho]; [|done].
  eapply (safety_run_inv (λ evs s, votes_recorded evs s ∧ votes_ordered evs)); [| |exact Hrun].
  - intros evs0 s0 op new s1 [Hr Ho] Hs. split; [by eapply votes_recorded_step|].
    by eapply votes_ordered_step.
  - split; [|done]. unfold votes_recorded. split_and!; intros; by rewrite elem_of_nil in *.
Qed.


(** In every state reached from the default one the recorded tip is above the
    recorded QC round, and [handle_proposal] keeps at most
    [HANDLED_PROPOSAL_CACHE_SIZE] rounds, dropping only rounds no higher than
    those it keeps. *)
Theorem safety_state_invariant (ops : list safety_op) (evs : list safety_event) (s s' : Safety)
    (r : Round) :
  safety_run Safety_default [] ops = Ret (evs, s) →
  tip_above_qc s ∧
  (handle_proposal s r = Ret s' →
   size (handled_proposals s') ≤ HANDLED_PROPOSAL_CACHE_SIZE ∧
   handled_proposals s' ⊆ {[r]} ∪ handled_proposals s ∧
   ∀ x y, x ∈ ({[r]} ∪ handled_proposals s) ∖ handled_proposals s' →
          y ∈ handled_proposals s' → (x ≤ y)%N).
Proof.
  intros Hrun. split.
  - eapply (safety_run_inv (λ _ s, tip_above_qc s)); [| |exact Hrun].
    + intros ????? HI Hs. by eapply tip_above_qc_step.
    + done.
  - unfold handle_proposal. rewrite run_bind_Ret. intros (_ & _ & [= <-]). cbn.
    destruct (pop_while_spec (size ({[r]} ∪ handled_proposals s)) ({[r]} ∪ handled_proposals s))
      as (Hs & Hsub & Hord); [done|]. split_and!; [lia|done|done].
Qed.
End safety.

(** ** A concrete run

    In round 6 a node refuses to endorse tip 77, votes for a proposal whose TC
    carries tip 77, and times out. *)

#[local] Existing Instance NopProtocol.
#[local] Existing Instance NopCodec.

Definition example_ops : list safety_op :=
  [OpNoEndorse 6 77; OpVote 6 (Some 77%N) example_tip; OpTimeout 6].

Lemma safety_no_double_vote_witness :
  ∃ evs s', safety_run Safety_default [] example_ops = Ret (evs, s') ∧ votes_ordered evs.
Proof.
  destruct (is_ret_true (safety_run Safety_default [] example_ops)) as [[evs s'] Hrun].
  { vm_compute. reflexivity. }
  exists evs, s'. split; [exact Hrun|].
  apply (safety_no_double_vote Safety_default s' example_ops evs Hrun).
Defined.


Lemma safety_state_invariant_witness :
  ∃ evs s, safety_run Safety_default [] example_ops = Ret (evs, s) ∧ tip_above_qc s.
Proof.
  destruct (is_ret_true (safety_run Safety_default [] example_ops)) as [[evs s] Hrun].
  { vm_compute. reflexivity. }
  exists evs, s. split; [exact Hrun|].
  apply (safety_state_invariant example_ops evs s s 7 Hrun).
Defined.
