(* ===== verification/VoteState.v ===== *)
(** * Collecting votes ([src/consensus/src/vote_state.rs])

    [VoteState] collects the votes of each round by content and builds a QC as
    soon as one content has a super majority; signatures that turn out to be
    invalid are dropped and their senders ignored for the round.  The theorems
    show that the aggregation loop terminates without panicking, that a QC it
    builds is certified by a super majority, that honest votes are never
    dropped, and that a round yields one QC. *)
From S2P Require Import Prelude Types ValidatorSet SignatureCollection Certificates Messages.
From S2P Require Import Signing.

Section vote_state.
Context `{Codec, !Duplicates PT, !U256Ops}.

Record RoundVoteState := {
  rvs_pending_votes : gmap Vote (gmap PT CST);
  node_votes : gmap PT (list CST);
  invalid_voters : gset PT;
}.

Record VoteState := {
  vs_pending_votes : gmap Round RoundVoteState;
  vs_earliest_round : Round;
}.

Definition RoundVoteState_default : RoundVoteState :=
  {| rvs_pending_votes := ∅; node_votes := ∅; invalid_voters := ∅ |}.

Definition VoteState_new (round : Round) : VoteState :=
  {| vs_earliest_round := round; vs_pending_votes := ∅ |}.

(** [HashSet::insert], on a set listed without repetition. *)
Definition hash_set_insert (s : CST) (l : list CST) : list CST :=
  if decide (s ∈ l) then l else s :: l.

(** [handle_invalid_vote]: the updated entry and voters.  Its commands are the
    empty type's, so there is never one. *)
Definition handle_invalid_vote (pending_entry : gmap PT CST) (invalid : gset PT)
    (invalid_votes : list (PT * CST)) : gmap PT CST * gset PT :=
  let invalid := foldl (λ acc p, {[p.1]} ∪ acc) invalid invalid_votes in
  (filter (λ p, p.1 ∉ invalid) pending_entry, invalid).

(** The [while] of [process_vote] (and of [process_no_endorsement]) for the
    message [msg] of domain [sd]: aggregate while there is a super majority.
    Running out of fuel reads as a panic; the number of pending entries plus
    one is enough. *)
Fixpoint collect_loop (fuel : nat) (sd : SigningDomain) (msg : bytes)
    (validators : ValidatorSet PT) (validator_mapping : gmap PT CPK)
    (pending : gmap PT CST) (invalid : gset PT) :
    run (option SCT * gmap PT CST * gset PT) :=
  match fuel with
  | 0 => Panic
  | S fuel =>
      match has_super_majority_votes validators (btree_keys pending) with
      | Ret (Ok false) => Ret (None, pending, invalid)
      | Ret (Ok true) =>
          match sc_new sd (btree_iter pending) validator_mapping msg with
          | Ok sigcol => Ret (Some sigcol, pending, invalid)
          | Err (InvalidSignaturesCreate invalid_sigs) =>
              let '(pending, invalid) := handle_invalid_vote pending invalid invalid_sigs in
              collect_loop fuel sd msg validators validator_mapping pending invalid
          | Err _ => Panic
          end
      | _ => Panic
      end
  end.

Definition process_vote (self : VoteState) (author : PT) (vote_msg : VoteMessage)
    (validators : ValidatorSet PT) (validator_mapping : gmap PT CPK) :
    run (option QuorumCertificate * VoteState) :=
  let vote := vm_vote vote_msg in
  let round := v_round vote in
  if decide (round < vs_earliest_round self)%N then Ret (None, self)
  else
    let round_state := default RoundVoteState_default (vs_pending_votes self !! round) in
    let nodes :=
      <[author := hash_set_insert (vm_sig vote_msg) (default [] (node_votes round_state !! author))]>
        (node_votes round_state) in
    let round_pending_votes := default ∅ (rvs_pending_votes round_state !! vote) in
    if decide (author ∈ invalid_voters round_state) then
      Ret (None,
           {| vs_pending_votes :=
                <[round := {| rvs_pending_votes :=
                                <[vote := round_pending_votes]> (rvs_pending_votes round_state);
                              node_votes := nodes;
                              invalid_voters := invalid_voters round_state |}]>
                  (vs_pending_votes self);
              vs_earliest_round := vs_earliest_round self |})
    else
      let round_pending_votes := <[author := vm_sig vote_msg]> round_pending_votes in
      '(sigcol, round_pending_votes, invalid) ←
        collect_loop (S (size round_pending_votes)) VoteDomain (encode_vote vote)
          validators validator_mapping round_pending_votes (invalid_voters round_state);
      let pending :=
        <[round := {| rvs_pending_votes :=
                        <[vote := round_pending_votes]> (rvs_pending_votes round_state);
                      node_votes := nodes; invalid_voters := invalid |}]>
          (vs_pending_votes self) in
      match sigcol with
      | Some sigcol =>
          next ← Round_add round 1;
          Ret (Some {| qc_info := vote; qc_signatures := sigcol |},
               {| vs_pending_votes := pending; vs_earliest_round := next |})
      | None => Ret (None, {| vs_pending_votes := pending;
                              vs_earliest_round := vs_earliest_round self |})
      end.

Definition vote_start_new_round (self : VoteState) (new_round : Round) : VoteState :=
  {| vs_earliest_round := new_round;
     vs_pending_votes := filter (λ p, new_round ≤ p.1)%N (vs_pending_votes self) |}.

(** ** Lemmas *)

Lemma elem_of_foldl_insert (l : list (PT * CST)) (s : gset PT) x :
  x ∈ foldl (λ acc p, {[p.1]} ∪ acc) s l ↔ x ∈ s ∨ x ∈ l.*1.
Proof.
  revert s. induction l as [|p l IH]; intros s; cbn [foldl fmap list_fmap].
  { rewrite elem_of_nil. tauto. }
  rewrite IH, elem_of_union, elem_of_singleton, elem_of_cons. tauto.
Qed.

Lemma handle_invalid_vote_spec pending invalid l pending' invalid' :
  handle_invalid_vote pending invalid l = (pending', invalid') →
  (∀ x, x ∈ invalid' ↔ x ∈ invalid ∨ x ∈ l.*1) ∧
  (∀ x s, pending' !! x = Some s ↔ pending !! x = Some s ∧ x ∉ invalid').
Proof.
  intros [= <- <-]. split.
  - intros x. apply elem_of_foldl_insert.
  - intros x s. by rewrite map_lookup_filter_Some.
Qed.

(** Dropping the reported signatures shrinks the pending entries. *)
Lemma handle_invalid_vote_smaller sd msg vm pending invalid l pending' invalid' :
  new_error_ok sd (btree_iter pending) vm msg (InvalidSignaturesCreate l) →
  handle_invalid_vote pending invalid l = (pending', invalid') → size pending' < size pending.
Proof.
  intros (Hne & Hsub & _) Hh. apply handle_invalid_vote_spec in Hh as [Hinv Hp].
  destruct l as [|[x s] l]; [done|].
  assert (pending !! x = Some s) as Hx by (apply elem_of_btree_iter, Hsub; left).
  assert (pending' ⊆ delete x pending) as Hsub'.
  { apply map_subseteq_spec. intros y t [Hy Hn]%Hp. rewrite lookup_delete_ne; [done|].
    intros ->. apply Hn, Hinv. right. left. }
  apply map_subseteq_size in Hsub'. rewrite map_size_delete_Some in Hsub' by eauto.
  assert (size pending ≠ 0); [|lia]. intros ->%map_size_empty_inv. by rewrite lookup_empty in Hx.
Qed.

Section loop.
Context (sd : SigningDomain) (msg : bytes) (validators : ValidatorSet PT) (vm : gmap PT CPK).
Hypothesis Hwf : wf_validator_set validators.
Hypothesis Hmax : (total_stake validators * 2 ≤ u256_MAX)%N.

(** Every pending author has a certificate key. *)
Definition authors_known (pending : gmap PT CST) : Prop :=
  ∀ x, is_Some (pending !! x) → is_Some (vm !! x).

(** What the loop leaves: fewer entries, only newly reported senders gone, and
    either an aggregate of the remaining entries or no super majority. *)
Definition collected (pending : gmap PT CST) (invalid : gset PT)
    (out : option SCT * gmap PT CST * gset PT) : Prop :=
  let '(sigcol, pending', invalid') := out in
  pending' ⊆ pending ∧ invalid ⊆ invalid' ∧
  (∀ x s, pending !! x = Some s → pending' !! x = Some s ∨ x ∈ invalid') ∧
  (∀ x s kp, pending !! x = Some s → x ∉ invalid → vm !! x = Some (pubkey kp) →
     s = sign sd msg kp → pending' !! x = Some s ∧ x ∉ invalid') ∧
  match sigcol with
  | Some sc => sc_new sd (btree_iter pending') vm msg = Ok sc ∧
               quorum validators (btree_keys pending')
  | None => ¬ quorum validators (btree_keys pending')
  end.

Lemma collect_loop_spec fuel pending invalid :
  authors_known pending → size pending < fuel →
  ∃ out, collect_loop fuel sd msg validators vm pending invalid = Ret out ∧
         collected pending invalid out.
Proof using Hwf Hmax.
  revert pending invalid. induction fuel as [|fuel IH]; intros pending invalid Hk Hf; [lia|].
  cbn [collect_loop].
  pose proof (has_super_majority_votes_spec validators (btree_keys pending) Hwf Hmax
    (NoDup_btree_keys pending)) as Hsm.
  rewrite Hsm. case_bool_decide as Hq.
  2: { eexists. split; [done|]. cbn. split_and!; [done|done|by auto|done|].
       unfold quorum. rewrite Hsm. naive_solver. }
  destruct (sc_new sd (btree_iter pending) vm msg) as [sc|e] eqn:Hnew.
  { eexists. split; [done|]. cbn. split_and!; [done|done|by auto|done|done|].
    unfold quorum. by rewrite Hsm. }
  pose proof (sc_new_error _ _ _ _ _ Hnew) as He. destruct e as [l|x s1 s2|l| |]; cbn in He; try done.
  - destruct He as ([x s] & Hx%elem_of_btree_iter & Hnone). cbn in Hnone.
    destruct (Hk x) as [k Hkx]; [by exists s|]. congruence.
  - destruct He as (H1'%elem_of_btree_iter & H2'%elem_of_btree_iter & Hne). congruence.
  - destruct (handle_invalid_vote pending invalid l) as [pending' invalid'] eqn:Hh.
    pose proof (handle_invalid_vote_smaller sd msg vm _ _ _ _ _ He Hh) as Hsz.
    pose proof (handle_invalid_vote_spec _ _ _ _ _ Hh) as [Hinv Hp].
    assert (pending' ⊆ pending) as Hsub.
    { apply map_subseteq_spec. by intros x s [? _]%Hp. }
    destruct (IH pending' invalid') as ([[sc p2] i2] & Hrun & Hs2 & Hi2 & Hkeep & Hhon & Hout).
    { intros x [s Hs]. apply Hk. exists s. by apply Hp. }
    { lia. }
    eexists. split; [exact Hrun|]. cbn. split_and!; [by etrans| | | |done].
    + etrans; [|done]. intros x Hx. apply Hinv. by left.
    + intros x s Hx. destruct (decide (x ∈ invalid')) as [|Hn]; [by auto|].
      apply Hkeep, Hp. done.
    + intros x s kp Hx Hn Hkp Hsign. apply (Hhon x s kp); [| |done..].
      * apply Hp. split; [done|]. intros [?|Hin]%Hinv; [done|].
        apply list_elem_of_fmap in Hin as ([y t] & -> & Hin). destruct He as (_ & Hsl & Hbad).
        apply Hsl in Hin as Hin'. apply elem_of_btree_iter in Hin'. cbn in *.
        eapply Hbad; [exact Hin|exact Hkp|]. congruence.
      * intros [?|Hin]%Hinv; [done|].
        apply list_elem_of_fmap in Hin as ([y t] & -> & Hin). destruct He as (_ & Hsl & Hbad).
        apply Hsl in Hin as Hin'. apply elem_of_btree_iter in Hin'. cbn in *.
        eapply Hbad; [exact Hin|exact Hkp|]. congruence.
Qed.

(** A super majority of genuine signatures is enough. *)
Lemma collected_honest pending invalid sigcol pending' invalid' (honest : list (PT * CKP)) :
  collected pending invalid (sigcol, pending', invalid') →
  NoDup honest.*1 →
  (∀ x kp, (x, kp) ∈ honest →
     pending !! x = Some (sign sd msg kp) ∧ (x ∉ invalid) ∧ vm !! x = Some (pubkey kp)) →
  quorum validators honest.*1 → is_Some sigcol.
Proof using Hwf Hmax.
  intros (_ & _ & _ & Hhon & Hout) Hnd Hh Hq. destruct sigcol; [by eexists|]. exfalso. apply Hout.
  unfold quorum in *. apply has_super_majority_votes_true in Hq as [_ Hq]; [|done|done].
  apply has_super_majority_votes_true; [done|done|]. split; [apply NoDup_btree_keys|].
  etrans; [exact Hq|]. apply stake_of_all_In; [done| |apply NoDup_btree_keys].
  intros x ([y kp] & -> & Hin)%list_elem_of_fmap _. destruct (Hh _ _ Hin) as (Hp & Hn & Hk).
  apply elem_of_btree_keys. destruct (Hhon _ _ kp Hp Hn Hk eq_refl) as [? _]. by eexists.
Qed.
End loop.

(** ** Invariant of the vote state *)

(** In a round, every pending author has a key and is not blamed. *)
Definition vote_state_ok (vm : Round → gmap PT CPK) (self : VoteState) : Prop :=
  ∀ r rs, vs_pending_votes self !! r = Some rs →
  ∀ v p, rvs_pending_votes rs !! v = Some p → v_round v = r ∧ authors_known (vm r) p.

Lemma vote_state_ok_new vm r : vote_state_ok vm (VoteState_new r).
Proof. intros r' rs. cbn. by rewrite lookup_empty. Qed.

Lemma vote_state_ok_start vm self r :
  vote_state_ok vm self → vote_state_ok vm (vote_start_new_round self r).
Proof. intros Hok r' rs [Hl _]%map_lookup_filter_Some. by eapply Hok. Qed.

(** The state of a round and the entry of a vote, before the call. *)
Definition round_state_of (self : VoteState) (r : Round) : RoundVoteState :=
  default RoundVoteState_default (vs_pending_votes self !! r).

Definition entry_of (self : VoteState) (v : Vote) : gmap PT CST :=
  default ∅ (rvs_pending_votes (round_state_of self (v_round v)) !! v).

Lemma entry_of_known vm self v :
  vote_state_ok vm self → authors_known (vm (v_round v)) (entry_of self v).
Proof.
  intros Hok x. unfold entry_of, round_state_of.
  destruct (vs_pending_votes self !! v_round v) as [rs|] eqn:Hr; cbn;
    [|rewrite lookup_empty; cbn; rewrite lookup_empty; by intros []].
  destruct (rvs_pending_votes rs !! v) as [p|] eqn:Hp; cbn; [|rewrite lookup_empty; by intros []].
  by apply (Hok _ _ Hr _ _ Hp).
Qed.

(** The pending entry the call aggregates. *)
Definition entry_after (self : VoteState) (author : PT) (m : VoteMessage) : gmap PT CST :=
  <[author := vm_sig m]> (entry_of self (vm_vote m)).

Lemma vote_state_ok_update vm self v p nodes inv earliest :
  vote_state_ok vm self → authors_known (vm (v_round v)) p →
  vote_state_ok vm
    {| vs_pending_votes :=
         <[v_round v := {| rvs_pending_votes :=
                             <[v := p]> (rvs_pending_votes (round_state_of self (v_round v)));
                           node_votes := nodes; invalid_voters := inv |}]> (vs_pending_votes self);
       vs_earliest_round := earliest |}.
Proof.
  intros Hok Hp r rs. cbn. rewrite lookup_insert. case_decide as Hr; [|by apply Hok].
  intros [= <-] v' p'. cbn. rewrite lookup_insert. case_decide as Hv.
  - intros [= <-]. subst. done.
  - unfold round_state_of. destruct (vs_pending_votes self !! v_round v) as [rs|] eqn:Hrs; cbn.
    + intros Hl. rewrite <- Hr. by eapply Hok.
    + by rewrite lookup_empty.
Qed.

(** Everything a call does, on every branch. *)
Lemma process_vote_spec vm self author m validators :
  wf_validator_set validators → (total_stake validators * 2 ≤ u256_MAX)%N →
  vote_state_ok vm self → is_Some (vm (v_round (vm_vote m)) !! author) →
  (v_round (vm_vote m) < u64_MAX)%N →
  ∃ qc self', process_vote self author m validators (vm (v_round (vm_vote m))) = Ret (qc, self') ∧
    vote_state_ok vm self' ∧
    ((v_round (vm_vote m) < vs_earliest_round self)%N ∧ qc = None ∧ self' = self ∨
     (vs_earliest_round self ≤ v_round (vm_vote m))%N ∧
     author ∈ invalid_voters (round_state_of self (v_round (vm_vote m))) ∧ qc = None ∧
       vs_earliest_round self' = vs_earliest_round self ∨
     (vs_earliest_round self ≤ v_round (vm_vote m))%N ∧
     (author ∉ invalid_voters (round_state_of self (v_round (vm_vote m)))) ∧
     ∃ sigcol p inv,
       collected VoteDomain (encode_vote (vm_vote m)) validators (vm (v_round (vm_vote m)))
         (entry_after self author m) (invalid_voters (round_state_of self (v_round (vm_vote m))))
         (sigcol, p, inv) ∧
       qc = (λ sc, {| qc_info := vm_vote m; qc_signatures := sc |}) <$> sigcol ∧
       vs_earliest_round self' =
         match sigcol with Some _ => v_round (vm_vote m) + 1 | None => vs_earliest_round self end%N).
Proof.
  intros Hwf Hmax Hok Hauth Hr. unfold process_vote. case_decide as Hlt.
  { eexists None, self. split_and!; [done|done|]. by left. }
  fold (round_state_of self (v_round (vm_vote m))). fold (entry_of self (vm_vote m)).
  case_decide as Hinv.
  { eexists None, _. split; [done|]. split; [|right; left; split_and!; (done || lia)].
    apply vote_state_ok_update; [done|by apply entry_of_known]. }
  fold (entry_after self author m).
  assert (authors_known (vm (v_round (vm_vote m))) (entry_after self author m)) as Hk.
  { intros x. unfold entry_after. rewrite lookup_insert. case_decide; [by subst|].
    by apply entry_of_known. }
  destruct (collect_loop_spec VoteDomain (encode_vote (vm_vote m)) validators
    (vm (v_round (vm_vote m))) Hwf Hmax (S (size (entry_after self author m)))
    (entry_after self author m) (invalid_voters (round_state_of self (v_round (vm_vote m)))) Hk)
    as ([[sigcol p] inv] & Hrun & Hc); [lia|].
  rewrite Hrun. cbn [mbind run_bind].
  assert (authors_known (vm (v_round (vm_vote m))) p) as Hkp.
  { destruct Hc as (Hsub & _). intros x [s Hs]. apply Hk. exists s. by eapply lookup_weaken. }
  destruct sigcol as [sc|].
  - rewrite Round_add_ok by lia. cbn [mbind run_bind]. eexists _, _. split; [done|].
    split; [by apply vote_state_ok_update|]. right. right. split_and!; [lia|done|].
    by exists (Some sc), p, inv.
  - eexists _, _. split; [done|]. split; [by apply vote_state_ok_update|]. right. right.
    split_and!; [lia|done|]. by exists None, p, inv.
Qed.

(** A quorum depends only on who is in it. *)
Lemma quorum_same (vs : ValidatorSet PT) l1 l2 :
  wf_validator_set vs → (total_stake vs * 2 ≤ u256_MAX)%N →
  NoDup l1 → NoDup l2 → (∀ x, x ∈ l1 ↔ x ∈ l2) → quorum vs l1 → quorum vs l2.
Proof.
  intros Hwf Hmax Hn1 Hn2 Heq. unfold quorum.
  rewrite !has_super_majority_votes_true by done. intros [_ Hs]. split; [done|].
  by rewrite <- (NoDup_Permutation l1 l2 Hn1 Hn2 Heq).
Qed.

(** The aggregate of a collected quorum verifies to a quorum of its senders. *)
Lemma collected_certified sd msg vs vm pending invalid sc pending' invalid' :
  wf_validator_set vs → (total_stake vs * 2 ≤ u256_MAX)%N → mapping_injective vm →
  collected sd msg vs vm pending invalid (Some sc, pending', invalid') →
  ∃ ids, sc_verify sd sc vm msg = Ok ids ∧ quorum vs ids ∧ ∀ x, x ∈ ids → is_Some (pending !! x).
Proof.
  intros Hwf Hmax Hinj (Hsub & _ & _ & _ & Hnew & Hq).
  destruct (sc_new_verify _ _ _ _ _ Hinj Hnew) as (ids & Hv & Hids).
  assert (∀ x, x ∈ btree_keys pending' ↔ x ∈ ids) as Hsame by (intros x; by rewrite Hids).
  exists ids. split_and!; [done| |].
  - apply (quorum_same vs (btree_keys pending')); [done|done|apply NoDup_btree_keys| |exact Hsame|done].
    by eapply sc_verify_ids.
  - intros x Hx%Hsame%elem_of_btree_keys. destruct Hx as [s Hs]. exists s. by eapply lookup_weaken.
Qed.

Lemma process_vote_round self author m validators vm qc self' :
  process_vote self author m validators vm = Ret (qc, self') →
  match qc with
  | Some qc => qc_info qc = vm_vote m ∧ (vs_earliest_round self ≤ qc_get_round qc)%N ∧
               vs_earliest_round self' = (qc_get_round qc + 1)%N
  | None => vs_earliest_round self' = vs_earliest_round self
  end.
Proof.
  unfold process_vote. case_decide as Hlt; [by intros [= <- <-]|].
  case_decide; [by intros [= <- <-]|]. rewrite run_bind_Ret.
  intros ([[sigcol p] inv] & _ & Hrun). destruct sigcol as [sc|].
  - apply run_bind_Ret in Hrun as (next & [-> _]%Round_add_Ret & [= <- <-]). cbn.
    split_and!; [done| |done]. unfold qc_get_round. cbn. lia.
  - by injection Hrun as <- <-.
Qed.

(** ** The calls as a trace

    [start_new_round] is called when the node enters a round, never one before
    [earliest_round]. *)

Inductive vote_trace : VoteState → list QuorumCertificate → VoteState → Prop :=
| vote_trace_nil s : vote_trace s [] s
| vote_trace_vote s author m validators vm qc s1 qcs s2 :
    process_vote s author m validators vm = Ret (qc, s1) →
    vote_trace s1 qcs s2 →
    vote_trace s (match qc with Some qc => qc :: qcs | None => qcs end) s2
| vote_trace_start s r qcs s2 :
    (vs_earliest_round s ≤ r)%N →
    vote_trace (vote_start_new_round s r) qcs s2 →
    vote_trace s qcs s2.

Lemma vote_trace_rounds s qcs s' :
  vote_trace s qcs s' →
  StronglySorted N.lt (qc_get_round <$> qcs) ∧
  Forall (λ r, vs_earliest_round s ≤ r)%N (qc_get_round <$> qcs).
Proof.
  induction 1 as [s|s author m validators vm qc s1 qcs s2 Hp Ht [IHs IHf]|s r qcs s2 Hr Ht [IHs IHf]].
  - split; constructor.
  - apply process_vote_round in Hp. destruct qc as [qc|].
    + destruct Hp as (_ & Hle & He). rewrite He in IHf. cbn. split; constructor; try done.
      * eapply Forall_impl; [exact IHf|]. cbn. lia.
      * eapply Forall_impl; [exact IHf|]. cbn. lia.
    + by rewrite Hp in IHf.
  - split; [done|]. eapply Forall_impl; [exact IHf|]. cbn. lia.
Qed.

(** ** Theorems *)

(** C16: processing a vote never panics and its aggregation loop ends; a QC it
    returns is for the vote's content, is not stale, and carries an aggregate
    that verifies to a super majority of nodes whose votes were received. *)
Theorem vote_state_builds_certified_qc (vm : Round → gmap PT CPK) (self : VoteState) (author : PT)
    (m : VoteMessage) (validators : ValidatorSet PT) :
  wf_validator_set validators → (total_stake validators * 2 ≤ u256_MAX)%N →
  mapping_injective (vm (v_round (vm_vote m))) → vote_state_ok vm self →
  is_Some (vm (v_round (vm_vote m)) !! author) → (v_round (vm_vote m) < u64_MAX)%N →
  ∃ qc self', process_vote self author m validators (vm (v_round (vm_vote m))) = Ret (qc, self') ∧
    vote_state_ok vm self' ∧
    ∀ c, qc = Some c →
      qc_info c = vm_vote m ∧ (vs_earliest_round self ≤ qc_get_round c)%N ∧
      vs_earliest_round self' = (qc_get_round c + 1)%N ∧
      ∃ ids, sc_verify VoteDomain (qc_signatures c) (vm (v_round (vm_vote m)))
               (encode_vote (qc_info c)) = Ok ids ∧
        quorum validators ids ∧ ∀ x, x ∈ ids → is_Some (entry_after self author m !! x).
Proof.
  intros Hwf Hmax Hinj Hok Hauth Hr.
  destruct (process_vote_spec vm self author m validators Hwf Hmax Hok Hauth Hr)
    as (qc & self' & Hrun & Hok' & Hcase).
  exists qc, self'. split_and!; [done|done|]. intros c ->.
  destruct Hcase as [(_ & ? & _)|[(_ & _ & ? & _)|(Hle & _ & sigcol & p & inv & Hc & Hqc & He)]];
    [done..|].
  destruct sigcol as [sc|]; [|done]. injection Hqc as ->. cbn.
  split_and!; [done|done|done|]. by eapply collected_certified.
Qed.

(** C36: a super majority of genuine votes is enough, whatever else was received:
    if the pending votes for a content, with the new one, contain genuine
    signatures of nodes that form a super majority and none of them is blamed,
    the call returns a QC for it. *)
Theorem vote_state_honest_quorum (vm : Round → gmap PT CPK) (self : VoteState) (author : PT)
    (m : VoteMessage) (validators : ValidatorSet PT) (honest : list (PT * CKP)) :
  wf_validator_set validators → (total_stake validators * 2 ≤ u256_MAX)%N →
  vote_state_ok vm self → is_Some (vm (v_round (vm_vote m)) !! author) →
  (vs_earliest_round self ≤ v_round (vm_vote m) < u64_MAX)%N →
  author ∈ honest.*1 → NoDup honest.*1 →
  (∀ x kp, (x, kp) ∈ honest →
     entry_after self author m !! x = Some (sign VoteDomain (encode_vote (vm_vote m)) kp) ∧
     (x ∉ invalid_voters (round_state_of self (v_round (vm_vote m)))) ∧
     vm (v_round (vm_vote m)) !! x = Some (pubkey kp)) →
  quorum validators honest.*1 →
  ∃ c self', process_vote self author m validators (vm (v_round (vm_vote m))) = Ret (Some c, self') ∧
    qc_info c = vm_vote m.
Proof.
  intros Hwf Hmax Hok Hauth [Hle Hr] Hin Hnd Hh Hq.
  destruct (process_vote_spec vm self author m validators Hwf Hmax Hok Hauth Hr)
    as (qc & self' & Hrun & _ & Hcase).
  destruct Hcase as [(? & _)|[(_ & Hinv & _)|(_ & _ & sigcol & p & inv & Hc & -> & _)]]; [lia|..].
  - exfalso. apply list_elem_of_fmap in Hin as ([x kp] & -> & Hin).
    by destruct (Hh _ _ Hin) as (_ & Hn & _).
  - destruct (collected_honest _ _ _ _ Hwf Hmax _ _ _ _ _ honest Hc Hnd Hh Hq) as [sc ->].
    cbn in Hrun. eauto.
Qed.

(** At most one QC per round: along any sequence of votes and round starts
    the rounds of the QCs returned strictly increase. *)
Theorem vote_state_one_qc_per_round (s s' : VoteState) (qcs : list QuorumCertificate) :
  vote_trace s qcs s' → StronglySorted N.lt (qc_get_round <$> qcs).
Proof. apply vote_trace_rounds. Qed.
End vote_state.

(** ** A concrete run: three of four validators vote for the same block. *)

#[local] Existing Instance NopProtocol.
#[local] Existing Instance NopCodec.

Definition example_vote_keys : Round → gmap PT CPK :=
  λ _, list_to_map [(1, 1); (2, 2); (3, 3); (4, 4)]%N.

Lemma example_vote_keys_injective r : mapping_injective (example_vote_keys r).
Proof.
  intros a b pk Ha%elem_of_list_to_map_2 Hb%elem_of_list_to_map_2.
  rewrite !elem_of_cons, elem_of_nil in Ha, Hb. naive_solver.
Qed.

Definition example_vote_message (key : CKP) : VoteMessage := VoteMessage_new example_vote key.

Definition node3 : @PT NopProtocol := 3%N.

Definition example_third_vote : VoteMessage := example_vote_message 3%N.

Definition example_honest : list (@PT NopProtocol * @CKP NopProtocol) := [(1, 1); (2, 2); (3, 3)]%N.

(** The state after the votes of the first two validators. *)
Definition example_vote_state : VoteState := {|
  vs_earliest_round := 3;
  vs_pending_votes :=
    {[5%N := {| rvs_pending_votes :=
                  {[example_vote := (list_to_map
                      [(1%N, vm_sig (example_vote_message 1%N));
                       (2%N, vm_sig (example_vote_message 2%N))] : gmap PT CST)]};
                node_votes := ∅; invalid_voters := ∅ |}]};
|}.

Lemma example_vote_state_ok : vote_state_ok example_vote_keys example_vote_state.
Proof.
  intros r rs Hr v p Hp. unfold example_vote_state in Hr. cbn [vs_pending_votes] in Hr.
  apply lookup_singleton_Some in Hr as [<- <-]. cbn [rvs_pending_votes] in Hp.
  apply lookup_singleton_Some in Hp as [<- <-]. split; [reflexivity|].
  intros x [s Hs%elem_of_list_to_map_2]. rewrite !elem_of_cons, elem_of_nil in Hs.
  destruct Hs as [[= -> _]|[[= -> _]|[]]]; eexists; reflexivity.
Qed.

Lemma four_validators_wf : wf_validator_set four_validators.
Proof. exact (create_wf _ _ four_validators_created). Qed.

Lemma vote_state_builds_certified_qc_witness :
  ∃ qc self', process_vote example_vote_state node3 example_third_vote four_validators
                (example_vote_keys 5%N) = Ret (qc, self').
Proof.
  destruct (vote_state_builds_certified_qc example_vote_keys example_vote_state node3
    example_third_vote four_validators) as (qc & self' & Hrun & _).
  - exact four_validators_wf.
  - vm_compute. discriminate.
  - apply example_vote_keys_injective.
  - exact example_vote_state_ok.
  - eexists. reflexivity.
  - reflexivity.
  - exists qc, self'. exact Hrun.
Defined.

Lemma vote_state_honest_quorum_witness :
  ∃ c self', process_vote example_vote_state node3 example_third_vote four_validators
               (example_vote_keys 5%N) = Ret (Some c, self') ∧ qc_info c = example_vote.
Proof.
  apply (vote_state_honest_quorum example_vote_keys example_vote_state node3
    example_third_vote four_validators example_honest).
  - exact four_validators_wf.
  - vm_compute. discriminate.
  - exact example_vote_state_ok.
  - eexists. reflexivity.
  - split; [vm_compute; discriminate|reflexivity].
  - right. right. left.
  - by apply (bool_decide_unpack _).
  - intros x kp. unfold example_honest. rewrite !elem_of_cons, elem_of_nil.
    intros [[= -> ->]|[[= -> ->]|[[= -> ->]|[]]]]; (split; [vm_compute; reflexivity|]);
      (split; [apply not_elem_of_empty|reflexivity]).
  - vm_compute. reflexivity.
Defined.

Lemma vote_state_one_qc_per_round_witness :
  ∃ qc s1, process_vote example_vote_state node3 example_third_vote four_validators
             (example_vote_keys 5%N) = Ret (qc, s1) ∧
    StronglySorted N.lt (qc_get_round <$> match qc with Some c => [c] | None => [] end).
Proof.
  destruct (is_ret_true (process_vote example_vote_state node3 example_third_vote
    four_validators (example_vote_keys 5%N))) as [[qc s1] Hrun].
  { vm_compute. reflexivity. }
  exists qc, s1. split; [exact Hrun|].
  apply (vote_state_one_qc_per_round example_vote_state s1).
  eapply vote_trace_vote; [exact Hrun|apply vote_trace_nil].
Defined.
