(* ===== verification/NoEndorsementState.v ===== *)
(** * Collecting no-endorsements ([src/consensus/src/no_endorsement_state.rs])

    [NoEndorsementState] collects no-endorsement messages by round and QC round
    and builds a no-endorsement certificate (NEC) from a super majority.  The
    theorems show that it never panics (its assertion that a round has no
    certificate yet included), that a certificate it builds is certified by a
    super majority, and that [get_nec] returns exactly the certificate built
    for the round. *)
From S2P Require Import Prelude Types ValidatorSet SignatureCollection Certificates Messages.
From S2P Require Import Signing VoteState.

Section no_endorsement_state.
Context `{Codec, !Duplicates PT, !U256Ops}.

Record RoundNoEndorsementState := {
  qc_round_no_endorsements : gmap Round (gmap PT CST);
  node_no_endorsements : gmap PT (list CST);
  invalid_no_endorsement_senders : gset PT;
  certificate : option NoEndorsementCertificate;
}.

Record NoEndorsementState := {
  pending_no_endorsements : gmap Round RoundNoEndorsementState;
  ne_earliest_round : Round;
}.

Definition RoundNoEndorsementState_default : RoundNoEndorsementState :=
  {| qc_round_no_endorsements := ∅; node_no_endorsements := ∅;
     invalid_no_endorsement_senders := ∅; certificate := None |}.

Definition NoEndorsementState_new (round : Round) : NoEndorsementState :=
  {| ne_earliest_round := round; pending_no_endorsements := ∅ |}.

(** [handle_invalid_no_endorsement] is line for line [handle_invalid_vote], and the
    [while] of [process_no_endorsement] the one of [process_vote]: both are
    [collect_loop], at the domain and content of no-endorsements. *)
Definition process_no_endorsement (self : NoEndorsementState) (author : PT)
    (no_endorsement_msg : NoEndorsementMessage) (validators : ValidatorSet PT)
    (validator_mapping : gmap PT CPK) :
    run (option NoEndorsementCertificate * NoEndorsementState) :=
  let no_endorsement := nem_msg no_endorsement_msg in
  let round := ne_round no_endorsement in
  if decide (round < ne_earliest_round self)%N then Ret (None, self)
  else
    let round_state :=
      default RoundNoEndorsementState_default (pending_no_endorsements self !! round) in
    let nodes :=
      <[author := hash_set_insert (nem_signature no_endorsement_msg)
                    (default [] (node_no_endorsements round_state !! author))]>
        (node_no_endorsements round_state) in
    let pending :=
      default ∅ (qc_round_no_endorsements round_state !! tip_qc_round no_endorsement) in
    if decide (author ∈ invalid_no_endorsement_senders round_state) then
      Ret (None,
           {| pending_no_endorsements :=
                <[round := {| qc_round_no_endorsements :=
                                <[tip_qc_round no_endorsement := pending]>
                                  (qc_round_no_endorsements round_state);
                              node_no_endorsements := nodes;
                              invalid_no_endorsement_senders :=
                                invalid_no_endorsement_senders round_state;
                              certificate := certificate round_state |}]>
                  (pending_no_endorsements self);
              ne_earliest_round := ne_earliest_round self |})
    else
      let pending := <[author := nem_signature no_endorsement_msg]> pending in
      '(sigcol, pending, invalid) ←
        collect_loop (S (size pending)) NoEndorsementDomain (encode_no_endorsement no_endorsement)
          validators validator_mapping pending (invalid_no_endorsement_senders round_state);
      let updated (cert : option NoEndorsementCertificate) :=
        <[round := {| qc_round_no_endorsements :=
                        <[tip_qc_round no_endorsement := pending]>
                          (qc_round_no_endorsements round_state);
                      node_no_endorsements := nodes;
                      invalid_no_endorsement_senders := invalid;
                      certificate := cert |}]> (pending_no_endorsements self) in
      match sigcol with
      | Some sigcol =>
          let nec := {| nec_msg := no_endorsement; nec_signatures := sigcol |} in
          next ← Round_add round 1;
          assert (certificate round_state = None) ≫= λ _,
          Ret (Some nec, {| pending_no_endorsements := updated (Some nec);
                            ne_earliest_round := next |})
      | None => Ret (None, {| pending_no_endorsements := updated (certificate round_state);
                              ne_earliest_round := ne_earliest_round self |})
      end.

Definition ne_start_new_round (self : NoEndorsementState) (new_round : Round) : NoEndorsementState :=
  {| ne_earliest_round := (new_round `max` ne_earliest_round self)%N;
     pending_no_endorsements := filter (λ p, new_round ≤ p.1)%N (pending_no_endorsements self) |}.

Definition get_nec (self : NoEndorsementState) (round : Round) : option NoEndorsementCertificate :=
  pending_no_endorsements self !! round ≫= certificate.

(** ** The invariant *)

(** Pending authors have a key; a stored certificate is for its round, and its
    round is closed. *)
Definition ne_state_ok (vm : Round → gmap PT CPK) (self : NoEndorsementState) : Prop :=
  ∀ r rs, pending_no_endorsements self !! r = Some rs →
    (∀ q p, qc_round_no_endorsements rs !! q = Some p → authors_known (vm r) p) ∧
    (∀ nec, certificate rs = Some nec →
       ne_round (nec_msg nec) = r ∧ (r < ne_earliest_round self)%N).

Lemma ne_state_ok_new vm r : ne_state_ok vm (NoEndorsementState_new r).
Proof. intros r' rs. cbn. by rewrite lookup_empty. Qed.

Lemma ne_state_ok_start vm self r :
  ne_state_ok vm self → ne_state_ok vm (ne_start_new_round self r).
Proof.
  intros Hok r' rs [Hl _]%map_lookup_filter_Some. destruct (Hok _ _ Hl) as [Hk Hc].
  split; [done|]. intros nec [? ?]%Hc. split; [done|]. cbn. lia.
Qed.

Definition ne_round_state_of (self : NoEndorsementState) (r : Round) : RoundNoEndorsementState :=
  default RoundNoEndorsementState_default (pending_no_endorsements self !! r).

Lemma ne_round_state_ok vm self r :
  ne_state_ok vm self →
  (∀ q p, qc_round_no_endorsements (ne_round_state_of self r) !! q = Some p →
     authors_known (vm r) p) ∧
  (∀ nec, certificate (ne_round_state_of self r) = Some nec →
     ne_round (nec_msg nec) = r ∧ (r < ne_earliest_round self)%N).
Proof.
  intros Hok. unfold ne_round_state_of.
  destruct (pending_no_endorsements self !! r) as [rs|] eqn:Hr; cbn; [by apply Hok|].
  split; [|done]. intros q p. by rewrite lookup_empty.
Qed.

(** The pending entry the call aggregates. *)
Definition ne_entry_after (self : NoEndorsementState) (author : PT) (m : NoEndorsementMessage) :
    gmap PT CST :=
  <[author := nem_signature m]>
    (default ∅ (qc_round_no_endorsements (ne_round_state_of self (ne_round (nem_msg m)))
                  !! tip_qc_round (nem_msg m))).

Lemma ne_state_ok_update vm self (n : NoEndorsement) p nodes inv cert earliest :
  ne_state_ok vm self → authors_known (vm (ne_round n)) p →
  (ne_earliest_round self ≤ earliest)%N →
  (∀ nec, cert = Some nec → ne_round (nec_msg nec) = ne_round n ∧ (ne_round n < earliest)%N) →
  ne_state_ok vm
    {| pending_no_endorsements :=
         <[ne_round n :=
             {| qc_round_no_endorsements :=
                  <[tip_qc_round n := p]>
                    (qc_round_no_endorsements (ne_round_state_of self (ne_round n)));
                node_no_endorsements := nodes; invalid_no_endorsement_senders := inv;
                certificate := cert |}]> (pending_no_endorsements self);
       ne_earliest_round := earliest |}.
Proof.
  intros Hok Hp He Hcert r rs. cbn. rewrite lookup_insert. case_decide as Hr.
  - intros [= <-]. subst r. split; [|done]. intros q p'. cbn. rewrite lookup_insert.
    case_decide; [by intros [= <-]|]. apply (ne_round_state_ok _ _ _ Hok).
  - intros [Hk Hc]%Hok. split; [done|]. intros nec [? ?]%Hc. split; [done|]. cbn. lia.
Qed.

Lemma process_no_endorsement_spec vm self author m validators :
  wf_validator_set validators → (total_stake validators * 2 ≤ u256_MAX)%N →
  ne_state_ok vm self → is_Some (vm (ne_round (nem_msg m)) !! author) →
  (ne_round (nem_msg m) < u64_MAX)%N →
  ∃ nec self',
    process_no_endorsement self author m validators (vm (ne_round (nem_msg m))) = Ret (nec, self') ∧
    ne_state_ok vm self' ∧ (ne_earliest_round self ≤ ne_earliest_round self')%N ∧
    match nec with
    | Some c =>
        nec_msg c = nem_msg m ∧ (ne_earliest_round self ≤ ne_round (nem_msg m))%N ∧
        ne_earliest_round self' = (ne_round (nem_msg m) + 1)%N ∧
        get_nec self' (ne_round (nem_msg m)) = Some c ∧
        ∃ p inv, collected NoEndorsementDomain (encode_no_endorsement (nem_msg m)) validators
          (vm (ne_round (nem_msg m))) (ne_entry_after self author m)
          (invalid_no_endorsement_senders (ne_round_state_of self (ne_round (nem_msg m))))
          (Some (nec_signatures c), p, inv)
    | None => ∀ r, get_nec self' r = get_nec self r
    end.
Proof.
  intros Hwf Hmax Hok Hauth Hr. unfold process_no_endorsement. case_decide as Hlt.
  { exists None, self. split_and!; (done || lia). }
  fold (ne_round_state_of self (ne_round (nem_msg m))).
  pose proof (ne_round_state_ok vm self (ne_round (nem_msg m)) Hok) as [Hknown Hcert].
  assert (authors_known (vm (ne_round (nem_msg m)))
    (default ∅ (qc_round_no_endorsements (ne_round_state_of self (ne_round (nem_msg m)))
       !! tip_qc_round (nem_msg m)))) as Hk0.
  { intros x. destruct (_ !! tip_qc_round (nem_msg m)) as [p|] eqn:Hp; cbn; [by apply (Hknown _ _ Hp)|].
    rewrite lookup_empty. by intros []. }
  assert (∀ st, certificate st = certificate (ne_round_state_of self (ne_round (nem_msg m))) →
    ∀ r, (<[ne_round (nem_msg m) := st]> (pending_no_endorsements self) !! r ≫= certificate) =
         get_nec self r) as Hget.
  { intros st Hst r. rewrite lookup_insert. case_decide as Hrr; [|done]. subst r. cbn. rewrite Hst.
    unfold get_nec, ne_round_state_of. by destruct (pending_no_endorsements self !! _). }
  case_decide as Hinv.
  { eexists None, _. split; [done|]. split; [|split; [done|by intros r; apply Hget]].
    apply ne_state_ok_update; [done|done|done|by apply Hcert]. }
  fold (ne_entry_after self author m).
  assert (authors_known (vm (ne_round (nem_msg m))) (ne_entry_after self author m)) as Hk.
  { intros x. unfold ne_entry_after. rewrite lookup_insert. case_decide; [by subst|apply Hk0]. }
  destruct (collect_loop_spec NoEndorsementDomain (encode_no_endorsement (nem_msg m)) validators
    (vm (ne_round (nem_msg m))) Hwf Hmax (S (size (ne_entry_after self author m)))
    (ne_entry_after self author m)
    (invalid_no_endorsement_senders (ne_round_state_of self (ne_round (nem_msg m)))) Hk)
    as ([[sigcol p] inv] & Hrun & Hc); [lia|].
  rewrite Hrun. cbn [mbind run_bind].
  assert (authors_known (vm (ne_round (nem_msg m))) p) as Hkp.
  { destruct Hc as (Hsub & _). intros x [s Hs]. apply Hk. exists s. by eapply lookup_weaken. }
  destruct sigcol as [sc|].
  - rewrite Round_add_ok by lia. cbn [mbind run_bind].
    rewrite assert_true.
    2: { destruct (certificate _) as [nec|]; [|done]. destruct (Hcert nec eq_refl). lia. }
    cbn [mbind run_bind]. eexists (Some _), _. split; [done|].
    split; [|split; [cbn; lia|split_and!; [done|cbn; lia|done|by unfold get_nec; cbn; rewrite lookup_insert_eq|by exists p, inv]]].
    apply ne_state_ok_update; [done|done|lia|]. intros nec [= <-]. cbn. lia.
  - eexists None, _. split; [done|]. split; [|split; [done|by intros r; apply Hget]].
    apply ne_state_ok_update; [done|done|done|by apply Hcert].
Qed.

(** ** The calls as a trace *)

Inductive ne_trace (vm : Round → gmap PT CPK) :
    NoEndorsementState → list NoEndorsementCertificate → NoEndorsementState → Prop :=
| ne_trace_nil s : ne_trace vm s [] s
| ne_trace_message s author m validators nec s1 necs s2 :
    wf_validator_set validators → (total_stake validators * 2 ≤ u256_MAX)%N →
    is_Some (vm (ne_round (nem_msg m)) !! author) → (ne_round (nem_msg m) < u64_MAX)%N →
    process_no_endorsement s author m validators (vm (ne_round (nem_msg m))) = Ret (nec, s1) →
    ne_trace vm s1 necs s2 →
    ne_trace vm s (match nec with Some nec => nec :: necs | None => necs end) s2
| ne_trace_start s r necs s2 :
    ne_trace vm (ne_start_new_round s r) necs s2 → ne_trace vm s necs s2.

Lemma ne_trace_rounds vm s necs s' :
  ne_trace vm s necs s' → ne_state_ok vm s →
  ne_state_ok vm s' ∧ StronglySorted N.lt ((λ c, ne_round (nec_msg c)) <$> necs) ∧
  Forall (λ r, ne_earliest_round s ≤ r)%N ((λ c, ne_round (nec_msg c)) <$> necs).
Proof.
  induction 1 as [s|s author m validators nec s1 necs s2 Hwf Hmax Ha Hr Hp Ht IH|s r necs s2 Ht IH];
    intros Hok.
  - split_and!; [done|constructor|constructor].
  - destruct (process_no_endorsement_spec vm s author m validators Hwf Hmax Hok Ha Hr)
      as (nec' & s1' & Hp' & Hok1 & Hmono & Hn). rewrite Hp in Hp'. injection Hp' as <- <-.
    destruct (IH Hok1) as (Hok2 & Hs & Hf). split; [done|]. destruct nec as [c|].
    + destruct Hn as (Hmsg & Hle & He & _). rewrite He in Hf. cbn. rewrite Hmsg.
      split; constructor; try done; (eapply Forall_impl; [exact Hf|]; cbn; lia).
    + split; [done|]. eapply Forall_impl; [exact Hf|]. cbn. lia.
  - destruct (IH (ne_state_ok_start _ _ r Hok)) as (Hok2 & Hs & Hf). split_and!; [done|done|].
    eapply Forall_impl; [exact Hf|]. cbn. lia.
Qed.

(** ** Theorems *)

(** C37: processing a no-endorsement never panics, in particular the assertion
    that the round has no certificate yet never fails; a certificate it returns
    is for the message's content, carries an aggregate that verifies to a super
    majority of the senders received, and is what [get_nec] returns from then
    on; otherwise [get_nec] is unchanged. *)
Theorem no_endorsement_state_correct (vm : Round → gmap PT CPK) (self : NoEndorsementState)
    (author : PT) (m : NoEndorsementMessage) (validators : ValidatorSet PT) :
  wf_validator_set validators → (total_stake validators * 2 ≤ u256_MAX)%N →
  mapping_injective (vm (ne_round (nem_msg m))) → ne_state_ok vm self →
  is_Some (vm (ne_round (nem_msg m)) !! author) → (ne_round (nem_msg m) < u64_MAX)%N →
  ∃ nec self',
    process_no_endorsement self author m validators (vm (ne_round (nem_msg m))) = Ret (nec, self') ∧
    ne_state_ok vm self' ∧
    match nec with
    | Some c =>
        nec_msg c = nem_msg m ∧ get_nec self' (ne_round (nem_msg m)) = Some c ∧
        ∃ ids, sc_verify NoEndorsementDomain (nec_signatures c) (vm (ne_round (nem_msg m)))
                 (encode_no_endorsement (nec_msg c)) = Ok ids ∧
          quorum validators ids ∧ ∀ x, x ∈ ids → is_Some (ne_entry_after self author m !! x)
    | None => ∀ r, get_nec self' r = get_nec self r
    end.
Proof.
  intros Hwf Hmax Hinj Hok Ha Hr.
  destruct (process_no_endorsement_spec vm self author m validators Hwf Hmax Hok Ha Hr)
    as (nec & self' & Hrun & Hok' & _ & Hn).
  exists nec, self'. split_and!; [done|done|]. destruct nec as [c|]; [|done].
  destruct Hn as (Hmsg & _ & _ & Hget & p & inv & Hc). rewrite Hmsg. split_and!; [done|done|].
  by eapply collected_certified.
Qed.

(** At most one no-endorsement certificate per round: along any sequence of
    messages and round starts, in any order, the rounds of the certificates
    strictly increase. *)
Theorem no_endorsement_one_per_round (vm : Round → gmap PT CPK) (s s' : NoEndorsementState)
    (necs : list NoEndorsementCertificate) :
  ne_state_ok vm s → ne_trace vm s necs s' →
  ne_state_ok vm s' ∧ StronglySorted N.lt ((λ c, ne_round (nec_msg c)) <$> necs).
Proof. intros Hok Ht. by destruct (ne_trace_rounds vm s necs s' Ht Hok) as (? & ? & _). Qed.
End no_endorsement_state.

(** ** A concrete run *)

#[local] Existing Instance NopProtocol.
#[local] Existing Instance NopCodec.

Definition example_ne : NoEndorsement := {| ne_epoch := 1; ne_round := 5; tip_qc_round := 3 |}.

Definition example_ne_message (key : CKP) : NoEndorsementMessage :=
  NoEndorsementMessage_new example_ne key.

(** The state after the messages of the first two validators. *)
Definition example_ne_state : NoEndorsementState := {|
  ne_earliest_round := 3;
  pending_no_endorsements :=
    {[5%N := {| qc_round_no_endorsements :=
                  {[3%N := (list_to_map
                      [(1%N, nem_signature (example_ne_message 1%N));
                       (2%N, nem_signature (example_ne_message 2%N))] : gmap PT CST)]};
                node_no_endorsements := ∅; invalid_no_endorsement_senders := ∅;
                certificate := None |}]};
|}.

Lemma example_ne_state_ok : ne_state_ok example_vote_keys example_ne_state.
Proof.
  intros r rs Hr. unfold example_ne_state in Hr. cbn [pending_no_endorsements] in Hr.
  apply lookup_singleton_Some in Hr as [<- <-]. split; [|discriminate].
  intros q p Hp. cbn [qc_round_no_endorsements] in Hp. apply lookup_singleton_Some in Hp as [<- <-].
  intros x [s Hs%elem_of_list_to_map_2]. rewrite !elem_of_cons, elem_of_nil in Hs.
  destruct Hs as [[= -> _]|[[= -> _]|[]]]; eexists; reflexivity.
Qed.

Definition example_third_ne : NoEndorsementMessage := example_ne_message 3%N.

Lemma no_endorsement_state_correct_witness :
  ∃ nec self', process_no_endorsement example_ne_state node3 example_third_ne four_validators
                 (example_vote_keys 5%N) = Ret (nec, self').
Proof.
  destruct (no_endorsement_state_correct example_vote_keys example_ne_state node3 example_third_ne
    four_validators) as (nec & self' & Hrun & _).
  - exact four_validators_wf.
  - vm_compute. discriminate.
  - apply example_vote_keys_injective.
  - exact example_ne_state_ok.
  - eexists. reflexivity.
  - reflexivity.
  - exists nec, self'. exact Hrun.
Defined.

Lemma no_endorsement_one_per_round_witness :
  ∃ nec s1, process_no_endorsement example_ne_state node3 example_third_ne four_validators
              (example_vote_keys 5%N) = Ret (nec, s1) ∧
    StronglySorted N.lt ((λ c, ne_round (nec_msg c)) <$>
                         match nec with Some c => [c] | None => [] end).
Proof.
  destruct (is_ret_true (process_no_endorsement example_ne_state node3 example_third_ne
    four_validators (example_vote_keys 5%N))) as [[nec s1] Hrun].
  { vm_compute. reflexivity. }
  exists nec, s1. split; [exact Hrun|].
  apply (no_endorsement_one_per_round example_vote_keys example_ne_state s1);
    [exact example_ne_state_ok|].
  eapply ne_trace_message; [exact four_validators_wf| | | |exact Hrun|apply ne_trace_nil].
  - vm_compute. discriminate.
  - eexists. reflexivity.
  - reflexivity.
Defined.
