(* ===== verification/TimeoutAggregation.v ===== *)
(** * From timeouts to a valid TC

    [TimeoutCertificate::new] (modelled in [Certificates]) and [verify_tc]
    (modelled in [Signing]) are used on the two sides of the network: this file
    proves the facts that connect them, which the pacemaker relies on. *)
From S2P Require Import Prelude Types ValidatorSet SignatureCollection Certificates.
From S2P Require Import CertificateCache Signing VoteState.

Lemma Forall_choice {A B} (R : A → B → Prop) l :
  Forall (λ a, ∃ b, R a b) l → ∃ l', Forall2 R l l'.
Proof.
  induction 1 as [|a l [b Hb] Hl [l' IH]]; [by exists []|]. exists (b :: l'). by constructor.
Qed.

Lemma NoDup_concat {A} (ls : list (list A)) :
  Forall NoDup ls →
  (∀ i j a b x, ls !! i = Some a → ls !! j = Some b → x ∈ a → x ∈ b → i = j) →
  NoDup (concat ls).
Proof.
  induction 1 as [|l ls Hl Hls IH]; intros Hdisj; [constructor|]. cbn. apply NoDup_app. split_and!.
  - done.
  - intros x Hx Hc. apply list_elem_of_In, in_concat in Hc as (b & Hb%list_elem_of_In & Hx'%list_elem_of_In).
    apply list_elem_of_lookup in Hb as [j Hj].
    by specialize (Hdisj 0 (S j) l b x eq_refl Hj Hx Hx').
  - apply IH. intros i j a b x Hi Hj Ha Hb.
    specialize (Hdisj (S i) (S j) a b x Hi Hj Ha Hb). lia.
Qed.

Lemma rank_le_antisym a b : rank_le a b → rank_le b a → a = b.
Proof.
  rewrite !rank_le_key. intros [->|Hab] [?|Hba]; [done..|].
  exfalso. eapply key_lt_irrefl, key_lt_trans; eauto.
Qed.

Section aggregation.
Context `{Codec, !HashIter, !Duplicates PT, !U256Ops}.

Lemma HighExtend_from_rank v : HighExtend_rank (HighExtend_from v) = HighExtendVote_rank v.
Proof. by destruct v. Qed.

(** ** Errors of [TimeoutCertificate::new] *)

Lemma tc_aggregate_Err l vm acc e :
  tc_aggregate l vm acc = Err e →
  ∃ ti sigs, (ti, sigs) ∈ l ∧ sc_new TimeoutDomain sigs vm (encode_timeout_info ti) = Err e.
Proof.
  revert acc. induction l as [|[ti sigs] l IH]; intros acc; cbn [tc_aggregate]; [done|].
  destruct (sc_new _ _ _ _) as [sc|e'] eqn:Hsc; cbn.
  - intros (ti' & s' & ? & ?)%IH. exists ti', s'. split; [by right|done].
  - intros [= <-]. exists ti, sigs. split; [left|done].
Qed.

(** The groups of the first loop, from an empty map. *)
Lemma tc_collect_group l h h' groups ti ss :
  tc_collect l h ∅ = (h', groups) → groups !! ti = Some ss →
  ss = (λ p, (p.1, tm_signature p.2)) <$> filter (λ p, tm_info p.2 = ti) l ∧
  ∃ p, p ∈ l ∧ tm_info p.2 = ti.
Proof.
  intros Hc Hti. destruct (tc_collect_sigs _ _ _ _ _ ti Hc) as [Hs Hsome].
  rewrite Hti, lookup_empty in Hs. cbn in Hs. split; [done|].
  destruct (proj1 Hsome ltac:(by eexists)) as [[? He]|?]; [by rewrite lookup_empty in He|done].
Qed.

(** When the senders are distinct and have keys, the only error reports
    signatures among those given that are not genuine. *)
Definition not_genuine (vm : gmap PT CPK) (p : PT * Timeout) : Prop :=
  ∀ kp, vm !! p.1 = Some (pubkey kp) →
    tm_signature p.2 ≠ sign TimeoutDomain (encode_timeout_info (tm_info p.2)) kp.

Lemma TimeoutCertificate_new_Err e r l vm err :
  NoDup l.*1 → (∀ p, p ∈ l → is_Some (vm !! p.1)) →
  TimeoutCertificate_new e r l vm = Ret (Err err) →
  ∃ bad, err = InvalidSignaturesCreate bad ∧ bad ≠ [] ∧
    ∀ q, q ∈ bad → ∃ p, p ∈ l ∧ q.1 = p.1 ∧ not_genuine vm p.
Proof.
  intros Hnd Hk. unfold TimeoutCertificate_new. destruct genesis_qc_Ret as (g & -> & _).
  cbn [mbind run_bind]. destruct (tc_collect l (HeQc g) ∅) as [h groups] eqn:Hc.
  intros [= Hagg]. destruct (tc_aggregate _ _ _) as [trs|e'] eqn:Ha; cbn in Hagg; [done|].
  injection Hagg as ->. apply tc_aggregate_Err in Ha as (ti & ss & Hin & Hnew).
  rewrite hash_iter_perm, elem_of_map_to_list in Hin.
  destruct (tc_collect_group _ _ _ _ _ _ Hc Hin) as [-> _].
  assert (∀ q, q ∈ (λ p, (p.1, tm_signature p.2)) <$> filter (λ p, tm_info p.2 = ti) l →
    ∃ p, p ∈ l ∧ q = (p.1, tm_signature p.2) ∧ tm_info p.2 = ti) as Hof.
  { intros q ([x t] & -> & Hf)%list_elem_of_fmap. apply list_elem_of_filter in Hf as [? ?]. eauto. }
  apply sc_new_error in Hnew. destruct err as [b|x s1 s2|b| |]; cbn in Hnew; try done.
  - destruct Hnew as (q & (p & Hp & -> & _)%Hof & Hnone). destruct (Hk p Hp) as [? ?]. cbn in *. congruence.
  - destruct Hnew as (([x1 t1] & H1' & [= -> ->] & _)%Hof & ([x2 t2] & H2' & [= -> ->] & _)%Hof & Hne).
    exfalso. apply Hne. apply list_elem_of_lookup in H1' as [i Hi], H2' as [j Hj].
    assert (i = j) as ->; [|congruence].
    eapply NoDup_lookup; [exact Hnd|by rewrite list_lookup_fmap, Hi|by rewrite list_lookup_fmap, Hj].
  - destruct Hnew as (Hne & Hsub & Hbad). exists b. split_and!; [done|done|]. intros q Hq.
    destruct (Hof q (Hsub q Hq)) as (p & Hp & -> & <-). exists p. split_and!; [done|done|].
    intros kp Hkp. by eapply Hbad.
Qed.

(** ** The TC is valid *)

Section valid.
Context (etv : EpochToValidators) (e : Epoch) (r : Round) (vs : ValidatorSet PT)
  (vm : gmap PT CPK) (ld : PT) (l : list (PT * Timeout)).
Hypothesis Hetv : etv e r = Ret (Ok (vs, vm, ld)).
Hypothesis Hwf : wf_validator_set vs.
Hypothesis Hmax : (total_stake vs * 2 ≤ u256_MAX)%N.
Hypothesis Hinj : mapping_injective vm.
Hypothesis Hnd : NoDup l.*1.
Hypothesis Hmem : ∀ p, p ∈ l → is_Some (validators vs !! p.1).
Hypothesis Hquorum : quorum vs l.*1.
Hypothesis Hgenesis : ∀ g, genesis_qc = Ret g → valid_qc etv g.

(** What message validation and the round check establish of each timeout. *)
Definition timeout_validated (t : Timeout) : Prop :=
  ti_epoch (tm_info t) = e ∧ ti_round (tm_info t) = r ∧ (ti_high_qc_round (tm_info t) < r)%N ∧
  HighExtendVote_rank (tm_high_extend t) = TimeoutInfo_rank (tm_info t) ∧
  valid_high_extend etv (HighExtend_from (tm_high_extend t)).

Hypothesis Hval : ∀ p, p ∈ l → timeout_validated p.2.

Context (tc : TimeoutCertificate) (groups : list (TimeoutInfo * list (PT * CST))).
Hypothesis Htc : tc_epoch tc = e ∧ tc_round tc = r.
Hypothesis Hkeys : NoDup groups.*1.
Hypothesis Hgroup : ∀ ti ss, (ti, ss) ∈ groups →
  ss = (λ p, (p.1, tm_signature p.2)) <$> filter (λ p, tm_info p.2 = ti) l ∧
  ∃ p, p ∈ l ∧ tm_info p.2 = ti.
Hypothesis Hcover : ∀ p, p ∈ l → ∃ ss, (tm_info p.2, ss) ∈ groups.
Hypothesis Htuples : Forall2 (λ p t,
  ht_qc_round t = ti_high_qc_round p.1 ∧ ht_tip_round t = ti_high_tip_round p.1 ∧
  sc_new TimeoutDomain p.2 vm (encode_timeout_info p.1) = Ok (ht_sigs t)) groups (tc_tip_rounds tc).

(** A tuple stands for the timeout info of its group. *)
Lemma tuple_of_group i ti ss t :
  groups !! i = Some (ti, ss) → tc_tip_rounds tc !! i = Some t →
  tuple_info tc t = ti ∧ tuple_rank t = TimeoutInfo_rank ti ∧
  (ht_qc_round t, ht_tip_round t) = (ti_high_qc_round ti, ti_high_tip_round ti) ∧
  sc_new TimeoutDomain ss vm (encode_timeout_info ti) = Ok (ht_sigs t) ∧ ss ≠ [] ∧
  (ti_high_qc_round ti < r)%N.
Proof using Htc Hgroup Htuples Hval.
  intros Hi Ht. destruct (Forall2_lookup_lr _ _ _ _ _ _ Htuples Hi Ht) as (Hq & Hh & Hsc).
  apply list_elem_of_lookup_2 in Hi as [Hss (p & Hp & Hpi)]%Hgroup.
  destruct (Hval p Hp) as (He & Hr & Hlt & _), Htc as [Hte Htr]. rewrite Hpi in He, Hr, Hlt.
  cbn in *. split_and!; try done.
  - unfold tuple_info. destruct ti; cbn in *. congruence.
  - unfold tuple_rank, TimeoutInfo_rank. by rewrite Hq, Hh.
  - by rewrite Hq, Hh.
  - subst ss. intros Hnil%fmap_nil_inv.
    assert (p ∈ filter (λ p, tm_info p.2 = ti) l) as Hf by by apply list_elem_of_filter.
    rewrite Hnil in Hf. by apply elem_of_nil in Hf.
Qed.

Lemma tuples_length : length (tc_tip_rounds tc) ≤ size (get_members vs).
Proof using Htuples Hkeys Hgroup Hnd Hmem.
  rewrite <- (Forall2_length _ _ _ Htuples). trans (length l).
  - rewrite <- (length_fmap fst groups), <- (length_fmap (λ p, tm_info p.2) l).
    apply submseteq_length, NoDup_submseteq; [done|].
    intros ti ([ti' ss] & -> & Hin)%list_elem_of_fmap.
    apply Hgroup in Hin as (_ & p & Hp & <-). apply list_elem_of_fmap. by exists p.
  - rewrite <- (length_fmap fst l), <- (btree_keys_length (get_members vs)).
    apply submseteq_length, NoDup_submseteq; [done|].
    intros x (p & -> & Hp)%list_elem_of_fmap. apply elem_of_btree_keys. by apply Hmem.
Qed.

(** The signers of each tuple. *)
Lemma tuples_signers :
  ∃ ids, Forall2 (λ t ids, sc_verify TimeoutDomain (ht_sigs t) vm
                    (encode_timeout_info (tuple_info tc t)) = Ok ids) (tc_tip_rounds tc) ids ∧
    (∀ i t s, tc_tip_rounds tc !! i = Some t → ids !! i = Some s →
       ∃ ti ss, groups !! i = Some (ti, ss) ∧ ∀ x, x ∈ s ↔ x ∈ ss.*1).
Proof using Htc Hgroup Htuples Hval Hinj.
  assert (Forall (λ t, ∃ ids, sc_verify TimeoutDomain (ht_sigs t) vm
    (encode_timeout_info (tuple_info tc t)) = Ok ids) (tc_tip_rounds tc)) as Hex.
  { apply Forall_lookup. intros i t Ht.
    destruct (Forall2_lookup_r _ _ _ _ _ Htuples Ht) as ([ti ss] & Hi & _).
    destruct (tuple_of_group i ti ss t Hi Ht) as (-> & _ & _ & Hsc & _).
    destruct (sc_new_verify _ _ _ _ _ Hinj Hsc) as (ids & Hv & _). eauto. }
  apply Forall_choice in Hex as [ids Hids]. exists ids. split; [done|].
  intros i t s Ht Hs. destruct (Forall2_lookup_r _ _ _ _ _ Htuples Ht) as ([ti ss] & Hi & _).
  exists ti, ss. split; [done|].
  destruct (tuple_of_group i ti ss t Hi Ht) as (Hti & _ & _ & Hsc & _).
  pose proof (Forall2_lookup_lr _ _ _ _ _ _ Hids Ht Hs) as Hv. cbn in Hv. rewrite Hti in Hv.
  destruct (sc_new_verify _ _ _ _ _ Hinj Hsc) as (ids' & Hv' & Hin). rewrite Hv in Hv'.
  by injection Hv' as <-.
Qed.

(** Every sender of a group sent a timeout with the group's info... *)
Lemma group_sender x ti ss :
  (ti, ss) ∈ groups → x ∈ ss.*1 ↔ ∃ t, (x, t) ∈ l ∧ tm_info t = ti.
Proof using Hgroup.
  intros [-> _]%Hgroup. split.
  - intros ([y s] & -> & Hy)%list_elem_of_fmap.
    apply list_elem_of_fmap in Hy as ([z t] & [= -> ->] & Hz).
    apply list_elem_of_filter in Hz as [Hti Hz]. cbn in *. eauto.
  - intros (t & Ht & Hti). apply list_elem_of_fmap. exists (x, tm_signature t). split; [done|].
    apply list_elem_of_fmap. exists (x, t). split; [done|]. by apply list_elem_of_filter.
Qed.

(** ...and is in one group only. *)
Lemma group_unique x i j a b :
  groups !! i = Some a → groups !! j = Some b → x ∈ a.2.*1 → x ∈ b.2.*1 → i = j.
Proof using Hgroup Hkeys Hnd.
  destruct a as [ti ss], b as [ti' ss']. intros Hi Hj Hx Hx'.
  pose proof (list_elem_of_lookup_2 _ _ _ Hi) as Hi'. pose proof (list_elem_of_lookup_2 _ _ _ Hj) as Hj'.
  apply (group_sender x _ _ Hi') in Hx as (t1 & Hl1 & Hti1).
  apply (group_sender x _ _ Hj') in Hx' as (t2 & Hl2 & Hti2).
  apply list_elem_of_lookup in Hl1 as [k1 Hk1], Hl2 as [k2 Hk2].
  assert (k1 = k2) as ->.
  { eapply NoDup_lookup; [exact Hnd|by rewrite list_lookup_fmap, Hk1|by rewrite list_lookup_fmap, Hk2]. }
  rewrite Hk1 in Hk2. injection Hk2 as <-. subst ti ti'.
  eapply NoDup_lookup; [exact Hkeys|by rewrite list_lookup_fmap, Hi|by rewrite list_lookup_fmap, Hj].
Qed.

Lemma tuples_distinct : NoDup ((λ t, (ht_qc_round t, ht_tip_round t)) <$> tc_tip_rounds tc).
Proof using Htc Hgroup Htuples Hval Hkeys.
  apply NoDup_alt. intros i j k Hi Hj. rewrite list_lookup_fmap in Hi, Hj.
  apply fmap_Some in Hi as (ti & Hti & ->), Hj as (tj & Htj & Heq).
  destruct (Forall2_lookup_r _ _ _ _ _ Htuples Hti) as ([a ssa] & Hga & _).
  destruct (Forall2_lookup_r _ _ _ _ _ Htuples Htj) as ([b ssb] & Hgb & _).
  destruct (tuple_of_group i a ssa ti Hga Hti) as (Ha & _).
  destruct (tuple_of_group j b ssb tj Hgb Htj) as (Hb & _).
  injection Heq as Hq Hh. unfold tuple_info in Ha, Hb. rewrite Hq, Hh in Ha. subst a b.
  eapply NoDup_lookup; [exact Hkeys|by rewrite list_lookup_fmap, Hga|by rewrite list_lookup_fmap, Hgb].
Qed.

Lemma tuples_valid : ∃ ids, valid_tuples tc vm ids ∧ quorum vs (concat ids).
Proof using All.
  destruct tuples_signers as (ids & Hids & Hsigners). exists ids.
  assert (∀ i s, ids !! i = Some s → ∃ g, groups !! i = Some g ∧ ∀ x, x ∈ s ↔ x ∈ g.2.*1) as Hgr.
  { intros i s Hs. destruct (Forall2_lookup_r _ _ _ _ _ Hids Hs) as (t & Ht & _).
    destruct (Hsigners _ _ _ Ht Hs) as (ti & ss & Hi & Hin). by exists (ti, ss). }
  assert (NoDup (concat ids)) as Hcnd.
  { apply NoDup_concat.
    - apply Forall_lookup. intros i s Hs.
      destruct (Forall2_lookup_r _ _ _ _ _ Hids Hs) as (t & Ht & Hv). by eapply sc_verify_ids.
    - intros i j a b x (ga & Hga & Hina)%Hgr (gb & Hgb & Hinb)%Hgr Hxa%Hina Hxb%Hinb.
      by eapply group_unique. }
  split; [split_and!; [|apply tuples_distinct|done|done]|].
  - apply Forall_lookup. intros i t Ht.
    destruct (Forall2_lookup_r _ _ _ _ _ Htuples Ht) as ([ti ss] & Hi & _).
    destruct (tuple_of_group i ti ss t Hi Ht) as (_ & _ & [= -> _] & Hsc & Hne & Hlt).
    destruct Htc as [_ ->]. split; [done|]. by eapply sc_new_num.
  - apply (quorum_same vs l.*1); [done|done|done|done| |done]. intros x.
    rewrite (list_elem_of_In (concat ids)), in_concat. split.
    + intros Hx. apply list_elem_of_fmap in Hx as ([y t] & -> & Hy).
      destruct (Hcover _ Hy) as [ss Hss]. pose proof Hss as Hss'.
      apply list_elem_of_lookup in Hss as [i Hi].
      destruct (Forall2_lookup_l _ _ _ _ _ Htuples Hi) as (t' & Ht' & _).
      destruct (Forall2_lookup_l _ _ _ _ _ Hids Ht') as (s & Hs & _).
      exists s. split; [by eapply list_elem_of_In, list_elem_of_lookup_2|].
      destruct (Hgr i s Hs) as (g & Hg & Hin). rewrite Hi in Hg. injection Hg as <-.
      apply list_elem_of_In, Hin. apply (group_sender y _ _ Hss'). by exists t.
    + intros (s & Hs%list_elem_of_In & Hx%list_elem_of_In).
      apply list_elem_of_lookup in Hs as [i (g & Hg & Hin)%Hgr]. apply Hin in Hx. destruct g as [ti ss].
      apply list_elem_of_lookup_2 in Hg. apply (group_sender x _ _ Hg) in Hx as (t & Ht & _).
      apply list_elem_of_fmap. by exists (x, t).
Qed.

(** The highest tuple and the highest extension agree. *)
Lemma tuples_rank :
  (HighExtend_rank (tc_high_extend tc) = RankQc GENESIS_ROUND ∨
   ∃ p, p ∈ l ∧ tc_high_extend tc = HighExtend_from (tm_high_extend p.2)) →
  rank_le (RankQc GENESIS_ROUND) (HighExtend_rank (tc_high_extend tc)) →
  (∀ p, p ∈ l → rank_le (HighExtend_rank (HighExtend_from (tm_high_extend p.2)))
                        (HighExtend_rank (tc_high_extend tc))) →
  HighExtend_rank (tc_high_extend tc) = highest_rank (tuple_rank <$> tc_tip_rounds tc).
Proof using Htc Hgroup Htuples Hval Hcover.
  intros Hor Hge Hall.
  destruct (highest_rank_foldl (tuple_rank <$> tc_tip_rounds tc) (RankQc GENESIS_ROUND))
    as (Hle & Hmaxl & Hin).
  fold (highest_rank (tuple_rank <$> tc_tip_rounds tc)) in *.
  apply rank_le_antisym.
  - destruct Hor as [->|(p & Hp & ->)]; [done|]. apply Hmaxl.
    destruct (Hcover p Hp) as [ss Hss]. apply list_elem_of_lookup in Hss as [i Hi].
    destruct (Forall2_lookup_l _ _ _ _ _ Htuples Hi) as (t & Ht & _).
    destruct (tuple_of_group i _ ss t Hi Ht) as (_ & Hr & _).
    apply list_elem_of_fmap. exists t. split; [|by eapply list_elem_of_lookup_2].
    destruct (Hval p Hp) as (_ & _ & _ & Hrank & _). by rewrite HighExtend_from_rank, Hr, Hrank.
  - destruct Hin as [->|Hin]; [done|].
    apply list_elem_of_fmap in Hin as (t & -> & Ht). apply list_elem_of_lookup in Ht as [i Ht].
    destruct (Forall2_lookup_r _ _ _ _ _ Htuples Ht) as ([ti ss] & Hi & _).
    destruct (tuple_of_group i ti ss t Hi Ht) as (_ & -> & _).
    apply list_elem_of_lookup_2 in Hi as (_ & p & Hp & <-)%Hgroup.
    destruct (Hval p Hp) as (_ & _ & _ & <- & _). rewrite <- HighExtend_from_rank. by apply Hall.
Qed.
End valid.

Lemma TimeoutCertificate_new_valid etv e r vs vm ld l tc :
  etv e r = Ret (Ok (vs, vm, ld)) → wf_validator_set vs → (total_stake vs * 2 ≤ u256_MAX)%N →
  mapping_injective vm → NoDup l.*1 → (∀ p, p ∈ l → is_Some (validators vs !! p.1)) →
  quorum vs l.*1 → (∀ g, genesis_qc = Ret g → valid_qc etv g) →
  (∀ p, p ∈ l → timeout_validated etv e r p.2) →
  TimeoutCertificate_new e r l vm = Ret (Ok tc) → valid_tc etv tc.
Proof.
  intros Hetv Hwf Hmax Hinj Hnd Hmem Hq Hgen Hval. unfold TimeoutCertificate_new.
  destruct genesis_qc_Ret as (g & Hg & Hgr). rewrite Hg. cbn [mbind run_bind].
  destruct (tc_collect l (HeQc g) ∅) as [h groups] eqn:Hc. intros [= Hagg].
  apply res_try_Ok in Hagg as (trs & Hagg & [= <-]).
  apply tc_aggregate_Ok in Hagg as (new & -> & Hf). cbn [app] in *.
  pose proof (tc_collect_highest _ _ _ _ _ Hc) as (Hor & Hge & Hall).
  set (tc := {| tc_epoch := e; tc_round := r; tc_tip_rounds := new; tc_high_extend := h |}).
  assert (NoDup (hash_iter groups).*1) as Hkeys.
  { rewrite hash_iter_perm. apply NoDup_fst_map_to_list. }
  assert (∀ ti ss, (ti, ss) ∈ hash_iter groups →
    ss = (λ p, (p.1, tm_signature p.2)) <$> filter (λ p, tm_info p.2 = ti) l ∧
    ∃ p, p ∈ l ∧ tm_info p.2 = ti) as Hgroup.
  { intros ti ss. rewrite hash_iter_perm, elem_of_map_to_list. intros Hl. by eapply tc_collect_group. }
  assert (∀ p, p ∈ l → ∃ ss, (tm_info p.2, ss) ∈ hash_iter groups) as Hcover.
  { intros p Hp. destruct (tc_collect_sigs _ _ _ _ _ (tm_info p.2) Hc) as [_ Hsome].
    destruct (proj2 Hsome ltac:(right; eauto)) as [ss Hss]. exists ss.
    by rewrite hash_iter_perm, elem_of_map_to_list. }
  assert (∃ ids, valid_tuples tc vm ids ∧ quorum vs (concat ids)) as (ids & Hids & Hqi).
  { eapply (tuples_valid etv e r vs vm ld l) with (groups := hash_iter groups); eauto. }
  exists vs, vm, ld. split; [done|].
  split; [by eapply (tuples_length vs vm l); eauto|]. exists ids. split_and!; [done|done| |].
  - destruct Hor as [->|(p & Hp & Hhp)]; [by apply Hgen|]. cbn. rewrite Hhp. by apply Hval.
  - eapply (tuples_rank etv e r vm l Hval tc (hash_iter groups)); try done.
    + destruct Hor as [->|?]; [left; cbn; by rewrite Hgr|by right].
    + cbn in Hge |- *. by rewrite Hgr in Hge.
Qed.
End aggregation.
