(* ===== verification/Pacemaker.v ===== *)
(** * The pacemaker ([src/consensus/src/pacemaker.rs])

    [Pacemaker] tracks the current round: a certificate of the previous round
    starts a round, a local or remote timeout ends it.  It collects the timeouts
    of the round into a TC.  The theorems show that its operations do not panic
    and that the TC loop ends, that rounds never go back, that the timeouts it
    prepares are well formed, that remote timeouts make it time out at most once
    per round, and that a TC it builds passes [verify_tc]. *)
From S2P Require Import Prelude Types ValidatorSet EpochManager LeaderElection.
From S2P Require Import SignatureCollection Certificates Messages CertificateCache Signing.
From S2P Require Import MessageValidation Safety VoteState TimeoutAggregation.

(** ** Durations

    [std::time::Duration] in nanoseconds; [+] and [*] panic on overflow. *)

Abbreviation Duration := N.

Definition Duration_MAX : Duration := (u64_MAX * 1000000000 + 999999999)%N.

Definition Duration_add (a b : Duration) : run Duration :=
  if decide (a + b ≤ Duration_MAX)%N then Ret (a + b)%N else Panic.

Definition Duration_mul (a : Duration) (k : N) : run Duration :=
  if decide (a * k ≤ Duration_MAX)%N then Ret (a * k)%N else Panic.

Inductive PhaseHonest := Zero | One.

#[global] Instance PhaseHonest_eq_dec : EqDecision PhaseHonest.
Proof. solve_decision. Defined.

Section pacemaker.
Context `{Codec, !HashIter, !Duplicates PT, !U256Ops, !LruCache bytes}.

(** [vote_pace] is what the chain configuration says for a round. *)
Record Pacemaker := {
  delta : Duration;
  vote_pace : Round → Duration;
  local_processing : Duration;
  current_epoch : Epoch;
  high_certificate : RoundCertificate;
  pending_timeouts : gmap PT Timeout;
  invalid_timeout_senders : gset PT;
  phase : PhaseHonest;
}.

Inductive PacemakerCommand :=
| EnterRound (epoch : Epoch) (round : Round) (certificate : RoundCertificate)
| PrepareTimeout (tminfo : TimeoutInfo) (high_extend : HighExtend) (safe_to_vote : bool)
    (last_round_certificate : option RoundCertificate)
| Schedule (round : Round) (duration : Duration)
| ScheduleReset.

Definition Pacemaker_new (delta : Duration) (vote_pace : Round → Duration)
    (local_processing : Duration) (epoch_manager : EpochManager)
    (high_certificate : RoundCertificate) : run Pacemaker :=
  current_round ← Round_add (rc_round high_certificate) 1;
  epoch ← expect (EpochManager.get_epoch epoch_manager current_round);
  Ret {| delta := delta; vote_pace := vote_pace; local_processing := local_processing;
         current_epoch := epoch; high_certificate := high_certificate; pending_timeouts := ∅;
         invalid_timeout_senders := ∅; phase := Zero |}.

Definition get_current_round (self : Pacemaker) : run Round :=
  Round_add (rc_round (high_certificate self)) 1.

Definition get_round_timer (self : Pacemaker) (round : Round) : run Duration :=
  a ← Duration_mul (delta self) 3;
  b ← Duration_add a (vote_pace self round);
  Duration_add b (local_processing self).

Definition process_certificate (self : Pacemaker) (epoch_manager : EpochManager) (safety : Safety)
    (certificate : RoundCertificate) : run (list PacemakerCommand * Pacemaker * Safety) :=
  if decide (rc_round certificate ≤ rc_round (high_certificate self))%N then Ret ([], self, safety)
  else
    let safety := safety_process_certificate safety certificate in
    current_round ← Round_add (rc_round certificate) 1;
    epoch ← expect (EpochManager.get_epoch epoch_manager current_round);
    let self :=
      {| delta := delta self; vote_pace := vote_pace self; local_processing := local_processing self;
         current_epoch := epoch; high_certificate := certificate; pending_timeouts := ∅;
         invalid_timeout_senders := ∅; phase := Zero |} in
    duration ← get_round_timer self current_round;
    Ret ([EnterRound epoch current_round certificate; Schedule current_round duration],
         self, safety).

(** The extension a timeout reports. *)
Definition high_extend_of (self : Pacemaker) (safety : Safety) : HighExtend :=
  match maybe_high_tip safety with
  | Some tip => HeTip tip
  | None => HeQc (rc_qc (high_certificate self))
  end.

Definition local_timeout_round (self : Pacemaker) (safety : Safety) :
    run (list PacemakerCommand * Safety) :=
  current_round ← get_current_round self;
  '(safe_to_include_vote, safety) ← timeout safety current_round;
  let high_extend := high_extend_of self safety in
  let '(high_tip_round, high_extend_qc_round) :=
    match high_extend with
    | HeTip tip => (block_round (tip_header tip), qc_get_round (hdr_qc (tip_header tip)))
    | HeQc qc => (GENESIS_ROUND, qc_get_round qc)
    end in
  let tminfo :=
    {| ti_epoch := current_epoch self; ti_round := current_round;
       ti_high_tip_round := high_tip_round; ti_high_qc_round := high_extend_qc_round |} in
  next ← Round_add high_extend_qc_round 1;
  let last_round_rc :=
    if decide (next = current_round) then None else Some (high_certificate self) in
  duration ← get_round_timer self current_round;
  Ret ([ScheduleReset; PrepareTimeout tminfo high_extend safe_to_include_vote last_round_rc;
        Schedule current_round duration], safety).

Definition set_phase (self : Pacemaker) (p : PhaseHonest) : Pacemaker :=
  {| delta := delta self; vote_pace := vote_pace self; local_processing := local_processing self;
     current_epoch := current_epoch self; high_certificate := high_certificate self;
     pending_timeouts := pending_timeouts self;
     invalid_timeout_senders := invalid_timeout_senders self; phase := p |}.

Definition process_local_timeout (self : Pacemaker) (safety : Safety) :
    run (list PacemakerCommand * Pacemaker * Safety) :=
  let self := set_phase self One in
  '(cmds, safety) ← local_timeout_round self safety;
  Ret (cmds, self, safety).

(** [handle_invalid_timeout] as compiled in release, where the [debug_assert_eq]
    on the removed entry is absent. *)
Definition handle_invalid_timeout (self : Pacemaker) (invalid_timeouts : list (PT * CST)) :
    Pacemaker :=
  foldl (λ self p,
           {| delta := delta self; vote_pace := vote_pace self;
              local_processing := local_processing self; current_epoch := current_epoch self;
              high_certificate := high_certificate self;
              pending_timeouts := delete p.1 (pending_timeouts self);
              invalid_timeout_senders := {[p.1]} ∪ invalid_timeout_senders self;
              phase := phase self |}) self invalid_timeouts.

(** The [while] that builds the TC; running out of fuel reads as a panic. *)
Fixpoint build_tc_loop (fuel : nat) (epoch_manager : EpochManager) (validators : ValidatorSet PT)
    (validator_mapping : gmap PT CPK) (tminfo : TimeoutInfo) (self : Pacemaker) (safety : Safety)
    (timeouts : list PT) (cmds : list PacemakerCommand) :
    run (list PacemakerCommand * Pacemaker * Safety) :=
  match fuel with
  | 0 => Panic
  | S fuel =>
      if decide (phase self = One) then
        match has_super_majority_votes validators timeouts with
        | Ret (Ok false) => Ret (cmds, self, safety)
        | Ret (Ok true) =>
            res ← TimeoutCertificate_new (ti_epoch tminfo) (ti_round tminfo)
                    (btree_iter (pending_timeouts self)) validator_mapping;
            match res with
            | Ok tc =>
                '(new, self, safety) ← process_certificate self epoch_manager safety (RcTc tc);
                assert (phase self = Zero) ≫= λ _,
                build_tc_loop fuel epoch_manager validators validator_mapping tminfo self safety
                  timeouts (cmds ++ new)
            | Err (InvalidSignaturesCreate invalid_sigs) =>
                let self := handle_invalid_timeout self invalid_sigs in
                build_tc_loop fuel epoch_manager validators validator_mapping tminfo self safety
                  (btree_keys (pending_timeouts self)) cmds
            | Err _ => Panic
            end
        | _ => Panic
        end
      else Ret (cmds, self, safety)
  end.

Definition insert_timeout (self : Pacemaker) (author : PT) (timeout_msg : Timeout) : Pacemaker :=
  {| delta := delta self; vote_pace := vote_pace self; local_processing := local_processing self;
     current_epoch := current_epoch self; high_certificate := high_certificate self;
     pending_timeouts := <[author := timeout_msg]> (pending_timeouts self);
     invalid_timeout_senders := invalid_timeout_senders self; phase := phase self |}.

(** The [if] on phase zero: f + 1 timeouts make the node time out. *)
Definition try_honest_timeout (self : Pacemaker) (validators : ValidatorSet PT) (safety : Safety)
    (timeouts : list PT) : run (list PacemakerCommand * Pacemaker * Safety) :=
  match phase self with
  | Zero =>
      match has_honest_vote validators timeouts with
      | Ret (Ok true) =>
          '(cmds, safety) ← local_timeout_round self safety;
          Ret (cmds, set_phase self One, safety)
      | Ret (Ok false) => Ret ([], self, safety)
      | _ => Panic
      end
  | One => Ret ([], self, safety)
  end.

Definition process_remote_timeout (self : Pacemaker) (epoch_manager : EpochManager)
    (validators : ValidatorSet PT) (validator_mapping : gmap PT CPK) (safety : Safety)
    (author : PT) (timeout_msg : Timeout) : run (list PacemakerCommand * Pacemaker * Safety) :=
  let tminfo := tm_info timeout_msg in
  current_round ← get_current_round self;
  if decide (ti_round tminfo < current_round)%N then Ret ([], self, safety)
  else
    assert (ti_round tminfo = current_round) ≫= λ _,
    if decide (author ∈ invalid_timeout_senders self) then Ret ([], self, safety)
    else
      let self := insert_timeout self author timeout_msg in
      let timeouts := btree_keys (pending_timeouts self) in
      '(cmds, self, safety) ← try_honest_timeout self validators safety timeouts;
      build_tc_loop (S (S (size (pending_timeouts self)))) epoch_manager validators
        validator_mapping tminfo self safety timeouts cmds.

(** ** Lemmas *)

(** The state after a certificate of a later round. *)
Definition entered (self : Pacemaker) (epoch : Epoch) (rc : RoundCertificate) : Pacemaker :=
  {| delta := delta self; vote_pace := vote_pace self; local_processing := local_processing self;
     current_epoch := epoch; high_certificate := rc; pending_timeouts := ∅;
     invalid_timeout_senders := ∅; phase := Zero |}.

(** The state with other timeouts and blamed senders. *)
Definition with_timeouts (self : Pacemaker) (pending : gmap PT Timeout) (invalid : gset PT) :
    Pacemaker :=
  {| delta := delta self; vote_pace := vote_pace self; local_processing := local_processing self;
     current_epoch := current_epoch self; high_certificate := high_certificate self;
     pending_timeouts := pending; invalid_timeout_senders := invalid; phase := phase self |}.

Lemma with_timeouts_self self :
  with_timeouts self (pending_timeouts self) (invalid_timeout_senders self) = self.
Proof. by destruct self. Qed.

Lemma get_round_timer_ext self self' r :
  delta self = delta self' → vote_pace self = vote_pace self' →
  local_processing self = local_processing self' → get_round_timer self r = get_round_timer self' r.
Proof. unfold get_round_timer. by intros -> -> ->. Qed.

(** Rounds and durations do not overflow, and every round has an epoch. *)
Definition clock_ok (em : EpochManager) (self : Pacemaker) : Prop :=
  (rc_round (high_certificate self) + 2 ≤ u64_MAX)%N ∧
  (∀ r, is_Some (EpochManager.get_epoch em r)) ∧ (∀ r, ∃ d, get_round_timer self r = Ret d).

Lemma current_round_Ret em self :
  clock_ok em self → get_current_round self = Ret (rc_round (high_certificate self) + 1)%N.
Proof. intros [? _]. unfold get_current_round. apply Round_add_ok. lia. Qed.

Lemma process_certificate_spec em self safety rc :
  clock_ok em self → (rc_round rc < u64_MAX)%N →
  (rc_round rc ≤ rc_round (high_certificate self))%N ∧
    process_certificate self em safety rc = Ret ([], self, safety) ∨
  (rc_round (high_certificate self) < rc_round rc)%N ∧
    ∃ e d, EpochManager.get_epoch em (rc_round rc + 1)%N = Some e ∧
      get_round_timer self (rc_round rc + 1)%N = Ret d ∧
      process_certificate self em safety rc =
        Ret ([EnterRound e (rc_round rc + 1)%N rc; Schedule (rc_round rc + 1)%N d],
             entered self e rc, safety_process_certificate safety rc).
Proof.
  intros (_ & He & Hd) Hr. unfold process_certificate. case_decide as Hle; [by left|right].
  split; [lia|]. destruct (He (rc_round rc + 1)%N) as [e Hee], (Hd (rc_round rc + 1)%N) as [d Hdd].
  exists e, d. split_and!; [done|done|]. rewrite Round_add_ok by lia. cbn [mbind run_bind].
  rewrite Hee. cbn [expect mbind run_bind].
  rewrite (get_round_timer_ext _ self), Hdd by done. done.
Qed.

Lemma handle_invalid_timeout_spec self bad :
  ∃ pending invalid, handle_invalid_timeout self bad = with_timeouts self pending invalid ∧
    (∀ x t, pending !! x = Some t ↔ pending_timeouts self !! x = Some t ∧ x ∉ bad.*1) ∧
    (∀ x, x ∈ invalid ↔ x ∈ invalid_timeout_senders self ∨ x ∈ bad.*1).
Proof.
  unfold handle_invalid_timeout. revert self. induction bad as [|[y s] bad IH]; intros self; cbn.
  - exists (pending_timeouts self), (invalid_timeout_senders self).
    rewrite with_timeouts_self. split_and!; [done|..]; intros; rewrite elem_of_nil; naive_solver.
  - destruct (IH {| delta := delta self; vote_pace := vote_pace self;
      local_processing := local_processing self; current_epoch := current_epoch self;
      high_certificate := high_certificate self;
      pending_timeouts := delete y (pending_timeouts self);
      invalid_timeout_senders := {[y]} ∪ invalid_timeout_senders self; phase := phase self |})
      as (p & i & -> & Hp & Hi). exists p, i. split_and!; [done|..].
    + intros x t. rewrite Hp. cbn. rewrite lookup_delete_Some, elem_of_cons. naive_solver.
    + intros x. rewrite Hi. cbn. rewrite elem_of_union, elem_of_singleton, elem_of_cons. tauto.
Qed.

Lemma handle_invalid_timeout_smaller self bad pending invalid :
  handle_invalid_timeout self bad = with_timeouts self pending invalid →
  bad ≠ [] → (∀ q, q ∈ bad → is_Some (pending_timeouts self !! q.1)) →
  pending ⊆ pending_timeouts self ∧ size pending < size (pending_timeouts self).
Proof.
  intros Hh Hne Hin. destruct (handle_invalid_timeout_spec self bad) as (p & i & Hh' & Hp & _).
  rewrite Hh in Hh'. injection Hh' as <- _. destruct bad as [|q bad]; [done|].
  destruct (Hin q) as [t Ht]; [left|].
  assert (pending ⊆ delete q.1 (pending_timeouts self)) as Hsub.
  { apply map_subseteq_spec. intros x t' [Hx Hn]%Hp. rewrite lookup_delete_ne; [done|].
    intros <-. apply Hn. left. }
  split; [etrans; [exact Hsub|apply delete_subseteq]|].
  apply map_subseteq_size in Hsub. rewrite map_size_delete_Some in Hsub by eauto.
  assert (size (pending_timeouts self) ≠ 0); [|lia]. intros Hz%map_size_empty_inv.
  by rewrite Hz, lookup_empty in Ht.
Qed.

Lemma TimeoutCertificate_new_Ret e r l vm :
  ∃ res, TimeoutCertificate_new e r l vm = Ret res ∧
    ∀ tc, res = Ok tc → tc_epoch tc = e ∧ tc_round tc = r.
Proof.
  unfold TimeoutCertificate_new. destruct genesis_qc_Ret as (g & -> & _). cbn [mbind run_bind].
  destruct (tc_collect l (HeQc g) ∅) as [h groups]. eexists. split; [done|].
  intros tc (trs & _ & [= <-])%res_try_Ok. done.
Qed.

Section loop.
Context (em : EpochManager) (validators : ValidatorSet PT) (vm : gmap PT CPK) (tminfo : TimeoutInfo).
Hypothesis Hwf : wf_validator_set validators.
Hypothesis Hmax : (total_stake validators * 2 ≤ u256_MAX)%N.

(** Every sender of a pending timeout has a certificate key. *)
Definition senders_known (pending : gmap PT Timeout) : Prop :=
  ∀ x, is_Some (pending !! x) → is_Some (vm !! x).

(** What the loop does: it drops timeouts that are not genuine, and either
    stops without a super majority or enters the next round with a TC of the
    remaining timeouts. *)
Definition loop_outcome (self : Pacemaker) (safety : Safety) (cmds : list PacemakerCommand)
    (out : list PacemakerCommand * Pacemaker * Safety) : Prop :=
  ∃ pending invalid,
    pending ⊆ pending_timeouts self ∧ invalid_timeout_senders self ⊆ invalid ∧
    (∀ x t, pending_timeouts self !! x = Some t →
       pending !! x = Some t ∨ x ∈ invalid ∧ not_genuine vm (x, t)) ∧
    (¬ (phase self = One ∧ quorum validators (btree_keys pending)) ∧
       out = (cmds, with_timeouts self pending invalid, safety) ∨
     phase self = One ∧ quorum validators (btree_keys pending) ∧
       ∃ tc e d,
         TimeoutCertificate_new (ti_epoch tminfo) (ti_round tminfo) (btree_iter pending) vm =
           Ret (Ok tc) ∧
         EpochManager.get_epoch em (ti_round tminfo + 1)%N = Some e ∧
         out = (cmds ++ [EnterRound e (ti_round tminfo + 1)%N (RcTc tc);
                         Schedule (ti_round tminfo + 1)%N d],
                entered self e (RcTc tc), safety_process_certificate safety (RcTc tc))).

(** A step that drops timeouts, then an outcome of the rest. *)
Lemma loop_outcome_drop self safety cmds out pending invalid :
  pending ⊆ pending_timeouts self → invalid_timeout_senders self ⊆ invalid →
  (∀ x t, pending_timeouts self !! x = Some t →
     pending !! x = Some t ∨ x ∈ invalid ∧ not_genuine vm (x, t)) →
  loop_outcome (with_timeouts self pending invalid) safety cmds out →
  loop_outcome self safety cmds out.
Proof.
  intros Hp Hi Hk (p2 & i2 & Hp2 & Hi2 & Hk2 & Hout). cbn in *. exists p2, i2.
  split_and!; [by etrans|by etrans| |done].
  intros x t [Hx|[Hx Hn]]%Hk; [by apply Hk2|right]. split; [by apply Hi2|done].
Qed.

Lemma build_tc_loop_spec fuel self safety cmds :
  clock_ok em self → ti_round tminfo = (rc_round (high_certificate self) + 1)%N →
  senders_known (pending_timeouts self) → size (pending_timeouts self) + 2 ≤ fuel →
  ∃ out, build_tc_loop fuel em validators vm tminfo self safety
           (btree_keys (pending_timeouts self)) cmds = Ret out ∧
         loop_outcome self safety cmds out.
Proof using Hwf Hmax.
  revert self. induction fuel as [|fuel IH]; intros self Hclk Hr Hk Hf; [lia|]. cbn [build_tc_loop].
  assert (¬ (phase self = One ∧ quorum validators (btree_keys (pending_timeouts self))) →
    loop_outcome self safety cmds (cmds, self, safety)) as Hstop.
  { intros Hn. exists (pending_timeouts self), (invalid_timeout_senders self).
    rewrite with_timeouts_self. split_and!; auto. }
  destruct (decide (phase self = One)) as [Hph|Hph].
  2: { eexists. split; [done|]. apply Hstop. by intros []. }
  pose proof (has_super_majority_votes_spec validators (btree_keys (pending_timeouts self)) Hwf Hmax
    (NoDup_btree_keys _)) as Hsm.
  rewrite Hsm. case_bool_decide as Hq.
  2: { eexists. split; [done|]. apply Hstop. intros [_ Hq']. unfold quorum in Hq'. congruence. }
  destruct (TimeoutCertificate_new_Ret (ti_epoch tminfo) (ti_round tminfo)
    (btree_iter (pending_timeouts self)) vm) as ([tc|err] & Hnew & Htc); rewrite Hnew; cbn [mbind run_bind].
  - destruct (Htc tc eq_refl) as [_ Htr].
    destruct (process_certificate_spec em self safety (RcTc tc) Hclk) as [[Hle _]|Hent];
      [cbn; destruct Hclk; lia|cbn in Hle; lia|].
    destruct Hent as (_ & e & d & He & _ & ->). cbn [mbind run_bind].
    rewrite assert_true by done. cbn [mbind run_bind].
    destruct fuel as [|fuel]; [lia|]. cbn [build_tc_loop]. rewrite decide_False by done.
    eexists. split; [done|]. exists (pending_timeouts self), (invalid_timeout_senders self).
    split_and!; [done|done|by auto|]. right. split_and!; [done|done|]. exists tc, e, d.
    cbn [rc_round] in *. rewrite Htr in *. done.
  - apply TimeoutCertificate_new_Err in Hnew as (bad & -> & Hne & Hbad).
    2: { apply NoDup_btree_keys. }
    2: { intros [x t] Hx%elem_of_btree_iter. apply Hk. by exists t. }
    destruct (handle_invalid_timeout_spec self bad) as (p & i & Hh & Hp & Hi). rewrite Hh.
    destruct (handle_invalid_timeout_smaller self bad p i Hh Hne) as [Hsub Hsz].
    { intros q ([x t] & Hx%elem_of_btree_iter & -> & _)%Hbad. by exists t. }
    destruct (IH (with_timeouts self p i)) as (out & Hrun & Hout).
    { done. } { done. } { intros x [t Ht]. apply Hk. exists t. by eapply lookup_weaken. }
    { cbn. lia. }
    exists out. split; [exact Hrun|]. eapply loop_outcome_drop; [exact Hsub| | |exact Hout].
    + intros x Hx. apply Hi. by left.
    + intros x t Hx. destruct (decide (x ∈ bad.*1)) as [Hb|Hb]; [right|left; by apply Hp].
      split; [apply Hi; by right|]. apply list_elem_of_fmap in Hb as (q & -> & Hq').
      destruct (Hbad q Hq') as ([y t'] & Hy%elem_of_btree_iter & Heq & Hng). cbn in *.
      rewrite Heq in *. by replace t with t' by congruence.
Qed.
End loop.

(** ** Timing out *)

Definition current_round_of (self : Pacemaker) : Round := (rc_round (high_certificate self) + 1)%N.

(** What a timeout for extension [he] says. *)
Definition timeout_info_of (self : Pacemaker) (he : HighExtend) : TimeoutInfo :=
  {| ti_epoch := current_epoch self; ti_round := current_round_of self;
     ti_high_tip_round := match he with HeTip tip => block_round (tip_header tip)
                          | HeQc _ => GENESIS_ROUND end;
     ti_high_qc_round := qc_get_round (HighExtend_qc he) |}.

Definition last_certificate_of (self : Pacemaker) (he : HighExtend) : option RoundCertificate :=
  if decide (qc_get_round (HighExtend_qc he) + 1 = current_round_of self)%N then None
  else Some (high_certificate self).

(** The node has not voted in a later round, and the round of the QC it extends
    has a successor. *)
Definition safety_ready (self : Pacemaker) (safety : Safety) : Prop :=
  (highest_vote safety ≤ current_round_of self)%N ∧
  (qc_get_round (HighExtend_qc (high_extend_of self safety)) < u64_MAX)%N.

Lemma local_timeout_round_Ret self safety cmds safety' :
  local_timeout_round self safety = Ret (cmds, safety') →
  maybe_high_tip safety' = maybe_high_tip safety ∧
  let he := high_extend_of self safety in
  ∃ safe d, cmds = [ScheduleReset;
    PrepareTimeout (timeout_info_of self he) he safe (last_certificate_of self he);
    Schedule (current_round_of self) d].
Proof.
  unfold local_timeout_round, get_current_round. rewrite run_bind_Ret. intros (r & Hr & Hrun).
  apply Round_add_Ret in Hr as [-> _]. fold (current_round_of self) in *.
  apply run_bind_Ret in Hrun as ([safe s1] & Ht & Hrun).
  unfold timeout in Ht. apply run_bind_Ret in Ht as (_ & _ & [= _ <-]).
  set (s1 := {| maybe_high_tip := _ |}) in *.
  assert (high_extend_of self s1 = high_extend_of self safety) as Hhe by done.
  rewrite Hhe in Hrun. clear Hhe.
  destruct (high_extend_of self safety) as [tip|qc];
    apply run_bind_Ret in Hrun as (rq & [-> _]%Round_add_Ret & Hrun);
    apply run_bind_Ret in Hrun as (d & Hd & [= <- <-]); (split; [done|]); by exists safe, d.
Qed.

Lemma local_timeout_round_total em self safety :
  clock_ok em self → safety_ready self safety →
  ∃ cmds safety', local_timeout_round self safety = Ret (cmds, safety').
Proof.
  intros Hclk [Hv Hq]. unfold local_timeout_round. rewrite (current_round_Ret em) by done.
  cbn [mbind run_bind]. unfold timeout. rewrite assert_true by done. cbn [mbind run_bind].
  set (s1 := {| maybe_high_tip := _ |}) in *.
  assert (high_extend_of self s1 = high_extend_of self safety) as Hhe by done.
  rewrite Hhe. destruct Hclk as (_ & _ & Hd).
  destruct (Hd (rc_round (high_certificate self) + 1)%N) as [d Hdd].
  destruct (high_extend_of self safety) as [tip|qc]; cbn in Hq; rewrite Round_add_ok by lia;
    cbn [mbind run_bind]; rewrite Hdd; cbn; eauto.
Qed.

(** ** Remote timeouts *)

Lemma try_honest_timeout_Ret self validators safety timeouts cmds self' safety' :
  try_honest_timeout self validators safety timeouts = Ret (cmds, self', safety') →
  cmds = [] ∧ self' = self ∧ safety' = safety ∧
    (phase self = One ∨ has_honest_vote validators timeouts = Ret (Ok false)) ∨
  phase self = Zero ∧ has_honest_vote validators timeouts = Ret (Ok true) ∧
    local_timeout_round self safety = Ret (cmds, safety') ∧ self' = set_phase self One.
Proof.
  unfold try_honest_timeout. destruct (phase self); [|intros [= <- <- <-]; naive_solver].
  destruct (has_honest_vote validators timeouts) as [[[]|]|] eqn:Hh; try done.
  - rewrite run_bind_Ret. intros ([c s] & Hl & [= <- <- <-]). naive_solver.
  - intros [= <- <- <-]. naive_solver.
Qed.

Lemma try_honest_timeout_total em self validators safety timeouts :
  wf_validator_set validators → NoDup timeouts → clock_ok em self → safety_ready self safety →
  ∃ cmds self' safety',
    try_honest_timeout self validators safety timeouts = Ret (cmds, self', safety').
Proof.
  intros Hwf Hnd Hclk Hs. unfold try_honest_timeout. destruct (phase self); [|eauto].
  destruct (has_honest_vote_NoDup validators timeouts Hwf Hnd) as [[] ->]; [|eauto].
  destruct (local_timeout_round_total em self safety Hclk Hs) as (c & s & ->). cbn. eauto.
Qed.

(** The state, commands and safety state the loop starts from. *)
Definition loop_start (self : Pacemaker) (validators : ValidatorSet PT) (safety : Safety) (author : PT)
    (m : Timeout) (start : list PacemakerCommand * Pacemaker * Safety) : Prop :=
  let self1 := insert_timeout self author m in
  try_honest_timeout self1 validators safety (btree_keys (pending_timeouts self1)) = Ret start.

Lemma process_remote_timeout_spec em self validators vm safety author m :
  wf_validator_set validators → (total_stake validators * 2 ≤ u256_MAX)%N →
  clock_ok em self → safety_ready self safety →
  senders_known vm (pending_timeouts self) → is_Some (vm !! author) →
  (ti_round (tm_info m) ≤ current_round_of self)%N →
  ∃ out, process_remote_timeout self em validators vm safety author m = Ret out ∧
    ((ti_round (tm_info m) < current_round_of self)%N ∧ out = ([], self, safety) ∨
     ti_round (tm_info m) = current_round_of self ∧ author ∈ invalid_timeout_senders self ∧
       out = ([], self, safety) ∨
     ti_round (tm_info m) = current_round_of self ∧ (author ∉ invalid_timeout_senders self) ∧
       ∃ cmds1 self1 safety1,
         loop_start self validators safety author m (cmds1, self1, safety1) ∧
         loop_outcome em validators vm (tm_info m) self1 safety1 cmds1 out).
Proof.
  intros Hwf Hmax Hclk Hs Hk Ha Hle. unfold process_remote_timeout.
  rewrite (current_round_Ret em) by done. cbn [mbind run_bind]. fold (current_round_of self).
  case_decide as Hlt; [eexists; split; [done|]; by left|].
  assert (ti_round (tm_info m) = current_round_of self) as Heq by lia.
  rewrite assert_true by done. cbn [mbind run_bind].
  case_decide as Hin; [eexists; split; [done|]; right; by left|].
  destruct (try_honest_timeout_total em (insert_timeout self author m) validators safety
    (btree_keys (pending_timeouts (insert_timeout self author m)))) as (c1 & s1 & sf1 & Hst);
    [done|apply NoDup_btree_keys|done|done|].
  pose proof (try_honest_timeout_Ret _ _ _ _ _ _ _ Hst) as Hcase.
  assert (pending_timeouts s1 = <[author := m]> (pending_timeouts self) ∧ clock_ok em s1 ∧
          high_certificate s1 = high_certificate self) as (Hp1 & Hclk1 & Hhc1).
  { destruct Hcase as [(_ & -> & _)|(_ & _ & _ & ->)]; done. }
  destruct (build_tc_loop_spec em validators vm (tm_info m) Hwf Hmax
    (S (S (size (pending_timeouts s1)))) s1 sf1 c1) as (out & Hrun & Hout).
  { done. } { by rewrite Hhc1. }
  { intros x. rewrite Hp1, lookup_insert_is_Some. intros [<-|[_ ?]]; [done|by apply Hk]. }
  { lia. }
  exists out. split.
  - rewrite Hst. cbn [mbind run_bind]. cbn [insert_timeout pending_timeouts]. by rewrite <- Hp1.
  - right. right. split_and!; [done|done|]. exists c1, s1, sf1. done.
Qed.

Lemma loop_start_fields self validators safety author m cmds1 self1 safety1 :
  loop_start self validators safety author m (cmds1, self1, safety1) →
  pending_timeouts self1 = <[author := m]> (pending_timeouts self) ∧
  high_certificate self1 = high_certificate self ∧
  current_epoch self1 = current_epoch self ∧
  invalid_timeout_senders self1 = invalid_timeout_senders self ∧
  (∀ e r rc, EnterRound e r rc ∉ cmds1).
Proof.
  intros [(-> & -> & _)|(_ & _ & Hl & ->)]%try_honest_timeout_Ret; cbn.
  - split_and!; try done. intros ???. apply not_elem_of_nil.
  - split_and!; try done. apply local_timeout_round_Ret in Hl as (_ & safe & d & ->).
    intros e r rc. rewrite !elem_of_cons, elem_of_nil. naive_solver.
Qed.

(** A super majority of genuine timeouts survives the loop. *)
Lemma genuine_quorum validators vm (all pending : gmap PT Timeout) invalid (honest : list (PT * CKP)) :
  wf_validator_set validators → (total_stake validators * 2 ≤ u256_MAX)%N →
  (∀ x t, all !! x = Some t → pending !! x = Some t ∨ x ∈ (invalid : gset PT) ∧ not_genuine vm (x, t)) →
  (∀ x kp, (x, kp) ∈ honest → vm !! x = Some (pubkey kp) ∧
     ∃ t, all !! x = Some t ∧
          tm_signature t = sign TimeoutDomain (encode_timeout_info (tm_info t)) kp) →
  quorum validators honest.*1 → quorum validators (btree_keys pending).
Proof.
  intros Hwf Hmax Hkeep Hh [Hnd Hs]%has_super_majority_votes_true; [|done|done].
  apply has_super_majority_votes_true; [done|done|]. split; [apply NoDup_btree_keys|].
  etrans; [exact Hs|]. apply stake_of_all_In; [done|intros x|apply NoDup_btree_keys].
  intros ([y kp] & -> & Hin)%list_elem_of_fmap _. destruct (Hh _ _ Hin) as (Hk & t & Ht & Hsig).
  apply elem_of_btree_keys. destruct (Hkeep _ _ Ht) as [?|[_ Hng]]; [by eexists|].
  by destruct (Hng kp).
Qed.

(** ** Runs

    Sequences of certificates, local timeouts and remote timeouts, each with any
    validators and any safety state. *)

Definition entered_rounds (cmds : list PacemakerCommand) : list Round :=
  omap (λ c, match c with EnterRound _ r _ => Some r | _ => None end) cmds.

Definition prepared_rounds (cmds : list PacemakerCommand) : list Round :=
  omap (λ c, match c with PrepareTimeout ti _ _ _ => Some (ti_round ti) | _ => None end) cmds.

(** [pm_trace s entered prepared s']: the rounds entered, and the rounds of the
    timeouts prepared because of remote timeouts. *)
Inductive pm_trace : Pacemaker → list Round → list Round → Pacemaker → Prop :=
| pm_done s : pm_trace s [] [] s
| pm_certificate s em safety rc cmds s1 safety1 es ps s2 :
    process_certificate s em safety rc = Ret (cmds, s1, safety1) → pm_trace s1 es ps s2 →
    pm_trace s (entered_rounds cmds ++ es) ps s2
| pm_local s safety cmds s1 safety1 es ps s2 :
    process_local_timeout s safety = Ret (cmds, s1, safety1) → pm_trace s1 es ps s2 →
    pm_trace s (entered_rounds cmds ++ es) ps s2
| pm_remote s em validators vm safety author m cmds s1 safety1 es ps s2 :
    process_remote_timeout s em validators vm safety author m = Ret (cmds, s1, safety1) →
    pm_trace s1 es ps s2 →
    pm_trace s (entered_rounds cmds ++ es) (prepared_rounds cmds ++ ps) s2.

(** What one call may do to the round and the phase. *)
Definition pm_moves (s : Pacemaker) (es ps : list Round) (s1 : Pacemaker) : Prop :=
  (ps = [] ∨ phase s = Zero ∧ ps = [current_round_of s]) ∧
  (current_round_of s1 = current_round_of s ∧ es = [] ∧
     (phase s = One ∨ ps ≠ [] → phase s1 = One) ∨
   (current_round_of s < current_round_of s1)%N ∧ es = [current_round_of s1]).

Lemma process_certificate_Ret self em safety rc cmds self' safety' :
  process_certificate self em safety rc = Ret (cmds, self', safety') →
  cmds = [] ∧ self' = self ∨
  (rc_round (high_certificate self) < rc_round (high_certificate self'))%N ∧ phase self' = Zero ∧
    ∃ e d, cmds = [EnterRound e (current_round_of self') rc; Schedule (current_round_of self') d].
Proof.
  unfold process_certificate. case_decide; [intros [= <- <- <-]; by left|].
  rewrite run_bind_Ret. intros (r & [-> _]%Round_add_Ret & Hrun).
  apply run_bind_Ret in Hrun as (e & _ & Hrun). apply run_bind_Ret in Hrun as (d & _ & [= <- <- <-]).
  right. cbn. split_and!; [lia|done|]. by exists e, d.
Qed.

Lemma build_tc_loop_Ret em validators vm ti fuel self safety timeouts cmds cmds' self' safety' :
  build_tc_loop fuel em validators vm ti self safety timeouts cmds = Ret (cmds', self', safety') →
  cmds' = cmds ∧ high_certificate self' = high_certificate self ∧ phase self' = phase self ∨
  (rc_round (high_certificate self) < rc_round (high_certificate self'))%N ∧
    ∃ e rc d, cmds' = cmds ++ [EnterRound e (current_round_of self') rc;
                               Schedule (current_round_of self') d].
Proof.
  revert self safety timeouts cmds. induction fuel as [|fuel IH]; intros self safety timeouts cmds;
    cbn [build_tc_loop]; [done|].
  destruct (decide (phase self = One)) as [Hph|_]; [|intros [= <- <- <-]; by left].
  destruct (has_super_majority_votes validators timeouts) as [[[]|]|]; try done;
    [|intros [= <- <- <-]; by left].
  rewrite run_bind_Ret. intros ([tc|err] & _ & Hrun).
  - apply run_bind_Ret in Hrun as ([[c1 s1] sf1] & Hpc & Hrun).
    apply run_bind_Ret in Hrun as (_ & Hz%assert_Ret & Hrun).
    apply process_certificate_Ret in Hpc as [[_ ->]|(Hlt & _ & e & d & ->)]; [congruence|].
    destruct fuel as [|fuel]; [done|]. cbn [build_tc_loop] in Hrun. rewrite decide_False in Hrun by congruence.
    injection Hrun as <- <- <-. right. split; [done|]. by exists e, (RcTc tc), d.
  - destruct err as [| |bad| |]; try done.
    destruct (handle_invalid_timeout_spec self bad) as (p & i & Hh & _). rewrite Hh in Hrun.
    apply IH in Hrun. exact Hrun.
Qed.

Lemma process_remote_timeout_moves s em validators vm safety author m cmds s1 safety1 :
  process_remote_timeout s em validators vm safety author m = Ret (cmds, s1, safety1) →
  pm_moves s (entered_rounds cmds) (prepared_rounds cmds) s1.
Proof.
  unfold process_remote_timeout. rewrite run_bind_Ret. intros (r & _ & Hrun).
  destruct (decide (ti_round (tm_info m) < r)%N).
  { injection Hrun as <- <- <-. split; [by left|left]. split_and!; [done|done|naive_solver]. }
  apply run_bind_Ret in Hrun as (_ & _ & Hrun). destruct (decide (author ∈ _)).
  { injection Hrun as <- <- <-. split; [by left|left]. split_and!; [done|done|naive_solver]. }
  apply run_bind_Ret in Hrun as ([[c2 s2] sf2] & Ht & Hrun).
  assert (high_certificate s2 = high_certificate s ∧ entered_rounds c2 = [] ∧
    (prepared_rounds c2 = [] ∧ phase s2 = phase s ∨
     phase s = Zero ∧ phase s2 = One ∧ prepared_rounds c2 = [current_round_of s])) as (Hhc & He2 & Hp2).
  { apply try_honest_timeout_Ret in Ht as [(-> & -> & _)|(Hz & _ & Hl & ->)]; [naive_solver|].
    apply local_timeout_round_Ret in Hl as (_ & safe & d & ->). cbn in *. naive_solver. }
  apply build_tc_loop_Ret in Hrun as [(-> & Hh & Hph)|(Hlt & e & rc & d & ->)].
  - split; [naive_solver|left]. unfold current_round_of. rewrite Hh, Hhc, Hph, He2.
    split_and!; [done|done|]. intros [Ho|Hn]; destruct Hp2 as [[Hp Hq]|(? & ? & _)]; congruence.
  - unfold entered_rounds, prepared_rounds in *. rewrite !omap_app, He2. cbn.
    rewrite app_nil_r. split; [naive_solver|right]. rewrite Hhc in Hlt.
    unfold current_round_of. split; [lia|done].
Qed.

Definition pm_sorted (s : Pacemaker) (es ps : list Round) (s' : Pacemaker) : Prop :=
  StronglySorted N.lt es ∧ Forall (λ r, current_round_of s < r)%N es ∧
  StronglySorted N.lt ps ∧
  Forall (λ r, current_round_of s ≤ r ∧ (phase s = One → current_round_of s < r))%N ps ∧
  (current_round_of s ≤ current_round_of s')%N.

Lemma pm_sorted_cons s es1 ps1 s1 es ps s' :
  pm_moves s es1 ps1 s1 → pm_sorted s1 es ps s' → pm_sorted s (es1 ++ es) (ps1 ++ ps) s'.
Proof.
  intros [Hps Hmv] (Hes & Hge & Hss & Hgs & Hle).
  assert (current_round_of s ≤ current_round_of s1)%N as Hmono.
  { destruct Hmv as [(-> & _)|[? _]]; lia. }
  assert (Forall (λ r, current_round_of s ≤ r ∧
    (phase s = One ∨ ps1 ≠ [] → current_round_of s < r))%N ps) as Hgs'.
  { eapply Forall_impl; [exact Hgs|]. intros r [Hr1 Hr2]. split; [lia|]. intros Hor.
    destruct Hmv as [(Heq & _ & Hph)|[Hlt _]]; [|lia]. rewrite <- Heq. by apply Hr2, Hph. }
  unfold pm_sorted. split_and!.
  - destruct Hmv as [(_ & -> & _)|[_ ->]]; [done|]. cbn. by constructor.
  - destruct Hmv as [(Heq & -> & _)|[Hlt ->]]; cbn; [by rewrite <- Heq|]. constructor; [done|].
    eapply Forall_impl; [exact Hge|]. cbn. lia.
  - destruct Hps as [->|[_ ->]]; [done|]. cbn. constructor; [done|].
    eapply Forall_impl; [exact Hgs'|]. cbn. intros r [_ Hr]. apply Hr. by right.
  - apply Forall_app. split.
    + destruct Hps as [->|[Hz ->]]; [done|]. constructor; [|done]. split; [lia|congruence].
    + eapply Forall_impl; [exact Hgs'|]. cbn. intros r [? Hr]. split; [done|]. auto.
  - lia.
Qed.

Lemma pm_trace_rounds s es ps s' : pm_trace s es ps s' → pm_sorted s es ps s'.
Proof.
  induction 1 as [s|s em safety rc cmds s1 sf1 es ps s2 Hc _ IH|s safety cmds s1 sf1 es ps s2 Hl _ IH
                 |s em vs vm safety a m cmds s1 sf1 es ps s2 Hr _ IH].
  - unfold pm_sorted. split_and!; try constructor. lia.
  - apply (pm_sorted_cons s _ [] s1); [|done]. split; [by left|].
    apply process_certificate_Ret in Hc as [[-> ->]|(Hlt & _ & e & d & ->)]; [left|right].
    + split_and!; [done|done|]. naive_solver.
    + unfold current_round_of in *. cbn. split; [lia|done].
  - apply (pm_sorted_cons s _ [] s1); [|done]. split; [by left|left].
    unfold process_local_timeout in Hl. apply run_bind_Ret in Hl as ([c s'] & Hl & [= <- <- <-]).
    apply local_timeout_round_Ret in Hl as (_ & safe & d & ->). done.
  - apply (pm_sorted_cons s _ _ s1); [|done]. by eapply process_remote_timeout_moves.
Qed.

(** ** Theorems *)


(** C34: a super majority of genuine timeouts ends the round, whatever else was
    received: if the pending timeouts, with the new one, include genuine ones
    of nodes that form a super majority, the call enters the next round with a
    TC of this round. *)
Theorem pacemaker_timeout_quorum_advances (em : EpochManager) (self : Pacemaker)
    (validators : ValidatorSet PT) (vm : gmap PT CPK) (safety : Safety) (author : PT) (m : Timeout)
    (honest : list (PT * CKP)) :
  wf_validator_set validators → (total_stake validators * 2 ≤ u256_MAX)%N →
  clock_ok em self → safety_ready self safety →
  senders_known vm (pending_timeouts self) → is_Some (vm !! author) →
  ti_round (tm_info m) = current_round_of self → (author ∉ invalid_timeout_senders self) →
  (∀ x kp, (x, kp) ∈ honest → vm !! x = Some (pubkey kp) ∧
     ∃ t, (<[author := m]> (pending_timeouts self)) !! x = Some t ∧
          tm_signature t = sign TimeoutDomain (encode_timeout_info (tm_info t)) kp) →
  quorum validators honest.*1 →
  ∃ cmds self' safety' tc e,
    process_remote_timeout self em validators vm safety author m = Ret (cmds, self', safety') ∧
    EnterRound e (current_round_of self + 1)%N (RcTc tc) ∈ cmds ∧
    high_certificate self' = RcTc tc ∧ tc_round tc = current_round_of self ∧
    EpochManager.get_epoch em (current_round_of self + 1)%N = Some e ∧ current_epoch self' = e.
Proof.
  intros Hwf Hmax Hclk Hs Hk Ha Hr Hni Hh Hq.
  destruct (process_remote_timeout_spec em self validators vm safety author m) as (out & Hrun & Hcase);
    [done..|lia|].
  destruct Hcase as [[? _]|[(_ & ? & _)|(_ & _ & c1 & s1 & sf1 & Hst & Hout)]]; [lia|done|].
  pose proof (loop_start_fields _ _ _ _ _ _ _ _ Hst) as (Hp1 & _).
  destruct Hout as (p & i & Hsub & Hi & Hkeep & Hout). rewrite Hp1 in Hkeep.
  destruct Hout as [[Hnq _]|(_ & _ & tc & e & d & Hnew & He & ->)].
  - exfalso. apply Hnq. split; [|by eapply genuine_quorum].
    pose proof (genuine_quorum validators vm _ _ ∅ honest Hwf Hmax (λ x t Hx, or_introl Hx) Hh Hq) as Hall.
    apply super_majority_has_honest_vote in Hall; [|done|done].
    apply try_honest_timeout_Ret in Hst as [(_ & -> & _ & [?|Hno])|(_ & _ & _ & ->)]; try done.
    cbn [insert_timeout pending_timeouts] in Hno. congruence.
  - destruct (TimeoutCertificate_new_Ret (ti_epoch (tm_info m)) (ti_round (tm_info m)) (btree_iter p) vm)
      as (res & Hres & Htc). rewrite Hnew in Hres. injection Hres as <-.
    destruct (Htc tc eq_refl) as [_ Htr]. rewrite Hr in *. eexists _, _, _, tc, e.
    split; [exact Hrun|]. split_and!; try done. apply elem_of_app. right. left.
Qed.

(** C13: a TC the pacemaker builds passes [verify_tc] at every other node: if the
    pending timeouts and the new one were validated for the current round and
    epoch and come from validators, every TC in the commands is accepted by
    [verify_tc], whatever valid certificates the verifier has cached. *)
Theorem pacemaker_tc_valid (etv : EpochToValidators) (em : EpochManager) (self : Pacemaker)
    (validators : ValidatorSet PT) (vm : gmap PT CPK) (leader : PT) (safety : Safety) (author : PT)
    (m : Timeout) :
  etv (current_epoch self) (current_round_of self) = Ret (Ok (validators, vm, leader)) →
  (∀ g, genesis_qc = Ret g → valid_qc etv g) → validators_ok etv →
  mapping_injective vm → (∀ x, is_Some (ValidatorSet.validators validators !! x) → is_Some (vm !! x)) →
  clock_ok em self → safety_ready self safety →
  (∀ x t, (<[author := m]> (pending_timeouts self)) !! x = Some t →
     is_Some (ValidatorSet.validators validators !! x) ∧
     timeout_validated etv (current_epoch self) (current_round_of self) t) →
  ∃ cmds self' safety',
    process_remote_timeout self em validators vm safety author m = Ret (cmds, self', safety') ∧
    ∀ e r tc c, EnterRound e r (RcTc tc) ∈ cmds → cache_valid etv c →
      ∃ c', verify_tc etv tc c = Ret (Ok (), c').
Proof.
  intros Hetv Hgen Hok Hinj Hkeys Hclk Hs Hval.
  destruct (Hok (current_epoch self) (current_round_of self)) as (res & Hres & Hvs).
  rewrite Hetv in Hres. injection Hres as <-. destruct (Hvs _ _ _ eq_refl) as [Hwf Hmax].
  destruct (Hval author m) as [Ham (Hme & Hmr & _)]; [by rewrite lookup_insert_eq|].
  assert (senders_known vm (pending_timeouts self)) as Hk.
  { intros x [t Ht]. apply Hkeys. destruct (decide (x = author)) as [->|Hne]; [done|].
    apply (Hval x t). by rewrite lookup_insert_ne. }
  destruct (process_remote_timeout_spec em self validators vm safety author m)
    as ([[c s'] sf'] & Hrun & Hcase); [done|done|done|done|done|by apply Hkeys|lia|].
  exists c, s', sf'. split; [exact Hrun|]. intros e r tc cache Hin Hcache.
  destruct (verify_tc_verifies etv Hok tc cache Hcache) as (v & cache' & Hv & _ & Hiff).
  enough (valid_tc etv tc) as ->%Hiff by eauto. clear Hv Hiff cache'.
  destruct Hcase as [[? _]|[(_ & _ & [= -> -> ->])|(_ & _ & c1 & s1 & sf1 & Hst & Hout)]];
    [lia|by apply elem_of_nil in Hin|].
  apply loop_start_fields in Hst as (Hp1 & _ & _ & _ & Hno).
  destruct Hout as (p & i & Hsub & _ & _ & Hout). rewrite Hp1 in Hsub.
  destruct Hout as [[_ [= -> _ _]]|(_ & Hq & tc' & e' & d & Hnew & _ & [= -> _ _])].
  { by apply Hno in Hin. }
  rewrite elem_of_app, !elem_of_cons, elem_of_nil in Hin.
  destruct Hin as [?%Hno|[[= _ _ <-]|[?|[]]]]; [done| |done]. rewrite Hme, Hmr in Hnew.
  eapply (TimeoutCertificate_new_valid etv _ _ validators vm leader (btree_iter p));
    [done|done|done|done|apply NoDup_btree_keys| |exact Hq|done| |exact Hnew];
    intros [x t] Hx%elem_of_btree_iter; apply (Hval x t); by eapply lookup_weaken.
Qed.

(** The timeouts the pacemaker prepares are well formed: a [PrepareTimeout]
    of a local timeout is for the current round and epoch, its rank matches the
    extension it carries, and the [Timeout] built from it passes the
    [well_formed_timeout] check of the receivers. *)
Theorem pacemaker_timeout_well_formed (em : EpochManager) (self : Pacemaker) (safety : Safety)
    (keypair : CKP) :
  clock_ok em self → safety_ready self safety → tip_above_qc safety →
  ∃ cmds safety' tminfo high_extend safe certificate,
    process_local_timeout self safety = Ret (cmds, set_phase self One, safety') ∧
    PrepareTimeout tminfo high_extend safe certificate ∈ cmds ∧
    ti_round tminfo = current_round_of self ∧ ti_epoch tminfo = current_epoch self ∧
    TimeoutInfo_rank tminfo = HighExtend_rank high_extend ∧
    well_formed_timeout (Timeout_new keypair tminfo high_extend safe certificate) = Ok ().
Proof.
  intros Hclk Hs Htip. unfold process_local_timeout.
  destruct (local_timeout_round_total em (set_phase self One) safety Hclk Hs) as (c & s' & Hl).
  rewrite Hl. cbn [mbind run_bind]. apply local_timeout_round_Ret in Hl as (_ & safe & d & ->).
  eexists _, s', _, _, safe, _. split; [done|]. split; [right; left|].
  change (high_extend_of (set_phase self One) safety) with (high_extend_of self safety).
  set (he := high_extend_of self safety) in *.
  assert (TimeoutInfo_rank (timeout_info_of (set_phase self One) he) = HighExtend_rank he) as Hrank.
  { unfold TimeoutInfo_rank, timeout_info_of, he, high_extend_of. cbn.
    destruct (maybe_high_tip safety) as [tip|] eqn:Ht; cbn; [|done].
    rewrite decide_False; [done|]. specialize (Htip tip Ht). unfold GENESIS_ROUND. lia. }
  split_and!; [done|done|done|]. unfold well_formed_timeout.
  set (t := Timeout_new _ _ _ _ _).
  assert (HighExtendVote_rank (tm_high_extend t) = HighExtend_rank he ∧
          qc_get_round (HighExtendVote_qc (tm_high_extend t)) = qc_get_round (HighExtend_qc he))
    as [Hr Hqr] by (unfold t, Timeout_new; by destruct he).
  rewrite decide_False by (intros Hne; apply Hne; by rewrite Hr, <- Hrank).
  rewrite Hqr. destruct Hs as [_ Hq]. fold he in Hq. destruct Hclk as [Hclk _].
  unfold t, Timeout_new, last_certificate_of. cbn [tm_info tm_last_round_certificate timeout_info_of ti_round].
  destruct (immediately_follows _ (qc_get_round (HighExtend_qc he))) eqn:Hf.
  - apply immediately_follows_spec in Hf as [Hf _]. by rewrite decide_True.
  - rewrite decide_False.
    2: { intros Heq. assert (immediately_follows (current_round_of (set_phase self One))
           (qc_get_round (HighExtend_qc he)) = true) as Ht; [|congruence].
         apply immediately_follows_spec. lia. }
    rewrite (proj2 (immediately_follows_spec _ _)); [done|]. unfold current_round_of. cbn. lia.
Qed.

(** Along any sequence of certificates, local timeouts and remote timeouts
    the round never goes back, every round is entered at most once and in
    order, and remote timeouts make the node time out at most once per round,
    and never after a local timeout of the same round. *)
Theorem pacemaker_rounds_monotone (s s' : Pacemaker) (es ps : list Round) :
  pm_trace s es ps s' →
  (current_round_of s ≤ current_round_of s')%N ∧
  StronglySorted N.lt es ∧ Forall (λ r, current_round_of s < r)%N es ∧
  StronglySorted N.lt ps ∧ (phase s = One → current_round_of s ∉ ps).
Proof.
  intros (Hes & Hge & Hps & Hgs & Hle)%pm_trace_rounds. split_and!; try done.
  intros Hph Hin. rewrite Forall_forall in Hgs. destruct (Hgs _ Hin) as [_ Hlt].
  specialize (Hlt Hph). lia.
Qed.
End pacemaker.

(** ** A concrete run: the third of four validators' timeouts of round 6. *)

#[local] Existing Instance NopProtocol.
#[local] Existing Instance NopCodec.
#[local] Existing Instance list_HashIter.
#[local] Existing Instance list_LruCache.

Definition example_epochs : EpochManager :=
  {| epoch_length := 100; epoch_start_delay := 10; epoch_starts := {[1%N := 0%N]} |}.

Definition example_round6 (key : CKP) : Timeout :=
  Timeout_new key {| ti_epoch := 1; ti_round := 6; ti_high_qc_round := 5; ti_high_tip_round := 0 |}
    (HeQc example_qc) false None.

Definition example_timeouts6 : gmap PT Timeout :=
  list_to_map [(1%N, example_round6 1%N); (2%N, example_round6 2%N)].

Definition example_pacemaker : Pacemaker :=
  {| delta := 100; vote_pace := λ _, 10%N; local_processing := 5; current_epoch := 1;
     high_certificate := RcQc example_qc; pending_timeouts := example_timeouts6;
     invalid_timeout_senders := ∅; phase := One |}.

Lemma example_clock_ok : clock_ok example_epochs example_pacemaker.
Proof.
  split_and!.
  - vm_compute. discriminate.
  - intros r. destruct (EpochManager.get_epoch example_epochs r) eqn:He; [by eexists|].
    apply (proj1 (get_epoch_None example_epochs r)) with (e := 1%N) (s := 0%N) in He; [lia|].
    reflexivity.
  - intros r. eexists. reflexivity.
Qed.

Lemma example_safety_ready : safety_ready example_pacemaker Safety_default.
Proof. split; vm_compute; [discriminate|reflexivity]. Qed.

Lemma example_senders_known : senders_known (example_vote_keys 6%N) (pending_timeouts example_pacemaker).
Proof.
  intros x [t Ht%elem_of_list_to_map_2]. rewrite !elem_of_cons, elem_of_nil in Ht.
  destruct Ht as [[= -> _]|[[= -> _]|[]]]; eexists; reflexivity.
Qed.

Lemma example_max : (total_stake four_validators * 2 ≤ u256_MAX)%N.
Proof. vm_compute. discriminate. Qed.

Lemma example_node3_key : is_Some (example_vote_keys 6%N !! node3).
Proof. eexists. reflexivity. Qed.

Lemma example_not_blamed : node3 ∉ invalid_timeout_senders example_pacemaker.
Proof. apply not_elem_of_empty. Qed.


Lemma example_honest_timeouts x kp :
  (x, kp) ∈ example_honest → example_vote_keys 6%N !! x = Some (pubkey kp) ∧
    ∃ t, (<[node3 := example_round6 3%N]> (pending_timeouts example_pacemaker)) !! x = Some t ∧
         tm_signature t = sign TimeoutDomain (encode_timeout_info (tm_info t)) kp.
Proof.
  unfold example_honest. rewrite !elem_of_cons, elem_of_nil.
  intros [[= -> ->]|[[= -> ->]|[[= -> ->]|[]]]]; (split; [reflexivity|]); eexists; split; reflexivity.
Qed.

Lemma pacemaker_timeout_quorum_advances_witness :
  ∃ cmds self' safety',
    process_remote_timeout example_pacemaker example_epochs four_validators (example_vote_keys 6%N)
      Safety_default node3 (example_round6 3%N) = Ret (cmds, self', safety') ∧
    rc_round (high_certificate self') = 6%N.
Proof.
  destruct (pacemaker_timeout_quorum_advances example_epochs example_pacemaker four_validators
    (example_vote_keys 6%N) Safety_default node3 (example_round6 3%N) example_honest four_validators_wf
    example_max example_clock_ok example_safety_ready example_senders_known example_node3_key eq_refl
    example_not_blamed example_honest_timeouts) as (cmds & self' & safety' & tc & e & Hrun & _ & Hhc & Hr & _).
  - vm_compute. reflexivity.
  - exists cmds, self', safety'. split; [exact Hrun|]. rewrite Hhc. exact Hr.
Defined.

Lemma example_timeouts_validated x t :
  (<[node3 := example_round6 3%N]> (pending_timeouts example_pacemaker)) !! x = Some t →
  is_Some (validators four_validators !! x) ∧
  timeout_validated example_etv (current_epoch example_pacemaker)
    (current_round_of example_pacemaker) t.
Proof.
  intros Hx. assert (∃ k, t = example_round6 k ∧ is_Some (validators four_validators !! x))
    as (k & -> & Hm).
  { apply lookup_insert_Some in Hx as [[<- <-]|[_ Hx]].
    - exists 3%N. split; [reflexivity|]. eexists. reflexivity.
    - apply elem_of_list_to_map_2 in Hx. rewrite !elem_of_cons, elem_of_nil in Hx.
      destruct Hx as [[= -> ->]|[[= -> ->]|[]]]; eexists; (split; [reflexivity|]);
        eexists; reflexivity. }
  split; [exact Hm|]. split_and!; [reflexivity..|exact example_qc_valid].
Qed.

Lemma example_genesis_qc_valid g : genesis_qc = Ret g → valid_qc example_etv g.
Proof. intros Hg. eexists _, _, _. split; [reflexivity|]. destruct genesis_qc_Ret as (g' & Hg' & Hr).
  rewrite Hg in Hg'. injection Hg' as <-. rewrite decide_True by exact Hr. exact Hg.
Qed.

Lemma example_members_have_keys x :
  is_Some (validators four_validators !! x) → is_Some (example_vote_keys 6%N !! x).
Proof.
  intros [s Hs]. assert (x ∈ [1; 2; 3; 4]%N) as Hx.
  { assert ((x, s) ∈ map_to_list (validators four_validators)) as Hl by by apply elem_of_map_to_list.
    apply list_elem_of_fmap_2 with (f := fst) in Hl. revert Hl. generalize x. clear.
    intros x Hl. assert (Forall (.∈ [1; 2; 3; 4]%N) (map_to_list (validators four_validators)).*1) as Hf
      by by apply (bool_decide_unpack _).
    rewrite Forall_forall in Hf. by apply Hf. }
  rewrite !elem_of_cons, elem_of_nil in Hx.
  destruct Hx as [->|[->|[->|[->|[]]]]]; eexists; reflexivity.
Qed.

Lemma pacemaker_tc_valid_witness :
  ∃ cmds self' safety',
    process_remote_timeout example_pacemaker example_epochs four_validators (example_vote_keys 6%N)
      Safety_default node3 (example_round6 3%N) = Ret (cmds, self', safety') ∧
    ∀ e r tc c, EnterRound e r (RcTc tc) ∈ cmds → cache_valid example_etv c →
      ∃ c', verify_tc example_etv tc c = Ret (Ok (), c').
Proof.
  apply (pacemaker_tc_valid example_etv example_epochs example_pacemaker four_validators
    (example_vote_keys 6%N) (1%N : N) Safety_default node3 (example_round6 3%N) eq_refl
    example_genesis_qc_valid example_etv_ok (example_vote_keys_injective 6%N)
    example_members_have_keys example_clock_ok example_safety_ready example_timeouts_validated).
Defined.

Lemma example_no_tip_above_qc : tip_above_qc Safety_default.
Proof. intros tip Htip. discriminate Htip. Qed.

Lemma pacemaker_timeout_well_formed_witness :
  ∃ cmds safety', process_local_timeout example_pacemaker Safety_default =
    Ret (cmds, set_phase example_pacemaker One, safety').
Proof.
  destruct (pacemaker_timeout_well_formed example_epochs example_pacemaker Safety_default (3%N : N)
    example_clock_ok example_safety_ready example_no_tip_above_qc)
    as (cmds & safety' & ti & he & safe & rc & Hrun & _).
  exists cmds, safety'. exact Hrun.
Defined.

Lemma pacemaker_rounds_monotone_witness :
  ∃ es s', pm_trace example_pacemaker es [] s' ∧ StronglySorted N.lt es.
Proof.
  destruct (is_ret_true (process_local_timeout example_pacemaker Safety_default))
    as [[[c1 s1] sf1] H1']; [vm_compute; reflexivity|].
  assert (pm_trace example_pacemaker (entered_rounds c1 ++ []) [] s1) as Ht
    by (eapply pm_local; [exact H1'|apply pm_done]).
  exists (entered_rounds c1 ++ []), s1. split; [exact Ht|].
  apply (pacemaker_rounds_monotone example_pacemaker s1 _ [] Ht).
Defined.
