(* ===== verification/Tree.v ===== *)
(** * The store of uncommitted blocks ([src/blocktree/src/tree.rs])

    [Tree] maps block ids to entries and indexes the block bodies, counting for
    each body the blocks that point to it.  The file also holds the
    [BlockPolicy] interface ([src/consensus-types/src/block.rs]) that says which
    extensions of the chain are valid, with its pass-through implementation.

    Shown here: insertions and removals never panic and keep the body index
    exact, so a body can be fetched exactly while a block in the tree points to
    it. *)
From S2P Require Import Prelude Types SignatureCollection Certificates.

(** ** Block policies *)

Inductive ExecutionStateReadError := NotAvailableYet | NeverAvailable.

Inductive BlockPolicyBlockValidatorError :=
| AccountBalanceMissing | InsufficientBalance | InsufficientReserveBalance.

Inductive BlockPolicyError :=
| BlockNotCoherent
| PolicyStateReadError (e : ExecutionStateReadError)
| TimestampError
| ExecutionResultMismatch
| BaseFeeError
| PolicyBlockValidatorError (e : BlockPolicyBlockValidatorError)
| Eip7702Error
| SystemTransactionError.

Record BlockRange := { last_block_id : BlockId; num_blocks : SeqNum }.

Section full_block.
Context `{Codec}.

Definition blk_get_parent_id (self : ConsensusFullBlock) : BlockId :=
  qc_get_block_id (hdr_qc (header self)).
Definition blk_get_id (self : ConsensusFullBlock) : BlockId := get_id (header self).
Definition blk_get_body_id (self : ConsensusFullBlock) : N := block_body_id (header self).
Definition blk_get_block_round (self : ConsensusFullBlock) : Round := block_round (header self).
Definition blk_get_parent_round (self : ConsensusFullBlock) : Round :=
  qc_get_round (hdr_qc (header self)).
Definition blk_get_qc (self : ConsensusFullBlock) : QuorumCertificate := hdr_qc (header self).
Definition blk_get_epoch (self : ConsensusFullBlock) : Epoch := hdr_epoch (header self).
Definition blk_get_seq_num (self : ConsensusFullBlock) : SeqNum := hdr_seq_num (header self).
Definition blk_get_timestamp (self : ConsensusFullBlock) : N := hdr_timestamp_ns (header self).
Definition blk_get_execution_results (self : ConsensusFullBlock) : list FinalizedHeader :=
  delayed_execution_results (header self).
End full_block.

(** The trait: [deref] is its [Deref<Target = ConsensusFullBlock>], [ESRT] the
    execution state it reads and [CCT] the chain configuration. *)
Class BlockPolicy `{Protocol} := {
  BPT : Type;
  ESRT : Type;
  CCT : Type;
  ValidatedBlock : Type;
  deref : ValidatedBlock → ConsensusFullBlock;
  check_coherency : BPT → ValidatedBlock → list ValidatedBlock → RootInfo → ESRT → CCT →
    run (result () BlockPolicyError * ESRT);
  get_expected_execution_results : BPT → SeqNum → list ValidatedBlock → ESRT →
    run (result (list FinalizedHeader) ExecutionStateReadError * ESRT);
  update_committed_block : BPT → ValidatedBlock → run BPT;
  reset : BPT → list ValidatedBlock → run BPT;
}.

(** ** PassthruBlockPolicy *)

Section passthru.
Context `{Protocol} (InMemoryState MockChainConfig : Type).

Definition passthru_get_expected_execution_results (self : ()) (_ : SeqNum)
    (_ : list ConsensusFullBlock) (state_read : InMemoryState) :
    run (result (list FinalizedHeader) ExecutionStateReadError * InMemoryState) :=
  Ret (Ok [], state_read).

Definition passthru_check_coherency (self : ()) (block : ConsensusFullBlock)
    (extending_blocks : list ConsensusFullBlock) (blocktree_root : RootInfo)
    (state_read : InMemoryState) (_ : MockChainConfig) :
    run (result () BlockPolicyError * InMemoryState) :=
  let '(extending_seq_num, extending_timestamp) :=
    match last extending_blocks with
    | Some extended_block => (blk_get_seq_num extended_block, blk_get_timestamp extended_block)
    | None => (root_seq_num blocktree_root, 0%N)
    end in
  next ← SeqNum_add extending_seq_num 1;
  if decide (blk_get_seq_num block ≠ next) then Ret (Err BlockNotCoherent, state_read)
  else if decide (blk_get_timestamp block ≤ extending_timestamp)%N
  then Ret (Err TimestampError, state_read)
  else
    '(expected, state_read) ← passthru_get_expected_execution_results self (blk_get_seq_num block)
      extending_blocks state_read;
    match expected with
    | Err e => Ret (Err (PolicyStateReadError e), state_read)
    | Ok expected_execution_results =>
        if decide (blk_get_execution_results block ≠ expected_execution_results)
        then Ret (Err ExecutionResultMismatch, state_read)
        else Ret (Ok (), state_read)
    end.

Definition PassthruBlockPolicy : BlockPolicy := {|
  BPT := (); ESRT := InMemoryState; CCT := MockChainConfig; ValidatedBlock := ConsensusFullBlock;
  deref := id;
  check_coherency := passthru_check_coherency;
  get_expected_execution_results := passthru_get_expected_execution_results;
  update_committed_block self _ := Ret self;
  reset self _ := Ret self;
|}.
End passthru.

(** ** Tree *)

Section tree.
Context `{Codec, !BlockPolicy, !HashIter}.

Record BlockTreeEntry := {
  validated_block : ValidatedBlock;
  entry_is_coherent : bool;
  children_blocks : list BlockId;
}.

Record BlockBodyIndex := { index_body : Body; active_blocks : gset BlockId }.

Record Tree := { tree : gmap BlockId BlockTreeEntry; payloads : gmap N BlockBodyIndex }.

Definition Tree_default : Tree := {| tree := ∅; payloads := ∅ |}.

Definition with_coherent (e : BlockTreeEntry) (coherent : bool) : BlockTreeEntry :=
  {| validated_block := validated_block e; entry_is_coherent := coherent;
     children_blocks := children_blocks e |}.

Definition push_child (c : BlockId) (e : BlockTreeEntry) : BlockTreeEntry :=
  {| validated_block := validated_block e; entry_is_coherent := entry_is_coherent e;
     children_blocks := children_blocks e ++ [c] |}.

Definition set_coherent (self : Tree) (block_id : BlockId) (coherent : bool) : result Tree () :=
  e ←! ok_or (tree self !! block_id) ();
  Ok {| tree := <[block_id := with_coherent e coherent]> (tree self); payloads := payloads self |}.

Definition tree_remove (self : Tree) (block_id : BlockId) : run (option BlockTreeEntry * Tree) :=
  match tree self !! block_id with
  | None => Ret (None, self)
  | Some removed =>
      let tree' := delete block_id (tree self) in
      let payload_id := blk_get_body_id (deref (validated_block removed)) in
      payload_index ← expect (payloads self !! payload_id);
      assert (block_id ∈ active_blocks payload_index) ≫= λ _,
      let active := active_blocks payload_index ∖ {[block_id]} in
      let payloads' :=
        if decide (active = ∅) then delete payload_id (payloads self)
        else <[payload_id := {| index_body := index_body payload_index; active_blocks := active |}]>
               (payloads self) in
      Ret (Some removed, {| tree := tree'; payloads := payloads' |})
  end.

(** The blocks of the tree whose parent is [id], in iteration order. *)
Definition find_children (self : Tree) (id : BlockId) : list BlockId :=
  (filter (λ p, blk_get_parent_id (deref (validated_block p.2)) = id) (hash_iter (tree self))).*1.

Definition tree_insert (self : Tree) (block : ValidatedBlock) : run Tree :=
  let new_block_id := blk_get_id (deref block) in
  let parent_id := blk_get_parent_id (deref block) in
  let body_id := blk_get_body_id (deref block) in
  let children := find_children self new_block_id in
  let new_block_entry :=
    {| validated_block := block; entry_is_coherent := false; children_blocks := children |} in
  assert (tree self !! new_block_id = None) ≫= λ _,
  let tree' := alter (push_child new_block_id) parent_id (<[new_block_id := new_block_entry]> (tree self)) in
  let index := default {| index_body := body (deref block); active_blocks := ∅ |}
                 (payloads self !! body_id) in
  assert (new_block_id ∉ active_blocks index) ≫= λ _,
  Ret {| tree := tree';
         payloads := <[body_id := {| index_body := index_body index;
                                     active_blocks := {[new_block_id]} ∪ active_blocks index |}]>
                       (payloads self) |}.

Definition tree_get_payload (self : Tree) (block_body_id : N) : option Body :=
  index_body <$> payloads self !! block_body_id.

(** ** The body index *)

Definition body_of (t : Tree) (id : BlockId) : option N :=
  (λ e, blk_get_body_id (deref (validated_block e))) <$> tree t !! id.

(** The index counts exactly the blocks of the tree, and holds the bodies their
    headers name. *)
Definition payloads_ok (t : Tree) : Prop :=
  (∀ bid ix, payloads t !! bid = Some ix →
     active_blocks ix ≠ ∅ ∧ body_get_id (index_body ix) = bid) ∧
  (∀ bid id, body_of t id = Some bid ↔ ∃ ix, payloads t !! bid = Some ix ∧ id ∈ active_blocks ix).

(** What [ConsensusFullBlock::new] checks. *)
Definition body_matches (b : ConsensusFullBlock) : Prop := body_get_id (body b) = blk_get_body_id b.

Lemma payloads_ok_default : payloads_ok Tree_default.
Proof.
  unfold Tree_default. split; cbn; [intros ??; by rewrite lookup_empty|].
  intros bid id. unfold body_of. cbn.
  rewrite lookup_empty. split; [done|]. intros (ix & Hix & _). by rewrite lookup_empty in Hix.
Qed.

Lemma body_of_ext t t' :
  (∀ x, validated_block <$> tree t !! x = validated_block <$> tree t' !! x) →
  ∀ x, body_of t x = body_of t' x.
Proof.
  intros Ht x. specialize (Ht x). unfold body_of.
  destruct (tree t !! x), (tree t' !! x); cbn in *; congruence.
Qed.

Lemma payloads_ok_ext t t' :
  (∀ x, validated_block <$> tree t !! x = validated_block <$> tree t' !! x) →
  payloads t = payloads t' → payloads_ok t → payloads_ok t'.
Proof.
  intros Ht Hp [H1' H2']. split; rewrite <- Hp; [done|]. intros bid x.
  by rewrite <- (body_of_ext t t' Ht).
Qed.

Lemma set_coherent_spec t id c e :
  tree t !! id = Some e →
  set_coherent t id c =
    Ok {| tree := <[id := with_coherent e c]> (tree t); payloads := payloads t |}.
Proof. intros He. unfold set_coherent. by rewrite He. Qed.

Lemma tree_remove_spec t id :
  payloads_ok t →
  ∃ t', tree_remove t id = Ret (tree t !! id, t') ∧ tree t' = delete id (tree t) ∧ payloads_ok t'.
Proof.
  intros [Hp1 Hp2]. unfold tree_remove. destruct (tree t !! id) as [e|] eqn:He.
  2: { exists t. split_and!; [done| |done]. by rewrite delete_id. }
  set (bid := blk_get_body_id _).
  assert (body_of t id = Some bid) as Hb by (unfold body_of; by rewrite He).
  destruct (proj1 (Hp2 bid id) Hb) as (ix & Hix & Hin). rewrite Hix. cbn [expect mbind run_bind].
  rewrite assert_true by done. cbn [mbind run_bind]. eexists. split; [done|]. split; [done|].
  assert (∀ x, body_of {| tree := delete id (tree t); payloads := ∅ |} x =
               if decide (x = id) then None else body_of t x) as Hbo.
  { intros x. unfold body_of. cbn. case_decide; [subst; by rewrite lookup_delete_eq|].
    by rewrite lookup_delete_ne. }
  split; cbn.
  - intros bid' ix'. destruct (Hp1 _ _ Hix) as [_ Hbody]. case_decide as Hemp.
    + rewrite lookup_delete_Some. intros [_ ?]. by apply Hp1.
    + rewrite lookup_insert_Some. intros [[<- <-]|[_ ?]]; [done|by apply Hp1].
  - intros bid' x. change (body_of _ x) with (body_of {| tree := delete id (tree t); payloads := ∅ |} x).
    rewrite Hbo. destruct (decide (x = id)) as [->|Hx].
    + split; [done|]. intros (ix' & Hix' & Hin'). exfalso. revert Hix'. case_decide.
      * rewrite lookup_delete_Some. intros [Hne Hix'].
        assert (body_of t id = Some bid') as Hb' by (apply Hp2; eauto). congruence.
      * rewrite lookup_insert_Some. intros [[<- <-]|[Hne Hix']]; [set_solver|].
        assert (body_of t id = Some bid') as Hb' by (apply Hp2; eauto). congruence.
    + rewrite Hp2. destruct (decide (bid' = bid)) as [->|Hne].
      * rewrite Hix. case_decide as Hemp.
        -- rewrite lookup_delete_eq. split; [|by intros (? & ? & _)].
           intros (? & [= <-] & Hx'). set_solver.
        -- rewrite lookup_insert_eq. split; intros (? & [= <-] & Hx'); eexists; (split; [done|]); set_solver.
      * case_decide; [rewrite lookup_delete_ne by done|rewrite lookup_insert_ne by done]; done.
Qed.

Lemma tree_insert_spec t b :
  let id := blk_get_id (deref b) in
  payloads_ok t → tree t !! id = None → body_matches (deref b) →
  blk_get_parent_id (deref b) ≠ id →
  ∃ t', tree_insert t b = Ret t' ∧ payloads_ok t' ∧
    tree t' = alter (push_child id) (blk_get_parent_id (deref b))
      (<[id := {| validated_block := b; entry_is_coherent := false;
                  children_blocks := find_children t id |}]> (tree t)).
Proof.
  intros id [Hp1 Hp2] Hnone Hbody Hself. unfold tree_insert. fold id.
  rewrite (assert_true (tree t !! id = None)) by exact Hnone.
  cbn [mbind run_bind]. set (bid := blk_get_body_id _).
  assert (∀ ix, payloads t !! bid = Some ix → id ∉ active_blocks ix) as Hfresh.
  { intros ix Hix Hin. assert (body_of t id = Some bid) as Hb by (apply Hp2; eauto).
    unfold body_of in Hb. by rewrite Hnone in Hb. }
  rewrite assert_true.
  2: { destruct (payloads t !! bid) eqn:Hix; cbn; [by apply Hfresh|set_solver]. }
  cbn [mbind run_bind]. eexists. split; [done|]. split; [|done].
  assert (∀ t' x, tree t' = alter (push_child id) (blk_get_parent_id (deref b))
      (<[id := {| validated_block := b; entry_is_coherent := false;
                  children_blocks := find_children t id |}]> (tree t)) →
    body_of t' x = if decide (x = id) then Some bid else body_of t x) as Hbo.
  { intros t' x Ht'. unfold body_of. rewrite Ht'.
    destruct (decide (x = blk_get_parent_id (deref b))) as [->|Hpx].
    - rewrite lookup_alter_eq, lookup_insert_ne, decide_False by done.
      by destruct (tree t !! blk_get_parent_id (deref b)).
    - rewrite lookup_alter_ne by done. case_decide as Hx; [subst; by rewrite lookup_insert_eq|].
      by rewrite lookup_insert_ne by done. }
  set (ix0 := default _ (payloads t !! bid)).
  assert (∀ x, x ∈ active_blocks ix0 ↔ ∃ ix, payloads t !! bid = Some ix ∧ x ∈ active_blocks ix) as Hix0.
  { intros x. unfold ix0. destruct (payloads t !! bid) as [ix|]; cbn.
    - split; [eauto|]. by intros (? & [= <-] & ?).
    - split; [by intros ?%not_elem_of_empty|]. by intros (? & ? & _). }
  split; cbn.
  - intros bid' ix'. rewrite lookup_insert_Some. intros [[<- <-]|[_ ?]]; [|by apply Hp1]. cbn.
    split; [set_solver|]. unfold ix0. destruct (payloads t !! bid) as [ix|] eqn:Hix; cbn; [by apply Hp1|exact Hbody].
  - intros bid' x. rewrite Hbo by done. destruct (decide (bid' = bid)) as [->|Hne].
    + rewrite lookup_insert_eq. case_decide as Hx.
      * subst x. split; [|done]. intros _. eexists. split; [done|]. set_solver.
      * rewrite Hp2, <- Hix0. split.
        -- intros Hin. eexists. split; [done|]. set_solver.
        -- intros (? & [= <-] & Hin). set_solver.
    + rewrite lookup_insert_ne by done. case_decide as Hx; [|apply Hp2]. subst x. split; [congruence|].
      intros Hex. apply Hp2 in Hex. unfold body_of in Hex. by rewrite Hnone in Hex.
Qed.

(** The trees reached by the operations, from blocks whose body matches their
    header. *)
Inductive tree_reachable : Tree → Prop :=
| reach_default : tree_reachable Tree_default
| reach_insert t b t' :
    tree_reachable t → body_matches (deref b) →
    blk_get_parent_id (deref b) ≠ blk_get_id (deref b) →
    tree_insert t b = Ret t' → tree_reachable t'
| reach_remove t id e t' :
    tree_reachable t → tree_remove t id = Ret (e, t') → tree_reachable t'
| reach_coherent t id c t' :
    tree_reachable t → set_coherent t id c = Ok t' → tree_reachable t'.

Lemma tree_reachable_ok t : tree_reachable t → payloads_ok t.
Proof.
  induction 1 as [|t b t' _ IH Hb Hp Hrun|t id e t' _ IH Hrun|t id c t' _ IH Hrun].
  - apply payloads_ok_default.
  - assert (tree t !! blk_get_id (deref b) = None) as Hn.
    { unfold tree_insert in Hrun. by apply run_bind_Ret in Hrun as (_ & ?%assert_Ret & _). }
    destruct (tree_insert_spec t b IH Hn Hb Hp) as (t'' & Hrun' & Hok & _). congruence.
  - destruct (tree_remove_spec t id IH) as (t'' & Hrun' & _ & Hok). congruence.
  - unfold set_coherent in Hrun. apply res_try_Ok in Hrun as (e & He%ok_or_Ok & [= <-]).
    apply (payloads_ok_ext t); [|done|done]. intros x. cbn. rewrite lookup_insert.
    case_decide; [subst x; by rewrite He|done].
Qed.

(** ** Theorem *)

(** The body index is exact in every reachable tree: a body can be fetched
    exactly while some block of the tree points to it, and it is the body whose
    hash the header names; and neither removing a block nor inserting a new one
    panics. *)
Theorem tree_payload_index_exact (t : Tree) :
  tree_reachable t →
  (∀ bid, is_Some (tree_get_payload t bid) ↔ ∃ id, body_of t id = Some bid) ∧
  (∀ bid b, tree_get_payload t bid = Some b → body_get_id b = bid) ∧
  (∀ id, ∃ t', tree_remove t id = Ret (tree t !! id, t') ∧ tree t' = delete id (tree t)) ∧
  (∀ b, tree t !! blk_get_id (deref b) = None → body_matches (deref b) →
     blk_get_parent_id (deref b) ≠ blk_get_id (deref b) → ∃ t', tree_insert t b = Ret t').
Proof.
  intros Hok%tree_reachable_ok. pose proof Hok as [Hp1 Hp2]. unfold tree_get_payload. split_and!.
  - intros bid. rewrite fmap_is_Some. split.
    + intros [ix Hix]. destruct (Hp1 _ _ Hix) as [Hne _].
      apply set_choose_L in Hne as [id Hid]. exists id. apply Hp2. eauto.
    + intros (id & (ix & Hix & _)%Hp2). eauto.
  - intros bid b (ix & Hix & ->)%fmap_Some. by apply Hp1.
  - intros id. destruct (tree_remove_spec t id Hok) as (t' & ? & ? & _). eauto.
  - intros b Hn Hb Hp. destruct (tree_insert_spec t b Hok Hn Hb Hp) as (t' & ? & _). eauto.
Qed.
End tree.

(** ** A concrete tree: one block of the test protocol. *)

#[local] Existing Instance NopProtocol.
#[local] Existing Instance NopCodec.
#[local] Existing Instance list_HashIter.

Definition example_policy : BlockPolicy := PassthruBlockPolicy () ().

#[local] Existing Instance example_policy.

Definition example_block (round parent parent_round seq_num : N) : ConsensusFullBlock :=
  {| header :=
       {| block_round := round; hdr_epoch := 1;
          hdr_qc := {| qc_info := {| v_id := parent; v_round := parent_round; v_epoch := 1 |};
                       qc_signatures := {| sigs := [] |} |};
          hdr_author := 1%N : PT; hdr_seq_num := seq_num; hdr_timestamp_ns := seq_num * 10;
          hdr_round_signature := (nop_sign example_hash RoundSignatureDomain [round] 1%N : CST);
          delayed_execution_results := []; execution_inputs := () : ProposedHeader;
          block_body_id := example_hash [9%N]; base_fee := 100; base_fee_trend := 0;
          base_fee_moment := 0 |};
     body := 9%N : Body |}.

Definition example_a : ConsensusFullBlock := example_block 1 0 0 1.
Definition example_vb (b : ConsensusFullBlock) : ValidatedBlock := b.

Lemma tree_payload_index_exact_witness :
  ∃ t, tree_insert Tree_default (example_vb example_a) = Ret t ∧
    is_Some (tree_get_payload t (blk_get_body_id example_a)).
Proof.
  destruct (is_ret_true (tree_insert Tree_default (example_vb example_a))) as [t Ht];
    [vm_compute; reflexivity|].
  exists t. split; [exact Ht|].
  destruct (tree_payload_index_exact t) as (Hget & _).
  - apply (reach_insert Tree_default (example_vb example_a) t);
      [apply reach_default|reflexivity|vm_compute; discriminate|exact Ht].
  - apply Hget. exists (blk_get_id example_a). unfold tree_insert in Ht.
    apply run_bind_Ret in Ht as (_ & _ & Ht). apply run_bind_Ret in Ht as (_ & _ & [= <-]).
    vm_compute. reflexivity.
Defined.
