(* ===== verification/BlockTree.v ===== *)
(** * The block tree ([src/blocktree/src/blocktree.rs])

    [BlockTree] holds the uncommitted blocks above the last committed one, the
    root.  This file models its operations and proves the ones that change it:
    adding a block and committing a branch ([prune]).  [BlockTreeSearch] proves
    the traversals.

    Loops that walk towards the root or through the children run on fuel, one
    more than the number of blocks in the tree; running out reads as a panic,
    and the theorems show the loops return. *)
From S2P Require Import Prelude Types SignatureCollection Certificates Tree.

Section block_tree.
Context `{Codec, !BlockPolicy, !HashIter}.

Record Root := { info : RootInfo; root_children : list BlockId }.

Record BlockTree := { root : Root; bt_tree : Tree }.

Definition BlockTree_new (root : RootInfo) : BlockTree :=
  {| root := {| info := root; root_children := [] |}; bt_tree := Tree_default |}.

Definition root_id (self : BlockTree) : BlockId := root_block_id (info (root self)).

(** [self.tree.get(id)], through the [Deref] of [Tree]. *)
Definition get_entry (self : BlockTree) (block_id : BlockId) : option BlockTreeEntry :=
  tree (bt_tree self) !! block_id.

Definition entry_block (e : BlockTreeEntry) : ConsensusFullBlock := deref (validated_block e).

Definition fuel_of (self : BlockTree) : nat := S (size (tree (bt_tree self))).

Definition is_coherent (self : BlockTree) (b : BlockId) : bool :=
  if decide (b = root_id self) then true
  else match get_entry self b with
       | Some blocktree_entry => entry_is_coherent blocktree_entry
       | None => false
       end.

(** ** prune *)

Fixpoint commit_loop (fuel : nat) (root_id : BlockId) (t : Tree) (entry_to_commit : BlockTreeEntry)
    (commit : list ValidatedBlock) : run (list ValidatedBlock * Tree) :=
  match fuel with
  | 0 => Panic
  | S fuel =>
      assert (entry_is_coherent entry_to_commit = true) ≫= λ _,
      let parent_id := blk_get_parent_id (entry_block entry_to_commit) in
      let commit := commit ++ [validated_block entry_to_commit] in
      if decide (parent_id = root_id) then Ret (commit, t)
      else
        '(removed, t) ← tree_remove t parent_id;
        entry_to_commit ← expect removed;
        commit_loop fuel root_id t entry_to_commit commit
  end.

Fixpoint remove_all (t : Tree) (ids : list BlockId) : run Tree :=
  match ids with
  | [] => Ret t
  | id :: ids => '(_, t) ← tree_remove t id; remove_all t ids
  end.

(** The blocks whose parent is below [round]. *)
Definition blocks_to_delete (t : Tree) (round : Round) : list BlockId :=
  (filter (λ p, (blk_get_parent_round (entry_block p.2) < round)%N) (hash_iter (tree t))).*1.

Definition prune (self : BlockTree) (new_root : BlockId) : run (list ValidatedBlock * BlockTree) :=
  assert (is_coherent self new_root = true) ≫= λ _,
  if decide (new_root = root_id self) then Ret ([], self)
  else
    '(removed, t) ← tree_remove (bt_tree self) new_root;
    new_root_entry ← expect removed;
    '(commit, t) ← commit_loop (fuel_of self) (root_id self) t new_root_entry [];
    let b := entry_block new_root_entry in
    t ← remove_all t (blocks_to_delete t (blk_get_block_round b));
    Ret (reverse commit,
         {| root := {| info := {| root_round := blk_get_block_round b;
                                  root_seq_num := blk_get_seq_num b;
                                  root_epoch := blk_get_epoch b;
                                  root_block_id := blk_get_id b;
                                  root_timestamp_ns := blk_get_timestamp b |};
                       root_children := children_blocks new_root_entry |};
            bt_tree := t |}).

(** ** add *)

Definition is_valid_to_insert (self : BlockTree) (b : ConsensusBlockHeader) : bool :=
  bool_decide (get_entry self (get_id b) = None) &&
  bool_decide (root_round (info (root self)) < block_round b)%N.

Definition add (self : BlockTree) (block : ValidatedBlock) : run BlockTree :=
  if negb (is_valid_to_insert self (header (deref block))) then Ret self
  else
    let new_block_id := blk_get_id (deref block) in
    let parent_id := blk_get_parent_id (deref block) in
    t ← tree_insert (bt_tree self) block;
    Ret {| root := if decide (parent_id = root_id self)
                   then {| info := info (root self);
                           root_children := root_children (root self) ++ [new_block_id] |}
                   else root self;
           bt_tree := t |}.

(** ** Paths *)

Fixpoint path_loop (fuel : nat) (self : BlockTree) (visit : BlockId) (blocks : list ValidatedBlock) :
    run (option (list ValidatedBlock)) :=
  match fuel with
  | 0 => Panic
  | S fuel =>
      match get_entry self visit with
      | None => Ret None
      | Some blocktree_entry =>
          let btb := validated_block blocktree_entry in
          let blocks := blocks ++ [btb] in
          if decide (blk_get_parent_id (deref btb) = root_id self) then Ret (Some (reverse blocks))
          else path_loop fuel self (blk_get_parent_id (deref btb)) blocks
      end
  end.

Definition get_blocks_on_path_from_root (self : BlockTree) (b : BlockId) :
    run (option (list ValidatedBlock)) :=
  if decide (b = root_id self) then Ret (Some [])
  else path_loop (fuel_of self) self b [].

Fixpoint fill_loop (fuel : nat) (self : BlockTree) (maybe_unknown_bid : BlockId) (num_blocks : SeqNum) :
    run (option BlockRange) :=
  match fuel with
  | 0 => Panic
  | S fuel =>
      match get_entry self maybe_unknown_bid with
      | None => Ret (Some {| last_block_id := maybe_unknown_bid; num_blocks := num_blocks |})
      | Some known =>
          if decide (blk_get_parent_id (entry_block known) = root_id self) then Ret None
          else
            above ← SeqNum_sub (blk_get_seq_num (entry_block known))
                      (root_seq_num (info (root self)));
            num_blocks ← SeqNum_sub (above `max` 2)%N 1;
            fill_loop fuel self (blk_get_parent_id (entry_block known)) num_blocks
      end
  end.

Definition maybe_fill_path_to_root (self : BlockTree) (qc : QuorumCertificate) :
    run (option BlockRange) :=
  if bool_decide (qc_get_round qc ≤ root_round (info (root self)))%N ||
     bool_decide (root_id self = qc_get_block_id qc) then Ret None
  else fill_loop (fuel_of self) self (qc_get_block_id qc) 1.

Fixpoint chain_loop (fuel : nat) (self : BlockTree) (last_block : ValidatedBlock)
    (chain : list ValidatedBlock) : run (list ValidatedBlock) :=
  match fuel with
  | 0 => Panic
  | S fuel =>
      match get_entry self (blk_get_parent_id (deref last_block)) with
      | None => Ret chain
      | Some parent => chain_loop fuel self (validated_block parent) (chain ++ [validated_block parent])
      end
  end.

Definition get_parent_block_chain (self : BlockTree) (block_id : BlockId) : run (list ValidatedBlock) :=
  match get_entry self block_id with
  | None => Ret []
  | Some base_block =>
      chain ← chain_loop (fuel_of self) self (validated_block base_block) [validated_block base_block];
      Ret (reverse chain)
  end.

(** ** Facts about a QC's block *)

Definition get_seq_num_of_qc (self : BlockTree) (qc : QuorumCertificate) : option SeqNum :=
  if decide (root_id self = qc_get_block_id qc) then Some (root_seq_num (info (root self)))
  else (blk_get_seq_num ∘ entry_block) <$> get_entry self (qc_get_block_id qc).

Definition get_timestamp_of_qc (self : BlockTree) (qc : QuorumCertificate) : option N :=
  if decide (root_id self = qc_get_block_id qc) then Some (root_timestamp_ns (info (root self)))
  else (blk_get_timestamp ∘ entry_block) <$> get_entry self (qc_get_block_id qc).

Definition get_block_round_of_qc (self : BlockTree) (qc : QuorumCertificate) : option Round :=
  if decide (root_id self = qc_get_block_id qc) then Some (root_round (info (root self)))
  else (blk_get_block_round ∘ entry_block) <$> get_entry self (qc_get_block_id qc).

Definition get_block (self : BlockTree) (block_id : BlockId) : option ValidatedBlock :=
  validated_block <$> get_entry self block_id.

(** ** Invariant

    [round_of] gives the round of the block with an id.  Blocks carry the round
    of their id, and their QC carries the round of the block it certifies, which
    is lower: this is what proposal validation and the votes behind the QC
    establish. *)

Section invariant.
Context (round_of : BlockId → Round).

Definition block_ok (b : ConsensusFullBlock) : Prop :=
  round_of (blk_get_id b) = blk_get_block_round b ∧
  round_of (blk_get_parent_id b) = blk_get_parent_round b ∧
  (blk_get_parent_round b < blk_get_block_round b)%N ∧ body_matches b.

(** [c] is a block of the tree with parent [p]. *)
Definition child_of (t : BlockTree) (p c : BlockId) : Prop :=
  ∃ e, get_entry t c = Some e ∧ blk_get_parent_id (entry_block e) = p.

Record bt_ok (t : BlockTree) : Prop := {
  ok_payloads : payloads_ok (bt_tree t);
  ok_root : round_of (root_id t) = root_round (info (root t));
  ok_block id e : get_entry t id = Some e →
    blk_get_id (entry_block e) = id ∧ block_ok (entry_block e) ∧
    (root_round (info (root t)) < blk_get_block_round (entry_block e))%N;
  ok_children id e : get_entry t id = Some e →
    NoDup (children_blocks e) ∧ ∀ c, c ∈ children_blocks e ↔ child_of t id c;
  ok_root_children :
    NoDup (root_children (root t)) ∧ ∀ c, c ∈ root_children (root t) ↔ child_of t (root_id t) c;
  ok_coherent id e : get_entry t id = Some e → entry_is_coherent e = true →
    is_coherent t (blk_get_parent_id (entry_block e)) = true;
}.

(** ** Paths from the root *)

Inductive path_from_root (t : BlockTree) : BlockId → list ValidatedBlock → Prop :=
| path_root : path_from_root t (root_id t) []
| path_snoc id e l :
    get_entry t id = Some e → path_from_root t (blk_get_parent_id (entry_block e)) l →
    path_from_root t id (l ++ [validated_block e]).

Definition vb_id (b : ValidatedBlock) : BlockId := blk_get_id (deref b).

Section facts.
Context (t : BlockTree) (Ht : bt_ok t).

Lemma entry_rounds id e :
  get_entry t id = Some e →
  round_of id = blk_get_block_round (entry_block e) ∧
  (root_round (info (root t)) < round_of id)%N ∧
  round_of (blk_get_parent_id (entry_block e)) = blk_get_parent_round (entry_block e) ∧
  (round_of (blk_get_parent_id (entry_block e)) < round_of id)%N.
Proof using Ht.
  intros He. destruct (ok_block t Ht id e He) as (<- & (Hr & Hp & Hlt & _) & Hroot).
  rewrite Hr, Hp. done.
Qed.

Lemma root_not_in_tree : get_entry t (root_id t) = None.
Proof using Ht.
  destruct (get_entry t (root_id t)) as [e|] eqn:He; [|done].
  destruct (entry_rounds _ _ He) as (_ & Hlt & _). rewrite (ok_root t Ht) in Hlt. lia.
Qed.

(** The walk towards the root gets shorter at each step. *)
Definition below (id : BlockId) : nat :=
  size (filter (λ p, (blk_get_block_round (entry_block p.2) ≤ round_of id)%N) (tree (bt_tree t))).

Lemma below_parent id e :
  get_entry t id = Some e → below (blk_get_parent_id (entry_block e)) < below id.
Proof using Ht.
  intros He. destruct (entry_rounds _ _ He) as (Hr & _ & _ & Hlt). unfold below.
  set (m := tree (bt_tree t)) in *.
  assert (filter (λ p, (blk_get_block_round (entry_block p.2) ≤
            round_of (blk_get_parent_id (entry_block e)))%N) m
          ⊆ delete id (filter (λ p, (blk_get_block_round (entry_block p.2) ≤ round_of id)%N) m)) as Hsub.
  { apply map_subseteq_spec. intros x ex. rewrite map_lookup_filter_Some. cbn. intros [Hx Hle].
    rewrite lookup_delete_ne. { apply map_lookup_filter_Some. cbn. split; [done|lia]. }
    intros <-. unfold get_entry in He. fold m in He. rewrite He in Hx. injection Hx as <-. lia. }
  apply map_subseteq_size in Hsub. rewrite map_size_delete_Some in Hsub.
  2: { exists e. apply map_lookup_filter_Some. cbn. split; [done|lia]. }
  assert (size (filter (λ p, (blk_get_block_round (entry_block p.2) ≤ round_of id)%N) m) ≠ 0); [|lia].
  intros Hz%map_size_empty_inv. assert (filter (λ p, (blk_get_block_round (entry_block p.2) ≤
    round_of id)%N) m !! id = Some e) as Hin.
  { apply map_lookup_filter_Some. cbn. split; [done|lia]. }
  by rewrite Hz, lookup_empty in Hin.
Qed.

Lemma below_fuel id : below id < fuel_of t.
Proof.
  unfold below, fuel_of. apply le_n_S, map_subseteq_size, map_filter_subseteq.
Qed.

(** Induction towards the root. *)
Lemma walk_ind (P : BlockId → Prop) :
  (∀ id, (∀ e, get_entry t id = Some e → P (blk_get_parent_id (entry_block e))) → P id) → ∀ id, P id.
Proof using Ht.
  intros Hstep id. remember (below id) as n eqn:Hn. revert id Hn.
  induction (lt_wf n) as [n _ IH]. intros id ->. apply Hstep. intros e He.
  eapply IH; [by apply below_parent|done].
Qed.

Lemma path_unique id l l' : path_from_root t id l → path_from_root t id l' → l = l'.
Proof using Ht.
  intros Hl. revert l'. induction Hl as [|id e l He Hl IH]; inversion 1 as [Hr|id' e' l'' He' Hl''];
    subst; try done.
  - by rewrite root_not_in_tree in He'.
  - by rewrite root_not_in_tree in He.
  - rewrite He in He'. injection He' as <-. by rewrite (IH l'').
Qed.

Lemma path_member id l b :
  path_from_root t id l → b ∈ l →
  ∃ e, get_entry t (vb_id b) = Some e ∧ validated_block e = b ∧ (round_of (vb_id b) ≤ round_of id)%N.
Proof using Ht.
  induction 1 as [|id e l He Hl IH]; [by intros ?%elem_of_nil|].
  destruct (entry_rounds _ _ He) as (_ & _ & _ & Hlt).
  rewrite elem_of_app, list_elem_of_singleton. intros [Hb| ->].
  - destruct (IH Hb) as (e' & ? & ? & ?). exists e'. split_and!; [done|done|lia].
  - destruct (ok_block t Ht id e He) as (Hid & _). exists e. unfold vb_id. fold (entry_block e).
    rewrite Hid. split_and!; [done|done|lia].
Qed.

Lemma path_NoDup id l : path_from_root t id l → NoDup (vb_id <$> l).
Proof using Ht.
  induction 1 as [|id e l He Hl IH]; [constructor|]. rewrite fmap_app. apply NoDup_app. split_and!.
  - done.
  - intros x (b & -> & Hb)%list_elem_of_fmap Hx. cbn in Hx. apply list_elem_of_singleton in Hx.
    destruct (path_member _ _ _ Hl Hb) as (_ & _ & _ & Hle).
    destruct (entry_rounds _ _ He) as (_ & _ & _ & Hlt).
    destruct (ok_block t Ht id e He) as (Hid & _). unfold vb_id in *. fold (entry_block e) in Hx.
    rewrite Hid in Hx. rewrite Hx in Hle. lia.
  - apply NoDup_singleton.
Qed.

(** A coherent block has a path to the root, of coherent blocks. *)
Lemma coherent_path id :
  is_coherent t id = true →
  ∃ l, path_from_root t id l ∧ Forall (λ b, is_coherent t (vb_id b) = true) l.
Proof using Ht.
  induction id as [id IH] using walk_ind. intros Hc. pose proof Hc as Hc'. unfold is_coherent in Hc.
  case_decide as Hid; [subst id; exists []; split; [apply path_root|done]|].
  destruct (get_entry t id) as [e|] eqn:He; [|done].
  destruct (IH e eq_refl (ok_coherent t Ht _ _ He Hc)) as (l & Hl & Hall).
  exists (l ++ [validated_block e]). split; [by apply path_snoc|]. apply Forall_app. split; [done|].
  constructor; [|done]. destruct (ok_block t Ht id e He) as (Hide & _).
  unfold vb_id. fold (entry_block e). by rewrite Hide.
Qed.

Lemma path_inv id l :
  path_from_root t id l → id ≠ root_id t →
  ∃ e l', get_entry t id = Some e ∧ path_from_root t (blk_get_parent_id (entry_block e)) l' ∧
    l = l' ++ [validated_block e].
Proof. inversion 1; [done|]. eauto. Qed.

Lemma path_loop_spec fuel visit blocks :
  below visit < fuel → visit ≠ root_id t →
  ∃ r, path_loop fuel t visit blocks = Ret r ∧
    match r with
    | Some out => ∃ l, path_from_root t visit l ∧ out = l ++ reverse blocks
    | None => ∀ l, ¬ path_from_root t visit l
    end.
Proof using Ht.
  revert visit blocks. induction fuel as [|fuel IH]; intros visit blocks Hf Hne; [lia|]. cbn [path_loop].
  destruct (get_entry t visit) as [e|] eqn:He.
  2: { eexists. split; [done|]. intros l (e & _ & He' & _)%path_inv; [congruence|done]. }
  fold (entry_block e). case_decide as Hp.
  - eexists. split; [done|]. exists ([] ++ [validated_block e]).
    split; [apply path_snoc; [done|]; rewrite Hp; apply path_root|]. by rewrite reverse_app.
  - destruct (IH (blk_get_parent_id (entry_block e)) (blocks ++ [validated_block e])) as (r & -> & Hr).
    { pose proof (below_parent _ _ He). lia. } { done. }
    exists r. split; [done|]. destruct r as [out|].
    + destruct Hr as (l & Hl & ->). exists (l ++ [validated_block e]). split; [by apply path_snoc|].
      by rewrite reverse_app, <- (assoc_L (++)).
    + intros l (e' & l' & He' & Hl' & _)%path_inv; [|done]. rewrite He in He'. injection He' as <-.
      by eapply Hr.
Qed.

Lemma get_blocks_on_path_from_root_spec b :
  ∃ r, get_blocks_on_path_from_root t b = Ret r ∧ ∀ l, r = Some l ↔ path_from_root t b l.
Proof using Ht.
  unfold get_blocks_on_path_from_root. case_decide as Hb.
  - eexists. split; [done|]. intros l. subst b. split; [intros [= <-]; apply path_root|].
    intros Hl. by rewrite (path_unique _ _ _ (path_root t) Hl).
  - destruct (path_loop_spec (fuel_of t) b [] (below_fuel b) Hb) as (r & -> & Hr).
    exists r. split; [done|]. intros l. destruct r as [out|].
    + destruct Hr as (l' & Hl' & ->). rewrite app_nil_r.
      split; [by intros [= <-]|]. intros Hl. by rewrite (path_unique _ _ _ Hl Hl').
    + split; [done|]. by intros ?%Hr.
Qed.
End facts.

(** ** Adding a block *)

Lemma find_children_spec t id c :
  bt_ok t → c ∈ find_children (bt_tree t) id ↔ child_of t id c.
Proof.
  intros Ht. unfold find_children, child_of, get_entry. rewrite list_elem_of_fmap. split.
  - intros ([c' e] & -> & Hin). apply list_elem_of_filter in Hin as [Hp Hin].
    rewrite hash_iter_perm, elem_of_map_to_list in Hin. by exists e.
  - intros (e & He & Hp). exists (c, e). split; [done|]. apply list_elem_of_filter.
    split; [done|]. by rewrite hash_iter_perm, elem_of_map_to_list.
Qed.

Lemma find_children_NoDup t id : NoDup (find_children t id).
Proof.
  unfold find_children. eapply sublist_NoDup; [|apply fmap_sublist; apply sublist_filter].
  rewrite hash_iter_perm. apply NoDup_fst_map_to_list.
Qed.

(** [add] of a block that is accepted: the entries of the new tree. *)
Lemma add_spec t b :
  bt_ok t → block_ok (deref b) → is_valid_to_insert t (header (deref b)) = true →
  let id := blk_get_id (deref b) in
  ∃ t', add t b = Ret t' ∧ payloads_ok (bt_tree t') ∧ info (root t') = info (root t) ∧
    root_children (root t') = root_children (root t) ++
      (if decide (blk_get_parent_id (deref b) = root_id t) then [id] else []) ∧
    ∀ x, get_entry t' x =
      if decide (x = id) then
        Some {| validated_block := b; entry_is_coherent := false;
                children_blocks := find_children (bt_tree t) id |}
      else if decide (x = blk_get_parent_id (deref b)) then push_child id <$> get_entry t x
      else get_entry t x.
Proof.
  intros Ht (Hr & Hp & Hlt & Hbody) Hv. unfold add. rewrite Hv. cbn [negb].
  unfold is_valid_to_insert in Hv. apply andb_true_iff in Hv as [Hn%bool_decide_eq_true _].
  assert (blk_get_parent_id (deref b) ≠ blk_get_id (deref b)) as Hself.
  { intros Heq. rewrite Heq in Hp. lia. }
  destruct (tree_insert_spec (bt_tree t) b (ok_payloads t Ht) Hn Hbody Hself) as (t' & -> & Hok & Htree).
  eexists. split; [done|]. cbn. split_and!; [done|by case_decide|case_decide; [done|by rewrite app_nil_r]|].
  intros x. unfold get_entry. cbn. rewrite Htree.
  destruct (decide (x = blk_get_parent_id (deref b))) as [->|Hxp].
  - by rewrite lookup_alter_eq, lookup_insert_ne, decide_False by done.
  - rewrite lookup_alter_ne by done. case_decide as Hx; [subst; by rewrite lookup_insert_eq|].
    by rewrite lookup_insert_ne by done.
Qed.

Section add_ok.
Context (t t' : BlockTree) (b : ValidatedBlock).
Let id := blk_get_id (deref b).
Let parent := blk_get_parent_id (deref b).
Hypothesis Ht : bt_ok t.
Hypothesis Hb : block_ok (deref b).
Hypothesis Hnew : get_entry t id = None.
Hypothesis Habove : (root_round (info (root t)) < blk_get_block_round (deref b))%N.
Hypothesis Hpay : payloads_ok (bt_tree t').
Hypothesis Hinfo : info (root t') = info (root t).
Hypothesis Hrc : root_children (root t') = root_children (root t) ++
  (if decide (parent = root_id t) then [id] else []).
Hypothesis Hentry : ∀ x, get_entry t' x =
  if decide (x = id) then
    Some {| validated_block := b; entry_is_coherent := false;
            children_blocks := find_children (bt_tree t) id |}
  else if decide (x = parent) then push_child id <$> get_entry t x
  else get_entry t x.

Lemma add_entry_old x e' :
  get_entry t' x = Some e' → x ≠ id →
  ∃ e, get_entry t x = Some e ∧ entry_block e' = entry_block e ∧
    entry_is_coherent e' = entry_is_coherent e ∧
    children_blocks e' = children_blocks e ++ (if decide (x = parent) then [id] else []).
Proof using Hentry.
  rewrite Hentry. intros He Hx. rewrite decide_False in He by done. destruct (decide (x = parent)) as [_|_].
  - apply fmap_Some in He as (e & He & ->). by exists e.
  - exists e'. split_and!; try done. by rewrite app_nil_r.
Qed.

Lemma add_child_of p c : child_of t' p c ↔ child_of t p c ∨ c = id ∧ p = parent.
Proof using Hentry Hnew.
  unfold child_of. rewrite Hentry. destruct (decide (c = id)) as [->|Hc].
  - rewrite Hnew. clear Hentry. split.
    + intros (e & [= <-] & Hp). by right.
    + intros [(? & ? & _)|[_ ->]]; [done|]. by eexists.
  - destruct (decide (c = parent)) as [Hcp|Hcp].
    + split.
      * intros (e' & (e & He & ->)%fmap_Some & Hp). left. by exists e.
      * intros [(e & He & Hp)|[? _]]; [|done]. rewrite He. by eexists.
    + split; [by auto|]. by intros [?|[? _]].
Qed.

Lemma add_id_not_root : id ≠ root_id t.
Proof using Ht Hb Habove.
  intros Heq. destruct Hb as (Hr & _). fold id in Hr. rewrite Heq, (ok_root t Ht) in Hr. lia.
Qed.

Lemma add_root_id : root_id t' = root_id t.
Proof using Hinfo. unfold root_id. by rewrite Hinfo. Qed.

Lemma add_is_coherent x : is_coherent t' x = is_coherent t x.
Proof using Ht Hb Habove Hinfo Hentry Hnew.
  unfold is_coherent. rewrite add_root_id, Hentry. destruct (decide (x = root_id t)); [done|].
  destruct (decide (x = id)) as [->|_]; [by rewrite Hnew|].
  destruct (decide (x = parent)); [|done]. by destruct (get_entry t x).
Qed.

Lemma NoDup_snoc_new l (P : Prop) `{Decision P} :
  NoDup l → id ∉ l → NoDup (l ++ (if decide P then [id] else [])).
Proof using.
  intros Hl Hn. destruct (decide P); [|by rewrite app_nil_r]. apply NoDup_app. split_and!; [done| |apply NoDup_singleton].
  intros x Hx Hx'%list_elem_of_singleton. by subst.
Qed.

Lemma not_child_yet p : ¬ child_of t p id.
Proof using Hnew. intros (e & He & _). congruence. Qed.

Lemma add_bt_ok : bt_ok t'.
Proof using All.
  constructor.
  - done.
  - rewrite add_root_id, Hinfo. apply Ht.
  - intros x e' He'. destruct (decide (x = id)) as [->|Hx].
    + rewrite Hentry, decide_True in He' by done. injection He' as <-. rewrite Hinfo. done.
    + destruct (add_entry_old _ _ He' Hx) as (e & He & -> & _). rewrite Hinfo. by apply Ht.
  - intros x e' He'. destruct (decide (x = id)) as [->|Hx].
    + rewrite Hentry, decide_True in He' by done. injection He' as <-. cbn.
      split; [apply find_children_NoDup|]. intros c. rewrite find_children_spec, add_child_of by done.
      split; [by auto|]. intros [?|[-> Heq]]; [done|]. exfalso.
      destruct Hb as (Hr & Hp & Hlt & _). unfold id, parent in Heq. rewrite <- Heq in Hp. lia.
    + destruct (add_entry_old _ _ He' Hx) as (e & He & _ & _ & ->).
      destruct (ok_children t Ht _ _ He) as [Hnd Hch].
      split; [apply NoDup_snoc_new; [done|]; rewrite Hch; apply not_child_yet|].
      intros c. rewrite elem_of_app, add_child_of, Hch. destruct (decide (x = parent)).
      * rewrite list_elem_of_singleton. naive_solver.
      * rewrite elem_of_nil. naive_solver.
  - rewrite Hrc, add_root_id. destruct (ok_root_children t Ht) as [Hnd Hch].
    split; [apply NoDup_snoc_new; [done|]; rewrite Hch; apply not_child_yet|].
    intros c. rewrite elem_of_app, add_child_of, Hch. destruct (decide (parent = root_id t)).
    + rewrite list_elem_of_singleton. naive_solver.
    + rewrite elem_of_nil. naive_solver.
  - intros x e' He' Hc. destruct (decide (x = id)) as [->|Hx].
    + rewrite Hentry, decide_True in He' by done. by injection He' as <-.
    + destruct (add_entry_old _ _ He' Hx) as (e & He & -> & Hce & _). rewrite add_is_coherent.
      eapply (ok_coherent t Ht x); [done|]. by rewrite <- Hce.
Qed.
End add_ok.

Lemma bt_ok_new r : round_of (root_block_id r) = root_round r → bt_ok (BlockTree_new r).
Proof.
  intros Hr. assert (∀ x, get_entry (BlockTree_new r) x = None) as Hn by (intros x; apply lookup_empty).
  constructor; try (intros x e He; by rewrite Hn in He).
  - apply payloads_ok_default.
  - done.
  - split; [apply NoDup_nil_2|]. intros c. cbn. rewrite elem_of_nil. split; [done|].
    intros (e & He & _). by rewrite Hn in He.
Qed.

Lemma add_keeps_ok t b t' : bt_ok t → block_ok (deref b) → add t b = Ret t' → bt_ok t'.
Proof.
  intros Ht Hb Hadd. destruct (is_valid_to_insert t (header (deref b))) eqn:Hv.
  - destruct (add_spec t b Ht Hb Hv) as (t'' & Hadd' & Hpay & Hinfo & Hrc & Hentry).
    rewrite Hadd in Hadd'. injection Hadd' as <-.
    apply andb_true_iff in Hv as [Hn%bool_decide_eq_true Hr%bool_decide_eq_true].
    by eapply (add_bt_ok t t' b).
  - unfold add in Hadd. rewrite Hv in Hadd. by injection Hadd as <-.
Qed.

(** ** Committing a branch *)

Lemma vb_id_entry t id e : bt_ok t → get_entry t id = Some e → vb_id (validated_block e) = id.
Proof. intros Ht He. by destruct (ok_block t Ht id e He). Qed.

(** Removing one more block of a path. *)
Lemma minus_path_snoc (m : gmap BlockId BlockTreeEntry) l b x :
  (if decide (x ∈ vb_id <$> l) then None else delete (vb_id b) m !! x) =
  if decide (x ∈ vb_id <$> l ++ [b]) then None else m !! x.
Proof.
  rewrite fmap_app. cbn. destruct (decide (x ∈ vb_id <$> l)) as [Hx|Hx].
  { rewrite decide_True; [done|]. apply elem_of_app. by left. }
  destruct (decide (x = vb_id b)) as [->|Hne].
  { rewrite decide_True, lookup_delete_eq; [done|]. apply elem_of_app. right. left. }
  rewrite lookup_delete_ne, decide_False; [done| |done].
  rewrite elem_of_app, list_elem_of_singleton. naive_solver.
Qed.

Lemma commit_loop_spec t pid l :
  bt_ok t → path_from_root t pid l → Forall (λ b, is_coherent t (vb_id b) = true) l →
  ∀ id e fuel tr commit,
    get_entry t id = Some e → blk_get_parent_id (entry_block e) = pid → entry_is_coherent e = true →
    payloads_ok tr → (∀ x, (round_of x < round_of id)%N → tree tr !! x = get_entry t x) →
    length l < fuel →
    ∃ tr', commit_loop fuel (root_id t) tr e commit =
             Ret (commit ++ reverse (l ++ [validated_block e]), tr') ∧
      payloads_ok tr' ∧
      ∀ x, tree tr' !! x = if decide (x ∈ vb_id <$> l) then None else tree tr !! x.
Proof.
  intros Ht Hl. induction Hl as [|pid e' l He' Hl IH]; intros Hall id e fuel tr commit He Hp Hc Hok Hag Hf;
    (destruct fuel as [|fuel]; [lia|]); cbn [commit_loop]; rewrite assert_true by done;
    cbn [mbind run_bind]; rewrite Hp.
  - rewrite decide_True by done. exists tr. split_and!; [done|done|]. intros x.
    rewrite decide_False; [done|apply not_elem_of_nil].
  - apply Forall_app in Hall as [Hall [Hlast' _]%Forall_cons].
    assert (is_coherent t pid = true) as Hlast
      by (rewrite <- (vb_id_entry t pid e' Ht He'); exact Hlast').
    assert (pid ≠ root_id t) as Hpid by (intros ->; by rewrite (root_not_in_tree t Ht) in He').
    unfold is_coherent in Hlast. rewrite decide_False, He' in Hlast by done.
    rewrite decide_False by done.
    destruct (tree_remove_spec tr pid Hok) as (tr1 & -> & Htr1 & Hok1).
    destruct (entry_rounds t Ht _ _ He) as (_ & _ & _ & Hlt). rewrite Hp in Hlt.
    rewrite Hag, He' by done. cbn [expect mbind run_bind].
    rewrite length_app in Hf. cbn in Hf.
    destruct (IH Hall pid e' fuel tr1 (commit ++ [validated_block e]) He' eq_refl Hlast Hok1)
      as (tr' & Hrun & Hok' & Htr').
    { intros x Hx. rewrite Htr1, lookup_delete_ne by (intros ->; lia). apply Hag. lia. }
    { lia. }
    exists tr'. split_and!; [|done|].
    + rewrite Hrun, (reverse_app _ [validated_block e]), <- (assoc_L (++)). done.
    + intros x. by rewrite Htr', Htr1, <- minus_path_snoc, (vb_id_entry t pid e').
Qed.

Lemma remove_all_spec ids tr :
  payloads_ok tr →
  ∃ tr', remove_all tr ids = Ret tr' ∧ payloads_ok tr' ∧
    ∀ x, tree tr' !! x = if decide (x ∈ ids) then None else tree tr !! x.
Proof.
  revert tr. induction ids as [|id ids IH]; intros tr Hok; cbn [remove_all].
  - exists tr. split_and!; [done|done|]. intros x. rewrite decide_False; [done|apply not_elem_of_nil].
  - destruct (tree_remove_spec tr id Hok) as (tr1 & -> & Htr1 & Hok1). cbn [mbind run_bind].
    destruct (IH tr1 Hok1) as (tr' & -> & Hok' & Htr'). exists tr'. split_and!; [done|done|].
    intros x. rewrite Htr', Htr1. destruct (decide (x ∈ ids)) as [Hx|Hx].
    { rewrite decide_True; [done|]. by right. }
    destruct (decide (x = id)) as [->|Hne].
    { rewrite decide_True, lookup_delete_eq; [done|]. left. }
    rewrite lookup_delete_ne, decide_False; [done| |done]. rewrite elem_of_cons. naive_solver.
Qed.

Lemma elem_of_blocks_to_delete tr r x :
  x ∈ blocks_to_delete tr r ↔
  ∃ e, tree tr !! x = Some e ∧ (blk_get_parent_round (entry_block e) < r)%N.
Proof.
  unfold blocks_to_delete. rewrite list_elem_of_fmap. split.
  - intros ([y e] & -> & Hin). apply list_elem_of_filter in Hin as [Hr Hin].
    rewrite hash_iter_perm, elem_of_map_to_list in Hin. by exists e.
  - intros (e & He & Hr). exists (x, e). split; [done|]. apply list_elem_of_filter.
    split; [done|]. by rewrite hash_iter_perm, elem_of_map_to_list.
Qed.

(** A path is no longer than the tree. *)
Lemma path_length t id l : bt_ok t → path_from_root t id l → length l ≤ size (tree (bt_tree t)).
Proof.
  intros Ht Hl. rewrite <- (length_fmap vb_id l), <- (length_map_to_list (tree (bt_tree t))),
    <- (length_fmap fst (map_to_list _)).
  apply submseteq_length, NoDup_submseteq; [by eapply path_NoDup|].
  intros x (b & -> & Hb)%list_elem_of_fmap.
  destruct (path_member t Ht _ _ _ Hl Hb) as (e & He & _). apply list_elem_of_fmap.
  exists (vb_id b, e). split; [done|]. by apply elem_of_map_to_list.
Qed.

(** What [prune] keeps. *)
Definition kept (t : BlockTree) (l : list ValidatedBlock) (r : Round) (x : BlockId) :
    option BlockTreeEntry :=
  match get_entry t x with
  | Some e => if decide (x ∈ vb_id <$> l ∨ (blk_get_parent_round (entry_block e) < r)%N) then None
              else Some e
  | None => None
  end.

Lemma prune_spec t nr e l :
  bt_ok t → get_entry t nr = Some e → entry_is_coherent e = true → path_from_root t nr l →
  ∃ t', prune t nr = Ret (l, t') ∧ payloads_ok (bt_tree t') ∧
    root t' = {| info := {| root_round := blk_get_block_round (entry_block e);
                            root_seq_num := blk_get_seq_num (entry_block e);
                            root_epoch := blk_get_epoch (entry_block e);
                            root_block_id := nr;
                            root_timestamp_ns := blk_get_timestamp (entry_block e) |};
                 root_children := children_blocks e |} ∧
    ∀ x, get_entry t' x = kept t l (blk_get_block_round (entry_block e)) x.
Proof.
  intros Ht He Hc Hl.
  assert (nr ≠ root_id t) as Hnr by (intros ->; by rewrite (root_not_in_tree t Ht) in He).
  assert (is_coherent t nr = true) as Hcoh by (unfold is_coherent; by rewrite decide_False, He).
  destruct (coherent_path t Ht nr Hcoh) as (l' & Hl' & Hall).
  rewrite (path_unique t Ht _ _ _ Hl' Hl) in *. clear l' Hl'.
  unfold prune. rewrite assert_true by done. cbn [mbind run_bind]. rewrite decide_False by done.
  destruct (tree_remove_spec (bt_tree t) nr (ok_payloads t Ht)) as (tr1 & -> & Htr1 & Hok1).
  fold (get_entry t nr). rewrite He. cbn [expect mbind run_bind].
  pose proof (path_length t nr l Ht Hl) as Hlen.
  destruct (path_inv t nr l Hl Hnr) as (e' & l0 & He' & Hl0 & ->). rewrite He in He'. injection He' as <-.
  apply Forall_app in Hall as [Hall _]. rewrite length_app in Hlen. cbn in Hlen.
  destruct (commit_loop_spec t _ l0 Ht Hl0 Hall nr e (fuel_of t) tr1 [] He eq_refl Hc Hok1)
    as (tr2 & -> & Hok2 & Htr2).
  { intros x Hx. rewrite Htr1, lookup_delete_ne by (intros ->; lia). done. }
  { unfold fuel_of. lia. }
  cbn [mbind run_bind app].
  destruct (remove_all_spec (blocks_to_delete tr2 (blk_get_block_round (entry_block e))) tr2 Hok2)
    as (tr3 & -> & Hok3 & Htr3). cbn [mbind run_bind].
  rewrite reverse_involutive. eexists. split; [done|]. split; [done|].
  destruct (ok_block t Ht nr e He) as (Hid & _). rewrite Hid. split; [done|].
  assert (∀ x, tree tr2 !! x = if decide (x ∈ vb_id <$> l0 ++ [validated_block e]) then None
                               else get_entry t x) as Htr2'.
  { intros x. unfold get_entry. by rewrite Htr2, Htr1, <- minus_path_snoc, (vb_id_entry t nr e). }
  intros x. unfold kept. unfold get_entry at 1. cbn. rewrite Htr3.
  pose proof (elem_of_blocks_to_delete tr2 (blk_get_block_round (entry_block e)) x) as Hdel.
  rewrite Htr2' in *.
  destruct (decide (x ∈ vb_id <$> l0 ++ [validated_block e])) as [Hx|Hx].
  - rewrite decide_False by (intros (? & ? & _)%Hdel; done).
    destruct (get_entry t x); [|done]. by rewrite decide_True by (by left).
  - destruct (get_entry t x) as [ex|]; [|by destruct (decide (x ∈ blocks_to_delete _ _))].
    destruct (decide (blk_get_parent_round (entry_block ex) < blk_get_block_round (entry_block e))%N) as [Hr|Hr].
    + rewrite !decide_True; [done|by right|]. apply Hdel. by exists ex.
    + rewrite !decide_False; [done|by intros [?|?]|]. intros (? & [= <-] & ?)%Hdel. done.
Qed.

(** Consensus safety, as far as [prune] relies on it: a block of the tree that
    some block of the tree certifies (so has a QC) and whose round is not below
    the committed one is the committed block or extends it, hence its parent's
    round is not below the committed one. *)
Definition certified_extends (t : BlockTree) (nr : BlockId) : Prop :=
  ∀ p ep c, get_entry t p = Some ep → child_of t p c → (round_of nr ≤ round_of p)%N →
    p = nr ∨ (round_of nr ≤ blk_get_parent_round (entry_block ep))%N.

Section prune_ok.
Context (t t' : BlockTree) (nr : BlockId) (e : BlockTreeEntry) (l : list ValidatedBlock).
Hypothesis Ht : bt_ok t.
Hypothesis He : get_entry t nr = Some e.
Hypothesis Hl : path_from_root t nr l.
Hypothesis Hsafe : certified_extends t nr.
Hypothesis Hpay : payloads_ok (bt_tree t').
Hypothesis Hroot : root_id t' = nr.
Hypothesis Hround : root_round (info (root t')) = round_of nr.
Hypothesis Hrc : root_children (root t') = children_blocks e.
Hypothesis Hentry : ∀ x, get_entry t' x = kept t l (round_of nr) x.

Lemma kept_Some x ex :
  get_entry t' x = Some ex ↔
  get_entry t x = Some ex ∧ (round_of nr ≤ blk_get_parent_round (entry_block ex))%N.
Proof using Ht Hl Hentry.
  clear Hround Hroot. rewrite Hentry. unfold kept. destruct (get_entry t x) as [e0|] eqn:Hx; [|split; [done|by intros [? _]]].
  destruct (decide (x ∈ vb_id <$> l ∨ _)) as [Hor|Hnor].
  - split; [done|]. intros [[= ->] Hle]. destruct Hor as [Hin|?]; [|lia].
    apply list_elem_of_fmap in Hin as (b & -> & Hb).
    destruct (path_member t Ht _ _ _ Hl Hb) as (e1 & He1 & _ & Hr).
    destruct (entry_rounds t Ht _ _ Hx) as (_ & _ & Hp & Hlt). lia.
  - split; [intros [= <-]|by intros [[= <-] _]]. split; [done|]. apply N.nlt_ge. intros ?. apply Hnor. by right.
Qed.

(** The children of what is kept are kept. *)
Lemma kept_child p c :
  (round_of nr ≤ round_of p)%N → child_of t' p c ↔ child_of t p c.
Proof using Ht Hl Hentry.
  intros Hp. split; intros (ec & Hec & Hpc).
  - apply kept_Some in Hec as [? _]. by exists ec.
  - exists ec. split; [|done]. apply kept_Some. split; [done|].
    destruct (entry_rounds t Ht _ _ Hec) as (_ & _ & <- & _). by rewrite Hpc.
Qed.

Lemma prune_bt_ok : bt_ok t'.
Proof using All.
  constructor.
  - done.
  - by rewrite Hroot, Hround.
  - intros x ex [Hx Hle]%kept_Some. destruct (ok_block t Ht x ex Hx) as (Hid & Hok & _).
    split_and!; [done|done|]. rewrite Hround. destruct Hok as (_ & _ & Hlt & _). lia.
  - intros x ex [Hx Hle]%kept_Some. destruct (ok_children t Ht _ _ Hx) as [Hnd Hch].
    split; [done|]. intros c. rewrite kept_child; [done|].
    destruct (entry_rounds t Ht _ _ Hx) as (_ & _ & Hp & Hlt). lia.
  - rewrite Hrc, Hroot. destruct (ok_children t Ht _ _ He) as [Hnd Hch]. split; [done|].
    intros c. by rewrite kept_child.
  - intros x ex [Hx Hle]%kept_Some Hc. set (p := blk_get_parent_id (entry_block ex)).
    unfold is_coherent. rewrite Hroot. destruct (decide (p = nr)) as [|Hpnr]; [done|].
    pose proof (ok_coherent t Ht _ _ Hx Hc) as Hcp. fold p in Hcp. unfold is_coherent in Hcp.
    destruct (entry_rounds t Ht _ _ Hx) as (_ & _ & Hpr & _). fold p in Hpr.
    destruct (entry_rounds t Ht _ _ He) as (_ & Habove & _).
    destruct (decide (p = root_id t)) as [Hpr'|_].
    { rewrite Hpr', (ok_root t Ht) in Hpr. lia. }
    destruct (get_entry t p) as [ep|] eqn:Hep; [|done].
    destruct (Hsafe p ep x Hep) as [?|Hle']; [by exists ex|lia|done|].
    assert (get_entry t' p = Some ep) as -> by by apply kept_Some. done.
Qed.
End prune_ok.

(** The branches above the new root survive. *)
Lemma prune_path t t' nr e l x lx :
  bt_ok t → get_entry t nr = Some e → path_from_root t nr l → root_id t' = nr →
  (∀ x, get_entry t' x = kept t l (round_of nr) x) →
  path_from_root t x lx → l `prefix_of` lx → ∃ l', lx = l ++ l' ∧ path_from_root t' x l'.
Proof.
  intros Ht He Hl Hroot Hentry Hx. induction Hx as [|x ex lx Hex Hlx IH]; intros Hpre.
  - apply prefix_nil_inv in Hpre as ->. exfalso.
    destruct (path_inv t nr [] Hl) as (? & l0 & _ & _ & Hnil); [|by destruct l0].
    intros ->. by rewrite (root_not_in_tree t Ht) in He.
  - destruct Hpre as [k Hk]. destruct k as [|v k _] using rev_ind.
    + rewrite app_nil_r in Hk. exists []. rewrite app_nil_r. split; [done|].
      assert (x = nr) as ->; [|rewrite <- Hroot; apply path_root].
      assert (nr ≠ root_id t) as Hne by (intros ->; by rewrite (root_not_in_tree t Ht) in He).
      destruct (path_inv t nr l Hl Hne) as (e' & l0 & He' & _ & Hl0). rewrite Hl0 in Hk.
      apply app_inj_tail in Hk as [_ Hv].
      rewrite <- (vb_id_entry t x ex Ht Hex), <- (vb_id_entry t nr e' Ht He'). by rewrite Hv.
    + rewrite (assoc_L (++)) in Hk. apply app_inj_tail in Hk as [-> <-].
      destruct IH as (l' & Hl' & Hp'); [by exists k|]. apply app_inv_head in Hl' as <-.
      exists (k ++ [validated_block ex]). rewrite (assoc_L (++)). split; [done|].
      apply path_snoc; [|done]. apply (kept_Some t t' nr l Ht Hl Hentry). split; [done|].
      destruct (entry_rounds t Ht _ _ Hex) as (_ & _ & <- & _).
      assert (nr ≠ root_id t) as Hne by (intros ->; by rewrite (root_not_in_tree t Ht) in He).
      destruct (path_inv t nr l Hl Hne) as (e' & l0 & He' & _ & Hl0).
      destruct (path_member t Ht _ _ (validated_block e') Hlx) as (_ & _ & _ & Hle).
      { rewrite Hl0, !elem_of_app. left. right. left. }
      by rewrite (vb_id_entry t nr e' Ht He') in Hle.
Qed.

(** ** Trees with the same blocks *)

(** The trees have the same blocks, with the same links. *)
Definition same_blocks (t t' : BlockTree) : Prop :=
  root t' = root t ∧
  ∀ x, (λ e, (validated_block e, children_blocks e)) <$> get_entry t' x =
       (λ e, (validated_block e, children_blocks e)) <$> get_entry t x.

Lemma same_blocks_entry t t' x e :
  same_blocks t t' → get_entry t x = Some e →
  ∃ e', get_entry t' x = Some e' ∧ validated_block e' = validated_block e ∧
    children_blocks e' = children_blocks e.
Proof.
  intros [_ Hs] He. specialize (Hs x). rewrite He in Hs. cbn in Hs.
  apply fmap_Some in Hs as (e' & He' & [= -> ->]). by exists e'.
Qed.

Lemma same_blocks_sym t t' : same_blocks t t' → same_blocks t' t.
Proof. intros [Hr Hs]. split; [done|]. intros x. by rewrite Hs. Qed.

Lemma same_blocks_trans t1 t2 t3 : same_blocks t1 t2 → same_blocks t2 t3 → same_blocks t1 t3.
Proof. intros [Hr Hs] [Hr' Hs']. split; [by rewrite Hr'|]. intros x. by rewrite Hs'. Qed.

Lemma same_blocks_child t t' p c : same_blocks t t' → child_of t p c → child_of t' p c.
Proof.
  intros Hs (e & He & Hp). destruct (same_blocks_entry t t' c e Hs He) as (e' & He' & Hb & _).
  exists e'. split; [done|]. unfold entry_block in *. by rewrite Hb.
Qed.

Lemma same_blocks_path t t' x l : same_blocks t t' → path_from_root t x l → path_from_root t' x l.
Proof.
  intros Hs. induction 1 as [|x e l He Hl IH].
  - replace (root_id t) with (root_id t'); [apply path_root|]. unfold root_id. by rewrite (proj1 Hs).
  - destruct (same_blocks_entry t t' x e Hs He) as (e' & He' & Hb & _). rewrite <- Hb.
    apply path_snoc; [done|]. unfold entry_block in *. by rewrite Hb.
Qed.

Lemma same_blocks_size t t' :
  same_blocks t t' → size (tree (bt_tree t')) = size (tree (bt_tree t)).
Proof.
  intros [_ Hs]. rewrite <- !size_dom. f_equal. apply set_eq. intros x. rewrite !elem_of_dom.
  specialize (Hs x). unfold get_entry in Hs.
  rewrite <- (fmap_is_Some (λ e, (validated_block e, children_blocks e)) (tree (bt_tree t') !! x)),
    Hs, fmap_is_Some. done.
Qed.

(** The tree after [set_coherent(x, true)]. *)
Definition mark (t : BlockTree) (x : BlockId) (e : BlockTreeEntry) : BlockTree :=
  {| root := root t;
     bt_tree := {| tree := <[x := with_coherent e true]> (tree (bt_tree t));
                   payloads := payloads (bt_tree t) |} |}.

Lemma mark_entry t x e y :
  get_entry (mark t x e) y = if decide (y = x) then Some (with_coherent e true) else get_entry t y.
Proof. unfold get_entry, mark. cbn. rewrite lookup_insert. by repeat case_decide. Qed.

Lemma mark_same_blocks t x e : get_entry t x = Some e → same_blocks t (mark t x e).
Proof.
  intros He. split; [done|]. intros y. rewrite mark_entry. case_decide; [subst y|done]. by rewrite He.
Qed.

Lemma mark_coherent t x e y :
  get_entry t x = Some e →
  is_coherent (mark t x e) y = true ↔ is_coherent t y = true ∨ y = x.
Proof.
  clear round_of. intros He. unfold is_coherent. change (root_id (mark t x e)) with (root_id t). rewrite mark_entry.
  destruct (decide (y = root_id t)); [by naive_solver|].
  destruct (decide (y = x)) as [->|]; [cbn; naive_solver|]. naive_solver.
Qed.

Lemma mark_ok t x e :
  bt_ok t → get_entry t x = Some e →
  is_coherent t (blk_get_parent_id (entry_block e)) = true → bt_ok (mark t x e).
Proof.
  intros Ht He Hpar. pose proof (mark_same_blocks t x e He) as Hs.
  assert (∀ y e', get_entry (mark t x e) y = Some e' → ∃ e0, get_entry t y = Some e0 ∧
    entry_block e' = entry_block e0 ∧ children_blocks e' = children_blocks e0 ∧
    (entry_is_coherent e' = true → is_coherent t (blk_get_parent_id (entry_block e0)) = true)) as Hold.
  { intros y e'. rewrite mark_entry. case_decide as Hy.
    - intros [= <-]. subst y. by exists e.
    - intros Hy'. exists e'. split_and!; try done. by apply (ok_coherent t Ht y). }
  assert (∀ p c, child_of (mark t x e) p c ↔ child_of t p c) as Hch.
  { intros p c. split; apply same_blocks_child; [by apply same_blocks_sym|done]. }
  constructor.
  - apply (payloads_ok_ext (bt_tree t)); [|reflexivity|exact (ok_payloads t Ht)].
    intros y. change (tree (bt_tree (mark t x e)) !! y) with (get_entry (mark t x e) y).
    rewrite mark_entry. case_decide; [subst y|done]. unfold get_entry in He. by rewrite He.
  - exact (ok_root t Ht).
  - intros y e' (e0 & He0 & -> & _)%Hold. by apply (ok_block t Ht).
  - intros y e' (e0 & He0 & _ & -> & _)%Hold. destruct (ok_children t Ht _ _ He0) as [Hnd Hc].
    split; [done|]. intros c. by rewrite Hch, Hc.
  - destruct (ok_root_children t Ht) as [Hnd Hc]. split; [done|]. intros c. by rewrite Hch, <- Hc.
  - intros y e' (e0 & He0 & -> & _ & Hcoh)%Hold Hc. apply mark_coherent; [done|]. left. by apply Hcoh.
Qed.

(** ** Filling the gap to the root *)

(** [missing_link t id m]: walking from [id] towards the root, [m] is the first
    block that is not in the tree. *)
Inductive missing_link (t : BlockTree) : BlockId → BlockId → Prop :=
| missing_here id : get_entry t id = None → missing_link t id id
| missing_up id e m :
    get_entry t id = Some e → missing_link t (blk_get_parent_id (entry_block e)) m →
    missing_link t id m.

(** The number of blocks to ask for: one when nothing is known above the gap,
    and otherwise what the sequence number above the gap says, at least one. *)
Definition gap_size (t : BlockTree) (id : BlockId) (default_num : SeqNum) (range : BlockRange) : Prop :=
  last_block_id range = id ∧ num_blocks range = default_num ∨
  ∃ x e, get_entry t x = Some e ∧ blk_get_parent_id (entry_block e) = last_block_id range ∧
    num_blocks range =
      ((blk_get_seq_num (entry_block e) - root_seq_num (info (root t))) `max` 2 - 1)%N.

Lemma fill_loop_spec t fuel id n :
  bt_ok t →
  (∀ x e, get_entry t x = Some e →
     (root_seq_num (info (root t)) ≤ blk_get_seq_num (entry_block e))%N) →
  below t id < fuel → id ≠ root_id t →
  ∃ r, fill_loop fuel t id n = Ret r ∧
    match r with
    | None => ∃ l, path_from_root t id l
    | Some range => missing_link t id (last_block_id range) ∧ last_block_id range ≠ root_id t ∧
                    gap_size t id n range
    end.
Proof.
  intros Ht Hseq. revert id n. induction fuel as [|fuel IH]; intros id n Hf Hne; [lia|]. cbn [fill_loop].
  destruct (get_entry t id) as [e|] eqn:He.
  2: { eexists. split; [done|]. split_and!; [by apply missing_here|done|by left]. }
  case_decide as Hp.
  { eexists. split; [done|]. eexists. apply path_snoc; [done|]. rewrite Hp. apply path_root. }
  unfold SeqNum_sub. specialize (Hseq id e He) as Hs.
  rewrite (proj2 (u64_checked_sub_Some _ _ _) (conj Hs eq_refl)). cbn [expect mbind run_bind].
  assert (1 ≤ (blk_get_seq_num (entry_block e) - root_seq_num (info (root t))) `max` 2)%N as Hone by lia.
  rewrite (proj2 (u64_checked_sub_Some _ _ _) (conj Hone eq_refl)). cbn [expect mbind run_bind].
  pose proof (below_parent t Ht _ _ He).
  destruct (IH (blk_get_parent_id (entry_block e))
    ((blk_get_seq_num (entry_block e) - root_seq_num (info (root t))) `max` 2 - 1)%N) as (r & -> & Hr);
    [lia|done|].
  exists r. split; [done|]. destruct r as [range|].
  - destruct Hr as (Hm & Hnr & Hg). split_and!; [by eapply missing_up|done|]. right.
    destruct Hg as [[Hlast Hnum]|?]; [|done]. exists id, e. by rewrite Hlast, Hnum.
  - destruct Hr as [l Hl]. eexists. by eapply path_snoc.
Qed.

Lemma missing_no_path t id m l :
  bt_ok t → missing_link t id m → m ≠ root_id t → ¬ path_from_root t id l.
Proof.
  intros Ht Hm. revert l. induction Hm as [id Hn|id e m He Hm IH]; intros l Hne Hl.
  - destruct (path_inv t id l Hl) as (e & _ & He & _); [done|congruence].
  - inversion Hl as [Hr|id' e' l' He' Hl']; subst.
    + by rewrite (root_not_in_tree t Ht) in He.
    + rewrite He in He'. injection He' as <-. by eapply IH.
Qed.

(** ** Theorems *)

(** [add] keeps the tree well formed and does exactly what it says: a block
    already present or not above the root is ignored; any other block is stored,
    not yet coherent, and the root, the other blocks and their coherence do not
    change. *)
Theorem block_tree_add_correct (t : BlockTree) (b : ValidatedBlock) :
  bt_ok t → block_ok (deref b) →
  ∃ t', add t b = Ret t' ∧ bt_ok t' ∧ info (root t') = info (root t) ∧
    (∀ x, is_coherent t' x = is_coherent t x) ∧
    (∀ x, x ≠ vb_id b → get_block t' x = get_block t x) ∧
    get_block t' (vb_id b) =
      match get_block t (vb_id b) with
      | Some b' => Some b'
      | None => if decide (root_round (info (root t)) < blk_get_block_round (deref b))%N
                then Some b else None
      end.
Proof.
  intros Ht Hb. destruct (is_valid_to_insert t (header (deref b))) eqn:Hv.
  - destruct (add_spec t b Ht Hb Hv) as (t' & Hadd & Hpay & Hinfo & Hrc & Hentry).
    assert (bt_ok t') as Hok by (by eapply (add_keeps_ok t b)).
    apply andb_true_iff in Hv as [Hn%bool_decide_eq_true Hr%bool_decide_eq_true].
    exists t'. split_and!; [done|done|done| | |].
    + intros x. by eapply (add_is_coherent t t' b).
    + intros x Hx. unfold get_block. rewrite Hentry, decide_False by exact Hx.
      destruct (decide (x = blk_get_parent_id (deref b))); [|done]. by destruct (get_entry t x).
    + unfold get_block. fold (vb_id b) in Hentry. rewrite Hentry, decide_True by done.
      change (get_entry t (vb_id b)) with (get_entry t (get_id (header (deref b)))). rewrite Hn. cbn.
      by rewrite decide_True by exact Hr.
  - exists t. unfold add. rewrite Hv. split_and!; try done.
    destruct (get_block t (vb_id b)) eqn:Hg; [done|]. rewrite decide_False; [done|]. intros Hr.
    unfold is_valid_to_insert in Hv. apply andb_false_iff in Hv as [Hv|Hv];
      apply bool_decide_eq_false in Hv; [|done]. apply Hv. by apply fmap_None in Hg.
Qed.


(** C38: [maybe_fill_path_to_root] asks for blocks exactly when the QC is above
    the root and its block is not connected to it; the range it returns ends in
    the first block missing on the way down from the QC and is not empty. *)
Theorem block_tree_fill_path_correct (t : BlockTree) (qc : QuorumCertificate) :
  bt_ok t →
  (∀ x e, get_entry t x = Some e →
     (root_seq_num (info (root t)) ≤ blk_get_seq_num (entry_block e))%N) →
  ∃ r, maybe_fill_path_to_root t qc = Ret r ∧
    (r = None ↔ (qc_get_round qc ≤ root_round (info (root t)))%N ∨
                ∃ l, path_from_root t (qc_get_block_id qc) l) ∧
    ∀ range, r = Some range →
      missing_link t (qc_get_block_id qc) (last_block_id range) ∧
      get_entry t (last_block_id range) = None ∧ last_block_id range ≠ root_id t ∧
      (1 ≤ num_blocks range)%N ∧ gap_size t (qc_get_block_id qc) 1 range.
Proof.
  intros Ht Hseq. unfold maybe_fill_path_to_root.
  destruct (decide (qc_get_round qc ≤ root_round (info (root t)))%N) as [Hle|Hnle].
  { rewrite bool_decide_eq_true_2 by done. eexists. split; [done|]. split; [|done]. naive_solver. }
  rewrite bool_decide_eq_false_2 by done.
  destruct (decide (root_id t = qc_get_block_id qc)) as [Hid|Hid].
  { rewrite bool_decide_eq_true_2 by done. eexists. split; [done|]. split; [|done].
    rewrite <- Hid. split; [|done]. intros _. right. exists []. apply path_root. }
  rewrite bool_decide_eq_false_2 by done. cbn [orb].
  destruct (fill_loop_spec t (fuel_of t) (qc_get_block_id qc) 1 Ht Hseq (below_fuel t _)) as (r & -> & Hr);
    [done|]. exists r. split; [done|]. destruct r as [range|].
  - destruct Hr as (Hm & Hne & Hg). split.
    + split; [done|]. intros [?|[l Hl]]; [done|]. by eapply missing_no_path in Hl.
    + intros ? [= <-]. split_and!; [done| |done| |done].
      * clear -Hm. by induction Hm.
      * destruct Hg as [[_ ->]|(x & e & _ & _ & ->)]; lia.
  - split; [|done]. naive_solver.
Qed.
End invariant.
End block_tree.

(** ** A concrete tree: three blocks on top of each other, the first coherent. *)

#[local] Existing Instance NopProtocol.
#[local] Existing Instance NopCodec.
#[local] Existing Instance list_HashIter.

#[local] Existing Instance example_policy.

Definition example_b : ConsensusFullBlock := example_block 2 (blk_get_id example_a) 1 2.
Definition example_c : ConsensusFullBlock := example_block 3 (blk_get_id example_b) 2 3.

Definition example_root : RootInfo :=
  {| root_round := 0; root_seq_num := 0; root_epoch := 1; root_block_id := 0; root_timestamp_ns := 0 |}.

Definition example_round_of (id : BlockId) : Round :=
  if decide (id = blk_get_id example_a) then 1
  else if decide (id = blk_get_id example_b) then 2
  else if decide (id = blk_get_id example_c) then 3 else 0.

Definition example_add (t : BlockTree) (b : ConsensusFullBlock) : BlockTree :=
  match add t (example_vb b) with Ret t' => t' | Panic => t end.

Definition example_mark (t : BlockTree) (id : BlockId) : BlockTree :=
  match get_entry t id with Some e => mark t id e | None => t end.

Definition example_parent_coherent (t : BlockTree) (id : BlockId) : bool :=
  match get_entry t id with
  | Some e => is_coherent t (blk_get_parent_id (entry_block e))
  | None => true
  end.

Definition example_added : BlockTree :=
  example_add (example_add (BlockTree_new example_root) example_a) example_b.

Definition example_tree : BlockTree := example_mark example_added (blk_get_id example_a).

Lemma example_add_ok t b :
  bt_ok example_round_of t → block_ok example_round_of b → bt_ok example_round_of (example_add t b).
Proof.
  intros Ht Hb. unfold example_add. destruct (add t (example_vb b)) eqn:Ha; [|exact Ht].
  by apply (add_keeps_ok example_round_of t (example_vb b)).
Qed.

Lemma example_mark_ok t id :
  bt_ok example_round_of t → example_parent_coherent t id = true →
  bt_ok example_round_of (example_mark t id).
Proof.
  intros Ht. unfold example_mark, example_parent_coherent.
  destruct (get_entry t id) eqn:He; [|done]. by apply mark_ok.
Qed.

Lemma example_a_ok : block_ok example_round_of example_a.
Proof. split_and!; vm_compute; reflexivity. Qed.

Lemma example_b_ok : block_ok example_round_of example_b.
Proof. split_and!; vm_compute; reflexivity. Qed.

Lemma example_c_ok : block_ok example_round_of example_c.
Proof. split_and!; vm_compute; reflexivity. Qed.

Lemma example_tree_ok : bt_ok example_round_of example_tree.
Proof.
  apply example_mark_ok; [|vm_compute; reflexivity].
  apply example_add_ok; [|exact example_b_ok]. apply example_add_ok; [|exact example_a_ok].
  apply bt_ok_new. vm_compute. reflexivity.
Qed.

Lemma block_tree_add_correct_witness :
  ∃ t', add example_tree (example_vb example_c) = Ret t' ∧ bt_ok example_round_of t' ∧
    info (root t') = example_root.
Proof.
  destruct (block_tree_add_correct example_round_of example_tree (example_vb example_c)
    example_tree_ok example_c_ok) as (t' & Hadd & Hok & Hinfo & _).
  exists t'. split; [exact Hadd|]. split; [exact Hok|]. rewrite Hinfo. vm_compute. reflexivity.
Defined.

(** Every block is the first one or extends it. *)
Lemma example_certified : certified_extends example_round_of example_tree (blk_get_id example_a).
Proof.
  intros p ep c Hp _ _.
  assert (forallb (λ q, bool_decide (q.1 = blk_get_id example_a) ||
    bool_decide (1 ≤ blk_get_parent_round (entry_block q.2))%N) (map_to_list (tree (bt_tree example_tree)))
    = true) as Hall by (vm_compute; reflexivity).
  rewrite forallb_forall in Hall.
  specialize (Hall (p, ep)). rewrite <- list_elem_of_In, elem_of_map_to_list in Hall.
  specialize (Hall Hp). apply orb_true_iff in Hall as [Hx|Hx]; apply bool_decide_eq_true in Hx;
    [by left|right]. exact Hx.
Qed.


Lemma block_tree_fill_path_correct_witness :
  ∃ r, maybe_fill_path_to_root example_tree (blk_get_qc (example_block 5 77 4 5)) = Ret r.
Proof.
  destruct (block_tree_fill_path_correct example_round_of example_tree
    (blk_get_qc (example_block 5 77 4 5)) example_tree_ok) as (r & Hrun & _).
  - intros x e He. apply N.le_0_l.
  - exists r. exact Hrun.
Defined.

(** A fork of the root in a later round goes away with the commit of the first
    block, although its round is higher. *)
Definition example_fork : ConsensusFullBlock := example_block 4 0 0 1.

Example prune_drops_higher_fork :
  (blk_get_block_round example_a < blk_get_block_round example_fork)%N ∧
  match prune (example_add example_tree example_fork) (blk_get_id example_a) with
  | Ret (_, t') => bool_decide (get_entry t' (blk_get_id example_fork) = None)
  | Panic => false
  end = true.
Proof. split; vm_compute; reflexivity. Qed.
