(* ===== verification/BlockTreeSearch.v ===== *)
(** * Searching the block tree ([src/blocktree/src/blocktree.rs])

    The breadth-first traversals of [BlockTree]: marking blocks coherent
    ([try_update_coherency]), finding the QC that commits most
    ([get_high_committable_qc]) and the tip to build on
    ([get_canonical_coherent_tip]).  The loops run on fuel, one more than the
    number of blocks: a traversal visits each block at most once, which is
    proved once for all three. *)
From S2P Require Import Prelude Types SignatureCollection Certificates Tree BlockTree.

Section search.
Context `{Codec, !BlockPolicy, !HashIter}.

(** ** Coherency *)

(** [path.iter().find(|block| !block.is_coherent)]. *)
Fixpoint find_incoherent (self : BlockTree) (path : list ValidatedBlock) : run (option ValidatedBlock) :=
  match path with
  | [] => Ret None
  | block :: path =>
      e ← expect (get_entry self (blk_get_id (deref block)));
      if entry_is_coherent e then find_incoherent self path else Ret (Some block)
  end.

Fixpoint coherency_loop (fuel : nat) (block_policy : BPT) (chain_config : CCT) (self : BlockTree)
    (state_read : ESRT) (block_ids_to_update : list BlockId) (retval : list ValidatedBlock) :
    run (list ValidatedBlock * BlockTree * ESRT) :=
  match fuel with
  | 0 => Panic
  | S fuel =>
      match block_ids_to_update with
      | [] => Ret (retval, self, state_read)
      | next_block_id :: block_ids_to_update =>
          path ← get_blocks_on_path_from_root self next_block_id;
          path ← expect path;
          next_block ← expect (last path);
          let extending_blocks := removelast path in
          '(res, state_read) ← check_coherency block_policy next_block extending_blocks
            (info (root self)) state_read chain_config;
          match res with
          | Ok _ =>
              match set_coherent (bt_tree self) next_block_id true with
              | Err _ => Panic
              | Ok t =>
                  let self := {| root := root self; bt_tree := t |} in
                  e ← expect (get_entry self next_block_id);
                  coherency_loop fuel block_policy chain_config self state_read
                    (block_ids_to_update ++ children_blocks e) (retval ++ [next_block])
              end
          | Err _ =>
              coherency_loop fuel block_policy chain_config self state_read block_ids_to_update retval
          end
      end
  end.

Definition try_update_coherency (self : BlockTree) (block_id : BlockId) (block_policy : BPT)
    (state_read : ESRT) (chain_config : CCT) : run (list ValidatedBlock * BlockTree * ESRT) :=
  path_from_root ← get_blocks_on_path_from_root self block_id;
  match path_from_root with
  | None => Ret ([], self, state_read)
  | Some path_from_root =>
      incoherent_parent_or_self ← find_incoherent self path_from_root;
      match incoherent_parent_or_self with
      | None => Ret ([], self, state_read)
      | Some b =>
          coherency_loop (fuel_of self) block_policy chain_config self state_read
            [blk_get_id (deref b)] []
      end
  end.

(** ** The QC that commits most *)

(** The body of the loop after the children are queued. *)
Definition consider_qc (self : BlockTree) (high_commit_qc : option QuorumCertificate)
    (qc : QuorumCertificate) : run (option QuorumCertificate) :=
  if match high_commit_qc with
     | Some high => bool_decide (qc_get_round qc ≤ qc_get_round high)%N
     | None => false
     end then Ret high_commit_qc
  else
    match get_entry self (qc_get_block_id qc) with
    | None => Ret high_commit_qc
    | Some qc_parent_block =>
        committable ← get_committable_id qc (header (entry_block qc_parent_block));
        match committable with
        | None => Ret high_commit_qc
        | Some committable_block_id =>
            if decide (committable_block_id = root_id self) then Ret high_commit_qc
            else if negb (is_coherent self committable_block_id) then Ret high_commit_qc
            else Ret (Some qc)
        end
    end.

Fixpoint committable_loop (fuel : nat) (self : BlockTree) (iter : list BlockId)
    (high_commit_qc : option QuorumCertificate) : run (option QuorumCertificate) :=
  match fuel with
  | 0 => Panic
  | S fuel =>
      match iter with
      | [] => Ret high_commit_qc
      | bid :: iter =>
          block ← expect (get_entry self bid);
          high_commit_qc ← consider_qc self high_commit_qc (blk_get_qc (entry_block block));
          committable_loop fuel self (iter ++ children_blocks block) high_commit_qc
      end
  end.

Definition get_high_committable_qc (self : BlockTree) : run (option QuorumCertificate) :=
  committable_loop (fuel_of self) self (root_children (root self)) None.

(** ** The canonical coherent tip *)

(** The [find] from the end of the path. *)
Definition highest_coherent (self : BlockTree) (path : list ValidatedBlock) : option ValidatedBlock :=
  find_last (λ block, is_coherent self (blk_get_id (deref block))) path.

Definition get_highest_coherent_block_on_path_from_root (self : BlockTree) (b : BlockId) :
    run (option ValidatedBlock) :=
  path ← get_blocks_on_path_from_root self b;
  Ret (path ≫= highest_coherent self).

(** The [for] over the coherent children. *)
Fixpoint visit_children (self : BlockTree) (children : list BlockId) (best : BlockId * Round)
    (queue : list BlockId) : (BlockId * Round) * list BlockId :=
  match children with
  | [] => (best, queue)
  | child_id :: children =>
      if is_coherent self child_id then
        match get_entry self child_id with
        | None => visit_children self children best queue
        | Some child_entry =>
            let child_round := blk_get_block_round (entry_block child_entry) in
            let best := if decide (best.2 < child_round)%N then (child_id, child_round) else best in
            visit_children self children best (queue ++ [child_id])
        end
      else visit_children self children best queue
  end.

Fixpoint descendant_loop (fuel : nat) (self : BlockTree) (queue : list BlockId)
    (best : BlockId * Round) : run BlockId :=
  match fuel with
  | 0 => Panic
  | S fuel =>
      match queue with
      | [] => Ret best.1
      | current_id :: queue =>
          let children :=
            if decide (current_id = root_id self) then Some (root_children (root self))
            else children_blocks <$> get_entry self current_id in
          match children with
          | None => descendant_loop fuel self queue best
          | Some children =>
              let '(best, queue) := visit_children self children best queue in
              descendant_loop fuel self queue best
          end
      end
  end.

Definition highest_round_coherent_descendant (self : BlockTree) (block_id : BlockId) : run BlockId :=
  let best_round :=
    if decide (block_id = root_id self) then Some (root_round (info (root self)))
    else (blk_get_block_round ∘ entry_block) <$> get_entry self block_id in
  match best_round with
  | None => Ret block_id
  | Some best_round =>
      descendant_loop (S (fuel_of self)) self [block_id] (block_id, best_round)
  end.

Definition get_canonical_coherent_tip (self : BlockTree) (high_cert_qc : QuorumCertificate) :
    run BlockId :=
  path ← get_blocks_on_path_from_root self (qc_get_block_id high_cert_qc);
  match path with
  | None => highest_round_coherent_descendant self (root_id self)
  | Some path =>
      match (λ block, blk_get_id (deref block)) <$> highest_coherent self path with
      | None => Ret (root_id self)
      | Some coherent_tip =>
          if decide (coherent_tip = qc_get_block_id high_cert_qc)
          then highest_round_coherent_descendant self coherent_tip
          else Ret coherent_tip
      end
  end.

(** ** Breadth-first traversals

    [visited] are the blocks taken from the queue so far and [queue] those still
    to visit; [lo] is a round below which the traversal does not go. *)

Section traversal.
Context (round_of : BlockId → Round) (t : BlockTree) (Ht : bt_ok round_of t).

Definition visited_ok (lo : Round) (visited queue : list BlockId) : Prop :=
  NoDup (visited ++ queue) ∧
  ∀ x, x ∈ visited ++ queue → ∃ e, get_entry t x = Some e ∧ (lo ≤ round_of x)%N ∧
    ((round_of (blk_get_parent_id (entry_block e)) < lo)%N ∨
     blk_get_parent_id (entry_block e) ∈ visited).

Lemma visited_ok_step lo visited x queue cs :
  visited_ok lo visited (x :: queue) → NoDup cs → (∀ c, c ∈ cs → child_of t x c) →
  visited_ok lo (visited ++ [x]) (queue ++ cs).
Proof using Ht.
  intros [Hnd Hin] Hcs Hch. assert (x ∈ visited ++ x :: queue) as Hx by (apply elem_of_app; right; left).
  assert (x ∉ visited) as Hxv.
  { rewrite NoDup_app in Hnd. destruct Hnd as (_ & Hd & _). intros Hv. apply (Hd x Hv). left. }
  assert (∀ c, c ∈ cs → ∃ e, get_entry t c = Some e ∧ blk_get_parent_id (entry_block e) = x ∧
    (lo ≤ round_of c)%N ∧ (lo ≤ round_of x)%N) as Hc.
  { intros c (e & He & Hp)%Hch. exists e. destruct (Hin x Hx) as (ex & _ & Hlo & _).
    destruct (entry_rounds round_of t Ht _ _ He) as (_ & _ & _ & Hlt). rewrite Hp in Hlt.
    split_and!; [done|done|lia|done]. }
  split.
  - replace ((visited ++ [x]) ++ queue ++ cs) with ((visited ++ x :: queue) ++ cs)
      by (by rewrite <- !(assoc_L (++))).
    apply NoDup_app. split_and!; [done| |done]. intros c Hcv Hcc.
    destruct (Hc c Hcc) as (e & He & Hp & _ & Hlo). destruct (Hin c Hcv) as (e' & He' & _ & Hor).
    rewrite He in He'. injection He' as <-. rewrite Hp in Hor. destruct Hor as [?|?]; [lia|done].
  - intros y Hy. rewrite !elem_of_app, list_elem_of_singleton in Hy.
    destruct (decide (y ∈ cs)) as [Hyc|Hyc].
    + destruct (Hc y Hyc) as (e & He & Hp & Hlo & _). exists e. split_and!; [done|done|]. right.
      rewrite Hp. apply elem_of_app. right. left.
    + destruct (Hin y) as (e & He & Hlo & Hor).
      { rewrite elem_of_app, elem_of_cons. naive_solver. }
      exists e. split_and!; [done|done|]. destruct Hor as [?|?]; [by left|right].
      apply elem_of_app. by left.
Qed.

Lemma visited_ok_drop lo visited x queue :
  visited_ok lo visited (x :: queue) → visited_ok lo (visited ++ [x]) queue.
Proof using Ht.
  intros Hv. pose proof (visited_ok_step lo visited x queue [] Hv (NoDup_nil_2 ))as Hs.
  rewrite app_nil_r in Hs. apply Hs. by intros c ?%elem_of_nil.
Qed.

Lemma visited_ok_length lo visited queue :
  visited_ok lo visited queue → length (visited ++ queue) ≤ size (tree (bt_tree t)).
Proof.
  intros [Hnd Hin]. rewrite <- (length_map_to_list (tree (bt_tree t))),
    <- (length_fmap fst (map_to_list (tree (bt_tree t)))).
  apply submseteq_length, NoDup_submseteq; [done|]. intros x (e & He & _)%Hin.
  apply list_elem_of_fmap. exists (x, e). split; [done|]. by apply elem_of_map_to_list.
Qed.

(** Starting from blocks whose parent is [start]. *)
Lemma visited_ok_start start cs :
  NoDup cs → (∀ c, c ∈ cs → child_of t start c) → visited_ok (round_of start + 1)%N [] cs.
Proof using Ht.
  intros Hnd Hch. split; [done|]. intros x (e & He & Hp)%Hch. exists e.
  destruct (entry_rounds round_of t Ht _ _ He) as (_ & _ & _ & Hlt). rewrite Hp in *.
  split_and!; [done|lia|left; lia].
Qed.

(** The blocks reached are closed under [E] when the queue is empty. *)
Definition closed_under (E : BlockId → BlockId → Prop) (visited queue : list BlockId) : Prop :=
  ∀ v c, v ∈ visited → E v c → c ∈ visited ++ queue.

Lemma closed_under_step E visited x queue cs :
  closed_under E visited (x :: queue) → (∀ c, E x c → c ∈ cs) →
  closed_under E (visited ++ [x]) (queue ++ cs).
Proof.
  intros Hcl Hx v c Hv Hc. rewrite !elem_of_app, list_elem_of_singleton in *.
  destruct Hv as [Hv| ->]; [|by auto]. specialize (Hcl v c Hv Hc).
  rewrite elem_of_app, elem_of_cons in Hcl. naive_solver.
Qed.

(** ** The QC that commits most *)

(** Rounds are 64-bit numbers. *)
Definition rounds_u64 : Prop :=
  ∀ x e, get_entry t x = Some e → (blk_get_block_round (entry_block e) ≤ u64_MAX)%N.

(** The commit rule: [qc] certifies a block of the tree whose own QC is of the
    round before, and so commits that block's parent, which must be coherent
    and not yet committed. *)
Definition commits (qc : QuorumCertificate) (id : BlockId) : Prop :=
  ∃ e, get_entry t (qc_get_block_id qc) = Some e ∧
    qc_get_round qc = (blk_get_parent_round (entry_block e) + 1)%N ∧
    id = blk_get_parent_id (entry_block e) ∧ id ≠ root_id t ∧ is_coherent t id = true.

Lemma consider_qc_spec high qc :
  rounds_u64 →
  ∃ r, consider_qc t high qc = Ret r ∧
    (r = high ∧ (∃ h, high = Some h ∧ (qc_get_round qc ≤ qc_get_round h)%N) ∨
     r = high ∧ (∀ id, ¬ commits qc id) ∨
     r = Some qc ∧ (∃ id, commits qc id) ∧ ∀ h, high = Some h → (qc_get_round h < qc_get_round qc)%N).
Proof using Ht.
  intros Hu. unfold consider_qc.
  set (seen := match high with Some h => bool_decide (qc_get_round qc ≤ qc_get_round h)%N
               | None => false end).
  destruct seen eqn:Hseen; unfold seen in Hseen; clear seen.
  { destruct high as [h|]; [|done]. apply bool_decide_eq_true in Hseen. eauto 10. }
  assert (∀ h, high = Some h → (qc_get_round h < qc_get_round qc)%N) as Hh.
  { intros h ->. apply bool_decide_eq_false in Hseen. lia. }
  destruct (get_entry t (qc_get_block_id qc)) as [e|] eqn:He.
  2: { exists high. split; [done|]. right. left. split; [done|]. intros id (e & He' & _). congruence. }
  destruct (ok_block _ t Ht _ _ He) as (Hid & (_ & _ & Hlt & _) & _). specialize (Hu _ _ He).
  unfold get_committable_id. rewrite assert_true by (symmetry; exact Hid). cbn [mbind run_bind].
  change (v_round (qc_info (hdr_qc (header (entry_block e))))) with (blk_get_parent_round (entry_block e)).
  rewrite Round_add_ok by lia. cbn [mbind run_bind].
  change (v_round (qc_info qc)) with (qc_get_round qc).
  change (get_parent_id (header (entry_block e))) with (blk_get_parent_id (entry_block e)).
  assert (∀ id, commits qc id → qc_get_round qc = (blk_get_parent_round (entry_block e) + 1)%N ∧
    id = blk_get_parent_id (entry_block e) ∧ id ≠ root_id t ∧ is_coherent t id = true) as Hcom.
  { intros id (e' & He' & Hrest). rewrite He in He'. by injection He' as <-. }
  destruct (decide (qc_get_round qc = (blk_get_parent_round (entry_block e) + 1)%N)) as [Hr|Hr];
    cbn [mbind run_bind].
  2: { exists high. split; [done|]. right. left. split; [done|]. by intros id (? & _)%Hcom. }
  destruct (decide (blk_get_parent_id (entry_block e) = root_id t)) as [Hp|Hp].
  { exists high. split; [done|]. right. left. split; [done|]. by intros id (_ & -> & ? & _)%Hcom. }
  destruct (is_coherent t (blk_get_parent_id (entry_block e))) eqn:Hc; cbn [negb].
  - eexists. split; [done|]. right. right. split_and!; [done| |].
    + eexists. exists e. split_and!; [exact He|exact Hr|reflexivity|exact Hp|exact Hc].
    + exact Hh.
  - exists high. split; [done|]. right. left. split; [done|]. intros id (_ & -> & _ & ?)%Hcom. congruence.
Qed.

(** [high] is the best QC of the blocks in [visited]. *)
Definition best_of (visited : list BlockId) (high : option QuorumCertificate) : Prop :=
  (∀ x e id, x ∈ visited → get_entry t x = Some e → commits (blk_get_qc (entry_block e)) id →
     ∃ h, high = Some h ∧ (blk_get_parent_round (entry_block e) ≤ qc_get_round h)%N) ∧
  ∀ h, high = Some h → ∃ x e id, x ∈ visited ∧ get_entry t x = Some e ∧
    h = blk_get_qc (entry_block e) ∧ commits h id.

Lemma best_of_step visited high x e r :
  best_of visited high → get_entry t x = Some e →
  (r = high ∧ (∃ h, high = Some h ∧ (qc_get_round (blk_get_qc (entry_block e)) ≤ qc_get_round h)%N) ∨
   r = high ∧ (∀ id, ¬ commits (blk_get_qc (entry_block e)) id) ∨
   r = Some (blk_get_qc (entry_block e)) ∧ (∃ id, commits (blk_get_qc (entry_block e)) id) ∧
     ∀ h, high = Some h → (qc_get_round h < qc_get_round (blk_get_qc (entry_block e)))%N) →
  best_of (visited ++ [x]) r.
Proof.
  intros [Hmax Hin] He Hr. split.
  - intros y ey id Hy Hey Hc. rewrite elem_of_app, list_elem_of_singleton in Hy.
    destruct Hy as [Hy| ->].
    + destruct (Hmax y ey id Hy Hey Hc) as (h & Hh & Hle).
      destruct Hr as [[-> _]|[[-> _]|(-> & _ & Hlt)]]; [eauto..|]. eexists. split; [done|].
      specialize (Hlt h Hh). lia.
    + rewrite He in Hey. injection Hey as <-.
      destruct Hr as [[-> Hh]|[[_ Hno]|(-> & _ & _)]]; [done|by destruct (Hno id)|].
      eexists. split; [done|]. done.
  - intros h Hh. destruct Hr as [[-> _]|[[-> _]|(-> & [id Hid] & _)]].
    1, 2: destruct (Hin h Hh) as (y & ey & id & Hy & ? & ? & ?); exists y, ey, id;
      split_and!; try done; apply elem_of_app; by left.
    injection Hh as <-. exists x, e, id. split_and!; try done. apply elem_of_app. right. left.
Qed.

Lemma committable_loop_spec fuel lo visited queue high :
  rounds_u64 → visited_ok lo visited queue → closed_under (child_of t) visited queue →
  best_of visited high → size (tree (bt_tree t)) < length visited + fuel →
  ∃ r visited', committable_loop fuel t queue high = Ret r ∧ best_of visited' r ∧
    closed_under (child_of t) visited' [] ∧ ∀ x, x ∈ visited ++ queue → x ∈ visited'.
Proof using Ht.
  intros Hu. revert visited queue high.
  induction fuel as [|fuel IH]; intros visited queue high Hv Hcl Hb Hf.
  { apply visited_ok_length in Hv. rewrite length_app in Hv. lia. }
  cbn [committable_loop]. destruct queue as [|x queue].
  { exists high, visited. split_and!; try done. intros x. by rewrite app_nil_r. }
  destruct (proj2 Hv x) as (e & He & _); [apply elem_of_app; right; left|].
  rewrite He. cbn [expect mbind run_bind].
  destruct (consider_qc_spec high (blk_get_qc (entry_block e)) Hu) as (r1 & -> & Hr1). cbn [mbind run_bind].
  destruct (ok_children _ t Ht _ _ He) as [Hnd Hch].
  destruct (IH (visited ++ [x]) (queue ++ children_blocks e) r1) as (r & v' & -> & Hb' & Hcl' & Hin').
  - eapply visited_ok_step; [exact Hv|exact Hnd|]. intros c. by rewrite Hch.
  - apply closed_under_step; [done|]. intros c. by rewrite Hch.
  - by eapply best_of_step.
  - rewrite length_app. cbn. lia.
  - exists r, v'. split_and!; [done|done|done|]. intros y Hy. apply Hin'.
    rewrite !elem_of_app, ?elem_of_cons, ?list_elem_of_singleton in *. naive_solver.
Qed.

(** A set closed under children that has the children of the root has every
    block connected to the root. *)
Lemma closed_has_path visited x l :
  (∀ c, child_of t (root_id t) c → c ∈ visited) → closed_under (child_of t) visited [] →
  path_from_root t x l → x ≠ root_id t → x ∈ visited.
Proof using Ht.
  intros Hroot Hcl Hx. induction Hx as [|x e l He Hl IH]; [done|]. intros _.
  destruct (decide (blk_get_parent_id (entry_block e) = root_id t)) as [Hp|Hp].
  - apply Hroot. by exists e.
  - assert (x ∈ visited ++ []) as Hx; [|by rewrite app_nil_r in Hx].
    eapply Hcl; [by apply IH|]. by exists e.
Qed.
End traversal.

(** ** Marking blocks coherent *)

Section coherency.
Context (round_of : BlockId → Round) (block_policy : BPT) (chain_config : CCT).

Lemma same_blocks_visited t t' lo visited queue :
  same_blocks t t' → visited_ok round_of t lo visited queue → visited_ok round_of t' lo visited queue.
Proof.
  intros Hs [Hnd Hin]. split; [done|]. intros x (e & He & Hlo & Hor)%Hin.
  destruct (same_blocks_entry t t' x e Hs He) as (e' & He' & Hb & _). exists e'.
  unfold entry_block in *. by rewrite Hb.
Qed.

(** The policy's answer for block [b], asked about the path to it. *)
Definition checked (t : BlockTree) (b : ValidatedBlock) (res : result () BlockPolicyError) : Prop :=
  ∃ l state state', path_from_root t (vb_id b) (l ++ [b]) ∧
    check_coherency block_policy b l (info (root t)) state chain_config = Ret (res, state').

(** The policy does not panic on the blocks of the tree. *)
Definition policy_total (t : BlockTree) : Prop :=
  ∀ id l b state, path_from_root t id (l ++ [b]) →
    ∃ r, check_coherency block_policy b l (info (root t)) state chain_config = Ret r.

Lemma checked_same t t' b res : same_blocks t t' → checked t b res → checked t' b res.
Proof.
  intros Hs (l & st & st' & Hp & Hc). exists l, st, st'. split; [by eapply same_blocks_path|].
  by rewrite (proj1 Hs).
Qed.

(** Blocks that may be checked next: not coherent, on top of a coherent block. *)
Definition ready (t : BlockTree) (x : BlockId) : Prop :=
  ∃ e, get_entry t x = Some e ∧ is_coherent t x = false ∧
    is_coherent t (blk_get_parent_id (entry_block e)) = true.

Lemma ready_path t x :
  bt_ok round_of t → ready t x →
  ∃ e l, get_entry t x = Some e ∧ path_from_root t x (l ++ [validated_block e]) ∧
    get_blocks_on_path_from_root t x = Ret (Some (l ++ [validated_block e])).
Proof.
  intros Ht (e & He & _ & Hp). destruct (coherent_path round_of t Ht _ Hp) as (l & Hl & _).
  exists e, l. assert (path_from_root t x (l ++ [validated_block e])) as Hpath by by apply path_snoc.
  split_and!; [done|done|]. destruct (get_blocks_on_path_from_root_spec round_of t Ht x) as (r & -> & Hr).
  by rewrite (proj2 (Hr _) Hpath).
Qed.

(** Marking a ready block keeps the others ready and makes its children ready. *)
Lemma mark_ready t x e y :
  bt_ok round_of t → ready t x → get_entry t x = Some e → y ≠ x →
  ready t y ∨ child_of t x y → ready (mark t x e) y.
Proof.
  intros Ht (e0 & He0 & Hxc & _) He Hne Hy. rewrite He in He0. injection He0 as <-.
  assert (∀ z, is_coherent t z = false → z ≠ x → is_coherent (mark t x e) z = false) as Hkeep.
  { intros z Hz Hzx. apply not_true_iff_false. rewrite mark_coherent by done.
    intros [?|?]; [congruence|done]. }
  destruct Hy as [(ey & Hey & Hyc & Hyp)|(ey & Hey & Hyp)].
  - exists ey. split_and!; [by rewrite mark_entry, decide_False|by apply Hkeep|].
    apply mark_coherent; [done|]. by left.
  - exists ey. split_and!; [by rewrite mark_entry, decide_False| |].
    + apply Hkeep; [|done]. apply not_true_iff_false. intros Hc. unfold is_coherent in Hc.
      destruct (decide (y = root_id t)) as [->|].
      { by rewrite (root_not_in_tree round_of t Ht) in Hey. }
      rewrite Hey in Hc. apply (ok_coherent round_of t Ht) in Hey; [|done]. congruence.
    + apply mark_coherent; [done|]. by right.
Qed.

(** What the loop does with the blocks in the queue. *)
Definition coherency_outcome (t : BlockTree) (queue : list BlockId) (new : list ValidatedBlock)
    (t' : BlockTree) : Prop :=
  bt_ok round_of t' ∧ same_blocks t t' ∧
  (∀ y, is_coherent t' y = true ↔ is_coherent t y = true ∨ y ∈ vb_id <$> new) ∧
  NoDup (vb_id <$> new) ∧
  Forall (λ b, is_coherent t (vb_id b) = false ∧ checked t b (Ok ())) new ∧
  ∀ y, y ∈ queue ∨ (∃ b, b ∈ new ∧ child_of t (vb_id b) y) →
    y ∈ vb_id <$> new ∨ ∃ b err, vb_id b = y ∧ checked t b (Err err).

Lemma coherency_outcome_mark t x e queue new t' :
  bt_ok round_of t → ready t x → get_entry t x = Some e → checked t (validated_block e) (Ok ()) →
  coherency_outcome (mark t x e) (queue ++ children_blocks e) new t' →
  coherency_outcome t (x :: queue) (validated_block e :: new) t'.
Proof.
  intros Ht Hx He Hchk (Hok & Hs & Hcoh & Hnd & Hall & Hq).
  pose proof (mark_same_blocks t x e He) as Hm. pose proof (same_blocks_sym _ _ Hm) as Hm'.
  assert (vb_id (validated_block e) = x) as Hid by by apply (vb_id_entry round_of t).
  assert (x ∉ vb_id <$> new) as Hxnew.
  { intros (b & -> & Hb)%list_elem_of_fmap. rewrite Forall_forall in Hall.
    destruct (Hall b Hb) as [Hf _]. apply not_true_iff_false in Hf. apply Hf.
    apply mark_coherent; [done|]. by right. }
  unfold coherency_outcome. rewrite fmap_cons, Hid. split_and!.
  - done.
  - by eapply same_blocks_trans.
  - intros y. rewrite Hcoh, mark_coherent, elem_of_cons by done. tauto.
  - by constructor.
  - constructor.
    + rewrite Hid. split; [|done]. by destruct Hx as (? & _ & ? & _).
    + eapply Forall_impl; [exact Hall|]. cbn. intros b [Hf Hc]. split; [|by eapply checked_same].
      apply not_true_iff_false. intros Hb. apply not_true_iff_false in Hf. apply Hf.
      apply mark_coherent; [done|]. by left.
  - intros y Hy. destruct (decide (y = x)) as [->|Hne]; [left; left|].
    destruct (Hq y) as [?|(b & err & ? & ?)].
    + destruct Hy as [Hy|(b & Hb & Hcb)].
      * apply elem_of_cons in Hy as [?|?]; [done|]. left. apply elem_of_app. by left.
      * apply elem_of_cons in Hb as [->|Hb].
        -- left. apply elem_of_app. right. rewrite Hid in Hcb. by apply (ok_children round_of t Ht x e He).
        -- right. exists b. split; [done|]. by eapply same_blocks_child.
    + left. by right.
    + right. exists b, err. split; [done|]. by eapply checked_same.
Qed.

Lemma coherency_outcome_reject t x b err queue new t' :
  vb_id b = x → checked t b (Err err) →
  coherency_outcome t queue new t' → coherency_outcome t (x :: queue) new t'.
Proof.
  intros Hb Hc (Hok & Hs & Hcoh & Hnd & Hall & Hq). unfold coherency_outcome. split_and!; try done.
  intros y [Hy|Hy]; [|by auto]. apply elem_of_cons in Hy as [->|Hy]; [right; eauto|by auto].
Qed.

Lemma coherency_loop_spec fuel t state visited queue lo retval :
  bt_ok round_of t → policy_total t → visited_ok round_of t lo visited queue →
  Forall (ready t) queue → size (tree (bt_tree t)) < length visited + fuel →
  ∃ new t' state', coherency_loop fuel block_policy chain_config t state queue retval =
      Ret (retval ++ new, t', state') ∧ coherency_outcome t queue new t'.
Proof.
  revert t state visited queue retval.
  induction fuel as [|fuel IH]; intros t state visited queue retval Ht Hpol Hv Hready Hf.
  { apply visited_ok_length in Hv. rewrite length_app in Hv. lia. }
  cbn [coherency_loop]. destruct queue as [|x queue].
  { exists [], t, state. rewrite app_nil_r. split; [done|]. unfold coherency_outcome.
    split_and!; [done|done| |apply NoDup_nil_2|constructor|].
    - intros y. cbn. rewrite elem_of_nil. tauto.
    - intros y [?%elem_of_nil|(b & ?%elem_of_nil & _)]; done. }
  apply Forall_cons in Hready as [Hx Hready].
  destruct (ready_path t x Ht Hx) as (e & l & He & Hpath & ->). cbn [mbind run_bind expect].
  rewrite last_snoc, removelast_last. cbn [mbind run_bind expect].
  assert (vb_id (validated_block e) = x) as Hid by by apply (vb_id_entry round_of t).
  destruct (Hpol x l (validated_block e) state Hpath) as ([res st1] & Hres). rewrite Hres.
  cbn [mbind run_bind]. assert (checked t (validated_block e) res) as Hchk.
  { exists l, state, st1. by rewrite Hid. }
  destruct res as [[]|err].
  - unfold get_entry in He. rewrite (set_coherent_spec _ _ _ e He). fold (mark t x e).
    fold (get_entry t x) in He. rewrite mark_entry, decide_True by done. cbn [expect mbind run_bind].
    change (children_blocks (with_coherent e true)) with (children_blocks e).
    destruct (ok_children round_of t Ht x e He) as [Hnd Hch].
    pose proof (mark_same_blocks t x e He) as Hm.
    assert (visited_ok round_of t lo (visited ++ [x]) (queue ++ children_blocks e)) as Hv'.
    { eapply visited_ok_step; [done|exact Hv|done|]. intros c. by rewrite Hch. }
    destruct (IH (mark t x e) st1 (visited ++ [x]) (queue ++ children_blocks e)
      (retval ++ [validated_block e])) as (new & t' & st' & Hrun & Hout).
    + destruct Hx as (e' & He' & _ & Hp). rewrite He in He'. injection He' as <-. by apply mark_ok.
    + intros id l' b st Hp. apply (Hpol id). eapply same_blocks_path; [|exact Hp].
      by apply same_blocks_sym.
    + by eapply same_blocks_visited.
    + apply Forall_forall. intros y Hy. apply mark_ready; [done|done|done| |].
      * intros ->. destruct Hv' as [Hnd' _]. apply NoDup_app in Hnd' as (_ & Hd & _).
        apply (Hd x); [|done]. apply elem_of_app. right. left.
      * apply elem_of_app in Hy as [Hy|Hy]; [left|right; by apply Hch].
        rewrite Forall_forall in Hready. by apply Hready.
    + rewrite (same_blocks_size t) by done. rewrite length_app. cbn. lia.
    + exists (validated_block e :: new), t', st'. split; [|by apply coherency_outcome_mark].
      rewrite Hrun, <- (assoc_L (++)). done.
  - destruct (IH t st1 (visited ++ [x]) queue retval Ht Hpol) as (new & t' & st' & Hrun & Hout).
    + by apply visited_ok_drop.
    + done.
    + rewrite length_app. cbn. lia.
    + exists new, t', st'. split; [done|]. by eapply coherency_outcome_reject.
Qed.

(** ** The first incoherent block of a path *)

Lemma find_incoherent_coherent t l l' :
  bt_ok round_of t →
  Forall (λ b, is_coherent t (vb_id b) = true) l → Forall (λ b, is_Some (get_entry t (vb_id b))) l →
  find_incoherent t (l ++ l') = find_incoherent t l'.
Proof.
  intros Ht Hc. induction Hc as [|b l Hb Hc IH]; intros Hin; [done|].
  apply Forall_cons in Hin as [[e He] Hin]. cbn [app find_incoherent].
  change (blk_get_id (deref b)) with (vb_id b). rewrite He. cbn [expect mbind run_bind].
  unfold is_coherent in Hb. destruct (decide (vb_id b = root_id t)) as [Hr|_].
  { by rewrite Hr, (root_not_in_tree round_of t Ht) in He. }
  rewrite He in Hb. rewrite Hb. by apply IH.
Qed.

(** On a path whose lower part is coherent, the next block decides. *)
Lemma find_incoherent_next t x e l rest :
  bt_ok round_of t → get_entry t x = Some e →
  path_from_root t (blk_get_parent_id (entry_block e)) l →
  is_coherent t (blk_get_parent_id (entry_block e)) = true →
  find_incoherent t (l ++ validated_block e :: rest) =
    if is_coherent t x then find_incoherent t rest else Ret (Some (validated_block e)).
Proof.
  intros Ht He Hl Hp. destruct (coherent_path round_of t Ht _ Hp) as (l' & Hl' & Hall).
  rewrite (path_unique round_of t Ht _ _ _ Hl' Hl) in Hall.
  rewrite find_incoherent_coherent; [|done|done|].
  2: { apply Forall_forall. intros b Hb. destruct (path_member round_of t Ht _ _ _ Hl Hb) as (? & ? & _). eauto. }
  cbn [find_incoherent]. change (blk_get_id (deref (validated_block e))) with (vb_id (validated_block e)).
  rewrite (vb_id_entry round_of t x e), He by done. cbn [expect mbind run_bind].
  unfold is_coherent. destruct (decide (x = root_id t)) as [->|_]; [|by rewrite He].
  by rewrite (root_not_in_tree round_of t Ht) in He.
Qed.

Lemma find_incoherent_spec t x l :
  bt_ok round_of t → path_from_root t x l →
  ∃ r, find_incoherent t l = Ret r ∧
    match r with
    | None => is_coherent t x = true
    | Some b => b ∈ l ∧ ready t (vb_id b) ∧ ∀ rest, find_incoherent t (l ++ rest) = Ret (Some b)
    end.
Proof.
  intros Ht. induction 1 as [|x e l He Hl IH].
  - exists None. split; [done|]. unfold is_coherent. by rewrite decide_True.
  - destruct IH as ([b|] & Hf & Hr).
    + destruct Hr as (Hb & Hready & Hrest). exists (Some b). split; [by apply Hrest|].
      split_and!; [apply elem_of_app; by left|done|]. intros rest. rewrite <- (assoc_L (++)). apply Hrest.
    + pose proof (λ rest, find_incoherent_next t x e l rest Ht He Hl Hr) as Hn.
      destruct (is_coherent t x) eqn:Hx.
      { exists None. split; [apply Hn|done]. }
      exists (Some (validated_block e)). split; [apply Hn|]. split_and!.
      * apply elem_of_app. right. left.
      * rewrite (vb_id_entry round_of t x e) by done. by exists e.
      * intros rest. rewrite <- (assoc_L (++)). apply Hn.
Qed.

(** Along the path, marking goes on until a block is rejected. *)
Lemma outcome_reaches t b new t' x l rest :
  bt_ok round_of t → coherency_outcome t [vb_id b] new t' → path_from_root t x l →
  find_incoherent t (l ++ rest) = Ret (Some b) ∨ is_coherent t x = true →
  is_coherent t' x = true ∨ ∃ b' err, b' ∈ l ∧ checked t b' (Err err).
Proof.
  intros Ht (_ & _ & Hcoh & _ & _ & Hq) Hl. revert rest.
  induction Hl as [|x e l He Hl IH]; intros rest Hf.
  { left. apply Hcoh. left. unfold is_coherent. by rewrite decide_True. }
  destruct Hf as [Hf|Hf]; [|left; apply Hcoh; by left].
  destruct (IH (validated_block e :: rest)) as [Hp|(b' & err & Hb' & Hc)].
  { left. by rewrite <- (assoc_L (++)) in Hf. }
  2: { right. exists b', err. split; [|done]. apply elem_of_app. by left. }
  assert (vb_id b = x ∨ (∃ b', b' ∈ new ∧ child_of t (vb_id b') x) ∨ is_coherent t x = true) as Hx.
  { apply Hcoh in Hp as [Hp|Hp].
    - rewrite <- (assoc_L (++)) in Hf. cbn in Hf. rewrite (find_incoherent_next t x e) in Hf by done.
      destruct (is_coherent t x); [by auto|left]. injection Hf as <-. by apply (vb_id_entry round_of t).
    - right. left. apply list_elem_of_fmap in Hp as (b' & Heq & Hb'). exists b'. split; [done|].
      exists e. by rewrite Heq. }
  destruct Hx as [Hx|[Hx|Hx]]; [..|left; apply Hcoh; by left].
  all: destruct (Hq x) as [Hin|(b' & err & Heq & Hc)];
    [(left; rewrite <- Hx; left) || (right; done)|left; apply Hcoh; by right|].
  all: right; exists b', err; split; [|done]; apply elem_of_app; right; apply list_elem_of_singleton.
  all: destruct Hc as (l' & ? & ? & Hp' & _); rewrite Heq in Hp'.
  all: pose proof (path_unique round_of t Ht _ _ _ Hp' (path_snoc t x e l He Hl)) as Happ.
  all: by apply app_inj_tail in Happ as [_ ?].
Qed.
End coherency.

(** ** The highest coherent descendant *)

Section tip.
Context (round_of : BlockId → Round) (t : BlockTree) (Ht : bt_ok round_of t).

(** Coherent blocks reached from [b] through coherent blocks. *)
Inductive coherent_below (b : BlockId) : BlockId → Prop :=
| below_refl : coherent_below b b
| below_child y c :
    coherent_below b y → child_of t y c → is_coherent t c = true → coherent_below b c.

Definition coherent_child (p c : BlockId) : Prop := child_of t p c ∧ is_coherent t c = true.

Lemma visit_children_spec children best queue best' queue' :
  (∀ c, c ∈ children → is_Some (get_entry t c)) → best.2 = round_of best.1 →
  visit_children t children best queue = (best', queue') →
  queue' = queue ++ filter (λ c, is_coherent t c = true) children ∧
  best'.2 = round_of best'.1 ∧ (best.2 ≤ best'.2)%N ∧
  (best' = best ∨ best'.1 ∈ filter (λ c, is_coherent t c = true) children) ∧
  ∀ c, c ∈ filter (λ c, is_coherent t c = true) children → (round_of c ≤ best'.2)%N.
Proof using Ht.
  revert best queue. induction children as [|c children IH]; intros best queue Hin Hb; cbn [visit_children].
  { intros [= <- <-]. rewrite filter_nil, app_nil_r. split_and!; [done|done|lia|by left|].
    by intros c ?%elem_of_nil. }
  destruct (is_coherent t c) eqn:Hc.
  2: { rewrite filter_cons_False by congruence. apply IH; [|done]. intros c' ?. apply Hin. by right. }
  rewrite filter_cons_True by done. destruct (Hin c) as [e He]; [left|]. rewrite He.
  destruct (entry_rounds round_of t Ht _ _ He) as (Hr & _). rewrite <- Hr.
  intros (-> & Hb' & Hle & Hor & Hmax)%IH.
  2: { intros c' ?. apply Hin. by right. }
  2: { by case_decide. }
  split_and!; [by rewrite <- (assoc_L (++))|done| | |].
  - revert Hle. case_decide; cbn; lia.
  - destruct Hor as [->|?]; [|right; by right]. case_decide; [right; left|by left].
  - intros c' [->|Hc']%elem_of_cons; [|by apply Hmax]. revert Hle. case_decide; cbn; lia.
Qed.

Lemma descendant_loop_spec fuel lo b visited queue best :
  visited_ok round_of t lo visited queue → closed_under coherent_child visited queue →
  best.2 = round_of best.1 → coherent_below b best.1 →
  (∀ x, x ∈ visited ++ queue → coherent_below b x ∧ (round_of x ≤ round_of best.1)%N) →
  size (tree (bt_tree t)) < length visited + fuel →
  ∃ d visited', descendant_loop fuel t queue best = Ret d ∧ coherent_below b d ∧
    (round_of best.1 ≤ round_of d)%N ∧ closed_under coherent_child visited' [] ∧
    (∀ x, x ∈ visited ++ queue → x ∈ visited') ∧ ∀ x, x ∈ visited' → (round_of x ≤ round_of d)%N.
Proof using Ht.
  revert visited queue best. induction fuel as [|fuel IH]; intros visited queue best Hv Hcl Hb Hbb Hall Hf.
  { apply visited_ok_length in Hv. rewrite length_app in Hv. lia. }
  cbn [descendant_loop]. destruct queue as [|x queue].
  { exists best.1, visited. rewrite app_nil_r in *. split_and!; try done. intros x Hx. by apply Hall. }
  destruct (proj2 Hv x) as (e & He & _); [apply elem_of_app; right; left|].
  rewrite decide_False by (intros ->; by rewrite (root_not_in_tree round_of t Ht) in He).
  rewrite He. cbn [fmap option_fmap option_map].
  destruct (ok_children round_of t Ht _ _ He) as [Hnd Hch].
  destruct (visit_children t (children_blocks e) best queue) as [best' queue'] eqn:Hvc.
  apply visit_children_spec in Hvc as (-> & Hb' & Hle & Hor & Hmax); [|intros c (?&?&_)%Hch; eauto|done].
  set (cs := filter (λ c, is_coherent t c = true) (children_blocks e)) in *.
  assert (∀ c, c ∈ cs ↔ coherent_child x c) as Hcs.
  { intros c. unfold cs. rewrite list_elem_of_filter, Hch. unfold coherent_child. tauto. }
  assert (∀ c, c ∈ cs → coherent_below b c) as Hcb.
  { intros c [? ?]%Hcs. eapply below_child; [apply (Hall x)|done|done]. apply elem_of_app. right. left. }
  destruct (IH (visited ++ [x]) (queue ++ cs) best') as (d & v' & Hrun & Hd & Hbd & Hcl' & Hin & Hmx).
  - eapply visited_ok_step; [done|exact Hv|by apply NoDup_filter|]. by intros c [? _]%Hcs.
  - apply closed_under_step; [done|]. intros c. by rewrite Hcs.
  - done.
  - destruct Hor as [->|?]; [done|by apply Hcb].
  - intros y Hy. rewrite !elem_of_app, list_elem_of_singleton in Hy. rewrite <- Hb'.
    destruct (decide (y ∈ cs)); [split; [by apply Hcb|by apply Hmax]|].
    destruct (Hall y) as [? ?]; [|split; [done|lia]].
    rewrite elem_of_app, elem_of_cons. naive_solver.
  - rewrite length_app. cbn. lia.
  - exists d, v'. split_and!; [done|done|lia|done| |done]. intros y Hy. apply Hin.
    rewrite !elem_of_app, ?elem_of_cons, ?list_elem_of_singleton in *. naive_solver.
Qed.

(** [d] is a highest block among the coherent descendants of [b]. *)
Definition highest_below (b d : BlockId) : Prop :=
  coherent_below b d ∧ ∀ x, coherent_below b x → (round_of x ≤ round_of d)%N.

Lemma coherent_below_coherent b x :
  is_coherent t b = true → coherent_below b x → is_coherent t x = true.
Proof. intros Hb. by induction 1. Qed.

(** The first iteration, and the search from the children. *)
Lemma descendant_start b children best :
  best = (b, round_of b) →
  NoDup children → (∀ c, c ∈ children ↔ child_of t b c) →
  ∃ d, (let '(best, queue) := visit_children t children best [] in
        descendant_loop (fuel_of t) t queue best) = Ret d ∧ highest_below b d.
Proof using Ht.
  intros -> Hnd Hch. destruct (visit_children t children (b, round_of b) []) as [best queue] eqn:Hvc.
  apply visit_children_spec in Hvc as (-> & Hb' & Hle & Hor & Hmax);
    [|intros c (?&?&_)%Hch; eauto|done]. cbn in Hle. cbn [app].
  set (cs := filter (λ c, is_coherent t c = true) children) in *.
  assert (∀ c, c ∈ cs ↔ coherent_child b c) as Hcs.
  { intros c. unfold cs. rewrite list_elem_of_filter, Hch. unfold coherent_child. tauto. }
  assert (∀ c, c ∈ cs → coherent_below b c) as Hcb.
  { intros c [? ?]%Hcs. eapply below_child; [apply below_refl|done|done]. }
  destruct (descendant_loop_spec (fuel_of t) (round_of b + 1)%N b [] cs best)
    as (d & v & -> & Hd & Hbd & Hcl & Hin & Hmx).
  - apply visited_ok_start; [done|by apply NoDup_filter|]. by intros c [? _]%Hcs.
  - by intros v c ?%elem_of_nil.
  - done.
  - destruct Hor as [->|?]; [apply below_refl|by apply Hcb].
  - intros x Hx. cbn in Hx. split; [by apply Hcb|]. rewrite <- Hb'. by apply Hmax.
  - unfold fuel_of. cbn. lia.
  - exists d. split; [done|]. split; [done|].
    assert (∀ x, coherent_below b x → x = b ∨ x ∈ v) as Hreach.
    { induction 1 as [|y c Hy IH Hyc Hc]; [by left|right]. destruct IH as [->|IH].
      - apply Hin. by apply Hcs.
      - assert (c ∈ v ++ []) as Hx by (by eapply Hcl). by rewrite app_nil_r in Hx. }
    intros x [->|Hx]%Hreach; [lia|by apply Hmx].
Qed.

Lemma highest_round_coherent_descendant_spec b :
  is_coherent t b = true →
  ∃ d, highest_round_coherent_descendant t b = Ret d ∧ highest_below b d.
Proof using Ht.
  intros Hb. unfold highest_round_coherent_descendant, is_coherent in *.
  destruct (decide (b = root_id t)) as [->|Hne].
  - cbn [descendant_loop]. rewrite decide_True by done.
    destruct (ok_root_children round_of t Ht) as [Hnd Hch].
    apply descendant_start; [by rewrite (ok_root round_of t Ht)|done|done].
  - destruct (get_entry t b) as [e|] eqn:He; [|done].
    cbn [fmap option_fmap option_map compose descendant_loop]. rewrite decide_False, He by done.
    cbn [fmap option_fmap option_map]. destruct (ok_children round_of t Ht _ _ He) as [Hnd Hch].
    apply descendant_start; [|done|done].
    destruct (entry_rounds round_of t Ht _ _ He) as (-> & _). done.
Qed.

(** A path goes through the path of each of its blocks. *)
Lemma path_prefix x l1 b l2 :
  path_from_root t x (l1 ++ b :: l2) → path_from_root t (vb_id b) (l1 ++ [b]).
Proof using Ht.
  intros Hx. remember (l1 ++ b :: l2) as l eqn:Hl. revert l2 Hl.
  induction Hx as [|x e l He Hl IH]; intros l2 Heq; [by destruct l1|].
  destruct l2 as [|b2 l2 _] using rev_ind.
  - apply app_inj_tail in Heq as [-> <-]. rewrite (vb_id_entry round_of t x e) by done.
    by apply path_snoc.
  - rewrite app_comm_cons, (assoc_L (++)) in Heq. apply app_inj_tail in Heq as [Heq _]. by eapply IH.
Qed.

(** The highest coherent block of a path. *)
Lemma highest_coherent_Some x l b :
  path_from_root t x l → highest_coherent t l = Some b →
  b ∈ l ∧ is_coherent t (vb_id b) = true ∧
  ∀ b', b' ∈ l → is_coherent t (vb_id b') = true → (round_of (vb_id b') ≤ round_of (vb_id b))%N.
Proof using Ht.
  intros Hl (l1 & l2 & -> & Hb & Hall)%find_last_Some. split_and!; [|done|].
  { apply elem_of_app. right. left. }
  intros b' Hb' Hc. rewrite elem_of_app, elem_of_cons in Hb'.
  assert (b' ∈ l1 ++ [b]) as Hin.
  { rewrite elem_of_app, list_elem_of_singleton. destruct Hb' as [?|[->|Hb']]; [by auto..|].
    rewrite Forall_forall in Hall. specialize (Hall b' Hb'). unfold vb_id in Hc. congruence. }
  by destruct (path_member round_of t Ht _ _ _ (path_prefix _ _ _ _ Hl) Hin) as (_ & _ & _ & ?).
Qed.

(** When the end of the path is coherent it is the one found. *)
Lemma highest_coherent_last x l :
  path_from_root t x l → is_coherent t x = true → x ≠ root_id t →
  ∃ b, highest_coherent t l = Some b ∧ vb_id b = x.
Proof using Ht.
  intros Hl Hx Hne. destruct (path_inv t x l Hl Hne) as (e & l' & He & _ & ->).
  exists (validated_block e). assert (vb_id (validated_block e) = x) as Hid
    by by apply (vb_id_entry round_of t).
  split; [|done]. apply find_last_Some. exists l', []. split_and!; [done| |done].
  unfold vb_id in Hid. by rewrite Hid.
Qed.
End tip.

(** ** Theorems *)

Section theorems.
Context (round_of : BlockId → Round).

(** C20: [try_update_coherency] returns and marks exactly the blocks it returns:
    each was incoherent, extends the chain of coherent blocks to the root and
    was accepted by the policy on that chain; the tree stays well formed and no
    block or link changes; marking goes on through the children until the
    policy rejects a block, so the requested block ends up coherent unless a
    block on its path was rejected. *)
Theorem coherency_update_correct (block_policy : BPT) (chain_config : CCT) (t : BlockTree)
    (id : BlockId) (state : ESRT) :
  bt_ok round_of t → policy_total block_policy chain_config t →
  ∃ new t' state',
    try_update_coherency t id block_policy state chain_config = Ret (new, t', state') ∧
    bt_ok round_of t' ∧ same_blocks t t' ∧ NoDup (vb_id <$> new) ∧
    (∀ y, is_coherent t' y = true ↔ is_coherent t y = true ∨ y ∈ vb_id <$> new) ∧
    Forall (λ b, is_coherent t (vb_id b) = false ∧ checked block_policy chain_config t b (Ok ())) new ∧
    (∀ b c, b ∈ new → child_of t (vb_id b) c →
       is_coherent t' c = true ∨
       ∃ bc err, vb_id bc = c ∧ checked block_policy chain_config t bc (Err err)) ∧
    (∀ l, path_from_root t id l → is_coherent t' id = true ∨
       ∃ b err, b ∈ l ∧ checked block_policy chain_config t b (Err err)).
Proof.
  intros Ht Hpol. unfold try_update_coherency.
  assert (same_blocks t t) as Hrefl by done.
  destruct (get_blocks_on_path_from_root_spec round_of t Ht id) as (r & -> & Hr). cbn [mbind run_bind].
  destruct r as [l|].
  2: { exists [], t, state. split_and!; try done; [apply NoDup_nil_2|..].
       - intros y. cbn. rewrite elem_of_nil. tauto.
       - by intros b c ?%elem_of_nil.
       - by intros l ?%Hr. }
  pose proof (proj1 (Hr l) eq_refl) as Hl.
  destruct (find_incoherent_spec round_of t id l Ht Hl) as (r & Hfind & Hfr).
  rewrite Hfind. cbn [mbind run_bind]. destruct r as [b|].
  2: { exists [], t, state. split_and!; try done; [apply NoDup_nil_2|..].
       - intros y. cbn. rewrite elem_of_nil. tauto.
       - by intros b c ?%elem_of_nil.
       - by left. }
  destruct Hfr as (Hb & Hready & _). fold (vb_id b).
  destruct (coherency_loop_spec round_of block_policy chain_config (fuel_of t) t state [] [vb_id b]
    (round_of (vb_id b)) []) as (new & t' & st' & Hrun & Hout).
  { done. } { done. }
  { split; [apply NoDup_singleton|]. intros x Hx. cbn in Hx. apply list_elem_of_singleton in Hx as ->.
    destruct Hready as (e & He & _). exists e.
    destruct (entry_rounds round_of t Ht _ _ He) as (_ & _ & _ & Hlt). split_and!; [done|lia|by left]. }
  { by constructor. } { unfold fuel_of. cbn. lia. }
  exists new, t', st'. split; [exact Hrun|]. pose proof Hout as (Hok & Hs & Hcoh & Hnd & Hall & Hq).
  split_and!; try done.
  - intros b' c Hb' Hc. destruct (Hq c) as [?|?]; [by right; exists b'|left; apply Hcoh; by right|by right].
  - intros l' Hl'. rewrite (path_unique round_of t Ht _ _ _ Hl' Hl).
    eapply (outcome_reaches round_of block_policy chain_config t b new t' id l []); [done|done|done|].
    left. by rewrite app_nil_r.
Qed.

(** C21: [get_high_committable_qc] returns a QC of highest round among those that
    commit something: the QCs of blocks connected to the root for which the
    commit rule gives a coherent, uncommitted block; it returns [None] only if
    there is no such QC. *)
Theorem high_committable_qc_correct (t : BlockTree) :
  bt_ok round_of t → rounds_u64 t →
  ∃ r, get_high_committable_qc t = Ret r ∧
    (∀ h, r = Some h → ∃ x e id, get_entry t x = Some e ∧ h = blk_get_qc (entry_block e) ∧
       commits t h id) ∧
    (∀ x l e id, path_from_root t x l → get_entry t x = Some e →
       commits t (blk_get_qc (entry_block e)) id →
       ∃ h, r = Some h ∧ (qc_get_round (blk_get_qc (entry_block e)) ≤ qc_get_round h)%N).
Proof.
  intros Ht Hu. unfold get_high_committable_qc. destruct (ok_root_children round_of t Ht) as [Hnd Hch].
  destruct (committable_loop_spec round_of t Ht (fuel_of t) (round_of (root_id t) + 1)%N []
    (root_children (root t)) None) as (r & v & -> & [Hmax Hin] & Hcl & Hstart).
  - done.
  - apply visited_ok_start; [done|done|]. intros c. by rewrite Hch.
  - by intros x c ?%elem_of_nil.
  - split; [by intros ? ? ? ?%elem_of_nil|done].
  - unfold fuel_of. cbn. lia.
  - exists r. split; [done|]. split.
    + intros h (x & e & id & _ & ? & ? & ?)%Hin. eauto 10.
    + intros x l e id Hl He Hc. apply (Hmax x e id); [|done|done].
      eapply (closed_has_path round_of t Ht); [|done|exact Hl|].
      * intros c Hc'. apply Hstart. cbn. by apply Hch.
      * intros ->. by rewrite (root_not_in_tree round_of t Ht) in He.
Qed.

(** C22: [get_canonical_coherent_tip] returns a coherent block, as its
    documentation says: when the block of the high QC is coherent (and not the
    root), a highest coherent block above it; when it is connected to the root
    but not coherent, the highest coherent block on the way to it, or the root;
    when it is not connected, a highest coherent block of the tree. *)
Theorem canonical_tip_correct (t : BlockTree) (qc : QuorumCertificate) :
  bt_ok round_of t →
  ∃ tip, get_canonical_coherent_tip t qc = Ret tip ∧ is_coherent t tip = true ∧
    (∀ l, path_from_root t (qc_get_block_id qc) l →
       if decide (is_coherent t (qc_get_block_id qc) = true ∧ qc_get_block_id qc ≠ root_id t)
       then highest_below round_of t (qc_get_block_id qc) tip
       else (tip = root_id t ∨ ∃ b, b ∈ l ∧ vb_id b = tip) ∧
            ∀ b, b ∈ l → is_coherent t (vb_id b) = true → (round_of (vb_id b) ≤ round_of tip)%N) ∧
    ((∀ l, ¬ path_from_root t (qc_get_block_id qc) l) → highest_below round_of t (root_id t) tip).
Proof.
  intros Ht. unfold get_canonical_coherent_tip. set (q := qc_get_block_id qc).
  assert (is_coherent t (root_id t) = true) as Hroot by (unfold is_coherent; by rewrite decide_True).
  destruct (get_blocks_on_path_from_root_spec round_of t Ht q) as (r & -> & Hr). cbn [mbind run_bind].
  destruct r as [l|].
  2: { destruct (highest_round_coherent_descendant_spec round_of t Ht (root_id t) Hroot) as (d & -> & Hd).
       exists d. split_and!; [done|by eapply coherent_below_coherent, Hd| |done]. by intros l ?%Hr. }
  pose proof (proj1 (Hr l) eq_refl) as Hl.
  assert (∀ P : Prop, (∀ l, ¬ path_from_root t q l) → P) as Hconn by (intros P Hno; by destruct (Hno l)).
  assert (∀ l', path_from_root t q l' → l' = l) as Huniq by (intros; by eapply path_unique).
  destruct (highest_coherent t l) as [b|] eqn:Hh; cbn [fmap option_fmap option_map].
  - destruct (highest_coherent_Some round_of t Ht q l b Hl Hh) as (Hb & Hbc & Hmax).
    fold (vb_id b). destruct (decide (vb_id b = q)) as [Hq|Hq].
    + destruct (highest_round_coherent_descendant_spec round_of t Ht (vb_id b) Hbc) as (d & -> & Hd).
      exists d. split_and!; [done|by eapply coherent_below_coherent, Hd| |by apply Hconn].
      intros l' _. rewrite Hq in *. rewrite decide_True; [done|]. split; [done|].
      intros Hqr. destruct (path_member round_of t Ht _ _ _ Hl Hb) as (e & He & _).
      by rewrite Hq, Hqr, (root_not_in_tree round_of t Ht) in He.
    + exists (vb_id b). split_and!; [done|done| |by apply Hconn]. intros l' ->%Huniq.
      rewrite decide_False; [by eauto|]. intros [Hqc Hqr].
      destruct (highest_coherent_last round_of t Ht q l Hl Hqc Hqr) as (b' & Hh' & Hb'). congruence.
  - exists (root_id t). split_and!; [done|done| |by apply Hconn]. intros l' ->%Huniq.
    rewrite decide_False.
    + split; [by left|]. intros b Hb Hc. apply find_last_None in Hh. rewrite Forall_forall in Hh.
      specialize (Hh b Hb). unfold vb_id in Hc. congruence.
    + intros [Hqc Hqr]. destruct (highest_coherent_last round_of t Ht q l Hl Hqc Hqr) as (b' & ? & _). congruence.
Qed.
End theorems.
End search.

(** ** The concrete tree of [BlockTree] *)

#[local] Existing Instance NopProtocol.
#[local] Existing Instance NopCodec.
#[local] Existing Instance list_HashIter.
#[local] Existing Instance example_policy.

Definition example_bp : BPT := ().
Definition example_config : CCT := ().
Definition example_state : ESRT := ().

Lemma SeqNum_add_one a : (a < u64_MAX)%N → SeqNum_add a 1 = Ret (a + 1)%N.
Proof.
  intros Ha. unfold SeqNum_add. rewrite (proj2 (u64_checked_add_Some a 1 (a + 1)%N)); [done|]. lia.
Qed.

(** The pass-through policy does not panic while sequence numbers have a successor. *)
Lemma passthru_total b l r :
  (∀ b', last l = Some b' → (blk_get_seq_num b' < u64_MAX)%N) → (root_seq_num r < u64_MAX)%N →
  ∃ res, passthru_check_coherency () () () b l r () () = Ret res.
Proof.
  intros Hl Hr. unfold passthru_check_coherency. destruct (last l) as [b'|].
  - rewrite SeqNum_add_one by by apply Hl. cbn [mbind run_bind passthru_get_expected_execution_results].
    repeat case_decide; eauto.
  - rewrite SeqNum_add_one by done. cbn [mbind run_bind passthru_get_expected_execution_results].
    repeat case_decide; eauto.
Qed.

Lemma example_seq_nums x e :
  get_entry example_tree x = Some e → (blk_get_seq_num (entry_block e) < u64_MAX)%N.
Proof.
  intros He.
  assert (forallb (λ q, bool_decide (blk_get_seq_num (entry_block q.2) < u64_MAX)%N)
    (map_to_list (tree (bt_tree example_tree))) = true) as Hall by (vm_compute; reflexivity).
  rewrite forallb_forall in Hall. specialize (Hall (x, e)).
  rewrite <- list_elem_of_In, elem_of_map_to_list in Hall. by apply bool_decide_eq_true in Hall.
Qed.

Lemma example_policy_total : policy_total example_bp example_config example_tree.
Proof.
  intros id l b [] Hp. apply passthru_total; [|vm_compute; reflexivity].
  intros b' Hlast. assert (b' ∈ l ++ [b]) as Hb.
  { apply elem_of_app. left. by apply last_Some_elem_of. }
  destruct (path_member example_round_of example_tree example_tree_ok _ _ _ Hp Hb)
    as (e & He & <- & _). exact (example_seq_nums _ e He).
Qed.

Lemma coherency_update_correct_witness :
  ∃ new t' state', try_update_coherency example_tree (blk_get_id example_b) example_bp example_state
      example_config =
      Ret (new, t', state') ∧ bt_ok example_round_of t'.
Proof.
  destruct (coherency_update_correct example_round_of example_bp example_config example_tree
    (blk_get_id example_b) example_state
    example_tree_ok example_policy_total) as (new & t' & state' & Hrun & Hok & _).
  exists new, t', state'. split; [exact Hrun|exact Hok].
Defined.

Lemma example_rounds_u64 : rounds_u64 example_tree.
Proof.
  intros x e He.
  assert (forallb (λ q, bool_decide (blk_get_block_round (entry_block q.2) ≤ u64_MAX)%N)
    (map_to_list (tree (bt_tree example_tree))) = true) as Hall by (vm_compute; reflexivity).
  rewrite forallb_forall in Hall. specialize (Hall (x, e)).
  rewrite <- list_elem_of_In, elem_of_map_to_list in Hall. by apply bool_decide_eq_true in Hall.
Qed.

Lemma high_committable_qc_correct_witness : ∃ r, get_high_committable_qc example_tree = Ret r.
Proof.
  destruct (high_committable_qc_correct example_round_of example_tree example_tree_ok example_rounds_u64)
    as (r & Hrun & _).
  exists r. exact Hrun.
Defined.

Lemma canonical_tip_correct_witness :
  ∃ tip, get_canonical_coherent_tip example_tree (blk_get_qc example_b) = Ret tip ∧
    is_coherent example_tree tip = true.
Proof.
  destruct (canonical_tip_correct example_round_of example_tree (blk_get_qc example_b) example_tree_ok)
    as (tip & Hrun & Hc & _).
  exists tip. split; [exact Hrun|exact Hc].
Defined.
