(* ===== verification/ChainConfig.v ===== *)
(** * Chain configuration ([src/chain-config/src])

    The parameters of each chain revision, the rounds at which revisions and
    block rewards activate on each network, and the choice of a configuration by
    chain id.  [Duration]s are nanoseconds, as in [Pacemaker]. *)
From S2P Require Import Prelude Types.

Definition ETHEREUM_MAINNET_CHAIN_ID : N := 1.
Definition KINET_MAINNET_CHAIN_ID : N := 143.
Definition KINET_TESTNET_CHAIN_ID : N := 10143.
Definition KINET_DEVNET_CHAIN_ID : N := 20143.
Definition HIVE_CHAIN_ID : N := 3503995874084926.

Definition MAX_TRANSACTIONS_PER_BLOCK : N := 10000.

(** ** Revisions and their parameters *)

Record ChainParams := {
  tx_limit : N;
  proposal_gas_limit : N;
  proposal_byte_limit : N;
  max_reserve_balance : N;
  params_vote_pace : N;
}.

Definition duration_from_millis (ms : N) : N := (ms * 1000000)%N.

Definition CHAIN_PARAMS_V_0_7_0 : ChainParams := {|
  tx_limit := 10000;
  proposal_gas_limit := 300000000;
  proposal_byte_limit := 4000000;
  max_reserve_balance := 10000000000000000000;
  params_vote_pace := duration_from_millis 1000;
|}.

Definition CHAIN_PARAMS_V_0_8_0 : ChainParams := {|
  tx_limit := 5000;
  proposal_gas_limit := 150000000;
  proposal_byte_limit := 2000000;
  max_reserve_balance := 10000000000000000000;
  params_vote_pace := duration_from_millis 500;
|}.

Definition CHAIN_PARAMS_V_0_10_0 : ChainParams := {|
  tx_limit := 5000;
  proposal_gas_limit := 150000000;
  proposal_byte_limit := 2000000;
  max_reserve_balance := 10000000000000000000;
  params_vote_pace := duration_from_millis 400;
|}.

Definition CHAIN_PARAMS_V_0_11_0 : ChainParams := {|
  tx_limit := 5000;
  proposal_gas_limit := 200000000;
  proposal_byte_limit := 2000000;
  max_reserve_balance := 10000000000000000000;
  params_vote_pace := duration_from_millis 400;
|}.

Definition CHAIN_PARAMS_V_0_12_0 : ChainParams := {|
  tx_limit := 3750;
  proposal_gas_limit := 150000000;
  proposal_byte_limit := 1500000;
  max_reserve_balance := 10000000000000000000;
  params_vote_pace := duration_from_millis 300;
|}.

Definition CHAIN_PARAMS_LATEST : ChainParams := CHAIN_PARAMS_V_0_12_0.

Inductive KinetChainRevision := V_0_7_0 | V_0_8_0 | V_0_10_0 | V_0_11_0 | V_0_12_0.

Definition chain_params (self : KinetChainRevision) : ChainParams :=
  match self with
  | V_0_7_0 => CHAIN_PARAMS_V_0_7_0
  | V_0_8_0 => CHAIN_PARAMS_V_0_8_0
  | V_0_10_0 => CHAIN_PARAMS_V_0_10_0
  | V_0_11_0 => CHAIN_PARAMS_V_0_11_0
  | V_0_12_0 => CHAIN_PARAMS_V_0_12_0
  end.

Inductive KinetExecutionRevision := V_ZERO | V_ONE | V_TWO | V_FOUR.

Definition KinetExecutionRevision_LATEST : KinetExecutionRevision := V_FOUR.

Record ExecutionChainParams := {
  max_code_size : N;
  prague_enabled : bool;
  validate_system_txs : bool;
}.

Definition execution_chain_params (self : KinetExecutionRevision) : ExecutionChainParams :=
  match self with
  | V_ZERO | V_ONE =>
      {| max_code_size := 24 * 1024; prague_enabled := false; validate_system_txs := false |}
  | V_TWO =>
      {| max_code_size := 128 * 1024; prague_enabled := false; validate_system_txs := false |}
  | V_FOUR =>
      {| max_code_size := 128 * 1024; prague_enabled := true; validate_system_txs := true |}
  end.

(** ** Staking *)

Inductive BlockRewardActivation :=
| ActivationEpoch (activation_epoch : Epoch)
| ActivationRound (activation_round : Round).

Definition is_active (self : BlockRewardActivation) (epoch : Epoch) (round : Round) : bool :=
  match self with
  | ActivationEpoch activation_epoch => bool_decide (activation_epoch ≤ epoch)%N
  | ActivationRound activation_round => bool_decide (activation_round ≤ round)%N
  end.

Record BlockRewardConfig := {
  block_reward_activation : BlockRewardActivation;
  block_reward_mon : N;
}.

Definition BlockRewardConfig_unused : BlockRewardConfig :=
  {| block_reward_activation := ActivationEpoch u64_MAX; block_reward_mon := 0 |}.

Record KinetStakingConfig := {
  staking_activation : Epoch;
  block_reward_v_one : BlockRewardConfig;
  block_reward_v_two : BlockRewardConfig;
}.

Definition staking_get_block_reward_mon (self : KinetStakingConfig) (epoch : Epoch)
    (round : Round) : N :=
  if is_active (block_reward_activation (block_reward_v_two self)) epoch round
  then block_reward_mon (block_reward_v_two self)
  else if is_active (block_reward_activation (block_reward_v_one self)) epoch round
  then block_reward_mon (block_reward_v_one self)
  else 0%N.

Definition KINET_DEVNET_STAKING_CONFIG : KinetStakingConfig := {|
  staking_activation := 2;
  block_reward_v_one :=
    {| block_reward_activation := ActivationEpoch 3; block_reward_mon := 1 |};
  block_reward_v_two := BlockRewardConfig_unused;
|}.

Definition KINET_TESTNET_STAKING_CONFIG : KinetStakingConfig := {|
  staking_activation := 2;
  block_reward_v_one :=
    {| block_reward_activation := ActivationEpoch 3; block_reward_mon := 25 |};
  block_reward_v_two :=
    {| block_reward_activation := ActivationRound 43821000; block_reward_mon := 18 |};
|}.

Definition KINET_MAINNET_STAKING_CONFIG : KinetStakingConfig := {|
  staking_activation := 675;
  block_reward_v_one :=
    {| block_reward_activation := ActivationEpoch 747; block_reward_mon := 25 |};
  block_reward_v_two :=
    {| block_reward_activation := ActivationRound 89758000; block_reward_mon := 18 |};
|}.

(** ** Networks *)

Record KinetChainConfig := {
  chain_id : N;
  cc_epoch_length : SeqNum;
  cc_epoch_start_delay : Round;
  v_0_7_0_activation : Round;
  v_0_8_0_activation : Round;
  v_0_10_0_activation : Round;
  v_0_11_0_activation : Round;
  v_0_12_0_activation : Round;
  staking_config : KinetStakingConfig;
  execution_v_one_activation : N;
  execution_v_two_activation : N;
  execution_v_four_activation : N;
}.

Definition KINET_DEVNET_CHAIN_CONFIG : KinetChainConfig := {|
  chain_id := KINET_DEVNET_CHAIN_ID;
  cc_epoch_length := 10000;
  cc_epoch_start_delay := 1000;
  v_0_7_0_activation := Round_MIN;
  v_0_8_0_activation := Round_MIN;
  v_0_10_0_activation := Round_MIN;
  v_0_11_0_activation := Round_MIN;
  v_0_12_0_activation := Round_MIN;
  staking_config := KINET_DEVNET_STAKING_CONFIG;
  execution_v_one_activation := 0;
  execution_v_two_activation := 0;
  execution_v_four_activation := 0;
|}.

Definition KINET_HIVE_CHAIN_CONFIG : KinetChainConfig := {|
  chain_id := HIVE_CHAIN_ID;
  cc_epoch_length := cc_epoch_length KINET_DEVNET_CHAIN_CONFIG;
  cc_epoch_start_delay := cc_epoch_start_delay KINET_DEVNET_CHAIN_CONFIG;
  v_0_7_0_activation := v_0_7_0_activation KINET_DEVNET_CHAIN_CONFIG;
  v_0_8_0_activation := v_0_8_0_activation KINET_DEVNET_CHAIN_CONFIG;
  v_0_10_0_activation := v_0_10_0_activation KINET_DEVNET_CHAIN_CONFIG;
  v_0_11_0_activation := v_0_11_0_activation KINET_DEVNET_CHAIN_CONFIG;
  v_0_12_0_activation := v_0_12_0_activation KINET_DEVNET_CHAIN_CONFIG;
  staking_config := staking_config KINET_DEVNET_CHAIN_CONFIG;
  execution_v_one_activation := execution_v_one_activation KINET_DEVNET_CHAIN_CONFIG;
  execution_v_two_activation := execution_v_two_activation KINET_DEVNET_CHAIN_CONFIG;
  execution_v_four_activation := execution_v_four_activation KINET_DEVNET_CHAIN_CONFIG;
|}.

Definition KINET_TESTNET_CHAIN_CONFIG : KinetChainConfig := {|
  chain_id := KINET_TESTNET_CHAIN_ID;
  cc_epoch_length := 50000;
  cc_epoch_start_delay := 5000;
  v_0_7_0_activation := Round_MIN;
  v_0_8_0_activation := Round_MIN;
  v_0_10_0_activation := Round_MIN;
  v_0_11_0_activation := Round_MIN;
  v_0_12_0_activation := 43821000;
  staking_config := KINET_TESTNET_STAKING_CONFIG;
  execution_v_one_activation := 0;
  execution_v_two_activation := 0;
  execution_v_four_activation := 0;
|}.

Definition KINET_MAINNET_CHAIN_CONFIG : KinetChainConfig := {|
  chain_id := KINET_MAINNET_CHAIN_ID;
  cc_epoch_length := 50000;
  cc_epoch_start_delay := 5000;
  v_0_7_0_activation := Round_MIN;
  v_0_8_0_activation := Round_MIN;
  v_0_10_0_activation := 15643179;
  v_0_11_0_activation := 33493399;
  v_0_12_0_activation := 89758000;
  staking_config := KINET_MAINNET_STAKING_CONFIG;
  execution_v_one_activation := 0;
  execution_v_two_activation := 0;
  execution_v_four_activation := 1762266600;
|}.

Inductive ChainConfigError :=
| WrongOverrideChainId (id : N)
| UnsupportedChainId (id : N).

Definition KinetChainConfig_new (id : N) (devnet_override : option KinetChainConfig) :
    result KinetChainConfig ChainConfigError :=
  if decide (id = KINET_MAINNET_CHAIN_ID) then Ok KINET_MAINNET_CHAIN_CONFIG
  else if decide (id = KINET_TESTNET_CHAIN_ID) then Ok KINET_TESTNET_CHAIN_CONFIG
  else if decide (id = KINET_DEVNET_CHAIN_ID) then
    match devnet_override with
    | None => Ok KINET_DEVNET_CHAIN_CONFIG
    | Some override_config =>
        if decide (chain_id override_config ≠ KINET_DEVNET_CHAIN_ID)
        then Err (WrongOverrideChainId (chain_id override_config))
        else Ok override_config
    end
  else if decide (id = HIVE_CHAIN_ID) then Ok KINET_HIVE_CHAIN_CONFIG
  else Err (UnsupportedChainId id).

Definition get_chain_revision (self : KinetChainConfig) (round : Round) : KinetChainRevision :=
  if decide (v_0_12_0_activation self ≤ round)%N then V_0_12_0
  else if decide (v_0_11_0_activation self ≤ round)%N then V_0_11_0
  else if decide (v_0_10_0_activation self ≤ round)%N then V_0_10_0
  else if decide (v_0_8_0_activation self ≤ round)%N then V_0_8_0
  else if decide (v_0_7_0_activation self ≤ round)%N then V_0_7_0
  else V_0_7_0.

Definition get_execution_chain_revision (self : KinetChainConfig) (execution_timestamp_s : N) :
    KinetExecutionRevision :=
  if decide (execution_v_four_activation self ≤ execution_timestamp_s)%N then V_FOUR
  else if decide (execution_v_two_activation self ≤ execution_timestamp_s)%N then V_TWO
  else if decide (execution_v_one_activation self ≤ execution_timestamp_s)%N then V_ONE
  else V_ZERO.

(** ** The configuration interface

    [ChainConfig] is the trait the state machine is generic in, with the chain
    parameters of a revision ([ChainRevision::chain_params]). *)

Class ChainConfig (CC : Type) := {
  CR : Type;
  cfg_chain_id : CC → N;
  cfg_epoch_length : CC → SeqNum;
  cfg_epoch_start_delay : CC → Round;
  cfg_staking_activation : CC → Epoch;
  cfg_block_reward_mon : CC → Epoch → Round → N;
  cfg_chain_revision : CC → Round → CR;
  cfg_execution_chain_revision : CC → N → KinetExecutionRevision;
  revision_params : CR → ChainParams;
}.

#[global] Instance KinetChainConfig_ChainConfig : ChainConfig KinetChainConfig := {|
  CR := KinetChainRevision;
  cfg_chain_id := chain_id;
  cfg_epoch_length := cc_epoch_length;
  cfg_epoch_start_delay := cc_epoch_start_delay;
  cfg_staking_activation cc := staking_activation (staking_config cc);
  cfg_block_reward_mon cc := staking_get_block_reward_mon (staking_config cc);
  cfg_chain_revision := get_chain_revision;
  cfg_execution_chain_revision := get_execution_chain_revision;
  revision_params := chain_params;
|}.

Record MockChainConfig := {
  mock_chain_params : ChainParams;
  mock_epoch_length : SeqNum;
  mock_epoch_start_delay : Round;
}.

Definition MockChainConfig_new (chain_params : ChainParams) : MockChainConfig :=
  {| mock_chain_params := chain_params; mock_epoch_length := u64_MAX;
     mock_epoch_start_delay := Round_MAX |}.

Definition MockChainConfig_DEFAULT : MockChainConfig := MockChainConfig_new CHAIN_PARAMS_LATEST.

Definition new_with_epoch_params (chain_params : ChainParams) (epoch_length : SeqNum)
    (epoch_start_delay : Round) : MockChainConfig :=
  {| mock_chain_params := chain_params; mock_epoch_length := epoch_length;
     mock_epoch_start_delay := epoch_start_delay |}.

#[global] Instance MockChainConfig_ChainConfig : ChainConfig MockChainConfig := {|
  CR := ChainParams;
  cfg_chain_id _ := 1337%N;
  cfg_epoch_length := mock_epoch_length;
  cfg_epoch_start_delay := mock_epoch_start_delay;
  cfg_staking_activation _ := u64_MAX;
  cfg_block_reward_mon _ _ _ := 0%N;
  cfg_chain_revision cc _ := mock_chain_params cc;
  cfg_execution_chain_revision _ _ := KinetExecutionRevision_LATEST;
  revision_params params := params;
|}.

(** ** Facts *)

Definition revision_index (r : KinetChainRevision) : N :=
  match r with V_0_7_0 => 0 | V_0_8_0 => 1 | V_0_10_0 => 2 | V_0_11_0 => 3 | V_0_12_0 => 4 end.

Definition execution_revision_index (r : KinetExecutionRevision) : N :=
  match r with V_ZERO => 0 | V_ONE => 1 | V_TWO => 2 | V_FOUR => 3 end.

(** The upgrades only ever move forward: on every configuration, whatever its
    activation rounds, a later round never runs an earlier revision, and a later
    timestamp never an earlier execution revision. *)
Lemma revisions_monotone (cc : KinetChainConfig) (r1 r2 : Round) :
  (r1 ≤ r2)%N →
  (revision_index (get_chain_revision cc r1) ≤ revision_index (get_chain_revision cc r2))%N ∧
  (execution_revision_index (get_execution_chain_revision cc r1) ≤
   execution_revision_index (get_execution_chain_revision cc r2))%N.
Proof.
  intros Hr. unfold get_chain_revision, get_execution_chain_revision.
  split; repeat case_decide; cbn; lia.
Qed.

(** A configuration the node starts with is the one of the requested chain;
    every limit it can put in force respects the block body limit. *)
Lemma chain_config_new_spec (id : N) (o : option KinetChainConfig) (cc : KinetChainConfig) :
  KinetChainConfig_new id o = Ok cc →
  chain_id cc = id ∧
  (id ≠ KINET_DEVNET_CHAIN_ID → ∀ o', KinetChainConfig_new id o' = Ok cc) ∧
  ∀ r, (tx_limit (chain_params (get_chain_revision cc r)) ≤ MAX_TRANSACTIONS_PER_BLOCK)%N.
Proof.
  intros Hnew. split; [|split].
  - revert Hnew. unfold KinetChainConfig_new.
    repeat case_decide; subst; try (intros [= <-]; done); try done.
    destruct o as [c|]; [case_decide as Hc|]; intros [= <-]; [|done].
    by destruct (decide (chain_id c = KINET_DEVNET_CHAIN_ID)).
  - intros Hid o'. revert Hnew. unfold KinetChainConfig_new. by repeat case_decide.
  - intros r. destruct (get_chain_revision cc r); vm_compute; discriminate.
Qed.

(** The shipped networks: revisions and rewards of named rounds. *)
Example mainnet_schedule :
  (λ r, get_chain_revision KINET_MAINNET_CHAIN_CONFIG r) <$>
    [0; 15643178; 15643179; 33493399; 89757999; 89758000]%N =
    [V_0_8_0; V_0_8_0; V_0_10_0; V_0_11_0; V_0_11_0; V_0_12_0] ∧
  staking_get_block_reward_mon KINET_MAINNET_STAKING_CONFIG 746 1 = 0%N ∧
  staking_get_block_reward_mon KINET_MAINNET_STAKING_CONFIG 747 1 = 25%N ∧
  staking_get_block_reward_mon KINET_MAINNET_STAKING_CONFIG 747 89758000 = 18%N.
Proof. by vm_compute. Qed.
