(* ===== verification/Timestamp.v ===== *)
(** * Block timestamps and vote delay window
    ([src/consensus-state/src/timestamp.rs], [src/consensus-state/src/vote_delay_metrics.rs])

    The local clock against which block timestamps are produced and validated,
    and the window of vote delay samples whose percentiles are reported. *)
From S2P Require Import Prelude Types.

Definition u128_MAX : N := 340282366920938463463374607431768211455.

Definition u128_checked_sub (a b : N) : option N :=
  if decide (b ≤ a)%N then Some (a - b)%N else None.

Definition u128_saturating_add (a b : N) : N := ((a + b) `min` u128_MAX)%N.

(** ** Timestamps *)

Inductive TimestampAdjustmentDirection := Forward | Backward.

Record TimestampAdjustment := {
  adj_delta : N;
  adj_direction : TimestampAdjustmentDirection;
}.

Record BlockTimestamp := {
  local_time_ns : N;
  max_delta_ns : N;
  latency_estimate_ns : N;
}.

Definition BlockTimestamp_new (max_delta_ns latency_estimate_ns : N) : run BlockTimestamp :=
  assert (0 < latency_estimate_ns)%N ≫= λ _,
  Ret {| local_time_ns := 0; max_delta_ns := max_delta_ns;
         latency_estimate_ns := latency_estimate_ns |}.

Definition update_time (self : BlockTimestamp) (time : N) : BlockTimestamp :=
  {| local_time_ns := time; max_delta_ns := max_delta_ns self;
     latency_estimate_ns := latency_estimate_ns self |}.

Definition get_current_time (self : BlockTimestamp) : N := local_time_ns self.

(** The addition is unchecked in the release profile: it wraps. *)
Definition get_valid_block_timestamp (self : BlockTimestamp) (prev_block_ts : N) : N :=
  if decide (local_time_ns self ≤ prev_block_ts)%N
  then ((prev_block_ts + 1) `mod` (u128_MAX + 1))%N
  else local_time_ns self.

Definition valid_bounds (self : BlockTimestamp) (timestamp vote_delay_ns : N) : bool :=
  let max_delta_ns := u128_saturating_add (max_delta_ns self) vote_delay_ns in
  let lower_bound := (local_time_ns self - max_delta_ns)%N in
  let upper_bound := u128_saturating_add (local_time_ns self) max_delta_ns in
  bool_decide (lower_bound ≤ timestamp)%N && bool_decide (timestamp ≤ upper_bound)%N.

Definition abs_diff (a b : N) : N := if decide (a ≤ b)%N then (b - a)%N else (a - b)%N.

Definition valid_block_timestamp (self : BlockTimestamp)
    (prev_block_ts curr_block_ts vote_delay_ns : N) (is_reproposal : bool) :
    option TimestampAdjustment :=
  if is_reproposal then
    if bool_decide (prev_block_ts < curr_block_ts)%N &&
       bool_decide (curr_block_ts < local_time_ns self)%N
    then Some {| adj_delta := 0; adj_direction := Forward |}
    else None
  else
    match u128_checked_sub curr_block_ts prev_block_ts with
    | None => None
    | Some 0%N => None
    | Some _ =>
        if negb (valid_bounds self curr_block_ts vote_delay_ns) then None
        else
          let adjustment := abs_diff (local_time_ns self) curr_block_ts in
          let adjustment := (adjustment - latency_estimate_ns self)%N in
          if decide (local_time_ns self < curr_block_ts)%N
          then Some {| adj_delta := adjustment; adj_direction := Forward |}
          else Some {| adj_delta := adjustment; adj_direction := Backward |}
    end.

(** ** Vote delay window *)

Definition VOTE_DELAY_WINDOW_MS : N := 5 * 60 * 1000.

Definition ns_to_ms (timestamp_ns : N) : N := ((timestamp_ns / 1000000) `min` u64_MAX)%N.

Record VoteDelayTimerStart := { timer_round : Round; started_at_ms : N }.

Record TimedVoteDelaySample := {
  recorded_at_ms : N;
  ready_after_timer_start_ms : N;
}.

Record VoteDelayMetricsWindow := { samples : list TimedVoteDelaySample }.

Definition VoteDelayMetricsWindow_default : VoteDelayMetricsWindow := {| samples := [] |}.

(** [while front.is_some_and(..) { pop_front }], structurally on the deque. *)
Fixpoint pop_expired (cutoff_ms : N) (l : list TimedVoteDelaySample) : list TimedVoteDelaySample :=
  match l with
  | [] => []
  | s :: l' => if decide (recorded_at_ms s < cutoff_ms)%N then pop_expired cutoff_ms l' else l
  end.

Definition window_prune (self : VoteDelayMetricsWindow) (now_ms : N) :
    bool * VoteDelayMetricsWindow :=
  let kept := pop_expired (now_ms - VOTE_DELAY_WINDOW_MS)%N (samples self) in
  (bool_decide (length kept ≠ length (samples self)), {| samples := kept |}).

Definition percentile (sorted_values : list N) (p : N) : run N :=
  let n := N.of_nat (length sorted_values) in
  let rank := ((((n * p) `min` u64_MAX + 99) / 100) `max` 1)%N in
  expect (sorted_values !! N.to_nat (rank - 1)).

(** The three reported percentiles, zero when there is no sample. *)
Definition update_metrics (self : VoteDelayMetricsWindow) : run (N * N * N) :=
  match samples self with
  | [] => Ret (0, 0, 0)%N
  | _ =>
      let values := merge_sort N.le (ready_after_timer_start_ms <$> samples self) in
      p50 ← percentile values 50;
      p90 ← percentile values 90;
      p99 ← percentile values 99;
      Ret (p50, p90, p99)
  end.

Definition record_ready_after_timer_start (self : VoteDelayMetricsWindow) (now_ms ready_ms : N) :
    run (N * N * N * VoteDelayMetricsWindow) :=
  let self := (window_prune self now_ms).2 in
  let self := {| samples := samples self ++
                   [{| recorded_at_ms := now_ms; ready_after_timer_start_ms := ready_ms |}] |} in
  m ← update_metrics self;
  Ret (m, self).

Definition refresh (self : VoteDelayMetricsWindow) (now_ms : N) :
    run (option (N * N * N) * VoteDelayMetricsWindow) :=
  let '(pruned, self) := window_prune self now_ms in
  if pruned : bool then m ← update_metrics self; Ret (Some m, self)
  else Ret (None, self).

(** ** Facts about timestamps *)

(** What [valid_block_timestamp] accepts, on every branch: strictly after the
    parent, and for a first proposal within the clock tolerance widened by the
    vote delay, for a reproposal before the local time. *)
Lemma valid_block_timestamp_Some self prev curr delay rep :
  (curr ≤ u128_MAX)%N → (local_time_ns self ≤ u128_MAX)%N →
  is_Some (valid_block_timestamp self prev curr delay rep) ↔
  (prev < curr)%N ∧
  if rep : bool then (curr < local_time_ns self)%N
  else (local_time_ns self ≤ curr + (max_delta_ns self + delay))%N ∧
       (curr ≤ local_time_ns self + (max_delta_ns self + delay))%N.
Proof.
  intros Hc Hl. unfold valid_block_timestamp. destruct rep.
  - destruct (bool_decide_reflect (prev < curr)%N), (bool_decide_reflect (curr < local_time_ns self)%N);
      cbn; split; try done; try (intros [??]; done); by intros [? [=]].
  - unfold u128_checked_sub. case_decide as Hle; [|split; [by intros [? [=]]|lia]].
    destruct (curr - prev)%N eqn:Hd; [split; [by intros [? [=]]|lia]|].
    unfold valid_bounds, u128_saturating_add.
    set (m := ((max_delta_ns self + delay) `min` u128_MAX)%N).
    assert (Hm : m = (max_delta_ns self + delay)%N ∨ m = u128_MAX ∧ (u128_MAX ≤ max_delta_ns self + delay)%N)
      by lia.
    destruct (bool_decide_reflect (local_time_ns self - m ≤ curr)%N),
      (bool_decide_reflect (curr ≤ (local_time_ns self + m) `min` u128_MAX)%N); cbn;
      repeat case_decide; (split; [intros HS; try (by destruct HS); repeat split; lia|]);
      intros (? & ? & ?); try (by eexists); exfalso; lia.
Qed.

(** A proposer's own timestamp is accepted by a validator whose clock is within
    the tolerance of the proposer's, or whose parent block is. *)
Lemma produced_timestamp_valid p v prev delay :
  (prev < u128_MAX)%N → (local_time_ns p ≤ u128_MAX)%N → (local_time_ns v ≤ u128_MAX)%N →
  let ts := get_valid_block_timestamp p prev in
  (local_time_ns v ≤ ts + (max_delta_ns v + delay))%N →
  (ts ≤ local_time_ns v + (max_delta_ns v + delay))%N →
  (prev < ts)%N ∧ is_Some (valid_block_timestamp v prev ts delay false).
Proof.
  intros Hprev Hp Hv ts H1 H2.
  assert (Hts : (prev < ts ≤ u128_MAX)%N).
  { unfold ts, get_valid_block_timestamp. case_decide; [|lia]. rewrite N.mod_small; lia. }
  split; [lia|]. apply valid_block_timestamp_Some; [lia..|]. split; lia.
Qed.

(** ** Facts about the window *)

Definition recorded_in_order (l : list TimedVoteDelaySample) : Prop :=
  StronglySorted (λ a b, recorded_at_ms a ≤ recorded_at_ms b)%N l.

Lemma pop_expired_suffix cutoff l : ∃ old, l = old ++ pop_expired cutoff l ∧
  Forall (λ s, recorded_at_ms s < cutoff)%N old.
Proof.
  induction l as [|s l [old [Hl Hold]]]; [by exists []|]. cbn. case_decide; [|by exists []].
  exists (s :: old). split; [cbn; by rewrite <- Hl|by constructor].
Qed.

Lemma pop_expired_kept cutoff l :
  recorded_in_order l → Forall (λ s, cutoff ≤ recorded_at_ms s)%N (pop_expired cutoff l).
Proof.
  induction 1 as [|s l Hl IH Hs]; [constructor|]. cbn. case_decide; [done|].
  constructor; [lia|]. eapply Forall_impl; [done|]. cbn. lia.
Qed.

Lemma percentile_total values p :
  values ≠ [] → (p ≤ 100)%N → (N.of_nat (length values) * p ≤ u64_MAX)%N →
  ∃ v, percentile values p = Ret v ∧ v ∈ values.
Proof.
  intros Hne Hp Hmax. unfold percentile.
  set (n := N.of_nat (length values)). fold n in Hmax.
  assert (Hn : (0 < n)%N) by (unfold n; destruct values; cbn in *; [done|lia]).
  assert (Hr : ((((n * p) `min` u64_MAX + 99) / 100) `max` 1 - 1 < n)%N).
  { replace ((n * p) `min` u64_MAX)%N with (n * p)%N by lia. assert (n * p ≤ n * 100)%N by (apply N.mul_le_mono_l; lia).
    abstract_div (n * p + 99)%N 100%N. lia. }
  destruct (lookup_lt_is_Some_2 values (N.to_nat ((((n * p) `min` u64_MAX + 99) / 100) `max` 1 - 1)))
    as [v Hv]; [unfold n in *; lia|].
  exists v. rewrite Hv. split; [done|]. by eapply list_elem_of_lookup_2.
Qed.

(** Recording never fails: it drops samples older than the window, appends the
    new one, and reports values that were recorded. *)
Lemma record_ready_total self now ready :
  (N.of_nat (S (length (samples self))) * 100 ≤ u64_MAX)%N →
  ∃ p50 p90 p99 kept,
    record_ready_after_timer_start self now ready =
      Ret (p50, p90, p99,
           {| samples := kept ++
                [{| recorded_at_ms := now; ready_after_timer_start_ms := ready |}] |}) ∧
    kept `suffix_of` samples self ∧
    (recorded_in_order (samples self) →
       Forall (λ s, now ≤ recorded_at_ms s + VOTE_DELAY_WINDOW_MS)%N kept) ∧
    ∀ v, v ∈ [p50; p90; p99] →
      v ∈ ready_after_timer_start_ms <$>
            (kept ++ [{| recorded_at_ms := now; ready_after_timer_start_ms := ready |}]).
Proof.
  intros Hlen. unfold record_ready_after_timer_start. cbn.
  set (kept := pop_expired (now - VOTE_DELAY_WINDOW_MS) (samples self)).
  set (l := kept ++ [_]).
  destruct (pop_expired_suffix (now - VOTE_DELAY_WINDOW_MS) (samples self)) as [old [Hold _]].
  fold kept in Hold.
  set (values := merge_sort N.le (ready_after_timer_start_ms <$> l)).
  assert (Hperm : values ≡ₚ ready_after_timer_start_ms <$> l) by apply merge_sort_Permutation.
  assert (Hl : length values = S (length kept)).
  { rewrite Hperm, length_fmap. unfold l. rewrite length_app. cbn. lia. }
  assert (Hk : length kept ≤ length (samples self)) by (rewrite Hold, length_app; lia).
  assert (Hne : values ≠ []) by (intros E; rewrite E in Hl; done).
  destruct (percentile_total values 50 Hne) as (p50 & H50 & ?); [lia..|].
  destruct (percentile_total values 90 Hne) as (p90 & H90 & ?); [lia..|].
  destruct (percentile_total values 99 Hne) as (p99 & H99 & ?); [lia..|].
  exists p50, p90, p99, kept. split; [|split; [by exists old|split]].
  - unfold update_metrics. cbn [samples]. fold l. fold values.
    destruct l eqn:El; [unfold l in El; by destruct kept|]. rewrite H50, H90, H99. done.
  - intros Hs. eapply Forall_impl; [by apply pop_expired_kept|]. cbn. lia.
  - intros v Hv. assert (Hin : v ∈ values) by (set_unfold in Hv; naive_solver).
    by rewrite Hperm in Hin.
Qed.
