(* ===== verification/ConsensusState.v ===== *)
(** * The consensus state machine ([src/consensus-state/src/lib.rs],
    [src/consensus-state/src/command.rs])

    The handlers that compose the components: the block tree, vote and
    no-endorsement aggregation, the safety rules and the pacemaker.  A handler
    runs in a small state monad that threads the mutable part of
    [ConsensusStateWrapper] and collects the commands in the order the source
    pushes them; the immutable part is the section variable [env].  A panic of
    the source ([expect], [assert!], [panic!], [todo!]) is [Panic]. *)
From S2P Require Import Prelude Types ValidatorSet EpochManager LeaderElection.
From S2P Require Import SignatureCollection Certificates Messages CertificateCache Signing.
From S2P Require Import MessageValidation Safety VoteState NoEndorsementState.
From S2P Require Import TimeoutAggregation Pacemaker Tree BlockTree BlockTreeSearch.
From S2P Require Import ChainConfig Timestamp.

(** ** The block validator ([src/consensus-types/src/block_validator.rs])

    A validated block wraps the header and body it was validated from, and the
    header commits to the body. *)
Class BlockValidator `{Codec, !BlockPolicy} := {
  BVT : Type;
  BlockValidationError : Type;
  validator_validate : BVT → ConsensusBlockHeader → Body → option CPK → CCT →
    result ValidatedBlock BlockValidationError;
  validator_validate_deref v h b k cc vb :
    validator_validate v h b k cc = Ok vb →
    deref vb = {| header := h; body := b |} ∧ body_get_id b = block_body_id h;
}.

Section mock_validator.
Context `{Codec} (InMemoryState MockConfig : Type).

Inductive MockBlockValidationError := MockHeaderPayloadMismatch.

Definition mock_validate (header : ConsensusBlockHeader) (body : Body) :
    result ConsensusFullBlock MockBlockValidationError :=
  match ConsensusFullBlock_new header body with
  | Ok full_block => Ok full_block
  | Err HeaderPayloadMismatch => Err MockHeaderPayloadMismatch
  end.

Lemma mock_validate_deref h b vb :
  mock_validate h b = Ok vb →
  vb = {| header := h; body := b |} ∧ body_get_id b = block_body_id h.
Proof.
  unfold mock_validate, ConsensusFullBlock_new. case_decide as Hd; [done|].
  intros [= <-]. split; [done|]. by destruct (decide (body_get_id b = block_body_id h)).
Qed.

Definition MockValidator :
    @BlockValidator _ _ (PassthruBlockPolicy InMemoryState MockConfig) :=
  @Build_BlockValidator _ _ (PassthruBlockPolicy InMemoryState MockConfig) ()
    MockBlockValidationError (λ _ h b _ _, mock_validate h b)
    (λ _ h b _ _ vb, mock_validate_deref h b vb).
End mock_validator.

Section consensus_state.
Context `{HM : MessageCodec} `{!HashIter, !Duplicates PT, !U256Ops, !LeaderElection PT}.
Context `{HB : !BlockPolicy} `{HV : !BlockValidator} `{HCC : !ChainConfig CCT}.

(** ** Commands *)

Inductive RouterTarget :=
| Broadcast (epoch : Epoch)
| Raptorcast (round : Round) (epoch : Epoch)
| PointToPoint (to : PT)
| DirectPointToPoint (to : PT)
| TcpPointToPoint (to : PT).

Inductive FullnodeBroadcastMode := SecondaryRaptorcast | FullnodeBroadcast.

Inductive OptimisticPolicyCommit :=
| CommitProposed (block : ValidatedBlock) (is_canonical : bool)
| CommitVoted (block : ValidatedBlock)
| CommitFinalized (block : ValidatedBlock).

Record CreateProposal := {
  cp_node_id : PT;
  cp_epoch : Epoch;
  cp_round : Round;
  cp_seq_num : SeqNum;
  cp_high_qc : QuorumCertificate;
  cp_round_signature : CST;
  cp_last_round_tc : option TimeoutCertificate;
  cp_fresh_proposal_certificate : option FreshProposalCertificate;
  cp_tx_limit : N;
  cp_proposal_gas_limit : N;
  cp_proposal_byte_limit : N;
  cp_beneficiary : N;
  cp_timestamp_ns : N;
  cp_extending_blocks : list ValidatedBlock;
  cp_delayed_execution_results : list FinalizedHeader;
}.

Inductive ConsensusCommand :=
| CmdEnterRound (epoch : Epoch) (round : Round)
| CmdPublish (target : RouterTarget) (message : Verified)
| CmdPublishToFullNodes (epoch : Epoch) (round : Round) (mode : FullnodeBroadcastMode)
    (message : Verified)
| CmdSchedule (round : Round) (duration : Duration)
| CmdScheduleReset
| CmdCreateProposal (p : CreateProposal)
| CmdCommitBlocks (commit : OptimisticPolicyCommit)
| CmdRequestSync (range : BlockRange)
| CmdCancelSync (range : BlockRange)
| CmdRequestStateSync (root : ConsensusBlockHeader) (high_qc : QuorumCertificate)
| CmdTimestampUpdate (adjustment : TimestampAdjustment)
| CmdScheduleVote (duration : Duration) (round : Round).

(** [ConsensusMessage { version, message }.sign(keypair)]. *)
Definition sign_message (version : N) (message : ProtocolMessage) (keypair : KP) : Verified :=
  let msg := {| version := version; message := message |} in
  {| ver_author := pubkey keypair;
     ver_message := {| unv_obj := msg;
                       author_signature := sign ConsensusMessageDomain (encode_message msg) keypair |} |}.

Definition from_pacemaker_command (keypair : KP) (cert_keypair : CKP) (version : N)
    (cmd : PacemakerCommand) : list ConsensusCommand :=
  match cmd with
  | EnterRound epoch round high_certificate =>
      [CmdEnterRound epoch round;
       CmdPublishToFullNodes epoch (rc_round high_certificate) FullnodeBroadcast
         (sign_message version
            (PmAdvanceRound {| ar_last_round_certificate := high_certificate |}) keypair)]
  | PrepareTimeout timeout high_extend safe_to_vote last_round_certificate =>
      [CmdPublish (Broadcast (ti_epoch timeout))
         (sign_message version
            (PmTimeout (Timeout_new cert_keypair timeout high_extend safe_to_vote
                          last_round_certificate)) keypair)]
  | Schedule round duration => [CmdSchedule round duration]
  | ScheduleReset => [CmdScheduleReset]
  end.

(** ** State *)

Definition FUTURE_VOTE_BOUND : Round := 10.
Definition NUM_LEADERS_FORWARD_TXS : nat := 3.
Definition NUM_LEADERS_SELF_UPCOMING : nat := 3.

Record BlockSyncRequestStatus := { bsr_range : BlockRange; cancel_round : Round }.

Inductive OutgoingVoteStatus := TimerFired | VoteReady (v : Vote).

Record ConsensusState := {
  pending_block_tree : BlockTree;
  cs_vote_state : VoteState;
  cs_no_endorsement_state : NoEndorsementState;
  scheduled_vote : option OutgoingVoteStatus;
  cs_safety : Safety;
  cs_pacemaker : Pacemaker;
  block_sync_requests : gmap BlockId BlockSyncRequestStatus;
  canonical_proposed_tip : option BlockId;
  vote_delay_timer_start : option VoteDelayTimerStart;
  vote_delay_metrics : VoteDelayMetricsWindow;
}.

Record ConsensusConfig := {
  cfg_execution_delay : SeqNum;
  cfg_delta : Duration;
  chain_config : CCT;
  live_to_statesync_threshold : SeqNum;
  statesync_to_live_threshold : SeqNum;
  start_execution_threshold : SeqNum;
  timestamp_latency_estimate_ns : N;
}.

(** The mutable and the immutable borrows of [ConsensusStateWrapper]. *)
Record ConsensusStateWrapper := {
  consensus : ConsensusState;
  epoch_manager : EpochManager;
  block_policy : BPT;
  state_read : ESRT;
}.

Record ConsensusEnv := {
  val_epoch_map : ValidatorsEpochMapping PT CPK;
  client_version : N;
  block_validator : BVT;
  block_timestamp : BlockTimestamp;
  beneficiary : N;
  nodeid : PT;
  config : ConsensusConfig;
  keypair : KP;
  cert_keypair : CKP;
}.

Definition params_of (cc : CCT) (round : Round) : ChainParams :=
  revision_params (cfg_chain_revision cc round).

Definition ConsensusState_new (em : EpochManager) (cfg : ConsensusConfig) (root : RootInfo)
    (high_certificate : RoundCertificate) : run ConsensusState :=
  pacemaker ← Pacemaker_new (cfg_delta cfg)
    (λ r, params_vote_pace (params_of (chain_config cfg) r)) (cfg_delta cfg) em high_certificate;
  r1 ← get_current_round pacemaker;
  safety ← Safety_new high_certificate None;
  Ret {| pending_block_tree := BlockTree_new root;
         scheduled_vote := None;
         cs_vote_state := VoteState_new r1;
         cs_no_endorsement_state := NoEndorsementState_new r1;
         cs_pacemaker := pacemaker;
         cs_safety := safety;
         block_sync_requests := ∅;
         canonical_proposed_tip := None;
         vote_delay_timer_start := None;
         vote_delay_metrics := VoteDelayMetricsWindow_default |}.

(** ** Field updates *)

Definition set_tree (t : BlockTree) (c : ConsensusState) : ConsensusState :=
  {| pending_block_tree := t; cs_vote_state := cs_vote_state c;
     cs_no_endorsement_state := cs_no_endorsement_state c; scheduled_vote := scheduled_vote c;
     cs_safety := cs_safety c; cs_pacemaker := cs_pacemaker c;
     block_sync_requests := block_sync_requests c;
     canonical_proposed_tip := canonical_proposed_tip c;
     vote_delay_timer_start := vote_delay_timer_start c;
     vote_delay_metrics := vote_delay_metrics c |}.

Definition set_votes (v : VoteState) (n : NoEndorsementState) (c : ConsensusState) :
    ConsensusState :=
  {| pending_block_tree := pending_block_tree c; cs_vote_state := v;
     cs_no_endorsement_state := n; scheduled_vote := scheduled_vote c;
     cs_safety := cs_safety c; cs_pacemaker := cs_pacemaker c;
     block_sync_requests := block_sync_requests c;
     canonical_proposed_tip := canonical_proposed_tip c;
     vote_delay_timer_start := vote_delay_timer_start c;
     vote_delay_metrics := vote_delay_metrics c |}.

Definition set_scheduled (v : option OutgoingVoteStatus) (c : ConsensusState) : ConsensusState :=
  {| pending_block_tree := pending_block_tree c; cs_vote_state := cs_vote_state c;
     cs_no_endorsement_state := cs_no_endorsement_state c; scheduled_vote := v;
     cs_safety := cs_safety c; cs_pacemaker := cs_pacemaker c;
     block_sync_requests := block_sync_requests c;
     canonical_proposed_tip := canonical_proposed_tip c;
     vote_delay_timer_start := vote_delay_timer_start c;
     vote_delay_metrics := vote_delay_metrics c |}.

Definition set_rounds (p : Pacemaker) (s : Safety) (c : ConsensusState) : ConsensusState :=
  {| pending_block_tree := pending_block_tree c; cs_vote_state := cs_vote_state c;
     cs_no_endorsement_state := cs_no_endorsement_state c; scheduled_vote := scheduled_vote c;
     cs_safety := s; cs_pacemaker := p;
     block_sync_requests := block_sync_requests c;
     canonical_proposed_tip := canonical_proposed_tip c;
     vote_delay_timer_start := vote_delay_timer_start c;
     vote_delay_metrics := vote_delay_metrics c |}.

Definition set_requests (r : gmap BlockId BlockSyncRequestStatus) (c : ConsensusState) :
    ConsensusState :=
  {| pending_block_tree := pending_block_tree c; cs_vote_state := cs_vote_state c;
     cs_no_endorsement_state := cs_no_endorsement_state c; scheduled_vote := scheduled_vote c;
     cs_safety := cs_safety c; cs_pacemaker := cs_pacemaker c;
     block_sync_requests := r;
     canonical_proposed_tip := canonical_proposed_tip c;
     vote_delay_timer_start := vote_delay_timer_start c;
     vote_delay_metrics := vote_delay_metrics c |}.

Definition set_proposed_tip (i : option BlockId) (c : ConsensusState) : ConsensusState :=
  {| pending_block_tree := pending_block_tree c; cs_vote_state := cs_vote_state c;
     cs_no_endorsement_state := cs_no_endorsement_state c; scheduled_vote := scheduled_vote c;
     cs_safety := cs_safety c; cs_pacemaker := cs_pacemaker c;
     block_sync_requests := block_sync_requests c;
     canonical_proposed_tip := i;
     vote_delay_timer_start := vote_delay_timer_start c;
     vote_delay_metrics := vote_delay_metrics c |}.

Definition set_vote_delay (t : option VoteDelayTimerStart) (m : VoteDelayMetricsWindow)
    (c : ConsensusState) : ConsensusState :=
  {| pending_block_tree := pending_block_tree c; cs_vote_state := cs_vote_state c;
     cs_no_endorsement_state := cs_no_endorsement_state c; scheduled_vote := scheduled_vote c;
     cs_safety := cs_safety c; cs_pacemaker := cs_pacemaker c;
     block_sync_requests := block_sync_requests c;
     canonical_proposed_tip := canonical_proposed_tip c;
     vote_delay_timer_start := t; vote_delay_metrics := m |}.

(** ** The handler monad *)

Definition act (A : Type) : Type :=
  ConsensusStateWrapper → run (A * list ConsensusCommand * ConsensusStateWrapper).

#[global] Instance act_ret : MRet act := λ A a w, Ret (a, [], w).

#[global] Instance act_bind : MBind act := λ A B f m w,
  match m w with
  | Ret (a, cmds, w) =>
      match f a w with
      | Ret (b, cmds', w) => Ret (b, cmds ++ cmds', w)
      | Panic => Panic
      end
  | Panic => Panic
  end.

Definition emit (cmds : list ConsensusCommand) : act () := λ w, Ret ((), cmds, w).
Definition gets {A} (f : ConsensusStateWrapper → A) : act A := λ w, Ret (f w, [], w).
Definition run_lift {A} (m : run A) : act A := λ w, a ← m; Ret (a, [], w).

Definition put_consensus (f : ConsensusState → ConsensusState) : act () := λ w,
  Ret ((), [], {| consensus := f (consensus w); epoch_manager := epoch_manager w;
                  block_policy := block_policy w; state_read := state_read w |}).

Definition put_epoch_manager (em : EpochManager) : act () := λ w,
  Ret ((), [], {| consensus := consensus w; epoch_manager := em;
                  block_policy := block_policy w; state_read := state_read w |}).

Definition put_block_policy (p : BPT) : act () := λ w,
  Ret ((), [], {| consensus := consensus w; epoch_manager := epoch_manager w;
                  block_policy := p; state_read := state_read w |}).

Definition put_state_read (s : ESRT) : act () := λ w,
  Ret ((), [], {| consensus := consensus w; epoch_manager := epoch_manager w;
                  block_policy := block_policy w; state_read := s |}).

Fixpoint for_each {A} (l : list A) (f : A → act ()) : act () :=
  match l with
  | [] => mret ()
  | a :: l => f a ≫= λ _, for_each l f
  end.

Definition tree_of : act BlockTree := gets (λ w, pending_block_tree (consensus w)).
Definition pacemaker_of : act Pacemaker := gets (λ w, cs_pacemaker (consensus w)).
Definition safety_of : act Safety := gets (λ w, cs_safety (consensus w)).

Definition current_round : act Round :=
  p ← pacemaker_of; run_lift (get_current_round p).

Definition put_safety (s : Safety) : act () :=
  p ← pacemaker_of; put_consensus (set_rounds p s).

(** ** Block sync requests *)

Definition request_blocks_if_missing_ancestor : act () :=
  p ← pacemaker_of;
  let high_qc := rc_qc (high_certificate p) in
  t ← tree_of;
  range ← run_lift (maybe_fill_path_to_root t high_qc);
  match range with
  | None => mret ()
  | Some range =>
      run_lift (assert (num_blocks range ≠ 0%N)) ≫= λ _,
      requests ← gets (λ w, block_sync_requests (consensus w));
      if decide (is_Some (requests !! last_block_id range)) then mret ()
      else
        put_consensus (set_requests
          (<[last_block_id range := {| bsr_range := range; cancel_round := qc_get_round high_qc |}]>
             requests)) ≫= λ _,
        emit [CmdRequestSync range]
  end.

Definition request_tip_if_missing : act () :=
  p ← pacemaker_of;
  match high_certificate p with
  | RcQc _ => mret ()
  | RcTc tc =>
      match tc_high_extend tc with
      | HeQc _ => mret ()
      | HeTip tip =>
          let tip_id := get_id (tip_header tip) in
          t ← tree_of;
          if decide (is_Some (get_block t tip_id)) then mret ()
          else
            requests ← gets (λ w, block_sync_requests (consensus w));
            if decide (is_Some (requests !! tip_id)) then mret ()
            else
              let range := {| last_block_id := tip_id; num_blocks := 1%N |} in
              put_consensus (set_requests
                (<[tip_id := {| bsr_range := range;
                                cancel_round := block_round (tip_header tip) |}]> requests)) ≫= λ _,
              emit [CmdRequestSync range]
      end
  end.

Section env.
Context (env : ConsensusEnv).

(** ** Lookups *)

(** The epoch of a round and its validators, each behind an [expect]. *)
Definition validators_at (round : Round) : act (Epoch * ValidatorSet PT) :=
  em ← gets epoch_manager;
  epoch ← run_lift (expect (get_epoch em round));
  validator_set ← run_lift (expect (get_val_set (val_epoch_map env) epoch));
  mret (epoch, validator_set).

Definition leader_at (round : Round) : act PT :=
  '(_, validator_set) ← validators_at round;
  run_lift (get_leader round (get_members validator_set)).

Definition lookup_leader (round : Round) : act (option PT) :=
  em ← gets epoch_manager;
  match get_epoch em round with
  | None => mret None
  | Some epoch =>
      match get_val_set (val_epoch_map env) epoch with
      | None => mret None
      | Some validator_set =>
          leader ← run_lift (get_leader round (get_members validator_set));
          mret (Some leader)
      end
  end.

Definition publish (target : RouterTarget) (message : ProtocolMessage) : act () :=
  emit [CmdPublish target (sign_message (client_version env) message (keypair env))].

Definition emit_pacemaker (cmds : list PacemakerCommand) : act () :=
  emit (cmds ≫= from_pacemaker_command (keypair env) (cert_keypair env) (client_version env)).

Definition process_round_certificate (certificate : RoundCertificate) : act () :=
  w ← gets id;
  '(cmds, p, s) ← run_lift (process_certificate (cs_pacemaker (consensus w)) (epoch_manager w)
                              (cs_safety (consensus w)) certificate);
  put_consensus (set_rounds p s) ≫= λ _,
  emit_pacemaker cmds.

(** ** Local timeout *)

Definition handle_timeout_expiry (timeout_round : Round) : act () :=
  current_round ← current_round;
  if decide (timeout_round < current_round)%N then mret ()
  else
    c ← gets consensus;
    '(cmds, p, s) ← run_lift (process_local_timeout (cs_pacemaker c) (cs_safety c));
    put_consensus (set_rounds p s) ≫= λ _,
    emit_pacemaker cmds.

Definition has_handled_proposal (round : Round) : act bool :=
  s ← safety_of; mret (negb (is_safe_to_handle_proposal s round)).

(** ** Committing *)

Definition commit_block (block : ValidatedBlock) : act () :=
  policy ← gets block_policy;
  policy ← run_lift (update_committed_block policy block);
  put_block_policy policy ≫= λ _,
  em ← gets epoch_manager;
  em ← run_lift (schedule_epoch_start em (blk_get_seq_num (deref block))
                   (blk_get_block_round (deref block)));
  put_epoch_manager em ≫= λ _,
  emit [CmdCommitBlocks (CommitFinalized block)].

Definition try_commit (qc : QuorumCertificate) : act () :=
  t ← tree_of;
  match get_block t (qc_get_block_id qc) with
  | None => mret ()
  | Some qc_parent =>
      committable ← run_lift (get_committable_id qc (header (deref qc_parent)));
      match committable with
      | None => mret ()
      | Some committable_block_id =>
          if negb (is_coherent t committable_block_id) then mret ()
          else
            '(blocks_to_commit, t) ← run_lift (prune t committable_block_id);
            put_consensus (set_tree t) ≫= λ _,
            for_each blocks_to_commit commit_block
      end
  end.

Definition update_proposed_head : act () :=
  p ← pacemaker_of;
  t ← tree_of;
  canonical_tip_id ← run_lift (get_canonical_coherent_tip t (rc_qc (high_certificate p)));
  proposed ← gets (λ w, canonical_proposed_tip (consensus w));
  if decide (proposed = Some canonical_tip_id) then mret ()
  else
    match get_block t canonical_tip_id with
    | None => mret ()
    | Some block =>
        put_consensus (set_proposed_tip (Some canonical_tip_id)) ≫= λ _,
        emit [CmdCommitBlocks (CommitProposed block true)]
    end.

Definition consensus_try_update_coherency (updated_block_id : BlockId) : act () :=
  w ← gets id;
  '(newly_coherent, t, state) ← run_lift
    (try_update_coherency (pending_block_tree (consensus w)) updated_block_id (block_policy w)
       (state_read w) (chain_config (config env)));
  put_consensus (set_tree t) ≫= λ _,
  put_state_read state ≫= λ _,
  emit ((λ b, CmdCommitBlocks (CommitProposed b false)) <$> newly_coherent) ≫= λ _,
  update_proposed_head ≫= λ _,
  t ← tree_of;
  high_commit_qc ← run_lift (get_high_committable_qc t);
  match high_commit_qc with
  | Some qc => try_commit qc
  | None => mret ()
  end.

(** Panics when the high QC is too far ahead of the root. *)
Definition maybe_statesync : act () :=
  t ← tree_of;
  p ← pacemaker_of;
  match get_seq_num_of_qc t (rc_qc (high_certificate p)) with
  | None => mret ()
  | Some high_qc_seq_num =>
      bound ← run_lift (SeqNum_add (root_seq_num (info (root t)))
                          (live_to_statesync_threshold (config env)));
      run_lift (assert (high_qc_seq_num < bound)%N)
  end.

(** ** Voting *)

Definition maybe_record_vote_delay_metrics (proposal_round parent_block_round : Round) : act () :=
  c ← gets consensus;
  match vote_delay_timer_start c with
  | None => mret ()
  | Some timer_start =>
      if decide (timer_round timer_start ≠ proposal_round) then mret ()
      else
        next ← run_lift (Round_add parent_block_round 1);
        if decide (next ≠ proposal_round) then mret ()
        else
          let now_ms := ns_to_ms (get_current_time (block_timestamp env)) in
          '(_, window) ← run_lift
            (record_ready_after_timer_start (vote_delay_metrics c) now_ms
               (u64_saturating_sub now_ms (started_at_ms timer_start)));
          put_consensus (set_vote_delay (vote_delay_timer_start c) window)
  end.

Definition send_vote_and_reset_timer (vote : Vote) : act () :=
  let round := v_round vote in
  let message := PmVote (VoteMessage_new vote (cert_keypair env)) in
  next_round ← run_lift (Round_add round 1);
  next_leader ← leader_at next_round;
  publish (PointToPoint next_leader) message ≫= λ _,
  current_leader ← leader_at round;
  (if decide (current_leader ≠ next_leader) then publish (PointToPoint current_leader) message
   else mret ()) ≫= λ _,
  emit [CmdScheduleVote (params_vote_pace (params_of (chain_config (config env)) next_round))
          next_round] ≫= λ _,
  c ← gets consensus;
  put_consensus (set_vote_delay
    (Some {| timer_round := next_round;
             started_at_ms := ns_to_ms (get_current_time (block_timestamp env)) |})
    (vote_delay_metrics c)) ≫= λ _,
  put_consensus (set_scheduled None).

Definition handle_vote_timer (vote_timer_round : Round) : act () :=
  scheduled ← gets (λ w, scheduled_vote (consensus w));
  match scheduled with
  | Some (VoteReady v) => send_vote_and_reset_timer v
  | _ => put_consensus (set_scheduled (Some TimerFired))
  end.

Definition tc_tip_id (tc : TimeoutCertificate) : option BlockId :=
  match tc_high_extend tc with
  | HeQc _ => None
  | HeTip tc_tip => Some (get_id (tip_header tc_tip))
  end.

(** The scheduling of a vote that passed the safety rules. *)
Definition schedule_vote (v : Vote) (parent_block_round proposal_round : Round) : act () :=
  scheduled ← gets (λ w, scheduled_vote (consensus w));
  match scheduled with
  | Some TimerFired => send_vote_and_reset_timer v
  | _ =>
      (match scheduled with
       | Some (VoteReady r) => run_lift (assert (v_round r < v_round v)%N)
       | _ => mret ()
       end) ≫= λ _,
      next ← run_lift (Round_add parent_block_round 1);
      if decide (next ≠ proposal_round) then send_vote_and_reset_timer v
      else put_consensus (set_scheduled (Some (VoteReady v)))
  end.

Definition try_vote (last_round_tc : option TimeoutCertificate) (tip : ConsensusTip) : act () :=
  proposal_round ← current_round;
  t ← tree_of;
  let qc := hdr_qc (tip_header tip) in
  let id := get_id (tip_header tip) in
  match get_timestamp_of_qc t qc, get_block_round_of_qc t qc with
  | Some parent_timestamp, Some parent_block_round =>
      let is_reproposal := bool_decide (proposal_round ≠ block_round (tip_header tip)) in
      match valid_block_timestamp (block_timestamp env) parent_timestamp
              (hdr_timestamp_ns (tip_header tip))
              (params_vote_pace (params_of (chain_config (config env)) proposal_round))
              is_reproposal with
      | None => mret ()
      | Some _ =>
          if negb (is_coherent t id) then mret ()
          else
            let last_round_tc_tip := last_round_tc ≫= tc_tip_id in
            s ← safety_of;
            if negb (is_safe_to_vote s proposal_round last_round_tc_tip) then mret ()
            else
              s ← run_lift (vote s proposal_round last_round_tc_tip tip);
              put_safety s ≫= λ _,
              p ← pacemaker_of;
              let v := {| v_id := id; v_round := proposal_round; v_epoch := current_epoch p |} in
              maybe_record_vote_delay_metrics proposal_round parent_block_round ≫= λ _,
              schedule_vote v parent_block_round proposal_round
      end
  | _, _ => mret ()
  end.

(** ** Proposing *)

(** What the high certificate of a round lets its leader extend. *)
Definition proposal_basis (p : Pacemaker) (ne : NoEndorsementState) (round : Round) :
    HighExtend * option FreshProposalCertificate * option TimeoutCertificate :=
  match high_certificate p with
  | RcTc tc =>
      match get_nec ne round with
      | Some nec => (HeQc (HighExtend_qc (tc_high_extend tc)), Some (Nec nec), Some tc)
      | None =>
          match tc_high_extend tc with
          | HeTip tip => (HeTip tip, None, Some tc)
          | HeQc qc =>
              (HeQc qc,
               Some (NoTip {| nt_epoch := tc_epoch tc; nt_round := tc_round tc;
                              nt_tip_rounds := tc_tip_rounds tc; nt_high_qc := qc |}),
               Some tc)
          end
      end
  | RcQc qc => (HeQc qc, None, None)
  end.

Definition publish_recovery (round : Round) (last_round_tc : option TimeoutCertificate) : act () :=
  s ← safety_of;
  if negb (is_safe_to_recovery_request s round) then mret ()
  else
    s ← run_lift (recovery_request s round);
    put_safety s ≫= λ _,
    tc ← run_lift (expect last_round_tc);
    p ← pacemaker_of;
    current ← current_round;
    publish (Broadcast (current_epoch p))
      (PmRoundRecovery {| rr_round := current; rr_epoch := current_epoch p; rr_tc := tc |}).

Definition propose_tip (round : Round) (tip : ConsensusTip)
    (last_round_tc : option TimeoutCertificate) : act () :=
  let id := get_id (tip_header tip) in
  consensus_try_update_coherency id ≫= λ _,
  t ← tree_of;
  let is_votable_ts :=
    bool_decide (hdr_timestamp_ns (tip_header tip) < get_current_time (block_timestamp env))%N in
  if negb (is_coherent t id) || negb is_votable_ts then publish_recovery round last_round_tc
  else
    s ← safety_of;
    s ← run_lift (propose s round);
    put_safety s ≫= λ _,
    block ← run_lift (expect (get_block t id));
    p ← pacemaker_of;
    current ← current_round;
    publish (Raptorcast current (current_epoch p))
      (PmProposal {| proposal_round := current; proposal_epoch := current_epoch p; pm_tip := tip;
                     block_body := body (deref block); last_round_tc := last_round_tc |}).

Definition propose_qc (epoch : Epoch) (round : Round) (qc : QuorumCertificate)
    (fresh : option FreshProposalCertificate) (last_round_tc : option TimeoutCertificate) : act () :=
  consensus_try_update_coherency (qc_get_block_id qc) ≫= λ _,
  t ← tree_of;
  if negb (is_coherent t (qc_get_block_id qc)) then mret ()
  else
    let round_signature := RoundSignature_new round (cert_keypair env) in
    path ← run_lift (get_blocks_on_path_from_root t (qc_get_block_id qc));
    pending_blocktree_blocks ← run_lift (expect path);
    '(try_propose_seq_num, timestamp_ns) ←
      match last pending_blocktree_blocks with
      | Some extending_block =>
          n ← run_lift (SeqNum_add (blk_get_seq_num (deref extending_block)) 1);
          mret (n, get_valid_block_timestamp (block_timestamp env)
                     (blk_get_timestamp (deref extending_block)))
      | None =>
          n ← run_lift (SeqNum_add (root_seq_num (info (root t))) 1);
          mret (n, get_valid_block_timestamp (block_timestamp env)
                     (root_timestamp_ns (info (root t))))
      end;
    w ← gets id;
    '(results, state) ← run_lift (get_expected_execution_results (block_policy w)
                                    try_propose_seq_num pending_blocktree_blocks (state_read w));
    put_state_read state ≫= λ _,
    match results with
    | Err _ => mret ()
    | Ok delayed_execution_results =>
        s ← safety_of;
        s ← run_lift (propose s round);
        put_safety s ≫= λ _,
        let params := params_of (chain_config (config env)) round in
        emit [CmdCreateProposal
          {| cp_node_id := nodeid env; cp_epoch := epoch; cp_round := round;
             cp_seq_num := try_propose_seq_num; cp_high_qc := qc;
             cp_round_signature := round_signature; cp_last_round_tc := last_round_tc;
             cp_fresh_proposal_certificate := fresh;
             cp_tx_limit := tx_limit params;
             cp_proposal_gas_limit := proposal_gas_limit params;
             cp_proposal_byte_limit := proposal_byte_limit params;
             cp_beneficiary := beneficiary env; cp_timestamp_ns := timestamp_ns;
             cp_extending_blocks := pending_blocktree_blocks;
             cp_delayed_execution_results := delayed_execution_results |}]
    end.

Definition try_propose : act () :=
  round ← current_round;
  '(epoch, validator_set) ← validators_at round;
  leader ← run_lift (get_leader round (get_members validator_set));
  if decide (nodeid env ≠ leader) then mret ()
  else
    request_tip_if_missing ≫= λ _,
    s ← safety_of;
    if negb (is_safe_to_propose s round) then mret ()
    else
      c ← gets consensus;
      let '(high_extend, fresh, last_round_tc) :=
        proposal_basis (cs_pacemaker c) (cs_no_endorsement_state c) round in
      match high_extend with
      | HeTip tip => propose_tip round tip last_round_tc
      | HeQc qc => propose_qc epoch round qc fresh last_round_tc
      end.

(** ** Adding blocks *)

Definition try_add_and_commit_blocktree (block : ValidatedBlock)
    (try_vote_args : option (Round * option TimeoutCertificate * ConsensusTip)) : act () :=
  t ← tree_of;
  t ← run_lift (add t block);
  put_consensus (set_tree t) ≫= λ _,
  consensus_try_update_coherency (blk_get_id (deref block)) ≫= λ _,
  (match try_vote_args with
   | None => mret ()
   | Some (proposal_round, last_round_tc, tip) =>
       current ← current_round;
       if decide (proposal_round = current) then
         run_lift (assert (get_id (tip_header tip) = blk_get_id (deref block))) ≫= λ _,
         try_vote last_round_tc tip
       else mret ()
   end) ≫= λ _,
  try_propose ≫= λ _,
  maybe_statesync ≫= λ _,
  request_blocks_if_missing_ancestor.

(** ** Certificates *)

Definition cancel_obsolete_requests : act () :=
  c ← gets consensus;
  let to_cancel :=
    (filter (λ p, (cancel_round p.2 ≤ root_round (info (root (pending_block_tree c))))%N)
       (btree_iter (block_sync_requests c))).*1 in
  for_each to_cancel (λ block_id,
    requests ← gets (λ w, block_sync_requests (consensus w));
    canceled ← run_lift (expect (requests !! block_id));
    put_consensus (set_requests (delete block_id requests)) ≫= λ _,
    emit [CmdCancelSync (bsr_range canceled)]).

Definition process_qc (qc : QuorumCertificate) : act () :=
  current ← current_round;
  if decide (v_round (qc_info qc) < current)%N then mret ()
  else
    t ← tree_of;
    voted ← run_lift (get_highest_coherent_block_on_path_from_root t (qc_get_block_id qc));
    (match voted with
     | Some voted_block => emit [CmdCommitBlocks (CommitVoted voted_block)]
     | None => mret ()
     end) ≫= λ _,
    try_commit qc ≫= λ _,
    cancel_obsolete_requests ≫= λ _,
    maybe_statesync ≫= λ _,
    process_round_certificate (RcQc qc) ≫= λ _,
    update_proposed_head ≫= λ _,
    request_blocks_if_missing_ancestor ≫= λ _,
    round ← current_round;
    c ← gets consensus;
    put_consensus (set_votes (vote_start_new_round (cs_vote_state c) round)
                     (ne_start_new_round (cs_no_endorsement_state c) round)) ≫= λ _,
    lookup_leader round ≫= λ _,
    try_propose.

Definition process_tc (tc : TimeoutCertificate) : act () :=
  current ← current_round;
  if decide (tc_round tc < current)%N then mret ()
  else
    process_round_certificate (RcTc tc) ≫= λ _,
    round ← current_round;
    lookup_leader round ≫= λ _,
    try_propose.

(** ** Proposals *)

Definition validate_block (header : ConsensusBlockHeader) (body : Body) :
    act (option ValidatedBlock) :=
  t ← tree_of;
  match get_block t (get_id header) with
  | Some validated =>
      if decide (blk_get_body_id (deref validated) ≠ body_get_id body) then mret None
      else mret (Some validated)
  | None =>
      block_round_leader ← leader_at (block_round header);
      if decide (hdr_author header ≠ block_round_leader) then mret None
      else
        keys ← run_lift (expect (get_cert_pubkeys (val_epoch_map env) (hdr_epoch header)));
        author_pubkey ← run_lift (expect (keys !! hdr_author header));
        match validator_validate (block_validator env) header body (Some author_pubkey)
                (chain_config (config env)) with
        | Ok block => mret (Some block)
        | Err _ => mret None
        end
  end.

Definition handle_proposal_message (author : PT) (p : ProposalMessage) : act () :=
  t ← tree_of;
  if decide (proposal_round p ≤ root_round (info (root t)))%N then mret ()
  else
    '(_, validator_set) ← validators_at (proposal_round p);
    process_qc (hdr_qc (tip_header (pm_tip p))) ≫= λ _,
    (match last_round_tc p with
     | Some tc => process_tc tc
     | None => mret ()
     end) ≫= λ _,
    pacemaker_round ← current_round;
    expected_leader ← run_lift (get_leader (proposal_round p) (get_members validator_set));
    if bool_decide (pacemaker_round < proposal_round p)%N || bool_decide (author ≠ expected_leader)
    then mret ()
    else
      s ← safety_of;
      if negb (is_safe_to_handle_proposal s (proposal_round p)) then mret ()
      else
        s ← run_lift (handle_proposal s (proposal_round p));
        put_safety s ≫= λ _,
        block ← validate_block (tip_header (pm_tip p)) (block_body p);
        match block with
        | None => mret ()
        | Some block =>
            try_add_and_commit_blocktree block (Some (proposal_round p, last_round_tc p, pm_tip p))
        end.

(** ** Votes, timeouts and recovery *)

Definition handle_vote_message (author : PT) (vote_msg : VoteMessage) : act () :=
  let vote_round := v_round (vm_vote vote_msg) in
  current ← current_round;
  if decide (vote_round < current)%N then mret ()
  else
    bound ← run_lift (Round_add current FUTURE_VOTE_BOUND);
    if decide (bound < vote_round)%N then mret ()
    else
      '(epoch, validator_set) ← validators_at vote_round;
      validator_mapping ← run_lift (expect (get_cert_pubkeys (val_epoch_map env) epoch));
      c ← gets consensus;
      '(maybe_qc, vs) ← run_lift (process_vote (cs_vote_state c) author vote_msg validator_set
                                    validator_mapping);
      put_consensus (set_votes vs (cs_no_endorsement_state c)) ≫= λ _,
      match maybe_qc with
      | None => mret ()
      | Some qc =>
          process_qc qc ≫= λ _,
          try_propose ≫= λ _,
          vote_round_leader ← run_lift (get_leader vote_round (get_members validator_set));
          if decide (nodeid env = vote_round_leader) then
            p ← pacemaker_of;
            publish (Broadcast (current_epoch p))
              (PmAdvanceRound {| ar_last_round_certificate := RcQc qc |})
          else mret ()
      end.

Definition broadcast_advance_round_message (last_round_certificate : RoundCertificate) : act () :=
  em ← gets epoch_manager;
  match get_epoch em (rc_round last_round_certificate) with
  | None => mret ()
  | Some epoch =>
      publish (Broadcast epoch)
        (PmAdvanceRound {| ar_last_round_certificate := last_round_certificate |})
  end.

Definition handle_timeout_certificate (last_round_certificate : option RoundCertificate) : act () :=
  current_round ← current_round;
  match last_round_certificate with
  | Some (RcTc tc) =>
      if decide (tc_round tc = current_round) then
        handle_timeout_expiry (tc_round tc) ≫= λ _, process_tc tc
      else if decide (current_round < tc_round tc)%N then
        broadcast_advance_round_message (RcTc tc) ≫= λ _, process_tc tc
      else mret ()
  | Some (RcQc qc) => process_qc qc
  | None => mret ()
  end.

(** What a timeout brings besides itself: its high QC, the vote it may carry, and
    the certificate that justifies its round. *)
Definition absorb_timeout (author : PT) (timeout : Timeout) : act () :=
  process_qc (HighExtendVote_qc (tm_high_extend timeout)) ≫= λ _,
  (match tm_high_extend timeout with
   | HvTip tip (Some vote_signature) =>
       handle_vote_message author
         {| vm_vote := {| v_id := get_id (tip_header tip); v_epoch := ti_epoch (tm_info timeout);
                          v_round := ti_round (tm_info timeout) |};
            vm_sig := vote_signature |}
   | _ => mret ()
   end) ≫= λ _,
  handle_timeout_certificate (tm_last_round_certificate timeout).

Definition collect_timeout (author : PT) (timeout : Timeout) (validator_set : ValidatorSet PT)
    (validator_mapping : gmap PT CPK) : act () :=
  w ← gets id;
  '(cmds, p, s) ← run_lift
    (process_remote_timeout (cs_pacemaker (consensus w)) (epoch_manager w) validator_set
       validator_mapping (cs_safety (consensus w)) author timeout);
  put_consensus (set_rounds p s) ≫= λ _,
  emit_pacemaker cmds.

Definition handle_timeout_message (author : PT) (timeout : Timeout) : act () :=
  current ← current_round;
  if decide (ti_round (tm_info timeout) < current)%N then mret ()
  else
    '(epoch, validator_set) ← validators_at (ti_round (tm_info timeout));
    validator_mapping ← run_lift (expect (get_cert_pubkeys (val_epoch_map env) epoch));
    absorb_timeout author timeout ≫= λ _,
    collect_timeout author timeout validator_set validator_mapping ≫= λ _,
    try_propose.

Definition handle_round_recovery_message (author : PT) (round_recovery : RoundRecoveryMessage) :
    act () :=
  '(epoch, validator_set) ← validators_at (rr_round round_recovery);
  process_tc (rr_tc round_recovery) ≫= λ _,
  pacemaker_round ← current_round;
  let round := rr_round round_recovery in
  expected_leader ← run_lift (get_leader pacemaker_round (get_members validator_set));
  if bool_decide (round ≠ pacemaker_round) || bool_decide (author ≠ expected_leader) then mret ()
  else
    match tc_high_extend (rr_tc round_recovery) with
    | HeQc _ => mret ()
    | HeTip tip =>
        let id := get_id (tip_header tip) in
        t ← tree_of;
        if is_coherent t id &&
           bool_decide (hdr_timestamp_ns (tip_header tip) < get_current_time (block_timestamp env))%N
        then mret ()
        else
          s ← safety_of;
          if is_safe_to_no_endorse s round then
            s ← run_lift (no_endorse s round id);
            put_safety s ≫= λ _,
            publish (PointToPoint author)
              (PmNoEndorsement
                 (NoEndorsementMessage_new
                    {| ne_epoch := epoch; ne_round := round;
                       tip_qc_round := qc_get_round (hdr_qc (tip_header tip)) |}
                    (cert_keypair env)))
          else mret ()
    end.

Definition handle_no_endorsement_message (author : PT) (no_endorsement_msg : NoEndorsementMessage) :
    act () :=
  let round := ne_round (nem_msg no_endorsement_msg) in
  current ← current_round;
  if decide (round < current)%N then mret ()
  else if decide (current < round)%N then mret ()
  else
    '(epoch, validator_set) ← validators_at round;
    validator_mapping ← run_lift (expect (get_cert_pubkeys (val_epoch_map env) epoch));
    c ← gets consensus;
    '(maybe_nec, ne) ← run_lift (process_no_endorsement (cs_no_endorsement_state c) author
                                   no_endorsement_msg validator_set validator_mapping);
    put_consensus (set_votes (cs_vote_state c) ne) ≫= λ _,
    match maybe_nec with
    | Some _ => try_propose
    | None => mret ()
    end.

Definition handle_advance_round_message (author : PT) (advance_round_msg : AdvanceRoundMessage) :
    act () :=
  match ar_last_round_certificate advance_round_msg with
  | RcTc tc => process_tc tc
  | RcQc qc =>
      current ← current_round;
      if decide (v_round (qc_info qc) < current)%N then mret ()
      else
        process_qc qc ≫= λ _,
        round ← current_round;
        leader ← leader_at round;
        publish (PointToPoint leader) (PmAdvanceRound {| ar_last_round_certificate := RcQc qc |})
  end.

(** The loop of [handle_block_sync]: a block that fails to validate ends it. *)
Fixpoint sync_loop (full_blocks : list ConsensusFullBlock) : act () :=
  match full_blocks with
  | [] => mret ()
  | full_block :: full_blocks =>
      t ← tree_of;
      if negb (is_valid_to_insert t (header full_block)) then sync_loop full_blocks
      else
        block ← validate_block (header full_block) (body full_block);
        match block with
        | None => mret ()
        | Some block =>
            try_add_and_commit_blocktree block None ≫= λ _, sync_loop full_blocks
        end
  end.

Definition handle_block_sync (block_range : BlockRange) (full_blocks : list ConsensusFullBlock) :
    act () :=
  requests ← gets (λ w, block_sync_requests (consensus w));
  match requests !! last_block_id block_range with
  | None => mret ()
  | Some _ =>
      sync_loop full_blocks ≫= λ _,
      c ← gets consensus;
      put_consensus (set_requests (delete (last_block_id block_range) (block_sync_requests c)))
  end.

(** ** Checkpoints and upcoming leaders *)

Definition checkpoint_locked_epoch (w : ConsensusStateWrapper) (epoch : Epoch) : option LockedEpoch :=
  _ ← get_val_set (val_epoch_map env) epoch;
  round ← epoch_starts (epoch_manager w) !! epoch;
  Some {| le_epoch := epoch; le_round := round |}.

Definition checkpoint (w : ConsensusStateWrapper) : run Checkpoint :=
  let root := info (root (pending_block_tree (consensus w))) in
  base ← expect (checkpoint_locked_epoch w (root_epoch root));
  next_epoch ← Epoch_add (root_epoch root) 1;
  Ret {| cp_root := root_block_id root;
         cp_high_certificate := high_certificate (cs_pacemaker (consensus w));
         cp_validator_sets :=
           base :: match checkpoint_locked_epoch w next_epoch with
                   | Some l => [l]
                   | None => []
                   end |}.

(** The open range of rounds is unchecked 64-bit arithmetic. *)
Fixpoint leader_round_pairs (num_rounds : nat) (start : N) : act (list (PT * Round)) :=
  match num_rounds with
  | 0 => mret []
  | S num_rounds =>
      leader ← leader_at start;
      rest ← leader_round_pairs num_rounds ((start + 1) `mod` (u64_MAX + 1))%N;
      mret ((leader, start) :: rest)
  end.

Definition compute_upcoming_leader_round_pairs (include_current_round : bool) (num_rounds : nat) :
    act (list (PT * Round)) :=
  current ← current_round;
  leader_round_pairs num_rounds
    ((current + if include_current_round then 0 else 1) `mod` (u64_MAX + 1))%N.

Definition iter_upcoming_self_leader_rounds : act (list Round) :=
  pairs ← compute_upcoming_leader_round_pairs true NUM_LEADERS_SELF_UPCOMING;
  mret (filter (λ p, p.1 = nodeid env) pairs).*2.

(** [Itertools::unique]: the first occurrence of each element, in order. *)
Fixpoint unique (seen : list PT) (l : list PT) : list PT :=
  match l with
  | [] => []
  | x :: l => if decide (x ∈ seen) then unique seen l else x :: unique (x :: seen) l
  end.

Definition iter_future_other_leaders : act (list PT) :=
  pairs ← compute_upcoming_leader_round_pairs false NUM_LEADERS_FORWARD_TXS;
  mret (unique [] (filter (λ x, x ≠ nodeid env) pairs.*1)).

End env.

(** ** Events *)

Inductive ConsensusEvent :=
| EvTimeoutExpiry (round : Round)
| EvProposal (author : PT) (p : ProposalMessage)
| EvVote (author : PT) (v : VoteMessage)
| EvTimeout (author : PT) (t : Timeout)
| EvRoundRecovery (author : PT) (r : RoundRecoveryMessage)
| EvNoEndorsement (author : PT) (n : NoEndorsementMessage)
| EvAdvanceRound (author : PT) (a : AdvanceRoundMessage)
| EvBlockSync (range : BlockRange) (blocks : list ConsensusFullBlock)
| EvVoteTimer (round : Round).

Definition handle_event (env : ConsensusEnv) (ev : ConsensusEvent) : act () :=
  match ev with
  | EvTimeoutExpiry round => handle_timeout_expiry env round
  | EvProposal author p => handle_proposal_message env author p
  | EvVote author v => handle_vote_message env author v
  | EvTimeout author t => handle_timeout_message env author t
  | EvRoundRecovery author r => handle_round_recovery_message env author r
  | EvNoEndorsement author n => handle_no_endorsement_message env author n
  | EvAdvanceRound author a => handle_advance_round_message env author a
  | EvBlockSync range blocks => handle_block_sync env range blocks
  | EvVoteTimer round => handle_vote_timer env round
  end.

(** A run of the state machine: the commands of each event, in order. *)
Fixpoint run_events (evs : list (ConsensusEnv * ConsensusEvent)) : act () :=
  match evs with
  | [] => mret ()
  | (env, ev) :: evs => handle_event env ev ≫= λ _, run_events evs
  end.

End consensus_state.
