(* ===== verification/ConsensusExample.v ===== *)
(** * A concrete node

    Four validators, the pass-through block policy and the mock validator; node 3
    receives the proposals of three rounds, its vote timer and a timeout.  The
    run is the concrete input of the theorems about the state machine. *)
From S2P Require Import Prelude Types ValidatorSet EpochManager LeaderElection.
From S2P Require Import SignatureCollection Certificates Messages CertificateCache Signing.
From S2P Require Import MessageValidation Safety VoteState NoEndorsementState.
From S2P Require Import TimeoutAggregation Pacemaker Tree BlockTree BlockTreeSearch.
From S2P Require Import ChainConfig Timestamp ConsensusState.

#[local] Existing Instance NopProtocol.
#[local] Existing Instance NopCodec.
#[local] Existing Instance list_HashIter.
#[local] Existing Instance example_message_codec.

Definition node_policy : BlockPolicy := PassthruBlockPolicy () MockChainConfig.
#[local] Existing Instance node_policy.

Definition node_validator : BlockValidator := MockValidator () MockChainConfig.
#[local] Existing Instance node_validator.

Definition node_chain_config : ChainConfig CCT := MockChainConfig_ChainConfig.
#[local] Existing Instance node_chain_config.

Definition node_election : LeaderElection PT := SimpleRoundRobin.
#[local] Existing Instance node_election.

Definition node_config : ConsensusConfig := {|
  cfg_execution_delay := 3; cfg_delta := 1000;
  chain_config := (MockChainConfig_DEFAULT : CCT);
  live_to_statesync_threshold := 100; statesync_to_live_threshold := 50;
  start_execution_threshold := 50; timestamp_latency_estimate_ns := 1;
|}.

Definition node_env (now : N) : ConsensusEnv := {|
  val_epoch_map := {| validator_map := {[1%N := (four_validators, example_vote_keys 0%N)]} |};
  client_version := 1; block_validator := (() : BVT);
  block_timestamp :=
    {| local_time_ns := now; max_delta_ns := 100; latency_estimate_ns := 1 |};
  beneficiary := 0; nodeid := (3%N : PT); config := node_config;
  keypair := (3%N : KP); cert_keypair := (3%N : CKP);
|}.

Definition node_epochs : EpochManager :=
  {| epoch_length := 100; epoch_start_delay := 10; epoch_starts := {[1%N := 0%N]} |}.

Definition node_qc (id : BlockId) (round : Round) : QuorumCertificate :=
  {| qc_info := {| v_id := id; v_round := round; v_epoch := 1 |};
     qc_signatures := ({| sigs := [] |} : SCT) |}.

(** The block of a round; the leader of round [r] is validator [r mod 4 + 1]. *)
Definition node_leader (round : Round) : PT := (round `mod` 4 + 1)%N : N.

Definition node_header (round : Round) (parent : BlockId) (parent_round : Round) :
    ConsensusBlockHeader :=
  {| block_round := round; hdr_epoch := 1; hdr_qc := node_qc parent parent_round;
     hdr_author := node_leader round; hdr_seq_num := round; hdr_timestamp_ns := round * 10;
     hdr_round_signature := (nop_sign example_hash RoundSignatureDomain [round] 1%N : CST);
     delayed_execution_results := []; execution_inputs := () : ProposedHeader;
     block_body_id := example_hash [9%N]; base_fee := 100; base_fee_trend := 0;
     base_fee_moment := 0 |}.

Definition node_proposal (h : ConsensusBlockHeader) : ProposalMessage :=
  {| proposal_round := block_round h; proposal_epoch := 1;
     pm_tip := {| tip_header := h;
                  tip_signature := (nop_sign example_hash TipDomain [] 1%N : ST);
                  fresh_certificate := None |};
     block_body := (9%N : Body); last_round_tc := None |}.

Definition block1 : ConsensusBlockHeader := node_header 1 GENESIS_BLOCK_ID 0.
Definition block2 : ConsensusBlockHeader := node_header 2 (get_id block1) 1.
Definition block3 : ConsensusBlockHeader := node_header 3 (get_id block2) 2.

Definition node_start : run ConsensusStateWrapper :=
  c ← ConsensusState_new node_epochs node_config example_root (RcQc (node_qc GENESIS_BLOCK_ID 0));
  Ret {| consensus := c; epoch_manager := node_epochs; block_policy := (() : BPT);
         state_read := (() : ESRT) |}.

Definition propose_event (h : ConsensusBlockHeader) : ConsensusEnv * ConsensusEvent :=
  (node_env (block_round h * 10), EvProposal (node_leader (block_round h)) (node_proposal h)).

Definition node_events : list (ConsensusEnv * ConsensusEvent) :=
  [propose_event block1; propose_event block2; (node_env 21, EvVoteTimer 2);
   propose_event block3; (node_env 35, EvTimeoutExpiry 3); (node_env 36, EvVoteTimer 3)].

Definition node_run : run (() * list ConsensusCommand * ConsensusStateWrapper) :=
  w ← node_start; run_events node_events w.

Lemma node_run_steps : ∃ w cmds w',
  node_start = Ret w ∧ run_events node_events w = Ret ((), cmds, w') ∧
  node_run = Ret ((), cmds, w').
Proof.
  destruct (is_ret_true node_run) as [[[[] cmds] w'] Hrun]; [vm_compute; reflexivity|].
  assert (Hr := Hrun). unfold node_run in Hr. apply run_bind_Ret in Hr as (w & Hw & Hr).
  exists w, cmds, w'. split_and!; [exact Hw|exact Hr|exact Hrun].
Qed.
