(* ===== verification/ConsensusLogic.v ===== *)
(** * Reasoning about the handlers of the state machine

    A weakest precondition for the handler monad of [ConsensusState] (partial
    correctness: a run that panics satisfies it), with the commands emitted so
    far as part of the assertion, and the invariance predicate [keeps] derived
    from it.  [keeps_auto] walks through a handler; what is left are the steps
    that touch the part of the state an invariant talks about. *)
From S2P Require Import Prelude Types ValidatorSet EpochManager LeaderElection.
From S2P Require Import SignatureCollection Certificates Messages CertificateCache Signing.
From S2P Require Import MessageValidation Safety VoteState NoEndorsementState.
From S2P Require Import TimeoutAggregation Pacemaker Tree BlockTree BlockTreeSearch.
From S2P Require Import ChainConfig Timestamp ConsensusState.

Section logic.
Context `{HM : MessageCodec} `{!HashIter, !Duplicates PT, !U256Ops, !LeaderElection PT}.
Context `{HB : !BlockPolicy} `{HV : !BlockValidator} `{HCC : !ChainConfig CCT}.

Implicit Types (w : ConsensusStateWrapper) (past cmds : list ConsensusCommand).

Definition wp {A} (m : act A) (Q : A → list ConsensusCommand → ConsensusStateWrapper → Prop)
    past w : Prop :=
  ∀ a cmds w', m w = Ret (a, cmds, w') → Q a (past ++ cmds) w'.

Lemma wp_mono {A} (m : act A) (Q Q' : A → list ConsensusCommand → ConsensusStateWrapper → Prop)
    past w :
  wp m Q past w → (∀ a past' w', Q a past' w' → Q' a past' w') → wp m Q' past w.
Proof. unfold wp. eauto. Qed.

Lemma wp_any {A} (m : act A) Q past w : (∀ a past' w', Q a past' w') → wp m Q past w.
Proof. intros HQ a cmds w' _. apply HQ. Qed.

Lemma wp_ret {A} (a : A) Q past w : Q a past w → wp (mret a) Q past w.
Proof. intros HQ ??? [= <- <- <-]. by rewrite app_nil_r. Qed.

Lemma wp_bind {A B} (m : act A) (f : A → act B) Q past w :
  wp m (λ a, wp (f a) Q) past w → wp (m ≫= f) Q past w.
Proof.
  intros Hm b cmds w'. unfold mbind, act_bind.
  destruct (m w) as [[[a c1] w1]|] eqn:E1; [|done].
  destruct (f a w1) as [[[b' c2] w2]|] eqn:E2; [|done]. intros [= <- <- <-].
  rewrite app_assoc. by eapply Hm.
Qed.

Lemma wp_gets {A} (f : ConsensusStateWrapper → A) Q past w : Q (f w) past w → wp (gets f) Q past w.
Proof. intros HQ ??? [= <- <- <-]. by rewrite app_nil_r. Qed.

Lemma wp_run_lift {A} (m : run A) Q past w :
  (∀ a, m = Ret a → Q a past w) → wp (run_lift m) Q past w.
Proof.
  intros HQ a cmds w'. unfold run_lift. rewrite run_bind_Ret. intros (a' & Hm & [= <- <- <-]).
  rewrite app_nil_r. by apply HQ.
Qed.

Lemma wp_emit new Q past w : Q () (past ++ new) w → wp (emit new) Q past w.
Proof. by intros HQ ??? [= <- <- <-]. Qed.

Definition with_consensus (f : ConsensusState → ConsensusState) w : ConsensusStateWrapper :=
  {| consensus := f (consensus w); epoch_manager := epoch_manager w;
     block_policy := block_policy w; state_read := state_read w |}.

Lemma wp_put_consensus f Q past w :
  Q () past (with_consensus f w) → wp (put_consensus f) Q past w.
Proof. intros HQ ??? [= <- <- <-]. by rewrite app_nil_r. Qed.

(** ** Invariance *)

Definition keeps (I : list ConsensusCommand → ConsensusStateWrapper → Prop) {A} (m : act A) : Prop :=
  ∀ past w, I past w → wp m (λ _, I) past w.

Lemma keeps_wp I {A} (m : act A) past w : I past w → keeps I m → wp m (λ _, I) past w.
Proof. intros HI Hm. by apply Hm. Qed.

Lemma wp_keeps I {A} (m : act A) Q past w :
  I past w → keeps I m → (∀ a past' w', I past' w' → Q a past' w') → wp m Q past w.
Proof. intros HI Hm HQ. eapply wp_mono; [by apply Hm|done]. Qed.

Lemma keeps_ret I {A} (a : A) : keeps I (mret a).
Proof. intros past w HI. by apply wp_ret. Qed.

Lemma keeps_bind I {A B} (m : act A) (f : A → act B) :
  keeps I m → (∀ a, keeps I (f a)) → keeps I (m ≫= f).
Proof.
  intros Hm Hf past w HI. apply wp_bind. eapply wp_mono; [by apply Hm|].
  intros a past' w' HI'. by apply Hf.
Qed.

Lemma keeps_gets I {A} (f : ConsensusStateWrapper → A) : keeps I (gets f).
Proof. intros past w HI. by apply wp_gets. Qed.

Lemma keeps_run_lift I {A} (m : run A) : keeps I (run_lift m).
Proof. intros past w HI. by apply wp_run_lift. Qed.

Lemma keeps_emit I new : (∀ past w, I past w → I (past ++ new) w) → keeps I (emit new).
Proof. intros Hnew past w HI. apply wp_emit. by apply Hnew. Qed.

Lemma keeps_put_consensus I f :
  (∀ past w, I past w → I past (with_consensus f w)) → keeps I (put_consensus f).
Proof. intros Hf past w HI. apply wp_put_consensus. by apply Hf. Qed.

Lemma keeps_for_each I {A} (l : list A) (f : A → act ()) :
  (∀ a, keeps I (f a)) → keeps I (for_each l f).
Proof.
  intros Hf. induction l as [|a l IH]; cbn [for_each]; [apply keeps_ret|].
  apply keeps_bind; [apply Hf|by intros _].
Qed.

Lemma keeps_current_round I : keeps I current_round.
Proof. apply keeps_bind; [apply keeps_gets|intros; apply keeps_run_lift]. Qed.

Lemma keeps_validators_at I env r : keeps I (validators_at env r).
Proof.
  unfold validators_at. apply keeps_bind; [apply keeps_gets|intros em].
  apply keeps_bind; [apply keeps_run_lift|intros e].
  apply keeps_bind; [apply keeps_run_lift|intros vs]. apply keeps_ret.
Qed.

Lemma keeps_leader_at I env r : keeps I (leader_at env r).
Proof.
  unfold leader_at. apply keeps_bind; [apply keeps_validators_at|intros [e vs]]. apply keeps_run_lift.
Qed.

(** The current round as the handlers read it. *)
Lemma wp_current_round Q past w :
  (∀ r, r = current_round_of (cs_pacemaker (consensus w)) → Q r past w) → wp current_round Q past w.
Proof.
  intros HQ. apply wp_bind, wp_gets, wp_run_lift. intros r Hr.
  apply HQ. unfold get_current_round in Hr. by apply Round_add_Ret in Hr as [-> _].
Qed.
End logic.

Ltac wp_step :=
  match goal with
  | |- wp (mbind _ _) _ _ _ => apply wp_bind
  | |- wp (mret _) _ _ _ => apply wp_ret
  | |- wp current_round _ _ _ => apply wp_current_round; intros ? ->
  | |- wp (gets _) _ _ _ => apply wp_gets
  | |- wp (run_lift _) _ _ _ => apply wp_run_lift; let Hcall := fresh "Hcall" in intros ? Hcall
  | |- wp (emit _) _ _ _ => apply wp_emit
  | |- wp (put_consensus _) _ _ _ => apply wp_put_consensus
  | |- wp tree_of _ _ _ => apply wp_gets
  | |- wp pacemaker_of _ _ _ => apply wp_gets
  | |- wp safety_of _ _ _ => apply wp_gets
  end; cbn beta iota.

(** Stops at calls of the safety rules, which need their result. *)
Ltac keeps_step :=
  match goal with
  | |- keeps _ (mbind _ safety_of) => fail 1
  | |- keeps _ (mbind _ _) => apply keeps_bind; [|intro]
  | |- keeps _ (mret _) => apply keeps_ret
  | |- keeps _ current_round => apply keeps_current_round
  | |- keeps _ (validators_at _ _) => apply keeps_validators_at
  | |- keeps _ (leader_at _ _) => apply keeps_leader_at
  | |- keeps _ (gets _) => apply keeps_gets
  | |- keeps _ (run_lift _) => apply keeps_run_lift
  | |- keeps _ tree_of => apply keeps_gets
  | |- keeps _ pacemaker_of => apply keeps_gets
  | |- keeps _ (for_each _ _) => apply keeps_for_each; intro
  | |- keeps _ (if ?b then _ else _) => destruct b
  | |- keeps _ (match ?x with _ => _ end) => destruct x
  | |- keeps _ (let '_ := ?x in _) => destruct x
  end; cbn beta iota.

Create HintDb keeps.

Ltac keeps_auto := repeat (first [ solve [eauto with keeps nocore] | keeps_step ]).

(** For invariants that do not mention the safety state. *)
Ltac keeps_all :=
  repeat (first [ solve [eauto with keeps nocore] | keeps_step
                | apply keeps_gets | apply keeps_bind; [|intro]; cbn beta iota ]).
