(* ===== verification/ConsensusSafety.v ===== *)
(** * Safety of the whole node

    Whatever messages a node receives, in whatever order, with whatever clock,
    validator sets and execution results: what it signs never conflicts.  The
    invariant relates the commands emitted so far to the events the safety rules
    have let through ([votes_recorded] of [Safety]). *)
From S2P Require Import Prelude Types ValidatorSet EpochManager LeaderElection.
From S2P Require Import SignatureCollection Certificates Messages CertificateCache Signing.
From S2P Require Import MessageValidation Safety VoteState NoEndorsementState.
From S2P Require Import TimeoutAggregation Pacemaker Tree BlockTree BlockTreeSearch.
From S2P Require Import ChainConfig Timestamp ConsensusState ConsensusLogic ConsensusExample.

Section safety.
Context `{HM : MessageCodec} `{!HashIter, !Duplicates PT, !U256Ops, !LeaderElection PT}.
Context `{HB : !BlockPolicy} `{HV : !BlockValidator} `{HCC : !ChainConfig CCT}.

Implicit Types (w : ConsensusStateWrapper) (past : list ConsensusCommand).

(** ** What the commands sign *)

(** The votes a message carries: a vote message, or a timeout with a vote. *)
Definition message_votes (m : ProtocolMessage) : list (Round * BlockId) :=
  match m with
  | PmVote v => [(v_round (vm_vote v), v_id (vm_vote v))]
  | PmTimeout t =>
      match tm_high_extend t with
      | HvTip tip (Some _) => [(ti_round (tm_info t), get_id (tip_header tip))]
      | _ => []
      end
  | _ => []
  end.

Definition message_of (m : Verified) : ProtocolMessage := message (unv_obj (ver_message m)).

Definition cmd_votes (c : ConsensusCommand) : list (Round * BlockId) :=
  match c with
  | CmdPublish _ m | CmdPublishToFullNodes _ _ _ m => message_votes (message_of m)
  | _ => []
  end.

(** Proposals: a tip proposed again, or a fresh proposal requested. *)
Definition cmd_proposals (c : ConsensusCommand) : list Round :=
  match c with
  | CmdPublish _ m | CmdPublishToFullNodes _ _ _ m =>
      match message_of m with PmProposal p => [proposal_round p] | _ => [] end
  | CmdCreateProposal p => [cp_round p]
  | _ => []
  end.

Definition sent_votes (cmds : list ConsensusCommand) : list (Round * BlockId) := cmds ≫= cmd_votes.
Definition sent_proposals (cmds : list ConsensusCommand) : list Round := cmds ≫= cmd_proposals.

Lemma sent_votes_app c1 c2 : sent_votes (c1 ++ c2) = sent_votes c1 ++ sent_votes c2.
Proof. apply bind_app. Qed.

Lemma sent_proposals_app c1 c2 : sent_proposals (c1 ++ c2) = sent_proposals c1 ++ sent_proposals c2.
Proof. apply bind_app. Qed.

(** ** Steps of the safety rules *)

Definition has_voted (evs : list safety_event) (r : Round) (i : BlockId) : Prop :=
  ∃ src, Voted r i src ∈ evs.

(** [s] may become [s'] while the votes [vs] are cast. *)
Definition safety_lets (s : Safety) (vs : list (Round * BlockId)) (s' : Safety) : Prop :=
  highest_propose s' = highest_propose s ∧
  ∀ evs, votes_recorded evs s → ∃ new, votes_recorded (new ++ evs) s' ∧
    ∀ r i, (r, i) ∈ vs → has_voted (new ++ evs) r i.

Lemma has_voted_app new evs r i : has_voted evs r i → has_voted (new ++ evs) r i.
Proof. intros [src Hin]. exists src. apply elem_of_app. by right. Qed.

Lemma safety_lets_refl s : safety_lets s [] s.
Proof. split; [done|]. intros evs Hevs. exists []. split; [done|]. by intros ?? ?%elem_of_nil. Qed.

Lemma safety_lets_trans s1 vs1 s2 vs2 s3 :
  safety_lets s1 vs1 s2 → safety_lets s2 vs2 s3 → safety_lets s1 (vs1 ++ vs2) s3.
Proof.
  intros [Hp1 H1'] [Hp2 H2']. split; [congruence|]. intros evs Hevs.
  destruct (H1' evs Hevs) as (n1 & Hr1 & Hv1). destruct (H2' _ Hr1) as (n2 & Hr2 & Hv2).
  exists (n2 ++ n1). rewrite <- app_assoc. split; [done|].
  intros r i [Hin|Hin]%elem_of_app; [by apply has_voted_app, Hv1|by apply Hv2].
Qed.

(** The votes of one call of the safety rules. *)
Definition event_votes (evs : list safety_event) : list (Round * BlockId) :=
  omap (λ e, match e with Voted r i _ => Some (r, i) | _ => None end) evs.

Lemma safety_step_lets s op new s' :
  safety_step s op = Ret (new, s') → (∀ r, op ≠ OpPropose r) → safety_lets s (event_votes new) s'.
Proof.
  intros Hs Hop. split.
  - destruct op; cbn [safety_step] in Hs; try (by destruct (Hop round));
      unfold vote, no_endorse, timeout, recovery_request, handle_proposal in Hs;
      rewrite ?run_bind_Ret in Hs; [..|by injection Hs as _ <-];
      destruct Hs as (x & Hx & Hs); run_inv; done.
  - intros evs Hevs. exists (reverse new). split; [by eapply votes_recorded_step|].
    intros r i (e & Hin & He)%list_elem_of_omap. destruct e; simplify_eq.
    eexists. apply elem_of_app. left. by apply elem_of_reverse.
Qed.

(** ** The pacemaker's calls *)

Definition pm_votes (cmds : list PacemakerCommand) : list (Round * BlockId) :=
  cmds ≫= λ c,
    match c with
    | PrepareTimeout ti (HeTip tip) true _ => [(ti_round ti, get_id (tip_header tip))]
    | _ => []
    end.

Lemma process_certificate_lets self em safety rc cmds self' safety' :
  process_certificate self em safety rc = Ret (cmds, self', safety') →
  safety_lets safety (pm_votes cmds) safety'.
Proof.
  unfold process_certificate. case_decide; [intros [= <- <- <-]; apply safety_lets_refl|].
  rewrite run_bind_Ret. intros (r & _ & Hrun). apply run_bind_Ret in Hrun as (e & _ & Hrun).
  apply run_bind_Ret in Hrun as (d & _ & [= <- <- <-]).
  by apply (safety_step_lets safety (OpCertificate rc) []).
Qed.

Lemma local_timeout_lets self safety cmds safety' :
  local_timeout_round self safety = Ret (cmds, safety') → safety_lets safety (pm_votes cmds) safety'.
Proof.
  unfold local_timeout_round, get_current_round. rewrite run_bind_Ret. intros (r & Hr & Hrun).
  apply run_bind_Ret in Hrun as ([safe s1] & Ht & Hrun).
  assert (Hstep := safety_step_lets safety (OpTimeout r)). cbn [safety_step] in Hstep.
  rewrite Ht in Hstep. cbn [mbind run_bind] in Hstep.
  specialize (Hstep _ _ eq_refl ltac:(done)).
  unfold high_extend_of in Hrun.
  destruct (maybe_high_tip s1) as [tip|];
    apply run_bind_Ret in Hrun as (rq & _ & Hrun);
    apply run_bind_Ret in Hrun as (d & _ & [= <- <-]).
  - cbn. by destruct safe.
  - cbn. done.
Qed.

Lemma process_local_timeout_lets self safety cmds self' safety' :
  process_local_timeout self safety = Ret (cmds, self', safety') →
  safety_lets safety (pm_votes cmds) safety'.
Proof.
  unfold process_local_timeout. rewrite run_bind_Ret.
  intros ([c s] & Hl & [= <- <- <-]). by eapply local_timeout_lets.
Qed.

Lemma pm_votes_app c1 c2 : pm_votes (c1 ++ c2) = pm_votes c1 ++ pm_votes c2.
Proof. apply bind_app. Qed.

Lemma build_tc_loop_lets em validators vm ti fuel self safety timeouts cmds cmds' self' safety' :
  build_tc_loop fuel em validators vm ti self safety timeouts cmds = Ret (cmds', self', safety') →
  ∃ new, cmds' = cmds ++ new ∧ safety_lets safety (pm_votes new) safety'.
Proof.
  revert self safety timeouts cmds. induction fuel as [|fuel IH]; intros self safety timeouts cmds;
    cbn [build_tc_loop]; [done|].
  assert (Hsame : Ret (cmds, self, safety) = Ret (cmds', self', safety') →
    ∃ new, cmds' = cmds ++ new ∧ safety_lets safety (pm_votes new) safety').
  { intros [= <- <- <-]. exists []. rewrite app_nil_r. split; [done|]. apply safety_lets_refl. }
  destruct (decide (phase self = One)); [|done].
  destruct (has_super_majority_votes validators timeouts) as [[[]|]|]; try done.
  rewrite run_bind_Ret. intros ([tc|err] & _ & Hrun).
  - apply run_bind_Ret in Hrun as ([[c1 s1] sf1] & Hpc & Hrun).
    apply run_bind_Ret in Hrun as (_ & _ & Hrun).
    apply IH in Hrun as (new & -> & Hnew). exists (c1 ++ new). rewrite app_assoc. split; [done|].
    rewrite pm_votes_app. eapply safety_lets_trans; [|done]. by eapply process_certificate_lets.
  - destruct err; try done. by apply IH in Hrun.
Qed.

Lemma process_remote_timeout_lets self em validators vm safety author m cmds self' safety' :
  process_remote_timeout self em validators vm safety author m = Ret (cmds, self', safety') →
  safety_lets safety (pm_votes cmds) safety'.
Proof.
  unfold process_remote_timeout. rewrite run_bind_Ret. intros (r & _ & Hrun).
  case_decide; [injection Hrun as <- <- <-; apply safety_lets_refl|].
  apply run_bind_Ret in Hrun as (_ & _ & Hrun).
  case_decide; [injection Hrun as <- <- <-; apply safety_lets_refl|].
  apply run_bind_Ret in Hrun as ([[c2 s2] sf2] & Ht & Hrun).
  apply build_tc_loop_lets in Hrun as (new & -> & Hnew). rewrite pm_votes_app.
  eapply safety_lets_trans; [|done].
  apply try_honest_timeout_Ret in Ht as [(-> & _ & -> & _)|(_ & _ & Hl & _)].
  - apply safety_lets_refl.
  - by eapply local_timeout_lets.
Qed.

Lemma sent_votes_pacemaker kp ckp ver (cmds : list PacemakerCommand) :
  sent_votes (cmds ≫= from_pacemaker_command kp ckp ver) = pm_votes cmds ∧
  sent_proposals (cmds ≫= from_pacemaker_command kp ckp ver) = [].
Proof.
  induction cmds as [|c cmds [IH1 IH2]]; [done|].
  rewrite !bind_cons, sent_votes_app, sent_proposals_app, IH1, IH2.
  by destruct c as [| ? [] [] ?| |].
Qed.

(** ** The invariant of the node *)

Definition node_ok_at (evs : list safety_event) past w : Prop :=
  votes_recorded evs (cs_safety (consensus w)) ∧
  (∀ r i, (r, i) ∈ sent_votes past → has_voted evs r i) ∧
  (∀ v, scheduled_vote (consensus w) = Some (VoteReady v) → has_voted evs (v_round v) (v_id v)) ∧
  StronglySorted N.lt (sent_proposals past) ∧
  Forall (λ r, r ≤ highest_propose (cs_safety (consensus w)))%N (sent_proposals past).

Definition node_ok past w : Prop := ∃ evs, node_ok_at evs past w.

(** Everything but the safety state and the scheduled vote may change. *)
Definition same_safety (f : ConsensusState → ConsensusState) : Prop :=
  ∀ c, cs_safety (f c) = cs_safety c ∧ scheduled_vote (f c) = scheduled_vote c.

Lemma node_ok_at_same evs past w f :
  same_safety f → node_ok_at evs past w → node_ok_at evs past (with_consensus f w).
Proof. intros Hf. unfold node_ok_at. cbn. destruct (Hf (consensus w)) as [-> ->]. done. Qed.

Lemma node_ok_at_emit evs past w new :
  (∀ r i, (r, i) ∈ sent_votes new → has_voted evs r i) → sent_proposals new = [] →
  node_ok_at evs past w → node_ok_at evs (past ++ new) w.
Proof.
  intros Hnew Hp (Hr & Hs & Hsch & Hps & Hpb).
  unfold node_ok_at. rewrite sent_votes_app, sent_proposals_app, Hp, app_nil_r.
  split_and!; try done. intros r i [?|?]%elem_of_app; eauto.
Qed.

Lemma node_ok_at_rounds evs past w p s vs :
  node_ok_at evs past w → safety_lets (cs_safety (consensus w)) vs s →
  ∃ new, node_ok_at (new ++ evs) past (with_consensus (set_rounds p s) w) ∧
    ∀ r i, (r, i) ∈ vs → has_voted (new ++ evs) r i.
Proof.
  intros (Hr & Hs & Hsch & Hps & Hpb) [Hhp Hl]. destruct (Hl _ Hr) as (new & Hr' & Hv).
  exists new. split; [|done]. unfold node_ok_at. cbn. rewrite Hhp.
  split_and!; eauto using has_voted_app.
Qed.

Lemma safety_lets_step s op new s' :
  safety_step s op = Ret (new, s') → (∀ r, op ≠ OpPropose r) → event_votes new = [] →
  safety_lets s [] s'.
Proof. intros Hs Hop <-. by eapply safety_step_lets. Qed.

(** Together with an unchanged pacemaker. *)
Definition node_ok_in (p : Pacemaker) past w : Prop :=
  node_ok past w ∧ cs_pacemaker (consensus w) = p.

Lemma keeps_node_ok_in {A} (m : act A) : (∀ p, keeps (node_ok_in p) m) → keeps node_ok m.
Proof.
  intros Hm past w Hw. eapply wp_mono; [by apply (Hm (cs_pacemaker (consensus w)))|].
  by intros _ past' w' [? _].
Qed.

Lemma keeps_in_emit p new :
  sent_votes new = [] → sent_proposals new = [] → keeps (node_ok_in p) (emit new).
Proof.
  intros Hv Hp. apply keeps_emit. intros past w [[evs Hw] ?]. split; [|done]. exists evs.
  apply node_ok_at_emit; [|done..]. rewrite Hv. by intros ?? ?%elem_of_nil.
Qed.

Lemma keeps_in_consensus p f :
  same_safety f → (∀ c, cs_pacemaker (f c) = cs_pacemaker c) →
  keeps (node_ok_in p) (put_consensus f).
Proof.
  intros Hf Hp. apply keeps_put_consensus. intros past w [[evs Hw] Hpm]. split.
  - exists evs. by apply node_ok_at_same.
  - cbn. by rewrite Hp.
Qed.

Lemma keeps_in_tree p t : keeps (node_ok_in p) (put_consensus (set_tree t)).
Proof. by apply keeps_in_consensus. Qed.

Lemma keeps_in_votes p v n : keeps (node_ok_in p) (put_consensus (set_votes v n)).
Proof. by apply keeps_in_consensus. Qed.

Lemma keeps_in_requests p r : keeps (node_ok_in p) (put_consensus (set_requests r)).
Proof. by apply keeps_in_consensus. Qed.

Lemma keeps_in_proposed_tip p i : keeps (node_ok_in p) (put_consensus (set_proposed_tip i)).
Proof. by apply keeps_in_consensus. Qed.

Lemma keeps_in_vote_delay p t m : keeps (node_ok_in p) (put_consensus (set_vote_delay t m)).
Proof. by apply keeps_in_consensus. Qed.

Lemma keeps_in_policy p b : keeps (node_ok_in p) (put_block_policy b).
Proof. intros past w Hw ??? [= <- <- <-]. by rewrite app_nil_r. Qed.

Lemma keeps_in_epochs p em : keeps (node_ok_in p) (put_epoch_manager em).
Proof. intros past w Hw ??? [= <- <- <-]. by rewrite app_nil_r. Qed.

Lemma keeps_in_state_read p s : keeps (node_ok_in p) (put_state_read s).
Proof. intros past w Hw ??? [= <- <- <-]. by rewrite app_nil_r. Qed.

Lemma keeps_in_commit p c : keeps (node_ok_in p) (emit [CmdCommitBlocks c]).
Proof. by apply keeps_in_emit. Qed.

Lemma keeps_in_request_sync p r : keeps (node_ok_in p) (emit [CmdRequestSync r]).
Proof. by apply keeps_in_emit. Qed.

Lemma keeps_in_cancel_sync p r : keeps (node_ok_in p) (emit [CmdCancelSync r]).
Proof. by apply keeps_in_emit. Qed.

Lemma keeps_in_schedule_vote p d r : keeps (node_ok_in p) (emit [CmdScheduleVote d r]).
Proof. by apply keeps_in_emit. Qed.

Lemma keeps_in_newly_coherent p (l : list ValidatedBlock) :
  keeps (node_ok_in p) (emit ((λ b, CmdCommitBlocks (CommitProposed b false)) <$> l)).
Proof. apply keeps_in_emit; by induction l. Qed.

#[local] Hint Resolve keeps_in_tree keeps_in_votes keeps_in_requests keeps_in_proposed_tip : keeps.
#[local] Hint Resolve keeps_in_vote_delay keeps_in_policy keeps_in_epochs keeps_in_state_read : keeps.
#[local] Hint Resolve keeps_in_commit keeps_in_request_sync keeps_in_cancel_sync : keeps.
#[local] Hint Resolve keeps_in_schedule_vote keeps_in_newly_coherent : keeps.

Lemma keeps_in_advance p env target rc :
  keeps (node_ok_in p) (publish env target (PmAdvanceRound {| ar_last_round_certificate := rc |})).
Proof. by apply keeps_in_emit. Qed.

Lemma keeps_in_update_proposed_head p : keeps (node_ok_in p) update_proposed_head.
Proof. unfold update_proposed_head. keeps_auto. Qed.

Lemma keeps_in_try_commit p qc : keeps (node_ok_in p) (try_commit qc).
Proof. unfold try_commit, commit_block. keeps_auto. Qed.

#[local] Hint Resolve keeps_in_advance keeps_in_update_proposed_head keeps_in_try_commit : keeps.

Lemma keeps_in_coherency p env b : keeps (node_ok_in p) (consensus_try_update_coherency env b).
Proof. unfold consensus_try_update_coherency. keeps_auto. Qed.

Lemma keeps_in_maybe_statesync p env : keeps (node_ok_in p) (maybe_statesync env).
Proof. unfold maybe_statesync. keeps_auto. Qed.

Lemma keeps_in_request_blocks p : keeps (node_ok_in p) request_blocks_if_missing_ancestor.
Proof. unfold request_blocks_if_missing_ancestor. keeps_auto. Qed.

Lemma keeps_in_request_tip p : keeps (node_ok_in p) request_tip_if_missing.
Proof. unfold request_tip_if_missing. keeps_auto. Qed.

Lemma keeps_in_cancel p : keeps (node_ok_in p) cancel_obsolete_requests.
Proof. unfold cancel_obsolete_requests. keeps_auto. Qed.

Lemma keeps_in_record p env r1 r2 : keeps (node_ok_in p) (maybe_record_vote_delay_metrics env r1 r2).
Proof. unfold maybe_record_vote_delay_metrics. keeps_auto. Qed.

Lemma keeps_in_lookup_leader p env r : keeps (node_ok_in p) (lookup_leader env r).
Proof. unfold lookup_leader. keeps_auto. Qed.

#[local] Hint Resolve keeps_in_coherency keeps_in_maybe_statesync keeps_in_request_blocks : keeps.
#[local] Hint Resolve keeps_in_request_tip keeps_in_cancel keeps_in_record keeps_in_lookup_leader : keeps.
#[local] Hint Resolve keeps_node_ok_in : keeps.

(** ** Calls that move the safety state *)

(** The shape of every call into the pacemaker. *)
Lemma wp_pacemaker env past w p s (cmds : list PacemakerCommand) :
  node_ok past w → safety_lets (cs_safety (consensus w)) (pm_votes cmds) s →
  wp (put_consensus (set_rounds p s) ≫= λ _, emit_pacemaker env cmds) (λ _, node_ok) past w.
Proof.
  intros [evs Hw] Hs. destruct (node_ok_at_rounds _ _ _ p _ _ Hw Hs) as (new & Hw' & Hv).
  unfold emit_pacemaker. repeat wp_step.
  destruct (sent_votes_pacemaker (keypair env) (cert_keypair env) (client_version env) cmds) as [Hvs Hps].
  exists (new ++ evs). apply node_ok_at_emit; [by rewrite Hvs|done|done].
Qed.

Lemma keeps_process_round_certificate env rc : keeps node_ok (process_round_certificate env rc).
Proof.
  intros past w Hw. unfold process_round_certificate. repeat wp_step. destruct a as [[cmds p] s].
  apply wp_pacemaker; [done|]. by eapply process_certificate_lets.
Qed.

Lemma keeps_handle_timeout_expiry env r : keeps node_ok (handle_timeout_expiry env r).
Proof.
  intros past w Hw. unfold handle_timeout_expiry. repeat wp_step.
  case_decide; repeat wp_step; [done|]. destruct a as [[cmds p] s].
  apply wp_pacemaker; [done|]. by eapply process_local_timeout_lets.
Qed.

Lemma keeps_collect_timeout env author m vs vm : keeps node_ok (collect_timeout env author m vs vm).
Proof.
  intros past w Hw. unfold collect_timeout. repeat wp_step. destruct a as [[cmds p] s].
  apply wp_pacemaker; [done|]. by eapply process_remote_timeout_lets.
Qed.

Lemma wp_put_safety past w s vs Q :
  node_ok past w → safety_lets (cs_safety (consensus w)) vs s →
  (∀ evs w', node_ok_at evs past w' → (∀ r i, (r, i) ∈ vs → has_voted evs r i) →
     cs_pacemaker (consensus w') = cs_pacemaker (consensus w) → Q () past w') →
  wp (put_safety s) Q past w.
Proof.
  intros [evs Hw] Hs HQ. unfold put_safety. repeat wp_step.
  destruct (node_ok_at_rounds _ _ _ (cs_pacemaker (consensus w)) _ _ Hw Hs) as (new & Hw' & Hv).
  by apply (HQ (new ++ evs)).
Qed.

Lemma wp_put_safety_quiet past w s Q :
  node_ok past w → safety_lets (cs_safety (consensus w)) [] s →
  (∀ w', node_ok past w' → Q () past w') → wp (put_safety s) Q past w.
Proof. intros Hw Hs HQ. eapply wp_put_safety; [done..|]. intros evs w' ? _ _. apply HQ. by exists evs. Qed.

Lemma recovery_request_lets s r s' : recovery_request s r = Ret s' → safety_lets s [] s'.
Proof. intros Hs. apply (safety_lets_step _ (OpRecoveryRequest r) []); cbn; [by rewrite Hs|done..]. Qed.

Lemma handle_proposal_lets s r s' : handle_proposal s r = Ret s' → safety_lets s [] s'.
Proof. intros Hs. apply (safety_lets_step _ (OpHandleProposal r) []); cbn; [by rewrite Hs|done..]. Qed.

Lemma no_endorse_lets s r t s' : no_endorse s r t = Ret s' → safety_lets s [] s'.
Proof. intros Hs. eapply (safety_lets_step _ (OpNoEndorse r t)); cbn; [by rewrite Hs|done..]. Qed.

Lemma vote_lets s r tt tip s' :
  vote s r tt tip = Ret s' → safety_lets s [(r, get_id (tip_header tip))] s'.
Proof.
  intros Hs. apply (safety_step_lets _ (OpVote r tt tip) [Voted r (get_id (tip_header tip)) (ByProposal tt)]);
    cbn; [by rewrite Hs|done].
Qed.

Lemma keeps_publish_recovery env r tc : keeps node_ok (publish_recovery env r tc).
Proof.
  intros past w Hw. unfold publish_recovery. repeat wp_step.
  case_match; repeat wp_step; [done|].
  eapply wp_put_safety_quiet; [done|by eapply recovery_request_lets|]. intros w' Hw'.
  apply keeps_wp; [done|]. keeps_auto. apply keeps_node_ok_in. intros p. by apply keeps_in_emit.
Qed.

(** ** Votes *)

(** A vote that the safety rules have let through may be sent or kept. *)
Definition voted_ok (v : Vote) past w : Prop :=
  ∃ evs, node_ok_at evs past w ∧ has_voted evs (v_round v) (v_id v).

Lemma voted_ok_node_ok v past w : voted_ok v past w → node_ok past w.
Proof. intros (evs & Hw & _). by exists evs. Qed.

Lemma keeps_voted_publish v env target :
  keeps (voted_ok v) (publish env target (PmVote (VoteMessage_new v (cert_keypair env)))).
Proof.
  apply keeps_emit. intros past w (evs & Hw & Hv). exists evs. split; [|done].
  apply node_ok_at_emit; [|done|done]. cbn.
  intros r i [[= -> ->]|[]%elem_of_nil]%elem_of_cons. done.
Qed.

Lemma keeps_voted_emit v d r : keeps (voted_ok v) (emit [CmdScheduleVote d r]).
Proof.
  apply keeps_emit. intros past w (evs & Hw & Hv). exists evs. split; [|done].
  apply node_ok_at_emit; [|done|done]. by intros ?? ?%elem_of_nil.
Qed.

Lemma keeps_voted_delay v t m : keeps (voted_ok v) (put_consensus (set_vote_delay t m)).
Proof.
  apply keeps_put_consensus. intros past w (evs & Hw & Hv). exists evs. split; [|done].
  by apply node_ok_at_same.
Qed.

Lemma keeps_voted_scheduled v o :
  (∀ u, o = Some (VoteReady u) → u = v) → keeps (voted_ok v) (put_consensus (set_scheduled o)).
Proof.
  intros Ho. apply keeps_put_consensus. intros past w (evs & (Hr & Hs & _ & Hp) & Hv).
  exists evs. split; [|done]. split_and!; try done; try apply Hp. cbn. by intros u ->%Ho.
Qed.

#[local] Hint Resolve keeps_voted_publish keeps_voted_emit keeps_voted_delay : keeps.

Lemma keeps_voted_send v env : keeps (voted_ok v) (send_vote_and_reset_timer env v).
Proof. unfold send_vote_and_reset_timer. keeps_auto. by apply keeps_voted_scheduled. Qed.

Lemma keeps_voted_record v env r1 r2 : keeps (voted_ok v) (maybe_record_vote_delay_metrics env r1 r2).
Proof. unfold maybe_record_vote_delay_metrics. keeps_auto. Qed.

#[local] Hint Resolve keeps_voted_send keeps_voted_record : keeps.

Lemma keeps_voted_schedule v env r1 r2 : keeps (voted_ok v) (schedule_vote env v r1 r2).
Proof.
  unfold schedule_vote. keeps_auto; apply keeps_voted_scheduled; by intros ? [= ->].
Qed.

Lemma keeps_handle_vote_timer env r : keeps node_ok (handle_vote_timer env r).
Proof.
  intros past w [evs Hw]. unfold handle_vote_timer. do 2 wp_step.
  assert (Hfired : wp (put_consensus (set_scheduled (Some TimerFired))) (λ _, node_ok) past w).
  { repeat wp_step. exists evs. destruct Hw as (Hr & Hs & _ & Hp).
    split_and!; try done; apply Hp. }
  destruct (scheduled_vote (consensus w)) as [[|v]|] eqn:Hsch; try done.
  eapply wp_mono; [eapply (keeps_voted_send v)|intros ???; apply voted_ok_node_ok].
  exists evs. split; [done|]. by apply Hw.
Qed.

Lemma keeps_try_vote env tc tip : keeps node_ok (try_vote env tc tip).
Proof.
  intros past w Hw. unfold try_vote. repeat wp_step.
  repeat (case_match; repeat wp_step; try done).
  eapply wp_put_safety; [done|by eapply vote_lets|]. intros evs w' Hw' Hv Hp.
  repeat wp_step.
  set (v := {| v_id := _ |}).
  assert (Hvw : voted_ok v past w').
  { exists evs. split; [done|]. apply Hv. set_solver. }
  eapply wp_mono; [by apply (keeps_voted_record v)|]. intros ? past' w1 Hw1. cbn beta.
  eapply wp_mono; [by apply (keeps_voted_schedule v)|]. intros ???. apply voted_ok_node_ok.
Qed.

(** ** Proposals *)

(** Round [r] was just claimed for a proposal that is not out yet. *)
Definition proposing_ok (r : Round) past w : Prop :=
  node_ok past w ∧ highest_propose (cs_safety (consensus w)) = r ∧
  Forall (λ r', r' < r)%N (sent_proposals past).

Lemma proposing_ok_emit r past w new :
  proposing_ok r past w → sent_votes new = [] → sent_proposals new = [r] → node_ok (past ++ new) w.
Proof.
  intros ([evs (Hr & Hs & Hsch & Hps & Hpb)] & Hh & Hlt) Hv Hp. exists evs.
  unfold node_ok_at. rewrite sent_votes_app, sent_proposals_app, Hv, Hp, app_nil_r.
  split_and!; try done.
  - apply StronglySorted_app. split_and!; [|done|by repeat constructor].
    intros x y Hx ->%list_elem_of_singleton. rewrite Forall_forall in Hlt. by apply Hlt.
  - apply Forall_app. split; [done|]. rewrite Hh. by repeat constructor.
Qed.

Lemma wp_propose past w r s Q :
  node_ok past w → propose (cs_safety (consensus w)) r = Ret s →
  (∀ w', proposing_ok r past w' → cs_pacemaker (consensus w') = cs_pacemaker (consensus w) →
     Q () past w') →
  wp (put_safety s) Q past w.
Proof.
  intros [evs (Hr & Hs & Hsch & Hps & Hpb)] Hp HQ. unfold put_safety. repeat wp_step.
  assert (Hrec := votes_recorded_step evs _ (OpPropose r) [Proposed r] s Hr).
  cbn [safety_step] in Hrec. rewrite Hp in Hrec. specialize (Hrec eq_refl).
  unfold propose in Hp. apply run_bind_Ret in Hp as (_ & Hsafe%assert_Ret & [= <-]).
  apply HQ; [|done]. unfold is_safe_to_propose in Hsafe. apply bool_decide_eq_true in Hsafe.
  assert (Hlt : Forall (λ r', r' < r)%N (sent_proposals past)).
  { eapply Forall_impl; [done|]. cbn. intros; lia. }
  split_and!; [|done|done]. exists (reverse [Proposed r] ++ evs). split_and!; try done; cbn.
  - intros. by apply (has_voted_app [_]), Hs.
  - intros. by apply (has_voted_app [_]), Hsch.
  - eapply Forall_impl; [done|]. cbn. intros; lia.
Qed.

Lemma keeps_propose_tip p env r tip tc :
  r = current_round_of p → ∀ past w, node_ok_in p past w →
  wp (propose_tip env r tip tc) (λ _, node_ok) past w.
Proof.
  intros Hr past w Hw. unfold propose_tip. wp_step.
  eapply wp_mono; [by apply keeps_in_coherency|]. intros _ past1 w1 [Hw1 Hp1]. cbn beta.
  repeat wp_step. case_match; [by apply keeps_publish_recovery|]. repeat wp_step.
  eapply wp_propose; [done..|]. intros w2 Hw2 Hp2. repeat wp_step.
  unfold publish. repeat wp_step. eapply proposing_ok_emit; [done|done|].
  cbn. by rewrite Hp2, Hp1, <- Hr.
Qed.

Lemma keeps_propose_qc env e r qc fresh tc : keeps node_ok (propose_qc env e r qc fresh tc).
Proof.
  unfold propose_qc. apply keeps_bind; [keeps_auto|intros _].
  apply keeps_bind; [keeps_auto|intros t]. destruct (negb _); [keeps_auto|].
  do 2 (apply keeps_bind; [keeps_auto|intro]).
  apply keeps_bind; [keeps_auto|intros [n ts]].
  apply keeps_bind; [keeps_auto|intros w0].
  apply keeps_bind; [keeps_auto|intros [results state]].
  apply keeps_bind; [keeps_auto|intros _].
  destruct results as [results|]; [|keeps_auto].
  intros past w Hw. repeat wp_step. eapply wp_propose; [done..|]. intros w2 Hw2 Hp2. repeat wp_step.
  by eapply proposing_ok_emit.
Qed.

Lemma keeps_try_propose env : keeps node_ok (try_propose env).
Proof.
  intros past w Hw. unfold try_propose. do 2 wp_step. wp_step.
  assert (Hin : node_ok_in (cs_pacemaker (consensus w)) past w) by done.
  set (p := cs_pacemaker (consensus w)) in *. clearbody p.
  eapply wp_mono; [by apply (keeps_validators_at (node_ok_in p))|].
  intros [e vs] past1 w1 Hw1. cbn beta iota. repeat wp_step.
  case_decide; [wp_step; apply Hw1|]. repeat wp_step.
  eapply wp_mono; [by apply keeps_in_request_tip|]. intros ? past2 w2 Hw2. cbn beta. repeat wp_step.
  case_match; [wp_step; apply Hw2|]. repeat wp_step.
  destruct (proposal_basis _ _ _) as [[he fresh] tc]. destruct he as [tip|qc].
  - eapply (keeps_propose_tip p); [done|done].
  - apply keeps_propose_qc, Hw2.
Qed.

#[local] Hint Resolve keeps_process_round_certificate keeps_handle_timeout_expiry : keeps.
#[local] Hint Resolve keeps_collect_timeout keeps_handle_vote_timer keeps_try_vote : keeps.
#[local] Hint Resolve keeps_try_propose : keeps.

(** ** The handlers *)

Lemma keeps_try_add env b args : keeps node_ok (try_add_and_commit_blocktree env b args).
Proof. unfold try_add_and_commit_blocktree. keeps_auto. Qed.

Lemma keeps_process_qc env qc : keeps node_ok (process_qc env qc).
Proof. unfold process_qc. keeps_auto. Qed.

Lemma keeps_process_tc env tc : keeps node_ok (process_tc env tc).
Proof. unfold process_tc. keeps_auto. Qed.

#[local] Hint Resolve keeps_try_add keeps_process_qc keeps_process_tc : keeps.

Lemma keeps_validate_block I env h b : keeps I (validate_block env h b).
Proof. unfold validate_block. keeps_auto. Qed.

Lemma keeps_handle_vote env author m : keeps node_ok (handle_vote_message env author m).
Proof. unfold handle_vote_message. keeps_auto. Qed.

#[local] Hint Resolve keeps_validate_block keeps_handle_vote : keeps.

Lemma keeps_broadcast_advance env rc : keeps node_ok (broadcast_advance_round_message env rc).
Proof. unfold broadcast_advance_round_message. keeps_auto. Qed.

#[local] Hint Resolve keeps_broadcast_advance : keeps.

Lemma keeps_timeout_certificate env rc : keeps node_ok (handle_timeout_certificate env rc).
Proof. unfold handle_timeout_certificate. keeps_auto. Qed.

#[local] Hint Resolve keeps_timeout_certificate : keeps.

Lemma keeps_handle_timeout env author m : keeps node_ok (handle_timeout_message env author m).
Proof. unfold handle_timeout_message, absorb_timeout. keeps_auto. Qed.

Lemma keeps_handle_proposal env author m : keeps node_ok (handle_proposal_message env author m).
Proof.
  unfold handle_proposal_message. keeps_auto. intros past w Hw. repeat wp_step.
  case_match; repeat wp_step; [done|].
  eapply wp_put_safety_quiet; [done|by eapply handle_proposal_lets|]. intros w' Hw'.
  apply keeps_wp; [done|]. keeps_auto.
Qed.

Lemma keeps_round_recovery env author m : keeps node_ok (handle_round_recovery_message env author m).
Proof.
  unfold handle_round_recovery_message. keeps_auto. intros past w Hw. repeat wp_step.
  case_match; repeat wp_step; [|done].
  eapply wp_put_safety_quiet; [done|by eapply no_endorse_lets|]. intros w' Hw'.
  apply keeps_wp; [done|]. apply keeps_node_ok_in. intros p. by apply keeps_in_emit.
Qed.

Lemma keeps_no_endorsement env author m : keeps node_ok (handle_no_endorsement_message env author m).
Proof. unfold handle_no_endorsement_message. keeps_auto. Qed.

Lemma keeps_advance_round env author m : keeps node_ok (handle_advance_round_message env author m).
Proof. unfold handle_advance_round_message. keeps_auto. Qed.

Lemma keeps_sync_loop env l : keeps node_ok (sync_loop env l).
Proof. induction l as [|b l IH]; cbn [sync_loop]; keeps_auto. Qed.

#[local] Hint Resolve keeps_handle_proposal keeps_round_recovery keeps_no_endorsement : keeps.
#[local] Hint Resolve keeps_advance_round keeps_sync_loop keeps_handle_timeout : keeps.

Lemma keeps_block_sync env r l : keeps node_ok (handle_block_sync env r l).
Proof. unfold handle_block_sync. keeps_auto. Qed.

#[local] Hint Resolve keeps_block_sync : keeps.

Lemma keeps_handle_event env ev : keeps node_ok (handle_event env ev).
Proof. destruct ev; cbn [handle_event]; eauto with keeps nocore. Qed.

Lemma keeps_run_events evs : keeps node_ok (run_events evs).
Proof.
  induction evs as [|[env ev] evs IH]; cbn [run_events]; keeps_auto. apply keeps_handle_event.
Qed.

(** ** The theorem *)

(** C1: whatever messages, timers and blocks a node handles, in whatever order and
    with whatever clock, validators and execution results, all the votes it ever
    signs for one round, in vote messages and inside timeouts, are for the same
    block, and its proposals are for strictly increasing rounds, so at most one
    per round. *)
Theorem consensus_signs_consistently (evs : list (ConsensusEnv * ConsensusEvent))
    (w w' : ConsensusStateWrapper) (cmds : list ConsensusCommand) :
  (∀ v, scheduled_vote (consensus w) ≠ Some (VoteReady v)) →
  run_events evs w = Ret ((), cmds, w') →
  (∀ r i j, (r, i) ∈ sent_votes cmds → (r, j) ∈ sent_votes cmds → i = j) ∧
  StronglySorted N.lt (sent_proposals cmds).
Proof.
  intros Hsch Hrun. apply (keeps_run_events evs [] w) in Hrun.
  - destruct Hrun as [es ((_ & Huniq & _) & Hs & _ & Hp & _)]. split; [|exact Hp].
    intros r i j [s1 H1']%Hs [s2 H2']%Hs. by eapply Huniq.
  - exists []. unfold node_ok_at, votes_recorded.
    split_and!; cbn; try (by constructor); by intros; set_solver.
Qed.
End safety.

(** ** The concrete node *)

#[local] Existing Instance NopProtocol.
#[local] Existing Instance NopCodec.
#[local] Existing Instance list_HashIter.
#[local] Existing Instance example_message_codec.
#[local] Existing Instance node_policy.
#[local] Existing Instance node_validator.
#[local] Existing Instance node_chain_config.
#[local] Existing Instance node_election.

Lemma consensus_signs_consistently_witness : ∃ w cmds w',
  run_events node_events w = Ret ((), cmds, w') ∧ length (sent_votes cmds) = 5 ∧
  (∀ r i j, (r, i) ∈ sent_votes cmds → (r, j) ∈ sent_votes cmds → i = j) ∧
  sent_proposals cmds = [2%N].
Proof.
  destruct node_run_steps as (w & cmds & w' & Hw & Hrun & Hall). exists w, cmds, w'.
  assert (Hsch : match node_start with
                 | Ret w => match scheduled_vote (consensus w) with None => true | _ => false end
                 | Panic => false end = true) by (vm_compute; reflexivity).
  assert (Hlen : match node_run with
                 | Ret (_, cmds, _) => bool_decide (length (sent_votes cmds) = 5) &&
                                       bool_decide (sent_proposals cmds = [2%N])
                 | Panic => false end = true) by (vm_compute; reflexivity).
  rewrite Hw in Hsch. rewrite Hall in Hlen.
  apply andb_true_iff in Hlen as [Hlen%bool_decide_eq_true Hp%bool_decide_eq_true].
  split; [exact Hrun|]. split; [exact Hlen|]. split; [|exact Hp].
  refine (proj1 (consensus_signs_consistently node_events w w' cmds _ Hrun)).
  intros v Hv. rewrite Hv in Hsch. discriminate Hsch.
Defined.
