(* ===== verification/ConsensusChain.v ===== *)
(** * The committed chain and the rounds of a node

    Two more invariants of the state machine, over every run: the finalized
    blocks form one hash chain that ends at the root of the block tree, and the
    epoch manager and block policy are what that chain determines; the rounds
    the node enters increase, and the last one is the current round. *)
From S2P Require Import Prelude Types ValidatorSet EpochManager LeaderElection.
From S2P Require Import SignatureCollection Certificates Messages CertificateCache Signing.
From S2P Require Import MessageValidation Safety VoteState NoEndorsementState.
From S2P Require Import TimeoutAggregation Pacemaker Tree BlockTree BlockTreeSearch.
From S2P Require Import ChainConfig Timestamp ConsensusState ConsensusLogic ConsensusExample.

(** ** Chains of blocks *)

Section tree.
Context `{Codec, !BlockPolicy, !HashIter}.

(** Each block names its predecessor; the first one extends [a], the last one is
    [b]. *)
Fixpoint hash_chain (a : BlockId) (l : list ValidatedBlock) (b : BlockId) : Prop :=
  match l with
  | [] => a = b
  | x :: l => blk_get_parent_id (deref x) = a ∧ hash_chain (vb_id x) l b
  end.

Lemma hash_chain_app a l1 l2 b :
  hash_chain a (l1 ++ l2) b ↔ ∃ m, hash_chain a l1 m ∧ hash_chain m l2 b.
Proof.
  revert a. induction l1 as [|x l1 IH]; intros a; cbn; [naive_solver|].
  rewrite IH. naive_solver.
Qed.

(** Blocks are stored under their own id. *)
Definition filed (t : BlockTree) : Prop :=
  ∀ id e, get_entry t id = Some e → vb_id (validated_block e) = id.

Definition filed_tree (t : Tree) : Prop :=
  ∀ id e, tree t !! id = Some e → vb_id (validated_block e) = id.

Lemma tree_remove_Ret t id o t' :
  tree_remove t id = Ret (o, t') → o = tree t !! id ∧ tree t' = delete id (tree t).
Proof.
  unfold tree_remove. destruct (tree t !! id) as [e|] eqn:He.
  - rewrite run_bind_Ret. intros (ix & _ & Hrun). apply run_bind_Ret in Hrun as (_ & _ & [= <- <-]).
    done.
  - intros [= <- <-]. split; [done|]. by rewrite delete_id.
Qed.

Lemma filed_tree_delete t t' id : filed_tree t → tree t' = delete id (tree t) → filed_tree t'.
Proof. intros Ht Hd x e. rewrite Hd, lookup_delete_Some. intros [_ ?]. by apply Ht. Qed.

Lemma remove_all_filed ids t t' : filed_tree t → remove_all t ids = Ret t' → filed_tree t'.
Proof.
  revert t. induction ids as [|id ids IH]; intros t Ht; cbn; [by intros [= <-]|].
  rewrite run_bind_Ret. intros ([o t1] & [_ Hd]%tree_remove_Ret & Hrun).
  eapply IH; [|done]. by eapply filed_tree_delete.
Qed.

Lemma commit_loop_chain fuel rid t e commit out t' :
  filed_tree t → commit_loop fuel rid t e commit = Ret (out, t') →
  filed_tree t' ∧
  ∃ l, out = commit ++ l ∧ hash_chain rid (reverse l) (vb_id (validated_block e)).
Proof.
  revert t e commit. induction fuel as [|fuel IH]; intros t e commit Ht; cbn [commit_loop]; [done|].
  rewrite run_bind_Ret. intros (_ & _ & Hrun). case_decide as Hp.
  - injection Hrun as <- <-. split; [done|]. exists [validated_block e]. split; [done|].
    cbn. split; [exact Hp|done].
  - apply run_bind_Ret in Hrun as ([o t1] & [-> Hd]%tree_remove_Ret & Hrun).
    apply run_bind_Ret in Hrun as (e1 & He1%expect_Ret & Hrun).
    apply IH in Hrun as (Ht' & l & -> & Hl); [|by eapply filed_tree_delete].
    split; [done|]. exists (validated_block e :: l). rewrite <- app_assoc. split; [done|].
    rewrite reverse_cons. apply hash_chain_app. eexists. split; [exact Hl|]. cbn. split; [|done].
    symmetry. by apply (Ht _ e1).
Qed.

Lemma prune_chain t nr l t' :
  filed t → prune t nr = Ret (l, t') → filed t' ∧ hash_chain (root_id t) l (root_id t').
Proof.
  intros Ht. unfold prune. rewrite run_bind_Ret. intros (_ & _ & Hrun).
  case_decide; [injection Hrun as <- <-; done|].
  apply run_bind_Ret in Hrun as ([o t1] & [-> Hd]%tree_remove_Ret & Hrun).
  apply run_bind_Ret in Hrun as (e & He%expect_Ret & Hrun).
  apply run_bind_Ret in Hrun as ([c t2] & Hc & Hrun).
  apply run_bind_Ret in Hrun as (t3 & Hrm & [= <- <-]).
  apply commit_loop_chain in Hc as (Ht2 & l & -> & Hl); [|by eapply filed_tree_delete].
  split; [|done]. by eapply (remove_all_filed _ t2).
Qed.

Lemma add_filed t b t' : filed t → add t b = Ret t' → filed t' ∧ root_id t' = root_id t.
Proof.
  intros Ht. unfold add. case_match; [by intros [= <-]|].
  rewrite run_bind_Ret. intros (tr & Hi & [= <-]). unfold tree_insert in Hi.
  apply run_bind_Ret in Hi as (_ & _ & Hi). apply run_bind_Ret in Hi as (_ & _ & [= <-]).
  split; [|unfold root_id; cbn; by case_decide].
  intros id e. unfold get_entry. cbn. rewrite lookup_alter_Some.
  intros [(<- & e0 & [[? <-]|[_ He]]%lookup_insert_Some & ->)|(_ & [[? <-]|[_ He]]%lookup_insert_Some)];
    try done; by apply Ht in He.
Qed.

Lemma set_coherent_filed t id c t' : filed_tree t → set_coherent t id c = Ok t' → filed_tree t'.
Proof.
  intros Ht. unfold set_coherent, ok_or, res_try. destruct (tree t !! id) as [e|] eqn:He; [|done].
  intros [= <-] x ex. cbn. rewrite lookup_insert_Some. intros [[<- <-]|[_ ?]]; [by apply (Ht _ e)|by apply Ht].
Qed.

Lemma coherency_loop_filed fuel bp cc t st q ret out t' st' :
  filed t → coherency_loop fuel bp cc t st q ret = Ret (out, t', st') →
  filed t' ∧ root_id t' = root_id t.
Proof.
  revert t st q ret. induction fuel as [|fuel IH]; intros t st q ret Ht; cbn [coherency_loop]; [done|].
  destruct q as [|x q]; [by intros [= <- <- <-]|].
  rewrite run_bind_Ret. intros (p0 & _ & Hrun). apply run_bind_Ret in Hrun as (p1 & _ & Hrun).
  apply run_bind_Ret in Hrun as (nb & _ & Hrun).
  apply run_bind_Ret in Hrun as ([res st1] & _ & Hrun). destruct res as [[]|]; [|by apply IH in Hrun].
  destruct (set_coherent (bt_tree t) x true) as [tr|] eqn:Hset; [|done].
  apply run_bind_Ret in Hrun as (e & _ & Hrun). apply IH in Hrun as [Ht' Hr']; [done|].
  by eapply (set_coherent_filed (bt_tree t)).
Qed.

Lemma try_update_coherency_filed t b bp st cc out t' st' :
  filed t → try_update_coherency t b bp st cc = Ret (out, t', st') →
  filed t' ∧ root_id t' = root_id t.
Proof.
  intros Ht. unfold try_update_coherency. rewrite run_bind_Ret. intros (p0 & _ & Hrun).
  destruct p0 as [p0|]; [|by injection Hrun as <- <- <-].
  apply run_bind_Ret in Hrun as (o & _ & Hrun).
  destruct o; [|by injection Hrun as <- <- <-]. by eapply coherency_loop_filed.
Qed.
End tree.

(** ** The committed chain *)

Section chain.
Context `{HM : MessageCodec} `{!HashIter, !Duplicates PT, !U256Ops, !LeaderElection PT}.
Context `{HB : !BlockPolicy} `{HV : !BlockValidator} `{HCC : !ChainConfig CCT}.

Implicit Types (w : ConsensusStateWrapper) (past : list ConsensusCommand).

Definition finalized (cmds : list ConsensusCommand) : list ValidatedBlock :=
  omap (λ c, match c with CmdCommitBlocks (CommitFinalized b) => Some b | _ => None end) cmds.

Definition commit_point (b : ValidatedBlock) : SeqNum * Round :=
  (blk_get_seq_num (deref b), blk_get_block_round (deref b)).

(** A policy told of committed blocks one by one. *)
Definition commit_all (bp : BPT) (l : list ValidatedBlock) : run BPT :=
  foldl (λ acc b, bp ← acc; update_committed_block bp b) (Ret bp) l.

(** The state a chain of committed blocks determines. *)
Definition committed_state (em0 : EpochManager) (bp0 : BPT) (l : list ValidatedBlock)
    (em : EpochManager) (bp : BPT) : Prop :=
  schedule_chain em0 (commit_point <$> l) = Ret em ∧ commit_all bp0 l = Ret bp.

Section fixed.
Context (start : BlockId) (em0 : EpochManager) (bp0 : BPT).

Definition chain_ok past w : Prop :=
  filed (pending_block_tree (consensus w)) ∧
  hash_chain start (finalized past) (root_id (pending_block_tree (consensus w))) ∧
  committed_state em0 bp0 (finalized past) (epoch_manager w) (block_policy w).

Lemma finalized_app c1 c2 : finalized (c1 ++ c2) = finalized c1 ++ finalized c2.
Proof. apply omap_app. Qed.

Lemma schedule_chain_snoc em l x :
  schedule_chain em (l ++ [x]) = em ← schedule_chain em l; schedule_epoch_start em x.1 x.2.
Proof. unfold schedule_chain. by rewrite foldl_app. Qed.

Lemma chain_quiet_emit new : finalized new = [] → keeps chain_ok (emit new).
Proof.
  intros Hn. apply keeps_emit. intros past w. unfold chain_ok. by rewrite finalized_app, Hn, app_nil_r.
Qed.

Lemma chain_quiet_consensus f :
  (∀ c, pending_block_tree (f c) = pending_block_tree c) → keeps chain_ok (put_consensus f).
Proof. intros Hf. apply keeps_put_consensus. intros past w. unfold chain_ok. cbn. by rewrite Hf. Qed.

Lemma chain_quiet_state_read s : keeps chain_ok (put_state_read s).
Proof. intros past w Hw ??? [= <- <- <-]. by rewrite app_nil_r. Qed.

Lemma finalized_pacemaker kp ckp ver (cmds : list PacemakerCommand) :
  finalized (cmds ≫= from_pacemaker_command kp ckp ver) = [].
Proof.
  induction cmds as [|c cmds IH]; [done|]. rewrite bind_cons, finalized_app, IH. by destruct c.
Qed.

#[local] Hint Extern 1 (keeps chain_ok (put_consensus _)) => (by apply chain_quiet_consensus) : keeps.
#[local] Hint Extern 1 (keeps chain_ok (emit [_])) => (by apply chain_quiet_emit) : keeps.
#[local] Hint Extern 1 (keeps chain_ok (publish _ _ _)) => (by apply chain_quiet_emit) : keeps.
#[local] Hint Extern 1 (keeps chain_ok (emit_pacemaker _ _)) =>
  (apply chain_quiet_emit, finalized_pacemaker) : keeps.
#[local] Hint Resolve chain_quiet_state_read : keeps.

(** Committing blocks one after the other. *)
Lemma wp_commit_blocks l past w :
  committed_state em0 bp0 (finalized past) (epoch_manager w) (block_policy w) →
  wp (for_each l commit_block)
    (λ _ past' w', finalized past' = finalized past ++ l ∧ consensus w' = consensus w ∧
       committed_state em0 bp0 (finalized past') (epoch_manager w') (block_policy w')) past w.
Proof.
  revert past w. induction l as [|b l IH]; intros past w Hw; cbn [for_each].
  { apply wp_ret. by rewrite app_nil_r. }
  wp_step. unfold commit_block. do 5 wp_step.
  intros ??? [= <- <- <-]. rewrite app_nil_r. repeat wp_step.
  intros ??? [= <- <- <-]. rewrite app_nil_r. repeat wp_step.
  eapply wp_mono; [apply IH|]; cbn.
  - rewrite finalized_app. destruct Hw as [Hs Hp]. split.
    + rewrite fmap_app. change (commit_point <$> finalized [_]) with [commit_point b].
      rewrite schedule_chain_snoc, Hs. done.
    + change (finalized [_]) with [b]. unfold commit_all in *. by rewrite foldl_app, Hp.
  - intros _ past' w' (Hf & Hc & Hst). rewrite finalized_app in Hf. cbn in Hf.
    split_and!; [|done|done]. by rewrite Hf, <- app_assoc.
Qed.

Lemma chain_try_commit qc : keeps chain_ok (try_commit qc).
Proof.
  intros past w Hw. unfold try_commit. repeat wp_step.
  repeat (case_match; repeat wp_step; try done).
  destruct Hw as (Hf & Hc & Hs). destruct (prune_chain _ _ _ _ Hf ltac:(eassumption)) as [Hf' Hc'].
  eapply wp_mono; [by apply wp_commit_blocks|]. cbn. intros _ past' w' (Hp & Hcs & Hst).
  split_and!; rewrite ?Hcs; try done. rewrite Hp. apply hash_chain_app. by eexists.
Qed.

#[local] Hint Resolve chain_try_commit : keeps.

Lemma chain_update_proposed_head : keeps chain_ok update_proposed_head.
Proof. unfold update_proposed_head. keeps_auto. Qed.

#[local] Hint Resolve chain_update_proposed_head : keeps.

Lemma chain_coherency env b : keeps chain_ok (consensus_try_update_coherency env b).
Proof.
  intros past w (Hf & Hc & Hs). unfold consensus_try_update_coherency. do 4 wp_step.
  destruct a as [[new t] st]. destruct (try_update_coherency_filed _ _ _ _ _ _ _ _ Hf Hcall) as [Hf' Hr'].
  repeat wp_step. apply (wp_keeps chain_ok); [|keeps_auto|intros _ past1 w1 Hw1].
  { split_and!; cbn; [done|by rewrite Hr'|done]. }
  apply keeps_wp; [done|]. keeps_auto. apply chain_quiet_emit. clear. by induction new.
Qed.

#[local] Hint Resolve chain_coherency : keeps.

Lemma chain_try_propose env : keeps chain_ok (try_propose env).
Proof.
  unfold try_propose, propose_tip, propose_qc, publish_recovery, request_tip_if_missing, put_safety.
  keeps_all.
Qed.

Lemma chain_process_certificate env rc : keeps chain_ok (process_round_certificate env rc).
Proof. unfold process_round_certificate. keeps_all. Qed.

Lemma chain_request_blocks : keeps chain_ok request_blocks_if_missing_ancestor.
Proof. unfold request_blocks_if_missing_ancestor. keeps_all. Qed.

#[local] Hint Resolve chain_try_propose chain_process_certificate chain_request_blocks : keeps.

Lemma chain_send_vote env v : keeps chain_ok (send_vote_and_reset_timer env v).
Proof. unfold send_vote_and_reset_timer. keeps_all. Qed.

#[local] Hint Resolve chain_send_vote : keeps.

Lemma chain_try_vote env tc tip : keeps chain_ok (try_vote env tc tip).
Proof. unfold try_vote, schedule_vote, maybe_record_vote_delay_metrics, put_safety. keeps_all. Qed.

#[local] Hint Resolve chain_try_vote : keeps.

Lemma chain_try_add env b args : keeps chain_ok (try_add_and_commit_blocktree env b args).
Proof.
  intros past w (Hf & Hc & Hs). unfold try_add_and_commit_blocktree. do 4 wp_step.
  destruct (add_filed _ _ _ Hf Hcall) as [Hf' Hr']. repeat wp_step.
  apply (wp_keeps chain_ok); [|keeps_all|intros _ past1 w1 Hw1].
  { split_and!; cbn; [done|by rewrite Hr'|done]. }
  apply keeps_wp; [done|]. unfold maybe_statesync. keeps_all.
Qed.

Lemma chain_process_qc env qc : keeps chain_ok (process_qc env qc).
Proof. unfold process_qc, cancel_obsolete_requests, maybe_statesync, lookup_leader. keeps_all. Qed.

Lemma chain_process_tc env tc : keeps chain_ok (process_tc env tc).
Proof. unfold process_tc, lookup_leader. keeps_all. Qed.

#[local] Hint Resolve chain_try_add chain_process_qc chain_process_tc : keeps.

Lemma chain_timeout_expiry env r : keeps chain_ok (handle_timeout_expiry env r).
Proof. unfold handle_timeout_expiry. keeps_all. Qed.

Lemma chain_vote env author m : keeps chain_ok (handle_vote_message env author m).
Proof. unfold handle_vote_message. keeps_all. Qed.

#[local] Hint Resolve chain_timeout_expiry chain_vote : keeps.

Lemma chain_sync_loop env l : keeps chain_ok (sync_loop env l).
Proof. induction l as [|b l IH]; cbn [sync_loop]; unfold validate_block; keeps_all. Qed.

#[local] Hint Resolve chain_sync_loop : keeps.

Lemma chain_handle_event env ev : keeps chain_ok (handle_event env ev).
Proof.
  destruct ev; cbn [handle_event]; eauto with keeps nocore.
  - unfold handle_proposal_message, validate_block, put_safety. keeps_all.
  - unfold handle_timeout_message, absorb_timeout, handle_timeout_certificate,
      broadcast_advance_round_message, collect_timeout. keeps_all.
  - unfold handle_round_recovery_message, put_safety. keeps_all.
  - unfold handle_no_endorsement_message. keeps_all.
  - unfold handle_advance_round_message. keeps_all.
  - unfold handle_block_sync. keeps_all.
  - unfold handle_vote_timer. keeps_all.
Qed.

Lemma chain_run_events evs : keeps chain_ok (run_events evs).
Proof.
  induction evs as [|[env ev] evs IH]; cbn [run_events]; keeps_all. apply chain_handle_event.
Qed.
End fixed.

(** C2: in every run, the blocks the node finalizes form one chain, in order, each
    naming its predecessor by its id, from the root of its block tree to the new
    root: finality never reverts or forks locally, whatever it receives.  The
    epoch manager and the block policy end in exactly the state that scheduling
    and committing the finalized blocks one by one determines. *)
Theorem consensus_commits_one_chain (evs : list (ConsensusEnv * ConsensusEvent))
    (w w' : ConsensusStateWrapper) (cmds : list ConsensusCommand) :
  filed (pending_block_tree (consensus w)) →
  run_events evs w = Ret ((), cmds, w') →
  hash_chain (root_id (pending_block_tree (consensus w))) (finalized cmds)
    (root_id (pending_block_tree (consensus w'))) ∧
  committed_state (epoch_manager w) (block_policy w) (finalized cmds)
    (epoch_manager w') (block_policy w').
Proof.
  intros Hf Hrun.
  apply (chain_run_events (root_id (pending_block_tree (consensus w))) (epoch_manager w) (block_policy w) evs [] w) in Hrun.
  - destruct Hrun as (_ & Hc & Hs). split; [exact Hc|exact Hs].
  - split_and!; [exact Hf|reflexivity|by split].
Qed.
End chain.

(** ** The concrete node *)

#[local] Existing Instance NopProtocol.
#[local] Existing Instance NopCodec.
#[local] Existing Instance list_HashIter.
#[local] Existing Instance example_message_codec.
#[local] Existing Instance node_policy.
#[local] Existing Instance node_validator.
#[local] Existing Instance node_chain_config.
#[local] Existing Instance node_election.

Lemma consensus_commits_one_chain_witness : ∃ w cmds w',
  run_events node_events w = Ret ((), cmds, w') ∧ length (finalized cmds) = 1 ∧
  hash_chain (root_id (pending_block_tree (consensus w))) (finalized cmds)
    (root_id (pending_block_tree (consensus w'))).
Proof.
  destruct node_run_steps as (w & cmds & w' & Hw & Hrun & Hall). exists w, cmds, w'.
  assert (Hlen : match node_run with
                 | Ret (_, cmds, _) => bool_decide (length (finalized cmds) = 1)
                 | Panic => false end = true) by (vm_compute; reflexivity).
  rewrite Hall in Hlen. apply bool_decide_eq_true in Hlen.
  split; [exact Hrun|]. split; [exact Hlen|].
  refine (proj1 (consensus_commits_one_chain node_events w w' cmds _ Hrun)).
  unfold node_start in Hw. apply run_bind_Ret in Hw as (c & Hc & [= <-]).
  unfold ConsensusState_new in Hc. apply run_bind_Ret in Hc as (pm & _ & Hc).
  apply run_bind_Ret in Hc as (r1 & _ & Hc). apply run_bind_Ret in Hc as (s & _ & [= <-]).
  intros id e He. discriminate He.
Defined.
