(* ===== verification/ConsensusRounds.v ===== *)
(** * The rounds of a node

    Over every run of the state machine the rounds entered increase and the last
    one is the current round; a timeout that passed validation never trips the
    round assertion of the pacemaker, because handling what it carries brings
    the node to its round. *)
From S2P Require Import Prelude Types ValidatorSet EpochManager LeaderElection.
From S2P Require Import SignatureCollection Certificates Messages CertificateCache Signing.
From S2P Require Import MessageValidation Safety VoteState NoEndorsementState.
From S2P Require Import TimeoutAggregation Pacemaker Tree BlockTree BlockTreeSearch.
From S2P Require Import ChainConfig Timestamp ConsensusState ConsensusLogic ConsensusExample.

Section rounds.
Context `{HM : MessageCodec} `{!HashIter, !Duplicates PT, !U256Ops, !LeaderElection PT}.
Context `{HB : !BlockPolicy} `{HV : !BlockValidator} `{HCC : !ChainConfig CCT}.

Implicit Types (w : ConsensusStateWrapper) (past : list ConsensusCommand).

Definition entered_by (cmds : list ConsensusCommand) : list Round :=
  omap (λ c, match c with CmdEnterRound _ r => Some r | _ => None end) cmds.

Definition round_of_node w : Round := current_round_of (cs_pacemaker (consensus w)).

Definition rounds_ok (r0 : Round) past w : Prop :=
  StronglySorted N.lt (r0 :: entered_by past) ∧
  last (r0 :: entered_by past) = Some (round_of_node w).

Lemma entered_by_app c1 c2 : entered_by (c1 ++ c2) = entered_by c1 ++ entered_by c2.
Proof. apply omap_app. Qed.

Lemma entered_by_pacemaker kp ckp ver (cmds : list PacemakerCommand) :
  entered_by (cmds ≫= from_pacemaker_command kp ckp ver) = entered_rounds cmds.
Proof.
  induction cmds as [|c cmds IH]; [done|]. rewrite bind_cons, entered_by_app, IH. by destruct c.
Qed.

Lemma StronglySorted_last (l : list N) x y :
  StronglySorted N.lt (x :: l) → last (x :: l) = Some y → Forall (λ z, z ≤ y)%N (x :: l).
Proof.
  revert x. induction l as [|z l IH]; intros x Hs Hl.
  - injection Hl as <-. repeat constructor. lia.
  - apply StronglySorted_inv in Hs as [Hs Hx]. specialize (IH z Hs Hl).
    constructor; [|done]. inversion_clear Hx. inversion_clear IH. lia.
Qed.

(** One call into the pacemaker: the round stays, or one later round is entered. *)
Definition round_move (p : Pacemaker) (cmds : list PacemakerCommand) (p' : Pacemaker) : Prop :=
  current_round_of p' = current_round_of p ∧ entered_rounds cmds = [] ∨
  (current_round_of p < current_round_of p')%N ∧ entered_rounds cmds = [current_round_of p'].

Lemma process_certificate_move p em s rc cmds p' s' :
  process_certificate p em s rc = Ret (cmds, p', s') →
  round_move p cmds p' ∧ (rc_round rc < current_round_of p')%N.
Proof.
  unfold process_certificate. case_decide; [intros [= <- <- <-]|].
  { split; [by left|]. unfold current_round_of. lia. }
  rewrite run_bind_Ret. intros (r & [-> _]%Round_add_Ret & Hrun).
  apply run_bind_Ret in Hrun as (e & _ & Hrun). apply run_bind_Ret in Hrun as (d & _ & [= <- <- <-]).
  unfold round_move, current_round_of. cbn. split; [right; split; [lia|done]|lia].
Qed.

Lemma process_local_timeout_move p s cmds p' s' :
  process_local_timeout p s = Ret (cmds, p', s') → round_move p cmds p'.
Proof.
  unfold process_local_timeout. rewrite run_bind_Ret. intros ([c s1] & Hl & [= <- <- <-]).
  apply local_timeout_round_Ret in Hl as (_ & safe & d & ->). by left.
Qed.

Lemma process_remote_timeout_move p em vs vm s author m cmds p' s' :
  process_remote_timeout p em vs vm s author m = Ret (cmds, p', s') → round_move p cmds p'.
Proof. intros [_ Hm]%process_remote_timeout_moves. unfold round_move. naive_solver. Qed.

Lemma wp_round_move r0 env past w p s (cmds : list PacemakerCommand) :
  rounds_ok r0 past w → round_move (cs_pacemaker (consensus w)) cmds p →
  wp (put_consensus (set_rounds p s) ≫= λ _, emit_pacemaker env cmds)
    (λ _ past' w', rounds_ok r0 past' w' ∧ cs_pacemaker (consensus w') = p) past w.
Proof.
  intros [Hs Hl] Hm. unfold emit_pacemaker. repeat wp_step. split; [|done].
  unfold rounds_ok. rewrite entered_by_app, entered_by_pacemaker.
  unfold round_of_node in *. cbn [consensus with_consensus cs_pacemaker set_rounds].
  destruct Hm as [[Hr ->]|[Hr ->]]; [by rewrite app_nil_r, Hr|].
  assert (Hall := StronglySorted_last _ _ _ Hs Hl).
  rewrite app_comm_cons. split; [|by rewrite last_snoc].
  apply StronglySorted_app. split_and!; [|done|by repeat constructor].
  intros x y Hx ->%list_elem_of_singleton. rewrite Forall_forall in Hall. apply Hall in Hx. lia.
Qed.

Section fixed.
Context (r0 : Round).

Lemma rounds_quiet_emit new : entered_by new = [] → keeps (rounds_ok r0) (emit new).
Proof.
  intros Hn. apply keeps_emit. intros past w. unfold rounds_ok. by rewrite entered_by_app, Hn, app_nil_r.
Qed.

Lemma rounds_quiet_consensus f :
  (∀ c, cs_pacemaker (f c) = cs_pacemaker c) → keeps (rounds_ok r0) (put_consensus f).
Proof.
  intros Hf. apply keeps_put_consensus. intros past w. unfold rounds_ok, round_of_node. cbn. by rewrite Hf.
Qed.

Lemma rounds_quiet_other A (m : act A) :
  (∀ w, ∃ a w', m w = Ret (a, [], w') ∧ consensus w' = consensus w) → keeps (rounds_ok r0) m.
Proof.
  intros Hm past w Hw a cmds w' Hrun. destruct (Hm w) as (a1 & w1 & Hm1 & Hc).
  rewrite Hm1 in Hrun. injection Hrun as <- <- <-. rewrite app_nil_r.
  unfold rounds_ok, round_of_node in *. by rewrite Hc.
Qed.

Lemma rounds_put_policy p : keeps (rounds_ok r0) (put_block_policy p).
Proof. apply rounds_quiet_other. intros w. by do 2 eexists. Qed.

Lemma rounds_put_epochs em : keeps (rounds_ok r0) (put_epoch_manager em).
Proof. apply rounds_quiet_other. intros w. by do 2 eexists. Qed.

Lemma rounds_put_state_read s : keeps (rounds_ok r0) (put_state_read s).
Proof. apply rounds_quiet_other. intros w. by do 2 eexists. Qed.

Lemma rounds_put_safety s : keeps (rounds_ok r0) (put_safety s).
Proof.
  intros past w Hw. unfold put_safety. repeat wp_step. exact Hw.
Qed.

#[local] Hint Extern 1 (keeps (rounds_ok _) (put_consensus _)) =>
  (by apply rounds_quiet_consensus) : keeps.
#[local] Hint Extern 1 (keeps (rounds_ok _) (emit [_])) => (by apply rounds_quiet_emit) : keeps.
#[local] Hint Extern 1 (keeps (rounds_ok _) (publish _ _ _)) => (by apply rounds_quiet_emit) : keeps.
#[local] Hint Resolve rounds_put_policy rounds_put_epochs rounds_put_state_read rounds_put_safety : keeps.

Lemma rounds_process_certificate env rc : keeps (rounds_ok r0) (process_round_certificate env rc).
Proof.
  intros past w Hw. unfold process_round_certificate. do 4 wp_step. destruct a as [[cmds p] s].
  apply process_certificate_move in Hcall as [Hm _].
  eapply wp_mono; [by apply wp_round_move|]. by intros _ ?? [? _].
Qed.

Lemma rounds_timeout_expiry env r : keeps (rounds_ok r0) (handle_timeout_expiry env r).
Proof.
  intros past w Hw. unfold handle_timeout_expiry. repeat wp_step.
  case_decide; [by wp_step|]. do 4 wp_step. destruct a as [[cmds p] s].
  apply process_local_timeout_move in Hcall.
  eapply wp_mono; [by apply wp_round_move|]. by intros _ ?? [? _].
Qed.

Lemma rounds_collect_timeout env author m vs vm :
  keeps (rounds_ok r0) (collect_timeout env author m vs vm).
Proof.
  intros past w Hw. unfold collect_timeout. do 4 wp_step. destruct a as [[cmds p] s].
  apply process_remote_timeout_move in Hcall.
  eapply wp_mono; [by apply wp_round_move|]. by intros _ ?? [? _].
Qed.

#[local] Hint Resolve rounds_process_certificate rounds_timeout_expiry rounds_collect_timeout : keeps.

Lemma rounds_update_head : keeps (rounds_ok r0) update_proposed_head.
Proof. unfold update_proposed_head. keeps_all. Qed.

Lemma rounds_try_commit qc : keeps (rounds_ok r0) (try_commit qc).
Proof. unfold try_commit, commit_block. keeps_all. Qed.

#[local] Hint Resolve rounds_update_head rounds_try_commit : keeps.

Lemma rounds_coherency env b : keeps (rounds_ok r0) (consensus_try_update_coherency env b).
Proof.
  unfold consensus_try_update_coherency. keeps_all. apply rounds_quiet_emit. clear.
  match goal with |- entered_by (_ <$> ?l) = _ => by induction l end.
Qed.

Lemma rounds_request_blocks : keeps (rounds_ok r0) request_blocks_if_missing_ancestor.
Proof. unfold request_blocks_if_missing_ancestor. keeps_all. Qed.

Lemma rounds_send_vote env v : keeps (rounds_ok r0) (send_vote_and_reset_timer env v).
Proof. unfold send_vote_and_reset_timer. keeps_all. Qed.

#[local] Hint Resolve rounds_coherency rounds_request_blocks rounds_send_vote : keeps.

Lemma rounds_try_propose env : keeps (rounds_ok r0) (try_propose env).
Proof.
  unfold try_propose, propose_tip, propose_qc, publish_recovery, request_tip_if_missing. keeps_all.
Qed.

Lemma rounds_try_vote env tc tip : keeps (rounds_ok r0) (try_vote env tc tip).
Proof. unfold try_vote, schedule_vote, maybe_record_vote_delay_metrics. keeps_all. Qed.

#[local] Hint Resolve rounds_try_propose rounds_try_vote : keeps.

Lemma rounds_try_add env b args : keeps (rounds_ok r0) (try_add_and_commit_blocktree env b args).
Proof. unfold try_add_and_commit_blocktree, maybe_statesync. keeps_all. Qed.

Lemma rounds_process_qc env qc : keeps (rounds_ok r0) (process_qc env qc).
Proof. unfold process_qc, cancel_obsolete_requests, maybe_statesync, lookup_leader. keeps_all. Qed.

Lemma rounds_process_tc env tc : keeps (rounds_ok r0) (process_tc env tc).
Proof. unfold process_tc, lookup_leader. keeps_all. Qed.

#[local] Hint Resolve rounds_try_add rounds_process_qc rounds_process_tc : keeps.

Lemma rounds_vote env author m : keeps (rounds_ok r0) (handle_vote_message env author m).
Proof. unfold handle_vote_message. keeps_all. Qed.

Lemma rounds_sync_loop env l : keeps (rounds_ok r0) (sync_loop env l).
Proof. induction l as [|b l IH]; cbn [sync_loop]; unfold validate_block; keeps_all. Qed.

#[local] Hint Resolve rounds_vote rounds_sync_loop : keeps.

Lemma rounds_timeout_certificate env rc : keeps (rounds_ok r0) (handle_timeout_certificate env rc).
Proof. unfold handle_timeout_certificate, broadcast_advance_round_message. keeps_all. Qed.

#[local] Hint Resolve rounds_timeout_certificate : keeps.

Lemma rounds_handle_event env ev : keeps (rounds_ok r0) (handle_event env ev).
Proof.
  destruct ev; cbn [handle_event]; eauto with keeps nocore.
  - unfold handle_proposal_message, validate_block. keeps_all.
  - unfold handle_timeout_message, absorb_timeout. keeps_all.
  - unfold handle_round_recovery_message. keeps_all.
  - unfold handle_no_endorsement_message. keeps_all.
  - unfold handle_advance_round_message. keeps_all.
  - unfold handle_block_sync. keeps_all.
  - unfold handle_vote_timer. keeps_all.
Qed.

Lemma rounds_run_events evs : keeps (rounds_ok r0) (run_events evs).
Proof.
  induction evs as [|[env ev] evs IH]; cbn [run_events]; keeps_all. apply rounds_handle_event.
Qed.
End fixed.

(** ** Reaching the round of a message *)

Definition at_least (r : Round) (_ : list ConsensusCommand) w : Prop := (r ≤ round_of_node w)%N.

Lemma keeps_at_least r {A} (m : act A) : (∀ r0, keeps (rounds_ok r0) m) → keeps (at_least r) m.
Proof.
  intros Hm past w Hr a cmds w' Hrun. unfold at_least in *.
  assert (Hw : rounds_ok (round_of_node w) [] w) by (split; [repeat constructor|done]).
  destruct (Hm _ _ _ Hw _ _ _ Hrun) as [Hs Hl].
  assert (Hall := StronglySorted_last _ _ _ Hs Hl). inversion_clear Hall. lia.
Qed.

Lemma process_certificate_reaches env rc past w :
  wp (process_round_certificate env rc) (λ _, at_least (rc_round rc + 1)) past w.
Proof.
  unfold process_round_certificate. do 4 wp_step. destruct a as [[cmds p] s].
  apply process_certificate_move in Hcall as [Hm Hr].
  assert (Hw : rounds_ok (round_of_node w) [] w) by (split; [repeat constructor|done]).
  intros a cmds' w' Hrun.
  destruct (wp_round_move _ env _ _ p s cmds Hw Hm _ _ _ Hrun) as [_ Hp].
  unfold at_least, round_of_node. rewrite Hp. lia.
Qed.

#[local] Hint Extern 1 (keeps (rounds_ok _) (put_consensus _)) =>
  (by apply rounds_quiet_consensus) : keeps.
#[local] Hint Resolve rounds_update_head rounds_request_blocks rounds_try_propose : keeps.
#[local] Hint Resolve rounds_process_qc rounds_process_tc rounds_vote : keeps.
#[local] Hint Resolve rounds_timeout_certificate rounds_timeout_expiry : keeps.

Lemma process_qc_reaches env qc past w :
  wp (process_qc env qc) (λ _, at_least (qc_get_round qc + 1)) past w.
Proof.
  unfold process_qc. repeat wp_step. case_decide.
  { wp_step. unfold at_least, round_of_node, qc_get_round. lia. }
  repeat wp_step. do 3 (apply wp_any; intros ???; repeat wp_step).
  apply wp_any; intros ???; repeat wp_step.
  eapply wp_mono; [apply process_certificate_reaches|intros ? past5 w5 Hw5].
  apply keeps_wp; [exact Hw5|]. apply keeps_at_least. intros r0. unfold lookup_leader. keeps_all.
Qed.

Lemma process_tc_reaches env tc past w :
  wp (process_tc env tc) (λ _, at_least (tc_round tc + 1)) past w.
Proof.
  unfold process_tc. repeat wp_step. case_decide.
  { wp_step. unfold at_least, round_of_node. lia. }
  repeat wp_step.
  eapply wp_mono; [apply process_certificate_reaches|intros ? past5 w5 Hw5].
  apply keeps_wp; [exact Hw5|]. apply keeps_at_least. intros r0. unfold lookup_leader. keeps_all.
Qed.

Lemma timeout_certificate_reaches env rc past w :
  wp (handle_timeout_certificate env (Some rc)) (λ _, at_least (rc_round rc + 1)) past w.
Proof.
  unfold handle_timeout_certificate. destruct rc as [qc|tc]; wp_step; wp_step.
  - apply process_qc_reaches.
  - case_decide; [|case_decide]; [wp_step..|].
    + apply wp_any. intros ???. apply process_tc_reaches.
    + apply wp_any. intros ???. apply process_tc_reaches.
    + wp_step. unfold at_least, round_of_node. cbn. lia.
Qed.


(** C24: in every run of the node, whatever it receives, the rounds it enters
    strictly increase from its first one, and its current round is the last one
    it entered. *)
Theorem consensus_rounds_increase (evs : list (ConsensusEnv * ConsensusEvent))
    (w w' : ConsensusStateWrapper) (cmds : list ConsensusCommand) :
  run_events evs w = Ret ((), cmds, w') →
  StronglySorted N.lt (round_of_node w :: entered_by cmds) ∧
  last (round_of_node w :: entered_by cmds) = Some (round_of_node w').
Proof.
  intros Hrun. apply (rounds_run_events (round_of_node w) evs [] w) in Hrun; [exact Hrun|].
  split; [repeat constructor|done].
Qed.
End rounds.

(** ** The concrete node *)

#[local] Existing Instance NopProtocol.
#[local] Existing Instance NopCodec.
#[local] Existing Instance list_HashIter.
#[local] Existing Instance example_message_codec.
#[local] Existing Instance node_policy.
#[local] Existing Instance node_validator.
#[local] Existing Instance node_chain_config.
#[local] Existing Instance node_election.

Lemma consensus_rounds_increase_witness : ∃ w cmds w',
  run_events node_events w = Ret ((), cmds, w') ∧ entered_by cmds = [2%N; 3%N] ∧
  last (round_of_node w :: entered_by cmds) = Some (round_of_node w').
Proof.
  destruct node_run_steps as (w & cmds & w' & Hw & Hrun & Hall). exists w, cmds, w'.
  assert (Hlen : match node_run with
                 | Ret (_, cmds, _) => bool_decide (entered_by cmds = [2%N; 3%N])
                 | Panic => false end = true) by (vm_compute; reflexivity).
  rewrite Hall in Hlen. apply bool_decide_eq_true in Hlen.
  split; [exact Hrun|]. split; [exact Hlen|].
  apply (consensus_rounds_increase node_events w w' cmds Hrun).
Defined.

(** The validated proposal of round 6 of [MessageValidation], received in round 1. *)
#[local] Existing Instance example_election.

Definition example_absorb : act () :=
  process_qc (node_env 30) (hdr_qc (tip_header (pm_tip example_proposal))) ≫= λ _,
  match last_round_tc example_proposal with
  | Some tc => process_tc (node_env 30) tc
  | None => mret ()
  end.

