(* ===== verification/Merkle.v ===== *)
(** * Merkle trees and proofs ([src/merkle/src/lib.rs])

    A complete binary tree stored as a vector: the root at index 0, the children
    of [i] at [2i+1] and [2i+2], the leaves last.  The hash function is the class
    [ByteHasher]; an out-of-range index is a panic.  Theorems: a proof of a leaf
    recomputes the root; two proofs that compute the same root for one position
    agree, or exhibit a hash collision. *)
From S2P Require Import Prelude Types.

(** [HasherType]: bytes in, 32 bytes out. *)
Class ByteHasher := {
  hash_bytes : list N → list N;
  hash_bytes_length b : length (hash_bytes b) = 32;
}.

Abbreviation Hash := (list N).
Abbreviation MerkleHash := (list N).

Definition MERKLE_HASH_SIZE : nat := 20.
Definition MerkleHash_default : MerkleHash := replicate MERKLE_HASH_SIZE 0%N.
Definition u16_MAX : N := 65535.

Definition hash_to_merkle (hash : Hash) : MerkleHash := take MERKLE_HASH_SIZE hash.

Definition parent_idx (idx : nat) : option nat :=
  match idx with 0 => None | S i => Some (i / 2) end.

Definition sibling_idx (idx : nat) : option nat :=
  p ← parent_idx idx;
  Some (2 * p + (1 + idx `mod` 2)).

Section merkle.
Context `{!ByteHasher}.

Record MerkleProof := { tree_leaf_idx : N; siblings : list MerkleHash }.

Definition MAX_DEPTH : N := 15.
Definition MAX_NUM_LEAVES : N := 2 ^ (MAX_DEPTH - 1).

Definition u16_checked_pow2 (k : N) : option N :=
  if decide (2 ^ k ≤ u16_MAX)%N then Some (2 ^ k)%N else None.

Definition new_from_leaf_idx (siblings : list MerkleHash) (leaf_idx : N) : option MerkleProof :=
  let n := N.of_nat (length siblings) in
  if decide (MAX_DEPTH ≤ n)%N then None
  else
    num_leaves ← u16_checked_pow2 n;
    doubled ← (if decide (2 * num_leaves ≤ u16_MAX)%N then Some (2 * num_leaves)%N else None);
    tree_len ← (if decide (1 ≤ doubled)%N then Some (doubled - 1)%N else None);
    let tree_leaf_start_idx := (tree_len - num_leaves)%N in
    if decide (num_leaves ≤ leaf_idx)%N then None
    else Some {| tree_leaf_idx := (tree_leaf_start_idx + leaf_idx)%N; siblings := siblings |}.

(** The hash of an inner node. *)
Definition node_hash (left right : MerkleHash) : MerkleHash :=
  hash_to_merkle (hash_bytes (left ++ right)).

(** The loop of [compute_root] over the siblings, from the leaf up. *)
Fixpoint root_loop (merkle_hash : MerkleHash) (current_idx : option nat) (l : list MerkleHash) :
    option MerkleHash :=
  match l with
  | [] => Some merkle_hash
  | sibling :: l =>
      idx ← current_idx;
      let merkle_hash :=
        if decide (idx `mod` 2 = 1) then node_hash merkle_hash sibling
        else node_hash sibling merkle_hash in
      root_loop merkle_hash (parent_idx idx) l
  end.

Definition compute_root (self : MerkleProof) (leaf : Hash) : option MerkleHash :=
  root_loop (hash_to_merkle leaf) (Some (N.to_nat (tree_leaf_idx self))) (reverse (siblings self)).

Record MerkleTree := { tree_leaf_start_idx : N; nodes : list MerkleHash }.

(** [for (leaf, raw_leaf) in tree[start..].iter_mut().zip(leaves)]. *)
Fixpoint fill_leaves (tree : list MerkleHash) (idx : nat) (leaves : list Hash) : list MerkleHash :=
  match leaves with
  | [] => tree
  | raw_leaf :: leaves =>
      if decide (idx < length tree)
      then fill_leaves (<[idx := hash_to_merkle raw_leaf]> tree) (S idx) leaves
      else tree
  end.

(** [for idx in (0..start).rev()]. *)
Fixpoint build_loop (idx : nat) (tree : list MerkleHash) : run (list MerkleHash) :=
  match idx with
  | 0 => Ret tree
  | S i =>
      l ← expect (tree !! (2 * i + 1));
      r ← expect (tree !! (2 * i + 2));
      assert (i < length tree) ≫= λ _,
      build_loop i (<[i := node_hash l r]> tree)
  end.

(** The size of the vector is bounded by the allocator ([isize::MAX] bytes). *)
Definition new_with_depth (leaves : list Hash) (depth : N) : run MerkleTree :=
  d ← expect (if decide (1 ≤ depth)%N then Some (depth - 1)%N else None);
  let num_leaves := (2 ^ d)%N in
  let tree_len := (2 * num_leaves - 1)%N in
  assert (tree_len * 20 ≤ 9223372036854775807)%N ≫= λ _,
  let tree := replicate (N.to_nat tree_len) MerkleHash_default in
  let start := (tree_len - num_leaves)%N in
  let tree := fill_leaves tree (N.to_nat start) leaves in
  tree ← build_loop (N.to_nat start) tree;
  assert (start ≤ u16_MAX)%N ≫= λ _,
  Ret {| tree_leaf_start_idx := start; nodes := tree |}.

(** [len.next_power_of_two().ilog2()]; the power of two of 0 is 1. *)
Definition depth_for (len : N) : N := (N.log2_up len + 1)%N.

Definition MerkleTree_new (leaves : list Hash) : run MerkleTree :=
  new_with_depth leaves (depth_for (N.of_nat (length leaves))).

Definition merkle_root (self : MerkleTree) : run MerkleHash := expect (nodes self !! 0).

Fixpoint proof_loop (fuel : nat) (tree : list MerkleHash) (current_idx : nat)
    (siblings : list MerkleHash) : run (list MerkleHash) :=
  match fuel with
  | 0 => Panic
  | S fuel =>
      match sibling_idx current_idx with
      | None => Ret siblings
      | Some sib =>
          parent ← expect (parent_idx current_idx);
          h ← expect (tree !! sib);
          proof_loop fuel tree parent (siblings ++ [h])
      end
  end.

(** The 16-bit addition is unchecked in the release profile. *)
Definition proof (self : MerkleTree) (leaf_idx : N) : run MerkleProof :=
  let tree_leaf_idx := ((tree_leaf_start_idx self + leaf_idx) `mod` (u16_MAX + 1))%N in
  siblings ← proof_loop (S (N.to_nat tree_leaf_idx)) (nodes self) (N.to_nat tree_leaf_idx) [];
  Ret {| tree_leaf_idx := tree_leaf_idx; siblings := reverse siblings |}.

(** ** Indices *)

Lemma parent_left p : parent_idx (2 * p + 1) = Some p.
Proof.
  replace (2 * p + 1) with (S (p * 2)) by lia. unfold parent_idx. by rewrite Nat.div_mul.
Qed.

Lemma parent_right p : parent_idx (2 * p + 2) = Some p.
Proof.
  replace (2 * p + 2) with (S (p * 2 + 1)) by lia. unfold parent_idx. f_equal.
  rewrite Nat.div_add_l by lia. cbn. lia.
Qed.

Lemma sibling_left p : sibling_idx (2 * p + 1) = Some (2 * p + 2).
Proof.
  unfold sibling_idx. rewrite parent_left. cbn [mbind option_bind]. f_equal.
  replace ((2 * p + 1) `mod` 2) with 1; [lia|].
  replace (2 * p + 1) with (1 + p * 2) by lia. by rewrite Nat.Div0.mod_add.
Qed.

Lemma sibling_right p : sibling_idx (2 * p + 2) = Some (2 * p + 1).
Proof.
  unfold sibling_idx. rewrite parent_right. cbn [mbind option_bind]. f_equal.
  replace ((2 * p + 2) `mod` 2) with 0; [lia|].
  replace (2 * p + 2) with (0 + (p + 1) * 2) by lia. by rewrite Nat.Div0.mod_add.
Qed.

(** An index is the root or a left or right child. *)
Lemma index_cases i : i = 0 ∨ ∃ p, p < i ∧ (i = 2 * p + 1 ∧ i `mod` 2 = 1 ∨ i = 2 * p + 2 ∧ i `mod` 2 = 0).
Proof.
  destruct i as [|i]; [by left|right]. exists (i / 2).
  pose proof (Nat.Div0.div_mod i 2). pose proof (Nat.mod_upper_bound i 2).
  split; [lia|]. destruct (i `mod` 2) as [|[|]] eqn:Hm; [left|right|lia].
  - split; [lia|]. replace (S i) with (1 + (i / 2) * 2) by lia. by rewrite Nat.Div0.mod_add.
  - split; [lia|]. replace (S i) with (0 + (i / 2 + 1) * 2) by lia. by rewrite Nat.Div0.mod_add.
Qed.

(** ** Trees *)

(** Every inner node hashes its two children. *)
Definition hashes_children (tree : list MerkleHash) (lo hi : nat) : Prop :=
  ∀ i, lo ≤ i < hi → ∃ l r, tree !! (2 * i + 1) = Some l ∧ tree !! (2 * i + 2) = Some r ∧
    tree !! i = Some (node_hash l r).

Lemma fill_leaves_length tree idx leaves : length (fill_leaves tree idx leaves) = length tree.
Proof.
  revert tree idx. induction leaves as [|l leaves IH]; intros tree idx; cbn; [done|].
  case_decide; [|done]. by rewrite IH, length_insert.
Qed.

Lemma fill_leaves_lookup tree idx leaves k :
  idx + length leaves ≤ length tree →
  fill_leaves tree idx leaves !! k =
    if decide (idx ≤ k < idx + length leaves) then hash_to_merkle <$> leaves !! (k - idx)
    else tree !! k.
Proof.
  revert tree idx. induction leaves as [|l leaves IH]; intros tree idx Hlen; cbn in *.
  { rewrite decide_False by lia. done. }
  rewrite decide_True by lia. rewrite IH by (rewrite length_insert; lia).
  destruct (decide (k = idx)) as [->|Hk].
  - rewrite decide_False, decide_True by lia. rewrite list_lookup_insert_eq by lia.
    by rewrite Nat.sub_diag.
  - destruct (decide (S idx ≤ k < S idx + length leaves)).
    + rewrite decide_True by lia. replace (k - idx) with (S (k - S idx)) by lia. done.
    + rewrite decide_False by lia. by rewrite list_lookup_insert_ne by lia.
Qed.

Lemma build_loop_spec n hi tree :
  n ≤ hi → length tree = 2 * hi + 1 → hashes_children tree n hi →
  ∃ tree', build_loop n tree = Ret tree' ∧ length tree' = length tree ∧
    hashes_children tree' 0 hi ∧ ∀ k, n ≤ k → tree' !! k = tree !! k.
Proof.
  revert tree. induction n as [|n IH]; intros tree Hn Hlen Hok; cbn [build_loop].
  { by exists tree. }
  destruct (lookup_lt_is_Some_2 tree (2 * n + 1)) as [l Hl]; [lia|].
  destruct (lookup_lt_is_Some_2 tree (2 * n + 2)) as [r Hr]; [lia|].
  rewrite Hl, Hr. cbn [expect mbind run_bind]. rewrite assert_true by lia. cbn [mbind run_bind].
  destruct (IH (<[n := node_hash l r]> tree)) as (tree' & -> & Hlen' & Hok' & Hsame);
    [lia|by rewrite length_insert| |].
  { intros i Hi. destruct (decide (i = n)) as [->|Hin].
    - exists l, r. rewrite !list_lookup_insert_ne, list_lookup_insert_eq by lia. done.
    - destruct (Hok i) as (l' & r' & ? & ? & ?); [lia|]. exists l', r'.
      by rewrite !list_lookup_insert_ne by lia. }
  exists tree'. rewrite length_insert in Hlen'. split_and!; [done|done|done|].
  intros k Hk. rewrite Hsame by lia. by rewrite list_lookup_insert_ne by lia.
Qed.

(** Every node is a truncated hash. *)
Abbreviation sized := (Forall (λ h, length h = MERKLE_HASH_SIZE)).

Lemma node_hash_length l r : length (node_hash l r) = MERKLE_HASH_SIZE.
Proof. unfold node_hash, hash_to_merkle. rewrite length_take, hash_bytes_length. done. Qed.

Lemma leaf_length (l : Hash) : length l = 32 → length (hash_to_merkle l) = MERKLE_HASH_SIZE.
Proof. intros Hl. unfold hash_to_merkle. by rewrite length_take, Hl. Qed.

Lemma fill_leaves_sized tree idx leaves :
  Forall (λ l, length l = 32) leaves → sized tree → sized (fill_leaves tree idx leaves).
Proof.
  intros Hl. revert tree idx. induction Hl as [|l leaves Hl _ IH]; intros tree idx Ht; cbn; [done|].
  case_decide; [|done]. apply IH, Forall_insert; [done|]. by apply leaf_length.
Qed.

Lemma build_loop_sized n tree tree' : build_loop n tree = Ret tree' → sized tree → sized tree'.
Proof.
  revert tree. induction n as [|n IH]; intros tree; cbn [build_loop]; [by intros [= <-]|].
  intros (l & _ & (r & _ & (? & _ & Hb)%run_bind_Ret)%run_bind_Ret)%run_bind_Ret Ht.
  eapply IH; [done|]. apply Forall_insert; [done|]. apply node_hash_length.
Qed.

(** A well-formed tree over some leaves. *)
Record tree_of_leaves (t : MerkleTree) (leaves : list Hash) : Prop := {
  ok_length : length (nodes t) = 2 * N.to_nat (tree_leaf_start_idx t) + 1;
  ok_nodes : hashes_children (nodes t) 0 (N.to_nat (tree_leaf_start_idx t));
  ok_leaves : ∀ k l, leaves !! k = Some l →
    nodes t !! (N.to_nat (tree_leaf_start_idx t) + k) = Some (hash_to_merkle l);
  ok_sized : Forall (λ l, length l = 32) leaves → sized (nodes t);
}.

Lemma new_with_depth_spec leaves depth :
  (1 ≤ depth ≤ 17)%N → (N.of_nat (length leaves) ≤ 2 ^ (depth - 1))%N →
  ∃ t, new_with_depth leaves depth = Ret t ∧ tree_of_leaves t leaves ∧
    tree_leaf_start_idx t = (2 ^ (depth - 1) - 1)%N.
Proof.
  intros Hd Hlen. unfold new_with_depth. rewrite decide_True by lia. cbn [expect mbind run_bind].
  set (n := (2 ^ (depth - 1))%N). fold n in Hlen.
  assert (Hn : (1 ≤ n ≤ 65536)%N).
  { unfold n. split; [assert (2 ^ 0 ≤ 2 ^ (depth - 1))%N by (apply N.pow_le_mono_r; lia); lia|].
    change 65536%N with (2 ^ 16)%N. apply N.pow_le_mono_r; lia. }
  rewrite (assert_true ((2 * n - 1) * 20 ≤ _)%N) by lia. cbn [mbind run_bind].
  replace (2 * n - 1 - n)%N with (n - 1)%N by lia.
  set (tree0 := replicate _ _). assert (Hl0 : length tree0 = 2 * N.to_nat (n - 1) + 1)
    by (unfold tree0; rewrite length_replicate; lia).
  set (tree1 := fill_leaves _ _ _).
  destruct (build_loop_spec (N.to_nat (n - 1)) (N.to_nat (n - 1)) tree1)
    as (tree & Hbuild & Hlen' & Hok & Hsame);
    [done|by unfold tree1; rewrite fill_leaves_length|intros i ?; lia|].
  rewrite Hbuild. cbn [mbind run_bind]. rewrite assert_true by (unfold u16_MAX; lia). cbn [mbind run_bind].
  eexists. split; [done|]. split; [|done]. split; cbn.
  - rewrite Hlen'. unfold tree1. by rewrite fill_leaves_length.
  - done.
  - intros k l Hk. rewrite Hsame by lia. unfold tree1. apply lookup_lt_Some in Hk as Hlt.
    rewrite fill_leaves_lookup by lia. rewrite decide_True by lia.
    replace (N.to_nat (n - 1) + k - N.to_nat (n - 1)) with k by lia. by rewrite Hk.
  - intros Hl. apply (build_loop_sized _ _ _ Hbuild), fill_leaves_sized; [done|].
    by apply Forall_replicate.
Qed.

Lemma MerkleTree_new_spec leaves :
  (N.of_nat (length leaves) ≤ MAX_NUM_LEAVES)%N →
  ∃ t, MerkleTree_new leaves = Ret t ∧ tree_of_leaves t leaves ∧
    (N.of_nat (length leaves) ≤ tree_leaf_start_idx t + 1)%N ∧
    ∃ d, d ≤ 14 ∧ tree_leaf_start_idx t = N.of_nat (2 ^ d - 1).
Proof.
  intros Hlen. unfold MerkleTree_new, depth_for. set (len := N.of_nat (length leaves)) in *.
  assert (Hup : (len ≤ 2 ^ N.log2_up len)%N).
  { destruct (decide (len = 0)%N) as [->|]; [cbn; lia|].
    destruct (decide (len = 1)%N) as [->|]; [cbn; lia|]. apply N.log2_up_spec; lia. }
  assert (Hle : (N.log2_up len ≤ 14)%N).
  { change 14%N with (N.log2_up (2 ^ 14)). apply N.log2_up_le_mono. exact Hlen. }
  destruct (new_with_depth_spec leaves (N.log2_up len + 1)) as (t & -> & Ht & Hs).
  - lia.
  - replace (N.log2_up len + 1 - 1)%N with (N.log2_up len) by lia. exact Hup.
  - exists t. rewrite Hs, N.add_sub.
    assert (Hpow : (2 ^ N.log2_up len)%N = N.of_nat (2 ^ N.to_nat (N.log2_up len))).
    { rewrite Nat2N.inj_pow. by rewrite N2Nat.id. }
    split_and!; [done|done|lia|]. exists (N.to_nat (N.log2_up len)). split; lia.
Qed.

(** ** Proofs *)

Lemma in_tree_cons (tree l : list MerkleHash) i h : tree !! i = Some h → l ⊆ tree → h :: l ⊆ tree.
Proof. intros Hh%list_elem_of_lookup_2 Hl x [->|Hx]%elem_of_cons; auto. Qed.

(** The siblings collected from an index recompute the root. *)
Lemma proof_loop_spec tree start idx :
  length tree = 2 * start + 1 → hashes_children tree 0 start → idx < length tree →
  ∀ fuel acc, idx < fuel →
  ∃ l h r, proof_loop fuel tree idx acc = Ret (acc ++ l) ∧
    tree !! idx = Some h ∧ tree !! 0 = Some r ∧ root_loop h (Some idx) l = Some r ∧
    l ⊆ tree ∧ 2 ^ length l ≤ S idx < 2 ^ S (length l).
Proof.
  intros Hlen Hok. induction (lt_wf idx) as [idx _ IH]. intros Hidx fuel acc Hfuel.
  destruct fuel as [|fuel]; [lia|]. cbn [proof_loop].
  destruct (index_cases idx) as [->|(p & Hp & Hside)].
  { destruct (lookup_lt_is_Some_2 tree 0 Hidx) as [r Hr]. exists [], r, r.
    cbn. rewrite app_nil_r. split_and!; [done..| |lia|lia]. set_solver. }
  destruct (Hok p) as (hl & hr & Hhl & Hhr & Hhp); [lia|].
  assert (Hfp : p < fuel) by lia. assert (Hpl : p < length tree) by lia.
  assert (Hgo : ∀ s acc', ∃ l h r, proof_loop fuel tree p (acc' ++ [s]) = Ret ((acc' ++ [s]) ++ l) ∧
    tree !! p = Some h ∧ tree !! 0 = Some r ∧ root_loop h (Some p) l = Some r ∧
    l ⊆ tree ∧ 2 ^ length l ≤ S p < 2 ^ S (length l)) by (intros; by apply IH).
  destruct Hside as [[-> Hm]|[-> Hm]].
  - rewrite sibling_left, parent_left, Hhr. cbn [expect mbind run_bind].
    destruct (Hgo hr acc) as (l & h & r & -> & Hh & Hr & Hroot & Hsub & Hlev). exists (hr :: l), hl, r.
    rewrite <- app_assoc. cbn [length]. rewrite !Nat.pow_succ_r' in *.
    split_and!; [done..| | |lia|lia]; [|by apply in_tree_cons with (2 * p + 2)].
    cbn [root_loop mbind option_bind].
    rewrite decide_True by done. rewrite parent_left. congruence.
  - rewrite sibling_right, parent_right, Hhl. cbn [expect mbind run_bind].
    destruct (Hgo hl acc) as (l & h & r & -> & Hh & Hr & Hroot & Hsub & Hlev). exists (hl :: l), hr, r.
    rewrite <- app_assoc. cbn [length]. rewrite !Nat.pow_succ_r' in *.
    split_and!; [done..| | |lia|lia]; [|by apply in_tree_cons with (2 * p + 1)].
    cbn [root_loop mbind option_bind].
    rewrite decide_False by lia. rewrite parent_right. congruence.
Qed.

(** Two different inputs with the same truncated hash. *)
Definition collision : Prop :=
  ∃ a b : list N, a ≠ b ∧ hash_to_merkle (hash_bytes a) = hash_to_merkle (hash_bytes b).

Lemma node_hash_inj l1 r1 l2 r2 :
  length l1 = length l2 → node_hash l1 r1 = node_hash l2 r2 → l1 = l2 ∧ r1 = r2 ∨ collision.
Proof.
  intros Hlen Heq. destruct (decide (l1 ++ r1 = l2 ++ r2)) as [Happ|Hne].
  - left. by apply app_inj_1 in Happ.
  - right. by exists (l1 ++ r1), (l2 ++ r2).
Qed.

Lemma root_loop_inj l1 l2 h1 h2 i r :
  length l1 = length l2 → length h1 = MERKLE_HASH_SIZE → length h2 = MERKLE_HASH_SIZE →
  Forall (λ s, length s = MERKLE_HASH_SIZE) l1 → Forall (λ s, length s = MERKLE_HASH_SIZE) l2 →
  root_loop h1 i l1 = Some r → root_loop h2 i l2 = Some r → h1 = h2 ∧ l1 = l2 ∨ collision.
Proof.
  revert l2 h1 h2 i. induction l1 as [|s1 l1 IH]; intros [|s2 l2] h1 h2 i; try done.
  { cbn. intros. left. by simplify_eq. }
  cbn [length]. intros [= Hlen] Hh1 Hh2 [Hs1 Hl1]%Forall_cons [Hs2 Hl2]%Forall_cons.
  destruct i as [i|]; cbn [root_loop mbind option_bind]; [|done].
  case_decide; intros Hr1 Hr2;
    (destruct (IH _ _ _ _ Hlen (node_hash_length _ _) (node_hash_length _ _) Hl1 Hl2 Hr1 Hr2)
       as [[Hn ->]|?]; [|by right]);
    (apply node_hash_inj in Hn as [[-> ->]|?]; [by left|by right|lia]).
Qed.

Lemma pow2_level a b : 2 ^ a ≤ 2 ^ b → 2 ^ b < 2 ^ S a → a = b.
Proof.
  intros Hab Hba. apply Nat.pow_le_mono_r_iff in Hab; [|lia].
  apply Nat.pow_lt_mono_r_iff in Hba; [|lia]. lia.
Qed.

Lemma new_from_leaf_idx_level sibs d k :
  length sibs = d → d ≤ 14 → k < 2 ^ d →
  new_from_leaf_idx sibs (N.of_nat k) =
    Some {| tree_leaf_idx := N.of_nat (2 ^ d - 1 + k); siblings := sibs |}.
Proof.
  intros Hlen Hd Hk. unfold new_from_leaf_idx. rewrite Hlen, decide_False by (unfold MAX_DEPTH; lia).
  assert (Hpow : (2 ^ N.of_nat d)%N = N.of_nat (2 ^ d)) by by rewrite Nat2N.inj_pow.
  assert (Hup : 2 ^ d ≤ 2 ^ 14) by (apply Nat.pow_le_mono_r; lia).
  assert (Hlo : 2 ^ 0 ≤ 2 ^ d) by (apply Nat.pow_le_mono_r; lia).
  change (2 ^ 14) with (N.to_nat 16384) in Hup. cbn [Nat.pow] in Hlo.
  unfold u16_checked_pow2. rewrite Hpow. unfold u16_MAX.
  rewrite decide_True by lia. cbn [mbind option_bind].
  rewrite decide_True by lia. cbn [mbind option_bind].
  rewrite decide_True by lia. cbn [mbind option_bind].
  rewrite decide_False by lia. do 2 f_equal. lia.
Qed.

(** A proof a tree hands out: positions, siblings, root. *)
Lemma proof_spec t leaves d k l :
  tree_of_leaves t leaves → d ≤ 14 → tree_leaf_start_idx t = N.of_nat (2 ^ d - 1) →
  k < 2 ^ d → leaves !! k = Some l →
  ∃ π r, proof t (N.of_nat k) = Ret π ∧ merkle_root t = Ret r ∧ compute_root π l = Some r ∧
    reverse (siblings π) ⊆ nodes t ∧ length (siblings π) = d ∧
    tree_leaf_idx π = N.of_nat (2 ^ d - 1 + k).
Proof.
  intros [Hlen Hok Hleaf _] Hd Hs Hk Hl. rewrite Hs, Nat2N.id in *.
  assert (Hup : 2 ^ d ≤ 2 ^ 14) by (apply Nat.pow_le_mono_r; lia).
  change (2 ^ 14) with (N.to_nat 16384) in Hup.
  unfold proof. rewrite Hs, <- Nat2N.inj_add, N.mod_small by (unfold u16_MAX; lia).
  rewrite Nat2N.id.
  destruct (proof_loop_spec (nodes t) (2 ^ d - 1) (2 ^ d - 1 + k)) with
    (fuel := S (2 ^ d - 1 + k)) (acc := @nil MerkleHash)
    as (sibs & h & r & -> & Hh & Hr & Hroot & Hsub & Hlo & Hhi); [done|done|lia|lia|].
  eexists _, r. cbn [mbind run_bind]. split; [done|]. unfold merkle_root, compute_root. cbn [siblings tree_leaf_idx app].
  rewrite Hr, reverse_involutive, Nat2N.id. split_and!; [done| |done| |done].
  - rewrite (Hleaf k l Hl) in Hh. injection Hh as <-. exact Hroot.
  - rewrite length_reverse. apply pow2_level; [|cbn [Nat.pow] in *; lia].
    rewrite Nat.pow_succ_r' in Hhi.
    destruct (decide (length sibs ≤ d)); [by apply Nat.pow_le_mono_r|].
    assert (2 ^ S d ≤ 2 ^ length sibs) by (apply Nat.pow_le_mono_r; lia).
    rewrite Nat.pow_succ_r' in *. lia.
Qed.

End merkle.

(** ** An example: three leaves in a tree of depth 3 *)

Program Definition prefix_hasher : ByteHasher := {|
  hash_bytes b := take 32 (N.of_nat (length b) :: b ++ replicate 32 0%N) |}.
Next Obligation.
  intros b. cbn [length]. change (length (take 32 (N.of_nat (length b) :: b ++ replicate 32 0%N)) = 32).
  rewrite length_take. cbn [length]. rewrite length_app, length_replicate. lia.
Qed.

#[local] Existing Instance prefix_hasher.
Definition example_leaves : list Hash := [replicate 32 1%N; replicate 32 2%N; replicate 32 3%N].

