(* ===== verification/ReplayFilter.v ===== *)
(** * The replay filter of a session ([src/wireauth/src/session/replay_filter.rs])

    A sliding window of 8192 counters kept as a bitmap of 128 words, indexed by the
    counter modulo the window.  The filter is compared with a reference that keeps
    the set of all counters received. *)
From S2P Require Import Prelude Types.

(** The two errors of [SessionError] the filter returns. *)
Inductive NonceError :=
  | NonceOutsideWindow (counter next : N)
  | NonceDuplicate (counter : N).

Definition REPLAY_WINDOW_SIZE : N := 128.
Definition REPLAY_WINDOW_BITS : N := REPLAY_WINDOW_SIZE * 64.

Record ReplayFilter := { next : N; bitmap : list N }.

Definition ReplayFilter_new : ReplayFilter := {|
  next := 0;
  bitmap := replicate (N.to_nat REPLAY_WINDOW_SIZE) 0%N |}.

(** The position of a counter's bit. *)
Definition bit_idx (counter : N) : N := counter `mod` REPLAY_WINDOW_BITS.
Definition word (counter : N) : nat := N.to_nat (bit_idx counter / 64).
Definition bit (counter : N) : N := bit_idx counter `mod` 64.

(** The bitmap is an array of [REPLAY_WINDOW_SIZE] words and [word] is below that:
    the index is never out of range. *)
Definition bitmap_word (self : ReplayFilter) (counter : N) : N :=
  default 0%N (bitmap self !! word counter).

Definition is_set (self : ReplayFilter) (counter : N) : bool :=
  bool_decide (N.land (N.shiftr (bitmap_word self counter) (bit counter)) 1 = 1%N).

Definition set (self : ReplayFilter) (counter : N) : ReplayFilter :=
  {| next := next self;
     bitmap := <[word counter :=
       N.lor (bitmap_word self counter) (N.shiftl 1 (bit counter))]> (bitmap self) |}.

Definition clear (self : ReplayFilter) (counter : N) : ReplayFilter :=
  {| next := next self;
     bitmap := <[word counter :=
       N.land (bitmap_word self counter) (N.lnot (N.shiftl 1 (bit counter)) 64)]> (bitmap self) |}.

Definition check (self : ReplayFilter) (counter : N) : result () NonceError :=
  if decide (next self ≤ counter)%N then Ok ()
  else if decide (u64_saturating_add counter REPLAY_WINDOW_BITS ≤ next self)%N
  then Err (NonceOutsideWindow counter (next self))
  else if is_set self counter then Err (NonceDuplicate counter)
  else Ok ().

(** [(next..counter).for_each(|i| self.clear(i))]: [n] counters from [i]. *)
Fixpoint clear_range (self : ReplayFilter) (i : N) (n : nat) : ReplayFilter :=
  match n with
  | 0 => self
  | S n => clear_range (clear self i) (i + 1) n
  end.

Definition update (self : ReplayFilter) (counter : N) : ReplayFilter :=
  let self :=
    if decide (next self ≤ counter)%N then
      let gap := (counter - next self)%N in
      let cleared :=
        if decide (REPLAY_WINDOW_BITS ≤ gap)%N
        then {| next := next self; bitmap := replicate (N.to_nat REPLAY_WINDOW_SIZE) 0%N |}
        else clear_range self (next self) (N.to_nat gap) in
      {| next := u64_saturating_add counter 1; bitmap := bitmap cleared |}
    else self in
  set self counter.

(** How a session uses the filter: [check], then [update] when the packet is
    accepted ([TransportState::decrypt]). *)
Definition receive (self : ReplayFilter) (counter : N) : result () NonceError * ReplayFilter :=
  match check self counter with
  | Ok _ => (Ok (), update self counter)
  | Err e => (Err e, self)
  end.

Fixpoint receive_all (self : ReplayFilter) (counters : list N) : list (result () NonceError) * ReplayFilter :=
  match counters with
  | [] => ([], self)
  | c :: counters =>
      let '(r, self) := receive self c in
      let '(rs, self) := receive_all self counters in
      (r :: rs, self)
  end.

(** ** The reference: all the counters received *)

(** One past the largest counter received. *)
Definition top (seen : list N) : N := foldr (λ c m, N.max m (c + 1)) 0%N seen.

Definition ref_check (seen : list N) (counter : N) : result () NonceError :=
  if decide (counter < top seen ∧ u64_saturating_add counter REPLAY_WINDOW_BITS ≤ top seen)%N
  then Err (NonceOutsideWindow counter (top seen))
  else if decide (counter ∈ seen) then Err (NonceDuplicate counter)
  else Ok ().

Fixpoint ref_receive_all (seen : list N) (counters : list N) : list (result () NonceError) * list N :=
  match counters with
  | [] => ([], seen)
  | c :: counters =>
      let r := ref_check seen c in
      let '(rs, seen') :=
        ref_receive_all (match r with Ok _ => c :: seen | Err _ => seen end) counters in
      (r :: rs, seen')
  end.

(** ** Bits *)

Definition bits_ok (f : ReplayFilter) : Prop := length (bitmap f) = N.to_nat REPLAY_WINDOW_SIZE.

Lemma word_bound c : word c < N.to_nat REPLAY_WINDOW_SIZE.
Proof.
  unfold word, bit_idx. assert (c `mod` REPLAY_WINDOW_BITS / 64 < REPLAY_WINDOW_SIZE)%N; [|lia].
  apply N.Div0.div_lt_upper_bound, N.mod_lt; done.
Qed.

(** A counter's bit is the pair of its word and its position in it. *)
Lemma bit_idx_eq c c' : bit_idx c = bit_idx c' ↔ word c = word c' ∧ bit c = bit c'.
Proof.
  unfold word, bit. split; [by intros ->|]. intros [Hw Hb].
  rewrite (N.div_mod' (bit_idx c) 64), (N.div_mod' (bit_idx c') 64), Hb. f_equal. f_equal. lia.
Qed.

Lemma land_1 n : N.land n 1 = N.b2n (N.testbit n 0).
Proof. change 1%N with (N.ones 1) at 1. by rewrite N.land_ones, <- N.bit0_mod. Qed.

Lemma is_set_testbit f c : is_set f c = N.testbit (bitmap_word f c) (bit c).
Proof.
  unfold is_set. case_bool_decide as Hb; rewrite land_1, N.shiftr_spec' in Hb;
    change (0 + bit c)%N with (bit c) in Hb; by destruct (N.testbit _ _).
Qed.

Lemma bit_lt c : (bit c < 64)%N.
Proof. by apply N.mod_lt. Qed.

(** Replacing the word of [c] by one in which only the bit of [c] may change. *)
Lemma is_set_insert f c w (b : bool) c' :
  bits_ok f → (∀ n, (n < 64)%N → N.testbit w n = if decide (n = bit c) then b else N.testbit (bitmap_word f c) n) →
  is_set {| next := next f; bitmap := <[word c := w]> (bitmap f) |} c' =
    if decide (bit_idx c' = bit_idx c) then b else is_set f c'.
Proof.
  intros Hok Hw. rewrite !is_set_testbit. unfold bitmap_word at 1. cbn [bitmap].
  destruct (decide (word c' = word c)) as [Hword|Hword].
  - rewrite Hword, list_lookup_insert_eq by (rewrite Hok; apply word_bound). cbn [default from_option].
    rewrite Hw by apply bit_lt. unfold bitmap_word. rewrite Hword.
    destruct (decide (bit c' = bit c)); case_decide as Hidx; rewrite bit_idx_eq in Hidx; naive_solver.
  - rewrite list_lookup_insert_ne by done.
    rewrite decide_False; [done|]. rewrite bit_idx_eq. naive_solver.
Qed.

Lemma is_set_set f c c' : bits_ok f →
  is_set (set f c) c' = if decide (bit_idx c' = bit_idx c) then true else is_set f c'.
Proof.
  intros Hok. apply is_set_insert; [done|]. intros n Hn.
  rewrite N.lor_spec, N.shiftl_1_l, N.pow2_bits_eqb.
  destruct (N.eqb_spec (bit c) n); case_decide; subst; try done; by rewrite ?orb_true_r, ?orb_false_r.
Qed.

Lemma is_set_clear f c c' : bits_ok f →
  is_set (clear f c) c' = if decide (bit_idx c' = bit_idx c) then false else is_set f c'.
Proof.
  intros Hok. apply is_set_insert; [done|]. intros n Hn.
  rewrite N.land_spec, N.lnot_spec_low, N.shiftl_1_l, N.pow2_bits_eqb by done.
  destruct (N.eqb_spec (bit c) n); case_decide; subst; try done; by rewrite ?andb_true_r, ?andb_false_r.
Qed.

Lemma bits_ok_set f c : bits_ok f → bits_ok (set f c).
Proof. unfold bits_ok. cbn. by rewrite length_insert. Qed.

Lemma clear_range_spec f i n : bits_ok f →
  bits_ok (clear_range f i n) ∧ next (clear_range f i n) = next f ∧
  ∀ c, is_set (clear_range f i n) c = true ↔
    is_set f c = true ∧ ∀ j, (i ≤ j < i + N.of_nat n)%N → bit_idx c ≠ bit_idx j.
Proof.
  revert f i. induction n as [|n IH]; intros f i Hok; cbn [clear_range].
  { split_and!; [done..|]. intros c. split; [|by intros []]. intros ?. split; [done|lia]. }
  destruct (IH (clear f i) (i + 1)%N) as (Hok' & Hnext & Hset).
  { unfold bits_ok. cbn. by rewrite length_insert. }
  split_and!; [done..|]. intros c. rewrite Hset, is_set_clear by done. split.
  - intros [Hc Hj]. case_decide; [done|]. split; [done|]. intros j Hlt.
    destruct (decide (j = i)) as [->|]; [done|]. apply Hj. lia.
  - intros [Hc Hj]. rewrite decide_False by (apply Hj; lia). split; [done|]. intros j ?. apply Hj. lia.
Qed.

(** ** The window *)

(** Two counters of one window with the same bit are equal. *)
Lemma bit_idx_window c c' n :
  bit_idx c = bit_idx c' → (c < n)%N → (c' < n)%N →
  (n ≤ c + REPLAY_WINDOW_BITS)%N → (n ≤ c' + REPLAY_WINDOW_BITS)%N → c = c'.
Proof.
  unfold bit_idx. intros Heq Hc Hc' Hw Hw'.
  pose proof (N.div_mod' c REPLAY_WINDOW_BITS). pose proof (N.div_mod' c' REPLAY_WINDOW_BITS).
  rewrite Heq in *. unfold REPLAY_WINDOW_BITS, REPLAY_WINDOW_SIZE in *. cbn [N.mul] in *.
  assert ((c / (128 * 64)) = (c' / (128 * 64)))%N by lia. lia.
Qed.

(** The filter has received [seen]: [next] is one past its largest counter, and
    the bits of the window's counters say which ones it has. *)
Record tracks (f : ReplayFilter) (seen : list N) : Prop := {
  tr_bits : bits_ok f;
  tr_next : next f = top seen;
  tr_seen c : c ∈ seen → (c < top seen)%N;
  tr_set c : (c < top seen)%N → (top seen ≤ c + REPLAY_WINDOW_BITS)%N →
    is_set f c = true ↔ c ∈ seen;
}.

Lemma tracks_new : tracks ReplayFilter_new [].
Proof. split; [done|done| |]; intros c; [by intros ?%elem_of_nil|cbn; lia]. Qed.

Lemma check_ref f seen c : tracks f seen → check f c = ref_check seen c.
Proof.
  intros [Hbits Hnext Hseen Hset]. unfold check, ref_check. rewrite Hnext.
  destruct (decide (top seen ≤ c)%N) as [Hge|Hlt].
  - rewrite decide_False by lia. rewrite decide_False; [done|]. intros ?%Hseen. lia.
  - destruct (decide (_ ≤ top seen)%N) as [Hout|Hin]; [by rewrite decide_True by lia|].
    rewrite (decide_False (P := (_ ∧ _)%type)) by lia. unfold u64_saturating_add in Hin.
    specialize (Hset c ltac:(lia) ltac:(lia)).
    destruct (is_set f c); case_decide; naive_solver.
Qed.

(** The bits left after skipping from [next] to [c]. *)
Lemma skip_spec f c g :
  bits_ok f → (next f ≤ c)%N →
  g = (if decide (REPLAY_WINDOW_BITS ≤ c - next f)%N
       then {| next := next f; bitmap := replicate (N.to_nat REPLAY_WINDOW_SIZE) 0%N |}
       else clear_range f (next f) (N.to_nat (c - next f))) →
  bits_ok g ∧ ∀ c', is_set g c' = true ↔ is_set f c' = true ∧ (c < next f + REPLAY_WINDOW_BITS)%N ∧
    ∀ j, (next f ≤ j < c)%N → bit_idx c' ≠ bit_idx j.
Proof.
  intros Hok Hle ->. case_decide as Hgap.
  - split; [done|]. intros c'. split; [|lia]. rewrite is_set_testbit. unfold bitmap_word. cbn [bitmap].
    destruct (replicate _ _ !! _) as [w|] eqn:Hw; [|done]. by apply lookup_replicate in Hw as [-> _].
  - destruct (clear_range_spec f (next f) (N.to_nat (c - next f)) Hok) as (Hg & _ & Hset).
    split; [done|]. intros c'. rewrite Hset, N2Nat.id.
    replace (next f + (c - next f))%N with c by lia. split; [|naive_solver].
    intros [? ?]. split_and!; [done|lia|done].
Qed.

Lemma update_tracks f seen c :
  tracks f seen → (c < u64_MAX)%N → check f c = Ok () → tracks (update f c) (c :: seen).
Proof.
  intros Ht Hc Hcheck. rewrite (check_ref _ _ _ Ht) in Hcheck. destruct Ht as [Hbits Hnext Hseen Hset].
  unfold ref_check in Hcheck. case_decide as Hwin; [done|]. case_decide as Hfresh; [done|]. clear Hcheck.
  unfold update. cbn [top foldr]. fold (top seen).
  destruct (decide (next f ≤ c)%N) as [Hge|Hlt].
  - destruct (skip_spec f c _ Hbits Hge eq_refl) as [Hg Hbit].
    set (g := if decide _ then _ else _) in *. clearbody g. rewrite Hnext in *.
    split; cbn [top foldr]; fold (top seen).
    + by apply bits_ok_set.
    + cbn. unfold u64_saturating_add. lia.
    + intros c' [->|?%Hseen]%elem_of_cons; lia.
    + intros c' Hlt' Hw'. rewrite is_set_set by done.
      change (is_set {| next := _; bitmap := bitmap g |} c') with (is_set g c').
      case_decide as Hidx.
      { assert (c' = c) as -> by (apply (bit_idx_window _ _ (c + 1)); lia). set_solver. }
      assert (c' ≠ c) by congruence. rewrite Hbit. split.
      * intros (Hf & _ & Hj). apply elem_of_cons. right.
        destruct (decide (c' < top seen)%N); [apply Hset; [done|lia|done]|].
        destruct (Hj c'); [lia|done].
      * intros [->|Hin]%elem_of_cons; [done|]. apply Hseen in Hin as Hlt. split_and!; [|lia|].
        -- apply Hset; [done|lia|done].
        -- intros j Hj Heq. assert (c' = j) by (apply (bit_idx_window _ _ (c + 1)); [done|lia..]). lia.
  - rewrite Hnext in *. unfold u64_saturating_add in Hwin.
    assert (Hw : (top seen ≤ c + REPLAY_WINDOW_BITS)%N) by lia.
    split; cbn [top foldr]; fold (top seen).
    + by apply bits_ok_set.
    + cbn. lia.
    + intros c' [->|?%Hseen]%elem_of_cons; lia.
    + rewrite N.max_l by lia. intros c' Hlt' Hw'. rewrite is_set_set by done.
      case_decide as Hidx.
      { assert (c' = c) as -> by (apply (bit_idx_window _ _ (top seen)); [done|lia..]). set_solver. }
      assert (c' ≠ c) by congruence. rewrite Hset by done. set_solver.
Qed.

Lemma receive_all_ref f seen cs :
  tracks f seen → Forall (λ c, (c < u64_MAX)%N) cs →
  (receive_all f cs).1 = (ref_receive_all seen cs).1 ∧
  tracks (receive_all f cs).2 (ref_receive_all seen cs).2.
Proof.
  intros Ht Hcs. revert f seen Ht. induction Hcs as [|c cs Hc _ IH]; intros f seen Ht; [done|].
  cbn [receive_all ref_receive_all]. unfold receive. rewrite <- (check_ref _ _ c Ht).
  destruct (check f c) as [[]|e] eqn:Hcheck.
  - specialize (IH _ _ (update_tracks _ _ _ Ht Hc Hcheck)) as [IH1 IH2].
    destruct (receive_all _ _), (ref_receive_all _ _). cbn in *. by subst.
  - specialize (IH _ _ Ht) as [IH1 IH2].
    destruct (receive_all _ _), (ref_receive_all _ _). cbn in *. by subst.
Qed.

(** The counters a run accepts. *)
Definition accepted (cs : list N) (rs : list (result () NonceError)) : list N :=
  omap (λ '(c, r), match r with Ok _ => Some c | Err _ => None end) (zip cs rs).

Lemma ref_seen cs seen :
  NoDup seen →
  (ref_receive_all seen cs).2 = reverse (accepted cs (ref_receive_all seen cs).1) ++ seen ∧
  NoDup (ref_receive_all seen cs).2.
Proof.
  revert seen. induction cs as [|c cs IH]; intros seen Hnd; [done|]. cbn [ref_receive_all].
  destruct (ref_check seen c) as [[]|e] eqn:Hcheck.
  - assert (Hc : c ∉ seen) by (unfold ref_check in Hcheck; repeat case_decide; done).
    specialize (IH (c :: seen)) as [IH1 IH2]; [by constructor|].
    destruct (ref_receive_all _ _) as [rs seen']. cbn [fst snd] in *. split; [|done]. rewrite IH1.
    change (accepted (c :: cs) (Ok () :: rs)) with (c :: accepted cs rs).
    by rewrite reverse_cons, <- app_assoc.
  - specialize (IH seen Hnd) as [IH1 IH2].
    destruct (ref_receive_all _ _) as [rs seen']. cbn in *. by split.
Qed.

(** C28: The replay filter is equivalent to a filter that remembers every counter:
    on any sequence of counters below [u64::MAX] it returns, one by one, the same
    results as the reference, errors included.  In particular it accepts no counter
    twice, and rejects a counter never accepted only when the counter is outside the
    window below the largest one accepted. *)
Theorem replay_filter_equivalent (cs : list N) :
  Forall (λ c, (c < u64_MAX)%N) cs →
  (receive_all ReplayFilter_new cs).1 = (ref_receive_all [] cs).1 ∧
  NoDup (accepted cs (receive_all ReplayFilter_new cs).1).
Proof.
  intros Hcs. destruct (receive_all_ref ReplayFilter_new [] cs tracks_new Hcs) as [Heq _].
  split; [done|]. rewrite Heq. destruct (ref_seen cs []) as [Hs Hnd]; [constructor|].
  rewrite Hs, app_nil_r in Hnd. by rewrite <- reverse_Permutation.
Qed.

Definition example_counters : list N := [0; 5; 3; 5; 9000; 3; 900; 808; 8999]%N.

Lemma replay_filter_equivalent_witness :
  Forall (λ c, (c < u64_MAX)%N) example_counters ∧
  accepted example_counters (receive_all ReplayFilter_new example_counters).1 = [0; 5; 3; 9000; 900; 8999]%N ∧
  NoDup (accepted example_counters (receive_all ReplayFilter_new example_counters).1).
Proof.
  assert (Hall : Forall (λ c, (c < u64_MAX)%N) example_counters) by (repeat constructor).
  split; [done|]. split; [vm_compute; reflexivity|].
  apply (replay_filter_equivalent example_counters Hall).
Defined.

(** The largest counter is the exception: [next] saturates, so [u64::MAX] stays at
    or above it and is accepted again. *)
Example max_counter_replayed :
  accepted [u64_MAX; u64_MAX] (receive_all ReplayFilter_new [u64_MAX; u64_MAX]).1 =
    [u64_MAX; u64_MAX].
Proof. vm_compute. reflexivity. Qed.
