(* ===== verification/BaseFee.v ===== *)
(** * The base fee update rule ([src/tfm/src/base_fee.rs], [arithmetic.rs])

    [u64] values are [N], signed ones [Z]; the checked operations of
    [arithmetic.rs] panic out of range.  The signed 256-bit integers are the class
    [I256Ops], known only to be exact while results fit.  Theorem: on the documented
    input ranges the update never panics, stays in range and moves the fee in the
    direction of demand by a bounded step. *)
From S2P Require Import Prelude Types.

Local Open Scope Z_scope.

Definition i64_MAX : Z := 9223372036854775807.
Definition i64_MIN : Z := -9223372036854775808.
Definition u128_MAX : N := 340282366920938463463374607431768211455.
Definition i256_MAX : Z := 2 ^ 255 - 1.

Definition GENESIS_BASE_FEE : N := 0.
Definition GENESIS_BASE_FEE_TREND : N := 0.
Definition GENESIS_BASE_FEE_MOMENT : N := 0.
Definition MIN_BASE_FEE : N := 100000000000.
Definition MAX_BASE_FEE : N := 100000000000000000.

(** ** Checked arithmetic ([CheckedU64], [CheckedI64]) *)

Definition in_u64 (n : N) : run N := if decide (n ≤ u64_MAX)%N then Ret n else Panic.
Definition in_i64 (z : Z) : run Z := if decide (i64_MIN ≤ z ≤ i64_MAX) then Ret z else Panic.

Definition to_checked_i64 (n : N) : run Z := in_i64 (Z.of_N n).
Definition saturating_to_checked_u64 (z : Z) : N := Z.to_N (Z.max z 0).

Definition CheckedU64_add (a b : N) : run N := in_u64 (a + b).
Definition CheckedU64_sub (a b : N) : run N := if decide (b ≤ a)%N then Ret (a - b)%N else Panic.
Definition CheckedU64_mul (a b : N) : run N := in_u64 (a * b).
Definition CheckedU64_div (a b : N) : run N := if decide (b = 0)%N then Panic else Ret (a / b)%N.
Definition CheckedU64_isqrt (a : N) : N := N.sqrt a.

Definition CheckedI64_neg (a : Z) : run Z := in_i64 (- a).
Definition CheckedI64_add (a b : Z) : run Z := in_i64 (a + b).
Definition CheckedI64_sub (a b : Z) : run Z := in_i64 (a - b).
Definition CheckedI64_mul (a b : Z) : run Z := in_i64 (a * b).
Definition CheckedI64_div (a b : Z) : run Z := if decide (b = 0) then Panic else in_i64 (a ÷ b).

(** [u64::cast_signed] and [i64::cast_unsigned]: the same bits. *)
Definition cast_signed (n : N) : Z :=
  if decide (Z.of_N n ≤ i64_MAX) then Z.of_N n else Z.of_N n - 2 ^ 64.
Definition cast_unsigned (z : Z) : N := Z.to_N (z `mod` 2 ^ 64).

(** The operators of [alloy]'s [I256] used, exact while the result fits. *)
Class I256Ops := {
  i256_add : Z → Z → run Z;
  i256_mul : Z → Z → run Z;
  i256_checked_div : Z → Z → option Z;
  i256_as_u64 : Z → run N;
  i256_add_exact a b : Z.abs (a + b) ≤ i256_MAX → i256_add a b = Ret (a + b);
  i256_mul_exact a b : Z.abs (a * b) ≤ i256_MAX → i256_mul a b = Ret (a * b);
  i256_div_exact a b : Z.abs a ≤ i256_MAX → 0 < b → i256_checked_div a b = Some (a ÷ b);
  i256_as_u64_exact z : 0 ≤ z ≤ Z.of_N u64_MAX → i256_as_u64 z = Ret (Z.to_N z);
}.

Section base_fee.
Context `{!I256Ops, !U256Ops}.

(** [I256::try_from] a [U256]. *)
Definition i256_try_from (n : N) : option Z :=
  if decide (Z.of_N n ≤ i256_MAX) then Some (Z.of_N n) else None.

(** The loop of [fake_exponential]; out of fuel is a panic. *)
Fixpoint exponential_loop (fuel : nat) (numerator : Z) (denominator : N)
    (i : N) (output numerator_accum : Z) : run Z :=
  if decide (numerator_accum = 0) then Ret output
  else match fuel with
  | 0%nat => Panic
  | S fuel =>
      output ← i256_add output numerator_accum;
      product ← i256_mul numerator_accum numerator;
      divisor ← expect (i256_try_from (u256_mul denominator i));
      numerator_accum ← expect (i256_checked_div product divisor);
      exponential_loop fuel numerator denominator (u256_add i 1) output numerator_accum
  end.

Definition exponential_fuel : nat := 128.

Definition fake_exponential (factor : N) (numerator : Z) (denominator : N) : run N :=
  assert (denominator ≠ 0%N) ≫= λ _,
  assert (Z.abs numerator ≤ Z.of_N denominator) ≫= λ _,
  assert (factor ≤ MAX_BASE_FEE)%N ≫= λ _,
  numerator_accum ← expect (i256_try_from (u256_mul factor denominator));
  output ← exponential_loop exponential_fuel numerator denominator 1 0 numerator_accum;
  divisor ← expect (i256_try_from denominator);
  quotient ← expect (i256_checked_div output divisor);
  i256_as_u64 quotient.

Definition MAX_STEP_SIZE_DENOM : N := 28.
Definition BETA : N := 96.

Definition clamp (x lo hi : N) : N := if decide (x < lo)%N then lo else if decide (hi < x)%N then hi else x.

Definition in_u128 (n : N) : run N := if decide (n ≤ u128_MAX)%N then Ret n else Panic.

(** [base_fee], the first half of [compute_base_fee_math]; returns [parent_delta] too. *)
Definition compute_fee (block_gas_limit parent_gas_usage parent_base_fee : N) (parent_trend : Z)
    (parent_moment : N) : run (N * Z) :=
  scaled ← CheckedU64_mul block_gas_limit 8;
  block_gas_target ← CheckedU64_div scaled 10;
  usage ← to_checked_i64 parent_gas_usage;
  target ← to_checked_i64 block_gas_target;
  parent_delta ← CheckedI64_sub usage target;
  numerator ← CheckedI64_mul target parent_delta;
  moment ← to_checked_i64 parent_moment;
  trend_sqr ← CheckedI64_mul parent_trend parent_trend;
  variance ← CheckedI64_sub moment trend_sqr;
  let sqrt_inner := saturating_to_checked_u64 variance in
  let sqrt_term := CheckedU64_isqrt sqrt_inner in
  sum ← CheckedU64_add block_gas_target sqrt_term;
  scaled_sum ← CheckedU64_mul MAX_STEP_SIZE_DENOM sum;
  headroom ← CheckedU64_sub block_gas_limit block_gas_target;
  denominator ← CheckedU64_mul scaled_sum headroom;
  fee ← fake_exponential parent_base_fee numerator denominator;
  Ret (clamp fee MIN_BASE_FEE MAX_BASE_FEE, parent_delta).

Definition compute_trend (parent_trend parent_delta : Z) : run Z :=
  beta ← to_checked_i64 BETA;
  decay ← CheckedI64_mul beta parent_trend;
  complement ← CheckedI64_sub 100 beta;
  negated ← CheckedI64_neg parent_delta;
  contrib ← CheckedI64_mul complement negated;
  sum ← CheckedI64_add decay contrib;
  CheckedI64_div sum 100.

Definition compute_moment (parent_moment : N) (parent_delta : Z) : run N :=
  moment_decay ← in_u128 (BETA * parent_moment);
  parent_delta_sqr ← in_u128 (Z.to_N (parent_delta * parent_delta));
  current_contrib ← in_u128 ((100 - BETA) * parent_delta_sqr);
  sum ← in_u128 (moment_decay + current_contrib);
  in_u64 (sum / 100).

Definition compute_base_fee_math (block_gas_limit parent_gas_usage parent_base_fee : N)
    (parent_trend : Z) (parent_moment : N) : run (N * Z * N) :=
  '(base_fee, parent_delta) ←
    compute_fee block_gas_limit parent_gas_usage parent_base_fee parent_trend parent_moment;
  trend ← compute_trend parent_trend parent_delta;
  moment ← compute_moment parent_moment parent_delta;
  Ret (base_fee, trend, moment).

Definition compute_base_fee (parent_block_gas_limit parent_gas_usage parent_base_fee parent_trend
    parent_moment : N) : run (N * N * N) :=
  assert (parent_gas_usage ≤ parent_block_gas_limit)%N ≫= λ _,
  '(base_fee, trend, moment) ←
    compute_base_fee_math parent_block_gas_limit parent_gas_usage parent_base_fee
      (cast_signed parent_trend) parent_moment;
  Ret (base_fee, cast_unsigned trend, moment).

(** ** The series *)

Lemma quot_abs_le a b : 0 < b → Z.abs (a ÷ b) = Z.abs a / b.
Proof.
  intros Hb. rewrite <- Z.quot_abs by lia. rewrite (Z.abs_eq b) by lia.
  apply Z.quot_div_nonneg; lia.
Qed.

(** One step of the series: the next term is at most [1/(k*i)] of the last. *)
Lemma next_term_bound acc num den i k :
  0 < den → 1 ≤ i → k * Z.abs num ≤ den → 0 ≤ k →
  k * i * Z.abs ((acc * num) ÷ (den * i)) ≤ Z.abs acc.
Proof.
  intros Hden Hi Hk Hk0. rewrite quot_abs_le by nia. rewrite Z.abs_mul.
  pose proof (Z.mul_div_le (Z.abs acc * Z.abs num) (den * i) ltac:(nia)) as Hdiv.
  set (q := _ / _) in *. assert (0 ≤ q) by (apply Z.div_pos; nia).
  assert (den * (k * i * q) ≤ den * Z.abs acc); [|nia].
  assert (k * (den * i * q) ≤ k * (Z.abs acc * Z.abs num)) by nia. nia.
Qed.

Lemma next_term_sign acc num den i :
  0 < den → 1 ≤ i → 0 ≤ acc * num → 0 ≤ (acc * num) ÷ (den * i).
Proof. intros. apply Z.quot_pos; nia. Qed.

Lemma next_term_sign_neg acc num den i :
  0 < den → 1 ≤ i → acc * num ≤ 0 → (acc * num) ÷ (den * i) ≤ 0.
Proof.
  intros. pose proof (next_term_sign (- acc) num den i ltac:(lia) ltac:(lia) ltac:(lia)) as Hs.
  replace (- acc * num) with (- (acc * num)) in Hs by lia. rewrite Z.quot_opp_l in Hs by nia. lia.
Qed.

(** The sum the loop computes, over the integers. *)
Fixpoint series (fuel : nat) (num den i acc : Z) : Z :=
  match fuel with
  | 0%nat => 0
  | S fuel => acc + series fuel num den (i + 1) ((acc * num) ÷ (den * i))
  end.

Lemma series_S fuel num den i acc :
  series (S fuel) num den i acc = acc + series fuel num den (i + 1) ((acc * num) ÷ (den * i)).
Proof. done. Qed.

Lemma series_0 fuel num den i : series fuel num den i 0 = 0.
Proof. revert i. induction fuel as [|fuel IH]; intros i; cbn; [done|]. by rewrite IH. Qed.

Lemma series_abs_le fuel num den i acc k :
  0 < den → 1 ≤ i → k * Z.abs num ≤ den → 1 ≤ k →
  (k - 1) * Z.abs (series fuel num den i acc) ≤ k * Z.abs acc.
Proof.
  intros Hden Hi Hk Hk1. revert i acc Hi. induction fuel as [|fuel IH]; intros i acc Hi; cbn [series].
  { nia. }
  pose proof (next_term_bound acc num den i k Hden Hi Hk ltac:(lia)) as Hn.
  specialize (IH (i + 1) ((acc * num) ÷ (den * i)) ltac:(lia)).
  set (acc' := (acc * num) ÷ (den * i)) in *. set (s' := series _ _ _ _ _) in *.
  assert (k * Z.abs acc' ≤ Z.abs acc) by nia.
  assert (Z.abs (acc + s') ≤ Z.abs acc + Z.abs s') by lia. nia.
Qed.

Lemma series_nonneg fuel num den i acc :
  0 < den → 1 ≤ i → 0 ≤ num → 0 ≤ acc → 0 ≤ series fuel num den i acc.
Proof.
  intros Hden Hi Hnum. revert i acc Hi. induction fuel as [|fuel IH]; intros i acc Hi Hacc; cbn [series].
  { done. }
  pose proof (next_term_sign acc num den i Hden Hi ltac:(nia)) as Hn.
  specialize (IH (i + 1) _ ltac:(lia) Hn). lia.
Qed.

(** With a negative exponent the series alternates and decreases. *)
Lemma series_alternates fuel num den i acc :
  0 < den → 1 ≤ i → num ≤ 0 → Z.abs num ≤ den →
  (0 ≤ acc → 0 ≤ series fuel num den i acc ≤ acc) ∧ (acc ≤ 0 → acc ≤ series fuel num den i acc ≤ 0).
Proof.
  intros Hden Hi Hnum Habs. revert i acc Hi. induction fuel as [|fuel IH]; intros i acc Hi; cbn [series].
  { lia. }
  pose proof (next_term_bound acc num den i 1 Hden Hi ltac:(lia) ltac:(lia)) as Hn.
  specialize (IH (i + 1) ((acc * num) ÷ (den * i)) ltac:(lia)) as [IHp IHn].
  assert (Z.abs ((acc * num) ÷ (den * i)) ≤ Z.abs acc) by nia.
  split; intros Hacc.
  - pose proof (next_term_sign_neg acc num den i Hden Hi ltac:(nia)) as Hs. specialize (IHn Hs). lia.
  - pose proof (next_term_sign acc num den i Hden Hi ltac:(nia)) as Hs. specialize (IHp Hs). lia.
Qed.

Definition series_bound : Z := 2 ^ 140.

Lemma series_bound_ok : series_bound * 2 ^ 64 ≤ i256_MAX.
Proof. by vm_compute. Qed.

Lemma u256_small n : (n ≤ 2 ^ 128)%N → (n ≤ u256_MAX)%N ∧ i256_try_from n = Some (Z.of_N n).
Proof.
  intros Hn. assert ((2 ^ 128 ≤ u256_MAX)%N ∧ Z.of_N (2 ^ 128) ≤ i256_MAX) by (split; by vm_compute).
  split; [lia|]. unfold i256_try_from. rewrite decide_True; [done|]. lia.
Qed.

(** One pass through the loop body, without overflow. *)
Lemma exponential_loop_step fuel num den i out acc :
  (0 < den ≤ u64_MAX)%N → (1 ≤ i ≤ 1000)%N → Z.abs num ≤ Z.of_N den →
  Z.abs out + 3 * Z.abs acc ≤ series_bound → acc ≠ 0 →
  exponential_loop (S fuel) num den i out acc =
    exponential_loop fuel num den (i + 1) (out + acc) ((acc * num) ÷ (Z.of_N den * Z.of_N i)).
Proof.
  intros Hden Hi Hnum Hb Hacc. cbn [exponential_loop]. rewrite decide_False by done.
  pose proof series_bound_ok as Hok. unfold u64_MAX in Hden.
  assert (series_bound ≤ i256_MAX) by by vm_compute.
  assert (Hp : Z.abs (acc * num) ≤ i256_MAX).
  { rewrite Z.abs_mul. trans (series_bound * 2 ^ 64); [|done]. apply Z.mul_le_mono_nonneg; lia. }
  rewrite i256_add_exact by lia. cbn [mbind run_bind].
  rewrite i256_mul_exact by done. cbn [mbind run_bind].
  destruct (u256_small (den * i)) as [Hle Htry]; [change (2 ^ 128)%N with (u128_MAX + 1)%N; unfold u128_MAX; nia|].
  rewrite u256_mul_exact, Htry by done. cbn [expect mbind run_bind].
  rewrite i256_div_exact by lia. cbn [expect mbind run_bind].
  rewrite u256_add_exact by (unfold u256_MAX; lia). by rewrite N2Z.inj_mul.
Qed.

Lemma exponential_loop_series fuel num den i out acc :
  (0 < den ≤ u64_MAX)%N → (2 ≤ i)%N → (i + N.of_nat fuel ≤ 1000)%N → Z.abs num ≤ Z.of_N den →
  Z.abs acc < 2 ^ Z.of_nat fuel → Z.abs out + 3 * Z.abs acc ≤ series_bound →
  exponential_loop fuel num den i out acc =
    Ret (out + series fuel num (Z.of_N den) (Z.of_N i) acc).
Proof.
  intros Hden Hi Hf Hnum. revert i out acc Hi Hf. induction fuel as [|fuel IH]; intros i out acc Hi Hf Hacc Hb.
  { cbn. rewrite decide_True by lia. f_equal. lia. }
  destruct (decide (acc = 0)) as [->|Hne].
  { cbn [exponential_loop]. rewrite decide_True, series_0 by done. f_equal. lia. }
  rewrite exponential_loop_step by (done || lia). cbn [series].
  pose proof (next_term_bound acc num (Z.of_N den) (Z.of_N i) 1 ltac:(lia) ltac:(lia) ltac:(lia) ltac:(lia)).
  set (acc' := (acc * num) ÷ _) in *. assert (2 * Z.abs acc' ≤ Z.abs acc) by nia.
  rewrite IH.
  - f_equal. replace (Z.of_N (i + 1)) with (Z.of_N i + 1) by lia. lia.
  - lia.
  - lia.
  - rewrite Nat2Z.inj_succ, Z.pow_succ_r in Hacc by lia. lia.
  - lia.
Qed.

Lemma exponential_loop_total factor num den :
  (factor ≤ MAX_BASE_FEE)%N → (0 < den ≤ u64_MAX)%N → Z.abs num ≤ Z.of_N den →
  exponential_loop exponential_fuel num den 1 0 (Z.of_N (factor * den)) =
    Ret (series exponential_fuel num (Z.of_N den) 1 (Z.of_N (factor * den))).
Proof.
  intros Hfac Hden Hnum. unfold exponential_fuel.
  assert (Hacc : (factor * den ≤ 2 ^ 122)%N).
  { change (2 ^ 122)%N with (2 ^ 58 * 2 ^ 64)%N. apply N.mul_le_mono; unfold MAX_BASE_FEE, u64_MAX in *; lia. }
  assert (H122 : (2 ^ 122 < 2 ^ 127)%Z ∧ 4 * 2 ^ 122 ≤ series_bound) by (split; by vm_compute).
  assert (Hz : Z.of_N (factor * den) ≤ 2 ^ 122) by (change (2 ^ 122) with (Z.of_N (2 ^ 122)); lia).
  destruct (decide (Z.of_N (factor * den) = 0)) as [->|Hne].
  { cbn [exponential_loop]. rewrite decide_True by done. by rewrite series_0. }
  rewrite exponential_loop_step by (done || lia). rewrite series_S.
  set (acc := Z.of_N (factor * den)) in *.
  pose proof (next_term_bound acc num (Z.of_N den) 1 1 ltac:(lia) ltac:(lia) ltac:(lia) ltac:(lia)).
  rewrite exponential_loop_series; [|done|lia|lia|lia|..].
  - done.
  - change (Z.of_nat 127) with 127. change (Z.of_N 1) with 1. lia.
  - change (Z.of_N 1) with 1. lia.
Qed.

(** The sum is at least its first term for a positive exponent, at most it for a
    negative one, and within [k/(k-1)] of it when the exponent is at most [1/k]. *)
Lemma series_direction fuel num D A k :
  0 < D → 0 ≤ A → 2 ≤ k → k * Z.abs num ≤ D →
  let s := series (S fuel) num D 1 A in
  0 ≤ s ≤ 2 * A ∧ (0 ≤ num → A ≤ s ∧ (k - 1) * s ≤ k * A) ∧ (num ≤ 0 → s ≤ A ∧ (k - 1) * A ≤ k * s).
Proof.
  intros HD HA Hk Hnum s.
  pose proof (series_abs_le (S fuel) num D 1 A k HD ltac:(lia) Hnum ltac:(lia)) as Hser. fold s in Hser.
  assert (Hpos : 0 ≤ num → A ≤ s).
  { intros Hn. unfold s. cbn [series].
    pose proof (series_nonneg fuel num D 2 ((A * num) ÷ (D * 1)) HD ltac:(lia) Hn
      (next_term_sign A num D 1 HD ltac:(lia) ltac:(nia))) as Hge.
    change (1 + 1) with 2. lia. }
  assert (Hneg : num ≤ 0 → s ≤ A ∧ (k - 1) * A ≤ k * s).
  { intros Hn. unfold s. cbn [series].
    pose proof (next_term_bound A num D 1 k HD ltac:(lia) Hnum ltac:(lia)) as Hn1.
    pose proof (next_term_sign_neg A num D 1 HD ltac:(lia) ltac:(nia)) as Hs1.
    destruct (series_alternates fuel num D 2 ((A * num) ÷ (D * 1)) HD ltac:(lia) Hn ltac:(nia)) as [_ Halt].
    specialize (Halt Hs1). change (1 + 1) with 2. rewrite Z.mul_1_r, (Z.abs_eq A) in Hn1 by done.
    set (a := (A * num) ÷ (D * 1)) in *. set (s' := series fuel num D 2 a) in *. clearbody a s'.
    split; [lia|]. assert (- A ≤ k * s') by nia. lia. }
  assert (Hs0 : 0 ≤ s).
  { destruct (decide (0 ≤ num)); [specialize (Hpos ltac:(lia))|specialize (Hneg ltac:(lia))]; nia. }
  rewrite !Z.abs_eq in Hser by lia. split; [nia|]. split; [|done]. auto.
Qed.

(** The bounds on the sum carry over to its quotient by [D]. *)
Lemma quotient_bounds s D F k :
  0 < D → 2 ≤ k → 0 ≤ s →
  0 ≤ s / D ∧ (F * D ≤ s → F ≤ s / D) ∧ (s ≤ F * D → s / D ≤ F) ∧
  ((k - 1) * s ≤ k * (F * D) → (k - 1) * (s / D) ≤ k * F) ∧
  ((k - 1) * (F * D) ≤ k * s → (k - 1) * F < k * (s / D + 1)).
Proof.
  intros HD Hk Hs. pose proof (Z.mul_div_le s D HD) as Hq1.
  pose proof (Z.mul_succ_div_gt s D HD) as Hq2. assert (0 ≤ s / D) by (apply Z.div_pos; lia).
  set (q := s / D) in *. clearbody q. split; [done|].
  split; [intros; apply Z.lt_succ_r, (Z.mul_lt_mono_pos_l D); lia|].
  split; [intros; apply (Z.mul_le_mono_pos_l _ _ D); lia|].
  split; intros; [apply (Z.mul_le_mono_pos_l _ _ D); [done|]|apply (Z.mul_lt_mono_pos_l D); [done|]]; nia.
Qed.

(** [fake_exponential] returns, at least the factor for a positive exponent and at
    most the factor for a negative one, within [k/(k-1)] when the exponent is at most [1/k]. *)
Lemma fake_exponential_spec factor num den k :
  (factor ≤ MAX_BASE_FEE)%N → (0 < den ≤ u64_MAX)%N → 2 ≤ k → k * Z.abs num ≤ Z.of_N den →
  ∃ r, fake_exponential factor num den = Ret r ∧
    (0 ≤ num → (factor ≤ r)%N ∧ (k - 1) * Z.of_N r ≤ k * Z.of_N factor) ∧
    (num ≤ 0 → (r ≤ factor)%N ∧ (k - 1) * Z.of_N factor < k * (Z.of_N r + 1)).
Proof.
  intros Hfac Hden Hk Hnum. assert (Habs : Z.abs num ≤ Z.of_N den) by nia.
  unfold fake_exponential. rewrite (assert_true (den ≠ 0%N)) by lia. cbn [mbind run_bind].
  rewrite (assert_true (Z.abs num ≤ _)), (assert_true (factor ≤ _)%N) by done. cbn [mbind run_bind].
  assert (Hmul : (factor * den ≤ 2 ^ 128)%N).
  { change (2 ^ 128)%N with (2 ^ 64 * 2 ^ 64)%N. apply N.mul_le_mono; unfold MAX_BASE_FEE, u64_MAX in *; lia. }
  destruct (u256_small _ Hmul) as [Hle Htry]. rewrite u256_mul_exact, Htry by done.
  cbn [expect mbind run_bind]. rewrite exponential_loop_total by done. cbn [mbind run_bind].
  destruct (u256_small den) as [_ ->]; [unfold u64_MAX in Hden; lia|].
  cbn [expect mbind run_bind]. unfold exponential_fuel.
  set (D := Z.of_N den) in *. set (F := Z.of_N factor) in *.
  assert (HFD : Z.of_N (factor * den) = F * D) by (unfold F, D; lia). rewrite HFD.
  assert (HD : 0 < D) by lia. assert (HF : 0 ≤ F) by lia.
  destruct (series_direction 127 num D (F * D) k HD ltac:(nia) Hk Hnum) as (Hs & Hpos & Hneg).
  set (s := series _ _ _ _ _) in *. clearbody s.
  assert (Hsb : Z.abs s ≤ i256_MAX).
  { assert (2 * 2 ^ 128 ≤ i256_MAX) by by vm_compute.
    change (2 ^ 128)%N with (Z.to_N (2 ^ 128)) in Hmul. lia. }
  rewrite i256_div_exact, Z.quot_div_nonneg by lia. cbn [expect mbind run_bind].
  destruct (quotient_bounds s D F k HD Hk (proj1 Hs)) as (Hq & Hq1 & Hq2 & Hq3 & Hq4).
  destruct (quotient_bounds s D (2 * F) k HD Hk (proj1 Hs)) as (_ & _ & Hq5 & _).
  rewrite <- Z.mul_assoc in Hq5. specialize (Hq5 (proj2 Hs)). set (q := s / D) in *. clearbody q.
  rewrite i256_as_u64_exact; [|unfold F, MAX_BASE_FEE, u64_MAX in *; lia].
  exists (Z.to_N q). split; [done|]. rewrite !Z2N.id by done. split; intros Hn.
  - specialize (Hpos Hn) as [Hp1 Hp2]. specialize (Hq1 Hp1). split; [lia|auto].
  - specialize (Hneg Hn) as [Hn1 Hn2]. specialize (Hq2 Hn1). split; [lia|auto].
Qed.

(** ** The update *)

Lemma in_u64_Ret n : (n ≤ u64_MAX)%N → in_u64 n = Ret n.
Proof. intros. unfold in_u64. by rewrite decide_True. Qed.

Lemma in_i64_Ret z : i64_MIN ≤ z ≤ i64_MAX → in_i64 z = Ret z.
Proof. intros. unfold in_i64. by rewrite decide_True. Qed.

Lemma in_u128_Ret n : (n ≤ u128_MAX)%N → in_u128 n = Ret n.
Proof. intros. unfold in_u128. by rewrite decide_True. Qed.

Ltac fits_i64 := rewrite in_i64_Ret by (unfold i64_MIN, i64_MAX; nia); cbn [mbind run_bind].
Ltac fits_u64 := rewrite in_u64_Ret by (unfold u64_MAX; nia); cbn [mbind run_bind].
Ltac fits_u128 := rewrite in_u128_Ret by (unfold u128_MAX; nia); cbn [mbind run_bind].

Definition gas_target (limit : N) : N := (limit * 8 / 10)%N.

(** The documented range of trend and moment, for gas limits up to [max_limit]. *)
Definition fee_state_ok (max_limit : N) (trend : Z) (moment : N) : Prop :=
  Z.of_N (gas_target max_limit) - Z.of_N max_limit ≤ trend ≤ Z.of_N (gas_target max_limit) ∧
  (moment ≤ gas_target max_limit * gas_target max_limit)%N.

Lemma gas_target_bounds limit : (10 * gas_target limit ≤ 8 * limit < 10 * gas_target limit + 10)%N.
Proof.
  unfold gas_target. pose proof (N.div_mod' (limit * 8) 10).
  pose proof (N.mod_lt (limit * 8) 10 ltac:(done)).
  set (q := (_ / _)%N) in *. set (r := (_ `mod` _)%N) in *. clearbody q r. lia.
Qed.

Lemma gas_target_mono limit max_limit :
  (limit ≤ max_limit)%N → (gas_target limit ≤ gas_target max_limit)%N ∧
    (limit - gas_target limit ≤ max_limit - gas_target max_limit)%N.
Proof.
  intros Hle. pose proof (gas_target_bounds limit). pose proof (gas_target_bounds max_limit).
  assert (gas_target limit ≤ gas_target max_limit)%N by (apply N.Div0.div_le_mono; lia).
  split; lia.
Qed.

Lemma sqrt_term_bound moment trend t :
  (moment ≤ t * t)%N →
  (CheckedU64_isqrt (saturating_to_checked_u64 (Z.of_N moment - trend * trend)) ≤ t)%N.
Proof.
  intros Hm. unfold CheckedU64_isqrt, saturating_to_checked_u64.
  rewrite <- (N.sqrt_square t). apply N.sqrt_le_mono.
  pose proof (Z.square_nonneg trend). set (q := trend * trend) in *. lia.
Qed.

(** The exponent is at most 1/28 up and 1/7 down. *)
Lemma exponent_bound T h s δ :
  0 < T → T ≤ 4 * h → 0 ≤ s → - T ≤ δ ≤ h →
  (0 ≤ δ → 28 * Z.abs (T * δ) ≤ 28 * (T + s) * h) ∧ (δ ≤ 0 → 7 * Z.abs (T * δ) ≤ 28 * (T + s) * h).
Proof. intros HT HH Hs Hδ. split; intros; rewrite Z.abs_mul, (Z.abs_eq T) by lia; nia. Qed.

Lemma denominator_range T s h :
  (0 < T)%N → (T + s ≤ 1600000000)%N → (0 < h ≤ 200000000)%N → (0 < 28 * (T + s) * h ≤ u64_MAX)%N.
Proof.
  intros HT Hs [Hh0 Hh]. pose proof (N.mul_le_mono _ _ _ _ Hs Hh). unfold u64_MAX. nia.
Qed.

Lemma compute_fee_spec max_limit limit usage fee trend moment :
  (100000000 ≤ limit ≤ max_limit)%N → (max_limit ≤ 1000000000)%N → (usage ≤ limit)%N →
  (fee ≤ MAX_BASE_FEE)%N → fee_state_ok max_limit trend moment →
  ∃ fee', compute_fee limit usage fee trend moment =
      Ret (fee', Z.of_N usage - Z.of_N (gas_target limit)) ∧
    (MIN_BASE_FEE ≤ fee' ≤ MAX_BASE_FEE)%N ∧
    (gas_target limit ≤ usage → fee ≤ fee' ∧ 27 * fee' ≤ 28 * (fee `max` MIN_BASE_FEE))%N ∧
    (usage ≤ gas_target limit → fee' ≤ fee `max` MIN_BASE_FEE ∧ 6 * fee < 7 * (fee' + 1))%N.
Proof.
  intros Hl Hmax Hu Hfee [Ht Hm].
  pose proof (gas_target_bounds limit) as HT. pose proof (gas_target_bounds max_limit) as HTm.
  destruct (gas_target_mono limit max_limit ltac:(lia)) as [HT1 HT2].
  pose proof (sqrt_term_bound moment trend _ Hm) as Hsq.
  unfold compute_fee, CheckedU64_mul. rewrite in_u64_Ret by (unfold u64_MAX; lia). cbn [mbind run_bind].
  unfold CheckedU64_div. rewrite decide_False by done. fold (gas_target limit). cbn [mbind run_bind].
  set (T := gas_target limit) in *. set (Tm := gas_target max_limit) in *. clearbody T Tm.
  unfold to_checked_i64, CheckedI64_sub, CheckedI64_mul. do 7 fits_i64.
  set (s := CheckedU64_isqrt _) in *. clearbody s.
  unfold CheckedU64_add, MAX_STEP_SIZE_DENOM. do 2 fits_u64.
  unfold CheckedU64_sub. rewrite decide_True by lia. cbn [mbind run_bind]. fits_u64.
  destruct (exponent_bound (Z.of_N T) (Z.of_N (limit - T)) (Z.of_N s) (Z.of_N usage - Z.of_N T))
    as [Hup Hdown]; [lia..|].
  set (den := (28 * (T + s) * (limit - T))%N).
  assert (Hden : Z.of_N den = 28 * (Z.of_N T + Z.of_N s) * Z.of_N (limit - T)) by (unfold den; lia).
  assert (Hden' : (0 < den ≤ u64_MAX)%N) by (apply denominator_range; lia). rewrite <- Hden in *.
  assert (Hsign : (0 ≤ Z.of_N usage - Z.of_N T → 0 ≤ Z.of_N T * (Z.of_N usage - Z.of_N T)) ∧
    (Z.of_N usage - Z.of_N T ≤ 0 → Z.of_N T * (Z.of_N usage - Z.of_N T) ≤ 0))
    by (split; intros; [apply Z.mul_nonneg_nonneg|apply Z.mul_nonneg_nonpos]; lia).
  destruct (decide (T ≤ usage)%N) as [Hge|Hlt].
  - destruct (fake_exponential_spec fee (Z.of_N T * (Z.of_N usage - Z.of_N T)) den 28)
      as (r & -> & Hr & Hr'); [done|done|done|apply Hup; lia|]. cbn [mbind run_bind].
    specialize (Hr ltac:(apply Hsign; lia)). eexists. split; [done|]. unfold clamp, MIN_BASE_FEE, MAX_BASE_FEE in *.
    split; [repeat case_decide; lia|]. split; intros ?; [repeat case_decide; lia|].
    specialize (Hr' ltac:(apply Hsign; lia)). repeat case_decide; lia.
  - destruct (fake_exponential_spec fee (Z.of_N T * (Z.of_N usage - Z.of_N T)) den 7)
      as (r & -> & Hr & Hr'); [done|done|done|apply Hdown; lia|]. cbn [mbind run_bind].
    specialize (Hr' ltac:(apply Hsign; lia)). eexists. split; [done|]. unfold clamp, MIN_BASE_FEE, MAX_BASE_FEE in *.
    split; [repeat case_decide; lia|]. split; intros ?; [lia|]. repeat case_decide; lia.
Qed.

Lemma compute_trend_spec lo hi trend δ :
  -1000000000 ≤ lo ≤ 0 → 0 ≤ hi ≤ 1000000000 → lo ≤ trend ≤ hi → lo ≤ - δ ≤ hi →
  ∃ trend', compute_trend trend δ = Ret trend' ∧ lo ≤ trend' ≤ hi.
Proof.
  intros Hlo Hhi Ht Hδ. unfold compute_trend, to_checked_i64, BETA.
  rewrite in_i64_Ret by (by vm_compute). cbn [mbind run_bind].
  unfold CheckedI64_mul, CheckedI64_sub, CheckedI64_neg, CheckedI64_add. do 5 fits_i64.
  unfold CheckedI64_div. rewrite decide_False by done.
  set (n := Z.of_N 96 * trend + (100 - Z.of_N 96) * - δ) in *.
  assert (Hn : 100 * lo ≤ n ≤ 100 * hi) by (unfold n; lia). clearbody n.
  assert (Hq : lo ≤ n ÷ 100 ≤ hi).
  { split; [apply Z.quot_le_lower_bound|apply Z.quot_le_upper_bound]; lia. }
  exists (n ÷ 100). split; [|done]. apply in_i64_Ret. unfold i64_MIN, i64_MAX. lia.
Qed.

Lemma compute_moment_spec t moment δ :
  (t ≤ 1000000000)%N → (moment ≤ t * t)%N → - Z.of_N t ≤ δ ≤ Z.of_N t →
  ∃ moment', compute_moment moment δ = Ret moment' ∧ (moment' ≤ t * t)%N.
Proof.
  intros Ht Hm Hδ. unfold compute_moment, BETA. set (d := Z.to_N (δ * δ)).
  assert (0 ≤ δ * δ ≤ Z.of_N t * Z.of_N t) by nia.
  assert (Hd : (d ≤ t * t)%N) by (unfold d; lia). clearbody d.
  assert (Htt : (t * t ≤ 1000000000000000000)%N) by nia. set (q := (t * t)%N) in *. clearbody q.
  do 4 fits_u128. assert (Hdiv : ((96 * moment + (100 - 96) * d) / 100 ≤ q)%N).
  { apply N.Div0.div_le_upper_bound. lia. }
  fits_u64. eauto.
Qed.

Lemma cast_roundtrip z : i64_MIN ≤ z ≤ i64_MAX →
  cast_signed (cast_unsigned z) = z ∧ (cast_unsigned z ≤ u64_MAX)%N.
Proof.
  unfold cast_signed, cast_unsigned, u64_MAX, i64_MIN, i64_MAX. intros Hz.
  change (2 ^ 64) with 18446744073709551616.
  assert (Hmod : z `mod` 18446744073709551616 = if decide (0 ≤ z) then z else z + 18446744073709551616).
  { case_decide; [by rewrite Z.mod_small by lia|].
    rewrite <- (Z_mod_plus_full z 1), Z.mod_small by lia. lia. }
  rewrite Hmod. case_decide; case_decide; lia.
Qed.

Lemma compute_base_fee_spec max_limit limit usage fee trend moment :
  (100000000 ≤ limit ≤ max_limit)%N → (max_limit ≤ 1000000000)%N → (usage ≤ limit)%N →
  (fee ≤ MAX_BASE_FEE)%N → fee_state_ok max_limit (cast_signed trend) moment →
  ∃ fee' trend' moment', compute_base_fee limit usage fee trend moment = Ret (fee', trend', moment') ∧
    (MIN_BASE_FEE ≤ fee' ≤ MAX_BASE_FEE)%N ∧ (trend' ≤ u64_MAX)%N ∧
    fee_state_ok max_limit (cast_signed trend') moment' ∧
    (gas_target limit ≤ usage → fee ≤ fee' ∧ 27 * fee' ≤ 28 * (fee `max` MIN_BASE_FEE))%N ∧
    (usage ≤ gas_target limit → fee' ≤ fee `max` MIN_BASE_FEE ∧ 6 * fee < 7 * (fee' + 1))%N.
Proof.
  intros Hl Hmax Hu Hfee Hst. unfold compute_base_fee, compute_base_fee_math.
  rewrite assert_true by done. cbn [mbind run_bind].
  destruct (compute_fee_spec max_limit limit usage fee _ moment Hl Hmax Hu Hfee Hst)
    as (fee' & -> & Hrange & Hup & Hdown). cbn [mbind run_bind].
  destruct Hst as [Ht Hm]. destruct (gas_target_mono limit max_limit ltac:(lia)) as [HT1 HT2].
  pose proof (gas_target_bounds limit). pose proof (gas_target_bounds max_limit).
  set (T := gas_target limit) in *. set (Tm := gas_target max_limit) in *.
  destruct (compute_trend_spec (Z.of_N Tm - Z.of_N max_limit) (Z.of_N Tm) (cast_signed trend)
    (Z.of_N usage - Z.of_N T)) as (trend' & -> & Ht'); [lia..|]. cbn [mbind run_bind].
  destruct (compute_moment_spec Tm moment (Z.of_N usage - Z.of_N T)) as (moment' & -> & Hm'); [lia|done|lia|].
  cbn [mbind run_bind]. destruct (cast_roundtrip trend') as [Hc Hc']; [unfold i64_MIN, i64_MAX; lia|].
  exists fee', (cast_unsigned trend'), moment'. rewrite Hc. done.
Qed.

(** C27: The base fee update is total and bounded on its documented inputs.  For
    every gas limit of 100M to 1000M (and at most [max_limit], the largest one in use),
    every usage up to the limit, every parent fee up to the maximum and every trend
    and moment in the documented range for [max_limit], [compute_base_fee] returns:
    no checked operation overflows and the series terminates.  The new fee is in
    [MIN_BASE_FEE, MAX_BASE_FEE], the new trend and moment are again in range, and the
    fee follows demand: at or above the gas target it does not fall and rises by at
    most 1/27, at or below it does not rise and falls by at most 1/7. *)
Theorem base_fee_update_bounded max_limit limit usage fee trend moment :
  (100000000 ≤ limit ≤ max_limit)%N → (max_limit ≤ 1000000000)%N → (usage ≤ limit)%N →
  (fee ≤ MAX_BASE_FEE)%N → fee_state_ok max_limit (cast_signed trend) moment →
  ∃ fee' trend' moment', compute_base_fee limit usage fee trend moment = Ret (fee', trend', moment') ∧
    (MIN_BASE_FEE ≤ fee' ≤ MAX_BASE_FEE)%N ∧ (trend' ≤ u64_MAX)%N ∧
    fee_state_ok max_limit (cast_signed trend') moment' ∧
    (gas_target limit ≤ usage → fee ≤ fee' ∧ 27 * fee' ≤ 28 * (fee `max` MIN_BASE_FEE))%N ∧
    (usage ≤ gas_target limit → fee' ≤ fee `max` MIN_BASE_FEE ∧ 6 * fee < 7 * (fee' + 1))%N.
Proof. apply compute_base_fee_spec. Qed.
End base_fee.

(** ** An instance of the 256-bit operators, and an example *)

Program Definition I256_checked : I256Ops := {|
  i256_add a b := if decide (Z.abs (a + b) ≤ i256_MAX) then Ret (a + b) else Panic;
  i256_mul a b := if decide (Z.abs (a * b) ≤ i256_MAX) then Ret (a * b) else Panic;
  i256_checked_div a b := if decide (b = 0) then None else Some (a ÷ b);
  i256_as_u64 z := if decide (0 ≤ z ≤ Z.of_N u64_MAX) then Ret (Z.to_N z) else Panic;
|}.
Next Obligation. intros. cbn. by rewrite decide_True. Qed.
Next Obligation. intros. cbn. by rewrite decide_True. Qed.
Next Obligation. intros. cbn. by rewrite decide_False by lia. Qed.
Next Obligation. intros. cbn. by rewrite decide_True. Qed.

#[local] Existing Instance I256_checked.

Lemma base_fee_update_bounded_witness :
  fee_state_ok 200000000 (cast_signed (cast_unsigned (-1000))) 5000000 ∧
  ∃ fee' trend' moment',
    compute_base_fee 150000000 150000000 200000000000 (cast_unsigned (-1000)) 5000000 =
      Ret (fee', trend', moment') ∧ (200000000000 < fee')%N ∧
    fee_state_ok 200000000 (cast_signed trend') moment'.
Proof.
  assert (Hok : fee_state_ok 200000000 (cast_signed (cast_unsigned (-1000))) 5000000)
    by (split; [vm_compute; split; discriminate|by vm_compute]).
  split; [done|].
  destruct (base_fee_update_bounded 200000000 150000000 150000000 200000000000
    (cast_unsigned (-1000)) 5000000) as (fee' & trend' & moment' & Heq & _ & _ & Hst & _);
    [lia|lia|lia|by vm_compute|done|].
  exists fee', trend', moment'. split; [done|]. split; [|done].
  vm_compute in Heq. injection Heq as <- _ _. lia.
Defined.
