(* ===== verification/EthTypes.v ===== *)
(** * Ethereum types ([src/eth-types/src/lib.rs], [src/consensus-types/src/block.rs])

    Transactions are the third-party type [TxEnvelope]: the class [EthTransactions]
    lists the accessors the code calls, with the widths of their results.  The file
    also holds the account and block types built on it, and the cost of a
    transaction ([src/eth-block-policy/src/lib.rs]). *)
From S2P Require Import Prelude Types.
From S2P Require Import SignatureCollection Certificates Tree Timestamp.

Abbreviation Address := N (only parsing).
Abbreviation Balance := N (only parsing).
Abbreviation Nonce := N (only parsing).

Inductive TxType := Legacy | Eip2930 | Eip1559 | Eip4844 | Eip7702.
#[global] Instance TxType_eq_dec : EqDecision TxType.
Proof. solve_decision. Defined.

Inductive TxKind := Create | Call (to : Address).
#[global] Instance TxKind_eq_dec : EqDecision TxKind.
Proof. solve_decision. Defined.

(** An EIP-7702 authorization tuple. *)
Record Authorization := { auth_chain_id : N; auth_address : Address; auth_nonce : N }.

(** [RecoveredAuthorization]: a tuple with the recovered authority, if any. *)
Record RecoveredAuthorization := { ra_inner : Authorization; ra_authority : option Address }.

(** The fields of [TxLegacy] used to build system transactions. *)
Record TxLegacy := {
  leg_chain_id : option N; leg_nonce : N; leg_gas_price : N; leg_gas_limit : N;
  leg_to : TxKind; leg_value : N; leg_input : list N }.

(** The transaction type of [alloy] and the signature recovery of [kinet_secp]. *)
Class EthTransactions := {
  TxEnvelope : Type;
  SignedAuthorization : Type;
  RecoverError : Type;
  TxEnvelope_eq_dec :: EqDecision TxEnvelope;
  tx_type : TxEnvelope → TxType;
  tx_chain_id : TxEnvelope → option N;
  tx_nonce : TxEnvelope → N;
  tx_gas_limit : TxEnvelope → N;
  tx_gas_price : TxEnvelope → option N;
  tx_max_fee_per_gas : TxEnvelope → N;
  tx_max_priority_fee_per_gas : TxEnvelope → option N;
  tx_kind : TxEnvelope → TxKind;
  tx_value : TxEnvelope → N;
  tx_input : TxEnvelope → list N;
  tx_access_list : TxEnvelope → option (list (Address * list N));
  tx_authorization_list : TxEnvelope → option (list SignedAuthorization);
  (** [signature().normalize_s().is_some()]: the signature is not in normal form. *)
  tx_high_s : TxEnvelope → bool;
  tx_length : TxEnvelope → N;
  secp256k1_recover : TxEnvelope → result Address RecoverError;
  authorization_inner : SignedAuthorization → Authorization;
  recover_authority : SignedAuthorization → option Address;
  tx_nonce_u64 t : (tx_nonce t ≤ u64_MAX)%N;
  tx_gas_limit_u64 t : (tx_gas_limit t ≤ u64_MAX)%N;
  tx_max_fee_u128 t : (tx_max_fee_per_gas t ≤ u128_MAX)%N;
  tx_value_u256 t : (tx_value t ≤ u256_MAX)%N;
}.

(** Saturating 256-bit arithmetic. *)
Definition u256_saturating_add (a b : N) : N := ((a + b) `min` u256_MAX)%N.
Definition u256_saturating_sub (a b : N) : N := (a - b)%N.
Definition u256_checked_mul (a b : N) : option N :=
  if decide (a * b ≤ u256_MAX)%N then Some (a * b)%N else None.

(** A wrapping increment of a [u64]. *)
Definition u64_incr (n : N) : N := ((n + 1) `mod` (u64_MAX + 1))%N.

Section types.
Context `{!EthTransactions}.

Definition is_legacy (t : TxEnvelope) : bool := bool_decide (tx_type t = Legacy).
Definition is_eip2930 (t : TxEnvelope) : bool := bool_decide (tx_type t = Eip2930).
Definition is_eip4844 (t : TxEnvelope) : bool := bool_decide (tx_type t = Eip4844).
Definition is_eip7702 (t : TxEnvelope) : bool := bool_decide (tx_type t = Eip7702).
Definition is_create (t : TxEnvelope) : bool := bool_decide (tx_kind t = Create).
Definition tx_to (t : TxEnvelope) : option Address :=
  match tx_kind t with Create => None | Call a => Some a end.

(** [Recovered<TxEnvelope>]: a transaction and its signer. *)
Record Recovered := { rec_tx : TxEnvelope; signer : Address }.

Record ValidatedTx := { vt_tx : Recovered; authorizations_7702 : list RecoveredAuthorization }.

Definition vt_envelope (t : ValidatedTx) : TxEnvelope := rec_tx (vt_tx t).
Definition vt_signer (t : ValidatedTx) : Address := signer (vt_tx t).
Definition vt_nonce (t : ValidatedTx) : N := tx_nonce (vt_envelope t).

Record EthAccount := {
  acc_nonce : Nonce; acc_balance : Balance; acc_code_hash : option N; acc_is_delegated : bool }.

(** ** Costs *)

Definition compute_txn_max_gas_cost (txn : TxEnvelope) (base_fee : N) : run N :=
  if is_legacy txn || is_eip2930 txn then
    expect (u256_checked_mul (tx_gas_limit txn) (tx_max_fee_per_gas txn))
  else
    let priority_fee := default 0%N (tx_max_priority_fee_per_gas txn) in
    let gas_bid := (tx_max_fee_per_gas txn `min` u256_saturating_add base_fee priority_fee)%N in
    expect (u256_checked_mul (tx_gas_limit txn) gas_bid).

Definition compute_txn_max_value (txn : TxEnvelope) (base_fee : N) : run N :=
  gas_cost ← compute_txn_max_gas_cost txn base_fee;
  Ret (u256_saturating_add (tx_value txn) gas_cost).

(** The gas price bid and the cost as a number. *)
Definition gas_bid_of (txn : TxEnvelope) (base_fee : N) : N :=
  if is_legacy txn || is_eip2930 txn then tx_max_fee_per_gas txn
  else (tx_max_fee_per_gas txn `min`
          u256_saturating_add base_fee (default 0%N (tx_max_priority_fee_per_gas txn)))%N.
Definition gas_cost_of (txn : TxEnvelope) (base_fee : N) : N :=
  (tx_gas_limit txn * gas_bid_of txn base_fee)%N.

Lemma gas_cost_bound txn base_fee : (gas_cost_of txn base_fee ≤ u64_MAX * u128_MAX)%N.
Proof.
  unfold gas_cost_of. apply N.mul_le_mono; [apply tx_gas_limit_u64|].
  etrans; [|apply (tx_max_fee_u128 txn)]. unfold gas_bid_of. case_match; lia.
Qed.

(** The product of a 64-bit and a 128-bit number fits: the [expect] never fails. *)
Lemma compute_txn_max_gas_cost_Ret txn base_fee :
  compute_txn_max_gas_cost txn base_fee = Ret (gas_cost_of txn base_fee).
Proof.
  pose proof (gas_cost_bound txn base_fee) as Hb.
  assert (Hmax : (u64_MAX * u128_MAX ≤ u256_MAX)%N) by (vm_compute; discriminate).
  unfold compute_txn_max_gas_cost, gas_cost_of, gas_bid_of, u256_checked_mul in *.
  destruct (is_legacy txn || is_eip2930 txn); rewrite decide_True by lia; done.
Qed.

Lemma compute_txn_max_value_Ret txn base_fee :
  compute_txn_max_value txn base_fee =
    Ret (u256_saturating_add (tx_value txn) (gas_cost_of txn base_fee)).
Proof. unfold compute_txn_max_value. by rewrite compute_txn_max_gas_cost_Ret. Qed.

(** ** Balances and fees *)

Record AccountBalanceState := {
  balance : Balance;
  remaining_reserve_balance : Balance;
  abs_max_reserve_balance : Balance;
  block_seqnum_of_latest_txn : SeqNum;
  is_delegated : bool;
}.

Definition AccountBalanceState_new (max_reserve_balance : Balance) : AccountBalanceState := {|
  balance := 0;
  remaining_reserve_balance := 0;
  abs_max_reserve_balance := max_reserve_balance;
  block_seqnum_of_latest_txn := GENESIS_SEQ_NUM;
  is_delegated := false |}.

Record TxnFee := {
  first_txn_value : Balance;
  first_txn_gas : Balance;
  max_gas_cost : Balance;
  fee_is_delegated : bool;
  delegation_before_first_txn : bool;
}.

(** ** Block contents *)

Record ProposedEthHeader := {
  ommers_hash : N; eh_beneficiary : Address; transactions_root : N; difficulty : N;
  number : N; gas_limit : N; timestamp : N; extra_data : N; mix_hash : N; eth_nonce : N;
  base_fee_per_gas : N; withdrawals_root : N; blob_gas_used : N; excess_blob_gas : N;
  parent_beacon_block_root : N; requests_hash : option N }.

Record EthBlockBody := { transactions : list TxEnvelope; ommers : list (); withdrawals : list () }.
End types.

(** A [BTreeMap] from addresses. *)
Abbreviation TxnFees := (gmap Address TxnFee).

(** The associated types of [EthExecutionProtocol], read off those of the protocol,
    the address of a validator, and the constants and root function of [alloy]. *)
Class EthProtocol `{Protocol, !EthTransactions} := {
  eth_inputs : ProposedHeader → ProposedEthHeader;
  eth_body : Body → EthBlockBody;
  get_eth_address : PT → Address;
  EMPTY_OMMER_ROOT_HASH : N;
  EMPTY_WITHDRAWALS : N;
  calculate_transaction_root : list TxEnvelope → N;
  round_signature_hash : CST → N;
}.

(** A read-only view of executed state. *)
Class ExecutionStateRead `{Protocol} (State : Type) := {
  get_account_statuses : State → BlockId → SeqNum → bool → list Address →
    result (list (option EthAccount)) ExecutionStateReadError * State;
  get_execution_result : State → BlockId → SeqNum → bool →
    result FinalizedHeader ExecutionStateReadError * State;
}.
