(* ===== verification/NonceUsage.v ===== *)
(** * Nonce usage ([src/eth-block-policy/src/nonce_usage.rs])

    What a block does to the nonce of an account, as far as it can be told without
    the account's state: either its last nonce is known, or a list of nonces that
    authorizations may have used.  A usage acts on account nonces
    ([apply_to_account_nonce]); merging usages composes these actions. *)
From S2P Require Import Prelude Types.
From S2P Require Import SignatureCollection Certificates Tree EthTypes.

Inductive NonceUsage := Known (nonce : N) | Possible (possible_nonces : list N).

(** A fold over a [VecDeque] from the front. *)
Definition apply_possible_nonces_to_account_nonce (account_nonce : N) (possible_nonces : list N) : N :=
  foldl (λ account_nonce possible_nonce,
    if decide (possible_nonce = account_nonce) then u64_incr account_nonce else account_nonce)
    account_nonce possible_nonces.

Definition apply_to_account_nonce (self : NonceUsage) (account_nonce : N) : N :=
  match self with
  | Known nonce => u64_incr nonce
  | Possible possible_nonces => apply_possible_nonces_to_account_nonce account_nonce possible_nonces
  end.

Definition merge_with_previous (self previous_nonce_usage : NonceUsage) : NonceUsage :=
  match self with
  | Known _ => self
  | Possible possible_nonces =>
      match previous_nonce_usage with
      | Known previous_nonce =>
          Known (foldl (λ nonce possible_nonce,
            if decide (u64_incr nonce = possible_nonce) then u64_incr nonce else nonce)
            previous_nonce possible_nonces)
      | Possible previous_possible_nonces =>
          Possible (previous_possible_nonces ++ possible_nonces)
      end
  end.

(** A [BTreeMap]. *)
Abbreviation NonceUsageMap := (gmap Address NonceUsage).

Definition add_known (self : NonceUsageMap) (signer : Address) (nonce : N) :
    option NonceUsage * NonceUsageMap :=
  (self !! signer, <[signer := Known nonce]> self).

(** The loop over the entries of the previous block. *)
Fixpoint merge_with_previous_block (self : NonceUsageMap) (previous : list (Address * NonceUsage)) :
    NonceUsageMap :=
  match previous with
  | [] => self
  | (address, previous_nonce_usage) :: previous =>
      let merged :=
        match self !! address with
        | None => previous_nonce_usage
        | Some usage => merge_with_previous usage previous_nonce_usage
        end in
      merge_with_previous_block (<[address := merged]> self) previous
  end.

(** [NonceUsageRetrievable] for a vector of blocks. *)
Definition get_nonce_usages (blocks : list NonceUsageMap) : NonceUsageMap :=
  match reverse blocks with
  | [] => ∅
  | last :: blocks =>
      foldl (λ usages block, merge_with_previous_block usages (btree_iter block)) last blocks
  end.

(** ** Actions *)

(** The action of an optional usage. *)
Definition apply_usage (u : option NonceUsage) (n : N) : N :=
  match u with None => n | Some u => apply_to_account_nonce u n end.

Lemma known_possible nonce possible :
  u64_incr (foldl (λ nonce possible_nonce,
      if decide (u64_incr nonce = possible_nonce) then u64_incr nonce else nonce) nonce possible) =
    apply_possible_nonces_to_account_nonce (u64_incr nonce) possible.
Proof.
  unfold apply_possible_nonces_to_account_nonce.
  revert nonce. induction possible as [|p possible IH]; intros nonce; cbn [foldl]; [done|].
  rewrite IH. f_equal. repeat case_decide; congruence.
Qed.

(** Merging composes: the earlier usage acts first. *)
Lemma merge_with_previous_apply later earlier n :
  apply_to_account_nonce (merge_with_previous later earlier) n =
    apply_to_account_nonce later (apply_to_account_nonce earlier n).
Proof.
  destruct later as [l|l], earlier as [e|e]; cbn; [done|done|apply known_possible|].
  unfold apply_possible_nonces_to_account_nonce. by rewrite foldl_app.
Qed.

Lemma merge_with_previous_block_lookup usages previous a :
  NoDup previous.*1 →
  merge_with_previous_block usages previous !! a =
    match list_to_map (M:=NonceUsageMap) previous !! a with
    | None => usages !! a
    | Some p => Some (match usages !! a with None => p | Some u => merge_with_previous u p end)
    end.
Proof.
  revert usages. induction previous as [|[b p] previous IH]; intros usages; cbn; [done|].
  intros [Hb Hnd]%NoDup_cons. rewrite IH by done.
  destruct (decide (a = b)) as [->|Hne].
  - rewrite lookup_insert_eq, not_elem_of_list_to_map_1 by done. by rewrite lookup_insert_eq.
  - by rewrite !lookup_insert_ne by done.
Qed.

(** The entries of a block whose address is asked for. *)
Definition entries_of (P : Address → Prop) `{∀ a, Decision (P a)} (block : NonceUsageMap) :
    list (Address * NonceUsage) :=
  filter (λ p, P p.1) (btree_iter block).

Section entries.
Context (P : Address → Prop) `{∀ a, Decision (P a)}.

Lemma entries_of_NoDup block : NoDup (entries_of P block).*1.
Proof.
  unfold entries_of. generalize (NoDup_btree_keys block). unfold btree_keys.
  induction (btree_iter block) as [|[b u] l IH]; [done|]. cbn [fmap list_fmap fst].
  intros [Hb Hnd]%NoDup_cons. rewrite filter_cons. cbn [fst]. case_decide; [|auto].
  cbn [fmap list_fmap fst]. apply NoDup_cons. split; [|auto].
  rewrite list_elem_of_fmap. intros ([c v] & -> & [_ Hin]%list_elem_of_filter).
  apply Hb, list_elem_of_fmap. eauto.
Qed.

Lemma entries_of_lookup block a :
  P a → list_to_map (M:=NonceUsageMap) (entries_of P block) !! a = block !! a.
Proof.
  intros Ha. apply option_eq. intros u.
  rewrite <- elem_of_list_to_map by apply entries_of_NoDup.
  unfold entries_of. rewrite list_elem_of_filter, elem_of_btree_iter. naive_solver.
Qed.

Lemma merge_block_apply usages block a n :
  P a →
  apply_usage (merge_with_previous_block usages (entries_of P block) !! a) n =
    apply_usage (usages !! a) (apply_usage (block !! a) n).
Proof.
  intros Ha. rewrite merge_with_previous_block_lookup, entries_of_lookup by
    (done || apply entries_of_NoDup).
  destruct (block !! a), (usages !! a); cbn; [apply merge_with_previous_apply|done..].
Qed.

(** Merging a sequence of blocks, the latest first. *)
Lemma merge_blocks_apply blocks usages a n :
  P a →
  apply_usage (foldl (λ usages block, merge_with_previous_block usages (entries_of P block))
    usages (reverse blocks) !! a) n =
    apply_usage (usages !! a) (foldl (λ n block, apply_usage (block !! a) n) n blocks).
Proof.
  intros Ha. revert usages n. induction blocks as [|b blocks IH] using rev_ind; intros usages n; [done|].
  rewrite reverse_app, foldl_app. cbn [foldl reverse rev_append app]. cbn.
  rewrite IH, merge_block_apply, foldl_app by done. done.
Qed.
End entries.

(** The nonce usages retrieved from a sequence of blocks act on account nonces as
    the blocks one after the other: merging is composition, whatever mixture of known
    and possible nonces the blocks have, and also when nonces wrap around. *)
Theorem nonce_usages_compose (blocks : list NonceUsageMap) (a : Address) (n : N) :
  apply_usage (get_nonce_usages blocks !! a) n = foldl (λ n block, apply_usage (block !! a) n) n blocks.
Proof.
  unfold get_nonce_usages. induction blocks as [|b blocks _] using rev_ind; [done|].
  rewrite reverse_app. cbn.
  assert (Hall : ∀ usages l, foldl (λ usages block, merge_with_previous_block usages (btree_iter block)) usages l =
    foldl (λ usages block, merge_with_previous_block usages (entries_of (λ _, True) block)) usages l).
  { intros usages l. revert usages. induction l as [|x l IH]; intros usages; cbn; [done|]. rewrite IH.
    do 2 f_equal. unfold entries_of. clear. induction (btree_iter x) as [|p l IH]; [done|].
    by rewrite filter_cons_True, <- IH. }
  rewrite Hall, merge_blocks_apply, foldl_app by done. done.
Qed.
