(* ===== verification/TxValidation.v ===== *)
(** * Static validation of transactions ([src/eth-block-policy/src/validation.rs]) *)
From S2P Require Import Prelude Types.
From S2P Require Import SignatureCollection Certificates Tree ChainConfig Timestamp EthTypes.

Inductive StaticValidationError :=
  | InvalidChainId (tx_chain_id : N)
  | MaxPriorityOverMaxFee (tx_max_priority_fee tx_max_fee_per_gas : N)
  | InitCodeLimitExceeded (tx_input_len max_init_code_size : N)
  | EncodedLengthLimitExceeded
  | GasLimitUnderFloorDataGas (tx_gas_limit floor_data_gas : N)
  | GasLimitUnderIntrinsicGas (tx_gas_limit intrinsic_gas : N)
  | GasLimitOverTFMGasLimit (tx_gas_limit tfm_max_gas_limit : N)
  | GasLimitOverProposalGasLimit (tx_gas_limit proposal_gas_limit : N)
  | InvalidSignature
  | UnsupportedTransactionType
  | AuthorizationListEmpty
  | AuthorizationListLengthLimitExceeded.

Definition TFM_MAX_GAS_LIMIT : N := 30000000.
Definition EIP_7702_PER_EMPTY_ACCOUNT_COST : N := 25000.

Definition u64_saturating_mul (a b : N) : N := ((a * b) `min` u64_MAX)%N.
Definition u64_wrap (n : N) : N := (n `mod` (u64_MAX + 1))%N.

Section validation.
Context `{!EthTransactions}.

Definition input_len (tx : TxEnvelope) : N := N.of_nat (length (tx_input tx)).
Definition zero_data_len (tx : TxEnvelope) : N := N.of_nat (length (filter (.= 0%N) (tx_input tx))).

Definition TfmValidator_validate (tx : TxEnvelope) (chain_params : ChainParams) :
    result () StaticValidationError :=
  if decide (TFM_MAX_GAS_LIMIT < tx_gas_limit tx)%N
  then Err (GasLimitOverTFMGasLimit (tx_gas_limit tx) TFM_MAX_GAS_LIMIT)
  else if decide (proposal_gas_limit chain_params < tx_gas_limit tx)%N
  then Err (GasLimitOverProposalGasLimit (tx_gas_limit tx) (proposal_gas_limit chain_params))
  else Ok ().

Definition eip_2 (tx : TxEnvelope) : result () StaticValidationError :=
  if tx_high_s tx then Err InvalidSignature else Ok ().

Definition eip_155 (tx : TxEnvelope) (chain_id : N) : result () StaticValidationError :=
  match tx_chain_id tx with
  | Some tx_chain_id =>
      if decide (tx_chain_id ≠ chain_id) then Err (InvalidChainId tx_chain_id) else Ok ()
  | None => Ok ()
  end.

Definition eip_1559 (tx : TxEnvelope) : result () StaticValidationError :=
  match tx_max_priority_fee_per_gas tx with
  | Some tx_max_priority_fee =>
      if decide (tx_max_fee_per_gas tx < tx_max_priority_fee)%N
      then Err (MaxPriorityOverMaxFee tx_max_priority_fee (tx_max_fee_per_gas tx))
      else Ok ()
  | None => Ok ()
  end.

Definition eip_3860 (tx : TxEnvelope) (execution_chain_params : ExecutionChainParams) :
    result () StaticValidationError :=
  let max_init_code_size := u64_wrap (2 * max_code_size execution_chain_params) in
  if decide (is_create tx = true ∧ (max_init_code_size < input_len tx)%N)
  then Err (InitCodeLimitExceeded (input_len tx) max_init_code_size)
  else Ok ().

(** The 64-bit sums wrap around; the last step saturates. *)
Definition compute_intrinsic_gas (tx : TxEnvelope) : N :=
  let non_zero_data_len := (input_len tx - zero_data_len tx)%N in
  let access_list := default [] (tx_access_list tx) in
  let accessed_slots := N.of_nat (sum_list_with (λ item : Address * list N, length item.2) access_list) in
  let intrinsic_gas := u64_wrap (21000 + zero_data_len tx * 4 + non_zero_data_len * 16
    + (if is_create tx then 32000 + (input_len tx + 31) / 32 * 2 else 0)
    + N.of_nat (length access_list) * 2400 + accessed_slots * 1900)%N in
  if is_eip7702 tx then
    match tx_authorization_list tx with
    | Some auth_list =>
        u64_saturating_add intrinsic_gas
          (u64_saturating_mul EIP_7702_PER_EMPTY_ACCOUNT_COST (N.of_nat (length auth_list)))
    | None => intrinsic_gas
    end
  else intrinsic_gas.

Definition intrinsic_gas_validation (tx : TxEnvelope) : result () StaticValidationError :=
  let intrinsic_gas := compute_intrinsic_gas tx in
  if decide (tx_gas_limit tx < intrinsic_gas)%N
  then Err (GasLimitUnderIntrinsicGas (tx_gas_limit tx) intrinsic_gas)
  else Ok ().

Definition compute_floor_data_gas (tx : TxEnvelope) : N :=
  let non_zero_data_len := (input_len tx - zero_data_len tx)%N in
  u64_wrap (21000 + (zero_data_len tx * 10 + non_zero_data_len * 40)).

Definition eip_7623 (tx : TxEnvelope) : result () StaticValidationError :=
  let floor_data_gas := compute_floor_data_gas tx in
  if decide (tx_gas_limit tx < floor_data_gas)%N
  then Err (GasLimitUnderFloorDataGas (tx_gas_limit tx) floor_data_gas)
  else Ok ().

Definition eip_7702 (tx : TxEnvelope) (execution_chain_params : ExecutionChainParams) :
    result () StaticValidationError :=
  if negb (is_eip7702 tx) then Ok ()
  else if negb (prague_enabled execution_chain_params) then Err UnsupportedTransactionType
  else match tx_authorization_list tx with
  | Some (_ :: _) => Ok ()
  | _ => Err AuthorizationListEmpty
  end.

Definition EthPragueForkValidation_validate (tx : TxEnvelope)
    (execution_chain_params : ExecutionChainParams) : result () StaticValidationError :=
  _ ←! (if prague_enabled execution_chain_params then eip_7623 tx else Ok ());
  eip_7702 tx execution_chain_params.

Definition static_validate_transaction (tx : TxEnvelope) (chain_id : N) (chain_params : ChainParams)
    (execution_chain_params : ExecutionChainParams) : result () StaticValidationError :=
  if is_eip4844 tx then Err UnsupportedTransactionType
  else
    _ ←! TfmValidator_validate tx chain_params;
    _ ←! eip_2 tx;
    _ ←! eip_155 tx chain_id;
    _ ←! eip_1559 tx;
    _ ←! eip_3860 tx execution_chain_params;
    _ ←! intrinsic_gas_validation tx;
    EthPragueForkValidation_validate tx execution_chain_params.

(** What a statically valid transaction satisfies. *)
Record statically_valid (tx : TxEnvelope) (chain_id : N) (params : ChainParams)
    (exec : ExecutionChainParams) : Prop := {
  sv_type : tx_type tx ≠ Eip4844;
  sv_gas : (compute_intrinsic_gas tx ≤ tx_gas_limit tx ≤ TFM_MAX_GAS_LIMIT `min` proposal_gas_limit params)%N;
  sv_signature : tx_high_s tx = false;
  sv_chain : tx_chain_id tx = None ∨ tx_chain_id tx = Some chain_id;
  sv_priority f : tx_max_priority_fee_per_gas tx = Some f → (f ≤ tx_max_fee_per_gas tx)%N;
  sv_init_code : tx_kind tx = Create → (input_len tx ≤ u64_wrap (2 * max_code_size exec))%N;
  sv_floor : prague_enabled exec = true → (compute_floor_data_gas tx ≤ tx_gas_limit tx)%N;
  sv_7702 : tx_type tx = Eip7702 →
    prague_enabled exec = true ∧ ∃ a l, tx_authorization_list tx = Some (a :: l);
}.

(** Static validation accepts exactly the transactions with these properties. *)
Lemma static_validate_transaction_iff tx chain_id params exec :
  static_validate_transaction tx chain_id params exec = Ok () ↔
    statically_valid tx chain_id params exec.
Proof.
  unfold static_validate_transaction, EthPragueForkValidation_validate, is_eip4844.
  case_bool_decide as H4844; [split; [done|by intros []]|].
  repeat setoid_rewrite res_try_Ok.
  unfold TfmValidator_validate, eip_2, eip_155, eip_1559, eip_3860, intrinsic_gas_validation,
    eip_7702, eip_7623, is_eip7702, is_create. split.
  - intros ([] & Hgas & [] & Hs & [] & Hc & [] & Hp & [] & Hi & [] & Hg & [] & Hf & H7).
    split; try done.
    + repeat case_decide; try done; lia.
    + clear - Hs. by destruct (tx_high_s tx).
    + clear - Hc. destruct (tx_chain_id tx); [|by left]. right. f_equal. case_decide; [done|tauto].
    + clear - Hp. intros f Hf'. rewrite Hf' in Hp. case_decide; [done|lia].
    + clear - Hi. intros Hk. rewrite bool_decide_eq_true_2 in Hi by done. case_decide; [done|]. naive_solver lia.
    + clear - Hf. intros Hpr. rewrite Hpr in Hf. case_decide; [done|lia].
    + intros Ht. rewrite bool_decide_eq_true_2 in H7 by done. cbn in H7.
      destruct (prague_enabled exec); [|done]. split; [done|]. cbn in H7.
      destruct (tx_authorization_list tx) as [[|a l]|]; naive_solver.
  - intros [_ Hgas Hs Hc Hp Hi Hf H7].
    exists (). split; [rewrite !decide_False by lia; done|].
    exists (). split; [by rewrite Hs|].
    exists (). split; [destruct Hc as [->| ->]; [done|by rewrite decide_False by tauto]|].
    exists (). split; [destruct (tx_max_priority_fee_per_gas tx); [rewrite decide_False by (apply N.nlt_ge; auto); done|done]|].
    exists (). split; [rewrite decide_False; [done|]; intros [Hk%bool_decide_eq_true Hlt]; specialize (Hi Hk); lia|].
    exists (). split; [rewrite decide_False by lia; done|].
    exists (). split; [destruct (prague_enabled exec); [rewrite decide_False by (apply N.nlt_ge; auto); done|done]|].
    case_bool_decide as Ht; cbn; [|done]. destruct (H7 Ht) as [-> (a & l & ->)]. done.
Qed.
End validation.
