(* ===== verification/SystemCalls.v ===== *)
(** * System transactions ([src/system-calls/src])

    The transactions every block must start with: the expected system calls of a
    block, their encoding as transactions of the system sender, and the checks of
    the validator.  The signer and the ABI encoder are the class [SystemSigning]. *)
From S2P Require Import Prelude Types.
From S2P Require Import SignatureCollection Certificates Tree ChainConfig Timestamp EthTypes.

Definition SYSTEM_SENDER_ETH_ADDRESS : Address := 0x6f49a8F621353f12378d0046E7d7e4b9B249DC9e%N.
Definition STAKING_CONTRACT_ADDRESS : Address := 0x1000%N.
Definition REWARD_FUNCTION_SELECTOR : list N := [0x79; 0x1b; 0xdc; 0xf3]%N.
Definition SNAPSHOT_FUNCTION_SELECTOR : list N := [0x15; 0x7e; 0xeb; 0x21]%N.
Definition EPOCH_CHANGE_FUNCTION_SELECTOR : list N := [0x1d; 0x4e; 0x9f; 0x02]%N.
Definition MON : N := 1000000000000000000.

Inductive SystemTransactionError :=
  | UnexpectedSenderAddress
  | InvalidTxType
  | SysInvalidChainId
  | InvalidTxSignature
  | NonZeroGasPrice
  | NonZeroGasLimit
  | InvalidTxKind
  | UnexpectedDestAddress (expected : Address) (actual : option Address)
  | UnexpectedInput (expected_input actual_input : list N)
  | UnexpectedValue (expected_value actual_value : N).

Inductive SystemTransactionValidationError :=
  | MissingSystemTransaction
  | UnexpectedSystemTransaction
  | InvalidSystemTransaction (e : SystemTransactionError).

Inductive StakingContractCall :=
  | Reward (block_author_address : Address) (block_reward : N)
  | Snapshot
  | EpochChange (new_epoch : Epoch).

Inductive SystemCall := SysStakingContractCall (c : StakingContractCall).

Inductive StakingContractTransaction `{!EthTransactions} :=
  | TxReward (t : Recovered)
  | TxSnapshot (t : Recovered)
  | TxEpochChange (t : Recovered).

Inductive SystemTransaction `{!EthTransactions} :=
  | SysStakingContractTransaction (t : StakingContractTransaction).

(** Signing a legacy transaction with the system key, and ABI encodings. *)
Class SystemSigning `{!EthTransactions} := {
  sign_legacy : TxLegacy → TxEnvelope;
  abi_encode_address : Address → list N;
  abi_encode_u64 : N → list N;
  sign_legacy_type t : tx_type (sign_legacy t) = Legacy;
  sign_legacy_chain_id t : tx_chain_id (sign_legacy t) = leg_chain_id t;
  sign_legacy_nonce t : (leg_nonce t ≤ u64_MAX)%N → tx_nonce (sign_legacy t) = leg_nonce t;
  sign_legacy_gas_price t : tx_gas_price (sign_legacy t) = Some (leg_gas_price t);
  sign_legacy_gas_limit t : (leg_gas_limit t ≤ u64_MAX)%N → tx_gas_limit (sign_legacy t) = leg_gas_limit t;
  sign_legacy_kind t : tx_kind (sign_legacy t) = leg_to t;
  sign_legacy_value t : (leg_value t ≤ u256_MAX)%N → tx_value (sign_legacy t) = leg_value t;
  sign_legacy_input t : tx_input (sign_legacy t) = leg_input t;
  sign_legacy_low_s t : tx_high_s (sign_legacy t) = false;
}.

Section system_calls.
Context `{!EthTransactions, !SystemSigning, !U256Ops} {CC : Type} `{!ChainConfig CC}.

Definition sign_with_system_sender (transaction : TxLegacy) : Recovered :=
  {| rec_tx := sign_legacy transaction; signer := SYSTEM_SENDER_ETH_ADDRESS |}.

(** ** Staking contract calls ([staking_contract.rs]) *)

Definition starts_with (input prefix : list N) : bool := bool_decide (prefix `prefix_of` input).

Definition is_restricted_staking_contract_call (txn : Recovered) : bool :=
  if decide (tx_to (rec_tx txn) = Some STAKING_CONTRACT_ADDRESS) then
    let input := tx_input (rec_tx txn) in
    starts_with input REWARD_FUNCTION_SELECTOR || starts_with input SNAPSHOT_FUNCTION_SELECTOR
      || starts_with input EPOCH_CHANGE_FUNCTION_SELECTOR
  else false.

Definition get_transaction_value (self : StakingContractCall) : N :=
  match self with
  | Reward _ block_reward => block_reward
  | Snapshot => 0
  | EpochChange _ => 0
  end.

Definition get_transaction_input (self : StakingContractCall) : list N :=
  match self with
  | Reward block_author_address _ =>
      REWARD_FUNCTION_SELECTOR ++ abi_encode_address block_author_address
  | Snapshot => SNAPSHOT_FUNCTION_SELECTOR
  | EpochChange new_epoch => EPOCH_CHANGE_FUNCTION_SELECTOR ++ abi_encode_u64 new_epoch
  end.

Definition as_legacy_transaction (self : StakingContractCall) (chain_id nonce : N) : TxLegacy := {|
  leg_chain_id := Some chain_id; leg_nonce := nonce; leg_gas_price := 0; leg_gas_limit := 0;
  leg_to := Call STAKING_CONTRACT_ADDRESS;
  leg_value := get_transaction_value self; leg_input := get_transaction_input self |}.

Definition into_signed_transaction (self : StakingContractCall) (chain_id nonce : N) :
    StakingContractTransaction :=
  let signed := sign_with_system_sender (as_legacy_transaction self chain_id nonce) in
  match self with
  | Reward _ _ => TxReward signed
  | Snapshot => TxSnapshot signed
  | EpochChange _ => TxEpochChange signed
  end.

Definition into_inner (self : StakingContractTransaction) : Recovered :=
  match self with TxReward t => t | TxSnapshot t => t | TxEpochChange t => t end.

(** Checks the input, then the value. *)
Definition check_input_value (expected_input : list N) (expected_value : N) (txn : TxEnvelope) :
    result () SystemTransactionError :=
  if decide (tx_input txn ≠ expected_input) then Err (UnexpectedInput expected_input (tx_input txn))
  else if decide (tx_value txn ≠ expected_value)
  then Err (UnexpectedValue expected_value (tx_value txn))
  else Ok ().

Definition staking_validate_input (self : StakingContractCall) (system_txn : ValidatedTx) :
    result () SystemTransactionError :=
  let to := tx_to (vt_envelope system_txn) in
  if decide (to ≠ Some STAKING_CONTRACT_ADDRESS)
  then Err (UnexpectedDestAddress STAKING_CONTRACT_ADDRESS to)
  else match self with
  | Reward _ block_reward =>
      check_input_value (get_transaction_input self) block_reward (vt_envelope system_txn)
  | Snapshot => check_input_value (get_transaction_input self) 0 (vt_envelope system_txn)
  | EpochChange _ => check_input_value (get_transaction_input self) 0 (vt_envelope system_txn)
  end.

(** ** System calls ([lib.rs]) *)

Definition is_restricted_system_call (txn : Recovered) : bool :=
  is_restricted_staking_contract_call txn.

Definition validate_system_transaction_input (self : SystemCall) (sys_txn : ValidatedTx) :
    result () SystemTransactionError :=
  match self with SysStakingContractCall c => staking_validate_input c sys_txn end.

Definition call_into_signed_transaction (self : SystemCall) (chain_id nonce : N) : SystemTransaction :=
  match self with
  | SysStakingContractCall c => SysStakingContractTransaction (into_signed_transaction c chain_id nonce)
  end.

Definition system_into_recovered (sys_txn : SystemTransaction) : Recovered :=
  match sys_txn with SysStakingContractTransaction t => into_inner t end.

Definition generate_system_calls (proposed_seq_num : SeqNum) (proposed_epoch : Epoch)
    (proposed_round : Round) (parent_block_epoch : Epoch) (block_author_address : Address)
    (chain_config : CC) : run (list SystemCall) :=
  let epoch_length := cfg_epoch_length chain_config in
  let staking_activation := cfg_staking_activation chain_config in
  boundary ← is_boundary_block proposed_seq_num epoch_length;
  generate_snapshot_txn ←
    (if (boundary : bool) then
       locked ← get_locked_epoch proposed_seq_num epoch_length;
       Ret (bool_decide (staking_activation ≤ locked)%N)
     else Ret false);
  let snapshot := if (generate_snapshot_txn : bool) then [SysStakingContractCall Snapshot] else [] in
  is_first_epoch_block ←
    (if decide (parent_block_epoch ≠ proposed_epoch) then
       before ← Epoch_sub staking_activation 1;
       Ret (bool_decide (before ≤ proposed_epoch)%N)
     else Ret false);
  first ← SeqNum_add GENESIS_SEQ_NUM 1;
  let is_genesis_block := bool_decide (proposed_seq_num = first ∧ staking_activation = 2%N) in
  let generate_epoch_change_txn := (is_first_epoch_block : bool) || is_genesis_block in
  let epoch_change :=
    if generate_epoch_change_txn then [SysStakingContractCall (EpochChange proposed_epoch)] else [] in
  let reward :=
    if decide (staking_activation ≤ proposed_epoch)%N then
      let block_reward_mon := cfg_block_reward_mon chain_config proposed_epoch proposed_round in
      [SysStakingContractCall (Reward block_author_address (u256_mul MON block_reward_mon))]
    else [] in
  Ret (snapshot ++ epoch_change ++ reward).

(** The transactions, with consecutive (wrapping) nonces. *)
Fixpoint sign_calls (chain_id : N) (next_system_txn_nonce : N) (calls : list SystemCall) :
    list SystemTransaction :=
  match calls with
  | [] => []
  | c :: calls =>
      call_into_signed_transaction c chain_id next_system_txn_nonce ::
      sign_calls chain_id (u64_incr next_system_txn_nonce) calls
  end.

Definition generate_system_transactions (proposed_seq_num : SeqNum) (proposed_epoch : Epoch)
    (proposed_round : Round) (parent_block_epoch : Epoch) (block_author : Address)
    (next_system_txn_nonce : N) (chain_config : CC) : run (list SystemTransaction) :=
  calls ← generate_system_calls proposed_seq_num proposed_epoch proposed_round parent_block_epoch
    block_author chain_config;
  Ret (sign_calls (cfg_chain_id chain_config) next_system_txn_nonce calls).

(** ** The validator ([validator.rs]) *)

Definition is_system_sender (address : Address) : bool :=
  bool_decide (address = SYSTEM_SENDER_ETH_ADDRESS).

Definition static_validate_system_transaction (txn : Recovered) (chain_config : CC) :
    result () SystemTransactionError :=
  let t := rec_tx txn in
  if negb (is_system_sender (signer txn)) then Err UnexpectedSenderAddress
  else if negb (is_legacy t) then Err InvalidTxType
  else if decide (tx_chain_id t ≠ Some (cfg_chain_id chain_config)) then Err SysInvalidChainId
  else if tx_high_s t then Err InvalidTxSignature
  else if decide (tx_gas_price t ≠ Some 0%N) then Err NonZeroGasPrice
  else if decide (tx_gas_limit t ≠ 0%N) then Err NonZeroGasLimit
  else match tx_kind t with Call _ => Ok () | Create => Err InvalidTxKind end.

(** [timestamp_ns / 1e9], saturated to 64 bits. *)
Definition timestamp_secs (timestamp_ns : N) : N := ((timestamp_ns / 1000000000) `min` u64_MAX)%N.

Definition validates_system_txs (timestamp_ns : N) (chain_config : CC) : bool :=
  validate_system_txs (execution_chain_params
    (cfg_execution_chain_revision chain_config (timestamp_secs timestamp_ns))).

(** The leading transactions of the system sender, statically validated. *)
Fixpoint take_system (txns : list Recovered) (chain_config : CC) :
    result (list ValidatedTx * list Recovered) SystemTransactionValidationError :=
  match txns with
  | [] => Ok ([], [])
  | txn :: rest =>
      if negb (is_system_sender (signer txn)) then Ok ([], txns)
      else match static_validate_system_transaction txn chain_config with
      | Err e => Err (InvalidSystemTransaction e)
      | Ok _ =>
          '(sys_txns, users) ←! take_system rest chain_config;
          Ok ({| vt_tx := txn; authorizations_7702 := [] |} :: sys_txns, users)
      end
  end.

Definition extract_system_transactions (timestamp_ns : N) (recovered_txns : list Recovered)
    (chain_config : CC) :
    result (list ValidatedTx * list Recovered) SystemTransactionValidationError :=
  if negb (validates_system_txs timestamp_ns chain_config) then Ok ([], recovered_txns)
  else
    '(sys_txns, users) ←! take_system recovered_txns chain_config;
    if existsb (λ t, is_system_sender (signer t) || is_restricted_system_call t) users
    then Err UnexpectedSystemTransaction
    else Ok (sys_txns, users).

Fixpoint check_calls (calls : list SystemCall) (sys_txns : list ValidatedTx) :
    result () SystemTransactionValidationError :=
  match calls, sys_txns with
  | c :: calls, t :: sys_txns =>
      match validate_system_transaction_input c t with
      | Err e => Err (InvalidSystemTransaction e)
      | Ok _ => check_calls calls sys_txns
      end
  | _, _ => Ok ()
  end.

Definition validate_system_transactions_input (seq_num : SeqNum) (epoch : Epoch) (round : Round)
    (timestamp_ns : N) (author : Address) (parent_block_epoch : Epoch) (sys_txns : list ValidatedTx)
    (chain_config : CC) : run (result () SystemTransactionValidationError) :=
  if negb (validates_system_txs timestamp_ns chain_config) then
    assert (length sys_txns = 0) ≫= λ _, Ret (Ok ())
  else
    expected_sys_calls ← generate_system_calls seq_num epoch round parent_block_epoch author chain_config;
    if decide (length expected_sys_calls ≠ length sys_txns)
    then Ret (Err UnexpectedSystemTransaction)
    else Ret (check_calls expected_sys_calls sys_txns).

(** ** What leaders generate, validators accept *)

Definition as_validated (t : Recovered) : ValidatedTx := {| vt_tx := t; authorizations_7702 := [] |}.

(** The content of a system transaction. *)
Definition content (t : ValidatedTx) : option Address * list N * N :=
  (tx_to (vt_envelope t), tx_input (vt_envelope t), tx_value (vt_envelope t)).

Definition call_content (c : SystemCall) : option Address * list N * N :=
  match c with
  | SysStakingContractCall c =>
      (Some STAKING_CONTRACT_ADDRESS, get_transaction_input c, get_transaction_value c)
  end.

(** The nonces of consecutive transactions. *)
Fixpoint nonces_from (nonce : N) (n : nat) : list N :=
  match n with 0 => [] | S n => nonce :: nonces_from (u64_incr nonce) n end.

Lemma signed_call c chain_id nonce :
  let t := system_into_recovered (call_into_signed_transaction c chain_id nonce) in
  t = sign_with_system_sender (match c with SysStakingContractCall c =>
        as_legacy_transaction c chain_id nonce end).
Proof. by destruct c as [[]]. Qed.

Lemma check_input_value_Ok i v t :
  check_input_value i v t = Ok () ↔ tx_input t = i ∧ tx_value t = v.
Proof. unfold check_input_value. repeat case_decide; naive_solver. Qed.

Lemma validate_input_content c t :
  validate_system_transaction_input c t = Ok () ↔ content t = call_content c.
Proof.
  destruct c as [c]. unfold validate_system_transaction_input, staking_validate_input, content, call_content.
  case_decide as Hto; [split; [done|intros [= ?]; tauto]|].
  rewrite Hto.
  destruct c; rewrite check_input_value_Ok; (split; [by intros [-> ->]|by intros [= -> ->]]).
Qed.

Lemma check_calls_content calls sys_txns :
  length calls = length sys_txns →
  check_calls calls sys_txns = Ok () ↔ content <$> sys_txns = call_content <$> calls.
Proof.
  revert sys_txns. induction calls as [|c calls IH]; intros [|t sys_txns]; try done.
  intros [= Hlen]. cbn [check_calls fmap list_fmap]. specialize (IH _ Hlen).
  pose proof (validate_input_content c t) as Hc.
  destruct (validate_system_transaction_input c t) as [[]|e].
  - rewrite IH. destruct Hc as [Hc _]. rewrite Hc by done. split; [by intros ->|by intros [=]].
  - split; [done|]. intros [= Ht _]. by apply Hc in Ht.
Qed.

Lemma static_validate_signed c chain_config nonce :
  static_validate_system_transaction
    (system_into_recovered (call_into_signed_transaction c (cfg_chain_id chain_config) nonce))
    chain_config = Ok ().
Proof.
  rewrite signed_call. destruct c as [c]. unfold static_validate_system_transaction, is_system_sender, is_legacy.
  cbn [signer rec_tx sign_with_system_sender].
  rewrite sign_legacy_type, sign_legacy_chain_id, sign_legacy_low_s, sign_legacy_gas_price,
    sign_legacy_gas_limit, sign_legacy_kind by done.
  rewrite !bool_decide_eq_true_2, !decide_False by tauto. done.
Qed.

Definition call_value (c : SystemCall) : N :=
  match c with SysStakingContractCall c => get_transaction_value c end.

Lemma content_signed c chain_id nonce :
  (call_value c ≤ u256_MAX)%N →
  content (as_validated (system_into_recovered (call_into_signed_transaction c chain_id nonce))) =
    call_content c.
Proof.
  intros Hv. rewrite signed_call. destruct c as [c]. unfold content, tx_to. cbn.
  by rewrite sign_legacy_kind, sign_legacy_input, sign_legacy_value.
Qed.

Lemma take_system_signed chain_config calls nonce users :
  Forall (λ t, is_system_sender (signer t) = false) users →
  take_system ((system_into_recovered <$> sign_calls (cfg_chain_id chain_config) nonce calls) ++ users)
    chain_config =
    Ok (as_validated ∘ system_into_recovered <$> sign_calls (cfg_chain_id chain_config) nonce calls, users).
Proof.
  intros Hu. revert nonce. induction calls as [|c calls IH]; intros nonce; cbn [sign_calls fmap list_fmap app].
  - destruct users as [|u users]; [done|]. apply Forall_cons in Hu as [Hu _]. cbn. by rewrite Hu.
  - cbn [take_system]. rewrite signed_call at 1. cbn [signer sign_with_system_sender].
    unfold is_system_sender. rewrite bool_decide_eq_true_2 by done. cbn [negb].
    by rewrite static_validate_signed, IH.
Qed.

Lemma u64_incr_le n : (u64_incr n ≤ u64_MAX)%N.
Proof. unfold u64_incr. pose proof (N.mod_lt (n + 1) (u64_MAX + 1)). lia. Qed.

Lemma signed_nonces chain_id calls nonce :
  (nonce ≤ u64_MAX)%N →
  vt_nonce <$> (as_validated ∘ system_into_recovered <$> sign_calls chain_id nonce calls) =
    nonces_from nonce (length calls).
Proof.
  revert nonce. induction calls as [|c calls IH]; intros nonce; [done|].
  intros Hn. cbn [sign_calls fmap list_fmap nonces_from length]. rewrite IH by apply u64_incr_le. f_equal.
  unfold vt_nonce, vt_envelope, as_validated, compose. cbn [vt_tx]. rewrite signed_call.
  destruct c as [c]. cbn. by rewrite sign_legacy_nonce.
Qed.

(** The reward is the only value of a generated call. *)
Lemma generated_values seq_num epoch round parent_epoch author chain_config calls :
  generate_system_calls seq_num epoch round parent_epoch author chain_config = Ret calls →
  (cfg_block_reward_mon chain_config epoch round ≤ u64_MAX)%N →
  Forall (λ c, (call_value c ≤ u256_MAX)%N) calls.
Proof.
  unfold generate_system_calls. intros Hgen Hr.
  assert (Hmul : (MON * cfg_block_reward_mon chain_config epoch round ≤ u256_MAX)%N).
  { etrans; [apply N.mul_le_mono_l, Hr|]. vm_compute. discriminate. }
  apply run_bind_Ret in Hgen as (b & _ & (g & _ & (f & _ & (n & _ & [= <-])
    %run_bind_Ret)%run_bind_Ret)%run_bind_Ret).
  assert (Hz : (0 ≤ u256_MAX)%N) by lia.
  apply Forall_app_2; [destruct g|apply Forall_app_2; [destruct (_ || _)|case_decide]];
    try apply Forall_nil_2; apply Forall_singleton; cbn [call_value get_transaction_value]; try done.
  by rewrite u256_mul_exact.
Qed.

(** C29: The system transactions a leader generates for a block are the ones every
    validator accepts.  Placed before any user transactions (none from the system
    sender, none a restricted call), they are extracted unchanged, with consecutive
    nonces, and pass the input check for the same block.  Conversely any list of
    system transactions that passes it has, one by one, the same destinations, inputs
    and values. *)
Theorem system_transactions_agree (seq_num : SeqNum) (epoch : Epoch) (round : Round)
    (parent_epoch : Epoch) (author : Address) (nonce timestamp_ns : N) (chain_config : CC)
    (txns : list SystemTransaction) (users : list Recovered) :
  (nonce ≤ u64_MAX)%N → (cfg_block_reward_mon chain_config epoch round ≤ u64_MAX)%N →
  generate_system_transactions seq_num epoch round parent_epoch author nonce chain_config = Ret txns →
  validates_system_txs timestamp_ns chain_config = true →
  Forall (λ t, is_system_sender (signer t) = false ∧ is_restricted_system_call t = false) users →
  ∃ sys_txns,
    extract_system_transactions timestamp_ns ((system_into_recovered <$> txns) ++ users) chain_config =
      Ok (sys_txns, users) ∧
    vt_tx <$> sys_txns = system_into_recovered <$> txns ∧
    vt_nonce <$> sys_txns = nonces_from nonce (length txns) ∧
    ∀ sys_txns',
      validate_system_transactions_input seq_num epoch round timestamp_ns author parent_epoch
        sys_txns' chain_config = Ret (Ok ()) ↔ content <$> sys_txns' = content <$> sys_txns.
Proof.
  intros Hnonce Hreward. unfold generate_system_transactions. rewrite run_bind_Ret.
  intros (calls & Hcalls & [= <-]) Hval Husers. pose proof (generated_values _ _ _ _ _ _ _ Hcalls Hreward) as Hvals.
  eexists. split; [|split; [|split]].
  - unfold extract_system_transactions. rewrite Hval. cbn [negb].
    rewrite take_system_signed by (eapply Forall_impl; [done|]; by intros ? []). cbn [res_try].
    replace (existsb _ users) with false; [done|]. symmetry. apply not_true_iff_false.
    intros (t & Hin%list_elem_of_In & Ht)%existsb_exists.
    rewrite Forall_forall in Husers. destruct (Husers t Hin) as [Hs1 Hs2]. by rewrite Hs1, Hs2 in Ht.
  - rewrite <- list_fmap_compose. by apply list_fmap_ext.
  - rewrite signed_nonces by done. f_equal.
    clear. generalize nonce. induction calls as [|c calls IH]; intros n; [done|]. cbn. by rewrite <- IH.
  - intros sys'. unfold validate_system_transactions_input. rewrite Hval, Hcalls. cbn [negb mbind run_bind].
    assert (Hc : content <$> (as_validated ∘ system_into_recovered <$>
      sign_calls (cfg_chain_id chain_config) nonce calls) = call_content <$> calls).
    { clear - Hvals. revert nonce. induction Hvals as [|c calls Hc _ IH]; intros n; [done|].
      cbn [sign_calls fmap list_fmap]. rewrite IH. f_equal. by apply content_signed. }
    rewrite Hc. case_decide as Hlen.
    + split; [done|]. intros Heq%(f_equal length). rewrite !length_fmap in Heq. congruence.
    + rewrite <- check_calls_content by lia. split; [by intros [=]|by intros ->].
Qed.
End system_calls.
