(* ===== verification/EthBlockValidator.v ===== *)
(** * The Ethereum block validator ([src/eth-block-validator/src])

    Validation of a block header and body, and the summary of the body kept with the
    block: the nonces it uses and the fees its accounts owe. *)
From S2P Require Import Prelude Types.
From S2P Require Import SignatureCollection Certificates Tree ChainConfig Timestamp.
From S2P Require Import EthTypes NonceUsage TxValidation SystemCalls.

Inductive HeaderError :=
  | HdrPayloadMismatch (expected_body_id actual : N)
  | RandaoError
  | NonEmptyOmmersHash (h : N)
  | InvalidTransactionsRoot (expected actual : N)
  | NonEmptyWithdrawalsRoot (h : N)
  | NonZeroDifficulty (d : N)
  | InvalidHeaderNumber (expected actual : N)
  | InvalidGasLimit (expected actual : N)
  | InvalidTimestamp (consensus_header_timestamp eth_header_timestamp : N)
  | InvalidRoundSignatureHash (expected actual : N)
  | InvalidBaseFee (consensus_header_base_fee eth_header_base_fee : N)
  | NonEmptyHeaderNonce (n : N)
  | NonEmptyExtraData (d : N)
  | NonZeroBlockGasUsed (g : N)
  | NonZeroExcessBlobGas (g : N)
  | NonEmptyParentBeaconRoot (h : N)
  | InvalidRequestsHash (expected actual : option N).

Inductive PayloadError :=
  | NonEmptyOmmers (l : list ())
  | NonEmptyWithdrawals (l : list ())
  | ExceededNumTxnLimit (num_txs : N)
  | ExceededBlockGasLimit (total_gas : N)
  | ExceededBlockSizeLimit (txs_size : N).

Inductive TxnError `{!EthTransactions} :=
  | SignerRecoveryError (e : RecoverError)
  | TxStaticValidationError (e : StaticValidationError)
  | MaxFeeLessThanBaseFee
  | InvalidSystemAccountAuthorization
  | NonceOverflow
  | InvalidNonce.

Inductive EthBlockValidationError `{!EthTransactions} :=
  | HdrError (e : HeaderError)
  | BodyError (e : PayloadError)
  | SystemTxnError (e : SystemTransactionValidationError)
  | TransactionError (e : TxnError).

Section validator.
Context `{HC : Codec} `{!EthTransactions, !EthProtocol, !SystemSigning, !U256Ops}.
Context {CC : Type} `{!ChainConfig CC}.

Definition cfg_params (chain_config : CC) (round : Round) : ChainParams :=
  revision_params (cfg_chain_revision chain_config round).

Definition cfg_execution_params (chain_config : CC) (timestamp_ns : N) : ExecutionChainParams :=
  execution_chain_params (cfg_execution_chain_revision chain_config (timestamp_secs timestamp_ns)).

(** ** Header *)

Definition validate_block_header (header : ConsensusBlockHeader) (body : Body)
    (author_pubkey : option CPK) (chain_params : ChainParams)
    (execution_chain_params : ExecutionChainParams) : result () HeaderError :=
  let h := eth_inputs (execution_inputs header) in
  let expected_transactions_root := calculate_transaction_root (transactions (eth_body body)) in
  let expected_requests_hash := if prague_enabled execution_chain_params then Some 0%N else None in
  if decide (block_body_id header ≠ body_get_id body)
  then Err (HdrPayloadMismatch (body_get_id body) (block_body_id header))
  else if match author_pubkey with
          | Some k => negb (RoundSignature_verify (hdr_round_signature header) (block_round header) k)
          | None => false
          end then Err RandaoError
  else if decide (ommers_hash h ≠ EMPTY_OMMER_ROOT_HASH) then Err (NonEmptyOmmersHash (ommers_hash h))
  else if decide (transactions_root h ≠ expected_transactions_root)
  then Err (InvalidTransactionsRoot expected_transactions_root (transactions_root h))
  else if decide (withdrawals_root h ≠ EMPTY_WITHDRAWALS)
  then Err (NonEmptyWithdrawalsRoot (withdrawals_root h))
  else if decide (difficulty h ≠ 0%N) then Err (NonZeroDifficulty (difficulty h))
  else if decide (number h ≠ hdr_seq_num header)
  then Err (InvalidHeaderNumber (hdr_seq_num header) (number h))
  else if decide (gas_limit h ≠ proposal_gas_limit chain_params)
  then Err (InvalidGasLimit (proposal_gas_limit chain_params) (gas_limit h))
  else if decide (timestamp h ≠ (hdr_timestamp_ns header / 1000000000)%N)
  then Err (InvalidTimestamp (hdr_timestamp_ns header / 1000000000) (timestamp h))
  else if decide (mix_hash h ≠ round_signature_hash (hdr_round_signature header))
  then Err (InvalidRoundSignatureHash (round_signature_hash (hdr_round_signature header)) (mix_hash h))
  else if decide (eth_nonce h ≠ 0%N) then Err (NonEmptyHeaderNonce (eth_nonce h))
  else if decide (extra_data h ≠ 0%N) then Err (NonEmptyExtraData (extra_data h))
  else if decide (blob_gas_used h ≠ 0%N) then Err (NonZeroBlockGasUsed (blob_gas_used h))
  else if decide (excess_blob_gas h ≠ 0%N) then Err (NonZeroExcessBlobGas (excess_blob_gas h))
  else if decide (parent_beacon_block_root h ≠ 0%N)
  then Err (NonEmptyParentBeaconRoot (parent_beacon_block_root h))
  else if decide (base_fee header ≠ base_fee_per_gas h)
  then Err (InvalidBaseFee (base_fee header) (base_fee_per_gas h))
  else if decide (requests_hash h ≠ expected_requests_hash)
  then Err (InvalidRequestsHash expected_requests_hash (requests_hash h))
  else Ok ().

(** ** Body *)

(** [try_fold] with [checked_add]. *)
Fixpoint checked_sum (acc : N) (l : list N) : option N :=
  match l with
  | [] => Some acc
  | x :: l => acc ← u64_checked_add acc x; checked_sum acc l
  end.

(** The signers; of several failing recoveries the first is reported. *)
Fixpoint recover_all (txs : list TxEnvelope) : result (list Recovered) RecoverError :=
  match txs with
  | [] => Ok []
  | tx :: txs =>
      signer ←! secp256k1_recover tx;
      rest ←! recover_all txs;
      Ok ({| rec_tx := tx; signer := signer |} :: rest)
  end.

Fixpoint static_validate_all (txs : list Recovered) (chain_id : N) (chain_params : ChainParams)
    (execution_chain_params : ExecutionChainParams) : result () StaticValidationError :=
  match txs with
  | [] => Ok ()
  | tx :: txs =>
      _ ←! static_validate_transaction (rec_tx tx) chain_id chain_params execution_chain_params;
      static_validate_all txs chain_id chain_params execution_chain_params
  end.

(** The authorizations of a transaction whose authority can be recovered. *)
Definition recovered_authorizations (tx : TxEnvelope) : list RecoveredAuthorization :=
  if is_eip7702 tx then
    omap (λ signed_auth, authority ← recover_authority signed_auth;
            Some {| ra_inner := authorization_inner signed_auth; ra_authority := Some authority |})
      (default [] (tx_authorization_list tx))
  else [].

Definition to_validated (tx : Recovered) : ValidatedTx :=
  {| vt_tx := tx; authorizations_7702 := recovered_authorizations (rec_tx tx) |}.

Fixpoint system_nonce_loop (sys_txns : list ValidatedTx) (nonce_usages : NonceUsageMap) :
    result NonceUsageMap TxnError :=
  match sys_txns with
  | [] => Ok nonce_usages
  | sys_txn :: sys_txns =>
      let '(old, nonce_usages) := add_known nonce_usages (vt_signer sys_txn) (vt_nonce sys_txn) in
      match old with
      | Some (Possible _) => Err InvalidNonce
      | Some (Known old_nonce) =>
          match u64_checked_add old_nonce 1 with
          | None => Err NonceOverflow
          | Some expected_nonce =>
              if decide (expected_nonce ≠ vt_nonce sys_txn) then Err InvalidNonce
              else system_nonce_loop sys_txns nonce_usages
          end
      | None => system_nonce_loop sys_txns nonce_usages
      end
  end.

Definition delegate_fee (f : option TxnFee) : TxnFee :=
  match f with
  | Some e =>
      {| first_txn_value := first_txn_value e; first_txn_gas := first_txn_gas e;
         max_gas_cost := max_gas_cost e; fee_is_delegated := true;
         delegation_before_first_txn := delegation_before_first_txn e |}
  | None =>
      {| first_txn_value := 0; first_txn_gas := 0; max_gas_cost := 0;
         fee_is_delegated := true; delegation_before_first_txn := true |}
  end.

(** Authorizations for another chain are skipped for nonce tracking. *)
Definition other_chain (auth : RecoveredAuthorization) (chain_id : N) : bool :=
  bool_decide (auth_chain_id (ra_inner auth) ≠ 0%N ∧ auth_chain_id (ra_inner auth) ≠ chain_id).

Fixpoint authorization_loop (chain_id : N) (auths : list RecoveredAuthorization)
    (nonce_usages : NonceUsageMap) (txn_fees : TxnFees) :
    result (NonceUsageMap * TxnFees) TxnError :=
  match auths with
  | [] => Ok (nonce_usages, txn_fees)
  | auth :: auths =>
      match ra_authority auth with
      | None => authorization_loop chain_id auths nonce_usages txn_fees
      | Some authority =>
          if decide (authority = SYSTEM_SENDER_ETH_ADDRESS) then Err InvalidSystemAccountAuthorization
          else
            let txn_fees := <[authority := delegate_fee (txn_fees !! authority)]> txn_fees in
            if other_chain auth chain_id
            then authorization_loop chain_id auths nonce_usages txn_fees
            else
              let nonce := auth_nonce (ra_inner auth) in
              match nonce_usages !! authority with
              | Some (Known known) =>
                  match u64_checked_add known 1 with
                  | None => Err NonceOverflow
                  | Some next =>
                      authorization_loop chain_id auths
                        (if decide (next = nonce) then <[authority := Known next]> nonce_usages
                         else nonce_usages) txn_fees
                  end
              | Some (Possible possible_nonces) =>
                  authorization_loop chain_id auths
                    (<[authority := Possible (possible_nonces ++ [nonce])]> nonce_usages) txn_fees
              | None =>
                  authorization_loop chain_id auths
                    (<[authority := Possible [nonce]]> nonce_usages) txn_fees
              end
      end
  end.

Definition charge_fee (f : option TxnFee) (value gas : N) : TxnFee :=
  match f with
  | Some e =>
      {| first_txn_value := first_txn_value e; first_txn_gas := first_txn_gas e;
         max_gas_cost := u256_saturating_add (max_gas_cost e) gas;
         fee_is_delegated := fee_is_delegated e;
         delegation_before_first_txn := delegation_before_first_txn e |}
  | None =>
      {| first_txn_value := value; first_txn_gas := gas; max_gas_cost := 0;
         fee_is_delegated := false; delegation_before_first_txn := false |}
  end.

(** One transaction: base fee, nonce, authorizations, fee. *)
Definition validate_txn (block_base_fee chain_id : N) (txn : ValidatedTx)
    (nonce_usages : NonceUsageMap) (txn_fees : TxnFees) :
    run (result (NonceUsageMap * TxnFees) TxnError) :=
  if decide (tx_max_fee_per_gas (vt_envelope txn) < block_base_fee)%N
  then Ret (Err MaxFeeLessThanBaseFee)
  else
    let '(old, nonce_usages) := add_known nonce_usages (vt_signer txn) (vt_nonce txn) in
    let nonce_ok : result () TxnError :=
      match old with
      | Some (Known old_nonce) =>
          match u64_checked_add old_nonce 1 with
          | None => Err NonceOverflow
          | Some expected_nonce =>
              if decide (expected_nonce ≠ vt_nonce txn) then Err InvalidNonce else Ok ()
          end
      | _ => Ok ()
      end in
    _ ←? Ret nonce_ok;
    '(nonce_usages, txn_fees) ←?
      Ret (if is_eip7702 (vt_envelope txn)
           then authorization_loop chain_id (authorizations_7702 txn) nonce_usages txn_fees
           else Ok (nonce_usages, txn_fees));
    gas ← compute_txn_max_gas_cost (vt_envelope txn) block_base_fee;
    Ret (Ok (nonce_usages,
      <[vt_signer txn := charge_fee (txn_fees !! vt_signer txn) (tx_value (vt_envelope txn)) gas]> txn_fees)).

Fixpoint txn_loop (block_base_fee chain_id : N) (txns : list ValidatedTx)
    (nonce_usages : NonceUsageMap) (txn_fees : TxnFees) :
    run (result (NonceUsageMap * TxnFees) TxnError) :=
  match txns with
  | [] => Ret (Ok (nonce_usages, txn_fees))
  | txn :: txns =>
      '(nonce_usages, txn_fees) ←? validate_txn block_base_fee chain_id txn nonce_usages txn_fees;
      txn_loop block_base_fee chain_id txns nonce_usages txn_fees
  end.

Definition map_err {A E F} (f : E → F) (r : result A E) : result A F :=
  match r with Ok a => Ok a | Err e => Err (f e) end.

Definition validate_block_body (header : ConsensusBlockHeader) (body : Body) (chain_config : CC) :
    run (result (list ValidatedTx * list ValidatedTx * NonceUsageMap * TxnFees) EthBlockValidationError) :=
  let chain_params := cfg_params chain_config (block_round header) in
  let chain_id := cfg_chain_id chain_config in
  let execution_chain_params := cfg_execution_params chain_config (hdr_timestamp_ns header) in
  let b := eth_body body in
  let num_txs := N.of_nat (length (transactions b)) in
  if decide (ommers b ≠ []) then Ret (Err (BodyError (NonEmptyOmmers (ommers b))))
  else if decide (withdrawals b ≠ []) then Ret (Err (BodyError (NonEmptyWithdrawals (withdrawals b))))
  else if decide (tx_limit chain_params < num_txs)%N
  then Ret (Err (BodyError (ExceededNumTxnLimit num_txs)))
  else
    total_gas ←? Ret (ok_or (checked_sum 0 (tx_gas_limit <$> transactions b))
                        (BodyError (ExceededBlockGasLimit u64_MAX)));
    if decide (proposal_gas_limit chain_params < total_gas)%N
    then Ret (Err (BodyError (ExceededBlockGasLimit total_gas)))
    else
      recovered_txns ←? Ret (map_err (λ e, TransactionError (SignerRecoveryError e))
                               (recover_all (transactions b)));
      '(system_txns, eth_txns) ←? Ret (map_err SystemTxnError
          (extract_system_transactions (hdr_timestamp_ns header) recovered_txns chain_config));
      let proposal_size :=
        (nsum ((λ t, tx_length (vt_envelope t)) <$> system_txns)
         + nsum ((λ t, tx_length (rec_tx t)) <$> eth_txns))%N in
      if decide (proposal_byte_limit chain_params < proposal_size)%N
      then Ret (Err (BodyError (ExceededBlockSizeLimit proposal_size)))
      else
        nonce_usages ←? Ret (map_err TransactionError (system_nonce_loop system_txns ∅));
        _ ←? Ret (map_err (λ e, TransactionError (TxStaticValidationError e))
               (static_validate_all eth_txns chain_id chain_params execution_chain_params));
        let validated_txns := to_validated <$> eth_txns in
        r ← txn_loop (base_fee header) chain_id validated_txns nonce_usages ∅;
        '(nonce_usages, txn_fees) ←? Ret (map_err TransactionError r);
        Ret (Ok (system_txns, validated_txns, nonce_usages, txn_fees)).

(** ** The validated block *)

Record EthValidatedBlock := {
  evb_block : ConsensusFullBlock;
  system_txns : list ValidatedTx;
  validated_txns : list ValidatedTx;
  nonce_usages : NonceUsageMap;
  txn_fees : TxnFees;
}.

Definition eth_validate (header : ConsensusBlockHeader) (body : Body) (author_pubkey : option CPK)
    (chain_config : CC) : run (result EthValidatedBlock EthBlockValidationError) :=
  match validate_block_header header body author_pubkey (cfg_params chain_config (block_round header))
          (cfg_execution_params chain_config (hdr_timestamp_ns header)) with
  | Err e => Ret (Err (HdrError e))
  | Ok _ =>
      '(system_txns, validated_txns, nonce_usages, txn_fees) ←?
        validate_block_body header body chain_config;
      block ← expect (match ConsensusFullBlock_new header body with Ok b => Some b | Err _ => None end);
      Ret (Ok {| evb_block := block; system_txns := system_txns; validated_txns := validated_txns;
                 nonce_usages := nonce_usages; txn_fees := txn_fees |})
  end.
End validator.
