(* ===== verification/EthBlockPolicy.v ===== *)
(** * The Ethereum block policy ([src/eth-block-policy/src/lib.rs])

    Execution lags behind consensus by [execution_delay] blocks: the policy checks a
    block's nonces and fees against the executed state at the block that far back and
    the blocks since, committed ones in a buffer and uncommitted ones on the branch it
    extends. *)
From S2P Require Import Prelude Types.
From S2P Require Import SignatureCollection Certificates Tree ChainConfig Timestamp BaseFee.
From S2P Require Import EthTypes NonceUsage TxValidation SystemCalls EthBlockValidator.

(** The elements of a [HashSet], in its order. *)
Definition hashset_iter `{!HashIter} {K} `{Countable K} (s : gset K) : list K :=
  (hash_iter (gset_to_gmap () s)).*1.

(** [?] on a call that also changes the state it reads; [conv] is the conversion of
    the error. *)
Definition st_try {A B E F S} (conv : E → F) (m : run (result A E * S))
    (f : A → S → run (result B F * S)) : run (result B F * S) :=
  '(r, s) ← m;
  match r with Ok a => f a s | Err e => Ret (Err (conv e), s) end.

(** [zip_eq]: panics when the lengths differ. *)
Definition zip_eq {A B} (l : list A) (k : list B) : run (list (A * B)) :=
  assert (length l = length k) ≫= λ _, Ret (zip l k).

(** [Itertools::unique]: the first occurrence of each address, in order. *)
Fixpoint unique_from (seen l : list Address) : list Address :=
  match l with
  | [] => []
  | x :: l => if decide (x ∈ seen) then unique_from seen l else x :: unique_from (x :: seen) l
  end.

Section policy.
Context `{HC : Codec} `{!HashIter, !U256Ops, !I256Ops}.
Context `{!EthTransactions, !EthProtocol, !SystemSigning}.
Context {CC : Type} `{!ChainConfig CC} {State : Type} `{!ExecutionStateRead State}.

Definition evb_seq_num (b : EthValidatedBlock) : SeqNum := blk_get_seq_num (evb_block b).
Definition evb_round (b : EthValidatedBlock) : Round := blk_get_block_round (evb_block b).
Definition evb_header (b : EthValidatedBlock) : ConsensusBlockHeader := header (evb_block b).

(** The sum of the gas limits, in wrapping 64-bit arithmetic. *)
Definition get_total_gas (b : EthValidatedBlock) : N :=
  foldl (λ acc tx, u64_wrap (acc + tx_gas_limit (vt_envelope tx))) 0%N (validated_txns b).

Record BlockLookupIndex := {
  bli_block_id : BlockId; bli_seq_num : SeqNum; bli_round : Round; bli_is_finalized : bool }.

(** ** Checks of one block ([EthBlockPolicyBlockValidator]) *)

Record EthBlockPolicyBlockValidator := {
  bv_block_seq_num : SeqNum;
  bv_execution_delay : SeqNum;
  bv_base_fee : N;
  bv_params : ChainParams;
}.

Definition block_validator_new (block_seq_num execution_delay : SeqNum) (base_fee : N)
    (chain_config : CC) (round : Round) : EthBlockPolicyBlockValidator :=
  {| bv_block_seq_num := block_seq_num; bv_execution_delay := execution_delay;
     bv_base_fee := base_fee; bv_params := cfg_params chain_config round |}.

Definition is_possibly_emptying_transaction (block_seq_num_of_curr_txn : SeqNum)
    (balance_state : AccountBalanceState) (execution_delay : SeqNum) : run bool :=
  let blocks_since_latest_txn :=
    u64_saturating_sub block_seq_num_of_curr_txn (block_seqnum_of_latest_txn balance_state) in
  if is_delegated balance_state then Ret false
  else
    bound ← SeqNum_sub execution_delay 1;
    Ret (bool_decide (bound < blocks_since_latest_txn)%N).

Definition set_balances (s : AccountBalanceState) (b r : N) (latest : SeqNum) (delegated : bool) :
    AccountBalanceState :=
  {| balance := b; remaining_reserve_balance := r;
     abs_max_reserve_balance := abs_max_reserve_balance s;
     block_seqnum_of_latest_txn := latest; is_delegated := delegated |}.

(** Applies the fees a whole block charges an account.  On an error the caller drops
    the state. *)
Definition try_apply_block_fees (self : EthBlockPolicyBlockValidator)
    (account_balance : AccountBalanceState) (block_txn_fees : TxnFee) :
    run (result AccountBalanceState BlockPolicyError) :=
  let max_reserve := max_reserve_balance (bv_params self) in
  possibly ← is_possibly_emptying_transaction (bv_block_seq_num self) account_balance
               (bv_execution_delay self);
  let has_emptying_transaction := possibly && negb (delegation_before_first_txn block_txn_fees) in
  let charged (b r block_gas_cost : N) : result AccountBalanceState BlockPolicyError :=
    if decide (r < block_gas_cost)%N then Err (PolicyBlockValidatorError InsufficientReserveBalance)
    else Ok (set_balances account_balance b (u256_saturating_sub r block_gas_cost)
               (bv_block_seq_num self) (is_delegated account_balance || fee_is_delegated block_txn_fees)) in
  Ret (if has_emptying_transaction then
    if decide (balance account_balance < first_txn_gas block_txn_fees)%N
    then Err (PolicyBlockValidatorError InsufficientBalance)
    else
      let first_txn_cost :=
        u256_saturating_add (first_txn_value block_txn_fees) (first_txn_gas block_txn_fees) in
      let estimated_balance := u256_saturating_sub (balance account_balance) first_txn_cost in
      charged estimated_balance (estimated_balance `min` max_reserve)%N (max_gas_cost block_txn_fees)
  else
    charged (balance account_balance) (remaining_reserve_balance account_balance)
      (u256_saturating_add (max_gas_cost block_txn_fees) (first_txn_gas block_txn_fees))).

Definition contains_self_authorization (txn : ValidatedTx) : bool :=
  existsb (λ auth, bool_decide (ra_authority auth = Some (vt_signer txn))) (authorizations_7702 txn).

Definition delegate_balance (s : AccountBalanceState) : AccountBalanceState :=
  set_balances s (balance s) (remaining_reserve_balance s) (block_seqnum_of_latest_txn s) true.

(** The delegation status of the authorities of a transaction. *)
Definition delegate_authorities (auths : list RecoveredAuthorization)
    (account_balances : gmap Address AccountBalanceState) : gmap Address AccountBalanceState :=
  foldl (λ m auth,
    match ra_authority auth with
    | Some a => alter delegate_balance a m
    | None => m
    end) account_balances auths.

Definition try_add_transaction (self : EthBlockPolicyBlockValidator)
    (account_balances : gmap Address AccountBalanceState) (txn : ValidatedTx) :
    run (result (gmap Address AccountBalanceState) BlockPolicyError) :=
  match account_balances !! vt_signer txn with
  | None => Ret (Err (PolicyBlockValidatorError AccountBalanceMissing))
  | Some account_balance =>
      possibly ← is_possibly_emptying_transaction (bv_block_seq_num self) account_balance
                   (bv_execution_delay self);
      let is_emptying_transaction := possibly && negb (contains_self_authorization txn) in
      txn_max_gas ← compute_txn_max_gas_cost (vt_envelope txn) (bv_base_fee self);
      let finish (s : AccountBalanceState) :=
        Ret (Ok (delegate_authorities (authorizations_7702 txn)
                   (<[vt_signer txn := s]> account_balances))) in
      if is_emptying_transaction : bool then
        if decide (balance account_balance < txn_max_gas)%N
        then Ret (Err (PolicyBlockValidatorError InsufficientBalance))
        else
          txn_max_cost ← compute_txn_max_value (vt_envelope txn) (bv_base_fee self);
          let estimated_balance := u256_saturating_sub (balance account_balance) txn_max_cost in
          let reserve_balance := (abs_max_reserve_balance account_balance `min` estimated_balance)%N in
          finish (set_balances account_balance estimated_balance reserve_balance
                    (bv_block_seq_num self) (is_delegated account_balance))
      else
        if decide (remaining_reserve_balance account_balance < txn_max_gas)%N
        then Ret (Err (PolicyBlockValidatorError InsufficientReserveBalance))
        else
          let reserve_balance :=
            u256_saturating_sub (remaining_reserve_balance account_balance) txn_max_gas in
          finish (set_balances account_balance (balance account_balance) reserve_balance
                    (bv_block_seq_num self) (is_delegated account_balance))
  end.

(** ** The committed blocks ([CommittedBlkBuffer]) *)

Record CommittedBlock := {
  cb_block_id : BlockId;
  cb_round : Round;
  cb_epoch : Epoch;
  cb_seq_num : SeqNum;
  cb_nonce_usages : NonceUsageMap;
  cb_timestamp_ns : N;
  cb_fees : TxnFees;
  cb_base_fee : N;
  cb_base_fee_trend : N;
  cb_base_fee_moment : N;
  cb_block_gas_usage : N;
}.

(** A map sorted by sequence number. *)
Record CommittedBlkBuffer := { blocks : gmap SeqNum CommittedBlock; min_buffer_size : N }.

Definition CommittedBlkBuffer_new (min_buffer_size : N) : CommittedBlkBuffer :=
  {| blocks := ∅; min_buffer_size := min_buffer_size |}.

Definition buffer_get_epoch (self : CommittedBlkBuffer) (seq_num : SeqNum) : option Epoch :=
  cb_epoch <$> blocks self !! seq_num.

(** [blocks.range(lo..)] and [blocks.range(lo..hi)], in order; the latter panics when the
    bounds are out of order. *)
Definition range_from (self : CommittedBlkBuffer) (lo : SeqNum) : list (SeqNum * CommittedBlock) :=
  filter (λ p, (lo ≤ p.1)%N) (btree_iter (blocks self)).
Definition range (self : CommittedBlkBuffer) (lo hi : SeqNum) : run (list (SeqNum * CommittedBlock)) :=
  assert (lo ≤ hi)%N ≫= λ _, Ret (filter (λ p, (p.1 < hi)%N) (range_from self lo)).

Fixpoint emptying_loop (eth_address : Address) (l : list (SeqNum * CommittedBlock))
    (next_validate : SeqNum) (account_balance : AccountBalanceState) :
    run (SeqNum * AccountBalanceState) :=
  match l with
  | [] => Ret (next_validate, account_balance)
  | (seq_num, block) :: l =>
      assert (seq_num = next_validate) ≫= λ _,
      let account_balance :=
        if decide (is_Some (cb_fees block !! eth_address) ∧
                   (block_seqnum_of_latest_txn account_balance < cb_seq_num block)%N)
        then set_balances account_balance (balance account_balance)
               (remaining_reserve_balance account_balance) (cb_seq_num block)
               (is_delegated account_balance)
        else account_balance in
      next ← SeqNum_add next_validate 1;
      emptying_loop eth_address l next account_balance
  end.

Fixpoint reserve_loop (eth_address : Address) (execution_delay : SeqNum) (chain_config : CC)
    (l : list (SeqNum * CommittedBlock)) (next_validate : SeqNum)
    (account_balance : AccountBalanceState) :
    run (result (SeqNum * AccountBalanceState) BlockPolicyError) :=
  match l with
  | [] => Ret (Ok (next_validate, account_balance))
  | (seq_num, block) :: l =>
      assert (seq_num = next_validate) ≫= λ _,
      account_balance ←?
        match cb_fees block !! eth_address with
        | Some block_txn_fees =>
            try_apply_block_fees
              (block_validator_new (cb_seq_num block) execution_delay (cb_base_fee block)
                 chain_config (cb_round block)) account_balance block_txn_fees
        | None => Ret (Ok account_balance)
        end;
      next ← SeqNum_add next_validate 1;
      reserve_loop eth_address execution_delay chain_config l next account_balance
  end.

Definition update_account_balance (self : CommittedBlkBuffer) (account_balance : AccountBalanceState)
    (eth_address : Address) (execution_delay emptying_start reserve_start : SeqNum) (chain_config : CC) :
    run (result (SeqNum * AccountBalanceState) BlockPolicyError) :=
  emptying_range ← range self emptying_start reserve_start;
  '(next_validate, account_balance) ←
    emptying_loop eth_address emptying_range emptying_start account_balance;
  reserve_loop eth_address execution_delay chain_config (range_from self reserve_start) next_validate
    account_balance.

Definition committed_block (block : EthValidatedBlock) : CommittedBlock := {|
  cb_block_id := blk_get_id (evb_block block);
  cb_round := evb_round block;
  cb_epoch := blk_get_epoch (evb_block block);
  cb_seq_num := evb_seq_num block;
  cb_nonce_usages := nonce_usages block;
  cb_timestamp_ns := blk_get_timestamp (evb_block block);
  cb_fees := txn_fees block;
  cb_base_fee := base_fee (evb_header block);
  cb_base_fee_trend := base_fee_trend (evb_header block);
  cb_base_fee_moment := base_fee_moment (evb_header block);
  cb_block_gas_usage := get_total_gas block |}.

Definition first_key (m : gmap SeqNum CommittedBlock) : option SeqNum := head (btree_keys m).
Definition last_key (m : gmap SeqNum CommittedBlock) : option SeqNum := last (btree_keys m).

(** Drops the oldest blocks once the buffer holds twice its minimum. *)
Definition shrink (self : CommittedBlkBuffer) (block_number : SeqNum) : run CommittedBlkBuffer :=
  let current_size := N.of_nat (size (blocks self)) in
  if decide (u64_saturating_mul (min_buffer_size self) 2 ≤ current_size)%N then
    first_block_num ← expect (first_key (blocks self));
    divider ← SeqNum_add first_block_num (current_size - min_buffer_size self);
    let kept := filter (λ p, (divider ≤ p.1)%N) (blocks self) in
    last ← expect (last_key kept);
    last ← SeqNum_add last 1;
    assert (last = block_number) ≫= λ _,
    assert (min_buffer_size self ≤ N.of_nat (size kept))%N ≫= λ _,
    Ret {| blocks := kept; min_buffer_size := min_buffer_size self |}
  else Ret self.

Definition buffer_update_committed_block (self : CommittedBlkBuffer) (block : EthValidatedBlock) :
    run CommittedBlkBuffer :=
  let block_number := evb_seq_num block in
  (match last_key (blocks self) with
   | Some last_block_num =>
       next ← SeqNum_add last_block_num 1;
       assert (next = block_number)
   | None => Ret ()
   end) ≫= λ _,
  self ← shrink self block_number;
  assert (blocks self !! block_number = None) ≫= λ _,
  Ret {| blocks := <[block_number := committed_block block]> (blocks self);
         min_buffer_size := min_buffer_size self |}.

(** ** The policy *)

Record EthBlockPolicy := {
  last_commit : SeqNum;
  committed_cache : CommittedBlkBuffer;
  execution_delay : SeqNum;
}.

Definition EthBlockPolicy_new (last_commit : SeqNum) (execution_delay : N) : EthBlockPolicy :=
  let cache_max_size := u64_saturating_mul execution_delay 2 in
  {| last_commit := last_commit;
     committed_cache := CommittedBlkBuffer_new cache_max_size;
     execution_delay := execution_delay |}.

Definition base_seq_num_of (self : EthBlockPolicy) (seq_num : SeqNum) : SeqNum :=
  ((seq_num `max` execution_delay self) - execution_delay self)%N.

Definition get_last_commit_epoch (self : EthBlockPolicy) : run Epoch :=
  if decide (last_commit self = GENESIS_SEQ_NUM) then Ret 1%N
  else expect (buffer_get_epoch (committed_cache self) (last_commit self)).

Definition get_block_index (self : EthBlockPolicy) (extending_blocks : option (list EthValidatedBlock))
    (base_seq_num : SeqNum) : run (result BlockLookupIndex ExecutionStateReadError) :=
  if decide (base_seq_num ≤ last_commit self)%N then
    if decide (base_seq_num = GENESIS_SEQ_NUM) then
      Ret (Ok {| bli_block_id := GENESIS_BLOCK_ID; bli_seq_num := GENESIS_SEQ_NUM;
                 bli_round := GENESIS_ROUND; bli_is_finalized := true |})
    else
      block ← expect (blocks (committed_cache self) !! base_seq_num);
      Ret (Ok {| bli_block_id := cb_block_id block; bli_seq_num := base_seq_num;
                 bli_round := cb_round block; bli_is_finalized := true |})
  else match extending_blocks with
  | Some extending_blocks =>
      block ← expect (find_first (λ b, bool_decide (evb_seq_num b = base_seq_num)) extending_blocks);
      Ret (Ok {| bli_block_id := blk_get_id (evb_block block); bli_seq_num := base_seq_num;
                 bli_round := evb_round block; bli_is_finalized := false |})
  | None => Ret (Err NotAvailableYet)
  end.

Definition policy_get_account_statuses (self : EthBlockPolicy) (state_read : State)
    (extending_blocks : option (list EthValidatedBlock)) (addresses : list Address)
    (base_seq_num : SeqNum) :
    run (result (list (option EthAccount)) ExecutionStateReadError * State) :=
  index ← get_block_index self extending_blocks base_seq_num;
  match index with
  | Err e => Ret (Err e, state_read)
  | Ok block_index =>
      Ret (get_account_statuses state_read (bli_block_id block_index) base_seq_num
             (bli_is_finalized block_index) addresses)
  end.

(** *** Nonces *)

(** The nonce usages of the blocks after the base, committed ones first. *)
Definition usages_since (self : EthBlockPolicy) (extending_blocks : list EthValidatedBlock)
    (base_seq_num : SeqNum) : list NonceUsageMap :=
  (filter (λ p, (base_seq_num < p.1)%N)
     (((λ p, (p.1, cb_nonce_usages p.2)) <$> btree_iter (blocks (committed_cache self))) ++
      ((λ b, (evb_seq_num b, nonce_usages b)) <$> extending_blocks))).*2.

(** Splits the addresses into known nonces and cache misses. *)
Fixpoint split_cached (cached : NonceUsageMap) (addresses : list Address)
    (account_nonces : gmap Address Nonce) (cache_misses : list (Address * option (list N))) :
    gmap Address Nonce * list (Address * option (list N)) :=
  match addresses with
  | [] => (account_nonces, cache_misses)
  | a :: addresses =>
      match cached !! a with
      | Some (Known nonce) => split_cached cached addresses (<[a := u64_incr nonce]> account_nonces) cache_misses
      | Some (Possible possible) =>
          split_cached cached addresses account_nonces (cache_misses ++ [(a, Some possible)])
      | None => split_cached cached addresses account_nonces (cache_misses ++ [(a, None)])
      end
  end.

Definition missed_nonce (possible_nonces : option (list N)) (status : option EthAccount) : Nonce :=
  let nonce := match status with Some s => acc_nonce s | None => 0%N end in
  match possible_nonces with
  | Some possible => apply_possible_nonces_to_account_nonce nonce possible
  | None => nonce
  end.

Definition get_account_base_nonces (self : EthBlockPolicy) (consensus_block_seq_num : SeqNum)
    (state_read : State) (extending_blocks : list EthValidatedBlock) (addresses : list Address) :
    run (result (gmap Address Nonce) ExecutionStateReadError * State) :=
  let addresses : gset Address := list_to_set addresses in
  let base_seq_num := base_seq_num_of self consensus_block_seq_num in
  let cached_nonce_usages :=
    foldl (λ usages block, merge_with_previous_block usages (entries_of (.∈ addresses) block))
      ∅ (reverse (usages_since self extending_blocks base_seq_num)) in
  let '(account_nonces, cache_misses) :=
    split_cached cached_nonce_usages (hashset_iter addresses) ∅ [] in
  st_try id (policy_get_account_statuses self state_read (Some extending_blocks) cache_misses.*1
               base_seq_num) (λ cache_miss_statuses state_read,
    zipped ← zip_eq cache_misses cache_miss_statuses;
    Ret (Ok (foldl (λ m '((address, possible_nonces), status),
           <[address := missed_nonce possible_nonces status]> m) account_nonces zipped), state_read)).

(** *** Balances *)

Definition initial_balance (base_max_reserve_balance : N) (base_seq_num : SeqNum)
    (status : option EthAccount) : AccountBalanceState :=
  match status with
  | None => AccountBalanceState_new base_max_reserve_balance
  | Some status =>
      {| balance := acc_balance status;
         remaining_reserve_balance := (acc_balance status `min` base_max_reserve_balance)%N;
         abs_max_reserve_balance := base_max_reserve_balance;
         block_seqnum_of_latest_txn := base_seq_num;
         is_delegated := acc_is_delegated status |}
  end.

(** The blocks of the branch, after the committed ones. *)
Fixpoint extending_loop (self : EthBlockPolicy) (chain_config : CC) (address : Address)
    (reserve_balance_check_start : SeqNum) (l : list EthValidatedBlock) (next_validate : SeqNum)
    (balance_state : AccountBalanceState) : run (result AccountBalanceState BlockPolicyError) :=
  match l with
  | [] => Ret (Ok balance_state)
  | extending_block :: l =>
      assert (next_validate = evb_seq_num extending_block) ≫= λ _,
      balance_state ←?
        match txn_fees extending_block !! address with
        | None => Ret (Ok balance_state)
        | Some txn_fee =>
            if decide (next_validate < reserve_balance_check_start)%N then
              Ret (Ok (if decide (block_seqnum_of_latest_txn balance_state < next_validate)%N
                       then set_balances balance_state (balance balance_state)
                              (remaining_reserve_balance balance_state) (evb_seq_num extending_block)
                              (is_delegated balance_state)
                       else balance_state))
            else
              try_apply_block_fees
                (block_validator_new (evb_seq_num extending_block) (execution_delay self)
                   (base_fee (evb_header extending_block)) chain_config (evb_round extending_block))
                balance_state txn_fee
        end;
      next ← SeqNum_add next_validate 1;
      extending_loop self chain_config address reserve_balance_check_start l next balance_state
  end.

Fixpoint skip_while (n : SeqNum) (l : list EthValidatedBlock) : list EthValidatedBlock :=
  match l with
  | [] => []
  | b :: rest => if decide (evb_seq_num b < n)%N then skip_while n rest else l
  end.

Definition account_base_balance (self : EthBlockPolicy) (chain_config : CC)
    (extending_blocks : option (list EthValidatedBlock)) (base_seq_num : SeqNum) (address : Address)
    (balance_state : AccountBalanceState) : run (result AccountBalanceState BlockPolicyError) :=
  reserve_balance_check_start ← SeqNum_add base_seq_num 1;
  after ← SeqNum_add reserve_balance_check_start 1;
  let start := ((after `max` execution_delay self) - execution_delay self)%N in
  emptying_txn_check_start ← (if decide (start = GENESIS_SEQ_NUM) then SeqNum_add start 1 else Ret start);
  let balance_state :=
    if decide (GENESIS_SEQ_NUM < emptying_txn_check_start)%N
    then set_balances balance_state (balance balance_state) (remaining_reserve_balance balance_state)
           (emptying_txn_check_start - 1)%N (is_delegated balance_state)
    else balance_state in
  '(next_validate, balance_state) ←?
    update_account_balance (committed_cache self) balance_state address (execution_delay self)
      emptying_txn_check_start reserve_balance_check_start chain_config;
  match extending_blocks with
  | Some blocks =>
      extending_loop self chain_config address reserve_balance_check_start
        (skip_while next_validate blocks) next_validate balance_state
  | None => Ret (Ok balance_state)
  end.

Fixpoint collect_balances (self : EthBlockPolicy) (chain_config : CC)
    (extending_blocks : option (list EthValidatedBlock)) (base_seq_num : SeqNum)
    (l : list (Address * AccountBalanceState)) (m : gmap Address AccountBalanceState) :
    run (result (gmap Address AccountBalanceState) BlockPolicyError) :=
  match l with
  | [] => Ret (Ok m)
  | (address, balance_state) :: l =>
      balance_state ←? account_base_balance self chain_config extending_blocks base_seq_num address
                         balance_state;
      collect_balances self chain_config extending_blocks base_seq_num l (<[address := balance_state]> m)
  end.

Definition compute_account_base_balances (self : EthBlockPolicy) (consensus_block_seq_num : SeqNum)
    (state_read : State) (chain_config : CC) (extending_blocks : option (list EthValidatedBlock))
    (addresses : list Address) :
    run (result (gmap Address AccountBalanceState) BlockPolicyError * State) :=
  let base_seq_num := base_seq_num_of self consensus_block_seq_num in
  index ← get_block_index self extending_blocks base_seq_num;
  match index with
  | Err e => Ret (Err (PolicyStateReadError e), state_read)
  | Ok block_index =>
      let base_max_reserve_balance :=
        max_reserve_balance (cfg_params chain_config (bli_round block_index)) in
      let addresses := unique_from [] addresses in
      st_try PolicyStateReadError
        (policy_get_account_statuses self state_read extending_blocks addresses base_seq_num)
        (λ statuses state_read,
           let account_balances := initial_balance base_max_reserve_balance base_seq_num <$> statuses in
           zipped ← zip_eq addresses account_balances;
           r ← collect_balances self chain_config extending_blocks base_seq_num zipped ∅;
           Ret (r, state_read))
  end.

(** *** Base fee *)

(** Round, base fee, trend, moment and gas usage of the parent block. *)
Definition get_parent_base_fee_fields (self : EthBlockPolicy) (extending_blocks : list EthValidatedBlock) :
    run (Round * N * N * N * N) :=
  match last extending_blocks with
  | Some parent_block =>
      let h := evb_header parent_block in
      Ret (block_round h, base_fee h, base_fee_trend h, base_fee_moment h, get_total_gas parent_block)
  | None =>
      if decide (last_commit self = GENESIS_SEQ_NUM) then
        Ret (GENESIS_ROUND, GENESIS_BASE_FEE, GENESIS_BASE_FEE_TREND, GENESIS_BASE_FEE_MOMENT, 0%N)
      else
        parent_block ← expect (blocks (committed_cache self) !! last_commit self);
        Ret (cb_round parent_block, cb_base_fee parent_block, cb_base_fee_trend parent_block,
             cb_base_fee_moment parent_block, cb_block_gas_usage parent_block)
  end.

Definition policy_compute_base_fee (self : EthBlockPolicy) (extending_blocks : list EthValidatedBlock)
    (chain_config : CC) : run (N * N * N) :=
  '(parent_block_round, parent_base_fee, parent_trend, parent_moment, parent_gas_usage) ←
    get_parent_base_fee_fields self extending_blocks;
  compute_base_fee (proposal_gas_limit (cfg_params chain_config parent_block_round))
    parent_gas_usage parent_base_fee parent_trend parent_moment.

(** *** System transactions *)

Definition policy_validate_system_transactions_input (self : EthBlockPolicy) (block : EthValidatedBlock)
    (extending_blocks : list EthValidatedBlock) (chain_config : CC) :
    run (result () SystemTransactionValidationError) :=
  parent_block_epoch ←
    match last extending_blocks with
    | Some extending_block => Ret (blk_get_epoch (evb_block extending_block))
    | None =>
        next ← SeqNum_add (last_commit self) 1;
        assert (evb_seq_num block = next) ≫= λ _,
        get_last_commit_epoch self
    end;
  let h := evb_header block in
  validate_system_transactions_input (hdr_seq_num h) (hdr_epoch h) (block_round h) (hdr_timestamp_ns h)
    (get_eth_address (hdr_author h)) parent_block_epoch (system_txns block) chain_config.

(** *** Nonce checks *)

(** Checks a transaction's nonce against the account's and increments it. *)
Definition check_nonce (signer : Address) (nonce : N) (account_nonces : gmap Address N) :
    run (result (gmap Address N) BlockPolicyError) :=
  expected_nonce ← expect (account_nonces !! signer);
  if decide (nonce ≠ expected_nonce) then Ret (Err BlockNotCoherent)
  else Ret (Ok (<[signer := u64_incr expected_nonce]> account_nonces)).

Fixpoint system_transaction_nonce_check (system_txns : list ValidatedTx)
    (account_nonces : gmap Address N) : run (result (gmap Address N) BlockPolicyError) :=
  match system_txns with
  | [] => Ret (Ok account_nonces)
  | sys_txn :: system_txns =>
      account_nonces ←? check_nonce (vt_signer sys_txn) (vt_nonce sys_txn) account_nonces;
      system_transaction_nonce_check system_txns account_nonces
  end.

Definition nonce_check_and_update (txn : ValidatedTx) (account_nonces : gmap Address N) :
    run (result (gmap Address N) BlockPolicyError) :=
  check_nonce (vt_signer txn) (vt_nonce txn) account_nonces.

Fixpoint eip_7702_valid_nonce_update (auth_list : list RecoveredAuthorization)
    (account_nonces : gmap Address N) (chain_id : N) : run (gmap Address N) :=
  match auth_list with
  | [] => Ret account_nonces
  | auth :: auth_list =>
      match ra_authority auth with
      | None => eip_7702_valid_nonce_update auth_list account_nonces chain_id
      | Some authority =>
          if other_chain auth chain_id
          then eip_7702_valid_nonce_update auth_list account_nonces chain_id
          else
            expected_nonce ← expect (account_nonces !! authority);
            if decide (expected_nonce ≠ auth_nonce (ra_inner auth))
            then eip_7702_valid_nonce_update auth_list account_nonces chain_id
            else eip_7702_valid_nonce_update auth_list
                   (<[authority := u64_incr expected_nonce]> account_nonces) chain_id
      end
  end.

Definition extract_signers (validated_txns system_txns : list ValidatedTx) : gset Address :=
  list_to_set (vt_signer <$> validated_txns) ∪
  list_to_set (validated_txns ≫= λ txn, omap ra_authority (authorizations_7702 txn)) ∪
  list_to_set (vt_signer <$> system_txns).

(** The loop over the user transactions of a block. *)
Fixpoint coherency_txn_loop (validator : EthBlockPolicyBlockValidator) (chain_id : N)
    (txns : list ValidatedTx) (account_nonces : gmap Address N)
    (account_balances : gmap Address AccountBalanceState) :
    run (result (gmap Address N * gmap Address AccountBalanceState) BlockPolicyError) :=
  match txns with
  | [] => Ret (Ok (account_nonces, account_balances))
  | txn :: txns =>
      account_nonces ←? nonce_check_and_update txn account_nonces;
      account_balances ←? try_add_transaction validator account_balances txn;
      account_nonces ←
        (if is_eip7702 (vt_envelope txn)
         then eip_7702_valid_nonce_update (authorizations_7702 txn) account_nonces chain_id
         else Ret account_nonces);
      coherency_txn_loop validator chain_id txns account_nonces account_balances
  end.

(** *** The [BlockPolicy] operations *)

Definition eth_get_expected_execution_results (self : EthBlockPolicy) (block_seq_num : SeqNum)
    (extending_blocks : list EthValidatedBlock) (state_read : State) :
    run (result (list FinalizedHeader) ExecutionStateReadError * State) :=
  if decide (block_seq_num < execution_delay self)%N then Ret (Ok [], state_read)
  else
    base_seq_num ← SeqNum_sub block_seq_num (execution_delay self);
    index ← get_block_index self (Some extending_blocks) base_seq_num;
    match index with
    | Err e => Ret (Err e, state_read)
    | Ok block_index =>
        let '(r, state_read) :=
          get_execution_result state_read (bli_block_id block_index) (bli_seq_num block_index)
            (bli_is_finalized block_index) in
        Ret (match r with Ok result => Ok [result] | Err e => Err e end, state_read)
    end.

(** The nonces, balances and transactions of a block whose header is coherent. *)
Definition check_transactions (self : EthBlockPolicy) (block : EthValidatedBlock)
    (extending_blocks : list EthValidatedBlock) (state_read : State) (chain_config : CC) :
    run (result () BlockPolicyError * State) :=
  let chain_id := cfg_chain_id chain_config in
  let tx_signers := hashset_iter (extract_signers (validated_txns block) (system_txns block)) in
  st_try PolicyStateReadError
    (get_account_base_nonces self (evb_seq_num block) state_read extending_blocks tx_signers)
    (λ account_nonces state_read,
  st_try id
    (compute_account_base_balances self (evb_seq_num block) state_read chain_config
       (Some extending_blocks) tx_signers)
    (λ account_balances state_read,
  let validator :=
    block_validator_new (evb_seq_num block) (execution_delay self) (base_fee (evb_header block))
      chain_config (evb_round block) in
  st_try (λ _, Tree.SystemTransactionError)
    ((., state_read) <$> policy_validate_system_transactions_input self block extending_blocks chain_config)
    (λ _ state_read,
  st_try id ((., state_read) <$> system_transaction_nonce_check (system_txns block) account_nonces)
    (λ account_nonces state_read,
  st_try id ((., state_read) <$> coherency_txn_loop validator chain_id (validated_txns block)
                                   account_nonces account_balances)
    (λ _ state_read, Ret (Ok (), state_read)))))).

Definition eth_check_coherency (self : EthBlockPolicy) (block : EthValidatedBlock)
    (extending_blocks : list EthValidatedBlock) (blocktree_root : RootInfo) (state_read : State)
    (chain_config : CC) : run (result () BlockPolicyError * State) :=
  let '(extending_seq_num, extending_timestamp) :=
    match last extending_blocks with
    | Some extended_block =>
        (evb_seq_num extended_block, blk_get_timestamp (evb_block extended_block))
    | None => (root_seq_num blocktree_root, 0%N)
    end in
  next ← SeqNum_add extending_seq_num 1;
  if decide (evb_seq_num block ≠ next) then Ret (Err BlockNotCoherent, state_read)
  else if decide (blk_get_timestamp (evb_block block) ≤ extending_timestamp)%N
  then Ret (Err TimestampError, state_read)
  else
    st_try PolicyStateReadError
      (eth_get_expected_execution_results self (evb_seq_num block) extending_blocks state_read)
      (λ expected_execution_results state_read,
    if decide (blk_get_execution_results (evb_block block) ≠ expected_execution_results)
    then Ret (Err ExecutionResultMismatch, state_read)
    else
      '(expected_fee, expected_trend, expected_moment) ←
        policy_compute_base_fee self extending_blocks chain_config;
      if decide (expected_fee ≠ base_fee (evb_header block) ∨
                 expected_trend ≠ base_fee_trend (evb_header block) ∨
                 expected_moment ≠ base_fee_moment (evb_header block))
      then Ret (Err BaseFeeError, state_read)
      else check_transactions self block extending_blocks state_read chain_config).

Definition eth_update_committed_block (self : EthBlockPolicy) (block : EthValidatedBlock) :
    run EthBlockPolicy :=
  next ← SeqNum_add (last_commit self) 1;
  assert (evb_seq_num block = next) ≫= λ _,
  cache ← buffer_update_committed_block (committed_cache self) block;
  Ret {| last_commit := evb_seq_num block; committed_cache := cache;
         execution_delay := execution_delay self |}.

Definition eth_reset (self : EthBlockPolicy) (last_delay_committed_blocks : list EthValidatedBlock) :
    run EthBlockPolicy :=
  foldl (λ acc block,
      self ← acc;
      cache ← buffer_update_committed_block (committed_cache self) block;
      Ret {| last_commit := evb_seq_num block; committed_cache := cache;
             execution_delay := execution_delay self |})
    (Ret {| last_commit := last_commit self;
            committed_cache := CommittedBlkBuffer_new (min_buffer_size (committed_cache self));
            execution_delay := execution_delay self |})
    last_delay_committed_blocks.

(** The Ethereum block policy implements the interface the block tree relies on. *)
Definition EthBlockPolicy_policy : BlockPolicy := {|
  BPT := EthBlockPolicy; ESRT := State; CCT := CC; ValidatedBlock := EthValidatedBlock;
  deref := evb_block;
  check_coherency := eth_check_coherency;
  get_expected_execution_results := eth_get_expected_execution_results;
  update_committed_block := eth_update_committed_block;
  reset := eth_reset;
|}.
End policy.
