(* ===== verification/EthExample.v ===== *)
(** * A concrete Ethereum chain

    Transactions as records, a protocol whose blocks carry them, a state reader that
    answers for genesis only, and the first two blocks of the devnet configuration:
    each has the system transactions of its leader and a transfer of the same user.
    They are the concrete inputs of the theorems about the execution layer. *)
From S2P Require Import Prelude Types.
From S2P Require Import SignatureCollection Certificates Tree ChainConfig Timestamp BaseFee.
From S2P Require Import EthTypes NonceUsage TxValidation SystemCalls EthBlockValidator EthBlockPolicy.

(** ** Transactions *)

Record ExampleTx := {
  ex_type : TxType; ex_chain_id : option N; ex_nonce : N; ex_gas_limit : N; ex_gas_price : N;
  ex_kind : TxKind; ex_value : N; ex_input : list N;
  ex_authorizations : list (N * N * N * option N); ex_sender : N }.

#[global] Instance ExampleTx_eq_dec : EqDecision ExampleTx.
Proof. solve_decision. Defined.

Program Definition example_transactions : EthTransactions := {|
  TxEnvelope := ExampleTx;
  SignedAuthorization := N * N * N * option N;
  RecoverError := ();
  tx_type := ex_type;
  tx_chain_id := ex_chain_id;
  tx_nonce t := (ex_nonce t `min` u64_MAX)%N;
  tx_gas_limit t := (ex_gas_limit t `min` u64_MAX)%N;
  tx_gas_price t := Some (ex_gas_price t);
  tx_max_fee_per_gas t := (ex_gas_price t `min` u128_MAX)%N;
  tx_max_priority_fee_per_gas t := None;
  tx_kind := ex_kind;
  tx_value t := (ex_value t `min` u256_MAX)%N;
  tx_input := ex_input;
  tx_access_list t := None;
  tx_authorization_list t := Some (ex_authorizations t);
  tx_high_s t := false;
  tx_length t := 100%N;
  secp256k1_recover t := Ok (ex_sender t);
  authorization_inner a := {| auth_chain_id := a.1.1.1; auth_address := a.1.1.2; auth_nonce := a.1.2 |};
  recover_authority a := a.2;
|}.
Solve All Obligations with (intros t; apply N.le_min_r).

#[local] Existing Instance example_transactions.

Program Definition example_signing : SystemSigning := {|
  sign_legacy t := {|
    ex_type := Legacy; ex_chain_id := leg_chain_id t; ex_nonce := leg_nonce t;
    ex_gas_limit := leg_gas_limit t; ex_gas_price := leg_gas_price t; ex_kind := leg_to t;
    ex_value := leg_value t; ex_input := leg_input t; ex_authorizations := [];
    ex_sender := SYSTEM_SENDER_ETH_ADDRESS |};
  abi_encode_address a := [a];
  abi_encode_u64 n := [n];
|}.
Solve All Obligations with (intros; cbn in *; try done; lia).

#[local] Existing Instance example_signing.

(** ** Protocol *)

#[global] Instance ProposedEthHeader_eq_dec : EqDecision ProposedEthHeader.
Proof. solve_decision. Defined.

#[global] Instance ProposedEthHeader_countable : Countable ProposedEthHeader.
Proof.
  refine (inj_countable'
    (λ h, (ommers_hash h, eh_beneficiary h, transactions_root h, difficulty h, number h, gas_limit h,
           timestamp h, extra_data h, mix_hash h, eth_nonce h, base_fee_per_gas h, withdrawals_root h,
           blob_gas_used h, excess_blob_gas h, parent_beacon_block_root h, requests_hash h))
    (λ '(a, b, c, d, e, f, g, h, i, j, k, l, m, n, o, p),
      {| ommers_hash := a; eh_beneficiary := b; transactions_root := c; difficulty := d; number := e;
         gas_limit := f; timestamp := g; extra_data := h; mix_hash := i; eth_nonce := j;
         base_fee_per_gas := k; withdrawals_root := l; blob_gas_used := m; excess_blob_gas := n;
         parent_beacon_block_root := o; requests_hash := p |}) _).
  by intros [].
Defined.

#[global] Instance EthBlockBody_eq_dec : EqDecision EthBlockBody.
Proof. solve_decision. Defined.

Definition EthExampleProtocol : Protocol := {|
  PT := N; ST := NopSignature; KP := N; CST := NopSignature; CKP := N; CPK := N;
  SCT := MultiSig NopSignature; ProposedHeader := ProposedEthHeader; FinalizedHeader := N;
  Body := EthBlockBody;
  PT_PubKey := N_PubKey;
  ST_signature := Nop_Recoverable example_hash;
  CST_signature := Nop_CertificateSignature example_hash;
  CPK_eq_dec := N.eq_dec;
  SCT_collection :=
    MultiSig_SignatureCollection (CertificateSignatureRecoverable0 := Nop_Recoverable example_hash);
  ProposedHeader_eq_dec := _; FinalizedHeader_eq_dec := _; Body_eq_dec := _;
|}.

#[local] Existing Instance EthExampleProtocol.

#[local] Instance Ex_SCT_countable : Countable SCT := MultiSig_countable.
#[local] Instance Ex_CST_countable : Countable CST := NopSignature_countable.
#[local] Instance Ex_ST_countable : Countable ST := NopSignature_countable.
#[local] Instance Ex_ProposedHeader_countable : Countable ProposedHeader := ProposedEthHeader_countable.
#[local] Instance Ex_FinalizedHeader_countable : Countable FinalizedHeader := N_countable.

Program Definition EthExampleCodec : Codec := {|
  encode_vote v := [v_id v; v_round v; v_epoch v];
  encode_timeout_info t := [ti_epoch t; ti_round t; ti_high_qc_round t; ti_high_tip_round t];
  encode_no_endorsement n := [ne_epoch n; ne_round n; tip_qc_round n];
  encode_round r := [r];
  encode_header h := [block_round h; v_id (qc_info (hdr_qc h)); hdr_seq_num h; block_body_id h];
  encode_body b := (λ t, ex_nonce t) <$> transactions b;
  encode_qc c := [Npos (encode c)];
  encode_tc c := [Npos (encode c)];
  encode_nec c := [Npos (encode c)];
  hasher := example_hash;
|}.
Next Obligation. intros [] [] [=]. by subst. Qed.
Next Obligation. intros [] [] [=]. by subst. Qed.
Next Obligation. intros [] [] [=]. by subst. Qed.
Solve All Obligations with (intros ?? [=]; by apply (inj encode)).

#[local] Existing Instance EthExampleCodec.

Definition example_eth_protocol : EthProtocol := {|
  eth_inputs h := h : ProposedEthHeader;
  eth_body b := b : EthBlockBody;
  get_eth_address a := a : N;
  EMPTY_OMMER_ROOT_HASH := 11%N;
  EMPTY_WITHDRAWALS := 12%N;
  calculate_transaction_root l := N.of_nat (length l);
  round_signature_hash _ := 13%N;
|}.

#[local] Existing Instance example_eth_protocol.

(** Every account of genesis has a balance and no nonce; later state is not available. *)
Definition example_state : ExecutionStateRead () := {|
  get_account_statuses _ _ n _ addrs :=
    (if decide (n = 0%N)
     then Ok ((λ _, Some {| acc_nonce := 0; acc_balance := 10 ^ 20; acc_code_hash := None;
                            acc_is_delegated := false |}) <$> addrs)
     else Err NotAvailableYet, ());
  get_execution_result _ _ _ _ := (Err NotAvailableYet, ());
|}.

#[local] Existing Instance example_state.
#[local] Existing Instance I256_checked.
#[local] Existing Instance KinetChainConfig_ChainConfig.
#[local] Existing Instance list_HashIter.

(** ** Two blocks *)

Definition example_user : N := 77.

Definition user_tx (nonce : N) : ExampleTx := {|
  ex_type := Legacy; ex_chain_id := Some 20143%N; ex_nonce := nonce; ex_gas_limit := 30000;
  ex_gas_price := 10 ^ 12; ex_kind := Call 5; ex_value := 1000; ex_input := [];
  ex_authorizations := []; ex_sender := example_user |}.

(** A block with the system transactions of its leader, from [nonce] on. *)
Definition example_body (n : N) (nonce : N) : run EthBlockBody :=
  sys ← generate_system_transactions n 1 n 1 9 nonce KINET_DEVNET_CHAIN_CONFIG;
  Ret {| transactions := (rec_tx ∘ system_into_recovered <$> sys) ++ [user_tx (n - 1)];
         ommers := []; withdrawals := [] |}.

Definition example_header (n parent fee trend moment : N) (b : EthBlockBody) : ConsensusBlockHeader := {|
  block_round := n; hdr_epoch := 1;
  hdr_qc := {| qc_info := {| v_id := parent; v_round := n - 1; v_epoch := 1 |};
               qc_signatures := ({| sigs := [] |} : SCT) |};
  hdr_author := (9%N : PT); hdr_seq_num := n; hdr_timestamp_ns := n * 1000000000;
  hdr_round_signature := (nop_sign example_hash RoundSignatureDomain [n] 1%N : CST);
  delayed_execution_results := [];
  execution_inputs := {|
    ommers_hash := 11; eh_beneficiary := 0; transactions_root := N.of_nat (length (transactions b));
    difficulty := 0; number := n;
    gas_limit := proposal_gas_limit (cfg_params KINET_DEVNET_CHAIN_CONFIG n); timestamp := n;
    extra_data := 0; mix_hash := 13; eth_nonce := 0; base_fee_per_gas := fee;
    withdrawals_root := 12; blob_gas_used := 0; excess_blob_gas := 0; parent_beacon_block_root := 0;
    requests_hash := Some 0%N |} : ProposedHeader;
  block_body_id := body_get_id (b : Body); base_fee := fee; base_fee_trend := trend;
  base_fee_moment := moment |}.

Definition example_policy_start : EthBlockPolicy := EthBlockPolicy_new 0 3.

(** The next block on a branch of genesis, with the base fee the policy expects. *)
Definition example_block (ext : list EthValidatedBlock) (sys_nonce : N) :
    run (result EthValidatedBlock EthBlockValidationError) :=
  let n := N.of_nat (S (length ext)) in
  b ← example_body n sys_nonce;
  '(fee, trend, moment) ← policy_compute_base_fee example_policy_start ext KINET_DEVNET_CHAIN_CONFIG;
  let parent := match last ext with Some e => blk_get_id (evb_block e) | None => GENESIS_BLOCK_ID end in
  eth_validate (CC := KinetChainConfig) (example_header n parent fee trend moment b) (b : Body) None KINET_DEVNET_CHAIN_CONFIG.

Definition example_root : RootInfo :=
  {| root_round := 0; root_seq_num := 0; root_epoch := 1; root_block_id := GENESIS_BLOCK_ID;
     root_timestamp_ns := 0 |}.

(** A branch that grows by one validated and coherent block. *)
Definition extend (ext : list EthValidatedBlock) (sys_nonce : N) : option (list EthValidatedBlock) :=
  match example_block ext sys_nonce with
  | Ret (Ok b) =>
      match eth_check_coherency example_policy_start b ext example_root () KINET_DEVNET_CHAIN_CONFIG with
      | Ret (Ok (), _) => Some (ext ++ [b])
      | _ => None
      end
  | _ => None
  end.

Definition example_chain : option (list EthValidatedBlock) :=
  chain ← extend [] 0; extend chain 1.

Definition example_transfer : Recovered := {| rec_tx := user_tx 0 : TxEnvelope; signer := example_user |}.

(** ** The leader's system transactions of block 1 *)

Lemma system_transactions_agree_witness :
  ∃ txns sys_txns,
    generate_system_transactions 1 1 1 1 9 0 KINET_DEVNET_CHAIN_CONFIG = Ret txns ∧ length txns = 1 ∧
    extract_system_transactions 1000000000
      ((system_into_recovered <$> txns) ++ [example_transfer])
      KINET_DEVNET_CHAIN_CONFIG =
      Ok (sys_txns, [example_transfer]) ∧
    validate_system_transactions_input 1 1 1 1000000000 9 1 sys_txns KINET_DEVNET_CHAIN_CONFIG = Ret (Ok ()).
Proof.
  destruct (is_ret_true (generate_system_transactions 1 1 1 1 9 0 KINET_DEVNET_CHAIN_CONFIG)) as [txns Htxns];
    [vm_compute; reflexivity|].
  destruct (system_transactions_agree 1 1 1 1 9 0 1000000000 KINET_DEVNET_CHAIN_CONFIG txns
    [example_transfer]) as (sys_txns & Hex & Htx & _ & Hval).
  - vm_compute. discriminate.
  - vm_compute. discriminate.
  - exact Htxns.
  - vm_compute. reflexivity.
  - apply Forall_singleton. split; vm_compute; reflexivity.
  - exists txns, sys_txns. split; [exact Htxns|]. split; [|split; [exact Hex|by apply Hval]].
    assert (Hlen : (λ t, length t) <$> generate_system_transactions 1 1 1 1 9 0 KINET_DEVNET_CHAIN_CONFIG = Ret 1)
      by (vm_compute; reflexivity).
    rewrite Htxns in Hlen. cbn in Hlen. congruence.
Defined.
