(* ===== verification/EthNonces.v ===== *)
(** * Nonces under delayed execution

    The nonce usages kept with a block summarise exactly what its checks do to the
    account nonces; the base nonces computed from the delayed state, the committed
    blocks and the branch are the nonces after executing all preceding blocks. *)
From S2P Require Import Prelude Types.
From S2P Require Import SignatureCollection Certificates Tree ChainConfig Timestamp BaseFee.
From S2P Require Import EthTypes NonceUsage TxValidation SystemCalls EthBlockValidator EthBlockPolicy.

Section nonces.
Context `{HC : Codec} `{!HashIter, !U256Ops, !I256Ops}.
Context `{!EthTransactions, !EthProtocol, !SystemSigning}.
Context {CC : Type} `{!ChainConfig CC} {State : Type} `{!ExecutionStateRead State}.

Implicit Types (u : NonceUsageMap) (m : gmap Address N).

(** ** A block's usages summarise its checks *)

(** The usages [u] take the nonces [m0] to [m]. *)
Definition summarises u m0 m : Prop :=
  ∀ a n, m0 !! a = Some n → m !! a = Some (apply_usage (u !! a) n).

Lemma summarises_refl m : summarises ∅ m m.
Proof. intros a n Hn. by rewrite lookup_empty. Qed.

(** One account moves, to the nonce its new usage says. *)
Lemma summarises_insert u m0 m a v usage :
  summarises u m0 m →
  (∀ n, m0 !! a = Some n → v = apply_to_account_nonce usage n) →
  summarises (<[a := usage]> u) m0 (<[a := v]> m).
Proof.
  intros Hs Hv b n Hn. destruct (decide (b = a)) as [->|Hne].
  - rewrite !lookup_insert_eq. cbn. f_equal. by apply Hv.
  - rewrite !lookup_insert_ne by done. by apply Hs.
Qed.

(** One authorization of [a] with nonce [k], counted by the new usage of [a]. *)
Lemma summarises_authorization u u' m0 m a e k :
  summarises u m0 m → m !! a = Some e → (∀ b, b ≠ a → u' !! b = u !! b) →
  (∀ n, apply_usage (u !! a) n = e →
     apply_usage (u' !! a) n = if decide (e = k) then u64_incr e else e) →
  summarises u' m0 (if decide (e ≠ k) then m else <[a := u64_incr e]> m).
Proof.
  intros Hs He Hother Hu b n Hn. specialize (Hs b n Hn) as Hb.
  destruct (decide (b = a)) as [->|Hne].
  - rewrite Hu by congruence. destruct (decide (e = k)) as [->|Hek].
    + rewrite decide_False by tauto. by rewrite lookup_insert_eq.
    + by rewrite decide_True.
  - rewrite Hother by done. destruct (decide (e ≠ k)); [done|]. by rewrite lookup_insert_ne.
Qed.

Lemma check_nonce_Ok a k m m' :
  check_nonce a k m = Ret (Ok m') ↔ m !! a = Some k ∧ m' = <[a := u64_incr k]> m.
Proof.
  unfold check_nonce. destruct (m !! a) as [e|]; cbn; [|naive_solver].
  case_decide; naive_solver.
Qed.

Lemma system_nonces_summarised sys u0 u m0 m1 m2 :
  summarises u0 m0 m1 →
  system_nonce_loop sys u0 = Ok u → system_transaction_nonce_check sys m1 = Ret (Ok m2) →
  summarises u m0 m2.
Proof.
  revert u0 m1. induction sys as [|t sys IH]; intros u0 m1 Hs.
  { by intros [= <-] [= <-]. }
  cbn [system_nonce_loop system_transaction_nonce_check add_known].
  rewrite run_try_Ok. intros Hu (m1' & [Hm ->]%check_nonce_Ok & Hc).
  assert (Hs' : summarises (<[vt_signer t := Known (vt_nonce t)]> u0) m0
    (<[vt_signer t := u64_incr (vt_nonce t)]> m1)) by (by apply summarises_insert).
  destruct (u0 !! vt_signer t) as [[old|]|]; [|done|by eapply IH].
  destruct (u64_checked_add old 1); [|done]. case_decide; [done|]. by eapply IH.
Qed.

Lemma u64_incr_checked n k : u64_checked_add n 1 = Some k → u64_incr n = k.
Proof.
  unfold u64_checked_add, u64_incr. case_decide; [|done]. intros [= <-]. apply N.mod_small. lia.
Qed.

Lemma authorization_nonces_summarised chain_id auths u0 fees0 u fees m0 m1 m2 :
  summarises u0 m0 m1 →
  authorization_loop chain_id auths u0 fees0 = Ok (u, fees) →
  eip_7702_valid_nonce_update auths m1 chain_id = Ret m2 →
  summarises u m0 m2.
Proof.
  revert u0 fees0 m1. induction auths as [|x auths IH]; intros u0 fees0 m1 Hs.
  { by intros [= <- <-] [= <-]. }
  cbn [authorization_loop eip_7702_valid_nonce_update].
  destruct (ra_authority x) as [a|]; [|by eapply IH].
  case_decide; [done|]. destruct (other_chain x chain_id); [by eapply IH|].
  intros Hu (e & He%expect_Ret & Hm)%run_bind_Ret. set (k := auth_nonce (ra_inner x)) in *.
  assert (Hm' : eip_7702_valid_nonce_update auths
    (if decide (e ≠ k) then m1 else <[a := u64_incr e]> m1) chain_id = Ret m2) by by destruct (decide (e ≠ k)).
  clear Hm. destruct (u0 !! a) as [[known|possible]|] eqn:Hua.
  - destruct (u64_checked_add known 1) as [next|] eqn:Hadd; [|done]. apply u64_incr_checked in Hadd.
    eapply IH; [|done|done]. apply (summarises_authorization u0); [done|done| |].
    + intros b Hb. destruct (decide (next = k)); [by rewrite lookup_insert_ne|done].
    + rewrite Hua. cbn. intros n Hnext. rewrite <- Hnext, Hadd.
      destruct (decide (next = k)); [by rewrite lookup_insert_eq|]. by rewrite Hua, <- Hadd.
  - eapply IH; [|done|done]. apply (summarises_authorization u0); [done|done| |].
    + intros b Hb. by rewrite lookup_insert_ne.
    + rewrite Hua, lookup_insert_eq. cbn. intros n Hn.
      unfold apply_possible_nonces_to_account_nonce in *. rewrite foldl_app, Hn. cbn.
      repeat case_decide; congruence.
  - eapply IH; [|done|done]. apply (summarises_authorization u0); [done|done| |].
    + intros b Hb. by rewrite lookup_insert_ne.
    + rewrite Hua, lookup_insert_eq. cbn. intros n ->. repeat case_decide; congruence.
Qed.

Lemma txn_nonces_summarised v fee chain_id txns u0 fees0 u fees m0 m1 bal1 m2 bal2 :
  summarises u0 m0 m1 →
  txn_loop fee chain_id txns u0 fees0 = Ret (Ok (u, fees)) →
  coherency_txn_loop v chain_id txns m1 bal1 = Ret (Ok (m2, bal2)) →
  summarises u m0 m2.
Proof.
  revert u0 fees0 m1 bal1. induction txns as [|t txns IH]; intros u0 fees0 m1 bal1 Hs.
  { by intros [= <- <-] [= <- <-]. }
  cbn [txn_loop coherency_txn_loop]. rewrite run_try_Ok. intros ([u1 fees1] & Hv & Hloop).
  rewrite run_try_Ok. intros (m1' & [Hm ->]%check_nonce_Ok & (bal1' & _ & (m1'' & Hauth & Hc)%run_bind_Ret)%run_try_Ok).
  eapply IH; [|done|done]. clear IH Hloop Hc.
  unfold validate_txn in Hv. case_decide; [done|]. cbn [add_known] in Hv.
  apply run_try_Ok in Hv as ([] & _ & ([u' fees'] & Hl & (g & _ & [= <- <-])%run_bind_Ret)%run_try_Ok).
  assert (Hs' : summarises (<[vt_signer t := Known (vt_nonce t)]> u0) m0
    (<[vt_signer t := u64_incr (vt_nonce t)]> m1)) by by apply summarises_insert.
  destruct (is_eip7702 (vt_envelope t)).
  - injection Hl as Hl. by eapply authorization_nonces_summarised.
  - injection Hl as <- <-. by injection Hauth as <-.
Qed.

(** The summary of a validated body is what the coherency checks do. *)
(** What a validated body went through. *)
Lemma validate_block_body_Ok header body cc sys txns u fees :
  validate_block_body header body cc = Ret (Ok (sys, txns, u, fees)) →
  ∃ total_gas rec eth u0,
    checked_sum 0 (tx_gas_limit <$> transactions (eth_body body)) = Some total_gas ∧
    (total_gas ≤ proposal_gas_limit (cfg_params cc (block_round header)))%N ∧
    recover_all (transactions (eth_body body)) = Ok rec ∧
    extract_system_transactions (hdr_timestamp_ns header) rec cc = Ok (sys, eth) ∧
    system_nonce_loop sys ∅ = Ok u0 ∧ txns = to_validated <$> eth ∧
    txn_loop (base_fee header) (cfg_chain_id cc) txns u0 ∅ = Ret (Ok (u, fees)).
Proof.
  unfold validate_block_body. repeat (case_decide; [done|]).
  intros (gas & Hgas & Hbody)%run_try_Ok. case_decide as Hlim; [done|].
  apply run_try_Ok in Hbody as (rec & Hrec & ([sys' eth] & Hext & Hbody)%run_try_Ok). case_decide; [done|].
  apply run_try_Ok in Hbody as (u0 & Hu0 & ([] & _ & (r & Hloop & Hbody)%run_bind_Ret)%run_try_Ok).
  apply run_try_Ok in Hbody as ([u' fees'] & Hr & [= <- <- <- <-]).
  destruct r as [[??]|]; [|done]. injection Hr as -> ->. exists gas, rec, eth, u0.
  destruct (checked_sum _ _); [|done]. injection Hgas as ->.
  destruct (recover_all _); [|done]. injection Hrec as ->.
  destruct (extract_system_transactions _ _ _) as [[]|]; [|done]. injection Hext as -> ->.
  destruct (system_nonce_loop sys' ∅) as [u1|]; [|done]. injection Hu0 as ->.
  split_and!; try done. lia.
Qed.

Lemma body_nonces_summarised header body cc sys txns u fees v m0 m1 bal m2 bal2 :
  validate_block_body header body cc = Ret (Ok (sys, txns, u, fees)) →
  system_transaction_nonce_check sys m0 = Ret (Ok m1) →
  coherency_txn_loop v (cfg_chain_id cc) txns m1 bal = Ret (Ok (m2, bal2)) →
  summarises u m0 m2.
Proof.
  intros (gas & rec & eth & u0 & _ & _ & _ & _ & Hsys & _ & Hloop)%validate_block_body_Ok Hc1 Hc2.
  eapply txn_nonces_summarised; [|done|done].
  eapply system_nonces_summarised; [apply summarises_refl|done|done].
Qed.
End nonces.
