(* ===== verification/EthChain.v ===== *)
(** * The block policy along a chain

    The buffer of committed blocks holds the most recent blocks of the committed
    chain, at least twice the execution delay of them; commits never panic, every
    block the policy looks up is there, and the base nonces it computes from delayed
    state are the nonces after all preceding blocks. *)
From S2P Require Import Prelude Types.
From S2P Require Import SignatureCollection Certificates Tree ChainConfig Timestamp BaseFee.
From S2P Require Import EthTypes NonceUsage TxValidation SystemCalls EthBlockValidator EthBlockPolicy.
From S2P Require Import EthNonces.

Section chain.
Context `{HC : Codec} `{!HashIter, !U256Ops, !I256Ops}.
Context `{!EthTransactions, !EthProtocol, !SystemSigning}.
Context {CC : Type} `{!ChainConfig CC} {State : Type} `{!ExecutionStateRead State}.

Implicit Types (p : EthBlockPolicy) (chain committed ext : list EthValidatedBlock).

(** Blocks numbered consecutively from 1, within 64 bits. *)
Definition numbered chain : Prop :=
  (∀ i b, chain !! i = Some b → evb_seq_num b = N.of_nat (S i)) ∧
  (N.of_nat (length chain) + 2 ≤ u64_MAX)%N.

(** The policy has committed exactly [committed] and buffers its blocks above [lo]. *)
Record follows_from (lo : nat) p committed : Prop := {
  fo_last : last_commit p = N.of_nat (length committed);
  fo_delay : (1 ≤ execution_delay p)%N;
  fo_size : min_buffer_size (committed_cache p) = (2 * execution_delay p)%N;
  fo_width : (4 * execution_delay p ≤ u64_MAX)%N;
  fo_lo : lo ≤ length committed ∧
    (lo = 0 ∨ (N.of_nat lo + 2 * execution_delay p ≤ N.of_nat (length committed))%N);
  fo_blocks s cb : blocks (committed_cache p) !! s = Some cb ↔
    (N.of_nat lo + 1 ≤ s)%N ∧
    (committed_block <$> drop lo committed) !! N.to_nat (s - (N.of_nat lo + 1)) = Some cb;
}.

Definition follows p committed : Prop := ∃ lo, follows_from lo p committed.

Lemma follows_iter lo p committed :
  follows_from lo p committed →
  btree_iter (blocks (committed_cache p)) =
    numbered_from (N.of_nat lo + 1) (committed_block <$> drop lo committed).
Proof. intros Hf. apply btree_iter_numbered. apply Hf. Qed.

Lemma follows_keys lo p committed :
  follows_from lo p committed →
  size (blocks (committed_cache p)) = length committed - lo ∧
  (lo < length committed →
     first_key (blocks (committed_cache p)) = Some (N.of_nat lo + 1)%N ∧
     last_key (blocks (committed_cache p)) = Some (N.of_nat (length committed))) ∧
  (lo = length committed → last_key (blocks (committed_cache p)) = None).
Proof.
  intros Hf. pose proof (follows_iter _ _ _ Hf) as Hiter.
  unfold first_key, last_key, btree_keys. rewrite <- btree_keys_length. unfold btree_keys.
  rewrite Hiter, length_fmap, numbered_from_length, length_fmap, length_drop.
  split; [done|]. split.
  - intros Hlt. split.
    + destruct (drop lo committed) as [|b l] eqn:Hd; [|done].
      apply (f_equal length) in Hd. rewrite length_drop in Hd. cbn in Hd. lia.
    + rewrite last_lookup, list_lookup_fmap, length_fmap, numbered_from_length, length_fmap, length_drop.
      rewrite numbered_from_lookup, list_lookup_fmap, lookup_drop.
      destruct (lookup_lt_is_Some_2 committed (lo + Nat.pred (length committed - lo))) as [b Hb]; [lia|].
      rewrite Hb. cbn. f_equal. lia.
  - intros ->. by rewrite drop_all.
Qed.

Definition with_cache p (c : CommittedBlkBuffer) : EthBlockPolicy :=
  {| last_commit := last_commit p; committed_cache := c; execution_delay := execution_delay p |}.

(** Dropping the oldest blocks. *)
Lemma follows_drop lo lo' p committed :
  follows_from lo p committed → lo ≤ lo' →
  (N.of_nat lo' + 2 * execution_delay p ≤ N.of_nat (length committed))%N →
  follows_from lo' (with_cache p {|
    blocks := filter (λ q, (N.of_nat lo' + 1 ≤ q.1)%N) (blocks (committed_cache p));
    min_buffer_size := min_buffer_size (committed_cache p) |}) committed.
Proof.
  intros [Hlast Hdelay Hsize Hwidth Hlo Hblocks] Hle Hlen. split; cbn; [done..|lia|].
  intros s cb. rewrite map_lookup_filter_Some, Hblocks. cbn. rewrite !list_lookup_fmap, !lookup_drop.
  split.
  - intros [[_ Hc] Hs]. split; [done|]. rewrite <- Hc. do 2 f_equal. lia.
  - intros [Hs Hc]. split; [|done]. split; [lia|]. rewrite <- Hc. do 2 f_equal. lia.
Qed.

Lemma shrink_follows lo p committed :
  follows_from lo p committed → (N.of_nat (length committed) + 2 ≤ u64_MAX)%N →
  ∃ lo' c, shrink (committed_cache p) (N.of_nat (S (length committed))) = Ret c ∧
    follows_from lo' (with_cache p c) committed.
Proof.
  intros Hf Hmax. destruct (follows_keys _ _ _ Hf) as (Hsz & Hne & _).
  pose proof Hf as [Hlast Hdelay Hsize Hwidth Hlo Hblocks]. unfold shrink.
  rewrite Hsz, Hsize. unfold u64_saturating_mul. case_decide as Hbig.
  2: { exists lo, (committed_cache p). split; [done|]. by destruct p. }
  destruct Hne as [Hfirst _]; [lia|]. rewrite Hfirst. cbn [expect mbind run_bind].
  set (lo' := length committed - N.to_nat (2 * execution_delay p)).
  rewrite SeqNum_add_Ret by lia. cbn [mbind run_bind].
  replace (N.of_nat lo + 1 + (N.of_nat (length committed - lo) - 2 * execution_delay p))%N
    with (N.of_nat lo' + 1)%N by (unfold lo'; lia).
  assert (Hf' := follows_drop lo lo' p committed Hf ltac:(unfold lo'; lia) ltac:(unfold lo'; lia)).
  destruct (follows_keys _ _ _ Hf') as (Hsz' & Hne' & _). cbn in Hsz', Hne'.
  destruct Hne' as [_ Hlast']; [unfold lo'; lia|]. rewrite Hlast'. cbn [expect mbind run_bind].
  rewrite SeqNum_add_Ret by lia. cbn [mbind run_bind].
  rewrite (assert_true (_ = N.of_nat (S _))) by lia. cbn [mbind run_bind].
  rewrite assert_true by (rewrite Hsz'; unfold lo'; lia). cbn [mbind run_bind].
  exists lo'. eexists. split; [done|]. rewrite <- Hsize. exact Hf'.
Qed.

(** Committing the next block never panics. *)
Lemma update_follows p committed b :
  follows p committed → numbered (committed ++ [b]) →
  ∃ p', eth_update_committed_block p b = Ret p' ∧ follows p' (committed ++ [b]) ∧
    execution_delay p' = execution_delay p.
Proof.
  intros [lo Hf] [Hnum Hmax]. rewrite length_app in Hmax. cbn in Hmax.
  assert (Hb : evb_seq_num b = N.of_nat (S (length committed))).
  { apply Hnum. by rewrite lookup_app_r, Nat.sub_diag. }
  unfold eth_update_committed_block. rewrite (fo_last _ _ _ Hf), SeqNum_add_Ret by lia.
  cbn [mbind run_bind]. rewrite assert_true by lia. cbn [mbind run_bind].
  unfold buffer_update_committed_block. rewrite Hb.
  destruct (follows_keys _ _ _ Hf) as (_ & Hne & Hempty).
  assert (Hchk : (match last_key (blocks (committed_cache p)) with
   | Some last_block_num =>
       next ← SeqNum_add last_block_num 1; assert (next = N.of_nat (S (length committed)))
   | None => Ret ()
   end) = Ret ()).
  { destruct (decide (lo = length committed)) as [Heq|Hneq]; [by rewrite Hempty|].
    pose proof (fo_lo _ _ _ Hf). destruct Hne as [_ ->]; [lia|].
    rewrite SeqNum_add_Ret by lia. cbn [mbind run_bind]. apply assert_true. lia. }
  rewrite Hchk. cbn [mbind run_bind].
  destruct (shrink_follows lo p committed Hf) as (lo' & c & -> & Hf'); [lia|]. cbn [mbind run_bind].
  pose proof Hf' as [Hlast Hdelay Hsize Hwidth Hlo Hblocks]. cbn in *.
  assert (Hnone : blocks c !! N.of_nat (S (length committed)) = None).
  { apply eq_None_not_Some. intros [cb [_ Hcb]%Hblocks].
    apply lookup_lt_Some in Hcb. rewrite length_fmap, length_drop in Hcb. lia. }
  rewrite assert_true by done. cbn [mbind run_bind].
  eexists. split; [done|]. split; [|done]. exists lo'. split; cbn; rewrite ?length_app; cbn; [lia|done..|lia|].
  intros s cb. rewrite drop_app_le, fmap_app by lia. cbn [fmap list_fmap].
  assert (Hl : length (committed_block <$> drop lo' committed) = length committed - lo')
    by by rewrite length_fmap, length_drop.
  destruct (decide (s = N.of_nat (S (length committed)))) as [->|Hs].
  - rewrite lookup_insert_eq, lookup_app_r by lia.
    replace (N.to_nat (N.of_nat (S (length committed)) - (N.of_nat lo' + 1)) -
      length (committed_block <$> drop lo' committed)) with 0 by lia. cbn. split; [intros [= <-]; split; [lia|done]|naive_solver].
  - rewrite lookup_insert_ne, Hblocks by done. split; intros [Hge Hc]; (split; [done|]).
    + rewrite lookup_app_l by (apply lookup_lt_Some in Hc; lia). done.
    + apply lookup_lt_Some in Hc as Hlt. rewrite length_app in Hlt. cbn in Hlt.
      by rewrite lookup_app_l in Hc by lia.
Qed.

Lemma new_follows delay :
  (1 ≤ delay)%N → (4 * delay ≤ u64_MAX)%N → follows (EthBlockPolicy_new 0 delay) [].
Proof.
  intros Hd1 Hd4. exists 0. split; cbn; [done|done| |done|lia|].
  - unfold u64_saturating_mul. lia.
  - intros s cb. rewrite lookup_empty. cbn. split; [done|by intros [_ ?]].
Qed.

(** ** The blocks the policy looks up *)

Definition base_index p chain : nat :=
  N.to_nat (base_seq_num_of p (N.of_nat (S (length chain)))).

(** The identifier and round of the block after which the state is read. *)
Definition id_at chain (i : nat) : BlockId :=
  match i with
  | 0 => GENESIS_BLOCK_ID
  | S i => match chain !! i with Some b => blk_get_id (evb_block b) | None => GENESIS_BLOCK_ID end
  end.

Definition round_at chain (i : nat) : Round :=
  match i with
  | 0 => GENESIS_ROUND
  | S i => match chain !! i with Some b => evb_round b | None => GENESIS_ROUND end
  end.

Lemma base_index_bounds lo p committed ext :
  follows_from lo p committed →
  lo ≤ base_index p (committed ++ ext) ≤ length (committed ++ ext) ∧
  (base_index p (committed ++ ext) ≠ 0 → lo < base_index p (committed ++ ext)).
Proof.
  intros Hf. destruct Hf as [_ Hdelay _ _ Hlo _].
  unfold base_index, base_seq_num_of. rewrite length_app. lia.
Qed.

Lemma find_numbered committed ext i b :
  numbered (committed ++ ext) → length committed ≤ i → (committed ++ ext) !! i = Some b →
  find_first (λ b, bool_decide (evb_seq_num b = N.of_nat (S i))) ext = Some b.
Proof.
  intros [Hnum _] Hi Hb. apply find_first_Some. rewrite lookup_app_r in Hb by done.
  exists (take (i - length committed) ext), (drop (S (i - length committed)) ext).
  split; [by rewrite take_drop_middle|]. split.
  - apply bool_decide_eq_true. apply Hnum. by rewrite lookup_app_r.
  - apply Forall_lookup. intros j c [Hj Hlt]%lookup_take_Some. apply bool_decide_eq_false.
    assert (Hc : evb_seq_num c = N.of_nat (S (length committed + j))).
    { apply Hnum. rewrite lookup_app_r by lia. by replace (length committed + j - length committed) with j by lia. }
    lia.
Qed.

(** Every block from the base on is found, in the buffer or on the branch. *)
Lemma get_block_index_at lo p committed ext i :
  follows_from lo p committed → numbered (committed ++ ext) →
  i ≤ length (committed ++ ext) → (i ≠ 0 → lo < i) →
  get_block_index p (Some ext) (N.of_nat i) = Ret (Ok {|
    bli_block_id := id_at (committed ++ ext) i; bli_seq_num := N.of_nat i;
    bli_round := round_at (committed ++ ext) i;
    bli_is_finalized := bool_decide (i ≤ length committed) |}).
Proof.
  intros Hf Hnum Hi Hlo. unfold get_block_index. rewrite (fo_last _ _ _ Hf).
  destruct i as [|i].
  { rewrite decide_True by lia. rewrite decide_True by done.
    by rewrite bool_decide_eq_true_2 by lia. }
  destruct (lookup_lt_is_Some_2 (committed ++ ext) i) as [b Hb]; [lia|].
  cbn [id_at round_at]. rewrite Hb. case_decide as Hc.
  - rewrite decide_False by (unfold GENESIS_SEQ_NUM; lia).
    assert (blocks (committed_cache p) !! N.of_nat (S i) = Some (committed_block b)) as ->.
    { apply (fo_blocks _ _ _ Hf). split; [lia|]. rewrite list_lookup_fmap, lookup_drop.
      replace (lo + N.to_nat (N.of_nat (S i) - (N.of_nat lo + 1))) with i by lia.
      by rewrite lookup_app_l in Hb by lia; rewrite Hb. }
    cbn [expect mbind run_bind]. by rewrite bool_decide_eq_true_2 by lia.
  - rewrite (find_numbered committed ext i b) by (done || lia).
    cbn [expect mbind run_bind]. by rewrite bool_decide_eq_false_2 by lia.
Qed.

Lemma numbered_extending committed ext :
  numbered (committed ++ ext) →
  (λ b, (evb_seq_num b, nonce_usages b)) <$> ext =
    numbered_from (N.of_nat (length committed) + 1) (nonce_usages <$> ext).
Proof.
  intros [Hnum _]. apply list_eq. intros i.
  rewrite numbered_from_lookup, !list_lookup_fmap. destruct (ext !! i) as [b|] eqn:Hb; [|done]. cbn.
  rewrite (Hnum (length committed + i)); [do 2 f_equal; lia|].
  rewrite lookup_app_r by lia. by replace (length committed + i - length committed) with i by lia.
Qed.

(** The usages merged are those of all blocks after the base. *)
Lemma usages_since_base lo p committed ext i :
  follows_from lo p committed → numbered (committed ++ ext) → lo ≤ i →
  usages_since p ext (N.of_nat i) = nonce_usages <$> drop i (committed ++ ext).
Proof.
  intros Hf Hnum Hi. unfold usages_since.
  rewrite (follows_iter _ _ _ Hf), (numbered_extending _ _ Hnum).
  assert (Hmap : ∀ n (l : list EthValidatedBlock),
    (λ q : SeqNum * CommittedBlock, (q.1, cb_nonce_usages q.2)) <$> numbered_from n (committed_block <$> l) =
      numbered_from n (nonce_usages <$> l)).
  { intros n l. apply list_eq. intros j.
    rewrite list_lookup_fmap, !numbered_from_lookup, !list_lookup_fmap. by destruct (l !! j). }
  rewrite Hmap. pose proof (fo_lo _ _ _ Hf) as [Hlo _].
  replace (N.of_nat (length committed) + 1)%N
    with (N.of_nat lo + 1 + N.of_nat (length (nonce_usages <$> drop lo committed)))%N
    by (rewrite length_fmap, length_drop; lia).
  rewrite <- numbered_from_app, <- fmap_app, <- drop_app_le by done.
  assert (Hext : ∀ l : list (N * NonceUsageMap),
    filter (λ q, (N.of_nat i < q.1)%N) l = filter (λ q, (N.of_nat i + 1 ≤ q.1)%N) l).
  { intros l. apply list_filter_iff. intros q. lia. }
  rewrite Hext, numbered_from_filter_ge, numbered_from_snd by lia.
  rewrite <- fmap_drop, drop_drop. do 2 f_equal. lia.
Qed.

Lemma hashset_iter_spec (X : gset Address) :
  NoDup (hashset_iter X) ∧ ∀ a, a ∈ hashset_iter X ↔ a ∈ X.
Proof.
  unfold hashset_iter. split.
  - rewrite hash_iter_perm. apply NoDup_fst_map_to_list.
  - intros a. rewrite hash_iter_perm, list_elem_of_fmap. split.
    + intros ([b []] & -> & Hb). by apply elem_of_map_to_list, lookup_gset_to_gmap_Some in Hb as [? _].
    + intros Ha. exists (a, ()). split; [done|]. by apply elem_of_map_to_list, lookup_gset_to_gmap_Some.
Qed.

(** The nonces already known, and the accounts whose state has to be read. *)
Definition is_known (u : option NonceUsage) : bool :=
  match u with Some (Known _) => true | _ => false end.

Definition possible_of (u : option NonceUsage) : option (list N) :=
  match u with Some (Possible l) => Some l | _ => None end.

Lemma split_cached_spec cached l m misses :
  NoDup l → (∀ a, a ∈ l → m !! a = None) →
  let '(m', misses') := split_cached cached l m misses in
  misses' = misses ++ ((λ a, (a, possible_of (cached !! a))) <$> filter (λ a, is_known (cached !! a) = false) l) ∧
  (∀ a, a ∉ l → m' !! a = m !! a) ∧
  (∀ a n, a ∈ l → is_known (cached !! a) = true → m' !! a = Some (apply_usage (cached !! a) n)).
Proof.
  revert m misses. induction l as [|x l IH]; intros m misses Hnd Hm.
  { cbn. rewrite app_nil_r. set_solver. }
  apply NoDup_cons in Hnd as [Hx Hnd]. cbn [split_cached]. rewrite filter_cons.
  destruct (cached !! x) as [[nonce|possible]|] eqn:Hc; cbn [is_known].
  - rewrite decide_False by done.
    specialize (IH (<[x := u64_incr nonce]> m) misses Hnd).
    destruct (split_cached _ _ _ _) as [m' misses'].
    destruct IH as (Hmiss & Hout & Hin).
    { intros a Ha. rewrite lookup_insert_ne by (intros ->; done). apply Hm. by right. }
    split; [done|]. split.
    + intros a Ha. apply not_elem_of_cons in Ha as [Hne Ha]. rewrite Hout by done.
      by rewrite lookup_insert_ne by congruence.
    + intros a n [->|Ha]%elem_of_cons Hk; [|by apply Hin].
      rewrite Hout by done. by rewrite lookup_insert_eq, Hc.
  - rewrite decide_True by done. cbn [fmap list_fmap]. rewrite Hc. cbn [possible_of].
    specialize (IH m (misses ++ [(x, Some possible)]) Hnd).
    destruct (split_cached _ _ _ _) as [m' misses'].
    destruct IH as (Hmiss & Hout & Hin). { intros a Ha. apply Hm. by right. }
    rewrite <- app_assoc in Hmiss. split; [done|]. split; [set_solver|].
    intros a n [->|Ha]%elem_of_cons Hk; [by rewrite Hc in Hk|by apply Hin].
  - rewrite decide_True by done. cbn [fmap list_fmap]. rewrite Hc. cbn [possible_of].
    specialize (IH m (misses ++ [(x, None)]) Hnd).
    destruct (split_cached _ _ _ _) as [m' misses'].
    destruct IH as (Hmiss & Hout & Hin). { intros a Ha. apply Hm. by right. }
    rewrite <- app_assoc in Hmiss. split; [done|]. split; [set_solver|].
    intros a n [->|Ha]%elem_of_cons Hk; [by rewrite Hc in Hk|by apply Hin].
Qed.

(** The reads fill in the rest. *)
Lemma fold_missed (misses : list (Address * option (list N))) statuses (m : gmap Address Nonce) a :
  NoDup misses.*1 → length misses = length statuses →
  foldl (λ m '((address, possible_nonces), status),
    <[address := missed_nonce possible_nonces status]> m) m (zip misses statuses) !! a =
  match list_find (λ q, q.1.1 = a) (zip misses statuses) with
  | Some (_, (_, possible, status)) => Some (missed_nonce possible status)
  | None => m !! a
  end.
Proof.
  revert statuses m. induction misses as [|[x possible] misses IH]; intros [|st statuses] m Hnd Hlen;
    [done..|]. cbn in Hnd, Hlen. apply NoDup_cons in Hnd as [Hx Hnd]. cbn [zip zip_with foldl list_find fst].
  rewrite IH by (done || lia). case_decide as Ha; cbn in Ha.
  - subst x. destruct (list_find _ _) as [[j [[b po] st']]|] eqn:Hf; [|by rewrite lookup_insert_eq].
    apply list_find_Some in Hf as (Hj & Hb & _). cbn in Hb. subst b. exfalso. apply Hx.
    apply list_elem_of_fmap. exists (a, po). split; [done|].
    apply list_elem_of_lookup. exists j. apply lookup_zip_with_Some in Hj. naive_solver.
  - destruct (list_find _ _) as [[j [[b po] st']]|]; [done|]. cbn. by rewrite lookup_insert_ne.
Qed.

(** ** Base nonces *)

(** The nonce of an account after the blocks of a chain, from genesis. *)
Definition nonce_after chain (a : Address) : Nonce :=
  foldl (λ n b, apply_usage (nonce_usages b !! a) n) 0%N chain.

Definition status_nonce (s : option EthAccount) : Nonce :=
  match s with Some s => acc_nonce s | None => 0%N end.

(** A successful read of the state after a block of the chain answers each address with
    the nonce the account has after that block. *)
Definition reads_nonces (state_read : State) chain : Prop :=
  ∀ i finalized addrs l state_read', i ≤ length chain →
    get_account_statuses state_read (id_at chain i) (N.of_nat i) finalized addrs = (Ok l, state_read') →
    status_nonce <$> l = nonce_after (take i chain) <$> addrs.

Lemma nonce_after_split chain i a :
  foldl (λ n block, apply_usage (block !! a) n) (nonce_after (take i chain) a)
    (nonce_usages <$> drop i chain) = nonce_after chain a.
Proof.
  rewrite foldl_fmap. unfold nonce_after. by rewrite <- foldl_app, take_drop.
Qed.

Lemma missed_nonce_apply u status :
  is_known u = false → missed_nonce (possible_of u) status = apply_usage u (status_nonce status).
Proof. by destruct u as [[]|]. Qed.

(** Known nonces and successful reads together answer every address. *)
Lemma filled_lookup cached l known misses statuses (f : Address → N) a :
  split_cached cached l ∅ [] = (known, misses) → NoDup l →
  status_nonce <$> statuses = f <$> misses.*1 →
  foldl (λ m '((address, possible_nonces), status),
    <[address := missed_nonce possible_nonces status]> m) known (zip misses statuses) !! a =
    if decide (a ∈ l) then Some (apply_usage (cached !! a) (f a)) else None.
Proof.
  intros Hsplit Hnd Hget.
  pose proof (split_cached_spec cached l ∅ [] Hnd (λ a _, lookup_empty a)) as Hspec.
  rewrite Hsplit in Hspec. destruct Hspec as (Hmisses & Hout & Hin). cbn [app] in Hmisses.
  set (k := filter _ l) in Hmisses.
  assert (Hk : misses.*1 = k) by by rewrite Hmisses, <- list_fmap_compose, list_fmap_id.
  assert (Hlen : length misses = length statuses).
  { apply (f_equal length) in Hget. by rewrite !length_fmap in Hget. }
  rewrite Hk in Hget. rewrite fold_missed by (rewrite ?Hk; try apply NoDup_filter; done).
  destruct (list_find _ _) as [[j [[b po] st]]|] eqn:Hfind.
  - apply list_find_Some in Hfind as (Hj & Hb & _). cbn in Hb. subst b.
    apply lookup_zip_with_Some in Hj as ([b po'] & st' & [= <- <- <-] & Hm & Hs).
    rewrite Hmisses, list_lookup_fmap in Hm.
    destruct (k !! j) as [b'|] eqn:Hkj; [|done]. cbn in Hm. injection Hm as -> <-.
    apply (f_equal (λ l, l !! j)) in Hget. rewrite !list_lookup_fmap, Hs, Hkj in Hget.
    cbn in Hget. injection Hget as Hst.
    apply list_elem_of_lookup_2, list_elem_of_filter in Hkj as [Hkn Ha].
    by rewrite decide_True, missed_nonce_apply, Hst.
  - apply list_find_None in Hfind. case_decide as Ha; [|by apply Hout]. apply Hin; [done|].
    destruct (is_known _) eqn:Hkn; [done|]. exfalso.
    assert (Hl : a ∈ k) by by apply list_elem_of_filter.
    apply list_elem_of_lookup in Hl as [j Hj].
    destruct (lookup_lt_is_Some_2 statuses j) as [st Hs].
    { rewrite <- Hlen, Hmisses, length_fmap. by eapply lookup_lt_Some. }
    rewrite Forall_lookup in Hfind. apply (Hfind j ((a, possible_of (cached !! a)), st)); [|done].
    apply lookup_zip_with_Some. eexists _, _. split; [done|]. split; [|done].
    by rewrite Hmisses, list_lookup_fmap, Hj.
Qed.

Lemma get_account_base_nonces_correct p committed ext state_read addrs :
  follows p committed → numbered (committed ++ ext) → reads_nonces state_read (committed ++ ext) →
  ∃ r state_read', get_account_base_nonces p (N.of_nat (S (length (committed ++ ext)))) state_read ext addrs =
      Ret (r, state_read') ∧
    ∀ m, r = Ok m → ∀ a, m !! a = if decide (a ∈ addrs) then Some (nonce_after (committed ++ ext) a) else None.
Proof.
  intros [lo Hf] Hnum Hreads. set (chain := committed ++ ext) in *.
  destruct (base_index_bounds lo p committed ext Hf) as [[Hlo Hi] Hpos]. fold chain in Hlo, Hi, Hpos.
  unfold get_account_base_nonces.
  replace (base_seq_num_of p (N.of_nat (S (length chain)))) with (N.of_nat (base_index p chain))
    by (unfold base_index; lia).
  set (i := base_index p chain) in *.
  rewrite (usages_since_base lo p committed ext i) by done. fold chain.
  set (cached := foldl _ _ _).
  destruct (hashset_iter_spec (list_to_set addrs)) as [Hnd Hel].
  destruct (split_cached _ _ _ _) as [known misses] eqn:Hsplit.
  unfold st_try at 1, policy_get_account_statuses.
  rewrite (get_block_index_at lo p committed ext i) by done. cbn [mbind run_bind bli_block_id bli_is_finalized].
  fold chain.
  destruct (get_account_statuses _ _ _ _ _) as [[statuses|e] state_read'] eqn:Hget; [|by eexists _, _].
  apply (Hreads i) in Hget; [|done].
  unfold zip_eq. rewrite assert_true.
  2: { apply (f_equal length) in Hget. by rewrite !length_fmap in Hget. }
  cbn [mbind run_bind]. eexists _, _. split; [done|]. intros m [= <-] a.
  rewrite (filled_lookup cached _ _ _ _ (nonce_after (take i chain)) a Hsplit Hnd Hget).
  specialize (Hel a). rewrite elem_of_list_to_set in Hel.
  case_decide as Ha; [|by rewrite decide_False by tauto]. apply Hel in Ha.
  rewrite (decide_True (P := a ∈ addrs)) by done. unfold cached. rewrite merge_blocks_apply by set_solver.
  by rewrite lookup_empty, nonce_after_split.
Qed.

End chain.
