(* ===== verification/EthLedger.v ===== *)
(** * The nonces of coherent chains

    The abstract ledger executes the transactions of a chain one after the other from
    genesis; a transaction is accepted only with the next nonce of its sender.  Blocks
    that pass validation and the coherency check of the block policy, which reads the
    nonces of delayed state and adds what the blocks since then used, are exactly
    executed by the ledger. *)
From S2P Require Import Prelude Types.
From S2P Require Import SignatureCollection Certificates Tree ChainConfig Timestamp BaseFee.
From S2P Require Import EthTypes NonceUsage TxValidation SystemCalls EthBlockValidator EthBlockPolicy.
From S2P Require Import EthExample EthNonces EthChain.

Section ledger.
Context `{HC : Codec} `{!HashIter, !U256Ops, !I256Ops}.
Context `{!EthTransactions, !EthProtocol, !SystemSigning}.
Context {CC : Type} `{!ChainConfig CC} {State : Type} `{!ExecutionStateRead State}.

Implicit Types (p : EthBlockPolicy) (chain committed ext : list EthValidatedBlock).
Implicit Types (L M : gmap Address Nonce).

(** ** The specification *)

(** An account that has not been seen has nonce 0. *)
Definition nonce_of L (a : Address) : Nonce := default 0%N (L !! a).

Definition ledger_use L (t : ValidatedTx) : option (gmap Address Nonce) :=
  if decide (nonce_of L (vt_signer t) = vt_nonce t)
  then Some (<[vt_signer t := u64_incr (vt_nonce t)]> L) else None.

(** An authorization for this chain with the next nonce of its authority uses it up;
    the others have no effect. *)
Definition ledger_authorize (chain_id : N) L (auth : RecoveredAuthorization) : gmap Address Nonce :=
  match ra_authority auth with
  | Some a =>
      if other_chain auth chain_id then L
      else if decide (nonce_of L a = auth_nonce (ra_inner auth))
      then <[a := u64_incr (auth_nonce (ra_inner auth))]> L else L
  | None => L
  end.

Definition ledger_txn (chain_id : N) L (t : ValidatedTx) : option (gmap Address Nonce) :=
  L ← ledger_use L t;
  Some (if is_eip7702 (vt_envelope t)
        then foldl (ledger_authorize chain_id) L (authorizations_7702 t) else L).

Fixpoint ledger_all {A} (f : gmap Address Nonce → A → option (gmap Address Nonce)) L (l : list A) :
    option (gmap Address Nonce) :=
  match l with
  | [] => Some L
  | x :: l => L ← f L x; ledger_all f L l
  end.

Definition ledger_block (chain_id : N) L (b : EthValidatedBlock) : option (gmap Address Nonce) :=
  L ← ledger_all ledger_use L (system_txns b);
  ledger_all (ledger_txn chain_id) L (validated_txns b).

Definition ledger (chain_id : N) chain : option (gmap Address Nonce) :=
  ledger_all (ledger_block chain_id) ∅ chain.

(** ** The checks of a block run the ledger *)

(** The partial map the checks use agrees with the ledger. *)
Definition agrees M L : Prop := ∀ a n, M !! a = Some n → nonce_of L a = n.

Lemma nonce_of_insert L a n b :
  nonce_of (<[a := n]> L) b = if decide (a = b) then n else nonce_of L b.
Proof.
  unfold nonce_of. case_decide as Hab; [subst; by rewrite lookup_insert_eq|by rewrite lookup_insert_ne].
Qed.

Lemma agrees_insert M L a n : agrees M L → agrees (<[a := n]> M) (<[a := n]> L).
Proof.
  intros Hag b k. rewrite nonce_of_insert. case_decide as Hab.
  - subst. rewrite lookup_insert_eq. congruence.
  - rewrite lookup_insert_ne by done. apply Hag.
Qed.

Lemma check_nonce_ledger t M M' L :
  check_nonce (vt_signer t) (vt_nonce t) M = Ret (Ok M') → agrees M L →
  ∃ L', ledger_use L t = Some L' ∧ agrees M' L'.
Proof.
  rewrite check_nonce_Ok. intros [HM ->] Hag. unfold ledger_use.
  rewrite decide_True by by apply Hag. eexists. split; [done|]. by apply agrees_insert.
Qed.

Lemma system_check_ledger sys M M' L :
  system_transaction_nonce_check sys M = Ret (Ok M') → agrees M L →
  ∃ L', ledger_all ledger_use L sys = Some L' ∧ agrees M' L'.
Proof.
  revert M L. induction sys as [|t sys IH]; intros M L; cbn; [intros [= <-]; by exists L|].
  rewrite run_try_Ok. intros (M1 & Hc & Hs) Hag.
  destruct (check_nonce_ledger t M M1 L) as (L1 & -> & Hag1); [done..|]. by apply (IH M1).
Qed.

Lemma authorizations_ledger chain_id auths M M' L :
  eip_7702_valid_nonce_update auths M chain_id = Ret M' → agrees M L →
  agrees M' (foldl (ledger_authorize chain_id) L auths).
Proof.
  revert M L. induction auths as [|auth auths IH]; intros M L; cbn; [by intros [= <-]|].
  unfold ledger_authorize at 2. destruct (ra_authority auth) as [a|]; [|apply IH].
  destruct (other_chain auth chain_id); [apply IH|].
  destruct (M !! a) as [e|] eqn:Ha; [|done]. cbn [expect mbind run_bind]. intros Hrun Hag.
  rewrite (Hag a e) by done. destruct (decide (e ≠ _)) as [Hne|Heq].
  - rewrite decide_False by done. by apply (IH M).
  - apply dec_stable in Heq. subst e. rewrite decide_True by done.
    eapply IH; [done|]. by apply agrees_insert.
Qed.

Lemma txn_loop_ledger v chain_id txns M bal M' bal' L :
  coherency_txn_loop v chain_id txns M bal = Ret (Ok (M', bal')) → agrees M L →
  ∃ L', ledger_all (ledger_txn chain_id) L txns = Some L' ∧ agrees M' L'.
Proof.
  revert M bal L. induction txns as [|t txns IH]; intros M bal L; cbn [coherency_txn_loop ledger_all].
  { intros [= <- <-]. by exists L. }
  rewrite run_try_Ok. intros (M1 & Hc & Hrest) Hag.
  apply run_try_Ok in Hrest as (bal1 & _ & Hrest).
  destruct (check_nonce_ledger t M M1 L) as (L1 & HL1 & Hag1); [done..|].
  assert (ledger_txn chain_id L t = Some (if is_eip7702 (vt_envelope t)
    then foldl (ledger_authorize chain_id) L1 (authorizations_7702 t) else L1)) as ->
    by by unfold ledger_txn; rewrite HL1.
  cbn [mbind option_bind]. destruct (is_eip7702 (vt_envelope t)).
  - destruct (eip_7702_valid_nonce_update _ _ _) as [M2|] eqn:Ha; [|done]. cbn [mbind run_bind] in Hrest.
    eapply (IH M2); [done|]. by eapply authorizations_ledger.
  - cbn [mbind run_bind] in Hrest. by eapply (IH M1).
Qed.

(** ** More nonces do not change the checks *)

Lemma check_nonce_mono a k M M' N :
  check_nonce a k M = Ret (Ok M') → M ⊆ N →
  ∃ N', check_nonce a k N = Ret (Ok N') ∧ M' ⊆ N'.
Proof.
  rewrite check_nonce_Ok. intros [Ha ->] Hsub. eexists. rewrite check_nonce_Ok.
  split; [split; [by eapply lookup_weaken|done]|]. by apply insert_mono.
Qed.

Lemma system_check_mono sys M M' N :
  system_transaction_nonce_check sys M = Ret (Ok M') → M ⊆ N →
  ∃ N', system_transaction_nonce_check sys N = Ret (Ok N') ∧ M' ⊆ N'.
Proof.
  revert M N. induction sys as [|t sys IH]; intros M N; cbn; [intros [= <-]; by exists N|].
  rewrite run_try_Ok. intros (M1 & Hc & Hs) Hsub.
  destruct (check_nonce_mono _ _ _ _ _ Hc Hsub) as (N1 & -> & Hsub1). by apply (IH M1).
Qed.

Lemma authorizations_mono chain_id auths M M' N :
  eip_7702_valid_nonce_update auths M chain_id = Ret M' → M ⊆ N →
  ∃ N', eip_7702_valid_nonce_update auths N chain_id = Ret N' ∧ M' ⊆ N'.
Proof.
  revert M N. induction auths as [|auth auths IH]; intros M N; cbn; [intros [= <-]; by exists N|].
  destruct (ra_authority auth) as [a|]; [|apply IH]. destruct (other_chain auth chain_id); [apply IH|].
  destruct (M !! a) as [e|] eqn:Ha; [|done]. cbn [expect mbind run_bind]. intros Hrun Hsub.
  rewrite (lookup_weaken _ _ _ _ Ha Hsub). cbn [expect mbind run_bind].
  destruct (decide (e ≠ _)); (eapply IH; [done|]); [done|]. by apply insert_mono.
Qed.

Lemma txn_loop_mono v chain_id txns M bal M' bal' N :
  coherency_txn_loop v chain_id txns M bal = Ret (Ok (M', bal')) → M ⊆ N →
  ∃ N', coherency_txn_loop v chain_id txns N bal = Ret (Ok (N', bal')) ∧ M' ⊆ N'.
Proof.
  revert M bal N. induction txns as [|t txns IH]; intros M bal N; cbn [coherency_txn_loop].
  { intros [= <- <-]. by exists N. }
  rewrite run_try_Ok. intros (M1 & Hc & Hrest) Hsub.
  apply run_try_Ok in Hrest as (bal1 & Hb & Hrest).
  destruct (check_nonce_mono _ _ _ _ _ Hc Hsub) as (N1 & HN1 & Hsub1).
  unfold nonce_check_and_update. rewrite HN1. cbn [run_try]. rewrite Hb. cbn [run_try].
  destruct (is_eip7702 (vt_envelope t)).
  - destruct (eip_7702_valid_nonce_update _ M1 _) as [M2|] eqn:Ha; [|done]. cbn [mbind run_bind] in Hrest.
    destruct (authorizations_mono _ _ _ _ _ Ha Hsub1) as (N2 & -> & Hsub2). cbn [mbind run_bind].
    by apply (IH M2).
  - cbn [mbind run_bind] in *. by apply (IH M1).
Qed.

(** ** Blocks *)

Definition validated (cc : CC) (b : EthValidatedBlock) : Prop :=
  ∃ header body author, eth_validate header body author cc = Ret (Ok b).

Lemma validated_body cc b :
  validated cc b → ∃ header body,
    validate_block_body header body cc = Ret (Ok (system_txns b, validated_txns b, nonce_usages b, txn_fees b)) ∧
    ConsensusFullBlock_new header body = Ok (evb_block b).
Proof.
  intros (header & body & author & Hv). exists header, body. unfold eth_validate in Hv.
  destruct (validate_block_header _ _ _ _ _); [|done].
  apply run_try_Ok in Hv as ([[[sys txns] u] fees] & Hbody & Hrest).
  destruct (ConsensusFullBlock_new header body) as [blk|]; [|done]. cbn in Hrest.
  injection Hrest as <-. done.
Qed.

(** A checked block is executed, and moves every nonce as its usages say. *)
Lemma block_ledger cc v b M M1 bal M2 bal2 L :
  validated cc b →
  system_transaction_nonce_check (system_txns b) M = Ret (Ok M1) →
  coherency_txn_loop v (cfg_chain_id cc) (validated_txns b) M1 bal = Ret (Ok (M2, bal2)) →
  agrees M L →
  ∃ L', ledger_block (cfg_chain_id cc) L b = Some L' ∧
    ∀ a, nonce_of L' a = apply_usage (nonce_usages b !! a) (nonce_of L a).
Proof.
  intros (header & body & Hbody & _)%validated_body Hsys Htxns Hag.
  destruct (system_check_ledger _ _ _ L Hsys Hag) as (L1 & HL1 & Hag1).
  destruct (txn_loop_ledger _ _ _ _ _ _ _ L1 Htxns Hag1) as (L2 & HL2 & Hag2).
  exists L2. unfold ledger_block. rewrite HL1. split; [done|]. intros a.
  set (N := <[a := nonce_of L a]> M).
  assert (Hsub : M ⊆ N).
  { apply map_subseteq_spec. intros c n Hc. unfold N. destruct (decide (a = c)) as [->|Hne].
    - rewrite lookup_insert_eq. f_equal. by apply Hag.
    - by rewrite lookup_insert_ne. }
  assert (HagN : agrees N L).
  { intros c n. unfold N. destruct (decide (a = c)) as [->|Hne].
    - rewrite lookup_insert_eq. congruence.
    - rewrite lookup_insert_ne by done. apply Hag. }
  destruct (system_check_mono _ _ _ _ Hsys Hsub) as (N1 & HsysN & Hsub1).
  destruct (txn_loop_mono _ _ _ _ _ _ _ _ Htxns Hsub1) as (N2 & HtxnsN & _).
  destruct (system_check_ledger _ _ _ L HsysN HagN) as (L1' & HL1' & HagN1). simplify_eq.
  destruct (txn_loop_ledger _ _ _ _ _ _ _ L1 HtxnsN HagN1) as (L2' & HL2' & HagN2). simplify_eq.
  apply HagN2, (body_nonces_summarised _ _ _ _ _ _ _ _ _ _ _ _ _ Hbody HsysN HtxnsN).
  apply lookup_insert_eq.
Qed.

(** ** Chains *)

Lemma st_try_Ok {A B E F S} (conv : E → F) (m : run (result A E * S)) f (b : B) (s' : S) :
  st_try conv m f = Ret (Ok b, s') ↔ ∃ a s, m = Ret (Ok a, s) ∧ f a s = Ret (Ok b, s').
Proof. destruct m as [[[a|e] s]|]; cbn; naive_solver. Qed.

Lemma fmap_pair_Ok {A E S} (m : run (result A E)) a (s s' : S) :
  (., s) <$> m = Ret (Ok a, s') ↔ m = Ret (Ok a) ∧ s' = s.
Proof. destruct m as [r|]; cbn; naive_solver. Qed.

Fixpoint commit_blocks p (l : list EthValidatedBlock) : run EthBlockPolicy :=
  match l with
  | [] => Ret p
  | b :: l => p ← eth_update_committed_block p b; commit_blocks p l
  end.

Lemma commit_blocks_follow p committed l :
  follows p committed → numbered (committed ++ l) →
  ∃ p', commit_blocks p l = Ret p' ∧ follows p' (committed ++ l) ∧
    execution_delay p' = execution_delay p.
Proof.
  revert p committed. induction l as [|b l IH]; intros p committed Hf Hnum.
  { exists p. by rewrite app_nil_r. }
  assert (Hnum1 : numbered (committed ++ [b])).
  { destruct Hnum as [Hnum Hmax]. split.
    - intros i c Hc. apply Hnum. rewrite cons_middle, app_assoc. by apply lookup_app_l_Some.
    - rewrite !length_app in *. cbn in *. lia. }
  destruct (update_follows p committed b Hf Hnum1) as (p1 & Hp1 & Hf1 & Hd1).
  cbn [commit_blocks]. rewrite Hp1. cbn [mbind run_bind]. rewrite cons_middle, app_assoc in Hnum.
  destruct (IH p1 _ Hf1 Hnum) as (p2 & Hp2 & Hf2 & Hd2). exists p2.
  rewrite <- app_assoc in Hf2. split; [done|]. split; [done|congruence].
Qed.

Lemma numbered_prefix committed ext : numbered (committed ++ ext) → numbered committed.
Proof.
  intros [Hnum Hm]. split; [|rewrite length_app in Hm; lia].
  intros j c Hj. apply Hnum. by apply lookup_app_l_Some.
Qed.

Lemma commit_blocks_from_new delay committed p :
  (1 ≤ delay)%N → (4 * delay ≤ u64_MAX)%N → numbered committed →
  commit_blocks (EthBlockPolicy_new 0 delay) committed = Ret p →
  follows p committed ∧ execution_delay p = delay.
Proof.
  intros Hd1 Hd4 Hnum Hp.
  destruct (commit_blocks_follow (EthBlockPolicy_new 0 delay) [] committed) as (p' & Hp' & Hf & Hd);
    [by apply new_follows|done|]. rewrite Hp in Hp'. injection Hp' as ->. by split.
Qed.

(** Reads may change the reader (it caches). *)
Definition read_step (s s' : State) : Prop :=
  (∃ id n finalized addrs, s' = (get_account_statuses s id n finalized addrs).2) ∨
  (∃ id n finalized, s' = (get_execution_result s id n finalized).2).

(** Successful reads of the state after a block answer with the nonces of the ledger. *)
Definition reads_ledger (cc : CC) (state_read : State) chain : Prop :=
  ∀ s i L finalized addrs l s', rtc read_step state_read s → i ≤ length chain →
    ledger (cfg_chain_id cc) (take i chain) = Some L →
    get_account_statuses s (id_at chain i) (N.of_nat i) finalized addrs = (Ok l, s') →
    status_nonce <$> l = nonce_of L <$> addrs.

(** A chain grows by blocks that pass validation and the coherency check on a branch of
    the committed chain; how much of it is committed at that time does not matter. *)
Inductive coherent_chain (cc : CC) (delay : N) : list EthValidatedBlock → Prop :=
  | coherent_nil : coherent_chain cc delay []
  | coherent_snoc committed ext p b root state_read state_read' :
      coherent_chain cc delay (committed ++ ext) →
      commit_blocks (EthBlockPolicy_new 0 delay) committed = Ret p →
      root_seq_num root = N.of_nat (length committed) →
      reads_ledger cc state_read (committed ++ ext) →
      validated cc b →
      eth_check_coherency p b ext root state_read cc = Ret (Ok (), state_read') →
      coherent_chain cc delay ((committed ++ ext) ++ [b]).

Lemma check_transactions_nonces p b ext state_read cc state_read' :
  check_transactions p b ext state_read cc = Ret (Ok (), state_read') →
  ∃ m state_read1 m1 v bal m2 bal2,
    get_account_base_nonces p (evb_seq_num b) state_read ext
      (hashset_iter (extract_signers (validated_txns b) (system_txns b))) = Ret (Ok m, state_read1) ∧
    system_transaction_nonce_check (system_txns b) m = Ret (Ok m1) ∧
    coherency_txn_loop v (cfg_chain_id cc) (validated_txns b) m1 bal = Ret (Ok (m2, bal2)).
Proof.
  unfold check_transactions. rewrite st_try_Ok. intros (m & s1 & Hm & Hb).
  apply st_try_Ok in Hb as (bal & s2 & _ & Hv). apply st_try_Ok in Hv as (? & s3 & _ & Hs).
  apply st_try_Ok in Hs as (m1 & s4 & [Hm1 ->]%fmap_pair_Ok & Ht).
  apply st_try_Ok in Ht as ([m2 bal2] & s5 & [Hm2 ->]%fmap_pair_Ok & _). eauto 10.
Qed.

Lemma check_coherency_transactions p b ext root state_read cc state_read' :
  eth_check_coherency p b ext root state_read cc = Ret (Ok (), state_read') →
  evb_seq_num b = (match last ext with Some e => evb_seq_num e | None => root_seq_num root end + 1)%N ∧
  ∃ results state_read1,
    eth_get_expected_execution_results p (evb_seq_num b) ext state_read = Ret (Ok results, state_read1) ∧
    policy_compute_base_fee p ext cc = Ret (base_fee (evb_header b), base_fee_trend (evb_header b),
      base_fee_moment (evb_header b)) ∧
    check_transactions p b ext state_read1 cc = Ret (Ok (), state_read').
Proof.
  unfold eth_check_coherency. intros Hc.
  assert (Hrest : ∀ ts n, (next ← SeqNum_add n 1;
    if decide (evb_seq_num b ≠ next) then Ret (Err BlockNotCoherent, state_read)
    else if decide (blk_get_timestamp (evb_block b) ≤ ts)%N then Ret (Err TimestampError, state_read)
    else st_try PolicyStateReadError (eth_get_expected_execution_results p (evb_seq_num b) ext state_read)
      (λ expected s, if decide (blk_get_execution_results (evb_block b) ≠ expected)
         then Ret (Err ExecutionResultMismatch, s)
         else '(fee, trend, moment) ← policy_compute_base_fee p ext cc;
           if decide (fee ≠ base_fee (evb_header b) ∨ trend ≠ base_fee_trend (evb_header b) ∨
                      moment ≠ base_fee_moment (evb_header b))
           then Ret (Err BaseFeeError, s) else check_transactions p b ext s cc)) = Ret (Ok (), state_read') →
    evb_seq_num b = (n + 1)%N ∧
    ∃ results state_read1,
      eth_get_expected_execution_results p (evb_seq_num b) ext state_read = Ret (Ok results, state_read1) ∧
      policy_compute_base_fee p ext cc = Ret (base_fee (evb_header b), base_fee_trend (evb_header b),
        base_fee_moment (evb_header b)) ∧
      check_transactions p b ext state_read1 cc = Ret (Ok (), state_read')).
  { intros ts n Hrun. destruct (SeqNum_add n 1) as [next|] eqn:Hnext; [|done].
    apply SeqNum_add_inv in Hnext as [-> _]. cbn [mbind run_bind] in Hrun.
    destruct (decide (_ ≠ (n + 1)%N)) as [|Heq]; [done|]. apply dec_stable in Heq. split; [done|].
    destruct (decide (_ ≤ ts)%N); [done|]. apply st_try_Ok in Hrun as (results & s1 & Hres & Hrun).
    exists results, s1. split; [done|]. destruct (decide (_ ≠ results)); [done|].
    destruct (policy_compute_base_fee p ext cc) as [[[fee trend] moment]|]; [|done].
    cbn [mbind run_bind] in Hrun. destruct (decide (_ ∨ _)) as [|Hfee]; [done|].
    apply Decidable.not_or in Hfee as [->%dec_stable Hfee].
    apply Decidable.not_or in Hfee as [->%dec_stable ->%dec_stable]. done. }
  destruct (last ext) as [e|]; by eapply Hrest.
Qed.

Lemma expected_results_step p n ext s r s' :
  eth_get_expected_execution_results p n ext s = Ret (r, s') → rtc read_step s s'.
Proof.
  unfold eth_get_expected_execution_results. case_decide; [intros [= _ <-]; done|].
  destruct (SeqNum_sub _ _); [|done]. cbn [mbind run_bind].
  destruct (get_block_index _ _ _) as [[idx|]|]; [|by intros [= _ <-]|done]. cbn [mbind run_bind].
  destruct (get_execution_result _ _ _ _) as [r' s1] eqn:Hg. intros [= _ <-].
  apply rtc_once. right. eexists _, _, _. by rewrite Hg.
Qed.

Lemma nonce_after_snoc chain b a :
  nonce_after (chain ++ [b]) a = apply_usage (nonce_usages b !! a) (nonce_after chain a).
Proof. unfold nonce_after. by rewrite foldl_app. Qed.

Lemma ledger_all_app {A} (f : gmap Address Nonce → A → option (gmap Address Nonce)) L l k :
  ledger_all f L (l ++ k) = L ← ledger_all f L l; ledger_all f L k.
Proof.
  revert L. induction l as [|x l IH]; intros L; [done|]. cbn.
  destruct (f L x) as [L1|]; [|done]. apply IH.
Qed.

Lemma numbered_last committed ext :
  numbered (committed ++ ext) →
  match last ext with Some e => evb_seq_num e | None => N.of_nat (length committed) end =
    N.of_nat (length (committed ++ ext)).
Proof.
  intros [Hnum _]. destruct (last ext) as [e|] eqn:He.
  - apply last_Some in He as [l ->]. rewrite app_assoc in Hnum |- *.
    rewrite (Hnum (length (committed ++ l)) e) by by rewrite lookup_app_r, Nat.sub_diag.
    rewrite (length_app _ [e]). cbn. lia.
  - apply last_None in He as ->. by rewrite app_nil_r.
Qed.

Lemma numbered_snoc chain b :
  numbered chain → evb_seq_num b = N.of_nat (S (length chain)) →
  (N.of_nat (length chain) + 3 ≤ u64_MAX)%N → numbered (chain ++ [b]).
Proof.
  intros [Hnum _] Hb Hmax. split.
  - intros i c Hc. apply lookup_snoc_Some in Hc as [[_ Hc]|[-> <-]]; [by apply Hnum|done].
  - rewrite length_app. cbn. lia.
Qed.

Lemma numbered_nil : numbered [].
Proof. split; [done|]. unfold u64_MAX. cbn. lia. Qed.

Lemma coherent_chain_ledger cc delay chain :
  (1 ≤ delay)%N → (4 * delay ≤ u64_MAX)%N → (N.of_nat (length chain) + 2 ≤ u64_MAX)%N →
  coherent_chain cc delay chain →
  numbered chain ∧
  ∀ i, ∃ L, ledger (cfg_chain_id cc) (take i chain) = Some L ∧ ∀ a, nonce_of L a = nonce_after (take i chain) a.
Proof.
  intros Hd1 Hd4 Hmax Hc. revert Hmax.
  induction Hc as [|committed ext p b root s s' Hc IH Hp Hroot Hreads Hval Hcheck]; intros Hmax.
  { split; [apply numbered_nil|]. intros i. rewrite take_nil. exists ∅. split; [done|]. intros a.
    unfold nonce_of. by rewrite lookup_empty. }
  set (chain := committed ++ ext) in *. rewrite length_app in Hmax. cbn in Hmax.
  destruct IH as [Hnum Hled]; [lia|].
  destruct (check_coherency_transactions _ _ _ _ _ _ _ Hcheck) as (Hseq & results & s1 & Hres & _ & Htx).
  rewrite Hroot in Hseq. pose proof (numbered_last committed ext Hnum) as Hlast.
  rewrite Hlast in Hseq. fold chain in Hseq.
  assert (Hb : evb_seq_num b = N.of_nat (S (length chain))) by lia.
  assert (Hnum' : numbered (chain ++ [b])) by (apply numbered_snoc; [done..|lia]).
  split; [done|]. intros i. destruct (decide (i ≤ length chain)) as [Hi|Hi].
  { rewrite take_app_le by done. apply Hled. }
  rewrite take_ge by (rewrite length_app; cbn; lia).
  destruct (Hled (length chain)) as (L & HL & Hag). rewrite take_ge in HL, Hag by done.
  destruct (commit_blocks_from_new delay committed p) as [Hf _]; [done..|by eapply numbered_prefix|done|].
  assert (Hreads1 : reads_nonces s1 chain).
  { intros j fin addrs l s2 Hj Hget. destruct (Hled j) as (Lj & HLj & Hagj).
    rewrite (Hreads s1 j Lj fin addrs l s2) by (done || by eapply expected_results_step).
    apply list_fmap_ext. intros ? a _. apply Hagj. }
  destruct (check_transactions_nonces _ _ _ _ _ _ Htx) as (m & s2 & m1 & v & bal & m2 & bal2 & Hm & Hm1 & Hm2).
  destruct (get_account_base_nonces_correct p committed ext s1
    (hashset_iter (extract_signers (validated_txns b) (system_txns b))) Hf Hnum Hreads1) as (r & s3 & Hr & Hbase).
  fold chain in Hr. rewrite <- Hb, Hm in Hr. injection Hr as <- <-.
  destruct (block_ledger cc v b m m1 bal m2 bal2 L Hval Hm1 Hm2) as (L' & HL' & Hag').
  { intros a n. rewrite (Hbase m) by done. case_decide; [|done]. intros [= <-]. apply Hag. }
  exists L'. unfold ledger. rewrite ledger_all_app. unfold ledger in HL. rewrite HL. cbn.
  rewrite HL'. split; [done|]. intros a. by rewrite Hag', nonce_after_snoc, Hag.
Qed.

(** ** No replay *)

Definition txn_key (t : ValidatedTx) : Address * N := (vt_signer t, vt_nonce t).

(** The senders and nonces of the transactions of a block, in order. *)
Definition block_keys (b : EthValidatedBlock) : list (Address * N) :=
  (txn_key <$> system_txns b) ++ (txn_key <$> validated_txns b).

(** How many nonces the block may use up. *)
Definition txn_uses (t : ValidatedTx) : N := 1 + N.of_nat (length (authorizations_7702 t)).

Definition block_uses (b : EthValidatedBlock) : N :=
  N.of_nat (length (system_txns b)) + nsum (txn_uses <$> validated_txns b).

(** After at most [k] uses, the keys used are distinct and below the current nonces. *)
Definition used_up (k : N) (used : list (Address * N)) L : Prop :=
  (∀ a, (nonce_of L a ≤ k)%N) ∧ NoDup used ∧ ∀ a n, (a, n) ∈ used → (n < nonce_of L a)%N.

Lemma used_up_mono k k' used L : (k ≤ k')%N → used_up k used L → used_up k' used L.
Proof. intros Hk (Hle & Hnd & Hlt). split; [|done]. intros a. specialize (Hle a). lia. Qed.

Lemma used_up_advance k used L a :
  (k + 1 ≤ u64_MAX)%N → used_up k used L →
  used_up (k + 1) used (<[a := u64_incr (nonce_of L a)]> L) ∧
  used_up (k + 1) (used ++ [(a, nonce_of L a)]) (<[a := u64_incr (nonce_of L a)]> L).
Proof.
  intros Hk (Hle & Hnd & Hlt). pose proof (Hle a) as Ha.
  assert (Hincr : u64_incr (nonce_of L a) = (nonce_of L a + 1)%N) by (apply N.mod_small; lia).
  assert (Hle' : ∀ c, (nonce_of (<[a := u64_incr (nonce_of L a)]> L) c ≤ k + 1)%N).
  { intros c. rewrite nonce_of_insert, Hincr. specialize (Hle c). case_decide; lia. }
  assert (Hlt' : ∀ c n, (c, n) ∈ used → (n < nonce_of (<[a := u64_incr (nonce_of L a)]> L) c)%N).
  { intros c n Hc%Hlt. rewrite nonce_of_insert, Hincr. case_decide; subst; lia. }
  split; [done|]. split; [done|]. split.
  - apply NoDup_app. split; [done|]. split; [|apply NoDup_singleton].
    intros [c n] Hc [= -> ->]%list_elem_of_singleton. apply Hlt in Hc. lia.
  - intros c n [Hc|[= -> ->]%list_elem_of_singleton]%elem_of_app; [by apply Hlt'|].
    rewrite nonce_of_insert, decide_True, Hincr by done. lia.
Qed.

Lemma ledger_use_used k used L t L' :
  (k + 1 ≤ u64_MAX)%N → used_up k used L → ledger_use L t = Some L' →
  used_up (k + 1) (used ++ [txn_key t]) L'.
Proof.
  unfold ledger_use. intros Hk Hu. case_decide as Hn; [|done]. intros [= <-].
  unfold txn_key. rewrite <- Hn. by apply used_up_advance.
Qed.

Lemma ledger_authorize_used chain_id k used L auth :
  (k + 1 ≤ u64_MAX)%N → used_up k used L → used_up (k + 1) used (ledger_authorize chain_id L auth).
Proof.
  intros Hk Hu. unfold ledger_authorize.
  assert (Hmono : used_up (k + 1) used L) by (eapply used_up_mono; [|done]; lia).
  destruct (ra_authority auth) as [a|]; [|done]. destruct (other_chain _ _); [done|].
  case_decide as Hn; [|done]. rewrite <- Hn. by apply used_up_advance.
Qed.

Lemma ledger_txn_used chain_id k used L t L' :
  (k + txn_uses t ≤ u64_MAX)%N → used_up k used L → ledger_txn chain_id L t = Some L' →
  used_up (k + txn_uses t) (used ++ [txn_key t]) L'.
Proof.
  unfold ledger_txn, txn_uses. intros Hk Hu. destruct (ledger_use L t) as [L1|] eqn:HL1; [|done].
  cbn [mbind option_bind]. intros [= <-].
  assert (Hu1 : used_up (k + 1) (used ++ [txn_key t]) L1) by (eapply ledger_use_used; [lia|done..]).
  destruct (is_eip7702 _); [|eapply used_up_mono; [|done]; lia].
  rewrite N.add_assoc in Hk |- *. clear Hu HL1. revert Hk Hu1. generalize (k + 1)%N L1.
  induction (authorizations_7702 t) as [|auth auths IH]; intros j L0 Hj Hu; cbn [length foldl] in *.
  { by rewrite N.add_0_r. }
  replace (j + N.of_nat (S (length auths)))%N with (j + 1 + N.of_nat (length auths))%N by lia.
  apply IH; [lia|]. apply ledger_authorize_used; [lia|done].
Qed.

(** The invariant through a list of steps. *)
Lemma ledger_all_used {A} f (w : A → N) (keys : A → list (Address * N)) l k used L L' :
  (∀ k used L x L', (k + w x ≤ u64_MAX)%N → used_up k used L → f L x = Some L' →
     used_up (k + w x) (used ++ keys x) L') →
  (k + nsum (w <$> l) ≤ u64_MAX)%N → used_up k used L → ledger_all f L l = Some L' →
  used_up (k + nsum (w <$> l)) (used ++ (l ≫= keys)) L'.
Proof.
  intros Hstep. revert k used L. induction l as [|x l IH]; intros k used L Hk Hu; cbn [fmap list_fmap nsum foldr] in *.
  { intros [= <-]. cbn. by rewrite app_nil_r, N.add_0_r. }
  unfold nsum in *. cbn [foldr ledger_all mbind list_bind] in *.
  destruct (f L x) as [L1|] eqn:HL1; [|done]. cbn [mbind option_bind]. intros Hrest.
  rewrite N.add_assoc, app_assoc. apply (IH _ _ L1); [lia| |done]. eapply Hstep; [lia|done..].
Qed.

Lemma bind_singleton {A B} (g : A → B) l : (l ≫= λ x, [g x]) = g <$> l.
Proof. induction l as [|x l IH]; [done|]. cbn. by rewrite <- IH. Qed.

Lemma nsum_ones {A} (l : list A) : nsum ((λ _, 1%N) <$> l) = N.of_nat (length l).
Proof. induction l as [|x l IH]; [done|]. unfold nsum in *. cbn [fmap list_fmap foldr length]. lia. Qed.

Lemma ledger_block_used chain_id k used L b L' :
  (k + block_uses b ≤ u64_MAX)%N → used_up k used L → ledger_block chain_id L b = Some L' →
  used_up (k + block_uses b) (used ++ block_keys b) L'.
Proof.
  unfold ledger_block, block_uses, block_keys. intros Hk Hu.
  destruct (ledger_all ledger_use L (system_txns b)) as [L1|] eqn:HL1; [|done]. cbn [mbind option_bind].
  intros HL2. rewrite <- !bind_singleton, app_assoc, N.add_assoc, <- nsum_ones.
  apply (ledger_all_used (ledger_txn chain_id) txn_uses (λ t, [txn_key t]) _ _ _ L1); [|rewrite nsum_ones; lia| |done].
  - intros. by eapply ledger_txn_used.
  - apply (ledger_all_used ledger_use (λ _, 1%N) (λ t, [txn_key t]) _ _ _ L); [|rewrite nsum_ones; lia|done..].
    intros. by eapply ledger_use_used.
Qed.

Lemma ledger_no_replay chain_id chain L :
  (nsum (block_uses <$> chain) ≤ u64_MAX)%N → ledger chain_id chain = Some L →
  NoDup (chain ≫= block_keys).
Proof.
  intros Hk HL.
  destruct (ledger_all_used (ledger_block chain_id) block_uses block_keys chain 0 [] ∅ L) as (_ & Hnd & _);
    [|done| |done|done].
  - intros. by eapply ledger_block_used.
  - split; [|split; [apply NoDup_nil_2|by intros ?? ?%elem_of_nil]].
    intros a. unfold nonce_of. by rewrite lookup_empty.
Qed.

(** C3: coherent chains respect nonces.  Take any chain built by appending blocks that
    pass [eth_validate] and [eth_check_coherency], each checked by a policy that has
    committed some prefix of the chain at that time and reads accounts from delayed,
    truthful execution state.  Then the blocks are numbered consecutively, the abstract
    ledger executes every transaction of the chain from genesis, each with exactly the
    next nonce of its sender, the nonce usages recorded in the blocks add up to the nonces
    of the ledger for every account, and no (sender, nonce) pair occurs twice: no
    transaction is replayed. *)
Theorem coherent_chain_nonces (cc : CC) (delay : N) chain :
  (1 ≤ delay)%N → (4 * delay ≤ u64_MAX)%N → (N.of_nat (length chain) + 2 ≤ u64_MAX)%N →
  (nsum (block_uses <$> chain) ≤ u64_MAX)%N →
  coherent_chain cc delay chain →
  numbered chain ∧
  (∃ L, ledger (cfg_chain_id cc) chain = Some L ∧ ∀ a, nonce_of L a = nonce_after chain a) ∧
  NoDup (chain ≫= block_keys).
Proof.
  intros Hd1 Hd4 Hlen Huses Hc.
  destruct (coherent_chain_ledger cc delay chain) as [Hnum Hled]; [done..|].
  destruct (Hled (length chain)) as (L & HL & Hag). rewrite take_ge in HL, Hag by done.
  split; [done|]. split; [by exists L|]. by eapply ledger_no_replay.
Qed.

End ledger.

(** ** Two blocks of the devnet *)

#[local] Existing Instance example_transactions.
#[local] Existing Instance example_signing.
#[local] Existing Instance EthExampleProtocol.
#[local] Existing Instance EthExampleCodec.
#[local] Existing Instance example_eth_protocol.
#[local] Existing Instance example_state.
#[local] Existing Instance I256_checked.
#[local] Existing Instance KinetChainConfig_ChainConfig.
#[local] Existing Instance list_HashIter.

Lemma example_reads chain : reads_ledger KINET_DEVNET_CHAIN_CONFIG () chain.
Proof.
  intros s i L fin addrs l s' _ _ HL. cbn. case_decide as Hi; [|done]. intros [= <- <-].
  replace i with 0 in HL by lia. cbn in HL. injection HL as <-.
  rewrite <- list_fmap_compose. apply list_fmap_ext. intros ? a _. cbn. unfold nonce_of.
  by rewrite lookup_empty.
Qed.

Lemma extend_Some ext sys_nonce chain :
  extend ext sys_nonce = Some chain → ∃ b s', chain = ext ++ [b] ∧
    validated KINET_DEVNET_CHAIN_CONFIG b ∧
    eth_check_coherency example_policy_start b ext example_root () KINET_DEVNET_CHAIN_CONFIG = Ret (Ok (), s').
Proof.
  unfold extend. destruct (example_block ext sys_nonce) as [[b|]|] eqn:Hb; [|done..].
  destruct (eth_check_coherency _ _ _ _ _ _) as [[[[]|] s']|] eqn:Hc; [|done..]. intros [= <-].
  exists b, s'. split; [done|]. split; [|done].
  unfold example_block in Hb. destruct (example_body _ _) as [body|]; [|done]. cbn [mbind run_bind] in Hb.
  destruct (policy_compute_base_fee _ _ _) as [[[fee trend] moment]|]; [|done].
  cbn [mbind run_bind] in Hb. by eexists _, _, _.
Qed.

Lemma extend_coherent ext sys_nonce chain :
  extend ext sys_nonce = Some chain → coherent_chain KINET_DEVNET_CHAIN_CONFIG 3 ext →
  coherent_chain KINET_DEVNET_CHAIN_CONFIG 3 chain.
Proof.
  intros (b & s' & -> & Hv & Hc)%extend_Some Hext.
  apply (coherent_snoc _ _ [] ext example_policy_start b example_root () s'); [done..| |done|done].
  apply example_reads.
Qed.

Lemma coherent_chain_nonces_witness :
  ∃ chain, example_chain = Some chain ∧ length chain = 2 ∧
    coherent_chain KINET_DEVNET_CHAIN_CONFIG 3 chain ∧
    numbered chain ∧ NoDup (chain ≫= block_keys).
Proof.
  assert (Hex : match example_chain with
    | Some chain => (length chain =? 2) && bool_decide (nsum (block_uses <$> chain) ≤ u64_MAX)%N
    | None => false end = true) by (vm_compute; reflexivity).
  destruct example_chain as [chain|] eqn:Hchain; [|done].
  apply andb_true_iff in Hex as [Hlen%Nat.eqb_eq Huses%bool_decide_eq_true].
  assert (Hcoh : coherent_chain KINET_DEVNET_CHAIN_CONFIG 3 chain).
  { unfold example_chain in Hchain. destruct (extend [] 0) as [c1|] eqn:H1; [|done].
    eapply extend_coherent; [exact Hchain|]. eapply extend_coherent; [exact H1|]. constructor. }
  exists chain. split; [done|]. split; [done|]. split; [done|].
  assert (Hmax : (N.of_nat (length chain) + 2 ≤ u64_MAX)%N) by (rewrite Hlen; vm_compute; discriminate).
  destruct (coherent_chain_nonces KINET_DEVNET_CHAIN_CONFIG 3 chain) as (Hnum & _ & Hnd).
  - vm_compute. discriminate.
  - vm_compute. discriminate.
  - exact Hmax.
  - exact Huses.
  - exact Hcoh.
  - split; [exact Hnum|exact Hnd].
Defined.
