(* ===== verification/EthSolvency.v ===== *)
(** * Accepted transactions can pay for their gas

    The block policy accepts transactions against balances that are
    [execution_delay] blocks old.  The reserve-balance bookkeeping makes sure that the gas
    of all transactions an account has in the blocks since then, including the
    one being checked, is covered by that old balance. *)
From S2P Require Import Prelude Types.
From S2P Require Import SignatureCollection Certificates Tree ChainConfig Timestamp BaseFee.
From S2P Require Import EthTypes NonceUsage TxValidation SystemCalls EthBlockValidator EthBlockPolicy.
From S2P Require Import EthExample EthNonces EthChain EthLedger.

Section solvency.
Context `{HC : Codec} `{!HashIter, !U256Ops, !I256Ops}.
Context `{!EthTransactions, !EthProtocol, !SystemSigning}.
Context {CC : Type} `{!ChainConfig CC} {State : Type} `{!ExecutionStateRead State}.

Implicit Types (p : EthBlockPolicy) (chain committed ext : list EthValidatedBlock).
Implicit Types (a : Address) (fees : TxnFees).

(** ** The fees of a block add up its gas *)

(** The most the transactions of an account can pay for gas. *)
Definition gas_in (fee : N) a (txns : list ValidatedTx) : N :=
  nsum ((λ t, gas_cost_of (vt_envelope t) fee) <$> filter (λ t, vt_signer t = a) txns).

Definition fee_gas (f : option TxnFee) : N :=
  match f with Some f => first_txn_gas f + max_gas_cost f | None => 0 end.

Lemma gas_in_app fee a l k : gas_in fee a (l ++ k) = (gas_in fee a l + gas_in fee a k)%N.
Proof. unfold gas_in. by rewrite filter_app, fmap_app, nsum_app. Qed.

Lemma gas_in_le fee a l : (gas_in fee a l ≤ nsum ((λ t, gas_cost_of (vt_envelope t) fee) <$> l))%N.
Proof.
  induction l as [|t l IH]; [done|]. unfold gas_in in *. rewrite filter_cons, fmap_cons, nsum_cons.
  case_decide; rewrite ?fmap_cons, ?nsum_cons; lia.
Qed.

Lemma delegate_fee_gas f : fee_gas (Some (delegate_fee f)) = fee_gas f.
Proof. by destruct f. Qed.

Lemma authorization_loop_gas chain_id auths u0 fees0 u fees a :
  authorization_loop chain_id auths u0 fees0 = Ok (u, fees) →
  fee_gas (fees !! a) = fee_gas (fees0 !! a).
Proof.
  assert (Hins : ∀ c (m : TxnFees), fee_gas (<[c := delegate_fee (m !! c)]> m !! a) = fee_gas (m !! a)).
  { intros c m. destruct (decide (c = a)) as [->|Hne].
    - rewrite lookup_insert_eq. apply delegate_fee_gas.
    - by rewrite lookup_insert_ne. }
  revert u0 fees0. induction auths as [|auth auths IH]; intros u0 fees0; cbn [authorization_loop].
  { by intros [= _ ->]. }
  destruct (ra_authority auth) as [c|]; [|apply IH]. case_decide; [done|]. cbn zeta.
  rewrite <- (Hins c fees0). destruct (other_chain auth chain_id); [apply IH|].
  destruct (u0 !! c) as [[known|possible]|]; [|apply IH..].
  destruct (u64_checked_add known 1); [apply IH|done].
Qed.

Lemma charge_fee_gas f value gas :
  (fee_gas f + gas ≤ u256_MAX)%N → fee_gas (Some (charge_fee f value gas)) = (fee_gas f + gas)%N.
Proof. destruct f as [f|]; cbn; unfold u256_saturating_add; lia. Qed.

Lemma validate_txn_gas fee chain_id t u0 fees0 u fees a :
  validate_txn fee chain_id t u0 fees0 = Ret (Ok (u, fees)) →
  (fee_gas (fees0 !! a) + gas_cost_of (vt_envelope t) fee ≤ u256_MAX)%N →
  fee_gas (fees !! a) = (fee_gas (fees0 !! a) + gas_in fee a [t])%N.
Proof.
  unfold validate_txn. case_decide; [done|]. destruct (add_known _ _ _) as [old u1]. cbn zeta.
  rewrite run_try_Ok. intros ([] & _ & Hrest) Hmax.
  apply run_try_Ok in Hrest as ([u2 fees2] & [= Ha] & Hrest).
  rewrite compute_txn_max_gas_cost_Ret in Hrest. cbn in Hrest. injection Hrest as <- <-.
  assert (Hsame : ∀ c, fee_gas (fees2 !! c) = fee_gas (fees0 !! c)).
  { intros c. destruct (is_eip7702 _); [by eapply authorization_loop_gas|by injection Ha as _ ->]. }
  unfold gas_in. rewrite filter_cons, filter_nil.
  destruct (decide (vt_signer t = a)) as [<-|Hne].
  - rewrite lookup_insert_eq, charge_fee_gas by by rewrite Hsame. rewrite Hsame. unfold nsum. cbn. lia.
  - rewrite lookup_insert_ne, Hsame by done. unfold nsum. cbn. lia.
Qed.

Lemma txn_loop_gas fee chain_id txns u0 fees0 u fees a :
  txn_loop fee chain_id txns u0 fees0 = Ret (Ok (u, fees)) →
  (fee_gas (fees0 !! a) + nsum ((λ t, gas_cost_of (vt_envelope t) fee) <$> txns) ≤ u256_MAX)%N →
  fee_gas (fees !! a) = (fee_gas (fees0 !! a) + gas_in fee a txns)%N.
Proof.
  revert u0 fees0. induction txns as [|t txns IH]; intros u0 fees0; cbn [txn_loop].
  { intros [= _ <-] _. unfold gas_in, nsum. cbn. lia. }
  rewrite run_try_Ok. intros ([u1 fees1] & Ht & Hrest) Hmax.
  rewrite fmap_cons, nsum_cons in Hmax.
  pose proof (validate_txn_gas _ _ _ _ _ _ _ a Ht) as Hg.
  assert (Hle : (gas_in fee a [t] ≤ gas_cost_of (vt_envelope t) fee)%N).
  { unfold gas_in. rewrite filter_cons, filter_nil. case_decide; unfold nsum; cbn; lia. }
  change (t :: txns) with ([t] ++ txns). rewrite gas_in_app.
  rewrite (IH u1 fees1 Hrest), Hg by lia. lia.
Qed.

Lemma checked_sum_Some acc l total :
  checked_sum acc l = Some total → total = (acc + nsum l)%N ∧ (l ≠ [] → (total ≤ u64_MAX)%N).
Proof.
  revert acc. induction l as [|x l IH]; intros acc; cbn [checked_sum].
  { intros [= <-]. split; [unfold nsum; cbn; lia|done]. }
  unfold u64_checked_add. case_decide as Hx; [|done]. cbn [mbind option_bind]. intros Hl.
  destruct (IH _ Hl) as [-> Hmax]. rewrite nsum_cons. split; [lia|]. intros _.
  destruct l as [|y l]; [unfold nsum; cbn; lia|]. specialize (Hmax ltac:(done)). lia.
Qed.

Lemma recover_all_Ok txs rec : recover_all txs = Ok rec → rec_tx <$> rec = txs.
Proof.
  revert rec. induction txs as [|tx txs IH]; intros rec; cbn [recover_all]; [by intros [= <-]|].
  destruct (secp256k1_recover tx); [|done]. cbn [res_try].
  destruct (recover_all txs) as [rest|]; [|done]. cbn [res_try]. intros [= <-]. cbn. by rewrite (IH rest).
Qed.

Lemma take_system_suffix (cc : CC) rec sys users :
  take_system rec cc = Ok (sys, users) → ∃ pre, rec = pre ++ users.
Proof.
  revert sys users. induction rec as [|t rec IH]; intros sys users; cbn [take_system].
  { intros [= <- <-]. by exists []. }
  destruct (negb _); [intros [= <- <-]; by exists []|].
  destruct (static_validate_system_transaction t cc); [|done].
  destruct (take_system rec cc) as [[sys' users']|]; [|done]. cbn [res_try]. intros [= <- <-].
  destruct (IH _ _ eq_refl) as [pre ->]. by exists (t :: pre).
Qed.

Lemma extract_suffix ts rec (cc : CC) sys users :
  extract_system_transactions ts rec cc = Ok (sys, users) → ∃ pre, rec = pre ++ users.
Proof.
  unfold extract_system_transactions. destruct (negb _); [intros [= <- <-]; by exists []|].
  destruct (take_system rec cc) as [[sys' users']|] eqn:Ht; [|done]. cbn [res_try].
  destruct (existsb _ _); [done|]. intros [= <- <-]. by eapply take_system_suffix.
Qed.

(** The gas limits of the user transactions of a block fit the block. *)
Lemma validated_gas_limit cc b :
  validated cc b →
  (nsum ((λ t, tx_gas_limit (vt_envelope t)) <$> validated_txns b) ≤
     u64_MAX `min` proposal_gas_limit (cfg_params cc (evb_round b)))%N.
Proof.
  intros (h & body & Hbody & Hfull)%validated_body.
  apply validate_block_body_Ok in Hbody as (gas & rec & eth & u0 & Hgas & Hlim & Hrec & Hext & _ & -> & _).
  assert (Hround : evb_round b = block_round h).
  { unfold ConsensusFullBlock_new in Hfull. case_decide; [done|]. injection Hfull as Hfull.
    unfold evb_round. by rewrite <- Hfull. }
  apply checked_sum_Some in Hgas as [Hgas Hmax]. apply recover_all_Ok in Hrec.
  apply extract_suffix in Hext as [pre ->]. rewrite fmap_app in Hrec.
  assert (Hsum : (nsum ((λ t, tx_gas_limit (vt_envelope t)) <$> (to_validated <$> eth)) ≤ gas)%N).
  { assert ((λ t, tx_gas_limit (vt_envelope t)) <$> (to_validated <$> eth) = tx_gas_limit <$> (rec_tx <$> eth)) as ->
      by by rewrite <- !list_fmap_compose.
    rewrite Hgas, <- Hrec, fmap_app, nsum_app. lia. }
  rewrite Hround. apply N.min_glb; [|lia]. destruct (transactions (eth_body body)) as [|x l] eqn:Hl.
  - apply app_eq_nil in Hrec as [_ Heth%fmap_nil_inv]. rewrite Heth. cbn. unfold nsum. cbn. lia.
  - specialize (Hmax ltac:(done)). lia.
Qed.

Lemma nsum_gas_cost fee txns :
  (nsum ((λ t, gas_cost_of (vt_envelope t) fee) <$> txns) ≤
     nsum ((λ t, tx_gas_limit (vt_envelope t)) <$> txns) * u128_MAX)%N.
Proof.
  induction txns as [|t txns IH]; [done|]. rewrite !fmap_cons, !nsum_cons, N.mul_add_distr_r.
  apply N.add_le_mono; [|done]. unfold gas_cost_of. apply N.mul_le_mono_l.
  etrans; [|apply (tx_max_fee_u128 (vt_envelope t))]. unfold gas_bid_of. case_match; lia.
Qed.

Definition block_gas (b : EthValidatedBlock) a : N := gas_in (base_fee (evb_header b)) a (validated_txns b).

Lemma validated_fees cc b a :
  validated cc b → fee_gas (txn_fees b !! a) = block_gas b a ∧ (block_gas b a ≤ u256_MAX)%N.
Proof.
  intros Hv. pose proof (validated_gas_limit cc b Hv) as Hlim.
  destruct (validated_body cc b Hv) as (h & body & Hbody & Hfull).
  assert (Hh : evb_header b = h).
  { unfold ConsensusFullBlock_new in Hfull. case_decide; [done|]. injection Hfull as Hfull.
    unfold evb_header. by rewrite <- Hfull. }
  apply validate_block_body_Ok in Hbody as (gas & rec & eth & u0 & _ & _ & _ & _ & _ & _ & Hloop).
  unfold block_gas. rewrite Hh.
  assert (Hsum : (nsum ((λ t, gas_cost_of (vt_envelope t) (base_fee h)) <$> validated_txns b) ≤ u256_MAX)%N).
  { etrans; [apply nsum_gas_cost|].
    assert (Hmax : (u64_MAX * u128_MAX ≤ u256_MAX)%N) by (vm_compute; discriminate).
    etrans; [|exact Hmax]. apply N.mul_le_mono_r. lia. }
  split; [|etrans; [apply gas_in_le|done]].
  apply (txn_loop_gas _ _ _ _ _ _ _ a) in Hloop; rewrite lookup_empty in *; cbn [fee_gas] in *; lia.
Qed.

(** ** The reserve balance covers the gas charged *)

(** Out of a balance [B] read after block [base], [G] has been promised for gas. *)
Definition covers (B base G : N) (s : AccountBalanceState) : Prop :=
  (remaining_reserve_balance s + G ≤ B)%N ∧ (balance s ≤ B)%N ∧
  (G = 0%N ∨ (base < block_seqnum_of_latest_txn s)%N).

(** At most the first transaction since [base] can be treated as emptying. *)
Lemma not_emptying n s d base B G possibly :
  covers B base G s → (1 ≤ d)%N → (n ≤ base + d)%N →
  is_possibly_emptying_transaction n s d = Ret possibly → possibly = true → G = 0%N.
Proof.
  intros (_ & _ & [->|Hlast]) Hd Hn; [done|]. unfold is_possibly_emptying_transaction.
  destruct (is_delegated s); [congruence|]. unfold SeqNum_sub, u64_checked_sub.
  rewrite decide_True by lia. cbn [expect mbind run_bind]. intros [= <-].
  rewrite bool_decide_eq_true. unfold u64_saturating_sub. lia.
Qed.

Lemma apply_block_fees_covers v s f s' B base G :
  covers B base G s → (1 ≤ bv_execution_delay v)%N →
  (base < bv_block_seq_num v)%N → (bv_block_seq_num v ≤ base + bv_execution_delay v)%N →
  (fee_gas (Some f) ≤ u256_MAX)%N →
  try_apply_block_fees v s f = Ret (Ok s') → covers B base (G + fee_gas (Some f)) s'.
Proof.
  intros Hc Hd Hlo Hhi Hmax. unfold try_apply_block_fees.
  destruct (is_possibly_emptying_transaction _ _ _) as [possibly|] eqn:Hp; [|done].
  cbn [mbind run_bind]. pose proof (not_emptying _ _ _ _ _ _ _ Hc Hd Hhi Hp) as Hemp.
  destruct Hc as (Hr & Hb & _). cbn [fee_gas] in *. intros [= Hrun].
  destruct (possibly && _) eqn:He.
  - apply andb_true_iff in He as [-> _]. rewrite Hemp in * by done.
    case_decide; [done|]. case_decide; [done|]. injection Hrun as <-.
    unfold covers, set_balances, u256_saturating_sub, u256_saturating_add in *. cbn. lia.
  - case_decide; [done|]. injection Hrun as <-.
    unfold covers, set_balances, u256_saturating_sub, u256_saturating_add in *. cbn. lia.
Qed.

Lemma covers_latest B base s n :
  covers B base 0 s →
  covers B base 0 (set_balances s (balance s) (remaining_reserve_balance s) n (is_delegated s)).
Proof. intros (Hr & Hb & _). split; [done|]. split; [done|by left]. Qed.

(** The blocks before the base only move the latest transaction. *)
Lemma emptying_loop_covers a l next s next' s' B base K :
  covers B base 0 s → emptying_loop a l next s = Ret (next', s') →
  Forall (λ q, (q.1 < K)%N) l → (next ≤ K)%N → covers B base 0 s' ∧ (next' ≤ K)%N.
Proof.
  revert next s. induction l as [|[n cb] l IH]; intros next s Hc; cbn [emptying_loop].
  { by intros [= <- <-]. }
  intros Hrun Hall Hle. apply Forall_cons in Hall as [Hn Hall]. cbn in Hn.
  apply run_bind_Ret in Hrun as ([] & <-%assert_Ret & Hrun).
  destruct (SeqNum_add n 1) as [next|] eqn:Hnext; [|done]. apply SeqNum_add_inv in Hnext as [-> _].
  cbn [mbind run_bind] in Hrun. eapply IH; [|done..|lia].
  case_decide; [by apply covers_latest|done].
Qed.

Lemma reserve_loop_covers a d (cc : CC) l next s next' s' B base G K :
  covers B base G s → (1 ≤ d)%N → reserve_loop a d cc l next s = Ret (Ok (next', s')) →
  Forall (λ q, (fee_gas (cb_fees q.2 !! a) ≤ u256_MAX)%N ∧
     (base < cb_seq_num q.2 ≤ base + d)%N ∧ (q.1 < K)%N) l → (next ≤ K)%N →
  covers B base (G + nsum ((λ q, fee_gas (cb_fees q.2 !! a)) <$> l)) s' ∧ (next' ≤ K)%N.
Proof.
  intros Hc Hd. revert G next s Hc. induction l as [|[n cb] l IH]; intros G next s Hc; cbn [reserve_loop].
  { intros [= <- <-] _ ?. cbn. by rewrite N.add_0_r. }
  intros Hrun Hall Hle. apply Forall_cons in Hall as [(Hmax & [Hlo Hhi] & Hn) Hall]. cbn [fst snd] in *.
  apply run_bind_Ret in Hrun as ([] & <-%assert_Ret & Hrun).
  apply run_try_Ok in Hrun as (s1 & Hs1 & Hrun).
  destruct (SeqNum_add n 1) as [next|] eqn:Hnext; [|done]. apply SeqNum_add_inv in Hnext as [-> _].
  cbn [mbind run_bind] in Hrun. rewrite fmap_cons, nsum_cons, N.add_assoc. cbn [snd].
  eapply IH; [|done..|lia]. destruct (cb_fees cb !! a) as [f|].
  - eapply (apply_block_fees_covers _ _ _ _ _ _ _ Hc); [..|exact Hs1]; cbn; (done || lia).
  - injection Hs1 as <-. cbn. by rewrite N.add_0_r.
Qed.

Lemma reserve_loop_next a d (cc : CC) l next s next' s' :
  reserve_loop a d cc l next s = Ret (Ok (next', s')) →
  (next ≤ next')%N ∧ Forall (λ q, (q.1 < next')%N) l.
Proof.
  revert next s. induction l as [|[n cb] l IH]; intros next s; cbn [reserve_loop].
  { intros [= <- <-]. split; [lia|by constructor]. }
  intros ([] & <-%assert_Ret & Hrun)%run_bind_Ret. apply run_try_Ok in Hrun as (s1 & _ & Hrun).
  apply run_bind_Ret in Hrun as (next & [-> _]%SeqNum_add_inv & Hrun).
  destruct (IH _ _ Hrun) as [Hle Hall]. split; [lia|]. constructor; [cbn; lia|done].
Qed.

Lemma extending_loop_covers p (cc : CC) a start l next s s' B base G :
  covers B base G s → (1 ≤ execution_delay p)%N → (start = base + 1)%N → ((next < start)%N → G = 0%N) →
  extending_loop p cc a start l next s = Ret (Ok s') →
  Forall (λ b, (fee_gas (txn_fees b !! a) ≤ u256_MAX)%N ∧ (evb_seq_num b ≤ base + execution_delay p)%N) l →
  covers B base
    (G + nsum ((λ b, fee_gas (txn_fees b !! a)) <$> filter (λ b, (start ≤ evb_seq_num b)%N) l)) s'.
Proof.
  intros Hc Hd Hstart. revert G next s Hc. induction l as [|b l IH]; intros G next s Hc HG; cbn [extending_loop].
  { intros [= <-] _. cbn. by rewrite N.add_0_r. }
  intros Hrun Hall. apply Forall_cons in Hall as [[Hmax Hhi] Hall].
  apply run_bind_Ret in Hrun as ([] & ->%assert_Ret & Hrun).
  apply run_try_Ok in Hrun as (s1 & Hs1 & Hrun).
  destruct (SeqNum_add _ 1) as [next|] eqn:Hnext; [|done]. apply SeqNum_add_inv in Hnext as [-> _].
  cbn [mbind run_bind] in Hrun. rewrite filter_cons.
  destruct (decide (start ≤ evb_seq_num b)%N) as [Hge|Hlt].
  - rewrite fmap_cons, nsum_cons, N.add_assoc.
    eapply (IH (G + fee_gas (txn_fees b !! a))%N (evb_seq_num b + 1)%N s1); [|intros ?; lia|done..].
    destruct (txn_fees b !! a) as [f|]; [|injection Hs1 as <-; cbn; by rewrite N.add_0_r].
    rewrite decide_False in Hs1 by lia. eapply (apply_block_fees_covers _ _ _ _ _ _ _ Hc); [..|exact Hs1]; cbn; (done || lia).
  - eapply (IH G (evb_seq_num b + 1)%N s1); [|intros ?; apply HG; lia|done..]. rewrite HG in * by lia.
    destruct (txn_fees b !! a) as [f|]; [|by injection Hs1 as <-].
    rewrite decide_True in Hs1 by lia. injection Hs1 as <-. case_decide; [by apply covers_latest|done].
Qed.

(** ** Branches numbered from [n] *)

Definition seqs_from (n : N) (l : list EthValidatedBlock) : Prop :=
  ∀ j b, l !! j = Some b → evb_seq_num b = (n + N.of_nat j)%N.

Lemma seqs_from_cons n b l : seqs_from n (b :: l) → evb_seq_num b = n ∧ seqs_from (n + 1) l.
Proof.
  intros Hl. split; [rewrite (Hl 0 b eq_refl); lia|]. intros j c Hc. rewrite (Hl (S j) c Hc). lia.
Qed.

Lemma skip_while_drop n l k : seqs_from n l → skip_while k l = drop (N.to_nat (k - n)) l.
Proof.
  revert n. induction l as [|b l IH]; intros n Hl; [by rewrite drop_nil|]. cbn [skip_while].
  destruct (seqs_from_cons _ _ _ Hl) as [Hb Hl']. rewrite Hb. case_decide as Hk.
  - rewrite (IH (n + 1)%N) by done. replace (N.to_nat (k - n)) with (S (N.to_nat (k - (n + 1)))) by lia. done.
  - by replace (N.to_nat (k - n)) with 0 by lia.
Qed.

Lemma filter_from_drop n l k :
  seqs_from n l → filter (λ b, (k ≤ evb_seq_num b)%N) l = drop (N.to_nat (k - n)) l.
Proof.
  revert n. induction l as [|b l IH]; intros n Hl; [by rewrite drop_nil|]. rewrite filter_cons.
  destruct (seqs_from_cons _ _ _ Hl) as [Hb Hl']. rewrite Hb, (IH (n + 1)%N) by done. case_decide as Hk.
  - replace (N.to_nat (k - n)) with 0 by lia. by replace (N.to_nat (k - (n + 1))) with 0 by lia.
  - by replace (N.to_nat (k - n)) with (S (N.to_nat (k - (n + 1)))) by lia.
Qed.

Lemma seqs_from_drop n l j : seqs_from n l → seqs_from (n + N.of_nat j) (drop j l).
Proof. intros Hl i b. rewrite lookup_drop. intros Hb. rewrite (Hl _ _ Hb). lia. Qed.

Lemma numbered_ext committed ext :
  numbered (committed ++ ext) → seqs_from (N.of_nat (length committed) + 1) ext.
Proof.
  intros [Hnum _] j b Hb. rewrite (Hnum (length committed + j)); [lia|].
  rewrite lookup_app_r by lia. by replace (length committed + j - length committed) with j by lia.
Qed.

(** The committed blocks from [k] on, as the buffer holds them. *)
Lemma range_from_follows lo p committed k :
  follows_from lo p committed → (N.of_nat lo + 1 ≤ k)%N →
  range_from (committed_cache p) k =
    numbered_from k (committed_block <$> drop (N.to_nat (k - 1)) committed).
Proof.
  intros Hf Hk. unfold range_from. rewrite (follows_iter _ _ _ Hf), numbered_from_filter_ge by done.
  rewrite <- fmap_drop, drop_drop. do 3 f_equal. lia.
Qed.

(** The balance a read reports; an account that does not exist has none. *)
Definition status_balance (s : option EthAccount) : N :=
  match s with Some s => acc_balance s | None => 0 end.

(** What an account is charged for since the base. *)
Definition window_gas a chain : N := nsum ((λ b, block_gas b a) <$> chain).

Lemma window_gas_fees cc a l :
  Forall (validated cc) l → nsum ((λ b, fee_gas (txn_fees b !! a)) <$> l) = window_gas a l.
Proof.
  induction 1 as [|b l Hb _ IH]; [done|]. unfold window_gas in *. rewrite !fmap_cons, !nsum_cons, IH.
  by destruct (validated_fees cc b a Hb) as [-> _].
Qed.

Section base_balance.
Context (lo : nat) p (cc : CC) committed ext.
Hypothesis (Hf : follows_from lo p committed) (Hnum : numbered (committed ++ ext)).
Hypothesis (Hval : Forall (validated cc) (committed ++ ext)).

Definition base_seq : N := N.of_nat (base_index p (committed ++ ext)).

Lemma base_seq_window : (N.of_nat (length (committed ++ ext)) + 1 ≤ base_seq + execution_delay p)%N.
Proof. unfold base_seq, base_index, base_seq_num_of. lia. Qed.

Lemma update_account_balance_covers a emptying s next s' B :
  covers B base_seq 0 s → (emptying ≤ base_seq + 1)%N →
  update_account_balance (committed_cache p) s a (execution_delay p) emptying (base_seq + 1) cc =
    Ret (Ok (next, s')) →
  covers B base_seq (window_gas a (drop (base_index p (committed ++ ext)) committed)) s' ∧
  (next ≤ (base_seq + 1) `max` (N.of_nat (length committed) + 1))%N ∧
  ((next < base_seq + 1)%N → drop (base_index p (committed ++ ext)) committed = []).
Proof.
  intros Hc Hle. unfold update_account_balance, range. rewrite assert_true by done. cbn [mbind run_bind].
  intros ([next1 s1] & Hemp & Hres)%run_bind_Ret.
  apply (emptying_loop_covers _ _ _ _ _ _ B base_seq (base_seq + 1)) in Hemp as [Hc1 Hn1]; [|done| |done].
  2: { apply Forall_forall. intros q Hq. by apply list_elem_of_filter in Hq as [? _]. }
  pose proof (base_index_bounds lo p committed ext Hf) as [[Hlo _] _].
  rewrite (range_from_follows lo p committed) in Hres by (done || (unfold base_seq; lia)).
  replace (N.to_nat (base_seq + 1 - 1)) with (base_index p (committed ++ ext)) in Hres by (unfold base_seq; lia).
  set (i := base_index p (committed ++ ext)) in *.
  apply Forall_app in Hval as [Hval1 _]. destruct (reserve_loop_next _ _ _ _ _ _ _ _ Hres) as [_ Hlast].
  eapply (reserve_loop_covers _ _ _ _ _ _ _ _ B base_seq 0
    ((base_seq + 1) `max` (N.of_nat (length committed) + 1))%N) in Hres as [Hc2 Hn2];
    [|done|apply (fo_delay _ _ _ Hf)| |lia].
  - split; [|split; [done|]]. 2: { intros Hlt. destruct (drop i committed) as [|b l]; [done|].
      cbn in Hlast. apply Forall_cons in Hlast as [Hb _]. cbn in Hb. lia. }
    rewrite N.add_0_l in Hc2.
    assert (Heq : ∀ n (l : list EthValidatedBlock),
      (λ q : N * CommittedBlock, fee_gas (cb_fees q.2 !! a)) <$> numbered_from n (committed_block <$> l) =
      (λ b, fee_gas (txn_fees b !! a)) <$> l).
    { intros n l. revert n. induction l as [|b l IH]; intros n; [done|]. cbn. by rewrite IH. }
    rewrite Heq, (window_gas_fees cc) in Hc2; [done|by apply Forall_drop].
  - pose proof base_seq_window as Hwin. apply Forall_lookup. intros j [n cb].
    rewrite numbered_from_lookup, list_lookup_fmap, lookup_drop.
    destruct (committed !! (i + j)) as [b|] eqn:Hb; [|done]. cbn. intros [= <- <-]. cbn.
    apply lookup_lt_Some in Hb as Hlt.
    assert (Hseq : evb_seq_num b = N.of_nat (S (i + j))) by (apply Hnum; by apply lookup_app_l_Some).
    rewrite length_app in Hwin. rewrite Hseq.
    destruct (validated_fees cc b a) as [-> ?]; [by eapply Forall_lookup_1|].
    unfold base_seq in *. split; [done|]. fold i. lia.
Qed.

Lemma account_base_balance_covers a s s' B :
  covers B base_seq 0 s →
  account_base_balance p cc (Some ext) base_seq a s = Ret (Ok s') →
  covers B base_seq (window_gas a (drop (base_index p (committed ++ ext)) (committed ++ ext))) s'.
Proof.
  intros Hc. pose proof (base_index_bounds lo p committed ext Hf) as [[Hlo Hi] _].
  pose proof (fo_delay _ _ _ Hf) as Hd. pose proof base_seq_window as Hwin.
  unfold account_base_balance. intros (start & [-> _]%SeqNum_add_inv & Hrun)%run_bind_Ret.
  apply run_bind_Ret in Hrun as (after & [-> _]%SeqNum_add_inv & Hrun).
  apply run_bind_Ret in Hrun as (emptying & Hemp & Hrun).
  assert (Hle : (emptying ≤ base_seq + 1)%N).
  { clear Hrun. case_decide; [apply SeqNum_add_inv in Hemp as [-> _]|injection Hemp as <-];
      unfold GENESIS_SEQ_NUM in *; lia. }
  apply run_try_Ok in Hrun as ([next s1] & Hup & Hrun).
  apply (update_account_balance_covers _ _ _ _ _ B) in Hup as (Hc1 & Hnext & Hnil);
    [|case_decide; [by apply covers_latest|done]|done].
  set (i := base_index p (committed ++ ext)) in *. apply Forall_app in Hval as [_ Hval2].
  assert (Hseqs := numbered_ext committed ext Hnum).
  apply (extending_loop_covers _ _ _ _ _ _ _ _ B base_seq (window_gas a (drop i committed))) in Hrun; [|done..| |].
  - rewrite (skip_while_drop _ _ _ Hseqs) in Hrun. set (k := N.to_nat (next - _)) in Hrun.
    rewrite (filter_from_drop _ _ _ (seqs_from_drop _ _ k Hseqs)), drop_drop in Hrun.
    rewrite (window_gas_fees cc) in Hrun by by apply Forall_drop.
    rewrite drop_app. unfold window_gas in *. rewrite fmap_app, nsum_app.
    replace (i - length committed) with (k + N.to_nat (base_seq + 1 - (N.of_nat (length committed) + 1 + N.of_nat k)));
      [done|]. unfold k, base_seq in *. fold i in Hnext |- *. lia.
  - intros Hlt. by rewrite Hnil.
  - rewrite (skip_while_drop _ _ _ Hseqs). apply Forall_drop, Forall_lookup. intros j b Hb.
    destruct (validated_fees cc b a) as [-> ?]; [by eapply Forall_lookup_1|]. split; [done|].
    apply lookup_lt_Some in Hb as Hlt. rewrite (Hseqs _ _ Hb). rewrite length_app in Hwin. lia.
Qed.

Lemma collect_balances_elem base l m m' a s :
  collect_balances p cc (Some ext) base l m = Ret (Ok m') → m' !! a = Some s →
  m !! a = Some s ∨ ∃ s0, (a, s0) ∈ l ∧ account_base_balance p cc (Some ext) base a s0 = Ret (Ok s).
Proof.
  revert m. induction l as [|[c s0] l IH]; intros m; cbn [collect_balances].
  { intros [= <-]. by left. }
  intros (s1 & Hs1 & Hrun)%run_try_Ok Ha. destruct (IH _ Hrun Ha) as [Hm|(s2 & Hs2 & Hrun2)].
  - destruct (decide (c = a)) as [->|Hne].
    + rewrite lookup_insert_eq in Hm. injection Hm as ->. right. exists s0. split; [by left|done].
    + rewrite lookup_insert_ne in Hm by done. by left.
  - right. exists s2. split; [by right|done].
Qed.

(** Each base balance covers the window, out of the balance read after the base. *)
Lemma base_balances_cover state_read addrs m state_read' bal :
  (∀ fin addrs l s, get_account_statuses state_read (id_at (committed ++ ext) (base_index p (committed ++ ext)))
     base_seq fin addrs = (Ok l, s) → status_balance <$> l = bal <$> addrs) →
  compute_account_base_balances p (N.of_nat (S (length (committed ++ ext)))) state_read cc (Some ext) addrs =
    Ret (Ok m, state_read') →
  ∀ a s, m !! a = Some s →
    covers (bal a) base_seq (window_gas a (drop (base_index p (committed ++ ext)) (committed ++ ext))) s.
Proof.
  intros Hreads. unfold compute_account_base_balances.
  pose proof (base_index_bounds lo p committed ext Hf) as [[Hlo Hi] Hpos].
  replace (base_seq_num_of p (N.of_nat (S (length (committed ++ ext))))) with base_seq
    by (unfold base_seq, base_index; lia).
  pose proof (get_block_index_at lo p committed ext _ Hf Hnum Hi Hpos) as Hidx. fold base_seq in Hidx.
  unfold policy_get_account_statuses. rewrite Hidx. cbn [mbind run_bind bli_round bli_block_id bli_is_finalized].
  intros (statuses & s1 & [= Hget] & Hrun)%st_try_Ok a s Ha.
  apply Hreads in Hget. apply run_bind_Ret in Hrun as (zipped & Hzip & Hrun).
  apply run_bind_Ret in Hrun as (r & Hcol & [= -> ->]).
  destruct (collect_balances_elem _ _ _ _ _ _ Hcol Ha) as [He|(s0 & Hs0 & Hrun)]; [by rewrite lookup_empty in He|].
  eapply account_base_balance_covers; [|exact Hrun].
  unfold zip_eq in Hzip. apply run_bind_Ret in Hzip as ([] & _ & [= <-]).
  apply list_elem_of_lookup in Hs0 as [j Hj].
  apply lookup_zip_with_Some in Hj as (a' & s0' & [= <- <-] & Ha' & Hs0).
  rewrite list_lookup_fmap in Hs0. destruct (statuses !! j) as [st|] eqn:Hst; [|done]. cbn in Hs0.
  apply (f_equal (λ l, l !! j)) in Hget. rewrite !list_lookup_fmap, Hst, Ha' in Hget. cbn in Hget.
  injection Hget as Hbal. injection Hs0 as <-. rewrite <- Hbal.
  destruct st as [st|]; unfold covers; cbn; lia.
Qed.
End base_balance.

(** ** The transactions of the block *)

(** Every account's balance covers what it is charged. *)
Definition all_covered (B G : Address → N) (base : N) (m : gmap Address AccountBalanceState) : Prop :=
  ∀ a s, m !! a = Some s → covers (B a) base (G a) s.

Lemma delegate_authorities_covered B G base auths m :
  all_covered B G base m → all_covered B G base (delegate_authorities auths m).
Proof.
  unfold delegate_authorities. revert m. induction auths as [|auth auths IH]; intros m Hm; [done|]. cbn.
  apply IH. destruct (ra_authority auth) as [c|]; [|done]. intros a s Ha.
  destruct (decide (c = a)) as [->|Hne].
  - rewrite lookup_alter_eq in Ha. destruct (m !! a) as [s0|] eqn:Hs0; [|done]. injection Ha as <-.
    by apply Hm in Hs0.
  - rewrite lookup_alter_ne in Ha by done. by apply Hm.
Qed.

Lemma delegate_authorities_dom auths m a :
  is_Some (delegate_authorities auths m !! a) ↔ is_Some (m !! a).
Proof.
  unfold delegate_authorities. revert m. induction auths as [|auth auths IH]; intros m; [done|]. cbn.
  rewrite IH. destruct (ra_authority auth); [by rewrite lookup_alter_is_Some|done].
Qed.

Lemma add_transaction_covered v m t m' B G base :
  all_covered B G base m → (1 ≤ bv_execution_delay v)%N →
  (base < bv_block_seq_num v)%N → (bv_block_seq_num v ≤ base + bv_execution_delay v)%N →
  try_add_transaction v m t = Ret (Ok m') →
  all_covered B (λ a, G a + gas_in (bv_base_fee v) a [t])%N base m' ∧ is_Some (m' !! vt_signer t) ∧
  ∀ a, is_Some (m !! a) → is_Some (m' !! a).
Proof.
  intros Hm Hd Hlo Hhi. unfold try_add_transaction. destruct (m !! vt_signer t) as [s|] eqn:Hs; [|done].
  destruct (is_possibly_emptying_transaction _ _ _) as [possibly|] eqn:Hp; [|done]. cbn [mbind run_bind].
  rewrite compute_txn_max_gas_cost_Ret, compute_txn_max_value_Ret. cbn [mbind run_bind].
  set (gas := gas_cost_of _ _).
  assert (Hfin : ∀ s', covers (B (vt_signer t)) base (G (vt_signer t) + gas) s' →
    Ret (Ok (delegate_authorities (authorizations_7702 t) (<[vt_signer t := s']> m))) =
      (Ret (Ok m') : run (result _ BlockPolicyError)) →
    all_covered B (λ a, G a + gas_in (bv_base_fee v) a [t])%N base m' ∧ is_Some (m' !! vt_signer t) ∧
    ∀ a, is_Some (m !! a) → is_Some (m' !! a)).
  { intros s' Hs' [= <-]. split; [|split].
    - apply delegate_authorities_covered. intros a s1 Ha. unfold gas_in. rewrite filter_cons, filter_nil.
      destruct (decide (vt_signer t = a)) as [<-|Hne].
      + rewrite lookup_insert_eq in Ha. injection Ha as <-. cbn [fmap list_fmap].
        rewrite nsum_cons. unfold nsum. cbn. by rewrite N.add_0_r.
      + rewrite lookup_insert_ne in Ha by done. unfold nsum. cbn. rewrite N.add_0_r. by apply Hm.
    - apply delegate_authorities_dom. by rewrite lookup_insert_eq.
    - intros a Ha. apply delegate_authorities_dom. apply lookup_insert_is_Some.
      destruct (decide (vt_signer t = a)); [by left|by right]. }
  apply Hm in Hs as Hc. pose proof (not_emptying _ _ _ _ _ _ _ Hc Hd Hhi Hp) as Hemp.
  destruct Hc as (Hr & Hb & _). destruct (possibly && _) eqn:He; (case_decide; [done|]); apply Hfin.
  - apply andb_true_iff in He as [-> _]. rewrite Hemp in * by done.
    unfold covers, set_balances, u256_saturating_sub, u256_saturating_add.
    assert (Hg : (gas ≤ u256_MAX)%N).
    { etrans; [apply gas_cost_bound|]. vm_compute. discriminate. }
    fold gas. clearbody gas. cbn. lia.
  - unfold covers, set_balances, u256_saturating_sub. cbn. lia.
Qed.

Lemma txn_loop_covered v chain_id txns nonces m nonces' m' B G base :
  all_covered B G base m → (1 ≤ bv_execution_delay v)%N →
  (base < bv_block_seq_num v)%N → (bv_block_seq_num v ≤ base + bv_execution_delay v)%N →
  coherency_txn_loop v chain_id txns nonces m = Ret (Ok (nonces', m')) →
  all_covered B (λ a, G a + gas_in (bv_base_fee v) a txns)%N base m' ∧
  (∀ t, t ∈ txns → is_Some (m' !! vt_signer t)) ∧ ∀ a, is_Some (m !! a) → is_Some (m' !! a).
Proof.
  intros Hm Hd Hlo Hhi. revert nonces m G Hm. induction txns as [|t txns IH]; intros nonces m G Hm;
    cbn [coherency_txn_loop].
  { intros [= <- <-]. split; [|split; [by intros ? ?%elem_of_nil|done]].
    intros a s Ha. unfold gas_in, nsum. cbn. rewrite N.add_0_r. by apply Hm. }
  intros (n1 & _ & Hrun)%run_try_Ok. apply run_try_Ok in Hrun as (m1 & Hadd & Hrun).
  apply run_bind_Ret in Hrun as (n2 & _ & Hrun).
  destruct (add_transaction_covered _ _ _ _ _ _ _ Hm Hd Hlo Hhi Hadd) as (Hm1 & Ht & Hdom1).
  destruct (IH _ _ _ Hm1 Hrun) as (Hm2 & Hts & Hdom2). split; [|split].
  - intros a s Ha. change (t :: txns) with ([t] ++ txns). rewrite gas_in_app, N.add_assoc. by apply Hm2.
  - intros u [->|Hu]%elem_of_cons; [by apply Hdom2|by apply Hts].
  - auto.
Qed.

(** ** Coherent blocks *)

Lemma get_account_statuses_step p state_read oext addrs base r state_read' :
  policy_get_account_statuses p state_read oext addrs base = Ret (r, state_read') →
  rtc read_step state_read state_read'.
Proof.
  unfold policy_get_account_statuses. intros (idx & _ & Hrun)%run_bind_Ret.
  destruct idx as [idx|]; [|by injection Hrun as <- <-]. injection Hrun as Hrun.
  apply rtc_once. left. eexists _, _, _, _. by rewrite Hrun.
Qed.

Lemma base_nonces_step p n state_read ext addrs m state_read' :
  get_account_base_nonces p n state_read ext addrs = Ret (Ok m, state_read') →
  rtc read_step state_read state_read'.
Proof.
  unfold get_account_base_nonces. destruct (split_cached _ _ _ _).
  intros (statuses & s & Hget%get_account_statuses_step & Hrun)%st_try_Ok.
  by apply run_bind_Ret in Hrun as (zipped & _ & [= _ <-]).
Qed.

Lemma check_transactions_balances p b ext state_read cc state_read' :
  check_transactions p b ext state_read cc = Ret (Ok (), state_read') →
  ∃ state_read1 addrs m state_read2 nonces nonces' m',
    rtc read_step state_read state_read1 ∧
    compute_account_base_balances p (evb_seq_num b) state_read1 cc (Some ext) addrs =
      Ret (Ok m, state_read2) ∧
    coherency_txn_loop (block_validator_new (evb_seq_num b) (execution_delay p) (base_fee (evb_header b))
      cc (evb_round b)) (cfg_chain_id cc) (validated_txns b) nonces m = Ret (Ok (nonces', m')).
Proof.
  unfold check_transactions. rewrite st_try_Ok. intros (n & s1 & Hn%base_nonces_step & Hb).
  apply st_try_Ok in Hb as (bal & s2 & Hbal & Hv). apply st_try_Ok in Hv as (? & s3 & _ & Hs).
  apply st_try_Ok in Hs as (m1 & s4 & _ & Ht).
  apply st_try_Ok in Ht as ([m2 bal2] & s5 & [Hm2 ->]%fmap_pair_Ok & _). eauto 10.
Qed.

Lemma coherent_chain_validated cc delay chain :
  coherent_chain cc delay chain → Forall (validated cc) chain.
Proof.
  induction 1 as [|committed ext p b root s s' _ IH _ _ _ Hv _]; [constructor|].
  apply Forall_app_2; [done|by apply Forall_singleton].
Qed.

(** Successful reads of the state after a block answer with the balances [bal]. *)
Definition reads_balances (state_read : State) chain (bal : nat → Address → N) : Prop :=
  ∀ s i finalized addrs l s', rtc read_step state_read s → i ≤ length chain →
    get_account_statuses s (id_at chain i) (N.of_nat i) finalized addrs = (Ok l, s') →
    status_balance <$> l = bal i <$> addrs.

(** C4: accepted transactions can pay for their gas.  When a block passes the coherency
    check on a branch of a coherent chain, then for each of its transactions, everything
    that the sender's transactions in this block and in all blocks after the base (the
    block whose state was read, [execution_delay] blocks earlier) can cost in gas is at
    most the sender's balance after the base.  So no transaction that is included can
    run out of gas money because of the delay between ordering and execution, however
    many transactions the sender had in between. *)
Theorem coherent_block_solvent (cc : CC) (delay : N) committed ext p (b : EthValidatedBlock)
    (root : RootInfo) (state_read state_read' : State) (bal : nat → Address → N) :
  (1 ≤ delay)%N → (4 * delay ≤ u64_MAX)%N → (N.of_nat (length (committed ++ ext)) + 3 ≤ u64_MAX)%N →
  coherent_chain cc delay (committed ++ ext) →
  commit_blocks (EthBlockPolicy_new 0 delay) committed = Ret p →
  root_seq_num root = N.of_nat (length committed) →
  reads_balances state_read (committed ++ ext) bal →
  validated cc b →
  eth_check_coherency p b ext root state_read cc = Ret (Ok (), state_read') →
  ∀ t, t ∈ validated_txns b →
    (window_gas (vt_signer t) (drop (base_index p (committed ++ ext)) (committed ++ ext) ++ [b]) ≤
       bal (base_index p (committed ++ ext)) (vt_signer t))%N.
Proof.
  intros Hd1 Hd4 Hlen Hcoh Hp Hroot Hreads Hvb Hcheck t Ht.
  destruct (coherent_chain_ledger cc delay (committed ++ ext)) as [Hnum _]; [done..|lia|done|].
  pose proof (coherent_chain_validated _ _ _ Hcoh) as Hval.
  destruct (commit_blocks_from_new delay committed p) as [[lo Hf] _];
    [done..|by eapply numbered_prefix|done|].
  destruct (check_coherency_transactions _ _ _ _ _ _ _ Hcheck) as (Hseq & results & s1 & Hres & _ & Htx).
  rewrite Hroot, (numbered_last committed ext Hnum) in Hseq.
  destruct (check_transactions_balances _ _ _ _ _ _ Htx) as
    (s2 & addrs & m & s3 & nonces & nonces' & m' & Hstep & Hbal & Hloop).
  assert (Hb : evb_seq_num b = N.of_nat (S (length (committed ++ ext)))) by lia. rewrite Hb in Hbal.
  pose proof (base_index_bounds lo p committed ext Hf) as [[_ Hi] _].
  set (i := base_index p (committed ++ ext)) in *.
  assert (Hcov : all_covered (bal i) (λ a, window_gas a (drop i (committed ++ ext))) (N.of_nat i) m).
  { intros a s. eapply (base_balances_cover lo p cc committed ext Hf Hnum Hval); [|exact Hbal].
    intros fin addrs' l s4. apply (Hreads s2 i); [|done].
    etrans; [by eapply expected_results_step|done]. }
  pose proof (base_seq_window p committed ext) as Hwin. unfold base_seq in Hwin. fold i in Hwin.
  eapply txn_loop_covered in Hloop as (Hcov' & Hdom & _); [|exact Hcov| | |]; cbn; [..|rewrite Hb; lia|rewrite Hb; lia].
  - destruct (Hdom t Ht) as [s Hs]. destruct (Hcov' _ _ Hs) as [Hle _].
    unfold window_gas. rewrite fmap_app, nsum_app, fmap_cons, nsum_cons. cbn [fmap list_fmap].
    change (nsum []) with 0%N. rewrite N.add_0_r. unfold window_gas in Hle. cbn in Hle. unfold block_gas at 2.
    lia.
  - apply (fo_delay _ _ _ Hf).
Qed.

End solvency.

(** ** The second block of the devnet example *)

#[local] Existing Instance example_transactions.
#[local] Existing Instance example_signing.
#[local] Existing Instance EthExampleProtocol.
#[local] Existing Instance EthExampleCodec.
#[local] Existing Instance example_eth_protocol.
#[local] Existing Instance example_state.
#[local] Existing Instance I256_checked.
#[local] Existing Instance KinetChainConfig_ChainConfig.
#[local] Existing Instance list_HashIter.

Definition example_balances (i : nat) (a : N) : N := 10 ^ 20.

Lemma example_reads_balances chain : reads_balances () chain example_balances.
Proof.
  intros s i fin addrs l s' _ _. cbn. case_decide; [|done]. intros [= <- <-].
  rewrite <- list_fmap_compose. by apply list_fmap_ext.
Qed.

Lemma coherent_block_solvent_witness :
  ∃ b1 b2, example_chain = Some [b1; b2] ∧ length (validated_txns b2) = 1 ∧
    ∀ t, t ∈ validated_txns b2 → (window_gas (vt_signer t) [b1; b2] ≤ 10 ^ 20)%N.
Proof.
  assert (Hex : match example_chain with
    | Some [b1; b2] => length (validated_txns b2) =? 1 | _ => false end = true) by (vm_compute; reflexivity).
  destruct example_chain as [chain|] eqn:Hchain; [|discriminate Hex].
  destruct chain as [|b1 [|b2 [|b3 chain]]]; [discriminate Hex..| |discriminate Hex].
  exists b1, b2. split; [reflexivity|]. split; [exact (proj1 (Nat.eqb_eq _ _) Hex)|].
  unfold example_chain in Hchain. destruct (extend [] 0) as [c1|] eqn:Hc1; [|discriminate Hchain].
  cbn [mbind option_bind] in Hchain.
  assert (Hcoh : coherent_chain KINET_DEVNET_CHAIN_CONFIG 3 c1).
  { eapply extend_coherent; [exact Hc1|]. constructor. }
  apply extend_Some in Hc1 as (b1' & _ & -> & _ & _).
  apply extend_Some in Hchain as (b2' & s' & Heq & Hv & Hcheck). cbn in Heq. injection Heq as <- <-.
  exact (coherent_block_solvent KINET_DEVNET_CHAIN_CONFIG 3 [] [b1] example_policy_start b2 example_root
    () s' example_balances ltac:(vm_compute; discriminate) ltac:(vm_compute; discriminate)
    ltac:(vm_compute; discriminate) Hcoh eq_refl eq_refl (example_reads_balances [b1]) Hv Hcheck).
Defined.
