(* ===== verification/EthTotal.v ===== *)
(** * The coherency check never panics

    The block policy runs on blocks of untrusted proposers, and asserts, indexes and
    subtracts all along: missing blocks, gaps in the buffer, unknown accounts, base-fee
    overflow would crash the node.  On a policy that follows a coherent chain none of
    this can happen, whatever validated block is checked. *)
From S2P Require Import Prelude Types.
From S2P Require Import SignatureCollection Certificates Tree ChainConfig Timestamp BaseFee.
From S2P Require Import EthTypes NonceUsage TxValidation SystemCalls EthBlockValidator EthBlockPolicy.
From S2P Require Import EthExample EthNonces EthChain EthLedger EthSolvency.

(** The computation returns. *)
Definition returned {A} (c : run A) : Prop := ∃ a, c = Ret a.

Lemma returned_Ret {A} (a : A) : returned (Ret a).
Proof. by exists a. Qed.

Lemma returned_bind {A B} (c : run A) (f : A → run B) :
  returned c → (∀ a, c = Ret a → returned (f a)) → returned (c ≫= f).
Proof. intros [a ->] Hf. cbn. by apply Hf. Qed.

Lemma returned_try {A B E} (c : run (result A E)) (f : A → run (result B E)) :
  returned c → (∀ a, c = Ret (Ok a) → returned (f a)) → returned (run_try c f).
Proof. intros [[a|e] ->] Hf; cbn; [by apply Hf|by exists (Err e)]. Qed.

Lemma returned_st_try {A B E F S} (conv : E → F) (m : run (result A E * S))
    (f : A → S → run (result B F * S)) :
  returned m → (∀ a s, m = Ret (Ok a, s) → returned (f a s)) → returned (st_try conv m f).
Proof. intros [[[a|e] s] ->] Hf; cbn; [by apply Hf|by eexists]. Qed.

Lemma returned_fmap {A B} (f : A → B) (c : run A) : returned c → returned (f <$> c).
Proof. intros [a ->]. by exists (f a). Qed.

Lemma returned_add a b : (a + b ≤ u64_MAX)%N → returned (SeqNum_add a b).
Proof. intros Hle. rewrite SeqNum_add_Ret by done. by eexists. Qed.

Lemma returned_sub a b : (b ≤ a)%N → returned (SeqNum_sub a b).
Proof. intros Hle. unfold SeqNum_sub, u64_checked_sub. rewrite decide_True by done. by eexists. Qed.

#[export] Hint Resolve returned_Ret returned_add returned_sub : kinet.

Section total.
Context `{HC : Codec} `{!HashIter, !U256Ops, !I256Ops}.
Context `{!EthTransactions, !EthProtocol, !SystemSigning}.
Context {CC : Type} `{!ChainConfig CC} {State : Type} `{!ExecutionStateRead State}.

Implicit Types (p : EthBlockPolicy) (chain committed ext : list EthValidatedBlock) (a : Address).

(** ** Base fees along the chain *)

(** What the checks assume of a configuration: gas limits in the range the fee rule is
    made for, epochs of at least one block, staking not active before epoch 1. *)
Record config_ok (cc : CC) (max_limit : N) : Prop := {
  config_gas round : (100000000 ≤ proposal_gas_limit (cfg_params cc round) ≤ max_limit)%N;
  config_max : (max_limit ≤ 1000000000)%N;
  config_epoch : (1 ≤ cfg_epoch_length cc)%N;
  config_staking : (1 ≤ cfg_staking_activation cc)%N;
}.

Definition fee_fields_ok (max_limit : N) (b : EthValidatedBlock) : Prop :=
  (base_fee (evb_header b) ≤ MAX_BASE_FEE)%N ∧
  fee_state_ok max_limit (cast_signed (base_fee_trend (evb_header b))) (base_fee_moment (evb_header b)).

Definition parent_fields chain : Round * N * N * N * N :=
  match last chain with
  | Some b => (evb_round b, base_fee (evb_header b), base_fee_trend (evb_header b),
               base_fee_moment (evb_header b), get_total_gas b)
  | None => (GENESIS_ROUND, GENESIS_BASE_FEE, GENESIS_BASE_FEE_TREND, GENESIS_BASE_FEE_MOMENT, 0%N)
  end.

Lemma follows_last p committed b :
  follows p committed → last committed = Some b →
  last_commit p ≠ GENESIS_SEQ_NUM ∧ blocks (committed_cache p) !! last_commit p = Some (committed_block b).
Proof.
  intros [lo Hf] [l ->]%last_Some. destruct Hf as [Hlast Hd _ _ [Hlo Hlo'] Hblocks].
  rewrite length_app in *. cbn [length] in *. rewrite Hlast. split; [unfold GENESIS_SEQ_NUM; lia|].
  apply Hblocks. split; [lia|]. rewrite list_lookup_fmap, lookup_drop.
  replace (lo + _) with (length l) by lia. by rewrite lookup_app_r, Nat.sub_diag.
Qed.

Lemma get_parent_fields p committed ext :
  follows p committed → get_parent_base_fee_fields p ext = Ret (parent_fields (committed ++ ext)).
Proof.
  intros Hf. unfold get_parent_base_fee_fields, parent_fields. rewrite last_app.
  destruct (last ext) as [e|]; [done|]. destruct (last committed) as [b|] eqn:Hb.
  - destruct (follows_last p committed b Hf Hb) as [Hne ->]. by rewrite decide_False.
  - apply last_None in Hb as ->. destruct Hf as [lo [Hlast _ _ _ _ _]]. by rewrite decide_True.
Qed.

(** The wrapping sum of the gas limits does not wrap. *)
Lemma total_gas_validated cc b :
  validated cc b → (get_total_gas b ≤ proposal_gas_limit (cfg_params cc (evb_round b)))%N.
Proof.
  intros Hv%validated_gas_limit. unfold get_total_gas.
  assert (Hsum : ∀ acc txns, (acc + nsum ((λ t, tx_gas_limit (vt_envelope t)) <$> txns) ≤ u64_MAX)%N →
    foldl (λ acc tx, u64_wrap (acc + tx_gas_limit (vt_envelope tx))) acc txns =
      (acc + nsum ((λ t, tx_gas_limit (vt_envelope t)) <$> txns))%N).
  { intros acc txns. revert acc. induction txns as [|t txns IH]; intros acc Hacc; cbn [foldl].
    - cbn. lia.
    - rewrite fmap_cons, nsum_cons in *. unfold u64_wrap at 2. rewrite N.mod_small by lia.
      rewrite IH by lia. lia. }
  rewrite Hsum by lia. lia.
Qed.

Lemma compute_base_fee_total cc max_limit p committed ext :
  config_ok cc max_limit → follows p committed → Forall (validated cc) (committed ++ ext) →
  Forall (fee_fields_ok max_limit) (committed ++ ext) →
  ∃ fee trend moment, policy_compute_base_fee p ext cc = Ret (fee, trend, moment) ∧
    (fee ≤ MAX_BASE_FEE)%N ∧ fee_state_ok max_limit (cast_signed trend) moment.
Proof.
  intros [Hgas Hmax _ _] Hf Hval Hfees. unfold policy_compute_base_fee.
  rewrite (get_parent_fields p committed ext Hf). unfold parent_fields. cbn [mbind run_bind].
  assert (Hpar : ∀ round usage fee trend moment,
    (usage ≤ proposal_gas_limit (cfg_params cc round))%N → (fee ≤ MAX_BASE_FEE)%N →
    fee_state_ok max_limit (cast_signed trend) moment →
    ∃ fee' trend' moment', compute_base_fee (proposal_gas_limit (cfg_params cc round)) usage fee trend moment =
      Ret (fee', trend', moment') ∧ (fee' ≤ MAX_BASE_FEE)%N ∧ fee_state_ok max_limit (cast_signed trend') moment').
  { intros round usage fee trend moment Hu Hfee Hst.
    destruct (compute_base_fee_spec max_limit _ usage fee trend moment (Hgas round) Hmax Hu Hfee Hst)
      as (fee' & trend' & moment' & -> & [_ ?] & _ & ? & _). by eexists _, _, _. }
  destruct (last (committed ++ ext)) as [b|] eqn:Hb.
  - apply last_Some in Hb as [l Hl]. rewrite Hl in *. apply Forall_app in Hval as [_ [Hv _]%Forall_cons].
    apply Forall_app in Hfees as [_ [[Hfee Hst] _]%Forall_cons].
    apply Hpar; [by apply total_gas_validated|done..].
  - apply Hpar; [lia|unfold GENESIS_BASE_FEE; lia|]. specialize (Hgas 0%N).
    pose proof (gas_target_bounds max_limit) as HT. split; [|unfold GENESIS_BASE_FEE_MOMENT; lia].
    replace (cast_signed GENESIS_BASE_FEE_TREND) with 0%Z by by vm_compute. lia.
Qed.

Lemma coherent_chain_fees cc max_limit delay chain :
  config_ok cc max_limit →
  (1 ≤ delay)%N → (4 * delay ≤ u64_MAX)%N → (N.of_nat (length chain) + 2 ≤ u64_MAX)%N →
  coherent_chain cc delay chain → Forall (fee_fields_ok max_limit) chain.
Proof.
  intros Hcfg Hd1 Hd4 Hlen Hc. revert Hlen.
  induction Hc as [|committed ext p b root s s' Hc IH Hp Hroot Hreads Hv Hcheck]; [constructor|].
  rewrite (length_app (committed ++ ext)). cbn [length]. intros Hlen. apply Forall_app_2; [apply IH; lia|].
  apply Forall_singleton.
  destruct (coherent_chain_ledger cc delay (committed ++ ext)) as [Hnum _]; [done..|lia|done|].
  destruct (commit_blocks_from_new delay committed p) as [Hf _]; [done..|by eapply numbered_prefix|done|].
  destruct (compute_base_fee_total cc max_limit p committed ext) as (fee & trend & moment & Hfee & ? & ?);
    [done..|by eapply coherent_chain_validated|apply IH; lia|].
  destruct (check_coherency_transactions _ _ _ _ _ _ _ Hcheck) as (_ & results & s1 & _ & Hfee' & _).
  rewrite Hfee in Hfee'. injection Hfee' as -> -> ->. done.
Qed.

(** ** Balances *)

Lemma emptying_total n s d : (1 ≤ d)%N → returned (is_possibly_emptying_transaction n s d).
Proof.
  intros Hd. unfold is_possibly_emptying_transaction. destruct (is_delegated s); [by eexists|].
  apply returned_bind; eauto with kinet.
Qed.

Lemma apply_block_fees_total v s f : (1 ≤ bv_execution_delay v)%N → returned (try_apply_block_fees v s f).
Proof. intros Hd. apply returned_bind; [by apply emptying_total|eauto with kinet]. Qed.

Lemma emptying_loop_total a n l s :
  (n + N.of_nat (length l) ≤ u64_MAX)%N →
  ∃ s', emptying_loop a (numbered_from n l) n s = Ret ((n + N.of_nat (length l))%N, s').
Proof.
  revert n s. induction l as [|cb l IH]; intros n s Hn; cbn [length] in *.
  { exists s. cbn. by rewrite N.add_0_r. }
  cbn [numbered_from emptying_loop]. rewrite assert_true by done. cbn [mbind run_bind].
  rewrite SeqNum_add_Ret by lia. cbn [mbind run_bind].
  replace (n + N.of_nat (S (length l)))%N with (n + 1 + N.of_nat (length l))%N by lia. apply IH. lia.
Qed.

Lemma reserve_loop_total a d (cc : CC) n l s :
  (1 ≤ d)%N → (n + N.of_nat (length l) ≤ u64_MAX)%N →
  ∃ r, reserve_loop a d cc (numbered_from n l) n s = Ret r ∧
    ∀ next s', r = Ok (next, s') → next = (n + N.of_nat (length l))%N.
Proof.
  intros Hd. revert n s. induction l as [|cb l IH]; intros n s Hn; cbn [length] in *.
  { eexists. split; [done|]. intros ?? [= <- _]. lia. }
  cbn [numbered_from reserve_loop]. rewrite assert_true by done. cbn [mbind run_bind].
  set (c := match cb_fees cb !! a with Some _ => _ | None => _ end).
  assert (Hc : returned c).
  { unfold c. destruct (cb_fees cb !! a); [by apply apply_block_fees_total|eauto with kinet]. }
  destruct Hc as [[s1|e] ->]; cbn [run_try]; [|by eexists].
  rewrite SeqNum_add_Ret by lia. cbn [mbind run_bind].
  replace (n + N.of_nat (S (length l)))%N with (n + 1 + N.of_nat (length l))%N by lia. apply IH. lia.
Qed.

Lemma extending_loop_total p (cc : CC) a start n l s :
  (1 ≤ execution_delay p)%N → seqs_from n l → (n + N.of_nat (length l) ≤ u64_MAX)%N →
  returned (extending_loop p cc a start l n s).
Proof.
  intros Hd. revert n s. induction l as [|b l IH]; intros n s Hl Hn; cbn [length extending_loop] in *; [by eexists|].
  destruct (seqs_from_cons _ _ _ Hl) as [Hb Hl']. rewrite Hb, assert_true by done. cbn [mbind run_bind].
  apply returned_try.
  - destruct (txn_fees b !! a); [|by eexists]. case_decide; [by eexists|]. by apply apply_block_fees_total.
  - intros s1 _. rewrite SeqNum_add_Ret by lia. cbn [mbind run_bind]. apply IH; [done|lia].
Qed.

Section base_total.
Context (lo : nat) p (cc : CC) committed ext.
Hypothesis (Hf : follows_from lo p committed) (Hnum : numbered (committed ++ ext)).

(** Where the scan for earlier transactions starts. *)
Definition emptying_start : N :=
  (1 `max` ((base_seq p committed ext + 2) `max` execution_delay p - execution_delay p))%N.

Lemma emptying_start_bounds :
  (N.of_nat lo + 1 ≤ emptying_start ≤ base_seq p committed ext + 1)%N.
Proof.
  destruct Hf as [_ Hd _ _ [Hlo Hlo'] _]. unfold emptying_start, base_seq, base_index, base_seq_num_of.
  rewrite length_app. lia.
Qed.

(** The committed part of the scan ends after the last committed block. *)
Lemma update_account_balance_total a s :
  ∃ r, update_account_balance (committed_cache p) s a (execution_delay p) emptying_start
      (base_seq p committed ext + 1) cc = Ret r ∧
    ∀ next s', r = Ok (next, s') → next = (emptying_start `max` (N.of_nat (length committed) + 1))%N.
Proof.
  pose proof emptying_start_bounds as [Hlo Hhi]. pose proof (fo_delay _ _ _ Hf) as Hd.
  pose proof (base_index_bounds lo p committed ext Hf) as [[_ Hi] _].
  assert (Hmax : (N.of_nat (length (committed ++ ext)) + 2 ≤ u64_MAX)%N) by apply Hnum.
  unfold update_account_balance, range. set (base := base_seq p committed ext) in *.
  assert (Hbase : (base ≤ N.of_nat (length (committed ++ ext)))%N) by (unfold base, base_seq; lia).
  rewrite length_app in *. rewrite assert_true by done. cbn [mbind run_bind].
  rewrite !(range_from_follows lo p committed) by (done || lia). rewrite numbered_from_filter_lt.
  set (l := take _ _). assert (Hlen : length l =
    N.to_nat (base + 1 - emptying_start) `min` (length committed - N.to_nat (emptying_start - 1))).
  { unfold l. by rewrite length_take, length_fmap, length_drop. }
  destruct (emptying_loop_total a emptying_start l s) as [s1 ->]; [rewrite Hlen; lia|]. cbn [mbind run_bind].
  replace (N.to_nat (base + 1 - 1)) with (N.to_nat base) by lia.
  destruct (decide (N.of_nat (length committed) ≤ base)%N) as [Hge|Hlt].
  - rewrite drop_ge by lia. eexists. split; [done|]. intros next s' [= <- _]. rewrite Hlen. lia.
  - replace (emptying_start + N.of_nat (length l))%N with (base + 1)%N by (rewrite Hlen; lia).
    destruct (reserve_loop_total a (execution_delay p) cc (base + 1)
      (committed_block <$> drop (N.to_nat base) committed) s1) as (r & Hr & Hnext);
      [done|rewrite length_fmap, length_drop; lia|].
    exists r. split; [done|]. intros next s' Heq. rewrite (Hnext next s' Heq), length_fmap, length_drop. lia.
Qed.

Lemma account_base_balance_total a s :
  returned (account_base_balance p cc (Some ext) (base_seq p committed ext) a s).
Proof.
  pose proof emptying_start_bounds as [Hlo Hhi]. pose proof (fo_delay _ _ _ Hf) as Hd.
  pose proof (base_index_bounds lo p committed ext Hf) as [[_ Hi] _].
  assert (Hmax : (N.of_nat (length (committed ++ ext)) + 2 ≤ u64_MAX)%N) by apply Hnum.
  assert (Hbase : (base_seq p committed ext ≤ N.of_nat (length (committed ++ ext)))%N) by (unfold base_seq; lia).
  unfold account_base_balance. rewrite SeqNum_add_Ret by lia. cbn [mbind run_bind].
  rewrite SeqNum_add_Ret by lia. cbn [mbind run_bind].
  rewrite <- N.add_assoc. change (1 + 1)%N with 2%N.
  set (start := ((base_seq p committed ext + 2) `max` execution_delay p - execution_delay p)%N).
  assert ((if decide (start = GENESIS_SEQ_NUM) then SeqNum_add start 1 else Ret start) = Ret emptying_start) as ->.
  { unfold emptying_start. fold start. unfold GENESIS_SEQ_NUM. case_decide as Hs; [|f_equal; lia].
    rewrite SeqNum_add_Ret by lia. f_equal. lia. }
  cbn [mbind run_bind].
  destruct (update_account_balance_total a (if decide (GENESIS_SEQ_NUM < emptying_start)%N
    then set_balances s (balance s) (remaining_reserve_balance s) (emptying_start - 1)%N (is_delegated s) else s))
    as (r & -> & Hnext).
  destruct r as [[next s1]|e]; cbn [run_try]; [|by eexists]. rewrite (Hnext next s1 eq_refl).
  pose proof (numbered_ext committed ext Hnum) as Hseqs. rewrite (skip_while_drop _ _ _ Hseqs).
  set (k := N.to_nat _).
  replace (emptying_start `max` (N.of_nat (length committed) + 1))%N
    with (N.of_nat (length committed) + 1 + N.of_nat k)%N by (unfold k; lia).
  rewrite length_app in *. apply extending_loop_total; [done|by apply seqs_from_drop|].
  rewrite length_drop. unfold k. lia.
Qed.

Lemma collect_balances_total l m :
  returned (collect_balances p cc (Some ext) (base_seq p committed ext) l m).
Proof.
  revert m. induction l as [|[a s] l IH]; intros m; cbn [collect_balances]; [by eexists|].
  apply returned_try; [apply account_base_balance_total|]. intros s1 _. apply IH.
Qed.

Lemma base_balances_total state_read addrs :
  (∀ fin addrs l s, get_account_statuses state_read (id_at (committed ++ ext) (base_index p (committed ++ ext)))
     (base_seq p committed ext) fin addrs = (Ok l, s) → length l = length addrs) →
  returned (compute_account_base_balances p (N.of_nat (S (length (committed ++ ext)))) state_read cc
    (Some ext) addrs).
Proof.
  intros Hreads. unfold compute_account_base_balances.
  pose proof (base_index_bounds lo p committed ext Hf) as [[Hlo Hi] Hpos].
  replace (base_seq_num_of p (N.of_nat (S (length (committed ++ ext))))) with (base_seq p committed ext)
    by (unfold base_seq, base_index; lia).
  pose proof (get_block_index_at lo p committed ext _ Hf Hnum Hi Hpos) as Hidx.
  fold (base_seq p committed ext) in Hidx.
  unfold policy_get_account_statuses. rewrite Hidx. cbn [mbind run_bind bli_round bli_block_id bli_is_finalized].
  apply returned_st_try; [by eexists|]. intros statuses s1 [= Hget]. apply Hreads in Hget.
  unfold zip_eq. rewrite assert_true by by rewrite length_fmap. cbn [mbind run_bind].
  apply returned_bind; [apply collect_balances_total|]. intros r _. by eexists.
Qed.
End base_total.

(** ** Nonces *)

Implicit Types (M : gmap Address Nonce) (X : gset Address).

Lemma check_nonce_total X a k M :
  X ⊆ dom M → a ∈ X → ∃ r, check_nonce a k M = Ret r ∧ ∀ M', r = Ok M' → X ⊆ dom M'.
Proof.
  intros HX Ha. assert (HM : is_Some (M !! a)) by (apply elem_of_dom; set_solver).
  destruct HM as [e He]. unfold check_nonce. rewrite He. cbn [expect mbind run_bind].
  case_decide; (eexists; split; [done|]); [done|]. intros M' [= <-]. rewrite dom_insert. set_solver.
Qed.

Lemma system_check_total X sys M :
  X ⊆ dom M → (∀ t, t ∈ sys → vt_signer t ∈ X) →
  ∃ r, system_transaction_nonce_check sys M = Ret r ∧ ∀ M', r = Ok M' → X ⊆ dom M'.
Proof.
  revert M. induction sys as [|t sys IH]; intros M HX Hsys; cbn [system_transaction_nonce_check].
  { eexists. split; [done|]. by intros M' [= <-]. }
  destruct (check_nonce_total X (vt_signer t) (vt_nonce t) M HX) as (r & -> & Hr); [apply Hsys; by left|].
  destruct r as [M1|e]; cbn [run_try]; [|by eexists].
  apply IH; [by apply Hr|]. intros u Hu. apply Hsys. by right.
Qed.

Lemma authorizations_total X chain_id auths M :
  X ⊆ dom M → (∀ auth a, auth ∈ auths → ra_authority auth = Some a → a ∈ X) →
  ∃ M', eip_7702_valid_nonce_update auths M chain_id = Ret M' ∧ X ⊆ dom M'.
Proof.
  revert M. induction auths as [|auth auths IH]; intros M HX Hauths; cbn [eip_7702_valid_nonce_update].
  { by exists M. }
  assert (Hrest : ∀ auth a, auth ∈ auths → ra_authority auth = Some a → a ∈ X).
  { intros auth' a Hin. apply Hauths. by right. }
  destruct (ra_authority auth) as [a|] eqn:Ha; [|by apply IH]. destruct (other_chain _ _); [by apply IH|].
  assert (HM : is_Some (M !! a)).
  { apply elem_of_dom, HX. apply (Hauths auth); [by left|done]. }
  destruct HM as [e ->]. cbn [expect mbind run_bind].
  case_decide; apply IH; try done. rewrite dom_insert. set_solver.
Qed.

Lemma add_transaction_total v m t : (1 ≤ bv_execution_delay v)%N → returned (try_add_transaction v m t).
Proof.
  intros Hd. unfold try_add_transaction. destruct (m !! vt_signer t) as [s|]; [|by eexists].
  apply returned_bind; [by apply emptying_total|]. intros possibly _.
  rewrite compute_txn_max_gas_cost_Ret, compute_txn_max_value_Ret. cbn [mbind run_bind].
  destruct (possibly && _); case_decide; by eexists.
Qed.

Lemma txn_loop_total X v chain_id txns M m :
  (1 ≤ bv_execution_delay v)%N → X ⊆ dom M →
  (∀ t, t ∈ txns → vt_signer t ∈ X ∧
     ∀ auth a, auth ∈ authorizations_7702 t → ra_authority auth = Some a → a ∈ X) →
  returned (coherency_txn_loop v chain_id txns M m).
Proof.
  intros Hd. revert M m. induction txns as [|t txns IH]; intros M m HX Htxns; cbn [coherency_txn_loop]; [by eexists|].
  destruct (Htxns t) as [Ht Hauths]; [by left|].
  destruct (check_nonce_total X (vt_signer t) (vt_nonce t) M HX Ht) as (r & Hr & HM1).
  unfold nonce_check_and_update. rewrite Hr. destruct r as [M1|e]; cbn [run_try]; [|by eexists].
  apply returned_try; [by apply add_transaction_total|]. intros m1 _.
  assert (Hrest : ∀ M, X ⊆ dom M → returned (coherency_txn_loop v chain_id txns M m1)).
  { intros M' HM'. apply IH; [done|]. intros u Hu. apply Htxns. by right. }
  destruct (is_eip7702 _); [|by apply Hrest, HM1].
  destruct (authorizations_total X chain_id (authorizations_7702 t) M1) as (M2 & -> & HM2); [by apply HM1|done|].
  by apply Hrest.
Qed.

(** ** System transactions *)

Lemma generate_system_calls_total cc max_limit n epoch round parent author :
  config_ok cc max_limit → (n + 2 ≤ u64_MAX)%N →
  returned (generate_system_calls n epoch round parent author cc).
Proof.
  intros [_ _ Hepoch Hstaking] Hn. unfold generate_system_calls.
  assert (Hbd : ∃ b, is_boundary_block n (cfg_epoch_length cc) = Ret b).
  { unfold is_boundary_block, SeqNum_rem. rewrite decide_False by lia. cbn [mbind run_bind].
    destruct (returned_sub (cfg_epoch_length cc) 1 Hepoch) as [l ->]. by eexists. }
  destruct Hbd as [bd Hbd]. rewrite Hbd. cbn [mbind run_bind]. apply returned_bind.
  - destruct bd; [|by eexists]. apply returned_bind; [|by eexists].
    unfold get_locked_epoch. rewrite Hbd. cbn [mbind run_bind]. rewrite assert_true by done. cbn [mbind run_bind].
    unfold to_epoch, SeqNum_div. rewrite decide_False by lia. cbn [mbind run_bind].
    assert (Hq : (n / cfg_epoch_length cc ≤ n)%N) by (apply N.Div0.div_le_upper_bound; nia).
    unfold Epoch_add, u64_checked_add. rewrite N.mod_small by lia. rewrite decide_True by lia. by eexists.
  - intros snap _. apply returned_bind.
    + case_decide; [|by eexists]. apply returned_bind; [|by eexists].
      unfold Epoch_sub, u64_checked_sub. rewrite decide_True by done. by eexists.
    + intros first _. rewrite SeqNum_add_Ret; [by eexists|]. unfold GENESIS_SEQ_NUM. lia.
Qed.

Lemma validated_no_system cc b :
  validated cc b → validates_system_txs (hdr_timestamp_ns (evb_header b)) cc = false → system_txns b = [].
Proof.
  intros (h & body & Hbody & Hfull)%validated_body.
  apply validate_block_body_Ok in Hbody as (gas & rec & eth & u0 & _ & _ & _ & Hext & _).
  assert (Hh : evb_header b = h).
  { unfold ConsensusFullBlock_new in Hfull. case_decide; [done|]. injection Hfull as Hfull.
    unfold evb_header. by rewrite <- Hfull. }
  rewrite Hh. intros Hno. unfold extract_system_transactions in Hext. rewrite Hno in Hext. cbn in Hext.
  by injection Hext as <- _.
Qed.

Lemma system_input_total cc max_limit p committed ext b :
  config_ok cc max_limit → follows p committed → numbered (committed ++ ext) → validated cc b →
  evb_seq_num b = N.of_nat (S (length (committed ++ ext))) →
  (N.of_nat (length (committed ++ ext)) + 3 ≤ u64_MAX)%N →
  returned (policy_validate_system_transactions_input p b ext cc).
Proof.
  intros Hcfg Hf Hnum Hv Hseq Hlen. unfold policy_validate_system_transactions_input. apply returned_bind.
  - destruct (last ext) as [e|] eqn:He; [by eexists|]. apply last_None in He as ->. rewrite app_nil_r in *.
    destruct Hf as [lo Hf]. rewrite (fo_last _ _ _ Hf). rewrite SeqNum_add_Ret by lia. cbn [mbind run_bind].
    rewrite assert_true by lia. cbn [mbind run_bind]. unfold get_last_commit_epoch.
    case_decide as Hgen; [by eexists|]. destruct (last committed) as [c|] eqn:Hc.
    + destruct (follows_last p committed c) as [_ Hlook]; [by exists lo|done|].
      unfold buffer_get_epoch. rewrite Hlook. by eexists.
    + apply last_None in Hc as ->. exfalso. apply Hgen. by rewrite (fo_last _ _ _ Hf).
  - intros epoch _. unfold validate_system_transactions_input. change (hdr_seq_num (evb_header b)) with (evb_seq_num b).
    destruct (validates_system_txs _ cc) eqn:Hval; cbn [negb].
    + apply returned_bind; [|intros calls _; case_decide; by eexists].
      eapply generate_system_calls_total; [done|lia].
    + rewrite (validated_no_system cc b Hv Hval), assert_true by done. by eexists.
Qed.

(** ** The whole check *)

Lemma expected_results_total p committed ext n state_read :
  follows p committed → numbered (committed ++ ext) → n = N.of_nat (S (length (committed ++ ext))) →
  returned (eth_get_expected_execution_results p n ext state_read).
Proof.
  intros [lo Hf] Hnum ->. unfold eth_get_expected_execution_results. case_decide as Hn; [by eexists|].
  pose proof (base_index_bounds lo p committed ext Hf) as [[Hlo Hi] Hpos].
  unfold SeqNum_sub, u64_checked_sub. rewrite decide_True by lia. cbn [expect mbind run_bind].
  pose proof (get_block_index_at lo p committed ext _ Hf Hnum Hi Hpos) as Hidx.
  replace (N.of_nat (S (length (committed ++ ext))) - execution_delay p)%N
    with (N.of_nat (base_index p (committed ++ ext))) by (unfold base_index, base_seq_num_of; lia).
  rewrite Hidx. cbn [mbind run_bind]. destruct (get_execution_result _ _ _ _). by eexists.
Qed.

Lemma check_transactions_total cc max_limit p committed ext b state_read :
  config_ok cc max_limit → follows p committed → numbered (committed ++ ext) → validated cc b →
  evb_seq_num b = N.of_nat (S (length (committed ++ ext))) →
  (N.of_nat (length (committed ++ ext)) + 3 ≤ u64_MAX)%N →
  (∀ s, rtc read_step state_read s → reads_nonces s (committed ++ ext)) →
  returned (check_transactions p b ext state_read cc).
Proof.
  intros Hcfg Hfol Hnum Hv Hseq Hlen Hreads. pose proof Hfol as [lo Hf].
  pose proof (fo_delay _ _ _ Hf) as Hd.
  pose proof (base_index_bounds lo p committed ext Hf) as [[Hlo Hi] _].
  set (X := extract_signers (validated_txns b) (system_txns b)).
  destruct (hashset_iter_spec X) as [_ Hel].
  destruct (get_account_base_nonces_correct p committed ext state_read (hashset_iter X) Hfol Hnum
    (Hreads _ (rtc_refl _ _))) as (r & s1 & Hn & Hbase).
  unfold check_transactions. fold X. rewrite Hseq. apply returned_st_try; [by eexists|].
  intros m s1' Hm. rewrite Hm in Hn. injection Hn as <- <-. specialize (Hbase m eq_refl).
  assert (HX : X ⊆ dom m).
  { intros a Ha. apply elem_of_dom. rewrite Hbase, decide_True by by apply Hel. by eexists. }
  apply returned_st_try.
  { apply (base_balances_total lo); [done..|]. intros fin addrs l s2 Hget.
    apply base_nonces_step in Hm. apply (Hreads s1' Hm) in Hget; [|done].
    apply (f_equal length) in Hget. by rewrite !length_fmap in Hget. }
  intros m' s2 _. apply returned_st_try; [by eapply returned_fmap, system_input_total|].
  intros _ s3 _. destruct (system_check_total X (system_txns b) m HX) as (r & Hr & HM).
  { intros t Ht. unfold X, extract_signers. apply elem_of_union_r, elem_of_list_to_set.
    apply list_elem_of_fmap. by exists t. }
  apply returned_st_try; [rewrite Hr; by eexists|].
  intros m1 s4 [Hm1 _]%fmap_pair_Ok. rewrite Hr in Hm1. injection Hm1 as ->.
  apply returned_st_try; [|intros; by eexists].
  apply returned_fmap, (txn_loop_total X); [done|by apply HM|]. intros t Ht. split.
  - unfold X, extract_signers. apply elem_of_union_l, elem_of_union_l, elem_of_list_to_set, list_elem_of_fmap.
    by exists t.
  - intros auth a Hauth Ha. unfold X, extract_signers. apply elem_of_union_l, elem_of_union_r, elem_of_list_to_set.
    apply list_elem_of_bind. exists t. split; [|done]. apply list_elem_of_omap. by exists auth.
Qed.

(** C5: the coherency check never panics.  Let the policy have committed a prefix of a
    coherent chain, and let the rest of the chain be the branch to extend.  Whatever
    validated block is then checked, by whatever proposer and with whatever contents, the
    check returns a verdict: the blocks it looks up are there, the buffer has no gaps,
    the base fee update stays in its domain, every account it indexes is present.  The
    configuration must have gas limits the fee rule is made for. *)
Theorem coherency_check_total (cc : CC) (max_limit delay : N) committed ext p (b : EthValidatedBlock)
    (root : RootInfo) (state_read : State) :
  config_ok cc max_limit →
  (1 ≤ delay)%N → (4 * delay ≤ u64_MAX)%N → (N.of_nat (length (committed ++ ext)) + 3 ≤ u64_MAX)%N →
  coherent_chain cc delay (committed ++ ext) →
  commit_blocks (EthBlockPolicy_new 0 delay) committed = Ret p →
  root_seq_num root = N.of_nat (length committed) →
  reads_ledger cc state_read (committed ++ ext) →
  validated cc b →
  ∃ verdict state_read', eth_check_coherency p b ext root state_read cc = Ret (verdict, state_read').
Proof.
  intros Hcfg Hd1 Hd4 Hlen Hcoh Hp Hroot Hreads Hv.
  destruct (coherent_chain_ledger cc delay (committed ++ ext)) as [Hnum Hled]; [done..|lia|done|].
  pose proof (coherent_chain_validated _ _ _ Hcoh) as Hval.
  destruct (commit_blocks_from_new delay committed p) as [Hf _]; [done..|by eapply numbered_prefix|done|].
  assert (Hret : returned (eth_check_coherency p b ext root state_read cc)).
  2: { destruct Hret as [[verdict s'] Hret]. by exists verdict, s'. }
  pose proof (numbered_last committed ext Hnum) as Hlast. rewrite <- Hroot in Hlast.
  unfold eth_check_coherency.
  set (q := match last ext with
            | Some e => (evb_seq_num e, blk_get_timestamp (evb_block e))
            | None => (root_seq_num root, 0%N) end).
  assert (Hq : q.1 = N.of_nat (length (committed ++ ext))).
  { rewrite <- Hlast. unfold q. by destruct (last ext). }
  clearbody q. destruct q as [n ts]. cbn [fst] in Hq. subst n.
  rewrite SeqNum_add_Ret by lia. cbn [mbind run_bind].
  destruct (decide (evb_seq_num b ≠ _)) as [|Hseq]; [by eexists|]. apply dec_stable in Hseq.
  case_decide; [by eexists|]. apply returned_st_try.
  { apply (expected_results_total p committed ext); [done..|lia]. }
  intros results s1 Hres. case_decide; [by eexists|].
  destruct (compute_base_fee_total cc max_limit p committed ext) as (fee & trend & moment & -> & _);
    [done..|eapply coherent_chain_fees; (done || lia)|].
  cbn [mbind run_bind]. case_decide; [by eexists|].
  apply (check_transactions_total cc max_limit p committed ext); [done..|lia|done|].
  intros s Hs j fin addrs l s2 Hj Hget. destruct (Hled j) as (L & HL & Hag).
  rewrite (Hreads s j L fin addrs l s2); [|etrans; [by eapply expected_results_step|done]|done..].
  apply list_fmap_ext. intros ? a _. apply Hag.
Qed.

End total.

(** ** The networks *)

(** Every revision of the protocol has gas limits between 150M and 300M. *)
Lemma KinetChainConfig_ok (cc : KinetChainConfig) :
  (1 ≤ cc_epoch_length cc)%N → (1 ≤ staking_activation (staking_config cc))%N → config_ok cc 300000000.
Proof.
  intros Hepoch Hstaking. split; [|done|done|done]. intros round. unfold cfg_params. cbn.
  destruct (get_chain_revision cc round); split; vm_compute; discriminate.
Qed.

#[local] Existing Instance example_transactions.
#[local] Existing Instance example_signing.
#[local] Existing Instance EthExampleProtocol.
#[local] Existing Instance EthExampleCodec.
#[local] Existing Instance example_eth_protocol.
#[local] Existing Instance example_state.
#[local] Existing Instance I256_checked.
#[local] Existing Instance KinetChainConfig_ChainConfig.
#[local] Existing Instance list_HashIter.

(** The second block checked again, at the wrong place. *)
Lemma coherency_check_total_witness :
  ∃ b1 b2 verdict state_read', example_chain = Some [b1; b2] ∧
    eth_check_coherency example_policy_start b2 [] example_root () KINET_DEVNET_CHAIN_CONFIG =
      Ret (verdict, state_read').
Proof.
  assert (Hex : match example_chain with
    | Some [b1; b2] => true | _ => false end = true) by (vm_compute; reflexivity).
  destruct example_chain as [chain|] eqn:Hchain; [|discriminate Hex].
  destruct chain as [|b1 [|b2 [|b3 chain]]]; [discriminate Hex..| |discriminate Hex].
  assert (Hv : validated KINET_DEVNET_CHAIN_CONFIG b2).
  { unfold example_chain in Hchain. destruct (extend [] 0) as [c1|] eqn:Hc1; [|discriminate Hchain].
    cbn [mbind option_bind] in Hchain. apply extend_Some in Hc1 as (b1' & _ & -> & _ & _).
    apply extend_Some in Hchain as (b2' & s' & Heq & Hv & _). cbn in Heq. injection Heq as <- <-. exact Hv. }
  destruct (coherency_check_total KINET_DEVNET_CHAIN_CONFIG 300000000 3 [] [] example_policy_start b2
    example_root ()) as (verdict & s' & Hcheck).
  - apply KinetChainConfig_ok; vm_compute; discriminate.
  - vm_compute. discriminate.
  - vm_compute. discriminate.
  - vm_compute. discriminate.
  - constructor.
  - reflexivity.
  - reflexivity.
  - apply example_reads.
  - exact Hv.
  - exists b1, b2, verdict, s'. split; [reflexivity|exact Hcheck].
Defined.
