(* ===== verification/BlockSync.v ===== *)
(** * Block synchronisation ([src/blocksync/src/blocksync.rs],
      [src/blocksync/src/messages/message.rs], [src/state/src/blocksync.rs])

    A node that misses blocks requests a range of headers and then the bodies
    of the range, first from its own ledger and then from a peer; the same
    state machine answers the requests of the peers from the block tree and the
    ledger.  This file holds the state and every handler; [BlockSyncSpec] proves
    them. *)
From S2P Require Import Prelude Types ValidatorSet EpochManager LeaderElection SignatureCollection.
From S2P Require Import Certificates Tree BlockTree.

(** ** Messages *)

#[global] Instance BlockRange_eq_dec : EqDecision BlockRange.
Proof. solve_decision. Defined.

#[global] Instance BlockRange_countable : Countable BlockRange.
Proof.
  apply (inj_countable' (λ r, (last_block_id r, num_blocks r))
           (λ p, {| last_block_id := p.1; num_blocks := p.2 |})).
  by intros [].
Defined.

Inductive BlockSyncRequestMessage :=
| Headers (range : BlockRange)
| Payload (payload_id : N).

#[global] Instance BlockSyncRequestMessage_eq_dec : EqDecision BlockSyncRequestMessage.
Proof. solve_decision. Defined.

#[global] Instance BlockSyncRequestMessage_countable : Countable BlockSyncRequestMessage.
Proof.
  apply (inj_countable' (λ r, match r with Headers b => inl b | Payload i => inr i end)
           (λ s, match s with inl b => Headers b | inr i => Payload i end)).
  by intros [].
Defined.

Inductive BlockSyncSelfRequester := Consensus | StateSync.

#[global] Instance BlockSyncSelfRequester_eq_dec : EqDecision BlockSyncSelfRequester.
Proof. solve_decision. Defined.

Definition BLOCKSYNC_MAX_NUM_HEADERS : N := 800.
Definition BLOCKSYNC_MAX_PAYLOAD_REQUESTS : N := 10.

(** [rand::seq::SliceRandom::choose]. *)
Class SliceRandom `{!SeedableRng} := {
  choose {A} : list A → rng → option A * rng;
  choose_nil {A} (g : rng) : (choose (@nil A) g).1 = None;
  choose_elem {A} (l : list A) g : l ≠ [] → ∃ x, (choose l g).1 = Some x ∧ x ∈ l;
}.

(** [x -= 1] on a [usize]. *)
Definition usize_pred (x : N) : N := ((x + u64_MAX) `mod` (u64_MAX + 1))%N.

Section messages.
Context `{Protocol}.

Inductive BlockSyncHeadersResponse :=
| HeadersFound (range : BlockRange) (headers : list ConsensusBlockHeader)
| HeadersNotAvailable (range : BlockRange).

Definition get_block_range (self : BlockSyncHeadersResponse) : BlockRange :=
  match self with
  | HeadersFound block_range _ => block_range
  | HeadersNotAvailable block_range => block_range
  end.

Inductive BlockSyncBodyResponse :=
| BodyFound (body : Body)
| BodyNotAvailable (payload_id : N).

Definition get_payload_id `{!Codec} (self : BlockSyncBodyResponse) : N :=
  match self with
  | BodyFound payload => body_get_id payload
  | BodyNotAvailable payload_id => payload_id
  end.

Inductive BlockSyncResponseMessage :=
| HeadersResponse (response : BlockSyncHeadersResponse)
| PayloadResponse (response : BlockSyncBodyResponse).

Inductive BlockSyncCommand :=
| SendRequest (to : PT) (request : BlockSyncRequestMessage)
| ScheduleTimeout (request : BlockSyncRequestMessage)
| ResetTimeout (request : BlockSyncRequestMessage)
| SendResponse (to : PT) (response : BlockSyncResponseMessage)
| FetchHeaders (range : BlockRange)
| FetchPayload (payload_id : N)
| Emit (requester : BlockSyncSelfRequester) (range : BlockRange)
    (full_blocks : list ConsensusFullBlock).

(** ** State *)

Record SelfRequest := {
  sr_requester : BlockSyncSelfRequester;
  sr_to : option PT;
}.

Record SelfCompletedHeader := {
  ch_requester : BlockSyncSelfRequester;
  ch_blocks : list (ConsensusBlockHeader * option Body);
  ch_payload_cache : gmap N Body;
}.

Record BlockSync `{!SeedableRng} := {
  headers_requests : gmap BlockRange (gmap PT (list ConsensusBlockHeader));
  payload_requests : gmap N (gmap PT ());
  self_headers_requests : gmap BlockRange SelfRequest;
  self_payload_requests : gmap N (option SelfRequest);
  self_payload_requests_in_flight : N;
  self_completed_headers_requests : gmap BlockRange SelfCompletedHeader;
  self_request_mode : BlockSyncSelfRequester;
  override_peers : list PT;
  self_node_id : PT;
  bs_rng : rng;
}.

(** [BlockSyncEvent] of [src/executor-glue/src/lib.rs]. *)
Inductive BlockSyncEvent :=
| SyncRequest (sender : PT) (request : BlockSyncRequestMessage)
| SyncResponse (sender : PT) (response : BlockSyncResponseMessage)
| SyncSelfRequest (requester : BlockSyncSelfRequester) (range : BlockRange)
| SyncSelfCancelRequest (requester : BlockSyncSelfRequester) (range : BlockRange)
| SyncSelfResponse (response : BlockSyncResponseMessage)
| SyncTimeout (request : BlockSyncRequestMessage).
End messages.

Section block_sync.
Context `{HC : Codec} `{!BlockPolicy, !HashIter, !U256Ops, !SeedableRng, !SliceRandom}.

Inductive BlockCache :=
| CacheBlockTree (blocktree : BlockTree)
| CacheBlockBuffer (payload_cache : gmap N Body).

(** What the wrapper borrows besides the state. *)
Record BlockSyncWrapper := {
  block_cache : BlockCache;
  bs_nodeid : PT;
  bs_current_epoch : Epoch;
  bs_val_epoch_map : ValidatorsEpochMapping PT CPK;
  secondary_raptorcast_peers : gmap PT Round;
}.

(** Field updates. *)
Definition put_headers_requests (m : gmap BlockRange (gmap PT (list ConsensusBlockHeader)))
    (self : BlockSync) : BlockSync :=
  {| headers_requests := m; payload_requests := payload_requests self;
     self_headers_requests := self_headers_requests self;
     self_payload_requests := self_payload_requests self;
     self_payload_requests_in_flight := self_payload_requests_in_flight self;
     self_completed_headers_requests := self_completed_headers_requests self;
     self_request_mode := self_request_mode self; override_peers := override_peers self;
     self_node_id := self_node_id self; bs_rng := bs_rng self |}.

Definition put_payload_requests (m : gmap N (gmap PT ())) (self : BlockSync) : BlockSync :=
  {| headers_requests := headers_requests self; payload_requests := m;
     self_headers_requests := self_headers_requests self;
     self_payload_requests := self_payload_requests self;
     self_payload_requests_in_flight := self_payload_requests_in_flight self;
     self_completed_headers_requests := self_completed_headers_requests self;
     self_request_mode := self_request_mode self; override_peers := override_peers self;
     self_node_id := self_node_id self; bs_rng := bs_rng self |}.

Definition put_self_headers (m : gmap BlockRange SelfRequest) (self : BlockSync) : BlockSync :=
  {| headers_requests := headers_requests self; payload_requests := payload_requests self;
     self_headers_requests := m;
     self_payload_requests := self_payload_requests self;
     self_payload_requests_in_flight := self_payload_requests_in_flight self;
     self_completed_headers_requests := self_completed_headers_requests self;
     self_request_mode := self_request_mode self; override_peers := override_peers self;
     self_node_id := self_node_id self; bs_rng := bs_rng self |}.

Definition put_self_payloads (m : gmap N (option SelfRequest)) (in_flight : N) (self : BlockSync) :
    BlockSync :=
  {| headers_requests := headers_requests self; payload_requests := payload_requests self;
     self_headers_requests := self_headers_requests self;
     self_payload_requests := m;
     self_payload_requests_in_flight := in_flight;
     self_completed_headers_requests := self_completed_headers_requests self;
     self_request_mode := self_request_mode self; override_peers := override_peers self;
     self_node_id := self_node_id self; bs_rng := bs_rng self |}.

Definition put_completed (m : gmap BlockRange SelfCompletedHeader) (self : BlockSync) : BlockSync :=
  {| headers_requests := headers_requests self; payload_requests := payload_requests self;
     self_headers_requests := self_headers_requests self;
     self_payload_requests := self_payload_requests self;
     self_payload_requests_in_flight := self_payload_requests_in_flight self;
     self_completed_headers_requests := m;
     self_request_mode := self_request_mode self; override_peers := override_peers self;
     self_node_id := self_node_id self; bs_rng := bs_rng self |}.

Definition put_rng (g : rng) (self : BlockSync) : BlockSync :=
  {| headers_requests := headers_requests self; payload_requests := payload_requests self;
     self_headers_requests := self_headers_requests self;
     self_payload_requests := self_payload_requests self;
     self_payload_requests_in_flight := self_payload_requests_in_flight self;
     self_completed_headers_requests := self_completed_headers_requests self;
     self_request_mode := self_request_mode self; override_peers := override_peers self;
     self_node_id := self_node_id self; bs_rng := g |}.

Definition set_override_peers (override_peers_inc_self : list PT) (self : BlockSync) : BlockSync :=
  {| headers_requests := headers_requests self; payload_requests := payload_requests self;
     self_headers_requests := self_headers_requests self;
     self_payload_requests := self_payload_requests self;
     self_payload_requests_in_flight := self_payload_requests_in_flight self;
     self_completed_headers_requests := self_completed_headers_requests self;
     self_request_mode := self_request_mode self;
     override_peers := filter (λ peer, peer ≠ self_node_id self) override_peers_inc_self;
     self_node_id := self_node_id self; bs_rng := bs_rng self |}.

(** [BlockSync::new]; [entropy] is the generator of [from_entropy]. *)
Definition BlockSync_new (override_peers_inc_self : list PT) (node : PT)
    (maybe_rng_seed : option N) (entropy : rng) : BlockSync :=
  set_override_peers override_peers_inc_self
    {| headers_requests := ∅; payload_requests := ∅; self_headers_requests := ∅;
       self_payload_requests := ∅; self_payload_requests_in_flight := 0;
       self_completed_headers_requests := ∅; self_request_mode := StateSync;
       override_peers := []; self_node_id := node;
       bs_rng := match maybe_rng_seed with
                 | None => entropy
                 | Some seed => seed_from_u64 seed
                 end |}.

Definition clear_self_requests (self : BlockSync) : BlockSync :=
  put_completed ∅ (put_self_payloads ∅ 0 (put_self_headers ∅ self)).

Definition set_self_request_mode (mode : BlockSyncSelfRequester) (self : BlockSync) : BlockSync :=
  {| headers_requests := headers_requests self; payload_requests := payload_requests self;
     self_headers_requests := self_headers_requests self;
     self_payload_requests := self_payload_requests self;
     self_payload_requests_in_flight := self_payload_requests_in_flight self;
     self_completed_headers_requests := self_completed_headers_requests self;
     self_request_mode := mode; override_peers := override_peers self;
     self_node_id := self_node_id self; bs_rng := bs_rng self |}.

Definition self_request_exists (self : BlockSync) (block_range : BlockRange) : bool :=
  bool_decide (is_Some (self_headers_requests self !! block_range)) ||
  bool_decide (is_Some (self_completed_headers_requests self !! block_range)).

(** ** The node's own requests *)

Definition handle_self_request (self : BlockSync) (requester : BlockSyncSelfRequester)
    (block_range : BlockRange) : list BlockSyncCommand * BlockSync :=
  if decide (num_blocks block_range = 0)%N then ([], self)
  else
    let self :=
      if decide (requester ≠ self_request_mode self)
      then set_self_request_mode requester (clear_self_requests self)
      else self in
    if self_request_exists self block_range then ([], self)
    else
      ([FetchHeaders block_range],
       put_self_headers
         (<[block_range := {| sr_requester := requester; sr_to := None |}]>
            (self_headers_requests self)) self).

Definition handle_self_cancel_request (self : BlockSync) (requester : BlockSyncSelfRequester)
    (block_range : BlockRange) : BlockSync :=
  let self :=
    match self_headers_requests self !! block_range with
    | Some r => if decide (sr_requester r = requester)
                then put_self_headers (delete block_range (self_headers_requests self)) self
                else self
    | None => self
    end in
  match self_completed_headers_requests self !! block_range with
  | Some c => if decide (ch_requester c = requester)
              then put_completed (delete block_range (self_completed_headers_requests self)) self
              else self
  | None => self
  end.

(** ** Choosing a peer *)

(** The generator after the draws of [randomize_loop]. *)
Fixpoint randomize_rng (fuel : nat) (gen : rng) (max : N) : rng :=
  match fuel with
  | 0 => gen
  | S fuel =>
      let '(bytes, gen) := fill_bytes 32 gen in
      if decide (from_le_bytes bytes ≤ max)%N then gen else randomize_rng fuel gen max
  end.

(** [fuel] bounds the rejected draws: a call that rejects more of them has no
    value. *)
Definition choose_weighted (fuel : nat) (validators : list (PT * Stake)) (gen : rng) :
    run (PT * rng) :=
  picked ← generate_random_validator_with_randomizer validators (randomize_256_with_rng fuel gen);
  node ← expect picked;
  Ret (node, randomize_rng fuel gen (rejection_max (stake_bounds validators 0%N).2)).

Definition pick_peer (fuel : nat) (env : BlockSyncWrapper) (overrides : list PT) (g : rng) :
    run (option PT * rng) :=
  if decide (overrides ≠ []) then Ret (choose overrides g)
  else
    validators ← expect (get_val_set (bs_val_epoch_map env) (bs_current_epoch env));
    let validators := get_members validators in
    if negb (bool_decide (is_Some (validators !! bs_nodeid env))) then
      Ret (choose (btree_keys (secondary_raptorcast_peers env)) g)
    else
      let members := filter (λ p, p.1 ≠ bs_nodeid env) (btree_iter validators) in
      assert (members ≠ []) ≫= λ _,
      '(node, g) ← choose_weighted fuel members g;
      Ret (Some node, g).

(** ** Headers *)

Fixpoint headers_linked (block_headers : list ConsensusBlockHeader) : bool :=
  match block_headers with
  | parent_block_header :: (block_header :: _) as rest =>
      bool_decide (get_id parent_block_header = get_parent_id block_header) && headers_linked rest
  | _ => true
  end.

Definition verify_block_headers (block_range : BlockRange)
    (block_headers : list ConsensusBlockHeader) : run bool :=
  if decide (N.of_nat (length block_headers) ≠ num_blocks block_range) then Ret false
  else
    last_header ← expect (last block_headers);
    if decide (last_block_id block_range ≠ get_id last_header) then Ret false
    else Ret (headers_linked block_headers).

(** ** Payloads *)

Definition get_cached_payload (env : BlockSyncWrapper) (self : BlockSync) (payload_id : N) :
    option Body :=
  match (match block_cache env with
         | CacheBlockBuffer full_blocks => full_blocks !! payload_id
         | CacheBlockTree blocktree => tree_get_payload (bt_tree blocktree) payload_id
         end) with
  | Some payload => Some payload
  | None =>
      head (omap (λ c, ch_payload_cache c !! payload_id)
              (hash_iter (self_completed_headers_requests self)).*2)
  end.

(** The loop over the blocks of one range that wait for the payload. *)
Definition fill_completed (payload_id : N) (payload : Body) (completed_header : SelfCompletedHeader) :
    SelfCompletedHeader :=
  {| ch_requester := ch_requester completed_header;
     ch_blocks :=
       map (λ p : ConsensusBlockHeader * option Body,
              if decide (block_body_id p.1 = payload_id ∧ p.2 = None)
              then (p.1, Some payload) else p)
         (ch_blocks completed_header);
     ch_payload_cache :=
       if existsb (λ p : ConsensusBlockHeader * option Body,
                     bool_decide (block_body_id p.1 = payload_id ∧ p.2 = None))
            (ch_blocks completed_header)
       then <[payload_id := payload]> (ch_payload_cache completed_header)
       else ch_payload_cache completed_header |}.

Definition fill_ranges (payload_id : N) (payload : Body) (self : BlockSync) : BlockSync :=
  put_completed (fill_completed payload_id payload <$> self_completed_headers_requests self) self.

(** ** handle_completed_ranges *)

Definition range_complete (completed_header : SelfCompletedHeader) : bool :=
  forallb (λ p, bool_decide (is_Some p.2)) (ch_blocks completed_header).

Definition completed_ranges (self : BlockSync) : list BlockRange :=
  (filter (λ p, range_complete p.2 = true) (hash_iter (self_completed_headers_requests self))).*1.

Fixpoint full_blocks_of (blocks : list (ConsensusBlockHeader * option Body)) :
    run (list ConsensusFullBlock) :=
  match blocks with
  | [] => Ret []
  | (block, payload) :: blocks =>
      payload ← expect payload;
      match ConsensusFullBlock_new block payload with
      | Err _ => Panic
      | Ok full_block =>
          full_blocks ← full_blocks_of blocks;
          Ret (full_block :: full_blocks)
      end
  end.

Fixpoint emit_ranges (ranges : list BlockRange) (self : BlockSync) :
    run (list BlockSyncCommand * BlockSync) :=
  match ranges with
  | [] => Ret ([], self)
  | completed_range :: ranges =>
      completed_header ← expect (self_completed_headers_requests self !! completed_range);
      let self := put_completed (delete completed_range (self_completed_headers_requests self)) self in
      full_blocks ← full_blocks_of (ch_blocks completed_header);
      '(cmds, self) ← emit_ranges ranges self;
      Ret (Emit (ch_requester completed_header) completed_range full_blocks :: cmds, self)
  end.

Definition handle_completed_ranges (self : BlockSync) : run (list BlockSyncCommand * BlockSync) :=
  emit_ranges (completed_ranges self) self.

(** ** try_initiate_payload_requests_for_self *)

(** The first loop: requests whose payload is cached by now. *)
Fixpoint hydrate_payloads (env : BlockSyncWrapper) (payload_ids_to_request : list N)
    (self : BlockSync) : run (list BlockSyncCommand * BlockSync) :=
  match payload_ids_to_request with
  | [] => Ret ([], self)
  | payload_id :: payload_ids_to_request =>
      match get_cached_payload env self payload_id with
      | None => hydrate_payloads env payload_ids_to_request self
      | Some payload =>
          maybe_request ← expect (self_payload_requests self !! payload_id);
          let requests := delete payload_id (self_payload_requests self) in
          let in_flight := self_payload_requests_in_flight self in
          let '(reset, self) :=
            match maybe_request with
            | Some request =>
                (if decide (is_Some (sr_to request)) then [ResetTimeout (Payload payload_id)] else [],
                 put_self_payloads requests (usize_pred in_flight) self)
            | None => ([], put_self_payloads requests in_flight self)
            end in
          '(cmds, self) ← hydrate_payloads env payload_ids_to_request
                            (fill_ranges payload_id payload self);
          Ret (reset ++ cmds, self)
      end
  end.

(** The [while] loop that starts requests; each turn starts one, so it runs at
    most [BLOCKSYNC_MAX_PAYLOAD_REQUESTS] times. *)
Fixpoint initiate_payloads (fuel : nat) (self : BlockSync) :
    run (list BlockSyncCommand * BlockSync) :=
  match fuel with
  | 0 => Panic
  | S fuel =>
      if decide (self_payload_requests_in_flight self < BLOCKSYNC_MAX_PAYLOAD_REQUESTS)%N then
        match find_first (λ p : N * option SelfRequest, bool_decide (p.2 = None))
                (hash_iter (self_payload_requests self)) with
        | None => Ret ([], self)
        | Some (payload_id, _) =>
            let req := {| sr_requester := self_request_mode self; sr_to := None |} in
            '(cmds, self) ← initiate_payloads fuel
              (put_self_payloads (<[payload_id := Some req]> (self_payload_requests self))
                 (self_payload_requests_in_flight self + 1)%N self);
            Ret (FetchPayload payload_id :: cmds, self)
        end
      else Ret ([], self)
  end.

Definition initiate_fuel : nat := S (N.to_nat BLOCKSYNC_MAX_PAYLOAD_REQUESTS).

Definition try_initiate_payload_requests_for_self (env : BlockSyncWrapper) (self : BlockSync) :
    run (list BlockSyncCommand * BlockSync) :=
  '(hydrated, self) ← hydrate_payloads env (hash_iter (self_payload_requests self)).*1 self;
  '(initiated, self) ← initiate_payloads initiate_fuel self;
  '(completed, self) ← handle_completed_ranges self;
  Ret (hydrated ++ initiated ++ completed, self).

(** ** Responses to the node's own requests *)

Section handlers.
Context (fuel : nat) (env : BlockSyncWrapper).

(** The entries added for the payloads of a verified range. *)
Definition add_payload_requests (block_headers : list ConsensusBlockHeader)
    (requests : gmap N (option SelfRequest)) : gmap N (option SelfRequest) :=
  foldl (λ requests h,
           match requests !! block_body_id h with
           | None => <[block_body_id h := None]> requests
           | Some _ => requests
           end) requests block_headers.

(** The peer a request goes to next, with the commands that send it. *)
Definition request_from_peer (self : BlockSync) (request : BlockSyncRequestMessage) :
    run (option PT * list BlockSyncCommand * BlockSync) :=
  '(maybe_to, g) ← pick_peer fuel env (override_peers self) (bs_rng self);
  Ret (maybe_to,
       match maybe_to with Some to => [SendRequest to request] | None => [] end ++
       [ScheduleTimeout request],
       put_rng g self).

Definition set_headers_to (block_range : BlockRange) (self_request : SelfRequest)
    (maybe_to : option PT) (self : BlockSync) : BlockSync :=
  put_self_headers
    (<[block_range := {| sr_requester := sr_requester self_request; sr_to := maybe_to |}]>
       (self_headers_requests self)) self.

Definition set_payload_to (payload_id : N) (self_request : SelfRequest)
    (maybe_to : option PT) (self : BlockSync) : BlockSync :=
  put_self_payloads
    (<[payload_id := Some {| sr_requester := sr_requester self_request; sr_to := maybe_to |}]>
       (self_payload_requests self))
    (self_payload_requests_in_flight self) self.

Definition handle_headers_response_for_self (self : BlockSync) (sender : option PT)
    (headers_response : BlockSyncHeadersResponse) : run (list BlockSyncCommand * BlockSync) :=
  match self_headers_requests self !! get_block_range headers_response with
  | None => Ret ([], self)
  | Some self_request =>
      '(cmds, self) ←
        match headers_response with
        | HeadersFound block_range block_headers =>
            assert (sr_requester self_request = self_request_mode self) ≫= λ _,
            verified ← verify_block_headers block_range block_headers;
            if verified : bool then
              Ret (match sender with
                   | Some _ => [ResetTimeout (Headers block_range)]
                   | None => []
                   end,
                   put_completed
                     (<[block_range :=
                          {| ch_requester := self_request_mode self;
                             ch_blocks := (λ block, (block, None)) <$> block_headers;
                             ch_payload_cache := ∅ |}]> (self_completed_headers_requests self))
                     (put_self_payloads
                        (add_payload_requests block_headers (self_payload_requests self))
                        (self_payload_requests_in_flight self)
                        (put_self_headers (delete block_range (self_headers_requests self)) self)))
            else assert (is_Some sender) ≫= λ _, Ret ([], self)
        | HeadersNotAvailable block_range =>
            match sender, sr_to self_request with
            | None, None =>
                '(maybe_to, cmds, self) ← request_from_peer self (Headers block_range);
                Ret (cmds, set_headers_to block_range self_request maybe_to self)
            | _, _ => Ret ([], self)
            end
        end;
      '(initiated, self) ← try_initiate_payload_requests_for_self env self;
      Ret (cmds ++ initiated, self)
  end.

Definition handle_payload_response_for_self (self : BlockSync) (sender : option PT)
    (payload_response : BlockSyncBodyResponse) : run (list BlockSyncCommand * BlockSync) :=
  let payload_id := get_payload_id payload_response in
  match self_payload_requests self !! payload_id with
  | None => Ret ([], self)
  | Some None => Ret ([], self)
  | Some (Some self_request) =>
      '(cmds, self) ←
        match payload_response with
        | BodyFound payload =>
            assert (sr_requester self_request = self_request_mode self) ≫= λ _,
            Ret (match sender with
                 | Some _ => [ResetTimeout (Payload payload_id)]
                 | None => []
                 end,
                 fill_ranges payload_id payload
                   (put_self_payloads (delete payload_id (self_payload_requests self))
                      (usize_pred (self_payload_requests_in_flight self)) self))
        | BodyNotAvailable payload_id =>
            match sender, sr_to self_request with
            | None, None =>
                '(maybe_to, cmds, self) ← request_from_peer self (Payload payload_id);
                Ret (cmds, set_payload_to payload_id self_request maybe_to self)
            | _, _ => Ret ([], self)
            end
        end;
      '(completed, self) ← handle_completed_ranges self;
      '(initiated, self) ← try_initiate_payload_requests_for_self env self;
      Ret (cmds ++ completed ++ initiated, self)
  end.

(** ** Requests of peers *)

Definition cached_headers (block_range : BlockRange) : run (list ConsensusBlockHeader) :=
  match block_cache env with
  | CacheBlockTree blocktree =>
      chain ← get_parent_block_chain blocktree (last_block_id block_range);
      Ret (reverse (take (N.to_nat (num_blocks block_range))
                      (reverse ((λ b, header (deref b)) <$> chain))))
  | CacheBlockBuffer _ => Ret []
  end.

Definition handle_peer_request (self : BlockSync) (sender : PT) (request : BlockSyncRequestMessage) :
    run (list BlockSyncCommand * BlockSync) :=
  match request with
  | Headers block_range =>
      if decide (num_blocks block_range = 0)%N then Ret ([], self)
      else
        cached_blocks ← cached_headers block_range;
        if decide (N.of_nat (length cached_blocks) = num_blocks block_range) then
          assert (Some (last_block_id block_range) = get_id <$> last cached_blocks) ≫= λ _,
          Ret ([SendResponse sender (HeadersResponse (HeadersFound block_range cached_blocks))], self)
        else
          let last_block_id_to_fetch :=
            match head cached_blocks with
            | Some block => get_parent_id block
            | None => last_block_id block_range
            end in
          fetch_num ← SeqNum_sub (num_blocks block_range) (N.of_nat (length cached_blocks));
          let ledger_fetch_range :=
            {| last_block_id := last_block_id_to_fetch; num_blocks := fetch_num |} in
          let entry := default ∅ (headers_requests self !! ledger_fetch_range) in
          Ret ([FetchHeaders ledger_fetch_range],
               put_headers_requests
                 (<[ledger_fetch_range := <[sender := cached_blocks]> entry]>
                    (headers_requests self)) self)
  | Payload payload_id =>
      match get_cached_payload env self payload_id with
      | Some cached_payload =>
          Ret ([SendResponse sender (PayloadResponse (BodyFound cached_payload))], self)
      | None =>
          let entry := default ∅ (payload_requests self !! payload_id) in
          Ret ([FetchPayload payload_id],
               put_payload_requests
                 (<[payload_id := <[sender := ()]> entry]> (payload_requests self)) self)
      end
  end.

(** ** Responses of the ledger and of peers *)

(** The loop over the peers that asked for a range: the cached blocks follow
    the fetched ones. *)
Fixpoint reply_headers (headers_response : BlockSyncHeadersResponse)
    (requesters : list (PT * list ConsensusBlockHeader)) : run (list BlockSyncCommand) :=
  match requesters with
  | [] => Ret []
  | (requester, cached_blocks) :: requesters =>
      let block_range := get_block_range headers_response in
      requested_num ← SeqNum_add (num_blocks block_range) (N.of_nat (length cached_blocks));
      let requested_block_range :=
        {| last_block_id := match last cached_blocks with
                            | Some block => get_id block
                            | None => last_block_id block_range
                            end;
           num_blocks := requested_num |} in
      response ←
        match headers_response with
        | HeadersFound _ requested_blocks =>
            let requested_blocks := requested_blocks ++ cached_blocks in
            assert (headers_linked requested_blocks = true) ≫= λ _,
            Ret (HeadersFound requested_block_range requested_blocks)
        | HeadersNotAvailable _ => Ret (HeadersNotAvailable requested_block_range)
        end;
      cmds ← reply_headers headers_response requesters;
      Ret (SendResponse requester (HeadersResponse response) :: cmds)
  end.

Definition handle_ledger_response (self : BlockSync) (response : BlockSyncResponseMessage) :
    run (list BlockSyncCommand * BlockSync) :=
  match response with
  | HeadersResponse headers_response =>
      let block_range := get_block_range headers_response in
      let requesters := default ∅ (headers_requests self !! block_range) in
      let self := put_headers_requests (delete block_range (headers_requests self)) self in
      replies ← reply_headers headers_response (btree_iter requesters);
      '(cmds, self) ← handle_headers_response_for_self self None headers_response;
      Ret (replies ++ cmds, self)
  | PayloadResponse payload_response =>
      let payload_id := get_payload_id payload_response in
      let requesters := default ∅ (payload_requests self !! payload_id) in
      let self := put_payload_requests (delete payload_id (payload_requests self)) self in
      let replies :=
        (λ requester, SendResponse requester (PayloadResponse payload_response)) <$>
          btree_keys requesters in
      '(cmds, self) ← handle_payload_response_for_self self None payload_response;
      Ret (replies ++ cmds, self)
  end.

Definition handle_peer_response (self : BlockSync) (sender : PT)
    (response : BlockSyncResponseMessage) : run (list BlockSyncCommand * BlockSync) :=
  match response with
  | HeadersResponse headers_response =>
      handle_headers_response_for_self self (Some sender) headers_response
  | PayloadResponse payload_response =>
      handle_payload_response_for_self self (Some sender) payload_response
  end.

Definition handle_timeout (self : BlockSync) (request : BlockSyncRequestMessage) :
    run (list BlockSyncCommand * BlockSync) :=
  match request with
  | Headers block_range =>
      match self_headers_requests self !! block_range with
      | None => Ret ([], self)
      | Some self_request =>
          '(maybe_to, cmds, self) ← request_from_peer self (Headers block_range);
          Ret (cmds, set_headers_to block_range self_request maybe_to self)
      end
  | Payload payload_id =>
      match self_payload_requests self !! payload_id with
      | None => Ret ([], self)
      | Some None => Ret ([], self)
      | Some (Some self_request) =>
          '(maybe_to, cmds, self) ← request_from_peer self (Payload payload_id);
          Ret (cmds, set_payload_to payload_id self_request maybe_to self)
      end
  end.

(** [BlockSyncChildState::update]. *)
Definition sync_update (self : BlockSync) (event : BlockSyncEvent) :
    run (list BlockSyncCommand * BlockSync) :=
  match event with
  | SyncRequest sender request => handle_peer_request self sender request
  | SyncSelfRequest requester block_range => Ret (handle_self_request self requester block_range)
  | SyncSelfCancelRequest requester block_range =>
      Ret ([], handle_self_cancel_request self requester block_range)
  | SyncSelfResponse response => handle_ledger_response self response
  | SyncResponse sender response => handle_peer_response self sender response
  | SyncTimeout request => handle_timeout self request
  end.
End handlers.
End block_sync.
