(* ===== verification/BlockSyncSpec.v ===== *)
(** * Block synchronisation is correct

    Two theorems about the state machine of [BlockSync].  In every state it can
    reach, whatever the peers send, no handler panics and every block range it
    hands out is the hash chain that was requested ([blocksync_serves_requests]):
    the abstract state is the set of live ranges, and each emission takes one
    range out of it.  And no request is forgotten ([blocksync_never_stalls]):
    each live range waits for a ledger answer or a timer, directly or behind the
    limit of concurrent payload requests. *)
From S2P Require Import Prelude Types ValidatorSet EpochManager LeaderElection SignatureCollection.
From S2P Require Import Certificates Tree BlockTree BlockSync.

(** ** Counting the initiated payload requests *)

Definition initiated `{Protocol} (m : gmap N (option SelfRequest)) : nat :=
  size (filter (λ p, is_Some p.2) m).

Section counting.
Context `{Protocol}.
Implicit Types m : gmap N (option SelfRequest).

Lemma initiated_delete m i q :
  m !! i = Some q →
  initiated m = initiated (delete i m) + (if decide (is_Some q) then 1 else 0).
Proof.
  intros Hi. unfold initiated. rewrite map_filter_delete. case_decide as Hq.
  - rewrite map_size_delete_Some; [|exists q; by apply map_lookup_filter_Some].
    assert (size (filter (λ p, is_Some p.2) m) ≠ 0); [|lia].
    apply map_size_non_empty_iff. intros Hz.
    assert (filter (λ p, is_Some p.2) m !! i = Some q) as Hs by by apply map_lookup_filter_Some.
    by rewrite Hz, lookup_empty in Hs.
  - rewrite map_size_delete_None; [lia|]. apply map_lookup_filter_None. right.
    intros q' Hq' [x Hx]. cbn in Hx. rewrite Hi in Hq'. simplify_eq. eauto.
Qed.

Lemma initiated_insert m i q :
  initiated (<[i := q]> m) = initiated (delete i m) + (if decide (is_Some q) then 1 else 0).
Proof.
  rewrite (initiated_delete (<[i := q]> m) i q) by apply lookup_insert_eq.
  by rewrite delete_insert_eq.
Qed.

Lemma initiated_empty : initiated ∅ = 0.
Proof. done. Qed.
End counting.

(** ** Hash chains *)

Section chains.
Context `{HC : Codec}.

(** [hs] is the chain of headers a range names. *)
Definition chain_of (r : BlockRange) (hs : list ConsensusBlockHeader) : Prop :=
  N.of_nat (length hs) = num_blocks r ∧ get_id <$> last hs = Some (last_block_id r) ∧
  headers_linked hs = true.

Lemma headers_linked_app l1 l2 :
  headers_linked (l1 ++ l2) = true ↔
  headers_linked l1 = true ∧ headers_linked l2 = true ∧
  ∀ a b, last l1 = Some a → head l2 = Some b → get_id a = get_parent_id b.
Proof.
  induction l1 as [|x [|y l1] IH]; cbn [app].
  - split; [by intros|]. by intros (_ & ? & _).
  - destruct l2 as [|z l2]; cbn; [split; [done|by intros]|].
    rewrite andb_true_iff, bool_decide_eq_true. naive_solver.
  - cbn [headers_linked app] in IH |- *. rewrite andb_true_iff, IH, andb_true_iff.
    change (last (x :: y :: l1)) with (last (y :: l1)). tauto.
Qed.

Lemma verify_block_headers_chain r hs :
  verify_block_headers r hs = Ret true ↔ chain_of r hs.
Proof.
  unfold verify_block_headers, chain_of. case_decide as Hl.
  { split; [done|]. by intros (? & _). }
  destruct (last hs) as [h|]; cbn.
  - case_decide as Hi; [|rewrite Hi].
    + split; [done|]. intros (_ & [= ?] & _). congruence.
    + split; [intros [= ?]; done|]. by intros (_ & _ & ->).
  - split; [done|]. by intros (_ & ? & _).
Qed.

Lemma verify_block_headers_total r hs :
  num_blocks r ≠ 0%N → ∃ b, verify_block_headers r hs = Ret b.
Proof.
  unfold verify_block_headers. intros Hz. case_decide as Hl; [eauto|].
  destruct (last hs) as [h|] eqn:Hh; cbn; [case_decide; eauto|].
  apply last_None in Hh as ->. cbn in Hl. lia.
Qed.

(** A chain fetched below a cached one. *)
Lemma chain_of_app r hs cached :
  chain_of r hs → headers_linked cached = true →
  (∀ h, head cached = Some h → get_parent_id h = last_block_id r) →
  headers_linked (hs ++ cached) = true.
Proof.
  intros (_ & Hl & Hh) Hc Hp. apply headers_linked_app. split_and!; [done|done|].
  intros a b Ha Hb. rewrite Ha in Hl. cbn in Hl. rewrite (Hp b Hb). congruence.
Qed.
End chains.

Section spec.
Context `{HC : Codec} `{!BlockPolicy, !HashIter, !U256Ops, !SeedableRng, !SliceRandom}.

(** ** The environment of a handler *)

Definition cache_ok (c : BlockCache) : Prop :=
  match c with
  | CacheBlockTree t => ∃ round_of, bt_ok round_of t
  | CacheBlockBuffer m => ∀ id b, m !! id = Some b → body_get_id b = id
  end.

(** The stake a validator can choose from: that of the others. *)
Definition others_stake (env : BlockSyncWrapper) (vs : ValidatorSet PT) : N :=
  nsum (filter (λ p, p.1 ≠ bs_nodeid env) (btree_iter (get_members vs))).*2.

(** The validators of the current epoch are known; a validator is not alone;
    the generator accepts one of its first [fuel] draws. *)
Record env_ok (fuel : nat) (env : BlockSyncWrapper) : Prop := {
  env_cache : cache_ok (block_cache env);
  env_validators : ∃ vs,
    get_val_set (bs_val_epoch_map env) (bs_current_epoch env) = Some vs ∧
    (is_Some (get_members vs !! bs_nodeid env) → (0 < others_stake env vs ≤ u256_MAX)%N);
  env_draws g m : (0 < m ≤ u256_MAX)%N → is_Some (randomize_loop fuel g (rejection_max m) m);
}.

Lemma pick_peer_total fuel env overrides g :
  env_ok fuel env → ∃ x, pick_peer fuel env overrides g = Ret x.
Proof.
  intros [_ (vs & Hvs & Hst) Hdraw]. unfold pick_peer. case_decide; [eauto|].
  rewrite Hvs. cbn [expect mbind run_bind]. case_bool_decide as Hv; cbn [negb]; [|eauto].
  specialize (Hst Hv). unfold others_stake in Hst.
  set (members := filter _ _) in *. destruct (decide (members = [])) as [He|He].
  { rewrite He in Hst. cbn in Hst. lia. }
  rewrite assert_true by done. cbn [mbind run_bind]. unfold choose_weighted.
  rewrite generate_random_validator_spec; [|done|].
  - destruct (Hdraw g (nsum members.*2) Hst) as [i Hi]. unfold randomize_256_with_rng.
    rewrite decide_False by lia. rewrite Hi. cbn [mbind run_bind option_bind].
    destruct (owner_of_total members i) as [v ->]; [|cbn; eauto].
    eapply randomize_loop_bound; [|done]. lia.
  - intros i. unfold randomize_256_with_rng. rewrite decide_False by lia. intros [= Hi].
    eapply randomize_loop_bound; [|done]. lia.
Qed.

(** The walk of [get_parent_block_chain] ends, and its headers are linked. *)
Lemma chain_loop_spec round_of t fuel b chain :
  bt_ok round_of t → below round_of t (blk_get_parent_id (deref b)) < fuel →
  last chain = Some b → headers_linked ((λ b, header (deref b)) <$> reverse chain) = true →
  ∃ chain', chain_loop fuel t b chain = Ret chain' ∧ head chain' = head chain ∧
    headers_linked ((λ b, header (deref b)) <$> reverse chain') = true.
Proof.
  intros Ht. revert b chain. induction fuel as [|fuel IH]; intros b chain Hf Hl Hc; [lia|].
  cbn [chain_loop]. destruct (get_entry t (blk_get_parent_id (deref b))) as [e|] eqn:He; [|eauto].
  destruct (ok_block _ t Ht _ _ He) as (Hid & _ & _).
  destruct (IH (validated_block e) (chain ++ [validated_block e])) as (chain' & -> & Hh & Hc').
  - pose proof (below_parent _ t Ht _ _ He). unfold entry_block in *. lia.
  - apply last_snoc.
  - rewrite reverse_app, fmap_app. apply headers_linked_app. split_and!; [done|done|].
    intros x y [= <-] Hy. destruct chain as [|c chain _] using rev_ind; [done|].
    rewrite last_snoc in Hl. injection Hl as ->. rewrite reverse_snoc in Hy. injection Hy as <-.
    exact Hid.
  - exists chain'. split_and!; [done| |done]. rewrite Hh. by destruct chain.
Qed.

Lemma get_parent_block_chain_spec round_of t id :
  bt_ok round_of t →
  ∃ chain, get_parent_block_chain t id = Ret chain ∧
    headers_linked ((λ b, header (deref b)) <$> chain) = true ∧
    (chain ≠ [] → vb_id <$> last chain = Some id).
Proof.
  intros Ht. unfold get_parent_block_chain. destruct (get_entry t id) as [e|] eqn:He.
  2: { exists []. by split_and!. }
  destruct (chain_loop_spec round_of t (fuel_of t) (validated_block e) [validated_block e])
    as (chain & -> & Hh & Hc); [done|apply below_fuel|done|done|].
  cbn [mbind run_bind]. eexists. split_and!; [done|done|]. intros _.
  destruct chain as [|c chain]; [done|]. injection Hh as ->. rewrite reverse_cons, last_snoc. cbn.
  f_equal. by apply (ok_block _ t Ht).
Qed.

Lemma cached_headers_spec fuel env r :
  env_ok fuel env →
  ∃ cached, cached_headers env r = Ret cached ∧ headers_linked cached = true ∧
    (N.of_nat (length cached) ≤ num_blocks r)%N ∧
    (cached ≠ [] → get_id <$> last cached = Some (last_block_id r)).
Proof.
  intros [Hc _ _]. unfold cached_headers. destruct (block_cache env) as [t|m]; cbn in Hc.
  2: { exists []. split_and!; [done|done|cbn; lia|done]. }
  destruct Hc as [round_of Ht].
  destruct (get_parent_block_chain_spec round_of t (last_block_id r) Ht) as (chain & -> & Hl & Hlast).
  cbn [mbind run_bind]. eexists. split; [done|]. set (hs := _ <$> chain) in *.
  assert (∀ k, reverse (take k (reverse hs)) = drop (length hs - k) hs) as ->.
  { intros k. rewrite take_reverse. by rewrite reverse_involutive. }
  split_and!.
  - rewrite <- (take_drop (length hs - N.to_nat (num_blocks r)) hs) in Hl.
    apply headers_linked_app in Hl as (_ & ? & _). done.
  - rewrite length_drop. lia.
  - intros Hne. assert (last hs = last (drop (length hs - N.to_nat (num_blocks r)) hs)) as <-.
    { rewrite <- (take_drop (length hs - N.to_nat (num_blocks r)) hs) at 1.
      destruct (drop _ hs) as [|h l _] using rev_ind; [done|].
      by rewrite (assoc_L (++)), !last_snoc. }
    unfold hs. rewrite fmap_last. destruct chain as [|c chain]; [by destruct Hne; apply drop_nil|].
    rewrite <- Hlast by done. by destruct (last (c :: chain)).
Qed.

(** ** The invariant *)

Implicit Types (bs : BlockSync) (cmds : list BlockSyncCommand).

(** The range a peer asked for, from the part left to the ledger. *)
Definition requested_range (r : BlockRange) (cached : list ConsensusBlockHeader) : BlockRange :=
  {| last_block_id := match last cached with
                      | Some block => get_id block
                      | None => last_block_id r
                      end;
     num_blocks := (num_blocks r + N.of_nat (length cached))%N |}.

(** A range whose headers have arrived: they are the chain it names, the bodies
    present are those of the headers, and the missing ones are requested. *)
Record completed_ok (mode : BlockSyncSelfRequester) (requests : gmap N (option SelfRequest))
    (r : BlockRange) (c : SelfCompletedHeader) : Prop := {
  cok_requester : ch_requester c = mode;
  cok_chain : chain_of r (ch_blocks c).*1;
  cok_bodies h b : (h, Some b) ∈ ch_blocks c → body_get_id b = block_body_id h;
  cok_missing h : (h, None) ∈ ch_blocks c → is_Some (requests !! block_body_id h);
  cok_cache id b : ch_payload_cache c !! id = Some b → body_get_id b = id;
}.

(** [asked] is the set of requests the peers have sent. *)
Record bs_ok (asked : gset (PT * BlockSyncRequestMessage)) bs : Prop := {
  bok_headers r q : self_headers_requests bs !! r = Some q →
    sr_requester q = self_request_mode bs ∧ num_blocks r ≠ 0%N ∧
    self_completed_headers_requests bs !! r = None;
  bok_payloads id q : self_payload_requests bs !! id = Some (Some q) →
    sr_requester q = self_request_mode bs;
  bok_in_flight :
    self_payload_requests_in_flight bs = N.of_nat (initiated (self_payload_requests bs)) ∧
    (self_payload_requests_in_flight bs ≤ BLOCKSYNC_MAX_PAYLOAD_REQUESTS)%N;
  bok_completed r c : self_completed_headers_requests bs !! r = Some c →
    completed_ok (self_request_mode bs) (self_payload_requests bs) r c;
  bok_peer_headers r m p cached : headers_requests bs !! r = Some m → m !! p = Some cached →
    num_blocks r ≠ 0%N ∧ headers_linked cached = true ∧
    (∀ h, head cached = Some h → get_parent_id h = last_block_id r) ∧
    (num_blocks (requested_range r cached) ≤ u64_MAX)%N ∧
    (p, Headers (requested_range r cached)) ∈ asked;
  bok_peer_payloads id m p : payload_requests bs !! id = Some m → m !! p = Some () →
    (p, Payload id) ∈ asked;
}.

(** Between events, no range is left complete, and payload requests queue up only
    when the limit of concurrent ones is reached. *)
Record settled bs : Prop := {
  settled_open r c : self_completed_headers_requests bs !! r = Some c → range_complete c = false;
  settled_queue id : self_payload_requests bs !! id = Some None →
    self_payload_requests_in_flight bs = BLOCKSYNC_MAX_PAYLOAD_REQUESTS;
}.

(** ** What a request waits for *)

Record pending := {
  fetches : gset BlockSyncRequestMessage;
  timers : gset BlockSyncRequestMessage;
}.

Definition pend_cmd (p : pending) (cmd : BlockSyncCommand) : pending :=
  match cmd with
  | FetchHeaders r => {| fetches := {[Headers r]} ∪ fetches p; timers := timers p |}
  | FetchPayload id => {| fetches := {[Payload id]} ∪ fetches p; timers := timers p |}
  | ScheduleTimeout m => {| fetches := fetches p; timers := {[m]} ∪ timers p |}
  | ResetTimeout m => {| fetches := fetches p; timers := timers p ∖ {[m]} |}
  | _ => p
  end.

Definition pend_cmds (p : pending) cmds : pending := foldl pend_cmd p cmds.

(** A request to a peer has its timer running; one to the ledger has that or the
    fetch under way. *)
Definition waiting (p : pending) (m : BlockSyncRequestMessage) (to : option PT) : Prop :=
  m ∈ timers p ∨ (to = None ∧ m ∈ fetches p).

Definition waits (p : pending) bs : Prop :=
  (∀ r q, self_headers_requests bs !! r = Some q → waiting p (Headers r) (sr_to q)) ∧
  (∀ id q, self_payload_requests bs !! id = Some (Some q) → waiting p (Payload id) (sr_to q)).

Lemma waiting_fetch p m m' to :
  waiting p m' to → waiting {| fetches := {[m]} ∪ fetches p; timers := timers p |} m' to.
Proof. intros [?|[??]]; [by left|right]. cbn. set_solver. Qed.

Lemma waits_fetch p m bs :
  waits p bs → waits {| fetches := {[m]} ∪ fetches p; timers := timers p |} bs.
Proof. intros [Hw1 Hw2]. split; eauto using waiting_fetch. Qed.

(** ** The abstract specification: a set of live ranges *)

Definition live bs : gset BlockRange :=
  dom (self_headers_requests bs) ∪ dom (self_completed_headers_requests bs).

(** The blocks handed out for a range: the chain it names, with its bodies. *)
Definition blocks_of_range (r : BlockRange) (blocks : list ConsensusFullBlock) : Prop :=
  chain_of r (header <$> blocks) ∧ Forall body_matches blocks.

(** Each emission answers a live range of the current requester, which is live
    no more. *)
Fixpoint served (mode : BlockSyncSelfRequester) (live : gset BlockRange) cmds
    (live' : gset BlockRange) : Prop :=
  match cmds with
  | [] => live' = live
  | Emit q r blocks :: cmds =>
      q = mode ∧ r ∈ live ∧ blocks_of_range r blocks ∧ served mode (live ∖ {[r]}) cmds live'
  | _ :: cmds => served mode live cmds live'
  end.

Definition answer_to (response : BlockSyncResponseMessage) : BlockSyncRequestMessage :=
  match response with
  | HeadersResponse r => Headers (get_block_range r)
  | PayloadResponse r => Payload (get_payload_id r)
  end.

(** A response goes to a peer that asked for it, and passes its verification. *)
Definition cmd_ok (asked : gset (PT * BlockSyncRequestMessage)) (cmd : BlockSyncCommand) : Prop :=
  match cmd with
  | SendResponse to response =>
      (to, answer_to response) ∈ asked ∧
      match response with
      | HeadersResponse (HeadersFound r hs) => verify_block_headers r hs = Ret true
      | _ => True
      end
  | _ => True
  end.

Section fixed_asked.
Context (asked : gset (PT * BlockSyncRequestMessage)).

(** A step inside a handler; [pe] is what the event did to the pending work. *)
Record good_by (pe : pending → pending) bs cmds bs' : Prop := {
  good_mode : self_request_mode bs' = self_request_mode bs;
  good_ok : bs_ok asked bs';
  good_waits p : waits p bs → waits (pend_cmds (pe p) cmds) bs';
  good_served : served (self_request_mode bs) (live bs) cmds (live bs');
  good_cmds : Forall (cmd_ok asked) cmds;
}.

Abbreviation good := (good_by (λ p, p)).

Lemma good_refl bs : bs_ok asked bs → good bs [] bs.
Proof. by split. Qed.

Lemma served_app mode l1 cmds1 l2 cmds2 l3 :
  served mode l1 cmds1 l2 → served mode l2 cmds2 l3 → served mode l1 (cmds1 ++ cmds2) l3.
Proof.
  revert l1. induction cmds1 as [|c cmds1 IH]; intros l1; cbn; [by intros ->|].
  destruct c; try apply IH. intros (-> & ? & ? & ?) ?. eauto.
Qed.

Lemma good_trans pe bs1 cmds1 bs2 cmds2 bs3 :
  good_by pe bs1 cmds1 bs2 → good bs2 cmds2 bs3 → good_by pe bs1 (cmds1 ++ cmds2) bs3.
Proof.
  intros [m1 o1 w1 s1 c1] [m2 o2 w2 s2 c2]. split; [congruence|done| | |by apply Forall_app].
  - intros p Hp. unfold pend_cmds. rewrite foldl_app. by apply w2, w1.
  - rewrite m1 in s2. by eapply served_app.
Qed.

(** Commands that leave the pending work alone can come first. *)
Lemma good_after pe bs1 cmds1 bs2 cmds2 bs3 :
  (∀ p, pend_cmds p cmds1 = p) →
  good bs1 cmds1 bs2 → good_by pe bs2 cmds2 bs3 → good_by pe bs1 (cmds1 ++ cmds2) bs3.
Proof.
  intros Hq [m1 o1 w1 s1 c1] [m2 o2 w2 s2 c2]. split; [congruence|done| | |by apply Forall_app].
  - intros p Hp. unfold pend_cmds in *. rewrite foldl_app, Hq. apply w2. specialize (w1 p Hp).
    by rewrite Hq in w1.
  - rewrite m1 in s2. by eapply served_app.
Qed.

(** ** What an event takes away *)

Definition drop_fetch (m : BlockSyncRequestMessage) (p : pending) : pending :=
  {| fetches := fetches p ∖ {[m]}; timers := timers p |}.
Definition drop_timer (m : BlockSyncRequestMessage) (p : pending) : pending :=
  {| fetches := fetches p; timers := timers p ∖ {[m]} |}.

(** The event took at most the fetch or the timer of [m] away. *)
Definition only_drops (m : BlockSyncRequestMessage) (pe : pending → pending) : Prop :=
  pe = (λ p, p) ∨ pe = drop_fetch m ∨ pe = drop_timer m.

Lemma only_drops_waiting m pe p m' to :
  only_drops m pe → m' ≠ m → waiting p m' to → waiting (pe p) m' to.
Proof.
  intros [-> | [-> | ->]] Hne; [done|..]; (intros [?|[??]]; [left|right; split; [done|]]); cbn; set_solver.
Qed.

(** ** A payload arrives *)

Lemma fill_completed_ok mode reqs r c id payload :
  completed_ok mode reqs r c → body_get_id payload = id →
  completed_ok mode (delete id reqs) r (fill_completed id payload c).
Proof.
  intros [Hr Hch Hb Hm Hc] Hid. split; cbn.
  - done.
  - assert ((map (λ p : ConsensusBlockHeader * option Body,
              if decide (block_body_id p.1 = id ∧ p.2 = None)
              then (p.1, Some payload) else p) (ch_blocks c)).*1 = (ch_blocks c).*1) as ->; [|done].
    clear. induction (ch_blocks c) as [|[h mb] l IH]; cbn; [done|]. rewrite IH. by case_decide.
  - intros h b Hin. apply list_elem_of_fmap in Hin as ([h' mb] & Heq & Hin). cbn in Heq.
    case_decide as Hd; simplify_eq; [by destruct Hd as [-> _]|eauto].
  - intros h Hin. apply list_elem_of_fmap in Hin as ([h' mb] & Heq & Hin). cbn in Heq.
    case_decide as Hd; simplify_eq. cbn in Hd. rewrite lookup_delete_ne; [eauto|].
    intros He. by apply Hd.
  - intros i b. case_match; [|apply Hc]. intros [[<- <-]|[? ?]]%lookup_insert_Some; eauto.
Qed.

Definition fulfil id payload bs (mr : option SelfRequest) : BlockSync :=
  fill_ranges id payload
    (put_self_payloads (delete id (self_payload_requests bs))
       (if decide (is_Some mr) then usize_pred (self_payload_requests_in_flight bs)
        else self_payload_requests_in_flight bs) bs).

Lemma usize_pred_pos x : (0 < x ≤ u64_MAX)%N → usize_pred x = (x - 1)%N.
Proof.
  intros Hx. unfold usize_pred. replace (x + u64_MAX)%N with (x - 1 + 1 * (u64_MAX + 1))%N by lia.
  rewrite N.Div0.mod_add. apply N.mod_small. lia.
Qed.

Lemma good_fulfil pe bs id mr payload cmds :
  bs_ok asked bs → self_payload_requests bs !! id = Some mr → body_get_id payload = id →
  only_drops (Payload id) pe → cmds = [] ∨ cmds = [ResetTimeout (Payload id)] →
  good_by pe bs cmds (fulfil id payload bs mr).
Proof.
  intros Hok Hid Hb Hpe Hcmds. destruct Hok as [Hh Hp [Hf Hmax] Hc Hph Hpp].
  assert (∀ p m to, m ≠ Payload id → waiting p m to → waiting (pend_cmds (pe p) cmds) m to) as Hw.
  { intros p m to Hne Hw. apply (only_drops_waiting (Payload id) pe) in Hw; [|done..].
    destruct Hcmds as [-> | ->]; [done|].
    by apply (only_drops_waiting (Payload id) (drop_timer (Payload id))); [right; right|..]. }
  split.
  - done.
  - split; cbn; [| | | |done|done].
    + intros r q Hq. destruct (Hh r q Hq) as (? & ? & Hn). split_and!; [done|done|].
      by rewrite lookup_fmap, Hn.
    + intros i q [_ Hq]%lookup_delete_Some. eauto.
    + rewrite (initiated_delete _ _ _ Hid) in Hf. unfold BLOCKSYNC_MAX_PAYLOAD_REQUESTS in *.
      case_decide; [|split; [|done]; lia]. rewrite usize_pred_pos; [lia|]. unfold u64_MAX. lia.
    + intros r c. rewrite lookup_fmap. intros (c' & Hc' & ->)%fmap_Some.
      by apply fill_completed_ok; [apply Hc|].
  - intros p [Hw1 Hw2]. split; cbn; [eauto|].
    intros i q [Hne Hq]%lookup_delete_Some. apply Hw; [congruence|eauto].
  - assert (live (fulfil id payload bs mr) = live bs) as ->.
    { unfold live, fulfil, fill_ranges. cbn. by rewrite dom_fmap_L. }
    by destruct Hcmds as [-> | ->].
  - destruct Hcmds as [-> | ->]; repeat constructor.
Qed.

Lemma get_cached_payload_ok fuel env bs id b :
  env_ok fuel env → bs_ok asked bs → get_cached_payload env bs id = Some b → body_get_id b = id.
Proof.
  intros [Hcache _ _] Hok. unfold get_cached_payload. case_match eqn:Hm.
  - intros [= <-]. destruct (block_cache env) as [t|m]; cbn in Hcache; [|eauto].
    destruct Hcache as [round_of Ht]. unfold tree_get_payload in Hm.
    apply fmap_Some in Hm as (ix & Hix & ->). by apply (ok_payloads _ t Ht).
  - intros Hb%head_Some_elem_of. apply list_elem_of_omap in Hb as (c & Hin & Hcb).
    apply list_elem_of_fmap in Hin as ([r c'] & -> & Hin).
    rewrite hash_iter_perm, elem_of_map_to_list in Hin.
    exact (cok_cache _ _ _ _ (bok_completed _ _ Hok _ _ Hin) _ _ Hcb).
Qed.

(** ** The loops of [try_initiate_payload_requests_for_self] *)

Lemma hydrate_payloads_spec fuel env ids bs :
  env_ok fuel env → NoDup ids → (∀ id, id ∈ ids → is_Some (self_payload_requests bs !! id)) →
  bs_ok asked bs →
  ∃ cmds bs', hydrate_payloads env ids bs = Ret (cmds, bs') ∧ good bs cmds bs'.
Proof.
  intros Henv. revert bs. induction ids as [|id ids IH]; intros bs Hnd Hin Hok; cbn [hydrate_payloads].
  { eauto using good_refl. }
  apply NoDup_cons in Hnd as [Hni Hnd].
  destruct (get_cached_payload env bs id) as [payload|] eqn:Hpay.
  2: { apply IH; [done|set_solver|done]. }
  apply (get_cached_payload_ok fuel) in Hpay; [|done..].
  destruct (Hin id) as [mr Hmr]; [set_solver|]. rewrite Hmr. cbn [expect mbind run_bind].
  set (reset := match mr with
                | Some q => if decide (is_Some (sr_to q)) then [ResetTimeout (Payload id)] else []
                | None => []
                end).
  assert (good bs reset (fulfil id payload bs mr)) as Hgood.
  { apply good_fulfil; [done..|by left|]. unfold reset. destruct mr; [case_decide|]; eauto. }
  destruct (IH (fulfil id payload bs mr)) as (cmds & bs' & Hrun & Hgood').
  - done.
  - intros i Hi. cbn. rewrite lookup_delete_ne by set_solver. apply Hin. set_solver.
  - by eapply good_ok.
  - exists (reset ++ cmds), bs'. split; [|by eapply good_trans].
    unfold reset, fulfil in *. destruct mr as [q|]; cbn beta iota zeta.
    + rewrite decide_True in Hrun by eauto. by rewrite Hrun.
    + rewrite decide_False in Hrun by by intros []. by rewrite Hrun.
Qed.

Lemma good_initiate bs id :
  bs_ok asked bs → self_payload_requests bs !! id = Some None →
  (self_payload_requests_in_flight bs < BLOCKSYNC_MAX_PAYLOAD_REQUESTS)%N →
  good bs [FetchPayload id]
    (put_self_payloads
       (<[id := Some {| sr_requester := self_request_mode bs; sr_to := None |}]>
          (self_payload_requests bs))
       (self_payload_requests_in_flight bs + 1)%N bs).
Proof.
  intros [Hh Hp [Hf Hmax] Hc Hph Hpp] Hid Hlt. split.
  - done.
  - split; cbn; [done| | | |done|done].
    + intros i q. rewrite lookup_insert_Some. intros [[_ [= <-]]|[_ Hq]]; [done|eauto].
    + rewrite initiated_insert, (initiated_delete _ _ _ Hid) in *.
      rewrite decide_False in Hf by by intros []. rewrite decide_True by eauto. lia.
    + intros r c Hrc. destruct (Hc r c Hrc) as [Hc1 Hc2 Hc3 Hc4 Hc5]. split; try done.
      intros h Hin. destruct (decide (id = block_body_id h)) as [->|Hne].
      * rewrite lookup_insert_eq. eauto.
      * rewrite lookup_insert_ne by done. eauto.
  - intros p [Hw1 Hw2]. split; cbn.
    + eauto using waiting_fetch.
    + intros i q. rewrite lookup_insert_Some. intros [[<- [= <-]]|[_ Hq]].
      * right. split; [done|]. cbn. set_solver.
      * eauto using waiting_fetch.
  - done.
  - repeat constructor.
Qed.

Lemma initiate_payloads_spec fuel bs :
  bs_ok asked bs →
  N.to_nat BLOCKSYNC_MAX_PAYLOAD_REQUESTS < fuel + N.to_nat (self_payload_requests_in_flight bs) →
  ∃ cmds bs', initiate_payloads fuel bs = Ret (cmds, bs') ∧ good bs cmds bs' ∧
    ∀ id, self_payload_requests bs' !! id = Some None →
      self_payload_requests_in_flight bs' = BLOCKSYNC_MAX_PAYLOAD_REQUESTS.
Proof.
  revert bs. induction fuel as [|fuel IH]; intros bs Hok Hfuel.
  { destruct (bok_in_flight _ _ Hok) as [_ ?]. lia. }
  cbn [initiate_payloads]. case_decide as Hlt.
  - destruct (find_first _ _) as [[id mr]|] eqn:Hfind.
    + apply find_first_Some in Hfind as (l1 & l2 & Hl & Hmr%bool_decide_eq_true & _). cbn in Hmr.
      subst mr. assert (self_payload_requests bs !! id = Some None) as Hid.
      { apply elem_of_map_to_list. rewrite <- hash_iter_perm, Hl. set_solver. }
      pose proof (good_initiate bs id Hok Hid Hlt) as Hg.
      destruct (IH _ (good_ok _ _ _ _ Hg)) as (cmds & bs' & Hrun & Hg' & Hq); [cbn; lia|].
      rewrite Hrun. cbn [mbind run_bind]. eexists _, _. split_and!; [done| |done].
      exact (good_trans _ _ [FetchPayload id] _ _ _ Hg Hg').
    + eexists _, _. split_and!; [done|by apply good_refl|]. intros id Hid. exfalso.
      rewrite find_first_None, Forall_forall in Hfind. specialize (Hfind (id, None)).
      rewrite hash_iter_perm, elem_of_map_to_list, bool_decide_eq_false in Hfind. by apply Hfind.
  - eexists _, _. split_and!; [done|by apply good_refl|]. intros _ _.
    destruct (bok_in_flight _ _ Hok) as [_ ?]. lia.
Qed.

(** ** Emitting the complete ranges *)

Lemma full_blocks_of_spec blocks :
  forallb (λ p, bool_decide (is_Some p.2)) blocks = true →
  (∀ h b, (h, Some b) ∈ blocks → body_get_id b = block_body_id h) →
  ∃ full_blocks, full_blocks_of blocks = Ret full_blocks ∧
    header <$> full_blocks = blocks.*1 ∧ Forall body_matches full_blocks.
Proof.
  induction blocks as [|[h [b|]] blocks IH]; cbn; intros Hall Hb; [by exists []| |done].
  destruct IH as (fbs & Hrun & Hh & Hm); [done|set_solver|].
  pose proof (Hb h b ltac:(set_solver)) as Hhb. unfold ConsensusFullBlock_new.
  rewrite decide_False by (intros Hne; by apply Hne). rewrite Hrun. cbn.
  eexists. split_and!; [done|cbn; by rewrite Hh|by constructor].
Qed.

Lemma good_emit bs r c full_blocks :
  bs_ok asked bs → self_completed_headers_requests bs !! r = Some c →
  header <$> full_blocks = (ch_blocks c).*1 → Forall body_matches full_blocks →
  good bs [Emit (ch_requester c) r full_blocks]
    (put_completed (delete r (self_completed_headers_requests bs)) bs).
Proof.
  intros [Hh Hp [Hf Hmax] Hc Hph Hpp] Hr Hhd Hm. destruct (Hc r c Hr) as [Hreq Hch _ _ _]. split.
  - done.
  - split; cbn; [|done|done| |done|done].
    + intros r' q Hq. destruct (Hh r' q Hq) as (? & ? & ?). split_and!; [done|done|].
      by apply lookup_delete_None; right.
    + intros r' c' [_ Hrc]%lookup_delete_Some. eauto.
  - done.
  - cbn. split_and!; [done| | |].
    + unfold live. apply elem_of_union_r, elem_of_dom. eauto.
    + split; [by rewrite Hhd|done].
    + unfold live. cbn. rewrite dom_delete_L, difference_union_distr_l_L. f_equal. symmetry.
      apply difference_disjoint_L, disjoint_singleton_r. intros [q Hq]%elem_of_dom.
      destruct (Hh r q Hq) as (_ & _ & ?). congruence.
  - repeat constructor.
Qed.

Lemma emit_ranges_spec ranges bs :
  bs_ok asked bs → NoDup ranges →
  (∀ r, r ∈ ranges → ∃ c, self_completed_headers_requests bs !! r = Some c ∧ range_complete c = true) →
  ∃ cmds bs', emit_ranges ranges bs = Ret (cmds, bs') ∧ good bs cmds bs' ∧
    self_payload_requests bs' = self_payload_requests bs ∧
    self_payload_requests_in_flight bs' = self_payload_requests_in_flight bs ∧
    ∀ r c, self_completed_headers_requests bs' !! r = Some c →
      self_completed_headers_requests bs !! r = Some c ∧ r ∉ ranges.
Proof.
  revert bs. induction ranges as [|r ranges IH]; intros bs Hok Hnd Hall; cbn [emit_ranges].
  { eexists _, _. split_and!; [done|by apply good_refl|done|done|]. set_solver. }
  apply NoDup_cons in Hnd as [Hni Hnd]. destruct (Hall r) as (c & Hc & Hcomp); [set_solver|].
  rewrite Hc. cbn [expect mbind run_bind].
  destruct (full_blocks_of_spec (ch_blocks c) Hcomp) as (fbs & -> & Hh & Hm).
  { apply (bok_completed _ _ Hok _ _ Hc). }
  cbn [mbind run_bind]. pose proof (good_emit bs r c fbs Hok Hc Hh Hm) as Hg.
  destruct (IH _ (good_ok _ _ _ _ Hg) Hnd) as (cmds & bs' & -> & Hg' & Hpay & Hfl & Hrest).
  { intros r' Hr'. cbn. rewrite lookup_delete_ne by set_solver. apply Hall. set_solver. }
  cbn [mbind run_bind]. eexists _, _. split_and!; [done| |done|done|].
  - exact (good_trans _ _ [_] _ _ _ Hg Hg').
  - intros r' c' Hrc. apply Hrest in Hrc as [Hl Hr']. cbn in Hl.
    apply lookup_delete_Some in Hl as [Hne Hl]. set_solver.
Qed.

Lemma handle_completed_ranges_spec bs :
  bs_ok asked bs →
  ∃ cmds bs', handle_completed_ranges bs = Ret (cmds, bs') ∧ good bs cmds bs' ∧
    self_payload_requests bs' = self_payload_requests bs ∧
    self_payload_requests_in_flight bs' = self_payload_requests_in_flight bs ∧
    ∀ r c, self_completed_headers_requests bs' !! r = Some c → range_complete c = false.
Proof.
  intros Hok. set (m := self_completed_headers_requests bs).
  assert (∀ r, r ∈ completed_ranges bs ↔ ∃ c, m !! r = Some c ∧ range_complete c = true) as Hin.
  { intros r. unfold completed_ranges. rewrite list_elem_of_fmap. setoid_rewrite list_elem_of_filter.
    setoid_rewrite hash_iter_perm. split.
    - intros ([r' c] & -> & Hc & Hrc%elem_of_map_to_list). eauto.
    - intros (c & Hc & Hcomp). exists (r, c). split_and!; [done|done|by apply elem_of_map_to_list]. }
  destruct (emit_ranges_spec (completed_ranges bs) bs Hok) as (cmds & bs' & Hrun & Hg & Hp & Hf & Hrest).
  - unfold completed_ranges. eapply sublist_NoDup; [|apply fmap_sublist, sublist_filter].
    rewrite hash_iter_perm. apply NoDup_fst_map_to_list.
  - intros r Hr. by apply Hin.
  - exists cmds, bs'. split_and!; [done..|]. intros r c Hrc. apply Hrest in Hrc as [Hrc Hni].
    apply not_true_is_false. intros Hcomp. apply Hni, Hin. eauto.
Qed.

Lemma try_initiate_spec fuel env bs :
  env_ok fuel env → bs_ok asked bs →
  ∃ cmds bs', try_initiate_payload_requests_for_self env bs = Ret (cmds, bs') ∧
    good bs cmds bs' ∧ settled bs'.
Proof.
  intros Henv Hok. unfold try_initiate_payload_requests_for_self.
  destruct (hydrate_payloads_spec fuel env (hash_iter (self_payload_requests bs)).*1 bs)
    as (c1 & bs1 & -> & Hg1); [done| | |done|].
  { rewrite hash_iter_perm. apply NoDup_fst_map_to_list. }
  { intros id. rewrite hash_iter_perm. intros ([i mr] & -> & Hi%elem_of_map_to_list)%list_elem_of_fmap.
    eauto. }
  cbn [mbind run_bind].
  destruct (initiate_payloads_spec initiate_fuel bs1 (good_ok _ _ _ _ Hg1))
    as (c2 & bs2 & -> & Hg2 & Hq); [unfold initiate_fuel; lia|].
  cbn [mbind run_bind].
  destruct (handle_completed_ranges_spec bs2 (good_ok _ _ _ _ Hg2))
    as (c3 & bs3 & -> & Hg3 & Hp & Hf & Ho).
  cbn [mbind run_bind]. eexists _, _. split_and!; [done| |split; [done|]].
  - eapply good_trans; [done|]. by eapply good_trans.
  - intros id. rewrite Hp, Hf. apply Hq.
Qed.

(** ** Asking a peer *)

Lemma request_from_peer_spec fuel env bs m :
  env_ok fuel env →
  ∃ to g, request_from_peer fuel env bs m =
    Ret (to, match to with Some to => [SendRequest to m] | None => [] end ++ [ScheduleTimeout m],
         put_rng g bs).
Proof.
  intros Henv. unfold request_from_peer.
  destruct (pick_peer_total fuel env (override_peers bs) (bs_rng bs) Henv) as [[to g] ->].
  cbn. eauto.
Qed.

(** The commands of [request_from_peer] start the timer of [m]. *)
Lemma request_pend (to : option PT) m p :
  pend_cmds p (match to with Some to => [SendRequest to m] | None => [] end ++ [ScheduleTimeout m]) =
  {| fetches := fetches p; timers := {[m]} ∪ timers p |}.
Proof. by destruct to. Qed.

Lemma waiting_timer p m m' to :
  waiting p m' to → waiting {| fetches := fetches p; timers := {[m]} ∪ timers p |} m' to.
Proof. intros [?|?]; [left; cbn; set_solver|by right]. Qed.

Lemma good_headers_to pe bs r q to g :
  bs_ok asked bs → self_headers_requests bs !! r = Some q → only_drops (Headers r) pe →
  good_by pe bs
    (match to with Some to => [SendRequest to (Headers r)] | None => [] end ++
     [ScheduleTimeout (Headers r)])
    (set_headers_to r q to (put_rng g bs)).
Proof.
  intros [Hh Hp Hf Hc Hph Hpp] Hq Hpe. split.
  - done.
  - split; cbn; [|done..]. intros r' q'. rewrite lookup_insert_Some.
    intros [[<- <-]|[_ Hq']]; [by apply (Hh r q)|eauto].
  - intros p [Hw1 Hw2]. rewrite request_pend. split; cbn.
    + intros r' q'. rewrite lookup_insert_Some. intros [[<- <-]|[Hne Hq']].
      * left. cbn. set_solver.
      * apply waiting_timer, (only_drops_waiting (Headers r)); [done|congruence|by apply Hw1].
    + intros id q' Hq'.
      apply waiting_timer, (only_drops_waiting (Headers r)); [done|congruence|by apply Hw2].
  - assert (live (set_headers_to r q to (put_rng g bs)) = live bs) as ->.
    { unfold live. cbn. rewrite dom_insert_L.
      assert (r ∈ dom (self_headers_requests bs)) by (apply elem_of_dom; eauto). set_solver. }
    by destruct to.
  - destruct to; repeat constructor.
Qed.

Lemma good_payload_to pe bs id q to g :
  bs_ok asked bs → self_payload_requests bs !! id = Some (Some q) → only_drops (Payload id) pe →
  good_by pe bs
    (match to with Some to => [SendRequest to (Payload id)] | None => [] end ++
     [ScheduleTimeout (Payload id)])
    (set_payload_to id q to (put_rng g bs)).
Proof.
  intros [Hh Hp [Hf Hmax] Hc Hph Hpp] Hq Hpe. split.
  - done.
  - split; cbn; [done| | | |done..].
    + intros i q'. rewrite lookup_insert_Some. intros [[<- [= <-]]|[_ Hq']]; [by apply (Hp id q)|eauto].
    + rewrite initiated_insert, (initiated_delete _ _ _ Hq) in *. rewrite !decide_True in * by eauto.
      done.
    + intros r c Hrc. destruct (Hc r c Hrc) as [Hc1 Hc2 Hc3 Hc4 Hc5]. split; try done.
      intros h Hin. destruct (decide (id = block_body_id h)) as [->|Hne].
      * rewrite lookup_insert_eq. eauto.
      * rewrite lookup_insert_ne by done. eauto.
  - intros p [Hw1 Hw2]. rewrite request_pend. split; cbn.
    + intros r q' Hq'.
      apply waiting_timer, (only_drops_waiting (Payload id)); [done|congruence|by apply Hw1].
    + intros i q'. rewrite lookup_insert_Some. intros [[<- [= <-]]|[Hne Hq']].
      * left. cbn. set_solver.
      * apply waiting_timer, (only_drops_waiting (Payload id)); [done|congruence|by apply Hw2].
  - by destruct to.
  - destruct to; repeat constructor.
Qed.

(** Asking again changes neither the queue nor the completed ranges. *)
Lemma settled_headers_to bs r q to g : settled bs → settled (set_headers_to r q to (put_rng g bs)).
Proof. by intros [? ?]. Qed.

Lemma settled_payload_to bs id q to g : settled bs → settled (set_payload_to id q to (put_rng g bs)).
Proof.
  intros [Ho Hq]. split; [done|]. intros i. cbn. rewrite lookup_insert_Some.
  intros [[_ ?]|[_ ?]]; [done|eauto].
Qed.

(** An event that changes nothing spares the requests of [m]: it has none, or
    they wait for a timer and the event was a ledger answer. *)
Lemma good_skip m pe bs :
  bs_ok asked bs → only_drops m pe →
  pe = (λ p, p) ∨
  (∀ r q, m = Headers r → self_headers_requests bs !! r = Some q →
     pe = drop_fetch m ∧ sr_to q ≠ None) ∧
  (∀ id q, m = Payload id → self_payload_requests bs !! id = Some (Some q) →
     pe = drop_fetch m ∧ sr_to q ≠ None) →
  good_by pe bs [] bs.
Proof.
  intros Hok Hpe [->|[Hn1 Hn2]]; [by apply good_refl|]. split; [done|done| |done|done].
  intros p [Hw1 Hw2]. split.
  - intros r q Hq. destruct (decide (Headers r = m)) as [<-|Hne].
    + destruct (Hn1 r q eq_refl Hq) as [-> Hto]. destruct (Hw1 r q Hq) as [?|[??]]; [by left|done].
    + apply (only_drops_waiting m); [done|done|by apply Hw1].
  - intros id q Hq. destruct (decide (Payload id = m)) as [<-|Hne].
    + destruct (Hn2 id q eq_refl Hq) as [-> Hto]. destruct (Hw2 id q Hq) as [?|[??]]; [by left|done].
    + apply (only_drops_waiting m); [done|done|by apply Hw2].
Qed.

(** ** The event handlers *)

Lemma handle_timeout_spec fuel env bs m :
  env_ok fuel env → bs_ok asked bs → settled bs →
  ∃ cmds bs', handle_timeout fuel env bs m = Ret (cmds, bs') ∧
    good_by (drop_timer m) bs cmds bs' ∧ settled bs'.
Proof.
  intros Henv Hok Hset. assert (only_drops m (drop_timer m)) as Hpe by by right; right.
  destruct m as [r|id]; cbn [handle_timeout].
  - destruct (self_headers_requests bs !! r) as [q|] eqn:Hq.
    2: { eexists _, _. split_and!; [done| |done]. apply (good_skip (Headers r)); [done..|right].
         split; congruence. }
    destruct (request_from_peer_spec fuel env bs (Headers r) Henv) as (to & g & ->).
    cbn [mbind run_bind]. eexists _, _. split_and!; [done| |by apply settled_headers_to].
    by apply good_headers_to.
  - destruct (self_payload_requests bs !! id) as [[q|]|] eqn:Hq.
    2, 3: eexists _, _; split_and!; [done| |done]; apply (good_skip (Payload id)); [done..|right];
      split; congruence.
    destruct (request_from_peer_spec fuel env bs (Payload id) Henv) as (to & g & ->).
    cbn [mbind run_bind]. eexists _, _. split_and!; [done| |by apply settled_payload_to].
    by apply good_payload_to.
Qed.

(** The ledger's answer takes the fetch away, a peer's takes nothing. *)
Definition answered (sender : option PT) (m : BlockSyncRequestMessage) : pending → pending :=
  match sender with None => drop_fetch m | Some _ => λ p, p end.

Lemma answered_drops sender m : only_drops m (answered sender m).
Proof. destruct sender; [by left|by right; left]. Qed.

Lemma reset_drops (sender : option PT) m :
  only_drops m (λ p, pend_cmds (answered sender m p)
                       (match sender with Some _ => [ResetTimeout m] | None => [] end)).
Proof. destruct sender; [by right; right|by right; left]. Qed.

Lemma add_payload_requests_spec hs m :
  (∀ i, is_Some (m !! i) → add_payload_requests hs m !! i = m !! i) ∧
  (∀ h, h ∈ hs → is_Some (add_payload_requests hs m !! block_body_id h)) ∧
  (∀ i q, add_payload_requests hs m !! i = Some (Some q) → m !! i = Some (Some q)) ∧
  initiated (add_payload_requests hs m) = initiated m.
Proof.
  revert m. induction hs as [|h hs IH]; intros m; cbn [add_payload_requests foldl].
  { split_and!; [done|set_solver|done|done]. }
  set (m' := match m !! block_body_id h with None => <[block_body_id h := None]> m | Some _ => m end).
  assert ((∀ i, is_Some (m !! i) → m' !! i = m !! i) ∧ is_Some (m' !! block_body_id h) ∧
          (∀ i q, m' !! i = Some (Some q) → m !! i = Some (Some q)) ∧
          initiated m' = initiated m) as (Hm1 & Hm2 & Hm3 & Hm4).
  { unfold m'. destruct (m !! block_body_id h) as [x|] eqn:Hx; [split_and!; eauto|]. split_and!.
    - intros i [y Hy]. rewrite lookup_insert_ne; [done|]. congruence.
    - rewrite lookup_insert_eq. eauto.
    - intros i q. rewrite lookup_insert_Some. intros [[_ ?]|[_ ?]]; done.
    - rewrite initiated_insert, decide_False by by intros []. rewrite delete_id by done. lia. }
  destruct (IH m') as (Hi1 & Hi2 & Hi3 & Hi4). unfold add_payload_requests in *. split_and!.
  - intros i Hi. rewrite Hi1; [by apply Hm1|]. by rewrite Hm1.
  - intros h' [->|Hh']%elem_of_cons; [|by apply Hi2]. by rewrite Hi1.
  - intros i q Hq. by apply Hm3, Hi3.
  - congruence.
Qed.

(** Verified headers arrive: the range moves on to the completed ones. *)
Lemma good_headers_found sender bs r q hs :
  bs_ok asked bs → self_headers_requests bs !! r = Some q → chain_of r hs →
  good_by (answered sender (Headers r)) bs
    (match sender with Some _ => [ResetTimeout (Headers r)] | None => [] end)
    (put_completed
       (<[r := {| ch_requester := self_request_mode bs;
                  ch_blocks := (λ block, (block, None)) <$> hs;
                  ch_payload_cache := ∅ |}]> (self_completed_headers_requests bs))
       (put_self_payloads (add_payload_requests hs (self_payload_requests bs))
          (self_payload_requests_in_flight bs)
          (put_self_headers (delete r (self_headers_requests bs)) bs))).
Proof.
  intros [Hh Hp [Hf Hmax] Hc Hph Hpp] Hq Hch.
  destruct (add_payload_requests_spec hs (self_payload_requests bs)) as (Ha1 & Ha2 & Ha3 & Ha4). split.
  - done.
  - split; cbn; [| | | |done..].
    + intros r' q' [Hne Hq']%lookup_delete_Some. destruct (Hh r' q' Hq') as (? & ? & ?).
      split_and!; [done|done|]. by rewrite lookup_insert_ne.
    + intros i q' Hq'%Ha3. eauto.
    + by rewrite Ha4.
    + intros r' c. rewrite lookup_insert_Some. intros [[<- <-]|[_ Hrc]].
      * split; cbn; [done| | | |].
        -- by rewrite <- list_fmap_compose, list_fmap_id.
        -- intros h b (h' & [=] & _)%list_elem_of_fmap.
        -- intros h (h' & [= ->] & Hin)%list_elem_of_fmap. by apply Ha2.
        -- intros id b. by rewrite lookup_empty.
      * destruct (Hc r' c Hrc) as [Hc1 Hc2 Hc3 Hc4 Hc5]. split; try done.
        intros h Hin. specialize (Hc4 h Hin). by rewrite Ha1.
  - intros p [Hw1 Hw2]. split; cbn.
    + intros r' q' [Hne Hq']%lookup_delete_Some.
      apply (only_drops_waiting _ _ _ _ _ (reset_drops sender (Headers r))); [congruence|eauto].
    + intros i q' Hq'%Ha3.
      apply (only_drops_waiting _ _ _ _ _ (reset_drops sender (Headers r))); [congruence|eauto].
  - assert (∀ l, l = live bs → served (self_request_mode bs) (live bs)
      (match sender with Some _ => [ResetTimeout (Headers r)] | None => [] end) l) as Hs.
    { intros l ->. by destruct sender. }
    apply Hs. unfold live. cbn. rewrite dom_delete_L, dom_insert_L.
    assert (r ∈ dom (self_headers_requests bs)) by (apply elem_of_dom; eauto).
    rewrite (assoc_L (∪)), (comm_L (∪) _ {[r]}), <- union_difference_singleton_L by done. done.
  - destruct sender; repeat constructor.
Qed.

Lemma handle_headers_response_for_self_spec fuel env bs sender resp :
  env_ok fuel env → bs_ok asked bs → settled bs →
  (sender = None → ∀ r hs, resp = HeadersFound r hs → num_blocks r ≠ 0%N → chain_of r hs) →
  ∃ cmds bs', handle_headers_response_for_self fuel env bs sender resp = Ret (cmds, bs') ∧
    good_by (answered sender (Headers (get_block_range resp))) bs cmds bs' ∧ settled bs'.
Proof.
  intros Henv Hok Hset Hledger. unfold handle_headers_response_for_self.
  set (r := get_block_range resp). pose proof (answered_drops sender (Headers r)) as Hpe.
  destruct (self_headers_requests bs !! r) as [q|] eqn:Hq.
  2: { eexists _, _. split_and!; [done| |done]. apply (good_skip (Headers r)); [done..|right].
       split; congruence. }
  destruct (bok_headers _ _ Hok _ _ Hq) as (Hmode & Hz & _).
  match goal with |- context [mbind _ ?x] => assert (∃ cmds bs', x = Ret (cmds, bs') ∧
    good_by (answered sender (Headers r)) bs cmds bs') as (cmds & bs1 & -> & Hg1) end.
  - destruct resp as [r' hs|r']; cbn in r; subst r.
    + rewrite (assert_true (sr_requester q = self_request_mode bs)) by done. cbn [mbind run_bind].
      destruct (verify_block_headers_total r' hs Hz) as [[|] Hv]; rewrite Hv; cbn [mbind run_bind].
      * eexists _, _. split; [done|]. apply (good_headers_found sender bs r' q); [done..|].
        by apply verify_block_headers_chain.
      * destruct sender as [s|].
        -- rewrite assert_true by eauto. cbn. eexists _, _. split; [done|]. by apply good_refl.
        -- specialize (Hledger eq_refl r' hs eq_refl Hz).
           apply verify_block_headers_chain in Hledger. congruence.
    + destruct sender as [s|]; [by eauto using good_refl|]. destruct (sr_to q) as [to|] eqn:Hto.
      * eexists _, _. split; [done|]. apply (good_skip (Headers r')); [done..|right].
        split; [|congruence]. intros r q' [= <-] Hq'. split; [done|congruence].
      * destruct (request_from_peer_spec fuel env bs (Headers r') Henv) as (to & g & ->).
        cbn [mbind run_bind]. eexists _, _. split; [done|]. by apply good_headers_to.
  - cbn [mbind run_bind].
    destruct (try_initiate_spec fuel env bs1 Henv (good_ok _ _ _ _ Hg1)) as (c2 & bs2 & -> & Hg2 & Hs).
    cbn [mbind run_bind]. eexists _, _. split_and!; [done| |done]. by eapply good_trans.
Qed.

Lemma handle_payload_response_for_self_spec fuel env bs sender resp :
  env_ok fuel env → bs_ok asked bs → settled bs →
  ∃ cmds bs', handle_payload_response_for_self fuel env bs sender resp = Ret (cmds, bs') ∧
    good_by (answered sender (Payload (get_payload_id resp))) bs cmds bs' ∧ settled bs'.
Proof.
  intros Henv Hok Hset. unfold handle_payload_response_for_self.
  set (id := get_payload_id resp). pose proof (answered_drops sender (Payload id)) as Hpe.
  destruct (self_payload_requests bs !! id) as [[q|]|] eqn:Hq.
  2, 3: eexists _, _; split_and!; [done| |done]; apply (good_skip (Payload id)); [done..|right];
    split; congruence.
  match goal with |- context [mbind _ ?x] => assert (∃ cmds bs', x = Ret (cmds, bs') ∧
    good_by (answered sender (Payload id)) bs cmds bs') as (cmds & bs1 & -> & Hg1) end.
  - destruct resp as [payload|id']; cbn in id; subst id.
    + rewrite assert_true by by eapply bok_payloads. cbn [mbind run_bind]. eexists _, _. split; [done|].
      apply (good_fulfil _ bs _ (Some q)); [done..|]. destruct sender; eauto.
    + destruct sender as [s|]; [by eauto using good_refl|]. destruct (sr_to q) as [to|] eqn:Hto.
      * eexists _, _. split; [done|]. apply (good_skip (Payload id')); [done..|right].
        split; [congruence|]. intros id q' [= <-] Hq'. split; [done|congruence].
      * destruct (request_from_peer_spec fuel env bs (Payload id') Henv) as (to & g & ->).
        cbn [mbind run_bind]. eexists _, _. split; [done|]. by apply good_payload_to.
  - cbn [mbind run_bind].
    destruct (handle_completed_ranges_spec bs1 (good_ok _ _ _ _ Hg1)) as (c2 & bs2 & -> & Hg2 & _).
    cbn [mbind run_bind].
    destruct (try_initiate_spec fuel env bs2 Henv (good_ok _ _ _ _ Hg2)) as (c3 & bs3 & -> & Hg3 & Hs).
    cbn [mbind run_bind]. eexists _, _. split_and!; [done| |done].
    eapply good_trans; [done|]. by eapply good_trans.
Qed.

(** ** Replies to peers *)

Lemma reply_headers_spec resp requesters :
  (∀ r hs, resp = HeadersFound r hs → num_blocks r ≠ 0%N → chain_of r hs) →
  (∀ p cached, (p, cached) ∈ requesters →
     num_blocks (get_block_range resp) ≠ 0%N ∧ headers_linked cached = true ∧
     (∀ h, head cached = Some h → get_parent_id h = last_block_id (get_block_range resp)) ∧
     (num_blocks (requested_range (get_block_range resp) cached) ≤ u64_MAX)%N ∧
     (p, Headers (requested_range (get_block_range resp) cached)) ∈ asked) →
  ∃ cmds, reply_headers resp requesters = Ret cmds ∧ Forall (cmd_ok asked) cmds ∧
    (∀ p, pend_cmds p cmds = p) ∧ ∀ mode l, served mode l cmds l.
Proof.
  intros Hled. induction requesters as [|[p cached] requesters IH]; intros Hreq; cbn [reply_headers].
  { by exists []. }
  destruct (Hreq p cached) as (Hz & Hlink & Hpar & Hmax & Hask); [set_solver|].
  set (r := get_block_range resp) in *. rewrite SeqNum_add_Ret by done. cbn [mbind run_bind].
  fold (requested_range r cached).
  destruct IH as (cmds & -> & Hok & Hpend & Hserved); [set_solver|].
  match goal with |- context [mbind _ ?x] => assert (∃ response, x = Ret response ∧
    cmd_ok asked (SendResponse p (HeadersResponse response))) as (response & -> & Hresp) end.
  { destruct resp as [r' hs|r']; cbn in r; subst r; [|eexists; by split].
    specialize (Hled r' hs eq_refl Hz). rewrite assert_true by by eapply chain_of_app.
    eexists. split; [done|]. split; [done|]. apply verify_block_headers_chain.
    split_and!; [|cbn|by eapply chain_of_app].
    - destruct Hled as (Hn & _). cbn. rewrite length_app. lia.
    - destruct Hled as (_ & Hl & _). destruct cached as [|c cached _] using rev_ind; cbn.
      + by rewrite app_nil_r.
      + by rewrite (assoc_L (++)), !last_snoc. }
  cbn [mbind run_bind]. eexists. split_and!; [done|by constructor|done|done].
Qed.
End fixed_asked.

(** ** Events *)

Implicit Types asked : gset (PT * BlockSyncRequestMessage).

Lemma bs_ok_mono asked asked' bs : asked ⊆ asked' → bs_ok asked bs → bs_ok asked' bs.
Proof.
  intros Hsub [Hh Hp Hf Hc Hph Hpp]. split; [done..| |].
  - intros r m p cached Hm Hcached. destruct (Hph r m p cached Hm Hcached) as (?&?&?&?&?).
    split_and!; [done..|by apply Hsub].
  - intros id m p Hm Hp'. eapply Hsub, Hpp; eassumption.
Qed.

(** What the peers have asked for, after an event. *)
Definition asked_by (ev : BlockSyncEvent) asked : gset (PT * BlockSyncRequestMessage) :=
  match ev with
  | SyncRequest sender m => {[(sender, m)]} ∪ asked
  | _ => asked
  end.

(** The work an event concludes. *)
Definition pend_event (ev : BlockSyncEvent) (p : pending) : pending :=
  match ev with
  | SyncSelfResponse response => drop_fetch (answer_to response) p
  | SyncTimeout m => drop_timer m p
  | _ => p
  end.

(** The live ranges an event leaves to be served: a request of the other
    requester replaces all of them. *)
Definition accept (ev : BlockSyncEvent) (mode : BlockSyncSelfRequester) (live : gset BlockRange) :
    BlockSyncSelfRequester * gset BlockRange :=
  match ev with
  | SyncSelfRequest requester r =>
      if decide (num_blocks r = 0)%N then (mode, live)
      else (requester, {[r]} ∪ (if decide (requester = mode) then live else ∅))
  | SyncSelfCancelRequest requester r =>
      (mode, if decide (requester = mode) then live ∖ {[r]} else live)
  | _ => (mode, live)
  end.

(** The ledger answers with the chain of the range, and a requested number of
    blocks has 64 bits; nothing is assumed of the peers. *)
Definition event_ok (ev : BlockSyncEvent) : Prop :=
  match ev with
  | SyncSelfResponse (HeadersResponse (HeadersFound r hs)) => num_blocks r ≠ 0%N → chain_of r hs
  | SyncRequest _ (Headers r) => (num_blocks r ≤ u64_MAX)%N
  | _ => True
  end.

Lemma handle_peer_request_spec fuel env asked bs sender m :
  env_ok fuel env → event_ok (SyncRequest sender m) → bs_ok asked bs → settled bs →
  ∃ cmds bs', handle_peer_request env bs sender m = Ret (cmds, bs') ∧
    good_by (asked_by (SyncRequest sender m) asked) (λ p, p) bs cmds bs' ∧ settled bs'.
Proof.
  intros Henv Hev Hok Hset. cbn [asked_by]. set (asked' := {[(sender, m)]} ∪ asked).
  apply (bs_ok_mono asked asked') in Hok; [|set_solver].
  assert ((sender, m) ∈ asked') as Hask by set_solver.
  destruct m as [r|id]; cbn [handle_peer_request].
  - case_decide as Hz.
    { eexists _, _. split_and!; [done|by apply good_refl|done]. }
    destruct (cached_headers_spec fuel env r Henv) as (cached & -> & Hlink & Hlen & Hlast).
    cbn [mbind run_bind]. case_decide as Hall.
    + assert (cached ≠ []) as Hne by (intros ->; cbn in Hall; lia).
      rewrite assert_true by by rewrite Hlast. cbn [mbind run_bind].
      eexists _, _. split_and!; [done| |done]. split; [done|done|done|done|].
      constructor; [|done]. split; [done|]. apply verify_block_headers_chain. split_and!; auto.
    + rewrite SeqNum_sub_Ret by done. cbn [mbind run_bind].
      set (lr := {| last_block_id := _ |}). eexists _, _. split_and!; [done| |by destruct Hset].
      assert (requested_range lr cached = r) as Hrange.
      { unfold requested_range, lr. destruct r as [rid rn]. cbn in *. f_equal; [|lia].
        destruct cached as [|c cached]; [done|]. specialize (Hlast ltac:(done)).
        destruct (last (c :: cached)); cbn in Hlast; congruence. }
      destruct Hok as [Hh Hp Hf Hc Hph Hpp]. split; [done| | |done|by repeat constructor].
      * split; cbn; [done..| |done]. intros r' mm p cached'. rewrite lookup_insert_Some.
        intros [[<- <-]|[_ Hm]]; [|by apply Hph]. rewrite lookup_insert_Some.
        intros [[<- <-]|[_ Hm]].
        -- rewrite Hrange. split_and!; [cbn; lia|done| |cbn in Hev |- *; lia|done]. intros h Hh'. cbn. by rewrite Hh'.
        -- destruct (headers_requests bs !! lr) as [m0|] eqn:Hm0; cbn in Hm; [by eapply Hph|].
           by rewrite lookup_empty in Hm.
      * intros p Hw. by apply waits_fetch.
  - destruct (get_cached_payload env bs id) as [payload|] eqn:Hpay.
    + apply (get_cached_payload_ok asked' fuel) in Hpay; [|done..].
      eexists _, _. split_and!; [done| |done]. split; [done|done|done|done|].
      constructor; [|done]. split; [|done]. cbn. by rewrite Hpay.
    + eexists _, _. split_and!; [done| |by destruct Hset].
      destruct Hok as [Hh Hp Hf Hc Hph Hpp]. split; [done| | |done|by repeat constructor].
      * split; cbn; [done..|]. intros i mm p. rewrite lookup_insert_Some.
        intros [[<- <-]|[_ Hm]]; [|by eapply Hpp]. rewrite lookup_insert_Some.
        intros [[<- _]|[_ Hm]]; [done|].
        destruct (payload_requests bs !! id) as [m0|] eqn:Hm0; cbn in Hm; [by eapply Hpp|].
        by rewrite lookup_empty in Hm.
      * intros p Hw. by apply waits_fetch.
Qed.

Lemma handle_ledger_response_spec fuel env asked bs resp :
  env_ok fuel env → event_ok (SyncSelfResponse resp) → bs_ok asked bs → settled bs →
  ∃ cmds bs', handle_ledger_response fuel env bs resp = Ret (cmds, bs') ∧
    good_by asked (drop_fetch (answer_to resp)) bs cmds bs' ∧ settled bs'.
Proof.
  intros Henv Hev Hok Hset. pose proof Hok as [Hh Hp Hf Hc Hph Hpp].
  destruct resp as [resp|resp]; cbn [handle_ledger_response].
  - set (r := get_block_range resp).
    assert (∀ r hs, resp = HeadersFound r hs → num_blocks r ≠ 0%N → chain_of r hs) as Hled.
    { intros r' hs ->. exact Hev. }
    destruct (reply_headers_spec asked resp (btree_iter (default ∅ (headers_requests bs !! r))))
      as (replies & -> & Hcmds & Hpend & Hserved); [done| |].
    { intros p cached Hin%elem_of_btree_iter. fold r.
      destruct (headers_requests bs !! r) as [m|] eqn:Hm; cbn in Hin; [by eapply Hph|].
      by rewrite lookup_empty in Hin. }
    cbn [mbind run_bind]. set (bs1 := put_headers_requests _ bs).
    assert (good_by asked (λ p, p) bs replies bs1) as Hg.
    { split; [done| | |by apply Hserved|done].
      - split; cbn; [done..| |done]. intros r' m p cached [_ Hm]%lookup_delete_Some. by apply Hph.
      - intros p Hw. by rewrite Hpend. }
    destruct (handle_headers_response_for_self_spec asked fuel env bs1 None resp)
      as (cmds & bs' & -> & Hg' & Hset'); [done|by eapply good_ok|by destruct Hset|done|].
    cbn [mbind run_bind]. eexists _, _. split_and!; [done| |done].
    by apply (good_after _ _ _ _ bs1).
  - set (id := get_payload_id resp). set (bs1 := put_payload_requests _ bs).
    set (requesters := btree_keys _).
    assert (good_by asked (λ p, p) bs
      ((λ requester, SendResponse requester (PayloadResponse resp)) <$> requesters) bs1) as Hg.
    { assert (∀ p, p ∈ requesters → (p, Payload id) ∈ asked) as Hreq.
      { intros p [[] Hin]%elem_of_btree_keys.
        destruct (payload_requests bs !! id) as [m|] eqn:Hm; cbn in Hin; [by eapply Hpp|].
        by rewrite lookup_empty in Hin. }
      clearbody requesters. split; [done| | | |].
      - split; cbn; [done..|]. intros i m p [_ Hm]%lookup_delete_Some. by eapply Hpp.
      - intros p Hw. clear -Hw. induction requesters; done.
      - clear. induction requesters; done.
      - apply Forall_fmap, Forall_forall. intros p Hin. split; [by apply Hreq|done]. }
    destruct (handle_payload_response_for_self_spec asked fuel env bs1 None resp)
      as (cmds & bs' & -> & Hg' & Hset'); [done|by eapply good_ok|by destruct Hset|].
    cbn [mbind run_bind]. eexists _, _. split_and!; [done| |done].
    apply (good_after _ _ _ _ bs1); [|done|done]. intros p. clear. induction requesters; done.
Qed.

(** The node's own requests and cancellations. *)
Lemma handle_self_request_spec asked bs q r :
  bs_ok asked bs → settled bs →
  let '(cmds, bs') := handle_self_request bs q r in
  let '(mode, l) := accept (SyncSelfRequest q r) (self_request_mode bs) (live bs) in
  bs_ok asked bs' ∧ settled bs' ∧ self_request_mode bs' = mode ∧ served mode l cmds (live bs') ∧
  Forall (cmd_ok asked) cmds ∧ ∀ p, waits p bs → waits (pend_cmds p cmds) bs'.
Proof.
  intros Hok Hset. unfold handle_self_request, accept. case_decide as Hz; [by split_and!|].
  set (bs1 := if decide (q ≠ self_request_mode bs) then _ else bs).
  assert (bs_ok asked bs1 ∧ settled bs1 ∧ self_request_mode bs1 = q ∧
    live bs1 = (if decide (q = self_request_mode bs) then live bs else ∅) ∧
    ∀ p, waits p bs → waits p bs1) as (Hok1 & Hset1 & Hmode & Hlive & Hw1).
  { unfold bs1. destruct (decide (q = self_request_mode bs)) as [Hq|Hq].
    - rewrite decide_False by (intros Hn; by apply Hn). by split_and!.
    - rewrite decide_True by done. destruct Hok as [_ _ _ _ Hph Hpp]. split_and!; [|done| | |].
      + split; cbn; [done|done|by split|done|done|done].
      + done.
      + unfold live. cbn. by rewrite !dom_empty_L, (left_id_L ∅ (∪)).
      + done. }
  clearbody bs1. rewrite <- Hlive. unfold self_request_exists.
  destruct (decide (r ∈ live bs1)) as [Hin|Hin]; unfold live in Hin; rewrite elem_of_union, !elem_of_dom in Hin.
  - rewrite (proj2 (orb_true_iff _ _)) by by rewrite !bool_decide_eq_true.
    split_and!; [done..| |done|done]. cbn. unfold live.
    symmetry. apply subseteq_union_1_L, singleton_subseteq_l. by rewrite elem_of_union, !elem_of_dom.
  - rewrite (proj2 (orb_false_iff _ _)) by (rewrite !bool_decide_eq_false; tauto).
    apply Decidable.not_or in Hin as [Hn1 Hn2].
    apply eq_None_not_Some in Hn1, Hn2.
    destruct Hok1 as [Hh Hp Hf Hc Hph Hpp]. split_and!; [|by destruct Hset1|done| |by repeat constructor|].
    + split; cbn; [|done..]. intros r' q'. rewrite lookup_insert_Some.
      intros [[<- <-]|[_ Hq']]; [|by apply Hh]. by split_and!.
    + cbn. unfold live. cbn. by rewrite dom_insert_L, (assoc_L (∪)).
    + intros p [Hw2 Hw3]%Hw1. split; cbn; [|eauto using waiting_fetch].
      intros r' q'. rewrite lookup_insert_Some. intros [[<- <-]|[_ Hq']]; [|eauto using waiting_fetch].
      right. split; [done|]. cbn. set_solver.
Qed.

Lemma handle_self_cancel_request_spec asked bs q r :
  bs_ok asked bs → settled bs →
  let bs' := handle_self_cancel_request bs q r in
  let '(mode, l) := accept (SyncSelfCancelRequest q r) (self_request_mode bs) (live bs) in
  bs_ok asked bs' ∧ settled bs' ∧ self_request_mode bs' = mode ∧ live bs' = l ∧
  ∀ p, waits p bs → waits p bs'.
Proof.
  intros Hok Hset. unfold handle_self_cancel_request, accept.
  assert (∀ q', self_headers_requests bs !! r = Some q' → sr_requester q' = self_request_mode bs) as Hm1.
  { intros q' Hq'. by apply (bok_headers _ _ Hok _ _ Hq'). }
  assert (∀ c, self_completed_headers_requests bs !! r = Some c →
            ch_requester c = self_request_mode bs) as Hm2.
  { intros c Hc. by apply (bok_completed _ _ Hok _ _ Hc). }
  destruct (decide (q = self_request_mode bs)) as [->|Hne].
  2: { assert (∀ b, (match self_headers_requests bs !! r with
         | Some r0 => if decide (sr_requester r0 = q) then b else bs | None => bs end) = bs) as ->.
       { intros b. destruct (self_headers_requests bs !! r) as [q'|] eqn:Hq'; [|done].
         rewrite decide_False; [done|]. rewrite (Hm1 q' eq_refl). congruence. }
       assert (∀ b, (match self_completed_headers_requests bs !! r with
         | Some c => if decide (ch_requester c = q) then b else bs | None => bs end) = bs) as ->.
       { intros b. destruct (self_completed_headers_requests bs !! r) as [c|] eqn:Hc; [|done].
         rewrite decide_False; [done|]. rewrite (Hm2 c eq_refl). congruence. }
       by split_and!. }
  set (bs1 := match self_headers_requests bs !! r with Some _ => _ | None => bs end).
  assert (bs1 = put_self_headers (delete r (self_headers_requests bs)) bs) as ->.
  { unfold bs1. destruct (self_headers_requests bs !! r) as [q'|] eqn:Hq'; [by rewrite decide_True by auto|].
    rewrite delete_id by done. by destruct bs. }
  cbn [self_completed_headers_requests put_self_headers]. set (bs2 := match self_completed_headers_requests bs !! r with Some _ => _ | None => _ end).
  assert (bs2 = put_completed (delete r (self_completed_headers_requests bs))
                  (put_self_headers (delete r (self_headers_requests bs)) bs)) as ->.
  { unfold bs2. destruct (self_completed_headers_requests bs !! r) as [c|] eqn:Hc; [by rewrite decide_True by auto|].
    by rewrite (delete_id (self_completed_headers_requests bs)) by done. }
  destruct Hok as [Hh Hp Hf Hc Hph Hpp], Hset as [Ho Hq]. split_and!.
  - split; cbn; [|done|done| |done|done].
    + intros r' q' [_ Hq']%lookup_delete_Some. destruct (Hh r' q' Hq') as (? & ? & ?).
      split_and!; [done|done|]. by apply lookup_delete_None; right.
    + intros r' c [_ Hrc]%lookup_delete_Some. eauto.
  - split; cbn; [|done]. intros r' c [_ Hrc]%lookup_delete_Some. eauto.
  - done.
  - unfold live. cbn [self_headers_requests self_completed_headers_requests put_completed put_self_headers].
    rewrite !dom_delete_L. set_solver.
  - intros p [Hw1 Hw2]. split; cbn; [|done]. intros r' q' [_ Hq']%lookup_delete_Some. eauto.
Qed.

(** Every event: the handler returns, keeps the invariant and the pending work,
    and serves the live ranges. *)
Lemma sync_update_spec fuel env asked bs ev :
  env_ok fuel env → event_ok ev → bs_ok asked bs → settled bs →
  ∃ cmds bs', sync_update fuel env bs ev = Ret (cmds, bs') ∧
    bs_ok (asked_by ev asked) bs' ∧ settled bs' ∧
    self_request_mode bs' = (accept ev (self_request_mode bs) (live bs)).1 ∧
    served (self_request_mode bs') (accept ev (self_request_mode bs) (live bs)).2 cmds (live bs') ∧
    Forall (cmd_ok (asked_by ev asked)) cmds ∧
    ∀ p, waits p bs → waits (pend_cmds (pend_event ev p) cmds) bs'.
Proof.
  intros Henv Hev Hok Hset.
  assert (∀ cmds bs', (accept ev (self_request_mode bs) (live bs)) = (self_request_mode bs, live bs) →
    good_by (asked_by ev asked) (pend_event ev) bs cmds bs' → settled bs' →
    bs_ok (asked_by ev asked) bs' ∧ settled bs' ∧
    self_request_mode bs' = (accept ev (self_request_mode bs) (live bs)).1 ∧
    served (self_request_mode bs') (accept ev (self_request_mode bs) (live bs)).2 cmds (live bs') ∧
    Forall (cmd_ok (asked_by ev asked)) cmds ∧
    ∀ p, waits p bs → waits (pend_cmds (pend_event ev p) cmds) bs') as Hgood.
  { intros cmds bs' -> [Hm ? ? ? ?] ?. split_and!; [done..| |done|done]. cbn. by rewrite Hm. }
  destruct ev as [sender m|sender resp|q r|q r|resp|m]; cbn [sync_update].
  - destruct (handle_peer_request_spec fuel env asked bs sender m) as (cmds & bs' & Hrun & ? & ?);
      [done..|]. exists cmds, bs'. split; [done|]. by apply Hgood.
  - destruct resp as [resp|resp]; cbn [handle_peer_response].
    + destruct (handle_headers_response_for_self_spec asked fuel env bs (Some sender) resp)
        as (cmds & bs' & Hrun & ? & ?); [done..|]. exists cmds, bs'. split; [done|]. by apply Hgood.
    + destruct (handle_payload_response_for_self_spec asked fuel env bs (Some sender) resp)
        as (cmds & bs' & Hrun & ? & ?); [done..|]. exists cmds, bs'. split; [done|]. by apply Hgood.
  - clear Hgood. pose proof (handle_self_request_spec asked bs q r Hok Hset) as Hspec.
    destruct (handle_self_request bs q r) as [cmds bs'].
    destruct (accept _ _ _) as [mode l]. destruct Hspec as (? & ? & Hm & Hs & ? & ?).
    exists cmds, bs'. split_and!; [done..| |done|done]. cbn. by rewrite Hm.
  - clear Hgood. pose proof (handle_self_cancel_request_spec asked bs q r Hok Hset) as Hspec.
    destruct (accept _ _ _) as [mode l]. destruct Hspec as (? & ? & Hm & Hl & ?).
    eexists [], _. by split_and!.
  - destruct (handle_ledger_response_spec fuel env asked bs resp) as (cmds & bs' & Hrun & ? & ?);
      [done..|]. exists cmds, bs'. split; [done|]. by apply Hgood.
  - destruct (handle_timeout_spec asked fuel env bs m) as (cmds & bs' & Hrun & ? & ?); [done..|].
    exists cmds, bs'. split; [done|]. by apply Hgood.
Qed.

(** ** Reachable states *)

Inductive sync_reach : BlockSync → gset (PT * BlockSyncRequestMessage) → pending → Prop :=
| sync_new peers node seed entropy :
    sync_reach (BlockSync_new peers node seed entropy) ∅ {| fetches := ∅; timers := ∅ |}
| sync_peers bs asked p peers :
    sync_reach bs asked p → sync_reach (set_override_peers peers bs) asked p
| sync_step bs asked p fuel env ev cmds bs' :
    sync_reach bs asked p → env_ok fuel env → event_ok ev →
    sync_update fuel env bs ev = Ret (cmds, bs') →
    sync_reach bs' (asked_by ev asked) (pend_cmds (pend_event ev p) cmds).

Lemma sync_reach_ok bs asked p : sync_reach bs asked p → bs_ok asked bs ∧ settled bs ∧ waits p bs.
Proof.
  induction 1 as [|bs asked p peers _ (Hok & Hset & Hw)|bs asked p fuel env ev cmds bs' _ (Hok & Hset & Hw) Henv Hev Hrun].
  - split_and!; [split; cbn; by (try split)|by split|by split].
  - split_and!; [by destruct Hok|by destruct Hset|by destruct Hw].
  - destruct (sync_update_spec fuel env asked bs ev) as (cmds' & bs'' & Hrun' & ? & ? & _ & _ & _ & Hw');
      [done..|]. rewrite Hrun in Hrun'. injection Hrun' as <- <-. split_and!; [done..|]. by apply Hw'.
Qed.

(** ** Theorems *)

(** C6: block synchronisation implements its specification whatever the peers
    send.  In every reachable state every event is handled without a panic; each
    range handed out is a live one of the current requester and consists of
    exactly the requested number of blocks, linked by hash up to the requested
    id, with the bodies their headers name; requests, cancellations and emissions
    change the set of live ranges as specified; and each response goes to a peer
    that asked for it and passes that peer's verification. *)
Theorem blocksync_serves_requests fuel env asked p bs ev :
  sync_reach bs asked p → env_ok fuel env → event_ok ev →
  let '(mode, to_serve) := accept ev (self_request_mode bs) (live bs) in
  ∃ cmds bs', sync_update fuel env bs ev = Ret (cmds, bs') ∧
    self_request_mode bs' = mode ∧ served mode to_serve cmds (live bs') ∧
    Forall (cmd_ok (asked_by ev asked)) cmds.
Proof.
  intros (Hok & Hset & _)%sync_reach_ok Henv Hev.
  destruct (sync_update_spec fuel env asked bs ev) as (cmds & bs' & Hrun & _ & _ & Hm & Hs & Hc & _);
    [done..|].
  destruct (accept _ _ _) as [mode l]. cbn in Hm, Hs. subst mode. by exists cmds, bs'.
Qed.

(** The ledger or a timer will answer for [m]. *)
Definition under_way (p : pending) (m : BlockSyncRequestMessage) : Prop := m ∈ timers p ∨ m ∈ fetches p.

Lemma waiting_under_way p m to : waiting p m to → under_way p m.
Proof. intros [?|[_ ?]]; [by left|by right]. Qed.

(** C7: no request of the node is forgotten: while a range is live, either its
    headers are under way (a ledger fetch or a retry timer is outstanding), or it
    misses a body whose request is under way or queued behind exactly
    [BLOCKSYNC_MAX_PAYLOAD_REQUESTS] other payload requests that are. *)
Theorem blocksync_never_stalls asked p bs r :
  sync_reach bs asked p → r ∈ live bs →
  under_way p (Headers r) ∨
  ∃ c h, self_completed_headers_requests bs !! r = Some c ∧ (h, None) ∈ ch_blocks c ∧
    (under_way p (Payload (block_body_id h)) ∨
     ∃ ids, NoDup ids ∧ N.of_nat (length ids) = BLOCKSYNC_MAX_PAYLOAD_REQUESTS ∧
       Forall (λ id, under_way p (Payload id)) ids).
Proof.
  intros (Hok & [Hopen Hqueue] & [Hw1 Hw2])%sync_reach_ok. unfold live.
  rewrite elem_of_union, !elem_of_dom. intros [[q Hq]|[c Hc]].
  { left. eapply waiting_under_way, Hw1, Hq. }
  right. specialize (Hopen r c Hc).
  assert (∃ h, (h, None) ∈ ch_blocks c) as [h Hh].
  { unfold range_complete in Hopen. clear -Hopen.
    induction (ch_blocks c) as [|[h [b|]] l IH]; cbn in Hopen; [done| |].
    - destruct (IH Hopen) as [h' ?]. exists h'. set_solver.
    - exists h. set_solver. }
  exists c, h. split_and!; [done|done|].
  destruct (cok_missing _ _ _ _ (bok_completed _ _ Hok _ _ Hc) h Hh) as [[q|] Hq].
  { left. eapply waiting_under_way, Hw2, Hq. }
  right. exists (map_to_list (filter (λ x, is_Some x.2) (self_payload_requests bs))).*1. split_and!.
  - apply NoDup_fst_map_to_list.
  - rewrite <- (Hqueue _ Hq), length_fmap, length_map_to_list. symmetry. apply (bok_in_flight _ _ Hok).
  - apply Forall_forall. intros id ([id' x] & -> & Hin)%list_elem_of_fmap.
    apply elem_of_map_to_list, map_lookup_filter_Some in Hin as [Hin [q' Hx]]. cbn in *. subst x.
    eapply waiting_under_way, Hw2, Hin.
Qed.
End spec.

(** ** A concrete synchronisation

    A full node asks for two blocks; its ledger has the headers. *)

#[local] Existing Instance NopProtocol.
#[local] Existing Instance NopCodec.
#[local] Existing Instance list_HashIter.
#[local] Existing Instance example_policy.

#[local] Program Instance zero_rng : SeedableRng := {|
  rng := ();
  seed_from_u64 _ := ();
  fill_bytes n g := (replicate n 0%N, g);
|}.
Next Obligation. intros. apply length_replicate. Qed.
Next Obligation. intros. by apply Forall_replicate. Qed.

#[local] Program Instance first_choice : SliceRandom := {| choose _ l g := (head l, g) |}.
Next Obligation. done. Qed.
Next Obligation. intros A [|x l] g ?; [done|]. exists x. set_solver. Qed.

Definition example_b : ConsensusFullBlock := example_block 2 (blk_get_id example_a) 1 2.
Definition example_range : BlockRange := {| last_block_id := blk_get_id example_b; num_blocks := 2 |}.
Definition example_headers : list ConsensusBlockHeader := [header example_a; header example_b].

Definition example_wrapper : BlockSyncWrapper := {|
  block_cache := CacheBlockBuffer ∅; bs_nodeid := (9%N : PT); bs_current_epoch := 1;
  bs_val_epoch_map := {| validator_map := {[1%N := (four_validators, ∅)]} |};
  secondary_raptorcast_peers := {[1%N := 0%N]};
|}.

Lemma example_wrapper_ok : env_ok 1 example_wrapper.
Proof.
  split.
  - intros id b Hb. cbn in Hb. by rewrite lookup_empty in Hb.
  - exists four_validators. split; [by vm_compute|]. intros Hin. exfalso.
    cut (bool_decide (is_Some (get_members four_validators !! 9%N)) = false);
      [|vm_compute; reflexivity].
    rewrite bool_decide_eq_false. intros Hn. exact (Hn Hin).
  - intros g m [Hm _]. cbn [randomize_loop fill_bytes zero_rng]. rewrite decide_True; [eauto|].
    change (from_le_bytes (replicate 32 0%N)) with 0%N. lia.
Qed.

Definition example_sync : BlockSync := BlockSync_new [] (9%N : PT) (Some 7%N) ().
Definition example_asks : BlockSyncEvent := SyncSelfRequest StateSync example_range.
Definition example_ledger_headers : BlockSyncEvent :=
  SyncSelfResponse (HeadersResponse (HeadersFound example_range example_headers)).
Definition example_ledger_body : BlockSyncEvent :=
  SyncSelfResponse (PayloadResponse (BodyFound (9%N : Body))).

Definition example_sync_run : run (BlockSync * BlockSync) :=
  '(_, bs1) ← sync_update 1 example_wrapper example_sync example_asks;
  '(_, bs2) ← sync_update 1 example_wrapper bs1 example_ledger_headers;
  Ret (bs1, bs2).

Definition emitted (cmds : list BlockSyncCommand) : list (BlockRange * nat) :=
  omap (λ c, match c with Emit _ r blocks => Some (r, length blocks) | _ => None end) cmds.

(** The states after the request and after the headers. *)
Lemma example_sync_reach :
  ∃ bs1 bs2 p1 p2, example_sync_run = Ret (bs1, bs2) ∧
    sync_reach bs1 ∅ p1 ∧ sync_reach bs2 ∅ p2.
Proof.
  destruct (is_ret_true example_sync_run) as [[bs1 bs2] Hrun]; [vm_compute; reflexivity|].
  exists bs1, bs2. pose proof Hrun as Hrun'. unfold example_sync_run in Hrun'.
  apply run_bind_Ret in Hrun' as ([c1 b1] & H1 & Hrun').
  apply run_bind_Ret in Hrun' as ([c2 b2] & H2 & [= -> ->]).
  assert (event_ok example_ledger_headers) as Hled.
  { intros _. apply verify_block_headers_chain. vm_compute. reflexivity. }
  pose proof (sync_new [] (9%N : PT) (Some 7%N) ()) as Hr0.
  pose proof (sync_step _ _ _ _ _ example_asks _ _ Hr0 example_wrapper_ok I H1) as Hr1.
  pose proof (sync_step _ _ _ _ _ _ _ _ Hr1 example_wrapper_ok Hled H2) as Hr2.
  eexists _, _. split_and!; [exact Hrun|exact Hr1|exact Hr2].
Qed.

Lemma blocksync_serves_requests_witness :
  ∃ bs cmds bs', sync_update 1 example_wrapper bs example_ledger_body = Ret (cmds, bs') ∧
    served StateSync (live bs) cmds (live bs') ∧ emitted cmds = [(example_range, 2)].
Proof.
  destruct example_sync_reach as (bs1 & bs & _ & p & Hrun & _ & Hreach).
  pose proof (blocksync_serves_requests 1 example_wrapper ∅ p bs example_ledger_body Hreach
    example_wrapper_ok I) as (cmds & bs' & Hup & Hm & Hs & _).
  assert (match (r ← example_sync_run; sync_update 1 example_wrapper r.2 example_ledger_body) with
          | Ret x => bool_decide (emitted x.1 = [(example_range, 2)]) &&
                     bool_decide (self_request_mode x.2 = StateSync)
          | Panic => false
          end = true) as Hx by (vm_compute; reflexivity).
  rewrite Hrun in Hx. cbn [mbind run_bind snd] in Hx. rewrite Hup in Hx. cbn [fst snd] in Hx.
  apply andb_true_iff in Hx as [He%bool_decide_eq_true_1 Hmode%bool_decide_eq_true_1].
  rewrite <- Hm, Hmode in Hs.
  exists bs, cmds, bs'. split; [exact Hup|]. split; [exact Hs|exact He].
Defined.

Lemma blocksync_never_stalls_witness :
  ∃ bs p, under_way p (Headers example_range) ∨
    ∃ c h, self_completed_headers_requests bs !! example_range = Some c ∧ (h, None) ∈ ch_blocks c ∧
    (under_way p (Payload (block_body_id h)) ∨
     ∃ ids, NoDup ids ∧ N.of_nat (length ids) = BLOCKSYNC_MAX_PAYLOAD_REQUESTS ∧
       Forall (λ id, under_way p (Payload id)) ids).
Proof.
  destruct example_sync_reach as (bs1 & bs & _ & p & Hrun & _ & Hreach).
  exists bs, p. apply (blocksync_never_stalls ∅ p bs example_range Hreach).
  assert (match example_sync_run with
          | Ret x => bool_decide (example_range ∈ live x.2)
          | Panic => false
          end = true) as Hin by (vm_compute; reflexivity).
  rewrite Hrun in Hin. exact (bool_decide_eq_true_1 _ Hin).
Defined.
