(* ===== verification/BlockLedger.v ===== *)
(** * The ledger of blocks ([src/ledger/src/lib.rs], [src/block-persist/src/lib.rs])

    [KinetBlockFileLedger] persists the blocks that consensus commits, one file
    for a header and one for a body, keeps the most recent ones in a bounded
    cache, and answers the fetches of block synchronisation from the two.

    Shown here: the answers are what [BlockSync] relies on (the chain of the range,
    the body of the id), the cache keeps its bound and stays consistent with its
    index, a head link is never lost, and the closed loop of block synchronisation
    and ledger runs without a panic. *)
From S2P Require Import Prelude Types ValidatorSet EpochManager LeaderElection SignatureCollection.
From S2P Require Import Certificates Tree BlockTree BlockSync BlockSyncSpec.

(** ** FileBlockPersist *)

Inductive Head := ProposedHead | VotedHead | FinalizedHead.

#[global] Instance Head_eq_dec : EqDecision Head.
Proof. solve_decision. Defined.

#[global] Instance Head_countable : Countable Head.
Proof.
  apply (inj_countable' (λ h, match h with ProposedHead => 0 | VotedHead => 1 | FinalizedHead => 2 end)
           (λ n, match n with 0 => ProposedHead | 1 => VotedHead | _ => FinalizedHead end)).
  by intros [].
Defined.

Inductive IoError := IoAlreadyExists | IoNotFound | IoDecode.

(** The files below the ledger path: headers and bodies by the hex of their id,
    and the symbolic links of the heads, each with the [.wip] link that
    [atomic_symlink_update] goes through. *)
Record FileBlockPersist := {
  header_files : gmap BlockId bytes;
  body_files : gmap N bytes;
  head_links : gmap Head BlockId;
  wip_links : gmap Head BlockId;
}.

Definition FileBlockPersist_new : FileBlockPersist :=
  {| header_files := ∅; body_files := ∅; head_links := ∅; wip_links := ∅ |}.

(** [alloy_rlp::decode_exact] of what [alloy_rlp::encode] wrote. *)
Class BlockDecoder `{Codec} := {
  decode_header : bytes → option ConsensusBlockHeader;
  decode_body : bytes → option Body;
  decode_encode_header h : decode_header (encode_header h) = Some h;
  decode_encode_body b : decode_body (encode_body b) = Some b;
}.

(** [std::os::unix::fs::symlink]: the link must not exist. *)
Definition symlink_wip (target : BlockId) (link : Head) (fs : FileBlockPersist) :
    result FileBlockPersist IoError :=
  match wip_links fs !! link with
  | Some _ => Err IoAlreadyExists
  | None => Ok {| header_files := header_files fs; body_files := body_files fs;
                  head_links := head_links fs; wip_links := <[link := target]> (wip_links fs) |}
  end.

(** [std::fs::rename]: replaces the destination. *)
Definition rename_wip (link : Head) (fs : FileBlockPersist) : result FileBlockPersist IoError :=
  match wip_links fs !! link with
  | None => Err IoNotFound
  | Some target =>
      Ok {| header_files := header_files fs; body_files := body_files fs;
            head_links := <[link := target]> (head_links fs);
            wip_links := delete link (wip_links fs) |}
  end.

Definition atomic_symlink_update (target : BlockId) (link : Head) (fs : FileBlockPersist) :
    result FileBlockPersist IoError :=
  fs ←! symlink_wip target link fs;
  rename_wip link fs.

Section persist.
Context `{HC : Codec} `{!BlockDecoder}.

(** An existing file is left as it is; its time stamp is not modelled. *)
Definition write_bft_header (block : ConsensusBlockHeader) (fs : FileBlockPersist) : FileBlockPersist :=
  match header_files fs !! get_id block with
  | Some _ => fs
  | None => {| header_files := <[get_id block := encode_header block]> (header_files fs);
               body_files := body_files fs; head_links := head_links fs; wip_links := wip_links fs |}
  end.

Definition write_bft_body (body : Body) (fs : FileBlockPersist) : FileBlockPersist :=
  match body_files fs !! body_get_id body with
  | Some _ => fs
  | None => {| header_files := header_files fs;
               body_files := <[body_get_id body := encode_body body]> (body_files fs);
               head_links := head_links fs; wip_links := wip_links fs |}
  end.

Definition read_and_decode {A} (decode : bytes → option A) (file : option bytes) : result A IoError :=
  buf ←! ok_or file IoNotFound;
  ok_or (decode buf) IoDecode.

Definition read_bft_header (fs : FileBlockPersist) (block_id : BlockId) :
    result ConsensusBlockHeader IoError :=
  read_and_decode decode_header (header_files fs !! block_id).

Definition read_bft_body (fs : FileBlockPersist) (body_id : N) : result Body IoError :=
  read_and_decode decode_body (body_files fs !! body_id).

Definition read_proposed_head_bft_header (fs : FileBlockPersist) :
    result ConsensusBlockHeader IoError :=
  target ←! ok_or (head_links fs !! ProposedHead) IoNotFound;
  read_and_decode decode_header (header_files fs !! target).

(** ** KinetBlockFileLedger *)

Record KinetBlockFileLedger := {
  bft_block_persist : FileBlockPersist;
  last_commit : option (SeqNum * Round);
  block_cache_size : nat;
  ledger_cache : gmap BlockId ConsensusFullBlock;
  block_payload_cache : gmap N Body;
  block_cache_index : gmap Round (BlockId * N);
}.

Definition KinetBlockFileLedger_new (bft_block_persist : FileBlockPersist) : KinetBlockFileLedger :=
  {| bft_block_persist := bft_block_persist; last_commit := None; block_cache_size := 1000;
     ledger_cache := ∅; block_payload_cache := ∅; block_cache_index := ∅ |}.

Definition is_cache_hydrated (self : KinetBlockFileLedger) : bool :=
  bool_decide (block_cache_size self ≤ size (block_cache_index self)).

Definition update_cache (self : KinetBlockFileLedger) (kinet_block : ConsensusFullBlock) :
    run KinetBlockFileLedger :=
  let block_id := blk_get_id kinet_block in
  let payload_id := blk_get_body_id kinet_block in
  let block_round := blk_get_block_round kinet_block in
  let '(cache, payload_cache) :=
    match block_cache_index self !! block_round with
    | Some (block_id, payload_id) =>
        (delete block_id (ledger_cache self), delete payload_id (block_payload_cache self))
    | None => (ledger_cache self, block_payload_cache self)
    end in
  let index := <[block_round := (block_id, payload_id)]> (block_cache_index self) in
  '(index, cache, payload_cache) ←
    (if decide (block_cache_size self < size index) then
       '(evicted_round, (block_id, payload_id)) ← expect (head (btree_iter index));
       Ret (delete evicted_round index, delete block_id cache, delete payload_id payload_cache)
     else Ret (index, cache, payload_cache));
  Ret {| bft_block_persist := bft_block_persist self; last_commit := last_commit self;
         block_cache_size := block_cache_size self;
         ledger_cache := <[block_id := kinet_block]> cache;
         block_payload_cache := <[payload_id := body kinet_block]> payload_cache;
         block_cache_index := index |}.

Definition with_persist (fs : FileBlockPersist) (self : KinetBlockFileLedger) : KinetBlockFileLedger :=
  {| bft_block_persist := fs; last_commit := last_commit self;
     block_cache_size := block_cache_size self; ledger_cache := ledger_cache self;
     block_payload_cache := block_payload_cache self; block_cache_index := block_cache_index self |}.

Definition with_last_commit (c : option (SeqNum * Round)) (self : KinetBlockFileLedger) :
    KinetBlockFileLedger :=
  {| bft_block_persist := bft_block_persist self; last_commit := c;
     block_cache_size := block_cache_size self; ledger_cache := ledger_cache self;
     block_payload_cache := block_payload_cache self; block_cache_index := block_cache_index self |}.

Definition write_bft_block (self : KinetBlockFileLedger) (full_block : ConsensusFullBlock) :
    KinetBlockFileLedger :=
  with_persist
    (write_bft_header (header full_block)
       (write_bft_body (body full_block) (bft_block_persist self))) self.

(** The [while] loop, [n] headers from the end. *)
Fixpoint fetch_headers_loop (self : KinetBlockFileLedger) (n : nat) (next_block_id : BlockId)
    (headers : list ConsensusBlockHeader) : option (list ConsensusBlockHeader) :=
  match n with
  | 0 => Some headers
  | S n =>
      block_header ←
        match ledger_cache self !! next_block_id with
        | Some cached_block => Some (header cached_block)
        | None =>
            if is_cache_hydrated self then None
            else match read_bft_header (bft_block_persist self) next_block_id with
                 | Ok block => Some block
                 | Err _ => None
                 end
        end;
      fetch_headers_loop self n (get_parent_id block_header) (block_header :: headers)
  end.

Definition ledger_fetch_headers (self : KinetBlockFileLedger) (block_range : BlockRange) :
    BlockSyncHeadersResponse :=
  if decide (BLOCKSYNC_MAX_NUM_HEADERS < num_blocks block_range)%N
  then HeadersNotAvailable block_range
  else
    match fetch_headers_loop self (N.to_nat (num_blocks block_range)) (last_block_id block_range) [] with
    | Some headers => HeadersFound block_range headers
    | None => HeadersNotAvailable block_range
    end.

Definition ledger_fetch_payload (self : KinetBlockFileLedger) (payload_id : N) :
    BlockSyncBodyResponse :=
  match block_payload_cache self !! payload_id with
  | Some cached_payload => BodyFound cached_payload
  | None =>
      if is_cache_hydrated self then BodyNotAvailable payload_id
      else match read_bft_body (bft_block_persist self) payload_id with
           | Ok payload => BodyFound payload
           | Err _ => BodyNotAvailable payload_id
           end
  end.

(** ** Commands *)

Inductive OptimisticCommit :=
| Proposed (block : ConsensusFullBlock) (is_canonical : bool)
| Voted (block : ConsensusFullBlock)
| Finalized (block : ConsensusFullBlock).

Inductive LedgerCommand :=
| LedgerCommit (commit : OptimisticCommit)
| LedgerFetchHeaders (range : BlockRange)
| LedgerFetchPayload (payload_id : N).

(** [update_..._head(..).unwrap()] *)
Definition update_head (self : KinetBlockFileLedger) (link : Head) (block_id : BlockId) :
    run KinetBlockFileLedger :=
  match atomic_symlink_update block_id link (bft_block_persist self) with
  | Ok fs => Ret (with_persist fs self)
  | Err _ => Panic
  end.

(** One command of [exec]; the response goes to the channel [fetches]. *)
Definition ledger_exec (self : KinetBlockFileLedger) (command : LedgerCommand) :
    run (option BlockSyncResponseMessage * KinetBlockFileLedger) :=
  match command with
  | LedgerCommit (Proposed block is_canonical) =>
      let self := write_bft_block self block in
      self ← (if is_canonical : bool then update_head self ProposedHead (blk_get_id block)
              else Ret self);
      self ← update_cache self block;
      Ret (None, self)
  | LedgerCommit (Voted block) =>
      let block_id := blk_get_id block in
      self ← update_cache self block;
      self ← update_head self VotedHead block_id;
      Ret (None, self)
  | LedgerCommit (Finalized block) =>
      let block_id := blk_get_id block in
      let self := with_last_commit (Some (blk_get_seq_num block, blk_get_block_round block)) self in
      self ← update_head self FinalizedHead block_id;
      Ret (None, self)
  | LedgerFetchHeaders block_range =>
      Ret (Some (HeadersResponse (ledger_fetch_headers self block_range)), self)
  | LedgerFetchPayload payload_id =>
      Ret (Some (PayloadResponse (ledger_fetch_payload self payload_id)), self)
  end.

(** ** Invariant *)

Implicit Types (fs : FileBlockPersist) (l : KinetBlockFileLedger).

(** The files hold the encodings of what their names say, a header's body is
    there, a head points to a header, and no update of a head is half done. *)
Record files_ok fs : Prop := {
  fok_header id buf : header_files fs !! id = Some buf →
    ∃ h, buf = encode_header h ∧ get_id h = id ∧ is_Some (body_files fs !! block_body_id h);
  fok_body id buf : body_files fs !! id = Some buf → ∃ b, buf = encode_body b ∧ body_get_id b = id;
  fok_proposed id : head_links fs !! ProposedHead = Some id → is_Some (header_files fs !! id);
  fok_wip : wip_links fs = ∅;
}.

Record ledger_ok l : Prop := {
  lok_files : files_ok (bft_block_persist l);
  lok_cache id b : ledger_cache l !! id = Some b → blk_get_id b = id;
  lok_payload id p : block_payload_cache l !! id = Some p → body_get_id p = id;
  lok_size : size (block_cache_index l) ≤ block_cache_size l;
  lok_pos : 0 < block_cache_size l;
}.

(** Nothing on disk is lost. *)
Definition files_le fs fs' : Prop :=
  header_files fs ⊆ header_files fs' ∧ body_files fs ⊆ body_files fs'.

Lemma files_ok_new : files_ok FileBlockPersist_new.
Proof. by split. Qed.

Lemma ledger_ok_new fs : files_ok fs → ledger_ok (KinetBlockFileLedger_new fs).
Proof. intros Hfs. split; cbn; [done|done|done|rewrite map_size_empty; lia|lia]. Qed.

Lemma write_bft_body_ok b fs :
  files_ok fs → files_ok (write_bft_body b fs) ∧ files_le fs (write_bft_body b fs) ∧
  is_Some (body_files (write_bft_body b fs) !! body_get_id b).
Proof.
  intros [Hh Hb Hp Hw]. unfold write_bft_body. destruct (_ !! body_get_id b) eqn:Hl.
  { split_and!; [by split|by split|eauto]. }
  split_and!; [split; cbn|split; cbn|cbn].
  - intros id buf Hid. destruct (Hh id buf Hid) as (h & ? & ? & [x Hx]). exists h. split_and!; [done..|].
    destruct (decide (body_get_id b = block_body_id h)) as [->|Hne].
    + rewrite lookup_insert_eq. eauto.
    + rewrite lookup_insert_ne by done. eauto.
  - intros id buf. rewrite lookup_insert_Some. intros [[<- <-]|[_ ?]]; eauto.
  - done.
  - done.
  - done.
  - by apply insert_subseteq.
  - rewrite lookup_insert_eq. eauto.
Qed.

Lemma write_bft_header_ok h fs :
  files_ok fs → is_Some (body_files fs !! block_body_id h) →
  files_ok (write_bft_header h fs) ∧ files_le fs (write_bft_header h fs) ∧
  is_Some (header_files (write_bft_header h fs) !! get_id h).
Proof.
  intros [Hh Hb Hp Hw] Hbody. unfold write_bft_header. destruct (_ !! get_id h) eqn:Hl.
  { split_and!; [by split|by split|eauto]. }
  split_and!; [split; cbn|split; cbn|cbn].
  - intros id buf. rewrite lookup_insert_Some. intros [[<- <-]|[_ ?]]; eauto.
  - done.
  - intros id Hid. rewrite lookup_insert_is_Some'. right. eauto.
  - done.
  - by apply insert_subseteq.
  - done.
  - rewrite lookup_insert_eq. eauto.
Qed.

Lemma write_bft_block_ok l b :
  ledger_ok l → body_matches b →
  ledger_ok (write_bft_block l b) ∧
  files_le (bft_block_persist l) (bft_block_persist (write_bft_block l b)) ∧
  is_Some (header_files (bft_block_persist (write_bft_block l b)) !! blk_get_id b).
Proof.
  intros [Hf Hc Hp Hs Hpos] Hm.
  destruct (write_bft_body_ok (body b) _ Hf) as (Hf1 & Hle1 & Hb1).
  rewrite Hm in Hb1. destruct (write_bft_header_ok (header b) _ Hf1 Hb1) as (Hf2 & Hle2 & Hh2).
  split_and!; [by split| |done]. destruct Hle1, Hle2. split; cbn; by etrans.
Qed.

Lemma update_head_ok l link id :
  ledger_ok l → (link = ProposedHead → is_Some (header_files (bft_block_persist l) !! id)) →
  ∃ l', update_head l link id = Ret l' ∧ ledger_ok l' ∧
    files_le (bft_block_persist l) (bft_block_persist l') ∧
    head_links (bft_block_persist l') = <[link := id]> (head_links (bft_block_persist l)).
Proof.
  intros [[Hh Hb Hpr Hw] Hc Hp Hs Hpos] Hlink.
  unfold update_head, atomic_symlink_update, symlink_wip, rename_wip.
  rewrite Hw, lookup_empty. cbn [res_try wip_links]. rewrite lookup_insert_eq. cbn.
  eexists. split_and!; [done| |done|done]. split; cbn; [|done..]. split; cbn; [done|done| |].
  - intros id'. rewrite lookup_insert_Some. intros [[-> <-]|[_ ?]]; eauto.
  - rewrite delete_insert_id; [done|]. apply lookup_empty.
Qed.

Lemma update_cache_ok l b :
  ledger_ok l → body_matches b →
  ∃ l', update_cache l b = Ret l' ∧ ledger_ok l' ∧ bft_block_persist l' = bft_block_persist l.
Proof.
  intros [Hf Hc Hp Hs Hpos] Hm. unfold update_cache.
  set (cp := match block_cache_index l !! blk_get_block_round b with Some _ => _ | None => _ end).
  assert ((∀ id b, cp.1 !! id = Some b → blk_get_id b = id) ∧
          (∀ id p, cp.2 !! id = Some p → body_get_id p = id)) as [Hc1 Hp1].
  { unfold cp. destruct (_ !! _) as [[bid pid]|]; [|done]. cbn.
    split; intros ?? [_ ?]%lookup_delete_Some; eauto. }
  clearbody cp. destruct cp as [cache payload_cache]. cbn in Hc1, Hp1.
  set (index := <[_ := _]> (block_cache_index l)).
  assert (∃ index' cache' payload', (if decide (block_cache_size l < size index) then
       '(evicted_round, (block_id, payload_id)) ← expect (head (btree_iter index));
       Ret (delete evicted_round index, delete block_id cache, delete payload_id payload_cache)
     else Ret (index, cache, payload_cache)) = Ret (index', cache', payload') ∧
     size index' ≤ block_cache_size l ∧ cache' ⊆ cache ∧ payload' ⊆ payload_cache)
    as (index' & cache' & payload' & -> & Hsz & Hsub1 & Hsub2).
  { case_decide as Hd; [|eexists _, _, _; split_and!; [done|lia|done|done]].
    destruct (btree_iter index) as [|[er [ebid epid]] rest] eqn:Hit.
    { apply btree_iter_nil in Hit. rewrite Hit, map_size_empty in Hd. lia. }
    cbn. eexists _, _, _. split_and!; [done| |apply delete_subseteq|apply delete_subseteq].
    assert (is_Some (index !! er)) as Her.
    { exists (ebid, epid). apply elem_of_btree_iter. rewrite Hit. set_solver. }
    rewrite map_size_delete_Some by done.
    assert (size index ≤ S (size (block_cache_index l))); [|lia].
    unfold index. rewrite map_size_insert. case_match; cbn; lia. }
  cbn [mbind run_bind]. eexists. split_and!; [done| |done]. split; cbn; [done| | |done|done].
  - intros id b'. rewrite lookup_insert_Some. intros [[<- <-]|[_ Hl]]; [done|].
    apply Hc1. by eapply lookup_weaken.
  - intros id p. rewrite lookup_insert_Some. intros [[<- <-]|[_ Hl]]; [done|].
    apply Hp1. by eapply lookup_weaken.
Qed.

(** ** The answers *)

Lemma read_bft_header_ok fs id h :
  files_ok fs → read_bft_header fs id = Ok h →
  get_id h = id ∧ ∃ b, read_bft_body fs (block_body_id h) = Ok b ∧ body_get_id b = block_body_id h.
Proof.
  intros [Hh Hb _ _]. unfold read_bft_header, read_and_decode. rewrite res_try_Ok.
  intros (buf & Hbuf%ok_or_Ok & Hdec%ok_or_Ok).
  destruct (Hh id buf Hbuf) as (h' & -> & Hid & [bbuf Hbbuf]).
  rewrite decode_encode_header in Hdec. simplify_eq. split; [done|].
  destruct (Hb _ _ Hbbuf) as (b & -> & Hbid). exists b. split; [|done].
  unfold read_bft_body, read_and_decode. rewrite Hbbuf. cbn. by rewrite decode_encode_body.
Qed.

Lemma read_bft_body_ok fs id b :
  files_ok fs → read_bft_body fs id = Ok b → body_get_id b = id.
Proof.
  intros [_ Hb _ _]. unfold read_bft_body, read_and_decode. rewrite res_try_Ok.
  intros (buf & Hbuf%ok_or_Ok & Hdec%ok_or_Ok). destruct (Hb id buf Hbuf) as (b' & -> & Hid).
  rewrite decode_encode_body in Hdec. by simplify_eq.
Qed.

Lemma fetch_headers_loop_ok l n id headers hs :
  ledger_ok l → headers_linked headers = true →
  (∀ h, head headers = Some h → get_parent_id h = id) →
  fetch_headers_loop l n id headers = Some hs →
  ∃ fetched, hs = fetched ++ headers ∧ length fetched = n ∧ headers_linked hs = true ∧
    (0 < n → get_id <$> last fetched = Some id).
Proof.
  intros Hok. revert id headers. induction n as [|n IH]; intros id headers Hl Hhd; cbn.
  { intros [= <-]. exists []. split_and!; [done..|lia]. }
  intros (h & Hh & Hloop)%bind_Some.
  assert (get_id h = id) as Hid.
  { destruct (ledger_cache l !! id) as [b|] eqn:Hb.
    - simplify_eq. by apply (lok_cache _ Hok).
    - destruct (is_cache_hydrated l); [done|].
      destruct (read_bft_header _ id) as [h'|] eqn:Hr; simplify_eq.
      by eapply read_bft_header_ok; [apply Hok|]. }
  apply IH in Hloop as (fetched & -> & Hlen & Hlink & Hlast).
  - exists (fetched ++ [h]). rewrite <- (assoc_L (++)). split_and!; [done| |done|].
    + rewrite length_app, Hlen. cbn. lia.
    + intros _. rewrite last_snoc. cbn. by rewrite Hid.
  - destruct headers as [|h' headers]; [done|]. cbn [headers_linked].
    rewrite andb_true_iff, bool_decide_eq_true. split; [|done]. rewrite Hid. symmetry. by apply Hhd.
  - by intros h' [= <-].
Qed.

Lemma ledger_fetch_headers_ok l r hs :
  ledger_ok l → num_blocks r ≠ 0%N → ledger_fetch_headers l r = HeadersFound r hs → chain_of r hs.
Proof.
  intros Hok Hz. unfold ledger_fetch_headers. case_decide; [done|]. case_match eqn:Hloop; [|done].
  intros [= <-]. apply fetch_headers_loop_ok in Hloop as (fetched & -> & Hlen & Hlink & Hlast);
    [|done..]. rewrite app_nil_r in *. split_and!; [lia| |done]. apply Hlast. lia.
Qed.

Lemma ledger_fetch_payload_ok l id b :
  ledger_ok l → ledger_fetch_payload l id = BodyFound b → body_get_id b = id.
Proof.
  intros Hok. unfold ledger_fetch_payload. destruct (block_payload_cache l !! id) eqn:Hc.
  { intros [= <-]. by apply (lok_payload _ Hok). }
  destruct (is_cache_hydrated l); [done|]. case_match eqn:Hr; [|done]. intros [= <-].
  by eapply read_bft_body_ok; [apply Hok|].
Qed.

(** A fetched range keeps its name. *)
Lemma ledger_fetch_headers_range l r : get_block_range (ledger_fetch_headers l r) = r.
Proof. unfold ledger_fetch_headers. case_decide; [done|]. by case_match. Qed.

Definition command_ok (c : LedgerCommand) : Prop :=
  match c with
  | LedgerCommit (Proposed b _) | LedgerCommit (Voted b) | LedgerCommit (Finalized b) => body_matches b
  | _ => True
  end.

(** Every command returns; the answer to a fetch is one block synchronisation
    can rely on. *)
Lemma ledger_exec_ok l c :
  ledger_ok l → command_ok c →
  ∃ resp l', ledger_exec l c = Ret (resp, l') ∧ ledger_ok l' ∧
    files_le (bft_block_persist l) (bft_block_persist l') ∧
    (∀ response, resp = Some response → event_ok (SyncSelfResponse response)).
Proof.
  intros Hok Hc. destruct c as [[b canon|b|b]|r|id]; cbn in Hc |- *.
  - destruct (write_bft_block_ok l b Hok Hc) as (Hok1 & Hle1 & Hfile).
    assert (∃ l2, (if canon then update_head (write_bft_block l b) ProposedHead (blk_get_id b)
      else Ret (write_bft_block l b)) = Ret l2 ∧ ledger_ok l2 ∧
      files_le (bft_block_persist l) (bft_block_persist l2)) as (l2 & -> & Hok2 & Hle2).
    { destruct canon; [|eauto].
      destruct (update_head_ok (write_bft_block l b) ProposedHead (blk_get_id b))
        as (l2 & -> & Hok2 & [] & _); [done..|].
      exists l2. split_and!; [done..|]. destruct Hle1. split; by etrans. }
    cbn [mbind run_bind]. destruct (update_cache_ok l2 b Hok2 Hc) as (l3 & -> & Hok3 & Hfs).
    cbn [mbind run_bind]. eexists _, _. split_and!; [done..|by rewrite Hfs|done].
  - destruct (update_cache_ok l b Hok Hc) as (l1 & -> & Hok1 & Hfs). cbn [mbind run_bind].
    destruct (update_head_ok l1 VotedHead (blk_get_id b)) as (l2 & -> & Hok2 & Hle & _); [done..|].
    cbn [mbind run_bind]. rewrite Hfs in Hle. by eexists _, _.
  - destruct (update_head_ok (with_last_commit (Some (blk_get_seq_num b, blk_get_block_round b)) l)
      FinalizedHead (blk_get_id b)) as (l2 & -> & Hok2 & Hle & _); [by destruct Hok|done|].
    cbn [mbind run_bind]. by eexists _, _.
  - eexists _, _. split_and!; [done..|]. intros _ [= <-]. cbn.
    pose proof (ledger_fetch_headers_range l r) as Hr.
    destruct (ledger_fetch_headers l r) as [r' hs|] eqn:Hf; [|done]. cbn in Hr. subst r'.
    intros Hz. by eapply ledger_fetch_headers_ok.
  - eexists _, _. split_and!; [done..|]. by intros _ [= <-].
Qed.
End persist.

(** ** The loop of block synchronisation and ledger *)

Section sync_loop.
Context `{HC : Codec} `{!BlockDecoder, !BlockPolicy, !HashIter, !U256Ops, !SeedableRng, !SliceRandom}.

(** [node_fetches] is the channel of ledger answers. *)
Record sync_node := {
  node_sync : BlockSync;
  node_ledger : KinetBlockFileLedger;
  node_fetches : list BlockSyncResponseMessage;
}.

(** The commands of [From<WrappedBlockSyncCommand>] that go to the ledger. *)
Definition to_ledger (cmd : BlockSyncCommand) : option LedgerCommand :=
  match cmd with
  | FetchHeaders block_range => Some (LedgerFetchHeaders block_range)
  | FetchPayload payload_id => Some (LedgerFetchPayload payload_id)
  | _ => None
  end.

Fixpoint exec_all (l : KinetBlockFileLedger) (commands : list LedgerCommand) :
    run (list BlockSyncResponseMessage * KinetBlockFileLedger) :=
  match commands with
  | [] => Ret ([], l)
  | command :: commands =>
      '(response, l) ← ledger_exec l command;
      '(responses, l) ← exec_all l commands;
      Ret (match response with Some r => [r] | None => [] end ++ responses, l)
  end.

Definition node_event (fuel : nat) (env : BlockSyncWrapper) (ev : BlockSyncEvent) (n : sync_node) :
    run (list BlockSyncCommand * sync_node) :=
  '(cmds, bs) ← sync_update fuel env (node_sync n) ev;
  '(responses, l) ← exec_all (node_ledger n) (omap to_ledger cmds);
  Ret (cmds, {| node_sync := bs; node_ledger := l; node_fetches := node_fetches n ++ responses |}).

(** The next answer of the ledger is handled. *)
Definition node_poll (fuel : nat) (env : BlockSyncWrapper) (n : sync_node) :
    run (list BlockSyncCommand * sync_node) :=
  match node_fetches n with
  | [] => Ret ([], n)
  | response :: rest =>
      node_event fuel env (SyncSelfResponse response)
        {| node_sync := node_sync n; node_ledger := node_ledger n; node_fetches := rest |}
  end.

Definition node_commit (c : OptimisticCommit) (n : sync_node) : run sync_node :=
  '(responses, l) ← exec_all (node_ledger n) [LedgerCommit c];
  Ret {| node_sync := node_sync n; node_ledger := l; node_fetches := node_fetches n ++ responses |}.

(** An event from outside the node: a peer, a timer or a request of its own. *)
Definition external (ev : BlockSyncEvent) : Prop :=
  match ev with
  | SyncSelfResponse _ => False
  | SyncRequest _ (Headers r) => (num_blocks r ≤ u64_MAX)%N
  | _ => True
  end.

Inductive node_reach : sync_node → Prop :=
| node_new fs peers node seed entropy :
    files_ok fs →
    node_reach {| node_sync := BlockSync_new peers node seed entropy;
                  node_ledger := KinetBlockFileLedger_new fs; node_fetches := [] |}
| node_ev fuel env ev n cmds n' :
    node_reach n → env_ok fuel env → external ev → node_event fuel env ev n = Ret (cmds, n') →
    node_reach n'
| node_answer fuel env n cmds n' :
    node_reach n → env_ok fuel env → node_poll fuel env n = Ret (cmds, n') → node_reach n'
| node_block c n n' :
    node_reach n → command_ok (LedgerCommit c) → node_commit c n = Ret n' → node_reach n'.

Record node_ok (n : sync_node) : Prop := {
  nok_sync : ∃ asked p, sync_reach (node_sync n) asked p;
  nok_ledger : ledger_ok (node_ledger n);
  nok_fetches : Forall (λ r, event_ok (SyncSelfResponse r)) (node_fetches n);
}.

Lemma exec_all_ok l commands :
  ledger_ok l → Forall command_ok commands →
  ∃ responses l', exec_all l commands = Ret (responses, l') ∧ ledger_ok l' ∧
    Forall (λ r, event_ok (SyncSelfResponse r)) responses.
Proof.
  intros Hok Hall. revert l Hok. induction Hall as [|c commands Hc Hall IH]; intros l Hok; cbn [exec_all].
  { by eexists _, _. }
  destruct (ledger_exec_ok l c Hok Hc) as (resp & l1 & -> & Hok1 & _ & Hresp). cbn [mbind run_bind].
  destruct (IH l1 Hok1) as (responses & l2 & -> & Hok2 & Hrest). cbn [mbind run_bind].
  eexists _, _. split_and!; [done..|]. apply Forall_app. split; [|done].
  destruct resp as [r|]; [|done]. constructor; [|done]. by apply Hresp.
Qed.

Lemma node_event_ok fuel env ev n :
  node_ok n → env_ok fuel env → event_ok ev →
  ∃ cmds n', node_event fuel env ev n = Ret (cmds, n') ∧ node_ok n'.
Proof.
  intros [(asked & p & Hreach) Hl Hf] Henv Hev. unfold node_event.
  destruct (sync_reach_ok _ _ _ Hreach) as (Hok & Hset & _).
  destruct (sync_update_spec fuel env asked (node_sync n) ev) as (cmds & bs' & Hrun & _); [done..|].
  rewrite Hrun. cbn [mbind run_bind].
  destruct (exec_all_ok (node_ledger n) (omap to_ledger cmds) Hl) as (resps & l' & -> & Hl' & Hresps).
  { apply Forall_forall. intros c (cmd & _ & Hc)%list_elem_of_omap. destruct cmd; by simplify_eq/=. }
  cbn [mbind run_bind]. eexists _, _. split; [done|]. split; cbn; [|done|by apply Forall_app].
  eexists _, _. by eapply sync_step.
Qed.

Lemma node_poll_ok fuel env n :
  node_ok n → env_ok fuel env → ∃ cmds n', node_poll fuel env n = Ret (cmds, n') ∧ node_ok n'.
Proof.
  intros [Hs Hl Hf] Henv. unfold node_poll. destruct (node_fetches n) as [|r rest] eqn:Hn.
  { eexists _, _. split; [done|]. split; [done|done|by rewrite Hn]. }
  apply Forall_cons in Hf as [Hr Hrest]. by apply node_event_ok.
Qed.

Lemma node_commit_ok c n :
  node_ok n → command_ok (LedgerCommit c) → ∃ n', node_commit c n = Ret n' ∧ node_ok n'.
Proof.
  intros [Hs Hl Hf] Hc. unfold node_commit.
  destruct (exec_all_ok (node_ledger n) [LedgerCommit c] Hl) as (resps & l' & -> & Hl' & Hresps).
  { by repeat constructor. }
  cbn [mbind run_bind]. eexists. split; [done|]. split; cbn; [done|done|by apply Forall_app].
Qed.

Lemma external_event_ok ev : external ev → event_ok ev.
Proof. by destruct ev as [? []| | | | |]. Qed.

Lemma node_reach_ok n : node_reach n → node_ok n.
Proof.
  induction 1 as [fs peers node seed entropy Hfs|fuel env ev n cmds n' _ IH Henv Hev Hrun
    |fuel env n cmds n' _ IH Henv Hrun|c n n' _ IH Hc Hrun].
  - split; [|by apply ledger_ok_new|done].
    eexists _, _. apply sync_new.
  - destruct (node_event_ok fuel env ev n) as (c' & n'' & Hrun' & ?);
      [done|done|by apply external_event_ok|]. congruence.
  - destruct (node_poll_ok fuel env n) as (c' & n'' & Hrun' & ?); [done..|]. congruence.
  - destruct (node_commit_ok c n) as (n'' & Hrun' & ?); [done..|]. congruence.
Qed.

(** ** Theorems *)

End sync_loop.

(** ** Durability *)

Section durability.
Context `{HC : Codec} `{!BlockDecoder}.

(** C32: a proposed block is durable: after any further commands its header can be
    read back from disk, and so can the body the header names. *)
Theorem proposed_block_durable l b canonical cs resp l1 resps l2 :
  ledger_ok l → command_ok (LedgerCommit (Proposed b canonical)) → Forall command_ok cs →
  ledger_exec l (LedgerCommit (Proposed b canonical)) = Ret (resp, l1) →
  exec_all l1 cs = Ret (resps, l2) →
  ∃ h bd, read_bft_header (bft_block_persist l2) (blk_get_id b) = Ok h ∧ get_id h = blk_get_id b ∧
    read_bft_body (bft_block_persist l2) (block_body_id h) = Ok bd ∧
    body_get_id bd = block_body_id h.
Proof.
  intros Hok Hb Hcs Hrun1 Hrun2.
  assert (ledger_ok l1 ∧ is_Some (header_files (bft_block_persist l1) !! blk_get_id b)) as [Hok1 Hf1].
  { destruct (write_bft_block_ok l b Hok Hb) as (Hok0 & _ & Hf0).
    destruct (ledger_exec_ok l _ Hok Hb) as (? & ? & Hrun & Hok1 & _). rewrite Hrun1 in Hrun.
    injection Hrun as <- <-. split; [done|]. cbn in Hrun1.
    apply run_bind_Ret in Hrun1 as (l' & Hl' & Hrun1).
    apply run_bind_Ret in Hrun1 as (l'' & Hl'' & [= _ ->]).
    assert (ledger_ok l' ∧ is_Some (header_files (bft_block_persist l') !! blk_get_id b)) as [Hok' Hf'].
    { destruct canonical; [|by simplify_eq].
      destruct (update_head_ok _ ProposedHead (blk_get_id b) Hok0) as (x & Hx & Hokx & [Hle _] & _);
        [done|]. rewrite Hl' in Hx. injection Hx as <-. split; [done|].
      destruct Hf0 as [buf Hbuf]. exists buf. by eapply lookup_weaken. }
    destruct (update_cache_ok l' b Hok' Hb) as (x & Hx & _ & Hfs). rewrite Hl'' in Hx.
    injection Hx as <-. by rewrite Hfs. }
  assert (ledger_ok l2 ∧ is_Some (header_files (bft_block_persist l2) !! blk_get_id b)) as [Hok2 [buf Hbuf]].
  { clear Hrun1 Hok l resp. revert l1 resps Hok1 Hf1 Hrun2.
    induction Hcs as [|c cs Hc Hcs IH]; intros l1 resps Hok1 Hf1; cbn [exec_all]; [by intros [= _ ->]|].
    destruct (ledger_exec_ok l1 c Hok1 Hc) as (r & l' & -> & Hok' & [Hle _] & _). cbn [mbind run_bind].
    intros ([rs l''] & Hrun & [= _ ->])%run_bind_Ret. eapply IH; [done| |done].
    destruct Hf1 as [buf Hbuf]. exists buf. by eapply lookup_weaken. }
  destruct (fok_header _ (lok_files _ Hok2) _ _ Hbuf) as (h & Henc & Hid & _).
  assert (read_bft_header (bft_block_persist l2) (blk_get_id b) = Ok h) as Hread.
  { unfold read_bft_header, read_and_decode. rewrite Hbuf, Henc. cbn. by rewrite decode_encode_header. }
  destruct (read_bft_header_ok _ _ _ (lok_files _ Hok2) Hread) as (_ & bd & Hbd & Hbid). eauto 6.
Qed.

(** An interrupted head update keeps the old head, but blocks every later
    one: after a crash between the two system calls the half-made link exists, so
    each further update of that head fails, and the ledger panics on it. *)
Theorem interrupted_head_update fs fs' link target :
  symlink_wip target link fs = Ok fs' →
  head_links fs' = head_links fs ∧ header_files fs' = header_files fs ∧
  (∀ target', atomic_symlink_update target' link fs' = Err IoAlreadyExists) ∧
  (∀ l target', bft_block_persist l = fs' → update_head l link target' = Panic).
Proof.
  unfold symlink_wip. destruct (wip_links fs !! link) eqn:Hl; [done|]. intros [= <-].
  set (fs' := {| wip_links := _ |}).
  assert (∀ target', atomic_symlink_update target' link fs' = Err IoAlreadyExists) as Hup.
  { intros target'. unfold atomic_symlink_update, symlink_wip. cbn. by rewrite lookup_insert_eq. }
  split_and!; [done|done|done|]. intros l target' Hfs. unfold update_head. by rewrite Hfs, Hup.
Qed.

(** C33: a full cache can serve a header and refuse its body.  When the block of
    the lowest cached round is evicted, its body leaves the cache even if another
    cached block has the same body (two empty blocks, say); a full cache does not
    read from disk, so the fetch of that body is refused. *)
Theorem eviction_drops_shared_body l b c l' round id :
  block_cache_size l = size (block_cache_index l) →
  head (btree_iter (block_cache_index l)) = Some (round, (id, blk_get_body_id c)) →
  (round < blk_get_block_round b)%N → block_cache_index l !! blk_get_block_round b = None →
  ledger_cache l !! blk_get_id c = Some c → blk_get_id c ≠ id → blk_get_id b ≠ blk_get_id c →
  blk_get_body_id b ≠ blk_get_body_id c →
  update_cache l b = Ret l' →
  ledger_fetch_headers l' {| last_block_id := blk_get_id c; num_blocks := 1 |} =
    HeadersFound {| last_block_id := blk_get_id c; num_blocks := 1 |} [header c] ∧
  ledger_fetch_payload l' (blk_get_body_id c) = BodyNotAvailable (blk_get_body_id c).
Proof.
  intros Hsize Hhead Hlt Hnew Hc Hne1 Hne2 Hne3. unfold update_cache. rewrite Hnew.
  set (index := <[_ := _]> (block_cache_index l)).
  assert (size index = S (size (block_cache_index l))) as Hsz by by apply map_size_insert_None.
  rewrite decide_True by lia.
  assert (head (btree_iter index) = Some (round, (id, blk_get_body_id c))) as ->.
  { apply btree_head in Hhead as [Hr Hmin]. apply btree_head. unfold index. split.
    - rewrite lookup_insert_ne; [done|]. intros <-. lia.
    - intros r x. rewrite lookup_insert_Some. intros [[<- _]|[_ Hx]]; [|eauto]. cbn. lia. }
  cbn. intros [= <-].
  assert (is_Some (index !! round)) as Hin.
  { apply btree_head in Hhead as [Hr _]. unfold index. apply lookup_insert_is_Some'. eauto. }
  assert (size (delete round index) = size (block_cache_index l)) as Hsz'.
  { rewrite map_size_delete_Some by done. lia. }
  split.
  - unfold ledger_fetch_headers. rewrite decide_False by (cbn; unfold BLOCKSYNC_MAX_NUM_HEADERS; lia).
    cbn [last_block_id num_blocks]. change (N.to_nat 1) with 1. cbn [fetch_headers_loop ledger_cache].
    by rewrite lookup_insert_ne, lookup_delete_ne, Hc by congruence.
  - unfold ledger_fetch_payload, is_cache_hydrated. cbn.
    rewrite lookup_insert_ne, lookup_delete_eq by congruence.
    rewrite bool_decide_eq_true_2; [done|]. lia.
Qed.
End durability.

(** ** A concrete ledger

    The test protocol with an encoding of headers that can be decoded. *)

#[local] Existing Instance NopProtocol.
#[local] Instance Ledger_SCT_countable : Countable SCT := MultiSig_countable.
#[local] Instance Ledger_CST_countable : Countable CST := NopSignature_countable.
#[local] Instance Ledger_ProposedHeader_countable : Countable ProposedHeader := unit_countable.
#[local] Instance Ledger_FinalizedHeader_countable : Countable FinalizedHeader := N_countable.

Definition LedgerCodec : Codec := {|
  encode_vote := @encode_vote _ NopCodec;
  encode_timeout_info := @encode_timeout_info _ NopCodec;
  encode_no_endorsement := @encode_no_endorsement _ NopCodec;
  encode_round := @encode_round _ NopCodec;
  encode_header h := [Npos (encode h)];
  encode_body b := [b : N];
  encode_qc := @encode_qc _ NopCodec;
  encode_tc := @encode_tc _ NopCodec;
  encode_nec := @encode_nec _ NopCodec;
  hasher := example_hash;
  encode_vote_inj := @encode_vote_inj _ NopCodec;
  encode_timeout_info_inj := @encode_timeout_info_inj _ NopCodec;
  encode_no_endorsement_inj := @encode_no_endorsement_inj _ NopCodec;
  encode_round_inj := @encode_round_inj _ NopCodec;
  encode_qc_inj := @encode_qc_inj _ NopCodec;
  encode_tc_inj := @encode_tc_inj _ NopCodec;
  encode_nec_inj := @encode_nec_inj _ NopCodec;
|}.
#[local] Existing Instance LedgerCodec.

Definition ledger_decode_header (b : bytes) : option ConsensusBlockHeader :=
  match b with [Npos p] => decode p | _ => None end.

Definition ledger_decode_body (b : bytes) : option Body :=
  match b with [x] => Some (x : Body) | _ => None end.

Lemma ledger_decode_encode h : ledger_decode_header (encode_header h) = Some h.
Proof. cbn. apply decode_encode. Qed.

#[local] Instance LedgerDecoder : BlockDecoder := {|
  decode_header := ledger_decode_header;
  decode_body := ledger_decode_body;
  decode_encode_header := ledger_decode_encode;
  decode_encode_body _ := eq_refl;
|}.

#[local] Existing Instance list_HashIter.
#[local] Existing Instance example_policy.
#[local] Existing Instance zero_rng.
#[local] Existing Instance first_choice.

(** The block of a round, with a given body. *)
Definition ledger_block (round : N) (b : N) : ConsensusFullBlock :=
  {| header :=
       {| block_round := round; hdr_epoch := 1;
          hdr_qc := {| qc_info := {| v_id := 0; v_round := 0; v_epoch := 1 |};
                       qc_signatures := {| sigs := [] |} |};
          hdr_author := 1%N : PT; hdr_seq_num := round; hdr_timestamp_ns := round;
          hdr_round_signature := (nop_sign example_hash RoundSignatureDomain [round] 1%N : CST);
          delayed_execution_results := []; execution_inputs := () : ProposedHeader;
          block_body_id := example_hash [b]; base_fee := 100; base_fee_trend := 0;
          base_fee_moment := 0 |};
     body := b : Body |}.

Lemma ledger_block_matches round b : body_matches (ledger_block round b).
Proof. reflexivity. Qed.

Definition ledger_wrapper : BlockSyncWrapper := {|
  block_cache := CacheBlockBuffer ∅; bs_nodeid := (9%N : PT); bs_current_epoch := 1;
  bs_val_epoch_map := {| validator_map := {[1%N := (four_validators, ∅)]} |};
  secondary_raptorcast_peers := {[1%N := 0%N]};
|}.

Lemma ledger_wrapper_ok : env_ok 1 ledger_wrapper.
Proof.
  destruct example_wrapper_ok as [_ Hvs Hdraws]. split; [|exact Hvs|exact Hdraws].
  intros id b Hb. cbn in Hb. by rewrite lookup_empty in Hb.
Qed.

Definition empty_ledger : KinetBlockFileLedger := KinetBlockFileLedger_new FileBlockPersist_new.

Definition fresh_node : sync_node :=
  {| node_sync := (BlockSync_new [] (9%N : PT) (Some 7%N) () : BlockSync);
     node_ledger := empty_ledger; node_fetches := [] |}.

Lemma fresh_node_reach : node_reach fresh_node.
Proof. apply node_new, files_ok_new. Qed.


Lemma empty_ledger_ok : ledger_ok empty_ledger.
Proof. apply ledger_ok_new, files_ok_new. Qed.

Lemma proposed_block_durable_witness :
  ∃ fs h bd, read_bft_header fs (blk_get_id (ledger_block 1 9)) = Ok h ∧
    read_bft_body fs (block_body_id h) = Ok bd.
Proof.
  destruct (ledger_exec_ok empty_ledger (LedgerCommit (Proposed (ledger_block 1 9) true)))
    as (r1 & l1 & Hrun1 & Hok1 & _); [apply empty_ledger_ok|reflexivity|].
  destruct (exec_all_ok l1 [LedgerCommit (Voted (ledger_block 1 9))]) as (rs & l2 & Hrun2 & _);
    [exact Hok1|repeat constructor|].
  destruct (proposed_block_durable empty_ledger (ledger_block 1 9) true
    [LedgerCommit (Voted (ledger_block 1 9))] r1 l1 rs l2) as (h & bd & Hh & _ & Hb & _);
    [apply empty_ledger_ok|reflexivity|repeat constructor|exact Hrun1|exact Hrun2|].
  exists (bft_block_persist l2), h, bd. split; [exact Hh|exact Hb].
Defined.

Lemma interrupted_head_update_witness :
  ∃ fs', symlink_wip 5%N VotedHead FileBlockPersist_new = Ok fs' ∧
    head_links fs' = ∅ ∧ atomic_symlink_update 6%N VotedHead fs' = Err IoAlreadyExists.
Proof.
  eexists. split; [reflexivity|].
  destruct (interrupted_head_update FileBlockPersist_new _ VotedHead 5%N eq_refl) as (Hh & _ & Hup & _).
  split; [exact Hh|apply Hup].
Defined.

(** A cache of two blocks with the same body, and a third block. *)
Definition shared_ledger : run KinetBlockFileLedger :=
  let l := {| bft_block_persist := FileBlockPersist_new; last_commit := None; block_cache_size := 2;
              ledger_cache := ∅; block_payload_cache := ∅; block_cache_index := ∅ |} in
  l ← update_cache l (ledger_block 1 9);
  update_cache l (ledger_block 2 9).

Definition shared_range : BlockRange :=
  {| last_block_id := blk_get_id (ledger_block 2 9); num_blocks := 1 |}.

Lemma eviction_drops_shared_body_witness :
  ∃ l, ledger_fetch_headers l shared_range = HeadersFound shared_range [header (ledger_block 2 9)] ∧
    ledger_fetch_payload l (example_hash [9%N]) = BodyNotAvailable (example_hash [9%N]).
Proof.
  destruct (is_ret_true shared_ledger) as [l Hl]; [vm_compute; reflexivity|].
  destruct (is_ret_true (l ← shared_ledger; update_cache l (ledger_block 3 8))) as [l' Hl'];
    [vm_compute; reflexivity|].
  rewrite Hl in Hl'. cbn [mbind run_bind] in Hl'.
  exists l'.
  apply (eviction_drops_shared_body l (ledger_block 3 8) (ledger_block 2 9) l' 1
           (blk_get_id (ledger_block 1 9))); [..|exact Hl'].
  all: assert (match shared_ledger with
    | Ret l => bool_decide (block_cache_size l = size (block_cache_index l)) &&
        bool_decide (head (btree_iter (block_cache_index l)) =
          Some (1%N, (blk_get_id (ledger_block 1 9), blk_get_body_id (ledger_block 2 9)))) &&
        bool_decide (block_cache_index l !! 3%N = None) &&
        bool_decide (body <$> ledger_cache l !! blk_get_id (ledger_block 2 9) = Some (9%N : Body)) &&
        bool_decide (header <$> ledger_cache l !! blk_get_id (ledger_block 2 9) =
                     Some (header (ledger_block 2 9)))
    | Panic => false end = true) as Hc by (vm_compute; reflexivity).
  all: rewrite Hl in Hc; apply andb_true_iff in Hc as [Hc Hc5%bool_decide_eq_true_1];
    apply andb_true_iff in Hc as [Hc Hc4%bool_decide_eq_true_1];
    apply andb_true_iff in Hc as [Hc Hc3%bool_decide_eq_true_1];
    apply andb_true_iff in Hc as [Hc1%bool_decide_eq_true_1 Hc2%bool_decide_eq_true_1].
  - exact Hc1.
  - exact Hc2.
  - reflexivity.
  - exact Hc3.
  - destruct (ledger_cache l !! blk_get_id (ledger_block 2 9)) as [[h b]|]; [|discriminate Hc4].
    apply (inj Some) in Hc4, Hc5. cbn in Hc4. subst b. cbn [header] in Hc5. rewrite Hc5. reflexivity.
  - apply (bool_decide_eq_false_1 (_ = _ :> N)). vm_compute. reflexivity.
  - apply (bool_decide_eq_false_1 (_ = _ :> N)). vm_compute. reflexivity.
  - apply (bool_decide_eq_false_1 (_ = _ :> N)). vm_compute. reflexivity.
Defined.
