(* ===== verification/Containers.v ===== *)
(** * Collections of the standard library and of third-party crates

    Ordered sets of tuples and byte strings, the insertion-ordered map of
    [indexmap], the least-recently-used map of [lru], and the random generators
    that pick an entry, as the network components use them. *)
From S2P Require Import Prelude.

(** ** Ordered sets of tuples *)

Definition pair_le {A B} `{OrdKey A, OrdKey B} (x y : A * B) : Prop :=
  (key_le x.1 y.1 ∧ x.1 ≠ y.1) ∨ (x.1 = y.1 ∧ key_le x.2 y.2).

#[global] Instance pair_le_dec {A B} `{OrdKey A, OrdKey B} : RelDecision (@pair_le A B _ _ _ _).
Proof. intros x y. unfold pair_le. apply _. Defined.

#[global] Instance pair_le_total_order {A B} `{OrdKey A, OrdKey B} :
  TotalOrder (@pair_le A B _ _ _ _).
Proof.
  split; [split; [split|]|].
  - intros x. right. by split.
  - intros x y z [[Hxy Hne]|[Hxy Hxy2]] [[Hyz Hne']|[Hyz Hyz2]]; unfold pair_le.
    + left. split; [by etrans|]. intros Heq. apply Hne, (anti_symm key_le); [done|]. by rewrite Heq.
    + left. by rewrite <- Hyz.
    + left. by rewrite Hxy.
    + right. split; [congruence|by etrans].
  - intros [a b] [c d]. unfold pair_le. cbn. intros [[H1 H2]|[-> H1]] [[H3 H4]|[H3 H4]].
    + destruct H2. by apply (anti_symm key_le).
    + by destruct H2.
    + by destruct H4.
    + f_equal. by apply (anti_symm key_le).
  - intros [a b] [c d]. destruct (decide (a = c)) as [->|Hne].
    + destruct (trichotomy (strict key_le) b d) as [[? ?]|[->|[? ?]]].
      * left. split; [by right|]. by intros [[_ ?]|[_ ?]].
      * by right; left.
      * right; right. split; [by right|]. by intros [[_ ?]|[_ ?]].
    + destruct (trichotomy (strict key_le) a c) as [[? ?]|[->|[? ?]]]; [|done|].
      * left. split; [by left|]. cbn. intros [[? _]|[? _]]; [done|by apply Hne].
      * right; right. split; [left; split; [done|by apply not_eq_sym]|]. cbn.
        intros [[? _]|[? _]]; [done|by apply Hne].
Qed.

#[global] Instance pair_OrdKey {A B} `{OrdKey A, OrdKey B} : OrdKey (A * B) :=
  {| key_le := pair_le |}.

(** An order pulled back along an injection, as [derive(Ord)] orders a struct. *)
Lemma inj_total_order {A B} `{OrdKey B} (f : A → B) :
  Inj (=) (=) f → TotalOrder (λ x y, key_le (f x) (f y)).
Proof.
  intros Hf. split; [split; [split|]|].
  - intros x. reflexivity.
  - intros x y z. apply transitivity.
  - intros x y H1 H2. apply Hf. by apply (anti_symm key_le).
  - intros x y. destruct (trichotomy (strict key_le) (f x) (f y)) as [?|[?|?]]; [by left| |by right; right].
    right; left. by apply Hf.
Qed.

Definition inj_OrdKey {A B} `{EqDecision A, OrdKey B} (f : A → B) (Hf : Inj (=) (=) f) : OrdKey A :=
  {| key_le x y := key_le (f x) (f y);
     key_le_dec x y := decide (key_le (f x) (f y));
     key_le_total := inj_total_order f Hf |}.

(** Byte strings are ordered lexicographically. *)
Fixpoint bytes_le (a b : list N) : Prop :=
  match a, b with
  | [], _ => True
  | _ :: _, [] => False
  | x :: a, y :: b => (x < y)%N ∨ (x = y ∧ bytes_le a b)
  end.

#[global] Instance bytes_le_dec : RelDecision bytes_le.
Proof.
  intros a. induction a as [|x a IH]; intros b; [by left|]. destruct b as [|y b]; [right; cbn; tauto|].
  cbn. specialize (IH b). apply _.
Defined.

#[global] Instance bytes_le_total_order : TotalOrder bytes_le.
Proof.
  split; [split; [split|]|].
  - intros a. induction a as [|x a IH]; cbn; [done|by right].
  - intros a. induction a as [|x a IH]; intros [|y b] [|z c]; cbn; try done.
    intros [H1|[-> H1]] [H2|[<- H2]]; [left; lia|by left..|right]. split; [done|]. by eapply IH.
  - intros a. induction a as [|x a IH]; intros [|y b]; cbn; try done.
    intros [H1|[-> H1]] [H2|[Heq H2]]; try lia. f_equal. by apply IH.
  - assert (∀ a b, bytes_le a b ∨ bytes_le b a) as Htot.
    { induction a as [|x a IH]; intros [|y b]; cbn; [by left..|by right|].
      destruct (N.lt_trichotomy x y) as [?|[->|?]]; [by left; left| |by right; left].
      destruct (IH b); [left|right]; by right. }
    assert (∀ a b, bytes_le a b → bytes_le b a → a = b) as Hanti.
    { induction a as [|x a IH]; intros [|y b]; cbn; try done.
      intros [H1|[-> H1]] [H2|[Heq H2]]; try lia. f_equal. by apply IH. }
    intros a b. destruct (decide (a = b)) as [->|Hne]; [by right; left|].
    destruct (Htot a b) as [H|H]; [left|right; right]; (split; [done|]; intros H'; by apply Hne, Hanti).
Qed.

#[global] Instance bytes_OrdKey : OrdKey (list N) := {| key_le := bytes_le |}.

(** [BTreeSet::iter] *)
Definition bset_iter {K} `{Countable K, !OrdKey K} (s : gset K) : list K :=
  merge_sort key_le (elements s).

(** [BTreeSet::first] *)
Definition bset_first {K} `{Countable K, !OrdKey K} (s : gset K) : option K :=
  head (merge_sort key_le (elements s)).

(** ** IndexMap

    The entries of an [indexmap::IndexMap], in their order. *)

Section index_map.
Context {K V : Type} `{EqDecision K}.

Fixpoint im_position (m : list (K * V)) (k : K) : option nat :=
  match m with
  | [] => None
  | (k', _) :: m => if decide (k = k') then Some 0 else S <$> im_position m k
  end.

Definition im_get (m : list (K * V)) (k : K) : option V :=
  i ← im_position m k; snd <$> m !! i.
End index_map.

(** [IndexMap::insert] overwrites in place or appends, [IndexMap::swap_remove]
    takes an entry out and may reorder the rest. *)
Class IndexMapOps := {
  im_set {K V} `{EqDecision K} : list (K * V) → K → V → list (K * V);
  im_swap_remove {K V} `{EqDecision K} : list (K * V) → K → option (V * list (K * V));
  im_set_new {K V} `{EqDecision K} (m : list (K * V)) k v :
    im_get m k = None → im_set m k v = m ++ [(k, v)];
  im_set_old {K V} `{EqDecision K} (m1 m2 : list (K * V)) k v w :
    k ∉ m1.*1 → im_set (m1 ++ (k, v) :: m2) k w = m1 ++ (k, w) :: m2;
  im_swap_remove_None {K V} `{EqDecision K} (m : list (K * V)) k :
    im_get m k = None → im_swap_remove m k = None;
  im_swap_remove_Some {K V} `{EqDecision K} (m1 m2 : list (K * V)) k v :
    k ∉ m1.*1 → ∃ m', im_swap_remove (m1 ++ (k, v) :: m2) k = Some (v, m') ∧ m' ≡ₚ m1 ++ m2;
}.

(** ** LruCache

    [lru::LruCache]: [get_mut] finds an entry and marks it as used, a write through
    the reference replaces its value, and [put] adds one and may evict another. *)
Class LruMap (K V : Type) := {
  lru_map : Type;
  lru_map_new : N → lru_map;
  lru_peek : lru_map → K → option V;
  lru_get_mut : K → lru_map → option V * lru_map;
  lru_write : K → V → lru_map → lru_map;
  lru_map_put : K → V → lru_map → lru_map;
  lru_peek_new n k : lru_peek (lru_map_new n) k = None;
  lru_get_mut_value k m : (lru_get_mut k m).1 = lru_peek m k;
  lru_get_mut_peek k m k' : lru_peek (lru_get_mut k m).2 k' = lru_peek m k';
  lru_write_peek k v m k' w :
    lru_peek (lru_write k v m) k' = Some w → w = v ∨ lru_peek m k' = Some w;
  lru_put_peek k v m k' w :
    lru_peek (lru_map_put k v m) k' = Some w → (k' = k ∧ w = v) ∨ lru_peek m k' = Some w;
}.

Arguments lru_map K V {_}.

(** ** Random generators *)

(** [rng.gen_range(0..n)] and [StdRng::from_rng]. *)
Class PoolRng := {
  pool_rng : Type;
  gen_range : nat → pool_rng → nat * pool_rng;
  from_rng : pool_rng → pool_rng * pool_rng;
  gen_range_lt n g : 0 < n → (gen_range n g).1 < n;
}.

(** ** Lemmas of IndexMap *)

Section index_map_lemmas.
Context {K V : Type} `{EqDecision K}.
Implicit Types m : list (K * V).

Lemma im_position_Some m k i :
  im_position m k = Some i → ∃ v, m !! i = Some (k, v).
Proof.
  revert i. induction m as [|[k' v] m IH]; intros i; cbn; [done|].
  case_decide as Hk; [intros [= <-]; subst; by exists v|].
  intros (j & Hj & ->)%fmap_Some. cbn. eauto.
Qed.

Lemma im_position_None m k : im_position m k = None ↔ k ∉ m.*1.
Proof.
  induction m as [|[k' v] m IH]; cbn; [set_solver|].
  rewrite not_elem_of_cons. case_decide as Hk; [naive_solver|]. rewrite fmap_None, IH. naive_solver.
Qed.

Lemma im_position_elem m k v : (k, v) ∈ m → is_Some (im_position m k).
Proof.
  intros Hin. destruct (im_position m k) eqn:Hp; [eauto|]. apply im_position_None in Hp. destruct Hp.
  apply list_elem_of_fmap. by exists (k, v).
Qed.

Lemma im_get_Some m k v : NoDup m.*1 → im_get m k = Some v ↔ (k, v) ∈ m.
Proof.
  intros Hnd. unfold im_get. split.
  - intros (i & Hi & Hv)%bind_Some. apply fmap_Some in Hv as ([k' v'] & Hv & ->).
    apply im_position_Some in Hi as (w & Hw). cbn. simplify_eq. by eapply list_elem_of_lookup_2.
  - intros Hin. destruct (im_position_elem m k v Hin) as [i Hi]. rewrite Hi. cbn.
    apply im_position_Some in Hi as (w & Hw). rewrite Hw. cbn. f_equal.
    apply list_elem_of_lookup in Hin as [j Hj].
    assert (i = j) as ->; [|congruence].
    apply (NoDup_lookup m.*1 i j k Hnd); rewrite list_lookup_fmap; [by rewrite Hw|by rewrite Hj].
Qed.

Lemma im_get_None m k : im_get m k = None ↔ k ∉ m.*1.
Proof.
  unfold im_get. rewrite <- im_position_None. split; [|by intros ->].
  destruct (im_position m k) as [i|] eqn:Hi; [|done].
  apply im_position_Some in Hi as (v & Hv). cbn. by rewrite Hv.
Qed.

Lemma im_get_perm m m' k : NoDup m.*1 → m ≡ₚ m' → im_get m' k = im_get m k.
Proof.
  intros Hnd Hp. assert (NoDup m'.*1) as Hnd' by by rewrite <- Hp.
  destruct (im_get m k) as [v|] eqn:Hv.
  - apply im_get_Some; [done|]. rewrite <- Hp. by apply im_get_Some.
  - apply im_get_None. rewrite <- Hp. by apply im_get_None.
Qed.

Lemma im_get_cons m k k' v : im_get ((k', v) :: m) k = if decide (k = k') then Some v else im_get m k.
Proof.
  unfold im_get. cbn. case_decide; [done|]. destruct (im_position m k) as [i|]; done.
Qed.

(** An entry, set apart. *)
Lemma im_get_middle m k v :
  im_get m k = Some v → ∃ m1 m2, m = m1 ++ (k, v) :: m2 ∧ k ∉ m1.*1.
Proof.
  induction m as [|[k' v'] m IH]; [done|]. rewrite im_get_cons. case_decide as Hk.
  - intros [= ->]. subst k'. exists [], m. split; [done|]. set_solver.
  - intros (m1 & m2 & -> & Hin)%IH. exists ((k', v') :: m1), m2. split; [done|]. cbn.
    by rewrite not_elem_of_cons.
Qed.

Lemma im_get_split `{!IndexMapOps} m k v :
  im_get m k = Some v →
  ∃ m0, m ≡ₚ (k, v) :: m0 ∧ (∀ w, im_set m k w ≡ₚ (k, w) :: m0) ∧
    ∃ m1, im_swap_remove m k = Some (v, m1) ∧ m1 ≡ₚ m0.
Proof.
  intros (m1 & m2 & -> & Hin)%im_get_middle. exists (m1 ++ m2). split_and!.
  - by rewrite Permutation_middle.
  - intros w. rewrite im_set_old by done. by rewrite Permutation_middle.
  - by apply im_swap_remove_Some.
Qed.
End index_map_lemmas.

(** ** The map as a list of its entries *)

Section index_map_list.
Context {K V : Type} `{EqDecision K}.

Definition list_im_set (m : list (K * V)) (k : K) (v : V) : list (K * V) :=
  match im_position m k with
  | Some i => <[i := (k, v)]> m
  | None => m ++ [(k, v)]
  end.

Definition list_im_swap_remove (m : list (K * V)) (k : K) : option (V * list (K * V)) :=
  i ← im_position m k;
  v ← snd <$> m !! i;
  e ← last m;
  Some (v, take (length m - 1) (<[i := e]> m)).

Lemma im_position_middle (m1 m2 : list (K * V)) k v :
  k ∉ m1.*1 → im_position (m1 ++ (k, v) :: m2) k = Some (length m1).
Proof.
  induction m1 as [|[k' v'] m1 IH]; cbn; [by rewrite decide_True|].
  intros [Hne Hin]%not_elem_of_cons. by rewrite decide_False, IH.
Qed.

Lemma list_insert_middle {A} (l1 l2 : list A) x y :
  <[length l1 := y]> (l1 ++ x :: l2) = l1 ++ y :: l2.
Proof. induction l1 as [|a l1 IH]; [done|]. exact (f_equal (cons a) IH). Qed.

Lemma list_im_swap_remove_Some (m1 m2 : list (K * V)) k v :
  k ∉ m1.*1 → ∃ m', list_im_swap_remove (m1 ++ (k, v) :: m2) k = Some (v, m') ∧ m' ≡ₚ m1 ++ m2.
Proof.
  intros Hin. unfold list_im_swap_remove. rewrite im_position_middle by done. cbn.
  rewrite list_lookup_middle by done. cbn. destruct m2 as [|e m2 _] using rev_ind.
  - rewrite last_snoc. cbn. eexists. split; [done|]. rewrite list_insert_middle.
    rewrite length_app. cbn. rewrite take_app_length'; [|lia]. by rewrite app_nil_r.
  - assert (last (m1 ++ (k, v) :: m2 ++ [e]) = Some e) as ->.
    { by rewrite app_comm_cons, (app_assoc m1), last_snoc. }
    cbn. eexists. split; [done|]. rewrite list_insert_middle.
    replace (m1 ++ e :: m2 ++ [e]) with ((m1 ++ e :: m2) ++ [e]) by (by rewrite <- app_assoc).
    rewrite take_app_length'; [|rewrite !length_app; cbn; rewrite ?length_app; cbn; lia].
    rewrite <- Permutation_middle, (app_assoc m1 m2). apply Permutation_cons_append.
Qed.
End index_map_list.

#[global] Program Instance list_IndexMapOps : IndexMapOps := {|
  im_set K V _ := list_im_set;
  im_swap_remove K V _ := list_im_swap_remove;
|}.
Next Obligation.
  intros K V ? m k v Hn. cbn. unfold list_im_set.
  apply im_get_None, im_position_None in Hn. by rewrite Hn.
Qed.
Next Obligation.
  intros K V ? m1 m2 k v w Hin. cbn. unfold list_im_set.
  by rewrite im_position_middle, list_insert_middle.
Qed.
Next Obligation.
  intros K V ? m k Hn%im_get_None%im_position_None. cbn. unfold list_im_swap_remove. by rewrite Hn.
Qed.
Next Obligation. intros K V ? m1 m2 k v Hin. by apply list_im_swap_remove_Some. Qed.

Lemma bset_first_elem {K} `{Countable K, !OrdKey K} (s : gset K) x : bset_first s = Some x → x ∈ s.
Proof.
  unfold bset_first. intros Hx%head_Some_elem_of. rewrite merge_sort_Permutation in Hx.
  by apply elem_of_elements.
Qed.

