(* ===== verification/LeanUdp.v ===== *)
(** * Lean UDP ([src/leanudp/src/lib.rs], [encoder.rs], [pool.rs], [decoder.rs])

    Messages are cut into fragments of one datagram each and put together again
    at the receiver, in bounded pools of unfinished messages.  This file holds
    the wire format, the encoder, the message pool and the decoder;
    [LeanUdpSpec] proves them.

    Instants are nanoseconds.  The random generator of the pools is a class
    argument. *)
From S2P Require Import Prelude Types Containers.

(** ** Wire format *)

Inductive FragmentType := FtStart | FtMiddle | FtEnd | FtComplete.

#[global] Instance FragmentType_eq_dec : EqDecision FragmentType.
Proof. solve_decision. Defined.

Definition LEANUDP_PROTOCOL_VERSION : N := 1.
Definition LEANUDP_HEADER_SIZE : nat := 6.
Definition END_FLAG : N := 1.
Definition KNOWN_FLAGS_MASK : N := END_FLAG.

Definition fragment_flags (fragment_type : FragmentType) : N :=
  match fragment_type with
  | FtStart | FtMiddle => 0
  | FtComplete | FtEnd => END_FLAG
  end.

Record PacketHeader := {
  ph_version : N;
  ph_msg_id : N;
  ph_seq_num : N;
  ph_flags : N;
}.

Definition PacketHeader_new (msg_id seq_num : N) (fragment_type : FragmentType) : PacketHeader :=
  {| ph_version := LEANUDP_PROTOCOL_VERSION; ph_msg_id := msg_id; ph_seq_num := seq_num;
     ph_flags := fragment_flags fragment_type |}.

Definition fragment_type_of (self : PacketHeader) : FragmentType :=
  match decide (ph_seq_num self = 0)%N, decide (N.land (ph_flags self) END_FLAG ≠ 0)%N with
  | left _, left _ => FtComplete
  | left _, right _ => FtStart
  | right _, left _ => FtEnd
  | right _, right _ => FtMiddle
  end.

(** [flags & !KNOWN_FLAGS_MASK == 0] on a byte. *)
Definition has_known_flags (self : PacketHeader) : bool :=
  bool_decide (N.land (ph_flags self) (N.lxor 255 KNOWN_FLAGS_MASK) = 0)%N.

(** The packed layout of [PacketHeader], with little-endian [U16]s. *)
Definition header_bytes (self : PacketHeader) : list N :=
  [ph_version self; (ph_msg_id self `mod` 256)%N; (ph_msg_id self / 256)%N;
   (ph_seq_num self `mod` 256)%N; (ph_seq_num self / 256)%N; ph_flags self].

Definition read_header (bs : list N) : option PacketHeader :=
  match bs with
  | [v; m0; m1; s0; s1; f] =>
      Some {| ph_version := v; ph_msg_id := (m0 + 256 * m1)%N; ph_seq_num := (s0 + 256 * s1)%N;
              ph_flags := f |}
  | _ => None
  end.

Inductive DecodeError :=
| InvalidHeaderSize (actual required : nat)
| InvalidHeader
| UnsupportedVersion (version expected : N)
| IdentityLimitExceeded (max : nat)
| DuplicateFragment (msg_id seq_num : N)
| TooManyFragments (count max : nat)
| ConflictingEndMarker (expected actual : N)
| MessageSizeExceeded (size max : N)
| PoolFull.

Record Packet := { pk_header : PacketHeader; pk_payload : list N }.

(** [TryFrom<Bytes> for Packet] *)
Definition Packet_try_from (packet : list N) : result Packet DecodeError :=
  if decide (length packet < LEANUDP_HEADER_SIZE)
  then Err (InvalidHeaderSize (length packet) LEANUDP_HEADER_SIZE)
  else
    header ←! ok_or (read_header (take LEANUDP_HEADER_SIZE packet)) InvalidHeader;
    Ok {| pk_header := header; pk_payload := drop LEANUDP_HEADER_SIZE packet |}.

(** ** Configuration *)

Record Config := {
  max_message_size : N;
  max_priority_messages : nat;
  max_regular_messages : nat;
  max_messages_per_identity : nat;
  max_messages_per_dedicated_identity : nat;
  message_timeout : N;
  max_fragment_payload : nat;
}.

Definition Config_validate (self : Config) : run () :=
  assert (0 < max_message_size self)%N ≫= λ _,
  assert (0 < max_messages_per_identity self) ≫= λ _,
  assert (0 < max_messages_per_dedicated_identity self) ≫= λ _,
  assert (message_timeout self ≠ 0%N) ≫= λ _,
  assert (LEANUDP_HEADER_SIZE < max_fragment_payload self).

Definition Config_default : Config := {|
  max_message_size := 512 * 1024; max_priority_messages := 2048; max_regular_messages := 1024;
  max_messages_per_identity := 100; max_messages_per_dedicated_identity := 10;
  message_timeout := 100000000; max_fragment_payload := 1440;
|}.

Inductive FragmentPolicy := Regular | Prioritized.

(** ** Encoder *)

Definition MAX_FRAGMENTS : nat := 512.

Inductive EncodeError := PayloadTooLarge (payload_len fragment_count : nat).

Record Encoder := {
  enc_max_fragment_payload : nat;
  next_msg_id : N;
}.

Definition Encoder_new (max_fragment_payload : nat) : Encoder :=
  {| enc_max_fragment_payload := max_fragment_payload - LEANUDP_HEADER_SIZE; next_msg_id := 0 |}.

Record FragmentIter := {
  it_payload : list N;
  it_max_payload : nat;
  it_msg_id : N;
  it_current : nat;
  it_count : nat;
}.

(** [usize::div_ceil] *)
Definition div_ceil (a b : nat) : run nat :=
  if decide (b = 0) then Panic
  else Ret (if decide (a `mod` b = 0) then a / b else a / b + 1).

Definition fragment (self : Encoder) (payload : list N) :
    run (result FragmentIter EncodeError * Encoder) :=
  let payload_len := length payload in
  count ← div_ceil (payload_len `max` 1) (enc_max_fragment_payload self);
  if decide (MAX_FRAGMENTS < count) then Ret (Err (PayloadTooLarge payload_len count), self)
  else
    let msg_id := next_msg_id self in
    Ret (Ok {| it_payload := payload; it_max_payload := enc_max_fragment_payload self;
               it_msg_id := msg_id; it_current := 0; it_count := count |},
         {| enc_max_fragment_payload := enc_max_fragment_payload self;
            next_msg_id := ((msg_id + 1) `mod` 65536)%N |}).

(** [payload.slice(start..end)]: panics when the bounds are out of order or out of range. *)
Definition slice (payload : list N) (start end_ : nat) : run (list N) :=
  assert (start ≤ end_ ≤ length payload) ≫= λ _,
  Ret (take (end_ - start) (drop start payload)).

Definition FragmentIter_next (self : FragmentIter) :
    run (option (PacketHeader * list N) * FragmentIter) :=
  if decide (it_count self ≤ it_current self) then Ret (None, self)
  else
    let i := it_current self in
    let start := i * it_max_payload self in
    let end_ := (start + it_max_payload self) `min` length (it_payload self) in
    data ← slice (it_payload self) start end_;
    let is_start := bool_decide (i = 0) in
    let is_end := bool_decide (i = it_count self - 1) in
    let fragment_type :=
      match is_start, is_end with
      | true, true => FtComplete
      | true, false => FtStart
      | false, true => FtEnd
      | false, false => FtMiddle
      end in
    let header := PacketHeader_new (it_msg_id self) (N.of_nat i) fragment_type in
    Ret (Some (header, data),
         {| it_payload := it_payload self; it_max_payload := it_max_payload self;
            it_msg_id := it_msg_id self; it_current := i + 1; it_count := it_count self |}).

(** The fragments an iterator yields; [it_count] of them are left at most. *)
Fixpoint collect_fragments (fuel : nat) (it : FragmentIter) : run (list Packet) :=
  match fuel with
  | 0 => Panic
  | S fuel =>
      '(item, it) ← FragmentIter_next it;
      match item with
      | None => Ret []
      | Some (header, data) =>
          rest ← collect_fragments fuel it;
          Ret ({| pk_header := header; pk_payload := data |} :: rest)
      end
  end.

(** ** The message pool *)

Inductive DecodeOutcome := Pending | Complete (message : list N).

Inductive EvictionKind := EvTimeout | EvRandom.
Inductive MessageStatus := Missing | Active | Stale.

Record MessageState := {
  fragments : gmap N (list N);
  total_size : N;
  total_frags : option N;
  eviction_deadline : N;
}.

Definition MessageState_new (eviction_deadline : N) : MessageState :=
  {| fragments := ∅; total_size := 0; total_frags := None;
     eviction_deadline := eviction_deadline |}.

Definition extract (self : MessageState) : list N := concat (btree_values (fragments self)).

Record PoolConfig := {
  pc_max_messages : nat;
  pc_max_message_size : N;
  pc_message_timeout : N;
}.

Definition PoolConfig_from_config (config : Config) (max_messages : nat) : PoolConfig :=
  {| pc_max_messages := max_messages; pc_max_message_size := max_message_size config;
     pc_message_timeout := message_timeout config |}.

Section pool.
Context {I : Type} `{!PubKey I, !IndexMapOps, !PoolRng}.

Record FragmentInput := {
  in_identity : I;
  in_msg_id : N;
  in_seq_num : N;
  in_fragment_type : FragmentType;
  in_payload : list N;
}.

Record IdentityUsage := {
  message_counts : gmap I nat;
  max_per_identity : nat;
}.

Definition IdentityUsage_with_limit (max : nat) : IdentityUsage :=
  {| message_counts := ∅; max_per_identity := max |}.

Definition identity_count (self : IdentityUsage) (identity : I) : nat :=
  default 0 (message_counts self !! identity).

Definition is_at_limit (self : IdentityUsage) (identity : I) : bool :=
  bool_decide (max_per_identity self ≤ identity_count self identity).

Definition increment_identity_count (self : IdentityUsage) (identity : I) : IdentityUsage :=
  {| message_counts := <[identity := S (identity_count self identity)]> (message_counts self);
     max_per_identity := max_per_identity self |}.

(** [*count -= 1] on a [usize] that the map keeps above zero. *)
Definition decrement_identity_count (self : IdentityUsage) (identity : I) : run IdentityUsage :=
  count ← expect (message_counts self !! identity);
  match count with
  | 0 => Panic
  | S 0 => Ret {| message_counts := delete identity (message_counts self);
                  max_per_identity := max_per_identity self |}
  | S count => Ret {| message_counts := <[identity := count]> (message_counts self);
                      max_per_identity := max_per_identity self |}
  end.

Definition usage_ensure_identity_capacity (self : IdentityUsage) (identity : I) :
    result () DecodeError :=
  if decide (identity_count self identity < max_per_identity self) then Ok ()
  else Err (IdentityLimitExceeded (max_per_identity self)).

(** The index of a pool holds [(deadline, key)] pairs; its order is that of the
    tuple. *)
Abbreviation msg_key := (I * N)%type.

Record MessagePool := {
  messages : list (msg_key * MessageState);
  eviction_index : gset (N * msg_key);
  eviction_index_by_identity : gmap I (gset (N * N));
  pool_cfg : PoolConfig;
  mp_rng : pool_rng;
  identity_usage : IdentityUsage;
}.

Definition MessagePool_new (cfg : PoolConfig) (rng : pool_rng) (usage : IdentityUsage) : MessagePool :=
  {| messages := []; eviction_index := ∅; eviction_index_by_identity := ∅; pool_cfg := cfg;
     mp_rng := rng; identity_usage := usage |}.

Definition has_message (self : MessagePool) (key : msg_key) : bool :=
  bool_decide (is_Some (im_get (messages self) key)).

Definition remove_message (self : MessagePool) (key : msg_key) :
    run (option MessageState * MessagePool) :=
  match im_swap_remove (messages self) key with
  | None => Ret (None, self)
  | Some (state, messages) =>
      let deadline := eviction_deadline state in
      let by_identity :=
        match eviction_index_by_identity self !! key.1 with
        | None => eviction_index_by_identity self
        | Some identity_index =>
            let identity_index := identity_index ∖ {[(deadline, key.2)]} in
            if decide (identity_index = ∅) then delete key.1 (eviction_index_by_identity self)
            else <[key.1 := identity_index]> (eviction_index_by_identity self)
        end in
      usage ← decrement_identity_count (identity_usage self) key.1;
      Ret (Some state,
           {| messages := messages;
              eviction_index := eviction_index self ∖ {[(deadline, key)]};
              eviction_index_by_identity := by_identity;
              pool_cfg := pool_cfg self; mp_rng := mp_rng self; identity_usage := usage |})
  end.

Definition message_status (self : MessagePool) (key : msg_key) (now : N) :
    run (MessageStatus * MessagePool) :=
  match eviction_deadline <$> im_get (messages self) key with
  | None => Ret (Missing, self)
  | Some deadline =>
      if decide (now < deadline)%N then Ret (Active, self)
      else
        '(_, self) ← remove_message self key;
        Ret (Stale, self)
  end.

Definition ensure_identity_capacity (self : MessagePool) (identity : I) : result () DecodeError :=
  usage_ensure_identity_capacity (identity_usage self) identity.

Definition evict_candidate_if_stale (self : MessagePool) (stale_candidate : option (N * msg_key))
    (now : N) : run (bool * MessagePool) :=
  match stale_candidate with
  | None => Ret (false, self)
  | Some (deadline, stale_key) =>
      if decide (now < deadline)%N then Ret (false, self)
      else
        '(_, self) ← remove_message self stale_key;
        Ret (true, self)
  end.

Definition evict_stale_for_identity (self : MessagePool) (identity : I) (now : N) :
    run (bool * MessagePool) :=
  let stale_candidate :=
    identity_index ← eviction_index_by_identity self !! identity;
    '(deadline, msg_id) ← bset_first identity_index;
    Some (deadline, (identity, msg_id)) in
  evict_candidate_if_stale self stale_candidate now.

Definition evict_one_stale_for_identity_if_limited (self : MessagePool) (identity : I) (now : N) :
    run (bool * MessagePool) :=
  if negb (is_at_limit (identity_usage self) identity) then Ret (false, self)
  else evict_stale_for_identity self identity now.

Definition with_rng (g : pool_rng) (self : MessagePool) : MessagePool :=
  {| messages := messages self; eviction_index := eviction_index self;
     eviction_index_by_identity := eviction_index_by_identity self; pool_cfg := pool_cfg self;
     mp_rng := g; identity_usage := identity_usage self |}.

Definition evict_before_admission (self : MessagePool) (now : N) :
    run (option EvictionKind * MessagePool) :=
  if decide (messages self = []) then Ret (None, self)
  else
    '(stale, self) ← evict_candidate_if_stale self (bset_first (eviction_index self)) now;
    if stale : bool then Ret (Some EvTimeout, self)
    else
      let '(random_index, g) := gen_range (length (messages self)) (mp_rng self) in
      let self := with_rng g self in
      match messages self !! random_index with
      | None => Ret (None, self)
      | Some (key, _) =>
          '(_, self) ← remove_message self key;
          Ret (Some EvRandom, self)
      end.

Definition admission_blocked (self : MessagePool) : bool :=
  bool_decide (pc_max_messages (pool_cfg self) ≤ length (messages self)).

Definition insert_message (self : MessagePool) (key : msg_key) (now : N) : MessagePool :=
  let deadline := (now + pc_message_timeout (pool_cfg self))%N in
  {| messages := im_set (messages self) key (MessageState_new deadline);
     eviction_index := {[(deadline, key)]} ∪ eviction_index self;
     eviction_index_by_identity :=
       <[key.1 := {[(deadline, key.2)]} ∪ default ∅ (eviction_index_by_identity self !! key.1)]>
         (eviction_index_by_identity self);
     pool_cfg := pool_cfg self; mp_rng := mp_rng self; identity_usage := identity_usage self |}.

Definition set_state (self : MessagePool) (key : msg_key) (state : MessageState) : MessagePool :=
  {| messages := im_set (messages self) key state; eviction_index := eviction_index self;
     eviction_index_by_identity := eviction_index_by_identity self; pool_cfg := pool_cfg self;
     mp_rng := mp_rng self; identity_usage := identity_usage self |}.

(** An error that drops the message. *)
Definition reject (self : MessagePool) (key : msg_key) (e : DecodeError) :
    run (result DecodeOutcome DecodeError * MessagePool) :=
  '(_, self) ← remove_message self key;
  Ret (Err e, self).

Definition is_last (t : FragmentType) : bool :=
  match t with FtEnd | FtComplete => true | _ => false end.

Definition pool_decode (self : MessagePool) (input : FragmentInput) :
    run (result DecodeOutcome DecodeError * MessagePool) :=
  let key := (in_identity input, in_msg_id input) in
  let seq_num := in_seq_num input in
  let fragment_size := N.of_nat (length (in_payload input)) in
  match im_get (messages self) key with
  | None => Ret (Err PoolFull, self)
  | Some state =>
      if decide (MAX_FRAGMENTS ≤ N.to_nat seq_num)
      then reject self key (TooManyFragments (MAX_FRAGMENTS + 1) MAX_FRAGMENTS)
      else if decide (is_Some (fragments state !! seq_num))
      then Ret (Err (DuplicateFragment (in_msg_id input) seq_num), self)
      else if is_last (in_fragment_type input) && bool_decide (is_Some (total_frags state))
      then reject self key (ConflictingEndMarker (default 0%N (total_frags state)) (seq_num + 1))
      else
        let new_total :=
          if is_last (in_fragment_type input) then Some (seq_num + 1)%N else total_frags state in
        if (match new_total with Some total => bool_decide (total ≤ seq_num)%N | None => false end)
        then reject self key (ConflictingEndMarker (default 0%N new_total) (seq_num + 1))
        else
          match u64_checked_add (total_size state) fragment_size with
          | Some new_size =>
              if decide (new_size ≤ pc_max_message_size (pool_cfg self))%N then
                let state :=
                  {| fragments := <[seq_num := in_payload input]> (fragments state);
                     total_size := new_size; total_frags := new_total;
                     eviction_deadline := eviction_deadline state |} in
                let self := set_state self key state in
                if decide (new_total = Some (N.of_nat (size (fragments state)))) then
                  '(removed, self) ← remove_message self key;
                  state ← expect removed;
                  Ret (Ok (Complete (extract state)), self)
                else Ret (Ok Pending, self)
              else reject self key (MessageSizeExceeded new_size (pc_max_message_size (pool_cfg self)))
          | None => reject self key (MessageSizeExceeded u64_MAX (pc_max_message_size (pool_cfg self)))
          end
  end.

Definition with_usage (u : IdentityUsage) (self : MessagePool) : MessagePool :=
  {| messages := messages self; eviction_index := eviction_index self;
     eviction_index_by_identity := eviction_index_by_identity self; pool_cfg := pool_cfg self;
     mp_rng := mp_rng self; identity_usage := u |}.

Definition decode_with_admission (self : MessagePool) (now : N) (key : msg_key)
    (input : FragmentInput) :
    run (result DecodeOutcome DecodeError * option EvictionKind * MessagePool) :=
  if has_message self key then
    '(r, self) ← pool_decode self input;
    Ret (r, None, self)
  else
    '(evicted, self) ←
      (if admission_blocked self then evict_before_admission self now else Ret (None, self));
    if admission_blocked self then Ret (Err PoolFull, evicted, self)
    else
      let self := insert_message self key now in
      let self := with_usage (increment_identity_count (identity_usage self) (in_identity input)) self in
      '(r, self) ← pool_decode self input;
      Ret (r, evicted, self).

(** ** Decoder *)

Inductive PoolSelection := SelDedicated | SelPriority | SelRegular.

Record Decoder := {
  dedicated_pools : gmap I MessagePool;
  dedicated_pool_config : PoolConfig;
  dec_max_messages_per_dedicated_identity : nat;
  dedicated_pool_rng : pool_rng;
  priority_pool : MessagePool;
  regular_pool : MessagePool;
}.

Definition Decoder_with_clock (config : Config) (rng : pool_rng) : Decoder :=
  let '(priority_pool_rng, rng) := from_rng rng in
  let '(regular_pool_rng, rng) := from_rng rng in
  let '(dedicated_pool_rng, _) := from_rng rng in
  {| dedicated_pools := ∅;
     dedicated_pool_config :=
       PoolConfig_from_config config (max_messages_per_dedicated_identity config);
     dec_max_messages_per_dedicated_identity := max_messages_per_dedicated_identity config;
     dedicated_pool_rng := dedicated_pool_rng;
     priority_pool :=
       MessagePool_new (PoolConfig_from_config config (max_priority_messages config))
         priority_pool_rng (IdentityUsage_with_limit (max_messages_per_identity config));
     regular_pool :=
       MessagePool_new (PoolConfig_from_config config (max_regular_messages config))
         regular_pool_rng (IdentityUsage_with_limit (max_messages_per_identity config)) |}.

Definition policy_pool (policy : FragmentPolicy) : PoolSelection :=
  match policy with Prioritized => SelPriority | Regular => SelRegular end.

(** [pool_mut], to read and to write back. *)
Definition get_pool (self : Decoder) (sel : PoolSelection) (identity : I) : option MessagePool :=
  match sel with
  | SelDedicated => dedicated_pools self !! identity
  | SelPriority => Some (priority_pool self)
  | SelRegular => Some (regular_pool self)
  end.

Definition put_pool (self : Decoder) (sel : PoolSelection) (identity : I) (pool : MessagePool) :
    Decoder :=
  {| dedicated_pools :=
       match sel with
       | SelDedicated => <[identity := pool]> (dedicated_pools self)
       | _ => dedicated_pools self
       end;
     dedicated_pool_config := dedicated_pool_config self;
     dec_max_messages_per_dedicated_identity := dec_max_messages_per_dedicated_identity self;
     dedicated_pool_rng := dedicated_pool_rng self;
     priority_pool := match sel with SelPriority => pool | _ => priority_pool self end;
     regular_pool := match sel with SelRegular => pool | _ => regular_pool self end |}.

(** The status of a message in one of the pools. *)
Definition pool_status (self : Decoder) (sel : PoolSelection) (key : msg_key) (now : N) :
    run (MessageStatus * Decoder) :=
  match get_pool self sel key.1 with
  | None => Ret (Missing, self)
  | Some pool =>
      '(status, pool) ← message_status pool key now;
      Ret (status, put_pool self sel key.1 pool)
  end.

Definition select_pool (self : Decoder) (score : I → FragmentPolicy) (key : msg_key) (now : N) :
    run (PoolSelection * Decoder) :=
  let is_dedicated := bool_decide (is_Some (dedicated_pools self !! key.1)) in
  '(status, self) ← pool_status self SelDedicated key now;
  match status with
  | Active => Ret (SelDedicated, self)
  | _ =>
      '(status, self) ← pool_status self SelPriority key now;
      match status with
      | Active => Ret (SelPriority, self)
      | _ =>
          '(status, self) ← pool_status self SelRegular key now;
          match status with
          | Active => Ret (SelRegular, self)
          | _ => Ret (if is_dedicated then SelDedicated else policy_pool (score key.1), self)
          end
      end
  end.

Definition decode_in_pool (self : Decoder) (now : N) (selected_pool : PoolSelection) (key : msg_key)
    (input : FragmentInput) : run (result DecodeOutcome DecodeError * Decoder) :=
  pool ← expect (get_pool self selected_pool (in_identity input));
  '(capacity, pool) ←
    (if has_message pool key then Ret (Ok (), pool)
     else
       '(_, pool) ← evict_one_stale_for_identity_if_limited pool (in_identity input) now;
       Ret (ensure_identity_capacity pool (in_identity input), pool));
  match capacity with
  | Err e => Ret (Err e, put_pool self selected_pool (in_identity input) pool)
  | Ok _ =>
      '(r, _, pool) ← decode_with_admission pool now key input;
      Ret (r, put_pool self selected_pool (in_identity input) pool)
  end.

(** [Decoder::decode] of a parsed packet. *)
Definition decode_packet (self : Decoder) (score : I → FragmentPolicy) (now : N) (identity : I)
    (packet : Packet) : run (result DecodeOutcome DecodeError * Decoder) :=
  let header := pk_header packet in
  if decide (ph_version header ≠ LEANUDP_PROTOCOL_VERSION)
  then Ret (Err (UnsupportedVersion (ph_version header) LEANUDP_PROTOCOL_VERSION), self)
  else if negb (has_known_flags header) then Ret (Err InvalidHeader, self)
  else
    let key := (identity, ph_msg_id header) in
    '(selected_pool, self) ← select_pool self score key now;
    decode_in_pool self now selected_pool key
      {| in_identity := identity; in_msg_id := ph_msg_id header; in_seq_num := ph_seq_num header;
         in_fragment_type := fragment_type_of header; in_payload := pk_payload packet |}.

(** [Decoder::decode] of the bytes of a datagram. *)
Definition decode (self : Decoder) (score : I → FragmentPolicy) (now : N) (identity : I)
    (packet : list N) : run (result DecodeOutcome DecodeError * Decoder) :=
  match Packet_try_from packet with
  | Err e => Ret (Err e, self)
  | Ok packet => decode_packet self score now identity packet
  end.

(** The identities in the iteration order of their [HashSet]. *)
Fixpoint add_dedicated (self : Decoder) (identities : list I) : Decoder :=
  match identities with
  | [] => self
  | identity :: identities =>
      match dedicated_pools self !! identity with
      | Some _ => add_dedicated self identities
      | None =>
          let '(rng, g) := from_rng (dedicated_pool_rng self) in
          add_dedicated
            {| dedicated_pools :=
                 <[identity :=
                     MessagePool_new (dedicated_pool_config self) rng
                       (IdentityUsage_with_limit (dec_max_messages_per_dedicated_identity self))]>
                   (dedicated_pools self);
               dedicated_pool_config := dedicated_pool_config self;
               dec_max_messages_per_dedicated_identity := dec_max_messages_per_dedicated_identity self;
               dedicated_pool_rng := g;
               priority_pool := priority_pool self; regular_pool := regular_pool self |}
            identities
      end
  end.

Definition set_dedicated_identities (self : Decoder) (identities : list I) : Decoder :=
  add_dedicated
    {| dedicated_pools := filter (λ p, p.1 ∈ identities) (dedicated_pools self);
       dedicated_pool_config := dedicated_pool_config self;
       dec_max_messages_per_dedicated_identity := dec_max_messages_per_dedicated_identity self;
       dedicated_pool_rng := dedicated_pool_rng self;
       priority_pool := priority_pool self; regular_pool := regular_pool self |}
    identities.
End pool.

#[global] Arguments FragmentInput : clear implicits.
#[global] Arguments MessagePool I {_ _}.
#[global] Arguments Decoder I {_ _}.
