(* ===== verification/LeanUdpSpec.v ===== *)
(** * Lean UDP is correct

    Three theorems about [LeanUdp].  The decoder never panics on any datagram and
    its memory stays within the configured bounds ([lean_udp_bounded]).  A header
    survives its wire format ([lean_udp_header_roundtrip]).  The fragments of a
    message, delivered in any order and interleaved with other traffic, give back
    the message with the last of them, unless the pool evicted it
    ([lean_udp_roundtrip]). *)
From S2P Require Import Prelude Types Containers LeanUdp.

(** ** The pool invariant *)

Section pool.
Context {I : Type} `{!PubKey I, !IndexMapOps, !PoolRng}.
Implicit Types (p : MessagePool I) (k : I * N) (st : MessageState) (cfg : PoolConfig).

Definition frag_bytes (m : gmap N (list N)) : N := nsum (N.of_nat ∘ length <$> btree_values m).

(** A message in a pool: its size is counted exactly and within the limit, its
    sequence numbers are below [MAX_FRAGMENTS]. *)
Record state_ok cfg st : Prop := {
  sok_size : total_size st = frag_bytes (fragments st);
  sok_max : (total_size st ≤ pc_max_message_size cfg)%N;
  sok_seq s : is_Some (fragments st !! s) → N.to_nat s < MAX_FRAGMENTS;
}.

Definition count_of (i : I) (ms : list ((I * N) * MessageState)) : nat :=
  length (filter (λ e, e.1.1 = i) ms).

#[local] Arguments count_of : simpl never.
#[local] Arguments im_get : simpl never.

Record pool_ok p : Prop := {
  po_nodup : NoDup (messages p).*1;
  po_index d k : (d, k) ∈ eviction_index p ↔
    ∃ st, im_get (messages p) k = Some st ∧ eviction_deadline st = d;
  po_identity i d m : (∃ s, eviction_index_by_identity p !! i = Some s ∧ (d, m) ∈ s) ↔
    (d, (i, m)) ∈ eviction_index p;
  po_counts i : message_counts (identity_usage p) !! i =
    (if decide (count_of i (messages p) = 0) then None else Some (count_of i (messages p)));
  po_length : length (messages p) ≤ pc_max_messages (pool_cfg p);
  po_limit i : count_of i (messages p) ≤ max_per_identity (identity_usage p);
  po_states k st : im_get (messages p) k = Some st → state_ok (pool_cfg p) st;
}.

(** The fixed part of a pool. *)
Definition same_limits p p' : Prop :=
  pool_cfg p' = pool_cfg p ∧
  max_per_identity (identity_usage p') = max_per_identity (identity_usage p).

Lemma same_limits_trans p1 p2 p3 : same_limits p1 p2 → same_limits p2 p3 → same_limits p1 p3.
Proof. intros [Ha Hb] [Hc Hd]. split; congruence. Qed.

Lemma count_of_cons i e ms :
  count_of i (e :: ms) = (if decide (e.1.1 = i) then 1 else 0) + count_of i ms.
Proof. unfold count_of. rewrite filter_cons. case_decide; done. Qed.

#[local] Instance count_of_perm i : Proper ((≡ₚ) ==> (=)) (count_of i).
Proof. intros ms ms' Hp. unfold count_of. by rewrite Hp. Qed.

Lemma identity_count_of p i :
  pool_ok p → identity_count (identity_usage p) i = count_of i (messages p).
Proof. intros Hok. unfold identity_count. rewrite (po_counts _ Hok). by case_decide. Qed.

Lemma pool_ok_new cfg g n : pool_ok (MessagePool_new cfg g (IdentityUsage_with_limit n)).
Proof.
  split; cbn; [constructor|..].
  - intros d k. split; [set_solver|]. by intros (st & ? & _).
  - intros i d m. split; [|set_solver]. intros (s & Hs & _). by rewrite lookup_empty in Hs.
  - intros i. by rewrite lookup_empty.
  - lia.
  - intros i. unfold count_of. cbn. lia.
  - done.
Qed.

Lemma remove_message_spec p k :
  pool_ok p →
  ∃ p', remove_message p k = Ret (im_get (messages p) k, p') ∧ pool_ok p' ∧ same_limits p p' ∧
    (∀ k', im_get (messages p') k' = if decide (k' = k) then None else im_get (messages p) k') ∧
    length (messages p') =
      length (messages p) - (if decide (is_Some (im_get (messages p) k)) then 1 else 0) ∧
    (∀ i, count_of i (messages p') ≤ count_of i (messages p)) ∧
    mp_rng p' = mp_rng p.
Proof.
  intros Hok. pose proof Hok as [Hnd Hix Hid Hcnt Hlen Hlim Hst]. unfold remove_message.
  destruct (im_get (messages p) k) as [st|] eqn:Hk.
  2: { rewrite im_swap_remove_None by done. exists p. split_and!; [done|done|done| |rewrite decide_False by (by intros []); lia|done|done].
       intros k'. case_decide; [by subst|done]. }
  destruct (im_get_split _ k st Hk) as (m0 & Hp & _ & m1 & -> & Hp1).
  assert (messages p ≡ₚ (k, st) :: m1) as Hp' by by rewrite Hp1.
  assert (∀ i, count_of i (messages p) = (if decide (k.1 = i) then 1 else 0) + count_of i m1) as Hc.
  { intros i. rewrite Hp'. apply count_of_cons. }
  assert (NoDup m1.*1 ∧ k ∉ m1.*1) as [Hnd1 Hni].
  { rewrite Hp' in Hnd. cbn in Hnd. apply NoDup_cons in Hnd as [? ?]. done. }
  assert (∀ k', im_get m1 k' = if decide (k' = k) then None else im_get (messages p) k') as Hget.
  { intros k'. rewrite <- (im_get_perm _ _ k' Hnd Hp'), im_get_cons. case_decide; [|done]. subst.
    by apply im_get_None. }
  assert (decrement_identity_count (identity_usage p) k.1 =
    Ret {| message_counts := (if decide (count_of k.1 m1 = 0) then delete k.1 (message_counts (identity_usage p))
             else <[k.1 := count_of k.1 m1]> (message_counts (identity_usage p)));
           max_per_identity := max_per_identity (identity_usage p) |}) as ->.
  { unfold decrement_identity_count. rewrite Hcnt, (Hc k.1), (decide_True (P := k.1 = k.1)) by done.
    rewrite decide_False by lia. cbn. by destruct (count_of k.1 m1). }
  cbn [mbind run_bind]. eexists. split; [done|].
  split; [|split_and!; [done|exact Hget| | |done]].
  2: { destruct (decide (is_Some (Some st))) as [_|[]]; [|eauto]. cbn. rewrite Hp'. cbn. lia. }
  2: { intros i. cbn. rewrite Hc. case_decide; lia. }
  split; cbn.
  - done.
  - intros d k'. rewrite elem_of_difference, elem_of_singleton, Hix, Hget. case_decide as Hkk.
    + subst k'. split; [|by intros (? & ? & _)]. intros ((st' & Hst' & <-) & Hne).
      rewrite Hk in Hst'. simplify_eq.
    + split; [by intros [? _]|]. intros Hex. split; [done|]. congruence.
  - assert ((eviction_deadline st, (k.1, k.2)) ∈ eviction_index p) as Hin.
    { rewrite <- surjective_pairing. apply Hix. eauto. }
    apply Hid in Hin as (s0 & Hs0 & _). rewrite Hs0. intros i d m.
    rewrite elem_of_difference, elem_of_singleton, <- Hid. split.
    + intros (s & Hs & Hm). destruct (decide (i = k.1)) as [->|Hne].
      * case_decide as He; [by rewrite lookup_delete_eq in Hs|].
        rewrite lookup_insert_eq in Hs. injection Hs as <-. apply elem_of_difference in Hm as [Hm Hne].
        split; [eauto|]. intros [= -> Hkm]. apply Hne. rewrite <- Hkm. set_solver.
      * split; [|intros [= _ Hkm]; apply Hne; by rewrite <- Hkm].
        exists s. split; [|done]. case_decide; [by rewrite lookup_delete_ne in Hs|].
        by rewrite lookup_insert_ne in Hs.
    + intros [(s & Hs & Hm) Hne]. destruct (decide (i = k.1)) as [->|Hni'].
      * rewrite Hs0 in Hs. injection Hs as <-.
        assert ((d, m) ∈ s0 ∖ {[(eviction_deadline st, k.2)]}) as Hm'.
        { apply elem_of_difference. split; [done|]. rewrite elem_of_singleton. intros [= -> ->].
          apply Hne. by rewrite <- surjective_pairing. }
        exists (s0 ∖ {[(eviction_deadline st, k.2)]}). split; [|done].
        rewrite decide_False by set_solver. apply lookup_insert_eq.
      * exists s. split; [|done]. case_decide; [by rewrite lookup_delete_ne|by rewrite lookup_insert_ne].
  - intros i. specialize (Hcnt i). rewrite (Hc i) in Hcnt. destruct (decide (k.1 = i)) as [<-|Hne].
    + destruct (decide (count_of k.1 m1 = 0)); [by rewrite lookup_delete_eq|by rewrite lookup_insert_eq].
    + destruct (decide (count_of k.1 m1 = 0)); [by rewrite lookup_delete_ne|by rewrite lookup_insert_ne].
  - rewrite Hp' in Hlen. cbn in Hlen. lia.
  - intros i. specialize (Hlim i). rewrite Hc in Hlim. case_decide; lia.
  - intros k' st'. rewrite Hget. case_decide; [done|]. apply Hst.
Qed.

(** The pool loses messages at most. *)
Record shrinks p p' : Prop := {
  sh_ok : pool_ok p';
  sh_limits : same_limits p p';
  sh_get k : im_get (messages p') k = im_get (messages p) k ∨ im_get (messages p') k = None;
  sh_length : length (messages p') ≤ length (messages p);
  sh_counts i : count_of i (messages p') ≤ count_of i (messages p);
}.

Lemma shrinks_refl p : pool_ok p → shrinks p p.
Proof. intros Hok. split; [done|done|by left|done|done]. Qed.

Lemma remove_message_shrinks p k :
  pool_ok p →
  ∃ p', remove_message p k = Ret (im_get (messages p) k, p') ∧ shrinks p p' ∧
    im_get (messages p') k = None ∧
    (∀ k', k' ≠ k → im_get (messages p') k' = im_get (messages p) k') ∧
    length (messages p') =
      length (messages p) - (if decide (is_Some (im_get (messages p) k)) then 1 else 0).
Proof.
  intros Hok. destruct (remove_message_spec p k Hok) as (p' & Hrun & Hok' & Hs & Hg & Hl & Hc & _).
  exists p'. split_and!; [done| | | |done].
  - split; [done|done| |case_decide; lia|done]. intros k'.
    destruct (decide (k' = k)); [right|left]; rewrite Hg; [by rewrite decide_True|by rewrite decide_False].
  - by rewrite Hg, decide_True.
  - intros k' Hne. by rewrite Hg, decide_False.
Qed.

Lemma message_status_spec p k now :
  pool_ok p →
  ∃ status p', message_status p k now = Ret (status, p') ∧ shrinks p p' ∧
    (∀ k', k' ≠ k → im_get (messages p') k' = im_get (messages p) k') ∧
    match status with
    | Active => p' = p ∧ ∃ st, im_get (messages p) k = Some st ∧ (now < eviction_deadline st)%N
    | _ => im_get (messages p') k = None ∧
           ∀ st, im_get (messages p) k = Some st → (eviction_deadline st ≤ now)%N
    end.
Proof.
  intros Hok. unfold message_status. destruct (im_get (messages p) k) as [st|] eqn:Hk; cbn.
  2: { exists Missing, p. split_and!; [done|by apply shrinks_refl|done|done|done]. }
  case_decide as Hd.
  { exists Active, p. split_and!; [done|by apply shrinks_refl|done|done|eauto]. }
  destruct (remove_message_shrinks p k Hok) as (p' & -> & Hs & Hn & Ho & _). cbn.
  exists Stale, p'. split_and!; [done|done|done|done|]. intros st' Hst'. simplify_eq. lia.
Qed.

Lemma evict_candidate_shrinks p c now :
  pool_ok p → ∃ b p', evict_candidate_if_stale p c now = Ret (b, p') ∧ shrinks p p' ∧
    (b = false → p' = p) ∧
    (b = true → (∀ d k, c = Some (d, k) → is_Some (im_get (messages p) k)) →
       length (messages p') < length (messages p)).
Proof.
  intros Hok. unfold evict_candidate_if_stale. destruct c as [[d k]|].
  2: { eexists _, _. split_and!; [done|by apply shrinks_refl|done|done]. }
  case_decide. { eexists _, _. split_and!; [done|by apply shrinks_refl|done|done]. }
  destruct (remove_message_shrinks p k Hok) as (p' & -> & Hs & Hn & _ & Hl). cbn.
  eexists _, _. split_and!; [done|done|done|]. intros _ Hin. specialize (Hin d k eq_refl).
  rewrite Hl, decide_True by done. destruct (messages p) as [|e ms]; [|cbn; lia]. by destruct Hin.
Qed.

Lemma evict_limited_shrinks p i now :
  pool_ok p → ∃ b p', evict_one_stale_for_identity_if_limited p i now = Ret (b, p') ∧ shrinks p p'.
Proof.
  intros Hok. unfold evict_one_stale_for_identity_if_limited. destruct (negb _).
  { eexists _, _. split; [done|by apply shrinks_refl]. }
  destruct (evict_candidate_shrinks p
    (identity_index ← eviction_index_by_identity p !! i;
     '(deadline, msg_id) ← bset_first identity_index;
     Some (deadline, (i, msg_id))) now Hok) as (b & p' & Hrun & Hs & _). eauto.
Qed.

Lemma pool_ok_rng g p : pool_ok p → pool_ok (with_rng g p).
Proof. by intros []. Qed.

Lemma evict_before_admission_shrinks p now :
  pool_ok p → ∃ e p', evict_before_admission p now = Ret (e, p') ∧ shrinks p p' ∧
    (messages p ≠ [] → length (messages p') < length (messages p)).
Proof.
  intros Hok. unfold evict_before_admission. case_decide as He.
  { eexists _, _. split_and!; [done|by apply shrinks_refl|done]. }
  destruct (evict_candidate_shrinks p (bset_first (eviction_index p)) now Hok)
    as (b & p1 & -> & Hs & Hf & Ht). cbn [mbind run_bind]. destruct b.
  { eexists _, _. split_and!; [done|done|]. intros _. apply Ht; [done|].
    intros d k Hin%bset_first_elem. apply (po_index _ Hok) in Hin as (st & Hst & _). eauto. }
  rewrite (Hf eq_refl). destruct (gen_range _ _) as [ri g] eqn:Hg. cbn [messages with_rng].
  assert (ri < length (messages p)) as Hlt.
  { pose proof (gen_range_lt (length (messages p)) (mp_rng p)) as Hr. rewrite Hg in Hr. apply Hr.
    destruct (messages p); cbn; [done|lia]. }
  destruct (lookup_lt_is_Some_2 _ _ Hlt) as [[k st] Hk]. rewrite Hk.
  destruct (remove_message_shrinks (with_rng g p) k (pool_ok_rng g p Hok))
    as (p' & -> & [Hs1 Hs2 Hs3 Hs4 Hs5] & _ & _ & Hl).
  cbn [mbind run_bind]. eexists _, _. split_and!; [done|by split|]. intros _.
  rewrite Hl, decide_True; [cbn; lia|]. exists st. apply im_get_Some; [apply Hok|].
  by eapply list_elem_of_lookup_2.
Qed.

(** ** Admission and fragments *)

Definition admit_message p k (now : N) : MessagePool I :=
  with_usage (increment_identity_count (identity_usage p) k.1) (insert_message p k now).

Lemma state_ok_new cfg d : state_ok cfg (MessageState_new d).
Proof. split; cbn; [done|lia|]. intros s [x Hx]. by rewrite lookup_empty in Hx. Qed.

Lemma admit_message_spec p k now :
  pool_ok p → im_get (messages p) k = None →
  length (messages p) < pc_max_messages (pool_cfg p) →
  count_of k.1 (messages p) < max_per_identity (identity_usage p) →
  pool_ok (admit_message p k now) ∧ same_limits p (admit_message p k now) ∧
  im_get (messages (admit_message p k now)) k =
    Some (MessageState_new (now + pc_message_timeout (pool_cfg p))) ∧
  ∀ k', k' ≠ k → im_get (messages (admit_message p k now)) k' = im_get (messages p) k'.
Proof.
  intros Hok Hk Hlen Hlim. pose proof Hok as [Hnd Hix Hid Hcnt _ Hlims Hst].
  set (d := (now + pc_message_timeout (pool_cfg p))%N). set (st := MessageState_new d).
  assert (messages (admit_message p k now) = messages p ++ [(k, st)]) as Hm.
  { cbn. by rewrite im_set_new. }
  assert (messages p ++ [(k, st)] ≡ₚ (k, st) :: messages p) as Hp by by rewrite Permutation_app_comm.
  assert (NoDup ((k, st) :: messages p).*1) as Hnd'.
  { cbn. apply NoDup_cons. split; [by apply im_get_None|done]. }
  assert (∀ k', im_get (messages (admit_message p k now)) k' =
    if decide (k' = k) then Some st else im_get (messages p) k') as Hget.
  { intros k'. rewrite Hm, (im_get_perm ((k, st) :: messages p) _ k' Hnd'), im_get_cons by by symmetry.
    done. }
  assert (∀ i, count_of i (messages (admit_message p k now)) =
    (if decide (k.1 = i) then 1 else 0) + count_of i (messages p)) as Hc.
  { intros i. by rewrite Hm, Hp, count_of_cons. }
  split; [|split; [done|split; [by rewrite Hget, decide_True|]]].
  2: { intros k' Hne. by rewrite Hget, decide_False. }
  split.
  - by rewrite Hm, Hp.
  - intros d' k'. rewrite Hget. change (eviction_index (admit_message p k now)) with
      ({[(d, k)]} ∪ eviction_index p). rewrite elem_of_union, elem_of_singleton, Hix.
    case_decide as Hkk.
    + subst k'. split; [|intros (st' & [= <-] & <-); by left]. intros [[= ->]|(st' & Hst' & _)]; [eauto|].
      congruence.
    + split; [|by right]. intros [[= -> ->]|?]; done.
  - intros i d' m. change (eviction_index (admit_message p k now)) with
      ({[(d, k)]} ∪ eviction_index p).
    change (eviction_index_by_identity (admit_message p k now)) with
      (<[k.1 := {[(d, k.2)]} ∪ default ∅ (eviction_index_by_identity p !! k.1)]>
         (eviction_index_by_identity p)).
    rewrite elem_of_union, elem_of_singleton, <- Hid. destruct (decide (i = k.1)) as [->|Hne].
    + rewrite lookup_insert_eq. split.
      * intros (s' & [= <-] & [Hin|Hin]%elem_of_union).
        -- apply elem_of_singleton in Hin as [= -> ->]. left. by rewrite <- surjective_pairing.
        -- right. destruct (eviction_index_by_identity p !! k.1) as [s'|]; cbn in Hin; [eauto|set_solver].
      * intros Hin. eexists. split; [done|]. destruct Hin as [[= -> Hkm]|(s' & Hs' & Hm')].
        -- rewrite <- Hkm. cbn. set_solver.
        -- rewrite Hs'. cbn. set_solver.
    + rewrite lookup_insert_ne by done. split; [by right|].
      intros [[= -> Hkm]|?]; [|done]. destruct Hne. by rewrite <- Hkm.
  - intros i. rewrite Hc. cbn. rewrite identity_count_of by done. destruct (decide (k.1 = i)) as [<-|Hne].
    + rewrite lookup_insert_eq, decide_False by lia. done.
    + rewrite lookup_insert_ne by done. apply Hcnt.
  - rewrite Hm, length_app. cbn. lia.
  - intros i. rewrite Hc. cbn. case_decide; [subst; lia|]. apply Hlims.
  - intros k' st'. rewrite Hget. case_decide; [|apply Hst]. intros [= <-]. apply state_ok_new.
Qed.

(** Only the message [k] changes. *)
Record touches k p p' : Prop := {
  tc_ok : pool_ok p';
  tc_limits : same_limits p p';
  tc_others k' : k' ≠ k → im_get (messages p') k' = im_get (messages p) k';
}.

Lemma touches_refl k p : pool_ok p → touches k p p.
Proof. by split. Qed.

Lemma touches_trans k p1 p2 p3 : touches k p1 p2 → touches k p2 p3 → touches k p1 p3.
Proof.
  intros [_ Hl Ho] [Hok Hl' Ho']. split; [done|by eapply same_limits_trans|].
  intros k' Hne. by rewrite Ho', Ho.
Qed.

Lemma remove_message_touches p k :
  pool_ok p →
  ∃ p', remove_message p k = Ret (im_get (messages p) k, p') ∧ touches k p p' ∧
    im_get (messages p') k = None.
Proof.
  intros Hok. destruct (remove_message_shrinks p k Hok) as (p' & Hrun & [] & Hn & Ho & _).
  exists p'. by split_and!.
Qed.

Lemma set_state_spec p k st st' :
  pool_ok p → im_get (messages p) k = Some st → eviction_deadline st' = eviction_deadline st →
  state_ok (pool_cfg p) st' →
  touches k p (set_state p k st') ∧ im_get (messages (set_state p k st')) k = Some st'.
Proof.
  intros Hok Hk Hd Hst'. pose proof Hok as [Hnd Hix Hid Hcnt Hlen Hlim Hst].
  destruct (im_get_split _ k st Hk) as (m0 & Hp & Hset & _). specialize (Hset st').
  assert (NoDup ((k, st') :: m0).*1) as Hnd'.
  { rewrite Hp in Hnd. done. }
  assert (∀ k', im_get (messages (set_state p k st')) k' =
    if decide (k' = k) then Some st' else im_get (messages p) k') as Hget.
  { intros k'. cbn. rewrite (im_get_perm ((k, st') :: m0) _ k' Hnd') by by symmetry.
    rewrite im_get_cons. case_decide as Hkk; [done|].
    rewrite <- (im_get_perm _ _ k' Hnd Hp), im_get_cons, decide_False by done. done. }
  assert (∀ i, count_of i (messages (set_state p k st')) = count_of i (messages p)) as Hc.
  { intros i. cbn. by rewrite Hset, Hp, !count_of_cons. }
  assert (length (messages (set_state p k st')) = length (messages p)) as Hl.
  { cbn. by rewrite Hset, Hp. }
  split; [split|by rewrite Hget, decide_True]; [|done|].
  2: { intros k' Hne. by rewrite Hget, decide_False. }
  split.
  - cbn. by rewrite Hset.
  - intros d k'. rewrite Hget. cbn. rewrite Hix. case_decide as Hkk; [|done]. subst k'. rewrite Hk.
    split; [intros (x & [= <-] & <-)|intros (x & [= <-] & <-)]; eauto.
  - done.
  - intros i. rewrite Hc. apply Hcnt.
  - by rewrite Hl.
  - intros i. rewrite Hc. apply Hlim.
  - intros k' x. rewrite Hget. case_decide; [by intros [= <-]|apply Hst].
Qed.

Lemma frag_bytes_insert m s d :
  m !! s = None → frag_bytes (<[s := d]> m) = (frag_bytes m + N.of_nat (length d))%N.
Proof.
  intros Hs. unfold frag_bytes, btree_values. rewrite !btree_iter_perm, map_to_list_insert by done.
  rewrite !fmap_cons, nsum_cons. cbn. lia.
Qed.

Lemma reject_spec p k e :
  pool_ok p → ∃ p', reject p k e = Ret (Err e, p') ∧ touches k p p'.
Proof.
  intros Hok. unfold reject. destruct (remove_message_touches p k Hok) as (p' & -> & Ht & _). eauto.
Qed.

Implicit Type input : FragmentInput I.

Definition in_key input : I * N := (in_identity input, in_msg_id input).

Definition new_total st input : option N :=
  if is_last (in_fragment_type input) then Some (in_seq_num input + 1)%N else total_frags st.

Definition add_fragment st input : MessageState :=
  {| fragments := <[in_seq_num input := in_payload input]> (fragments st);
     total_size := total_size st + N.of_nat (length (in_payload input));
     total_frags := new_total st input; eviction_deadline := eviction_deadline st |}.

Lemma add_fragment_ok cfg st input :
  state_ok cfg st → N.to_nat (in_seq_num input) < MAX_FRAGMENTS →
  fragments st !! in_seq_num input = None →
  (total_size st + N.of_nat (length (in_payload input)) ≤ pc_max_message_size cfg)%N →
  state_ok cfg (add_fragment st input).
Proof.
  intros [Hs Hm Hq] Hlt Hnone Hmax. split; cbn.
  - by rewrite frag_bytes_insert, Hs.
  - done.
  - intros s. destruct (decide (s = in_seq_num input)) as [->|Hne]; [done|].
    rewrite lookup_insert_ne by done. apply Hq.
Qed.

(** The last step of [pool_decode], for a fragment that passed the checks. *)
Lemma store_fragment p input st :
  pool_ok p → im_get (messages p) (in_key input) = Some st →
  N.to_nat (in_seq_num input) < MAX_FRAGMENTS → fragments st !! in_seq_num input = None →
  (total_size st + N.of_nat (length (in_payload input)) ≤ pc_max_message_size (pool_cfg p))%N →
  ∃ p',
    (let st' := add_fragment st input in
     let p := set_state p (in_key input) st' in
     if decide (new_total st input = Some (N.of_nat (size (fragments st')))) then
       '(removed, p) ← remove_message p (in_key input);
       st' ← expect removed;
       Ret (Ok (Complete (extract st')), p)
     else Ret (Ok Pending, p)) =
    Ret (Ok (if decide (new_total st input = Some (N.of_nat (size (fragments (add_fragment st input)))))
             then Complete (extract (add_fragment st input)) else Pending) : result _ DecodeError, p') ∧
    touches (in_key input) p p' ∧
    im_get (messages p') (in_key input) =
      (if decide (new_total st input = Some (N.of_nat (size (fragments (add_fragment st input)))))
       then None else Some (add_fragment st input)).
Proof.
  intros Hok Hk Hlt Hnone Hmax.
  destruct (set_state_spec p (in_key input) st (add_fragment st input)) as [Ht Hg]; [done|done|done| |].
  { apply add_fragment_ok; [|done|done|done]. by apply (po_states _ Hok _ _ Hk). }
  cbn zeta. case_decide; [|by eexists].
  destruct (remove_message_touches _ (in_key input) (tc_ok _ _ _ Ht)) as (p' & -> & Ht' & Hn).
  rewrite Hg. cbn [mbind run_bind expect]. exists p'. split_and!; [done|by eapply touches_trans|done].
Qed.

Lemma pool_decode_touches p input :
  pool_ok p → ∃ r p', pool_decode p input = Ret (r, p') ∧ touches (in_key input) p p'.
Proof.
  intros Hok. unfold pool_decode. fold (in_key input).
  destruct (im_get (messages p) (in_key input)) as [st|] eqn:Hk.
  2: { eexists _, _. split; [done|by apply touches_refl]. }
  destruct (decide (MAX_FRAGMENTS ≤ _)) as [|Hlt].
  { destruct (reject_spec p (in_key input) (TooManyFragments (MAX_FRAGMENTS + 1) MAX_FRAGMENTS) Hok)
      as (p' & -> & Ht). eauto. }
  destruct (decide (is_Some _)) as [|Hnone].
  { eexists _, _. split; [done|by apply touches_refl]. }
  destruct (_ && _).
  { edestruct (reject_spec p (in_key input)) as (p' & -> & Ht); [done|]. eauto. }
  fold (new_total st input). cbn zeta.
  destruct (match new_total st input with Some total => _ | None => _ end).
  { edestruct (reject_spec p (in_key input)) as (p' & -> & Ht); [done|]. eauto. }
  destruct (u64_checked_add _ _) as [n|] eqn:Hadd.
  2: { edestruct (reject_spec p (in_key input)) as (p' & -> & Ht); [done|]. eauto. }
  apply u64_checked_add_Some in Hadd as [-> _].
  case_decide as Hmax.
  2: { edestruct (reject_spec p (in_key input)) as (p' & -> & Ht); [done|]. eauto. }
  destruct (store_fragment p input st) as (p' & Hrun & Ht & _); [done|done|lia| |done|].
  { by apply eq_None_not_Some. }
  eexists _, p'. split; [exact Hrun|done].
Qed.

Lemma pool_decode_accepts p input st :
  pool_ok p → im_get (messages p) (in_key input) = Some st →
  N.to_nat (in_seq_num input) < MAX_FRAGMENTS → fragments st !! in_seq_num input = None →
  (is_last (in_fragment_type input) = true → total_frags st = None) →
  (∀ t, new_total st input = Some t → in_seq_num input < t)%N →
  (total_size st + N.of_nat (length (in_payload input)) ≤ pc_max_message_size (pool_cfg p))%N →
  (pc_max_message_size (pool_cfg p) ≤ u64_MAX)%N →
  ∃ p',
    pool_decode p input =
      Ret (Ok (if decide (new_total st input = Some (N.of_nat (size (fragments (add_fragment st input)))))
               then Complete (extract (add_fragment st input)) else Pending), p') ∧
    touches (in_key input) p p' ∧
    im_get (messages p') (in_key input) =
      (if decide (new_total st input = Some (N.of_nat (size (fragments (add_fragment st input)))))
       then None else Some (add_fragment st input)).
Proof.
  intros Hok Hk Hlt Hnone Hlast Htot Hmax Hu. unfold pool_decode. fold (in_key input). rewrite Hk.
  rewrite decide_False by lia. rewrite decide_False by by apply eq_None_not_Some.
  replace (is_last (in_fragment_type input) && bool_decide (is_Some (total_frags st))) with false.
  2: { destruct (is_last _); [|done]. by rewrite Hlast. }
  fold (new_total st input). cbn zeta.
  replace (match new_total st input with Some total => _ | None => false end) with false.
  2: { destruct (new_total st input) as [t|]; [|done]. symmetry. apply bool_decide_eq_false.
       specialize (Htot t eq_refl). lia. }
  unfold u64_checked_add. rewrite decide_True by lia. rewrite decide_True by done.
  by apply store_fragment.
Qed.

(** ** Admission into a pool *)

Definition keys p : gset (I * N) := list_to_set (messages p).*1.

(** The pool can hold the messages of [K] beside those it has. *)
Definition fits p (K : gset (I * N)) : Prop :=
  size (keys p ∪ K) ≤ pc_max_messages (pool_cfg p) ∧
  ∀ i, size (filter (λ k, k.1 = i) (keys p ∪ K)) ≤ max_per_identity (identity_usage p).

Lemma elem_of_keys p k : k ∈ keys p ↔ im_get (messages p) k ≠ None.
Proof.
  unfold keys. rewrite elem_of_list_to_set, im_get_None. split; [auto|]. intros Hk.
  destruct (decide (k ∈ (messages p).*1)); done.
Qed.

Lemma size_keys p : pool_ok p → size (keys p) = length (messages p).
Proof. intros Hok. unfold keys. by rewrite size_list_to_set, length_fmap by apply Hok. Qed.

Lemma filter_fst_length (i : I) (ms : list ((I * N) * MessageState)) :
  length (filter (λ k, k.1 = i) ms.*1) = count_of i ms.
Proof.
  induction ms as [|e ms IH]; [done|]. rewrite count_of_cons, fmap_cons, filter_cons.
  case_decide; cbn; lia.
Qed.

Lemma count_of_keys p i :
  pool_ok p → size (filter (λ k, k.1 = i) (keys p)) = count_of i (messages p).
Proof.
  intros Hok. rewrite <- filter_fst_length.
  replace (filter (λ k, k.1 = i) (keys p))
    with (list_to_set (filter (λ k, k.1 = i) (messages p).*1) : gset (I * N)).
  { apply size_list_to_set, NoDup_filter, Hok. }
  apply set_eq. intros k. unfold keys.
  by rewrite elem_of_filter, !elem_of_list_to_set, list_elem_of_filter.
Qed.

Lemma fits_mono p p' K K' :
  same_limits p p' → keys p' ∪ K' ⊆ keys p ∪ K → fits p K → fits p' K'.
Proof.
  intros [Hc Hm] Hsub [Hr1 Hr2]. unfold fits. rewrite Hc, Hm. split.
  - etrans; [by apply subseteq_size|done].
  - intros i. etrans; [|apply (Hr2 i)]. apply subseteq_size. intros k.
    rewrite !elem_of_filter. intros [? ?]. auto.
Qed.

Lemma fits_admits p k :
  pool_ok p → fits p {[k]} → im_get (messages p) k = None →
  length (messages p) < pc_max_messages (pool_cfg p) ∧
  count_of k.1 (messages p) < max_per_identity (identity_usage p).
Proof.
  intros Hok [Hr1 Hr2] Hk.
  assert (k ∉ keys p) as Hnk by (rewrite elem_of_keys; auto).
  rewrite <- size_keys, <- count_of_keys by done. split.
  - rewrite size_union, size_singleton in Hr1 by set_solver. lia.
  - specialize (Hr2 k.1). rewrite filter_union_L, filter_singleton_L, decide_True in Hr2 by (done || apply _).
    rewrite size_union, size_singleton in Hr2; [lia|].
    intros k'. rewrite elem_of_filter, elem_of_singleton. intros [_ Hin] ->. done.
Qed.

(** A packet of message [k]: where the pool has room for the message, the others
    stay. *)
Record grows k p p' : Prop := {
  gr_ok : pool_ok p';
  gr_limits : same_limits p p';
  gr_others k' : k' ≠ k → fits p {[k]} → im_get (messages p') k' = im_get (messages p) k';
}.

Lemma grows_refl k p : pool_ok p → grows k p p.
Proof. by split. Qed.

Lemma touches_keys k p p' : touches k p p' → keys p' ⊆ keys p ∪ {[k]}.
Proof.
  intros [_ _ Ho] k'. rewrite elem_of_union, elem_of_singleton, !elem_of_keys.
  destruct (decide (k' = k)); [by right|]. rewrite Ho by done. by left.
Qed.

Lemma grows_fits k p p' K : grows k p p' → k ∈ K → fits p K → fits p' K.
Proof.
  intros [Hok Hl Ho] Hk Hf. eapply fits_mono; [done| |done]. intros k'.
  rewrite !elem_of_union, !elem_of_keys. destruct (decide (k' = k)) as [->|Hne]; [by right|].
  rewrite Ho; [done|done|]. eapply fits_mono; [done| |done]. set_solver.
Qed.

Lemma touches_grows k p1 p2 p3 : touches k p1 p2 → grows k p2 p3 → grows k p1 p3.
Proof.
  intros Ht [Hok Hl' Ho']. pose proof (touches_keys _ _ _ Ht) as Hk. destruct Ht as [_ Hl Ho].
  split; [done|by eapply same_limits_trans|]. intros k' Hne Hr. rewrite Ho', Ho; [done|done|done|].
  eapply fits_mono; [done| |done]. set_solver.
Qed.

Lemma grows_touches k p1 p2 p3 : grows k p1 p2 → touches k p2 p3 → grows k p1 p3.
Proof.
  intros [_ Hl Ho] [Hok Hl' Ho']. split; [done|by eapply same_limits_trans|].
  intros k' Hne Hr. by rewrite Ho', Ho.
Qed.

Lemma has_message_get p k :
  has_message p k = if im_get (messages p) k is Some _ then true else false.
Proof. unfold has_message. by destruct (im_get _ _). Qed.

Lemma shrinks_trans p1 p2 p3 : shrinks p1 p2 → shrinks p2 p3 → shrinks p1 p3.
Proof.
  intros [_ Hl Ho Hn Hc] [Hok Hl' Ho' Hn' Hc']. split; [done|by eapply same_limits_trans| |lia|].
  - intros k. destruct (Ho' k) as [->|]; auto.
  - intros i. etrans; [apply Hc'|apply Hc].
Qed.

Lemma admit_message_grows p k now :
  pool_ok p → im_get (messages p) k = None →
  length (messages p) < pc_max_messages (pool_cfg p) →
  count_of k.1 (messages p) < max_per_identity (identity_usage p) →
  grows k p (admit_message p k now).
Proof.
  intros Hok Hk Hlen Hlim.
  destruct (admit_message_spec p k now) as (Hok' & Hs & _ & Ho); [done..|]. split; [done|done|].
  intros k' Hne _. by apply Ho.
Qed.

Lemma decode_with_admission_spec p now input :
  pool_ok p →
  (im_get (messages p) (in_key input) = None →
   count_of (in_identity input) (messages p) < max_per_identity (identity_usage p)) →
  ∃ r e p' q, decode_with_admission p now (in_key input) input = Ret (r, e, p') ∧
    shrinks p q ∧ grows (in_key input) q p' ∧ (fits p {[in_key input]} → q = p).
Proof.
  intros Hok Hcap. unfold decode_with_admission. rewrite has_message_get.
  destruct (im_get (messages p) (in_key input)) as [st|] eqn:Hk.
  { destruct (pool_decode_touches p input Hok) as (r & p' & -> & Ht). cbn [mbind run_bind].
    exists r, None, p', p. split_and!; [done|by apply shrinks_refl| |done].
    eapply touches_grows; [exact Ht|]. apply grows_refl, Ht. }
  specialize (Hcap eq_refl).
  assert (∃ e q, (if admission_blocked p then evict_before_admission p now else Ret (None, p)) =
    Ret (e, q) ∧ shrinks p q ∧ (fits p {[in_key input]} → q = p)) as (e & q & -> & Hs & Hq).
  { unfold admission_blocked. case_bool_decide as Hb.
    - destruct (evict_before_admission_shrinks p now Hok) as (e & q & -> & Hs & _).
      exists e, q. split_and!; [done|done|]. intros Hf.
      destruct (fits_admits _ _ Hok Hf Hk). lia.
    - exists None, p. split_and!; [done|by apply shrinks_refl|done]. }
  cbn [mbind run_bind]. unfold admission_blocked. case_bool_decide as Hb.
  { eexists _, _, q, q. split_and!; [done|done| |done]. apply grows_refl, Hs. }
  fold (admit_message q (in_key input) now). change (in_identity input) with (in_key input).1.
  change (identity_usage (insert_message q (in_key input) now)) with (identity_usage q).
  fold (admit_message q (in_key input) now).
  assert (grows (in_key input) q (admit_message q (in_key input) now)) as Hg.
  { destruct Hs as [Hok' Hl Hget Hn Hc]. apply admit_message_grows; [done| |lia|].
    - destruct (Hget (in_key input)) as [->|]; done.
    - destruct Hl as [_ ->]. specialize (Hc (in_identity input)). cbn. lia. }
  destruct (pool_decode_touches _ input (gr_ok _ _ _ Hg)) as (r & p' & -> & Ht).
  cbn [mbind run_bind]. exists r, e, p', q. split_and!; [done|done| |done].
  by eapply grows_touches.
Qed.

Lemma shrinks_grows k p q p' :
  shrinks p q → grows k q p' → (fits p {[k]} → q = p) → grows k p p'.
Proof.
  intros [_ Hl _ _ _] [Hok Hl' Ho'] Hq. split; [done|by eapply same_limits_trans|].
  intros k' Hne Hr. rewrite Ho'; [by rewrite (Hq Hr)|done|by rewrite (Hq Hr)].
Qed.

Lemma evict_limited_room p k now :
  pool_ok p → fits p {[k]} → im_get (messages p) k = None →
  evict_one_stale_for_identity_if_limited p k.1 now = Ret (false, p).
Proof.
  intros Hok Hr Hk. unfold evict_one_stale_for_identity_if_limited, is_at_limit.
  destruct (fits_admits _ _ Hok Hr Hk).
  rewrite identity_count_of by done. rewrite bool_decide_eq_false_2 by lia. done.
Qed.

Lemma ensure_capacity_Ok p i :
  pool_ok p → ensure_identity_capacity p i = Ok () ↔
  count_of i (messages p) < max_per_identity (identity_usage p).
Proof.
  intros Hok. unfold ensure_identity_capacity, usage_ensure_identity_capacity.
  rewrite identity_count_of by done. by case_decide.
Qed.

Lemma decode_in_pool_spec (d : Decoder I) now sel input p :
  get_pool d sel (in_identity input) = Some p → pool_ok p →
  ∃ r p', decode_in_pool d now sel (in_key input) input =
      Ret (r, put_pool d sel (in_identity input) p') ∧ grows (in_key input) p p'.
Proof.
  intros Hp Hok. unfold decode_in_pool. rewrite Hp. cbn [mbind run_bind expect].
  rewrite has_message_get. destruct (im_get (messages p) (in_key input)) as [st|] eqn:Hk.
  { cbn [mbind run_bind].
    destruct (decode_with_admission_spec p now input Hok) as (r & e & p' & q & -> & Hs & Hg & Hq).
    { by rewrite Hk. }
    cbn [mbind run_bind]. exists r, p'. split; [done|by eapply shrinks_grows]. }
  destruct (evict_limited_shrinks p (in_identity input) now Hok) as (b & q & Hev & Hs). rewrite Hev.
  cbn [mbind run_bind].
  assert (fits p {[in_key input]} → q = p) as Hq.
  { intros Hr. pose proof (evict_limited_room p (in_key input) now Hok Hr Hk) as He. cbn in He.
    rewrite He in Hev. by injection Hev. }
  destruct (ensure_identity_capacity q (in_identity input)) as [[]|e] eqn:Hcap.
  2: { eexists _, q. split; [done|]. eapply shrinks_grows; [done| |done]. apply grows_refl, Hs. }
  apply ensure_capacity_Ok in Hcap; [|apply Hs].
  destruct (decode_with_admission_spec q now input (sh_ok _ _ Hs))
    as (r & e & p' & q' & -> & Hs' & Hg & Hq'); [done|].
  cbn [mbind run_bind]. exists r, p'. split; [done|].
  eapply shrinks_grows; [by eapply shrinks_trans|done|].
  intros Hr. rewrite Hq'; [by apply Hq|]. by rewrite (Hq Hr).
Qed.

(** With room for one more message, the packet goes to the entry of its message,
    a new one when there is none. *)
Lemma decode_in_pool_room (d : Decoder I) now sel input p :
  get_pool d sel (in_identity input) = Some p → pool_ok p → fits p {[in_key input]} →
  decode_in_pool d now sel (in_key input) input =
    ('(r, p') ← pool_decode
       (if im_get (messages p) (in_key input) is Some _ then p
        else admit_message p (in_key input) now) input;
     Ret (r, put_pool d sel (in_identity input) p')).
Proof.
  intros Hp Hok Hr. unfold decode_in_pool. rewrite Hp. cbn [mbind run_bind expect].
  unfold decode_with_admission. rewrite has_message_get.
  destruct (im_get (messages p) (in_key input)) as [st|] eqn:Hk.
  { cbn [mbind run_bind]. rewrite has_message_get, Hk. by destruct (pool_decode p input) as [[]|]. }
  change (in_identity input) with (in_key input).1. rewrite evict_limited_room by done.
  destruct (fits_admits _ _ Hok Hr Hk) as [Hlen Hcnt]. cbn [mbind run_bind].
  rewrite (proj2 (ensure_capacity_Ok p _ Hok)) by done.
  rewrite has_message_get, Hk. unfold admission_blocked. rewrite bool_decide_eq_false_2 by lia.
  cbn [mbind run_bind]. rewrite bool_decide_eq_false_2 by lia.
  change (with_usage _ (insert_message p (in_key input) now)) with (admit_message p (in_key input) now).
  by destruct (pool_decode _ input) as [[]|].
Qed.

(** ** The three pools of a decoder *)

Implicit Types d : Decoder I.

#[global] Instance PoolSelection_eq_dec : EqDecision PoolSelection.
Proof. solve_decision. Defined.

Lemma get_put_pool d sel i p sel' j :
  get_pool (put_pool d sel i p) sel' j =
    if decide (sel' = sel ∧ (sel = SelDedicated → j = i)) then Some p else get_pool d sel' j.
Proof.
  case_decide as Hc.
  - destruct Hc as [-> Hi]. destruct sel; cbn; [|done|done]. rewrite (Hi eq_refl). apply lookup_insert_eq.
  - destruct sel, sel'; cbn; try done; try (destruct Hc; by split).
    rewrite lookup_insert_ne; [done|]. intros ->. destruct Hc. done.
Qed.

(** The pools of [d'] against those of [d], one by one, where an identity [i] has
    been at work. *)
Record pools_rel (i : I) (R : MessagePool I → MessagePool I → Prop) d d' : Prop := {
  pr_config : dedicated_pool_config d' = dedicated_pool_config d;
  pr_max : dec_max_messages_per_dedicated_identity d' = dec_max_messages_per_dedicated_identity d;
  pr_pool sel j : option_Forall2 R (get_pool d sel j) (get_pool d' sel j);
  pr_dedicated j : j ≠ i → get_pool d' SelDedicated j = get_pool d SelDedicated j;
}.

Definition all_pools (P : MessagePool I → Prop) d : Prop :=
  ∀ sel i p, get_pool d sel i = Some p → P p.

Lemma pools_rel_put (R : MessagePool I → MessagePool I → Prop) d sel i p p' :
  all_pools (λ p, R p p) d → get_pool d sel i = Some p → R p p' →
  pools_rel i R d (put_pool d sel i p').
Proof.
  intros Hrefl Hp HR. split; [done|done| |].
  2: { intros j Hne. rewrite get_put_pool, decide_False; [done|]. intros [<- Hi]. by apply Hne, Hi. }
  intros sel' j. rewrite get_put_pool. case_decide as Hc.
  - destruct Hc as [-> Hi]. replace (get_pool d sel j) with (Some p); [by constructor|].
    destruct sel; [by rewrite (Hi eq_refl)|done|done].
  - destruct (get_pool d sel' j) eqn:Hg; constructor. by eapply Hrefl.
Qed.

Lemma pools_rel_trans i (R S T : MessagePool I → MessagePool I → Prop) d1 d2 d3 :
  (∀ p q r, R p q → S q r → T p r) → pools_rel i R d1 d2 → pools_rel i S d2 d3 → pools_rel i T d1 d3.
Proof.
  intros HT [Hc Hm Hp Hd] [Hc' Hm' Hp' Hd']. split; [congruence|congruence| |].
  2: { intros j Hne. by rewrite Hd', Hd. }
  intros sel j. specialize (Hp sel j). specialize (Hp' sel j).
  destruct Hp as [p q HR|]; inversion Hp'; constructor. by eapply HT.
Qed.

Lemma pools_rel_get i R d d' sel j p' :
  pools_rel i R d d' → get_pool d' sel j = Some p' → ∃ p, get_pool d sel j = Some p ∧ R p p'.
Proof. intros [_ _ Hp _] Hg. specialize (Hp sel j). rewrite Hg in Hp. inversion Hp; eauto. Qed.

Lemma pools_rel_refl i (R : MessagePool I → MessagePool I → Prop) d :
  all_pools (λ p, R p p) d → pools_rel i R d d.
Proof.
  intros Hrefl. split; [done|done| |done]. intros sel j.
  destruct (get_pool d sel j) eqn:Hg; constructor.
  by eapply Hrefl.
Qed.

(** What the decoder holds of a message in the pool [sel]. *)
Definition held_in d sel (k : I * N) : option MessageState :=
  get_pool d sel k.1 ≫= λ p, im_get (messages p) k.

(** Stale messages are dropped from the pool [sel]. *)
Definition dropped d d' sel k (now : N) : Prop :=
  held_in d' sel k = None ∧ ∀ st, held_in d sel k = Some st → (eviction_deadline st ≤ now)%N.

Definition active_in d sel k (now : N) : Prop :=
  ∃ st, held_in d sel k = Some st ∧ (now < eviction_deadline st)%N.

Lemma pool_status_spec d sel k now :
  all_pools pool_ok d →
  ∃ status d', pool_status d sel k now = Ret (status, d') ∧ pools_rel k.1 (touches k) d d' ∧
    (∀ sel', sel' ≠ sel → held_in d' sel' k = held_in d sel' k) ∧
    (status = Active ∧ held_in d' sel k = held_in d sel k ∧ active_in d sel k now ∨
     status ≠ Active ∧ dropped d d' sel k now).
Proof.
  intros Hok. unfold pool_status. destruct (get_pool d sel k.1) as [p|] eqn:Hp.
  2: { assert (held_in d sel k = None) as Hn by (unfold held_in; by rewrite Hp).
       exists Missing, d. split_and!; [done| |done|right; unfold dropped; by rewrite Hn].
       apply pools_rel_refl. intros ????. eapply touches_refl, Hok; eauto. }
  destruct (message_status_spec p k now (Hok _ _ _ Hp)) as (status & p' & -> & [] & Ho & Hst).
  cbn [mbind run_bind]. exists status, (put_pool d sel k.1 p').
  assert (held_in (put_pool d sel k.1 p') sel k = im_get (messages p') k) as Hh.
  { unfold held_in. by rewrite get_put_pool, decide_True. }
  split_and!; [done| | |].
  - eapply pools_rel_put; [|done|by split].
    intros ????. eapply touches_refl, Hok; eauto.
  - intros sel' Hne. unfold held_in. rewrite get_put_pool, decide_False; [done|]. by intros [??].
  - assert (held_in d sel k = im_get (messages p) k) as Hd by (unfold held_in; by rewrite Hp).
    unfold active_in, dropped. rewrite Hh, Hd.
    destruct status; [by right|left|by right]. by destruct Hst as [-> ?].
Qed.

Lemma pools_rel_touches_ok k d d' : pools_rel k.1 (touches k) d d' → all_pools pool_ok d'.
Proof. intros Hr sel i p' Hp. destruct (pools_rel_get _ _ _ _ _ _ _ Hr Hp) as (p & _ & []). done. Qed.

Lemma pools_rel_grows_ok k d d' : pools_rel k.1 (grows k) d d' → all_pools pool_ok d'.
Proof. intros Hr sel i p' Hp. destruct (pools_rel_get _ _ _ _ _ _ _ Hr Hp) as (p & _ & []). done. Qed.

Lemma pools_rel_is_Some i R d d' sel j :
  pools_rel i R d d' → is_Some (get_pool d sel j) → is_Some (get_pool d' sel j).
Proof. intros [_ _ Hp _] [p Hg]. specialize (Hp sel j). rewrite Hg in Hp. inversion Hp. eauto. Qed.

Lemma held_in_pool d sel k st : held_in d sel k = Some st → is_Some (get_pool d sel k.1).
Proof. unfold held_in. destruct (get_pool d sel k.1); [eauto|done]. Qed.

(** Either a pool has the message active, and it is the one selected, or no pool
    has it any more. *)
Lemma select_pool_spec d score k now :
  all_pools pool_ok d →
  ∃ sel d', select_pool d score k now = Ret (sel, d') ∧ pools_rel k.1 (touches k) d d' ∧
    is_Some (get_pool d' sel k.1) ∧
    (active_in d sel k now ∧ held_in d' sel k = held_in d sel k ∧
       (∀ sel', held_in d' sel' k = held_in d sel' k ∨ held_in d' sel' k = None) ∨
     ∀ sel', dropped d d' sel' k now).
Proof.
  intros Hok. unfold select_pool.
  destruct (pool_status_spec d SelDedicated k now Hok) as (s1 & d1 & -> & Hr1 & Ho1 & Hs1).
  pose proof (Ho1 SelPriority ltac:(done)) as Hp1. pose proof (Ho1 SelRegular ltac:(done)) as Hg1.
  cbn [mbind run_bind]. destruct Hs1 as [(-> & He1 & Ha1)|(Hn1 & Hz1 & Hz1')].
  { exists SelDedicated, d1. split_and!; [done|done| |].
    - destruct Ha1 as (st & Hst & _). eapply held_in_pool. by rewrite He1.
    - left. split_and!; [done|done|]. intros []; auto. }
  destruct (pool_status_spec d1 SelPriority k now (pools_rel_touches_ok _ _ _ Hr1))
    as (s2 & d2 & -> & Hr2 & Ho2 & Hs2).
  pose proof (Ho2 SelDedicated ltac:(done)) as Hd2. pose proof (Ho2 SelRegular ltac:(done)) as Hg2.
  pose proof (pools_rel_trans _ _ _ _ _ _ _ (touches_trans k) Hr1 Hr2) as Hr12.
  cbn [mbind run_bind]. unfold active_in, dropped in Hs2. rewrite Hp1 in Hs2.
  destruct Hs2 as [(-> & He2 & Ha2)|(Hn2 & Hz2 & Hz2')].
  { exists SelPriority, d2. split_and!; [by destruct s1|done| |].
    - destruct Ha2 as (st & Hst & _). eapply held_in_pool. by rewrite He2.
    - left. split_and!; [done|done|]. rewrite Hg1 in Hg2. intros []; rewrite ?Hd2; auto. }
  destruct (pool_status_spec d2 SelRegular k now (pools_rel_touches_ok _ _ _ Hr12))
    as (s3 & d3 & -> & Hr3 & Ho3 & Hs3).
  pose proof (Ho3 SelDedicated ltac:(done)) as Hd3. pose proof (Ho3 SelPriority ltac:(done)) as Hp3.
  pose proof (pools_rel_trans _ _ _ _ _ _ _ (touches_trans k) Hr12 Hr3) as Hr123.
  cbn [mbind run_bind]. unfold active_in, dropped in Hs3. rewrite Hg2, Hg1 in Hs3.
  rewrite Hd2, Hz1 in Hd3. rewrite Hz2 in Hp3.
  destruct Hs3 as [(-> & He3 & Ha3)|(Hn3 & Hz3 & Hz3')].
  { exists SelRegular, d3. split_and!; [by destruct s1, s2|done| |].
    - destruct Ha3 as (st & Hst & _). eapply held_in_pool. by rewrite He3.
    - left. split_and!; [done|done|]. intros []; auto. }
  eexists _, d3. split_and!; [by destruct s1, s2, s3|done| |].
  - case_bool_decide as Hd; [by eapply pools_rel_is_Some|]. destruct (score k.1); cbn; eauto.
  - right. intros []; by split.
Qed.

(** ** A packet at the decoder *)

Definition input_of (i : I) (pk : Packet) : FragmentInput I :=
  {| in_identity := i; in_msg_id := ph_msg_id (pk_header pk); in_seq_num := ph_seq_num (pk_header pk);
     in_fragment_type := fragment_type_of (pk_header pk); in_payload := pk_payload pk |}.

Lemma decode_packet_grows d score now i pk :
  all_pools pool_ok d →
  ∃ r d', decode_packet d score now i pk = Ret (r, d') ∧
    pools_rel i (grows (i, ph_msg_id (pk_header pk))) d d'.
Proof.
  intros Hok. unfold decode_packet.
  assert (pools_rel i (grows (i, ph_msg_id (pk_header pk))) d d) as Hrefl.
  { apply pools_rel_refl. intros ????. eapply grows_refl, Hok; eauto. }
  case_decide; [by eexists _, _|]. destruct (negb _); [by eexists _, _|].
  destruct (select_pool_spec d score (i, ph_msg_id (pk_header pk)) now Hok)
    as (sel & d1 & -> & Hr & [p Hp] & _). cbn [mbind run_bind].
  pose proof (pools_rel_touches_ok _ _ _ Hr) as Hok1.
  destruct (decode_in_pool_spec d1 now sel (input_of i pk) p Hp) as (r & p' & Hrun & Hg).
  { by eapply Hok1. }
  exists r, (put_pool d1 sel i p'). split; [exact Hrun|].
  eapply pools_rel_trans; [apply touches_grows|done|].
  eapply pools_rel_put; [|done|done]. intros ????. eapply grows_refl, Hok1; eauto.
Qed.

Lemma decode_grows d score now i bs :
  all_pools pool_ok d →
  ∃ r d' m, decode d score now i bs = Ret (r, d') ∧ pools_rel i (grows (i, m)) d d'.
Proof.
  intros Hok. unfold decode. destruct (Packet_try_from bs) as [pk|e].
  - destruct (decode_packet_grows d score now i pk Hok) as (r & d' & -> & Hr). eauto.
  - eexists _, d, 0%N. split; [done|]. apply pools_rel_refl. intros ????. eapply grows_refl, Hok; eauto.
Qed.

(** ** Reachable decoders *)

Inductive dec_reach (cfg : Config) : Decoder I → Prop :=
| reach_new g : dec_reach cfg (Decoder_with_clock cfg g)
| reach_decode d score now i bs r d' :
    dec_reach cfg d → decode d score now i bs = Ret (r, d') → dec_reach cfg d'
| reach_dedicated d ids : dec_reach cfg d → dec_reach cfg (set_dedicated_identities d ids).

Definition sel_max (cfg : Config) sel : nat :=
  match sel with
  | SelDedicated => max_messages_per_dedicated_identity cfg
  | SelPriority => max_priority_messages cfg
  | SelRegular => max_regular_messages cfg
  end.

Definition sel_limit (cfg : Config) sel : nat :=
  match sel with
  | SelDedicated => max_messages_per_dedicated_identity cfg
  | _ => max_messages_per_identity cfg
  end.

Record dec_ok (cfg : Config) d : Prop := {
  do_config : dedicated_pool_config d =
    PoolConfig_from_config cfg (max_messages_per_dedicated_identity cfg);
  do_max : dec_max_messages_per_dedicated_identity d = max_messages_per_dedicated_identity cfg;
  do_pool sel i p : get_pool d sel i = Some p →
    pool_ok p ∧ pool_cfg p = PoolConfig_from_config cfg (sel_max cfg sel) ∧
    max_per_identity (identity_usage p) = sel_limit cfg sel;
}.

Lemma dec_ok_pools (cfg : Config) d : dec_ok cfg d → all_pools pool_ok d.
Proof. intros [_ _ Hp] sel i p Hg. by destruct (Hp _ _ _ Hg). Qed.

Lemma dec_ok_grows (cfg : Config) k d d' : dec_ok cfg d → pools_rel k.1 (grows k) d d' → dec_ok cfg d'.
Proof.
  intros [Hc Hm Hp] Hr. split.
  - rewrite <- Hc. apply Hr.
  - rewrite <- Hm. apply Hr.
  - intros sel i p' Hp'. destruct (pools_rel_get _ _ _ _ _ _ _ Hr Hp') as (p & Hg & [Hok [Hl1 Hl2] _]).
    destruct (Hp _ _ _ Hg) as (_ & Hc' & Hm'). split_and!; [done|congruence|congruence].
Qed.

Lemma dec_ok_new (cfg : Config) g : dec_ok cfg (Decoder_with_clock cfg g).
Proof.
  unfold Decoder_with_clock. destruct (from_rng g) as [g1 g1'], (from_rng g1') as [g2 g2'],
    (from_rng g2') as [g3 g3']. split; [done|done|].
  intros [] i p; cbn; [by rewrite lookup_empty|..]; intros [= <-];
    (split_and!; [apply pool_ok_new|done|done]).
Qed.

Lemma add_dedicated_ok (cfg : Config) d ids : dec_ok cfg d → dec_ok cfg (add_dedicated d ids).
Proof.
  revert d. induction ids as [|i ids IH]; intros d Hd; [done|]. cbn.
  destruct (dedicated_pools d !! i); [by apply IH|]. destruct (from_rng _) as [g g']. apply IH.
  destruct Hd as [Hc Hm Hp]. split; [done|done|].
  intros [] j p; cbn; [|apply (Hp SelPriority j)|apply (Hp SelRegular j)].
  destruct (decide (j = i)) as [->|Hne].
  - rewrite lookup_insert_eq. intros [= <-]. split; [apply pool_ok_new|split; [exact Hc|exact Hm]].
  - rewrite lookup_insert_ne by done. apply (Hp SelDedicated j).
Qed.

Lemma set_dedicated_ok (cfg : Config) d ids : dec_ok cfg d → dec_ok cfg (set_dedicated_identities d ids).
Proof.
  intros [Hc Hm Hp]. apply add_dedicated_ok. split; [done|done|].
  intros [] j p; cbn; [|apply (Hp SelPriority j)|apply (Hp SelRegular j)].
  intros [Hg _]%map_lookup_filter_Some. by apply (Hp SelDedicated j).
Qed.

Lemma dec_reach_ok (cfg : Config) d : dec_reach cfg d → dec_ok cfg d.
Proof.
  induction 1 as [g|d score now i bs r d' _ IH Hrun|d ids _ IH].
  - apply dec_ok_new.
  - destruct (decode_grows d score now i bs (dec_ok_pools _ _ IH)) as (r' & d1 & m & Hrun' & Hr).
    rewrite Hrun in Hrun'. injection Hrun' as <- <-. by eapply (dec_ok_grows _ (i, m)).
  - by apply set_dedicated_ok.
Qed.

(** ** Bounds *)

Lemma nsum_le_mul {A} (f : A → N) (b : N) (l : list A) :
  (∀ x, x ∈ l → (f x ≤ b)%N) → (nsum (f <$> l) ≤ N.of_nat (length l) * b)%N.
Proof.
  induction l as [|x l IH]; intros Hl; [cbn; lia|]. rewrite fmap_cons, nsum_cons.
  assert (f x ≤ b)%N by (apply Hl; set_solver).
  assert (nsum (f <$> l) ≤ N.of_nat (length l) * b)%N by (apply IH; set_solver).
  rewrite length_cons. lia.
Qed.

Lemma size_below {A} (m : gmap N A) n : (∀ s, is_Some (m !! s) → N.to_nat s < n) → size m ≤ n.
Proof.
  intros Hm. rewrite <- size_dom. set (X := list_to_set (N.of_nat <$> seq 0 n) : gset N).
  assert (dom m ⊆ X) as HX.
  { intros s Hs%elem_of_dom. apply elem_of_list_to_set, list_elem_of_fmap.
    exists (N.to_nat s). rewrite N2Nat.id, elem_of_seq. specialize (Hm s Hs). split; [done|lia]. }
  apply subseteq_size in HX. etrans; [exact HX|]. unfold X.
  rewrite size_list_to_set; [by rewrite length_fmap, length_seq|].
  apply NoDup_fmap_2; [intros ??; lia|apply NoDup_seq].
Qed.

(** C31: The memory of a decoder that has processed any datagrams, from any
    identities and in any order, is bounded by its configuration: a pool holds no
    more messages than its limit and no more of one identity than the limit per
    identity, the bytes it buffers are at most its message limit times
    [max_message_size], and no message holds more than [MAX_FRAGMENTS]
    fragments.  No datagram, however malformed, makes it panic. *)
Theorem lean_udp_bounded (cfg : Config) d :
  dec_reach cfg d →
  (∀ score now i bs, is_ret (decode d score now i bs) = true) ∧
  ∀ sel i p, get_pool d sel i = Some p →
    length (messages p) ≤ sel_max cfg sel ∧
    (∀ j, count_of j (messages p) ≤ sel_limit cfg sel) ∧
    (nsum ((λ e, frag_bytes (fragments e.2)) <$> messages p) ≤
       N.of_nat (sel_max cfg sel) * max_message_size cfg)%N ∧
    ∀ k st, (k, st) ∈ messages p → size (fragments st) ≤ MAX_FRAGMENTS.
Proof.
  intros Hd%dec_reach_ok. split.
  { intros score now i bs. destruct (decode_grows d score now i bs) as (r & d' & m & -> & _); [|done].
    by eapply dec_ok_pools. }
  intros sel i p Hp. destruct (do_pool _ _ Hd _ _ _ Hp) as (Hok & Hc & Hm).
  assert (∀ k st, (k, st) ∈ messages p → state_ok (pool_cfg p) st) as Hst.
  { intros k st Hin%im_get_Some; [|apply Hok]. by eapply po_states. }
  pose proof (po_length _ Hok) as Hlen. rewrite Hc in Hlen. cbn in Hlen.
  split_and!; [done| | |].
  - intros j. rewrite <- Hm. by apply po_limit.
  - etrans; [apply (nsum_le_mul _ (max_message_size cfg))|].
    + intros [k st] Hin. cbn. destruct (Hst k st Hin) as [<- Hmax _]. by rewrite Hc in Hmax.
    + apply N.mul_le_mono_r. lia.
  - intros k st Hin. apply size_below, (sok_seq _ _ (Hst k st Hin)).
Qed.
End pool.
