(* ===== verification/LeanUdpFraming.v ===== *)
(** * Framing of direct messages ([src/raptorcast/src/auth/framing.rs], [build] of
    [src/leanudp/src/lib.rs])

    The framer of the authenticated UDP socket: messages leave through a Lean UDP
    encoder and arrive through a Lean UDP decoder.  The main theorem follows a
    message from the framer of its sender to the framer of its receiver: datagrams
    that arrive in any order, among any other datagrams, give back the message
    exactly once, with the last of them. *)
From S2P Require Import Prelude Types Containers LeanUdp LeanUdpSpec.

(** ** The framer *)

(** [kinet_peer_score::PeerStatus]; the scores themselves are floats of no
    importance here. *)
Inductive PeerStatus (Score : Type) :=
| Promoted (s : Score)
| Newcomer (s : Score)
| Unknown.
#[global] Arguments Promoted {_} _.
#[global] Arguments Newcomer {_} _.
#[global] Arguments Unknown {_}.

Definition is_promoted {Score} (self : PeerStatus Score) : bool :=
  match self with Promoted _ => true | _ => false end.

(** [PeerScoreAdapter::score] *)
Definition adapter_score {I Score} (score_reader : I → PeerStatus Score) (identity : I) :
    FragmentPolicy :=
  if is_promoted (score_reader identity) then Prioritized else Regular.

Inductive LeanUdpFramingError := Encode (e : EncodeError) | Decode (e : DecodeError).

Section framer.
Context {I Score : Type} `{!PubKey I, !IndexMapOps, !PoolRng}.

(** [Config::build_with_clock] *)
Definition Config_build (self : Config) (rng : pool_rng) : run (Encoder * Decoder I) :=
  Config_validate self ≫= λ _,
  Ret (Encoder_new (max_fragment_payload self), Decoder_with_clock self rng).

Record LeanUdpFramer := {
  lf_encoder : Encoder;
  lf_decoder : Decoder I;
  lf_config : Config;
}.

Definition LeanUdpFramer_new (config : Config) (rng : pool_rng) : run LeanUdpFramer :=
  '(encoder, decoder) ← Config_build config rng;
  Ret {| lf_encoder := encoder; lf_decoder := decoder; lf_config := config |}.

Definition framer_set_dedicated (self : LeanUdpFramer) (identities : list I) : LeanUdpFramer :=
  {| lf_encoder := lf_encoder self;
     lf_decoder := set_dedicated_identities (lf_decoder self) identities;
     lf_config := lf_config self |}.

(** The header and the data of a fragment in one buffer. *)
Definition packet_bytes (pk : Packet) : list N := header_bytes (pk_header pk) ++ pk_payload pk.

(** [frame], with its iterator run to the end. *)
Definition frame (self : LeanUdpFramer) (payload : list N) :
    run (result (list (list N)) LeanUdpFramingError * LeanUdpFramer) :=
  '(fragments, encoder) ← fragment (lf_encoder self) payload;
  let self := {| lf_encoder := encoder; lf_decoder := lf_decoder self; lf_config := lf_config self |} in
  match fragments with
  | Err e => Ret (Err (Encode e), self)
  | Ok it =>
      packets ← collect_fragments (S (it_count it)) it;
      Ret (Ok (fmap (M:=list) packet_bytes packets), self)
  end.

Definition deframe (self : LeanUdpFramer) (score_reader : I → PeerStatus Score) (now : N)
    (public_key : I) (packet : list N) :
    run (result (option (list N)) LeanUdpFramingError * LeanUdpFramer) :=
  '(outcome, decoder) ← decode (lf_decoder self) (adapter_score score_reader) now public_key packet;
  let self := {| lf_encoder := lf_encoder self; lf_decoder := decoder; lf_config := lf_config self |} in
  Ret (match outcome with
       | Err e => Err (Decode e)
       | Ok Pending => Ok None
       | Ok (Complete payload) => Ok (Some payload)
       end, self).
End framer.

#[global] Arguments LeanUdpFramer I {_ _}.

(** ** Headers *)

Definition header_ok (h : PacketHeader) : Prop := (ph_msg_id h < 65536 ∧ ph_seq_num h < 65536)%N.

Lemma packet_roundtrip pk : header_ok (pk_header pk) → Packet_try_from (packet_bytes pk) = Ok pk.
Proof.
  intros [Hm Hs]. destruct pk as [[v m s f] data]. unfold Packet_try_from, packet_bytes. cbn in *.
  rewrite decide_False by (unfold LEANUDP_HEADER_SIZE; lia). cbn.
  replace (m `mod` 256 + 256 * (m / 256))%N with m; [|rewrite N.add_comm; apply N.div_mod'].
  replace (s `mod` 256 + 256 * (s / 256))%N with s; [done|rewrite N.add_comm; apply N.div_mod'].
Qed.

(** ** Fragments of a message *)

Definition chunk (mp : nat) (payload : list N) (j : nat) : list N := take mp (drop (j * mp) payload).

Lemma concat_chunks mp payload n :
  length payload ≤ n * mp → concat (chunk mp payload <$> seq 0 n) = payload.
Proof.
  intros Hn. assert (∀ k, concat (chunk mp payload <$> seq 0 k) = take (k * mp) payload) as Hk.
  { induction k as [|k IH]; [done|]. rewrite seq_S, fmap_app, concat_app, IH. cbn.
    rewrite app_nil_r. unfold chunk. by rewrite take_take_drop, Nat.add_comm. }
  rewrite Hk. by apply take_ge.
Qed.

Definition type_of (n j : nat) : FragmentType :=
  match bool_decide (j = 0), bool_decide (j = n - 1) with
  | true, true => FtComplete
  | true, false => FtStart
  | false, true => FtEnd
  | false, false => FtMiddle
  end.

Definition packet_of (mp : nat) (payload : list N) (m : N) (n j : nat) : Packet :=
  {| pk_header := PacketHeader_new m (N.of_nat j) (type_of n j); pk_payload := chunk mp payload j |}.

Lemma collect_fragments_from it fuel :
  it_count it - it_current it < fuel → it_current it ≤ it_count it →
  (∀ j, j < it_count it → j * it_max_payload it ≤ length (it_payload it)) →
  collect_fragments fuel it =
    Ret (packet_of (it_max_payload it) (it_payload it) (it_msg_id it) (it_count it) <$>
           seq (it_current it) (it_count it - it_current it)).
Proof.
  revert it. induction fuel as [|fuel IH]; intros it Hf Hle Hb; [lia|]. cbn [collect_fragments].
  unfold FragmentIter_next. case_decide as Hc.
  { cbn [mbind run_bind]. by replace (it_count it - it_current it) with 0 by lia. }
  specialize (Hb (it_current it) ltac:(lia)) as Hcur. unfold slice.
  rewrite assert_true by lia. cbn [mbind run_bind].
  rewrite IH; cbn [it_count it_current it_payload it_max_payload it_msg_id]; [|lia|lia|done].
  cbn [mbind run_bind].
  replace (it_count it - it_current it) with (S (it_count it - (it_current it + 1))) by lia.
  cbn [seq]. rewrite fmap_cons. do 2 f_equal; [|do 2 f_equal; lia].
  unfold packet_of, type_of, chunk. f_equal.

  destruct (decide (it_current it * it_max_payload it + it_max_payload it ≤ length (it_payload it))).
  - rewrite Nat.min_l by lia. f_equal. lia.
  - rewrite Nat.min_r by lia. rewrite !take_ge; rewrite ?length_drop; lia || done.
Qed.

Lemma div_ceil_spec a b :
  0 < a → 0 < b →
  ∃ n, div_ceil a b = Ret n ∧ 0 < n ∧ a ≤ n * b ∧ ∀ j, j < n → j * b < a.
Proof.
  intros Ha Hb. unfold div_ceil. rewrite decide_False by lia.
  pose proof (Nat.div_mod_eq a b) as Hdm. pose proof (Nat.mod_upper_bound a b ltac:(lia)) as Hub.
  eexists. split; [done|]. case_decide as Hm.
  - rewrite Hm in Hdm. split_and!; [nia|lia|]. intros j Hj. nia.
  - split_and!; [lia|nia|]. intros j Hj. nia.
Qed.

Section frame_spec.
Context {I : Type} `{!PubKey I, !IndexMapOps, !PoolRng}.
Implicit Types f : LeanUdpFramer I.

(** The datagrams of a message of [n] fragments. *)
Definition datagrams mp payload m n : list (list N) :=
  (λ j, packet_bytes (packet_of mp payload m n j)) <$> seq 0 n.

Lemma frame_spec f payload :
  0 < enc_max_fragment_payload (lf_encoder f) →
  ∃ n, 0 < n ∧ length payload ≤ n * enc_max_fragment_payload (lf_encoder f) ∧
    frame f payload =
      if decide (MAX_FRAGMENTS < n) then Ret (Err (Encode (PayloadTooLarge (length payload) n)), f)
      else Ret (Ok (datagrams (enc_max_fragment_payload (lf_encoder f)) payload
                      (next_msg_id (lf_encoder f)) n),
                {| lf_encoder := {| enc_max_fragment_payload := enc_max_fragment_payload (lf_encoder f);
                                    next_msg_id := ((next_msg_id (lf_encoder f) + 1) `mod` 65536)%N |};
                   lf_decoder := lf_decoder f; lf_config := lf_config f |}).
Proof.
  intros Hmp. unfold frame, fragment.
  destruct (div_ceil_spec (length payload `max` 1) (enc_max_fragment_payload (lf_encoder f)))
    as (n & -> & Hn & Hlen & Hj); [lia|done|].
  exists n. split_and!; [done|lia|]. cbn [mbind run_bind]. case_decide as Hmax.
  { cbn [mbind run_bind]. by destruct f as [[] ? ?]. }
  cbn [mbind run_bind]. rewrite collect_fragments_from; cbn [it_count it_current it_payload it_max_payload];
    [|lia|lia|].
  - cbn [mbind run_bind it_msg_id]. do 2 f_equal. unfold datagrams.
    rewrite <- list_fmap_compose, Nat.sub_0_r. done.
  - intros j Hlt. specialize (Hj j Hlt). lia.
Qed.
End frame_spec.

(** ** A message in the decoder *)

Lemma nsum_submseteq (l k : list N) : l ⊆+ k → (nsum l ≤ nsum k)%N.
Proof. intros (x & ->)%submseteq_Permutation. rewrite nsum_app. lia. Qed.

Section message.
Context (mp : nat) (payload : list N) (m : N) (n : nat).

Definition frag_map (rs : list nat) : gmap N (list N) :=
  list_to_map ((λ j, (N.of_nat j, chunk mp payload j)) <$> rs).

(** The entry of the message, once the fragments [rs] have arrived. *)
Definition state_of (rs : list nat) (deadline : N) : MessageState :=
  {| fragments := frag_map rs; total_size := frag_bytes (frag_map rs);
     total_frags := if bool_decide (n - 1 ∈ rs) then Some (N.of_nat n) else None;
     eviction_deadline := deadline |}.

Lemma frag_map_keys rs : ((λ j, (N.of_nat j, chunk mp payload j)) <$> rs).*1 = N.of_nat <$> rs.
Proof. by rewrite <- list_fmap_compose. Qed.

Lemma NoDup_frag_keys rs : NoDup rs → NoDup ((λ j, (N.of_nat j, chunk mp payload j)) <$> rs).*1.
Proof. intros Hnd. rewrite frag_map_keys. apply NoDup_fmap_2; [intros ??; lia|done]. Qed.

Lemma frag_map_None rs j : j ∉ rs → frag_map rs !! N.of_nat j = None.
Proof.
  intros Hj. apply not_elem_of_list_to_map_1. rewrite frag_map_keys.
  intros (k & Hk & Hin)%list_elem_of_fmap. assert (k = j) as -> by lia. done.
Qed.

Lemma frag_map_size rs : NoDup rs → size (frag_map rs) = length rs.
Proof. intros Hnd. unfold frag_map. rewrite map_size_list_to_map, length_fmap; [done|]. by apply NoDup_frag_keys. Qed.

Lemma frag_bytes_chunks rs :
  NoDup rs → frag_bytes (frag_map rs) = nsum ((λ j, N.of_nat (length (chunk mp payload j))) <$> rs).
Proof.
  intros Hnd. unfold frag_bytes, btree_values. rewrite btree_iter_perm. unfold frag_map.
  rewrite map_to_list_to_map by by apply NoDup_frag_keys. by rewrite <- !list_fmap_compose.
Qed.

Lemma nsum_lengths (ls : list (list N)) : nsum (N.of_nat ∘ length <$> ls) = N.of_nat (length (concat ls)).
Proof.
  induction ls as [|l ls IH]; [done|]. rewrite fmap_cons, nsum_cons, IH. cbn. rewrite length_app. lia.
Qed.

Lemma frag_bytes_le rs :
  length payload ≤ n * mp → NoDup rs → Forall (λ j, j < n) rs →
  (frag_bytes (frag_map rs) ≤ N.of_nat (length payload))%N.
Proof.
  intros Hn Hnd Hlt. rewrite frag_bytes_chunks by done. etrans.
  { apply (nsum_submseteq _ ((λ j, N.of_nat (length (chunk mp payload j))) <$> seq 0 n)).
    apply fmap_submseteq, NoDup_submseteq; [done|]. intros j Hj. rewrite Forall_forall in Hlt.
    apply elem_of_seq. specialize (Hlt j Hj). lia. }
  pose proof (nsum_lengths (chunk mp payload <$> seq 0 n)) as Hs.
  rewrite concat_chunks, <- list_fmap_compose in Hs by done. by rewrite <- Hs.
Qed.

Lemma seq_sorted {A} (g : nat → A) k len :
  StronglySorted entry_le ((λ j, (N.of_nat j, g j)) <$> seq k len).
Proof.
  revert k. induction len as [|len IH]; intros k; cbn; constructor; [apply IH|].
  apply Forall_forall. intros [x y] (j & [= -> ->] & Hj%elem_of_seq)%list_elem_of_fmap.
  unfold entry_le. cbn. lia.
Qed.

Lemma frag_map_complete rs :
  length payload ≤ n * mp → NoDup rs → rs ≡ₚ seq 0 n →
  concat (btree_values (frag_map rs)) = payload.
Proof.
  intros Hn Hnd Hp. unfold btree_values.
  rewrite (btree_iter_unique _ ((λ j, (N.of_nat j, chunk mp payload j)) <$> seq 0 n)).
  - rewrite <- list_fmap_compose. by apply concat_chunks.
  - apply seq_sorted.
  - apply NoDup_frag_keys, NoDup_seq.
  - intros k v. unfold frag_map. rewrite <- elem_of_list_to_map by by apply NoDup_frag_keys.
    by rewrite Hp.
Qed.

Lemma is_last_packet j :
  j < n → is_last (fragment_type_of (pk_header (packet_of mp payload m n j))) = bool_decide (j = n - 1).
Proof.
  intros Hj. unfold packet_of, fragment_type_of, type_of. cbn [pk_header PacketHeader_new ph_seq_num ph_flags].
  destruct (bool_decide (j = n - 1)) eqn:E, (bool_decide (j = 0)) eqn:E0; cbn;
    repeat case_decide; done || (apply bool_decide_eq_true in E0; lia).
Qed.

Lemma known_flags_packet j : has_known_flags (pk_header (packet_of mp payload m n j)) = true.
Proof. unfold packet_of, type_of. by destruct (bool_decide _), (bool_decide _). Qed.
End message.

Section delivery.
Context {I : Type} `{!PubKey I, !IndexMapOps, !PoolRng}.
Context (cfg : Config) (i : I) (mp : nat) (payload : list N) (m : N) (n : nat).
Context (Hn : 0 < n ≤ MAX_FRAGMENTS) (Hlen : length payload ≤ n * mp) (Hm : (m < 65536)%N).
Context (Hsize : (N.of_nat (length payload) ≤ max_message_size cfg)%N).
Context (Hu : (max_message_size cfg ≤ u64_MAX)%N).
Implicit Types (d : Decoder I) (p : MessagePool I) (rs : list nat).

#[local] Abbreviation pk := (packet_of mp payload m n).
#[local] Abbreviation state := (state_of mp payload n).
#[local] Arguments im_get : simpl never.

Lemma add_state rs dl j :
  j ∉ rs → j < n → add_fragment (state rs dl) (input_of i (pk j)) = state (j :: rs) dl.
Proof.
  intros Hj Hjn. unfold add_fragment, new_total, state_of. cbn [in_fragment_type input_of].
  rewrite is_last_packet by done. f_equal.
  - cbn [total_size in_payload packet_of pk_payload].
    change (frag_map mp payload (j :: rs))
      with (<[N.of_nat j := chunk mp payload j]> (frag_map mp payload rs)).
    rewrite frag_bytes_insert; [done|]. by apply frag_map_None.
  - cbn [total_frags in_seq_num input_of packet_of pk_header PacketHeader_new ph_seq_num].
    destruct (decide (j = n - 1)) as [->|Hne].
    + rewrite !bool_decide_true by (done || set_solver).
      by replace (N.of_nat (n - 1) + 1)%N with (N.of_nat n) by lia.
    + rewrite (bool_decide_false (j = n - 1)) by done.
      by rewrite (bool_decide_ext (n - 1 ∈ rs) (n - 1 ∈ j :: rs)) by set_solver.
Qed.

Lemma seq_perm rs : NoDup rs → Forall (λ j, j < n) rs → length rs = n → rs ≡ₚ seq 0 n.
Proof.
  intros Hnd Hlt Hl. apply submseteq_length_Permutation; [|by rewrite length_seq, Hl].
  apply NoDup_submseteq; [done|]. intros j Hj. rewrite Forall_forall in Hlt. apply elem_of_seq.
  specialize (Hlt j Hj). lia.
Qed.

Lemma state_finished rs dl :
  NoDup rs → Forall (λ j, j < n) rs →
  total_frags (state rs dl) = Some (N.of_nat (size (fragments (state rs dl)))) ↔ length rs = n.
Proof.
  intros Hnd Hlt. cbn [total_frags fragments state_of]. rewrite frag_map_size by done. split.
  - case_bool_decide; [|done]. intros [= He]. lia.
  - intros Hl. rewrite bool_decide_true; [by rewrite Hl|]. rewrite (seq_perm rs) by done.
    apply elem_of_seq. lia.
Qed.

(** A fragment at the entry of the message. *)
Lemma fragment_accepted p rs dl j :
  pool_ok p → pc_max_message_size (pool_cfg p) = max_message_size cfg →
  im_get (messages p) (i, m) = Some (state rs dl) →
  NoDup (j :: rs) → Forall (λ j, j < n) (j :: rs) →
  ∃ p', pool_decode p (input_of i (pk j)) =
      Ret (Ok (if decide (S (length rs) = n) then Complete payload else Pending), p') ∧
    touches (i, m) p p' ∧
    (S (length rs) ≠ n → im_get (messages p') (i, m) = Some (state (j :: rs) dl)).
Proof.
  intros Hok Hcfg Hk Hnd Hlt.
  pose proof (NoDup_cons_1_1 _ _ Hnd) as Hj. assert (j < n) as Hjn by exact (Forall_inv Hlt).
  pose proof (state_finished (j :: rs) dl Hnd Hlt) as Hfin.
  pose proof (frag_bytes_le mp payload n (j :: rs) Hlen Hnd Hlt) as Hbytes.
  pose proof (add_state rs dl j Hj Hjn) as Hadd.
  assert (new_total (state rs dl) (input_of i (pk j)) = total_frags (state (j :: rs) dl)) as Htot.
  { by rewrite <- Hadd. }
  destruct (pool_decode_accepts p (input_of i (pk j)) (state rs dl)) as (p' & Hrun & Ht & Hg);
    [done|exact Hk|cbn [in_seq_num input_of packet_of pk_header PacketHeader_new ph_seq_num]; lia|by apply frag_map_None| | | |by rewrite Hcfg|].
  - cbn [in_fragment_type input_of]. rewrite is_last_packet, bool_decide_eq_true by done.
    intros ->. cbn. by rewrite bool_decide_false.
  - rewrite Htot. cbn [total_frags state_of in_seq_num input_of]. intros t. case_bool_decide; [|done].
    intros [= <-]. cbn. lia.
  - rewrite Hcfg. replace (_ + _)%N with (total_size (state (j :: rs) dl)) by by rewrite <- Hadd.
    cbn [total_size state_of]. lia.
  - rewrite Hadd, Htot in Hrun, Hg. exists p'. split_and!; [|done|].
    + rewrite Hrun. destruct (decide (S (length rs) = n)) as [Hl|Hl].
      * rewrite decide_True by by apply Hfin. do 4 f_equal. unfold extract. cbn [fragments state_of].
        apply (frag_map_complete mp payload n); [done|done|]. by apply seq_perm.
      * rewrite decide_False; [done|]. by rewrite Hfin.
    + intros Hne. change (in_key (input_of i (pk j))) with (i, m) in Hg. rewrite Hg, decide_False; [done|].
      by rewrite Hfin.
Qed.

Lemma state_new dl : MessageState_new dl = state [] dl.
Proof.
  unfold MessageState_new, state_of. f_equal.
Qed.

(** Where the message stands in the decoder, when a packet of it arrives: before
    the first fragment only entries that have run out can be there. *)
Definition expects d rs (dl now : N) : Prop :=
  match rs with
  | [] => ∀ sel st, held_in d sel (i, m) = Some st → (eviction_deadline st ≤ now)%N
  | _ => (now < dl)%N ∧
         ∃ sel, ∀ sel', held_in d sel' (i, m) = if decide (sel' = sel) then Some (state rs dl) else None
  end.

(** The pools open to the identity have room for the messages [K]. *)
Definition open_to (sel : PoolSelection) (K : gset (I * N)) : gset (I * N) :=
  match sel with SelDedicated => filter (λ k, k.1 = i) K | _ => K end.

Definition has_room d (K : gset (I * N)) : Prop :=
  ∀ sel p, get_pool d sel i = Some p → fits p (open_to sel K).

Lemma open_to_mine sel K : (i, m) ∈ K → (i, m) ∈ open_to sel K.
Proof. intros HK. destruct sel; cbn; [by apply elem_of_filter|done|done]. Qed.

Lemma select_pool_message d score now rs dl K :
  dec_ok cfg d → has_room d K → (i, m) ∈ K → expects d rs dl now →
  ∃ sel d1 p1, select_pool d score (i, m) now = Ret (sel, d1) ∧ get_pool d1 sel i = Some p1 ∧
    pool_ok p1 ∧ pool_cfg p1 = PoolConfig_from_config cfg (sel_max cfg sel) ∧ fits p1 {[(i, m)]} ∧
    (∀ sel', sel' ≠ sel → held_in d1 sel' (i, m) = None) ∧
    im_get (messages p1) (i, m) = match rs with [] => None | _ => Some (state rs dl) end.
Proof.
  intros Hd Hroom HK Hexp.
  destruct (select_pool_spec d score (i, m) now (dec_ok_pools _ _ Hd))
    as (sel & d1 & Hrun & Hr & [p1 Hp1] & Hcase).
  destruct (pools_rel_get _ _ _ _ _ _ _ Hr Hp1) as (p & Hp & Ht).
  destruct (do_pool _ _ Hd _ _ _ Hp) as (_ & Hc & _).
  exists sel, d1, p1. split_and!; [done|done|apply Ht| | | |].
  - destruct Ht as [_ [-> _] _]. done.
  - eapply fits_mono; [apply Ht| |apply (Hroom _ _ Hp)].
    pose proof (touches_keys _ _ _ Ht) as Hk. pose proof (open_to_mine sel K HK) as Hmine.
    apply union_subseteq. split; [|by apply singleton_subseteq_l, elem_of_union_r].
    etrans; [exact Hk|]. apply union_subseteq. split; [apply union_subseteq_l|].
    by apply singleton_subseteq_l, elem_of_union_r.
  - intros sel' Hne. destruct Hcase as [((st & Hst & Hlt) & _ & Hot)|Hdrop].
    2: { by destruct (Hdrop sel'). }
    destruct (Hot sel') as [->|]; [|done]. destruct rs as [|j rs].
    { specialize (Hexp _ _ Hst). lia. }
    destruct Hexp as [_ [sel0 Hh]]. rewrite Hh in Hst. case_decide; [subst sel0|done].
    by rewrite Hh, decide_False.
  - assert (held_in d1 sel (i, m) = im_get (messages p1) (i, m)) as <-.
    { unfold held_in. by rewrite Hp1. }
    destruct Hcase as [((st & Hst & Hlt) & -> & _)|Hdrop]; destruct rs as [|j rs].
    + specialize (Hexp _ _ Hst). lia.
    + destruct Hexp as [_ [sel0 Hh]]. rewrite Hh in Hst |- *. by case_decide.
    + by destruct (Hdrop sel).
    + destruct Hexp as [Hlt [sel0 Hh]]. destruct (Hdrop sel0) as [_ Hdl].
      specialize (Hdl (state (j :: rs) dl)). rewrite Hh, decide_True in Hdl by done.
      specialize (Hdl eq_refl). cbn in Hdl. lia.
Qed.

Lemma held_in_put d sel p sel' :
  (∀ sel', sel' ≠ sel → held_in d sel' (i, m) = None) →
  held_in (put_pool d sel i p) sel' (i, m) =
    if decide (sel' = sel) then im_get (messages p) (i, m) else None.
Proof.
  intros Hot. unfold held_in. cbn [fst]. rewrite get_put_pool. case_decide as Hc; case_decide as Hs; try done.
  - by destruct Hc.
  - by destruct Hc.
  - by apply Hot.
Qed.

(** One fragment of the message at the decoder. *)
Lemma decode_fragment d score now rs dl j K :
  dec_ok cfg d → has_room d K → (i, m) ∈ K → expects d rs dl now →
  NoDup (j :: rs) → Forall (λ j, j < n) (j :: rs) →
  ∃ d', decode d score now i (packet_bytes (pk j)) =
      Ret (Ok (if decide (S (length rs) = n) then Complete payload else Pending), d') ∧
    (S (length rs) ≠ n → ∀ now',
       (now' < match rs with [] => now + message_timeout cfg | _ => dl end)%N →
       expects d' (j :: rs) (match rs with [] => now + message_timeout cfg | _ => dl end)%N now').
Proof.
  intros Hd Hroom HK Hexp Hnd Hlt. pose proof (Forall_inv Hlt : j < n) as Hjn.
  destruct (select_pool_message d score now rs dl K) as
    (sel & d1 & p1 & Hsel & Hp1 & Hok & Hc & Hfit & Hot & Hget); [done..|].
  pose proof (decode_in_pool_room d1 now sel (input_of i (pk j)) p1 Hp1 Hok Hfit) as Hrun.
  change (in_key (input_of i (pk j))) with (i, m) in Hrun.
  set (dl' := match rs with [] => (now + message_timeout cfg)%N | _ => dl end).
  assert (∃ p2, (if im_get (messages p1) (i, m) is Some _ then p1 else admit_message p1 (i, m) now) = p2 ∧
    pool_ok p2 ∧ pool_cfg p2 = pool_cfg p1 ∧ im_get (messages p2) (i, m) = Some (state rs dl'))
    as (p2 & Hp2 & Hok2 & Hc2 & Hget2).
  { eexists. split; [done|]. rewrite Hget. destruct rs as [|j' rs]; [|by split_and!].
    destruct (fits_admits p1 (i, m)) as [Hl1 Hl2]; [done..|].
    destruct (admit_message_spec p1 (i, m) now) as (? & [? _] & Hg & _); [done..|].
    split_and!; [done|done|]. rewrite Hg, state_new, Hc. done. }
  destruct (fragment_accepted p2 rs dl' j) as (p' & Hdec & Ht & Hafter);
    [done|by rewrite Hc2, Hc|done|done|done|].
  rewrite Hp2, Hdec in Hrun. cbn [mbind run_bind] in Hrun.
  exists (put_pool d1 sel i p'). split.
  - unfold decode. rewrite packet_roundtrip.
    2: { unfold MAX_FRAGMENTS in Hn.
         split; cbn [packet_of pk_header PacketHeader_new ph_msg_id ph_seq_num]; lia. }
    unfold decode_packet. rewrite decide_False by (intros Hv; by apply Hv).
    rewrite known_flags_packet. cbn [negb]. change (ph_msg_id (pk_header (pk j))) with m.
    rewrite Hsel. exact Hrun.
  - intros Hne now' Hnow'. split; [done|]. exists sel. intros sel'.
    rewrite held_in_put by done. by rewrite Hafter.
Qed.

(** ** Other packets *)

Lemma open_to_mono sel j0 m0 K :
  (j0, m0) ∈ K → (sel = SelDedicated → i = j0) → (j0, m0) ∈ open_to sel K.
Proof. intros HK Hi. destruct sel; cbn; [apply elem_of_filter; by rewrite Hi|done|done]. Qed.

Lemma pool_untouched d d' j0 m0 sel p' :
  pools_rel j0 (grows (j0, m0)) d d' → get_pool d' sel i = Some p' →
  ∃ p, get_pool d sel i = Some p ∧
    (p' = p ∨ grows (j0, m0) p p' ∧ (sel = SelDedicated → i = j0)).
Proof.
  intros Hr Hp'. destruct (pools_rel_get _ _ _ _ _ _ _ Hr Hp') as (p & Hp & Hg).
  exists p. split; [done|]. destruct (decide (i = j0)) as [He|Hne]; [by right|].
  destruct sel; [left|right; by split|right; by split].
  rewrite (pr_dedicated _ _ _ _ Hr) in Hp' by done. congruence.
Qed.

Lemma has_room_step d d' j0 m0 K :
  pools_rel j0 (grows (j0, m0)) d d' → (j0, m0) ∈ K → has_room d K → has_room d' K.
Proof.
  intros Hr HK Hroom sel p' Hp'.
  destruct (pool_untouched _ _ _ _ _ _ Hr Hp') as (p & Hp & [->|[Hg Hi]]); [by apply Hroom|].
  eapply grows_fits; [exact Hg|by apply open_to_mono|by apply Hroom].
Qed.

Lemma held_in_step d d' j0 m0 K sel :
  pools_rel j0 (grows (j0, m0)) d d' → (j0, m0) ∈ K → has_room d K → (i, m) ≠ (j0, m0) →
  held_in d' sel (i, m) = held_in d sel (i, m).
Proof.
  intros Hr HK Hroom Hne. unfold held_in. cbn [fst]. destruct (get_pool d' sel i) as [p'|] eqn:Hp'; cbn.
  - destruct (pool_untouched _ _ _ _ _ _ Hr Hp') as (p & Hp & Hg). rewrite Hp. cbn.
    destruct Hg as [->|[[_ _ Ho] Hi]]; [done|]. apply Ho; [done|].
    eapply fits_mono; [by split| |apply (Hroom _ _ Hp)].
    pose proof (open_to_mono sel j0 m0 K HK Hi) as Hk.
    apply union_subseteq. split; [apply union_subseteq_l|]. by apply singleton_subseteq_l, elem_of_union_r.
  - pose proof (pr_pool _ _ _ _ Hr sel i) as Hp. rewrite Hp' in Hp. by inversion Hp.
Qed.

Lemma expects_step d d' rs dl now :
  (∀ sel, held_in d' sel (i, m) = held_in d sel (i, m)) → expects d rs dl now → expects d' rs dl now.
Proof.
  intros Hh. destruct rs as [|j rs]; cbn.
  - intros He sel st. rewrite Hh. apply He.
  - intros [Hlt [sel He]]. split; [done|]. exists sel. intros sel'. by rewrite Hh.
Qed.
End delivery.

(** ** Delivery *)

Lemma Config_validate_payload (c : Config) u :
  Config_validate c = Ret u → LEANUDP_HEADER_SIZE < max_fragment_payload c.
Proof.
  intros (? & _ & H1)%run_bind_Ret. apply run_bind_Ret in H1 as (? & _ & H1).
  apply run_bind_Ret in H1 as (? & _ & H1). apply run_bind_Ret in H1 as (? & _ & H1).
  by apply assert_Ret in H1.
Qed.

Section transfer.
Context {I Score : Type} `{!PubKey I, !IndexMapOps, !PoolRng}.
Implicit Types f : LeanUdpFramer I.

(** A datagram on its way in: when it arrives, from whom, and the peer scores
    at that moment. *)
Record arrival := {
  ar_score : I → PeerStatus Score;
  ar_now : N;
  ar_from : I;
  ar_bytes : list N;
}.

Fixpoint deliver f (tr : list arrival) :
    run (list (result (option (list N)) LeanUdpFramingError) * LeanUdpFramer I) :=
  match tr with
  | [] => Ret ([], f)
  | a :: tr =>
      '(o, f) ← deframe f (ar_score a) (ar_now a) (ar_from a) (ar_bytes a);
      '(os, f) ← deliver f tr;
      Ret (o :: os, f)
  end.

(** The message a datagram claims to belong to. *)
Definition arrival_key (a : arrival) : option (I * N) :=
  match Packet_try_from (ar_bytes a) with
  | Ok pk => Some (ar_from a, ph_msg_id (pk_header pk))
  | Err _ => None
  end.

Definition trace_keys (tr : list arrival) : gset (I * N) := list_to_set (omap arrival_key tr).

Definition arrivals_of (k : I * N) (tr : list arrival) : list arrival :=
  filter (λ a, arrival_key a = Some k) tr.

(** What the receiver answered to the datagrams of a message. *)
Definition outcomes_of {A} (k : I * N) (tr : list arrival) (os : list A) : list A :=
  (filter (λ x, arrival_key x.1 = Some k) (zip tr os)).*2.

Inductive framer_reach (cfg : Config) : LeanUdpFramer I → Prop :=
| framer_new g f : LeanUdpFramer_new cfg g = Ret f → framer_reach cfg f
| framer_frame f payload r f' :
    framer_reach cfg f → frame f payload = Ret (r, f') → framer_reach cfg f'
| framer_deframe f (score : I → PeerStatus Score) now i bs r f' :
    framer_reach cfg f → deframe f score now i bs = Ret (r, f') → framer_reach cfg f'
| framer_dedicated f ids : framer_reach cfg f → framer_reach cfg (framer_set_dedicated f ids).

Lemma framer_reach_ok cfg f :
  framer_reach cfg f →
  dec_ok cfg (lf_decoder f) ∧ 0 < enc_max_fragment_payload (lf_encoder f) ∧
  (next_msg_id (lf_encoder f) < 65536)%N.
Proof.
  induction 1 as [g f Hnew|f payload r f' _ (Hd & Hmp & Hid) Hrun|f score now i bs r f' _ (Hd & Hmp & Hid) Hrun|
    f ids _ (Hd & Hmp & Hid)].
  - apply run_bind_Ret in Hnew as ([e d] & Hb & [= <-]).
    apply run_bind_Ret in Hb as (u & Hv%Config_validate_payload & [= <- <-]). cbn.
    split_and!; [apply dec_ok_new|lia|lia].
  - destruct (frame_spec f payload Hmp) as (n & _ & _ & Hf). rewrite Hf in Hrun.
    case_decide; injection Hrun as <- <-; [done|]. cbn. split_and!; [done|done|].
    by apply N.mod_lt.
  - unfold deframe in Hrun.
    destruct (decode_grows (lf_decoder f) (adapter_score score) now i bs (dec_ok_pools _ _ Hd))
      as (o & d' & m & Hdec & Hr). rewrite Hdec in Hrun. injection Hrun as <- <-. cbn.
    split_and!; [by eapply (dec_ok_grows _ (i, m))|done|done].
  - cbn. split_and!; [by apply set_dedicated_ok|done|done].
Qed.

Lemma elem_of_trace_keys k tr : arrivals_of k tr ≠ [] → k ∈ trace_keys tr.
Proof.
  intros Hne. destruct (arrivals_of k tr) as [|a l] eqn:Ha; [done|].
  assert (a ∈ arrivals_of k tr) as Hin by (rewrite Ha; set_solver).
  apply list_elem_of_filter in Hin as [Hk Hin].
  apply elem_of_list_to_set, list_elem_of_omap. eauto.
Qed.

Lemma decode_arrival (d : Decoder I) (a : arrival) :
  all_pools pool_ok d →
  ∃ r d', decode d (adapter_score (ar_score a)) (ar_now a) (ar_from a) (ar_bytes a) = Ret (r, d') ∧
    match arrival_key a with
    | Some (j, m) => j = ar_from a ∧ pools_rel j (grows (j, m)) d d'
    | None => d' = d
    end.
Proof.
  intros Hok. unfold decode, arrival_key. destruct (Packet_try_from (ar_bytes a)) as [pk|e]; [|by eexists _, _].
  destruct (decode_packet_grows d (adapter_score (ar_score a)) (ar_now a) (ar_from a) pk Hok)
    as (r & d' & -> & Hr). by exists r, d'.
Qed.

Lemma outcomes_of_cons {A} k (a : arrival) tr (o : A) os :
  outcomes_of k (a :: tr) (o :: os) =
    if decide (arrival_key a = Some k) then o :: outcomes_of k tr os else outcomes_of k tr os.
Proof.
  unfold outcomes_of. cbn [zip zip_with]. destruct (decide (arrival_key a = Some k)).
  - by rewrite filter_cons_True.
  - by rewrite filter_cons_False.
Qed.

(** Deframing of a trace, where the fragments [rs] of the message have arrived and
    [js] are to come. *)
Lemma deliver_fragments cfg i mp payload m n t0 K tr f rs dl js :
  0 < n ≤ MAX_FRAGMENTS → length payload ≤ n * mp → (m < 65536)%N →
  (N.of_nat (length payload) ≤ max_message_size cfg)%N → (max_message_size cfg ≤ u64_MAX)%N →
  dec_ok cfg (lf_decoder f) → has_room i (lf_decoder f) K → trace_keys tr ⊆ K → (i, m) ∈ K →
  Forall (λ a, t0 ≤ ar_now a < t0 + message_timeout cfg)%N (arrivals_of (i, m) tr) →
  ar_bytes <$> arrivals_of (i, m) tr = (λ j, packet_bytes (packet_of mp payload m n j)) <$> js →
  NoDup (js ++ rs) → Forall (λ j, j < n) (js ++ rs) → length js + length rs = n →
  (js ≠ [] → ∀ now, (t0 ≤ now < t0 + message_timeout cfg)%N →
    expects i mp payload m n (lf_decoder f) rs dl now) →
  ∃ os f', deliver f tr = Ret (os, f') ∧
    outcomes_of (i, m) tr os =
      match js with [] => [] | _ => replicate (length js - 1) (Ok None) ++ [Ok (Some payload)] end.
Proof.
  intros Hn Hlen Hm Hsize Hu. revert f rs dl js.
  induction tr as [|a tr IH]; intros f rs dl js Hd Hroom HK HmK Hnow Hby Hnd Hlt Hcount Hexp.
  { destruct js; [|done]. by exists [], f. }
  assert (trace_keys tr ⊆ K) as HK'.
  { etrans; [|exact HK]. unfold trace_keys. cbn. destruct (arrival_key a); set_solver. }
  destruct (decode_arrival (lf_decoder f) a (dec_ok_pools _ _ Hd)) as (r & d' & Hrun & Hstep).
  cbn [deliver]. unfold deframe. unfold arrivals_of in Hnow, Hby.
  destruct (decide (arrival_key a = Some (i, m))) as [Ha|Ha].
  - rewrite filter_cons_True in Hnow, Hby by done. rewrite Ha in Hstep. destruct Hstep as [Hi Hr].
    destruct js as [|j js]; [done|]. rewrite !fmap_cons in Hby. injection Hby as Hb Hby.
    apply Forall_cons in Hnow as [Hnow Hnows]. specialize (Hexp ltac:(done)).
    assert (NoDup (js ++ j :: rs) ∧ Forall (λ j, j < n) (js ++ j :: rs)) as [Hnd' Hlt'].
    { by rewrite <- Permutation_middle. }
    destruct (decode_fragment cfg i mp payload m n Hn Hlen Hm Hsize Hu (lf_decoder f)
      (adapter_score (ar_score a)) (ar_now a) rs dl j K) as (d1 & Hdec & Hnext);
      [done|done|done|by apply Hexp|by apply NoDup_app in Hnd' as (_ & _ & ?)|
       by apply Forall_app in Hlt' as [_ ?]|].
    rewrite Hi, <- Hb, Hrun in Hdec. injection Hdec as -> ->. rewrite Hrun. cbn [mbind run_bind].
    edestruct (IH {| lf_encoder := lf_encoder f; lf_decoder := d1; lf_config := lf_config f |}
      (j :: rs) (match rs with [] => ar_now a + message_timeout cfg | _ => dl end)%N js)
      as (os & f' & Hdel & Hos); [|by eapply has_room_step|done|done|done|done|done|done|cbn in *; lia| |].
    + by eapply (dec_ok_grows _ (i, m)).
    + intros Hjs now Hwin. apply Hnext.
      * destruct js; [done|]. cbn in Hcount. lia.
      * destruct rs as [|j' rs]; [lia|]. by destruct (Hexp now Hwin).
    + rewrite Hdel. cbn [mbind run_bind]. eexists _, _. split; [done|].
      rewrite outcomes_of_cons, decide_True, Hos by done. cbn [length] in Hcount.
      destruct js as [|j' js].
      * rewrite decide_True by (cbn in Hcount; lia). done.
      * rewrite decide_False by (cbn in Hcount; lia). cbn [length]. rewrite !Nat.sub_succ, !Nat.sub_0_r.
        done.
  - rewrite filter_cons_False in Hnow, Hby by done. rewrite Hrun. cbn [mbind run_bind].
    assert (dec_ok cfg d' ∧ has_room i d' K ∧
      ∀ sel, held_in d' sel (i, m) = held_in (lf_decoder f) sel (i, m)) as (Hd' & Hroom' & Hheld).
    { destruct (arrival_key a) as [[j0 m0]|] eqn:Hk; [|by subst d']. destruct Hstep as [_ Hr].
      assert ((j0, m0) ∈ K) as Hin.
      { apply HK. unfold trace_keys. cbn. rewrite Hk. set_solver. }
      split_and!; [by eapply (dec_ok_grows _ (j0, m0))|by eapply has_room_step|].
      intros sel. eapply held_in_step; [done|done|done|]. intros He. apply Ha. by rewrite He. }
    edestruct (IH {| lf_encoder := lf_encoder f; lf_decoder := d'; lf_config := lf_config f |} rs dl js)
      as (os & f' & Hdel & Hos); [done..| |].
    { intros Hjs now Hwin. eapply expects_step; [exact Hheld|]. by apply Hexp. }
    rewrite Hdel. cbn [mbind run_bind]. eexists _, _. split; [done|].
    by rewrite outcomes_of_cons, decide_False.
Qed.

(** C30: A message framed by one node reaches the application of another exactly
    once and unchanged.  Let the datagrams [frame] made of it arrive in any order,
    each once, interleaved with any other datagrams, well formed or not, from any
    peers.  If they arrive within the timeout, a leftover entry under the same
    identifier has run out, and the pools open to the sender have room for the
    messages in flight, then the receiver answers all of them but the last with
    "incomplete" and the last one with the payload. *)
Theorem lean_udp_delivers cs cr s r payload ds s' i tr t0 :
  framer_reach cs s → framer_reach cr r →
  frame s payload = Ret (Ok ds, s') →
  (N.of_nat (length payload) ≤ max_message_size cr)%N → (max_message_size cr ≤ u64_MAX)%N →
  let k := (i, next_msg_id (lf_encoder s)) in
  ar_bytes <$> arrivals_of k tr ≡ₚ ds →
  Forall (λ a, t0 ≤ ar_now a < t0 + message_timeout cr)%N (arrivals_of k tr) →
  (∀ sel p, get_pool (lf_decoder r) sel i = Some p → fits p (open_to i sel (trace_keys tr))) →
  (∀ sel st, held_in (lf_decoder r) sel k = Some st → (eviction_deadline st ≤ t0)%N) →
  ∃ os r', deliver r tr = Ret (os, r') ∧
    outcomes_of k tr os = replicate (length ds - 1) (Ok None) ++ [Ok (Some payload)].
Proof.
  intros (_ & Hmp & Hid)%framer_reach_ok (Hd & _ & _)%framer_reach_ok Hframe Hsize Hu k Hby Hnow Hroom Hold.
  destruct (frame_spec s payload Hmp) as (n & Hn & Hlen & Hf). rewrite Hf in Hframe.
  case_decide as Hmax; [done|]. injection Hframe as <- <-. unfold datagrams in *.
  apply Permutation_map_inv in Hby as (js & Hjs & Hperm).
  assert (length js = n) as Hlj by by rewrite <- Hperm, length_seq.
  assert ((i, next_msg_id (lf_encoder s)) ∈ trace_keys tr) as Hk.
  { apply (elem_of_trace_keys k). intros He. rewrite He in Hjs. destruct js; [cbn in Hlj; lia|done]. }
  edestruct (deliver_fragments cr i (enc_max_fragment_payload (lf_encoder s)) payload
    (next_msg_id (lf_encoder s)) n t0 (trace_keys tr) tr r [] 0%N js) as (os & r' & Hdel & Hos);
    [lia|done|done|done|done|done|done|done|done|done|exact Hjs| | | | |].
  - rewrite app_nil_r, <- Hperm. apply NoDup_seq.
  - rewrite app_nil_r, <- Hperm. apply Forall_forall. intros j Hj%elem_of_seq. lia.
  - cbn. lia.
  - intros _ now Hwin sel st Hst. specialize (Hold sel st Hst). lia.
  - exists os, r'. split; [done|]. unfold k. rewrite Hos, length_fmap, length_seq, Hlj.
    by destruct js; [cbn in Hlj; lia|].
Qed.
End transfer.

(** ** Examples *)

#[global] Instance unit_pool_rng : PoolRng.
Proof. refine {| pool_rng := unit; gen_range _ g := (0, g); from_rng g := (g, g) |}. done. Defined.

Definition unit_seed : @pool_rng unit_pool_rng := tt.

Definition example_udp_config : Config := {|
  max_message_size := 16; max_priority_messages := 4; max_regular_messages := 4;
  max_messages_per_identity := 2; max_messages_per_dedicated_identity := 2;
  message_timeout := 100; max_fragment_payload := 8;
|}.

Definition example_framer : LeanUdpFramer N := {|
  lf_encoder := Encoder_new 8; lf_decoder := Decoder_with_clock example_udp_config unit_seed;
  lf_config := example_udp_config |}.

(** The second fragment, a datagram of another peer that is cut short, a message
    of that peer, and the first fragment. *)
Definition example_arrivals : list (@arrival N unit) :=
  [{| ar_score := λ _, Unknown; ar_now := 1010; ar_from := 7; ar_bytes := [1; 0; 0; 1; 0; 1; 3] |};
   {| ar_score := λ _, Unknown; ar_now := 1020; ar_from := 8; ar_bytes := [1; 0] |};
   {| ar_score := λ _, Promoted tt; ar_now := 1030; ar_from := 8; ar_bytes := [1; 0; 0; 0; 0; 0; 9; 9] |};
   {| ar_score := λ _, Promoted tt; ar_now := 1040; ar_from := 7; ar_bytes := [1; 0; 0; 0; 0; 0; 1; 2] |}]%N.

Lemma example_framer_reach : framer_reach (Score := unit) example_udp_config example_framer.
Proof. by apply (framer_new _ unit_seed). Qed.

Lemma lean_udp_delivers_witness :
  ∃ os r', deliver example_framer example_arrivals = Ret (os, r') ∧
    outcomes_of (7, 0)%N example_arrivals os = [Ok None; Ok (Some [1; 2; 3])]%N.
Proof.
  assert (match frame example_framer [1; 2; 3]%N with
          | Ret (Ok ds, _) => bool_decide (ds = [[1; 0; 0; 0; 0; 0; 1; 2]; [1; 0; 0; 1; 0; 1; 3]]%N)
          | _ => false
          end = true) as Hds by (vm_compute; reflexivity).
  destruct (frame example_framer [1; 2; 3]%N) as [[[ds|e] s']|] eqn:Hf; [|done..].
  apply bool_decide_eq_true in Hds. subst ds.
  apply (lean_udp_delivers example_udp_config example_udp_config example_framer example_framer
    [1; 2; 3]%N _ s' 7%N example_arrivals 1000%N example_framer_reach example_framer_reach Hf).
  - cbn. lia.
  - cbn. unfold u64_MAX. lia.
  - vm_compute. apply Permutation_swap.
  - apply (bool_decide_unpack _). by vm_compute.
  - intros sel p Hp.
    assert (messages p = [] ∧ pc_max_messages (pool_cfg p) = 4 ∧ max_per_identity (identity_usage p) = 2)
      as (Hm & Hc & Hi) by (by destruct sel; [done|..]; injection Hp as <-).
    assert (fits p (trace_keys example_arrivals)) as Hfit.
    { unfold fits, keys. rewrite Hm, Hc, Hi. split; [by apply (bool_decide_unpack _); vm_compute|].
      intros i. etrans; [apply subseteq_size; intros k [_ ?]%elem_of_filter; done|]. by apply (bool_decide_unpack _); vm_compute. }
    by destruct sel; [done|..].
  - intros sel st. by destruct sel.
Defined.

(** A decoder that has taken a fragment and two datagrams it refuses. *)
Lemma lean_udp_bounded_witness :
  ∃ d p, dec_reach (I := N) example_udp_config d ∧
    get_pool d SelRegular 7%N = Some p ∧ length (messages p) = 1 ∧
    (nsum ((λ e, frag_bytes (fragments e.2)) <$> messages p) ≤ N.of_nat 4 * 16)%N.
Proof.
  assert (match decode (Decoder_with_clock example_udp_config unit_seed) (λ _ : N, Regular) 5%N 7%N
            [1; 0; 0; 0; 0; 0; 1; 2]%N with
          | Ret (_, d) => bool_decide (length (messages (regular_pool d)) = 1)
          | Panic => false
          end = true) as Hl by (vm_compute; reflexivity).
  destruct (decode (Decoder_with_clock example_udp_config unit_seed) (λ _ : N, Regular) 5%N 7%N
    [1; 0; 0; 0; 0; 0; 1; 2]%N) as [[r d]|] eqn:Hd; [|done].
  apply bool_decide_eq_true in Hl.
  assert (dec_reach example_udp_config d) as Hr.
  { eapply reach_decode; [apply (reach_new _ unit_seed)|exact Hd]. }
  exists d, (regular_pool d). split; [done|split; [done|split; [done|]]].
  by destruct (proj2 (lean_udp_bounded example_udp_config d Hr) SelRegular 7%N (regular_pool d) eq_refl)
    as (_ & _ & Hb & _).
Defined.
