(* ===== verification/RaptorSet.v ===== *)
(** * Ordered sets of the Raptor code ([src/raptor/src/ordered_set.rs],
    [binary_search.rs])

    Sets of 16-bit numbers as ordered vectors.  An element is looked up by a
    linear scan in short vectors and by a binary search in long ones; both find
    the same place, and every operation is the set operation. *)
From S2P Require Import Prelude.

(** ** Vectors

    [v[i]] panics out of range, and so does the assignment. *)
Definition vget {A} (v : list A) (i : nat) : run A := expect (v !! i).

Definition vset {A} (v : list A) (i : nat) (x : A) : run (list A) :=
  assert (i < length v) ≫= λ _, Ret (<[i := x]> v).

(** [Vec::swap] *)
Definition vswap {A} (v : list A) (i j : nat) : run (list A) :=
  x ← vget v i; y ← vget v j; Ret (<[j := x]> (<[i := y]> v)).

(** [try_into().unwrap()] from [usize] to [u16]. *)
Definition u16_MAX : N := 65535.

Definition to_u16 (x : nat) : run nat := assert (N.of_nat x ≤ u16_MAX)%N ≫= λ _, Ret x.

Lemma vget_Ret {A} (v : list A) i x : vget v i = Ret x ↔ v !! i = Some x.
Proof. apply expect_Ret. Qed.

Lemma vset_Ret {A} (v : list A) i x : i < length v → vset v i x = Ret (<[i := x]> v).
Proof. intros Hi. unfold vset. by rewrite assert_true. Qed.

Lemma vswap_Ret {A} (v : list A) i j x y :
  v !! i = Some x → v !! j = Some y → vswap v i j = Ret (<[j := x]> (<[i := y]> v)).
Proof. intros Hi Hj. unfold vswap, vget. by rewrite Hi, Hj. Qed.

Lemma to_u16_Ret x : (N.of_nat x ≤ u16_MAX)%N → to_u16 x = Ret x.
Proof. intros Hx. unfold to_u16. by rewrite assert_true. Qed.

(** ** Loops *)

(** A loop over [0..n], or any list of indices, that may panic. *)
Fixpoint for_each {A S} (l : list A) (body : A → S → run S) (s : S) : run S :=
  match l with
  | [] => Ret s
  | x :: l => s ← body x s; for_each l body s
  end.

Lemma for_each_spec {A S} (I : list A → S → Prop) (l : list A) (body : A → S → run S) s :
  I [] s →
  (∀ done x todo s, l = done ++ x :: todo → I done s → ∃ s', body x s = Ret s' ∧ I (done ++ [x]) s') →
  ∃ s', for_each l body s = Ret s' ∧ I l s'.
Proof.
  intros H0 Hstep.
  assert (∀ todo done s, l = done ++ todo → I done s → ∃ s', for_each todo body s = Ret s' ∧ I l s') as Hgo.
  { induction todo as [|x todo IH]; intros done s' Hl HI; cbn.
    - rewrite app_nil_r in Hl. subst. eauto.
    - destruct (Hstep done x todo s' Hl HI) as (s1 & -> & HI1). cbn [mbind run_bind].
      apply (IH (done ++ [x])); [by rewrite <- app_assoc|done]. }
  by apply (Hgo l [] s).
Qed.

(** The same for a loop over [k..k + n]. *)
Lemma for_seq_spec {S} (I : nat → S → Prop) (k n : nat) (body : nat → S → run S) s :
  I k s →
  (∀ i s, k ≤ i < k + n → I i s → ∃ s', body i s = Ret s' ∧ I (Datatypes.S i) s') →
  ∃ s', for_each (seq k n) body s = Ret s' ∧ I (k + n) s'.
Proof.
  revert k s. induction n as [|n IH]; intros k s H0 Hstep; cbn.
  - rewrite Nat.add_0_r. eauto.
  - destruct (Hstep k s) as (s1 & -> & H1); [lia|done|]. cbn [mbind run_bind].
    replace (k + Datatypes.S n) with (Datatypes.S k + n) by lia. apply IH; [done|].
    intros i s' Hi. apply Hstep. lia.
Qed.

(** ** Binary search *)

Fixpoint search_loop (fuel : nat) (condition : nat → run bool) (lower upper : nat) :
    run (nat * nat) :=
  match fuel with
  | 0 => Panic
  | S fuel =>
      if decide (lower < upper) then
        let pivot := (lower + upper) / 2 in
        c ← condition pivot;
        if c : bool then search_loop fuel condition lower pivot
        else search_loop fuel condition (pivot + 1) upper
      else Ret (lower, upper)
  end.

Definition smallest_integer_satisfying (from to : nat) (condition : nat → run bool) :
    run (option nat) :=
  '(lower, upper) ← search_loop (S (to - from)) condition from to;
  Ret (if decide (lower = upper ∧ upper < to) then Some upper else None).

Section search.
Context (condition : nat → run bool) (c : nat → bool) (from to : nat).
Context (Hc : ∀ i, from ≤ i < to → condition i = Ret (c i)).
Context (Hmono : ∀ i j, from ≤ i ≤ j → j < to → c i = true → c j = true).

Lemma search_loop_spec fuel lower upper :
  upper - lower < fuel → from ≤ lower → lower ≤ upper → upper ≤ to →
  (∀ i, from ≤ i < lower → c i = false) → (∀ i, upper ≤ i < to → c i = true) →
  ∃ k, search_loop fuel condition lower upper = Ret (k, k) ∧ lower ≤ k ≤ upper ∧
    (∀ i, from ≤ i < k → c i = false) ∧ (∀ i, k ≤ i < to → c i = true).
Proof.
  revert lower upper. induction fuel as [|fuel IH]; intros lower upper Hf Hl Hlu Hu Hlo Hup; [lia|].
  cbn [search_loop]. case_decide as Hlt.
  2: { assert (lower = upper) as -> by lia. exists upper. split_and!; done || lia. }
  assert (lower ≤ (lower + upper) / 2 < upper) as [Hp1 Hp2].
  { split; [apply Nat.div_le_lower_bound; lia|apply Nat.Div0.div_lt_upper_bound; lia]. }
  set (pivot := (lower + upper) / 2) in *. rewrite Hc by lia. cbn [mbind run_bind].
  destruct (c pivot) eqn:Hcp.
  - destruct (IH lower pivot) as (k & -> & Hk & H1 & H2); try done; try lia.
    { intros i Hi. apply (Hmono pivot i); done || lia. }
    exists k. split_and!; done || lia.
  - destruct (IH (pivot + 1) upper) as (k & -> & Hk & H1 & H2); try done; try lia.
    { intros i Hi. destruct (c i) eqn:Hci; [|done].
      rewrite (Hmono i pivot) in Hcp; done || lia. }
    exists k. split_and!; done || lia.
Qed.

(** The smallest number of the interval with the property, if there is one. *)
Lemma smallest_integer_spec :
  from ≤ to →
  ∃ o, smallest_integer_satisfying from to condition = Ret o ∧
    match o with
    | Some k => from ≤ k < to ∧ c k = true ∧ ∀ i, from ≤ i < k → c i = false
    | None => ∀ i, from ≤ i < to → c i = false
    end.
Proof.
  intros Hft. destruct (search_loop_spec (S (to - from)) from to) as (k & Hk & Hb & H1 & H2);
    try lia.
  unfold smallest_integer_satisfying. rewrite Hk. cbn [mbind run_bind]. eexists. split; [done|].
  destruct (decide (k < to)) as [Hlt|Hge].
  - rewrite decide_True by done. split_and!; [lia|lia|apply H2; lia|done].
  - rewrite decide_False by lia. intros i Hi. apply H1. lia.
Qed.
End search.

(** ** The set *)

Definition BINARY_SEARCH_THRESHOLD : nat := 250.

Abbreviation OrderedSet := (list nat).

Implicit Types (l : OrderedSet) (v : nat).

Definition append l v : OrderedSet := l ++ [v].

(** The scan [for i in 0..len] from position [i]. *)
Fixpoint scan l v (i : nat) : nat :=
  match l with
  | [] => i
  | x :: l => if decide (v ≤ x) then i else scan l v (S i)
  end.

Definition placement_index l v : run nat :=
  if decide (length l < BINARY_SEARCH_THRESHOLD) then Ret (scan l v 0)
  else
    o ← smallest_integer_satisfying 0 (length l)
          (λ pivot, x ← vget l pivot; Ret (bool_decide (v ≤ x)));
    Ret (default (length l) o).

Definition set_contains l v : run bool :=
  index ← placement_index l v;
  Ret (bool_decide (l !! index = Some v)).

Definition first l : option nat := head l.

(** [push(0); copy_within(index..len, index + 1); data[index] = value] *)
Definition shift_in l (index v : nat) : OrderedSet := take index l ++ v :: drop index l.

(** [copy_within(index + 1..len, index); truncate(len - 1)] *)
Definition shift_out l (index : nat) : OrderedSet := take index l ++ drop (S index) l.

Definition set_insert l v : run (bool * OrderedSet) :=
  index ← placement_index l v;
  Ret (if decide (l !! index = Some v) then (false, l) else (true, shift_in l index v)).

Definition insert_or_remove l v : run (bool * OrderedSet) :=
  index ← placement_index l v;
  Ret (if decide (l !! index = Some v) then (false, shift_out l index)
       else (true, shift_in l index v)).

Definition set_remove l v : run (bool * OrderedSet) :=
  index ← placement_index l v;
  Ret (if decide (l !! index = Some v) then (true, shift_out l index) else (false, l)).

(** ** Its meaning *)

Lemma sorted_lookup {A} (R : relation A) (l : list A) i j x y :
  StronglySorted R l → l !! i = Some x → l !! j = Some y → i < j → R x y.
Proof.
  intros Hl Hi Hj Hij. apply list_elem_of_split_length in Hi as (l1 & l2 & -> & ->).
  rewrite lookup_app_r in Hj by lia. destruct (j - length l1) as [|k] eqn:Hk; [lia|]. cbn in Hj.
  apply StronglySorted_app in Hl as (_ & _ & Hl). apply StronglySorted_cons in Hl as [Hx _].
  rewrite Forall_forall in Hx. apply Hx. by eapply list_elem_of_lookup_2.
Qed.

Definition ordered l : Prop := StronglySorted lt l.

Lemma ordered_NoDup l : ordered l → NoDup l.
Proof.
  induction 1 as [|x l _ IH Hx]; constructor; [|done]. intros Hin. rewrite Forall_forall in Hx.
  specialize (Hx x Hin). lia.
Qed.

Lemma ordered_app l1 l2 :
  ordered (l1 ++ l2) ↔ ordered l1 ∧ ordered l2 ∧ ∀ x y, x ∈ l1 → y ∈ l2 → x < y.
Proof.
  unfold ordered. rewrite StronglySorted_app. split.
  - intros (H1 & H2 & H3). split_and!; [done|done|]. intros x y Hx Hy. by apply H1.
  - intros (H1 & H2 & H3). split_and!; [|done|done]. intros x y Hx Hy. by apply H3.
Qed.

Lemma scan_length l v i l1 l2 :
  l = l1 ++ l2 → (∀ x, x ∈ l1 → x < v) → (∀ x, x ∈ l2 → v ≤ x) → scan l v i = i + length l1.
Proof.
  intros ->. revert i. induction l1 as [|x l1 IH]; intros i H1 H2; cbn.
  - destruct l2 as [|x l2]; cbn; [lia|]. rewrite decide_True; [lia|]. apply H2. set_solver.
  - assert (x < v) by (apply H1; set_solver). rewrite decide_False by lia.
    rewrite IH; [lia| |done]. intros y Hy. apply H1. set_solver.
Qed.

Lemma ordered_split l v :
  ordered l → ∃ l1 l2, l = l1 ++ l2 ∧ (∀ x, x ∈ l1 → x < v) ∧ (∀ x, x ∈ l2 → v ≤ x).
Proof.
  induction 1 as [|x l Hl (l1 & l2 & -> & H1 & H2) Hx]; [exists [], []; set_solver|].
  destruct (decide (x < v)).
  - exists (x :: l1), l2. split_and!; [done| |done]. set_solver.
  - exists [], (x :: l1 ++ l2). split_and!; [done|set_solver|]. rewrite Forall_forall in Hx.
    intros y [->|Hy]%elem_of_cons; [lia|]. specialize (Hx y Hy). lia.
Qed.

Lemma placement_spec l v :
  ordered l → ∃ l1 l2, l = l1 ++ l2 ∧ placement_index l v = Ret (length l1) ∧
    (∀ x, x ∈ l1 → x < v) ∧ (∀ x, x ∈ l2 → v ≤ x).
Proof.
  intros Hl. destruct (ordered_split l v Hl) as (l1 & l2 & Heq & H1 & H2).
  exists l1, l2. split_and!; [done| |done|done]. unfold placement_index. case_decide as Hlen.
  { by rewrite (scan_length l v 0 l1 l2). }
  destruct (smallest_integer_spec (λ pivot, x ← vget l pivot; Ret (bool_decide (v ≤ x)))
    (λ i, bool_decide (length l1 ≤ i)) 0 (length l)) as (o & -> & Ho); [| |lia|].
  - intros i Hi. destruct (lookup_lt_is_Some_2 l i) as [x Hx]; [lia|]. unfold vget. rewrite Hx. cbn.
    f_equal. apply bool_decide_ext. subst l. destruct (decide (i < length l1)) as [Hi1|Hi1].
    + rewrite lookup_app_l in Hx by done. apply list_elem_of_lookup_2, H1 in Hx. lia.
    + rewrite lookup_app_r in Hx by lia. apply list_elem_of_lookup_2, H2 in Hx. lia.
  - intros i j Hij Hj. rewrite !bool_decide_eq_true. lia.
  - cbn [mbind run_bind]. f_equal. subst l. rewrite length_app in *. destruct o as [k|]; cbn.
    + destruct Ho as (Hk & Hck & Hlt). apply bool_decide_eq_true in Hck.
      destruct (decide (length l1 < k)); [|lia]. specialize (Hlt (length l1) ltac:(lia)).
      apply bool_decide_eq_false in Hlt. lia.
    + destruct l2 as [|x l2]; cbn in *; [lia|]. specialize (Ho (length l1) ltac:(lia)).
      apply bool_decide_eq_false in Ho. lia.
Qed.

Lemma placed l1 l2 v :
  ordered (l1 ++ l2) → (∀ x, x ∈ l1 → x < v) → (∀ x, x ∈ l2 → v ≤ x) →
  ((l1 ++ l2) !! length l1 = Some v ↔ v ∈ l1 ++ l2).
Proof.
  intros Hl H1 H2. rewrite lookup_app_r, Nat.sub_diag by lia. split.
  - intros Hx. apply list_elem_of_lookup_2 in Hx. set_solver.
  - intros [Hin|Hin]%elem_of_app; [specialize (H1 v Hin); lia|].
    destruct l2 as [|x l2]; [set_solver|]. cbn. f_equal.
    apply ordered_app in Hl as (_ & Hl & _). inversion Hl as [|? ? ? Hx]; subst.
    apply elem_of_cons in Hin as [->|Hin]; [done|]. rewrite Forall_forall in Hx.
    specialize (Hx v Hin). specialize (H2 x ltac:(set_solver)). lia.
Qed.

Lemma shift_in_spec l1 l2 v :
  ordered (l1 ++ l2) → (∀ x, x ∈ l1 → x < v) → (∀ x, x ∈ l2 → v ≤ x) → v ∉ l1 ++ l2 →
  ordered (shift_in (l1 ++ l2) (length l1) v) ∧
  shift_in (l1 ++ l2) (length l1) v ≡ₚ v :: l1 ++ l2.
Proof.
  intros Hl H1 H2 Hv. unfold shift_in. rewrite take_app_length, drop_app_length.
  split; [|by rewrite Permutation_middle].
  apply ordered_app in Hl as (Ha & Hb & Hab). apply ordered_app. split_and!; [done| |].
  - constructor; [done|]. apply Forall_forall. intros x Hx. specialize (H2 x Hx).
    assert (x ≠ v) by set_solver. lia.
  - intros x y Hx [->|Hy]%elem_of_cons; auto.
Qed.

Lemma shift_out_spec l1 l2 v :
  ordered (l1 ++ l2) → (l1 ++ l2) !! length l1 = Some v →
  ordered (shift_out (l1 ++ l2) (length l1)) ∧
  l1 ++ l2 ≡ₚ v :: shift_out (l1 ++ l2) (length l1).
Proof.
  intros Hl Hv. unfold shift_out. rewrite take_app_length.
  rewrite lookup_app_r, Nat.sub_diag in Hv by lia. destruct l2 as [|x l2]; [done|]. cbn in Hv.
  simplify_eq. replace (drop (S (length l1)) (l1 ++ v :: l2)) with l2.
  2: { rewrite (cons_middle v l1 l2), app_assoc, drop_app_length'; [done|].
       rewrite length_app. cbn. lia. }
  split; [|by rewrite Permutation_middle]. apply ordered_app in Hl as (Ha & Hb & Hab).
  inversion Hb; subst. apply ordered_app. split_and!; [done|done|]. intros y z Hy Hz. apply Hab; set_solver.
Qed.

Lemma set_contains_spec l v : ordered l → set_contains l v = Ret (bool_decide (v ∈ l)).
Proof.
  intros Hl. destruct (placement_spec l v Hl) as (l1 & l2 & -> & Hp & H1 & H2).
  unfold set_contains. rewrite Hp. cbn [mbind run_bind]. f_equal. by apply bool_decide_ext, placed.
Qed.

Lemma insert_or_remove_spec l v :
  ordered l →
  ∃ l', insert_or_remove l v = Ret (bool_decide (v ∉ l), l') ∧ ordered l' ∧
    if decide (v ∈ l) then l ≡ₚ v :: l' else l' ≡ₚ v :: l.
Proof.
  intros Hl. destruct (placement_spec l v Hl) as (l1 & l2 & -> & Hp & H1 & H2).
  unfold insert_or_remove. rewrite Hp. cbn [mbind run_bind].
  pose proof (placed l1 l2 v Hl H1 H2) as Hv. destruct (decide (v ∈ l1 ++ l2)) as [Hin|Hin].
  - rewrite decide_True by by apply Hv. rewrite bool_decide_false by auto.
    eexists. split; [done|]. apply shift_out_spec; [done|]. by apply Hv.
  - rewrite decide_False by by rewrite Hv. rewrite bool_decide_true by auto.
    eexists. split; [done|]. by apply shift_in_spec.
Qed.

Lemma set_insert_spec l v :
  ordered l →
  ∃ l', set_insert l v = Ret (bool_decide (v ∉ l), l') ∧ ordered l' ∧
    if decide (v ∈ l) then l' = l else l' ≡ₚ v :: l.
Proof.
  intros Hl. destruct (placement_spec l v Hl) as (l1 & l2 & -> & Hp & H1 & H2).
  unfold set_insert. rewrite Hp. cbn [mbind run_bind].
  pose proof (placed l1 l2 v Hl H1 H2) as Hv. destruct (decide (v ∈ l1 ++ l2)) as [Hin|Hin].
  - rewrite decide_True by by apply Hv. rewrite bool_decide_false by auto. by eexists.
  - rewrite decide_False by by rewrite Hv. rewrite bool_decide_true by auto.
    eexists. split; [done|]. by apply shift_in_spec.
Qed.

Lemma set_remove_spec l v :
  ordered l →
  ∃ l', set_remove l v = Ret (bool_decide (v ∈ l), l') ∧ ordered l' ∧
    if decide (v ∈ l) then l ≡ₚ v :: l' else l' = l.
Proof.
  intros Hl. destruct (placement_spec l v Hl) as (l1 & l2 & -> & Hp & H1 & H2).
  unfold set_remove. rewrite Hp. cbn [mbind run_bind].
  pose proof (placed l1 l2 v Hl H1 H2) as Hv. destruct (decide (v ∈ l1 ++ l2)) as [Hin|Hin].
  - rewrite decide_True by by apply Hv. rewrite bool_decide_true by auto.
    eexists. split; [done|]. apply shift_out_spec; [done|]. by apply Hv.
  - rewrite decide_False by by rewrite Hv. rewrite bool_decide_false by auto. by eexists.
Qed.

Lemma append_spec l v : ordered l → (∀ x, x ∈ l → x < v) → ordered (append l v).
Proof.
  intros Hl Hv. apply ordered_app. split_and!; [done|repeat constructor|]. set_solver.
Qed.

(** Two ordered vectors with the same elements are equal. *)
Lemma ordered_unique l1 l2 : ordered l1 → ordered l2 → (∀ x, x ∈ l1 ↔ x ∈ l2) → l1 = l2.
Proof.
  intros H1 H2 Heq. eapply (StronglySorted_unique_strong lt); [|done|done|].
  - intros x y _ _. lia.
  - apply NoDup_Permutation; [by apply ordered_NoDup..|done].
Qed.
