(* ===== verification/RaptorHeap.v ===== *)
(** * Buffers by weight ([src/raptor/src/r10/nonsystematic/decoder/buffer_weight_map.rs])

    A binary heap in three arrays, which gives the decoder the buffer of least
    weight.  It implements a finite map from buffers to weights: every operation
    is the operation of the map, keeps the heap in order and never leaves its
    arrays. *)
From S2P Require Import Prelude RaptorSet.

(** ** Operations *)

Record BufferWeightMap := {
  heap_index_to_buffer_index : list nat;
  buffer_index_to_weight : list (option nat);
  buffer_index_to_heap_index : list nat;
}.

Implicit Types (m : BufferWeightMap).

Definition BufferWeightMap_new : BufferWeightMap :=
  {| heap_index_to_buffer_index := []; buffer_index_to_weight := [];
     buffer_index_to_heap_index := [] |}.

Definition is_empty m : bool := bool_decide (heap_index_to_buffer_index m = []).

Definition peek_min m : run (option (nat * nat)) :=
  match heap_index_to_buffer_index m with
  | [] => Ret None
  | buffer_index :: _ =>
      o ← vget (buffer_index_to_weight m) buffer_index;
      weight ← expect o;
      Ret (Some (buffer_index, weight))
  end.

Definition heap_index_to_weight m (heap_index : nat) : run nat :=
  buffer_index ← vget (heap_index_to_buffer_index m) heap_index;
  o ← vget (buffer_index_to_weight m) buffer_index;
  expect o.

Definition swap m (heap_index_a heap_index_b : nat) : run BufferWeightMap :=
  buffer_index_a ← vget (heap_index_to_buffer_index m) heap_index_a;
  buffer_index_b ← vget (heap_index_to_buffer_index m) heap_index_b;
  heap ← vswap (heap_index_to_buffer_index m) heap_index_a heap_index_b;
  positions ← vswap (buffer_index_to_heap_index m) buffer_index_a buffer_index_b;
  Ret {| heap_index_to_buffer_index := heap; buffer_index_to_weight := buffer_index_to_weight m;
         buffer_index_to_heap_index := positions |}.

Fixpoint pull_up (fuel : nat) m (heap_index : nat) : run BufferWeightMap :=
  match fuel with
  | 0 => Panic
  | S fuel =>
      if decide (heap_index = 0) then Ret m
      else
        let parent_heap_index := (heap_index - 1) / 2 in
        parent_weight ← heap_index_to_weight m parent_heap_index;
        weight ← heap_index_to_weight m heap_index;
        if decide (parent_weight ≤ weight) then Ret m
        else
          m ← swap m heap_index parent_heap_index;
          pull_up fuel m parent_heap_index
  end.

(** [Vec::resize] to a longer length. *)
Definition resize {A} (v : list A) (n : nat) (x : A) : list A := v ++ replicate (n - length v) x.

Definition insert_buffer_weight m (buffer_index weight : nat) : run BufferWeightMap :=
  let heap_index := length (heap_index_to_buffer_index m) in
  buffer_u16 ← to_u16 buffer_index;
  let heap := heap_index_to_buffer_index m ++ [buffer_u16] in
  let grow := bool_decide (length (buffer_index_to_weight m) < buffer_index + 1) in
  let weights := if grow then resize (buffer_index_to_weight m) (buffer_index + 1) None
                 else buffer_index_to_weight m in
  let positions := if grow then resize (buffer_index_to_heap_index m) (buffer_index + 1) 0
                   else buffer_index_to_heap_index m in
  old ← vget weights buffer_index;
  weights ← vset weights buffer_index (Some weight);
  assert (old = None) ≫= λ _,
  heap_u16 ← to_u16 heap_index;
  positions ← vset positions buffer_index heap_u16;
  pull_up (S heap_index)
    {| heap_index_to_buffer_index := heap; buffer_index_to_weight := weights;
       buffer_index_to_heap_index := positions |} heap_index.

(** The child of smaller weight than [heap_index_min], if it is one. *)
Definition min_child m (child_heap_index heap_index_min : nat) : run nat :=
  if decide (child_heap_index < length (heap_index_to_buffer_index m)) then
    child_weight ← heap_index_to_weight m child_heap_index;
    weight ← heap_index_to_weight m heap_index_min;
    Ret (if decide (child_weight < weight) then child_heap_index else heap_index_min)
  else Ret heap_index_min.

Fixpoint push_down (fuel : nat) m (heap_index : nat) : run BufferWeightMap :=
  match fuel with
  | 0 => Panic
  | S fuel =>
      heap_index_min ← min_child m (2 * heap_index + 1) heap_index;
      heap_index_min ← min_child m (2 * heap_index + 2) heap_index_min;
      if decide (heap_index = heap_index_min) then Ret m
      else
        m ← swap m heap_index heap_index_min;
        push_down fuel m heap_index_min
  end.

Definition with_weights m (w : list (option nat)) : BufferWeightMap :=
  {| heap_index_to_buffer_index := heap_index_to_buffer_index m; buffer_index_to_weight := w;
     buffer_index_to_heap_index := buffer_index_to_heap_index m |}.

Definition push_down_all m (heap_index : nat) : run BufferWeightMap :=
  push_down (S (length (heap_index_to_buffer_index m))) m heap_index.

Definition remove_heap_index m (heap_index buffer_index : nat) : run BufferWeightMap :=
  let last_heap_index := length (heap_index_to_buffer_index m) - 1 in
  m ← (if decide (heap_index = last_heap_index) then Ret m else swap m heap_index last_heap_index);
  let m := {| heap_index_to_buffer_index :=
                take (length (heap_index_to_buffer_index m) - 1) (heap_index_to_buffer_index m);
              buffer_index_to_weight := buffer_index_to_weight m;
              buffer_index_to_heap_index := buffer_index_to_heap_index m |} in
  o ← vget (buffer_index_to_weight m) buffer_index;
  prev_weight ← expect o;
  weights ← vset (buffer_index_to_weight m) buffer_index None;
  let m := with_weights m weights in
  if decide (heap_index = last_heap_index) then Ret m
  else
    weight ← heap_index_to_weight m heap_index;
    match Nat.compare weight prev_weight with
    | Lt => pull_up (S heap_index) m heap_index
    | Gt => push_down_all m heap_index
    | Eq => Ret m
    end.

Definition remove_min m : run BufferWeightMap :=
  buffer_index ← vget (heap_index_to_buffer_index m) 0;
  remove_heap_index m 0 buffer_index.

Definition remove_buffer_weight m (buffer_index : nat) : run (nat * BufferWeightMap) :=
  o ← vget (buffer_index_to_weight m) buffer_index;
  weight ← expect o;
  heap_index ← vget (buffer_index_to_heap_index m) buffer_index;
  buffer_u16 ← to_u16 buffer_index;
  m ← remove_heap_index m heap_index buffer_u16;
  Ret (weight, m).

Definition update_buffer_weight m (buffer_index weight : nat) : run BufferWeightMap :=
  o ← vget (buffer_index_to_weight m) buffer_index;
  prev_weight ← expect o;
  if decide (prev_weight = weight) then Ret m
  else
    weights ← vset (buffer_index_to_weight m) buffer_index (Some weight);
    heap_index ← vget (buffer_index_to_heap_index m) buffer_index;
    let m := with_weights m weights in
    match Nat.compare weight prev_weight with
    | Lt => pull_up (S heap_index) m heap_index
    | Gt => push_down_all m heap_index
    | Eq => Ret m
    end.

(** The calls [enumerate] makes of its closure, in order. *)
Fixpoint enumerate_from m (l : list nat) : run (list (nat * nat)) :=
  match l with
  | [] => Ret []
  | buffer_index :: l =>
      o ← vget (buffer_index_to_weight m) buffer_index;
      weight ← expect o;
      rest ← enumerate_from m l;
      Ret ((buffer_index, weight) :: rest)
  end.

Definition enumerate m : run (list (nat * nat)) := enumerate_from m (heap_index_to_buffer_index m).

(** ** Heap order on weights by position *)

Definition parent (i : nat) : nat := (i - 1) / 2.

Lemma parent_cases i : 0 < i → i = 2 * parent i + 1 ∨ i = 2 * parent i + 2.
Proof.
  intros Hi. unfold parent. pose proof (Nat.div_mod_eq (i - 1) 2) as H1.
  pose proof (Nat.mod_upper_bound (i - 1) 2). lia.
Qed.

Lemma parent_of i p : i = 2 * p + 1 ∨ i = 2 * p + 2 → parent i = p.
Proof. intros Hi. pose proof (parent_cases i ltac:(lia)). lia. Qed.

Section order.
Context (n : nat).
Implicit Types f : nat → nat.

Definition heap_order f : Prop := ∀ i, 0 < i < n → f (parent i) ≤ f i.

Definition up_order f (h : nat) : Prop :=
  ∀ i, 0 < i < n → (i ≠ h → f (parent i) ≤ f i) ∧ (parent i = h → 0 < h → f (parent h) ≤ f i).

Definition down_order f (h : nat) : Prop :=
  ∀ i, 0 < i < n →
    (parent i ≠ h → f (parent i) ≤ f i) ∧ (parent i = h → 0 < h → f (parent h) ≤ f i).

Definition swapped f (a b i : nat) : nat := if decide (i = a) then f b else if decide (i = b) then f a else f i.

Lemma up_order_step f h :
  0 < h < n → up_order f h → f h < f (parent h) → up_order (swapped f h (parent h)) (parent h).
Proof.
  intros Hh Hup Hlt i Hi. pose proof (parent_cases h ltac:(lia)) as Hph.
  pose proof (parent_cases i ltac:(lia)) as Hpi. pose proof (Hup i Hi) as [Hup1 Hup2].
  assert (0 < parent h → f (parent (parent h)) ≤ f (parent h)) as Hpp.
  { intros Hp. apply Hup; lia. }
  pose proof (parent_cases (parent h)) as Hpc. unfold swapped. split.
  - intros Hne. destruct (decide (i = h)) as [->|Hih].
    { rewrite decide_False, decide_True by lia. lia. }
    rewrite (decide_False (P := i = parent h)) by done.
    destruct (decide (parent i = h)) as [He|He]; [apply Hup2; lia|].
    destruct (decide (parent i = parent h)) as [He'|He']; [|by apply Hup1].
    rewrite He' in Hup1. specialize (Hup1 Hih). lia.
  - intros Hp Hpos. rewrite !(decide_False (P := parent (parent h) = _)) by lia.
    destruct (decide (i = h)) as [->|Hih]; [by apply Hpp|].
    rewrite decide_False by lia. rewrite Hp in Hup1. specialize (Hup1 Hih). specialize (Hpp Hpos). lia.
Qed.

Lemma up_order_stop f h : up_order f h → (0 < h → f (parent h) ≤ f h) → heap_order f.
Proof.
  intros Hup Hh i Hi. destruct (decide (i = h)) as [->|Hne]; [apply Hh; lia|]. by apply Hup.
Qed.

Lemma down_order_step f h c :
  0 < c < n → parent c = h → down_order f h → f c < f h →
  (∀ i, 0 < i < n → parent i = h → f c ≤ f i) → down_order (swapped f h c) c.
Proof.
  intros Hc Hch Hdown Hlt Hmin i Hi. pose proof (parent_cases c ltac:(lia)) as Hpc.
  pose proof (parent_cases i ltac:(lia)) as Hpi. pose proof (Hdown i Hi) as [Hd1 Hd2].
  unfold swapped. split.
  - intros Hne. rewrite (decide_False (P := parent i = c)) by done.
    destruct (decide (i = h)) as [->|Hih].
    { rewrite decide_False by lia. apply (Hdown c); lia || done. }
    destruct (decide (i = c)) as [->|Hic]; [rewrite decide_True by done; lia|].
    destruct (decide (parent i = h)) as [He|He]; [by apply Hmin|by apply Hd1].
  - intros Hp _. rewrite (decide_True (P := parent c = h)) by done. rewrite !decide_False by lia.
    rewrite <- Hp. apply Hd1. lia.
Qed.

Lemma down_order_stop f h :
  down_order f h → (∀ i, 0 < i < n → parent i = h → f h ≤ f i) → heap_order f.
Proof.
  intros Hd Hh i Hi. destruct (decide (parent i = h)) as [He|Hne]; [|by apply Hd].
  rewrite He. by apply Hh.
Qed.

Lemma heap_order_min f : heap_order f → ∀ i, i < n → f 0 ≤ f i.
Proof.
  intros Ho i. induction i as [i IH] using (well_founded_induction lt_wf). intros Hi.
  destruct (decide (i = 0)) as [->|Hne]; [done|]. pose proof (parent_cases i ltac:(lia)).
  etrans; [apply (IH (parent i)); lia|]. apply Ho. lia.
Qed.

Lemma heap_order_up f h : heap_order f → up_order f h.
Proof.
  intros Ho i Hi. split; [by intros _; apply Ho|]. intros He Hh. pose proof (parent_cases i ltac:(lia)).
  etrans; [apply (Ho h); lia|]. rewrite <- He at 1. by apply Ho.
Qed.
End order.

Lemma parent_lt i : 0 < i → parent i < i.
Proof. intros Hi. pose proof (parent_cases i Hi). lia. Qed.

Lemma parent_le i : parent i ≤ i.
Proof. destruct i as [|i]; [done|]. pose proof (parent_lt (S i)). lia. Qed.

Lemma up_order_ext n f g h : (∀ i, i < n → f i = g i) → h < n → up_order n f h → up_order n g h.
Proof.
  intros He Hh Hf i Hi. pose proof (parent_lt i ltac:(lia)). destruct (Hf i Hi) as [H1 H2].
  rewrite <- !He by (pose proof (parent_le h); lia). by split.
Qed.

Lemma down_order_ext n f g h : (∀ i, i < n → f i = g i) → h < n → down_order n f h → down_order n g h.
Proof.
  intros He Hh Hf i Hi. pose proof (parent_lt i ltac:(lia)). destruct (Hf i Hi) as [H1 H2].
  rewrite <- !He by (pose proof (parent_le h); lia). by split.
Qed.

Lemma heap_order_ext n f g : (∀ i, i < n → f i = g i) → heap_order n f → heap_order n g.
Proof.
  intros He Hf i Hi. pose proof (parent_lt i ltac:(lia)). rewrite <- !He by lia. by apply Hf.
Qed.

(** ** Arrays *)

(** The map the three arrays stand for. *)
Definition weight_of m (b : nat) : option nat := mjoin (buffer_index_to_weight m !! b).

#[local] Abbreviation heap := heap_index_to_buffer_index.
#[local] Abbreviation positions := buffer_index_to_heap_index.

Record layout m : Prop := {
  ly_length : length (positions m) = length (buffer_index_to_weight m);
  ly_heap i b : heap m !! i = Some b → positions m !! b = Some i ∧ is_Some (weight_of m b);
  ly_weight b : is_Some (weight_of m b) → b ∈ heap m;
  ly_u16 b : b ∈ heap m → (N.of_nat b ≤ u16_MAX)%N;
}.

Definition wt m (i : nat) : nat := default 0 (heap m !! i ≫= weight_of m).

Record heap_ok m : Prop := {
  ho_layout : layout m;
  ho_order : heap_order (length (heap m)) (wt m);
}.

Lemma heap_position m i j b : layout m → heap m !! i = Some b → heap m !! j = Some b → i = j.
Proof. intros Hl Hi Hj. apply (ly_heap m Hl) in Hi, Hj. destruct Hi, Hj. congruence. Qed.

Lemma NoDup_heap m : layout m → NoDup (heap m).
Proof. intros Hl. apply NoDup_alt. intros i j b Hi Hj. by eapply heap_position. Qed.

Lemma heap_weight m i b : heap m !! i = Some b → layout m → weight_of m b = Some (wt m i).
Proof.
  intros Hi Hl. unfold wt. rewrite Hi. cbn. by destruct (ly_heap m Hl i b Hi) as [_ [w ->]].
Qed.

Lemma weight_of_lookup m b w : weight_of m b = Some w ↔ buffer_index_to_weight m !! b = Some (Some w).
Proof. unfold weight_of. destruct (buffer_index_to_weight m !! b) as [[]|]; cbn; naive_solver. Qed.

Lemma weight_of_Some m b w :
  layout m → weight_of m b = Some w → ∃ i, heap m !! i = Some b ∧ positions m !! b = Some i ∧ wt m i = w.
Proof.
  intros Hl Hw. destruct (list_elem_of_lookup_1 (heap m) b) as [i Hi].
  { apply (ly_weight m Hl). eauto. }
  exists i. destruct (ly_heap m Hl i b Hi) as [Hp _]. split_and!; [done|done|].
  pose proof (heap_weight m i b Hi Hl). congruence.
Qed.

Lemma heap_index_to_weight_spec m i :
  layout m → i < length (heap m) → heap_index_to_weight m i = Ret (wt m i).
Proof.
  intros Hl Hi. destruct (lookup_lt_is_Some_2 _ _ Hi) as [b Hb].
  pose proof (heap_weight m i b Hb Hl) as Hw. apply weight_of_lookup in Hw.
  unfold heap_index_to_weight, vget. rewrite Hb. cbn. by rewrite Hw.
Qed.

Lemma swap_spec m i j :
  layout m → i < length (heap m) → j < length (heap m) → i ≠ j →
  ∃ m', swap m i j = Ret m' ∧ layout m' ∧ buffer_index_to_weight m' = buffer_index_to_weight m ∧
    length (heap m') = length (heap m) ∧ ∀ k, k < length (heap m) → wt m' k = swapped (wt m) i j k.
Proof.
  intros Hl Hi Hj Hij.
  destruct (lookup_lt_is_Some_2 _ _ Hi) as [x Hx]. destruct (lookup_lt_is_Some_2 _ _ Hj) as [y Hy].
  destruct (ly_heap m Hl i x Hx) as [Hpx Hwx]. destruct (ly_heap m Hl j y Hy) as [Hpy Hwy].
  assert (x ≠ y) as Hxy by (intros ->; congruence).
  unfold swap. rewrite (proj2 (vget_Ret _ _ _) Hx), (proj2 (vget_Ret _ _ _) Hy).
  cbn [mbind run_bind]. rewrite (vswap_Ret _ i j x y) by done. cbn [mbind run_bind].
  rewrite (vswap_Ret _ x y i j) by done. cbn [mbind run_bind].
  set (m' := Build_BufferWeightMap _ _ _).
  assert (∀ k, heap m' !! k = if decide (k = i) then Some y else if decide (k = j) then Some x else heap m !! k)
    as Hheap.
  { intros k. subst m'. cbn. destruct (decide (k = j)) as [->|Hkj].
    - rewrite decide_False by done. apply list_lookup_insert_eq. by rewrite length_insert.
    - rewrite list_lookup_insert_ne by done. destruct (decide (k = i)) as [->|Hki].
      + by apply list_lookup_insert_eq.
      + by apply list_lookup_insert_ne. }
  exists m'. split; [done|]. split; [split|].
  - subst m'. cbn. rewrite !length_insert. apply Hl.
  - intros k b. rewrite Hheap. change (weight_of m' b) with (weight_of m b).
    apply lookup_lt_Some in Hpx as Hlx. apply lookup_lt_Some in Hpy as Hly.
    subst m'. cbn. destruct (decide (k = i)) as [->|Hki]; [|destruct (decide (k = j)) as [->|Hkj]].
    + intros [= <-]. split; [|done]. apply list_lookup_insert_eq. by rewrite length_insert.
    + intros [= <-]. split; [|done]. rewrite list_lookup_insert_ne by done. by apply list_lookup_insert_eq.
    + intros Hk. destruct (ly_heap m Hl k b Hk) as [Hp Hw]. split; [|done].
      rewrite !list_lookup_insert_ne; [done|congruence|congruence].
  - intros b Hb. pose proof (ly_weight m Hl b Hb) as Hin. apply list_elem_of_lookup in Hin as [k Hk].
    apply list_elem_of_lookup.
    destruct (decide (k = i)) as [->|Hki]; [exists j|destruct (decide (k = j)) as [->|Hkj]; [exists i|exists k]];
      rewrite Hheap; repeat case_decide; congruence.
  - intros b [k Hk]%list_elem_of_lookup_1. rewrite Hheap in Hk. apply (ly_u16 m Hl).
    repeat case_decide; simplify_eq; by eapply list_elem_of_lookup_2.
  - split_and!; [done|subst m'; cbn; by rewrite !length_insert|].
    intros k Hk. unfold wt at 1. rewrite Hheap. unfold swapped, wt.
    destruct (decide (k = i)) as [->|Hki]; [by rewrite Hy|].
    destruct (decide (k = j)) as [->|Hkj]; [by rewrite Hx|done].
Qed.

Lemma pull_up_spec fuel m h :
  layout m → h < length (heap m) → h < fuel → up_order (length (heap m)) (wt m) h →
  ∃ m', pull_up fuel m h = Ret m' ∧ heap_ok m' ∧ buffer_index_to_weight m' = buffer_index_to_weight m.
Proof.
  revert m h. induction fuel as [|fuel IH]; intros m h Hl Hh Hf Hup; [lia|]. cbn [pull_up].
  case_decide as H0.
  { exists m. split_and!; [done|split; [done|]|done]. eapply up_order_stop; [done|lia]. }
  pose proof (parent_lt h ltac:(lia)) as Hp. fold (parent h).
  rewrite !heap_index_to_weight_spec by (done || lia). cbn [mbind run_bind]. case_decide as Hle.
  { exists m. split_and!; [done|split; [done|]|done]. by eapply up_order_stop. }
  destruct (swap_spec m h (parent h)) as (m' & -> & Hl' & Hw & Hlen & Hwt); [done|done|lia|lia|].
  cbn [mbind run_bind]. destruct (IH m' (parent h)) as (m'' & -> & Hok & Hw'); [done|lia|lia| |].
  - rewrite Hlen. eapply up_order_ext; [intros i Hi; symmetry; by apply Hwt|lia|].
    apply up_order_step; [lia|done|lia].
  - exists m''. split_and!; [done|done|by rewrite Hw', Hw].
Qed.

Lemma min_child_spec m c j :
  layout m → j < length (heap m) →
  min_child m c j = Ret (if decide (c < length (heap m) ∧ wt m c < wt m j) then c else j).
Proof.
  intros Hl Hj. unfold min_child. destruct (decide (c < length (heap m))) as [Hc|Hc].
  - rewrite !heap_index_to_weight_spec by done. cbn [mbind run_bind]. f_equal.
    destruct (decide (wt m c < wt m j)); [by rewrite decide_True|rewrite decide_False; [done|lia]].
  - rewrite decide_False by lia. done.
Qed.

Lemma push_down_spec fuel m h :
  layout m → h < length (heap m) → length (heap m) - h < fuel →
  down_order (length (heap m)) (wt m) h →
  ∃ m', push_down fuel m h = Ret m' ∧ heap_ok m' ∧ buffer_index_to_weight m' = buffer_index_to_weight m.
Proof.
  revert m h. induction fuel as [|fuel IH]; intros m h Hl Hh Hf Hdown; [lia|]. cbn [push_down].
  rewrite min_child_spec by done. cbn [mbind run_bind].
  set (c1 := if decide (2 * h + 1 < length (heap m) ∧ wt m (2 * h + 1) < wt m h) then 2 * h + 1 else h).
  assert (c1 < length (heap m)) as Hc1 by (unfold c1; case_decide; lia).
  rewrite min_child_spec by done. cbn [mbind run_bind].
  set (c := if decide (2 * h + 2 < length (heap m) ∧ wt m (2 * h + 2) < wt m c1) then 2 * h + 2 else c1).
  assert (wt m c1 ≤ wt m h ∧ (2 * h + 1 < length (heap m) → wt m c1 ≤ wt m (2 * h + 1)) ∧
    (c1 = h ∨ c1 = 2 * h + 1 ∧ wt m c1 < wt m h)) as (Ha1 & Ha2 & Ha3).
  { unfold c1. case_decide; lia. }
  assert (wt m c ≤ wt m c1 ∧ (2 * h + 2 < length (heap m) → wt m c ≤ wt m (2 * h + 2)) ∧
    c < length (heap m) ∧ (c = c1 ∨ c = 2 * h + 2 ∧ wt m c < wt m c1)) as (Hb1 & Hb2 & Hc & Hb3).
  { unfold c. case_decide; lia. }
  assert (∀ i, 0 < i < length (heap m) → parent i = h → wt m c ≤ wt m i) as Hmin.
  { intros i Hi Hp. pose proof (parent_cases i ltac:(lia)) as Hpc. rewrite Hp in Hpc.
    destruct Hpc as [->| ->]; lia. }
  clearbody c c1.
  case_decide as Hch.
  { exists m. split_and!; [done|split; [done|]|done]. eapply down_order_stop; [done|].
    intros i Hi Hp. etrans; [|by apply Hmin]. by rewrite <- Hch. }
  assert (0 < c ∧ parent c = h ∧ wt m c < wt m h) as (Hc0 & Hpc & Hlt).
  { split; [lia|]. split; [apply parent_of; lia|]. destruct Hb3 as [->|?]; lia. }
  destruct (swap_spec m h c) as (m' & -> & Hl' & Hw & Hlen & Hwt); [done|done|lia|done|].
  cbn [mbind run_bind]. destruct (IH m' c) as (m'' & -> & Hok & Hw'); [done|lia|lia| |].
  - rewrite Hlen. eapply down_order_ext; [intros i Hi; symmetry; by apply Hwt|lia|].
    by apply down_order_step.
  - exists m''. split_and!; [done|done|by rewrite Hw', Hw].
Qed.

Lemma push_down_all_spec m h :
  layout m → h < length (heap m) → down_order (length (heap m)) (wt m) h →
  ∃ m', push_down_all m h = Ret m' ∧ heap_ok m' ∧ buffer_index_to_weight m' = buffer_index_to_weight m.
Proof. intros Hl Hh Hd. apply push_down_spec; [done|done|lia|done]. Qed.

(** ** The operations on the map *)

Lemma heap_ok_new : heap_ok BufferWeightMap_new.
Proof.
  split; [split|]; cbn.
  - done.
  - done.
  - intros b [w Hw]. done.
  - set_solver.
  - intros i Hi. cbn in Hi. lia.
Qed.

Lemma is_empty_spec m : heap_ok m → is_empty m = true ↔ ∀ b, weight_of m b = None.
Proof.
  intros [Hl _]. unfold is_empty. rewrite bool_decide_eq_true. split.
  - intros He b. apply eq_None_not_Some. intros Hw. apply (ly_weight m Hl) in Hw. rewrite He in Hw.
    set_solver.
  - intros Hn. destruct (heap m) as [|b l] eqn:Hh; [done|].
    destruct (ly_heap m Hl 0 b) as [_ [w Hw]]; [by rewrite Hh|]. by rewrite Hn in Hw.
Qed.

Lemma peek_min_spec m :
  heap_ok m →
  ∃ o, peek_min m = Ret o ∧
    match o with
    | None => ∀ b, weight_of m b = None
    | Some (b, w) => weight_of m b = Some w ∧ ∀ b' w', weight_of m b' = Some w' → w ≤ w'
    end.
Proof.
  intros Hok. pose proof Hok as [Hl Ho]. pose proof (is_empty_spec m Hok) as He. unfold peek_min, is_empty in *.
  destruct (heap m) as [|b l] eqn:Hh; [exists None; split; [done|]; cbn; by apply He|].
  assert (heap m !! 0 = Some b) as Hb by by rewrite Hh.
  pose proof (heap_weight m 0 b Hb Hl) as Hw. pose proof Hw as Hw'. apply weight_of_lookup in Hw'.
  unfold vget. rewrite Hw'. cbn. eexists. split; [done|]. split; [done|].
  intros b' w' (i & Hi & _ & <-)%weight_of_Some; [|done]. apply lookup_lt_Some in Hi.
  rewrite <- Hh in Ho. eapply heap_order_min; done.
Qed.

Lemma wt_ext m m' i : heap m' !! i = heap m !! i → (∀ b, heap m !! i = Some b → weight_of m' b = weight_of m b) →
  wt m' i = wt m i.
Proof. intros Hh Hw. unfold wt. rewrite Hh. destruct (heap m !! i) as [b|]; cbn; [|done]. by rewrite Hw. Qed.

(** The last step of a change of weight at one position. *)
Lemma reorder_spec m i f :
  layout m → i < length (heap m) → heap_order (length (heap m)) f →
  (∀ k, k < length (heap m) → k ≠ i → wt m k = f k) →
  ∃ m', match Nat.compare (wt m i) (f i) with
        | Lt => pull_up (S i) m i | Gt => push_down_all m i | Eq => Ret m end = Ret m' ∧
    heap_ok m' ∧ buffer_index_to_weight m' = buffer_index_to_weight m.
Proof.
  intros Hl Hi Ho Hf. destruct (Nat.compare_spec (wt m i) (f i)) as [He|Hlt|Hgt].
  - exists m. split_and!; [done|split; [done|]|done]. eapply heap_order_ext; [|exact Ho].
    intros k Hk. destruct (decide (k = i)) as [->|]; [done|]. symmetry. by apply Hf.
  - apply pull_up_spec; [done|done|lia|]. intros k Hk.
    pose proof (heap_order_up _ _ i Ho k Hk) as [H1 H2]. pose proof (parent_cases k ltac:(lia)). split.
    + intros Hne. rewrite (Hf k) by (done || lia). destruct (decide (parent k = i)) as [He|He].
      * rewrite He. specialize (H1 Hne). rewrite He in H1. lia.
      * rewrite Hf by (done || lia). by apply H1.
    + intros He Hpos. pose proof (parent_lt i Hpos). rewrite !Hf by lia. by apply H2.
  - apply push_down_all_spec; [done|done|]. intros k Hk.
    pose proof (heap_order_up _ _ i Ho k Hk) as [H1 H2]. pose proof (parent_cases k ltac:(lia)). split.
    + intros Hne. destruct (decide (k = i)) as [->|Hki].
      * rewrite (Hf (parent i)) by lia. specialize (Ho i Hk). lia.
      * rewrite !Hf by (done || lia). by apply H1.
    + intros He Hpos. pose proof (parent_lt i Hpos). rewrite !Hf by lia. by apply H2.
Qed.

Lemma update_buffer_weight_spec m b w w0 :
  heap_ok m → weight_of m b = Some w0 →
  ∃ m', update_buffer_weight m b w = Ret m' ∧ heap_ok m' ∧
    ∀ b', weight_of m' b' = if decide (b' = b) then Some w else weight_of m b'.
Proof.
  intros [Hl Ho] Hb. pose proof Hb as Hb'. apply weight_of_lookup in Hb'.
  unfold update_buffer_weight, vget. rewrite Hb'. cbn [mbind run_bind expect]. case_decide as Hw.
  { exists m. split_and!; [done|by split|]. intros b'. case_decide; [congruence|done]. }
  rewrite vset_Ret by by eapply lookup_lt_Some. cbn [mbind run_bind].
  destruct (weight_of_Some m b w0 Hl Hb) as (i & Hi & Hp & Hwt). rewrite Hp. cbn [mbind run_bind expect].
  set (m' := with_weights m _).
  assert (∀ b', weight_of m' b' = if decide (b' = b) then Some w else weight_of m b') as Hwm.
  { intros b'. unfold weight_of. subst m'. cbn. case_decide as He.
    - subst b'. rewrite list_lookup_insert_eq; [done|]. by eapply lookup_lt_Some.
    - by rewrite list_lookup_insert_ne. }
  assert (layout m') as Hl'.
  { destruct Hl as [H1 H2 H3 H4]. split; cbn; [by rewrite length_insert| | |done].
    - intros k b' Hk. rewrite Hwm. case_decide; [split; [by apply H2|eauto]|by apply H2].
    - intros b'. rewrite Hwm. case_decide; [|by apply H3]. subst b'. intros _. apply H3. eauto. }
  assert (∀ k, k ≠ i → wt m' k = wt m k) as Hwt'.
  { intros k Hk. apply wt_ext; [done|]. intros b' Hb2. rewrite Hwm, decide_False; [done|].
    intros ->. apply Hk. by eapply heap_position. }
  assert (wt m' i = w) as Hwti.
  { unfold wt. change (heap m') with (heap m). rewrite Hi. cbn. by rewrite Hwm, decide_True. }
  assert (i < length (heap m)) as Hlt by by eapply lookup_lt_Some.
  destruct (reorder_spec m' i (wt m)) as (m'' & Hrun & Hok & Hw'); [done|done|done|by intros k _; apply Hwt'|].
  rewrite Hwti, Hwt in Hrun. rewrite Hrun.
  exists m''. split_and!; [done|done|]. intros b'. rewrite <- Hwm. unfold weight_of. by rewrite Hw'.
Qed.

Lemma remove_heap_index_spec m i b w :
  heap_ok m → heap m !! i = Some b → weight_of m b = Some w →
  ∃ m', remove_heap_index m i b = Ret m' ∧ heap_ok m' ∧
    ∀ b', weight_of m' b' = if decide (b' = b) then None else weight_of m b'.
Proof.
  intros [Hl Ho] Hi Hb. pose proof (lookup_lt_Some _ _ _ Hi) as Hlt. unfold remove_heap_index.
  set (l := length (heap m) - 1).
  assert (∃ m1, (if decide (i = l) then Ret m else swap m i l) = Ret m1 ∧ layout m1 ∧
    buffer_index_to_weight m1 = buffer_index_to_weight m ∧ length (heap m1) = length (heap m) ∧
    heap m1 !! l = Some b ∧ ∀ k, k < length (heap m) → wt m1 k = swapped (wt m) i l k)
    as (m1 & -> & Hl1 & Hw1 & Hn1 & Hlast & Hwt1).
  { case_decide as He.
    - exists m. split_and!; try done; [by rewrite <- He|]. intros k Hk. unfold swapped.
      rewrite He. repeat case_decide; congruence.
    - destruct (swap_spec m i l) as (m1 & Hrun & Hl1 & Hw1 & Hn1 & Hwt1); [done|lia|lia|done|].
      exists m1. split_and!; try done. unfold swap, vget in Hrun. rewrite Hi in Hrun.
      cbn [mbind run_bind expect] in Hrun.
      apply run_bind_Ret in Hrun as (y & Hy & Hrun). apply run_bind_Ret in Hrun as (h & Hh & Hrun).
      apply run_bind_Ret in Hrun as (ps & _ & [= <-]). cbn. apply expect_Ret in Hy.
      unfold vswap, vget in Hh. rewrite Hi, Hy in Hh. injection Hh as <-.
      apply list_lookup_insert_eq. rewrite length_insert. lia. }
  cbn [mbind run_bind]. rewrite Hn1. fold l. cbn [buffer_index_to_weight]. unfold vget.
  rewrite Hw1. pose proof Hb as Hb'. apply weight_of_lookup in Hb'. rewrite Hb'.
  cbn [mbind run_bind expect]. rewrite vset_Ret by by eapply lookup_lt_Some. cbn [mbind run_bind].
  set (m2 := with_weights _ _).
  assert (∀ k, heap m2 !! k = if decide (k < l) then heap m1 !! k else None) as Hheap.
  { intros k. subst m2. cbn. case_decide; [by apply lookup_take_lt|apply lookup_take_ge; lia]. }
  assert (∀ b', weight_of m2 b' = if decide (b' = b) then None else weight_of m b') as Hwm.
  { intros b'. unfold weight_of. subst m2. cbn. case_decide as He.
    - subst b'. rewrite list_lookup_insert_eq; [done|]. by eapply lookup_lt_Some.
    - by rewrite list_lookup_insert_ne. }
  assert (∀ b', weight_of m1 b' = weight_of m b') as Hwm1 by (intros b'; unfold weight_of; by rewrite Hw1).
  assert (∀ k b', k < l → heap m1 !! k = Some b' → b' ≠ b) as Hne.
  { intros k b' Hk Hk' ->. assert (k = l) by by eapply heap_position. lia. }
  assert (layout m2) as Hl2.
  { split.
    - subst m2. cbn. rewrite length_insert, <- Hw1. apply Hl1.
    - intros k b'. rewrite Hheap. case_decide as Hk; [|done]. intros Hk'.
      destruct (ly_heap m1 Hl1 k b' Hk') as [Hp Hs]. split; [done|].
      rewrite Hwm, decide_False, <- Hwm1 by by eapply Hne. done.
    - intros b'. rewrite Hwm. case_decide as He; [by intros []|]. rewrite <- Hwm1. intros Hs.
      apply (ly_weight m1 Hl1), list_elem_of_lookup in Hs as [k Hk]. apply list_elem_of_lookup. exists k.
      rewrite Hheap, decide_True; [done|]. apply lookup_lt_Some in Hk as Hkl.
      destruct (decide (k = l)) as [->|]; [congruence|lia].
    - intros b' Hb2. apply (ly_u16 m1 Hl1). apply list_elem_of_lookup in Hb2 as [k Hk].
      rewrite Hheap in Hk. case_decide; [|done]. by eapply list_elem_of_lookup_2. }
  assert (length (heap m2) = l) as Hn2.
  { subst m2. cbn. rewrite length_take. lia. }
  assert (∀ k, k < l → wt m2 k = wt m1 k) as Hwt2.
  { intros k Hk. apply wt_ext; [by rewrite Hheap, decide_True|]. intros b' Hb2.
    rewrite Hwm, decide_False, Hwm1 by by eapply Hne. done. }
  assert (heap_order l (wt m)) as Hol.
  { intros k Hk. apply Ho. lia. }
  assert (wt m i = w) as Hwi.
  { pose proof (heap_weight m i b Hi Hl). congruence. }
  case_decide as Hil.
  { exists m2. split_and!; [done|split; [done|]|done]. rewrite Hn2. eapply heap_order_ext; [|exact Hol].
    intros k Hk. rewrite Hwt2, Hwt1 by lia. unfold swapped. rewrite !decide_False by lia. done. }
  rewrite heap_index_to_weight_spec by (done || lia). cbn [mbind run_bind].
  destruct (reorder_spec m2 i (wt m)) as (m3 & Hrun & Hok3 & Hw3); [done|lia|by rewrite Hn2| |].
  { intros k Hk Hki. rewrite Hwt2, Hwt1 by lia. unfold swapped. rewrite !decide_False by lia. done. }
  rewrite Hwi in Hrun. rewrite Hrun. exists m3. split_and!; [done|done|].
  intros b'. rewrite <- Hwm. unfold weight_of. by rewrite Hw3.
Qed.

Lemma remove_buffer_weight_spec m b w :
  heap_ok m → weight_of m b = Some w →
  ∃ m', remove_buffer_weight m b = Ret (w, m') ∧ heap_ok m' ∧
    ∀ b', weight_of m' b' = if decide (b' = b) then None else weight_of m b'.
Proof.
  intros Hok Hb. pose proof Hok as [Hl Ho]. unfold remove_buffer_weight, vget. pose proof Hb as Hb'.
  apply weight_of_lookup in Hb'. rewrite Hb'. cbn [mbind run_bind expect].
  destruct (weight_of_Some m b w Hl Hb) as (i & Hi & Hp & _). rewrite Hp. cbn [mbind run_bind expect].
  rewrite to_u16_Ret by (apply (ly_u16 m Hl); by eapply list_elem_of_lookup_2). cbn [mbind run_bind].
  destruct (remove_heap_index_spec m i b w) as (m' & -> & Hok' & Hw'); [done..|]. by exists m'.
Qed.

Lemma resize_lookup {A} (v : list A) n x i :
  length v < n → resize v n x !! i = if decide (i < length v) then v !! i else if decide (i < n) then Some x else None.
Proof.
  intros Hn. unfold resize. case_decide as Hi; [by apply lookup_app_l|].
  rewrite lookup_app_r by lia. case_decide.
  - apply lookup_replicate_2. lia.
  - apply lookup_ge_None_2. rewrite length_replicate. lia.
Qed.

Lemma heap_room m b :
  layout m → (N.of_nat b ≤ u16_MAX)%N → b ∉ heap m → (N.of_nat (length (heap m)) ≤ u16_MAX)%N.
Proof.
  intros Hl Hb Hn.
  assert (length (b :: heap m) ≤ length (seq 0 (N.to_nat (u16_MAX + 1)))) as Hle.
  { apply submseteq_length, NoDup_submseteq; [constructor; [done|by apply NoDup_heap]|].
    intros x [->|Hx]%elem_of_cons; apply elem_of_seq; [lia|]. apply (ly_u16 m Hl) in Hx. lia. }
  rewrite length_seq in Hle. cbn [length] in Hle. lia.
Qed.

Lemma insert_buffer_weight_spec m b w :
  heap_ok m → weight_of m b = None → (N.of_nat b ≤ u16_MAX)%N →
  ∃ m', insert_buffer_weight m b w = Ret m' ∧ heap_ok m' ∧
    ∀ b', weight_of m' b' = if decide (b' = b) then Some w else weight_of m b'.
Proof.
  intros [Hl Ho] Hb Hu.
  assert (b ∉ heap m) as Hnh.
  { intros [i Hi]%list_elem_of_lookup_1. destruct (ly_heap m Hl i b Hi) as [_ [? ?]]. congruence. }
  unfold insert_buffer_weight. rewrite (to_u16_Ret b) by done. cbn [mbind run_bind].
  set (grow := bool_decide _).
  set (ps := if grow then _ else positions m). set (weights := if grow then _ else _).
  assert (b < length weights ∧ length ps = length weights ∧
    (∀ b', mjoin (weights !! b') = weight_of m b') ∧
    (∀ b' i, positions m !! b' = Some i → ps !! b' = Some i)) as (Hlw & Hlp & Hwm & Hps).
  { pose proof (ly_length m Hl) as Hll. unfold weights, ps, grow. case_bool_decide as Hg.
    - unfold resize at 1 2 3. rewrite !length_app, !length_replicate. split_and!; [lia|lia| |].
      + intros b'. unfold weight_of. rewrite resize_lookup by lia. case_decide; [done|].
        rewrite (lookup_ge_None_2 (buffer_index_to_weight m)) by lia. by case_decide.
      + intros b' i Hi. rewrite resize_lookup by lia. rewrite decide_True; [done|]. by eapply lookup_lt_Some.
    - split_and!; [lia|done|done|done]. }
  destruct (lookup_lt_is_Some_2 _ _ Hlw) as [old Hold]. unfold vget. rewrite Hold.
  cbn [mbind run_bind expect]. rewrite vset_Ret by done. cbn [mbind run_bind].
  assert (old = None) as ->.
  { specialize (Hwm b). rewrite Hold, Hb in Hwm. done. }
  rewrite assert_true by done. cbn [mbind run_bind]. rewrite to_u16_Ret by by eapply heap_room.
  cbn [mbind run_bind]. rewrite vset_Ret by lia. cbn [mbind run_bind].
  set (m0 := Build_BufferWeightMap _ _ _).
  assert (∀ b', weight_of m0 b' = if decide (b' = b) then Some w else weight_of m b') as Hw0.
  { intros b'. rewrite <- Hwm. unfold weight_of. subst m0. cbn. case_decide as He.
    - subst b'. by rewrite list_lookup_insert_eq.
    - by rewrite list_lookup_insert_ne. }
  assert (layout m0) as Hl0.
  { split.
    - subst m0. cbn. by rewrite !length_insert.
    - intros i b'. rewrite Hw0. subst m0. cbn. intros [Hi|[Hge Hi]]%lookup_app_Some.
      + destruct (ly_heap m Hl i b' Hi) as [Hp Hs]. assert (b' ≠ b).
        { intros ->. apply Hnh. by eapply list_elem_of_lookup_2. }
        rewrite list_lookup_insert_ne by done. rewrite decide_False by done. auto.
      + apply list_lookup_singleton_Some in Hi as [Hz ->]. rewrite decide_True by done.
        rewrite list_lookup_insert_eq by lia. split; [f_equal; lia|eauto].
    - intros b'. rewrite Hw0. subst m0. cbn. rewrite elem_of_app, list_elem_of_singleton.
      case_decide; [by right|]. intros Hs. left. by apply (ly_weight m Hl).
    - subst m0. cbn. intros b'. rewrite elem_of_app, list_elem_of_singleton.
      intros [Hx| ->]; [by apply (ly_u16 m Hl)|done]. }
  assert (∀ i, i < length (heap m) → wt m0 i = wt m i) as Hwt.
  { intros i Hi. apply wt_ext; [by apply lookup_app_l|]. intros b' Hb'. rewrite Hw0, decide_False; [done|].
    intros ->. apply Hnh. by eapply list_elem_of_lookup_2. }
  destruct (pull_up_spec (S (length (heap m))) m0 (length (heap m))) as (m' & -> & Hok & Hw'); [done| |lia| |].
  - subst m0. cbn. rewrite length_app. cbn. lia.
  - intros i Hi. assert (length (heap m0) = S (length (heap m))) as Hn0.
    { subst m0. cbn. rewrite length_app. cbn. lia. }
    pose proof (parent_cases i ltac:(lia)). split; [|lia]. intros Hne. rewrite !Hwt by lia.
    apply Ho. lia.
  - exists m'. split_and!; [done|done|]. intros b'. rewrite <- Hw0. unfold weight_of. by rewrite Hw'.
Qed.

Lemma enumerate_spec m :
  heap_ok m →
  ∃ l, enumerate m = Ret l ∧ NoDup l.*1 ∧ ∀ b w, (b, w) ∈ l ↔ weight_of m b = Some w.
Proof.
  intros [Hl _]. unfold enumerate.
  assert (∀ h, (∀ b, b ∈ h → is_Some (weight_of m b)) → NoDup h → ∃ l,
    enumerate_from m h = Ret l ∧ l.*1 = h ∧ ∀ b w, (b, w) ∈ l ↔ b ∈ h ∧ weight_of m b = Some w) as Hgo.
  { induction h as [|b h IH]; intros Hw Hnd; [exists []; set_solver|].
    apply NoDup_cons in Hnd as [Hb Hnd].
    destruct IH as (l & IHrun & Hfst & Hin); [set_solver|done|].
    destruct (Hw b) as [w Hbw]; [set_solver|]. pose proof Hbw as Hbw'. apply weight_of_lookup in Hbw'.
    cbn [enumerate_from]. unfold vget. rewrite Hbw'. cbn [mbind run_bind expect]. rewrite IHrun. cbn [mbind run_bind].
    eexists. split; [done|]. split; [by cbn; rewrite Hfst|]. intros b' w'.
    rewrite elem_of_cons, Hin, elem_of_cons. split.
    - intros [[= -> ->]|[? ?]]; auto.
    - intros [[->|?] ?]; [left; congruence|auto]. }
  destruct (Hgo (heap m)) as (l & Hrun & Hfst & Hin).
  - intros b [i Hi]%list_elem_of_lookup_1. by apply (ly_heap m Hl i).
  - by apply NoDup_heap.
  - exists l. split_and!; [done|by rewrite Hfst; apply NoDup_heap|]. intros b w. rewrite Hin.
    split; [by intros [? ?]|]. intros Hb. split; [|done]. apply (ly_weight m Hl). eauto.
Qed.
