(* ===== verification/RaptorMatrix.v ===== *)
(** * Elimination over the field with two elements ([src/raptor/src/matrix])

    Dense bit matrices whose rows and columns are permuted through index
    vectors, and the row-wise elimination that reports its row operations to the
    caller. *)
From S2P Require Import Prelude RaptorSet.

(** ** Matrices *)

Record DenseMatrix := {
  data : list bool;
  nrows : nat;
  ncols : nat;
}.

Definition from_element (nrows ncols : nat) (elem : bool) : DenseMatrix :=
  {| data := replicate (nrows * ncols) elem; nrows := nrows; ncols := ncols |}.

Definition from_fn (nrows ncols : nat) (f : nat → nat → run bool) : run DenseMatrix :=
  data ← for_each (seq 0 nrows) (λ i, for_each (seq 0 ncols) (λ j data, b ← f i j; Ret (data ++ [b]))) [];
  Ret {| data := data; nrows := nrows; ncols := ncols |}.

Definition mindex (m : DenseMatrix) (i j : nat) : run bool := vget (data m) (i * ncols m + j).

Definition mset (m : DenseMatrix) (i j : nat) (b : bool) : run DenseMatrix :=
  data ← vset (data m) (i * ncols m + j) b;
  Ret {| data := data; nrows := nrows m; ncols := ncols m |}.

Record RCPermutation := {
  virt_to_phys : list nat;
  phys_to_virt : list nat;
}.

Definition RCPermutation_new (len : nat) : run RCPermutation :=
  len ← to_u16 len;
  Ret {| virt_to_phys := seq 0 len; phys_to_virt := seq 0 len |}.

Definition perm_index (p : RCPermutation) (a : nat) : run nat := vget (virt_to_phys p) a.

Definition perm_swap (p : RCPermutation) (a b : nat) : run RCPermutation :=
  v2p ← vswap (virt_to_phys p) a b;
  x ← vget v2p a;
  y ← vget v2p b;
  p2v ← vswap (phys_to_virt p) x y;
  Ret {| virt_to_phys := v2p; phys_to_virt := p2v |}.

Record RCSwapMatrix := {
  mat : DenseMatrix;
  row_permutation : RCPermutation;
  column_permutation : RCPermutation;
}.

Definition from_dmatrix (mat : DenseMatrix) : run RCSwapMatrix :=
  row_permutation ← RCPermutation_new (nrows mat);
  column_permutation ← RCPermutation_new (ncols mat);
  Ret {| mat := mat; row_permutation := row_permutation; column_permutation := column_permutation |}.

Definition swap_rows (a : RCSwapMatrix) (i j : nat) : run RCSwapMatrix :=
  p ← perm_swap (row_permutation a) i j;
  Ret {| mat := mat a; row_permutation := p; column_permutation := column_permutation a |}.

Definition swap_columns (a : RCSwapMatrix) (i j : nat) : run RCSwapMatrix :=
  p ← perm_swap (column_permutation a) i j;
  Ret {| mat := mat a; row_permutation := row_permutation a; column_permutation := p |}.

Definition rc_index (a : RCSwapMatrix) (i j : nat) : run bool :=
  r ← perm_index (row_permutation a) i;
  c ← perm_index (column_permutation a) j;
  mindex (mat a) r c.

Definition row_sub_assign (a : RCSwapMatrix) (i j : nat) : run RCSwapMatrix :=
  a_phys ← perm_index (row_permutation a) i;
  b_phys ← perm_index (row_permutation a) j;
  m ← for_each (seq 0 (ncols (mat a))) (λ k m,
        x ← mindex m a_phys k;
        y ← mindex m b_phys k;
        mset m a_phys k (xorb x y)) (mat a);
  Ret {| mat := m; row_permutation := row_permutation a; column_permutation := column_permutation a |}.

(** ** Elimination

    [row_operation] is the closure of the caller, with its own state. *)

Section elimination.
Context {S : Type} (row_operation : S → nat → nat → run S).
Context (elimination_strategy_fn : RCSwapMatrix → nat → run (option (nat * nat))).

(** Subtract row [step] from every other row where necessary. *)
Definition clear_column (step : nat) (a : RCSwapMatrix) (s : S) : run (RCSwapMatrix * S) :=
  for_each (seq 0 (nrows (mat a))) (λ i '(a, s),
    b ← (if decide (i = step) then Ret false else rc_index a i step);
    if b : bool then
      a ← row_sub_assign a i step;
      x ← perm_index (row_permutation a) i;
      y ← perm_index (row_permutation a) step;
      s ← row_operation s x y;
      Ret (a, s)
    else Ret (a, s)) (a, s).

(** The steps of the outer loop; [Err] when no pivot is found.  The final matrix,
    which the source drops, is returned too. *)
Fixpoint elimination_steps (steps : list nat) (a : RCSwapMatrix) (s : S) :
    run (result () () * RCSwapMatrix * S) :=
  match steps with
  | [] => Ret (Ok (), a, s)
  | step :: steps =>
      pivot ← elimination_strategy_fn a step;
      match pivot with
      | None => Ret (Err (), a, s)
      | Some (row, col) =>
          a ← (if decide (row = step) then Ret a else swap_rows a row step);
          a ← (if decide (col = step) then Ret a else swap_columns a col step);
          '(a, s) ← clear_column step a s;
          elimination_steps steps a s
      end
  end.

Definition rowwise_elimination_schedule (self : DenseMatrix) (s : S) :
    run (result () () * RCSwapMatrix * S) :=
  assert (ncols self ≤ nrows self) ≫= λ _,
  a ← from_dmatrix self;
  elimination_steps (seq 0 (ncols self)) a s.
End elimination.

(** The weight of a row and its first column that is set. *)
Definition row_lead (a : RCSwapMatrix) (row : nat) : run (nat * option nat) :=
  for_each (seq 0 (ncols (mat a))) (λ col '(weight, lead_column),
    b ← rc_index a row col;
    Ret (if b : bool then
           (weight + 1, match lead_column with None => Some col | Some _ => lead_column end)
         else (weight, lead_column))) (0, None).

(** The row of least weight that is not zero. *)
Definition full_pivot (a : RCSwapMatrix) (step : nat) : run (option (nat * nat)) :=
  best ← for_each (S := option (nat * nat * nat)) (seq step (nrows (mat a) - step)) (λ row best,
    '(weight, lead_column) ← row_lead a row;
    if decide (weight = 0) then Ret best
    else
      lead_column ← expect lead_column;
      Ret (match best with
           | None => Some (row, weight, lead_column)
           | Some (_, best_weight, _) =>
               if decide (weight < best_weight) then Some (row, weight, lead_column) else best
           end)) None;
  Ret (match best with Some (row, _, lead_column) => Some (row, lead_column) | None => None end).

Definition rowwise_elimination_gaussian_full_pivot {S} (row_operation : S → nat → nat → run S)
    (self : DenseMatrix) (s : S) : run (result () () * RCSwapMatrix * S) :=
  rowwise_elimination_schedule row_operation full_pivot self s.

(** ** Entries *)

Definition mwf (m : DenseMatrix) : Prop := length (data m) = nrows m * ncols m.

Definition mget (m : DenseMatrix) (i j : nat) : bool := default false (data m !! (i * ncols m + j)).

Lemma index_inj n i j i' j' : j < n → j' < n → i * n + j = i' * n + j' → i = i' ∧ j = j'.
Proof.
  intros Hj Hj' He.
  assert ((i * n + j) / n = i) as H1 by (rewrite Nat.div_add_l, Nat.div_small by lia; lia).
  assert ((i' * n + j') / n = i') as H2 by (rewrite Nat.div_add_l, Nat.div_small by lia; lia).
  rewrite He, H2 in H1. subst i'. lia.
Qed.

Lemma index_lt n r i j : i < r → j < n → i * n + j < r * n.
Proof. intros Hi Hj. nia. Qed.

Lemma mindex_spec m i j : mwf m → i < nrows m → j < ncols m → mindex m i j = Ret (mget m i j).
Proof.
  intros Hm Hi Hj. unfold mindex, vget, mget.
  destruct (lookup_lt_is_Some_2 (data m) (i * ncols m + j)) as [b Hb].
  { rewrite Hm. by apply index_lt. }
  by rewrite Hb.
Qed.

Lemma mset_spec m i j b :
  mwf m → i < nrows m → j < ncols m →
  ∃ m', mset m i j b = Ret m' ∧ mwf m' ∧ nrows m' = nrows m ∧ ncols m' = ncols m ∧
    ∀ i' j', j' < ncols m → mget m' i' j' = if decide (i' = i ∧ j' = j) then b else mget m i' j'.
Proof.
  intros Hm Hi Hj. pose proof (index_lt (ncols m) (nrows m) i j Hi Hj) as Hlt. unfold mset.
  rewrite vset_Ret by by rewrite Hm. cbn [mbind run_bind]. eexists. split; [done|].
  split_and!; [|done|done|].
  - unfold mwf. cbn. by rewrite length_insert.
  - intros i' j' Hj'. unfold mget. cbn. case_decide as He.
    + destruct He as [-> ->]. rewrite list_lookup_insert_eq; [done|]. by rewrite Hm.
    + rewrite list_lookup_insert_ne; [done|]. intros Heq. apply index_inj in Heq as [-> ->]; [|done..]. by apply He.
Qed.

(** ** Permutations *)

Definition pix (p : RCPermutation) (i : nat) : nat := default 0 (virt_to_phys p !! i).

Record perm_ok (p : RCPermutation) (n : nat) : Prop := {
  po_v2p : length (virt_to_phys p) = n;
  po_p2v : length (phys_to_virt p) = n;
  po_range i : i < n → pix p i < n;
  po_inj i j : i < n → j < n → pix p i = pix p j → i = j;
}.

Lemma RCPermutation_new_spec n :
  (N.of_nat n ≤ u16_MAX)%N →
  ∃ p, RCPermutation_new n = Ret p ∧ perm_ok p n ∧ ∀ i, i < n → pix p i = i.
Proof.
  intros Hn. unfold RCPermutation_new. rewrite to_u16_Ret by done. cbn [mbind run_bind].
  assert (∀ i, i < n → default 0 (seq 0 n !! i) = i) as Hi.
  { intros i Hi. by rewrite lookup_seq_lt. }
  eexists. split; [done|]. split; [|exact Hi]. split; cbn; [by rewrite length_seq..| |].
  - intros i Hlt. unfold pix. cbn. rewrite Hi; done.
  - intros i j Hlt Hlt'. unfold pix. cbn. by rewrite !Hi.
Qed.

Lemma perm_index_spec p n i : perm_ok p n → i < n → perm_index p i = Ret (pix p i).
Proof.
  intros Hp Hi. unfold perm_index, vget, pix. destruct (lookup_lt_is_Some_2 (virt_to_phys p) i) as [x Hx].
  { by rewrite (po_v2p p n Hp). }
  by rewrite Hx.
Qed.

Lemma perm_swap_spec p n a b :
  perm_ok p n → a < n → b < n →
  ∃ p', perm_swap p a b = Ret p' ∧ perm_ok p' n ∧
    ∀ i, pix p' i = if decide (i = a) then pix p b else if decide (i = b) then pix p a else pix p i.
Proof.
  intros Hp Ha Hb. pose proof Hp as [H1 H2 H3 H4].
  destruct (lookup_lt_is_Some_2 (virt_to_phys p) a) as [x Hx]; [lia|].
  destruct (lookup_lt_is_Some_2 (virt_to_phys p) b) as [y Hy]; [lia|].
  assert (pix p a = x ∧ pix p b = y) as [Hpa Hpb] by (unfold pix; by rewrite Hx, Hy).
  set (v := <[b := x]> (<[a := y]> (virt_to_phys p))).
  assert (∀ i, default 0 (v !! i) = if decide (i = a) then y else if decide (i = b) then x else pix p i) as Hv.
  { intros i. unfold v. destruct (decide (i = b)) as [->|Hib].
    - rewrite list_lookup_insert_eq by (rewrite length_insert; lia). cbn.
      case_decide; [|done]. subst. congruence.
    - rewrite list_lookup_insert_ne by done. case_decide as Hia.
      + subst i. by rewrite list_lookup_insert_eq by lia.
      + by rewrite list_lookup_insert_ne. }
  assert (v !! a = Some y ∧ v !! b = Some x) as [Hva Hvb].
  { pose proof (Hv a) as Ea. pose proof (Hv b) as Eb. rewrite decide_True in Ea by done.
    destruct (lookup_lt_is_Some_2 v a) as [xa Hxa]; [unfold v; rewrite !length_insert; lia|].
    destruct (lookup_lt_is_Some_2 v b) as [xb Hxb]; [unfold v; rewrite !length_insert; lia|].
    rewrite Hxa in *. rewrite Hxb in *. cbn in *. split; [congruence|].
    f_equal. rewrite Eb. repeat case_decide; congruence. }
  assert (x < n ∧ y < n) as [Hxn Hyn] by (rewrite <- Hpa, <- Hpb; auto).
  unfold perm_swap. rewrite (vswap_Ret _ a b x y) by done. cbn [mbind run_bind]. fold v.
  rewrite !(proj2 (vget_Ret v _ _) Hva). cbn [mbind run_bind].
  rewrite !(proj2 (vget_Ret v _ _) Hvb). cbn [mbind run_bind].
  destruct (lookup_lt_is_Some_2 (phys_to_virt p) x) as [u Hux]; [lia|].
  destruct (lookup_lt_is_Some_2 (phys_to_virt p) y) as [w Hwy]; [lia|].
  rewrite (vswap_Ret _ y x w u) by done. cbn [mbind run_bind]. eexists. split; [done|].
  assert (∀ i, pix {| virt_to_phys := v; phys_to_virt := <[x := w]> (<[y := u]> (phys_to_virt p)) |} i =
    if decide (i = a) then pix p b else if decide (i = b) then pix p a else pix p i) as Hpix.
  { intros i. unfold pix at 1. cbn. by rewrite Hv, Hpa, Hpb. }
  split; [|done]. split.
  - cbn. unfold v. by rewrite !length_insert.
  - cbn. by rewrite !length_insert.
  - intros i Hi. rewrite Hpix. repeat case_decide; auto.
  - intros i j Hi Hj. rewrite !Hpix. intros He. repeat case_decide; subst; try done;
      apply H4 in He; try done; try lia; congruence.
Qed.

(** ** The permuted matrix *)

Section elimination_spec.
Context (R C : nat).
Implicit Types a : RCSwapMatrix.

Record rc_ok a : Prop := {
  rc_wf : mwf (mat a);
  rc_nrows : nrows (mat a) = R;
  rc_ncols : ncols (mat a) = C;
  rc_rows : perm_ok (row_permutation a) R;
  rc_cols : perm_ok (column_permutation a) C;
}.

Definition ent a (i j : nat) : bool :=
  mget (mat a) (pix (row_permutation a) i) (pix (column_permutation a) j).

Lemma rc_index_spec a i j : rc_ok a → i < R → j < C → rc_index a i j = Ret (ent a i j).
Proof.
  intros [Hw Hr Hc Hpr Hpc] Hi Hj. unfold rc_index.
  rewrite (perm_index_spec (row_permutation a) R) by done. cbn [mbind run_bind].
  rewrite (perm_index_spec _ C) by done. cbn [mbind run_bind].
  apply mindex_spec; [done|rewrite Hr; by apply Hpr|rewrite Hc; by apply Hpc].
Qed.

Lemma row_sub_assign_spec a i j :
  rc_ok a → i < R → j < R → i ≠ j →
  ∃ a', row_sub_assign a i j = Ret a' ∧ rc_ok a' ∧
    row_permutation a' = row_permutation a ∧ column_permutation a' = column_permutation a ∧
    let x := pix (row_permutation a) i in let y := pix (row_permutation a) j in
    ∀ i' c, c < C → mget (mat a') i' c =
      if decide (i' = x) then xorb (mget (mat a) x c) (mget (mat a) y c) else mget (mat a) i' c.
Proof.
  intros [Hw Hr Hc Hpr Hpc] Hi Hj Hij. unfold row_sub_assign.
  rewrite !(perm_index_spec _ R) by done. cbn [mbind run_bind].
  set (x := pix (row_permutation a) i). set (y := pix (row_permutation a) j).
  assert (x < R ∧ y < R ∧ x ≠ y) as (Hx & Hy & Hxy).
  { split_and!; [by apply Hpr|by apply Hpr|]. intros He. by apply Hij, (po_inj _ _ Hpr). }
  destruct (for_seq_spec (λ k m, mwf m ∧ nrows m = R ∧ ncols m = C ∧ ∀ i' c, c < C → mget m i' c =
    if decide (i' = x ∧ c < k) then xorb (mget (mat a) x c) (mget (mat a) y c) else mget (mat a) i' c)
    0 C (λ k m, b1 ← mindex m x k; b2 ← mindex m y k; mset m x k (xorb b1 b2)) (mat a))
    as (m & Hrun & Hw' & Hr' & Hc' & Hm).
  - split_and!; [done|done|done|]. intros i' c Hcc. rewrite decide_False by lia. done.
  - intros k m Hk (Hw' & Hr' & Hc' & Hm). rewrite !mindex_spec by (done || lia). cbn [mbind run_bind].
    destruct (mset_spec m x k (xorb (mget m x k) (mget m y k))) as (m' & -> & Hw2 & Hr2 & Hc2 & Hm2);
      [done|lia|lia|].
    exists m'. split_and!; [done|done|congruence|congruence|]. intros i' c Hcc. rewrite Hm2 by lia.
    rewrite !Hm by lia. rewrite (decide_False (P := x = x ∧ _)) by lia.
    rewrite (decide_False (P := y = x ∧ _)) by (intros [??]; congruence).
    destruct (decide (i' = x)) as [->|Hne].
    + destruct (decide (c = k)) as [->|Hck]; [rewrite !decide_True by lia; done|].
      rewrite decide_False by (intros [_ ?]; done).
      destruct (decide (c < k)); [rewrite !decide_True by lia; done|rewrite !decide_False by lia; done].
    + rewrite !decide_False by (intros [??]; done). done.
  - rewrite Hc. rewrite Hrun. cbn [mbind run_bind]. eexists. split; [done|].
    split_and!; [by split|done|done|]. cbn. intros i' c Hcc. rewrite Hm by done.
    destruct (decide (i' = x)) as [->|]; [by rewrite decide_True by lia|].
    by rewrite decide_False by (intros [??]; done).
Qed.

(** The first [k] columns are those of the identity. *)
Definition reduced a (k : nat) : Prop := ∀ i c, i < R → c < k → ent a i c = bool_decide (i = c).

Lemma swap_rows_spec a i j :
  rc_ok a → i < R → j < R →
  ∃ a', swap_rows a i j = Ret a' ∧ rc_ok a' ∧ mat a' = mat a ∧
    ∀ r c, ent a' r c = ent a (if decide (r = i) then j else if decide (r = j) then i else r) c.
Proof.
  intros [Hw Hr Hc Hpr Hpc] Hi Hj. unfold swap_rows.
  destruct (perm_swap_spec _ _ _ _ Hpr Hi Hj) as (p & -> & Hp & Hix). cbn [mbind run_bind].
  eexists. split; [done|]. split_and!; [by split|done|]. intros r c. unfold ent. cbn. rewrite Hix.
  by repeat case_decide.
Qed.

Lemma swap_columns_spec a i j :
  rc_ok a → i < C → j < C →
  ∃ a', swap_columns a i j = Ret a' ∧ rc_ok a' ∧ mat a' = mat a ∧
    ∀ r c, ent a' r c = ent a r (if decide (c = i) then j else if decide (c = j) then i else c).
Proof.
  intros [Hw Hr Hc Hpr Hpc] Hi Hj. unfold swap_columns.
  destruct (perm_swap_spec _ _ _ _ Hpc Hi Hj) as (p & -> & Hp & Hix). cbn [mbind run_bind].
  eexists. split; [done|]. split_and!; [by split|done|]. intros r c. unfold ent. cbn. rewrite Hix.
  by repeat case_decide.
Qed.

(** Moving a pivot to the diagonal. *)
Lemma place_pivot a k row col :
  rc_ok a → reduced a k → k ≤ row < R → k ≤ col < C → k < R → k < C → ent a row col = true →
  ∃ a1 a2, (if decide (row = k) then Ret a else swap_rows a row k) = Ret a1 ∧
    (if decide (col = k) then Ret a1 else swap_columns a1 col k) = Ret a2 ∧
    rc_ok a2 ∧ mat a2 = mat a ∧ reduced a2 k ∧ ent a2 k k = true.
Proof.
  intros Ha Hred Hrow Hcol HkR HkC Hpiv.
  assert (∃ a1, (if decide (row = k) then Ret a else swap_rows a row k) = Ret a1 ∧ rc_ok a1 ∧
    mat a1 = mat a ∧ reduced a1 k ∧ ent a1 k col = true) as (a1 & -> & Ha1 & Hm1 & Hred1 & Hp1).
  { case_decide as He; [subst; by exists a|].
    destruct (swap_rows_spec a row k) as (a1 & -> & Ha1 & Hm1 & He1); [done|lia|lia|].
    exists a1. split_and!; [done|done|done| |].
    - intros i c Hi Hc. rewrite He1. repeat case_decide; subst; rewrite Hred by lia;
        apply bool_decide_ext; lia.
    - rewrite He1. rewrite decide_False, decide_True by done. done. }
  assert (∃ a2, (if decide (col = k) then Ret a1 else swap_columns a1 col k) = Ret a2 ∧ rc_ok a2 ∧
    mat a2 = mat a1 ∧ reduced a2 k ∧ ent a2 k k = true) as (a2 & Hrun2 & Ha2 & Hm2 & Hred2 & Hp2).
  { case_decide as He; [subst; by exists a1|].
    destruct (swap_columns_spec a1 col k) as (a2 & -> & Ha2 & Hm2 & He2); [done|lia|lia|].
    exists a2. split_and!; [done|done|done| |].
    - intros i c Hi Hc. rewrite He2. rewrite !decide_False by lia. by apply Hred1.
    - rewrite He2. rewrite decide_False, decide_True by done. done. }
  exists a1, a2. split_and!; [done|done|done|congruence|done|done].
Qed.

(** ** Pivots *)

Lemma row_lead_spec a row :
  rc_ok a → row < R →
  ∃ w lead, row_lead a row = Ret (w, lead) ∧
    match lead with
    | Some c => 0 < w ∧ c < C ∧ ent a row c = true
    | None => w = 0 ∧ ∀ c, c < C → ent a row c = false
    end.
Proof.
  intros Ha Hrow. unfold row_lead. rewrite (rc_ncols a Ha).
  destruct (for_seq_spec (λ k (s : nat * option nat), match s.2 with
    | Some c => 0 < s.1 ∧ c < C ∧ ent a row c = true
    | None => s.1 = 0 ∧ ∀ c, c < k → ent a row c = false end) 0 C
    (λ col '(weight, lead_column),
      b ← rc_index a row col;
      Ret (if b : bool then
             (weight + 1, match lead_column with None => Some col | Some _ => lead_column end)
           else (weight, lead_column))) (0, None)) as ([w lead] & Hrun & HI).
  - cbn. split; [done|lia].
  - intros c [w lead] Hc HI. rewrite rc_index_spec by (done || lia). cbn [mbind run_bind]. cbn in HI.
    eexists. split; [done|]. destruct (ent a row c) eqn:Hb, lead as [c'|]; cbn.
    + destruct HI as (? & ? & ?). split_and!; [lia|done|done].
    + split_and!; [lia|lia|done].
    + done.
    + destruct HI as [-> HI]. split; [done|]. intros c' Hc'. destruct (decide (c' = c)) as [->|]; [done|].
      apply HI. lia.
  - exists w, lead. split; [done|]. done.
Qed.

Lemma full_pivot_spec a k :
  rc_ok a → k ≤ R →
  ∃ o, full_pivot a k = Ret o ∧
    match o with
    | Some (row, col) => k ≤ row < R ∧ col < C ∧ ent a row col = true
    | None => ∀ i c, k ≤ i < R → c < C → ent a i c = false
    end.
Proof.
  intros Ha Hk. unfold full_pivot. rewrite (rc_nrows a Ha).
  destruct (for_seq_spec (λ r (best : option (nat * nat * nat)), match best with
    | Some (row, _, col) => k ≤ row < R ∧ col < C ∧ ent a row col = true
    | None => ∀ i c, k ≤ i < r → c < C → ent a i c = false end) k (R - k)
    (λ row best,
      '(weight, lead_column) ← row_lead a row;
      if decide (weight = 0) then Ret best
      else
        lead_column ← expect lead_column;
        Ret (match best with
             | None => Some (row, weight, lead_column)
             | Some (_, best_weight, _) =>
                 if decide (weight < best_weight) then Some (row, weight, lead_column) else best
             end)) None) as (best & -> & HI).
  - intros i c. lia.
  - intros r best Hr HI. destruct (row_lead_spec a r) as (w & lead & -> & Hl); [done|lia|].
    cbn [mbind run_bind]. destruct lead as [c|].
    + destruct Hl as (Hw & Hc & He). rewrite decide_False by lia. cbn [mbind run_bind expect].
      eexists. split; [done|]. destruct best as [[[row bw] col]|]; [|split_and!; lia || done].
      case_decide; [split_and!; lia || done|done].
    + destruct Hl as [-> Hl]. rewrite decide_True by done. eexists. split; [done|].
      destruct best as [[[row bw] col]|]; [done|]. intros i c Hi Hc.
      destruct (decide (i = r)) as [->|]; [by apply Hl|]. apply HI; lia.
  - cbn [mbind run_bind]. eexists. split; [done|]. destruct best as [[[row bw] col]|]; [done|].
    intros i c Hi Hc. apply HI; lia.
Qed.

(** ** The schedule

    The caller keeps a relation between its state and the matrix: each reported
    operation adds row [y] to row [x]. *)
Section schedule.
Context {S : Type} (row_operation : S → nat → nat → run S).
Context (Rel : S → (nat → nat → bool) → Prop).

Definition add_row (F : nat → nat → bool) (x y : nat) : nat → nat → bool :=
  λ i j, if decide (i = x) then xorb (F x j) (F y j) else F i j.

Context (Hext : ∀ s F G, (∀ i j, i < R → j < C → F i j = G i j) → Rel s F → Rel s G).
Context (Hop : ∀ s F x y, x < R → y < R → x ≠ y → Rel s F →
  ∃ s', row_operation s x y = Ret s' ∧ Rel s' (add_row F x y)).

Lemma clear_column_spec k a s :
  rc_ok a → C ≤ R → k < C → reduced a k → ent a k k = true → Rel s (mget (mat a)) →
  ∃ a' s', clear_column row_operation k a s = Ret (a', s') ∧ rc_ok a' ∧ reduced a' (Datatypes.S k) ∧
    Rel s' (mget (mat a')).
Proof.
  intros Ha HRC Hk Hred Hpiv HRel. unfold clear_column. rewrite (rc_nrows a Ha).
  set (body := λ i '(a, s), _).
  destruct (for_seq_spec (λ r (st : RCSwapMatrix * S), let '(a', s') := st in
    rc_ok a' ∧ reduced a' k ∧ Rel s' (mget (mat a')) ∧
    (∀ c, c < C → ent a' k c = ent a k c) ∧ (∀ i, i < r → i < R → ent a' i k = bool_decide (i = k)))
    0 R body (a, s)) as ([a' s'] & -> & Ha' & Hred' & HRel' & Hrow & Hcol).
  - split_and!; [done|done|done|done|lia].
  - intros i [a1 s1] Hi (Ha1 & Hred1 & HRel1 & Hrow1 & Hcol1). subst body. cbn beta iota.
    assert (k < R) as HkR by lia.
    assert (ent a1 k k = true) as Hp1 by by rewrite Hrow1.
    destruct (decide (i = k)) as [->|Hik].
    { cbn [mbind run_bind]. eexists. split; [done|]. cbn beta iota. split_and!; try done.
      intros i Hi' Hi''. destruct (decide (i = k)) as [->|]; [by rewrite Hp1, bool_decide_true|].
      apply Hcol1; lia. }
    rewrite (rc_index_spec a1 i k) by (done || lia). cbn [mbind run_bind].
    destruct (ent a1 i k) eqn:Hik1.
    2: { eexists. split; [done|]. cbn beta iota. split_and!; try done. intros i' Hi' Hi''.
         destruct (decide (i' = i)) as [->|]; [by rewrite Hik1, bool_decide_false|]. apply Hcol1; lia. }
    destruct (row_sub_assign_spec a1 i k) as (a2 & -> & Ha2 & Hpr2 & Hpc2 & Hm2); [done|lia|done|done|].
    cbn [mbind run_bind]. rewrite Hpr2. pose proof (rc_rows a1 Ha1) as Hpr1.
    pose proof (rc_cols a1 Ha1) as Hpc1.
    rewrite !(perm_index_spec _ R) by (done || lia). cbn [mbind run_bind].
    set (x := pix (row_permutation a1) i) in *. set (y := pix (row_permutation a1) k) in *.
    assert (x ≠ y) as Hxy by (intros He; apply Hik, (po_inj _ _ Hpr1); [lia|lia|exact He]).
    destruct (Hop s1 (mget (mat a1)) x y) as (s2 & -> & HRel2);
      [apply Hpr1; lia|by apply Hpr1|done|done|].
    cbn [mbind run_bind]. eexists. split; [done|]. cbn beta iota.
    assert (∀ r c, r < R → c < C → ent a2 r c = if decide (r = i) then xorb (ent a1 i c) (ent a1 k c) else ent a1 r c)
      as Hent.
    { intros r c Hr Hc. unfold ent. rewrite Hpr2, Hpc2. rewrite Hm2 by by apply Hpc1.
      destruct (decide (r = i)) as [->|Hri]; [by rewrite decide_True|].
      rewrite decide_False; [done|]. intros He. apply Hri. apply (po_inj _ _ Hpr1); [done|lia|done]. }
    assert (∀ c, c < k → ent a1 k c = false) as Hzero.
    { intros c Hc. rewrite Hred1 by lia. apply bool_decide_false. lia. }
    split_and!; [done| | | |].
    + intros r c Hr Hc. rewrite Hent by lia. case_decide as He; [subst r|by apply Hred1].
      rewrite Hzero by done. rewrite xorb_false_r. by apply Hred1.
    + eapply Hext; [|exact HRel2]. intros r c Hr Hc. unfold add_row. by rewrite Hm2.
    + intros c Hc. rewrite Hent by lia. rewrite decide_False by auto. by apply Hrow1.
    + intros r Hr HrR. rewrite Hent by lia. case_decide as He.
      * subst r. rewrite Hik1, Hp1. by rewrite bool_decide_false.
      * apply Hcol1; lia.
  - exists a', s'. split_and!; [done|done| |done]. intros r c Hr Hc.
    destruct (decide (c = k)) as [->|]; [by apply Hcol|]. apply Hred'; lia.
Qed.

Lemma elimination_steps_spec n k a s :
  rc_ok a → C ≤ R → k + n = C → reduced a k → Rel s (mget (mat a)) →
  ∃ r a' s' t, elimination_steps row_operation full_pivot (seq k n) a s = Ret (r, a', s') ∧
    rc_ok a' ∧ k ≤ t ≤ C ∧ reduced a' t ∧ Rel s' (mget (mat a')) ∧
    (∀ i c, t ≤ i < R → c < C → ent a' i c = false) ∧
    ((∃ i c, k ≤ i < R ∧ c < C ∧ ent a i c = true) → k < t).
Proof.
  revert k a s. induction n as [|n IH]; intros k a s Ha HRC Hkn Hred HRel; cbn [seq elimination_steps].
  { eexists _, a, s, k. split_and!; [done|done|lia|lia|done|done| |].
    - intros i c Hi Hc. rewrite Hred by lia. apply bool_decide_false. lia.
    - intros (i & c & Hi & Hc & He). rewrite Hred in He by lia.
      apply bool_decide_eq_true in He. lia. }
  destruct (full_pivot_spec a k Ha ltac:(lia)) as (o & -> & Ho). cbn [mbind run_bind].
  destruct o as [[row col]|].
  2: { eexists _, a, s, k. split_and!; [done|done|lia|lia|done|done|done|].
       intros (i & c & Hi & Hc & He). by rewrite Ho in He. }
  destruct Ho as (Hrow & Hcol & Hpiv).
  assert (k ≤ col) as Hkc.
  { destruct (decide (col < k)) as [Hlt|]; [|lia]. rewrite Hred in Hpiv by lia.
    apply bool_decide_eq_true in Hpiv. lia. }
  destruct (place_pivot a k row col) as (a1 & a2 & -> & Hrun2 & Ha2 & Hm2 & Hred2 & Hp2);
    [done|done|done|lia|lia|lia|done|].
  cbn [mbind run_bind]. rewrite Hrun2. cbn [mbind run_bind].
  destruct (clear_column_spec k a2 s) as (a3 & s3 & -> & Ha3 & Hred3 & HRel3);
    [done|done|lia|done|done|by rewrite Hm2|].
  cbn [mbind run_bind].
  destruct (IH (Datatypes.S k) a3 s3) as (r & a' & s' & t & -> & Ha' & Ht & Hred' & HRel' & Hz & _);
    [done|done|lia|done|done|].
  exists r, a', s', t. split_and!; [done|done|lia|lia|done|done|done|]. intros _. lia.
Qed.

(** The whole elimination of a matrix that has an entry set: the rows end as the
    unit vectors of [t] columns, extended in the other columns, and zero. *)
Lemma full_pivot_elimination m s :
  mwf m → nrows m = R → ncols m = C → C ≤ R → (N.of_nat R ≤ u16_MAX)%N → Rel s (mget m) →
  (∃ i c, i < R ∧ c < C ∧ mget m i c = true) →
  ∃ r a s' t, rowwise_elimination_gaussian_full_pivot row_operation m s = Ret (r, a, s') ∧
    rc_ok a ∧ 0 < t ≤ C ∧ reduced a t ∧ Rel s' (mget (mat a)) ∧
    ∀ i c, t ≤ i < R → c < C → ent a i c = false.
Proof.
  intros Hm Hr Hc HRC Hu HRel (i & c & Hi & Hcc & He).
  unfold rowwise_elimination_gaussian_full_pivot, rowwise_elimination_schedule.
  rewrite assert_true by lia. cbn [mbind run_bind]. unfold from_dmatrix. rewrite Hr, Hc.
  destruct (RCPermutation_new_spec R Hu) as (pr & -> & Hpr & Hpri). cbn [mbind run_bind].
  destruct (RCPermutation_new_spec C) as (pc & -> & Hpc & Hpci); [lia|]. cbn [mbind run_bind].
  destruct (elimination_steps_spec C 0
    {| mat := m; row_permutation := pr; column_permutation := pc |} s)
    as (r & a & s' & t & Hrun & Ha & Ht & Hred & HRel' & Hz & Hpos); [by split|done|done| |done|].
  { intros ? ? ?. lia. }
  exists r, a, s', t. split_and!; [done|done| |lia|done|done|done]. apply Hpos. exists i, c.
  split_and!; [lia|lia|done|]. unfold ent. cbn. by rewrite Hpri, Hpci.
Qed.
End schedule.
End elimination_spec.

Lemma from_fn_spec R C f (g : nat → nat → bool) :
  (∀ i j, i < R → j < C → f i j = Ret (g i j)) →
  ∃ m, from_fn R C f = Ret m ∧ mwf m ∧ nrows m = R ∧ ncols m = C ∧
    ∀ i j, i < R → j < C → mget m i j = g i j.
Proof.
  intros Hf. unfold from_fn.
  set (filled := λ i j (d : list bool), length d = i * C + j ∧
    ∀ i' j', i' < i ∧ j' < C ∨ i' = i ∧ j' < j → d !! (i' * C + j') = Some (g i' j')).
  destruct (for_seq_spec (λ i d, filled i 0 d) 0 R
    (λ i, for_each (seq 0 C) (λ j data, b ← f i j; Ret (data ++ [b]))) []) as (d & Hrun & Hd).
  - split; [done|]. lia.
  - intros i d Hi Hd.
    destruct (for_seq_spec (λ j d, j ≤ C → filled i j d) 0 C (λ j data, b ← f i j; Ret (data ++ [b])) d)
      as (d' & Hrun & Hd'); [by intros _| |].
    + intros j d1 Hj Hd1. rewrite Hf by lia. cbn [mbind run_bind]. eexists. split; [done|]. intros _.
      destruct Hd1 as [Hlen Hget]; [lia|]. split; [rewrite length_app; cbn; lia|].
      intros i' j' Hij. destruct (decide (i' = i ∧ j' = j)) as [[-> ->]|Hne].
      * rewrite <- Hlen. rewrite lookup_app_r, Nat.sub_diag by lia. done.
      * rewrite lookup_app_l; [apply Hget; lia|]. rewrite Hlen. nia.
    + exists d'. split; [done|]. destruct Hd' as [Hlen Hget]; [lia|]. split; [lia|]. intros i' j' Hij.
      apply Hget. lia.
  - rewrite Hrun. cbn [mbind run_bind]. eexists. split; [done|]. destruct Hd as [Hlen Hget].
    split_and!; [unfold mwf; cbn; lia|done|done|]. intros i j Hi Hj. unfold mget. cbn.
    rewrite Hget by lia. done.
Qed.
