(* ===== verification/RaptorParams.v ===== *)
(** * The R10 code ([src/raptor/src/r10]: [parameters.rs], [ldpc.rs], [half.rs],
    [degree.rs], [rand.rs], [lt.rs])

    The parameters of the code for a number of source symbols, the elements of
    its precode matrices, and the intermediate symbols each encoding symbol
    combines.  The parameters exist for every number of source symbols in range,
    every loop ends, and the symbols of a row are distinct and in range. *)
From Stdlib Require Znumtheory.
From S2P Require Import Prelude RaptorSet RaptorTables.

(** ** Parameters *)

Record CodeParameters := {
  num_source_symbols : nat;
  num_ldpc_symbols : nat;
  num_half_symbols : nat;
  num_intermediate_symbols : nat;
  num_intermediate_symbols_prime : nat;
  systematic_index : N;
}.

Definition SOURCE_SYMBOLS_MIN : nat := 1.
Definition SOURCE_SYMBOLS_MAX : nat := N.to_nat 8192.

Definition X_MIN : nat := 4.
Definition X_MAX : nat := 129.

(** Error messages are not modelled. *)
Definition determine_x (num_source_symbols : nat) : run (result nat ()) :=
  o ← smallest_integer_satisfying X_MIN (X_MAX + 1)
        (λ pivot, Ret (bool_decide (2 * num_source_symbols ≤ pivot * (pivot - 1))));
  Ret (ok_or o ()).

Definition smallest_prime_greater_or_equal (prime_min : nat) : run (result nat ()) :=
  o ← smallest_integer_satisfying 0 (length SMALL_PRIMES)
        (λ pivot, p ← vget SMALL_PRIMES pivot; Ret (bool_decide (N.of_nat prime_min ≤ p)%N));
  match o with
  | None => Ret (Err ())
  | Some index => p ← vget SMALL_PRIMES index; Ret (Ok (N.to_nat p))
  end.

(** [u16::div_ceil] *)
Definition div_ceil (a b : nat) : nat := (a + b - 1) / b.

Definition determine_num_ldpc_symbols (num_source_symbols x : nat) : run (result nat ()) :=
  smallest_prime_greater_or_equal (div_ceil num_source_symbols 100 + x).

(** The products are 32-bit. *)
Definition choose (n k : nat) : N :=
  let c := foldl (λ c val, (c * N.of_nat val) `mod` 2 ^ 32)%N 1%N (seq (k + 1) (n - k)) in
  foldl (λ c val, c / N.of_nat val)%N c (seq 2 (n - k - 1)).

Definition HALF_MIN : nat := 5.
Definition HALF_MAX : nat := 16.

Definition determine_num_half_symbols (num_source_symbols num_ldpc_symbols : nat) :
    run (result nat ()) :=
  o ← smallest_integer_satisfying HALF_MIN (HALF_MAX + 1) (λ pivot,
        c ← to_u16 (N.to_nat (choose pivot (div_ceil pivot 2)));
        Ret (bool_decide (num_source_symbols + num_ldpc_symbols ≤ c)));
  Ret (ok_or o ()).

Definition determine_systematic_index (num_source_symbols : nat) : result N () :=
  ok_or (SYSTEMATIC_INDEX !! (num_source_symbols - SOURCE_SYMBOLS_MIN)) ().

Definition CodeParameters_new (num_source_symbols : nat) : run (result CodeParameters ()) :=
  if decide (SOURCE_SYMBOLS_MIN ≤ num_source_symbols ≤ SOURCE_SYMBOLS_MAX) then
    x ←? determine_x num_source_symbols;
    num_ldpc_symbols ←? determine_num_ldpc_symbols num_source_symbols x;
    num_half_symbols ←? determine_num_half_symbols num_source_symbols num_ldpc_symbols;
    let num_intermediate_symbols := num_source_symbols + num_ldpc_symbols + num_half_symbols in
    num_intermediate_symbols_prime ←? smallest_prime_greater_or_equal num_intermediate_symbols;
    systematic_index ←? Ret (determine_systematic_index num_source_symbols);
    Ret (Ok {| num_source_symbols := num_source_symbols; num_ldpc_symbols := num_ldpc_symbols;
               num_half_symbols := num_half_symbols;
               num_intermediate_symbols := num_intermediate_symbols;
               num_intermediate_symbols_prime := num_intermediate_symbols_prime;
               systematic_index := systematic_index |})
  else Ret (Err ()).

(** ** Precode *)

(** The divisors of the source are [num_ldpc_symbols] and one less. *)
Definition ldpc_triple (p : CodeParameters) (source_symbol : nat) : run (nat * nat * nat) :=
  assert (1 < num_ldpc_symbols p) ≫= λ _,
  let a := 1 + (source_symbol / num_ldpc_symbols p) `mod` (num_ldpc_symbols p - 1) in
  let b1 := source_symbol `mod` num_ldpc_symbols p in
  let b2 := (b1 + a) `mod` num_ldpc_symbols p in
  let b3 := (b2 + a) `mod` num_ldpc_symbols p in
  Ret (b1, b2, b3).

(** [set_element] is the closure of the caller, with its own state. *)
Definition g_ldpc {S} (p : CodeParameters) (set_element : nat → nat → S → run S) (s : S) : run S :=
  for_each (seq 0 (num_source_symbols p)) (λ i s,
    '(b1, b2, b3) ← ldpc_triple p i;
    for_each (merge_sort le [b1; b2; b3]) (λ el s, set_element el i s) s) s.

Fixpoint pos_count_ones (p : positive) : nat :=
  match p with
  | xH => 1
  | xO p => pos_count_ones p
  | xI p => S (pos_count_ones p)
  end.

Definition count_ones (n : N) : nat := match n with N0 => 0 | Npos p => pos_count_ones p end.

Definition gray (i : N) : N := N.lxor i (N.shiftr i 1).

(** The closure [m_next]: the next Gray code of the weight, and the counter. *)
Fixpoint m_next (fuel h_prime : nat) (i : N) : run (N * N) :=
  match fuel with
  | 0 => Panic
  | S fuel =>
      if decide (count_ones (gray i) = h_prime) then Ret (gray i, (i + 1)%N)
      else m_next fuel h_prime (i + 1)
  end.

Definition g_half {S} (p : CodeParameters) (set_element : nat → nat → S → run S) (s : S) : run S :=
  let h_prime := (num_half_symbols p + 1) / 2 in
  '(_, s) ← for_each (seq 0 (num_source_symbols p + num_ldpc_symbols p)) (λ j '(i, s),
    '(m, i) ← m_next (2 ^ num_half_symbols p) h_prime i;
    s ← for_each (seq 0 (num_half_symbols p)) (λ h s,
      if decide (N.land m (N.shiftl 1 (N.of_nat h)) ≠ 0%N) then set_element h j s else Ret s) s;
    Ret (i, s)) (0%N, s);
  Ret s.

(** ** Encoding symbols *)

Definition MAX_DEGREE : nat := 40.

Definition deg (v : N) : run nat :=
  if decide (v ≤ 10240)%N then Ret 1
  else if decide (v ≤ 491581)%N then Ret 2
  else if decide (v ≤ 712793)%N then Ret 3
  else if decide (v ≤ 831694)%N then Ret 4
  else if decide (v ≤ 948445)%N then Ret 10
  else if decide (v ≤ 1032188)%N then Ret 11
  else if decide (v ≤ 1048575)%N then Ret 40
  else Panic.

Definition rand (x i m : N) : run N :=
  let v0_index := N.land (x + i) 255 in
  let v1_index := N.land (N.shiftr x 8 + i) 255 in
  v0 ← vget V0 (N.to_nat v0_index);
  v1 ← vget V1 (N.to_nat v1_index);
  assert (m ≠ 0%N) ≫= λ _,
  Ret (N.lxor v0 v1 `mod` m)%N.

Definition MAX_TRIPLES : nat := N.to_nat 65521.

Definition trip (p : CodeParameters) (encoding_symbol_id : nat) : run (nat * nat * nat) :=
  assert (encoding_symbol_id < MAX_TRIPLES) ≫= λ _,
  let q := 65521%N in
  let a := ((53591 + systematic_index p * 997) `mod` q)%N in
  let b := ((10267 * (systematic_index p + 1)) `mod` q)%N in
  let y := ((b + N.of_nat encoding_symbol_id * a) `mod` q)%N in
  v ← rand y 0 (N.shiftl 1 20);
  d ← deg v;
  let l_prime := N.of_nat (num_intermediate_symbols_prime p) in
  a ← rand y 1 (l_prime - 1);
  b ← rand y 2 l_prime;
  a ← to_u16 (N.to_nat (1 + a));
  b ← to_u16 (N.to_nat b);
  Ret (d, a, b).

(** [while b >= num_intermediate_symbols] *)
Fixpoint lt_skip (fuel : nat) (p : CodeParameters) (a b : nat) : run nat :=
  match fuel with
  | 0 => Panic
  | S fuel =>
      if decide (num_intermediate_symbols p ≤ b)
      then lt_skip fuel p a ((b + a) `mod` num_intermediate_symbols_prime p)
      else Ret b
  end.

Fixpoint lt_fill (n : nat) (p : CodeParameters) (a b : nat) : run (list nat) :=
  match n with
  | 0 => Ret []
  | S n =>
      b ← lt_skip (S (num_intermediate_symbols_prime p)) p a b;
      rest ← lt_fill n p a ((b + a) `mod` num_intermediate_symbols_prime p);
      Ret (b :: rest)
  end.

Definition lt_symbols (p : CodeParameters) (encoding_symbol_id : nat) : run (list nat) :=
  encoding_symbol_id ← to_u16 encoding_symbol_id;
  '(d, a, b) ← trip p encoding_symbol_id;
  let num_symbols := d `min` num_intermediate_symbols p in
  symbols ← lt_fill num_symbols p a b;
  Ret (merge_sort le symbols).

Definition lt_sequence_op {S} (p : CodeParameters) (encoding_symbol_id : nat)
    (set_element : nat → S → run S) (s : S) : run S :=
  symbols ← lt_symbols p encoding_symbol_id;
  for_each symbols set_element s.

(** ** Facts of the tables *)

(** Trial division. *)
Definition is_prime_up_to (bound : nat) (n : N) : bool :=
  (1 <? n)%N && forallb (λ d, (n <=? N.of_nat d)%N || negb (n `mod` N.of_nat d =? 0)%N) (seq 2 bound).

Lemma is_prime_up_to_spec bound n :
  is_prime_up_to bound n = true → (n < N.of_nat (bound + 2) * N.of_nat (bound + 2))%N →
  Znumtheory.prime (Z.of_N n).
Proof.
  unfold is_prime_up_to. rewrite andb_true_iff, N.ltb_lt, forallb_forall. intros [Hn Hd] Hsq.
  assert (∀ d, (2 ≤ d)%Z → (d * d ≤ Z.of_N n)%Z → ¬ (d | Z.of_N n)%Z) as Hsmall.
  { intros d Hd2 Hdd Hdiv. assert (Z.to_nat d ∈ seq 2 bound) as Hin%list_elem_of_In.
    { apply elem_of_seq. nia. }
    specialize (Hd _ Hin). apply orb_true_iff in Hd as [Hd|Hd]; [apply N.leb_le in Hd; nia|].
    apply negb_true_iff, N.eqb_neq in Hd. apply Hd.
    rewrite Z_nat_N. apply Z.mod_divide in Hdiv; [|lia].
    apply N2Z.inj. rewrite N2Z.inj_mod, Z2N.id by lia. done. }
  apply Znumtheory.prime_alt. split; [lia|]. intros d Hd1 [e He].
  destruct (decide (d * d ≤ Z.of_N n)%Z) as [Hle|Hgt].
  - apply (Hsmall d); [lia|done|]. by exists e.
  - apply (Hsmall e); [nia|nia|]. exists d. lia.
Qed.

Definition primes_table_ok (table : list N) : bool :=
  forallb (λ p, is_prime_up_to 98 p && (p <=? 8419)%N) table &&
  bool_decide (Sorted N.lt table) && (length table =? 1052) &&
  bool_decide (table !! 46 = Some 211%N) && bool_decide (table !! 1051 = Some 8419%N).

Lemma primes_table_spec table :
  primes_table_ok table = true →
  (∀ p, p ∈ table → Znumtheory.prime (Z.of_N p) ∧ (p ≤ 8419)%N) ∧
  (∀ i j p q, table !! i = Some p → table !! j = Some q → i ≤ j → (p ≤ q)%N) ∧
  length table = 1052 ∧ table !! 46 = Some 211%N ∧ table !! 1051 = Some 8419%N.
Proof.
  unfold primes_table_ok. rewrite !andb_true_iff.
  intros [[[[Hok Hs%bool_decide_eq_true] Hlen%Nat.eqb_eq] H46%bool_decide_eq_true]
    H1051%bool_decide_eq_true]. split_and!; [| |done..].
  - rewrite forallb_forall in Hok. intros p Hp%list_elem_of_In. specialize (Hok p Hp).
    apply andb_true_iff in Hok as [Hprime Hle%N.leb_le]. split; [|done].
    apply (is_prime_up_to_spec 98); [done|lia].
  - apply Sorted_StronglySorted in Hs; [|intros ???; lia].
    intros i j p q Hi Hj Hij. destruct (decide (i = j)) as [->|]; [simplify_eq; lia|].
    pose proof (sorted_lookup _ _ _ _ _ _ Hs Hi Hj). lia.
Qed.

Lemma SMALL_PRIMES_ok : primes_table_ok SMALL_PRIMES = true.
Proof. vm_compute. reflexivity. Qed.

Lemma SYSTEMATIC_INDEX_length : length SYSTEMATIC_INDEX = N.to_nat 8192.
Proof. vm_compute. reflexivity. Qed.

Opaque SMALL_PRIMES SYSTEMATIC_INDEX.

Lemma smallest_prime_spec n :
  n ≤ N.to_nat 8419 →
  ∃ q, smallest_prime_greater_or_equal n = Ret (Ok q) ∧ Znumtheory.prime (Z.of_nat q) ∧
    n ≤ q ≤ N.to_nat 8419 ∧ (n ≤ 211 → q ≤ 211).
Proof.
  intros Hn. destruct (primes_table_spec _ SMALL_PRIMES_ok) as (Hprimes & Hsorted & Hlen & H46 & H1051).
  set (c := λ i, bool_decide (N.of_nat n ≤ default 0 (SMALL_PRIMES !! i))%N).
  unfold smallest_prime_greater_or_equal.
  destruct (smallest_integer_spec
    (λ pivot, p ← vget SMALL_PRIMES pivot; Ret (bool_decide (N.of_nat n ≤ p)%N)) c 0 (length SMALL_PRIMES))
    as (o & -> & Ho); [| |lia|].
  - intros i Hi. destruct (lookup_lt_is_Some_2 SMALL_PRIMES i) as [p Hp]; [lia|]. unfold vget, c.
    by rewrite Hp.
  - intros i j Hij Hj. unfold c. rewrite !bool_decide_eq_true.
    destruct (lookup_lt_is_Some_2 SMALL_PRIMES i) as [p Hp]; [lia|].
    destruct (lookup_lt_is_Some_2 SMALL_PRIMES j) as [q Hq]; [lia|]. rewrite Hp, Hq. cbn.
    pose proof (Hsorted i j p q Hp Hq). lia.
  - cbn [mbind run_bind]. destruct o as [k|].
    + destruct Ho as (Hk & Hck & Hmin). destruct (lookup_lt_is_Some_2 SMALL_PRIMES k) as [q Hq]; [lia|].
      unfold vget. rewrite Hq. cbn [mbind run_bind expect]. eexists. split; [done|].
      unfold c in Hck. rewrite Hq in Hck. apply bool_decide_eq_true in Hck. cbn in Hck.
      destruct (Hprimes q) as [Hprime Hle]; [by eapply list_elem_of_lookup_2|].
      split; [by rewrite N_nat_Z|]. split; [lia|]. intros H211.
      destruct (decide (46 < k)) as [Hlt|Hge].
      * specialize (Hmin 46 ltac:(lia)). unfold c in Hmin. rewrite H46 in Hmin.
        apply bool_decide_eq_false in Hmin. cbn in Hmin. lia.
      * pose proof (Hsorted k 46 q 211%N Hq H46 ltac:(lia)). lia.
    + specialize (Ho 1051 ltac:(lia)). unfold c in Ho. rewrite H1051 in Ho.
      apply bool_decide_eq_false in Ho. cbn in Ho. lia.
Qed.

(** ** The parameters exist *)

Record params_ok (p : CodeParameters) : Prop := {
  pk_source : 1 ≤ num_source_symbols p ≤ SOURCE_SYMBOLS_MAX;
  pk_ldpc : Znumtheory.prime (Z.of_nat (num_ldpc_symbols p));
  pk_ldpc_range : 5 ≤ num_ldpc_symbols p ≤ 211;
  pk_half : 5 ≤ num_half_symbols p ≤ 16;
  pk_choose : num_source_symbols p + num_ldpc_symbols p ≤
    N.to_nat (choose (num_half_symbols p) (div_ceil (num_half_symbols p) 2));
  pk_total : num_intermediate_symbols p =
    num_source_symbols p + num_ldpc_symbols p + num_half_symbols p;
  pk_prime : Znumtheory.prime (Z.of_nat (num_intermediate_symbols_prime p));
  pk_prime_range : num_intermediate_symbols p ≤ num_intermediate_symbols_prime p ≤ N.to_nat 8419;
}.

Lemma determine_x_spec k :
  1 ≤ k ≤ SOURCE_SYMBOLS_MAX → ∃ x, determine_x k = Ret (Ok x) ∧ 4 ≤ x ≤ 129.
Proof.
  unfold SOURCE_SYMBOLS_MAX. intros Hk. unfold determine_x.
  destruct (smallest_integer_spec (λ pivot, Ret (bool_decide (2 * k ≤ pivot * (pivot - 1))))
    (λ pivot, bool_decide (2 * k ≤ pivot * (pivot - 1))) X_MIN (X_MAX + 1)) as (o & -> & Ho).
  - done.
  - intros i j Hij Hj. rewrite !bool_decide_eq_true. unfold X_MIN in Hij. nia.
  - unfold X_MIN, X_MAX. lia.
  - cbn [mbind run_bind]. unfold X_MIN, X_MAX in Ho. destruct o as [x|].
    + exists x. split; [done|]. lia.
    + specialize (Ho 129 ltac:(lia)). apply bool_decide_eq_false in Ho. lia.
Qed.

(** The Gray codes of a weight among the first [n] from [i]. *)
Fixpoint codes (n h_prime : nat) (i : N) : list N :=
  match n with
  | 0 => []
  | S n =>
      if decide (count_ones (gray i) = h_prime) then gray i :: codes n h_prime (i + 1)
      else codes n h_prime (i + 1)
  end.

Abbreviation half_choose h := (choose h (div_ceil h 2)).

Definition half_row_ok (h : nat) : bool :=
  (half_choose h <=? 12870)%N &&
  (half_choose h <=? N.of_nat (length (codes (2 ^ h) ((h + 1) / 2) 0)))%N &&
  (bool_decide (16 ≤ h) || (half_choose h <=? half_choose (h + 1))%N).

Lemma half_rows_ok : forallb half_row_ok (seq 5 12) = true.
Proof. vm_compute. reflexivity. Qed.

Lemma half_choose_facts h :
  5 ≤ h ≤ 16 →
  (half_choose h ≤ 12870)%N ∧
  N.to_nat (half_choose h) ≤ length (codes (2 ^ h) ((h + 1) / 2) 0) ∧
  (h < 16 → (half_choose h ≤ half_choose (h + 1))%N).
Proof.
  intros Hh. pose proof half_rows_ok as Hok. rewrite forallb_forall in Hok.
  assert (half_row_ok h = true) as Hrow by (apply Hok, list_elem_of_In, elem_of_seq; lia).
  clear Hok. unfold half_row_ok in Hrow. revert Hrow.
  generalize (length (codes (2 ^ h) ((h + 1) / 2) 0)) as n. intros n.
  generalize (half_choose h) as c, (half_choose (h + 1)) as c'. intros c c'.
  rewrite !andb_true_iff, orb_true_iff, !N.leb_le, bool_decide_eq_true. lia.
Qed.

Lemma half_choose_mono i j : 5 ≤ i ≤ j → j ≤ 16 → (half_choose i ≤ half_choose j)%N.
Proof.
  intros Hij Hj. induction j as [|j IH]; [lia|].
  destruct (decide (i = S j)) as [->|]; [done|].
  destruct (half_choose_facts j) as (_ & _ & Hnext); [lia|]. rewrite Nat.add_1_r in Hnext.
  etrans; [apply IH; lia|apply Hnext; lia].
Qed.

Lemma half_choose_16 : half_choose 16 = 12870%N.
Proof. vm_compute. reflexivity. Qed.

Lemma determine_num_half_symbols_spec k s :
  k + s ≤ N.to_nat 12870 →
  ∃ h, determine_num_half_symbols k s = Ret (Ok h) ∧ 5 ≤ h ≤ 16 ∧ k + s ≤ N.to_nat (half_choose h).
Proof.
  intros Hks. unfold determine_num_half_symbols, HALF_MIN, HALF_MAX.
  destruct (smallest_integer_spec
    (λ pivot, c ← to_u16 (N.to_nat (half_choose pivot)); Ret (bool_decide (k + s ≤ c)))
    (λ pivot, bool_decide (k + s ≤ N.to_nat (half_choose pivot))) 5 (16 + 1)) as (o & -> & Ho).
  - intros i Hi. destruct (half_choose_facts i) as [Hmax _]; [lia|].
    rewrite to_u16_Ret by (unfold u16_MAX; lia). done.
  - intros i j Hij Hj. rewrite !bool_decide_eq_true. pose proof (half_choose_mono i j). lia.
  - lia.
  - cbn [mbind run_bind]. destruct o as [h|].
    + destruct Ho as (Hh & Hc%bool_decide_eq_true & _). exists h. split; [done|lia].
    + specialize (Ho 16 ltac:(lia)). apply bool_decide_eq_false in Ho. rewrite half_choose_16 in Ho. lia.
Qed.

(** Every number of source symbols in range has its parameters. *)
Lemma CodeParameters_new_spec k :
  1 ≤ k ≤ SOURCE_SYMBOLS_MAX →
  ∃ p, CodeParameters_new k = Ret (Ok p) ∧ params_ok p ∧ num_source_symbols p = k.
Proof.
  intros Hk. unfold CodeParameters_new. rewrite decide_True by done.
  destruct (determine_x_spec k Hk) as (x & -> & Hx). cbn [run_try mbind run_bind].
  unfold SOURCE_SYMBOLS_MAX in Hk. unfold determine_num_ldpc_symbols.
  assert (div_ceil k 100 ≤ 82 ∧ 1 ≤ div_ceil k 100) as [Hd Hd1].
  { unfold div_ceil. split; [|apply Nat.div_le_lower_bound; lia].
    apply Nat.lt_succ_r, Nat.Div0.div_lt_upper_bound. lia. }
  destruct (smallest_prime_spec (div_ceil k 100 + x)) as (s & -> & Hs & Hsr & Hs211); [lia|].
  cbn [run_try mbind run_bind].
  destruct (determine_num_half_symbols_spec k s) as (h & -> & Hh & Hch); [lia|].
  cbn [run_try mbind run_bind].
  destruct (smallest_prime_spec (k + s + h)) as (q & -> & Hq & Hqr & _); [lia|].
  cbn [run_try mbind run_bind].
  destruct (lookup_lt_is_Some_2 SYSTEMATIC_INDEX (k - SOURCE_SYMBOLS_MIN)) as [i Hi].
  { rewrite SYSTEMATIC_INDEX_length. unfold SOURCE_SYMBOLS_MIN. lia. }
  unfold determine_systematic_index. rewrite Hi. cbn [ok_or run_try mbind run_bind].
  eexists. split; [done|]. split; [|done].
  constructor; cbn; try done; unfold SOURCE_SYMBOLS_MAX; lia.
Qed.

Lemma CodeParameters_new_range k r :
  CodeParameters_new k = Ret (Ok r) → 1 ≤ k ≤ SOURCE_SYMBOLS_MAX.
Proof. unfold CodeParameters_new. by case_decide. Qed.

(** ** Rows of the precode *)

Lemma for_each_app {A S} (l1 l2 : list A) (body : A → S → run S) s :
  for_each (l1 ++ l2) body s = (s ← for_each l1 body s; for_each l2 body s).
Proof.
  revert s. induction l1 as [|x l1 IH]; intros s; cbn; [done|].
  destruct (body x s); cbn [mbind run_bind]; [apply IH|done].
Qed.

Lemma for_each_fmap {A B S} (g : A → B) (l : list A) (body : B → S → run S) s :
  for_each (g <$> l) body s = for_each l (λ x, body (g x)) s.
Proof.
  revert s. induction l as [|x l IH]; intros s; cbn; [done|].
  destruct (body (g x) s); cbn [mbind run_bind]; [apply IH|done].
Qed.

Lemma for_each_ext {A S} (l : list A) (body body' : A → S → run S) s :
  (∀ x s, x ∈ l → body x s = body' x s) → for_each l body s = for_each l body' s.
Proof.
  revert s. induction l as [|x l IH]; intros s Hb; cbn; [done|].
  rewrite Hb by left. destruct (body' x s); cbn [mbind run_bind]; [|done].
  apply IH. intros y t Hy. apply Hb. by right.
Qed.

(** The calls of [set_element] for the rows of [n] columns. *)
Definition element_calls (n : nat) (column : nat → list nat) : list (nat * nat) :=
  seq 0 n ≫= λ j, (λ i, (i, j)) <$> column j.

Lemma for_each_calls {S} n (column : nat → list nat) (f : nat → nat → S → run S) s :
  for_each (seq 0 n) (λ j s, for_each (column j) (λ i s, f i j s) s) s =
  for_each (element_calls n column) (λ '(i, j), f i j) s.
Proof.
  unfold element_calls. generalize (seq 0 n) as l. intros l. revert s.
  induction l as [|j l IH]; intros s; cbn; [done|]. rewrite for_each_app, for_each_fmap.
  destruct (for_each (column j) (λ i s, f i j s) s); cbn [mbind run_bind]; [apply IH|done].
Qed.

Lemma elem_of_element_calls n column i j :
  (i, j) ∈ element_calls n column ↔ j < n ∧ i ∈ column j.
Proof.
  unfold element_calls. rewrite list_elem_of_bind. split.
  - intros (k & Hk & Hin). apply list_elem_of_fmap in Hk as (i' & [= -> ->] & Hi).
    apply elem_of_seq in Hin. split; [lia|done].
  - intros [Hj Hi]. exists j. split; [apply list_elem_of_fmap; eauto|apply elem_of_seq; lia].
Qed.

(** The elements of a matrix in an order that ascends in every row and every column. *)
Definition staircase (x y : nat * nat) : Prop :=
  (x.1 = y.1 → x.2 < y.2) ∧ (x.2 = y.2 → x.1 < y.1).

Lemma element_calls_staircase n column :
  (∀ j, j < n → ordered (column j)) → StronglySorted staircase (element_calls n column).
Proof.
  unfold element_calls. assert (∀ k m, k + m ≤ n → (∀ j, j < n → ordered (column j)) →
    StronglySorted staircase (seq k m ≫= λ j, (λ i, (i, j)) <$> column j)) as Hgo; [|intros; by apply Hgo].
  intros k m. revert k. induction m as [|m IH]; intros k Hkm Hcol; cbn; [constructor|].
  apply StronglySorted_app_2; [| |apply IH; [lia|done]].
  - intros [i1 j1] [i2 j2] H1 H2. apply list_elem_of_fmap in H1 as (? & [= -> ->] & _).
    apply list_elem_of_bind in H2 as (k2 & H2 & Hk2). apply list_elem_of_fmap in H2 as (? & [= -> ->] & _).
    apply elem_of_seq in Hk2. split; cbn; lia.
  - specialize (Hcol k ltac:(lia)). induction Hcol as [|i l Hl IHl Hi]; cbn; constructor; [done|].
    apply Forall_fmap. eapply Forall_impl; [exact Hi|]. intros i' Hi'. split; cbn; lia.
Qed.

Lemma sorted_ordered l : NoDup l → ordered (merge_sort le l).
Proof.
  intros Hl. assert (NoDup (merge_sort le l)) as Hnd by (by rewrite merge_sort_Permutation).
  pose proof (StronglySorted_merge_sort le l) as Hs. unfold ordered.
  induction Hs as [|x k Hk IH Hx]; [constructor|]. apply NoDup_cons in Hnd as [Hxk Hnd].
  constructor; [by apply IH|]. rewrite Forall_forall in Hx |- *. intros y Hy. specialize (Hx y Hy).
  assert (x ≠ y) by (by intros ->). lia.
Qed.

Definition ldpc_a (p : CodeParameters) (i : nat) : nat :=
  1 + (i / num_ldpc_symbols p) `mod` (num_ldpc_symbols p - 1).

Definition ldpc_column (p : CodeParameters) (i : nat) : list nat :=
  let s := num_ldpc_symbols p in
  let b2 := (i `mod` s + ldpc_a p i) `mod` s in
  merge_sort le [i `mod` s; b2; (b2 + ldpc_a p i) `mod` s].

Definition half_column (p : CodeParameters) (j : nat) : list nat :=
  let m := default 0%N (codes (2 ^ num_half_symbols p) ((num_half_symbols p + 1) / 2) 0 !! j) in
  filter (λ h, N.land m (N.shiftl 1 (N.of_nat h)) ≠ 0%N) (seq 0 (num_half_symbols p)).

Lemma add_mod_step s b a : b < s → 0 < a < s → (b + a) `mod` s = if decide (b + a < s) then b + a else b + a - s.
Proof.
  intros Hb Ha. case_decide; [by apply Nat.mod_small|].
  replace (b + a) with (b + a - s + 1 * s) at 1 by lia. rewrite Nat.Div0.mod_add. apply Nat.mod_small. lia.
Qed.

Lemma prime_odd s : Znumtheory.prime (Z.of_nat s) → 2 < s → ∀ a, s ≠ 2 * a.
Proof.
  intros [_ Hp]%Znumtheory.prime_alt Hs a ->. apply (Hp 2%Z); [lia|]. exists (Z.of_nat a). lia.
Qed.

Section rows.
Context (p : CodeParameters) (Hp : params_ok p).

Lemma ldpc_column_ordered i : ordered (ldpc_column p i).
Proof.
  pose proof (pk_ldpc_range _ Hp). pose proof (prime_odd _ (pk_ldpc _ Hp)) as Hodd.
  unfold ldpc_column. set (s := num_ldpc_symbols p) in *. apply sorted_ordered.
  assert (0 < ldpc_a p i < s) as Ha.
  { unfold ldpc_a. fold s. pose proof (Nat.mod_upper_bound (i / s) (s - 1)). lia. }
  specialize (Hodd ltac:(lia) (ldpc_a p i)).
  pose proof (Nat.mod_upper_bound i s ltac:(lia)) as Hb. revert Hb. generalize (i `mod` s) as b. intros b Hb.
  assert ((b + ldpc_a p i) `mod` s < s) as Hb2 by (apply Nat.mod_upper_bound; lia).
  rewrite (add_mod_step s ((b + ldpc_a p i) `mod` s)) by done. revert Hb2. rewrite add_mod_step by done.
  intros Hb2. rewrite !NoDup_cons, !elem_of_cons, !elem_of_nil.
  destruct (decide (b + ldpc_a p i < s)); case_decide; split_and!; try apply NoDup_nil_2; lia.
Qed.

Lemma ldpc_column_range i x : x ∈ ldpc_column p i → x < num_ldpc_symbols p.
Proof.
  pose proof (pk_ldpc_range _ Hp). unfold ldpc_column. rewrite merge_sort_Permutation.
  rewrite !elem_of_cons, elem_of_nil. intros [->|[->|[->|[]]]]; apply Nat.mod_upper_bound; lia.
Qed.

Lemma half_column_ordered j : ordered (half_column p j).
Proof.
  unfold half_column. generalize (default 0%N (codes (2 ^ num_half_symbols p) ((num_half_symbols p + 1) / 2) 0 !! j)).
  intros m. unfold ordered. generalize 0 as k. induction (num_half_symbols p) as [|n IH]; intros k; cbn [seq]; [constructor|].
  rewrite filter_cons. case_decide; [|apply IH]. constructor; [apply IH|].
  apply Forall_forall. intros x [_ Hx%elem_of_seq]%list_elem_of_filter. lia.
Qed.

Lemma half_column_range j x : x ∈ half_column p j → x < num_half_symbols p.
Proof. unfold half_column. intros [_ Hx%elem_of_seq]%list_elem_of_filter. lia. Qed.

Lemma g_ldpc_calls {S} (f : nat → nat → S → run S) s :
  g_ldpc p f s = for_each (element_calls (num_source_symbols p) (ldpc_column p)) (λ '(i, j), f i j) s.
Proof.
  rewrite <- for_each_calls. unfold g_ldpc. apply for_each_ext. intros i t _.
  unfold ldpc_triple. pose proof (pk_ldpc_range _ Hp). by rewrite assert_true by lia.
Qed.

Lemma m_next_spec n h_prime i m rest fuel :
  codes n h_prime i = m :: rest → n ≤ fuel →
  ∃ i' n', m_next fuel h_prime i = Ret (m, i') ∧ codes n' h_prime i' = rest ∧ n' ≤ n.
Proof.
  revert i fuel. induction n as [|n IH]; intros i fuel Hc Hf; [done|]. destruct fuel as [|fuel]; [lia|].
  cbn in *. case_decide.
  - injection Hc as <- <-. eexists _, n. split_and!; [done|done|lia].
  - destruct (IH (i + 1)%N fuel Hc) as (i' & n' & ? & ? & ?); [lia|]. exists i', n'. split_and!; [done..|lia].
Qed.

Lemma for_each_filter {A S} (P : A → Prop) `{!∀ x, Decision (P x)} (l : list A) (body : A → S → run S) s :
  for_each l (λ x s, if decide (P x) then body x s else Ret s) s = for_each (filter P l) body s.
Proof.
  revert s. induction l as [|x l IH]; intros s; [done|]. rewrite filter_cons. cbn. case_decide; cbn; [|apply IH].
  destruct (body x s); cbn [mbind run_bind]; [apply IH|done].
Qed.

Lemma g_half_loop {S} (f : nat → nat → S → run S) l n i s column :
  n ≤ 2 ^ num_half_symbols p →
  (∀ k j, l !! k = Some j →
     ∃ m, codes n ((num_half_symbols p + 1) / 2) i !! k = Some m ∧
       column j = filter (λ h, N.land m (N.shiftl 1 (N.of_nat h)) ≠ 0%N) (seq 0 (num_half_symbols p))) →
  ('(_, s) ← for_each l (λ j '(i, s),
     '(m, i) ← m_next (2 ^ num_half_symbols p) ((num_half_symbols p + 1) / 2) i;
     s ← for_each (seq 0 (num_half_symbols p)) (λ h s,
       if decide (N.land m (N.shiftl 1 (N.of_nat h)) ≠ 0%N) then f h j s else Ret s) s;
     Ret (i, s)) (i, s); Ret s) =
  for_each l (λ j s, for_each (column j) (λ i s, f i j s) s) s.
Proof.
  revert n i s. induction l as [|j l IH]; intros n i s Hn Hl; [done|].
  destruct (Hl 0 j) as (m & Hm & Hcol); [done|].
  destruct (codes n ((num_half_symbols p + 1) / 2) i) as [|m' rest] eqn:Hc; [done|]. injection Hm as <-.
  destruct (m_next_spec _ _ _ _ _ _ Hc Hn) as (i' & n' & Hnext & Hrest & Hn').
  cbn [for_each]. rewrite Hnext. cbn [mbind run_bind]. rewrite for_each_filter, <- Hcol.
  destruct (for_each (column j) (λ i s, f i j s) s) as [s'|]; cbn [mbind run_bind]; [|done].
  apply (IH n'); [lia|]. rewrite Hrest. intros k j' Hk. apply (Hl (Datatypes.S k)). done.
Qed.

Lemma g_half_calls {S} (f : nat → nat → S → run S) s :
  g_half p f s =
  for_each (element_calls (num_source_symbols p + num_ldpc_symbols p) (half_column p)) (λ '(i, j), f i j) s.
Proof.
  rewrite <- for_each_calls. unfold g_half. rewrite (g_half_loop f _ (2 ^ num_half_symbols p)) with (column := half_column p); [done..|].
  intros k j Hk. apply lookup_seq in Hk as [-> Hk]. rewrite Nat.add_0_l.
  destruct (half_choose_facts _ (pk_half _ Hp)) as (_ & Hlen & _). pose proof (pk_choose _ Hp).
  destruct (lookup_lt_is_Some_2 (codes (2 ^ num_half_symbols p) ((num_half_symbols p + 1) / 2) 0) k) as [m Hm].
  { eapply Nat.lt_le_trans; [|exact Hlen]. lia. }
  exists m. split; [done|]. unfold half_column. by rewrite Hm.
Qed.
End rows.

(** ** Rows of encoding symbols *)

Lemma V0_length : length V0 = 256.
Proof. vm_compute. reflexivity. Qed.

Lemma V1_length : length V1 = 256.
Proof. vm_compute. reflexivity. Qed.

Opaque V0 V1.

Lemma rand_spec x i m : m ≠ 0%N → ∃ r, rand x i m = Ret r ∧ (r < m)%N.
Proof.
  intros Hm. unfold rand, vget.
  assert (∀ y, N.to_nat (N.land y 255) < 256) as Hidx.
  { intros y. change 255%N with (N.ones 8). rewrite N.land_ones. pose proof (N.mod_lt y (2 ^ 8)). lia. }
  destruct (lookup_lt_is_Some_2 V0 (N.to_nat (N.land (x + i) 255))) as [v0 ->]; [by rewrite V0_length|].
  destruct (lookup_lt_is_Some_2 V1 (N.to_nat (N.land (N.shiftr x 8 + i) 255))) as [v1 ->]; [by rewrite V1_length|].
  cbn [mbind run_bind expect]. rewrite assert_true by done. cbn [mbind run_bind].
  eexists. split; [done|]. by apply N.mod_lt.
Qed.

Lemma deg_spec v : (v < 2 ^ 20)%N → ∃ d, deg v = Ret d ∧ 1 ≤ d ≤ MAX_DEGREE.
Proof.
  intros Hv. unfold deg, MAX_DEGREE. repeat case_decide; try (eexists; split; [done|lia]). lia.
Qed.

Section lt.
Context (p : CodeParameters) (Hp : params_ok p).

Lemma trip_spec esi :
  esi < MAX_TRIPLES →
  ∃ d a b, trip p esi = Ret (d, a, b) ∧ 1 ≤ d ≤ MAX_DEGREE ∧
    1 ≤ a < num_intermediate_symbols_prime p ∧ b < num_intermediate_symbols_prime p.
Proof.
  intros Hesi. unfold trip. rewrite assert_true by done. cbn [mbind run_bind].
  set (y := ((_ + _ * _) `mod` 65521)%N). clearbody y.
  pose proof (pk_total _ Hp). pose proof (pk_prime_range _ Hp). pose proof (pk_ldpc_range _ Hp).
  destruct (rand_spec y 0 (N.shiftl 1 20)) as (v & -> & Hv); [done|]. cbn [mbind run_bind].
  destruct (deg_spec v Hv) as (d & -> & Hd). cbn [mbind run_bind].
  destruct (rand_spec y 1 (N.of_nat (num_intermediate_symbols_prime p) - 1)) as (a & -> & Ha); [lia|].
  cbn [mbind run_bind].
  destruct (rand_spec y 2 (N.of_nat (num_intermediate_symbols_prime p))) as (b & -> & Hb); [lia|].
  cbn [mbind run_bind]. rewrite (to_u16_Ret (N.to_nat (1 + a))), (to_u16_Ret (N.to_nat b)) by (unfold u16_MAX; lia).
  eexists _, _, _. split; [done|]. lia.
Qed.

Section orbit.
Context (a b : nat) (Ha : 1 ≤ a < num_intermediate_symbols_prime p)
  (Hb : b < num_intermediate_symbols_prime p).
Abbreviation q := (num_intermediate_symbols_prime p).
Abbreviation L := (num_intermediate_symbols p).

(** The values of [b], without the skipping. *)
Definition orbit (k : nat) : nat := (b + k * a) `mod` q.

Lemma orbit_0 : orbit 0 = b.
Proof. unfold orbit. rewrite Nat.add_0_r. by apply Nat.mod_small. Qed.

Lemma orbit_S k : (orbit k + a) `mod` q = orbit (S k).
Proof. unfold orbit. rewrite Nat.Div0.add_mod_idemp_l. f_equal. lia. Qed.

Lemma orbit_lt k : orbit k < q.
Proof. apply Nat.mod_upper_bound. lia. Qed.

Lemma orbit_inj k k' : k < k' < q → orbit k ≠ orbit k'.
Proof.
  intros Hk Heq. assert (Z.of_nat q | Z.of_nat (k' - k) * Z.of_nat a)%Z as Hdiv.
  { apply Z.mod_divide; [lia|]. unfold orbit in Heq. apply (f_equal Z.of_nat) in Heq.
    rewrite !Nat2Z.inj_mod in Heq.
    replace (Z.of_nat (k' - k) * Z.of_nat a)%Z with (Z.of_nat (b + k' * a) - Z.of_nat (b + k * a))%Z by nia.
    rewrite Zminus_mod, Heq, Z.sub_diag. apply Z.mod_0_l. lia. }
  apply Z.divide_prime_mul in Hdiv; [|apply Znumtheory.prime_alt, (pk_prime _ Hp)].
  destruct Hdiv as [Hdiv|Hdiv]; apply Z.divide_pos_le in Hdiv; lia.
Qed.

Lemma orbit_permutation : orbit <$> seq 0 q ≡ₚ seq 0 q.
Proof.
  apply submseteq_length_Permutation; [|by rewrite length_fmap].
  apply NoDup_submseteq.
  - apply NoDup_alt. intros i j x Hi Hj. rewrite list_lookup_fmap in Hi, Hj.
    apply fmap_Some in Hi as (i' & Hi & ->). apply fmap_Some in Hj as (j' & Hj & Heq).
    apply lookup_seq in Hi as [-> Hi]. apply lookup_seq in Hj as [-> Hj]. cbn in Heq.
    destruct (Nat.lt_total i j) as [|[|]]; [|done|]; exfalso.
    + apply (orbit_inj i j); done || lia.
    + apply (orbit_inj j i); done || lia.
  - intros x Hx. apply list_elem_of_fmap in Hx as (k & -> & _). apply elem_of_seq.
    pose proof (orbit_lt k). lia.
Qed.

(** The symbols among [m] values from the [k]-th on. *)
Definition picks (k m : nat) : list nat := filter (λ x, x < L) (orbit <$> seq k m).

Lemma lt_skip_spec k m x rest fuel :
  picks k m = x :: rest → m ≤ fuel →
  ∃ k' m', lt_skip fuel p a (orbit k) = Ret x ∧ x = orbit k' ∧ picks (S k') m' = rest ∧ m' < m.
Proof.
  revert k fuel. induction m as [|m IH]; intros k fuel Hx Hf; [done|]. destruct fuel as [|fuel]; [lia|].
  unfold picks in Hx. cbn [seq fmap list_fmap] in Hx. rewrite filter_cons in Hx. cbn [lt_skip].
  destruct (decide (orbit k < L)) as [Hlt|Hge].
  - injection Hx as <- <-. rewrite decide_False by lia. exists k, m. split_and!; done || lia.
  - rewrite decide_True by lia. rewrite orbit_S.
    destruct (IH (S k) fuel Hx) as (k' & m' & ? & ? & ? & ?); [lia|]. exists k', m'. split_and!; done || lia.
Qed.

Lemma lt_fill_spec n k m :
  n ≤ length (picks k m) → m ≤ q → lt_fill n p a (orbit k) = Ret (take n (picks k m)).
Proof.
  revert k m. induction n as [|n IH]; intros k m Hn Hm; [done|].
  destruct (picks k m) as [|x rest] eqn:Hx; [cbn in Hn; lia|].
  destruct (lt_skip_spec k m x rest (S q) Hx) as (k' & m' & Hskip & -> & Hrest & Hm'); [lia|].
  cbn [lt_fill]. rewrite Hskip. cbn [mbind run_bind]. rewrite orbit_S, (IH (S k') m'); [|cbn in Hn; rewrite Hrest; lia|lia].
  cbn [mbind run_bind take]. by rewrite Hrest.
Qed.

Lemma filter_lt_seq n k m : n ≤ m → filter (λ x, x < k + n) (seq k m) = seq k n.
Proof.
  revert k m. induction n as [|n IH]; intros k m Hnm.
  - rewrite Nat.add_0_r. assert (∀ j, k ≤ j → filter (λ x, x < k) (seq j m) = []) as Hnone; [|by apply Hnone].
    clear Hnm. induction m as [|m IH]; intros j Hj; cbn [seq]; [done|]. rewrite filter_cons_False by lia. apply IH. lia.
  - destruct m as [|m]; [lia|]. cbn [seq]. rewrite filter_cons_True by lia. f_equal.
    rewrite <- (IH (S k) m) by lia. apply list_filter_iff. lia.
Qed.

Lemma picks_all : picks 0 q ≡ₚ seq 0 L.
Proof.
  unfold picks. rewrite orbit_permutation, (filter_lt_seq L 0); [done|]. apply (pk_prime_range _ Hp).
Qed.
End orbit.

(** The intermediate symbols of an encoding symbol. *)
Definition lt_row (esi : nat) : list nat :=
  match lt_symbols p esi with Ret row => row | Panic => [] end.

Lemma lt_symbols_spec esi :
  esi < MAX_TRIPLES →
  lt_symbols p esi = Ret (lt_row esi) ∧ ordered (lt_row esi) ∧
  (∀ x, x ∈ lt_row esi → x < num_intermediate_symbols p) ∧ 1 ≤ length (lt_row esi) ≤ MAX_DEGREE.
Proof.
  intros Hesi. unfold lt_row, lt_symbols. rewrite to_u16_Ret by (unfold u16_MAX, MAX_TRIPLES in *; lia).
  cbn [mbind run_bind]. destruct (trip_spec esi Hesi) as (d & a & b & -> & Hd & Ha & Hb). cbn [mbind run_bind].
  pose proof (pk_total _ Hp). pose proof (pk_half _ Hp).
  set (n := d `min` num_intermediate_symbols p).
  assert (lt_fill n p a b = Ret (take n (picks a b 0 (num_intermediate_symbols_prime p)))) as ->.
  { rewrite <- (orbit_0 a b Hb) at 1. apply lt_fill_spec; [done..| |done]. rewrite picks_all, length_seq by done. lia. }
  cbn [mbind run_bind].
  assert (NoDup (take n (picks a b 0 (num_intermediate_symbols_prime p)))) as Hnd.
  { eapply sublist_NoDup; [|apply sublist_take]. rewrite picks_all by done. apply NoDup_seq. }
  split; [done|]. split; [by apply sorted_ordered|]. split.
  - intros x Hx. rewrite merge_sort_Permutation in Hx. apply elem_of_take in Hx as (i & Hx & _).
    apply list_elem_of_lookup_2 in Hx. unfold picks in Hx. apply list_elem_of_filter in Hx. apply Hx.
  - rewrite merge_sort_Permutation, length_take, picks_all, length_seq by done. lia.
Qed.
End lt.
