(* ===== verification/RaptorDecoder.v ===== *)
(** * Inactivation decoder of the R10 code
      ([src/raptor/src/r10/nonsystematic/decoder])

    The decoder tracks, for every buffer, the intermediate symbols that are
    combined in it and, for every intermediate symbol, the buffers it is combined
    in.  It recovers symbols by peeling, by inactivating symbols and by
    elimination on the inactivated ones, and tells the caller which buffers to
    combine. *)
From S2P Require Import Prelude RaptorSet RaptorHeap RaptorMatrix RaptorParams.

(** ** Machine integers *)

(** [u16], without overflow checks. *)
Definition u16_inc (x : nat) : nat := if decide (N.of_nat x = u16_MAX) then 0 else S x.

Definition u16_dec (x : nat) : nat := match x with 0 => N.to_nat u16_MAX | S x => x end.

(** [NonZeroU16::new(..).unwrap()] *)
Definition NonZeroU16_new (x : nat) : run nat := assert (x ≠ 0) ≫= λ _, Ret x.

(** ** Buffers *)

Record Buffer := {
  intermediate_symbol_ids : OrderedSet;
  active_used_weight : nat;
  used : bool;
}.

Definition Buffer_new : Buffer :=
  {| intermediate_symbol_ids := []; active_used_weight := 0; used := false |}.

Definition with_ids (b : Buffer) (ids : OrderedSet) : Buffer :=
  {| intermediate_symbol_ids := ids; active_used_weight := active_used_weight b; used := used b |}.

Definition with_weight (b : Buffer) (w : nat) : Buffer :=
  {| intermediate_symbol_ids := intermediate_symbol_ids b; active_used_weight := w; used := used b |}.

Definition with_used (b : Buffer) (u : bool) : Buffer :=
  {| intermediate_symbol_ids := intermediate_symbol_ids b;
     active_used_weight := active_used_weight b; used := u |}.

Definition append_intermediate_symbol_id (b : Buffer) (intermediate_symbol_id : nat)
    (increment_active_used_weight : bool) : run Buffer :=
  id ← to_u16 intermediate_symbol_id;
  let b := with_ids b (append (intermediate_symbol_ids b) id) in
  Ret (if increment_active_used_weight then with_weight b (u16_inc (active_used_weight b)) else b).

Definition append_active_intermediate_symbol_id (b : Buffer) (intermediate_symbol_id : nat) :
    run Buffer :=
  append_intermediate_symbol_id b intermediate_symbol_id true.

Definition first_intermediate_symbol_id (b : Buffer) : run nat :=
  expect (first (intermediate_symbol_ids b)).

Definition xor_eq (self other : Buffer) : run Buffer :=
  ids ← for_each (intermediate_symbol_ids other) (λ id ids,
          '(_, ids) ← insert_or_remove ids id; Ret ids) (intermediate_symbol_ids self);
  Ret (with_ids self ids).

Inductive BufferState :=
  | BufferState_Active
  | BufferState_Usable
  | BufferState_Used
  | BufferState_Inactivated
  | BufferState_Redundant.

#[global] Instance BufferState_eq_dec : EqDecision BufferState.
Proof. solve_decision. Defined.

Definition state (b : Buffer) : BufferState :=
  if decide (1 < active_used_weight b) then BufferState_Active
  else if decide (active_used_weight b = 1 ∧ used b = false) then BufferState_Usable
  else if decide (active_used_weight b = 1 ∧ used b = true) then BufferState_Used
  else if decide (intermediate_symbol_ids b ≠ []) then BufferState_Inactivated
  else BufferState_Redundant.

Definition is_paired (b : Buffer) : bool :=
  bool_decide (state b = BufferState_Used ∧ length (intermediate_symbol_ids b) = 1).

Definition is_reactivatable (b : Buffer) : bool :=
  bool_decide (state b = BufferState_Inactivated ∧ length (intermediate_symbol_ids b) = 1).

(** ** Intermediate symbols *)

Inductive IntermediateSymbol :=
  | Active (buffer_indices : OrderedSet)
  | Inactivated (buffer_indices : OrderedSet)
  | Used (buffer_index : nat).

Definition IntermediateSymbol_new : IntermediateSymbol := Active [].

Definition is_active (s : IntermediateSymbol) : bool :=
  match s with Active _ => true | _ => false end.

Definition active_push (s : IntermediateSymbol) (buffer_index : nat) : run IntermediateSymbol :=
  match s with
  | Active buffer_indices => b ← to_u16 buffer_index; Ret (Active (append buffer_indices b))
  | Inactivated _ | Used _ => Panic
  end.

Definition active_inactivated_push (s : IntermediateSymbol) (buffer_index : nat) :
    run IntermediateSymbol :=
  match s with
  | Active buffer_indices => Ret (Active (append buffer_indices buffer_index))
  | Inactivated buffer_indices => Ret (Inactivated (append buffer_indices buffer_index))
  | Used _ => Panic
  end.

(** The set of buffers, and the symbol after the call. *)
Definition active_make_used (s : IntermediateSymbol) (buffer_index : nat) :
    run (OrderedSet * IntermediateSymbol) :=
  match s with
  | Active buffer_indices => Ret (buffer_indices, Used buffer_index)
  | Inactivated _ | Used _ => Panic
  end.

Definition active_inactivate (s : IntermediateSymbol) : run IntermediateSymbol :=
  '(buffer_indices, _) ← active_make_used s (N.to_nat u16_MAX);
  Ret (Inactivated buffer_indices).

Definition is_inactivated (s : IntermediateSymbol) : bool :=
  match s with Inactivated _ => true | _ => false end.

Definition inactivated_values (s : IntermediateSymbol) : run OrderedSet :=
  match s with
  | Inactivated buffer_indices => Ret buffer_indices
  | Active _ | Used _ => Panic
  end.

Definition inactivated_insert (s : IntermediateSymbol) (buffer_index : nat) :
    run IntermediateSymbol :=
  match s with
  | Inactivated buffer_indices =>
      '(_, buffer_indices) ← set_insert buffer_indices buffer_index;
      Ret (Inactivated buffer_indices)
  | Active _ | Used _ => Panic
  end.

Definition inactivated_remove (s : IntermediateSymbol) (buffer_index : nat) :
    run IntermediateSymbol :=
  match s with
  | Inactivated buffer_indices =>
      '(_, buffer_indices) ← set_remove buffer_indices buffer_index;
      Ret (Inactivated buffer_indices)
  | Active _ | Used _ => Panic
  end.

Definition inactivated_make_used (s : IntermediateSymbol) (buffer_index : nat) :
    run (OrderedSet * IntermediateSymbol) :=
  match s with
  | Inactivated buffer_indices => Ret (buffer_indices, Used buffer_index)
  | Active _ | Used _ => Panic
  end.

Definition is_used (s : IntermediateSymbol) : bool :=
  match s with Used _ => true | _ => false end.

Definition is_used_buffer_index (s : IntermediateSymbol) : option nat :=
  match s with Used buffer_index => Some buffer_index | _ => None end.

(** ** The decoder *)

Record Decoder := {
  params : CodeParameters;
  buffer_state : list Buffer;
  intermediate_symbol_state : list IntermediateSymbol;
  buffers_active_usable : BufferWeightMap;
  buffers_inactivated : BufferWeightMap;
  num_redundant_buffers : nat;
  num_source_symbols_paired : nat;
}.

Implicit Types d : Decoder.

Definition with_buffer_state d v : Decoder :=
  {| params := params d; buffer_state := v;
     intermediate_symbol_state := intermediate_symbol_state d;
     buffers_active_usable := buffers_active_usable d;
     buffers_inactivated := buffers_inactivated d;
     num_redundant_buffers := num_redundant_buffers d;
     num_source_symbols_paired := num_source_symbols_paired d |}.

Definition with_symbol_state d v : Decoder :=
  {| params := params d; buffer_state := buffer_state d;
     intermediate_symbol_state := v;
     buffers_active_usable := buffers_active_usable d;
     buffers_inactivated := buffers_inactivated d;
     num_redundant_buffers := num_redundant_buffers d;
     num_source_symbols_paired := num_source_symbols_paired d |}.

Definition with_active_usable d m : Decoder :=
  {| params := params d; buffer_state := buffer_state d;
     intermediate_symbol_state := intermediate_symbol_state d;
     buffers_active_usable := m;
     buffers_inactivated := buffers_inactivated d;
     num_redundant_buffers := num_redundant_buffers d;
     num_source_symbols_paired := num_source_symbols_paired d |}.

Definition with_inactivated d m : Decoder :=
  {| params := params d; buffer_state := buffer_state d;
     intermediate_symbol_state := intermediate_symbol_state d;
     buffers_active_usable := buffers_active_usable d;
     buffers_inactivated := m;
     num_redundant_buffers := num_redundant_buffers d;
     num_source_symbols_paired := num_source_symbols_paired d |}.

(** [num_redundant_buffers += 1] *)
Definition inc_redundant d : Decoder :=
  {| params := params d; buffer_state := buffer_state d;
     intermediate_symbol_state := intermediate_symbol_state d;
     buffers_active_usable := buffers_active_usable d;
     buffers_inactivated := buffers_inactivated d;
     num_redundant_buffers := u16_inc (num_redundant_buffers d);
     num_source_symbols_paired := num_source_symbols_paired d |}.

(** [num_source_symbols_paired += 1] *)
Definition inc_paired d : Decoder :=
  {| params := params d; buffer_state := buffer_state d;
     intermediate_symbol_state := intermediate_symbol_state d;
     buffers_active_usable := buffers_active_usable d;
     buffers_inactivated := buffers_inactivated d;
     num_redundant_buffers := num_redundant_buffers d;
     num_source_symbols_paired := S (num_source_symbols_paired d) |}.

Definition num_redundant_intermediate_symbols d : nat :=
  num_ldpc_symbols (params d) + num_half_symbols (params d).

Definition num_temp_buffers_required d : nat := num_redundant_intermediate_symbols d.

Definition num_encoded_symbols_received d : nat :=
  length (buffer_state d) - num_redundant_intermediate_symbols d.

Inductive BufferId :=
  | TempBuffer (index : nat)
  | ReceiveBuffer (index : nat).

Definition buffer_index_to_buffer_id d (index : nat) : BufferId :=
  if decide (index < num_redundant_intermediate_symbols d) then TempBuffer index
  else ReceiveBuffer (index - num_redundant_intermediate_symbols d).

(** ** Initial state *)

(** One element of the precode matrix: the body of the closures of the source. *)
Definition add_element (buffer_index intermediate_symbol_id : nat)
    (s : list Buffer * list IntermediateSymbol) : run (list Buffer * list IntermediateSymbol) :=
  let '(buffers, symbols) := s in
  buffer ← vget buffers buffer_index;
  buffer ← append_active_intermediate_symbol_id buffer intermediate_symbol_id;
  buffers ← vset buffers buffer_index buffer;
  symbol ← vget symbols intermediate_symbol_id;
  symbol ← active_push symbol buffer_index;
  symbols ← vset symbols intermediate_symbol_id symbol;
  Ret (buffers, symbols).

Definition with_capacity (k : nat) : run (result Decoder ()) :=
  if decide (SOURCE_SYMBOLS_MIN ≤ k ≤ SOURCE_SYMBOLS_MAX) then
    params ←? CodeParameters_new k;
    let s := (replicate (num_ldpc_symbols params + num_half_symbols params) Buffer_new,
              replicate (num_intermediate_symbols params) IntermediateSymbol_new) in
    s ← g_ldpc params add_element s;
    s ← for_each (seq 0 (num_ldpc_symbols params)) (λ i,
          add_element i (num_source_symbols params + i)) s;
    s ← g_half params (λ i, add_element (num_ldpc_symbols params + i)) s;
    s ← for_each (seq 0 (num_half_symbols params)) (λ i,
          add_element (num_ldpc_symbols params + i)
            (num_source_symbols params + num_ldpc_symbols params + i)) s;
    buffers_active_usable ← for_each (zip (seq 0 (length s.1)) s.1) (λ '(i, buffer_state) m,
          w ← NonZeroU16_new (active_used_weight buffer_state);
          insert_buffer_weight m i w) BufferWeightMap_new;
    Ret (Ok {| params := params; buffer_state := s.1; intermediate_symbol_state := s.2;
               buffers_active_usable := buffers_active_usable;
               buffers_inactivated := BufferWeightMap_new;
               num_redundant_buffers := 0; num_source_symbols_paired := 0 |})
  else Ret (Err ()).

Definition Decoder_new (k : nat) : run (result Decoder ()) := with_capacity k.

(** ** Steps of the decoder *)

Definition decoding_done d : bool :=
  bool_decide (num_source_symbols_paired d = num_source_symbols (params d)).

(** [iter().find(..)]; the predicate may panic. *)
Fixpoint find_active (symbols : list IntermediateSymbol) (ids : list nat) : run (option nat) :=
  match ids with
  | [] => Ret None
  | id :: ids =>
      symbol ← vget symbols id;
      if is_active symbol then Ret (Some id) else find_active symbols ids
  end.

Definition buffer_first_active_intermediate_symbol d (buffer_index : nat) : run nat :=
  buffer ← vget (buffer_state d) buffer_index;
  o ← find_active (intermediate_symbol_state d) (intermediate_symbol_ids buffer);
  expect o.

Definition decrement_buffer_weight d (buffer_index : nat) : run Decoder :=
  buffer ← vget (buffer_state d) buffer_index;
  let buffer := with_weight buffer (u16_dec (active_used_weight buffer)) in
  v ← vset (buffer_state d) buffer_index buffer;
  let d := with_buffer_state d v in
  if decide (0 < active_used_weight buffer) then
    w ← NonZeroU16_new (active_used_weight buffer);
    m ← update_buffer_weight (buffers_active_usable d) buffer_index w;
    Ret (with_active_usable d m)
  else
    '(_, m) ← remove_buffer_weight (buffers_active_usable d) buffer_index;
    let d := with_active_usable d m in
    let weight := length (intermediate_symbol_ids buffer) in
    if decide (0 < weight) then
      w ← to_u16 weight;
      w ← NonZeroU16_new w;
      m ← insert_buffer_weight (buffers_inactivated d) buffer_index w;
      Ret (with_inactivated d m)
    else Ret (inc_redundant d).

(** The body of the loops of [buffer_peel_xor_eq] and [buffer_inactivated_xor_eq]:
    symbol [id] of the other buffer, on the symbols of buffer [a]. *)
Definition xor_symbol (a id : nat) (s : OrderedSet * list IntermediateSymbol) :
    run (OrderedSet * list IntermediateSymbol) :=
  let '(ids, symbols) := s in
  symbol ← vget symbols id;
  if negb (is_inactivated symbol) then
    '(_, ids) ← set_remove ids id;
    Ret (ids, symbols)
  else
    '(inserted, ids) ← insert_or_remove ids id;
    symbol ← (if inserted : bool then inactivated_insert symbol a else inactivated_remove symbol a);
    symbols ← vset symbols id symbol;
    Ret (ids, symbols).

(** [get_two_mut] panics when the indices are equal or out of range. *)
Definition get_two_mut {T} (slice : list T) (a b : nat) : run (T * T) :=
  assert (a ≠ b) ≫= λ _,
  x ← vget slice a;
  y ← vget slice b;
  Ret (x, y).

Definition buffer_peel_xor_eq d (a b : nat) : run Decoder :=
  '(aref, bref) ← get_two_mut (buffer_state d) a b;
  '(ids, symbols) ← for_each (intermediate_symbol_ids bref) (xor_symbol a)
                      (intermediate_symbol_ids aref, intermediate_symbol_state d);
  v ← vset (buffer_state d) a (with_ids aref ids);
  Ret (with_symbol_state (with_buffer_state d v) symbols).

Definition buffer_inactivated_xor_eq d (a b : nat) : run Decoder :=
  '(aref, bref) ← get_two_mut (buffer_state d) a b;
  '(ids, symbols) ← for_each (intermediate_symbol_ids bref) (xor_symbol a)
                      (intermediate_symbol_ids aref, intermediate_symbol_state d);
  v ← vset (buffer_state d) a (with_ids aref ids);
  Ret (with_symbol_state (with_buffer_state d v) symbols).

(** [try_inactivate_one_symbol] *)
Definition try_inactivate_one_symbol d : run (bool * Decoder) :=
  o ← peek_min (buffers_active_usable d);
  match o with
  | Some (buffer_index, active_used_weight) =>
      if decide (1 < active_used_weight) then
        id ← buffer_first_active_intermediate_symbol d buffer_index;
        symbol ← vget (intermediate_symbol_state d) id;
        symbol ← active_inactivate symbol;
        v ← vset (intermediate_symbol_state d) id symbol;
        let d := with_symbol_state d v in
        symbol ← vget (intermediate_symbol_state d) id;
        indices ← inactivated_values symbol;
        d ← for_each indices (λ buffer_index d, decrement_buffer_weight d buffer_index) d;
        Ret (true, d)
      else Ret (false, d)
  | None => Ret (false, d)
  end.

(** ** Steps that combine buffers

    [xor_buffers] is the closure of the caller, with its own state. *)

Section decoder.
Context {B : Type} (xor_buffers : BufferId → BufferId → B → run B).

Definition call_xor_buffers d (a b : nat) (s : B) : run B :=
  xor_buffers (buffer_index_to_buffer_id d a) (buffer_index_to_buffer_id d b) s.

(** The body of the loop over the buffers that hold the recovered symbol. *)
Definition peel_reducee (reducing_buffer_index reducee_buffer_index : nat) (st : Decoder * B) :
    run (Decoder * B) :=
  let '(d, s) := st in
  if decide (reducee_buffer_index ≠ reducing_buffer_index) then
    d ← buffer_peel_xor_eq d reducee_buffer_index reducing_buffer_index;
    d ← decrement_buffer_weight d reducee_buffer_index;
    s ← call_xor_buffers d reducee_buffer_index reducing_buffer_index s;
    Ret (d, s)
  else Ret (d, s).

(** One round of [try_peel]. *)
Definition peel_one (reducing_buffer_index : nat) (st : Decoder * B) : run (Decoder * B) :=
  let '(d, s) := st in
  '(_, m) ← remove_buffer_weight (buffers_active_usable d) reducing_buffer_index;
  let d := with_active_usable d m in
  id ← buffer_first_active_intermediate_symbol d reducing_buffer_index;
  buffer ← vget (buffer_state d) reducing_buffer_index;
  v ← vset (buffer_state d) reducing_buffer_index (with_used buffer true);
  let d := with_buffer_state d v in
  symbol ← vget (intermediate_symbol_state d) id;
  '(reducee_buffer_indices, symbol) ← active_make_used symbol reducing_buffer_index;
  v ← vset (intermediate_symbol_state d) id symbol;
  let d := with_symbol_state d v in
  '(d, s) ← for_each reducee_buffer_indices (peel_reducee reducing_buffer_index) (d, s);
  buffer ← vget (buffer_state d) reducing_buffer_index;
  Ret (if decide (length (intermediate_symbol_ids buffer) = 1 ∧ id < num_source_symbols (params d))
       then inc_paired d else d, s).

Fixpoint peel_loop (fuel : nat) (made_progress : bool) (st : Decoder * B) :
    run (bool * (Decoder * B)) :=
  match fuel with
  | 0 => Panic
  | S fuel =>
      o ← peek_min (buffers_active_usable st.1);
      match o with
      | None => Ret (made_progress, st)
      | Some (reducing_buffer_index, active_used_weight) =>
          if decoding_done st.1 || bool_decide (active_used_weight ≠ 1) then Ret (made_progress, st)
          else
            st ← peel_one reducing_buffer_index st;
            peel_loop fuel true st
      end
  end.

(** Every round uses an intermediate symbol. *)
Definition try_peel (st : Decoder * B) : run (bool * (Decoder * B)) :=
  peel_loop (S (length (intermediate_symbol_state st.1))) false st.

(** The weight of an inactivated buffer whose symbols have changed: the end of the
    loops of [try_reactivate_symbols] and [try_inactive_gaussian]. *)
Definition refresh_weight (buffer_index : nat) d : run Decoder :=
  buffer ← vget (buffer_state d) buffer_index;
  let weight := length (intermediate_symbol_ids buffer) in
  if decide (0 < weight) then
    w ← to_u16 weight;
    w ← NonZeroU16_new w;
    m ← update_buffer_weight (buffers_inactivated d) buffer_index w;
    Ret (with_inactivated d m)
  else
    '(_, m) ← remove_buffer_weight (buffers_inactivated d) buffer_index;
    Ret (inc_redundant (with_inactivated d m)).

Definition reactivate_reducee (reducing_buffer_index id reducee_buffer_index : nat)
    (st : Decoder * B) : run (Decoder * B) :=
  let '(d, s) := st in
  if decide (reducee_buffer_index ≠ reducing_buffer_index) then
    buffer ← vget (buffer_state d) reducee_buffer_index;
    '(_, ids) ← set_remove (intermediate_symbol_ids buffer) id;
    let buffer := with_ids buffer ids in
    v ← vset (buffer_state d) reducee_buffer_index buffer;
    let d := with_buffer_state d v in
    d ← (if decide (active_used_weight buffer = 0) then refresh_weight reducee_buffer_index d else Ret d);
    d ← (if is_paired buffer then
           first_id ← first_intermediate_symbol_id buffer;
           Ret (if decide (first_id < num_source_symbols (params d)) then inc_paired d else d)
         else Ret d);
    s ← call_xor_buffers d reducee_buffer_index reducing_buffer_index s;
    Ret (d, s)
  else Ret (d, s).

(** One round of [try_reactivate_symbols]. *)
Definition reactivate_one (reducing_buffer_index : nat) (st : Decoder * B) : run (Decoder * B) :=
  let '(d, s) := st in
  buffer ← vget (buffer_state d) reducing_buffer_index;
  '(_, m) ← remove_buffer_weight (buffers_inactivated d) reducing_buffer_index;
  let d := with_inactivated d m in
  id ← first_intermediate_symbol_id buffer;
  v ← vset (buffer_state d) reducing_buffer_index (with_used (with_weight buffer 1) true);
  let d := with_buffer_state d v in
  symbol ← vget (intermediate_symbol_state d) id;
  '(reducee_buffer_indices, symbol) ← inactivated_make_used symbol reducing_buffer_index;
  v ← vset (intermediate_symbol_state d) id symbol;
  let d := with_symbol_state d v in
  '(d, s) ← for_each reducee_buffer_indices (reactivate_reducee reducing_buffer_index id) (d, s);
  Ret (if decide (id < num_source_symbols (params d)) then inc_paired d else d, s).

Fixpoint reactivate_loop (fuel : nat) (made_progress : bool) (st : Decoder * B) :
    run (bool * (Decoder * B)) :=
  match fuel with
  | 0 => Panic
  | S fuel =>
      o ← peek_min (buffers_inactivated st.1);
      match o with
      | None => Ret (made_progress, st)
      | Some (reducing_buffer_index, weight) =>
          if decoding_done st.1 || bool_decide (weight ≠ 1) then Ret (made_progress, st)
          else
            st ← reactivate_one reducing_buffer_index st;
            reactivate_loop fuel true st
      end
  end.

Definition try_reactivate_symbols (st : Decoder * B) : run (bool * (Decoder * B)) :=
  reactivate_loop (S (length (intermediate_symbol_state st.1))) false st.

(** ** Elimination on the inactivated symbols *)

(** The closure for [RowOperation::SubAssign]. *)
Definition sub_assign (indices : list nat) (st : Decoder * B) (i j : nat) : run (Decoder * B) :=
  let '(d, s) := st in
  reducee_buffer_index ← vget indices i;
  reducing_buffer_index ← vget indices j;
  d ← buffer_inactivated_xor_eq d reducee_buffer_index reducing_buffer_index;
  s ← call_xor_buffers d reducee_buffer_index reducing_buffer_index s;
  Ret (d, s).

(** [collect] into a [BTreeSet], and its iterator. *)
Definition collect_sorted (l : list nat) : list nat := merge_sort le (remove_dups l).

Definition try_inactive_gaussian (st : Decoder * B) : run (bool * (Decoder * B)) :=
  let '(d, s) := st in
  if is_empty (buffers_inactivated d) then Ret (false, st)
  else
    o ← peek_min (buffers_inactivated d);
    '(_, weight) ← expect o;
    if decide (weight = 1) then Ret (true, st)
    else
      entries ← enumerate (buffers_inactivated d);
      let indices := entries.*1 in
      all ← for_each indices (λ buffer_index all,
              buffer ← vget (buffer_state d) buffer_index;
              Ret (all ++ intermediate_symbol_ids buffer)) [];
      let ids := collect_sorted all in
      if decide (length indices < length ids) then Ret (false, st)
      else
        mat ← from_fn (length indices) (length ids) (λ i j,
                buffer_index ← vget indices i;
                id ← vget ids j;
                buffer ← vget (buffer_state d) buffer_index;
                set_contains (intermediate_symbol_ids buffer) id);
        '(_, _, (d, s)) ← rowwise_elimination_gaussian_full_pivot (sub_assign indices) mat (d, s);
        d ← for_each indices refresh_weight d;
        Ret (true, (d, s)).

(** ** Decoding *)

Inductive DecodingState :=
  | ReactivateSymbols
  | Peeling
  | MaybeInactiveGaussian
  | InactivateSymbol
  | Done.

#[global] Instance DecodingState_eq_dec : EqDecision DecodingState.
Proof. solve_decision. Defined.

(** The body of the loop of [try_decode]. *)
Definition decode_step (try_harder : bool) (operation : DecodingState) (st : Decoder * B) :
    run (DecodingState * (Decoder * B)) :=
  match operation with
  | ReactivateSymbols =>
      '(_, st) ← try_reactivate_symbols st;
      Ret (Peeling, st)
  | Peeling =>
      '(progress, st) ← try_peel st;
      Ret (if progress : bool then ReactivateSymbols else MaybeInactiveGaussian, st)
  | MaybeInactiveGaussian =>
      if negb try_harder then Ret (Done, st)
      else
        '(progress, st) ← try_inactive_gaussian st;
        Ret (if progress : bool then ReactivateSymbols else InactivateSymbol, st)
  | InactivateSymbol =>
      if negb try_harder then Ret (Done, st)
      else
        '(progress, d) ← try_inactivate_one_symbol st.1;
        Ret (if progress : bool then ReactivateSymbols else Done, (d, st.2))
  | Done => Panic
  end.

Fixpoint decode_loop (fuel : nat) (try_harder : bool) (operation : DecodingState)
    (st : Decoder * B) : run (Decoder * B) :=
  match fuel with
  | 0 => Panic
  | S fuel =>
      if negb (decoding_done st.1) && bool_decide (operation ≠ Done) then
        '(operation, st) ← decode_step try_harder operation st;
        decode_loop fuel try_harder operation st
      else Ret st
  end.

Definition decode_fuel d : nat := 20 * length (intermediate_symbol_state d) + 10.

Definition try_decode (inactivation_symbol_threshold : nat) (st : Decoder * B) :
    run (bool * (Decoder * B)) :=
  assert (num_source_symbols (params st.1) ≤ inactivation_symbol_threshold) ≫= λ _,
  let usable_buffers := length (buffer_state st.1) - num_redundant_buffers st.1 in
  let try_harder := bool_decide (inactivation_symbol_threshold ≤ usable_buffers) in
  st ← decode_loop (decode_fuel st.1) try_harder ReactivateSymbols st;
  Ret (decoding_done st.1, st).

(** ** Received symbols *)

(** The closure given to [lt_sequence_op]. *)
Definition add_received d (id : nat) (s : Buffer * list nat) : run (Buffer * list nat) :=
  let '(buffer, used_buffer_indices) := s in
  symbol ← vget (intermediate_symbol_state d) id;
  buffer ← append_intermediate_symbol_id buffer id (negb (is_inactivated symbol));
  Ret (buffer, match is_used_buffer_index symbol with
               | Some used_buffer_index => used_buffer_indices ++ [used_buffer_index]
               | None => used_buffer_indices
               end).

(** Reduce the new buffer by a used one. *)
Definition reduce_received d (buffer_index used_buffer_index : nat) (s : Buffer * B) :
    run (Buffer * B) :=
  let '(buffer, s) := s in
  other ← vget (buffer_state d) used_buffer_index;
  buffer ← xor_eq buffer other;
  let buffer := with_weight buffer (u16_dec (active_used_weight buffer)) in
  s ← call_xor_buffers d buffer_index used_buffer_index s;
  Ret (buffer, s).

(** The last part of [received_encoded_symbol]. *)
Definition account_received (buffer_index : nat) (buffer : Buffer) d : run Decoder :=
  let weight := length (intermediate_symbol_ids buffer) in
  if decide (0 < active_used_weight buffer) then
    w ← NonZeroU16_new (active_used_weight buffer);
    m ← insert_buffer_weight (buffers_active_usable d) buffer_index w;
    Ret (with_active_usable d m)
  else if decide (0 < weight) then
    w ← to_u16 weight;
    w ← NonZeroU16_new w;
    m ← insert_buffer_weight (buffers_inactivated d) buffer_index w;
    Ret (with_inactivated d m)
  else Ret (inc_redundant d).

Definition received_encoded_symbol (encoding_symbol_id : nat) (st : Decoder * B) :
    run (Decoder * B) :=
  let '(d, s) := st in
  buffer_index ← to_u16 (length (buffer_state d));
  '(buffer, used_buffer_indices) ←
    lt_sequence_op (params d) encoding_symbol_id (add_received d) (Buffer_new, []);
  '(buffer, s) ← for_each used_buffer_indices (reduce_received d buffer_index) (buffer, s);
  symbols ← for_each (intermediate_symbol_ids buffer) (λ id symbols,
              symbol ← vget symbols id;
              symbol ← active_inactivated_push symbol buffer_index;
              vset symbols id symbol) (intermediate_symbol_state d);
  let d := with_symbol_state d symbols in
  let d := with_buffer_state d (buffer_state d ++ [buffer]) in
  d ← account_received buffer_index buffer d;
  Ret (d, s).
End decoder.

Definition num_redundant_encoded_symbols d : nat := num_redundant_buffers d.

Definition source_symbol_to_buffer_id d (source_symbol_id : nat) : run (option BufferId) :=
  if decide (source_symbol_id < num_source_symbols (params d)) then
    symbol ← vget (intermediate_symbol_state d) source_symbol_id;
    match is_used_buffer_index symbol with
    | None => Ret None
    | Some buffer_index =>
        buffer ← vget (buffer_state d) buffer_index;
        Ret (if decide (length (intermediate_symbol_ids buffer) = 1)
             then Some (buffer_index_to_buffer_id d buffer_index) else None)
    end
  else Ret None.
