(* ===== verification/RaptorDecoderSpec.v ===== *)
(** * Consistency of the Raptor decoder

    What the tables of the decoder have to do with each other, and that every
    step keeps it so.  The caller's state is tied to the rows of the buffers by
    an arbitrary relation that combining two buffers respects. *)
From S2P Require Import Prelude RaptorSet RaptorHeap RaptorMatrix RaptorParams RaptorDecoder.

(** Reduce the fields of updated records and the monad. *)
Ltac dsimpl :=
  cbn [mbind run_bind expect with_buffer_state with_symbol_state with_active_usable with_inactivated
    inc_redundant inc_paired params buffer_state intermediate_symbol_state buffers_active_usable
    buffers_inactivated num_redundant_buffers num_source_symbols_paired fst snd].

(** ** Counting *)

Fixpoint count (P : nat → bool) (n : nat) : nat :=
  match n with 0 => 0 | S n => count P n + if P n then 1 else 0 end.

Lemma count_ext P Q n : (∀ i, i < n → P i = Q i) → count P n = count Q n.
Proof.
  induction n as [|n IH]; intros Hpq; cbn; [done|]. rewrite IH, (Hpq n) by auto with lia. done.
Qed.

Lemma count_le P n : count P n ≤ n.
Proof. induction n as [|n IH]; cbn; [lia|]. destruct (P n); lia. Qed.

(** The predicate changes at one place. *)
Lemma count_change P Q n a :
  a < n → (∀ i, i < n → i ≠ a → P i = Q i) →
  count Q n + (if P a then 1 else 0) = count P n + (if Q a then 1 else 0).
Proof.
  induction n as [|n IH]; intros Ha Hpq; [lia|]. cbn. destruct (decide (a = n)) as [->|Hne].
  - rewrite (count_ext Q P n); [lia|]. intros i Hi. symmetry. apply Hpq; lia.
  - rewrite (Hpq n) by lia. specialize (IH ltac:(lia)). rewrite <- Nat.add_shuffle0, IH; [lia|].
    intros i Hi. apply Hpq. lia.
Qed.

Lemma count_full P n : count P n = n ↔ ∀ i, i < n → P i = true.
Proof.
  induction n as [|n IH]; cbn; [split; [lia|done]|]. pose proof (count_le P n). split.
  - intros Hc i Hi. destruct (P n) eqn:Hn; [|lia]. destruct (decide (i = n)) as [->|]; [done|].
    apply IH; lia.
  - intros Hall. rewrite Hall, (proj2 IH) by auto with lia. lia.
Qed.

(** ** Symbols and their buffers *)

Inductive Kind := KActive | KInactivated | KUsed.

Definition kind (s : IntermediateSymbol) : Kind :=
  match s with Active _ => KActive | Inactivated _ => KInactivated | Used _ => KUsed end.

Definition holders (s : IntermediateSymbol) : OrderedSet :=
  match s with Active l | Inactivated l => l | Used b => [b] end.

Abbreviation ids := intermediate_symbol_ids.
Abbreviation auw := active_used_weight.

Definition inact (syms : list IntermediateSymbol) (j : nat) : bool :=
  match syms !! j with Some s => is_inactivated s | None => false end.

(** The number of symbols of a row that are not inactivated. *)
Definition weight (syms : list IntermediateSymbol) (row : list nat) : nat :=
  length (filter (λ j, inact syms j = false) row).

Arguments weight : simpl never.

Lemma inact_kind syms syms' j : kind <$> (syms !! j) = kind <$> (syms' !! j) → inact syms j = inact syms' j.
Proof.
  unfold inact. destruct (syms !! j) as [s|], (syms' !! j) as [s'|]; intros He; try done.
  by destruct s, s'.
Qed.

Lemma weight_ext syms syms' row :
  (∀ j, j ∈ row → inact syms j = inact syms' j) → weight syms row = weight syms' row.
Proof.
  intros He. unfold weight. induction row as [|j row IH]; [done|]. rewrite !filter_cons.
  rewrite (He j) by left. assert (length (filter (λ j, inact syms j = false) row) =
    length (filter (λ j, inact syms' j = false) row)) as Hl.
  { apply IH. intros i Hi. apply He. by right. }
  case_decide; cbn; lia.
Qed.

Lemma weight_Permutation syms row row' : row ≡ₚ row' → weight syms row = weight syms row'.
Proof. intros Hp. unfold weight. by rewrite Hp. Qed.

Lemma weight_cons syms j row :
  weight syms (j :: row) = (if inact syms j then 0 else 1) + weight syms row.
Proof. unfold weight. rewrite filter_cons. case_decide as Hi; destruct (inact syms j); done. Qed.

Lemma weight_pos syms row : 0 < weight syms row ↔ ∃ j, j ∈ row ∧ inact syms j = false.
Proof.
  unfold weight. split.
  - intros Hw. destruct (filter _ row) as [|j l] eqn:Hf; [cbn in Hw; lia|].
    exists j. assert (j ∈ filter (λ j, inact syms j = false) row) as Hj by (rewrite Hf; left).
    apply list_elem_of_filter in Hj as [??]. done.
  - intros (j & Hj & Hi). assert (j ∈ filter (λ j, inact syms j = false) row) as Hin by by apply list_elem_of_filter.
    destruct (filter _ row); [set_solver|cbn; lia].
Qed.

Lemma weight_one syms row i j :
  weight syms row ≤ 1 → i ∈ row → j ∈ row → inact syms i = false → inact syms j = false → i = j.
Proof.
  intros Hw Hi Hj Hii Hij. unfold weight in Hw.
  assert (i ∈ filter (λ j, inact syms j = false) row) as H1 by by apply list_elem_of_filter.
  assert (j ∈ filter (λ j, inact syms j = false) row) as H2 by by apply list_elem_of_filter.
  destruct (filter _ row) as [|x [|y l]]; cbn in Hw; [set_solver| |lia].
  apply list_elem_of_singleton in H1, H2. congruence.
Qed.

Lemma weight_le_length syms row : weight syms row ≤ length row.
Proof. apply length_filter. Qed.

(** ** The weight maps *)

(** How a buffer is accounted for. *)
Inductive Class := CActive (weight : nat) | CInactivated (weight : nat) | CRedundant | CUsed.

Definition class (b : Buffer) : Class :=
  if used b then CUsed
  else if decide (auw b ≠ 0) then CActive (auw b)
  else if decide (ids b ≠ []) then CInactivated (length (ids b))
  else CRedundant.

Definition active_weight (c : option Class) : option nat :=
  match c with Some (CActive w) => Some w | _ => None end.

Definition inactivated_weight (c : option Class) : option nat :=
  match c with Some (CInactivated w) => Some w | _ => None end.

Definition is_redundant (c : option Class) : bool :=
  match c with Some CRedundant => true | _ => false end.

Definition upd (cl : nat → option Class) (a : nat) (c : Class) : nat → option Class :=
  λ b, if decide (b = a) then Some c else cl b.

Lemma upd_upd cl a c c' b : upd (upd cl a c) a c' b = upd cl a c' b.
Proof. unfold upd. by case_decide. Qed.

Lemma upd_eq cl a c : upd cl a c a = Some c.
Proof. unfold upd. by rewrite decide_True. Qed.

Lemma upd_ne cl a c b : b ≠ a → upd cl a c b = cl b.
Proof. intros Hb. unfold upd. by rewrite decide_False. Qed.

(** The two maps and the counter account for [n] buffers. *)
Record books (cl : nat → option Class) (n : nat) (h1 h2 : BufferWeightMap) (redundant : nat) : Prop := {
  bk_range b : is_Some (cl b) → b < n;
  bk_u16 : (N.of_nat n ≤ u16_MAX)%N;
  bk_active : heap_ok h1;
  bk_active_weight b : weight_of h1 b = active_weight (cl b);
  bk_inactivated : heap_ok h2;
  bk_inactivated_weight b : weight_of h2 b = inactivated_weight (cl b);
  bk_redundant : redundant = count (λ b, is_redundant (cl b)) n;
}.

Lemma books_ext cl cl' n h1 h2 m : (∀ b, cl b = cl' b) → books cl n h1 h2 m → books cl' n h1 h2 m.
Proof.
  intros He [H1 H2 H3 H4 H5 H6 H7]. split; try done.
  - intros b. rewrite <- He. apply H1.
  - intros b. by rewrite <- He.
  - intros b. by rewrite <- He.
  - rewrite H7. apply count_ext. intros b _. by rewrite He.
Qed.

Section books.
Context (cl : nat → option Class) (n : nat) (h1 h2 : BufferWeightMap) (m : nat).
Context (Hbk : books cl n h1 h2 m).

Lemma books_count_upd a c0 c :
  cl a = Some c0 → is_redundant (Some c0) = is_redundant (Some c) →
  m = count (λ b, is_redundant (upd cl a c b)) n.
Proof.
  intros Ha Hc. rewrite (bk_redundant _ _ _ _ _ Hbk). apply count_ext. intros b _. unfold upd.
  case_decide as Hb; [subst; by rewrite Ha|done].
Qed.

Lemma books_range_upd a c0 c b : cl a = Some c0 → is_Some (upd cl a c b) → b < n.
Proof.
  intros Ha. unfold upd. case_decide as Hb; [intros _; subst|]; apply (bk_range _ _ _ _ _ Hbk); eauto.
Qed.

Ltac books_upd Ha :=
  split; try done;
  first
    [ intros ?; by eapply books_range_upd
    | by eapply books_count_upd
    | let b := fresh "b" in let Hb := fresh "Hb" in
      intros b;
      repeat match goal with
             | H : ∀ b, weight_of _ b = _ |- _ => rewrite H; clear H
             end;
      unfold upd; case_decide as Hb; [subst; by rewrite ?Ha|done] ].

Lemma books_update_active a w0 w :
  cl a = Some (CActive w0) →
  ∃ h1', update_buffer_weight h1 a w = Ret h1' ∧ books (upd cl a (CActive w)) n h1' h2 m.
Proof.
  intros Ha. pose proof Hbk as [B1 B2 B3 B4 B5 B6 B7].
  destruct (update_buffer_weight_spec h1 a w w0) as (h1' & -> & Hok & Hw); [done|by rewrite B4, Ha|].
  exists h1'. split; [done|]. books_upd Ha.
Qed.

Lemma books_update_inactivated a w0 w :
  cl a = Some (CInactivated w0) →
  ∃ h2', update_buffer_weight h2 a w = Ret h2' ∧ books (upd cl a (CInactivated w)) n h1 h2' m.
Proof.
  intros Ha. pose proof Hbk as [B1 B2 B3 B4 B5 B6 B7].
  destruct (update_buffer_weight_spec h2 a w w0) as (h2' & -> & Hok & Hw); [done|by rewrite B6, Ha|].
  exists h2'. split; [done|]. books_upd Ha.
Qed.

Lemma books_remove_active a w :
  cl a = Some (CActive w) →
  ∃ h1', remove_buffer_weight h1 a = Ret (w, h1') ∧ books (upd cl a CUsed) n h1' h2 m.
Proof.
  intros Ha. pose proof Hbk as [B1 B2 B3 B4 B5 B6 B7].
  destruct (remove_buffer_weight_spec h1 a w) as (h1' & -> & Hok & Hw); [done|by rewrite B4, Ha|].
  exists h1'. split; [done|]. books_upd Ha.
Qed.

Lemma books_remove_inactivated a w :
  cl a = Some (CInactivated w) →
  ∃ h2', remove_buffer_weight h2 a = Ret (w, h2') ∧ books (upd cl a CUsed) n h1 h2' m.
Proof.
  intros Ha. pose proof Hbk as [B1 B2 B3 B4 B5 B6 B7].
  destruct (remove_buffer_weight_spec h2 a w) as (h2' & -> & Hok & Hw); [done|by rewrite B6, Ha|].
  exists h2'. split; [done|]. books_upd Ha.
Qed.

Lemma books_insert_active a w :
  cl a = Some CUsed →
  ∃ h1', insert_buffer_weight h1 a w = Ret h1' ∧ books (upd cl a (CActive w)) n h1' h2 m.
Proof.
  intros Ha. pose proof Hbk as [B1 B2 B3 B4 B5 B6 B7]. pose proof (B1 a ltac:(eauto)).
  destruct (insert_buffer_weight_spec h1 a w) as (h1' & -> & Hok & Hw); [done|by rewrite B4, Ha|lia|].
  exists h1'. split; [done|]. books_upd Ha.
Qed.

Lemma books_insert_inactivated a w :
  cl a = Some CUsed →
  ∃ h2', insert_buffer_weight h2 a w = Ret h2' ∧ books (upd cl a (CInactivated w)) n h1 h2' m.
Proof.
  intros Ha. pose proof Hbk as [B1 B2 B3 B4 B5 B6 B7]. pose proof (B1 a ltac:(eauto)).
  destruct (insert_buffer_weight_spec h2 a w) as (h2' & -> & Hok & Hw); [done|by rewrite B6, Ha|lia|].
  exists h2'. split; [done|]. books_upd Ha.
Qed.

Lemma books_redundant a : cl a = Some CUsed → books (upd cl a CRedundant) n h1 h2 (u16_inc m).
Proof.
  intros Ha. pose proof Hbk as [B1 B2 B3 B4 B5 B6 B7]. pose proof (B1 a ltac:(eauto)) as Han.
  assert (count (λ b, is_redundant (upd cl a CRedundant b)) n = S m) as Hm.
  { pose proof (count_change (λ b, is_redundant (cl b)) (λ b, is_redundant (upd cl a CRedundant b)) n a Han) as Hc.
    cbn beta in Hc. rewrite Ha, upd_eq, Nat.add_0_r in Hc. rewrite B7, Hc; [cbn; lia|].
    intros i _ Hi. by rewrite upd_ne. }
  split; try done.
  - intros b. by eapply books_range_upd.
  - intros b. rewrite B4. unfold upd. case_decide as Hb; [subst; by rewrite Ha|done].
  - intros b. rewrite B6. unfold upd. case_decide as Hb; [subst; by rewrite Ha|done].
  - rewrite Hm. unfold u16_inc. rewrite decide_False; [done|].
    pose proof (count_le (λ b, is_redundant (upd cl a CRedundant b)) n). lia.
Qed.

Lemma books_extend : (N.of_nat (S n) ≤ u16_MAX)%N → books (upd cl n CUsed) (S n) h1 h2 m.
Proof.
  intros Hn. pose proof Hbk as [B1 B2 B3 B4 B5 B6 B7].
  assert (cl n = None) as Hnone. { apply eq_None_not_Some. intros Hs%B1. lia. }
  split; try done.
  - intros b. unfold upd. case_decide; [lia|]. intros Hs%B1. lia.
  - intros b. rewrite B4. unfold upd. case_decide as Hb; [subst; by rewrite Hnone|done].
  - intros b. rewrite B6. unfold upd. case_decide as Hb; [subst; by rewrite Hnone|done].
  - cbn [count]. rewrite upd_eq, Nat.add_0_r, B7. apply count_ext. intros i Hi. by rewrite upd_ne by lia.
Qed.
End books.

(** ** The tables *)

(** What a step in progress leaves open: rows that still hold a symbol that does
    not list them, weights that are off, paired symbols that are not counted. *)
Record slack := {
  extra : nat → nat → Prop;
  delta : nat → Z;
  owed : nat;
}.

Definition no_slack : slack := {| extra := λ _ _, False; delta := λ _, 0%Z; owed := 0 |}.

Definition paired_at (bufs : list Buffer) (syms : list IntermediateSymbol) (j : nat) : bool :=
  match syms !! j with
  | Some (Used b) =>
      match bufs !! b with Some buf => bool_decide (length (ids buf) = 1) | None => false end
  | _ => false
  end.

Section tables.
Context (p : CodeParameters) (Hp : params_ok p).
Abbreviation L := (num_intermediate_symbols p).
Abbreviation K := (num_source_symbols p).
Implicit Types (bufs : list Buffer) (syms : list IntermediateSymbol) (x : slack).

Record tables x bufs syms (paired : nat) : Prop := {
  t_symbols : length syms = L;
  t_ids b buf : bufs !! b = Some buf → ordered (ids buf) ∧ ∀ j, j ∈ ids buf → j < L;
  t_sets j s : syms !! j = Some s → ordered (holders s) ∧ ∀ b, b ∈ holders s → b < length bufs;
  t_match b buf j s : bufs !! b = Some buf → syms !! j = Some s →
    j ∈ ids buf ↔ b ∈ holders s ∨ extra x b j;
  t_weight b buf : bufs !! b = Some buf →
    Z.of_nat (auw buf) = (Z.of_nat (weight syms (ids buf)) + delta x b)%Z;
  t_used b buf : bufs !! b = Some buf → used buf = true ↔ ∃ j, syms !! j = Some (Used b);
  t_used_weight b buf : bufs !! b = Some buf → used buf = true → auw buf = 1;
  t_used_inj i j b : syms !! i = Some (Used b) → syms !! j = Some (Used b) → i = j;
  t_paired : paired + owed x = count (paired_at bufs syms) K;
}.

Lemma K_le_L : K ≤ L.
Proof. pose proof (pk_total _ Hp). lia. Qed.

Lemma L_u16 : (N.of_nat L ≤ u16_MAX)%N.
Proof. pose proof (pk_prime_range _ Hp). unfold u16_MAX. lia. Qed.

Lemma tables_ext x x' bufs syms n :
  (∀ b j, extra x b j ↔ extra x' b j) → (∀ b, delta x b = delta x' b) → owed x = owed x' →
  tables x bufs syms n → tables x' bufs syms n.
Proof.
  intros He Hd Ho [T1 T2 T3 T4 T5 T6 T7 T8 T9]. split; try done.
  - intros b buf j s Hb Hj. rewrite <- He. by apply T4.
  - intros b buf Hb. rewrite <- Hd. by apply T5.
  - by rewrite <- Ho.
Qed.

Lemma t_symbol x bufs syms n j : tables x bufs syms n → j < L → is_Some (syms !! j).
Proof. intros HT Hj. apply lookup_lt_is_Some. by rewrite (t_symbols _ _ _ _ HT). Qed.

(** Symbols that differ only in whether buffer [a] is listed. *)
Definition same_symbol (a : nat) (s s' : IntermediateSymbol) : Prop :=
  kind s' = kind s ∧ (kind s = KUsed → s' = s) ∧ ordered (holders s') ∧
  ∀ b, b ≠ a → b ∈ holders s' ↔ b ∈ holders s.

Lemma same_symbol_refl a s : ordered (holders s) → same_symbol a s s.
Proof. intros Hs. split_and!; done. Qed.

Lemma paired_at_used bufs syms syms' j :
  (∀ j b, syms' !! j = Some (Used b) ↔ syms !! j = Some (Used b)) →
  paired_at bufs syms j = paired_at bufs syms' j.
Proof.
  intros Hu. unfold paired_at. destruct (syms !! j) as [[| |b]|] eqn:Hj.
  3: by apply Hu in Hj as ->.
  all: destruct (syms' !! j) as [[| |b']|] eqn:Hj'; try done; apply Hu in Hj'; congruence.
Qed.

(** One row changes, and the symbols accordingly. *)
Lemma tables_step x x' bufs syms n n' a buf buf' syms' :
  tables x bufs syms n → bufs !! a = Some buf →
  used buf' = used buf → (used buf = true → auw buf' = 1) →
  ordered (ids buf') → (∀ j, j ∈ ids buf' → j < L) →
  length syms' = length syms →
  (∀ j s, syms !! j = Some s → ∃ s', syms' !! j = Some s' ∧ same_symbol a s s' ∧
     (j ∈ ids buf' ↔ a ∈ holders s' ∨ extra x' a j)) →
  (∀ b j, b ≠ a → extra x' b j ↔ extra x b j) → (∀ b, b ≠ a → delta x' b = delta x b) →
  Z.of_nat (auw buf') = (Z.of_nat (weight syms (ids buf')) + delta x' a)%Z →
  n' + owed x' = count (paired_at (<[a := buf']> bufs) syms) K →
  tables x' (<[a := buf']> bufs) syms' n' ∧ (∀ j, inact syms' j = inact syms j).
Proof.
  intros HT Ha Hu Hu1 Hord HL Hlen Hsyms Hex Hde Hw Hn.
  pose proof HT as [T1 T2 T3 T4 T5 T6 T7 T8 T9]. pose proof (lookup_lt_Some _ _ _ Ha) as Halt.
  assert (∀ j s', syms' !! j = Some s' → ∃ s, syms !! j = Some s ∧ same_symbol a s s' ∧
    (j ∈ ids buf' ↔ a ∈ holders s' ∨ extra x' a j)) as Hback.
  { intros j s' Hj. destruct (lookup_lt_is_Some_2 syms j) as [s Hs]; [rewrite <- Hlen; by eapply lookup_lt_Some|].
    destruct (Hsyms j s Hs) as (s2 & Hs2 & Hrest). assert (s2 = s') as -> by congruence. by exists s. }
  assert (∀ j, inact syms' j = inact syms j) as Hin.
  { intros j. apply inact_kind. destruct (syms !! j) as [s|] eqn:Hs.
    - destruct (Hsyms j s Hs) as (s' & -> & (Hk & _) & _). cbn. by f_equal.
    - destruct (syms' !! j) as [s'|] eqn:Hs'; [|done]. destruct (Hback j s' Hs') as (? & ? & _). congruence. }
  assert (∀ j b, syms' !! j = Some (Used b) ↔ syms !! j = Some (Used b)) as Hused.
  { intros j b. split.
    - intros Hs'. destruct (Hback _ _ Hs') as (s & Hs & (Hk & Hsame & _) & _).
      rewrite Hs. f_equal. symmetry. apply Hsame. by rewrite <- Hk.
    - intros Hs. destruct (Hsyms _ _ Hs) as (s' & Hs' & (_ & Hsame & _) & _). rewrite Hs'. f_equal. by apply Hsame. }
  split; [|done]. split; try done.
  - congruence.
  - intros b bf Hb. apply list_lookup_insert_Some in Hb as [(-> & -> & _)|(Hne & Hb)]; [done|by apply (T2 b)].
  - intros j s' Hs'. destruct (Hback j s' Hs') as (s & Hs & (_ & _ & Ho & Hh) & _). split; [done|].
    rewrite length_insert. intros b Hb. destruct (decide (b = a)) as [->|Hne]; [done|].
    apply (T3 j s Hs). by apply Hh.
  - intros b bf j s' Hb Hs'. destruct (Hback j s' Hs') as (s & Hs & (_ & _ & _ & Hh) & Hm).
    apply list_lookup_insert_Some in Hb as [(-> & -> & _)|(Hne & Hb)]; [done|].
    rewrite Hh, Hex by done. by apply T4.
  - intros b bf Hb. rewrite (weight_ext syms' syms) by done.
    apply list_lookup_insert_Some in Hb as [(-> & -> & _)|(Hne & Hb)]; [done|]. rewrite Hde by done. by apply T5.
  - intros b bf Hb. setoid_rewrite Hused.
    apply list_lookup_insert_Some in Hb as [(-> & -> & _)|(Hne & Hb)]; [|by apply T6]. rewrite Hu. by apply T6.
  - intros b bf Hb Hus. apply list_lookup_insert_Some in Hb as [(-> & -> & _)|(Hne & Hb)]; [|by eapply T7].
    apply Hu1. congruence.
  - intros i j b Hi Hj. apply Hused in Hi, Hj. by eapply T8.
  - rewrite Hn. apply count_ext. intros j _. by apply paired_at_used.
Qed.

(** Changes to a buffer that is not used, or only to its weight, leave the paired
    symbols as they are. *)
Lemma paired_at_row x bufs syms n a buf buf' :
  tables x bufs syms n → bufs !! a = Some buf →
  (used buf = false ∨ length (ids buf') = length (ids buf)) →
  ∀ j, paired_at (<[a := buf']> bufs) syms j = paired_at bufs syms j.
Proof.
  intros HT Ha Hu j. unfold paired_at. destruct (syms !! j) as [[| |b]|] eqn:Hj; try done.
  destruct (decide (b = a)) as [->|Hne]; [|by rewrite list_lookup_insert_ne].
  rewrite list_lookup_insert_eq by by eapply lookup_lt_Some. rewrite Ha.
  destruct Hu as [Hu| ->]; [|done]. exfalso.
  assert (used buf = true) by (apply (t_used _ _ _ _ HT a buf Ha); eauto). congruence.
Qed.

(** Removing a weight that is off. *)
Definition settle x (a : nat) : slack :=
  {| extra := extra x; delta := λ b, if decide (b = a) then 0%Z else delta x b; owed := owed x |}.

Lemma tables_decrement x bufs syms n a buf :
  tables x bufs syms n → bufs !! a = Some buf → used buf = false → 1 ≤ auw buf → delta x a = 1%Z →
  tables (settle x a) (<[a := with_weight buf (auw buf - 1)]> bufs) syms n.
Proof.
  intros HT Ha Hu Hw Hd. pose proof HT as [T1 T2 T3 T4 T5 T6 T7 T8 T9].
  eapply (tables_step x (settle x a) bufs syms n n a buf); cbn; try done; try (by apply (T2 a)).
  - congruence.
  - intros j s Hs. exists s. split; [done|]. split; [by apply same_symbol_refl, (T3 j)|]. by apply T4.
  - intros b Hb. by rewrite decide_False.
  - rewrite decide_True by done. specialize (T5 a buf Ha). lia.
  - rewrite T9. apply count_ext. intros j _. symmetry. eapply (paired_at_row x); eauto.
Qed.

(** ** Combining rows *)

(** Row [z] is the combination of rows [x] and [y]. *)
Definition xor_row (x y z : list nat) : Prop := ∀ j, j ∈ z ↔ (j ∈ x ∧ j ∉ y) ∨ (j ∈ y ∧ j ∉ x).

Lemma set_remove_elem (l : list nat) v l' b :
  (if decide (v ∈ l) then l ≡ₚ v :: l' else l' = l) → ordered l → b ∈ l' ↔ b ∈ l ∧ b ≠ v.
Proof.
  intros Hl Ho%ordered_NoDup. case_decide as Hv.
  - rewrite Hl in Ho. apply NoDup_cons in Ho as [Ho _]. rewrite Hl, elem_of_cons. split; [|naive_solver].
    intros Hb. split; [by right|]. by intros ->.
  - subst. split; [|naive_solver]. intros Hb. split; [done|]. by intros ->.
Qed.

Lemma set_insert_elem (l : list nat) v l' b :
  (if decide (v ∈ l) then l' = l else l' ≡ₚ v :: l) → b ∈ l' ↔ b ∈ l ∨ b = v.
Proof.
  case_decide as Hv; intros Hl; [subst; naive_solver|]. rewrite Hl, elem_of_cons. naive_solver.
Qed.

Lemma insert_or_remove_elem (l : list nat) v l' b :
  (if decide (v ∈ l) then l ≡ₚ v :: l' else l' ≡ₚ v :: l) → ordered l →
  b ∈ l' ↔ if decide (b = v) then b ∉ l else b ∈ l.
Proof.
  intros Hl Ho%ordered_NoDup. destruct (decide (v ∈ l)) as [Hv|Hv].
  - rewrite Hl in Ho. apply NoDup_cons in Ho as [Ho _]. case_decide as Hb; [subst; naive_solver|].
    rewrite Hl, elem_of_cons. naive_solver.
  - rewrite Hl, elem_of_cons. case_decide; naive_solver.
Qed.

(** The state of the loop after the symbols [done] of the other row. *)
Definition xored (a : nat) (aids : list nat) syms (done : list nat) (st : list nat * list IntermediateSymbol) : Prop :=
  ordered st.1 ∧ xor_row aids done st.1 ∧ length st.2 = length syms ∧
  ∀ j s, syms !! j = Some s → ∃ s', st.2 !! j = Some s' ∧ same_symbol a s s' ∧
    (is_inactivated s = true → a ∈ holders s' ↔ if decide (j ∈ done) then a ∉ holders s else a ∈ holders s) ∧
    (is_inactivated s = false → s' = s).

Lemma xor_symbol_spec a aids syms bdone j todo st :
  (∀ i, i ∈ bdone ++ j :: todo → i < length syms) → NoDup (bdone ++ j :: todo) →
  (∀ i, i ∈ bdone ++ j :: todo → inact syms i = false → i ∈ aids) →
  (∀ i s, syms !! i = Some s → is_inactivated s = true → a ∈ holders s ↔ i ∈ aids) →
  xored a aids syms bdone st →
  ∃ st', xor_symbol a j st = Ret st' ∧ xored a aids syms (bdone ++ [j]) st'.
Proof.
  intros Hlt Hnd Hact Hlink (Hord & Hxor & Hlen & Hsyms). destruct st as [ids0 syms0]. cbn [fst snd] in *.
  assert (j ∉ bdone) as Hjd. { apply NoDup_app in Hnd as (_ & Hd & _). intros Hin. by apply (Hd j Hin); left. }
  destruct (lookup_lt_is_Some_2 syms j) as [s Hs]; [apply Hlt; set_solver|].
  destruct (Hsyms j s Hs) as (s' & Hs' & (Hk & Hku & Ho & Hh) & Hin & Hni).
  assert (∀ ids1, (∀ b, b ∈ ids1 ↔ if decide (b = j) then b ∉ ids0 else b ∈ ids0) → xor_row aids (bdone ++ [j]) ids1) as Hrow.
  { intros ids1 Hids b. rewrite Hids. specialize (Hxor b). rewrite elem_of_app, list_elem_of_singleton.
    destruct (decide (b = j)) as [->|Hb]; tauto. }
  unfold xor_symbol, vget. rewrite Hs'. cbn [mbind run_bind expect].
  assert (is_inactivated s' = is_inactivated s) as -> by (destruct s, s'; done).
  destruct (is_inactivated s) eqn:Hi; cbn [negb].
  2: { destruct (set_remove_spec ids0 j Hord) as (ids1 & -> & Hord1 & Hids1). cbn [mbind run_bind].
       eexists. split; [done|]. split_and!; cbn [fst snd]; [done| |done|].
       - apply Hrow. intros b. rewrite (set_remove_elem _ _ _ _ Hids1 Hord).
         assert (j ∈ ids0). { apply Hxor. left. split; [|done]. apply Hact; [set_solver|]. unfold inact. by rewrite Hs. }
         destruct (decide (b = j)) as [->|]; tauto.
       - intros i t Ht. destruct (Hsyms i t Ht) as (t' & Ht' & Hsame & Hti & Htn). exists t'. split_and!; try done.
         intros Hit. rewrite Hti by done. assert (i ≠ j) by (intros ->; congruence).
         destruct (decide (i ∈ bdone)); [rewrite decide_True; [done|set_solver]|rewrite decide_False; [done|set_solver]]. }
  destruct (insert_or_remove_spec ids0 j Hord) as (ids1 & -> & Hord1 & Hids1). cbn [mbind run_bind].
  assert (j ∈ ids0 ↔ a ∈ holders s') as Hja.
  { specialize (Hxor j). rewrite Hin, decide_False by done. rewrite (Hlink j s Hs Hi). tauto. }
  assert (∃ s1, (if bool_decide (j ∉ ids0) then inactivated_insert s' a else inactivated_remove s' a) = Ret s1 ∧
    kind s1 = KInactivated ∧ ordered (holders s1) ∧ (∀ b, b ≠ a → b ∈ holders s1 ↔ b ∈ holders s') ∧
    (a ∈ holders s1 ↔ a ∉ holders s')) as (s1 & -> & Hk1 & Ho1 & Hh1 & Ha1).
  { destruct s as [l|l|l]; try done. destruct s' as [l'|l'|l']; try done. cbn in *.
    destruct (decide (j ∈ ids0)) as [Hj|Hj].
    - rewrite bool_decide_false by auto. destruct (set_remove_spec l' a Ho) as (l2 & -> & Ho2 & Hl2).
      cbn [mbind run_bind]. eexists. split; [done|]. split; [done|]. cbn. split; [done|].
      split; [intros b Hb|]; rewrite (set_remove_elem _ _ _ _ Hl2 Ho); tauto.
    - rewrite bool_decide_true by auto. destruct (set_insert_spec l' a Ho) as (l2 & -> & Ho2 & Hl2).
      cbn [mbind run_bind]. eexists. split; [done|]. split; [done|]. cbn. split; [done|].
      split; [intros b Hb|]; rewrite (set_insert_elem _ _ _ _ Hl2); tauto. }
  cbn [mbind run_bind]. rewrite vset_Ret by by eapply lookup_lt_Some. cbn [mbind run_bind].
  eexists. split; [done|]. split_and!; cbn [fst snd]; [done| |by rewrite length_insert|].
  - apply Hrow. intros b. by apply insert_or_remove_elem.
  - intros i t Ht. destruct (decide (i = j)) as [->|Hne].
    + assert (t = s) as -> by congruence. exists s1. rewrite list_lookup_insert_eq by by eapply lookup_lt_Some.
      assert (kind s = KInactivated) as Hks by (by destruct s). rewrite Hks in Hk.
      split_and!; [done| |intros _|congruence].
      * split_and!; [congruence|congruence|done|]. intros b Hb. rewrite Hh1, Hh by done. done.
      * rewrite decide_True by set_solver. rewrite Ha1, Hin, decide_False by done. done.
    + rewrite list_lookup_insert_ne by done. destruct (Hsyms i t Ht) as (t' & Ht' & Hsame & Hti & Htn).
      exists t'. split_and!; try done. intros Hit. rewrite Hti by done.
      destruct (decide (i ∈ bdone)); [rewrite decide_True; [done|set_solver]|rewrite decide_False; [done|set_solver]].
Qed.

Lemma xor_symbols_spec a aids bids syms :
  ordered aids → NoDup bids → (∀ i, i ∈ bids → i < length syms) →
  (∀ i, i ∈ bids → inact syms i = false → i ∈ aids) →
  (∀ i s, syms !! i = Some s → ordered (holders s)) →
  (∀ i s, syms !! i = Some s → is_inactivated s = true → a ∈ holders s ↔ i ∈ aids) →
  ∃ st, for_each bids (xor_symbol a) (aids, syms) = Ret st ∧ xored a aids syms bids st.
Proof.
  intros Hord Hnd Hlt Hact Hsets Hlink. apply (for_each_spec (xored a aids syms)).
  - split_and!; cbn [fst snd]; [done|intros j; set_solver|done|]. intros j s Hs. exists s.
    split_and!; [done|by apply same_symbol_refl, (Hsets j)|intros _|done]. by rewrite decide_False by set_solver.
  - intros bdone j todo st -> Hst. eapply xor_symbol_spec; eauto.
Qed.

(** ** The decoder *)

Definition class_of bufs (b : nat) : option Class := class <$> bufs !! b.

Record dec_ok x d : Prop := {
  d_params : params d = p;
  d_tables : tables x (buffer_state d) (intermediate_symbol_state d) (num_source_symbols_paired d);
  d_books : books (class_of (buffer_state d)) (length (buffer_state d))
    (buffers_active_usable d) (buffers_inactivated d) (num_redundant_buffers d);
}.

Lemma class_of_insert bufs a buf b :
  a < length bufs → upd (class_of bufs) a (class buf) b = class_of (<[a := buf]> bufs) b.
Proof.
  intros Ha. unfold upd, class_of. case_decide as Hb; [subst; by rewrite list_lookup_insert_eq|].
  by rewrite list_lookup_insert_ne.
Qed.

Lemma books_insert bufs a buf h1 h2 m :
  a < length bufs → books (upd (class_of bufs) a (class buf)) (length bufs) h1 h2 m →
  books (class_of (<[a := buf]> bufs)) (length (<[a := buf]> bufs)) h1 h2 m.
Proof.
  intros Ha Hb. rewrite length_insert. eapply books_ext; [|exact Hb]. intros b. by apply class_of_insert.
Qed.

Lemma ordered_length (l : list nat) n : ordered l → (∀ j, j ∈ l → j < n) → length l ≤ n.
Proof.
  intros Ho%ordered_NoDup Hl. rewrite <- (length_seq n 0). apply submseteq_length, NoDup_submseteq; [done|].
  intros j Hj. apply elem_of_seq. specialize (Hl j Hj). lia.
Qed.

Lemma row_u16 x bufs syms n b buf :
  tables x bufs syms n → bufs !! b = Some buf → to_u16 (length (ids buf)) = Ret (length (ids buf)).
Proof.
  intros HT Hb. destruct (t_ids _ _ _ _ HT b buf Hb) as [Ho Hl]. apply to_u16_Ret.
  pose proof (ordered_length _ _ Ho Hl). pose proof L_u16. lia.
Qed.

Lemma NonZeroU16_new_Ret w : w ≠ 0 → NonZeroU16_new w = Ret w.
Proof. intros Hw. unfold NonZeroU16_new. by rewrite assert_true. Qed.

Lemma decrement_buffer_weight_spec x d a buf :
  dec_ok x d → buffer_state d !! a = Some buf → used buf = false → 1 ≤ auw buf → delta x a = 1%Z →
  ∃ d', decrement_buffer_weight d a = Ret d' ∧ dec_ok (settle x a) d' ∧
    buffer_state d' = <[a := with_weight buf (auw buf - 1)]> (buffer_state d) ∧
    intermediate_symbol_state d' = intermediate_symbol_state d.
Proof.
  intros [HP HT HB] Ha Hu Hw Hd. unfold decrement_buffer_weight, vget. rewrite Ha.
  dsimpl. pose proof (lookup_lt_Some _ _ _ Ha) as Halt.
  assert (u16_dec (auw buf) = auw buf - 1) as -> by (destruct (auw buf); [lia|cbn; lia]).
  rewrite vset_Ret by done. dsimpl.
  pose proof (tables_decrement _ _ _ _ _ _ HT Ha Hu Hw Hd) as HT'.
  assert (class_of (buffer_state d) a = Some (CActive (auw buf))) as Hcl.
  { unfold class_of, class. rewrite Ha. cbn. by rewrite Hu, decide_True by lia. }
  set (buf' := with_weight buf (auw buf - 1)). cbn [with_weight auw] in *.
  change (auw buf') with (auw buf - 1). change (ids buf') with (ids buf). case_decide as Hpos.
  - rewrite NonZeroU16_new_Ret by lia. dsimpl.
    destruct (books_update_active _ _ _ _ _ HB a _ (auw buf - 1) Hcl) as (h1 & -> & HB').
    dsimpl. eexists. split; [done|]. split; [|done]. split; [done|done|].
    apply books_insert; [done|]. cbn. replace (class buf') with (CActive (auw buf - 1)); [done|].
    unfold class, buf'. cbn. by rewrite Hu, decide_True by lia.
  - dsimpl.
    destruct (books_remove_active _ _ _ _ _ HB a _ Hcl) as (h1 & -> & HB'). dsimpl.
    case_decide as Hids.
    + rewrite (row_u16 _ _ _ _ _ _ HT Ha). dsimpl. rewrite NonZeroU16_new_Ret by lia.
      dsimpl.
      destruct (books_insert_inactivated _ _ _ _ _ HB' a (length (ids buf)) (upd_eq _ _ _)) as (h2 & -> & HB2).
      dsimpl. eexists. split; [done|]. split; [|done]. split; [done|done|].
      apply books_insert; [done|]. cbn. replace (class buf') with (CInactivated (length (ids buf))).
      { eapply books_ext; [|exact HB2]. intros b. apply upd_upd. }
      unfold class, buf'. cbn. rewrite Hu, decide_False by lia. rewrite decide_True; [done|].
      intros He. rewrite He in Hids. cbn in Hids. lia.
    + pose proof (books_redundant _ _ _ _ _ HB' a (upd_eq _ _ _)) as HB2.
      eexists. split; [done|]. split; [|done]. split; [done|done|].
      apply books_insert; [done|]. cbn. replace (class buf') with CRedundant.
      { eapply books_ext; [|exact HB2]. intros b. apply upd_upd. }
      unfold class, buf'. cbn. rewrite Hu, !decide_False; [done| |lia].
      intros He. apply He. destruct (ids buf); [done|]. cbn in Hids. lia.
Qed.

(** ** Adding one row to another *)

Definition xor_rows (bufa bufb : Buffer) (a : nat) syms : run (list nat * list IntermediateSymbol) :=
  for_each (ids bufb) (xor_symbol a) (ids bufa, syms).

Lemma xor_rows_tables x x' bufs syms n a b bufa bufb :
  tables x bufs syms n → bufs !! a = Some bufa → bufs !! b = Some bufb → used bufa = false →
  (∀ j, j ∈ ids bufb → inact syms j = false → j ∈ ids bufa) →
  (∀ j, inact syms j = true → ¬ extra x a j ∧ ¬ extra x' a j) →
  (∀ j s, syms !! j = Some s → inact syms j = false →
     a ∈ holders s ∨ extra x' a j ↔ j ∈ ids bufa ∧ j ∉ ids bufb) →
  (∀ b j, b ≠ a → extra x' b j ↔ extra x b j) → (∀ b, b ≠ a → delta x' b = delta x b) →
  owed x' = owed x →
  ∃ row syms', xor_rows bufa bufb a syms = Ret (row, syms') ∧ ordered row ∧
    xor_row (ids bufa) (ids bufb) row ∧ (∀ j, kind <$> syms' !! j = kind <$> syms !! j) ∧
    (∀ j c, syms' !! j = Some (Used c) ↔ syms !! j = Some (Used c)) ∧
    (Z.of_nat (auw bufa) = (Z.of_nat (weight syms row) + delta x' a)%Z →
     tables x' (<[a := with_ids bufa row]> bufs) syms' n).
Proof.
  intros HT Ha Hb Hu Hact Hnoex Hfree Hex Hde How. pose proof HT as [T1 T2 T3 T4 T5 T6 T7 T8 T9].
  destruct (T2 a bufa Ha) as [Hoa Hla]. destruct (T2 b bufb Hb) as [Hob Hlb].
  destruct (xor_symbols_spec a (ids bufa) (ids bufb) syms) as ([row syms'] & Hrun & Hord & Hrow & Hlen & Hsyms).
  { done. } { by apply ordered_NoDup. } { intros i Hi. rewrite T1. by apply Hlb. } { done. }
  { intros i s Hs. by apply (T3 i). }
  { intros i s Hs Hi. rewrite (T4 a bufa i s Ha Hs).
    assert (¬ extra x a i) by (apply Hnoex; unfold inact; by rewrite Hs). tauto. }
  cbn [fst snd] in *. exists row, syms'.
  assert (∀ j s', syms' !! j = Some s' → ∃ s, syms !! j = Some s ∧ same_symbol a s s') as Hback.
  { intros j s' Hj. destruct (lookup_lt_is_Some_2 syms j) as [s Hs]; [rewrite <- Hlen; by eapply lookup_lt_Some|].
    destruct (Hsyms j s Hs) as (s2 & Hs2 & Hrest & _). assert (s2 = s') as -> by congruence. by exists s. }
  split_and!; try done.
  - intros j. destruct (syms !! j) as [s|] eqn:Hs.
    + destruct (Hsyms j s Hs) as (s' & -> & (Hk & _) & _). cbn. by f_equal.
    + destruct (syms' !! j) as [s'|] eqn:Hs'; [|done]. destruct (Hback j s' Hs') as (? & ? & _). congruence.
  - intros j c. split.
    + intros Hs'. destruct (Hback _ _ Hs') as (s & Hs & (Hk & Hsame & _)).
      rewrite Hs. f_equal. symmetry. apply Hsame. by rewrite <- Hk.
    + intros Hs. destruct (Hsyms _ _ Hs) as (s' & Hs' & (_ & Hsame & _) & _). rewrite Hs'. f_equal. by apply Hsame.
  - intros Hw. eapply (tables_step x x' bufs syms n n a bufa); cbn; try done.
    + congruence.
    + intros j Hj. apply Hrow in Hj as [[? _]|[? _]]; auto.
    + intros j s Hs. destruct (Hsyms j s Hs) as (s' & Hs' & Hsame & Hin & Hni). exists s'. split_and!; [done..|].
      specialize (T4 a bufa j s Ha Hs). specialize (Hrow j).
      destruct (is_inactivated s) eqn:Hi.
      * destruct (Hnoex j) as [Hx Hx']; [unfold inact; by rewrite Hs|].
        rewrite (Hin eq_refl). destruct (decide (j ∈ ids bufb)); destruct (decide (j ∈ ids bufa)); tauto.
      * rewrite (Hni eq_refl). rewrite (Hfree j s Hs) by (unfold inact; by rewrite Hs).
        specialize (Hact j). unfold inact in Hact. rewrite Hs in Hact. tauto.
    + rewrite How, T9. apply count_ext. intros j _. symmetry. eapply (paired_at_row x); eauto.
Qed.

Lemma weight_xor syms (x y z : list nat) (j0 : nat) :
  NoDup x → NoDup z → xor_row x y z → j0 ∈ x → j0 ∈ y → inact syms j0 = false →
  (∀ j, j ∈ y → inact syms j = false → j = j0) → weight syms x = S (weight syms z).
Proof.
  intros Hx Hz Hrow Hjx Hjy Hj0 Hy. unfold weight.
  change (S (length (filter (λ j, inact syms j = false) z))) with (length (j0 :: filter (λ j, inact syms j = false) z)).
  apply Permutation_length, NoDup_Permutation.
  - by apply NoDup_filter.
  - apply NoDup_cons. split; [|by apply NoDup_filter]. intros [_ Hin]%list_elem_of_filter. apply Hrow in Hin. tauto.
  - intros j. rewrite elem_of_cons, !list_elem_of_filter, (Hrow j). split.
    + intros [Hj Hjin]. destruct (decide (j = j0)) as [->|Hne]; [by left|]. right. split; [done|]. left.
      split; [done|]. intros Hjy'. by apply Hne, Hy.
    + intros [->|[Hj [[? _]|[Hjy' Hjx']]]]; [done|done|]. specialize (Hy j Hjy' Hj). by subst.
Qed.

Lemma weight_zero syms row : (∀ j, j ∈ row → inact syms j = true) → weight syms row = 0.
Proof.
  intros Hrow. pose proof (weight_pos syms row) as Hw. destruct (weight syms row); [done|].
  destruct (proj1 Hw) as (j & Hj & Hi); [lia|]. rewrite (Hrow j Hj) in Hi. done.
Qed.

Lemma weight_zero_inv syms row j : weight syms row = 0 → j ∈ row → inact syms j = true.
Proof.
  intros Hw Hj. destruct (inact syms j) eqn:Hi; [done|].
  assert (0 < weight syms row) by (apply weight_pos; eauto). lia.
Qed.
End tables.
