(* ===== verification/RaptorSteps.v ===== *)
(** * The steps of the Raptor decoder

    Peeling, reactivation, inactivation and elimination keep the tables
    consistent, end, and combine buffers as the tables say. *)
From S2P Require Import Prelude RaptorSet RaptorHeap RaptorMatrix RaptorParams RaptorDecoder.
From S2P Require Import RaptorDecoderSpec.

#[global] Instance Kind_eq_dec : EqDecision Kind.
Proof. solve_decision. Defined.

Section steps.
Context (p : CodeParameters) (Hp : params_ok p).
Abbreviation L := (num_intermediate_symbols p).
Abbreviation K := (num_source_symbols p).
Implicit Types (bufs : list Buffer) (syms : list IntermediateSymbol) (x : slack).

(** ** A symbol is recovered *)

Lemma weight_activate syms syms' (row : list nat) (j0 : nat) :
  NoDup row → (∀ j, j ≠ j0 → inact syms' j = inact syms j) → inact syms' j0 = false →
  weight syms' row = weight syms row + (if decide (j0 ∈ row ∧ inact syms j0 = true) then 1 else 0).
Proof.
  intros Hnd Hne H0. induction Hnd as [|j row Hj Hnd IH]; [done|].
  rewrite !weight_cons, IH. destruct (decide (j = j0)) as [->|Hjj].
  - rewrite H0. rewrite (decide_False (P := j0 ∈ row ∧ _)) by tauto.
    destruct (inact syms j0); [rewrite decide_True by (split; [left|done]); lia|].
    rewrite decide_False by (intros [_ ?]; done). lia.
  - rewrite Hne by done. destruct (decide (j0 ∈ row ∧ inact syms j0 = true)) as [[??]|Hn].
    + rewrite decide_True by (split; [by right|done]). lia.
    + rewrite decide_False; [lia|]. rewrite elem_of_cons. intros [[?|?] ?]; [done|tauto].
Qed.

Definition used_slack (s : IntermediateSymbol) (r j0 : nat) (buf : Buffer) : slack :=
  {| extra := λ b j, j = j0 ∧ b ∈ holders s ∧ b ≠ r;
     delta := λ b, if decide (kind s = KInactivated ∧ b ∈ holders s ∧ b ≠ r) then (-1)%Z else 0%Z;
     owed := if decide (j0 < K ∧ length (ids buf) = 1) then 1 else 0 |}.

Lemma inact_insert syms j0 s j :
  j0 < length syms → inact (<[j0 := s]> syms) j = if decide (j = j0) then is_inactivated s else inact syms j.
Proof.
  intros Hj. unfold inact. case_decide as He; [subst; by rewrite list_lookup_insert_eq|].
  by rewrite list_lookup_insert_ne.
Qed.

Lemma paired_make_used bufs syms r j0 buf s :
  bufs !! r = Some buf → syms !! j0 = Some s → kind s ≠ KUsed → (∀ j, syms !! j ≠ Some (Used r)) →
  count (paired_at (<[r := with_used (with_weight buf 1) true]> bufs) (<[j0 := Used r]> syms)) K =
  count (paired_at bufs syms) K + owed (used_slack s r j0 buf).
Proof.
  intros Hr Hj0 Hk Hnor. set (P := paired_at bufs syms). set (Q := paired_at _ _). cbn.
  pose proof (lookup_lt_Some _ _ _ Hr) as Hrl. pose proof (lookup_lt_Some _ _ _ Hj0) as Hjl.
  assert (∀ j, j ≠ j0 → P j = Q j) as HPQ.
  { intros j Hj. unfold P, Q, paired_at. rewrite list_lookup_insert_ne by done.
    destruct (syms !! j) as [[| |b]|] eqn:Hsj; try done. rewrite list_lookup_insert_ne; [done|].
    intros <-. by apply Hnor in Hsj. }
  assert (P j0 = false) as HP0. { unfold P, paired_at. rewrite Hj0. by destruct s. }
  assert (Q j0 = bool_decide (length (ids buf) = 1)) as HQ0.
  { unfold Q, paired_at. by rewrite !list_lookup_insert_eq. }
  destruct (decide (j0 < K)) as [HK|HK].
  - pose proof (count_change P Q K j0 HK ltac:(intros; by apply HPQ)) as Hc. rewrite HP0, HQ0 in Hc.
    destruct (decide (length (ids buf) = 1)) as [Hl|Hl].
    + rewrite bool_decide_true in Hc by done. rewrite decide_True by done. lia.
    + rewrite bool_decide_false in Hc by done. rewrite decide_False by tauto. lia.
  - rewrite decide_False by tauto. rewrite Nat.add_0_r. apply count_ext. intros j Hj. symmetry. apply HPQ. lia.
Qed.

Lemma tables_make_used bufs syms n r j0 buf s :
  tables p no_slack bufs syms n → bufs !! r = Some buf → syms !! j0 = Some s → kind s ≠ KUsed →
  used buf = false → j0 ∈ ids buf → (∀ j, j ∈ ids buf → j ≠ j0 → inact syms j = true) →
  tables p (used_slack s r j0 buf) (<[r := with_used (with_weight buf 1) true]> bufs)
    (<[j0 := Used r]> syms) n.
Proof.
  intros [T1 T2 T3 T4 T5 T6 T7 T8 T9] Hr Hj0 Hk Hu Hin Hrest.
  pose proof (lookup_lt_Some _ _ _ Hr) as Hrl. pose proof (lookup_lt_Some _ _ _ Hj0) as Hjl.
  set (buf' := with_used (with_weight buf 1) true).
  assert (∀ b bf, <[r := buf']> bufs !! b = Some bf → ∃ bf0, bufs !! b = Some bf0 ∧ ids bf = ids bf0) as Hids.
  { intros b bf Hb. apply list_lookup_insert_Some in Hb as [(<- & <- & _)|(Hne & Hb)];
      [by exists buf|by exists bf]. }
  assert (∀ j, j ≠ j0 → inact (<[j0 := Used r]> syms) j = inact syms j) as Hina.
  { intros j Hj. rewrite inact_insert, decide_False by done. done. }
  assert (inact (<[j0 := Used r]> syms) j0 = false) as Hina0.
  { rewrite inact_insert, decide_True by done. done. }
  assert (inact syms j0 = true ↔ kind s = KInactivated) as Hs.
  { unfold inact. rewrite Hj0. by destruct s. }
  assert (∀ j, syms !! j ≠ Some (Used r)) as Hnor.
  { intros j Hj. assert (used buf = true) by (apply (T6 r buf Hr); eauto). congruence. }
  split.
  - by rewrite length_insert.
  - intros b bf Hb. destruct (Hids b bf Hb) as (bf0 & Hb0 & ->). by apply (T2 b).
  - intros j t Ht. rewrite length_insert.
    apply list_lookup_insert_Some in Ht as [(<- & <- & _)|(Hne & Ht)]; [|by apply (T3 j)].
    cbn. split; [repeat constructor|]. intros b Hb%list_elem_of_singleton. by subst.
  - intros b bf j t Hb Ht. destruct (Hids b bf Hb) as (bf0 & Hb0 & ->).
    apply list_lookup_insert_Some in Ht as [(<- & <- & _)|(Hne & Ht)]; cbn.
    + rewrite (T4 b bf0 j0 s Hb0 Hj0), list_elem_of_singleton. cbn.
      assert (b = r → b ∈ holders s). { intros ->. assert (bf0 = buf) as -> by congruence.
        apply (T4 r buf j0 s Hr Hj0) in Hin as [?|[]]. done. }
      destruct (decide (b = r)); tauto.
    + rewrite (T4 b bf0 j t Hb0 Ht). cbn. naive_solver.
  - intros b bf Hb. apply list_lookup_insert_Some in Hb as [(<- & <- & _)|(Hne & Hb)]; cbn.
    + rewrite decide_False by tauto. destruct (T2 r buf Hr) as [Ho _].
      apply elem_of_Permutation in Hin as [rest Hperm]. rewrite (weight_Permutation _ _ _ Hperm), weight_cons, Hina0.
      rewrite weight_zero; [done|]. intros j Hj. apply ordered_NoDup in Ho. rewrite Hperm in Ho.
      apply NoDup_cons in Ho as [Ho _]. assert (j ≠ j0) by (by intros ->). rewrite Hina by done.
      apply Hrest; [|done]. rewrite Hperm. by right.
    + destruct (T2 b bf Hb) as [Ho _]. rewrite (weight_activate syms _ _ j0) by (done || by apply ordered_NoDup).
      rewrite (T5 b bf Hb). cbn.
      pose proof (T4 b bf j0 s Hb Hj0) as Hm. cbn in Hm.
      destruct (decide (j0 ∈ ids bf ∧ inact syms j0 = true)) as [[??]|Hn].
      * rewrite decide_True by (split_and!; [tauto|tauto|done]). lia.
      * rewrite decide_False by tauto. lia.
  - intros b bf Hb. apply list_lookup_insert_Some in Hb as [(<- & <- & _)|(Hne & Hb)]; cbn.
    + split; [|done]. intros _. exists j0. by rewrite list_lookup_insert_eq.
    + rewrite (T6 b bf Hb). split; intros [j Hj].
      * exists j. rewrite list_lookup_insert_ne; [done|]. intros ->. rewrite Hj0 in Hj. injection Hj as ->. done.
      * exists j. apply list_lookup_insert_Some in Hj as [(<- & [= <-] & _)|(_ & Hj)]; done.
  - intros b bf Hb Hus. apply list_lookup_insert_Some in Hb as [(<- & <- & _)|(Hne & Hb)]; [done|by eapply T7].
  - intros i j b Hi Hj. apply list_lookup_insert_Some in Hi as [(<- & [= <-] & _)|(Hi1 & Hi)];
      apply list_lookup_insert_Some in Hj as [(<- & Hjj & _)|(Hj1 & Hj)].
    + done.
    + by apply Hnor in Hj.
    + injection Hjj as ->. by apply Hnor in Hi.
    + by eapply T8.
  - cbn in T9. rewrite Nat.add_0_r in T9. rewrite T9. symmetry. by apply (paired_make_used bufs syms r j0 buf s).
Qed.

(** ** The caller's state *)

Definition buffer_id (b : nat) : BufferId :=
  if decide (b < num_ldpc_symbols p + num_half_symbols p) then TempBuffer b
  else ReceiveBuffer (b - (num_ldpc_symbols p + num_half_symbols p)).

Definition rows bufs : list (list nat) := ids <$> bufs.

Definition kinds syms : list Kind := kind <$> syms.

Lemma kinds_ext syms syms' : (∀ j, kind <$> syms' !! j = kind <$> syms !! j) → kinds syms' = kinds syms.
Proof. intros Hk. apply list_eq. intros j. unfold kinds. by rewrite !list_lookup_fmap. Qed.

Lemma rows_lookup bufs b buf : bufs !! b = Some buf → rows bufs !! b = Some (ids buf).
Proof. intros Hb. unfold rows. by rewrite list_lookup_fmap, Hb. Qed.

Lemma rows_same bufs a buf buf' :
  bufs !! a = Some buf → ids buf' = ids buf → rows (<[a := buf']> bufs) = rows bufs.
Proof.
  intros Ha He. unfold rows. rewrite list_fmap_insert, He. apply list_insert_id. by rewrite list_lookup_fmap, Ha.
Qed.

Context {B : Type} (xor_buffers : BufferId → BufferId → B → run B).
Context (R : B → list (list nat) → Prop).
Context (Hxor : ∀ s rs a b u v z,
  R s rs → rs !! a = Some u → rs !! b = Some v → a ≠ b → ordered z → xor_row u v z →
  ∃ s', xor_buffers (buffer_id a) (buffer_id b) s = Ret s' ∧ R s' (<[a := z]> rs)).

Record st_ok x (st : Decoder * B) : Prop := {
  so_dec : dec_ok p x st.1;
  so_rows : R st.2 (rows (buffer_state st.1));
}.

Lemma call_xor_spec d s rs a b u v z :
  params d = p → R s rs → rs !! a = Some u → rs !! b = Some v → a ≠ b → ordered z → xor_row u v z →
  ∃ s', call_xor_buffers xor_buffers d a b s = Ret s' ∧ R s' (<[a := z]> rs).
Proof.
  intros HP HR Ha Hb Hab Hz Hrow. unfold call_xor_buffers, buffer_index_to_buffer_id,
    num_redundant_intermediate_symbols. rewrite HP. by eapply Hxor.
Qed.

(** ** Peeling *)

Definition peel_slack (l done : list nat) (r j0 o : nat) : slack :=
  {| extra := λ b j, j = j0 ∧ b ∈ l ∧ b ≠ r ∧ b ∉ done; delta := λ _, 0%Z; owed := o |}.

Record peeling (l : list nat) (r j0 o : nat) (bufr : Buffer) (ks : list Kind) (done : list nat)
    (st : Decoder * B) : Prop := {
  pl_ok : st_ok (peel_slack l done r j0 o) st;
  pl_reducing : buffer_state st.1 !! r = Some bufr;
  pl_symbol : intermediate_symbol_state st.1 !! j0 = Some (Used r);
  pl_kinds : kinds (intermediate_symbol_state st.1) = ks;
  pl_range b : b ∈ l → b < length (buffer_state st.1);
}.

Lemma used_others x bufs syms n r j0 bufr :
  tables p x bufs syms n → (∀ b, delta x b = 0%Z) → bufs !! r = Some bufr → syms !! j0 = Some (Used r) →
  j0 ∈ ids bufr ∧ inact syms j0 = false ∧ used bufr = true ∧ weight syms (ids bufr) = 1 ∧
  ∀ j, j ∈ ids bufr → inact syms j = false → j = j0.
Proof.
  intros HT Hd Hr Hj. assert (j0 ∈ ids bufr) as Hin by (apply (t_match _ _ _ _ _ HT r bufr j0 _ Hr Hj); left; cbn; left).
  assert (inact syms j0 = false) as Hi by (unfold inact; by rewrite Hj).
  assert (used bufr = true) as Hu by (apply (t_used _ _ _ _ _ HT r bufr Hr); eauto).
  pose proof (t_used_weight _ _ _ _ _ HT r bufr Hr Hu) as Hw.
  pose proof (t_weight _ _ _ _ _ HT r bufr Hr) as Hw'. rewrite Hd in Hw'.
  split_and!; [done..|lia|]. intros j Hjin Hji. eapply (weight_one syms (ids bufr)); done || lia.
Qed.

Lemma buffer_peel_xor_eq_spec l r j0 o bufr ks done st a :
  peeling l r j0 o bufr ks done st → a ∈ l → a ∉ done → a ≠ r →
  ∃ d' bufa row, buffer_peel_xor_eq st.1 a r = Ret d' ∧
    buffer_state st.1 !! a = Some bufa ∧ used bufa = false ∧ 1 ≤ auw bufa ∧
    ordered row ∧ xor_row (ids bufa) (ids bufr) row ∧
    dec_ok p {| extra := extra (peel_slack l (done ++ [a]) r j0 o);
                delta := λ b, if decide (b = a) then 1%Z else 0%Z; owed := o |} d' ∧
    buffer_state d' = <[a := with_ids bufa row]> (buffer_state st.1) ∧
    kinds (intermediate_symbol_state d') = ks ∧ intermediate_symbol_state d' !! j0 = Some (Used r).
Proof.
  intros [[[HP HT HB] HR] Hr Hj0 Hk Hrng] Hal Had Har. destruct st as [d s]. cbn [fst snd] in *.
  destruct (lookup_lt_is_Some_2 (buffer_state d) a) as [bufa Ha]; [by apply Hrng|].
  destruct (used_others _ _ _ _ r j0 bufr HT (λ _, eq_refl) Hr Hj0) as (Hjr & Hij & Hur & Hwr & Hoth).
  assert (j0 ∈ ids bufa) as Hja by (apply (t_match _ _ _ _ _ HT a bufa j0 _ Ha Hj0); by right).
  assert (used bufa = false) as Hua.
  { destruct (used bufa) eqn:Hua; [|done]. apply (t_used _ _ _ _ _ HT a bufa Ha) in Hua as [j1 Hj1].
    destruct (used_others _ _ _ _ a j1 bufa HT (λ _, eq_refl) Ha Hj1) as (_ & _ & _ & _ & Hoth').
    rewrite <- (Hoth' j0 Hja Hij) in Hj1. rewrite Hj0 in Hj1. congruence. }
  assert (1 ≤ auw bufa) as Hwa.
  { pose proof (t_weight _ _ _ _ _ HT a bufa Ha) as Hw. cbn in Hw.
    assert (0 < weight (intermediate_symbol_state d) (ids bufa)) by (apply weight_pos; eauto). lia. }
  set (x' := {| extra := _; delta := _; owed := o |}).
  destruct (xor_rows_tables p Hp _ x' _ _ _ a r bufa bufr HT Ha Hr Hua)
    as (row & syms' & Hrun & Hord & Hrow & Hks & Hus & HT').
  { intros j Hj Hji. by rewrite (Hoth j Hj Hji). }
  { intros j Hji. cbn. assert (j ≠ j0) by (intros ->; congruence). tauto. }
  { intros j sj Hsj Hji. cbn. pose proof (t_match _ _ _ _ _ HT a bufa j sj Ha Hsj) as Hm. cbn in Hm.
    destruct (decide (j = j0)) as [->|Hne].
    - rewrite Hj0 in Hsj. injection Hsj as <-. cbn. rewrite list_elem_of_singleton. set_solver.
    - assert (j ∉ ids bufr) by (intros Hjr'; by apply Hne, Hoth). tauto. }
  { intros b j Hb. cbn. set_solver. }
  { intros b Hb. cbn. by rewrite decide_False. }
  { done. }
  exists (with_symbol_state (with_buffer_state d (<[a := with_ids bufa row]> (buffer_state d))) syms'), bufa, row.
  unfold xor_rows in Hrun. unfold buffer_peel_xor_eq, get_two_mut. rewrite assert_true by done.
  unfold vget. rewrite Ha, Hr. dsimpl. rewrite Hrun. dsimpl. rewrite vset_Ret by by eapply lookup_lt_Some.
  dsimpl. destruct (t_ids _ _ _ _ _ HT a bufa Ha) as [Hoa _].
  split_and!; try done.
  - split; dsimpl; [done| |].
    + apply HT'. cbn. rewrite decide_True by done. pose proof (t_weight _ _ _ _ _ HT a bufa Ha) as Hw. cbn in Hw.
      rewrite (weight_xor _ (ids bufa) (ids bufr) row j0) in Hw by (done || by apply ordered_NoDup). lia.
    + apply books_insert; [by eapply lookup_lt_Some|]. eapply books_ext; [|exact HB]. intros b. unfold upd.
      case_decide as Hb; [subst b|done]. unfold class_of. rewrite Ha. cbn. unfold class. cbn. rewrite Hua.
      by rewrite !decide_True by lia.
  - rewrite <- Hk. by apply kinds_ext.
  - by apply Hus.
Qed.

Lemma dec_ok_ext x x' d :
  (∀ b j, extra x b j ↔ extra x' b j) → (∀ b, delta x b = delta x' b) → owed x = owed x' →
  dec_ok p x d → dec_ok p x' d.
Proof. intros He Hd Ho [HP HT HB]. split; [done| |done]. by apply (tables_ext p x). Qed.

Lemma peel_reducee_spec l r j0 o bufr ks done st a :
  peeling l r j0 o bufr ks done st → a ∈ l → a ∉ done →
  ∃ st', peel_reducee xor_buffers r a st = Ret st' ∧ peeling l r j0 o bufr ks (done ++ [a]) st'.
Proof.
  intros HI Hal Had. destruct st as [d s]. unfold peel_reducee. case_decide as Har.
  2: { subst a. exists (d, s). split; [done|].
       destruct HI as [[Hd HR] Hr Hj0 Hk Hrng]. split; try done. split; [|done].
       eapply dec_ok_ext; [| | |exact Hd]; try done. intros b j. cbn. set_solver. }
  destruct (buffer_peel_xor_eq_spec l r j0 o bufr ks done (d, s) a HI Hal Had Har)
    as (d1 & bufa & row & Hrun & Ha & Hua & Hwa & Hord & Hrow & Hd1 & Hb1 & Hk1 & Hj1).
  cbn [fst] in *. rewrite Hrun. dsimpl. destruct HI as [[[HP _ _] HR] Hr Hj0 Hk Hrng]. cbn [fst snd] in *.
  pose proof (lookup_lt_Some _ _ _ Ha) as Halt.
  destruct (decrement_buffer_weight_spec p Hp _ d1 a (with_ids bufa row) Hd1) as (d2 & -> & Hd2 & Hb2 & Hs2);
    [by rewrite Hb1, list_lookup_insert_eq|done|done|cbn; by rewrite decide_True|].
  dsimpl. assert (rows (buffer_state d2) = <[a := row]> (rows (buffer_state d))) as Hrows.
  { rewrite Hb2, Hb1. unfold rows. rewrite !list_fmap_insert. cbn. by rewrite list_insert_insert_eq. }
  destruct (call_xor_spec d2 s (rows (buffer_state d)) a r (ids bufa) (ids bufr) row) as (s' & -> & HR');
    [by apply Hd2|done|by apply rows_lookup|by apply rows_lookup|done|done|done|].
  dsimpl. eexists. split; [done|]. split; cbn [fst snd].
  - split; cbn [fst snd]; [|by rewrite Hrows]. eapply dec_ok_ext; [| | |exact Hd2]; try done.
    intros b. cbn. by case_decide.
  - rewrite Hb2, Hb1. by rewrite !list_lookup_insert_ne.
  - by rewrite Hs2.
  - by rewrite Hs2.
  - intros b Hb. rewrite Hb2, Hb1, !length_insert. by apply Hrng.
Qed.

Lemma find_active_spec syms (row : list nat) :
  (∀ j, j ∈ row → j < length syms) →
  (∃ j l, j ∈ row ∧ syms !! j = Some (Active l)) →
  ∃ j l, find_active syms row = Ret (Some j) ∧ j ∈ row ∧ syms !! j = Some (Active l).
Proof.
  induction row as [|i row IH]; intros Hlt (j & l & Hj & Hsj); [set_solver|]. cbn.
  destruct (lookup_lt_is_Some_2 syms i) as [si Hsi]; [apply Hlt; left|]. unfold vget. rewrite Hsi. dsimpl.
  destruct (is_active si) eqn:Hi.
  - destruct si as [l'| |]; try done. exists i, l'. split_and!; [done|left|done].
  - destruct IH as (j' & l' & -> & ? & ?).
    + intros j' Hj'. apply Hlt. by right.
    + apply elem_of_cons in Hj as [->|Hj]; [rewrite Hsi in Hsj; simplify_eq|]. eauto.
    + exists j', l'. split_and!; [done|by right|done].
Qed.

(** Every row with a weight that is not used has an active symbol. *)
Lemma first_active x d b buf :
  dec_ok p x d → (∀ b j, ¬ extra x b j) → (∀ b, delta x b = 0%Z) → buffer_state d !! b = Some buf →
  used buf = false → auw buf ≠ 0 →
  ∃ j l, buffer_first_active_intermediate_symbol d b = Ret j ∧ j ∈ ids buf ∧
    intermediate_symbol_state d !! j = Some (Active l).
Proof.
  intros [HP HT HB] Hx Hd Hb Hu Hw. destruct (t_ids _ _ _ _ _ HT b buf Hb) as [_ Hl].
  unfold buffer_first_active_intermediate_symbol, vget. rewrite Hb. dsimpl.
  destruct (find_active_spec (intermediate_symbol_state d) (ids buf)) as (j & l & -> & Hj & Hsj).
  - intros j Hj. rewrite (t_symbols _ _ _ _ _ HT). by apply Hl.
  - pose proof (t_weight _ _ _ _ _ HT b buf Hb) as Hw'. rewrite Hd in Hw'.
    destruct (proj1 (weight_pos (intermediate_symbol_state d) (ids buf))) as (j & Hj & Hi); [lia|].
    destruct (t_symbol p _ _ _ _ j HT) as [sj Hsj]; [by apply Hl|]. exists j.
    pose proof (proj1 (t_match _ _ _ _ _ HT b buf j sj Hb Hsj) Hj) as [Hh|Hh]; [|by apply Hx in Hh].
    unfold inact in Hi. rewrite Hsj in Hi. destruct sj as [l|l|c]; [eauto|done|]. cbn in Hh.
    apply list_elem_of_singleton in Hh. subst c.
    assert (used buf = true) by (apply (t_used _ _ _ _ _ HT b buf Hb); eauto). congruence.
  - dsimpl. eauto.
Qed.

Lemma active_weight_class d b w :
  active_weight (class_of (buffer_state d) b) = Some w →
  ∃ buf, buffer_state d !! b = Some buf ∧ used buf = false ∧ auw buf = w ∧ w ≠ 0.
Proof.
  unfold class_of. destruct (buffer_state d !! b) as [buf|]; [|done]. cbn. unfold class.
  destruct (used buf) eqn:Hu; [done|]. case_decide as Hw; [|by case_decide]. intros [= <-]. by exists buf.
Qed.

Lemma inactivated_weight_class d b w :
  inactivated_weight (class_of (buffer_state d) b) = Some w →
  ∃ buf, buffer_state d !! b = Some buf ∧ used buf = false ∧ auw buf = 0 ∧ length (ids buf) = w ∧ w ≠ 0.
Proof.
  unfold class_of. destruct (buffer_state d !! b) as [buf|]; [|done]. cbn. unfold class.
  destruct (used buf) eqn:Hu; [done|]. case_decide as Hw; [done|]. case_decide as Hi; [|done].
  intros [= <-]. exists buf. split_and!; [done..|lia|done|]. destruct (ids buf); done.
Qed.

(** Counting the recovered symbol settles what is left. *)
Lemma dec_ok_paired x d (b : bool) :
  dec_ok p x d → (∀ b j, ¬ extra x b j) → (∀ b, delta x b = 0%Z) → owed x = (if b then 1 else 0) →
  dec_ok p no_slack (if b then inc_paired d else d).
Proof.
  intros [HP [T1 T2 T3 T4 T5 T6 T7 T8 T9] HB] Hx Hd Ho.
  split; [by destruct b| |by destruct b]. rewrite Ho in T9.
  assert (tables p no_slack (buffer_state d) (intermediate_symbol_state d)
    (num_source_symbols_paired d + (if b then 1 else 0))) as HT.
  { split; try done.
    - intros c buf j sj Hc Hj. rewrite (T4 c buf j sj Hc Hj). cbn. specialize (Hx c j). tauto.
    - intros c buf Hc. rewrite (T5 c buf Hc), Hd. done.
    - rewrite T9. cbn. lia. }
  destruct b; dsimpl; [by rewrite Nat.add_1_r in HT|by rewrite Nat.add_0_r in HT].
Qed.

Lemma kinds_insert syms j s : kinds (<[j := s]> syms) = <[j := kind s]> (kinds syms).
Proof. apply list_fmap_insert. Qed.

Lemma kinds_lookup syms j s : syms !! j = Some s → kinds syms !! j = Some (kind s).
Proof. intros Hj. unfold kinds. by rewrite list_lookup_fmap, Hj. Qed.

(** The state before the loop over the buffers of the symbol. *)
Definition peel_start d h1 (r j0 : nat) (buf : Buffer) : Decoder :=
  with_symbol_state
    (with_buffer_state (with_active_usable d h1)
      (<[r := with_used (with_weight buf 1) true]> (buffer_state d)))
    (<[j0 := Used r]> (intermediate_symbol_state d)).

Lemma peeling_start d s h1 r j0 buf l :
  dec_ok p no_slack d → R s (rows (buffer_state d)) →
  books (upd (class_of (buffer_state d)) r CUsed) (length (buffer_state d)) h1
    (buffers_inactivated d) (num_redundant_buffers d) →
  buffer_state d !! r = Some buf → used buf = false → auw buf = 1 → j0 ∈ ids buf →
  intermediate_symbol_state d !! j0 = Some (Active l) →
  peeling l r j0 (owed (used_slack (Active l) r j0 buf)) (with_used (with_weight buf 1) true)
    (<[j0 := KUsed]> (kinds (intermediate_symbol_state d))) [] (peel_start d h1 r j0 buf, s).
Proof.
  intros [HP HT _] HR HB Hr Hu Ha Hj0 Hsj. unfold peel_start. split; dsimpl.
  - split; dsimpl; [|by rewrite rows_same with (buf := buf)]. split; dsimpl; [done| |].
    + eapply (tables_ext p (used_slack (Active l) r j0 buf)); [| | |eapply (tables_make_used _ _ _ r j0 buf)]; try done.
      * intros b j. cbn. set_solver.
      * intros j Hj Hne. destruct (inact (intermediate_symbol_state d) j) eqn:Hi; [done|]. exfalso.
        apply Hne. eapply (weight_one (intermediate_symbol_state d) (ids buf)); try done.
        -- pose proof (t_weight _ _ _ _ _ HT r buf Hr) as Hwt. cbn in Hwt. lia.
        -- unfold inact. by rewrite Hsj.
    + apply books_insert; [by eapply lookup_lt_Some|]. done.
  - by rewrite list_lookup_insert_eq by by eapply lookup_lt_Some.
  - by rewrite list_lookup_insert_eq by by eapply lookup_lt_Some.
  - by rewrite kinds_insert.
  - intros b Hb. rewrite length_insert. by apply (t_sets _ _ _ _ _ HT j0 _ Hsj).
Qed.

Lemma peel_one_spec st r :
  st_ok no_slack st → weight_of (buffers_active_usable st.1) r = Some 1 →
  ∃ st' j0, peel_one xor_buffers r st = Ret st' ∧ st_ok no_slack st' ∧
    kinds (intermediate_symbol_state st.1) !! j0 = Some KActive ∧
    kinds (intermediate_symbol_state st'.1) = <[j0 := KUsed]> (kinds (intermediate_symbol_state st.1)).
Proof.
  destruct st as [d s]. intros [Hd HR] Hw. pose proof Hd as [HP HT HB]. cbn [fst snd] in *.
  rewrite (bk_active_weight _ _ _ _ _ HB) in Hw.
  destruct (active_weight_class _ _ _ Hw) as (buf & Hr & Hu & Ha & _).
  assert (class_of (buffer_state d) r = Some (CActive 1)) as Hcl.
  { unfold class_of, class. rewrite Hr. cbn. by rewrite Hu, decide_True, Ha by lia. }
  destruct (books_remove_active _ _ _ _ _ HB r 1 Hcl) as (h1 & Hh1 & HB1).
  destruct (first_active no_slack d r buf Hd ltac:(auto) (λ _, eq_refl) Hr Hu ltac:(lia))
    as (j0 & l & Hfirst & Hj0 & Hsj).
  unfold peel_one. rewrite Hh1. dsimpl.
  change (buffer_first_active_intermediate_symbol (with_active_usable d h1) r)
    with (buffer_first_active_intermediate_symbol d r).
  rewrite Hfirst. unfold vget. dsimpl. rewrite Hr. dsimpl. rewrite vset_Ret by by eapply lookup_lt_Some.
  dsimpl. rewrite Hsj. dsimpl. cbn [active_make_used]. dsimpl. rewrite vset_Ret by by eapply lookup_lt_Some. dsimpl.
  destruct (t_ids _ _ _ _ _ HT r buf Hr) as [Hobuf _]. destruct (t_sets _ _ _ _ _ HT j0 _ Hsj) as [Hol Hll]. cbn in Hol, Hll.
  assert (with_used buf true = with_used (with_weight buf 1) true) as Hbuf by (destruct buf; cbn in *; by subst).
  rewrite Hbuf.
  change (for_each l _ _) with (for_each l (peel_reducee xor_buffers r) (peel_start d h1 r j0 buf, s)).
  destruct (for_each_spec (peeling l r j0 (owed (used_slack (Active l) r j0 buf)) (with_used (with_weight buf 1) true)
    (<[j0 := KUsed]> (kinds (intermediate_symbol_state d)))) l (peel_reducee xor_buffers r)
    (peel_start d h1 r j0 buf, s)) as ([d1 s1] & -> & [[Hd1 HR1] Hr1 Hj1 Hk1 Hrng1]).
  - by apply peeling_start.
  - intros done a todo st Hl Hst. apply peel_reducee_spec; [done|rewrite Hl; set_solver|].
    apply ordered_NoDup in Hol. rewrite Hl in Hol. apply NoDup_app in Hol as (_ & Hdis & _). intros Hin.
    apply (Hdis a Hin). left.
  - cbn [fst snd] in *. dsimpl. rewrite Hr1. dsimpl. eexists _, j0. split; [done|].
    change (ids (with_used (with_weight buf 1) true)) with (ids buf). split_and!.
    + split; dsimpl; cbn [fst snd].
      * pose proof (d_params _ _ _ Hd1) as HP1. rewrite HP1.
        pose proof (dec_ok_paired _ d1 (bool_decide (length (ids buf) = 1 ∧ j0 < K)) Hd1) as Hfin.
        destruct (decide (length (ids buf) = 1 ∧ j0 < K)) as [Hc|Hc].
        -- rewrite bool_decide_true in Hfin by done. apply Hfin; [set_solver|done|].
           cbn. by rewrite decide_True by tauto.
        -- rewrite bool_decide_false in Hfin by done. apply Hfin; [set_solver|done|].
           cbn. by rewrite decide_False by tauto.
      * by case_decide.
    + by apply (kinds_lookup _ _ (Active l)).
    + cbn [fst snd]. by case_decide.
Qed.

(** Symbols that are not recovered, and symbols that are active. *)
Definition unused (ks : list Kind) : nat := length (filter (λ k, k ≠ KUsed) ks).

Definition actives (ks : list Kind) : nat := length (filter (λ k, k = KActive) ks).

Definition potential (st : Decoder * B) : nat :=
  unused (kinds (intermediate_symbol_state st.1)) + actives (kinds (intermediate_symbol_state st.1)).

Lemma filter_insert_length {A} (P : A → Prop) `{!∀ y, Decision (P y)} (l : list A) j y z :
  l !! j = Some y →
  length (filter P (<[j := z]> l)) + (if decide (P y) then 1 else 0) =
  length (filter P l) + (if decide (P z) then 1 else 0).
Proof.
  revert j. induction l as [|h l IH]; intros [|j] Hj; [done|done| |].
  - injection Hj as ->. cbn [insert list_insert]. rewrite !filter_cons. repeat case_decide; cbn; lia.
  - specialize (IH j Hj). change (<[S j := z]> (h :: l)) with (h :: <[j := z]> l). rewrite !filter_cons. repeat case_decide; cbn; lia.
Qed.

Lemma unused_insert ks j k : ks !! j = Some k → k ≠ KUsed → S (unused (<[j := KUsed]> ks)) = unused ks.
Proof.
  intros Hj Hk. pose proof (filter_insert_length (λ k, k ≠ KUsed) ks j k KUsed Hj) as H.
  rewrite decide_True, decide_False in H by auto. unfold unused. lia.
Qed.

Lemma actives_insert ks j k : ks !! j = Some KActive → k ≠ KActive → S (actives (<[j := k]> ks)) = actives ks.
Proof.
  intros Hj Hk. pose proof (filter_insert_length (λ k, k = KActive) ks j KActive k Hj) as H.
  rewrite decide_True, decide_False in H by auto. unfold actives. lia.
Qed.

Lemma actives_insert_same ks j k k' :
  ks !! j = Some k' → k ≠ KActive → k' ≠ KActive → actives (<[j := k]> ks) = actives ks.
Proof.
  intros Hj Hk Hk'. pose proof (filter_insert_length (λ k, k = KActive) ks j k' k Hj) as H.
  rewrite !decide_False in H by auto. unfold actives. lia.
Qed.

Lemma potential_bound st : potential st ≤ 2 * length (intermediate_symbol_state st.1).
Proof.
  unfold potential, unused, actives, kinds.
  pose proof (length_filter (λ k, k ≠ KUsed) (kind <$> intermediate_symbol_state st.1)).
  pose proof (length_filter (λ k, k = KActive) (kind <$> intermediate_symbol_state st.1)).
  rewrite length_fmap in *. lia.
Qed.

Definition no_weight_one (m : BufferWeightMap) : Prop := ∀ b w, weight_of m b = Some w → w ≠ 1.

(** Whether a loop did anything. *)
Definition progress (made : bool) (st st' : Decoder * B) : Prop :=
  if made then potential st' < potential st else st' = st.

Lemma peel_loop_spec fuel made st0 st :
  st_ok no_slack st → unused (kinds (intermediate_symbol_state st.1)) < fuel → progress made st0 st →
  ∃ made' st', peel_loop xor_buffers fuel made st = Ret (made', st') ∧ st_ok no_slack st' ∧
    progress made' st0 st' ∧
    (decoding_done st'.1 = true ∨ no_weight_one (buffers_active_usable st'.1)).
Proof.
  revert made st. induction fuel as [|fuel IH]; intros made st Hst Hf Hpr; [lia|]. cbn [peel_loop].
  destruct (peek_min_spec (buffers_active_usable st.1)) as (o & -> & Ho); [apply Hst|]. dsimpl.
  destruct o as [[r w]|].
  2: { exists made, st. split_and!; [done..|]. right. intros b w Hw. by rewrite Ho in Hw. }
  destruct Ho as [Hr Hmin]. destruct (decoding_done st.1) eqn:Hdone; cbn [orb].
  { exists made, st. split_and!; [done..|]. by left. }
  case_bool_decide as Hw.
  { exists made, st. split_and!; [done..|]. right. intros b w' Hw' ->. specialize (Hmin b 1 Hw').
    rewrite (bk_active_weight _ _ _ _ _ (d_books _ _ _ (so_dec _ _ Hst))) in Hr.
    destruct (active_weight_class _ _ _ Hr) as (? & _ & _ & _ & ?). lia. }
  subst w.
  destruct (peel_one_spec st r Hst Hr) as (st1 & j0 & -> & Hst1 & Hj0 & Hk1). dsimpl.
  pose proof (unused_insert _ _ _ Hj0 ltac:(done)) as Hun.
  pose proof (actives_insert _ _ KUsed Hj0 ltac:(done)) as Hac. rewrite <- Hk1 in Hun, Hac.
  destruct (IH true st1) as (made' & st' & -> & Hst' & Hpr' & Hend); [done|lia| |eauto 10].
  destruct made; cbn in *; unfold potential in *; [lia|]. subst st0. unfold potential. lia.
Qed.

Lemma unused_le syms : unused (kinds syms) ≤ length syms.
Proof.
  unfold unused, kinds. pose proof (length_filter (λ k, k ≠ KUsed) (kind <$> syms)).
  rewrite length_fmap in *. lia.
Qed.

Lemma try_peel_spec st :
  st_ok no_slack st →
  ∃ made st', try_peel xor_buffers st = Ret (made, st') ∧ st_ok no_slack st' ∧ progress made st st' ∧
    (decoding_done st'.1 = true ∨ no_weight_one (buffers_active_usable st'.1)).
Proof.
  intros Hst. apply peel_loop_spec; [done| |done]. pose proof (unused_le (intermediate_symbol_state st.1)). lia.
Qed.

(** ** Reactivation *)

Lemma is_paired_spec b : is_paired b = true ↔ auw b = 1 ∧ used b = true ∧ length (ids b) = 1.
Proof.
  unfold is_paired, state. rewrite bool_decide_eq_true.
  destruct (decide (1 < auw b)); [split; [by intros [? _]|lia]|].
  destruct (decide (auw b = 1 ∧ used b = false)) as [[? Hu]|Hn1]; [rewrite Hu; split; [by intros [? _]|by intros (_ & ? & _)]|].
  destruct (decide (auw b = 1 ∧ used b = true)); [tauto|]. case_decide; split; try tauto; by intros [? _].
Qed.

(** A used buffer that loses another symbol may become paired. *)
Lemma paired_remove x bufs syms n r a j0 bufa row :
  tables p x bufs syms n → bufs !! a = Some bufa → syms !! j0 = Some (Used r) → a ≠ r →
  ids bufa ≡ₚ j0 :: row →
  ∃ inc, (if is_paired (with_ids bufa row) then
            first_id ← first_intermediate_symbol_id (with_ids bufa row); Ret (bool_decide (first_id < K))
          else Ret false) = Ret inc ∧
    count (paired_at (<[a := with_ids bufa row]> bufs) syms) K =
    count (paired_at bufs syms) K + (if inc : bool then 1 else 0).
Proof.
  intros HT Ha Hj0 Har Hrow. set (P := paired_at bufs syms). set (Q := paired_at _ _).
  destruct (used bufa) eqn:Hu.
  2: { exists false. assert (is_paired (with_ids bufa row) = false) as ->.
       { apply not_true_is_false. intros (_ & Hu' & _)%is_paired_spec. cbn in Hu'. congruence. }
       split; [done|]. rewrite Nat.add_0_r. apply count_ext. intros j _. eapply (paired_at_row p x); eauto. }
  destruct (proj1 (t_used _ _ _ _ _ HT a bufa Ha) Hu) as [j1 Hj1].
  assert (j1 ≠ j0) as Hne by (intros ->; congruence).
  assert (j1 ∈ row) as Hin.
  { assert (j1 ∈ ids bufa) as Hin by (apply (t_match _ _ _ _ _ HT a bufa j1 _ Ha Hj1); left; cbn; left).
    rewrite Hrow in Hin. apply elem_of_cons in Hin as [?|?]; done. }
  assert (∀ j, j ≠ j1 → P j = Q j) as HPQ.
  { intros j Hj. unfold P, Q, paired_at. destruct (syms !! j) as [[| |b]|] eqn:Hsj; try done.
    rewrite list_lookup_insert_ne; [done|]. intros <-. apply Hj. by eapply (t_used_inj _ _ _ _ _ HT). }
  assert (P j1 = false) as HP.
  { unfold P, paired_at. rewrite Hj1, Ha. apply bool_decide_false. rewrite Hrow. cbn.
    destruct row; [set_solver|cbn; lia]. }
  assert (Q j1 = bool_decide (length row = 1)) as HQ.
  { unfold Q, paired_at. rewrite Hj1, list_lookup_insert_eq by by eapply lookup_lt_Some. done. }
  pose proof (t_used_weight _ _ _ _ _ HT a bufa Ha Hu) as Hw.
  destruct (decide (length row = 1)) as [Hl|Hl].
  - rewrite bool_decide_true in HQ by done.
    assert (is_paired (with_ids bufa row) = true) as -> by by apply is_paired_spec.
    destruct row as [|j2 [|]]; try done. apply list_elem_of_singleton in Hin. subst j2.
    exists (bool_decide (j1 < K)). split; [done|]. case_bool_decide as HK.
    + pose proof (count_change P Q K j1 HK ltac:(intros; by apply HPQ)) as Hc. rewrite HP, HQ in Hc. lia.
    + rewrite Nat.add_0_r. apply count_ext. intros j Hj. symmetry. apply HPQ. lia.
  - rewrite bool_decide_false in HQ by done. exists false.
    assert (is_paired (with_ids bufa row) = false) as ->.
    { apply not_true_is_false. intros (_ & _ & Hl')%is_paired_spec. done. }
    split; [done|]. rewrite Nat.add_0_r. apply count_ext. intros j Hj.
    destruct (decide (j = j1)) as [->|]; [congruence|symmetry; by apply HPQ].
Qed.

Definition react_slack (l done : list nat) (r j0 o : nat) : slack :=
  {| extra := λ b j, j = j0 ∧ b ∈ l ∧ b ≠ r ∧ b ∉ done;
     delta := λ b, if decide (b ∈ l ∧ b ≠ r ∧ b ∉ done) then (-1)%Z else 0%Z; owed := o |}.

Record reacting (l : list nat) (r j0 o : nat) (ks : list Kind) (done : list nat)
    (st : Decoder * B) : Prop := {
  ra_ok : st_ok (react_slack l done r j0 o) st;
  ra_reducing : rows (buffer_state st.1) !! r = Some [j0];
  ra_symbol : intermediate_symbol_state st.1 !! j0 = Some (Used r);
  ra_kinds : kinds (intermediate_symbol_state st.1) = ks;
  ra_range b : b ∈ l → b < length (buffer_state st.1);
}.

(** The row of a buffer loses the symbol. *)
Lemma tables_remove l done r j0 o bufs syms n a bufa row :
  tables p (react_slack l done r j0 o) bufs syms n → bufs !! a = Some bufa →
  syms !! j0 = Some (Used r) → a ∈ l → a ∉ done → a ≠ r → ordered row → ids bufa ≡ₚ j0 :: row →
  ∃ inc, (if is_paired (with_ids bufa row) then
            first_id ← first_intermediate_symbol_id (with_ids bufa row); Ret (bool_decide (first_id < K))
          else Ret false) = Ret inc ∧
    tables p (react_slack l (done ++ [a]) r j0 o) (<[a := with_ids bufa row]> bufs) syms
      (n + if inc : bool then 1 else 0).
Proof.
  intros HT Ha Hj0 Hal Had Har Hord Hrow.
  destruct (paired_remove _ _ _ _ r a j0 bufa row HT Ha Hj0 Har Hrow) as (inc & Hrun & Hcount).
  exists inc. split; [done|]. pose proof HT as [T1 T2 T3 T4 T5 T6 T7 T8 T9].
  destruct (T2 a bufa Ha) as [Hoa Hla]. apply ordered_NoDup in Hoa. pose proof Hoa as Hnd. rewrite Hrow in Hnd.
  apply NoDup_cons in Hnd as [Hj0row _].
  eapply (tables_step p (react_slack l done r j0 o)); try done; cbn.
  - intros Hu. by apply (T7 a).
  - intros j Hj. apply Hla. rewrite Hrow. by right.
  - intros j sj Hsj. exists sj. split; [done|]. split; [by apply same_symbol_refl, (T3 j)|].
    specialize (T4 a bufa j sj Ha Hsj). cbn in T4. rewrite Hrow, elem_of_cons in T4.
    destruct (decide (j = j0)) as [->|Hne].
    + rewrite Hj0 in Hsj. injection Hsj as <-. cbn. rewrite list_elem_of_singleton. set_solver.
    + split; [|by intros [?|[? _]]; tauto]. intros Hj. left. tauto.
  - intros b j Hb. set_solver.
  - intros b Hb. assert (b ∉ done ++ [a] ↔ b ∉ done) as Hd by set_solver.
    destruct (decide (b ∈ l ∧ b ≠ r ∧ b ∉ done)); [rewrite decide_True by tauto|rewrite decide_False by tauto]; done.
  - rewrite decide_False by set_solver. specialize (T5 a bufa Ha). cbn in T5. rewrite decide_True in T5 by done.
    rewrite (weight_Permutation _ _ _ Hrow), weight_cons in T5.
    assert (inact syms j0 = false) as Hi by (unfold inact; by rewrite Hj0). rewrite Hi in T5. lia.
  - rewrite Hcount. cbn in T9. lia.
Qed.

Definition with_inactivated_books d h2 m : Decoder :=
  {| params := params d; buffer_state := buffer_state d;
     intermediate_symbol_state := intermediate_symbol_state d;
     buffers_active_usable := buffers_active_usable d; buffers_inactivated := h2;
     num_redundant_buffers := m; num_source_symbols_paired := num_source_symbols_paired d |}.

(** The accounting of an inactivated buffer follows its row. *)
Lemma refresh_weight_spec d cl n a buf w0 :
  books cl n (buffers_active_usable d) (buffers_inactivated d) (num_redundant_buffers d) →
  cl a = Some (CInactivated w0) → buffer_state d !! a = Some buf → used buf = false → auw buf = 0 →
  to_u16 (length (ids buf)) = Ret (length (ids buf)) →
  ∃ h2 m, refresh_weight a d = Ret (with_inactivated_books d h2 m) ∧
    books (upd cl a (class buf)) n (buffers_active_usable d) h2 m.
Proof.
  intros HB Hcl Ha Hu Hw H16. unfold refresh_weight, vget. rewrite Ha. dsimpl. case_decide as Hl.
  - rewrite H16. dsimpl. rewrite NonZeroU16_new_Ret by lia. dsimpl.
    destruct (books_update_inactivated _ _ _ _ _ HB a _ (length (ids buf)) Hcl) as (h2 & -> & HB2). dsimpl.
    eexists h2, _. split; [done|]. replace (class buf) with (CInactivated (length (ids buf))); [done|].
    unfold class. rewrite Hu, decide_False by lia. rewrite decide_True; [done|]. intros He. rewrite He in Hl. cbn in Hl. lia.
  - destruct (books_remove_inactivated _ _ _ _ _ HB a _ Hcl) as (h2 & -> & HB2). dsimpl.
    eexists h2, _. split; [done|]. replace (class buf) with CRedundant.
    { eapply books_ext; [|exact (books_redundant _ _ _ _ _ HB2 a (upd_eq _ _ _))]. intros b. apply upd_upd. }
    unfold class. rewrite Hu, !decide_False; [done| |lia]. intros Hr. apply Hr. destruct (ids buf); [done|cbn in Hl; lia].
Qed.

(** The accounting of a buffer that loses a symbol, if it is inactivated. *)
Lemma books_shrink d a bufa row :
  books (class_of (buffer_state d)) (length (buffer_state d)) (buffers_active_usable d)
    (buffers_inactivated d) (num_redundant_buffers d) →
  buffer_state d !! a = Some bufa → (used bufa = true → auw bufa = 1) → ids bufa ≠ [] →
  to_u16 (length row) = Ret (length row) →
  let d' := with_buffer_state d (<[a := with_ids bufa row]> (buffer_state d)) in
  ∃ h2 m, (if decide (auw bufa = 0) then refresh_weight a d' else Ret d') =
      Ret (with_inactivated_books d' h2 m) ∧
    books (class_of (buffer_state d')) (length (buffer_state d')) (buffers_active_usable d) h2 m.
Proof.
  intros HB Ha Hu Hne H16. pose proof (lookup_lt_Some _ _ _ Ha) as Halt. cbv zeta. dsimpl. case_decide as Hw.
  - assert (used bufa = false) as Hu0. { destruct (used bufa); [|done]. specialize (Hu eq_refl). lia. }
    assert (class_of (buffer_state d) a = Some (CInactivated (length (ids bufa)))) as Hcl.
    { unfold class_of, class. rewrite Ha. cbn. rewrite Hu0, decide_False by lia. by rewrite decide_True. }
    destruct (refresh_weight_spec (with_buffer_state d (<[a := with_ids bufa row]> (buffer_state d)))
      _ _ a (with_ids bufa row) _ HB Hcl) as (h2 & m & Hrun & HB'); try done.
    { dsimpl. by rewrite list_lookup_insert_eq. }
    exists h2, m. split; [done|]. by apply books_insert.
  - eexists _, _. split; [by destruct d|]. apply books_insert; [done|]. eapply books_ext; [|exact HB]. intros b.
    unfold upd. case_decide as Hb; [subst b|done]. unfold class_of. rewrite Ha. cbn. unfold class. cbn.
    by rewrite !decide_True by done.
Qed.

Lemma paired_code d buf inc :
  params d = p →
  (if is_paired buf then first_id ← first_intermediate_symbol_id buf; Ret (bool_decide (first_id < K))
   else Ret false) = Ret inc →
  (if is_paired buf then
     first_id ← first_intermediate_symbol_id buf;
     Ret (if decide (first_id < num_source_symbols (params d)) then inc_paired d else d)
   else Ret d) = Ret (if inc : bool then inc_paired d else d).
Proof.
  intros ->. destruct (is_paired buf); [|by intros [= <-]]. destruct (first_intermediate_symbol_id buf); [|done].
  dsimpl. intros [= <-]. by case_decide; case_bool_decide.
Qed.

Lemma reactivate_reducee_spec l r j0 o ks done st a :
  reacting l r j0 o ks done st → a ∈ l → a ∉ done →
  ∃ st', reactivate_reducee xor_buffers r j0 a st = Ret st' ∧ reacting l r j0 o ks (done ++ [a]) st'.
Proof.
  intros [[Hd HR] Hr Hj0 Hk Hrng] Hal Had. destruct st as [d s]. cbn [fst snd] in *.
  unfold reactivate_reducee. case_decide as Har.
  2: { subst a. exists (d, s). split; [done|]. split; try done. split; [|done].
       eapply dec_ok_ext; [| | |exact Hd]; try done; [intros b j; cbn; set_solver|].
       intros b. cbn. assert (b ≠ r → b ∉ done ++ [r] ↔ b ∉ done) as Hb by set_solver.
       destruct (decide (b ∈ l ∧ b ≠ r ∧ b ∉ done)); [rewrite decide_True by tauto|rewrite decide_False by tauto]; done. }
  destruct Hd as [HP HT HB]. destruct (lookup_lt_is_Some_2 (buffer_state d) a) as [bufa Ha]; [by apply Hrng|].
  assert (j0 ∈ ids bufa) as Hja by (apply (t_match _ _ _ _ _ HT a bufa j0 _ Ha Hj0); by right).
  destruct (t_ids _ _ _ _ _ HT a bufa Ha) as [Hoa Hla].
  unfold vget. rewrite Ha. dsimpl.
  destruct (set_remove_spec (ids bufa) j0 Hoa) as (row & -> & Hord & Hrow). rewrite decide_True in Hrow by done.
  dsimpl. rewrite vset_Ret by by eapply lookup_lt_Some. dsimpl.
  destruct (tables_remove l done r j0 o _ _ _ a bufa row HT Ha Hj0 Hal Had Har Hord Hrow) as (inc & Hinc & HT').
  assert (to_u16 (length row) = Ret (length row)) as H16.
  { apply (row_u16 p Hp _ _ _ _ a (with_ids bufa row) HT'). by rewrite list_lookup_insert_eq by by eapply lookup_lt_Some. }
  destruct (books_shrink d a bufa row HB Ha) as (h2 & m & Hrun & HB'); [by apply (t_used_weight _ _ _ _ _ HT a)|..].
  { intros He. rewrite He in Hja. set_solver. }
  { done. }
  cbv zeta in Hrun, HB'. cbn [with_ids auw]. fold (with_ids bufa row).
  fold (with_buffer_state d (<[a := with_ids bufa row]> (buffer_state d))). rewrite Hrun. dsimpl.
  set (d1 := with_inactivated_books _ h2 m). rewrite (paired_code d1 (with_ids bufa row) inc HP Hinc). dsimpl.
  set (d2 := if inc then _ else d1).
  assert (params d2 = p) as HP2 by (by subst d2; destruct inc).
  assert (buffer_state d2 = <[a := with_ids bufa row]> (buffer_state d)) as Hb2 by (by subst d2; destruct inc).
  assert (intermediate_symbol_state d2 = intermediate_symbol_state d) as Hs2 by (by subst d2; destruct inc).
  assert (rows (buffer_state d2) = <[a := row]> (rows (buffer_state d))) as Hrows.
  { rewrite Hb2. unfold rows. by rewrite list_fmap_insert. }
  destruct (call_xor_spec d2 s (rows (buffer_state d)) a r (ids bufa) [j0] row HP2 HR) as (s' & -> & HR');
    [by apply rows_lookup|done|done|done| |].
  { intros j. rewrite Hrow, elem_of_cons, list_elem_of_singleton. apply ordered_NoDup in Hoa. rewrite Hrow in Hoa.
    apply NoDup_cons in Hoa as [Hnd _]. destruct (decide (j = j0)) as [->|]; tauto. }
  dsimpl. eexists. split; [done|]. split; cbn [fst snd].
  - split; cbn [fst snd]; [|by rewrite Hrows]. split; [done| |].
    + rewrite Hb2, Hs2. subst d2. destruct inc; dsimpl; [by rewrite <- Nat.add_1_r|by rewrite Nat.add_0_r in HT'].
    + rewrite Hb2. subst d2. by destruct inc.
  - rewrite Hrows. by rewrite list_lookup_insert_ne.
  - by rewrite Hs2.
  - by rewrite Hs2.
  - intros b Hb. rewrite Hb2, length_insert. by apply Hrng.
Qed.

Definition reactivate_start d h2 (r j0 : nat) (buf : Buffer) : Decoder :=
  with_symbol_state
    (with_buffer_state (with_inactivated d h2)
      (<[r := with_used (with_weight buf 1) true]> (buffer_state d)))
    (<[j0 := Used r]> (intermediate_symbol_state d)).

Lemma reacting_start d s h2 r j0 buf l :
  dec_ok p no_slack d → R s (rows (buffer_state d)) →
  books (upd (class_of (buffer_state d)) r CUsed) (length (buffer_state d)) (buffers_active_usable d)
    h2 (num_redundant_buffers d) →
  buffer_state d !! r = Some buf → used buf = false → ids buf = [j0] →
  intermediate_symbol_state d !! j0 = Some (Inactivated l) →
  reacting l r j0 (owed (used_slack (Inactivated l) r j0 buf))
    (<[j0 := KUsed]> (kinds (intermediate_symbol_state d))) [] (reactivate_start d h2 r j0 buf, s).
Proof.
  intros [HP HT _] HR HB Hr Hu Hids Hsj. unfold reactivate_start. split; dsimpl.
  - split; dsimpl; [|by rewrite rows_same with (buf := buf)]. split; dsimpl; [done| |].
    + eapply (tables_ext p (used_slack (Inactivated l) r j0 buf)); [| | |eapply (tables_make_used _ _ _ r j0 buf)]; try done.
      * intros b j. cbn. set_solver.
      * intros b. cbn. assert (b ∉ []) by set_solver.
        destruct (decide (b ∈ l ∧ b ≠ r ∧ b ∉ [])); [rewrite decide_True by tauto|rewrite decide_False by tauto]; done.
      * rewrite Hids. left.
      * intros j Hj. rewrite Hids in Hj. apply list_elem_of_singleton in Hj. by subst.
    + apply books_insert; [by eapply lookup_lt_Some|]. done.
  - rewrite rows_same with (buf := buf) by done. rewrite (rows_lookup _ _ buf) by done. by rewrite Hids.
  - by rewrite list_lookup_insert_eq by by eapply lookup_lt_Some.
  - by rewrite kinds_insert.
  - intros b Hb. rewrite length_insert. by apply (t_sets _ _ _ _ _ HT j0 _ Hsj).
Qed.

Lemma reactivate_one_spec st r :
  st_ok no_slack st → weight_of (buffers_inactivated st.1) r = Some 1 →
  ∃ st' j0, reactivate_one xor_buffers r st = Ret st' ∧ st_ok no_slack st' ∧
    kinds (intermediate_symbol_state st.1) !! j0 = Some KInactivated ∧
    kinds (intermediate_symbol_state st'.1) = <[j0 := KUsed]> (kinds (intermediate_symbol_state st.1)).
Proof.
  destruct st as [d s]. intros [Hd HR] Hw. pose proof Hd as [HP HT HB]. cbn [fst snd] in *.
  rewrite (bk_inactivated_weight _ _ _ _ _ HB) in Hw.
  destruct (inactivated_weight_class _ _ _ Hw) as (buf & Hr & Hu & Ha & Hl & _).
  destruct (ids buf) as [|j0 [|]] eqn:Hids; try done.
  assert (class_of (buffer_state d) r = Some (CInactivated 1)) as Hcl.
  { unfold class_of, class. rewrite Hr. cbn. rewrite Hu, decide_False, Hids by lia. by rewrite decide_True. }
  destruct (books_remove_inactivated _ _ _ _ _ HB r 1 Hcl) as (h2 & Hh2 & HB2).
  assert (∃ l, intermediate_symbol_state d !! j0 = Some (Inactivated l)) as [l Hsj].
  { pose proof (t_weight _ _ _ _ _ HT r buf Hr) as Hwt. cbn in Hwt.
    assert (inact (intermediate_symbol_state d) j0 = true) as Hi.
    { eapply (weight_zero_inv _ (ids buf)); [lia|]. rewrite Hids. left. }
    unfold inact in Hi. destruct (intermediate_symbol_state d !! j0) as [[|l|]|]; try done. by exists l. }
  unfold reactivate_one, vget. rewrite Hr. dsimpl. rewrite Hh2. dsimpl.
  unfold first_intermediate_symbol_id, first. rewrite Hids. dsimpl. cbn [head]. dsimpl.
  rewrite vset_Ret by by eapply lookup_lt_Some. dsimpl. rewrite Hsj. dsimpl. cbn [inactivated_make_used]. dsimpl.
  rewrite vset_Ret by by eapply lookup_lt_Some. dsimpl.
  destruct (t_sets _ _ _ _ _ HT j0 _ Hsj) as [Hol Hll]. cbn in Hol, Hll.
  change (for_each l _ _) with (for_each l (reactivate_reducee xor_buffers r j0) (reactivate_start d h2 r j0 buf, s)).
  destruct (for_each_spec (reacting l r j0 (owed (used_slack (Inactivated l) r j0 buf))
    (<[j0 := KUsed]> (kinds (intermediate_symbol_state d)))) l (reactivate_reducee xor_buffers r j0)
    (reactivate_start d h2 r j0 buf, s)) as ([d1 s1] & -> & [[Hd1 HR1] Hr1 Hj1 Hk1 Hrng1]).
  - by apply reacting_start.
  - intros done a todo st Hle Hst. apply reactivate_reducee_spec; [done|rewrite Hle; set_solver|].
    apply ordered_NoDup in Hol. rewrite Hle in Hol. apply NoDup_app in Hol as (_ & Hdis & _). intros Hin.
    apply (Hdis a Hin). left.
  - cbn [fst snd] in *. dsimpl. eexists _, j0. split; [done|]. split_and!.
    + split; dsimpl; cbn [fst snd]; [|by case_decide].
      pose proof (d_params _ _ _ Hd1) as HP1. rewrite HP1.
      pose proof (dec_ok_paired _ d1 (bool_decide (j0 < K)) Hd1) as Hfin.
      assert (∀ b j, ¬ extra (react_slack l l r j0 (owed (used_slack (Inactivated l) r j0 buf))) b j) as Hex by (cbn; tauto).
      assert (∀ b, delta (react_slack l l r j0 (owed (used_slack (Inactivated l) r j0 buf))) b = 0%Z) as Hde.
      { intros b. cbn. by rewrite decide_False by tauto. }
      destruct (decide (j0 < K)) as [Hc|Hc].
      * rewrite bool_decide_true in Hfin by done. apply Hfin; [done|done|]. cbn. rewrite Hids. by rewrite decide_True.
      * rewrite bool_decide_false in Hfin by done. apply Hfin; [done|done|]. cbn. by rewrite decide_False by tauto.
    + by apply (kinds_lookup _ _ (Inactivated l)).
    + cbn [fst snd]. by case_decide.
Qed.

Lemma reactivate_loop_spec fuel made st0 st :
  st_ok no_slack st → unused (kinds (intermediate_symbol_state st.1)) < fuel → progress made st0 st →
  ∃ made' st', reactivate_loop xor_buffers fuel made st = Ret (made', st') ∧ st_ok no_slack st' ∧
    progress made' st0 st' ∧
    (decoding_done st'.1 = true ∨ no_weight_one (buffers_inactivated st'.1)).
Proof.
  revert made st. induction fuel as [|fuel IH]; intros made st Hst Hf Hpr; [lia|]. cbn [reactivate_loop].
  destruct (peek_min_spec (buffers_inactivated st.1)) as (o & -> & Ho); [apply Hst|]. dsimpl.
  destruct o as [[r w]|].
  2: { exists made, st. split_and!; [done..|]. right. intros b w Hw. by rewrite Ho in Hw. }
  destruct Ho as [Hr Hmin]. destruct (decoding_done st.1) eqn:Hdone; cbn [orb].
  { exists made, st. split_and!; [done..|]. by left. }
  case_bool_decide as Hw.
  { exists made, st. split_and!; [done..|]. right. intros b w' Hw' ->. specialize (Hmin b 1 Hw').
    rewrite (bk_inactivated_weight _ _ _ _ _ (d_books _ _ _ (so_dec _ _ Hst))) in Hr.
    destruct (inactivated_weight_class _ _ _ Hr) as (? & _ & _ & _ & _ & ?). lia. }
  subst w. destruct (reactivate_one_spec st r Hst Hr) as (st1 & j0 & -> & Hst1 & Hj0 & Hk1). dsimpl.
  pose proof (unused_insert _ _ _ Hj0 ltac:(done)) as Hun.
  pose proof (actives_insert_same _ _ KUsed _ Hj0 ltac:(done) ltac:(done)) as Hac. rewrite <- Hk1 in Hun, Hac.
  destruct (IH true st1) as (made' & st' & -> & Hst' & Hpr' & Hend); [done|lia| |eauto 10].
  destruct made; cbn in *; unfold potential in *; [lia|]. subst st0. unfold potential. lia.
Qed.

Lemma try_reactivate_symbols_spec st :
  st_ok no_slack st →
  ∃ made st', try_reactivate_symbols xor_buffers st = Ret (made, st') ∧ st_ok no_slack st' ∧ progress made st st' ∧
    (decoding_done st'.1 = true ∨ no_weight_one (buffers_inactivated st'.1)).
Proof.
  intros Hst. apply reactivate_loop_spec; [done| |done]. pose proof (unused_le (intermediate_symbol_state st.1)). lia.
Qed.

(** ** Inactivation *)

Definition inact_slack (l done : list nat) : slack :=
  {| extra := λ _ _, False; delta := λ b, if decide (b ∈ l ∧ b ∉ done) then 1%Z else 0%Z; owed := 0 |}.

Lemma tables_inactivate bufs syms n j0 l :
  tables p no_slack bufs syms n → syms !! j0 = Some (Active l) →
  tables p (inact_slack l []) bufs (<[j0 := Inactivated l]> syms) n.
Proof.
  intros [T1 T2 T3 T4 T5 T6 T7 T8 T9] Hj0. pose proof (lookup_lt_Some _ _ _ Hj0) as Hjl.
  assert (∀ j s, <[j0 := Inactivated l]> syms !! j = Some s → ∃ s0, syms !! j = Some s0 ∧ holders s0 = holders s) as Hback.
  { intros j s Hj. apply list_lookup_insert_Some in Hj as [(<- & <- & _)|(Hne & Hj)]; eauto. }
  assert (∀ j b, <[j0 := Inactivated l]> syms !! j = Some (Used b) ↔ syms !! j = Some (Used b)) as Hused.
  { intros j b. destruct (decide (j = j0)) as [->|]; [by rewrite list_lookup_insert_eq, Hj0|].
    by rewrite list_lookup_insert_ne. }
  split; try done.
  - by rewrite length_insert.
  - intros j s Hj. destruct (Hback j s Hj) as (s0 & Hs0 & <-). by apply (T3 j).
  - intros b buf j s Hb Hj. destruct (Hback j s Hj) as (s0 & Hs0 & <-). by apply T4.
  - intros b buf Hb. rewrite (T5 b buf Hb). cbn. destruct (T2 b buf Hb) as [Ho%ordered_NoDup _].
    rewrite (weight_activate (<[j0 := Inactivated l]> syms) syms (ids buf) j0); [|done| |].
    2: { intros j Hj. by rewrite inact_insert, decide_False. }
    2: { unfold inact. by rewrite Hj0. }
    assert (b ∉ []) by set_solver. pose proof (T4 b buf j0 _ Hb Hj0) as Hm. cbn in Hm.
    assert (inact (<[j0 := Inactivated l]> syms) j0 = true) by by rewrite inact_insert, decide_True.
    destruct (decide (b ∈ l ∧ b ∉ [])); [rewrite decide_True by tauto|rewrite decide_False by tauto]; lia.
  - intros b buf Hb. setoid_rewrite Hused. by apply T6.
  - intros i j b Hi Hj. apply Hused in Hi, Hj. by eapply T8.
  - cbn. rewrite <- (count_ext (paired_at bufs syms)); [done|]. intros j _. by apply paired_at_used.
Qed.

Record inactivating (l : list nat) syms0 (rows0 : list (list nat)) (done : list nat) d : Prop := {
  ig_ok : dec_ok p (inact_slack l done) d;
  ig_symbols : intermediate_symbol_state d = syms0;
  ig_rows : rows (buffer_state d) = rows0;
}.

Lemma inactivate_reducee_spec l syms0 rows0 done d a :
  inactivating l syms0 rows0 done d → a ∈ l → a ∉ done → a < length rows0 →
  ∃ d', decrement_buffer_weight d a = Ret d' ∧ inactivating l syms0 rows0 (done ++ [a]) d'.
Proof.
  intros [Hd Hs Hr] Hal Had Halt. pose proof Hd as [HP HT HB].
  destruct (lookup_lt_is_Some_2 (buffer_state d) a) as [buf Ha].
  { rewrite <- Hr in Halt. unfold rows in Halt. by rewrite length_fmap in Halt. }
  assert (delta (inact_slack l done) a = 1%Z) as Hdelta by (cbn; by rewrite decide_True).
  pose proof (t_weight _ _ _ _ _ HT a buf Ha) as Hw. rewrite Hdelta in Hw.
  assert (used buf = false) as Hu.
  { destruct (used buf) eqn:Hu; [|done]. pose proof (t_used_weight _ _ _ _ _ HT a buf Ha Hu).
    apply (t_used _ _ _ _ _ HT a buf Ha) in Hu as [j Hj].
    assert (j ∈ ids buf) by (apply (t_match _ _ _ _ _ HT a buf j _ Ha Hj); left; cbn; left).
    assert (0 < weight (intermediate_symbol_state d) (ids buf)); [|lia].
    apply weight_pos. exists j. split; [done|]. unfold inact. by rewrite Hj. }
  destruct (decrement_buffer_weight_spec p Hp _ d a buf Hd Ha Hu ltac:(lia) Hdelta) as (d' & -> & Hd' & Hb' & Hs').
  exists d'. split; [done|]. split.
  - eapply dec_ok_ext; [| | |exact Hd']; try done. intros b. cbn.
    assert (b ∉ done ++ [a] ↔ b ≠ a ∧ b ∉ done) by set_solver.
    destruct (decide (b = a)); [rewrite decide_False by tauto; done|].
    destruct (decide (b ∈ l ∧ b ∉ done)); [rewrite decide_True by tauto|rewrite decide_False by tauto]; done.
  - congruence.
  - by rewrite Hb', (rows_same _ _ buf).
Qed.

Lemma try_inactivate_spec st :
  st_ok no_slack st →
  ∃ made d', try_inactivate_one_symbol st.1 = Ret (made, d') ∧ st_ok no_slack (d', st.2) ∧
    if made : bool then potential (d', st.2) < potential st
    else d' = st.1 ∧ (no_weight_one (buffers_active_usable st.1) →
                      ∀ b, weight_of (buffers_active_usable st.1) b = None).
Proof.
  intros Hst. pose proof Hst as [Hd HR]. pose proof Hd as [HP HT HB].
  unfold try_inactivate_one_symbol.
  destruct (peek_min_spec (buffers_active_usable st.1)) as (o & -> & Ho); [apply HB|]. dsimpl.
  destruct o as [[b w]|].
  2: { exists false, st.1. split_and!; [done|by destruct st|done|done]. }
  destruct Ho as [Hb Hmin]. rewrite (bk_active_weight _ _ _ _ _ HB) in Hb.
  destruct (active_weight_class _ _ _ Hb) as (buf & Hbuf & Hu & Hw & Hw0). case_decide as Hw1.
  2: { exists false, st.1. split_and!; [done|by destruct st|done|]. intros Hno. exfalso.
       assert (weight_of (buffers_active_usable st.1) b = Some w) as Hbw by by rewrite (bk_active_weight _ _ _ _ _ HB).
       apply (Hno b w Hbw). lia. }
  destruct (first_active no_slack st.1 b buf Hd ltac:(auto) (λ _, eq_refl) Hbuf Hu ltac:(lia))
    as (j0 & l & -> & Hj0 & Hsj).
  dsimpl. unfold vget. rewrite Hsj. dsimpl. 
  change (active_inactivate (Active l)) with (Ret (Inactivated l)). dsimpl.
  rewrite vset_Ret by by eapply lookup_lt_Some. dsimpl.
  rewrite list_lookup_insert_eq by by eapply lookup_lt_Some. dsimpl. cbn [inactivated_values]. dsimpl.
  destruct (t_sets _ _ _ _ _ HT j0 _ Hsj) as [Hol Hll]. cbn in Hol, Hll.
  set (syms0 := <[j0 := Inactivated l]> (intermediate_symbol_state st.1)).
  destruct (for_each_spec (inactivating l syms0 (rows (buffer_state st.1))) l
    (λ buffer_index d, decrement_buffer_weight d buffer_index) (with_symbol_state st.1 syms0)) as (d' & Hrun & [Hd' Hs' Hr']).
  - split; dsimpl; [|done|done]. split; dsimpl; [done| |done]. by apply tables_inactivate.
  - intros done a todo d1 Hl Hd1. apply inactivate_reducee_spec; [done|rewrite Hl; set_solver| |].
    + apply ordered_NoDup in Hol. rewrite Hl in Hol. apply NoDup_app in Hol as (_ & Hdis & _). intros Hin.
      apply (Hdis a Hin). left.
    + unfold rows. rewrite length_fmap. apply Hll. rewrite Hl. set_solver.
  - fold syms0. rewrite Hrun. dsimpl. exists true, d'. split_and!; [done| |].
    + split; dsimpl; [|by rewrite Hr']. eapply dec_ok_ext; [| | |exact Hd']; try done.
      intros c. cbn. by rewrite decide_False by tauto.
    + unfold potential. dsimpl. rewrite Hs'. unfold syms0. rewrite kinds_insert. cbn [kind].
      pose proof (kinds_lookup _ _ _ Hsj) as Hk. cbn [kind] in Hk.
      pose proof (actives_insert _ _ KInactivated Hk ltac:(done)) as Hac.
      pose proof (filter_insert_length (λ k, k ≠ KUsed) _ _ _ KInactivated Hk) as Hun.
      rewrite !decide_True in Hun by done. unfold unused. lia.
Qed.
End steps.
