(* ===== verification/RaptorElimination.v ===== *)
(** * Elimination on the inactivated symbols

    The elimination of [try_inactive_gaussian] keeps the tables consistent; when
    it runs and recovers no symbol, the buffers that are left are fewer than the
    symbols in them. *)
From S2P Require Import Prelude RaptorSet RaptorHeap RaptorMatrix RaptorParams RaptorDecoder.
From S2P Require Import RaptorDecoderSpec RaptorSteps.

Section elimination.
Context (p : CodeParameters) (Hp : params_ok p).
Context {B : Type} (xor_buffers : BufferId → BufferId → B → run B).
Context (R : B → list (list nat) → Prop).
Context (Hxor : ∀ s rs a b u v z,
  R s rs → rs !! a = Some u → rs !! b = Some v → a ≠ b → ordered z → xor_row u v z →
  ∃ s', xor_buffers (buffer_id p a) (buffer_id p b) s = Ret s' ∧ R s' (<[a := z]> rs)).
Implicit Types (bufs : list Buffer) (syms : list IntermediateSymbol).
Abbreviation L := (num_intermediate_symbols p).

(** The buffers that are inactivated, and their symbols. *)
Definition inact_bufs bufs : list nat :=
  filter (λ b, inactivated_weight (class_of bufs b) ≠ None) (seq 0 (length bufs)).

Definition inact_syms bufs : list nat :=
  filter (λ j, Exists (λ b, Exists (λ buf, j ∈ ids buf) (option_list (bufs !! b))) (inact_bufs bufs)) (seq 0 L).

Lemma elem_of_inact_bufs bufs b :
  b ∈ inact_bufs bufs ↔ is_Some (inactivated_weight (class_of bufs b)).
Proof.
  unfold inact_bufs. rewrite list_elem_of_filter, elem_of_seq. rewrite <- not_eq_None_Some. split; [tauto|].
  intros Hb. split; [done|]. unfold class_of in Hb. destruct (bufs !! b) as [buf|] eqn:Hbuf; [|done].
  apply lookup_lt_Some in Hbuf. lia.
Qed.

Lemma elem_of_inact_syms bufs j :
  j ∈ inact_syms bufs ↔ j < L ∧ ∃ b buf, b ∈ inact_bufs bufs ∧ bufs !! b = Some buf ∧ j ∈ ids buf.
Proof.
  unfold inact_syms. rewrite list_elem_of_filter, elem_of_seq, Exists_exists. setoid_rewrite Exists_exists.
  split.
  - intros [(b & Hb & buf & Hbuf & Hj) Hl]. split; [lia|]. exists b, buf.
    destruct (bufs !! b) as [buf'|]; [|by apply not_elem_of_nil in Hbuf]. apply list_elem_of_singleton in Hbuf. by subst.
  - intros [Hl (b & buf & Hb & Hbuf & Hj)]. split; [|lia]. exists b. split; [done|]. exists buf.
    rewrite Hbuf. split; [left|done].
Qed.

(** No symbol can be recovered from the inactivated buffers as they are. *)
Definition stuck d : Prop :=
  no_weight_one (buffers_inactivated d) ∧
  (inact_bufs (buffer_state d) = [] ∨
   length (inact_bufs (buffer_state d)) < length (inact_syms (buffer_state d))).

(** ** One row operation *)

Record eliminating (I J : list nat) (d0 : Decoder) (st : Decoder * B) (F : nat → nat → bool) : Prop := {
  el_params : params st.1 = p;
  el_tables : tables p no_slack (buffer_state st.1) (intermediate_symbol_state st.1) (num_source_symbols_paired st.1);
  el_rows : R st.2 (rows (buffer_state st.1));
  el_active : buffers_active_usable st.1 = buffers_active_usable d0;
  el_inactivated : buffers_inactivated st.1 = buffers_inactivated d0;
  el_redundant : num_redundant_buffers st.1 = num_redundant_buffers d0;
  el_length : length (buffer_state st.1) = length (buffer_state d0);
  el_kinds : kinds (intermediate_symbol_state st.1) = kinds (intermediate_symbol_state d0);
  el_matrix i b : I !! i = Some b → ∃ buf, buffer_state st.1 !! b = Some buf ∧ auw buf = 0 ∧ used buf = false ∧
    (∀ j, j ∈ ids buf → j ∈ J) ∧ ∀ c j, J !! c = Some j → F i c = bool_decide (j ∈ ids buf);
  el_others b : b ∉ I → buffer_state st.1 !! b = buffer_state d0 !! b;
}.

Lemma eliminating_ext I J d0 st F G :
  (∀ i c, i < length I → c < length J → F i c = G i c) → eliminating I J d0 st F → eliminating I J d0 st G.
Proof.
  intros HFG [E1 E2 E3 E4 E5 E6 E7 E8 E9 E10]. split; try done. intros i b Hi.
  destruct (E9 i b Hi) as (buf & ? & ? & ? & ? & HF). exists buf. split_and!; try done.
  intros c j Hc. rewrite <- HFG; [by apply HF| |]; by eapply lookup_lt_Some.
Qed.

Lemma buffer_inactivated_xor_eq_spec d n a b bufa bufb :
  tables p no_slack (buffer_state d) (intermediate_symbol_state d) n → a ≠ b →
  buffer_state d !! a = Some bufa → buffer_state d !! b = Some bufb → used bufa = false →
  auw bufa = 0 → auw bufb = 0 →
  ∃ row syms', buffer_inactivated_xor_eq d a b =
      Ret (with_symbol_state (with_buffer_state d (<[a := with_ids bufa row]> (buffer_state d))) syms') ∧
    ordered row ∧ xor_row (ids bufa) (ids bufb) row ∧ kinds syms' = kinds (intermediate_symbol_state d) ∧
    tables p no_slack (<[a := with_ids bufa row]> (buffer_state d)) syms' n.
Proof.
  intros HT Hab Ha Hb Hu Hwa Hwb.
  assert (∀ c buf j, buffer_state d !! c = Some buf → auw buf = 0 → j ∈ ids buf →
    inact (intermediate_symbol_state d) j = true) as Hall.
  { intros c buf j Hc Hw Hj. eapply (weight_zero_inv _ (ids buf)); [|done].
    pose proof (t_weight _ _ _ _ _ HT c buf Hc) as Hwt. cbn in Hwt. lia. }
  destruct (xor_rows_tables p Hp no_slack no_slack _ _ _ a b bufa bufb HT Ha Hb Hu)
    as (row & syms' & Hrun & Hord & Hrow & Hks & _ & HT'); try done.
  { intros j Hj Hi. rewrite (Hall b bufb j Hb Hwb Hj) in Hi. done. }
  { intros j Hi. cbn. tauto. }
  { intros j sj Hsj Hi. cbn. pose proof (t_match _ _ _ _ _ HT a bufa j sj Ha Hsj) as Hm. cbn in Hm.
    split; [|intros [Hj _]; by rewrite (Hall a bufa j Ha Hwa Hj) in Hi].
    intros [Hh|[]]. rewrite (Hall a bufa j Ha Hwa) in Hi; [done|]. tauto. }
  exists row, syms'. unfold xor_rows in Hrun. unfold buffer_inactivated_xor_eq, get_two_mut.
  rewrite assert_true by done. unfold vget. rewrite Ha, Hb. dsimpl. rewrite Hrun. dsimpl.
  rewrite vset_Ret by by eapply lookup_lt_Some. dsimpl. split_and!; try done.
  - by apply kinds_ext.
  - apply HT'. cbn. rewrite weight_zero; [lia|]. intros j [[Hj _]|[Hj _]]%Hrow; eauto.
Qed.

Lemma sub_assign_spec I J d0 st F i k :
  NoDup I → NoDup J → eliminating I J d0 st F → i < length I → k < length I → i ≠ k →
  ∃ st', sub_assign xor_buffers I st i k = Ret st' ∧ eliminating I J d0 st' (add_row F i k).
Proof.
  intros HI HJ [E1 E2 E3 E4 E5 E6 E7 E8 E9 E10] Hi Hk Hik. destruct st as [d s]. cbn [fst snd] in *.
  destruct (lookup_lt_is_Some_2 I i Hi) as [a Ha]. destruct (lookup_lt_is_Some_2 I k Hk) as [b Hb].
  assert (a ≠ b) as Hab by (intros ->; apply Hik; exact (NoDup_lookup I i k b HI Ha Hb)).
  destruct (E9 i a Ha) as (bufa & Hbufa & Hwa & Hua & HJa & HFa).
  destruct (E9 k b Hb) as (bufb & Hbufb & Hwb & _ & HJb & HFb).
  destruct (buffer_inactivated_xor_eq_spec d _ a b bufa bufb E2) as (row & syms' & Hrun & Hord & Hrow & Hks & HT');
    try done.
  unfold sub_assign, vget. rewrite Ha, Hb. dsimpl. rewrite Hrun. dsimpl.
  destruct (call_xor_spec p xor_buffers R Hxor
    (with_symbol_state (with_buffer_state d (<[a := with_ids bufa row]> (buffer_state d))) syms') s
    (rows (buffer_state d)) a b (ids bufa) (ids bufb) row) as (s' & Hcall & HR'); try done;
    [by apply rows_lookup|by apply rows_lookup|].
  rewrite Hcall. dsimpl.
  eexists. split; [done|]. pose proof (lookup_lt_Some _ _ _ Hbufa) as Halt. split; dsimpl; try done.
  - unfold rows. by rewrite list_fmap_insert.
  - by rewrite length_insert.
  - congruence.
  - intros i' b' Hi'. unfold add_row. destruct (decide (i' = i)) as [->|Hne].
    + assert (b' = a) as -> by congruence. rewrite list_lookup_insert_eq by done. eexists. split; [done|].
      split_and!; try done.
      * intros j [[Hj _]|[Hj _]]%Hrow; auto.
      * intros c j Hc. rewrite (HFa c j Hc), (HFb c j Hc). cbn. specialize (Hrow j).
        repeat case_bool_decide; cbn; try done; tauto.
    + assert (b' ≠ a) as Hb' by (intros ->; apply Hne; exact (NoDup_lookup I i' i a HI Hi' Ha)).
      rewrite list_lookup_insert_ne by done. by apply E9.
  - intros b' Hb'. rewrite list_lookup_insert_ne; [by apply E10|]. intros <-. apply Hb'. by eapply list_elem_of_lookup_2.
Qed.

(** ** What is left *)

Lemma perm_surj q n y : perm_ok q n → y < n → ∃ i, i < n ∧ pix q i = y.
Proof.
  intros Hq Hy. assert (pix q <$> seq 0 n ≡ₚ seq 0 n) as Hperm.
  { apply submseteq_length_Permutation; [|by rewrite length_fmap]. apply NoDup_submseteq.
    - apply NoDup_fmap_2_strong; [|apply NoDup_seq]. intros i j Hi Hj. apply elem_of_seq in Hi, Hj.
      apply (po_inj _ _ Hq); lia.
    - intros z Hz. apply list_elem_of_fmap in Hz as (i & -> & Hi). apply elem_of_seq in Hi. apply elem_of_seq.
      pose proof (po_range _ _ Hq i). lia. }
  assert (y ∈ pix q <$> seq 0 n) as Hin by (rewrite Hperm; apply elem_of_seq; lia).
  apply list_elem_of_fmap in Hin as (i & -> & Hi). apply elem_of_seq in Hi. exists i. split; [lia|done].
Qed.

Section remaining.
Context (I J : list nat) (d0 : Decoder) (st : Decoder * B) (a : RCSwapMatrix) (t : nat).
Context (HI : NoDup I) (HJ : NoDup J) (HIall : ∀ b, b ∈ inact_bufs (buffer_state d0) → b ∈ I).
Context (Hel : eliminating I J d0 st (mget (mat a))).
Context (Ha : rc_ok (length I) (length J) a) (Ht : 0 < t ≤ length J) (HtI : length J ≤ length I).
Context (Hred : reduced (length I) a t) (Hzero : ∀ i c, t ≤ i < length I → c < length J → ent a i c = false).
Abbreviation bufs := (buffer_state st.1).

(** Entry [i, c] of the permuted matrix. *)
Lemma remaining_entry i c b j :
  i < length I → c < length J → I !! pix (row_permutation a) i = Some b →
  J !! pix (column_permutation a) c = Some j →
  ∃ buf, bufs !! b = Some buf ∧ auw buf = 0 ∧ used buf = false ∧ ent a i c = bool_decide (j ∈ ids buf).
Proof.
  intros Hi Hc Hb Hj. destruct (el_matrix _ _ _ _ _ Hel _ _ Hb) as (buf & Hbuf & Hw & Hu & _ & HF).
  exists buf. split_and!; [done..|]. unfold ent. by apply HF.
Qed.

Lemma row_of i : i < length I → ∃ b, I !! pix (row_permutation a) i = Some b.
Proof. intros Hi. apply lookup_lt_is_Some. by apply (po_range _ _ (rc_rows _ _ _ Ha)). Qed.

Lemma column_of c : c < length J → ∃ j, J !! pix (column_permutation a) c = Some j.
Proof. intros Hc. apply lookup_lt_is_Some. by apply (po_range _ _ (rc_cols _ _ _ Ha)). Qed.

Lemma inact_class b buf :
  bufs !! b = Some buf → used buf = false → auw buf = 0 → ids buf ≠ [] → b ∈ inact_bufs bufs.
Proof.
  intros Hb Hu Hw Hne. apply elem_of_inact_bufs. unfold class_of, class. rewrite Hb. cbn.
  rewrite Hu, decide_False by lia. by rewrite decide_True.
Qed.

Lemma remaining_symbol i c j :
  i < length I → c < length J → J !! pix (column_permutation a) c = Some j → ent a i c = true →
  j ∈ inact_syms bufs.
Proof.
  intros Hi Hc Hj He. destruct (row_of i Hi) as [b Hb].
  destruct (remaining_entry i c b j Hi Hc Hb Hj) as (buf & Hbuf & Hw & Hu & Hent).
  rewrite He in Hent. symmetry in Hent. apply bool_decide_eq_true in Hent. apply elem_of_inact_syms.
  split; [by apply (t_ids _ _ _ _ _ (el_tables _ _ _ _ _ Hel) b buf Hbuf)|].
  exists b, buf. split_and!; [|done|done]. eapply inact_class; [done..|]. intros Hnil. rewrite Hnil in Hent. set_solver.
Qed.

Lemma remaining_buffers : length (inact_bufs bufs) ≤ t.
Proof.
  replace t with (length ((λ i, default 0 (I !! pix (row_permutation a) i)) <$> seq 0 t))
    by (by rewrite length_fmap, length_seq).
  apply submseteq_length, NoDup_submseteq; [apply NoDup_filter, NoDup_seq|].
  intros b Hb. pose proof Hb as Hb'. apply elem_of_inact_bufs in Hb' as [w Hw].
  apply inactivated_weight_class in Hw as (buf & Hbuf & Hu & Hauw & Hlen & Hw0).
  assert (b ∈ I) as HbI.
  { destruct (decide (b ∈ I)) as [|Hn]; [done|]. apply HIall.
    pose proof (el_others _ _ _ _ _ Hel b Hn) as Hsame. apply elem_of_inact_bufs in Hb. apply elem_of_inact_bufs.
    unfold class_of in *. by rewrite <- Hsame. }
  apply list_elem_of_lookup_1 in HbI as [i0 Hi0].
  destruct (perm_surj (row_permutation a) (length I) i0 (rc_rows _ _ _ Ha)) as (i & Hi & <-); [by eapply lookup_lt_Some|].
  destruct (el_matrix _ _ _ _ _ Hel _ _ Hi0) as (buf' & Hbuf' & _ & _ & HinJ & HF).
  assert (buf' = buf) as -> by congruence.
  destruct (ids buf) as [|j l] eqn:Hids; [cbn in Hlen; lia|].
  destruct (list_elem_of_lookup_1 J j) as [c0 Hc0]; [apply HinJ; left|].
  destruct (perm_surj (column_permutation a) (length J) c0 (rc_cols _ _ _ Ha)) as (c & Hc & <-); [by eapply lookup_lt_Some|].
  destruct (decide (i < t)) as [Hit|Hit].
  - apply list_elem_of_fmap. exists i. rewrite Hi0. split; [done|]. apply elem_of_seq. lia.
  - pose proof (Hzero i c ltac:(lia) Hc) as Hz. unfold ent in Hz. rewrite (HF _ j Hc0) in Hz.
    apply bool_decide_eq_false in Hz. set_solver.
Qed.

Lemma remaining_symbols :
  (∀ b buf, b ∈ inact_bufs bufs → bufs !! b = Some buf → length (ids buf) ≠ 1) →
  t < length (inact_syms bufs).
Proof.
  intros Hno. destruct (row_of 0) as [b Hb]; [lia|]. destruct (column_of 0) as [j Hj]; [lia|].
  destruct (remaining_entry 0 0 b j) as (buf & Hbuf & Hw & Hu & Hent); [lia|lia|done|done|].
  rewrite (Hred 0 0), bool_decide_true in Hent by lia. symmetry in Hent. apply bool_decide_eq_true in Hent.
  destruct (el_matrix _ _ _ _ _ Hel _ _ Hb) as (buf' & Hbuf' & _ & _ & HinJ & HF).
  assert (buf' = buf) as -> by congruence.
  destruct (t_ids _ _ _ _ _ (el_tables _ _ _ _ _ Hel) b buf Hbuf) as [Hord _]. apply ordered_NoDup in Hord.
  assert (∃ j', j' ∈ ids buf ∧ j' ≠ j) as (j' & Hj' & Hne).
  { specialize (Hno b buf). apply elem_of_Permutation in Hent as [l Hl].
    destruct l as [|j' l].
    - exfalso. apply Hno; [|done|by rewrite Hl]. eapply inact_class; [done..|]. intros Hnil. rewrite Hnil in Hl.
      by apply Permutation_nil_l in Hl.
    - exists j'. rewrite Hl in Hord. apply NoDup_cons in Hord as [Hn _]. rewrite Hl.
      split; [right; left|]. intros ->. apply Hn. left. }
  destruct (list_elem_of_lookup_1 J j') as [c' Hc']; [by apply HinJ|].
  destruct (perm_surj (column_permutation a) (length J) c' (rc_cols _ _ _ Ha)) as (c & Hc & <-); [by eapply lookup_lt_Some|].
  assert (ent a 0 c = true) as He. { unfold ent. rewrite (HF _ j' Hc'). by apply bool_decide_true. }
  assert (t ≤ c) as Htc.
  { destruct (decide (c < t)) as [Hlt|]; [|lia]. rewrite (Hred 0 c) in He by lia.
    apply bool_decide_eq_true in He. subst c. congruence. }
  assert (length ((λ c, default 0 (J !! pix (column_permutation a) c)) <$> seq 0 t ++ [c]) ≤ length (inact_syms bufs)) as Hle.
  { apply submseteq_length, NoDup_submseteq.
    - apply NoDup_fmap_2_strong.
      + intros x y Hx Hy. assert (x < length J ∧ y < length J) as [Hx' Hy'].
        { apply elem_of_app in Hx, Hy. rewrite elem_of_seq, list_elem_of_singleton in Hx, Hy. lia. }
        destruct (column_of x Hx') as [jx Hjx]. destruct (column_of y Hy') as [jy Hjy]. rewrite Hjx, Hjy. cbn.
        intros ->. apply (po_inj _ _ (rc_cols _ _ _ Ha)); [done..|]. exact (NoDup_lookup J _ _ _ HJ Hjx Hjy).
      + apply NoDup_app. split_and!; [apply NoDup_seq| |apply NoDup_singleton].
        intros x Hx%elem_of_seq Hxc%list_elem_of_singleton. lia.
    - intros x Hx. apply list_elem_of_fmap in Hx as (y & -> & Hy).
      apply elem_of_app in Hy as [Hy%elem_of_seq| ->%list_elem_of_singleton].
      + destruct (column_of y) as [jy Hjy]; [lia|]. rewrite Hjy. cbn. apply (remaining_symbol y y); [lia|lia|done|].
        rewrite Hred by lia. by apply bool_decide_true.
      + rewrite Hc'. cbn. by apply (remaining_symbol 0 c); [lia|..]. }
  rewrite length_fmap, length_app, length_seq in Hle. cbn in Hle. lia.
Qed.
End remaining.

(** ** The weights afterwards *)

Lemma refresh_weights I J d0 st F :
  dec_ok p no_slack d0 → NoDup I → (∀ b, b ∈ I → b ∈ inact_bufs (buffer_state d0)) →
  eliminating I J d0 st F →
  ∃ h2 m, for_each I refresh_weight st.1 = Ret (with_inactivated_books st.1 h2 m) ∧
    books (class_of (buffer_state st.1)) (length (buffer_state st.1)) (buffers_active_usable st.1) h2 m.
Proof.
  intros [_ _ HB] HI HIin [E1 E2 E3 E4 E5 E6 E7 E8 E9 E10]. destruct st as [d s]. cbn [fst snd] in *.
  set (cl := λ (done : list nat) b, if decide (b ∈ done) then class_of (buffer_state d) b
                                    else class_of (buffer_state d0) b).
  destruct (for_each_spec (λ done d', ∃ h2 m, d' = with_inactivated_books d h2 m ∧
    books (cl done) (length (buffer_state d)) (buffers_active_usable d) h2 m) I refresh_weight d)
    as (d' & Hrun & h2 & m & -> & HB').
  - exists (buffers_inactivated d), (num_redundant_buffers d). split; [by destruct d|].
    rewrite E4, E5, E6, E7. eapply books_ext; [|exact HB]. intros b. unfold cl. by rewrite decide_False by set_solver.
  - intros done b todo d' Hsplit (h2 & m & -> & HBd).
    assert (b ∉ done) as Hbd. { rewrite Hsplit in HI. apply NoDup_app in HI as (_ & Hdis & _). intros Hin. apply (Hdis b Hin). left. }
    destruct (list_elem_of_lookup_1 I b) as [i Hi]; [rewrite Hsplit; set_solver|].
    destruct (E9 i b Hi) as (buf & Hbuf & Hw & Hu & _ & _).
    assert (∃ w0, class_of (buffer_state d0) b = Some (CInactivated w0)) as [w0 Hw0].
    { specialize (HIin b ltac:(by eapply list_elem_of_lookup_2)). apply elem_of_inact_bufs in HIin as [w Hcl].
      destruct (class_of (buffer_state d0) b) as [[]|]; try done. eauto. }
    destruct (refresh_weight_spec (with_inactivated_books d h2 m) (cl done) (length (buffer_state d)) b buf w0)
      as (h2' & m' & Hrun & HB2); try done.
    { unfold cl. by rewrite decide_False. }
    { by apply (row_u16 p Hp _ _ _ _ b buf E2). }
    rewrite Hrun. eexists. split; [done|]. exists h2', m'. split; [done|]. eapply books_ext; [|exact HB2].
    intros c. unfold upd, cl. destruct (decide (c = b)) as [->|Hne].
    + rewrite decide_True by set_solver. unfold class_of. by rewrite Hbuf.
    + destruct (decide (c ∈ done)); [rewrite decide_True by set_solver|rewrite decide_False by set_solver]; done.
  - exists h2, m. split; [done|]. eapply books_ext; [|exact HB']. intros b. unfold cl. case_decide as Hb; [done|].
    unfold class_of. by rewrite E10.
Qed.

(** ** The whole step *)

Lemma collect_spec bufs (indices : list nat) :
  (∀ b, b ∈ indices → b < length bufs) →
  ∃ all, for_each indices (λ b all, buf ← vget bufs b; Ret (all ++ ids buf)) [] = Ret all ∧
    NoDup (collect_sorted all) ∧
    ∀ j, j ∈ collect_sorted all ↔ ∃ b buf, b ∈ indices ∧ bufs !! b = Some buf ∧ j ∈ ids buf.
Proof.
  intros Hlt. destruct (for_each_spec (λ done all, ∀ j, j ∈ all ↔ ∃ b buf, b ∈ done ∧ bufs !! b = Some buf ∧ j ∈ ids buf)
    indices (λ b all, buf ← vget bufs b; Ret (all ++ ids buf)) []) as (all & Hrun & Hall).
  - set_solver.
  - intros done b todo all -> Hall. destruct (lookup_lt_is_Some_2 bufs b) as [buf Hb]; [apply Hlt; set_solver|].
    unfold vget. rewrite Hb. dsimpl. eexists. split; [done|]. intros j. rewrite elem_of_app, Hall. split.
    + intros [(b' & buf' & ? & ? & ?)|Hj]; [exists b', buf'|exists b, buf]; set_solver.
    + intros (b' & buf' & [?| ->%list_elem_of_singleton]%elem_of_app & Hb' & Hj); [left; eauto|right].
      by assert (buf' = buf) as -> by congruence.
  - exists all. split; [done|]. unfold collect_sorted. split.
    + rewrite merge_sort_Permutation. apply NoDup_remove_dups.
    + intros j. by rewrite merge_sort_Permutation, elem_of_remove_dups.
Qed.

Lemma is_empty_false d :
  dec_ok p no_slack d → is_empty (buffers_inactivated d) = false ↔ inact_bufs (buffer_state d) ≠ [].
Proof.
  intros [_ _ HB]. rewrite <- not_true_iff_false, is_empty_spec by apply HB.
  setoid_rewrite (bk_inactivated_weight _ _ _ _ _ HB). split.
  - intros Hn He. apply Hn. intros b. apply eq_None_not_Some. intros Hs. apply elem_of_inact_bufs in Hs.
    rewrite He in Hs. set_solver.
  - intros Hn He. apply Hn. destruct (inact_bufs (buffer_state d)) as [|b l] eqn:Hl; [done|].
    assert (b ∈ inact_bufs (buffer_state d)) as Hb by (rewrite Hl; left).
    apply elem_of_inact_bufs in Hb as [w Hw]. by rewrite He in Hw.
Qed.

Lemma no_weight_one_rows d b buf :
  dec_ok p no_slack d → no_weight_one (buffers_inactivated d) → b ∈ inact_bufs (buffer_state d) →
  buffer_state d !! b = Some buf → length (ids buf) ≠ 1.
Proof.
  intros [_ _ HB] Hno Hb Hbuf. apply elem_of_inact_bufs in Hb as [w Hw].
  pose proof (inactivated_weight_class _ _ _ Hw) as (buf' & Hbuf' & _ & _ & Hl & _).
  assert (buf' = buf) as -> by congruence. rewrite Hl. apply (Hno b).
  by rewrite (bk_inactivated_weight _ _ _ _ _ HB).
Qed.

(** The matrix of the inactivated buffers. *)
Definition matrix_entry bufs (I J : list nat) (i c : nat) : bool :=
  match I !! i, J !! c with
  | Some b, Some j => match bufs !! b with Some buf => bool_decide (j ∈ ids buf) | None => false end
  | _, _ => false
  end.

Lemma eliminating_start I J d s :
  st_ok p R no_slack (d, s) → (∀ b, b ∈ I ↔ b ∈ inact_bufs (buffer_state d)) →
  (∀ j, j ∈ J ↔ ∃ b buf, b ∈ I ∧ buffer_state d !! b = Some buf ∧ j ∈ ids buf) →
  eliminating I J d (d, s) (matrix_entry (buffer_state d) I J).
Proof.
  intros [[HP HT HB] HR] HI HJ. split; try done. intros i b Hi. dsimpl.
  assert (b ∈ I) as Hb by by eapply list_elem_of_lookup_2. pose proof Hb as [w Hw]%HI%elem_of_inact_bufs.
  apply inactivated_weight_class in Hw as (buf & Hbuf & Hu & Ha & _). exists buf. split_and!; [done..| |].
  - intros j Hj. apply HJ. eauto.
  - intros c j Hc. unfold matrix_entry. by rewrite Hi, Hc, Hbuf.
Qed.

Lemma gaussian_matrix I J d :
  tables p no_slack (buffer_state d) (intermediate_symbol_state d) (num_source_symbols_paired d) →
  (∀ b, b ∈ I → b < length (buffer_state d)) →
  ∃ m, from_fn (length I) (length J) (λ i j,
         buffer_index ← vget I i;
         id ← vget J j;
         buffer ← vget (buffer_state d) buffer_index;
         set_contains (intermediate_symbol_ids buffer) id) = Ret m ∧
    mwf m ∧ nrows m = length I ∧ ncols m = length J ∧
    ∀ i c, i < length I → c < length J → mget m i c = matrix_entry (buffer_state d) I J i c.
Proof.
  intros HT HI. apply from_fn_spec. intros i c Hi Hc. unfold matrix_entry, vget.
  destruct (lookup_lt_is_Some_2 I i Hi) as [b Hb]. destruct (lookup_lt_is_Some_2 J c Hc) as [j Hj]. rewrite Hb, Hj.
  dsimpl. destruct (lookup_lt_is_Some_2 (buffer_state d) b) as [buf Hbuf]; [apply HI; by eapply list_elem_of_lookup_2|].
  rewrite Hbuf. dsimpl. apply set_contains_spec. by apply (t_ids _ _ _ _ _ HT b).
Qed.

Lemma elimination_spec I J d s m :
  st_ok p R no_slack (d, s) → NoDup I → NoDup J → (∀ b, b ∈ I ↔ b ∈ inact_bufs (buffer_state d)) →
  (∀ j, j ∈ J ↔ ∃ b buf, b ∈ I ∧ buffer_state d !! b = Some buf ∧ j ∈ ids buf) → I ≠ [] →
  length J ≤ length I → mwf m → nrows m = length I → ncols m = length J →
  (∀ i c, i < length I → c < length J → mget m i c = matrix_entry (buffer_state d) I J i c) →
  ∃ r a st' t, rowwise_elimination_gaussian_full_pivot (sub_assign xor_buffers I) m (d, s) = Ret (r, a, st') ∧
    rc_ok (length I) (length J) a ∧ 0 < t ≤ length J ∧ reduced (length I) a t ∧
    eliminating I J d st' (mget (mat a)) ∧
    ∀ i c, t ≤ i < length I → c < length J → ent a i c = false.
Proof.
  intros Hst HI HJ HIin HJin Hne HJI Hm Hr Hc Hget. pose proof Hst as [[HP HT HB] HR]. cbn [fst snd] in *.
  apply (full_pivot_elimination (length I) (length J) (sub_assign xor_buffers I) (eliminating I J d)); try done.
  - intros st F G HFG HF. by apply (eliminating_ext I J d st F).
  - intros st F x y Hx Hy Hxy HF. by apply sub_assign_spec.
  - transitivity (N.of_nat (length (buffer_state d))); [|apply HB].
    assert (length I ≤ length (buffer_state d)); [|lia]. rewrite <- (length_seq (length (buffer_state d)) 0).
    apply submseteq_length, NoDup_submseteq; [done|]. intros b Hb%HIin. apply list_elem_of_filter in Hb as [_ Hb]. done.
  - eapply (eliminating_ext I J d _ (matrix_entry (buffer_state d) I J)); [|by apply eliminating_start].
    intros i c Hi Hcc. symmetry. by apply Hget.
  - destruct I as [|b I']; [done|]. assert (b ∈ b :: I') as Hb by left.
    pose proof Hb as [w Hw]%HIin%elem_of_inact_bufs.
    apply inactivated_weight_class in Hw as (buf & Hbuf & _ & _ & Hl & Hw0).
    destruct (ids buf) as [|j l] eqn:Hids; [cbn in Hl; lia|].
    assert (j ∈ J) as Hj. { apply HJin. exists b, buf. split_and!; [done..|]. rewrite Hids. left. }
    apply list_elem_of_lookup_1 in Hj as [c Hjc]. exists 0, c.
    split_and!; [cbn; lia|by eapply lookup_lt_Some|]. rewrite Hget by (cbn; lia || by eapply lookup_lt_Some).
    unfold matrix_entry. rewrite Hjc. cbn. rewrite Hbuf. apply bool_decide_true. rewrite Hids. left.
Qed.

Lemma length_same (l l' : list nat) : NoDup l → NoDup l' → (∀ j, j ∈ l ↔ j ∈ l') → length l = length l'.
Proof. intros H1 H2 H3. by apply Permutation_length, NoDup_Permutation. Qed.

Lemma elimination_done I J d st a t :
  dec_ok p no_slack d → NoDup I → NoDup J → (∀ b, b ∈ I ↔ b ∈ inact_bufs (buffer_state d)) →
  rc_ok (length I) (length J) a → 0 < t ≤ length J → length J ≤ length I → reduced (length I) a t →
  eliminating I J d st (mget (mat a)) → (∀ i c, t ≤ i < length I → c < length J → ent a i c = false) →
  ∃ h2 n, for_each I refresh_weight st.1 = Ret (with_inactivated_books st.1 h2 n) ∧
    dec_ok p no_slack (with_inactivated_books st.1 h2 n) ∧
    (¬ no_weight_one h2 ∨ stuck (with_inactivated_books st.1 h2 n)).
Proof.
  intros Hd HI HJ HIin Ha Ht HJI Hred Hel Hz.
  destruct (refresh_weights I J d st _ Hd HI ltac:(intros ?; by apply HIin) Hel) as (h2 & n & Hrun & HB').
  destruct st as [d1 s1]. cbn [fst] in *. exists h2, n. split; [done|].
  pose proof Hel as [E1 E2 E3 E4 E5 E6 E7 E8 E9 E10]. cbn [fst snd] in *.
  assert (dec_ok p no_slack (with_inactivated_books d1 h2 n)) as Hd1 by (split; done). split; [done|].
  destruct (decide (Forall (λ b, length (default [] (rows (buffer_state d1) !! b)) ≠ 1) (inact_bufs (buffer_state d1)))) as [Hall|Hn].
  - right. rewrite Forall_forall in Hall.
    assert (∀ b buf, b ∈ inact_bufs (buffer_state d1) → buffer_state d1 !! b = Some buf → length (ids buf) ≠ 1) as Hno1.
    { intros b' buf Hb' Hbuf. specialize (Hall b' Hb'). by rewrite (rows_lookup _ _ buf Hbuf) in Hall. }
    split.
    + cbn. intros b' w' Hb' ->. rewrite (bk_inactivated_weight _ _ _ _ _ HB') in Hb'.
      pose proof (inactivated_weight_class _ _ _ Hb') as (buf & Hbuf & _ & _ & Hl & _).
      apply (Hno1 b' buf); [|done|done]. apply elem_of_inact_bufs. eauto.
    + right. eapply Nat.le_lt_trans; [exact (remaining_buffers I J d (d1, s1) a t HI HJ ltac:(intros ?; by apply HIin) Hel Ha Ht HJI Hred Hz)|].
      exact (remaining_symbols I J d (d1, s1) a t HI HJ ltac:(intros ?; by apply HIin) Hel Ha Ht HJI Hred Hz Hno1).
  - left. intros Hno1. apply Hn, Forall_forall. intros b' Hb'.
    pose proof Hb' as [w' Hw']%elem_of_inact_bufs.
    pose proof (inactivated_weight_class _ _ _ Hw') as (buf & Hbuf & _).
    rewrite (rows_lookup _ _ buf Hbuf). by apply (no_weight_one_rows _ b' buf Hd1).
Qed.

(** A step that does not give up has a buffer of weight one to go on with, or
    leaves too few buffers behind. *)
Lemma try_inactive_gaussian_spec st :
  st_ok p R no_slack st →
  ∃ made st', try_inactive_gaussian xor_buffers st = Ret (made, st') ∧ st_ok p R no_slack st' ∧
    kinds (intermediate_symbol_state st'.1) = kinds (intermediate_symbol_state st.1) ∧
    buffers_active_usable st'.1 = buffers_active_usable st.1 ∧
    if made : bool then ¬ stuck st.1 ∧ (¬ no_weight_one (buffers_inactivated st'.1) ∨ stuck st'.1)
    else st' = st ∧ stuck st.1.
Proof.
  intros Hst. destruct st as [d s]. pose proof Hst as [Hd HR]. pose proof Hd as [HP HT HB]. cbn [fst snd] in *.
  unfold try_inactive_gaussian. destruct (is_empty (buffers_inactivated d)) eqn:Hemp.
  { exists false, (d, s). split_and!; try done. split.
    - intros b w Hw. rewrite (proj1 (is_empty_spec _ (bk_inactivated _ _ _ _ _ HB)) Hemp) in Hw. done.
    - left. apply dec_stable. intros Hn. apply is_empty_false in Hn; [|done]. cbn in Hn. congruence. }
  pose proof (proj1 (is_empty_false d Hd) Hemp) as Hnonempty.
  destruct (peek_min_spec (buffers_inactivated d)) as (o & -> & Ho); [apply HB|]. dsimpl.
  destruct o as [[b w]|].
  2: { apply (is_empty_spec _ (bk_inactivated _ _ _ _ _ HB)) in Ho. congruence. }
  destruct Ho as [Hbw Hmin]. dsimpl. case_decide as Hw1.
  { subst w. exists true, (d, s). split_and!; try done.
    - intros [Hno _]. by apply (Hno b 1).
    - left. intros Hno. by apply (Hno b 1). }
  assert (no_weight_one (buffers_inactivated d)) as Hno.
  { intros b' w' Hb' ->. specialize (Hmin b' 1 Hb').
    rewrite (bk_inactivated_weight _ _ _ _ _ HB) in Hbw. apply inactivated_weight_class in Hbw as (? & _ & _ & _ & _ & ?). lia. }
  destruct (enumerate_spec (buffers_inactivated d)) as (entries & -> & HI & Hent); [apply HB|]. dsimpl.
  set (I := entries.*1) in *.
  assert (∀ b, b ∈ I ↔ b ∈ inact_bufs (buffer_state d)) as HIin.
  { intros b'. rewrite elem_of_inact_bufs, <- (bk_inactivated_weight _ _ _ _ _ HB). unfold I, is_Some.
    setoid_rewrite <- Hent. rewrite list_elem_of_fmap. split.
    - intros ([b2 w2] & -> & Hin). by exists w2.
    - intros [w2 Hin]. by exists (b', w2). }
  assert (∀ b, b ∈ I → b < length (buffer_state d)) as HIlt.
  { intros b' Hb'%HIin. apply list_elem_of_filter in Hb' as [_ Hb'%elem_of_seq]. lia. }
  destruct (collect_spec (buffer_state d) I HIlt) as (all & -> & HJ & HJin). dsimpl.
  set (J := collect_sorted all) in *.
  assert (length I = length (inact_bufs (buffer_state d))) as HIlen
    by (apply length_same; [done|apply NoDup_filter, NoDup_seq|done]).
  assert (length J = length (inact_syms (buffer_state d))) as HJlen.
  { apply length_same; [done|apply NoDup_filter, NoDup_seq|]. intros j. rewrite HJin, elem_of_inact_syms.
    setoid_rewrite HIin. split; [|tauto]. intros (b' & buf & Hb' & Hbuf & Hj). split; [|eauto].
    by apply (t_ids _ _ _ _ _ HT b' buf Hbuf). }
  case_decide as Hlen.
  { exists false, (d, s). split_and!; try done. split; [done|]. right. cbn. lia. }
  destruct (gaussian_matrix I J d HT HIlt) as (m & -> & Hm & Hrows & Hcols & Hget). dsimpl.
  assert (I ≠ []) as HIne. { intros He. apply Hnonempty, length_zero_iff_nil. rewrite <- HIlen, He. done. }
  destruct (elimination_spec I J d s m) as (r & a & [d1 s1] & t & -> & Ha & Ht & Hred & Hel & Hz); try done; [lia|].
  dsimpl. destruct (elimination_done I J d (d1, s1) a t) as (h2 & n & Hrun & Hd1 & Hend); try done; [lia|].
  cbn [fst snd] in *. rewrite Hrun. dsimpl. exists true, (with_inactivated_books d1 h2 n, s1).
  pose proof Hel as [E1 E2 E3 E4 E5 E6 E7 E8 E9 E10]. cbn [fst snd] in *.
  split_and!; try done. cbn. intros [_ [He|Hlt]]; [done|]. lia.
Qed.
End elimination.
