(* ===== verification/RaptorDecoding.v ===== *)
(** * Decoding with the Raptor code

    The decoding loop ends, and when it gives up there is nothing left to try;
    the initial tables are consistent, and so they are after every symbol
    received. *)
From S2P Require Import Prelude RaptorSet RaptorHeap RaptorMatrix RaptorParams RaptorDecoder.
From S2P Require Import RaptorDecoderSpec RaptorSteps RaptorElimination.

Section decoding.
Context (p : CodeParameters) (Hp : params_ok p).
Context {B : Type} (xor_buffers : BufferId → BufferId → B → run B).
Context (R : B → list (list nat) → Prop).
Context (Hxor : ∀ s rs a b u v z,
  R s rs → rs !! a = Some u → rs !! b = Some v → a ≠ b → ordered z → xor_row u v z →
  ∃ s', xor_buffers (buffer_id p a) (buffer_id p b) s = Ret s' ∧ R s' (<[a := z]> rs)).
Abbreviation L := (num_intermediate_symbols p).
Abbreviation K := (num_source_symbols p).

(** ** The loop *)

(** No buffer is left to peel or to inactivate, and elimination has failed. *)
Definition exhausted d : Prop :=
  stuck p d ∧ ∀ b, weight_of (buffers_active_usable d) b = None.

(** What holds before an operation, and how many more operations may follow
    before a symbol changes its state. *)
Definition allowed (try_harder : bool) (op : DecodingState) (st : Decoder * B) (k : nat) : Prop :=
  match op with
  | ReactivateSymbols =>
      8 ≤ k ∨ (stuck p st.1 ∧ 4 ≤ k) ∨ ¬ no_weight_one (buffers_inactivated st.1)
  | Peeling => 7 ≤ k ∨ (stuck p st.1 ∧ 3 ≤ k)
  | MaybeInactiveGaussian =>
      no_weight_one (buffers_active_usable st.1) ∧ (6 ≤ k ∨ (stuck p st.1 ∧ 2 ≤ k))
  | InactivateSymbol => no_weight_one (buffers_active_usable st.1) ∧ stuck p st.1 ∧ 1 ≤ k
  | Done => try_harder = false ∨ exhausted st.1
  end.

Lemma decode_step_spec try_harder op st k :
  st_ok p R no_slack st → allowed try_harder op st k → decoding_done st.1 = false → op ≠ Done →
  ∃ op' st' k', decode_step xor_buffers try_harder op st = Ret (op', st') ∧ st_ok p R no_slack st' ∧
    allowed try_harder op' st' k' ∧ 10 * potential st' + k' < 10 * potential st + k.
Proof.
  intros Hst Hal Hnd Hop. destruct op; cbn [decode_step allowed] in *; [..|done].
  - destruct (try_reactivate_symbols_spec p Hp xor_buffers R Hxor st Hst) as (made & st' & -> & Hst' & Hpr & Hend).
    dsimpl. destruct made; cbn in Hpr.
    + exists Peeling, st', 7. split_and!; [done..|by left|lia].
    + subst st'. destruct Hend as [?|Hno]; [congruence|].
      destruct Hal as [?|[[Hstuck ?]|?]]; [| |done].
      * exists Peeling, st, 7. split_and!; [done..|by left|lia].
      * exists Peeling, st, 3. split_and!; [done..|by right|lia].
  - destruct (try_peel_spec p Hp xor_buffers R Hxor st Hst) as (made & st' & -> & Hst' & Hpr & Hend).
    dsimpl. destruct made; cbn in Hpr.
    + exists ReactivateSymbols, st', 8. split_and!; [done..|by left|lia].
    + subst st'. destruct Hend as [?|Hno]; [congruence|]. destruct Hal as [?|[Hstuck ?]].
      * exists MaybeInactiveGaussian, st, 6. split_and!; [done..|cbn; auto|lia].
      * exists MaybeInactiveGaussian, st, 2. split_and!; [done..|cbn; auto|lia].
  - destruct Hal as [Hno Hal]. destruct try_harder; cbn [negb].
    2: { exists Done, st, 0. split_and!; [done..|by left|lia]. }
    destruct (try_inactive_gaussian_spec p Hp xor_buffers R Hxor st Hst) as (made & st' & -> & Hst' & Hk & Ha & Hm).
    dsimpl. assert (potential st' = potential st) as Hpot by (unfold potential; by rewrite Hk). destruct made.
    + destruct Hm as [Hns Hm]. destruct Hal as [?|[? _]]; [|done]. destruct Hm as [Hone|Hstuck].
      * exists ReactivateSymbols, st', 0. split_and!; [done..|cbn; auto|lia].
      * exists ReactivateSymbols, st', 4. split_and!; [done..|cbn; auto|lia].
    + destruct Hm as [-> Hstuck]. exists InactivateSymbol, st, 1. split_and!; [done..|cbn; auto|lia].
  - destruct Hal as (Hno & Hstuck & Hk). destruct try_harder; cbn [negb].
    2: { exists Done, st, 0. split_and!; [done..|by left|lia]. }
    destruct (try_inactivate_spec p Hp xor_buffers R Hxor st Hst) as (made & d' & -> & Hst' & Hm). dsimpl. destruct made.
    + exists ReactivateSymbols, (d', st.2), 8. split_and!; [done..|cbn; auto|lia].
    + destruct Hm as [-> Hnone]. exists Done, (st.1, st.2), 0. split_and!; [done|done| |].
      * right. split; [done|]. by apply Hnone.
      * destruct st. cbn [fst snd]. lia.
Qed.

Lemma decode_loop_spec fuel try_harder op st k :
  st_ok p R no_slack st → allowed try_harder op st k → 10 * potential st + k < fuel →
  ∃ st', decode_loop xor_buffers fuel try_harder op st = Ret st' ∧ st_ok p R no_slack st' ∧
    (decoding_done st'.1 = true ∨ try_harder = false ∨ exhausted st'.1).
Proof.
  revert op st k. induction fuel as [|fuel IH]; intros op st k Hst Hal Hf; [lia|]. cbn [decode_loop].
  destruct (decoding_done st.1) eqn:Hd; cbn [negb andb]; [by eauto|].
  case_bool_decide as Hop.
  - destruct (decode_step_spec try_harder op st k) as (op' & st' & k' & -> & Hst' & Hal' & Hlt); [done..|].
    dsimpl. apply (IH op' st' k'); [done|done|lia].
  - subst op. exists st. cbn in Hal. split_and!; [done|done|]. tauto.
Qed.

(** Decoding ends; if it fails although enough symbols are there to try all
    means, the tables are exhausted. *)
Lemma try_decode_spec threshold st :
  st_ok p R no_slack st → K ≤ threshold →
  ∃ st', try_decode xor_buffers threshold st = Ret (decoding_done st'.1, st') ∧ st_ok p R no_slack st' ∧
    (decoding_done st'.1 = true ∨
     length (buffer_state st.1) - num_redundant_buffers st.1 < threshold ∨ exhausted st'.1).
Proof.
  intros Hst Hth. unfold try_decode. rewrite (d_params _ _ _ (so_dec _ _ _ _ Hst)), assert_true by done.
  dsimpl. set (th := bool_decide _).
  destruct (decode_loop_spec (decode_fuel st.1) th ReactivateSymbols st 8) as (st' & -> & Hst' & Hend); [done|by left| |].
  { unfold decode_fuel. pose proof (potential_bound st). lia. }
  dsimpl. exists st'. split_and!; [done..|]. destruct Hend as [?|[Hf|?]]; [by left| |by right; right].
  right. left. subst th. apply bool_decide_eq_false in Hf. lia.
Qed.

(** ** Received symbols *)

Implicit Types (bufs : list Buffer) (syms : list IntermediateSymbol).

Lemma xor_eq_spec self other :
  ordered (ids self) → NoDup (ids other) →
  ∃ row, xor_eq self other = Ret (with_ids self row) ∧ ordered row ∧ xor_row (ids self) (ids other) row.
Proof.
  intros Ho Hnd. unfold xor_eq.
  destruct (for_each_spec (λ done row, ordered row ∧ xor_row (ids self) done row) (ids other)
    (λ id ids, '(_, ids) ← insert_or_remove ids id; Ret ids) (ids self)) as (row & -> & Hrow).
  - split; [done|]. intros j. set_solver.
  - intros done j todo row Hl [Hord Hrow]. destruct (insert_or_remove_spec row j Hord) as (row' & -> & Hord' & Hel).
    dsimpl. eexists. split; [done|]. split; [done|]. intros i. rewrite (insert_or_remove_elem _ _ _ i Hel Hord).
    assert (j ∉ done) as Hj. { rewrite Hl in Hnd. apply NoDup_app in Hnd as (_ & Hdis & _). intros Hin. apply (Hdis j Hin). left. }
    specialize (Hrow i). rewrite elem_of_app, list_elem_of_singleton. destruct (decide (i = j)) as [->|]; tauto.
  - dsimpl. by exists row.
Qed.

Lemma add_received_spec d x n (row : list nat) :
  tables p x (buffer_state d) (intermediate_symbol_state d) n → ordered row → (∀ j, j ∈ row → j < L) →
  for_each row (add_received d) (Buffer_new, []) =
  Ret ({| intermediate_symbol_ids := row; active_used_weight := weight (intermediate_symbol_state d) row; used := false |},
       omap (λ j, intermediate_symbol_state d !! j ≫= is_used_buffer_index) row).
Proof.
  intros HT Hord Hlt.
  destruct (for_each_spec (λ done st, st = ({| intermediate_symbol_ids := done;
      active_used_weight := weight (intermediate_symbol_state d) done; used := false |},
      omap (λ j, intermediate_symbol_state d !! j ≫= is_used_buffer_index) done)) row (add_received d) (Buffer_new, []))
    as (st & -> & ->); [done| |done].
  intros done j todo st Hl ->. destruct (t_symbol p _ _ _ _ j HT) as [sj Hsj]; [apply Hlt; rewrite Hl; set_solver|].
  unfold add_received, vget. rewrite Hsj. dsimpl. unfold append_intermediate_symbol_id.
  assert (j < L) as Hj by (apply Hlt; rewrite Hl; set_solver). pose proof (L_u16 p Hp).
  rewrite (to_u16_Ret j) by lia. dsimpl. eexists. split; [done|]. rewrite omap_app. cbn [omap list_omap].
  rewrite Hsj. cbn [mbind option_bind].
  assert (weight (intermediate_symbol_state d) (done ++ [j]) =
    weight (intermediate_symbol_state d) done + (if is_inactivated sj then 0 else 1)) as Hw.
  { rewrite (weight_Permutation _ (done ++ [j]) (j :: done)) by (by rewrite Permutation_app_comm). rewrite weight_cons.
    unfold inact. rewrite Hsj. lia. }
  assert (length done < L) as Hdone.
  { pose proof (ordered_length row L Hord Hlt) as Hle. rewrite Hl, length_app in Hle. cbn in Hle. lia. }
  pose proof (weight_le_length (intermediate_symbol_state d) done).
  f_equal.
  - rewrite Hw. unfold with_weight, with_ids, append. destruct (is_inactivated sj); cbn; f_equal; [lia|].
    unfold u16_inc. rewrite decide_False by lia. lia.
  - by destruct (is_used_buffer_index sj); [|rewrite app_nil_r].
Qed.

(** The row of the new buffer, reduced by the used buffers [done]. *)
Record reducing d (row : list nat) (done : list nat) (st : Buffer * B) : Prop := {
  rd_ordered : ordered (ids st.1);
  rd_range j : j ∈ ids st.1 → j < L;
  rd_used : used st.1 = false;
  rd_rows : R st.2 (rows (buffer_state d) ++ [ids st.1]);
  rd_weight : auw st.1 = weight (intermediate_symbol_state d) (ids st.1);
  rd_symbols j : inact (intermediate_symbol_state d) j = false →
    j ∈ ids st.1 ↔ j ∈ row ∧ ∀ c, c ∈ done → intermediate_symbol_state d !! j ≠ Some (Used c);
}.

Lemma reduce_received_spec d row done c j0 st :
  dec_ok p no_slack d → reducing d row done st → intermediate_symbol_state d !! j0 = Some (Used c) →
  j0 ∈ row → c ∉ done →
  ∃ st', reduce_received xor_buffers d (length (buffer_state d)) c st = Ret st' ∧ reducing d row (done ++ [c]) st'.
Proof.
  intros [HP HT HB] [R1 R2 R3 R4 R5 R6] Hj0 Hin Hc. destruct st as [buf s]. cbn [fst snd] in *.
  destruct (t_sets _ _ _ _ _ HT j0 _ Hj0) as [_ Hlt]. specialize (Hlt c ltac:(cbn; left)).
  destruct (lookup_lt_is_Some_2 _ _ Hlt) as [other Hother].
  destruct (used_others p _ _ _ _ c j0 other HT (λ _, eq_refl) Hother Hj0) as (Hjo & Hij & _ & _ & Hoth).
  destruct (t_ids _ _ _ _ _ HT c other Hother) as [Hoo Hol].
  unfold reduce_received, vget. rewrite Hother. dsimpl.
  destruct (xor_eq_spec buf other R1) as (row' & -> & Hord & Hrow); [by apply ordered_NoDup|]. dsimpl. cbn [with_ids auw].
  assert (j0 ∈ ids buf) as Hjb.
  { apply R6; [done|]. split; [done|]. intros c' Hc' Heq. rewrite Hj0 in Heq. injection Heq as ->. done. }
  assert (weight (intermediate_symbol_state d) (ids buf) = S (weight (intermediate_symbol_state d) row')) as Hw.
  { eapply weight_xor; try done; by apply ordered_NoDup. }
  assert (length (rows (buffer_state d)) = length (buffer_state d)) as Hlen by apply length_fmap.
  destruct (call_xor_spec p xor_buffers R Hxor d s (rows (buffer_state d) ++ [ids buf]) (length (buffer_state d)) c
    (ids buf) (ids other) row' HP R4) as (s' & -> & HR'); try done.
  { by rewrite <- Hlen, lookup_app_r, Nat.sub_diag by lia. }
  { rewrite lookup_app_l by lia. by apply rows_lookup. }
  { lia. }
  dsimpl. eexists. split; [done|]. split; cbn; try done.
  - intros j [[Hj _]|[Hj _]]%Hrow; auto.
  - rewrite <- Hlen, insert_app_r_alt, Nat.sub_diag in HR' by lia. exact HR'.
  - rewrite R5, Hw. done.
  - intros j Hi. rewrite (Hrow j), (R6 j Hi). setoid_rewrite elem_of_app. setoid_rewrite list_elem_of_singleton.
    destruct (decide (j = j0)) as [->|Hne].
    + split; [intros [[_ ?]|[_ ?]]; [done|]|intros [_ Hn]; by specialize (Hn c (or_intror eq_refl))].
      exfalso. apply R6 in Hjb; done.
    + assert (j ∉ ids other) as Hno by (intros Hjo'; by apply Hne, Hoth). split.
      * intros [[[Hjr Hd] _]|[? _]]; [|done]. split; [done|]. intros c' [Hc'| ->] Heq; [by apply (Hd c')|].
        apply Hne. by eapply (t_used_inj _ _ _ _ _ HT).
      * intros [Hjr Hd]. left. split; [|done]. split; [done|]. intros c' Hc'. apply Hd. by left.
Qed.

(** The symbols of the new buffer [b] list it. *)
Definition pushed (b : nat) (row : list nat) syms syms' : Prop :=
  length syms' = length syms ∧
  ∀ j s, syms !! j = Some s → ∃ s', syms' !! j = Some s' ∧ kind s' = kind s ∧
    if decide (j ∈ row) then kind s ≠ KUsed ∧ holders s' = holders s ++ [b] else s' = s.

Lemma push_spec b row syms :
  NoDup row → (∀ j, j ∈ row → ∃ s, syms !! j = Some s ∧ kind s ≠ KUsed) →
  ∃ syms', for_each row (λ id symbols,
      symbol ← vget symbols id;
      symbol ← active_inactivated_push symbol b;
      vset symbols id symbol) syms = Ret syms' ∧ pushed b row syms syms'.
Proof.
  intros Hnd Hrow. apply (for_each_spec (λ done syms', pushed b done syms syms')).
  - split; [done|]. intros j s Hs. exists s. split_and!; [done|done|]. by rewrite decide_False by set_solver.
  - intros done j todo syms1 Hl [Hlen Hp1].
    assert (j ∉ done) as Hj. { rewrite Hl in Hnd. apply NoDup_app in Hnd as (_ & Hdis & _). intros Hin. apply (Hdis j Hin). left. }
    destruct (Hrow j) as (s & Hs & Hk); [rewrite Hl; set_solver|].
    destruct (Hp1 j s Hs) as (s1 & Hs1 & _ & Heq). rewrite decide_False in Heq by done. subst s1.
    unfold vget. rewrite Hs1. dsimpl.
    assert (∃ s2, active_inactivated_push s b = Ret s2 ∧ kind s2 = kind s ∧ holders s2 = holders s ++ [b]) as (s2 & -> & Hk2 & Hh2).
    { destruct s as [l|l|c]; [by eexists..|done]. }
    dsimpl. rewrite vset_Ret by by eapply lookup_lt_Some. eexists. split; [done|]. split; [by rewrite length_insert|].
    intros i t Ht. destruct (decide (i = j)) as [->|Hne].
    + assert (t = s) as -> by congruence. exists s2. rewrite list_lookup_insert_eq by by eapply lookup_lt_Some.
      split_and!; [done|done|]. by rewrite decide_True by set_solver.
    + rewrite list_lookup_insert_ne by done. destruct (Hp1 i t Ht) as (t' & Ht' & Hkt & Hct). exists t'. split_and!; [done|done|].
      destruct (decide (i ∈ done)); [rewrite decide_True by set_solver|rewrite decide_False by set_solver]; done.
Qed.

Lemma pushed_used b row syms syms' j c :
  pushed b row syms syms' → syms' !! j = Some (Used c) ↔ syms !! j = Some (Used c).
Proof.
  intros [Hlen Hps]. split.
  - intros Hj. destruct (lookup_lt_is_Some_2 syms j) as [s Hs]; [rewrite <- Hlen; by eapply lookup_lt_Some|].
    destruct (Hps j s Hs) as (s' & Hs' & Hk & Hc). rewrite Hj in Hs'. injection Hs' as <-.
    case_decide; [|by subst]. destruct Hc as [Hk' _]. by rewrite <- Hk in Hk'.
  - intros Hj. destruct (Hps j _ Hj) as (s' & Hs' & Hk & Hc). rewrite Hs'. case_decide; [by destruct Hc as [Hk' _]|by subst].
Qed.

Lemma tables_append bufs syms syms' n buf :
  tables p no_slack bufs syms n → ordered (ids buf) → (∀ j, j ∈ ids buf → j < L) → used buf = false →
  auw buf = weight syms (ids buf) → pushed (length bufs) (ids buf) syms syms' →
  tables p no_slack (bufs ++ [buf]) syms' n.
Proof.
  intros HT Hord Hlt Hu Hw Hpushed. pose proof HT as [T1 T2 T3 T4 T5 T6 T7 T8 T9]. pose proof Hpushed as [Hlen Hps].
  assert (∀ b bf, (bufs ++ [buf]) !! b = Some bf → bufs !! b = Some bf ∧ b < length bufs ∨ b = length bufs ∧ bf = buf) as Hbufs.
  { intros b bf Hb. apply lookup_app_Some in Hb as [Hb|[Hge Hb]]; [left; split; [done|by eapply lookup_lt_Some]|].
    right. destruct (b - length bufs) eqn:Hd; [|done]. injection Hb as ->. split; [lia|done]. }
  assert (∀ j s', syms' !! j = Some s' → ∃ s, syms !! j = Some s ∧ kind s' = kind s ∧
    if decide (j ∈ ids buf) then kind s ≠ KUsed ∧ holders s' = holders s ++ [length bufs] else s' = s) as Hback.
  { intros j s' Hj. destruct (lookup_lt_is_Some_2 syms j) as [s Hs]; [rewrite <- Hlen; by eapply lookup_lt_Some|].
    destruct (Hps j s Hs) as (s2 & Hs2 & Hrest). assert (s2 = s') as -> by congruence. by exists s. }
  assert (∀ j, inact syms' j = inact syms j) as Hin.
  { intros j. apply inact_kind. destruct (syms !! j) as [s|] eqn:Hs.
    - destruct (Hps j s Hs) as (s' & -> & Hk & _). cbn. by f_equal.
    - destruct (syms' !! j) as [s'|] eqn:Hs'; [|done]. destruct (Hback j s' Hs') as (? & ? & _). congruence. }
  pose proof (λ j c, pushed_used _ _ _ _ j c Hpushed) as Hused.
  split.
  - congruence.
  - intros b bf Hb. apply Hbufs in Hb as [[Hb _]|[-> ->]]; [by apply (T2 b)|done].
  - intros j s' Hs'. destruct (Hback j s' Hs') as (s & Hs & Hk & Hc). destruct (T3 j s Hs) as [Ho Hl].
    rewrite length_app. cbn. case_decide as Hj.
    + destruct Hc as [_ ->]. split.
      * apply append_spec; [done|]. intros b Hb. by apply Hl.
      * intros b [Hb%Hl| ->%list_elem_of_singleton]%elem_of_app; lia.
    + subst s'. split; [done|]. intros b Hb%Hl. lia.
  - intros b bf j s' Hb Hs'. destruct (Hback j s' Hs') as (s & Hs & Hk & Hc). cbn.
    destruct (T3 j s Hs) as [_ Hl]. apply Hbufs in Hb as [[Hb Hbl]|[-> ->]].
    + rewrite (T4 b bf j s Hb Hs). cbn. case_decide; [|by subst]. destruct Hc as [_ ->].
      rewrite elem_of_app, list_elem_of_singleton. split; [tauto|]. intros [[?|?]|?]; [tauto|lia|done].
    + case_decide as Hj; [destruct Hc as [_ ->]; set_solver|]. subst s'. split; [done|].
      intros [Hb|[]]. specialize (Hl _ Hb). lia.
  - intros b bf Hb. rewrite (weight_ext syms' syms) by done. apply Hbufs in Hb as [[Hb _]|[-> ->]]; [by apply T5|].
    cbn. lia.
  - intros b bf Hb. setoid_rewrite Hused. apply Hbufs in Hb as [[Hb _]|[-> ->]]; [by apply T6|].
    rewrite Hu. split; [done|]. intros [j Hj]. destruct (T3 j _ Hj) as [_ Hl]. specialize (Hl _ ltac:(cbn; left)). lia.
  - intros b bf Hb Hus. apply Hbufs in Hb as [[Hb _]|[-> ->]]; [by eapply T7|congruence].
  - intros i j b Hi Hj. apply Hused in Hi, Hj. by eapply T8.
  - rewrite T9. apply count_ext. intros j _. rewrite (paired_at_used bufs syms syms' j Hused).
    unfold paired_at. destruct (syms' !! j) as [[| |b]|] eqn:Hj; try done. apply Hused in Hj.
    destruct (T3 j _ Hj) as [_ Hl]. rewrite lookup_app_l by (apply Hl; cbn; left). done.
Qed.

Lemma NoDup_omap {A C} (f : A → option C) (l : list A) :
  NoDup l → (∀ x y c, f x = Some c → f y = Some c → x = y) → NoDup (omap f l).
Proof.
  intros Hnd Hinj. induction Hnd as [|x l Hx Hnd IH]; cbn; [constructor|]. destruct (f x) as [c|] eqn:Hf; [|done].
  constructor; [|done]. intros (y & Hy & Hfy)%list_elem_of_omap. by rewrite (Hinj x y c Hf Hfy) in Hx.
Qed.

(** The accounting of the new buffer. *)
Lemma books_receive d buf :
  books (class_of (buffer_state d)) (length (buffer_state d)) (buffers_active_usable d)
    (buffers_inactivated d) (num_redundant_buffers d) →
  (N.of_nat (S (length (buffer_state d))) ≤ u16_MAX)%N → used buf = false →
  to_u16 (length (ids buf)) = Ret (length (ids buf)) →
  ∀ d1, buffers_active_usable d1 = buffers_active_usable d → buffers_inactivated d1 = buffers_inactivated d →
  num_redundant_buffers d1 = num_redundant_buffers d → buffer_state d1 = buffer_state d ++ [buf] →
  ∃ d', account_received (length (buffer_state d)) buf d1 = Ret d' ∧
    params d' = params d1 ∧ buffer_state d' = buffer_state d1 ∧
    intermediate_symbol_state d' = intermediate_symbol_state d1 ∧
    num_source_symbols_paired d' = num_source_symbols_paired d1 ∧
    books (class_of (buffer_state d')) (length (buffer_state d')) (buffers_active_usable d')
      (buffers_inactivated d') (num_redundant_buffers d').
Proof.
  intros HB Hn Hu H16 d1 Ha1 Hi1 Hr1 Hb1. pose proof (books_extend _ _ _ _ _ HB Hn) as HB1.
  set (n := length (buffer_state d)) in *.
  assert (length (buffer_state d1) = S n) as Hlen by (rewrite Hb1, length_app; cbn; lia).
  assert (∀ b, upd (upd (class_of (buffer_state d)) n CUsed) n (class buf) b = class_of (buffer_state d1) b) as Hcl.
  { intros b. rewrite upd_upd, Hb1. unfold upd, class_of. destruct (decide (b = n)) as [->|Hne].
    - by rewrite lookup_app_r, Nat.sub_diag by (unfold n; lia).
    - destruct (decide (b < n)); [by rewrite lookup_app_l by (unfold n in *; lia)|].
      rewrite !lookup_ge_None_2; [done|rewrite length_app; cbn; unfold n in *; lia|unfold n in *; lia]. }
  unfold account_received. rewrite Ha1, Hi1. case_decide as Hw.
  - rewrite NonZeroU16_new_Ret by lia. dsimpl.
    destruct (books_insert_active _ _ _ _ _ HB1 n (auw buf) (upd_eq _ _ _)) as (h1 & -> & HB2). dsimpl.
    eexists. split; [done|]. dsimpl. split_and!; try done. rewrite Hlen, Hi1, Hr1. eapply books_ext; [exact Hcl|].
    replace (class buf) with (CActive (auw buf)); [done|]. unfold class. by rewrite Hu, decide_True by lia.
  - case_decide as Hl.
    + rewrite H16. dsimpl. rewrite NonZeroU16_new_Ret by lia. dsimpl.
      destruct (books_insert_inactivated _ _ _ _ _ HB1 n (length (ids buf)) (upd_eq _ _ _)) as (h2 & -> & HB2). dsimpl.
      eexists. split; [done|]. dsimpl. split_and!; try done. rewrite Hlen, Ha1, Hr1. eapply books_ext; [exact Hcl|].
      replace (class buf) with (CInactivated (length (ids buf))); [done|]. unfold class.
      rewrite Hu, decide_False by lia. rewrite decide_True; [done|]. intros He. rewrite He in Hl. cbn in Hl. lia.
    + eexists. split; [done|]. dsimpl. split_and!; try done. rewrite Hlen, Ha1, Hi1, Hr1. eapply books_ext; [exact Hcl|].
      replace (class buf) with CRedundant; [exact (books_redundant _ _ _ _ _ HB1 n (upd_eq _ _ _))|].
      unfold class. rewrite Hu, !decide_False; [done| |lia]. intros He. apply He. destruct (ids buf); [done|cbn in Hl; lia].
Qed.

Lemma received_encoded_symbol_spec esi d s :
  dec_ok p no_slack d → R s (rows (buffer_state d) ++ [lt_row p esi]) → esi < MAX_TRIPLES →
  (N.of_nat (S (length (buffer_state d))) ≤ u16_MAX)%N →
  ∃ st', received_encoded_symbol xor_buffers esi (d, s) = Ret st' ∧ st_ok p R no_slack st' ∧
    length (buffer_state st'.1) = S (length (buffer_state d)).
Proof.
  intros Hd HR Hesi Hn. pose proof Hd as [HP HT HB]. unfold received_encoded_symbol.
  rewrite to_u16_Ret by lia. dsimpl. unfold lt_sequence_op. rewrite HP.
  destruct (lt_symbols_spec p Hp esi Hesi) as (-> & Hord & Hlt & _). dsimpl. set (row := lt_row p esi) in *.
  rewrite (add_received_spec d no_slack _ row HT Hord Hlt). dsimpl.
  set (us := omap _ row). set (buf0 := {| intermediate_symbol_ids := row |}).
  assert (NoDup us) as Hus.
  { apply NoDup_omap; [by apply ordered_NoDup|]. intros i j c Hi Hj.
    apply bind_Some in Hi as (si & Hi & Hci). apply bind_Some in Hj as (sj & Hj & Hcj).
    destruct si, sj; try done. cbn in *. simplify_eq. by eapply (t_used_inj _ _ _ _ _ HT). }
  assert (∀ c, c ∈ us ↔ ∃ j, j ∈ row ∧ intermediate_symbol_state d !! j = Some (Used c)) as Hin.
  { intros c. unfold us. rewrite list_elem_of_omap. split; intros (j & Hj & Hc); exists j; split; try done.
    - apply bind_Some in Hc as (sj & Hsj & Hc). destruct sj; try done. cbn in Hc. by simplify_eq.
    - by rewrite Hc. }
  destruct (for_each_spec (reducing d row) us (reduce_received xor_buffers d (length (buffer_state d))) (buf0, s))
    as ([buf s1] & -> & [R1 R2 R3 R4 R5 R6]).
  - split; cbn; try done. intros j _. split; [|tauto]. intros Hj. split; [done|]. set_solver.
  - intros done c todo st Hl Hst. destruct (proj1 (Hin c)) as (j0 & Hj0 & Hsj); [rewrite Hl; set_solver|].
    eapply (reduce_received_spec d row done c j0); try done. rewrite Hl in Hus. apply NoDup_app in Hus as (_ & Hdis & _).
    intros Hc. apply (Hdis c Hc). left.
  - cbn [fst snd] in *. dsimpl.
    destruct (push_spec (length (buffer_state d)) (ids buf) (intermediate_symbol_state d)) as (syms' & -> & Hpush).
    { by apply ordered_NoDup. }
    { intros j Hj. destruct (t_symbol p _ _ _ _ j HT) as [sj Hsj]; [by apply R2|]. exists sj. split; [done|].
      intros Hk. destruct sj as [| |c]; try done.
      assert (inact (intermediate_symbol_state d) j = false) as Hi by (unfold inact; by rewrite Hsj).
      apply (R6 j Hi) in Hj as [Hjr Hno]. apply (Hno c); [|done]. apply Hin. eauto. }
    dsimpl. assert (to_u16 (length (ids buf)) = Ret (length (ids buf))) as H16.
    { apply to_u16_Ret. pose proof (ordered_length _ _ R1 R2). pose proof (L_u16 p Hp). lia. }
    destruct (books_receive d buf HB Hn R3 H16
      (with_buffer_state (with_symbol_state d syms') (buffer_state d ++ [buf])))
      as (d' & Hrun & HP' & Hb' & Hs' & Hp' & HB'); try done.
    rewrite Hrun. dsimpl. exists (d', s1). split; [done|]. split; [|dsimpl; rewrite Hb'; dsimpl; rewrite length_app; cbn; lia].
    split; dsimpl.
    + split; [by rewrite HP'| |done]. rewrite Hb', Hs', Hp'. dsimpl. by apply (tables_append _ (intermediate_symbol_state d)).
    + rewrite Hb'. dsimpl. unfold rows. by rewrite fmap_app.
Qed.
End decoding.

(** ** Initial state *)

Section initial.
Context (p : CodeParameters) (Hp : params_ok p).
Abbreviation L := (num_intermediate_symbols p).
Abbreviation K := (num_source_symbols p).
Abbreviation S' := (num_ldpc_symbols p).
Abbreviation H' := (num_half_symbols p).

(** The elements of the precode matrix, in the order of the calls. *)
Definition precode_calls : list (nat * nat) :=
  element_calls K (ldpc_column p) ++
  ((λ i, (i, K + i)) <$> seq 0 S') ++
  ((λ '(i, j), (S' + i, j)) <$> element_calls (K + S') (half_column p)) ++
  ((λ i, (S' + i, K + S' + i)) <$> seq 0 H').

Lemma elem_of_precode b j :
  (b, j) ∈ precode_calls ↔
  (j < K ∧ b ∈ ldpc_column p j) ∨ (b < S' ∧ j = K + b) ∨
  (S' ≤ b ∧ j < K + S' ∧ b - S' ∈ half_column p j) ∨ (S' ≤ b < S' + H' ∧ j = K + b).
Proof.
  unfold precode_calls. rewrite !elem_of_app, elem_of_element_calls, !list_elem_of_fmap. split.
  - intros [?|[(i & [= -> ->] & Hi%elem_of_seq)|[([i j'] & [= -> ->] & [? Hi]%elem_of_element_calls)|(i & [= -> ->] & Hi%elem_of_seq)]]].
    + by left.
    + right. left. lia.
    + do 2 right. left. replace (S' + i - S') with i by lia. split_and!; [lia|done|done].
    + do 3 right. lia.
  - intros [?|[[? ->]|[(? & ? & Hi)|[? ->]]]].
    + by left.
    + right. left. exists b. split; [done|]. apply elem_of_seq. lia.
    + do 2 right. left. exists (b - S', j). split; [f_equal; lia|]. apply elem_of_element_calls. done.
    + do 3 right. exists (b - S'). split; [f_equal; lia|]. apply elem_of_seq. lia.
Qed.

Lemma precode_range b j : (b, j) ∈ precode_calls → b < S' + H' ∧ j < L.
Proof.
  rewrite elem_of_precode, (pk_total _ Hp). intros [[? Hb]|[?|[(? & ? & Hb)|?]]].
  - apply (ldpc_column_range p Hp) in Hb. lia.
  - lia.
  - apply half_column_range in Hb. lia.
  - lia.
Qed.

Lemma staircase_seq (f : nat → nat * nat) n k :
  (∀ i i', i < i' → staircase (f i) (f i')) → StronglySorted staircase (f <$> seq k n).
Proof.
  intros Hf. revert k. induction n as [|n IH]; intros k; cbn; [constructor|]. constructor; [apply IH|].
  apply Forall_fmap, Forall_forall. intros i Hi%elem_of_seq. apply Hf. lia.
Qed.

Lemma precode_staircase : StronglySorted staircase precode_calls.
Proof.
  unfold precode_calls.
  assert (∀ b j, (b, j) ∈ element_calls K (ldpc_column p) → b < S' ∧ j < K) as H1.
  { intros b j [Hj Hb]%elem_of_element_calls. apply (ldpc_column_range p Hp) in Hb. lia. }
  assert (∀ b j, (b, j) ∈ (λ '(i, j), (S' + i, j)) <$> element_calls (K + S') (half_column p) → S' ≤ b ∧ j < K + S') as H3.
  { intros b j Hb. apply list_elem_of_fmap in Hb as ([i j'] & [= -> ->] & [Hj Hi]%elem_of_element_calls). lia. }
  apply StronglySorted_app. split_and!.
  - intros [b1 j1] [b2 j2] [Hb Hj]%H1. rewrite !elem_of_app, !list_elem_of_fmap.
    intros [(i & [= -> ->] & _)|[([i j'] & [= -> ->] & _)|(i & [= -> ->] & _)]]; split; cbn; lia.
  - apply element_calls_staircase. intros j _. by apply ldpc_column_ordered.
  - apply StronglySorted_app. split_and!.
    + intros [b1 j1] [b2 j2] Hb. apply list_elem_of_fmap in Hb as (i & [= -> ->] & Hi%elem_of_seq).
      rewrite elem_of_app. intros [[? ?]%H3|Hb]; [split; cbn; lia|].
      apply list_elem_of_fmap in Hb as (i' & [= -> ->] & _). split; cbn; lia.
    + apply staircase_seq. intros i i' Hi. split; cbn; lia.
    + apply StronglySorted_app. split_and!.
      * intros [b1 j1] [b2 j2] [? ?]%H3 Hb. apply list_elem_of_fmap in Hb as (i & [= -> ->] & _). split; cbn; lia.
      * assert (StronglySorted staircase (element_calls (K + S') (half_column p))) as Hs.
        { apply element_calls_staircase. intros j _. by apply half_column_ordered. }
        clear H1 H3. induction Hs as [|[b j] l Hl IH Hb]; cbn; [constructor|]. constructor; [done|]. apply Forall_fmap.
        eapply Forall_impl; [exact Hb|]. intros [b' j'] [Hs1 Hs2]. split; cbn in *; lia.
      * apply staircase_seq. intros i i' Hi. split; cbn; lia.
Qed.

(** The row of a buffer and the buffers of a symbol after some calls. *)
Definition row_of_calls (calls : list (nat * nat)) (b : nat) : list nat := snd <$> filter (λ c, c.1 = b) calls.

Definition column_of_calls (calls : list (nat * nat)) (j : nat) : list nat := fst <$> filter (λ c, c.2 = j) calls.

Definition constraint_row (b : nat) : list nat := row_of_calls precode_calls b.

Lemma elem_of_row_of_calls calls b j : j ∈ row_of_calls calls b ↔ (b, j) ∈ calls.
Proof.
  unfold row_of_calls. rewrite list_elem_of_fmap. split.
  - intros ([b' j'] & -> & [Hb Hin]%list_elem_of_filter). cbn in *. by subst.
  - intros Hin. exists (b, j). split; [done|]. by apply list_elem_of_filter.
Qed.

Lemma elem_of_column_of_calls calls b j : b ∈ column_of_calls calls j ↔ (b, j) ∈ calls.
Proof.
  unfold column_of_calls. rewrite list_elem_of_fmap. split.
  - intros ([b' j'] & -> & [Hb Hin]%list_elem_of_filter). cbn in *. by subst.
  - intros Hin. exists (b, j). split; [done|]. by apply list_elem_of_filter.
Qed.

Lemma staircase_row calls b : StronglySorted staircase calls → ordered (row_of_calls calls b).
Proof.
  unfold row_of_calls, ordered. induction 1 as [|c l Hl IH Hc]; [constructor|]. rewrite filter_cons.
  case_decide as Hb; [|done]. cbn. constructor; [done|]. apply Forall_fmap, Forall_forall.
  intros c' [Hb' Hin]%list_elem_of_filter. rewrite Forall_forall in Hc. apply (Hc c' Hin). congruence.
Qed.

Lemma staircase_column calls j : StronglySorted staircase calls → ordered (column_of_calls calls j).
Proof.
  unfold column_of_calls, ordered. induction 1 as [|c l Hl IH Hc]; [constructor|]. rewrite filter_cons.
  case_decide as Hb; [|done]. cbn. constructor; [done|]. apply Forall_fmap, Forall_forall.
  intros c' [Hb' Hin]%list_elem_of_filter. rewrite Forall_forall in Hc. apply (Hc c' Hin). congruence.
Qed.

Lemma row_of_calls_app calls c b :
  row_of_calls (calls ++ [c]) b = if decide (c.1 = b) then row_of_calls calls b ++ [c.2] else row_of_calls calls b.
Proof.
  unfold row_of_calls. rewrite filter_app, fmap_app, filter_cons. case_decide; [done|]. apply app_nil_r.
Qed.

Lemma column_of_calls_app calls c j :
  column_of_calls (calls ++ [c]) j =
  if decide (c.2 = j) then column_of_calls calls j ++ [c.1] else column_of_calls calls j.
Proof.
  unfold column_of_calls. rewrite filter_app, fmap_app, filter_cons. case_decide; [done|]. apply app_nil_r.
Qed.

Definition tables_of (calls : list (nat * nat)) : list Buffer * list IntermediateSymbol :=
  ((λ b, {| intermediate_symbol_ids := row_of_calls calls b;
            active_used_weight := length (row_of_calls calls b); used := false |}) <$> seq 0 (S' + H'),
   (λ j, Active (column_of_calls calls j)) <$> seq 0 L).

Lemma insert_fmap_seq {A} (f g : nat → A) n b :
  b < n → (∀ i, i ≠ b → f i = g i) → <[b := g b]> (f <$> seq 0 n) = g <$> seq 0 n.
Proof.
  intros Hb Hfg. apply list_eq. intros i. destruct (decide (i = b)) as [->|Hne].
  - rewrite list_lookup_insert_eq by by rewrite length_fmap, length_seq. by rewrite list_lookup_fmap, lookup_seq_lt.
  - rewrite list_lookup_insert_ne, !list_lookup_fmap by done. destruct (seq 0 n !! i) as [k|] eqn:Hk; [|done].
    apply lookup_seq in Hk as [-> _]. cbn. f_equal. by apply Hfg.
Qed.

Lemma fmap_seq_lookup {A} (f : nat → A) n b : b < n → (f <$> seq 0 n) !! b = Some (f b).
Proof. intros Hb. by rewrite list_lookup_fmap, lookup_seq_lt. Qed.

Lemma add_element_spec calls b j :
  b < S' + H' → j < L → length (row_of_calls calls b) < L →
  add_element b j (tables_of calls) = Ret (tables_of (calls ++ [(b, j)])).
Proof.
  intros Hb Hj Hlen. pose proof (L_u16 p Hp). pose proof (pk_total _ Hp). pose proof (pk_source _ Hp).
  unfold add_element, tables_of, vget. rewrite !(fmap_seq_lookup _ _ b), !(fmap_seq_lookup _ _ j) by done. dsimpl.
  unfold append_active_intermediate_symbol_id, append_intermediate_symbol_id. rewrite (to_u16_Ret j) by lia. dsimpl.
  rewrite vset_Ret by by rewrite length_fmap, length_seq. dsimpl. cbn [active_push].
  rewrite (to_u16_Ret b) by lia. dsimpl. rewrite vset_Ret by by rewrite length_fmap, length_seq. dsimpl. do 2 f_equal.
  - rewrite <- (insert_fmap_seq (λ b, {| intermediate_symbol_ids := row_of_calls calls b;
      active_used_weight := length (row_of_calls calls b); used := false |})
      (λ b', {| intermediate_symbol_ids := row_of_calls (calls ++ [(b, j)]) b';
      active_used_weight := length (row_of_calls (calls ++ [(b, j)]) b'); used := false |}) _ b Hb).
    + f_equal. rewrite row_of_calls_app, decide_True by done. unfold with_weight, with_ids, append, u16_inc. cbn.
      rewrite decide_False by lia. f_equal. rewrite length_app. cbn. lia.
    + intros i Hi. by rewrite row_of_calls_app, decide_False by (cbn; congruence).
  - rewrite <- (insert_fmap_seq (λ j, Active (column_of_calls calls j))
      (λ j', Active (column_of_calls (calls ++ [(b, j)]) j')) _ j Hj).
    + by rewrite column_of_calls_app, decide_True.
    + intros i Hi. by rewrite column_of_calls_app, decide_False by (cbn; congruence).
Qed.

Lemma add_elements calls :
  StronglySorted staircase calls → (∀ b j, (b, j) ∈ calls → b < S' + H' ∧ j < L) →
  for_each calls (λ '(b, j), add_element b j) (tables_of []) = Ret (tables_of calls).
Proof.
  intros Hs Hr. destruct (for_each_spec (λ done s, s = tables_of done) calls (λ '(b, j), add_element b j) (tables_of []))
    as (s & -> & ->); [done| |done].
  intros done [b j] todo s Hl ->. destruct (Hr b j) as [Hb Hj]; [rewrite Hl; set_solver|].
  eexists. split; [|done]. apply add_element_spec; [done..|].
  rewrite Hl, cons_middle, app_assoc in Hs. apply StronglySorted_app in Hs as (_ & Hs & _).
  pose proof (staircase_row _ b Hs) as Hrow. rewrite row_of_calls_app, decide_True in Hrow by done.
  apply ordered_length with (n := L) in Hrow; [rewrite length_app in Hrow; cbn in Hrow; lia|].
  intros j' Hj'. destruct (decide (j' = j)) as [->|Hne]; [done|].
  apply elem_of_app in Hj' as [Hj'|Hj'%list_elem_of_singleton]; [|done].
  apply elem_of_row_of_calls in Hj'. apply (Hr b). rewrite Hl. set_solver.
Qed.

Lemma tables_of_nil :
  tables_of [] = (replicate (S' + H') Buffer_new, replicate L IntermediateSymbol_new).
Proof.
  unfold tables_of. f_equal; apply list_eq; intros i; rewrite list_lookup_fmap.
  - destruct (decide (i < S' + H')); [by rewrite lookup_seq_lt, lookup_replicate_2|].
    rewrite lookup_seq_ge by lia. symmetry. apply lookup_replicate_None. lia.
  - destruct (decide (i < L)); [by rewrite lookup_seq_lt, lookup_replicate_2|].
    rewrite lookup_seq_ge by lia. symmetry. apply lookup_replicate_None. lia.
Qed.

(** The four loops of the constructor. *)
Lemma add_precode :
  (s ← g_ldpc p add_element (replicate (S' + H') Buffer_new, replicate L IntermediateSymbol_new);
   s ← for_each (seq 0 S') (λ i, add_element i (K + i)) s;
   s ← g_half p (λ i, add_element (S' + i)) s;
   for_each (seq 0 H') (λ i, add_element (S' + i) (K + S' + i)) s) = Ret (tables_of precode_calls).
Proof.
  rewrite <- add_elements; [|apply precode_staircase|apply precode_range]. rewrite <- tables_of_nil.
  unfold precode_calls. rewrite g_ldpc_calls, for_each_app by done.
  destruct (for_each (element_calls K (ldpc_column p)) _ _) as [s1|]; [|done]. dsimpl.
  rewrite for_each_app, for_each_fmap. destruct (for_each (seq 0 S') _ _) as [s2|]; [|done]. dsimpl.
  rewrite g_half_calls, for_each_app, for_each_fmap by done.
  rewrite (for_each_ext _ (λ '(i, j), add_element (S' + i) j)
    (λ x, let '(b, j) := let '(i, j) := x in (S' + i, j) in add_element b j)) by (by intros [??] ??).
  destruct (for_each (element_calls (K + S') (half_column p)) _ s2) as [s3|]; [|done]. dsimpl.
  by rewrite for_each_fmap.
Qed.

(** The weights of the constraint buffers are entered one after the other. *)
Lemma enter_weights bufs :
  (N.of_nat (length bufs) ≤ u16_MAX)%N → (∀ b buf, bufs !! b = Some buf → used buf = false ∧ auw buf ≠ 0) →
  ∃ m, for_each (zip (seq 0 (length bufs)) bufs) (λ '(i, buffer_state) m,
         w ← NonZeroU16_new (active_used_weight buffer_state);
         insert_buffer_weight m i w) BufferWeightMap_new = Ret m ∧
    books (class_of bufs) (length bufs) m BufferWeightMap_new 0.
Proof.
  intros Hn Hbufs.
  destruct (for_each_spec (λ done m, books (λ b, if decide (b < length done) then class_of bufs b else None)
    (length done) m BufferWeightMap_new 0) (zip (seq 0 (length bufs)) bufs)
    (λ '(i, buffer_state) m, w ← NonZeroU16_new (active_used_weight buffer_state); insert_buffer_weight m i w)
    BufferWeightMap_new) as (m & Hrun & HB).
  - split; cbn [length]; try exact heap_ok_new; try done.
    intros b. rewrite decide_False by lia. by intros [? ?].
  - intros done [i buf] todo m Hl HB.
    assert (length (zip (seq 0 (length bufs)) bufs) = length bufs) as Hzip by (rewrite length_zip_with, length_seq; lia).
    assert (length done < length bufs) as Hlt. { rewrite <- Hzip, Hl, length_app. cbn. lia. }
    assert (zip (seq 0 (length bufs)) bufs !! length done = Some (i, buf)) as Hi by (rewrite Hl; by apply list_lookup_middle).
    apply lookup_zip_with_Some in Hi as (i' & buf' & [= <- <-] & Hi & Hb). apply lookup_seq in Hi as [-> _].
    rewrite Nat.add_0_l. destruct (Hbufs _ _ Hb) as [Hu Hw]. rewrite NonZeroU16_new_Ret by done. dsimpl.
    assert (books (upd (λ b, if decide (b < length done) then class_of bufs b else None) (length done) CUsed)
      (S (length done)) m BufferWeightMap_new 0) as HB1 by (apply books_extend; [done|lia]).
    destruct (books_insert_active _ _ _ _ _ HB1 (length done) (auw buf) (upd_eq _ _ _)) as (m' & -> & HB2).
    exists m'. split; [done|]. rewrite length_app, Nat.add_1_r. eapply books_ext; [|exact HB2]. intros b.
    rewrite upd_upd. unfold upd. destruct (decide (b = length done)) as [->|Hne].
    + rewrite decide_True by lia. unfold class_of, class. rewrite Hb. cbn. by rewrite Hu, decide_True.
    + destruct (decide (b < length done)); [rewrite decide_True by lia|rewrite decide_False by lia]; done.
  - exists m. split; [done|].
    assert (length (zip (seq 0 (length bufs)) bufs) = length bufs) as Hzip by (rewrite length_zip_with, length_seq; lia).
    rewrite Hzip in HB. eapply books_ext; [|exact HB]. intros b. cbn beta. case_decide as Hb; [done|]. unfold class_of.
    by rewrite lookup_ge_None_2 by lia.
Qed.

Lemma tables_initial : tables p no_slack (tables_of precode_calls).1 (tables_of precode_calls).2 0.
Proof.
  pose proof precode_staircase as Hs.
  assert (∀ b buf, (tables_of precode_calls).1 !! b = Some buf → b < S' + H' ∧
    buf = {| intermediate_symbol_ids := constraint_row b; active_used_weight := length (constraint_row b); used := false |}) as Hbufs.
  { intros b buf Hb. cbn in Hb. apply list_lookup_fmap_Some in Hb as (i & -> & Hi). by apply lookup_seq in Hi as [-> Hi]. }
  assert (∀ j s, (tables_of precode_calls).2 !! j = Some s → j < L ∧ s = Active (column_of_calls precode_calls j)) as Hsyms.
  { intros j s Hj. cbn in Hj. apply list_lookup_fmap_Some in Hj as (i & -> & Hi). by apply lookup_seq in Hi as [-> Hi]. }
  split.
  - cbn. by rewrite length_fmap, length_seq.
  - intros b buf [Hb ->]%Hbufs. cbn. split; [by apply staircase_row|]. intros j Hj%elem_of_row_of_calls.
    by apply precode_range in Hj as [_ ?].
  - intros j s [Hj ->]%Hsyms. cbn [holders]. split; [by apply staircase_column|]. intros b Hb%elem_of_column_of_calls.
    cbn. rewrite length_fmap, length_seq. by apply precode_range in Hb as [? _].
  - intros b buf j s [Hb ->]%Hbufs [Hj ->]%Hsyms. cbn [ids holders extra no_slack].
    unfold constraint_row. rewrite elem_of_row_of_calls, elem_of_column_of_calls. tauto.
  - intros b buf [Hb ->]%Hbufs. cbn [auw ids delta no_slack].
    assert (weight (tables_of precode_calls).2 (constraint_row b) = length (constraint_row b)) as ->; [|lia].
    unfold weight. f_equal. assert (∀ l : list nat, (∀ j, j ∈ l → inact (tables_of precode_calls).2 j = false) →
      filter (λ j, inact (tables_of precode_calls).2 j = false) l = l) as Hall.
    { induction l as [|j l IH]; intros Hl; [done|]. rewrite filter_cons_True by (apply Hl; left). f_equal. apply IH.
      intros i Hi. apply Hl. by right. }
    apply Hall. intros j _. unfold inact. destruct ((tables_of precode_calls).2 !! j) as [s|] eqn:Hj; [|done].
    by apply Hsyms in Hj as [_ ->].
  - intros b buf [Hb ->]%Hbufs. cbn. split; [done|]. intros [j [_ Hj]%Hsyms]. done.
  - intros b buf [Hb ->]%Hbufs. done.
  - intros i j b [_ Hi]%Hsyms. done.
  - cbn. symmetry. assert (∀ n, count (paired_at (tables_of precode_calls).1 (tables_of precode_calls).2) n = 0) as Hz; [|apply Hz].
    induction n as [|n IH]; cbn [count]; [done|]. rewrite IH. unfold paired_at.
    destruct ((tables_of precode_calls).2 !! n) as [s|] eqn:Hj; [|done]. by apply Hsyms in Hj as [_ ->].
Qed.

(** The constructor of the decoder. *)
Lemma with_capacity_spec :
  CodeParameters_new K = Ret (Ok p) →
  ∃ d, with_capacity K = Ret (Ok d) ∧ dec_ok p no_slack d ∧
    rows (buffer_state d) = constraint_row <$> seq 0 (S' + H').
Proof.
  intros Hnew. unfold with_capacity. pose proof (pk_source _ Hp) as HK. rewrite decide_True by done.
  rewrite Hnew. cbn [run_try]. dsimpl. pose proof add_precode as Hrun.
  apply run_bind_Ret in Hrun as (s1 & H1 & Hrun). apply run_bind_Ret in Hrun as (s2 & H2 & Hrun).
  apply run_bind_Ret in Hrun as (s3 & H3 & Hrun). rewrite H1. dsimpl. rewrite H2. dsimpl. rewrite H3. dsimpl.
  rewrite Hrun. dsimpl. set (bufs := (tables_of precode_calls).1).
  assert (length bufs = S' + H') as Hlen by (cbn; by rewrite length_fmap, length_seq).
  destruct (enter_weights bufs) as (m & Hm & HB).
  { rewrite Hlen. pose proof (L_u16 p Hp). rewrite (pk_total _ Hp) in *. lia. }
  { intros b buf Hb. cbn in Hb. apply list_lookup_fmap_Some in Hb as (i & -> & Hi).
    apply lookup_seq in Hi as [-> Hi]. cbn. split; [done|]. rewrite length_zero_iff_nil. intros Hnil.
    assert (K + b ∈ row_of_calls precode_calls b) as Hin; [|rewrite Hnil in Hin; set_solver].
    apply elem_of_row_of_calls, elem_of_precode. destruct (decide (b < S')); [right; left; lia|do 3 right; lia]. }
  rewrite Hm. dsimpl. eexists. split; [done|]. split; [|done || (cbn; by rewrite <- list_fmap_compose)].
  split; dsimpl; [done|apply tables_initial|done].
Qed.
End initial.
