(* ===== verification/RaptorEncoder.v ===== *)
(** * Encoder and managed decoder of the Raptor code
      ([src/raptor/src/xor_eq.rs], [r10/nonsystematic/encoder.rs],
      [r10/nonsystematic/decoder/managed_decoder.rs])

    The encoder splits the data into source symbols, computes the redundant
    intermediate symbols and combines intermediate symbols into encoded ones.  The
    managed decoder owns the buffers the decoder combines.  Bytes are numbers. *)
From S2P Require Import Prelude RaptorSet RaptorHeap RaptorParams RaptorDecoder.

(** ** Combining slices *)

Abbreviation Bytes := (list N).

Definition MAX_SOURCES : nat := 6.

(** [a ^ b], byte by byte. *)
Definition bxor (a b : Bytes) : Bytes := zip_with N.lxor a b.

Definition xor_eq1 (dst a : Bytes) : run Bytes :=
  assert (length dst = length a) ≫= λ _, Ret (bxor dst a).

Definition xor_eq2 (dst a b : Bytes) : run Bytes :=
  assert (length dst = length a) ≫= λ _,
  assert (length dst = length b) ≫= λ _, Ret (bxor dst (bxor a b)).

Definition xor_eq3 (dst a b c : Bytes) : run Bytes :=
  assert (length dst = length a) ≫= λ _,
  assert (length dst = length b) ≫= λ _,
  assert (length dst = length c) ≫= λ _, Ret (bxor dst (bxor (bxor a b) c)).

Definition xor_eq4 (dst a b c d : Bytes) : run Bytes :=
  assert (length dst = length a) ≫= λ _,
  assert (length dst = length b) ≫= λ _,
  assert (length dst = length c) ≫= λ _,
  assert (length dst = length d) ≫= λ _, Ret (bxor dst (bxor (bxor (bxor a b) c) d)).

Definition xor_eq5 (dst a b c d e : Bytes) : run Bytes :=
  assert (length dst = length a) ≫= λ _,
  assert (length dst = length b) ≫= λ _,
  assert (length dst = length c) ≫= λ _,
  assert (length dst = length d) ≫= λ _,
  assert (length dst = length e) ≫= λ _, Ret (bxor dst (bxor (bxor (bxor (bxor a b) c) d) e)).

Definition xor_eq6 (dst a b c d e f : Bytes) : run Bytes :=
  assert (length dst = length a) ≫= λ _,
  assert (length dst = length b) ≫= λ _,
  assert (length dst = length c) ≫= λ _,
  assert (length dst = length d) ≫= λ _,
  assert (length dst = length e) ≫= λ _,
  assert (length dst = length f) ≫= λ _,
  Ret (bxor dst (bxor (bxor (bxor (bxor (bxor a b) c) d) e) f)).

Definition xor_eq_slices (dst : Bytes) (src : list Bytes) : run Bytes :=
  match src with
  | [a] => xor_eq1 dst a
  | [a; b] => xor_eq2 dst a b
  | [a; b; c] => xor_eq3 dst a b c
  | [a; b; c; d] => xor_eq4 dst a b c d
  | [a; b; c; d; e] => xor_eq5 dst a b c d e
  | [a; b; c; d; e; f] => xor_eq6 dst a b c d e f
  | _ => Panic
  end.

(** [slice::chunks(n)] *)
Fixpoint chunks_fuel {A} (fuel n : nat) (l : list A) : list (list A) :=
  match fuel, l with
  | S fuel, _ :: _ => take n l :: chunks_fuel fuel n (drop n l)
  | _, _ => []
  end.

Definition chunks {A} (n : nat) (l : list A) : list (list A) := chunks_fuel (length l) n l.

(** The loop [for chunk in sources.chunks(MAX_SOURCES) { xor_eq(dst, chunk) }]. *)
Definition xor_all (dst : Bytes) (sources : list Bytes) : run Bytes :=
  for_each (chunks MAX_SOURCES sources) (λ chunk dst, xor_eq_slices dst chunk) dst.

(** [iter().map(f).collect()] where [f] may panic. *)
Fixpoint map_run {A C} (f : A → run C) (l : list A) : run (list C) :=
  match l with
  | [] => Ret []
  | x :: l => y ← f x; ys ← map_run f l; Ret (y :: ys)
  end.

(** [&src[from..to]] *)
Definition subslice (src : Bytes) (from to : nat) : run Bytes :=
  assert (from ≤ to ≤ length src) ≫= λ _, Ret (take (to - from) (drop from src)).

(** [j as u16] *)
Definition as_u16 (j : nat) : nat := N.to_nat (N.of_nat j `mod` 65536).

(** ** Encoder *)

Record Encoder := {
  src : Bytes;
  symbol_len : nat;
  e_params : CodeParameters;
  num_full_source_symbols : nat;
  derived_symbols : list Bytes;
}.

(** The symbol at an index: from the data, or from the derived symbols. *)
Definition symbol_at (src : Bytes) (symbol_len num_full_source_symbols : nat) (derived : list Bytes)
    (index : nat) : run Bytes :=
  if decide (index < num_full_source_symbols) then
    subslice src (index * symbol_len) ((index + 1) * symbol_len)
  else vget derived (index - num_full_source_symbols).

(** The last partial symbol, and symbols up to the minimum, padded with zeros; and
    the number of source symbols. *)
Definition shadowed_source_symbols (src : Bytes) (symbol_len : nat) : list Bytes * nat :=
  let num_full_source_symbols := length src / symbol_len in
  let last_source_symbol_len := length src `mod` symbol_len in
  let '(shadowed, num_source_symbols) :=
    if decide (last_source_symbol_len ≠ 0) then
      ([drop (num_full_source_symbols * symbol_len) src ++
        replicate (symbol_len - last_source_symbol_len) 0%N], num_full_source_symbols + 1)
    else ([], num_full_source_symbols) in
  if decide (num_source_symbols < SOURCE_SYMBOLS_MIN) then
    (shadowed ++ replicate (SOURCE_SYMBOLS_MIN - num_source_symbols) (replicate symbol_len 0%N),
     SOURCE_SYMBOLS_MIN)
  else (shadowed, num_source_symbols).

(** [g[i].push(j as u16)] *)
Definition push_row (i j : nat) (g : list (list nat)) : run (list (list nat)) :=
  row ← vget g i;
  vset g i (row ++ [as_u16 j]).

(** The closure given to [g_half]. *)
Definition push_half (params : CodeParameters) (i j : nat) (s : list (list nat) * list (list nat)) :
    run (list (list nat) * list (list nat)) :=
  let '(g_ldpc_half, g_half_right) := s in
  if decide (j < num_source_symbols params) then
    g_ldpc_half ← push_row (num_ldpc_symbols params + i) j g_ldpc_half;
    Ret (g_ldpc_half, g_half_right)
  else
    g_half_right ← push_row i (j - num_source_symbols params) g_half_right;
    Ret (g_ldpc_half, g_half_right).

Definition make_redundant_symbol (src : Bytes) (symbol_len num_full_source_symbols : nat)
    (shadowed : list Bytes) (source_set : list nat) : run Bytes :=
  sources ← map_run (symbol_at src symbol_len num_full_source_symbols shadowed) source_set;
  xor_all (replicate symbol_len 0%N) sources.

Definition Encoder_new (src : Bytes) (symbol_len : nat) : run (result Encoder ()) :=
  if decide (symbol_len = 0) then Ret (Err ())
  else
    let num_full_source_symbols := length src / symbol_len in
    let '(shadowed, k) := shadowed_source_symbols src symbol_len in
    if decide (SOURCE_SYMBOLS_MIN ≤ k ≤ SOURCE_SYMBOLS_MAX) then
      params ←? CodeParameters_new k;
      g_ldpc_half ← g_ldpc params push_row
        (replicate (num_ldpc_symbols params + num_half_symbols params) []);
      '(g_ldpc_half, g_half_right) ← g_half params (push_half params)
        (g_ldpc_half, replicate (num_half_symbols params) []);
      ldpc_half_symbols ←
        map_run (make_redundant_symbol src symbol_len num_full_source_symbols shadowed) g_ldpc_half;
      assert (num_ldpc_symbols params ≤ length ldpc_half_symbols) ≫= λ _,
      let ldpc_symbols := take (num_ldpc_symbols params) ldpc_half_symbols in
      half_symbols ← for_each (seq 0 (num_half_symbols params)) (λ i half_symbols,
        row ← vget g_half_right i;
        sources ← map_run (vget ldpc_symbols) row;
        symbol ← vget half_symbols i;
        symbol ← xor_all symbol sources;
        vset half_symbols i symbol) (drop (num_ldpc_symbols params) ldpc_half_symbols);
      Ret (Ok {| src := src; symbol_len := symbol_len; e_params := params;
                 num_full_source_symbols := num_full_source_symbols;
                 derived_symbols := shadowed ++ (ldpc_symbols ++ half_symbols) |})
    else Ret (Err ()).

Definition buffer (self : Encoder) (index : nat) : run Bytes :=
  symbol_at (src self) (symbol_len self) (num_full_source_symbols self) (derived_symbols self) index.

Definition encode_symbol (self : Encoder) (dst : Bytes) (encoding_symbol_id : nat) : run Bytes :=
  assert (length dst = symbol_len self) ≫= λ _,
  indices ← lt_sequence_op (e_params self) encoding_symbol_id (λ el indices, Ret (indices ++ [el])) [];
  sources ← map_run (buffer self) indices;
  xor_all dst sources.

(** ** Buffers of the managed decoder *)

Record BufferSet := {
  num_temp_buffers : nat;
  buffers : list Bytes;
}.

Definition BufferSet_new (num_temp_buffers symbol_len : nat) : BufferSet :=
  {| num_temp_buffers := num_temp_buffers;
     buffers := replicate num_temp_buffers (replicate symbol_len 0%N) |}.

Definition push_buffer (self : BufferSet) (buf : Bytes) : BufferSet :=
  {| num_temp_buffers := num_temp_buffers self; buffers := buffers self ++ [buf] |}.

Definition buffer_index (self : BufferSet) (id : BufferId) : nat :=
  match id with
  | TempBuffer index => index
  | ReceiveBuffer index => num_temp_buffers self + index
  end.

(** The vector instructions compute the same bytes. *)
Definition xor_bytes (dst src : Bytes) : run Bytes :=
  assert (length dst = length src) ≫= λ _, Ret (bxor dst src).

Definition set_xor_buffers (a b : BufferId) (self : BufferSet) : run BufferSet :=
  '(dst, src) ← get_two_mut (buffers self) (buffer_index self a) (buffer_index self b);
  dst ← xor_bytes dst src;
  buffers ← vset (buffers self) (buffer_index self a) dst;
  Ret {| num_temp_buffers := num_temp_buffers self; buffers := buffers |}.

Definition set_buffer (self : BufferSet) (id : BufferId) : run Bytes :=
  vget (buffers self) (buffer_index self id).

(** ** Managed decoder *)

Record ManagedDecoder := {
  md_num_source_symbols : nat;
  md_symbol_len : nat;
  decoder : Decoder;
  buffer_set : BufferSet;
}.

Definition with_state (self : ManagedDecoder) (st : Decoder * BufferSet) : ManagedDecoder :=
  {| md_num_source_symbols := md_num_source_symbols self; md_symbol_len := md_symbol_len self;
     decoder := st.1; buffer_set := st.2 |}.

(** The capacity only sizes allocations. *)
Definition ManagedDecoder_new (num_source_symbols symbol_len : nat) : run (result ManagedDecoder ()) :=
  decoder ←? with_capacity num_source_symbols;
  Ret (Ok {| md_num_source_symbols := num_source_symbols; md_symbol_len := symbol_len;
             decoder := decoder;
             buffer_set := BufferSet_new (num_temp_buffers_required decoder) symbol_len |}).

Definition md_received_encoded_symbol (self : ManagedDecoder) (data : Bytes) (encoding_symbol_id : nat) :
    run ManagedDecoder :=
  assert (md_symbol_len self = length data) ≫= λ _,
  st ← received_encoded_symbol set_xor_buffers encoding_symbol_id
         (decoder self, push_buffer (buffer_set self) data);
  Ret (with_state self st).

Definition INACTIVATION_SYMBOL_THRESHOLD_MULTIPLIER : N := 384.
Definition INACTIVATION_SYMBOL_THRESHOLD_SHIFT : N := 8.

Definition inactivation_symbol_threshold (self : ManagedDecoder) : nat :=
  N.to_nat (N.shiftr (INACTIVATION_SYMBOL_THRESHOLD_MULTIPLIER * N.of_nat (md_num_source_symbols self))
    INACTIVATION_SYMBOL_THRESHOLD_SHIFT).

Definition md_try_decode (self : ManagedDecoder) : run (bool * ManagedDecoder) :=
  '(done, st) ← try_decode set_xor_buffers (inactivation_symbol_threshold self)
                  (decoder self, buffer_set self);
  Ret (done, with_state self st).

Definition md_decoding_done (self : ManagedDecoder) : bool := decoding_done (decoder self).

Definition md_num_encoded_symbols_received (self : ManagedDecoder) : nat :=
  num_encoded_symbols_received (decoder self).

(** The loop [for i in 0..num_source_symbols], which returns early. *)
Fixpoint reconstruct_from (self : ManagedDecoder) (l : list nat) (data : Bytes) : run (option Bytes) :=
  match l with
  | [] => Ret (Some data)
  | i :: l =>
      o ← source_symbol_to_buffer_id (decoder self) i;
      match o with
      | None => Ret None
      | Some id => b ← set_buffer (buffer_set self) id; reconstruct_from self l (data ++ b)
      end
  end.

Definition reconstruct_source_data (self : ManagedDecoder) : run (option Bytes) :=
  reconstruct_from self (seq 0 (md_num_source_symbols self)) [].
