(* ===== verification/RaptorCode.v ===== *)
(** * Correctness of the Raptor code

    What the encoder computes, and that the managed decoder recovers the data
    from the encoded symbols, in whatever order and number they arrive. *)
From S2P Require Import Prelude RaptorSet RaptorHeap RaptorParams RaptorDecoder RaptorDecoderSpec.
From S2P Require Import RaptorSteps RaptorElimination RaptorDecoding RaptorEncoder.

(** ** Sums of slices *)

Abbreviation zeros n := (replicate n 0%N).

Lemma bxor_length n a b : length a = n → length b = n → length (bxor a b) = n.
Proof. intros Ha Hb. unfold bxor. rewrite length_zip_with. lia. Qed.

Lemma bxor_comm a b : bxor a b = bxor b a.
Proof.
  unfold bxor. revert b. induction a as [|x a IH]; intros [|y b]; cbn; [done..|]. by rewrite IH, N.lxor_comm.
Qed.

Lemma bxor_assoc a b c : bxor (bxor a b) c = bxor a (bxor b c).
Proof.
  unfold bxor. revert b c. induction a as [|x a IH]; intros [|y b] [|z c]; cbn; [done..|]. by rewrite IH, N.lxor_assoc.
Qed.

Lemma bxor_zeros n a : length a = n → bxor (zeros n) a = a.
Proof. intros <-. unfold bxor. induction a as [|x a IH]; cbn; [done|]. by rewrite IH, N.lxor_0_l. Qed.

Lemma bxor_zeros_r n a : length a = n → bxor a (zeros n) = a.
Proof. rewrite bxor_comm. apply bxor_zeros. Qed.

Lemma bxor_self n a : length a = n → bxor a a = zeros n.
Proof. intros <-. unfold bxor. induction a as [|x a IH]; cbn; [done|]. by rewrite IH, N.lxor_nilpotent. Qed.

(** The sum of the values of a row. *)
Definition xsum (n : nat) (val : nat → Bytes) (row : list nat) : Bytes :=
  foldr (λ j acc, bxor (val j) acc) (zeros n) row.

Arguments xsum : simpl never.

Lemma xsum_cons n val j row : xsum n val (j :: row) = bxor (val j) (xsum n val row).
Proof. done. Qed.

Section sums.
Context (n : nat) (val : nat → Bytes).

Lemma xsum_length row : (∀ j, j ∈ row → length (val j) = n) → length (xsum n val row) = n.
Proof.
  induction row as [|j row IH]; intros Hv; [apply length_replicate|].
  rewrite xsum_cons. apply bxor_length; [apply Hv; left|]. apply IH. intros i Hi. apply Hv. by right.
Qed.

Lemma xsum_app row row' :
  (∀ j, j ∈ row' → length (val j) = n) → xsum n val (row ++ row') = bxor (xsum n val row) (xsum n val row').
Proof.
  intros Hv. induction row as [|j row IH].
  - symmetry. apply bxor_zeros. by apply xsum_length.
  - cbn [app]. by rewrite !xsum_cons, IH, bxor_assoc.
Qed.

Lemma xsum_Permutation row row' : row ≡ₚ row' → xsum n val row = xsum n val row'.
Proof.
  induction 1 as [|j l l' _ IH|i j l|l1 l2 l3 _ IH1 _ IH2]; rewrite ?xsum_cons; [done|by rewrite IH| |congruence].
  by rewrite <- !bxor_assoc, (bxor_comm (val j)).
Qed.

(** The sum of a combination of rows. *)
Lemma xsum_xor x y z :
  (∀ j, j ∈ x → length (val j) = n) → (∀ j, j ∈ y → length (val j) = n) →
  NoDup x → NoDup y → NoDup z → xor_row x y z →
  xsum n val z = bxor (xsum n val x) (xsum n val y).
Proof.
  intros Hx Hy Ndx Ndy Ndz Hrow.
  set (c := filter (λ j, j ∈ y) x). set (a := filter (λ j, j ∉ y) x). set (b := filter (λ j, j ∉ x) y).
  assert (x ≡ₚ c ++ a) as Ex by (symmetry; apply filter_app_complement).
  assert (y ≡ₚ c ++ b) as Ey.
  { rewrite <- (filter_app_complement (λ j, j ∈ x) y) at 1. apply Permutation_app; [|done].
    apply NoDup_Permutation; [by apply NoDup_filter..|].
    intros j. unfold c. rewrite !list_elem_of_filter. tauto. }
  assert (z ≡ₚ a ++ b) as Ez.
  { apply NoDup_Permutation; [done| |].
    - apply NoDup_app. split_and!; [by apply NoDup_filter| |by apply NoDup_filter].
      intros j [? _]%list_elem_of_filter [_ ?]%list_elem_of_filter. done.
    - intros j. rewrite (Hrow j), elem_of_app. unfold a, b. rewrite !list_elem_of_filter. tauto. }
  assert (∀ j, j ∈ c → length (val j) = n) as Hc by (intros j [_ ?]%list_elem_of_filter; auto).
  assert (∀ j, j ∈ a → length (val j) = n) as Ha by (intros j [_ ?]%list_elem_of_filter; auto).
  assert (∀ j, j ∈ b → length (val j) = n) as Hb by (intros j [_ ?]%list_elem_of_filter; auto).
  rewrite (xsum_Permutation _ _ Ex), (xsum_Permutation _ _ Ey), (xsum_Permutation _ _ Ez), !xsum_app by done.
  rewrite (bxor_comm (xsum n val c) (xsum n val a)), bxor_assoc, <- (bxor_assoc (xsum n val c)).
  rewrite (bxor_self n (xsum n val c)), bxor_zeros by (by apply xsum_length). done.
Qed.
End sums.

Lemma xsum_ext n val val' row : (∀ j, j ∈ row → val j = val' j) → xsum n val row = xsum n val' row.
Proof.
  induction row as [|j row IH]; intros Hv; [done|]. rewrite !xsum_cons, Hv by left. f_equal. apply IH.
  intros i Hi. apply Hv. by right.
Qed.

(** ** The loops over slices *)

Definition bsum (n : nat) (l : list Bytes) : Bytes := foldr bxor (zeros n) l.

Arguments bsum : simpl never.

Lemma bsum_cons n a l : bsum n (a :: l) = bxor a (bsum n l).
Proof. done. Qed.

Lemma xor_eq_slices_spec n dst l :
  length dst = n → Forall (λ a, length a = n) l → 1 ≤ length l ≤ MAX_SOURCES →
  xor_eq_slices dst l = Ret (bxor dst (bsum n l)).
Proof.
  intros Hd Hl Hlen. unfold MAX_SOURCES in Hlen.
  destruct l as [|a1 [|a2 [|a3 [|a4 [|a5 [|a6 [|a7 l]]]]]]]; cbn in Hlen; try lia;
    rewrite !Forall_cons in Hl; destruct_and! Hl; cbn;
    unfold xor_eq1, xor_eq2, xor_eq3, xor_eq4, xor_eq5, xor_eq6;
    repeat (rewrite assert_true by lia; cbn [mbind run_bind]);
    rewrite ?bsum_cons, ?bxor_assoc; unfold bsum; cbn; rewrite bxor_zeros_r by lia; done.
Qed.

Lemma chunks_spec {A} n (l : list A) :
  0 < n → concat (chunks n l) = l ∧ Forall (λ c, 1 ≤ length c ≤ n) (chunks n l).
Proof.
  intros Hn. unfold chunks. assert (∀ fuel (l : list A), length l ≤ fuel →
    concat (chunks_fuel fuel n l) = l ∧ Forall (λ c, 1 ≤ length c ≤ n) (chunks_fuel fuel n l)) as Hgo; [|by apply Hgo].
  clear l. induction fuel as [|fuel IH]; intros [|x l] Hl; try done; [cbn in Hl; lia|].
  cbn [chunks_fuel concat]. destruct (IH (drop n (x :: l))) as [Hc Hf]; [rewrite length_drop; cbn in *; lia|].
  split; [rewrite Hc; apply take_drop|]. constructor; [|done]. rewrite length_take. cbn. lia.
Qed.

Lemma bsum_length n l : Forall (λ a, length a = n) l → length (bsum n l) = n.
Proof. induction 1 as [|a l Ha _ IH]; [apply length_replicate|by apply bxor_length]. Qed.

Lemma bsum_app n l l' : Forall (λ a, length a = n) l' → bsum n (l ++ l') = bxor (bsum n l) (bsum n l').
Proof.
  intros Hl. induction l as [|a l IH]; [symmetry; by apply bxor_zeros, bsum_length|].
  cbn [app]. by rewrite !bsum_cons, IH, bxor_assoc.
Qed.

Lemma bsum_xsum n val row : bsum n (val <$> row) = xsum n val row.
Proof. induction row as [|j row IH]; [done|]. rewrite xsum_cons, <- IH. done. Qed.

Lemma xor_all_spec n dst l :
  length dst = n → Forall (λ a, length a = n) l → xor_all dst l = Ret (bxor dst (bsum n l)).
Proof.
  intros Hd Hl. unfold xor_all. destruct (chunks_spec MAX_SOURCES l) as [Hc Hf]; [unfold MAX_SOURCES; lia|].
  rewrite <- Hc in Hl. rewrite <- Hc at 2. clear Hc. revert dst Hd. induction Hf as [|c cs Hfc Hfcs IH]; intros dst Hd; cbn.
  - change (bsum n []) with (zeros n). by rewrite bxor_zeros_r.
  - cbn in Hl. apply Forall_app in Hl as [Hlc Hlcs]. rewrite (xor_eq_slices_spec n) by done. dsimpl.
    rewrite IH by (done || by apply bxor_length, bsum_length). by rewrite bsum_app, bxor_assoc.
Qed.

Lemma map_run_spec {A C} (f : A → run C) (g : A → C) l :
  (∀ x, x ∈ l → f x = Ret (g x)) → map_run f l = Ret (g <$> l).
Proof.
  induction l as [|x l IH]; intros Hf; cbn; [done|]. rewrite Hf by left. dsimpl. rewrite IH; [done|].
  intros y Hy. apply Hf. by right.
Qed.

(** Combining the values of a row into a slice. *)
Lemma xor_row_values n dst f val row :
  length dst = n → (∀ j, j ∈ row → f j = Ret (val j) ∧ length (val j) = n) →
  (sources ← map_run f row; xor_all dst sources) = Ret (bxor dst (xsum n val row)).
Proof.
  intros Hd Hf. rewrite (map_run_spec f val) by (intros j Hj; by apply Hf). dsimpl.
  rewrite (xor_all_spec n), bsum_xsum; [done|done|]. apply Forall_fmap, Forall_forall. intros j Hj. by apply Hf.
Qed.

(** ** The source symbols *)

Section encoder.
Context (data : Bytes) (len : nat) (Hlen : 0 < len).
Abbreviation nf := (length data / len).

(** The number of source symbols, and the padded data. *)
Definition source_count : nat := (shadowed_source_symbols data len).2.

Definition padded : Bytes := data ++ zeros (source_count * len - length data).

Definition source_symbol (j : nat) : Bytes := take len (drop (j * len) padded).

Lemma source_count_spec :
  source_count = nf + length (shadowed_source_symbols data len).1 ∧ 1 ≤ source_count ∧
  length data ≤ source_count * len.
Proof.
  pose proof (Nat.div_mod_eq (length data) len) as Hdm. pose proof (Nat.mod_upper_bound (length data) len) as Hub.
  unfold source_count, shadowed_source_symbols, SOURCE_SYMBOLS_MIN. repeat case_decide; cbn [fst snd length app];
    rewrite ?length_replicate; split_and!; nia.
Qed.

Lemma length_padded : length padded = source_count * len.
Proof. unfold padded. rewrite length_app, length_replicate. pose proof source_count_spec. lia. Qed.

Lemma length_source_symbol j : j < source_count → length (source_symbol j) = len.
Proof. intros Hj. unfold source_symbol. rewrite length_take, length_drop, length_padded. nia. Qed.

Lemma shadowed_lookup i s :
  (shadowed_source_symbols data len).1 !! i = Some s → s = source_symbol (nf + i).
Proof.
  pose proof (Nat.div_mod_eq (length data) len) as Hdm. pose proof (Nat.mod_upper_bound (length data) len) as Hub.
  unfold source_symbol, padded, source_count, shadowed_source_symbols, SOURCE_SYMBOLS_MIN.
  destruct (decide (length data `mod` len ≠ 0)) as [Hr|Hr].
  - rewrite decide_False by lia. cbn [fst snd]. destruct i as [|i]; [|done]. intros [= <-].
    rewrite Nat.add_0_r, drop_app_le by nia. replace ((nf + 1) * len - length data) with (len - length data `mod` len) by nia.
    rewrite take_ge; [done|]. rewrite length_app, length_drop, length_replicate. nia.
  - case_decide as H0; cbn [fst snd app]; [|done].
    assert (length data = 0) as Hz by nia. apply length_zero_iff_nil in Hz. subst data.
    cbn [length app]. rewrite Nat.Div0.div_0_l. destruct i as [|i]; [|done]. intros [= <-]. cbn.
    rewrite drop_0, take_ge; rewrite ?length_replicate; [f_equal; lia|lia].
Qed.

(** The symbols below the number of source symbols, whatever follows the shadowed
    ones. *)
Lemma symbol_at_source derived j :
  j < source_count → symbol_at data len nf ((shadowed_source_symbols data len).1 ++ derived) j = Ret (source_symbol j).
Proof.
  intros Hj. destruct source_count_spec as (Hc & _ & _).
  pose proof (Nat.div_mod_eq (length data) len) as Hdm. unfold symbol_at. case_decide as Hf.
  - unfold subslice. rewrite assert_true by nia. dsimpl. f_equal. unfold source_symbol, padded.
    replace ((j + 1) * len - j * len) with len by lia. rewrite drop_app_le by nia. rewrite take_app_le; [done|].
    rewrite length_drop. nia.
  - destruct (lookup_lt_is_Some_2 (shadowed_source_symbols data len).1 (j - nf)) as [s Hs]; [lia|].
    unfold vget. rewrite lookup_app_l by (by eapply lookup_lt_Some). rewrite Hs. cbn. f_equal.
    rewrite (shadowed_lookup _ _ Hs). f_equal. lia.
Qed.

(** ** The redundant symbols *)

Context (p : CodeParameters) (Hp : params_ok p) (HK : num_source_symbols p = source_count).
Abbreviation K := (num_source_symbols p).
Abbreviation S' := (num_ldpc_symbols p).
Abbreviation H' := (num_half_symbols p).
Abbreviation L := (num_intermediate_symbols p).

Definition ldpc_calls : list (nat * nat) := element_calls K (ldpc_column p).

Definition half_calls : list (nat * nat) := element_calls (K + S') (half_column p).

(** The elements of the half rows left and right of the source symbols. *)
Definition half_left (calls : list (nat * nat)) : list (nat * nat) :=
  (λ c, (S' + c.1, c.2)) <$> filter (λ c, c.2 < K) calls.

Definition half_right (calls : list (nat * nat)) : list (nat * nat) :=
  (λ c, (c.1, c.2 - K)) <$> filter (λ c, ¬ c.2 < K) calls.

Definition left_row (b : nat) : list nat := row_of_calls (ldpc_calls ++ half_left half_calls) b.

Definition right_row (i : nat) : list nat := row_of_calls (half_right half_calls) i.

Lemma as_u16_small j : j < L → as_u16 j = j.
Proof.
  intros Hj. pose proof (L_u16 p Hp) as HL. unfold as_u16. rewrite N.mod_small by (unfold u16_MAX in HL; lia). lia.
Qed.

Lemma push_row_spec calls b j n :
  b < n → as_u16 j = j →
  push_row b j (row_of_calls calls <$> seq 0 n) = Ret (row_of_calls (calls ++ [(b, j)]) <$> seq 0 n).
Proof.
  intros Hb Hj. unfold push_row, vget. rewrite fmap_seq_lookup by done. dsimpl.
  rewrite vset_Ret by by rewrite length_fmap, length_seq. f_equal.
  rewrite <- (insert_fmap_seq (row_of_calls calls) (row_of_calls (calls ++ [(b, j)])) n b Hb).
  - by rewrite row_of_calls_app, decide_True, Hj.
  - intros i Hi. by rewrite row_of_calls_app, decide_False by (cbn; congruence).
Qed.

Lemma replicate_rows n : replicate n ([] : list nat) = row_of_calls [] <$> seq 0 n.
Proof.
  apply list_eq. intros i. destruct (decide (i < n)).
  - by rewrite fmap_seq_lookup, lookup_replicate_2.
  - rewrite !lookup_ge_None_2; [done|rewrite length_fmap, length_seq; lia|rewrite length_replicate; lia].
Qed.

Lemma push_ldpc :
  g_ldpc p push_row (replicate (S' + H') []) = Ret (row_of_calls ldpc_calls <$> seq 0 (S' + H')).
Proof.
  rewrite g_ldpc_calls, replicate_rows by done. fold ldpc_calls.
  destruct (for_each_spec (λ done g, g = row_of_calls done <$> seq 0 (S' + H')) ldpc_calls
    (λ '(i, j), push_row i j) (row_of_calls [] <$> seq 0 (S' + H'))) as (g & -> & ->); [done| |done].
  intros done [b j] todo g Hl ->. assert ((b, j) ∈ ldpc_calls) as [Hj Hb]%elem_of_element_calls by (rewrite Hl; set_solver).
  apply (ldpc_column_range p Hp) in Hb. eexists. split; [|done]. apply push_row_spec; [lia|].
  apply as_u16_small. pose proof (K_le_L p Hp). lia.
Qed.

Lemma push_half_calls :
  g_half p (push_half p) (row_of_calls ldpc_calls <$> seq 0 (S' + H'), replicate H' []) =
  Ret (left_row <$> seq 0 (S' + H'), right_row <$> seq 0 H').
Proof.
  rewrite g_half_calls, replicate_rows by done. fold half_calls.
  destruct (for_each_spec (λ done g, g = (row_of_calls (ldpc_calls ++ half_left done) <$> seq 0 (S' + H'),
      row_of_calls (half_right done) <$> seq 0 H')) half_calls
    (λ '(i, j), push_half p i j) (row_of_calls ldpc_calls <$> seq 0 (S' + H'), row_of_calls [] <$> seq 0 H'))
    as (g & -> & ->); [by rewrite app_nil_r| |done].
  intros done [i j] todo g Hl ->. assert ((i, j) ∈ half_calls) as [Hj Hi]%elem_of_element_calls by (rewrite Hl; set_solver).
  apply half_column_range in Hi. eexists. split; [|done]. unfold push_half.
  assert (j < L) as HjL by (rewrite (pk_total _ Hp); lia).
  unfold half_left, half_right. rewrite !filter_app, !fmap_app, !filter_cons. cbn [snd fst].
  destruct (decide (j < K)) as [Hlt|Hge].
  - rewrite push_row_spec by (lia || by apply as_u16_small). dsimpl.
    rewrite (decide_False (P := ¬ j < K)) by tauto. by rewrite app_nil_r, app_assoc.
  - rewrite push_row_spec by (lia || (apply as_u16_small; lia)). dsimpl.
    rewrite (decide_True (P := ¬ j < K)) by done. by rewrite app_nil_r.
Qed.

Definition left_sum (b : nat) : Bytes := xsum len (source_symbol) (left_row b).

Definition half_value (i : nat) : Bytes := bxor (left_sum (S' + i)) (xsum len left_sum (right_row i)).

(** The value of every intermediate symbol. *)
Definition value (j : nat) : Bytes :=
  if decide (j < K) then source_symbol j
  else if decide (j < K + S') then left_sum (j - K) else half_value (j - K - S').

Lemma left_row_range b j : j ∈ left_row b → j < K.
Proof.
  unfold left_row. rewrite elem_of_row_of_calls, elem_of_app. intros [[Hj _]%elem_of_element_calls|Hin]; [done|].
  apply list_elem_of_fmap in Hin as ([i j'] & [= -> ->] & [? _]%list_elem_of_filter). done.
Qed.

Lemma right_row_range i j : j ∈ right_row i → j < S'.
Proof.
  unfold right_row. rewrite elem_of_row_of_calls. intros Hin.
  apply list_elem_of_fmap in Hin as ([i' j'] & [= -> ->] & [Hge Hin]%list_elem_of_filter).
  apply elem_of_element_calls in Hin. cbn in *. lia.
Qed.

Lemma left_sum_length b : length (left_sum b) = len.
Proof. apply xsum_length. intros j Hj%left_row_range. apply length_source_symbol. lia. Qed.

Lemma value_length j : length (value j) = len.
Proof.
  unfold value. case_decide; [apply length_source_symbol; lia|]. case_decide; [apply left_sum_length|].
  apply bxor_length; [apply left_sum_length|]. apply xsum_length. intros i _. apply left_sum_length.
Qed.

Lemma make_redundant_spec b :
  make_redundant_symbol data len nf (shadowed_source_symbols data len).1 (left_row b) = Ret (left_sum b).
Proof.
  unfold make_redundant_symbol. rewrite (xor_row_values len _ _ source_symbol).
  - rewrite bxor_zeros; [done|apply left_sum_length].
  - apply length_replicate.
  - intros j Hj%left_row_range. split; [|apply length_source_symbol; lia].
    pose proof (symbol_at_source [] j) as Hs. rewrite app_nil_r in Hs. apply Hs. lia.
Qed.

Lemma half_loop ldpc :
  ldpc = left_sum <$> seq 0 S' →
  for_each (seq 0 H') (λ i half_symbols,
    row ← vget (right_row <$> seq 0 H') i;
    sources ← map_run (vget ldpc) row;
    symbol ← vget half_symbols i;
    symbol ← xor_all symbol sources;
    vset half_symbols i symbol) ((λ i, left_sum (S' + i)) <$> seq 0 H') = Ret (half_value <$> seq 0 H').
Proof.
  intros ->.
  set (st := λ k i, if decide (i < k) then half_value i else left_sum (S' + i)).
  set (body := λ (i : nat) (half_symbols : list Bytes), _).
  destruct (for_seq_spec (λ k h, h = st k <$> seq 0 H') 0 H' body ((λ i, left_sum (S' + i)) <$> seq 0 H'))
    as (h & -> & ->).
  - apply list_fmap_ext. intros _ i _. unfold st. by rewrite decide_False by lia.
  - intros i h Hi ->. eexists. split; [|done]. subst body. cbn beta. unfold vget. rewrite !fmap_seq_lookup by lia. dsimpl.
    assert (map_run (λ i0, expect ((left_sum <$> seq 0 S') !! i0)) (right_row i) = Ret (left_sum <$> right_row i)) as ->.
    { apply map_run_spec. intros j Hj%right_row_range. by rewrite fmap_seq_lookup. }
    dsimpl. rewrite (xor_all_spec len), bsum_xsum.
    + dsimpl. rewrite vset_Ret by (rewrite length_fmap, length_seq; lia). f_equal.
      rewrite <- (insert_fmap_seq (st i) (st (S i)) H' i); [|lia|].
      * unfold st. by rewrite decide_False, decide_True by lia.
      * intros k Hk. unfold st. destruct (decide (k < i)); [by rewrite decide_True by lia|by rewrite decide_False by lia].
    + unfold st. rewrite decide_False by lia. apply left_sum_length.
    + apply Forall_fmap, Forall_forall. intros j _. apply left_sum_length.
  - f_equal. apply list_fmap_ext. intros k i Hk. apply lookup_seq in Hk as [-> Hk]. unfold st. by rewrite decide_True by lia.
Qed.

(** The encoder exists and its symbols have the values above. *)
Lemma Encoder_new_spec :
  CodeParameters_new source_count = Ret (Ok p) →
  ∃ e, Encoder_new data len = Ret (Ok e) ∧ e_params e = p ∧ symbol_len e = len ∧
    ∀ j, j < L → buffer e j = Ret (value j).
Proof.
  intros Hnew. unfold Encoder_new. rewrite decide_False by lia.
  destruct (shadowed_source_symbols data len) as [shadowed k] eqn:Hsh.
  assert (shadowed = (shadowed_source_symbols data len).1) as Hs1 by by rewrite Hsh.
  assert (k = source_count) as Hk by (unfold source_count; by rewrite Hsh).
  pose proof (pk_source _ Hp) as Hrange. rewrite decide_True by (unfold SOURCE_SYMBOLS_MIN in *; lia).
  rewrite Hk, Hnew. cbn [run_try]. dsimpl. rewrite push_ldpc. dsimpl. rewrite push_half_calls. dsimpl.
  assert (map_run (make_redundant_symbol data len nf shadowed) (left_row <$> seq 0 (S' + H')) =
    Ret (left_sum <$> seq 0 (S' + H'))) as ->.
  { rewrite Hs1. rewrite (map_run_spec _ (λ r, xsum len source_symbol r)); [by rewrite <- list_fmap_compose|].
    intros r Hr. apply list_elem_of_fmap in Hr as (b & -> & _). apply make_redundant_spec. }
  dsimpl. rewrite assert_true by (rewrite length_fmap, length_seq; lia). dsimpl.
  rewrite seq_app, fmap_app, take_app_length', drop_app_length' by (by rewrite length_fmap, length_seq).
  replace (left_sum <$> seq (0 + S') H') with ((λ i, left_sum (S' + i)) <$> seq 0 H').
  2: { replace (0 + S') with (S' + 0) by lia. by rewrite <- (fmap_add_seq S' 0 H'), <- list_fmap_compose. }
  rewrite half_loop by done. dsimpl. eexists. split; [done|]. split_and!; [done..|].
  intros j Hj. unfold buffer. cbn. destruct (decide (j < K)) as [HjK|HjK].
  - rewrite Hs1, symbol_at_source by lia. f_equal. unfold value. by rewrite decide_True.
  - destruct source_count_spec as (Hc & _ & _). rewrite <- Hs1 in Hc. unfold symbol_at. rewrite decide_False by lia.
    unfold vget, value. rewrite lookup_app_r by lia. rewrite decide_False by done.
    replace (j - nf - length shadowed) with (j - K) by lia. case_decide as HjS.
    + rewrite lookup_app_l by (rewrite length_fmap, length_seq; lia). by rewrite fmap_seq_lookup by lia.
    + rewrite lookup_app_r by (rewrite length_fmap, length_seq; lia). rewrite length_fmap, length_seq.
      rewrite (pk_total _ Hp) in Hj. by rewrite fmap_seq_lookup by lia.
Qed.

(** ** The constraints *)

Lemma row_of_calls_NoDup calls b : StronglySorted staircase calls → NoDup (row_of_calls calls b).
Proof. intros Hs. by apply ordered_NoDup, staircase_row. Qed.

Lemma half_calls_staircase : StronglySorted staircase half_calls.
Proof. apply element_calls_staircase. intros j _. by apply half_column_ordered. Qed.

Lemma staircase_map (f : nat * nat → nat * nat) (P : nat * nat → Prop) `{!∀ c, Decision (P c)} calls :
  StronglySorted staircase calls →
  (∀ c c', P c → P c' → staircase c c' → staircase (f c) (f c')) → StronglySorted staircase (f <$> filter P calls).
Proof.
  intros Hs Hf. induction Hs as [|c l Hl IH Hc]; [constructor|]. rewrite filter_cons. case_decide as Hpc; [|done].
  cbn. constructor; [done|]. apply Forall_fmap, Forall_forall. intros c' [Hpc' Hin]%list_elem_of_filter.
  rewrite Forall_forall in Hc. by apply Hf; [..|apply Hc].
Qed.

Lemma elem_of_left_row b j :
  j ∈ left_row b ↔ (j < K ∧ b ∈ ldpc_column p j) ∨ (S' ≤ b ∧ j < K ∧ b - S' ∈ half_column p j).
Proof.
  unfold left_row. rewrite elem_of_row_of_calls, elem_of_app. unfold ldpc_calls. rewrite elem_of_element_calls.
  unfold half_left. rewrite list_elem_of_fmap. split.
  - intros [?|([i j'] & [= -> ->] & [Hlt [_ Hin]%elem_of_element_calls]%list_elem_of_filter)]; [by left|]. right.
    cbn in *. replace (S' + i - S') with i by lia. split_and!; [lia|done..].
  - intros [?|(Hb & Hj & Hin)]; [by left|]. right. exists (b - S', j). cbn. split; [f_equal; lia|].
    apply list_elem_of_filter. split; [done|]. apply elem_of_element_calls. split; [lia|done].
Qed.

Lemma elem_of_right_row i j : j ∈ right_row i ↔ j < S' ∧ i ∈ half_column p (K + j).
Proof.
  unfold right_row, half_right. rewrite elem_of_row_of_calls, list_elem_of_fmap. split.
  - intros ([i' j'] & [= -> ->] & [Hge [Hlt Hin]%elem_of_element_calls]%list_elem_of_filter). cbn in *.
    replace (K + (j' - K)) with j' by lia. split; [lia|done].
  - intros [Hj Hin]. exists (i, K + j). cbn. split; [f_equal; lia|]. apply list_elem_of_filter. cbn. split; [lia|].
    apply elem_of_element_calls. split; [lia|done].
Qed.

Lemma left_row_NoDup b : NoDup (left_row b).
Proof.
  apply row_of_calls_NoDup, StronglySorted_app. split_and!.
  - intros [b1 j1] [b2 j2] [Hj Hb]%elem_of_element_calls Hin. apply (ldpc_column_range p Hp) in Hb.
    apply list_elem_of_fmap in Hin as ([i j'] & [= -> ->] & _). split; cbn; lia.
  - apply element_calls_staircase. intros j _. by apply ldpc_column_ordered.
  - apply staircase_map; [apply half_calls_staircase|]. intros [b1 j1] [b2 j2] _ _ [Hs1 Hs2]. split; cbn in *; lia.
Qed.

Lemma right_row_NoDup i : NoDup (right_row i).
Proof.
  apply row_of_calls_NoDup, staircase_map; [apply half_calls_staircase|].
  intros [b1 j1] [b2 j2] H1 H2 [Hs1 Hs2]. split; cbn in *; lia.
Qed.

Lemma constraint_row_NoDup b : NoDup (constraint_row p b).
Proof. by apply row_of_calls_NoDup, precode_staircase. Qed.

Lemma ldpc_constraint b : b < S' → constraint_row p b ≡ₚ left_row b ++ [K + b].
Proof.
  intros Hb. apply NoDup_Permutation; [apply constraint_row_NoDup| |].
  - apply NoDup_app. split_and!; [apply left_row_NoDup| |apply NoDup_singleton].
    intros j Hj%left_row_range Hjb%list_elem_of_singleton. lia.
  - intros j. unfold constraint_row. rewrite elem_of_row_of_calls, elem_of_precode, elem_of_app, elem_of_left_row,
      list_elem_of_singleton. split; [|intros [[?|(? & _)]| ->]; [tauto|lia|right; left; lia]].
    intros [?|[?|[(? & _)|?]]]; [tauto|right; lia|lia|lia].
Qed.

Lemma half_constraint i :
  i < H' → constraint_row p (S' + i) ≡ₚ left_row (S' + i) ++ (Nat.add K <$> right_row i) ++ [K + S' + i].
Proof.
  intros Hi. apply NoDup_Permutation; [apply constraint_row_NoDup| |].
  - apply NoDup_app. split_and!; [apply left_row_NoDup| |].
    + intros j Hj%left_row_range [Hin|Hin%list_elem_of_singleton]%elem_of_app; [|lia].
      apply list_elem_of_fmap in Hin as (j' & -> & _). lia.
    + apply NoDup_app. split_and!; [|intros j Hin Hj%list_elem_of_singleton|apply NoDup_singleton].
      * apply NoDup_fmap_2; [intros ?? ?; lia|apply right_row_NoDup].
      * apply list_elem_of_fmap in Hin as (j' & -> & Hj'%right_row_range). lia.
  - intros j. unfold constraint_row. rewrite elem_of_row_of_calls, elem_of_precode, !elem_of_app, elem_of_left_row,
      list_elem_of_fmap, list_elem_of_singleton. replace (S' + i - S') with i by lia.
    setoid_rewrite elem_of_right_row. split.
    + intros [[? Hin%(ldpc_column_range p Hp)]|[?|[(_ & Hj & Hin)|[_ ->]]]]; [lia|lia| |right; right; lia].
      destruct (decide (j < K)); [left; right; split_and!; [lia|done..]|]. right. left. exists (j - K).
      replace (K + (j - K)) with j by lia. split_and!; [done|lia|done].
    + intros [[?|(? & ? & ?)]|[(j' & -> & ? & ?)| ->]]; [tauto| | |do 3 right; lia]; do 2 right; left; split_and!; done || lia.
Qed.

Lemma xsum_fmap n val f row : xsum n val (f <$> row) = xsum n (λ j, val (f j)) row.
Proof. induction row as [|j row IH]; [done|]. cbn [fmap list_fmap]. rewrite !xsum_cons. f_equal. apply IH. Qed.

(** Every constraint row sums to zero. *)
Lemma constraints_hold b : b < S' + H' → xsum len value (constraint_row p b) = zeros len.
Proof.
  intros Hb. assert (∀ c, xsum len value (left_row c) = left_sum c) as Hleft.
  { intros c. apply xsum_ext. intros j Hj%left_row_range. unfold value. by rewrite decide_True. }
  destruct (decide (b < S')) as [Hlt|Hge].
  - rewrite (xsum_Permutation _ _ _ _ (ldpc_constraint b Hlt)), xsum_app, Hleft by (intros; apply value_length).
    rewrite xsum_cons. unfold value at 1. rewrite decide_False, decide_True by lia. replace (K + b - K) with b by lia.
    change (xsum len value []) with (zeros len). rewrite bxor_zeros_r, (bxor_self len) by apply left_sum_length. done.
  - assert (xsum len value (Nat.add K <$> right_row (b - S')) = xsum len left_sum (right_row (b - S'))) as Hright.
    { rewrite xsum_fmap. apply xsum_ext. intros j Hj%right_row_range. unfold value.
      rewrite decide_False, decide_True by lia. f_equal. lia. }
    replace b with (S' + (b - S')) at 1 by lia.
    rewrite (xsum_Permutation _ _ _ _ (half_constraint (b - S') ltac:(lia))), !xsum_app, Hleft, Hright by (intros; apply value_length).
    rewrite xsum_cons. change (xsum len value []) with (zeros len). rewrite bxor_zeros_r by apply value_length.
    unfold value. rewrite !decide_False by lia. replace (K + S' + (b - S') - K - S') with (b - S') by lia.
    unfold half_value. rewrite <- bxor_assoc. rewrite (bxor_self len); [done|]. apply bxor_length; [apply left_sum_length|].
    apply xsum_length. intros j _. apply left_sum_length.
Qed.

(** The symbols a redundant symbol is the sum of. *)
Definition constraint_prefix (b : nat) : list nat :=
  if decide (b < S') then left_row b else left_row b ++ (Nat.add K <$> right_row (b - S')).

Lemma constraint_split val b :
  (∀ j, length (val j) = len) → b < S' + H' →
  xsum len val (constraint_row p b) = bxor (xsum len val (constraint_prefix b)) (val (K + b)).
Proof.
  intros Hval Hb. assert (constraint_row p b ≡ₚ constraint_prefix b ++ [K + b]) as Hperm.
  { unfold constraint_prefix. case_decide as Hlt; [by apply ldpc_constraint|].
    pose proof (half_constraint (b - S') ltac:(lia)) as Hh. rewrite app_assoc in Hh.
    by replace (S' + (b - S')) with b in Hh by lia; replace (K + S' + (b - S')) with (K + b) in Hh by lia. }
  rewrite (xsum_Permutation _ _ _ _ Hperm), xsum_app, xsum_cons by (intros; apply Hval).
  change (xsum len val []) with (zeros len). by rewrite bxor_zeros_r.
Qed.

Lemma bxor_cancel n a x y : length a = n → length x = n → length y = n → bxor a x = bxor a y → x = y.
Proof.
  intros Ha Hx Hy He. rewrite <- (bxor_zeros n x), <- (bxor_zeros n y) by done.
  by rewrite <- (bxor_self n a), !bxor_assoc, He by done.
Qed.

(** The intermediate symbols are determined by the source symbols and the
    constraints. *)
Lemma value_unique val :
  (∀ j, length (val j) = len) → (∀ j, j < K → val j = source_symbol j) →
  (∀ b, b < S' + H' → xsum len val (constraint_row p b) = zeros len) → ∀ j, j < L → val j = value j.
Proof.
  intros Hval Hsrc Hcon.
  assert (∀ j, j < K → val j = value j) as HvK.
  { intros j Hj. unfold value. rewrite decide_True by done. by apply Hsrc. }
  assert (∀ b, b < S' + H' → (∀ j, j ∈ constraint_prefix b → val j = value j) → val (K + b) = value (K + b)) as Hstep.
  { intros b Hb Hpre. pose proof (Hcon b Hb) as H1. rewrite <- (constraints_hold b Hb) in H1.
    rewrite !constraint_split in H1 by (done || apply value_length). rewrite (xsum_ext _ _ _ _ Hpre) in H1.
    eapply bxor_cancel; [| | |exact H1]; [apply xsum_length; intros; apply value_length|apply Hval|apply value_length]. }
  assert (∀ b, b < S' → val (K + b) = value (K + b)) as HvS.
  { intros b Hb. apply Hstep; [lia|]. unfold constraint_prefix. rewrite decide_True by done.
    intros j Hj%left_row_range. by apply HvK. }
  intros j Hj. destruct (decide (j < K)) as [?|HjK]; [by apply HvK|]. pose proof (pk_total _ Hp) as Htot.
  replace j with (K + (j - K)) by lia. apply Hstep; [lia|]. unfold constraint_prefix. case_decide.
  - intros i Hi%left_row_range. by apply HvK.
  - intros i [Hi%left_row_range|Hi]%elem_of_app; [by apply HvK|].
    apply list_elem_of_fmap in Hi as (r & -> & Hr%right_row_range). by apply HvS.
Qed.

(** ** Encoded symbols *)

Lemma for_each_collect (l acc : list nat) :
  for_each l (λ el indices, Ret (indices ++ [el])) acc = Ret (acc ++ l).
Proof.
  revert acc. induction l as [|x l IH]; intros acc; cbn; [by rewrite app_nil_r|]. by rewrite IH, <- app_assoc.
Qed.

Lemma encode_symbol_spec e dst esi :
  e_params e = p → symbol_len e = len → (∀ j, j < L → buffer e j = Ret (value j)) →
  length dst = len → esi < MAX_TRIPLES →
  encode_symbol e dst esi = Ret (bxor dst (xsum len value (lt_row p esi))).
Proof.
  intros Hep Hel Hbuf Hdst Hesi. unfold encode_symbol. rewrite assert_true by lia. dsimpl.
  unfold lt_sequence_op. rewrite Hep. destruct (lt_symbols_spec p Hp esi Hesi) as (-> & _ & Hlt & _). dsimpl.
  rewrite for_each_collect. dsimpl. apply xor_row_values; [done|]. intros j Hj%Hlt. split; [by apply Hbuf|apply value_length].
Qed.
End encoder.
