(* ===== verification/RaptorKernel.v ===== *)
(** * Undetermined symbols

    When decoding fails with all means tried, a non-empty set of intermediate
    symbols meets every row of the tables in an even number of places. *)
From S2P Require Import Prelude RaptorSet RaptorHeap RaptorParams RaptorDecoder RaptorDecoderSpec.
From S2P Require Import RaptorSteps RaptorElimination RaptorDecoding.

(** ** Parity *)

(** The parity of the number of elements in the set [f]. *)
Definition parity (f : nat → bool) (l : list nat) : bool := foldr (λ j acc, xorb (f j) acc) false l.

Lemma parity_cons f j l : parity f (j :: l) = xorb (f j) (parity f l).
Proof. done. Qed.

Lemma parity_ext f g l : (∀ j, j ∈ l → f j = g j) → parity f l = parity g l.
Proof.
  induction l as [|j l IH]; intros Hfg; [done|]. rewrite !parity_cons, Hfg by left. f_equal. apply IH.
  intros i Hi. apply Hfg. by right.
Qed.

Lemma parity_false f l : (∀ j, j ∈ l → f j = false) → parity f l = false.
Proof.
  intros Hf. rewrite (parity_ext f (λ _, false)) by done. clear Hf. induction l as [|j l IH]; [done|]. by rewrite parity_cons.
Qed.

Lemma parity_Permutation f l l' : l ≡ₚ l' → parity f l = parity f l'.
Proof.
  induction 1 as [|j l l' _ IH|i j l|l1 l2 l3 _ IH1 _ IH2]; rewrite ?parity_cons; [done|by rewrite IH| |congruence].
  by rewrite <- !xorb_assoc, (xorb_comm (f j)).
Qed.

Lemma parity_xorb f g l : parity (λ j, xorb (f j) (g j)) l = xorb (parity f l) (parity g l).
Proof.
  induction l as [|j l IH]; [done|]. rewrite !parity_cons, IH. by destruct (f j), (g j), (parity f l), (parity g l).
Qed.

Lemma parity_filter f (P : nat → Prop) `{!∀ j, Decision (P j)} l :
  parity f (filter P l) = parity (λ j, bool_decide (P j) && f j) l.
Proof.
  induction l as [|j l IH]; [done|]. rewrite filter_cons, parity_cons. case_decide as Hj.
  - by rewrite bool_decide_eq_true_2, parity_cons, IH.
  - by rewrite bool_decide_eq_false_2, IH by done.
Qed.

(** ** Fewer equations than unknowns *)

Lemma homogeneous_solution (rs : list (nat → bool)) (J : list nat) :
  NoDup J → length rs < length J →
  ∃ u, (∃ j, j ∈ J ∧ u j = true) ∧ (∀ j, j ∉ J → u j = false) ∧
    ∀ r, r ∈ rs → parity (λ j, r j && u j) J = false.
Proof.
  remember (length rs) as n eqn:Hn. revert rs J Hn. induction n as [|n IH]; intros rs J Hn HJ Hlt.
  { destruct rs; [|done]. destruct J as [|j J]; [cbn in Hlt; lia|]. exists (λ i, bool_decide (i = j)).
    split; [exists j; split; [left|by apply bool_decide_eq_true_2]|]. split.
    - intros i Hi. apply bool_decide_eq_false_2. intros ->. apply Hi. left.
    - intros r Hr. by apply not_elem_of_nil in Hr. }
  destruct rs as [|r rs]; [done|]. injection Hn as Hn.
  destruct (decide (Exists (λ j, r j = true) J)) as [Hex|Hex].
  - apply Exists_exists in Hex as (k & Hk & Hrk). apply elem_of_Permutation in Hk as [J' HJ'].
    rewrite HJ' in HJ. apply NoDup_cons in HJ as [HkJ HJ]. rewrite HJ' in Hlt. cbn in Hlt.
    destruct (IH ((λ r' j, xorb (r' j) (r' k && r j)) <$> rs) J') as (u & (j & Hj & Huj) & Hout & Hu);
      [by rewrite length_fmap|done|lia|].
    set (c := parity (λ j, r j && u j) J'). exists (λ j, if decide (j = k) then c else u j).
    assert (∀ r', parity (λ j, r' j && (if decide (j = k) then c else u j)) J =
      xorb (r' k && c) (parity (λ j, r' j && u j) J')) as Heq.
    { intros r'. rewrite (parity_Permutation _ _ _ HJ'), parity_cons, decide_True by done. f_equal. apply parity_ext.
      intros i Hi. rewrite decide_False; [done|]. by intros ->. }
    split_and!.
    + exists j. rewrite HJ'. split; [by right|]. rewrite decide_False; [done|]. by intros ->.
    + intros i Hi. rewrite HJ', not_elem_of_cons in Hi. destruct Hi as [Hi HiJ]. rewrite decide_False by done. by apply Hout.
    + intros r' [->|Hr']%elem_of_cons; rewrite Heq; [rewrite Hrk; apply xorb_nilpotent|].
      pose proof (Hu _ (list_elem_of_fmap_2 (λ r' j, xorb (r' j) (r' k && r j)) _ _ Hr')) as Hz.
      rewrite (parity_ext _ (λ j, xorb (r' j && u j) (r' k && (r j && u j)))) in Hz
        by (intros i _; by destruct (r' i), (r' k), (r i), (u i)).
      rewrite parity_xorb in Hz. rewrite xorb_comm, <- Hz. f_equal. destruct (r' k); cbn; [done|].
      by rewrite parity_false.
  - destruct (IH rs J) as (u & Hj & Hout & Hu); [done..|lia|]. exists u. split_and!; [done..|].
    intros r' [->|Hr']%elem_of_cons; [|by apply Hu]. apply parity_false. intros j Hj'.
    destruct (r j) eqn:Hr; [|done]. exfalso. apply Hex, Exists_exists. eauto.
Qed.

(** The same with the rows as lists. *)
Lemma rows_solution (rs : list (list nat)) (J : list nat) :
  NoDup J → length rs < length J → (∀ row, row ∈ rs → NoDup row ∧ ∀ j, j ∈ row → j ∈ J) →
  ∃ u, (∃ j, j ∈ J ∧ u j = true) ∧ (∀ j, j ∉ J → u j = false) ∧ ∀ row, row ∈ rs → parity u row = false.
Proof.
  intros HJ Hlt Hrows.
  destruct (homogeneous_solution ((λ row j, bool_decide (j ∈ row)) <$> rs) J) as (u & Hj & Hout & Hu);
    [done|by rewrite length_fmap|]. exists u. split_and!; [done..|]. intros row Hrow.
  rewrite <- (Hu _ (list_elem_of_fmap_2 (λ row j, bool_decide (j ∈ row)) _ _ Hrow)), <- parity_filter.
  destruct (Hrows row Hrow) as [Hnd Hsub]. apply parity_Permutation, NoDup_Permutation; [done|by apply NoDup_filter|].
  intros j. rewrite list_elem_of_filter. split; [intros Hin; split; [done|by apply Hsub]|tauto].
Qed.

(** ** The tables when decoding has failed *)

Section kernel.
Context (p : CodeParameters) (Hp : params_ok p) (d : Decoder) (Hd : dec_ok p no_slack d).
Abbreviation L := (num_intermediate_symbols p).
Abbreviation K := (num_source_symbols p).
Abbreviation bufs := (buffer_state d).
Abbreviation syms := (intermediate_symbol_state d).

Lemma weightless_row b buf j : bufs !! b = Some buf → auw buf = 0 → j ∈ ids buf → inact syms j = true.
Proof.
  intros Hb Hw. apply weight_zero_inv. pose proof (t_weight _ _ _ _ _ (d_tables _ _ _ Hd) b buf Hb) as Hz.
  cbn in Hz. lia.
Qed.

Lemma inact_bufs_row b : b ∈ inact_bufs bufs → ∃ buf, bufs !! b = Some buf ∧ auw buf = 0.
Proof.
  intros [w Hw]%elem_of_inact_bufs. unfold class_of in Hw. destruct (bufs !! b) as [buf|]; [|done]. exists buf.
  split; [done|]. cbn in Hw. unfold class in Hw. destruct (used buf); [done|]. case_decide; [done|]. lia.
Qed.

(** A set of symbols that are not used, even on the inactivated rows, extends to
    the used symbols. *)
Lemma extend_kernel (u : nat → bool) :
  (∀ b, weight_of (buffers_active_usable d) b = None) →
  (∀ j b, syms !! j = Some (Used b) → u j = false) →
  (∀ b buf, b ∈ inact_bufs bufs → bufs !! b = Some buf → parity u (ids buf) = false) →
  ∃ v, (∀ j, u j = true → v j = true) ∧ ∀ b buf, bufs !! b = Some buf → parity v (ids buf) = false.
Proof.
  intros Hact Hused Hinact.
  set (v := λ j, match syms !! j with
                 | Some (Used b) => parity u (default [] (rows bufs !! b))
                 | _ => u j
                 end).
  assert (∀ j, inact syms j = true → v j = u j) as Hvi.
  { intros j Hj. unfold v. unfold inact in Hj. by destruct (syms !! j) as [[| |]|]. }
  exists v. split.
  { intros j Hj. unfold v. destruct (syms !! j) as [[| |b]|] eqn:Hs; try done. by rewrite (Hused j b) in Hj. }
  intros b buf Hb. destruct Hd as [_ HT HB]. destruct (used buf) eqn:Hu.
  - apply (t_used _ _ _ _ _ HT b buf Hb) in Hu as [j Hj].
    destruct (used_others _ _ _ _ _ b j buf HT (λ _, eq_refl) Hb Hj) as (Hin & _ & _ & _ & Hoth).
    pose proof (t_ids _ _ _ _ _ HT b buf Hb) as [Hord%ordered_NoDup _].
    apply elem_of_Permutation in Hin as [l Hl]. rewrite Hl in Hord. apply NoDup_cons in Hord as [Hjl _].
    assert (v j = parity u (ids buf)) as Hvj by (unfold v; by rewrite Hj, (rows_lookup _ _ _ Hb)).
    rewrite (parity_Permutation _ _ _ Hl), parity_cons, Hvj, (parity_Permutation _ _ _ Hl), parity_cons, (Hused j b) by done.
    rewrite xorb_false_l. rewrite (parity_ext v u); [apply xorb_nilpotent|]. intros i Hi. apply Hvi.
    destruct (inact syms i) eqn:Hii; [done|]. exfalso. apply Hjl. rewrite <- (Hoth i); [done| |done]. rewrite Hl. by right.
  - pose proof (Hact b) as Hw. rewrite (bk_active_weight _ _ _ _ _ HB b) in Hw. unfold class_of in Hw. rewrite Hb in Hw.
    cbn in Hw. unfold class in Hw. rewrite Hu in Hw. case_decide as Hauw; [done|]. clear Hw.
    assert (auw buf = 0) as H0 by lia. rewrite (parity_ext v u) by (intros j Hj; apply Hvi; by eapply weightless_row).
    destruct (decide (ids buf = [])) as [->|Hne]; [done|]. apply (Hinact b); [|done]. apply elem_of_inact_bufs.
    unfold class_of. rewrite Hb. cbn. unfold class. rewrite Hu, decide_False, decide_True by (done || lia). done.
Qed.

(** Without active symbols, failure leaves an inactivated one. *)
Lemma inactivated_left :
  decoding_done d = false → (∀ j s, syms !! j = Some s → is_active s = false) → ∃ j, j < L ∧ inact syms j = true.
Proof.
  intros Hnd Hno. destruct Hd as [HP HT _]. apply bool_decide_eq_false in Hnd. rewrite HP in Hnd.
  pose proof (t_paired _ _ _ _ _ HT) as Hc. cbn in Hc. rewrite Nat.add_0_r in Hc. rewrite Hc, count_full in Hnd.
  destruct (decide (Forall (λ j, paired_at bufs syms j = true) (seq 0 K))) as [Hf|Hf].
  { exfalso. apply Hnd. intros j Hj. rewrite Forall_forall in Hf. apply Hf, elem_of_seq. lia. }
  apply not_Forall_Exists in Hf; [|apply _]. apply Exists_exists in Hf as (j & Hj%elem_of_seq & Hpair).
  pose proof (K_le_L p Hp) as HKL. destruct (t_symbol p _ _ _ _ j HT) as [s Hs]; [lia|].
  pose proof (Hno j s Hs) as Hna. cbn in Hpair. unfold paired_at in Hpair. rewrite Hs in Hpair. destruct s as [l|l|b]; [done| |].
  { exists j. split; [lia|]. unfold inact. by rewrite Hs. }
  destruct (t_sets _ _ _ _ _ HT j _ Hs) as [_ Hrng]. destruct (lookup_lt_is_Some_2 bufs b) as [buf Hb]; [apply Hrng; left|].
  rewrite Hb in Hpair. apply not_true_is_false, bool_decide_eq_false in Hpair.
  destruct (used_others _ _ _ _ _ b j buf HT (λ _, eq_refl) Hb Hs) as (Hin & _ & _ & _ & Hoth).
  pose proof (t_ids _ _ _ _ _ HT b buf Hb) as [Hord%ordered_NoDup Hlt].
  apply elem_of_Permutation in Hin as [[|i l] Hl]; [by rewrite Hl in Hpair|]. exists i.
  assert (i ∈ ids buf) as Hi by (rewrite Hl; right; left). split; [by apply Hlt|].
  destruct (inact syms i) eqn:Hii; [done|]. rewrite Hl in Hord. apply NoDup_cons in Hord as [Hjl _].
  exfalso. apply Hjl. rewrite (Hoth i Hi Hii). left.
Qed.

(** A non-empty set of symbols that are not used, even on the inactivated rows. *)
Definition undetermined (u : nat → bool) : Prop :=
  (∃ j, j < L ∧ u j = true) ∧ (∀ j b, syms !! j = Some (Used b) → u j = false) ∧
  ∀ b buf, b ∈ inact_bufs bufs → bufs !! b = Some buf → parity u (ids buf) = false.

Lemma undetermined_single j s :
  syms !! j = Some s → kind s ≠ KUsed → (inact syms j = true → inact_bufs bufs = []) →
  undetermined (λ i, bool_decide (i = j)).
Proof.
  intros Hs Hk Hn. split_and!.
  - exists j. split; [|by apply bool_decide_eq_true_2]. rewrite <- (t_symbols _ _ _ _ _ (d_tables _ _ _ Hd)).
    by eapply lookup_lt_Some.
  - intros i b Hi. apply bool_decide_eq_false_2. intros ->. rewrite Hs in Hi. by injection Hi as ->.
  - intros b buf Hin Hb. apply parity_false. intros i Hii. apply bool_decide_eq_false_2. intros ->.
    destruct (inact_bufs_row b Hin) as (buf' & Hb' & Hw). rewrite Hb in Hb'. injection Hb' as <-.
    rewrite (Hn (weightless_row b buf j Hb Hw Hii)) in Hin. by apply not_elem_of_nil in Hin.
Qed.

Lemma undetermined_inactivated :
  length (inact_bufs bufs) < length (inact_syms p bufs) → ∃ u, undetermined u.
Proof.
  intros Hlt. destruct (rows_solution ((λ b, default [] (rows bufs !! b)) <$> inact_bufs bufs) (inact_syms p bufs))
    as (u & (j & Hj & Huj) & Hout & Hrows).
  - apply NoDup_filter, NoDup_seq.
  - by rewrite length_fmap.
  - intros row Hrow. apply list_elem_of_fmap in Hrow as (b & -> & Hb). destruct (inact_bufs_row b Hb) as (buf & Hbuf & _).
    rewrite (rows_lookup _ _ _ Hbuf). cbn. destruct (t_ids _ _ _ _ _ (d_tables _ _ _ Hd) b buf Hbuf) as [Hord Hrng].
    split; [by apply ordered_NoDup|]. intros j Hj. apply elem_of_inact_syms. split; [by apply Hrng|]. eauto.
  - exists u. split_and!.
    + exists j. split; [|done]. by apply elem_of_inact_syms in Hj as [? _].
    + intros i b Hs. apply Hout. intros (_ & b' & buf & Hb & Hbuf & Hi)%elem_of_inact_syms.
      destruct (inact_bufs_row b' Hb) as (buf' & Hb' & Hw). rewrite Hbuf in Hb'. injection Hb' as <-.
      pose proof (weightless_row b' buf i Hbuf Hw Hi) as Hin. unfold inact in Hin. by rewrite Hs in Hin.
    + intros b buf Hb Hbuf. apply Hrows, list_elem_of_fmap. exists b. split; [|done]. by rewrite (rows_lookup _ _ _ Hbuf).
Qed.

Lemma failure_kernel :
  exhausted p d → decoding_done d = false →
  ∃ v : nat → bool, (∃ j, j < L ∧ v j = true) ∧ ∀ b buf, bufs !! b = Some buf → parity v (ids buf) = false.
Proof.
  intros [[_ Hstuck] Hact] Hnd.
  assert (∃ u, undetermined u) as (u & (j & Hj & Huj) & Hu & Hi).
  2: { destruct (extend_kernel u Hact Hu Hi) as (v & Hvu & Hv). exists v. split; [|done]. exists j. auto. }
  destruct (decide (Exists (λ s, is_active s = true) syms)) as [Hex|Hex].
  { apply Exists_exists in Hex as (s & Hin & Hs). apply list_elem_of_lookup in Hin as [j Hj].
    destruct s as [l| |]; try done. eexists. apply (undetermined_single j _ Hj); [done|]. unfold inact. by rewrite Hj. }
  assert (∀ j s, syms !! j = Some s → is_active s = false) as Hno.
  { intros j s Hs. destruct (is_active s) eqn:Ha; [|done]. exfalso. apply Hex, Exists_exists. exists s.
    split; [by eapply list_elem_of_lookup_2|done]. }
  destruct Hstuck as [Hnil|Hlt]; [|by apply undetermined_inactivated].
  destruct (inactivated_left Hnd Hno) as (j & Hj & Hin).
  destruct (t_symbol p _ _ _ _ j (d_tables _ _ _ Hd) Hj) as [s Hs]. eexists.
  apply (undetermined_single j s Hs); [|done]. unfold inact in Hin. rewrite Hs in Hin. by destruct s.
Qed.
End kernel.
