(* ===== verification/RaptorRoundtrip.v ===== *)
(** * What the managed decoder recovers

    The buffers of the managed decoder are a system of linear equations over the
    intermediate symbols; every operation keeps its solutions.  When decoding is
    done the source data is read off the system; when it fails with all means
    tried, the system has a second solution. *)
From S2P Require Import Prelude RaptorSet RaptorHeap RaptorParams RaptorDecoder RaptorDecoderSpec.
From S2P Require Import RaptorSteps RaptorElimination RaptorDecoding RaptorEncoder RaptorCode RaptorKernel.

(** ** Systems of equations *)

Section system.
Context (p : CodeParameters) (Hp : params_ok p) (len : nat).
Abbreviation K := (num_source_symbols p).
Abbreviation S' := (num_ldpc_symbols p).
Abbreviation H' := (num_half_symbols p).
Abbreviation L := (num_intermediate_symbols p).
Implicit Types (val : nat → Bytes) (o : list (list nat * Bytes)) (rcv : list (nat * Bytes)).

(** Each row of symbols sums to its buffer. *)
Definition solves val o : Prop := Forall (λ '(row, buf), xsum len val row = buf) o.

(** The buffers of the decoder and the rows of its tables have the solutions of
    the system [o]. *)
Record same_solutions o (s : BufferSet) (rs : list (list nat)) : Prop := {
  ss_temp : num_temp_buffers s = S' + H';
  ss_rows : length rs = length o;
  ss_buffers : length (buffers s) = length o;
  ss_len : Forall (λ buf, length buf = len) (buffers s);
  ss_ordered : Forall ordered rs;
  ss_solves val : (∀ j, length (val j) = len) → solves val o ↔ solves val (zip rs (buffers s));
}.

Lemma solves_lookup val rs bufs i row buf :
  solves val (zip rs bufs) → rs !! i = Some row → bufs !! i = Some buf → xsum len val row = buf.
Proof.
  intros Hs Hr Hb. unfold solves in Hs. rewrite Forall_lookup in Hs. apply (Hs i (row, buf)).
  apply lookup_zip_Some. done.
Qed.

Lemma zip_insert {A C} (l : list A) (k : list C) i x y :
  zip (<[i := x]> l) (<[i := y]> k) = <[i := (x, y)]> (zip l k).
Proof.
  revert k i. induction l as [|a l IH]; intros [|c k] [|i]; cbn; [done..|]. by rewrite IH.
Qed.

(** Adding one equation to another keeps the solutions. *)
Lemma solves_xor val sys a b u v z bu bv :
  (∀ j, length (val j) = len) → sys !! a = Some (u, bu) → sys !! b = Some (v, bv) → a ≠ b →
  length bu = len → length bv = len → ordered u → ordered v → ordered z → xor_row u v z →
  solves val sys ↔ solves val (<[a := (z, bxor bu bv)]> sys).
Proof.
  intros Hval Ha Hb Hab Hbu Hbv Hu Hv Hz Hx.
  assert (xsum len val z = bxor (xsum len val u) (xsum len val v)) as Hsum.
  { apply xsum_xor; [intros; apply Hval..|by apply ordered_NoDup|by apply ordered_NoDup|by apply ordered_NoDup|done]. }
  unfold solves. rewrite !Forall_lookup. split; intros Hs i [row buf].
  - intros [(<- & [= <- <-] & _)|[Hne Hi]]%list_lookup_insert_Some; [|apply (Hs _ _ Hi)].
    rewrite Hsum. by rewrite (Hs _ _ Ha), (Hs _ _ Hb).
  - intros Hi. destruct (decide (i = a)) as [->|Hne].
    + rewrite Ha in Hi. injection Hi as <- <-.
      assert (xsum len val v = bv) as Hbv'. { apply (Hs b (v, bv)). rewrite list_lookup_insert_ne by done. done. }
      assert (xsum len val z = bxor bu bv) as Hz'.
      { apply (Hs a (z, bxor bu bv)). apply list_lookup_insert_eq. by eapply lookup_lt_Some. }
      rewrite Hsum, Hbv', (bxor_comm _ bv), (bxor_comm bu) in Hz'. eapply bxor_cancel; [| | |exact Hz']; [done| |done].
      apply xsum_length. intros; apply Hval.
    + apply (Hs i (row, buf)). by rewrite list_lookup_insert_ne.
Qed.

(** ** The buffers *)

Lemma buffer_index_id s b : num_temp_buffers s = S' + H' → buffer_index s (buffer_id p b) = b.
Proof. intros Hs. unfold buffer_id. case_decide; cbn; lia. Qed.

Lemma set_xor_spec o s rs a b u v z :
  same_solutions o s rs → rs !! a = Some u → rs !! b = Some v → a ≠ b → ordered z → xor_row u v z →
  ∃ s', set_xor_buffers (buffer_id p a) (buffer_id p b) s = Ret s' ∧ same_solutions o s' (<[a := z]> rs).
Proof.
  intros [Ht Hr Hb Hl Ho Hs] Ha Hv Hab Hz Hx. unfold set_xor_buffers. rewrite !buffer_index_id by done.
  destruct (lookup_lt_is_Some_2 (buffers s) a) as [bu Hbu]; [rewrite Hb, <- Hr; by eapply lookup_lt_Some|].
  destruct (lookup_lt_is_Some_2 (buffers s) b) as [bv Hbv]; [rewrite Hb, <- Hr; by eapply lookup_lt_Some|].
  rewrite Forall_lookup in Hl. pose proof (Hl _ _ Hbu) as Hlu. pose proof (Hl _ _ Hbv) as Hlv. cbn in Hlu, Hlv.
  rewrite Forall_lookup in Ho. unfold get_two_mut, vget. rewrite assert_true, Hbu, Hbv by done. dsimpl.
  unfold xor_bytes. rewrite assert_true by lia. dsimpl.
  rewrite vset_Ret by by eapply lookup_lt_Some. dsimpl.
  eexists. split; [done|]. split; cbn; [done|by rewrite length_insert..| | |].
  - apply Forall_insert; [by apply Forall_lookup|by apply bxor_length].
  - apply Forall_insert; [by apply Forall_lookup|done].
  - intros val Hval. rewrite Hs, zip_insert by done.
    apply (solves_xor val _ a b u v); try done; [by apply lookup_zip_Some..|by eapply Ho|by eapply Ho].
Qed.

(** ** The managed decoder *)

(** The equations of the code and of the symbols received. *)
Definition equations rcv : list (list nat * Bytes) :=
  ((λ b, (constraint_row p b, zeros len)) <$> seq 0 (S' + H')) ++
  ((λ '(esi, buf), (lt_row p esi, buf)) <$> rcv).

Record md_ok rcv (md : ManagedDecoder) : Prop := {
  mo_source : md_num_source_symbols md = K;
  mo_len : md_symbol_len md = len;
  mo_state : st_ok p (same_solutions (equations rcv)) no_slack (decoder md, buffer_set md);
}.

Lemma length_equations rcv : length (equations rcv) = S' + H' + length rcv.
Proof. unfold equations. by rewrite length_app, !length_fmap, length_seq. Qed.

Lemma equations_snoc rcv esi buf : equations (rcv ++ [(esi, buf)]) = equations rcv ++ [(lt_row p esi, buf)].
Proof. unfold equations. rewrite fmap_app, app_assoc. done. Qed.

Lemma md_buffers rcv md : md_ok rcv md → length (buffer_state (decoder md)) = S' + H' + length rcv.
Proof.
  intros [_ _ [_ HR]]. apply ss_rows in HR. unfold rows in HR. cbn in HR. by rewrite length_fmap, length_equations in HR.
Qed.

Lemma ManagedDecoder_new_spec :
  CodeParameters_new K = Ret (Ok p) → ∃ md, ManagedDecoder_new K len = Ret (Ok md) ∧ md_ok [] md.
Proof.
  intros Hnew. destruct (with_capacity_spec p Hp Hnew) as (d & Hd & Hok & Hrows). unfold ManagedDecoder_new.
  rewrite Hd. cbn [run_try]. dsimpl. eexists. split; [done|]. split; [done..|]. split; cbn [fst snd decoder buffer_set]; [done|].
  unfold num_temp_buffers_required, num_redundant_intermediate_symbols. rewrite (d_params _ _ _ Hok), Hrows.
  assert (length (equations []) = S' + H') as Hlen by (rewrite length_equations; cbn; lia).
  split; cbn [num_temp_buffers buffers BufferSet_new]; [done| | | | |].
  - by rewrite length_fmap, length_seq.
  - by rewrite length_replicate.
  - apply Forall_replicate, length_replicate.
  - apply Forall_fmap, Forall_forall. intros b _. by apply staircase_row, precode_staircase.
  - intros val _. unfold equations. rewrite app_nil_r. unfold solves. rewrite Forall_fmap.
    replace (zip _ _) with ((λ b, (constraint_row p b, zeros len)) <$> seq 0 (S' + H')); [by rewrite Forall_fmap|].
    apply list_eq. intros b. symmetry. destruct (decide (b < S' + H')) as [Hb|Hb].
    + rewrite fmap_seq_lookup by done. apply lookup_zip_Some. rewrite fmap_seq_lookup by done.
      by rewrite lookup_replicate_2.
    + rewrite !lookup_ge_None_2; [done|rewrite length_fmap, length_seq; lia|].
      rewrite length_zip_with, length_fmap, length_seq. lia.
Qed.

Lemma md_received_spec rcv md esi buf :
  md_ok rcv md → esi < MAX_TRIPLES → length buf = len →
  (N.of_nat (S' + H' + S (length rcv)) ≤ u16_MAX)%N →
  ∃ md', md_received_encoded_symbol md buf esi = Ret md' ∧ md_ok (rcv ++ [(esi, buf)]) md'.
Proof.
  intros Hok Hesi Hbuf Hn. pose proof (md_buffers _ _ Hok) as Hlen. destruct Hok as [Hk Hl [Hd [Ht Hr Hb Hbl Ho Hs]]].
  cbn [fst snd] in *. unfold md_received_encoded_symbol. rewrite assert_true by lia. dsimpl.
  destruct (received_encoded_symbol_spec p Hp set_xor_buffers (same_solutions (equations (rcv ++ [(esi, buf)])))
    (set_xor_spec _) esi (decoder md) (push_buffer (buffer_set md) buf)) as (st' & -> & Hst & _); [done| |done|lia|].
  { rewrite equations_snoc. split; cbn; [done|by rewrite !length_app, Hr|by rewrite !length_app, Hb| | |].
    - apply Forall_app. split; [done|]. by constructor.
    - apply Forall_app. split; [done|]. constructor; [|constructor]. by apply (lt_symbols_spec p Hp).
    - intros val Hval. rewrite zip_with_app by lia. unfold solves. rewrite !Forall_app. cbn.
      pose proof (Hs val Hval) as He. unfold solves in He. by rewrite He. }
  dsimpl. eexists. split; [done|]. split; [done..|]. cbn. by destruct st'.
Qed.

Lemma md_try_decode_spec rcv md :
  md_ok rcv md →
  ∃ md', md_try_decode md = Ret (md_decoding_done md', md') ∧ md_ok rcv md' ∧
    (md_decoding_done md' = true ∨
     S' + H' + length rcv - num_redundant_buffers (decoder md) < inactivation_symbol_threshold md ∨
     exhausted p (decoder md')).
Proof.
  intros Hok. pose proof (md_buffers _ _ Hok) as Hlen. destruct Hok as [Hk Hl Hst]. unfold md_try_decode.
  destruct (try_decode_spec p Hp set_xor_buffers _ (set_xor_spec (equations rcv)) (inactivation_symbol_threshold md)
    (decoder md, buffer_set md)) as (st' & -> & Hst' & Hend); [done| |].
  { unfold inactivation_symbol_threshold, INACTIVATION_SYMBOL_THRESHOLD_MULTIPLIER, INACTIVATION_SYMBOL_THRESHOLD_SHIFT.
    rewrite Hk, N.shiftr_div_pow2. change (2 ^ 8)%N with 256%N. pose proof (N.div_mod (384 * N.of_nat K) 256 ltac:(done)).
    pose proof (N.mod_lt (384 * N.of_nat K) 256 ltac:(done)). lia. }
  dsimpl. exists (with_state md st'). split; [done|]. split; [split; [done..|]; cbn; by destruct st'|].
  cbn [fst] in Hend. by rewrite Hlen in Hend.
Qed.

(** ** Reading the source data *)

Lemma paired_row d j :
  dec_ok p no_slack d → decoding_done d = true → j < K →
  ∃ b, intermediate_symbol_state d !! j = Some (Used b) ∧ rows (buffer_state d) !! b = Some [j].
Proof.
  intros [HP HT _] Hdone Hj. apply bool_decide_eq_true in Hdone. rewrite HP in Hdone.
  pose proof (t_paired _ _ _ _ _ HT) as Hc. rewrite Hdone in Hc. cbn in Hc. rewrite Nat.add_0_r in Hc.
  symmetry in Hc. rewrite count_full in Hc. specialize (Hc j Hj). unfold paired_at in Hc.
  destruct (intermediate_symbol_state d !! j) as [[| |b]|] eqn:Hs; try done. exists b. split; [done|].
  destruct (buffer_state d !! b) as [buf|] eqn:Hb; [|done]. apply bool_decide_eq_true in Hc.
  rewrite (rows_lookup _ _ _ Hb). f_equal.
  assert (j ∈ ids buf) as Hin by (apply (t_match _ _ _ _ _ HT b buf j _ Hb Hs); left; cbn; left).
  destruct (ids buf) as [|i [|? ?]]; try done. apply list_elem_of_singleton in Hin. by subst.
Qed.

Lemma reconstruct_step rcv md j :
  md_ok rcv md → md_decoding_done md = true → j < K →
  ∃ id buf, source_symbol_to_buffer_id (decoder md) j = Ret (Some id) ∧
    set_buffer (buffer_set md) id = Ret buf ∧ length buf = len ∧
    ∀ val, (∀ i, length (val i) = len) → solves val (equations rcv) → buf = val j.
Proof.
  intros [_ _ [Hd [Ht Hr Hb Hl _ Hs]]] Hdone Hj. cbn [fst snd] in *.
  destruct (paired_row _ _ Hd Hdone Hj) as (b & Hu & Hrow).
  destruct (lookup_lt_is_Some_2 (buffers (buffer_set md)) b) as [buf Hbuf].
  { rewrite Hb, <- Hr. by eapply lookup_lt_Some. }
  exists (buffer_id p b), buf. split_and!.
  - unfold source_symbol_to_buffer_id. rewrite (d_params _ _ _ Hd), decide_True by done. unfold vget.
    rewrite Hu. dsimpl. cbn [is_used_buffer_index]. unfold rows in Hrow. rewrite list_lookup_fmap in Hrow.
    destruct (buffer_state (decoder md) !! b) as [bf|]; [|done]. injection Hrow as Hids. dsimpl.
    rewrite Hids, decide_True by done. unfold buffer_index_to_buffer_id, num_redundant_intermediate_symbols.
    by rewrite (d_params _ _ _ Hd).
  - unfold set_buffer, vget. by rewrite buffer_index_id, Hbuf.
  - rewrite Forall_lookup in Hl. by apply (Hl b).
  - intros val Hval Hsol. rewrite Hs in Hsol by done. pose proof (solves_lookup _ _ _ _ _ _ Hsol Hrow Hbuf) as <-.
    rewrite xsum_cons. by apply bxor_zeros_r.
Qed.

(** When decoding is done the data is reconstructed, and it is that of every
    solution of the equations. *)
Lemma reconstruct_spec rcv md :
  md_ok rcv md → md_decoding_done md = true →
  ∃ out, reconstruct_source_data md = Ret (Some out) ∧
    ∀ val, (∀ i, length (val i) = len) → solves val (equations rcv) → out = concat (val <$> seq 0 K).
Proof.
  intros Hok Hdone. unfold reconstruct_source_data. rewrite (mo_source _ _ Hok).
  assert (∀ l acc, (∀ j, j ∈ l → j < K) → ∃ out, reconstruct_from md l acc = Ret (Some (acc ++ out)) ∧
    ∀ val, (∀ i, length (val i) = len) → solves val (equations rcv) → out = concat (val <$> l)) as Hall.
  { induction l as [|j l IH]; intros acc Hl; cbn.
    - exists []. by rewrite app_nil_r.
    - destruct (reconstruct_step rcv md j Hok Hdone) as (id & buf & -> & Hbuf & _ & Hval); [apply Hl; left|].
      dsimpl. rewrite Hbuf. dsimpl. destruct (IH (acc ++ buf)) as (out & -> & Hout); [intros i Hi; apply Hl; by right|].
      exists (buf ++ out). split; [by rewrite <- app_assoc|]. intros val Hv Hsol. by rewrite <- Hout, <- Hval. }
  destruct (Hall (seq 0 K) []) as (out & -> & Hout); [intros j Hj%elem_of_seq; lia|]. by exists out.
Qed.

(** ** When decoding has failed *)

(** A set of symbols as values. *)
Definition indicator (v : nat → bool) (j : nat) : Bytes := replicate len (if v j then 1%N else 0%N).

Lemma xsum_indicator v row : xsum len (indicator v) row = replicate len (if parity v row then 1%N else 0%N).
Proof.
  induction row as [|j row IH]; [done|]. rewrite xsum_cons, IH, parity_cons. unfold indicator, bxor.
  rewrite zip_with_replicate. f_equal. by destruct (v j), (parity v row).
Qed.

Lemma xsum_bxor val val' row : xsum len (λ j, bxor (val j) (val' j)) row = bxor (xsum len val row) (xsum len val' row).
Proof.
  induction row as [|j row IH]; [symmetry; apply bxor_zeros, length_replicate|].
  rewrite !xsum_cons, IH, !bxor_assoc. f_equal. rewrite <- !bxor_assoc. f_equal. apply bxor_comm.
Qed.

(** The equations then have a second solution, which differs in whole symbols. *)
Lemma second_solution rcv md val :
  md_ok rcv md → exhausted p (decoder md) → md_decoding_done md = false →
  (∀ j, length (val j) = len) → solves val (equations rcv) →
  ∃ v, (∃ j, j < L ∧ v j = true) ∧ solves (λ j, bxor (val j) (indicator v j)) (equations rcv).
Proof.
  intros [_ _ [Hd [Ht Hr Hb Hl _ Hs]]] Hex Hnd Hval Hsol. cbn [fst snd] in *.
  destruct (failure_kernel p Hp (decoder md) Hd Hex Hnd) as (v & Hv & Hker). exists v. split; [done|].
  apply Hs; [intros j; apply bxor_length; [done|apply length_replicate]|]. apply Hs in Hsol; [|done].
  unfold solves in *. rewrite Forall_lookup in Hsol |- *. intros i [row buf] Hi. specialize (Hsol i _ Hi). cbn in Hsol.
  rewrite xsum_bxor, Hsol, xsum_indicator. apply lookup_zip_Some in Hi as [Hrow Hbuf]. cbn in Hrow, Hbuf.
  unfold rows in Hrow. apply list_lookup_fmap_Some in Hrow as (bf & -> & Hbf). rewrite (Hker _ _ Hbf).
  apply bxor_zeros_r. rewrite Forall_lookup in Hl. by apply (Hl i).
Qed.
End system.

(** ** Source blocks *)

Lemma lxor_byte a b : (a < 256 → b < 256 → N.lxor a b < 256)%N.
Proof.
  intros Ha Hb. destruct (decide (N.lxor a b = 0%N)) as [->|Hne]; [done|].
  apply (N.log2_lt_pow2 _ 8); [lia|]. eapply N.le_lt_trans; [apply N.log2_lxor|].
  apply N.max_lub_lt; [destruct (decide (a = 0%N)) as [->|]|destruct (decide (b = 0%N)) as [->|]]; try done;
    apply N.log2_lt_pow2; lia.
Qed.

Lemma bxor_bytes a b :
  Forall (λ x, x < 256)%N a → Forall (λ x, x < 256)%N b → Forall (λ x, x < 256)%N (bxor a b).
Proof.
  intros Ha Hb. rewrite Forall_lookup in *. intros i x Hx. apply lookup_zip_with_Some in Hx as (y & z & -> & Hy & Hz).
  apply lxor_byte; [by apply (Ha i)|by apply (Hb i)].
Qed.

Section block.
Context (len : nat) (Hlen : 0 < len).

Lemma source_count_full data k : 1 ≤ k → length data = k * len → source_count data len = k.
Proof.
  intros Hk Hd. unfold source_count, shadowed_source_symbols, SOURCE_SYMBOLS_MIN.
  rewrite Hd, Nat.Div0.mod_mul, Nat.div_mul by lia. rewrite decide_False by lia. rewrite decide_False by lia. done.
Qed.

Lemma padded_full data : length data = source_count data len * len → padded data len = data.
Proof. intros Hd. unfold padded. rewrite Hd, Nat.sub_diag. apply app_nil_r. Qed.

Lemma length_concat_symbols (f : nat → Bytes) a n :
  (∀ j, length (f j) = len) → length (concat (f <$> seq a n)) = n * len.
Proof.
  intros Hf. revert a. induction n as [|n IH]; intros a; cbn; [done|]. by rewrite length_app, Hf, IH.
Qed.

Lemma concat_symbols_lookup (f : nat → Bytes) a n j :
  (∀ j, length (f j) = len) → j < n → take len (drop (j * len) (concat (f <$> seq a n))) = f (a + j).
Proof.
  intros Hf. revert a j. induction n as [|n IH]; intros a j Hj; [lia|]. cbn. destruct j as [|j].
  - cbn. rewrite drop_0, take_app_length' by done. f_equal. lia.
  - rewrite drop_app_ge by (rewrite Hf; lia). rewrite Hf. replace (S j * len - len) with (j * len) by lia.
    rewrite IH by lia. f_equal. lia.
Qed.

Lemma concat_symbols (data : Bytes) k :
  length data = k * len → concat ((λ j, take len (drop (j * len) data)) <$> seq 0 k) = data.
Proof.
  revert data. induction k as [|k IH]; intros data Hd; cbn.
  - by destruct data.
  - rewrite drop_0, <- fmap_S_seq, <- list_fmap_compose. etrans; [|apply (take_drop len data)]. f_equal.
    rewrite <- (IH (drop len data)) by (rewrite length_drop; lia). f_equal. apply list_fmap_ext. intros _ j _.
    cbn. by rewrite drop_drop.
Qed.

Lemma padded_idemp data : padded (padded data len) len = padded data len.
Proof.
  apply padded_full. rewrite length_padded by done. f_equal. symmetry. apply source_count_full.
  - by apply source_count_spec.
  - by apply length_padded.
Qed.

Lemma value_padded p data j : value (padded data len) len p j = value data len p j.
Proof. unfold value, half_value, left_sum, source_symbol. by rewrite padded_idemp. Qed.

Lemma concat_source data : concat (source_symbol data len <$> seq 0 (source_count data len)) = padded data len.
Proof. apply concat_symbols. by apply length_padded. Qed.
End block.

(** ** Transmission *)

(** The sender passes an encoded symbol to the receiver, or the receiver tries to
    decode. *)
Inductive Event := Transmit (encoding_symbol_id : nat) | TryDecode.

Definition on_event (e : Encoder) (ev : Event) (md : ManagedDecoder) : run ManagedDecoder :=
  match ev with
  | Transmit esi =>
      buf ← encode_symbol e (zeros (symbol_len e)) esi;
      md_received_encoded_symbol md buf esi
  | TryDecode => '(_, md) ← md_try_decode md; Ret md
  end.

Definition transmitted (evs : list Event) : list nat :=
  omap (λ ev, match ev with Transmit esi => Some esi | TryDecode => None end) evs.

(** The encoded symbol identifiers have triples, and the buffers can be indexed. *)
Definition events_ok (p : CodeParameters) (evs : list Event) : bool :=
  forallb (λ esi, bool_decide (esi < MAX_TRIPLES)) (transmitted evs) &&
  bool_decide (N.of_nat (num_ldpc_symbols p + num_half_symbols p + length (transmitted evs)) ≤ u16_MAX)%N.

Section transmission.
Context (len : nat) (Hlen : 0 < len) (p : CodeParameters) (Hp : params_ok p).
Context (Hnew : CodeParameters_new (num_source_symbols p) = Ret (Ok p)).
Abbreviation K := (num_source_symbols p).
Abbreviation L := (num_intermediate_symbols p).

(** The symbols of a block that are received. *)
Definition symbols_of (data : Bytes) (esis : list nat) : list (nat * Bytes) :=
  (λ esi, (esi, xsum len (value data len p) (lt_row p esi))) <$> esis.

Lemma encoder_of data :
  K = source_count data len →
  ∃ e, Encoder_new data len = Ret (Ok e) ∧ symbol_len e = len ∧
    ∀ esi, esi < MAX_TRIPLES → encode_symbol e (zeros len) esi = Ret (xsum len (value data len p) (lt_row p esi)).
Proof.
  intros HK. destruct (Encoder_new_spec data len Hlen p Hp HK) as (e & He & Hep & Hel & Hbuf); [by rewrite <- HK|].
  exists e. split_and!; [done..|]. intros esi Hesi.
  rewrite (encode_symbol_spec data len Hlen p Hp HK e) by (done || apply length_replicate). f_equal.
  apply bxor_zeros, xsum_length. intros j _. by apply value_length.
Qed.

(** The intermediate symbols of the block solve the equations. *)
Lemma value_solves data esis :
  K = source_count data len → solves len (value data len p) (equations p len (symbols_of data esis)).
Proof.
  intros HK. unfold equations, symbols_of. apply Forall_app. rewrite !Forall_fmap. split.
  - apply Forall_forall. intros b Hb%elem_of_seq. cbn. apply constraints_hold; done || lia.
  - by apply Forall_forall.
Qed.

Lemma events_run data e evs rcv md :
  K = source_count data len → symbol_len e = len →
  (∀ esi, esi < MAX_TRIPLES → encode_symbol e (zeros len) esi = Ret (xsum len (value data len p) (lt_row p esi))) →
  md_ok p len rcv md → Forall (λ esi, esi < MAX_TRIPLES) (transmitted evs) →
  (N.of_nat (num_ldpc_symbols p + num_half_symbols p + (length rcv + length (transmitted evs))) ≤ u16_MAX)%N →
  ∃ md', for_each evs (on_event e) md = Ret md' ∧ md_ok p len (rcv ++ symbols_of data (transmitted evs)) md'.
Proof.
  intros HK Hel Henc. revert rcv md. induction evs as [|ev evs IH]; intros rcv md Hok Hesi Hn; cbn.
  { exists md. by rewrite app_nil_r. }
  destruct ev as [esi|]; cbn [on_event].
  - change (transmitted (Transmit esi :: evs)) with (esi :: transmitted evs) in *. cbn [length] in Hn. apply Forall_cons in Hesi as [Hesi Hesis]. rewrite Hel, Henc by done. dsimpl.
    set (buf := xsum _ _ _). assert (length buf = len) as Hbuf.
    { apply xsum_length. intros j _. by apply value_length. }
    destruct (md_received_spec p Hp len rcv md esi buf) as (md1 & -> & Hok1); [done..|lia|]. dsimpl.
    destruct (IH (rcv ++ [(esi, buf)]) md1) as (md' & -> & Hok'); [done..|rewrite length_app; cbn [length]; lia|].
    exists md'. split; [done|]. by rewrite <- app_assoc in Hok'.
  - change (transmitted (TryDecode :: evs)) with (transmitted evs) in *.
    destruct (md_try_decode_spec p Hp len rcv md Hok) as (md1 & -> & Hok1 & _). dsimpl. by apply IH.
Qed.

Lemma events_triples evs : events_ok p evs = true → ∀ esi, esi ∈ transmitted evs → esi < MAX_TRIPLES.
Proof.
  intros [Hesi _]%andb_true_iff esi Hin. rewrite forallb_forall in Hesi. apply (bool_decide_eq_true_1 _), Hesi.
  by apply list_elem_of_In.
Qed.

(** The state after a transmission. *)
Lemma transmission data evs :
  K = source_count data len → events_ok p evs = true →
  ∃ e md md', Encoder_new data len = Ret (Ok e) ∧ ManagedDecoder_new K len = Ret (Ok md) ∧
    for_each evs (on_event e) md = Ret md' ∧ md_ok p len (symbols_of data (transmitted evs)) md' ∧
    ∀ esi, esi < MAX_TRIPLES → encode_symbol e (zeros len) esi = Ret (xsum len (value data len p) (lt_row p esi)).
Proof.
  intros HK Hev. pose proof (events_triples evs Hev) as Hesi. apply andb_true_iff in Hev as [_ Hn].
  apply bool_decide_eq_true in Hn.
  destruct (encoder_of data HK) as (e & He & Hel & Henc).
  destruct (ManagedDecoder_new_spec p Hp len Hnew) as (md & Hmd & Hok).
  destruct (events_run data e evs [] md HK Hel Henc Hok) as (md' & Hrun & Hok'); [by apply Forall_forall|done|].
  by exists e, md, md'.
Qed.

(** The data of a done decoder. *)
Lemma reconstructed data esis md :
  K = source_count data len → md_ok p len (symbols_of data esis) md → md_decoding_done md = true →
  reconstruct_source_data md = Ret (Some (padded data len)).
Proof.
  intros HK Hok Hdone. destruct (reconstruct_spec p Hp len _ md Hok Hdone) as (out & -> & Hout).
  rewrite (Hout (value data len p)); [|intros j; by apply value_length|by apply value_solves].
  rewrite <- concat_source, HK by done. do 3 f_equal. apply list_fmap_ext. intros i j [-> Hj]%lookup_seq.
  unfold value. by rewrite HK, decide_True by lia.
Qed.

(** Another block with the same symbols is the same to the decoder. *)
Lemma symbols_of_same data data' esis :
  (∀ esi, esi ∈ esis →
    xsum len (value data' len p) (lt_row p esi) = xsum len (value data len p) (lt_row p esi)) →
  symbols_of data' esis = symbols_of data esis.
Proof. intros Hs. apply list_fmap_ext. intros i esi Hi%list_elem_of_lookup_2. by rewrite Hs. Qed.

Lemma solves_constraint val rcv b :
  solves len val (equations p len rcv) → b < num_ldpc_symbols p + num_half_symbols p →
  xsum len val (constraint_row p b) = zeros len.
Proof.
  intros [Hc _]%Forall_app Hb. rewrite Forall_fmap, Forall_forall in Hc. apply (Hc b), elem_of_seq. lia.
Qed.

Lemma solves_received val data esis esi :
  solves len val (equations p len (symbols_of data esis)) → esi ∈ esis →
  xsum len val (lt_row p esi) = xsum len (value data len p) (lt_row p esi).
Proof.
  intros [_ Hr]%Forall_app Hin. unfold symbols_of in Hr. rewrite !Forall_fmap, Forall_forall in Hr. by apply (Hr esi).
Qed.

(** The block with the symbols of a solution. *)
Lemma block_of_solution val rcv (data' := concat (val <$> seq 0 K)) :
  (∀ j, length (val j) = len) → solves len val (equations p len rcv) →
  K = source_count data' len ∧ length data' = K * len ∧ ∀ j, j < L → val j = value data' len p j.
Proof.
  intros Hval Hsol. pose proof (pk_source _ Hp) as HKr. unfold SOURCE_SYMBOLS_MIN in HKr.
  assert (length data' = K * len) as Hd by by apply length_concat_symbols.
  assert (K = source_count data' len) as HK by (symmetry; apply source_count_full; done || lia).
  split_and!; [done..|]. apply value_unique; [done..| |].
  - intros j Hj. unfold source_symbol. rewrite padded_full by by rewrite <- HK.
    symmetry. by apply (concat_symbols_lookup len Hlen val 0).
  - intros b Hb. by eapply solves_constraint.
Qed.

(** When decoding has failed, another block has the same symbols. *)
Lemma second_block data esis md :
  K = source_count data len → (∀ esi, esi ∈ esis → esi < MAX_TRIPLES) → Forall (λ b, b < 256)%N data →
  md_ok p len (symbols_of data esis) md → exhausted p (decoder md) → md_decoding_done md = false →
  ∃ data', Forall (λ b, b < 256)%N data' ∧ length data' = length (padded data len) ∧ data' ≠ padded data len ∧
    K = source_count data' len ∧
    ∀ esi, esi ∈ esis → xsum len (value data' len p) (lt_row p esi) = xsum len (value data len p) (lt_row p esi).
Proof.
  intros HK Hesis Hbytes Hok Hex Hnd.
  destruct (second_solution p Hp len _ md (value data len p) Hok Hex Hnd) as (v & (j & Hj & Hvj) & Hsol);
    [intros j; by apply value_length|by apply value_solves|].
  set (val := λ j, bxor _ _) in Hsol.
  assert (∀ j, length (val j) = len) as Hval.
  { intros i. apply bxor_length; [by apply value_length|apply length_replicate]. }
  destruct (block_of_solution val _ Hval Hsol) as (HK' & Hd' & Hv'). set (data' := concat _) in *.
  exists data'. split_and!; [| | |done|].
  - apply Forall_concat, Forall_fmap, Forall_forall. intros i Hi%elem_of_seq. cbn. unfold val, indicator, bxor, value.
    rewrite decide_True by lia. apply bxor_bytes; [|apply Forall_replicate; by destruct (v i)].
    apply Forall_take, Forall_drop, Forall_app. split; [done|]. by apply Forall_replicate.
  - by rewrite length_padded, <- HK.
  - intros He. pose proof (Hv' j Hj) as Hvalj. rewrite He, value_padded in Hvalj by done. unfold val, indicator in Hvalj.
    rewrite Hvj in Hvalj. rewrite <- (bxor_zeros_r len (value data len p j)) in Hvalj at 2 by by apply value_length.
    apply bxor_cancel with (n := len) in Hvalj; [|by apply value_length|apply length_replicate..].
    destruct len; [lia|done].
  - intros esi Hin. rewrite <- (solves_received _ _ _ _ Hsol Hin). apply xsum_ext. intros i Hi. symmetry. apply Hv'.
    destruct (lt_symbols_spec p Hp esi (Hesis esi Hin)) as (_ & _ & Hlt & _). by apply Hlt.
Qed.
End transmission.

(** The parameters of a block. *)
Lemma block_params data len p :
  CodeParameters_new (source_count data len) = Ret (Ok p) →
  params_ok p ∧ num_source_symbols p = source_count data len.
Proof.
  intros Hnew. destruct (CodeParameters_new_spec _ (CodeParameters_new_range _ _ Hnew)) as (p' & Hp' & Hok & HK).
  rewrite Hnew in Hp'. by injection Hp' as <-.
Qed.

(** A block of three symbols, for the examples. *)
Definition sample_data : Bytes := [1; 2; 3; 4; 5]%N.

Definition sample_params : CodeParameters :=
  {| num_source_symbols := 3; num_ldpc_symbols := 5; num_half_symbols := 5; num_intermediate_symbols := 13;
     num_intermediate_symbols_prime := 13; systematic_index := 57975 |}.

Definition sample_events : list Event := [Transmit 0; TryDecode; Transmit 7; Transmit 2; Transmit 9; TryDecode].

(** C9: Round trip of the Raptor code.  For every source block, symbol length and
    sequence of events, each of which hands an encoded symbol of the block to the
    managed decoder or makes it try to decode, the encoder and the decoder never
    panic and every call ends; whenever the decoder says that decoding is done,
    [reconstruct_source_data] returns the block, padded with zeros to whole
    symbols. *)
Theorem raptor_round_trip data len p evs :
  0 < len → CodeParameters_new (source_count data len) = Ret (Ok p) → events_ok p evs = true →
  ∃ e md md', Encoder_new data len = Ret (Ok e) ∧
    ManagedDecoder_new (source_count data len) len = Ret (Ok md) ∧
    for_each evs (on_event e) md = Ret md' ∧
    (md_decoding_done md' = true → reconstruct_source_data md' = Ret (Some (padded data len))).
Proof.
  intros Hlen Hnew Hev. destruct (block_params data len p Hnew) as [Hp HK]. rewrite <- HK in Hnew |- *.
  destruct (transmission len Hlen p Hp Hnew data evs HK Hev) as (e & md & md' & He & Hmd & Hrun & Hok & _).
  exists e, md, md'. split_and!; [done..|]. by apply (reconstructed len Hlen p Hp data (transmitted evs)).
Qed.

Lemma raptor_round_trip_witness :
  ∃ e md md', Encoder_new sample_data 2 = Ret (Ok e) ∧ ManagedDecoder_new 3 2 = Ret (Ok md) ∧
    for_each sample_events (on_event e) md = Ret md' ∧
    (md_decoding_done md' = true → reconstruct_source_data md' = Ret (Some [1; 2; 3; 4; 5; 0]%N)).
Proof. apply (raptor_round_trip sample_data 2 sample_params sample_events); [lia|vm_compute; reflexivity..]. Defined.


