(* ===== verification/RaptorCheck.v ===== *)
(** * The self checks of the Raptor decoder

    [src/raptor/src/r10/nonsystematic/decoder/check.rs] and the check of
    [buffer_weight_map.rs]: the assertions that the code runs on its tables after
    every operation of a build with debug assertions.  They always hold.  In such
    a build arithmetic that overflows panics, and so it does here. *)
From S2P Require Import Prelude RaptorSet RaptorHeap RaptorMatrix RaptorParams RaptorDecoder RaptorDecoderSpec.
From S2P Require Import RaptorSteps RaptorElimination RaptorDecoding RaptorEncoder RaptorCode RaptorKernel RaptorRoundtrip.

#[global] Instance DenseMatrix_eq_dec : EqDecision DenseMatrix.
Proof. solve_decision. Defined.

(** ** Buffers by weight *)

Definition heap_child_check (m : BufferWeightMap) (weight child : nat) : run () :=
  if decide (child < length (heap_index_to_buffer_index m)) then
    child_weight ← heap_index_to_weight m child;
    assert (weight ≤ child_weight)
  else Ret ().

Definition heap_check_force (m : BufferWeightMap) : run () :=
  buffer_index_to_weight' ← for_each (heap_index_to_buffer_index m) (λ buffer_index v,
    w ← vget (buffer_index_to_weight m) buffer_index;
    vset v buffer_index w) (replicate (length (buffer_index_to_weight m)) None);
  assert (buffer_index_to_weight m = buffer_index_to_weight') ≫= λ _,
  _ ← for_each (seq 0 (length (heap_index_to_buffer_index m))) (λ i _,
    weight ← heap_index_to_weight m i;
    heap_child_check m weight (2 * i + 1) ≫= λ _,
    heap_child_check m weight (2 * i + 2)) ();
  for_each (seq 0 (length (heap_index_to_buffer_index m))) (λ i _,
    buffer_index ← vget (heap_index_to_buffer_index m) i;
    h ← vget (buffer_index_to_heap_index m) buffer_index;
    assert (h = i)) ().

(** ** The decoder *)

Implicit Types (d : Decoder).

Definition buffer_state_to_mapping d : run DenseMatrix :=
  for_each (seq 0 (length (buffer_state d))) (λ i m,
    buffer ← vget (buffer_state d) i;
    for_each (intermediate_symbol_ids buffer) (λ j m, mset m i j true) m)
    (from_element (length (buffer_state d)) (length (intermediate_symbol_state d)) false).

Definition intermediate_symbol_state_to_mapping d : run DenseMatrix :=
  for_each (seq 0 (length (intermediate_symbol_state d))) (λ j m,
    symbol ← vget (intermediate_symbol_state d) j;
    match symbol with
    | Active buffer_indices => for_each buffer_indices (λ i m, mset m i j true) m
    | Used buffer_index => mset m buffer_index j true
    | Inactivated buffer_indices => for_each buffer_indices (λ i m, mset m i j true) m
    end)
    (from_element (length (buffer_state d)) (length (intermediate_symbol_state d)) false).

Definition check_elements_match d : run () :=
  left ← buffer_state_to_mapping d;
  right ← intermediate_symbol_state_to_mapping d;
  assert (left = right).

(** [filter(..).collect()]; the predicate may panic. *)
Fixpoint not_inactivated_ids d (ids : list nat) : run (list nat) :=
  match ids with
  | [] => Ret []
  | id :: ids =>
      symbol ← vget (intermediate_symbol_state d) id;
      rest ← not_inactivated_ids d ids;
      Ret (if is_inactivated symbol then rest else id :: rest)
  end.

Definition check_used_buffer d (i : nat) : run () :=
  buffer ← vget (buffer_state d) i;
  if used buffer then
    assert (active_used_weight buffer = 1) ≫= λ _,
    active_used_intermediate_symbol_ids ← not_inactivated_ids d (intermediate_symbol_ids buffer);
    assert (length active_used_intermediate_symbol_ids = 1) ≫= λ _,
    id ← vget active_used_intermediate_symbol_ids 0;
    symbol ← vget (intermediate_symbol_state d) id;
    assert (is_used symbol = true)
  else Ret ().

Definition check_used_symbol d (j : nat) : run () :=
  symbol ← vget (intermediate_symbol_state d) j;
  match is_used_buffer_index symbol with
  | Some buffer_index =>
      buffer ← vget (buffer_state d) buffer_index;
      assert (state buffer = BufferState_Used)
  | None => Ret ()
  end.

Definition check_used d : run () :=
  _ ← for_each (seq 0 (length (buffer_state d))) (λ i _, check_used_buffer d i) ();
  for_each (seq 0 (length (intermediate_symbol_state d))) (λ j _, check_used_symbol d j) ().

(** The map that inserting the pairs of [enumerate] gives. *)
Definition collect_weights (m : BufferWeightMap) : run (gmap nat nat) :=
  l ← enumerate m;
  Ret (foldl (λ w '(buffer_index, weight), <[buffer_index := weight]> w) ∅ l).

Definition count_active_used d (ids : list nat) : run nat :=
  for_each ids (λ j active_used_weight,
    symbol ← vget (intermediate_symbol_state d) j;
    if is_inactivated symbol then Ret active_used_weight else to_u16 (active_used_weight + 1)) 0.

Definition check_active_usable d : run () :=
  self_buffers_active_usable ← collect_weights (buffers_active_usable d);
  buffers_active_usable ← for_each (seq 0 (length (buffer_state d))) (λ i m,
    buffer ← vget (buffer_state d) i;
    weight ← count_active_used d (intermediate_symbol_ids buffer);
    assert (active_used_weight buffer = weight) ≫= λ _,
    if decide (state buffer = BufferState_Active ∨ state buffer = BufferState_Usable) then
      i ← to_u16 i;
      Ret (<[i := weight]> m)
    else Ret m) ∅;
  assert (self_buffers_active_usable = buffers_active_usable).

Definition check_inactivated d : run () :=
  self_buffers_inactivated ← collect_weights (buffers_inactivated d);
  buffers_inactivated ← for_each (seq 0 (length (buffer_state d))) (λ i m,
    buffer ← vget (buffer_state d) i;
    let weight := length (intermediate_symbol_ids buffer) in
    if decide (state buffer = BufferState_Inactivated) then
      i ← to_u16 i;
      weight ← to_u16 weight;
      Ret (<[i := weight]> m)
    else Ret m) ∅;
  assert (self_buffers_inactivated = buffers_inactivated).

Definition check_num_redundant_buffers d : run () :=
  n ← for_each (seq 0 (length (buffer_state d))) (λ i n,
    buffer ← vget (buffer_state d) i;
    if decide (state buffer = BufferState_Redundant) then to_u16 (n + 1) else Ret n) 0;
  assert (num_redundant_buffers d = n).

Definition check_num_source_symbols_paired d : run () :=
  n ← for_each (seq 0 (length (buffer_state d))) (λ i n,
    buffer ← vget (buffer_state d) i;
    if is_paired buffer then
      id ← first_intermediate_symbol_id buffer;
      Ret (if decide (id < num_source_symbols (params d)) then n + 1 else n)
    else Ret n) 0;
  assert (num_source_symbols_paired d = n).

Definition check_force d : run () :=
  check_elements_match d ≫= λ _,
  check_used d ≫= λ _,
  check_active_usable d ≫= λ _,
  check_inactivated d ≫= λ _,
  check_num_redundant_buffers d ≫= λ _,
  check_num_source_symbols_paired d.

(** ** Loops *)

Lemma for_each_unit {A} (l : list A) (body : A → run ()) :
  (∀ x, x ∈ l → body x = Ret ()) → for_each l (λ x _, body x) () = Ret ().
Proof.
  induction l as [|x l IH]; intros Hb; cbn; [done|]. rewrite Hb by left. dsimpl. apply IH. intros y Hy. apply Hb. by right.
Qed.

Lemma for_each_unit_then {A C} (l : list A) (body : A → run ()) (k : () → run C) r :
  (∀ x, x ∈ l → body x = Ret ()) → k () = r → (for_each l (λ x _, body x) () ≫= k) = r.
Proof. intros Hb Hk. by rewrite for_each_unit. Qed.

Lemma assert_tt (P : Prop) `{!Decision P} : P → assert P = Ret ().
Proof. apply assert_true. Qed.

(** ** The check of the heap *)

Section heap_check.
Context (m : BufferWeightMap) (Hm : heap_ok m).
Abbreviation heap := (heap_index_to_buffer_index m).

Lemma heap_entry_weight i : i < length heap → heap_index_to_weight m i = Ret (wt m i).
Proof.
  intros Hi. destruct (lookup_lt_is_Some_2 heap i Hi) as [b Hb]. unfold heap_index_to_weight, vget. rewrite Hb. dsimpl.
  destruct (ly_heap m (ho_layout m Hm) i b Hb) as [_ [w Hw]]. pose proof (proj1 (weight_of_lookup m b w) Hw) as Hl.
  rewrite Hl. dsimpl. rewrite (heap_weight m i b Hb (ho_layout m Hm)) in Hw. by injection Hw as ->.
Qed.

Lemma heap_child_passes i child :
  i < length heap → child = 2 * i + 1 ∨ child = 2 * i + 2 → heap_child_check m (wt m i) child = Ret ().
Proof.
  intros Hi Hc. unfold heap_child_check. case_decide as Hl; [|done]. rewrite heap_entry_weight by done. dsimpl.
  apply assert_tt. rewrite <- (parent_of child i Hc). apply (ho_order m Hm). lia.
Qed.

Lemma heap_weights_rebuilt :
  for_each heap (λ buffer_index v, w ← vget (buffer_index_to_weight m) buffer_index; vset v buffer_index w)
    (replicate (length (buffer_index_to_weight m)) None) = Ret (buffer_index_to_weight m).
Proof.
  pose proof (ho_layout m Hm) as Hl.
  destruct (for_each_spec (λ done v, length v = length (buffer_index_to_weight m) ∧
    ∀ b, v !! b = if decide (b ∈ done) then buffer_index_to_weight m !! b
                  else (λ _, None) <$> buffer_index_to_weight m !! b) heap
    (λ buffer_index v, w ← vget (buffer_index_to_weight m) buffer_index; vset v buffer_index w)
    (replicate (length (buffer_index_to_weight m)) None)) as (v & -> & Hlen & Hv).
  - split; [apply length_replicate|]. intros b. rewrite decide_False by apply not_elem_of_nil.
    destruct (buffer_index_to_weight m !! b) as [w|] eqn:Hb.
    + rewrite lookup_replicate_2; [done|]. by eapply lookup_lt_Some.
    + apply lookup_ge_None in Hb. by apply lookup_replicate_None.
  - intros done b todo v Hh [Hlen Hv]. assert (b ∈ heap) as Hb by (rewrite Hh; set_solver).
    apply list_elem_of_lookup in Hb as [i Hi]. destruct (ly_heap m Hl i b Hi) as [_ [w Hw]].
    pose proof (proj1 (weight_of_lookup m b w) Hw) as Hbw. unfold vget. rewrite Hbw. dsimpl.
    rewrite vset_Ret by (rewrite Hlen; by eapply lookup_lt_Some). eexists. split; [done|].
    split; [by rewrite length_insert|]. intros c. destruct (decide (c = b)) as [->|Hne].
    + rewrite list_lookup_insert_eq by (rewrite Hlen; by eapply lookup_lt_Some). rewrite decide_True by set_solver. done.
    + rewrite list_lookup_insert_ne, Hv by done. destruct (decide (c ∈ done)); [by rewrite decide_True by set_solver|].
      by rewrite decide_False by set_solver.
  - f_equal. apply list_eq. intros b. rewrite Hv. case_decide as Hb; [done|].
    destruct (buffer_index_to_weight m !! b) as [[w|]|] eqn:Hw; try done. exfalso. apply Hb, (ly_weight m Hl).
    unfold weight_of. rewrite Hw. by exists w.
Qed.

Lemma heap_check_passes : heap_check_force m = Ret ().
Proof.
  unfold heap_check_force. rewrite heap_weights_rebuilt. dsimpl. rewrite assert_tt by done. dsimpl.
  apply for_each_unit_then; [|apply for_each_unit].
  - intros i Hi%elem_of_seq. rewrite heap_entry_weight by lia. dsimpl.
    rewrite (heap_child_passes i (2 * i + 1)) by (lia || auto). dsimpl. apply heap_child_passes; [lia|by right].
  - intros i Hi%elem_of_seq. unfold vget. destruct (lookup_lt_is_Some_2 heap i) as [b Hb]; [lia|]. rewrite Hb. dsimpl.
    destruct (ly_heap m (ho_layout m Hm) i b Hb) as [-> _]. dsimpl. by apply assert_tt.
Qed.
End heap_check.

(** ** Matrices by their entries *)

(** A matrix of the given size whose true entries are those of [P]. *)
Definition entries (r c : nat) (P : nat → nat → Prop) (m : DenseMatrix) : Prop :=
  mwf m ∧ nrows m = r ∧ ncols m = c ∧ ∀ i j, i < r → j < c → mget m i j = true ↔ P i j.

Lemma entries_eq r c P Q m m' :
  entries r c P m → entries r c Q m' → (∀ i j, i < r → j < c → P i j ↔ Q i j) → m = m'.
Proof.
  intros (Hw & Hr & Hc & Hm) (Hw' & Hr' & Hc' & Hm') HPQ. destruct m as [l nr nc], m' as [l' nr' nc'].
  unfold mwf in *. cbn in *. subst. f_equal. apply list_eq_same_length with (n := r * c); [done..|].
  intros k b b' Hk Hb Hb'. assert (c ≠ 0) as Hc0 by nia. pose proof (Nat.div_mod_eq k c) as Hdm.
  pose proof (Nat.mod_upper_bound k c Hc0) as Hub. assert (k / c < r) as Hlt by nia.
  pose proof (Hm (k / c) (k mod c) Hlt Hub) as H1. pose proof (Hm' (k / c) (k mod c) Hlt Hub) as H2.
  rewrite (HPQ _ _ Hlt Hub), <- H2 in H1. unfold mget in H1. cbn in H1.
  replace (k / c * c + k mod c) with k in H1 by lia. rewrite Hb, Hb' in H1. cbn in H1. by apply eq_true_iff_eq.
Qed.

Lemma entries_new r c : entries r c (λ _ _, False) (from_element r c false).
Proof.
  split_and!; [apply length_replicate|done..|]. intros i j Hi Hj. unfold mget. cbn.
  rewrite lookup_replicate_2 by by apply index_lt. done.
Qed.

Lemma entries_set {A} r c (P : nat → nat → Prop) (l : list A) (fi fj : A → nat) m :
  entries r c P m → (∀ x, x ∈ l → fi x < r ∧ fj x < c) →
  ∃ m', for_each l (λ x m, mset m (fi x) (fj x) true) m = Ret m' ∧
    entries r c (λ i j, P i j ∨ ∃ x, x ∈ l ∧ i = fi x ∧ j = fj x) m'.
Proof.
  intros Hm Hl. apply (for_each_spec (λ done m', entries r c (λ i j, P i j ∨ ∃ x, x ∈ done ∧ i = fi x ∧ j = fj x) m')).
  - destruct Hm as (Hw & Hr & Hc & Hm). split_and!; [done..|]. intros i j Hi Hj. rewrite Hm by done.
    split; [by left|]. intros [?|(x & Hx & _)]; [done|]. by apply not_elem_of_nil in Hx.
  - intros done x todo m1 Hlx (Hw & Hr & Hc & Hm1). destruct (Hl x) as [Hx1 Hx2]; [rewrite Hlx; set_solver|].
    destruct (mset_spec m1 (fi x) (fj x) true) as (m2 & -> & Hw2 & Hr2 & Hc2 & Hm2); [done|lia..|].
    exists m2. split; [done|]. split_and!; [done|lia..|]. intros i j Hi Hj. rewrite Hm2 by lia. case_decide as He.
    + split; [|done]. intros _. right. exists x. split; [apply elem_of_app; right; left|done].
    + rewrite Hm1 by done. setoid_rewrite elem_of_app. setoid_rewrite list_elem_of_singleton. split.
      * intros [?|(y & Hy & ?)]; [by left|]. right. exists y. auto.
      * intros [?|(y & [Hy| ->] & ?)]; [by left|right; eauto|]. done.
Qed.

(** ** The checks of the decoder *)

Section decoder_check.
Context (p : CodeParameters) (Hp : params_ok p) (d : Decoder) (Hd : dec_ok p no_slack d).
Abbreviation bufs := (buffer_state d).
Abbreviation syms := (intermediate_symbol_state d).
Abbreviation L := (num_intermediate_symbols p).
Abbreviation K := (num_source_symbols p).

Lemma buffer_mapping :
  ∃ m, buffer_state_to_mapping d = Ret m ∧
    entries (length bufs) L (λ i j, ∃ buf, bufs !! i = Some buf ∧ j ∈ ids buf) m.
Proof.
  pose proof (d_tables _ _ _ Hd) as HT. unfold buffer_state_to_mapping. rewrite (t_symbols _ _ _ _ _ HT).
  destruct (for_seq_spec (λ k m, entries (length bufs) L (λ i j, i < k ∧ ∃ buf, bufs !! i = Some buf ∧ j ∈ ids buf) m)
    0 (length bufs) (λ i m, buffer ← vget bufs i; for_each (ids buffer) (λ j m, mset m i j true) m)
    (from_element (length bufs) L false)) as (m & Hrun & Hm).
  - destruct (entries_new (length bufs) L) as (Hw & Hr & Hc & Hm). split_and!; [done..|].
    intros i j Hi Hj. rewrite Hm by done. split; [done|]. lia.
  - intros k m Hk Hm. destruct (lookup_lt_is_Some_2 bufs k) as [buf Hb]; [lia|]. unfold vget. rewrite Hb. dsimpl.
    destruct (entries_set _ _ _ (ids buf) (λ _, k) (λ j, j) m Hm) as (m' & Hrun & Hw & Hr & Hc & Hm').
    { intros j Hj. split; [lia|]. by apply (t_ids _ _ _ _ _ HT k buf Hb). }
    exists m'. split; [exact Hrun|]. split_and!; [done..|]. intros i j Hi Hj. rewrite Hm' by done. split.
    + intros [[? ?]|(x & Hx & -> & ->)]; [split; [lia|done]|]. split; [lia|]. eauto.
    + intros [Hlt (buf' & Hb' & Hin)]. destruct (decide (i = k)) as [->|Hne]; [|left; split; [lia|eauto]].
      right. exists j. rewrite Hb in Hb'. by injection Hb' as <-.
  - exists m. split; [exact Hrun|]. destruct Hm as (Hw & Hr & Hc & Hm). split_and!; [done..|].
    intros i j Hi Hj. rewrite Hm by done. split; [tauto|]. intros ?. split; [lia|done].
Qed.

Lemma symbol_mapping :
  ∃ m, intermediate_symbol_state_to_mapping d = Ret m ∧
    entries (length bufs) L (λ i j, ∃ s, syms !! j = Some s ∧ i ∈ holders s) m.
Proof.
  pose proof (d_tables _ _ _ Hd) as HT. unfold intermediate_symbol_state_to_mapping. rewrite (t_symbols _ _ _ _ _ HT).
  destruct (for_seq_spec (λ k m, entries (length bufs) L (λ i j, j < k ∧ ∃ s, syms !! j = Some s ∧ i ∈ holders s) m)
    0 L (λ j m, symbol ← vget syms j;
      match symbol with
      | Active buffer_indices => for_each buffer_indices (λ i m, mset m i j true) m
      | Used buffer_index => mset m buffer_index j true
      | Inactivated buffer_indices => for_each buffer_indices (λ i m, mset m i j true) m
      end) (from_element (length bufs) L false)) as (m & Hrun & Hm).
  - destruct (entries_new (length bufs) L) as (Hw & Hr & Hc & Hm). split_and!; [done..|].
    intros i j Hi Hj. rewrite Hm by done. split; [done|]. lia.
  - intros k m Hk Hm. destruct (t_symbol p _ _ _ _ k HT) as [s Hs]; [lia|]. unfold vget. rewrite Hs. dsimpl.
    destruct (entries_set _ _ _ (holders s) (λ i, i) (λ _, k) m Hm) as (m' & Hrun & Hw & Hr & Hc & Hm').
    { intros i Hi. split; [|lia]. by apply (t_sets _ _ _ _ _ HT k s Hs). }
    exists m'. split.
    { destruct s; [exact Hrun|exact Hrun|]. cbn in Hrun. apply run_bind_Ret in Hrun as (m1 & H1 & [= ->]). exact H1. }
    split_and!; [done..|]. intros i j Hi Hj. rewrite Hm' by done. split.
    + intros [[? ?]|(x & Hx & -> & ->)]; [split; [lia|done]|]. split; [lia|]. eauto.
    + intros [Hlt (s' & Hs' & Hin)]. destruct (decide (j = k)) as [->|Hne]; [|left; split; [lia|eauto]].
      right. exists i. rewrite Hs in Hs'. by injection Hs' as <-.
  - exists m. split; [exact Hrun|]. destruct Hm as (Hw & Hr & Hc & Hm). split_and!; [done..|].
    intros i j Hi Hj. rewrite Hm by done. split; [tauto|]. intros ?. split; [lia|done].
Qed.

Lemma check_elements_match_passes : check_elements_match d = Ret ().
Proof.
  destruct buffer_mapping as (m & Hm & Hem), symbol_mapping as (m' & Hm' & Hem'). unfold check_elements_match.
  rewrite Hm. dsimpl. rewrite Hm'. dsimpl. apply assert_tt. apply (entries_eq _ _ _ _ _ _ Hem Hem').
  pose proof (d_tables _ _ _ Hd) as HT. intros i j Hi Hj. destruct (lookup_lt_is_Some_2 bufs i Hi) as [buf Hb].
  destruct (t_symbol p _ _ _ _ j HT Hj) as [s Hs]. pose proof (t_match _ _ _ _ _ HT i buf j s Hb Hs) as Hmt. cbn in Hmt. split.
  - intros (buf' & Hb' & Hin). rewrite Hb in Hb'. injection Hb' as <-. exists s. split; [done|]. tauto.
  - intros (s' & Hs' & Hin). rewrite Hs in Hs'. injection Hs' as <-. exists buf. split; [done|]. tauto.
Qed.

Lemma not_inactivated_ids_spec l :
  (∀ j, j ∈ l → j < L) → not_inactivated_ids d l = Ret (filter (λ j, inact syms j = false) l).
Proof.
  induction l as [|j l IH]; intros Hl; cbn [not_inactivated_ids]; [done|]. unfold vget.
  destruct (t_symbol p _ _ _ _ j (d_tables _ _ _ Hd)) as [s Hs]; [apply Hl; left|]. rewrite Hs. dsimpl.
  rewrite IH by (intros i Hi; apply Hl; by right). dsimpl.
  assert (inact syms j = is_inactivated s) as Hi by (unfold inact; by rewrite Hs).
  rewrite filter_cons. case_decide as Hc; rewrite Hi in Hc; [by rewrite Hc|]. by apply not_false_is_true in Hc as ->.
Qed.

Lemma check_used_passes : check_used d = Ret ().
Proof.
  pose proof (d_tables _ _ _ Hd) as HT. unfold check_used. apply for_each_unit_then; [|apply for_each_unit].
  - intros b Hb%elem_of_seq. unfold check_used_buffer, vget. destruct (lookup_lt_is_Some_2 bufs b) as [buf Hbuf]; [lia|].
    rewrite Hbuf. dsimpl. destruct (used buf) eqn:Hu; [|done]. apply (t_used _ _ _ _ _ HT b buf Hbuf) in Hu as [j Hj].
    destruct (used_others _ _ _ _ _ b j buf HT (λ _, eq_refl) Hbuf Hj) as (Hin & Hij & Hu & Hw & Hoth).
    rewrite assert_tt by (by apply (t_used_weight _ _ _ _ _ HT b buf)). dsimpl.
    rewrite not_inactivated_ids_spec by (apply (t_ids _ _ _ _ _ HT b buf Hbuf)). dsimpl. unfold weight in Hw.
    rewrite assert_tt by done. dsimpl. destruct (filter _ _) as [|i [|? ?]] eqn:Hf; [done| |done].
    assert (i ∈ [i]) as Hi by left. rewrite <- Hf in Hi. apply list_elem_of_filter in Hi as [Hii Hi].
    rewrite (Hoth i Hi Hii). cbn. rewrite Hj. dsimpl. by apply assert_tt.
  - intros j Hj%elem_of_seq. unfold check_used_symbol, vget. rewrite (t_symbols _ _ _ _ _ HT) in Hj.
    destruct (t_symbol p _ _ _ _ j HT) as [s Hs]; [lia|]. rewrite Hs. dsimpl. destruct s as [| |b]; [done..|].
    cbn [is_used_buffer_index]. destruct (t_sets _ _ _ _ _ HT j _ Hs) as [_ Hr].
    destruct (lookup_lt_is_Some_2 bufs b) as [buf Hbuf]; [apply Hr; left|]. rewrite Hbuf. dsimpl.
    destruct (used_others _ _ _ _ _ b j buf HT (λ _, eq_refl) Hbuf Hs) as (_ & _ & Hu & _ & _).
    apply assert_tt. unfold state. rewrite (t_used_weight _ _ _ _ _ HT b buf Hbuf Hu), Hu. done.
Qed.

(** ** The maps of weights *)

Lemma buffer_used_weight b buf : bufs !! b = Some buf → used buf = true → auw buf = 1.
Proof. apply (t_used_weight _ _ _ _ _ (d_tables _ _ _ Hd)). Qed.

(** The class of a buffer and its [state]. *)
Lemma class_state b buf :
  bufs !! b = Some buf →
  match class buf with
  | CActive w => (state buf = BufferState_Active ∨ state buf = BufferState_Usable) ∧ w = auw buf
  | CInactivated w => state buf = BufferState_Inactivated ∧ w = length (ids buf)
  | CRedundant => state buf = BufferState_Redundant
  | CUsed => state buf = BufferState_Used
  end.
Proof.
  intros Hb. pose proof (buffer_used_weight b buf Hb) as Hu. unfold class, state.
  destruct (used buf); [by rewrite Hu by done|]. clear Hu.
  destruct (decide (auw buf ≠ 0)) as [Hw|Hw].
  - destruct (decide (1 < auw buf)); [by split; [left|]|]. rewrite decide_True by (split; [lia|done]). by split; [right|].
  - assert (auw buf = 0) as -> by lia. rewrite !(decide_False (P := _ ∧ _)) by (intros [? _]; lia). by case_decide.
Qed.

Lemma collect_weights_spec m :
  heap_ok m → ∃ g, collect_weights m = Ret g ∧ ∀ b, g !! b = weight_of m b.
Proof.
  intros Hm. destruct (enumerate_spec m Hm) as (l & Hrun & Hnd & Hl). unfold collect_weights. rewrite Hrun. dsimpl.
  eexists. split; [done|].
  assert (∀ l (g : gmap nat nat) b w, NoDup l.*1 →
    (foldl (λ w '(buffer_index, weight), <[buffer_index := weight]> w) g l !! b = Some w) ↔
    (b, w) ∈ l ∨ ((b ∉ l.*1) ∧ g !! b = Some w)) as Hfold.
  { clear. induction l as [|[c v] l IH]; intros g b w Hnd; [cbn; set_solver|].
    rewrite fmap_cons in *. cbn [foldl fst] in *. apply NoDup_cons in Hnd as [Hc Hnd].
    rewrite IH by done. destruct (decide (b = c)) as [->|Hne].
    - rewrite lookup_insert_eq, elem_of_cons. split.
      + intros [Hin|[_ [= ->]]]; [|by left; left]. exfalso. apply Hc, list_elem_of_fmap. by exists (c, w).
      + intros [[[= ->]|Hin]|[Hn _]]; [by right|by left|]. exfalso. apply Hn. left.
    - rewrite lookup_insert_ne, !elem_of_cons by done. split.
      + intros [?|[? ?]]; [by left; right|]. right. split; [|done]. by intros [->|?].
      + intros [[[= -> _]|?]|[Hn ?]]; [done|by left|]. right. split; [|done]. intros ?. apply Hn. by right. }
  intros b. apply option_eq. intros w. rewrite Hfold, Hl, lookup_empty by done. split; [|by left]. by intros [?|[_ ?]].
Qed.

(** A loop over the buffers that builds a map. *)
Lemma build_map (f : nat → option nat) (body : nat → gmap nat nat → run (gmap nat nat)) :
  (∀ i m, i < length bufs → body i m = Ret (match f i with Some w => <[i := w]> m | None => m end)) →
  ∃ m, for_each (seq 0 (length bufs)) body ∅ = Ret m ∧ ∀ b, m !! b = if decide (b < length bufs) then f b else None.
Proof.
  intros Hbody.
  destruct (for_seq_spec (λ k (m : gmap nat nat), ∀ b, m !! b = if decide (b < k) then f b else None) 0 (length bufs) body ∅)
    as (m & Hrun & Hm); [..|by exists m].
  - intros b. by rewrite decide_False by lia.
  - intros k m Hk Hm. rewrite Hbody by lia. eexists. split; [done|]. intros b. destruct (decide (b = k)) as [->|Hne].
    + rewrite decide_True by lia. destruct (f k) as [w|]; [apply lookup_insert_eq|]. by rewrite Hm, decide_False by lia.
    + destruct (f k); [rewrite lookup_insert_ne by done|]; rewrite Hm; repeat case_decide; done || lia.
Qed.

Lemma count_active_used_from l acc :
  (∀ j, j ∈ l → j < L) → (N.of_nat (acc + length l) ≤ u16_MAX)%N →
  for_each l (λ j active_used_weight, symbol ← vget syms j;
    if is_inactivated symbol then Ret active_used_weight else to_u16 (active_used_weight + 1)) acc =
  Ret (acc + weight syms l).
Proof.
  revert acc. induction l as [|j l IH]; intros acc Hr Hacc; cbn [for_each]; [unfold weight; cbn; f_equal; lia|].
  destruct (t_symbol p _ _ _ _ j (d_tables _ _ _ Hd)) as [s Hs]; [apply Hr; left|].
  rewrite (proj2 (vget_Ret syms j s) Hs). dsimpl. rewrite weight_cons. unfold inact. rewrite Hs. cbn [length] in Hacc.
  destruct (is_inactivated s).
  - apply IH; [intros i Hin; apply Hr; by right|lia].
  - rewrite to_u16_Ret by lia. dsimpl. rewrite IH; [f_equal; lia|intros i Hin; apply Hr; by right|lia].
Qed.

Lemma count_active_used_spec b buf : bufs !! b = Some buf → count_active_used d (ids buf) = Ret (auw buf).
Proof.
  intros Hb. pose proof (d_tables _ _ _ Hd) as HT. destruct (t_ids _ _ _ _ _ HT b buf Hb) as [Hord Hr].
  pose proof (t_weight _ _ _ _ _ HT b buf Hb) as Hw. cbn in Hw. unfold count_active_used.
  pose proof (ordered_length _ _ Hord Hr) as Hlen. pose proof (L_u16 p Hp) as HL.
  rewrite count_active_used_from; [f_equal; lia|done|lia].
Qed.

Lemma buffer_u16 b : b < length bufs → (N.of_nat b ≤ u16_MAX)%N.
Proof. intros Hb. pose proof (bk_u16 _ _ _ _ _ (d_books _ _ _ Hd)). lia. Qed.

(** The map of a heap and the map built from the classes are equal. *)
Lemma maps_equal (m m' : gmap nat nat) h (f : option Class → option nat) :
  (∀ b, m !! b = weight_of h b) → (∀ b, weight_of h b = f (class_of bufs b)) → f None = None →
  (∀ b, m' !! b = if decide (b < length bufs) then f (class_of bufs b) else None) → m = m'.
Proof.
  intros Hm Hh Hn Hm'. apply map_eq. intros b. rewrite Hm, Hm', Hh. case_decide as Hb; [done|].
  unfold class_of. by rewrite lookup_ge_None_2 by lia.
Qed.

Lemma check_active_usable_passes : check_active_usable d = Ret ().
Proof.
  pose proof (d_books _ _ _ Hd) as HB. unfold check_active_usable.
  destruct (collect_weights_spec _ (bk_active _ _ _ _ _ HB)) as (g & -> & Hg). dsimpl.
  match goal with |- (for_each _ ?body _ ≫= _) = _ =>
    destruct (build_map (λ b, active_weight (class_of bufs b)) body) as (m & -> & Hm) end.
  - intros i m Hi. unfold vget. destruct (lookup_lt_is_Some_2 bufs i Hi) as [buf Hb]. rewrite Hb. dsimpl.
    rewrite (count_active_used_spec i buf Hb). dsimpl. rewrite assert_tt by done. dsimpl.
    pose proof (class_state i buf Hb) as Hc. unfold class_of. rewrite Hb. cbn [fmap option_fmap option_map active_weight].
    destruct (class buf) as [w|w| |]; [destruct Hc as [Hc ->]|destruct Hc as [Hc _]|..].
    + rewrite decide_True by done. by rewrite to_u16_Ret by by apply buffer_u16.
    + by rewrite Hc.
    + by rewrite Hc.
    + by rewrite Hc.
  - dsimpl. apply assert_tt. eapply (maps_equal g m _ active_weight); [done|apply (bk_active_weight _ _ _ _ _ HB)|done|done].
Qed.

Lemma check_inactivated_passes : check_inactivated d = Ret ().
Proof.
  pose proof (d_books _ _ _ Hd) as HB. unfold check_inactivated.
  destruct (collect_weights_spec _ (bk_inactivated _ _ _ _ _ HB)) as (g & -> & Hg). dsimpl.
  match goal with |- (for_each _ ?body _ ≫= _) = _ =>
    destruct (build_map (λ b, inactivated_weight (class_of bufs b)) body) as (m & -> & Hm) end.
  - intros i m Hi. unfold vget. destruct (lookup_lt_is_Some_2 bufs i Hi) as [buf Hb]. rewrite Hb. dsimpl.
    pose proof (class_state i buf Hb) as Hc. unfold class_of. rewrite Hb. cbn [fmap option_fmap option_map inactivated_weight].
    destruct (t_ids _ _ _ _ _ (d_tables _ _ _ Hd) i buf Hb) as [Hord Hr].
    pose proof (ordered_length _ _ Hord Hr) as Hlen. pose proof (L_u16 p Hp) as HL.
    destruct (class buf) as [w|w| |]; [destruct Hc as [[Hc|Hc] _]|destruct Hc as [Hc ->]|..]; rewrite Hc; try done.
    rewrite decide_True by done. rewrite (to_u16_Ret i) by by apply buffer_u16. dsimpl. rewrite to_u16_Ret by lia. done.
  - dsimpl. apply assert_tt.
    eapply (maps_equal g m _ inactivated_weight); [done|apply (bk_inactivated_weight _ _ _ _ _ HB)|done|done].
Qed.

(** ** The counters *)

Lemma class_of_lookup b buf : bufs !! b = Some buf → class_of bufs b = Some (class buf).
Proof. intros Hb. unfold class_of. by rewrite Hb. Qed.

Lemma check_num_redundant_buffers_passes : check_num_redundant_buffers d = Ret ().
Proof.
  pose proof (d_books _ _ _ Hd) as HB. unfold check_num_redundant_buffers.
  match goal with |- (for_each _ ?body _ ≫= _) = _ =>
    destruct (for_seq_spec (λ k n, n = count (λ b, is_redundant (class_of bufs b)) k) 0 (length bufs) body 0)
      as (n & -> & ->) end; [done| |].
  - intros k n Hk ->. unfold vget. destruct (lookup_lt_is_Some_2 bufs k) as [buf Hb]; [lia|]. rewrite Hb. dsimpl.
    cbn [count]. rewrite class_of_lookup with (buf := buf) by done. cbn [is_redundant]. pose proof (class_state k buf Hb) as Hc.
    pose proof (count_le (λ b, is_redundant (class_of bufs b)) k) as Hle. pose proof (buffer_u16 k ltac:(lia)) as Hu.
    pose proof (bk_u16 _ _ _ _ _ HB) as Hn.
    destruct (class buf) as [w|w| |]; [destruct Hc as [[Hc|Hc] _]|destruct Hc as [Hc _]|..];
      rewrite Hc.
    all: try (rewrite decide_False by done; eexists; split; [done|lia]).
    rewrite decide_True by done. rewrite to_u16_Ret by lia. eexists. split; [done|lia].
  - dsimpl. apply assert_tt. apply (bk_redundant _ _ _ _ _ HB).
Qed.

(** The buffers that are paired with a source symbol. *)
Definition pairs_source (b : nat) : bool :=
  match bufs !! b with
  | Some buf => is_paired buf && bool_decide (Exists (λ j, j < K) (ids buf))
  | None => false
  end.

Lemma pairs_source_lookup b buf :
  bufs !! b = Some buf → pairs_source b = is_paired buf && bool_decide (Exists (λ j, j < K) (ids buf)).
Proof. intros Hb. unfold pairs_source. by rewrite Hb. Qed.

Lemma count_length (P : nat → bool) n : count P n = length (filter (λ b, P b = true) (seq 0 n)).
Proof.
  induction n as [|n IH]; [done|]. rewrite seq_S, filter_app, length_app, <- IH. cbn [count].
  rewrite filter_cons, filter_nil. cbn. destruct (P n); done.
Qed.

Lemma paired_buffer b buf :
  bufs !! b = Some buf → is_paired buf = true → ∃ j, syms !! j = Some (Used b) ∧ ids buf = [j].
Proof.
  intros Hb (_ & Hu & Hlen)%is_paired_spec. apply (t_used _ _ _ _ _ (d_tables _ _ _ Hd) b buf Hb) in Hu as [j Hj].
  exists j. split; [done|]. assert (j ∈ ids buf) as Hin.
  { apply (t_match _ _ _ _ _ (d_tables _ _ _ Hd) b buf j _ Hb Hj). left. left. }
  destruct (ids buf) as [|i [|? ?]]; [done| |done]. by apply list_elem_of_singleton in Hin as ->.
Qed.

(** Counting by buffer and counting by symbol agree. *)
Lemma pairs_counted : count pairs_source (length bufs) = count (paired_at bufs syms) K.
Proof.
  pose proof (d_tables _ _ _ Hd) as HT. set (f := λ b, default 0 (rows bufs !! b ≫= head)).
  assert (∀ b, b ∈ filter (λ b, pairs_source b = true) (seq 0 (length bufs)) →
    syms !! f b = Some (Used b) ∧ f b < K ∧ ∃ buf, bufs !! b = Some buf ∧ ids buf = [f b]) as Hf.
  { intros b [Hb _]%list_elem_of_filter. unfold pairs_source in Hb. destruct (bufs !! b) as [buf|] eqn:Hbuf; [|done].
    apply andb_true_iff in Hb as [Hpair Hk%bool_decide_eq_true]. destruct (paired_buffer b buf Hbuf Hpair) as (j & Hj & Hids).
    assert (f b = j) as -> by (unfold f; by rewrite (rows_lookup _ _ _ Hbuf), Hids).
    rewrite Hids in Hk. apply Exists_cons in Hk as [Hk|Hk%Exists_nil]; [|done]. eauto. }
  rewrite !count_length, <- (length_fmap f). apply Permutation_length, NoDup_Permutation.
  - apply NoDup_fmap_2_strong; [|apply NoDup_filter, NoDup_seq]. intros b b' Hb Hb' He.
    destruct (Hf b Hb) as [H1 _], (Hf b' Hb') as [H2 _]. rewrite He, H2 in H1. by injection H1.
  - apply NoDup_filter, NoDup_seq.
  - intros j. rewrite list_elem_of_fmap, list_elem_of_filter, elem_of_seq. split.
    + intros (b & -> & Hb). destruct (Hf b Hb) as (Hs & Hk & buf & Hbuf & Hids). split; [|lia]. unfold paired_at.
      rewrite Hs, Hbuf, Hids. done.
    + intros [Hpair Hk]. unfold paired_at in Hpair. destruct (syms !! j) as [[| |b]|] eqn:Hs; try done.
      destruct (bufs !! b) as [buf|] eqn:Hbuf; [|done]. apply bool_decide_eq_true in Hpair.
      destruct (used_others _ _ _ _ _ b j buf HT (λ _, eq_refl) Hbuf Hs) as (Hin & _ & Hu & _ & _).
      assert (is_paired buf = true) as Hp'.
      { apply is_paired_spec. split_and!; [by eapply buffer_used_weight|done..]. }
      exists b. assert (b ∈ filter (λ b, pairs_source b = true) (seq 0 (length bufs))) as Hb.
      { apply list_elem_of_filter. split; [|apply elem_of_seq; apply lookup_lt_Some in Hbuf; lia].
        unfold pairs_source. rewrite Hbuf, Hp'. cbn. apply bool_decide_eq_true_2, Exists_exists. exists j. split; [done|lia]. }
      split; [|done]. destruct (Hf b Hb) as (Hs' & _). by apply (t_used_inj _ _ _ _ _ HT j (f b) b).
Qed.

Lemma check_num_source_symbols_paired_passes : check_num_source_symbols_paired d = Ret ().
Proof.
  unfold check_num_source_symbols_paired.
  match goal with |- (for_each _ ?body _ ≫= _) = _ =>
    destruct (for_seq_spec (λ k n, n = count pairs_source k) 0 (length bufs) body 0) as (n & -> & ->) end; [done| |].
  - intros k n Hk ->. destruct (lookup_lt_is_Some_2 bufs k) as [buf Hb]; [lia|]. unfold vget. rewrite Hb. dsimpl.
    cbn [count]. rewrite (pairs_source_lookup k buf Hb). destruct (is_paired buf) eqn:Hpair.
    + destruct (paired_buffer k buf Hb Hpair) as (j & _ & Hids). unfold first_intermediate_symbol_id. rewrite Hids.
      cbn [first expect]. dsimpl. rewrite (d_params _ _ _ Hd). eexists. split; [done|]. cbn [andb].
      case_decide as Hj; [rewrite bool_decide_eq_true_2; [lia|by apply Exists_cons; left]|].
      rewrite bool_decide_eq_false_2; [lia|]. by intros [?|?%Exists_nil]%Exists_cons.
    + eexists. split; [done|]. cbn. lia.
  - dsimpl. apply assert_tt. change (0 + length bufs) with (length bufs). rewrite pairs_counted.
    pose proof (t_paired _ _ _ _ _ (d_tables _ _ _ Hd)) as Hc. cbn in Hc. lia.
Qed.

Lemma check_force_passes : check_force d = Ret ().
Proof.
  unfold check_force. rewrite check_elements_match_passes. dsimpl. rewrite check_used_passes. dsimpl.
  rewrite check_active_usable_passes. dsimpl. rewrite check_inactivated_passes. dsimpl.
  rewrite check_num_redundant_buffers_passes. dsimpl. apply check_num_source_symbols_paired_passes.
Qed.
End decoder_check.

(** C26: The tables of the decoder are well formed.  Whatever symbols are
    transmitted and whenever decoding is tried, the assertions of [check_force]
    on the tables of the decoder and on both of its heaps hold: the two
    representations of the matrix agree, used buffers and symbols match, and the
    weights, maps and counters are those of the matrix. *)
Theorem raptor_tables_well_formed data len p evs :
  0 < len → CodeParameters_new (source_count data len) = Ret (Ok p) → events_ok p evs = true →
  ∃ e md md', Encoder_new data len = Ret (Ok e) ∧
    ManagedDecoder_new (source_count data len) len = Ret (Ok md) ∧
    for_each evs (on_event e) md = Ret md' ∧
    check_force (decoder md') = Ret () ∧
    heap_check_force (buffers_active_usable (decoder md')) = Ret () ∧
    heap_check_force (buffers_inactivated (decoder md')) = Ret ().
Proof.
  intros Hlen Hnew Hev. destruct (block_params data len p Hnew) as [Hp HK]. rewrite <- HK in Hnew |- *.
  destruct (transmission len Hlen p Hp Hnew data evs HK Hev) as (e & md & md' & He & Hmd & Hrun & Hok & _).
  pose proof (so_dec _ _ _ _ (mo_state _ _ _ _ Hok)) as Hd. exists e, md, md'. split_and!; [done..| | |].
  - by apply (check_force_passes p Hp).
  - apply heap_check_passes, (bk_active _ _ _ _ _ (d_books _ _ _ Hd)).
  - apply heap_check_passes, (bk_inactivated _ _ _ _ _ (d_books _ _ _ Hd)).
Qed.

Lemma raptor_tables_well_formed_witness :
  ∃ e md md', Encoder_new sample_data 2 = Ret (Ok e) ∧ ManagedDecoder_new 3 2 = Ret (Ok md) ∧
    for_each sample_events (on_event e) md = Ret md' ∧ check_force (decoder md') = Ret () ∧
    heap_check_force (buffers_active_usable (decoder md')) = Ret () ∧
    heap_check_force (buffers_inactivated (decoder md')) = Ret ().
Proof. apply (raptor_tables_well_formed sample_data 2 sample_params sample_events); [lia|vm_compute; reflexivity..]. Defined.
