(* ===== verification/Raptorcast.v ===== *)
(** * Raptorcast chunks ([src/raptorcast/src/util.rs], [udp.rs])

    The data the parser, the decoding cache and the receiver share: identifiers,
    modes, and the validated chunk. *)
From S2P Require Import Prelude Types Containers Merkle.

(** ** [usize] arithmetic in the release profile *)

Definition usize_modulus : N := u64_MAX + 1.
Definition usize_add (a b : N) : N := (a + b) `mod` usize_modulus.
Definition usize_sub (a b : N) : N := (a + usize_modulus - b `mod` usize_modulus) `mod` usize_modulus.
Definition usize_mul (a b : N) : N := (a * b) `mod` usize_modulus.

Lemma usize_add_exact a b : (a + b ≤ u64_MAX)%N → usize_add a b = (a + b)%N.
Proof. intros. unfold usize_add, usize_modulus. apply N.mod_small. lia. Qed.

Lemma usize_sub_exact a b : (b ≤ a)%N → (a ≤ u64_MAX)%N → usize_sub a b = (a - b)%N.
Proof.
  intros Hb Ha. unfold usize_sub, usize_modulus in *. rewrite (N.mod_small b) by lia.
  replace (a + (u64_MAX + 1) - b)%N with (a - b + 1 * (u64_MAX + 1))%N by lia.
  rewrite N.Div0.mod_add. apply N.mod_small. lia.
Qed.

(** ** Identifiers *)

Inductive GroupId :=
| GroupPrimary (epoch : Epoch)
| GroupSecondary (round : Round).

Inductive ChunkVersion := V0 | V1.

Inductive EncodingScheme :=
| EncodingUnspecified
| Deterministic25 (round : Round).

Inductive BroadcastMode :=
| BroadcastPrimary
| BroadcastSecondary
| BroadcastUnspecified.

#[global] Instance GroupId_eq_dec : EqDecision GroupId.
Proof. solve_decision. Defined.
#[global] Instance ChunkVersion_eq_dec : EqDecision ChunkVersion.
Proof. solve_decision. Defined.
#[global] Instance EncodingScheme_eq_dec : EqDecision EncodingScheme.
Proof. solve_decision. Defined.
#[global] Instance BroadcastMode_eq_dec : EqDecision BroadcastMode.
Proof. solve_decision. Defined.

Abbreviation NodeIdHash := (list N).
Abbreviation AppMessageHash := (list N).
Abbreviation MerkleRoot := (list N).

(** The bytes of a public key. *)
Class KeyBytes (PT : Type) := pubkey_bytes : PT → list N.

Section hashes.
Context `{!ByteHasher}.

Definition compute_full_hash (bytes : list N) : Hash := hash_bytes bytes.

Definition compute_hash {PT} `{!KeyBytes PT} (id : PT) : NodeIdHash :=
  take 20 (compute_full_hash (pubkey_bytes id)).

Definition compute_app_message_hash (app_msg : list N) : AppMessageHash :=
  take 20 (compute_full_hash app_msg).
End hashes.

(** ** Validated chunks *)

Record ValidatedChunk (PT : Type) := {
  vc_chunk : list N;
  vc_message : list N;
  vc_signature : list N;
  vc_author : PT;
  vc_group_id : GroupId;
  vc_unix_ts_ms : N;
  vc_app_message_hash : option AppMessageHash;
  vc_merkle_root : MerkleRoot;
  vc_app_message_len : N;
  vc_version : ChunkVersion;
  vc_encoding_scheme : EncodingScheme;
  vc_broadcast_mode : BroadcastMode;
  vc_recipient_hash : option NodeIdHash;
  vc_chunk_id : nat;
  vc_num_source_symbols : nat;
  vc_encoded_symbol_capacity : nat;
}.

Arguments Build_ValidatedChunk {PT} _ _ _ _ _ _ _ _ _ _ _ _ _ _ _ _.
Arguments vc_chunk {PT} _.
Arguments vc_message {PT} _.
Arguments vc_signature {PT} _.
Arguments vc_author {PT} _.
Arguments vc_group_id {PT} _.
Arguments vc_unix_ts_ms {PT} _.
Arguments vc_app_message_hash {PT} _.
Arguments vc_merkle_root {PT} _.
Arguments vc_app_message_len {PT} _.
Arguments vc_version {PT} _.
Arguments vc_encoding_scheme {PT} _.
Arguments vc_broadcast_mode {PT} _.
Arguments vc_recipient_hash {PT} _.
Arguments vc_chunk_id {PT} _.
Arguments vc_num_source_symbols {PT} _.
Arguments vc_encoded_symbol_capacity {PT} _.

Definition global_merkle_root {PT} (self : ValidatedChunk PT) : option MerkleRoot :=
  match vc_encoding_scheme self with
  | Deterministic25 _ => Some (vc_merkle_root self)
  | EncodingUnspecified => None
  end.

Definition check_message_hash `{!ByteHasher} {PT} (self : ValidatedChunk PT) (app_message : list N) :
    option bool :=
  match vc_app_message_hash self with
  | Some expected => Some (bool_decide (expected = compute_app_message_hash app_message))
  | None => None
  end.
