(* ===== verification/DecoderCache.v ===== *)
(** * The decoding cache ([src/raptorcast/src/decoding.rs])

    Chunks of many messages arrive interleaved; each unfinished message has a
    decoder in one of three tiers of bounded caches, and a finished one is
    remembered for a while so that late chunks are recognised.  A tier bounds its
    slots and its total size and evicts by author quota, by age, and at random.

    Instants are nanoseconds.  The random generator, the maps of third-party
    crates and the iteration order of hash maps are class arguments.  Floating
    point numbers are those of [SpecFloat]. *)
From Stdlib Require Import SpecFloat.
From S2P Require Import Prelude Types ValidatorSet Certificates Containers Merkle RaptorEncoder Raptorcast.

(** ** Floating point *)

Definition f32_from (n : N) : spec_float := binary_normalize 24 128 (Z.of_N n) 0 false.
Definition f32_mul : spec_float → spec_float → spec_float := SFmul 24 128.
Definition f64_from (n : N) : spec_float := binary_normalize 53 1024 (Z.of_N n) 0 false.
Definition f64_mul : spec_float → spec_float → spec_float := SFmul 53 1024.
Definition f64_div : spec_float → spec_float → spec_float := SFdiv 53 1024.

(** [x.ceil() as usize]: the cast saturates. *)
Definition f64_ceil_as_usize (x : spec_float) : N :=
  match x with
  | S754_finite false m e =>
      let n := if decide (0 ≤ e)%Z then Z.shiftl (Zpos m) e
               else (- (Z.shiftr (- Zpos m) (- e)))%Z in
      (Z.to_N n `min` u64_MAX)%N
  | S754_infinity false => u64_MAX
  | _ => 0%N
  end.

(** [f64::from(U256)] *)
Class U256Float := u256_to_f64 : N → spec_float.

(** ** Configuration *)

Definition RECENTLY_DECODED_CACHE_SIZE : N := 10000.

Record SoftQuotaCacheConfig := {
  cfg_total_slots : N;
  min_slots_per_author : N;
  max_total_size_per_author : N;
  min_slots_per_validator : option N;
  max_total_size_per_validator : option N;
}.

Definition BROADCAST_TIER_CONFIG : SoftQuotaCacheConfig := {|
  cfg_total_slots := 1000; min_slots_per_author := 5; max_total_size_per_author := 5 * 4 * 1024 * 1024;
  min_slots_per_validator := None; max_total_size_per_validator := None |}.

Definition VALIDATOR_TIER_CONFIG : SoftQuotaCacheConfig := {|
  cfg_total_slots := 600; min_slots_per_author := 3; max_total_size_per_author := 1024 * 1024;
  min_slots_per_validator := None; max_total_size_per_validator := None |}.

Definition P2P_TIER_CONFIG : SoftQuotaCacheConfig := {|
  cfg_total_slots := 500; min_slots_per_author := 1; max_total_size_per_author := 1024 * 1024;
  min_slots_per_validator := None; max_total_size_per_validator := None |}.

Definition MAX_TOTAL_SIZE_LIMIT : N := 20 * 1024 * 1024 * 1024.

Record DecoderCacheConfig := {
  recently_decoded_cache_size : N;
  broadcast_tier : SoftQuotaCacheConfig;
  validator_tier : SoftQuotaCacheConfig;
  p2p_tier : SoftQuotaCacheConfig;
}.

Definition DecoderCacheConfig_default : DecoderCacheConfig := {|
  recently_decoded_cache_size := RECENTLY_DECODED_CACHE_SIZE; broadcast_tier := BROADCAST_TIER_CONFIG;
  validator_tier := VALIDATOR_TIER_CONFIG; p2p_tier := P2P_TIER_CONFIG |}.

Record PruneConfig := {
  max_unix_ts_ms_delta : option N;
  pruning_min_ratio : spec_float;
  pruning_cooldown : N;
}.

(** ** Cache keys *)

Inductive MessageIdentifier :=
| IdAppMessageHash (hash : AppMessageHash)
| IdGlobalMerkleRoot (root : MerkleRoot).

#[global] Instance MessageIdentifier_eq_dec : EqDecision MessageIdentifier.
Proof. solve_decision. Defined.

Record CacheKey := {
  author_hash : NodeIdHash;
  message_id : MessageIdentifier;
  key_unix_ts_ms : N;
}.

#[global] Instance CacheKey_eq_dec : EqDecision CacheKey.
Proof. solve_decision. Defined.

(** The fields in order, an enum as its tag and payload. *)
Definition key_tuple (k : CacheKey) : list N * ((N * list N) * N) :=
  (author_hash k,
   (match message_id k with IdAppMessageHash h => (0%N, h) | IdGlobalMerkleRoot r => (1%N, r) end,
    key_unix_ts_ms k)).

#[global] Instance key_tuple_inj : Inj (=) (=) key_tuple.
Proof. intros [a [h|h] t] [a' [h'|h'] t']; unfold key_tuple; cbn; naive_solver. Qed.

#[global] Instance CacheKey_countable : Countable CacheKey.
Proof.
  refine (inj_countable key_tuple
    (λ '(a, ((tag, h), t)), Some {| author_hash := a;
       message_id := if decide (tag = 0%N) then IdAppMessageHash h else IdGlobalMerkleRoot h;
       key_unix_ts_ms := t |}) _).
  by intros [a [h|h] t].
Defined.

#[global] Instance CacheKey_OrdKey : OrdKey CacheKey := inj_OrdKey key_tuple key_tuple_inj.

Record Quota := { max_size : N; max_slots : N }.

(** ** The index of one author *)

Record PrunedKeys := { pruned_keys : list CacheKey; reclaimed_size : N }.

Definition PrunedKeys_empty : PrunedKeys := {| pruned_keys := []; reclaimed_size := 0 |}.

Definition PrunedKeys_singleton (key : CacheKey) (size : N) : PrunedKeys :=
  {| pruned_keys := [key]; reclaimed_size := size |}.

Definition PrunedKeys_extend (self other : PrunedKeys) : PrunedKeys :=
  {| pruned_keys := pruned_keys self ++ pruned_keys other;
     reclaimed_size := usize_add (reclaimed_size self) (reclaimed_size other) |}.

Record PerAuthorIndex := {
  pi_quota : Quota;
  pi_total_size : N;
  time_index : gset (N * CacheKey);
  reverse_index : gmap CacheKey (N * N);
}.

Definition PerAuthorIndex_new (quota : Quota) : PerAuthorIndex :=
  {| pi_quota := quota; pi_total_size := 0; time_index := ∅; reverse_index := ∅ |}.

Definition pi_len (self : PerAuthorIndex) : N := N.of_nat (size (reverse_index self)).

Definition pi_is_overquota (self : PerAuthorIndex) : bool :=
  bool_decide (max_slots (pi_quota self) < pi_len self)%N ||
  bool_decide (max_size (pi_quota self) < pi_total_size self)%N.

Definition pi_is_empty (self : PerAuthorIndex) : bool := bool_decide (reverse_index self = ∅).

Definition pi_remove (self : PerAuthorIndex) (key : CacheKey) : PrunedKeys * PerAuthorIndex :=
  match reverse_index self !! key with
  | None => (PrunedKeys_empty, self)
  | Some (unix_ts_ms, size) =>
      (PrunedKeys_singleton key size,
       {| pi_quota := pi_quota self; pi_total_size := usize_sub (pi_total_size self) size;
          time_index := time_index self ∖ {[(unix_ts_ms, key)]};
          reverse_index := delete key (reverse_index self) |})
  end.

Fixpoint pi_remove_many_from (keys : list CacheKey) (pruned : PrunedKeys) (self : PerAuthorIndex) :
    PrunedKeys * PerAuthorIndex :=
  match keys with
  | [] => (pruned, self)
  | key :: keys =>
      let '(p, self) := pi_remove self key in
      pi_remove_many_from keys (PrunedKeys_extend pruned p) self
  end.

Definition pi_remove_many (self : PerAuthorIndex) (keys : list CacheKey) : PrunedKeys * PerAuthorIndex :=
  pi_remove_many_from keys PrunedKeys_empty self.

Definition filter_oldest (self : PerAuthorIndex) (count : nat) : list CacheKey :=
  (take count (bset_iter (time_index self))).*2.

Definition pi_insert (self : PerAuthorIndex) (cache_key : CacheKey) (unix_ts_ms size : N) : PerAuthorIndex :=
  {| pi_quota := pi_quota self; pi_total_size := usize_add (pi_total_size self) size;
     time_index := {[(unix_ts_ms, cache_key)]} ∪ time_index self;
     reverse_index := <[cache_key := (unix_ts_ms, size)]> (reverse_index self) |}.

(** The loop over the time index, which breaks at the threshold. *)
Fixpoint keys_before (threshold : N) (l : list (N * CacheKey)) : list CacheKey :=
  match l with
  | [] => []
  | (unix_ts, key) :: l =>
      if decide (threshold ≤ unix_ts)%N then [] else key :: keys_before threshold l
  end.

Definition prune_by_time (self : PerAuthorIndex) (threshold : N) : PrunedKeys * PerAuthorIndex :=
  pi_remove_many self (keys_before threshold (bset_iter (time_index self))).

Definition prune_by_slots (self : PerAuthorIndex) (target_len : N) : PrunedKeys * PerAuthorIndex :=
  let slots_to_free_up := (pi_len self - target_len)%N in
  if decide (slots_to_free_up = 0%N) then (PrunedKeys_empty, self)
  else pi_remove_many self (filter_oldest self (N.to_nat slots_to_free_up)).

(** Every turn removes an entry. *)
Fixpoint prune_by_size_loop (fuel : nat) (target_size : N) (pruned : PrunedKeys) (self : PerAuthorIndex) :
    run (PrunedKeys * PerAuthorIndex) :=
  if decide (target_size < pi_total_size self)%N then
    match fuel with
    | 0 => Panic
    | S fuel =>
        '(_, key) ← expect (bset_first (time_index self));
        let '(p, self) := pi_remove self key in
        prune_by_size_loop fuel target_size (PrunedKeys_extend pruned p) self
    end
  else Ret (pruned, self).

Definition prune_by_size (self : PerAuthorIndex) (target_size : N) : run (PrunedKeys * PerAuthorIndex) :=
  prune_by_size_loop (S (size (reverse_index self))) target_size PrunedKeys_empty self.

Definition prune_expired (self : PerAuthorIndex) (unix_ts_threshold : option N) :
    PrunedKeys * PerAuthorIndex :=
  match unix_ts_threshold with
  | None => (PrunedKeys_empty, self)
  | Some threshold =>
      let '(p, self) := prune_by_time self threshold in
      (PrunedKeys_extend PrunedKeys_empty p, self)
  end.

Definition compact (self : PerAuthorIndex) : run (PrunedKeys * PerAuthorIndex) :=
  if pi_is_overquota self then
    let '(p1, self) := prune_by_slots self (max_slots (pi_quota self)) in
    let evicted_keys := PrunedKeys_extend PrunedKeys_empty p1 in
    '(p2, self) ← prune_by_size self (max_size (pi_quota self));
    Ret (PrunedKeys_extend evicted_keys p2, self)
  else Ret (PrunedKeys_empty, self).

(** [consistency_breaches] of the tests is empty. *)
Definition pi_consistent `{!HashIter} (self : PerAuthorIndex) : bool :=
  bool_decide (size (time_index self) = size (reverse_index self)) &&
  forallb (λ '(key, (unix_ts, _)), bool_decide ((unix_ts, key) ∈ time_index self))
    (hash_iter (reverse_index self)) &&
  bool_decide (foldl (λ total_size '(_, (_, size)), usize_sub total_size size) (pi_total_size self)
    (hash_iter (reverse_index self)) = 0%N).

(** ** The index of all authors *)

(** The iteration order of a [HashSet] is that of its map. *)
Definition hash_set_iter `{!HashIter} {K} `{Countable K} (s : gset K) : list K :=
  (hash_iter (gset_to_gmap () s)).*1.

(** The readings of [Instant::now] by one call. *)
Record Clock := { instant_now : N; instant_later : N }.

Section author_index.
Context {PT : Type} `{!PubKey PT, !HashIter}.

Record DecodingContext := {
  validator_set : option (ValidatorSet PT);
  unix_ts_now : N;
}.

Definition validator_set_size (self : DecodingContext) : option nat :=
  (λ set, size (get_members set)) <$> validator_set self.

Record AuthorIndex := {
  prune_config : PruneConfig;
  ai_total_size : N;
  per_author_index : gmap PT PerAuthorIndex;
  overquota_authors : gset PT;
  pruning_cooldown_until : option N;
}.

Definition AuthorIndex_new (prune_config : PruneConfig) : AuthorIndex :=
  {| prune_config := prune_config; ai_total_size := 0; per_author_index := ∅; overquota_authors := ∅;
     pruning_cooldown_until := None |}.

Definition with_index (self : AuthorIndex) (index : gmap PT PerAuthorIndex) (overquota : gset PT) :
    AuthorIndex :=
  {| prune_config := prune_config self; ai_total_size := ai_total_size self; per_author_index := index;
     overquota_authors := overquota; pruning_cooldown_until := pruning_cooldown_until self |}.

Definition with_total_size (self : AuthorIndex) (total_size : N) : AuthorIndex :=
  {| prune_config := prune_config self; ai_total_size := total_size;
     per_author_index := per_author_index self; overquota_authors := overquota_authors self;
     pruning_cooldown_until := pruning_cooldown_until self |}.

Definition is_author_overquota (self : AuthorIndex) (author : PT) : bool :=
  bool_decide (author ∈ overquota_authors self).

Definition ai_insert_unchecked (self : AuthorIndex) (author : PT) (cache_key : CacheKey)
    (message : ValidatedChunk PT) (quota : Quota) : AuthorIndex :=
  let index := default (PerAuthorIndex_new quota) (per_author_index self !! author) in
  let message_size := vc_app_message_len message in
  let index := pi_insert index cache_key (vc_unix_ts_ms message) message_size in
  with_total_size
    (with_index self (<[author := index]> (per_author_index self))
       (if pi_is_overquota index then {[author]} ∪ overquota_authors self
        else overquota_authors self ∖ {[author]}))
    (usize_add (ai_total_size self) message_size).

Definition reap_pruned (self : AuthorIndex) (pruned : PrunedKeys) : list CacheKey * AuthorIndex :=
  (pruned_keys pruned, with_total_size self (usize_sub (ai_total_size self) (reclaimed_size pruned))).

Definition unix_ts_threshold (self : AuthorIndex) (context : DecodingContext) : option N :=
  delta ← max_unix_ts_ms_delta (prune_config self); u64_checked_sub (unix_ts_now context) delta.

Definition enforce_quota (self : AuthorIndex) (author : PT) (context : DecodingContext) :
    run (list CacheKey * AuthorIndex) :=
  match per_author_index self !! author with
  | None => Ret ([], self)
  | Some author_index =>
      if pi_is_overquota author_index then
        let '(expired_keys, author_index) := prune_expired author_index (unix_ts_threshold self context) in
        let evicted_keys := PrunedKeys_extend PrunedKeys_empty expired_keys in
        '(evicted_keys, author_index) ←
          (if pi_is_overquota author_index then
             '(p, author_index) ← compact author_index;
             Ret (PrunedKeys_extend evicted_keys p, author_index)
           else Ret (evicted_keys, author_index));
        Ret (reap_pruned
          (with_index self
             (if pi_is_empty author_index then delete author (per_author_index self)
              else <[author := author_index]> (per_author_index self))
             (overquota_authors self ∖ {[author]}))
          evicted_keys)
      else Ret ([], with_index self (per_author_index self) (overquota_authors self ∖ {[author]}))
  end.

Fixpoint enforce_quota_from (authors : list PT) (context : DecodingContext) (evicted_keys : list CacheKey)
    (self : AuthorIndex) : run (list CacheKey * AuthorIndex) :=
  match authors with
  | [] => Ret (evicted_keys, self)
  | author :: authors =>
      '(evicted, self) ← enforce_quota self author context;
      enforce_quota_from authors context (evicted_keys ++ evicted) self
  end.

Definition enforce_quota_all (self : AuthorIndex) (context : DecodingContext) :
    run (list CacheKey * AuthorIndex) :=
  enforce_quota_from (hash_set_iter (overquota_authors self)) context [] self.

(** The loop of [prune_expired_all]: each index is updated in place. *)
Fixpoint prune_expired_from (l : list (PT * PerAuthorIndex)) (threshold : option N)
    (authors_to_drop : list PT) (total_slots : N) (pruned : PrunedKeys)
    (index : gmap PT PerAuthorIndex) (overquota : gset PT) :
    list PT * N * PrunedKeys * gmap PT PerAuthorIndex * gset PT :=
  match l with
  | [] => (authors_to_drop, total_slots, pruned, index, overquota)
  | (author, author_index) :: l =>
      let total_slots := usize_add total_slots (pi_len author_index) in
      let '(p, author_index) := prune_expired author_index threshold in
      prune_expired_from l threshold
        (if pi_is_empty author_index then authors_to_drop ++ [author] else authors_to_drop)
        total_slots (PrunedKeys_extend pruned p) (<[author := author_index]> index)
        (if pi_is_overquota author_index then overquota else overquota ∖ {[author]})
  end.

Definition prune_expired_all (self : AuthorIndex) (context : DecodingContext) (clock : Clock) :
    list CacheKey * AuthorIndex :=
  if match pruning_cooldown_until self with
     | Some until => bool_decide (instant_now clock < until)%N
     | None => false
     end
  then ([], self)
  else
    let '(authors_to_drop, total_slots, pruned, index, overquota) :=
      prune_expired_from (hash_iter (per_author_index self)) (unix_ts_threshold self context)
        [] 0 PrunedKeys_empty (per_author_index self) (overquota_authors self) in
    let index := foldl (λ m author, delete author m) index authors_to_drop in
    let '(expired_keys, self) := reap_pruned (with_index self index overquota) pruned in
    let expected_pruning_count := f32_mul (f32_from total_slots) (pruning_min_ratio (prune_config self)) in
    (expired_keys,
     if SFltb (f32_from (N.of_nat (length expired_keys))) expected_pruning_count then
       {| prune_config := prune_config self; ai_total_size := ai_total_size self;
          per_author_index := per_author_index self; overquota_authors := overquota_authors self;
          pruning_cooldown_until := Some (instant_later clock + pruning_cooldown (prune_config self))%N |}
     else self).

Definition ai_remove (self : AuthorIndex) (author : PT) (key : CacheKey) : AuthorIndex :=
  match per_author_index self !! author with
  | None => self
  | Some author_index =>
      let '(evicted_key, author_index) := pi_remove author_index key in
      let self :=
        if pi_is_overquota author_index then
          with_index self (<[author := author_index]> (per_author_index self)) (overquota_authors self)
        else
          with_index self
            (if pi_is_empty author_index then delete author (per_author_index self)
             else <[author := author_index]> (per_author_index self))
            (overquota_authors self ∖ {[author]}) in
      (reap_pruned self evicted_key).2
  end.

Definition ai_consistent (self : AuthorIndex) : bool :=
  forallb (λ author, bool_decide (is_Some (per_author_index self !! author)))
    (hash_set_iter (overquota_authors self)) &&
  forallb (λ '(author, author_index),
      negb (pi_is_empty author_index) &&
      bool_decide (pi_is_overquota author_index = true ↔ author ∈ overquota_authors self) &&
      pi_consistent author_index)
    (hash_iter (per_author_index self)) &&
  bool_decide (foldl (λ total_size '(_, author_index), usize_sub total_size (pi_total_size author_index))
    (ai_total_size self) (hash_iter (per_author_index self)) = 0%N).
End author_index.

Arguments DecodingContext PT {_}.
Arguments AuthorIndex PT {_}.

(** ** Decoder states *)

Inductive InvalidSymbol :=
| InvalidSymbolLength (expected_len received_len : nat)
| InvalidSymbolId (encoded_symbol_capacity encoding_symbol_id : nat)
| InvalidAppMessageLength (expected_len received_len : N)
| DuplicateSymbol (encoding_symbol_id : nat)
| InvalidDecoderParameter.

Inductive TryDecodeError :=
| ErrInvalidSymbol (err : InvalidSymbol)
| UnableToReconstructSourceData
| MessageTainted.

Record DecoderState := {
  ds_decoder : ManagedDecoder;
  ds_app_message_len : N;
  ds_seen_esis : list bool;
}.

Record RecentlyDecodedState := {
  rd_symbol_len : nat;
  rd_app_message_len : N;
  rd_seen_esis : list bool;
  excess_chunk_count : N;
  message_tainted : bool;
}.

(** Indexing a bit vector panics out of range. *)
Definition bit_get (bits : list bool) (i : nat) : run bool := expect (bits !! i).

Definition bit_set (bits : list bool) (i : nat) (b : bool) : run (list bool) :=
  assert (i < length bits) ≫= λ _, Ret (<[i := b]> bits).

Section decoder_cache.
Context {PT : Type} `{!PubKey PT, !KeyBytes PT, !ByteHasher, !HashIter, !IndexMapOps, !PoolRng, !U256Float}.
Context `{!LruMap CacheKey RecentlyDecodedState}.

Definition validate_symbol (chunk : ValidatedChunk PT) (symbol_len : nat) (app_message_len : N)
    (seen_esis : list bool) : run (result () InvalidSymbol) :=
  let encoding_symbol_id := vc_chunk_id chunk in
  if decide (symbol_len ≠ length (vc_chunk chunk)) then
    Ret (Err (InvalidSymbolLength symbol_len (length (vc_chunk chunk))))
  else if decide (length seen_esis ≤ encoding_symbol_id) then
    Ret (Err (InvalidSymbolId (length seen_esis) encoding_symbol_id))
  else if decide (vc_app_message_len chunk ≠ app_message_len) then
    Ret (Err (InvalidAppMessageLength app_message_len (vc_app_message_len chunk)))
  else
    seen ← bit_get seen_esis encoding_symbol_id;
    if seen : bool then Ret (Err (DuplicateSymbol encoding_symbol_id)) else Ret (Ok ()).

Definition ds_handle_message (self : DecoderState) (message : ValidatedChunk PT) :
    run (result DecoderState InvalidSymbol) :=
  _ ←? validate_symbol message (md_symbol_len (ds_decoder self)) (ds_app_message_len self) (ds_seen_esis self);
  let symbol_id := vc_chunk_id message in
  seen_esis ← bit_set (ds_seen_esis self) symbol_id true;
  decoder ← md_received_encoded_symbol (ds_decoder self) (vc_chunk message) symbol_id;
  Ret (Ok {| ds_decoder := decoder; ds_app_message_len := ds_app_message_len self;
             ds_seen_esis := seen_esis |}).

Definition from_initial_message (message : ValidatedChunk PT) : run (result DecoderState InvalidSymbol) :=
  let symbol_len := length (vc_chunk message) in
  o ← ManagedDecoder_new (vc_num_source_symbols message) symbol_len;
  match o with
  | Err _ => Ret (Err InvalidDecoderParameter)
  | Ok decoder =>
      ds_handle_message
        {| ds_decoder := decoder; ds_app_message_len := vc_app_message_len message;
           ds_seen_esis := replicate (vc_encoded_symbol_capacity message) false |} message
  end.

Definition rd_handle_message (self : RecentlyDecodedState) (message : ValidatedChunk PT) :
    run (result RecentlyDecodedState TryDecodeError) :=
  if message_tainted self then Ret (Err MessageTainted)
  else
    r ← validate_symbol message (rd_symbol_len self) (rd_app_message_len self) (rd_seen_esis self);
    match r with
    | Err err => Ret (Err (ErrInvalidSymbol err))
    | Ok _ =>
        seen_esis ← bit_set (rd_seen_esis self) (vc_chunk_id message) true;
        Ret (Ok {| rd_symbol_len := rd_symbol_len self; rd_app_message_len := rd_app_message_len self;
                   rd_seen_esis := seen_esis;
                   excess_chunk_count := usize_add (excess_chunk_count self) 1;
                   message_tainted := false |})
    end.

Definition rd_mark_tainted (self : RecentlyDecodedState) : RecentlyDecodedState :=
  {| rd_symbol_len := rd_symbol_len self; rd_app_message_len := rd_app_message_len self;
     rd_seen_esis := rd_seen_esis self; excess_chunk_count := excess_chunk_count self;
     message_tainted := true |}.

Definition RecentlyDecodedState_from (decoder_state : DecoderState) : RecentlyDecodedState :=
  {| rd_symbol_len := md_symbol_len (ds_decoder decoder_state);
     rd_app_message_len := ds_app_message_len decoder_state; rd_seen_esis := ds_seen_esis decoder_state;
     excess_chunk_count := 0; message_tainted := false |}.

(** ** Quota policies *)

Inductive QuotaPolicy :=
| FixedQuota (quota : Quota)
| QuotaByStake (validator_min_slots non_validator_slots validator_max_size non_validator_max_size : N).

Definition Stake_div (self rhs : Stake) : spec_float := f64_div (u256_to_f64 self) (u256_to_f64 rhs).

Definition Stake_checked_div (self divisor : Stake) : option spec_float :=
  if decide (divisor = 0%N) then None else Some (Stake_div self divisor).

Definition calc_quota (self : QuotaPolicy) (message : ValidatedChunk PT) (context : DecodingContext PT)
    (total_slots : N) : Quota :=
  match self with
  | FixedQuota q => {| max_size := max_size q; max_slots := (max_slots q `min` total_slots)%N |}
  | QuotaByStake validator_min_slots non_validator_slots validator_max_size non_validator_max_size =>
      let non_validator :=
        {| max_size := non_validator_max_size; max_slots := (non_validator_slots `min` total_slots)%N |} in
      match validator_set context with
      | None => non_validator
      | Some set =>
          match get_members set !! vc_author message with
          | None => non_validator
          | Some stake =>
              let stake_fraction :=
                default (S754_zero false) (Stake_checked_div stake (get_total_stake set)) in
              let calculated_slots := f64_ceil_as_usize (f64_mul stake_fraction (f64_from total_slots)) in
              {| max_size := validator_max_size;
                 max_slots := ((calculated_slots `max` validator_min_slots) `min` total_slots)%N |}
          end
      end
  end.

Definition quota_policy_from_config (config : SoftQuotaCacheConfig) : QuotaPolicy :=
  match min_slots_per_validator config, max_total_size_per_validator config with
  | Some min_slots, Some max_size =>
      QuotaByStake min_slots (min_slots_per_author config) max_size (max_total_size_per_author config)
  | Some min_slots, None =>
      QuotaByStake min_slots (min_slots_per_author config) (max_total_size_per_author config)
        (max_total_size_per_author config)
  | None, Some max_size =>
      QuotaByStake (min_slots_per_author config) (min_slots_per_author config) max_size
        (max_total_size_per_author config)
  | None, None =>
      FixedQuota {| max_size := max_total_size_per_author config;
                    max_slots := min_slots_per_author config |}
  end.

(** ** A cache tier *)

Abbreviation cache_entry := (CacheKey * (PT * DecoderState))%type.

Record SoftQuotaCache := {
  sc_total_slots : N;
  sc_max_total_size : N;
  cache_store : list cache_entry;
  author_index : AuthorIndex PT;
  quota_policy : QuotaPolicy;
}.

Definition with_parts (self : SoftQuotaCache) (store : list cache_entry) (index : AuthorIndex PT) :
    SoftQuotaCache :=
  {| sc_total_slots := sc_total_slots self; sc_max_total_size := sc_max_total_size self;
     cache_store := store; author_index := index; quota_policy := quota_policy self |}.

(** [CacheStore::new] asserts that there are slots. *)
Definition CacheStore_new (max_size : N) : run (list cache_entry) :=
  assert (0 < max_size)%N ≫= λ _, Ret [].

Definition SoftQuotaCache_new (config : SoftQuotaCacheConfig) (prune_config : PruneConfig) :
    run SoftQuotaCache :=
  assert (min_slots_per_author config ≠ 0%N) ≫= λ _,
  let approx_num_authors := ((cfg_total_slots config / min_slots_per_author config) `max` 1)%N in
  let max_total_size := usize_mul (max_total_size_per_author config) approx_num_authors in
  assert (max_total_size ≤ MAX_TOTAL_SIZE_LIMIT)%N ≫= λ _,
  store ← CacheStore_new (cfg_total_slots config);
  Ret {| sc_total_slots := cfg_total_slots config; sc_max_total_size := max_total_size;
         cache_store := store; author_index := AuthorIndex_new prune_config;
         quota_policy := quota_policy_from_config config |}.

(** [CacheStore::remove] *)
Definition store_remove (store : list cache_entry) (key : CacheKey) : list cache_entry :=
  match im_swap_remove store key with Some (_, store) => store | None => store end.

Definition store_remove_many (store : list cache_entry) (keys : list CacheKey) : list cache_entry :=
  foldl store_remove store keys.

Definition get_random (store : list cache_entry) (rng : pool_rng) :
    run (option cache_entry * pool_rng) :=
  if decide (store = []) then Ret (None, rng)
  else
    let '(random_index, rng) := gen_range (length store) rng in
    entry ← expect (store !! random_index);
    Ret (Some entry, rng).

Definition is_full (self : SoftQuotaCache) : bool :=
  bool_decide (sc_total_slots self < N.of_nat (length (cache_store self)))%N ||
  bool_decide (sc_max_total_size self < ai_total_size (author_index self))%N.

Definition insert_unchecked (self : SoftQuotaCache) (cache_key : CacheKey) (message : ValidatedChunk PT)
    (decoder_state : DecoderState) (quota : Quota) : SoftQuotaCache :=
  with_parts self (im_set (cache_store self) cache_key (vc_author message, decoder_state))
    (ai_insert_unchecked (author_index self) (vc_author message) cache_key message quota).

(** Stage 4 of the eviction: every turn removes an entry. *)
Fixpoint evict_random (fuel : nat) (self : SoftQuotaCache) (rng : pool_rng) :
    run (SoftQuotaCache * pool_rng) :=
  if is_full self then
    match fuel with
    | 0 => Panic
    | S fuel =>
        '(entry, rng) ← get_random (cache_store self) rng;
        match entry with
        | None => Ret (self, rng)
        | Some (key, (author, _)) =>
            evict_random fuel
              (with_parts self (store_remove (cache_store self) key)
                 (ai_remove (author_index self) author key)) rng
        end
    end
  else Ret (self, rng).

(** Stages 3 and 4. *)
Definition evict_expired (self : SoftQuotaCache) (context : DecodingContext PT) (clock : Clock)
    (rng : pool_rng) : run (SoftQuotaCache * pool_rng) :=
  let '(expired_keys, index) := prune_expired_all (author_index self) context clock in
  let self := with_parts self (store_remove_many (cache_store self) expired_keys) index in
  if negb (bool_decide (expired_keys = [])) && negb (is_full self) then Ret (self, rng)
  else evict_random (S (length (cache_store self))) self rng.

(** Stages 2 to 4. *)
Definition evict_overquota_all (self : SoftQuotaCache) (context : DecodingContext PT) (clock : Clock)
    (rng : pool_rng) : run (SoftQuotaCache * pool_rng) :=
  '(evicted_keys, index) ← enforce_quota_all (author_index self) context;
  let self := with_parts self (store_remove_many (cache_store self) evicted_keys) index in
  if negb (bool_decide (evicted_keys = [])) && negb (is_full self) then Ret (self, rng)
  else evict_expired self context clock rng.

(** [SoftQuotaCache::insert] *)
Definition cache_insert (self : SoftQuotaCache) (cache_key : CacheKey) (message : ValidatedChunk PT)
    (decoder_state : DecoderState) (context : DecodingContext PT) (clock : Clock) (rng : pool_rng) :
    run (SoftQuotaCache * pool_rng) :=
  let quota := calc_quota (quota_policy self) message context (sc_total_slots self) in
  let self := insert_unchecked self cache_key message decoder_state quota in
  if negb (is_full self) then Ret (self, rng)
  else if is_author_overquota (author_index self) (vc_author message) then
    '(evicted_keys, index) ← enforce_quota (author_index self) (vc_author message) context;
    let self := with_parts self
      (if bool_decide (evicted_keys = []) then cache_store self
       else store_remove_many (cache_store self) evicted_keys) index in
    if negb (is_full self) then Ret (self, rng)
    else evict_overquota_all self context clock rng
  else evict_overquota_all self context clock rng.

Definition cache_remove (self : SoftQuotaCache) (key : CacheKey) :
    option (PT * DecoderState) * SoftQuotaCache :=
  match im_swap_remove (cache_store self) key with
  | None => (None, self)
  | Some ((author, decoder_state), store) =>
      (Some (author, decoder_state), with_parts self store (ai_remove (author_index self) author key))
  end.

Definition cache_get (self : SoftQuotaCache) (key : CacheKey) : option (PT * DecoderState) :=
  im_get (cache_store self) key.

(** A write through the reference of [get_mut]. *)
Definition cache_update (self : SoftQuotaCache) (key : CacheKey) (author : PT) (decoder_state : DecoderState) :
    SoftQuotaCache :=
  with_parts self (im_set (cache_store self) key (author, decoder_state)) (author_index self).

(** The keys of all authors, as the tests collect them. *)
Definition index_keys (self : SoftQuotaCache) : gset CacheKey :=
  list_to_set (concat ((λ '(_, index), (hash_iter (reverse_index index)).*1) <$>
    hash_iter (per_author_index (author_index self)))).

Definition consistent (self : SoftQuotaCache) : bool :=
  bool_decide (N.of_nat (length (cache_store self)) ≤ sc_total_slots self)%N &&
  bool_decide (ai_total_size (author_index self) ≤ sc_max_total_size self)%N &&
  bool_decide (list_to_set ((λ '(_, (author, _)), author) <$> cache_store self) =@{gset PT}
    list_to_set (hash_iter (per_author_index (author_index self))).*1) &&
  bool_decide (list_to_set (cache_store self).*1 =@{gset CacheKey} index_keys self) &&
  ai_consistent (author_index self).

(** ** The tiers *)

Inductive MessageTier := TierBroadcast | TierValidator | TierP2P.

Definition tier_from_message (message : ValidatedChunk PT) (context : DecodingContext PT) : MessageTier :=
  match vc_broadcast_mode message with
  | BroadcastPrimary | BroadcastSecondary => TierBroadcast
  | BroadcastUnspecified =>
      match validator_set context with
      | Some set => if is_member set (vc_author message) then TierValidator else TierP2P
      | None => TierP2P
      end
  end.

Record TieredCache := {
  tc_broadcast : SoftQuotaCache;
  tc_validator : SoftQuotaCache;
  tc_p2p : SoftQuotaCache;
}.

(** [0.1_f32] *)
Definition f32_tenth : spec_float := SFdiv 24 128 (f32_from 1) (f32_from 10).

Definition TieredCache_new (config : DecoderCacheConfig) : run TieredCache :=
  let prune_config := {| max_unix_ts_ms_delta := Some (10 * 1000)%N; pruning_min_ratio := f32_tenth;
                         pruning_cooldown := 10000000000%N |} in
  b ← SoftQuotaCache_new (broadcast_tier config) prune_config;
  v ← SoftQuotaCache_new (validator_tier config) prune_config;
  p ← SoftQuotaCache_new (p2p_tier config) prune_config;
  Ret {| tc_broadcast := b; tc_validator := v; tc_p2p := p |}.

Definition get_cache_tier (self : TieredCache) (tier : MessageTier) : SoftQuotaCache :=
  match tier with
  | TierBroadcast => tc_broadcast self
  | TierValidator => tc_validator self
  | TierP2P => tc_p2p self
  end.

(** A write through the reference of [get_cache_tier]. *)
Definition set_cache_tier (self : TieredCache) (tier : MessageTier) (cache : SoftQuotaCache) : TieredCache :=
  match tier with
  | TierBroadcast => {| tc_broadcast := cache; tc_validator := tc_validator self; tc_p2p := tc_p2p self |}
  | TierValidator => {| tc_broadcast := tc_broadcast self; tc_validator := cache; tc_p2p := tc_p2p self |}
  | TierP2P => {| tc_broadcast := tc_broadcast self; tc_validator := tc_validator self; tc_p2p := cache |}
  end.

(** ** The decoder cache *)

Record DecoderCache := {
  pending_messages : TieredCache;
  recently_decoded : lru_map CacheKey RecentlyDecodedState;
}.

Definition DecoderCache_new (config : DecoderCacheConfig) : run DecoderCache :=
  assert (recently_decoded_cache_size config ≠ 0%N) ≫= λ _,
  tiers ← TieredCache_new config;
  Ret {| pending_messages := tiers;
         recently_decoded := lru_map_new (recently_decoded_cache_size config) |}.

Definition from_message (message : ValidatedChunk PT) : run CacheKey :=
  id ← match global_merkle_root message with
       | Some root => Ret (IdGlobalMerkleRoot root)
       | None => hash ← expect (vc_app_message_hash message); Ret (IdAppMessageHash hash)
       end;
  Ret {| author_hash := compute_hash (vc_author message); message_id := id;
         key_unix_ts_ms := vc_unix_ts_ms message |}.

Inductive TryDecodeStatus :=
| RejectedByCache
| RecentlyDecoded
| NeedsMoreSymbols
| Decoded (author : PT) (app_message : list N).

Abbreviation cache_result := (result TryDecodeStatus TryDecodeError * DecoderCache)%type.

Definition with_recent (self : DecoderCache) (recent : lru_map CacheKey RecentlyDecodedState) : DecoderCache :=
  {| pending_messages := pending_messages self; recently_decoded := recent |}.

Definition with_tier (self : DecoderCache) (tier : MessageTier) (cache : SoftQuotaCache) : DecoderCache :=
  {| pending_messages := set_cache_tier (pending_messages self) tier cache;
     recently_decoded := recently_decoded self |}.

(** The end of [try_decode]: [decoder_state] is the state that the cache tier holds
    under the key. *)
Definition finish_decode (self : DecoderCache) (tier : MessageTier) (cache_key : CacheKey)
    (message : ValidatedChunk PT) (author : PT) (decoder_state : DecoderState) : run cache_result :=
  '(done, decoder) ← md_try_decode (ds_decoder decoder_state);
  let decoder_state := {| ds_decoder := decoder; ds_app_message_len := ds_app_message_len decoder_state;
                          ds_seen_esis := ds_seen_esis decoder_state |} in
  let cache := cache_update (get_cache_tier (pending_messages self) tier) cache_key author decoder_state in
  let self := with_tier self tier cache in
  if negb done then Ret (Ok NeedsMoreSymbols, self)
  else
    o ← reconstruct_source_data decoder;
    match o with
    | None => Ret (Err UnableToReconstructSourceData, self)
    | Some decoded =>
        let decoded := take (N.to_nat (vc_app_message_len message)) decoded in
        let '(removed, cache) := cache_remove cache cache_key in
        '(_, decoder_state) ← expect removed;
        let self := with_tier self tier cache in
        Ret (Ok (Decoded (vc_author message) decoded),
             with_recent self
               (lru_map_put cache_key (RecentlyDecodedState_from decoder_state) (recently_decoded self)))
    end.

Definition cache_try_decode (self : DecoderCache) (message : ValidatedChunk PT)
    (context : DecodingContext PT) (clock : Clock) (rng : pool_rng) : run (cache_result * pool_rng) :=
  cache_key ← from_message message;
  let tier := tier_from_message message context in
  let '(recent, recently) := lru_get_mut cache_key (recently_decoded self) in
  let self := with_recent self recently in
  match recent with
  | Some recent =>
      r ← rd_handle_message recent message;
      match r with
      | Err err => Ret (Err err, self, rng)
      | Ok recent =>
          Ret (Ok RecentlyDecoded, with_recent self (lru_write cache_key recent (recently_decoded self)), rng)
      end
  | None =>
      let cache := get_cache_tier (pending_messages self) tier in
      match cache_get cache cache_key with
      | Some (author, decoder_state) =>
          r ← ds_handle_message decoder_state message;
          match r with
          | Err err => Ret (Err (ErrInvalidSymbol err), self, rng)
          | Ok decoder_state =>
              out ← finish_decode self tier cache_key message author decoder_state;
              Ret (out, rng)
          end
      | None =>
          r ← from_initial_message message;
          match r with
          | Err err => Ret (Err (ErrInvalidSymbol err), self, rng)
          | Ok decoder_state =>
              '(cache, rng) ← cache_insert cache cache_key message decoder_state context clock rng;
              let self := with_tier self tier cache in
              match cache_get cache cache_key with
              | None => Ret (Ok RejectedByCache, self, rng)
              | Some (author, decoder_state) =>
                  out ← finish_decode self tier cache_key message author decoder_state;
                  Ret (out, rng)
              end
          end
      end
  end.

Definition mark_tainted (self : DecoderCache) (message : ValidatedChunk PT) : run DecoderCache :=
  cache_key ← from_message message;
  let '(recent, recently) := lru_get_mut cache_key (recently_decoded self) in
  let self := with_recent self recently in
  match recent with
  | Some recent => Ret (with_recent self (lru_write cache_key (rd_mark_tainted recent) (recently_decoded self)))
  | None => Ret self
  end.

Definition cache_consistent (self : DecoderCache) : bool :=
  consistent (tc_broadcast (pending_messages self)) &&
  consistent (tc_validator (pending_messages self)) &&
  consistent (tc_p2p (pending_messages self)).
End decoder_cache.

Arguments SoftQuotaCache PT {_}.
Arguments TieredCache PT {_}.
Arguments DecoderCache PT {_ _}.
Arguments TryDecodeStatus PT : clear implicits.
