(* ===== verification/DecoderIndexSpec.v ===== *)
(** * The indexes of the decoding cache are correct

    The per-author index and the index of all authors of [DecoderCache]: every
    operation keeps them consistent, reports exactly the keys it drops, and
    quota enforcement ends below the quota. *)
From Stdlib Require Import SpecFloat.
From S2P Require Import Prelude Types ValidatorSet Certificates Containers Raptorcast DecoderCache.

(** ** Sums over maps *)

Section map_sum.
Context {K V : Type} `{Countable K} (f : V → N).
Implicit Types m : gmap K V.

Definition map_sum m : N := nsum (f <$> (map_to_list m).*2).

Lemma map_sum_empty : map_sum ∅ = 0%N.
Proof. unfold map_sum. by rewrite map_to_list_empty. Qed.

Lemma map_sum_insert m k v : m !! k = None → map_sum (<[k := v]> m) = (f v + map_sum m)%N.
Proof. intros Hk. unfold map_sum. rewrite map_to_list_insert by done. done. Qed.

Lemma map_sum_delete m k v : m !! k = Some v → map_sum m = (f v + map_sum (delete k m))%N.
Proof.
  intros Hk. rewrite <- (map_sum_insert (delete k m) k v); [|apply lookup_delete_eq]. by rewrite insert_delete_id.
Qed.

Lemma map_sum_replace m k v w :
  m !! k = Some v → (f v + map_sum (<[k := w]> m) = f w + map_sum m)%N.
Proof.
  intros Hk. rewrite (map_sum_delete m k v) by done. rewrite <- (insert_delete_eq m k w).
  rewrite map_sum_insert by apply lookup_delete_eq. lia.
Qed.

Lemma map_sum_le m k v : m !! k = Some v → (f v ≤ map_sum m)%N.
Proof. intros Hk. rewrite (map_sum_delete m k v) by done. lia. Qed.

(** Subtracting all values from their sum. *)
Lemma usize_sub_all (l : list (K * V)) total :
  total = nsum (f <$> l.*2) → (total ≤ u64_MAX)%N → foldl (λ t '(_, v), usize_sub t (f v)) total l = 0%N.
Proof.
  revert total. induction l as [|[k v] l IH]; intros total Ht Hle; [done|].
  change (total = nsum (f v :: (f <$> l.*2))) in Ht. rewrite nsum_cons in Ht. cbn [foldl].
  apply IH; rewrite usize_sub_exact by lia; lia.
Qed.
End map_sum.

Lemma bset_iter_elem {K} `{Countable K, !OrdKey K} (s : gset K) x : x ∈ bset_iter s ↔ x ∈ s.
Proof. unfold bset_iter. rewrite merge_sort_Permutation. apply elem_of_elements. Qed.

Lemma bset_iter_NoDup {K} `{Countable K, !OrdKey K} (s : gset K) : NoDup (bset_iter s).
Proof. unfold bset_iter. rewrite merge_sort_Permutation. apply NoDup_elements. Qed.

Lemma bset_iter_length {K} `{Countable K, !OrdKey K} (s : gset K) : length (bset_iter s) = size s.
Proof. unfold bset_iter. by rewrite merge_sort_Permutation. Qed.

Lemma bset_first_nonempty {K} `{Countable K, !OrdKey K} (s : gset K) x : x ∈ s → is_Some (bset_first s).
Proof.
  intros Hx%bset_iter_elem. unfold bset_first. change (merge_sort _ _) with (bset_iter s).
  destruct (bset_iter s); [by apply not_elem_of_nil in Hx|eauto].
Qed.

(** ** The index of one author *)

Definition entry_size (e : N * N) : N := e.2.

Record pi_ok (ix : PerAuthorIndex) : Prop := {
  pi_time t k : (t, k) ∈ time_index ix ↔ ∃ s, reverse_index ix !! k = Some (t, s);
  pi_size : pi_total_size ix = map_sum entry_size (reverse_index ix);
  pi_bound : (pi_total_size ix ≤ u64_MAX)%N;
}.

(** [ix'] is [ix] without the keys of [p], whose sizes [p] adds up. *)
Record prunes (ix : PerAuthorIndex) (p : PrunedKeys) (ix' : PerAuthorIndex) : Prop := {
  pr_ok : pi_ok ix';
  pr_quota : pi_quota ix' = pi_quota ix;
  pr_nodup : NoDup (pruned_keys p);
  pr_in k : k ∈ pruned_keys p → is_Some (reverse_index ix !! k);
  pr_lookup k : reverse_index ix' !! k = if decide (k ∈ pruned_keys p) then None else reverse_index ix !! k;
  pr_size : (reclaimed_size p + pi_total_size ix' = pi_total_size ix)%N;
}.

Lemma prunes_refl ix : pi_ok ix → prunes ix PrunedKeys_empty ix.
Proof.
  intros Hok. split; [done|done|constructor|by intros k Hk%not_elem_of_nil| |by cbn; lia].
  intros k. rewrite decide_False; [done|]. cbn. apply not_elem_of_nil.
Qed.

Lemma prunes_trans ix p1 ix1 p2 ix2 :
  pi_ok ix → prunes ix p1 ix1 → prunes ix1 p2 ix2 → prunes ix (PrunedKeys_extend p1 p2) ix2.
Proof.
  intros Hok [Hok1 Hq1 Hnd1 Hin1 Hl1 Hs1] [Hok2 Hq2 Hnd2 Hin2 Hl2 Hs2]. split; cbn.
  - done.
  - congruence.
  - apply NoDup_app. split_and!; [done| |done]. intros k Hk Hk2. apply Hin2 in Hk2 as [v Hv].
    rewrite Hl1, decide_True in Hv by done. done.
  - intros k [Hk|Hk]%elem_of_app; [by apply Hin1|]. apply Hin2 in Hk as [v Hv]. rewrite Hl1 in Hv.
    case_decide; [done|]. eauto.
  - intros k. rewrite Hl2, Hl1. pose proof (elem_of_app (pruned_keys p1) (pruned_keys p2) k) as Hk.
    repeat case_decide; done || tauto.
  - pose proof (pi_bound _ Hok). rewrite usize_add_exact; lia.
Qed.

Lemma pi_remove_prunes ix k p ix' : pi_ok ix → pi_remove ix k = (p, ix') → prunes ix p ix'.
Proof.
  intros Hok. unfold pi_remove. destruct (reverse_index ix !! k) as [[t s]|] eqn:Hk;
    [|intros [= <- <-]; by apply prunes_refl]. intros [= <- <-]. pose proof Hok as [Ht Hs Hb].
  pose proof (map_sum_delete entry_size _ _ _ Hk) as Hd. cbn in Hd.
  assert (usize_sub (pi_total_size ix) s = pi_total_size ix - s)%N as Hsub by (apply usize_sub_exact; lia).
  split; cbn; [split; cbn|..].
  - intros t' k'. rewrite elem_of_difference, elem_of_singleton, Ht. destruct (decide (k' = k)) as [->|Hne].
    + rewrite lookup_delete_eq, Hk. split; [intros [(s' & [= -> ->]) Hn]; done|by intros (? & ?)].
    + rewrite lookup_delete_ne by done. split; [tauto|]. intros Hs'. split; [done|]. congruence.
  - rewrite Hsub. lia.
  - lia.
  - done.
  - apply NoDup_singleton.
  - intros k' ->%list_elem_of_singleton. by rewrite Hk.
  - intros k'. case_decide as Hc; [apply list_elem_of_singleton in Hc as ->; apply lookup_delete_eq|].
    apply lookup_delete_ne. intros ->. by apply Hc, list_elem_of_singleton.
  - lia.
Qed.

(** Removing given keys. *)
Lemma pi_remove_many_prunes ix keys p ix' :
  pi_ok ix → pi_remove_many ix keys = (p, ix') →
  prunes ix p ix' ∧ ∀ k, k ∈ keys → reverse_index ix' !! k = None.
Proof.
  intros Hok. unfold pi_remove_many.
  assert (∀ q ix0, prunes ix q ix0 → pi_remove_many_from keys q ix0 = (p, ix') →
    prunes ix p ix' ∧ (∀ k, reverse_index ix0 !! k = None → reverse_index ix' !! k = None) ∧
    ∀ k, k ∈ keys → reverse_index ix' !! k = None) as Hall.
  { induction keys as [|key keys IH]; intros q ix0 Hq; cbn.
    - intros [= <- <-]. split_and!; [done|done|]. by intros k Hk%not_elem_of_nil.
    - destruct (pi_remove ix0 key) as [p1 ix1] eqn:Hr. intros Hrun. pose proof (pr_ok _ _ _ Hq) as Hok0.
      pose proof (pi_remove_prunes _ _ _ _ Hok0 Hr) as Hp1.
      apply IH in Hrun as (Hp & Hkeep & Hkeys); [|by eapply prunes_trans].
      assert (∀ k, reverse_index ix0 !! k = None → reverse_index ix1 !! k = None) as Hk1.
      { intros k Hk. rewrite (pr_lookup _ _ _ Hp1), Hk. by case_decide. }
      split_and!; [done|by eauto|]. intros k [->|Hk]%elem_of_cons; [|by apply Hkeys].
      apply Hkeep. unfold pi_remove in Hr. destruct (reverse_index ix0 !! key) as [[t s]|] eqn:Hk; injection Hr as <- <-;
        [apply lookup_delete_eq|done]. }
  intros Hrun. apply Hall in Hrun as (Hp & _ & Hkeys); [done|by apply prunes_refl].
Qed.

Lemma prunes_sub ix p ix' : prunes ix p ix' → reverse_index ix' ⊆ reverse_index ix.
Proof.
  intros Hp. apply map_subseteq_spec. intros k v Hk. rewrite (pr_lookup _ _ _ Hp) in Hk. by case_decide.
Qed.

Lemma time_index_size ix : pi_ok ix → size (time_index ix) = size (reverse_index ix).
Proof.
  intros [Ht _ _]. rewrite <- (size_dom (reverse_index ix)).
  assert (dom (reverse_index ix) = set_map snd (time_index ix)) as ->.
  { apply set_eq. intros k. rewrite elem_of_dom, elem_of_map. split.
    - intros [[t s] Hk]. exists (t, k). split; [done|]. apply Ht. eauto.
    - intros ([t k'] & -> & (s & Hs)%Ht). cbn. eauto. }
  transitivity (length (elements (time_index ix)).*2); [by rewrite length_fmap|].
  transitivity (length (elements (set_map snd (time_index ix) : gset CacheKey))); [|done].
  apply Permutation_length, NoDup_Permutation.
  - apply NoDup_fmap_2_strong; [|apply NoDup_elements]. intros [t k] [t' k']. cbn.
    intros (s & Hs)%elem_of_elements%Ht (s' & Hs')%elem_of_elements%Ht ->. congruence.
  - apply NoDup_elements.
  - intros k. rewrite elem_of_elements, elem_of_map, list_elem_of_fmap. set_solver.
Qed.

Lemma pi_insert_ok ix k t s :
  pi_ok ix → reverse_index ix !! k = None → (pi_total_size ix + s ≤ u64_MAX)%N →
  pi_ok (pi_insert ix k t s) ∧ pi_total_size (pi_insert ix k t s) = (pi_total_size ix + s)%N.
Proof.
  intros [Ht Hs Hb] Hk Hle. split; [|by apply usize_add_exact]. split; cbn.
  - intros t' k'. rewrite elem_of_union, elem_of_singleton, Ht. destruct (decide (k' = k)) as [->|Hne].
    + rewrite lookup_insert_eq, Hk. split; [intros [[= ->]|(? & ?)]; [eauto|done]|intros (? & [= -> ->]); by left].
    + rewrite lookup_insert_ne by done. split; [intros [[= -> ->]|?]; done|by right].
  - rewrite usize_add_exact, map_sum_insert by done. cbn. lia.
  - rewrite usize_add_exact; lia.
Qed.

Lemma PerAuthorIndex_new_ok quota : pi_ok (PerAuthorIndex_new quota).
Proof. split; cbn; [set_solver|by rewrite map_sum_empty|lia]. Qed.

(** *** Pruning *)

Lemma oldest_entry ix n t k :
  pi_ok ix → (t, k) ∈ take n (bset_iter (time_index ix)) → ∃ s, reverse_index ix !! k = Some (t, s).
Proof.
  intros Hok Hin. apply (pi_time _ Hok), bset_iter_elem.
  rewrite <- (take_drop n (bset_iter _)). apply elem_of_app. by left.
Qed.

Lemma prune_by_slots_prunes ix n p ix' :
  pi_ok ix → prune_by_slots ix n = (p, ix') → prunes ix p ix' ∧ (pi_len ix' ≤ n)%N.
Proof.
  intros Hok. unfold prune_by_slots. case_decide as Hn.
  { intros [= <- <-]. split; [by apply prunes_refl|lia]. }
  intros Hrun. apply pi_remove_many_prunes in Hrun as [Hp Hkeys]; [|done]. split; [done|].
  set (count := N.to_nat (pi_len ix - n)) in *.
  assert (NoDup (filter_oldest ix count)) as Hnd.
  { unfold filter_oldest. eapply NoDup_fmap_2_strong; [|eapply sublist_NoDup, sublist_take; apply bset_iter_NoDup].
    intros [t k] [t' k'] (s & Hs)%oldest_entry (s' & Hs')%oldest_entry; [|done..]. cbn. intros ->. congruence. }
  assert (length (filter_oldest ix count) = count) as Hlen.
  { unfold filter_oldest. rewrite length_fmap, length_take, bset_iter_length, time_index_size by done.
    unfold count, pi_len. lia. }
  assert (size (dom (reverse_index ix') ∪ list_to_set (filter_oldest ix count)) ≤ size (dom (reverse_index ix))) as Hsz.
  { apply subseteq_size. intros k [Hk|Hk]%elem_of_union.
    - by eapply subseteq_dom; [apply (prunes_sub _ _ _ Hp)|].
    - apply elem_of_list_to_set in Hk. unfold filter_oldest in Hk. apply list_elem_of_fmap in Hk as ([t k'] & -> & Hk).
      apply oldest_entry in Hk as (s & Hs); [|done]. cbn. by apply elem_of_dom. }
  rewrite size_union in Hsz.
  - rewrite size_list_to_set, Hlen, !size_dom in Hsz by done. unfold pi_len in *. lia.
  - intros k Hk Hk'. apply elem_of_list_to_set, Hkeys in Hk'. apply elem_of_dom in Hk as [? ?]. congruence.
Qed.

Lemma prune_expired_prunes ix threshold p ix' :
  pi_ok ix → prune_expired ix threshold = (p, ix') → prunes ix p ix'.
Proof.
  intros Hok. unfold prune_expired. destruct threshold as [t|]; [|intros [= <- <-]; by apply prunes_refl].
  destruct (prune_by_time ix t) as [p1 ix1] eqn:Hr. intros [= <- <-].
  apply pi_remove_many_prunes in Hr as [Hp _]; [|done].
  apply (prunes_trans _ _ ix); [done|by apply prunes_refl|done].
Qed.

(** As long as the index is too large it holds an entry. *)
Lemma prune_by_size_loop_spec fuel target ix0 q ix :
  pi_ok ix0 → prunes ix0 q ix → size (reverse_index ix) < fuel →
  ∃ p ix', prune_by_size_loop fuel target q ix = Ret (p, ix') ∧ prunes ix0 p ix' ∧
    (pi_total_size ix' ≤ target)%N ∧ size (reverse_index ix') ≤ size (reverse_index ix).
Proof.
  intros Hok0. revert q ix. induction fuel as [|fuel IH]; intros q ix Hq Hf; [lia|]. cbn.
  case_decide as Hsz; [|exists q, ix; split_and!; done || lia].
  pose proof (pr_ok _ _ _ Hq) as Hok. assert (∃ k e, reverse_index ix !! k = Some e) as (k0 & [t0 s0] & Hk0).
  { destruct (map_choose (reverse_index ix)) as (k & e & Hk); [|eauto]. intros He.
    rewrite (pi_size _ Hok), He, map_sum_empty in Hsz. lia. }
  destruct (bset_first_nonempty (time_index ix) (t0, k0)) as [[t k] Hk]; [apply (pi_time _ Hok); eauto|].
  rewrite Hk. cbn. apply bset_first_elem, (pi_time _ Hok) in Hk as (s & Hs).
  destruct (pi_remove ix k) as [p1 ix1] eqn:Hr. pose proof (pi_remove_prunes _ _ _ _ Hok Hr) as Hp1.
  assert (size (reverse_index ix1) < size (reverse_index ix)) as Hlt.
  { apply map_subset_size. apply strict_spec_alt. split; [by eapply prunes_sub|]. intros Heq.
    unfold pi_remove in Hr. rewrite Hs in Hr. injection Hr as <- <-. cbn in Heq. rewrite <- Heq, lookup_delete_eq in Hs. done. }
  destruct (IH (PrunedKeys_extend q p1) ix1) as (p & ix' & -> & Hp & Hle & Hsz'); [by eapply prunes_trans|lia|].
  exists p, ix'. split_and!; done || lia.
Qed.

Lemma prune_by_size_spec ix target :
  pi_ok ix → ∃ p ix', prune_by_size ix target = Ret (p, ix') ∧ prunes ix p ix' ∧
    (pi_total_size ix' ≤ target)%N ∧ (pi_len ix' ≤ pi_len ix)%N.
Proof.
  intros Hok. unfold prune_by_size.
  destruct (prune_by_size_loop_spec (S (size (reverse_index ix))) target ix PrunedKeys_empty ix)
    as (p & ix' & -> & Hp & Hle & Hsz); [done|by apply prunes_refl|lia|].
  exists p, ix'. split_and!; [done..|]. unfold pi_len. lia.
Qed.

Lemma not_overquota ix :
  pi_is_overquota ix = false ↔
  (pi_len ix ≤ max_slots (pi_quota ix) ∧ pi_total_size ix ≤ max_size (pi_quota ix))%N.
Proof. unfold pi_is_overquota. rewrite orb_false_iff, !bool_decide_eq_false. lia. Qed.

(** Compaction ends below the quota. *)
Lemma compact_spec ix :
  pi_ok ix → ∃ p ix', compact ix = Ret (p, ix') ∧ prunes ix p ix' ∧ pi_is_overquota ix' = false.
Proof.
  intros Hok. unfold compact. destruct (pi_is_overquota ix) eqn:Ho.
  - destruct (prune_by_slots ix (max_slots (pi_quota ix))) as [p1 ix1] eqn:Hr.
    apply prune_by_slots_prunes in Hr as [Hp1 Hlen1]; [|done].
    destruct (prune_by_size_spec ix1 (max_size (pi_quota ix1))) as (p2 & ix2 & -> & Hp2 & Hle & Hlen2);
      [by eapply pr_ok|]. cbn. eexists _, ix2. split; [done|].
    assert (pi_quota ix2 = pi_quota ix) as Hq by (rewrite (pr_quota _ _ _ Hp2); apply (pr_quota _ _ _ Hp1)).
    split.
    + apply (prunes_trans _ _ ix1); [done| |done].
      apply (prunes_trans _ _ ix); [done|by apply prunes_refl|done].
    + apply not_overquota. rewrite (pr_quota _ _ _ Hp1) in Hle. rewrite Hq. lia.
  - exists PrunedKeys_empty, ix. split_and!; [done|by apply prunes_refl|done].
Qed.

Lemma pi_empty ix : pi_ok ix → reverse_index ix = ∅ → pi_total_size ix = 0%N ∧ pi_is_overquota ix = false.
Proof.
  intros Hok He. pose proof (pi_size _ Hok) as Hs. rewrite He, map_sum_empty in Hs. split; [done|].
  apply not_overquota. unfold pi_len. rewrite He, map_size_empty. lia.
Qed.

(** ** The index of all authors *)

Section author_index.
Context {PT : Type} `{!PubKey PT, !HashIter}.
Implicit Types (ai : AuthorIndex PT) (a : PT) (k : CacheKey) (index : gmap PT PerAuthorIndex).

(** The author a key is filed under. *)
Definition filed index k a : Prop := ∃ ix, index !! a = Some ix ∧ is_Some (reverse_index ix !! k).

(** The invariant, without the total size. *)
Record index_ok index (overquota : gset PT) : Prop := {
  io_pi a ix : index !! a = Some ix → pi_ok ix;
  io_nonempty a ix : index !! a = Some ix → reverse_index ix ≠ ∅;
  io_over a : a ∈ overquota ↔ ∃ ix, index !! a = Some ix ∧ pi_is_overquota ix = true;
  io_owner k a a' : filed index k a → filed index k a' → a = a';
}.

Record ai_ok ai : Prop := {
  ai_index : index_ok (per_author_index ai) (overquota_authors ai);
  ai_size : ai_total_size ai = map_sum pi_total_size (per_author_index ai);
  ai_bound : (ai_total_size ai ≤ u64_MAX)%N;
}.

(** [ai'] is [ai] without the keys [ks]. *)
Record drops ai (ks : list CacheKey) ai' : Prop := {
  dr_ok : ai_ok ai';
  dr_config : prune_config ai' = prune_config ai;
  dr_filed k a : filed (per_author_index ai') k a ↔ filed (per_author_index ai) k a ∧ k ∉ ks;
}.

Lemma drops_refl ai : ai_ok ai → drops ai [] ai.
Proof. intros Hok. split; [done..|]. intros k a. pose proof (not_elem_of_nil k). tauto. Qed.

Lemma drops_trans ai ks1 ai1 ks2 ai2 : drops ai ks1 ai1 → drops ai1 ks2 ai2 → drops ai (ks1 ++ ks2) ai2.
Proof.
  intros [_ Hc1 Hf1] [Hok2 Hc2 Hf2]. split; [done|congruence|]. intros k a. rewrite Hf2, Hf1, not_elem_of_app. tauto.
Qed.

(** *** Replacing the index of one author *)

(** An empty index is dropped. *)
Definition replaced index a ix : gmap PT PerAuthorIndex :=
  if pi_is_empty ix then delete a index else <[a := ix]> index.

Lemma replaced_lookup index a ix b :
  replaced index a ix !! b =
  if decide (b = a) then (if pi_is_empty ix then None else Some ix) else index !! b.
Proof.
  unfold replaced. destruct (decide (b = a)) as [->|Hne], (pi_is_empty ix);
    by rewrite ?lookup_delete_eq, ?lookup_insert_eq, ?lookup_delete_ne, ?lookup_insert_ne by done.
Qed.

Lemma prunes_overquota ix p ix' :
  prunes ix p ix' → pi_is_overquota ix' = true → pi_is_overquota ix = true.
Proof.
  intros Hp Ho. destruct (pi_is_overquota ix) eqn:Hn; [done|]. apply not_overquota in Hn.
  assert (pi_is_overquota ix' = false); [|congruence]. apply not_overquota. rewrite (pr_quota _ _ _ Hp).
  pose proof (pr_size _ _ _ Hp). pose proof (map_subseteq_size _ _ (prunes_sub _ _ _ Hp)).
  unfold pi_len in *. lia.
Qed.

Lemma replaced_filed index over a ix p ix' k b :
  index_ok index over → index !! a = Some ix → prunes ix p ix' →
  filed (replaced index a ix') k b ↔ filed index k b ∧ k ∉ pruned_keys p.
Proof.
  intros Hok Ha Hp. unfold filed. setoid_rewrite replaced_lookup. case_decide as Hb.
  - subst b. rewrite Ha. unfold pi_is_empty. split.
    + intros (ix1 & Hix & Hk). case_bool_decide as He; [done|]. injection Hix as <-.
      rewrite (pr_lookup _ _ _ Hp) in Hk. case_decide; [by destruct Hk|]. eauto.
    + intros ((? & [= <-] & Hk) & Hn). assert (is_Some (reverse_index ix' !! k)) as Hk'.
      { by rewrite (pr_lookup _ _ _ Hp), decide_False. }
      exists ix'. split; [|done]. rewrite bool_decide_eq_false_2; [done|]. intros He.
      rewrite He, lookup_empty in Hk'. by destruct Hk'.
  - split; [|tauto]. intros Hf. split; [done|]. intros Hk. apply Hb.
    apply (io_owner _ _ Hok k); [done|]. exists ix. split; [done|]. by apply (pr_in _ _ _ Hp).
Qed.

Lemma replaced_ok index over a ix p ix' :
  index_ok index over → index !! a = Some ix → prunes ix p ix' →
  index_ok (replaced index a ix') (if pi_is_overquota ix' then over else over ∖ {[a]}).
Proof.
  intros Hok Ha Hp. split.
  - intros b ix1. rewrite replaced_lookup. case_decide; [|apply (io_pi _ _ Hok)].
    destruct (pi_is_empty ix'); [done|]. intros [= <-]. apply (pr_ok _ _ _ Hp).
  - intros b ix1. rewrite replaced_lookup. case_decide; [|apply (io_nonempty _ _ Hok)].
    unfold pi_is_empty. case_bool_decide; [done|]. by intros [= <-].
  - intros b. rewrite replaced_lookup. case_decide as Hb.
    + subst b. unfold pi_is_empty. case_bool_decide as He.
      * destruct (pi_empty ix') as [_ ->]; [by eapply pr_ok|done|]. split; [|by intros (? & ? & _)].
        intros Hin. set_solver.
      * destruct (pi_is_overquota ix') eqn:Ho.
        -- split; [eauto|]. intros _. apply (io_over _ _ Hok). exists ix. split; [done|].
           by eapply prunes_overquota.
        -- split; [set_solver|]. intros (ix1 & [= <-] & Ho'). congruence.
    + rewrite <- (io_over _ _ Hok). destruct (pi_is_overquota ix'); [done|]. set_solver.
  - intros k b b' Hf Hf'. rewrite replaced_filed in Hf by done. rewrite replaced_filed in Hf' by done.
    apply (io_owner _ _ Hok k); tauto.
Qed.

Lemma replaced_sum index a ix p ix' :
  index !! a = Some ix → prunes ix p ix' →
  (reclaimed_size p + map_sum pi_total_size (replaced index a ix') = map_sum pi_total_size index)%N.
Proof.
  intros Ha Hp. pose proof (pr_size _ _ _ Hp) as Hs. unfold replaced, pi_is_empty. case_bool_decide as He.
  - destruct (pi_empty ix') as [Hz _]; [by eapply pr_ok|done|].
    rewrite (map_sum_delete pi_total_size index a ix) by done. lia.
  - pose proof (map_sum_replace pi_total_size index a ix ix' Ha). lia.
Qed.

(** The code around [reap_pruned]. *)
Lemma replaced_drops ai a ix p ix' :
  ai_ok ai → per_author_index ai !! a = Some ix → prunes ix p ix' →
  drops ai (pruned_keys p)
    (reap_pruned (with_index ai (replaced (per_author_index ai) a ix')
       (if pi_is_overquota ix' then overquota_authors ai else overquota_authors ai ∖ {[a]})) p).2.
Proof.
  intros [Hix Hs Hb] Ha Hp. pose proof (replaced_sum _ _ _ _ _ Ha Hp) as Hsum.
  split; [split|..]; cbn.
  - by eapply replaced_ok.
  - rewrite usize_sub_exact; lia.
  - rewrite usize_sub_exact; lia.
  - done.
  - intros k b. by eapply replaced_filed.
Qed.

(** *** Operations *)

Lemma AuthorIndex_new_ok config : ai_ok (AuthorIndex_new config).
Proof.
  split; cbn; [split|by rewrite map_sum_empty|lia].
  - intros a ix. by rewrite lookup_empty.
  - intros a ix. by rewrite lookup_empty.
  - intros a. rewrite lookup_empty. set_solver.
  - intros k a a' (ix & Hix & _). by rewrite lookup_empty in Hix.
Qed.

Lemma enforce_quota_drops ai a context :
  ai_ok ai → ∃ ks ai', enforce_quota ai a context = Ret (ks, ai') ∧ drops ai ks ai'.
Proof.
  intros Hok. unfold enforce_quota. destruct (per_author_index ai !! a) as [ix|] eqn:Ha;
    [|exists [], ai; split; [done|by apply drops_refl]].
  pose proof (io_pi _ _ (ai_index _ Hok) a ix Ha) as Hix. destruct (pi_is_overquota ix) eqn:Ho.
  - destruct (prune_expired ix (unix_ts_threshold ai context)) as [p1 ix1] eqn:Hr.
    apply prune_expired_prunes in Hr as Hp1; [|done].
    assert (prunes ix (PrunedKeys_extend PrunedKeys_empty p1) ix1) as Hp1'.
    { apply (prunes_trans _ _ ix); [done|by apply prunes_refl|done]. }
    assert (∃ p ix', (if pi_is_overquota ix1 then
        '(p, author_index) ← compact ix1;
        Ret (PrunedKeys_extend (PrunedKeys_extend PrunedKeys_empty p1) p, author_index)
      else Ret (PrunedKeys_extend PrunedKeys_empty p1, ix1)) = Ret (p, ix') ∧
      prunes ix p ix' ∧ pi_is_overquota ix' = false) as (p & ix' & -> & Hp & Ho').
    { destruct (pi_is_overquota ix1) eqn:Ho1; [|by eexists _, ix1].
      destruct (compact_spec ix1) as (p2 & ix2 & -> & Hp2 & Ho2); [by eapply pr_ok|]. cbn.
      eexists _, ix2. split_and!; [done| |done]. by eapply prunes_trans. }
    cbn. eexists _, _. split; [done|]. pose proof (replaced_drops ai a ix p ix' Hok Ha Hp) as Hd.
    rewrite Ho' in Hd. exact Hd.
  - exists [], ai. split; [|by apply drops_refl]. f_equal. f_equal. destruct ai as [c t m o u]. unfold with_index. cbn in *.
    f_equal. apply set_eq. intros b. rewrite elem_of_difference, elem_of_singleton.
    split; [tauto|]. intros Hb. split; [done|]. intros ->.
    apply (io_over _ _ (ai_index _ Hok)) in Hb as (ix1 & Hix1 & Ho1). cbn in Hix1. congruence.
Qed.

Lemma enforce_quota_all_drops ai context :
  ai_ok ai → ∃ ks ai', enforce_quota_all ai context = Ret (ks, ai') ∧ drops ai ks ai'.
Proof.
  intros Hok. unfold enforce_quota_all. generalize (hash_set_iter (overquota_authors ai)). intros authors.
  assert (∀ ks ai1, drops ai ks ai1 →
    ∃ ks' ai', enforce_quota_from authors context ks ai1 = Ret (ks', ai') ∧ drops ai ks' ai') as Hall.
  { induction authors as [|a authors IH]; intros ks ai1 Hd; cbn; [by exists ks, ai1|].
    destruct (enforce_quota_drops ai1 a context) as (ks2 & ai2 & -> & Hd2); [by eapply dr_ok|]. cbn.
    apply IH. by eapply drops_trans. }
  apply Hall. by apply drops_refl.
Qed.

Lemma ai_remove_drops ai a k :
  ai_ok ai → filed (per_author_index ai) k a → drops ai [k] (ai_remove ai a k).
Proof.
  intros Hok (ix & Ha & Hk). unfold ai_remove. rewrite Ha. destruct (pi_remove ix k) as [p ix'] eqn:Hr.
  pose proof (io_pi _ _ (ai_index _ Hok) a ix Ha) as Hix. pose proof (pi_remove_prunes _ _ _ _ Hix Hr) as Hp.
  assert (pruned_keys p = [k]) as Hks.
  { unfold pi_remove in Hr. destruct Hk as [[t s] Hk]. rewrite Hk in Hr. by injection Hr as <- <-. }
  rewrite <- Hks. pose proof (replaced_drops ai a ix p ix' Hok Ha Hp) as Hd. unfold replaced in Hd.
  destruct (pi_is_overquota ix') eqn:Ho; [|done]. unfold pi_is_empty in Hd. case_bool_decide as He; [|done].
  destruct (pi_empty ix') as [_ Hn]; [by eapply pr_ok|done|]. congruence.
Qed.

(** *** Insertion *)

Lemma ai_insert_ok ai a k message quota :
  ai_ok ai → (∀ b, ¬ filed (per_author_index ai) k b) →
  (ai_total_size ai + vc_app_message_len message ≤ u64_MAX)%N →
  let ai' := ai_insert_unchecked ai a k message quota in
  ai_ok ai' ∧ ai_total_size ai' = (ai_total_size ai + vc_app_message_len message)%N ∧
  prune_config ai' = prune_config ai ∧
  ∀ k' b, filed (per_author_index ai') k' b ↔ filed (per_author_index ai) k' b ∨ (k' = k ∧ b = a).
Proof.
  intros [Hix Hs Hb] Hnew Hle ai'. unfold ai_insert_unchecked in ai'.
  set (ix0 := default (PerAuthorIndex_new quota) (per_author_index ai !! a)) in *.
  set (m := vc_app_message_len message) in *.
  assert (pi_ok ix0 ∧ reverse_index ix0 !! k = None ∧
    (map_sum pi_total_size (<[a := pi_insert ix0 k (vc_unix_ts_ms message) m]> (per_author_index ai)) + pi_total_size ix0 =
     map_sum pi_total_size (per_author_index ai) + pi_total_size (pi_insert ix0 k (vc_unix_ts_ms message) m))%N ∧
    (pi_total_size ix0 ≤ map_sum pi_total_size (per_author_index ai))%N)
    as (Hok0 & Hk0 & Hsum & Hle0).
  { unfold ix0. destruct (per_author_index ai !! a) as [ix|] eqn:Ha; cbn [default].
    - split_and!; [by apply (io_pi _ _ Hix a)| | |by eapply map_sum_le].
      + apply eq_None_not_Some. intros Hk. apply (Hnew a). by exists ix.
      + rewrite N.add_comm, (map_sum_replace _ _ _ _ _ Ha). apply N.add_comm.
    - split_and!; [apply PerAuthorIndex_new_ok|done| |cbn; lia].
      rewrite map_sum_insert by done. cbn. lia. }
  destruct (pi_insert_ok ix0 k (vc_unix_ts_ms message) m) as [Hok1 Hsz1]; [done..|lia|].
  set (ix1 := pi_insert ix0 k (vc_unix_ts_ms message) m) in *.
  assert (∀ k' b, filed (<[a := ix1]> (per_author_index ai)) k' b ↔
    filed (per_author_index ai) k' b ∨ (k' = k ∧ b = a)) as Hfiled.
  { intros k' b. unfold filed. destruct (decide (b = a)) as [->|Hne].
    - rewrite lookup_insert_eq. trans (is_Some (reverse_index ix1 !! k')); [naive_solver|].
      unfold ix1. cbn. rewrite lookup_insert_is_Some. unfold ix0.
      destruct (per_author_index ai !! a) as [ix|]; cbn.
      + split; [intros [<-|[_ ?]]; eauto|]. intros [(? & [= <-] & Hk)|[-> _]]; [|by left].
        destruct (decide (k = k')); [by left|by right].
      + rewrite lookup_empty. split; [intros [<-|[_ [? ?]]]; [by right|done]|].
        intros [(? & ? & _)|[-> _]]; [done|by left].
    - rewrite lookup_insert_ne by done. naive_solver. }
  split_and!; [|cbn; apply usize_add_exact; lia|done|done].
  split; cbn; [split|rewrite usize_add_exact; lia|rewrite usize_add_exact; lia].
  - intros b ix [[<- <-]|[_ Hb']]%lookup_insert_Some; [done|by apply (io_pi _ _ Hix b)].
  - intros b ix [[<- <-]|[_ Hb']]%lookup_insert_Some; [apply insert_non_empty|by apply (io_nonempty _ _ Hix b)].
  - intros b. destruct (decide (b = a)) as [->|Hne].
    + rewrite lookup_insert_eq. destruct (pi_is_overquota ix1) eqn:Ho; [set_solver|].
      split; [set_solver|]. intros (ix & [= <-] & ?). congruence.
    + rewrite lookup_insert_ne, <- (io_over _ _ Hix) by done. destruct (pi_is_overquota ix1); set_solver.
  - intros k' b b'. rewrite !Hfiled.
    intros [Hf|[-> ->]] [Hf'|[Hk ->]]; [by apply (io_owner _ _ Hix k')| | |done].
    + rewrite Hk in Hf. by apply Hnew in Hf.
    + by apply Hnew in Hf'.
Qed.

(** *** Expiry of all authors *)

Definition deletes (drop : list PT) index : gmap PT PerAuthorIndex := foldl (λ m author, delete author m) index drop.

Lemma deletes_lookup drop index a : deletes drop index !! a = if decide (a ∈ drop) then None else index !! a.
Proof.
  revert index. induction drop as [|b drop IH]; intros index; cbn.
  - rewrite decide_False; [done|]. apply not_elem_of_nil.
  - unfold deletes in IH. rewrite IH. pose proof (elem_of_cons drop a b) as He.
    destruct (decide (a = b)) as [->|Hne]; [rewrite lookup_delete_eq|rewrite lookup_delete_ne by done];
      repeat case_decide; done || tauto.
Qed.

Lemma deletes_replaced drop index a ix :
  a ∉ drop →
  deletes (if pi_is_empty ix then drop ++ [a] else drop) (<[a := ix]> index) = replaced (deletes drop index) a ix.
Proof.
  intros Ha. apply map_eq. intros b. rewrite replaced_lookup, !deletes_lookup.
  destruct (decide (b = a)) as [->|Hne].
  - rewrite lookup_insert_eq. destruct (pi_is_empty ix).
    + by rewrite decide_True by (apply elem_of_app; right; by apply list_elem_of_singleton).
    + by rewrite decide_False.
  - rewrite lookup_insert_ne by done. destruct (pi_is_empty ix); [|done].
    pose proof (elem_of_app drop [a] b) as He. pose proof (list_elem_of_singleton b a) as Hs.
    repeat case_decide; done || tauto.
Qed.

(** What the loop of [prune_expired_all] has done so far. *)
Record expired ai (drop : list PT) (pruned : PrunedKeys) index over : Prop := {
  ex_ok : index_ok (deletes drop index) over;
  ex_filed k a : filed (deletes drop index) k a ↔
    filed (per_author_index ai) k a ∧ k ∉ pruned_keys pruned;
  ex_size : (reclaimed_size pruned + map_sum pi_total_size (deletes drop index) =
    map_sum pi_total_size (per_author_index ai))%N;
}.

Lemma prune_expired_from_spec ai l threshold drop slots pruned index over :
  ai_ok ai → NoDup l.*1 → (∀ a ix, (a, ix) ∈ l → index !! a = Some ix ∧ a ∉ drop) →
  expired ai drop pruned index over →
  ∃ drop' slots' pruned' index' over',
    prune_expired_from l threshold drop slots pruned index over = (drop', slots', pruned', index', over') ∧
    expired ai drop' pruned' index' over'.
Proof.
  intros Hok. revert drop slots pruned index over.
  induction l as [|[a ix] l IH]; intros drop slots pruned index over Hnd Hl [Hix Hf Hs]; cbn.
  { eexists _, _, _, _, _. split; [done|]. by split. }
  apply NoDup_cons in Hnd as [Ha Hnd]. destruct (Hl a ix) as [Hia Hda]; [left|].
  assert (deletes drop index !! a = Some ix) as Hva by by rewrite deletes_lookup, decide_False.
  destruct (prune_expired ix threshold) as [p ix'] eqn:Hr.
  pose proof (prune_expired_prunes _ _ _ _ (io_pi _ _ Hix a ix Hva) Hr) as Hp.
  pose proof (replaced_sum _ _ _ _ _ Hva Hp) as Hsum. pose proof (ai_bound _ Hok). pose proof (ai_size _ Hok).
  apply IH; [done| |split].
  - intros b ix1 Hin. destruct (Hl b ix1) as [Hb Hbd]; [by right|].
    assert (b ≠ a) as Hne. { intros ->. apply Ha, list_elem_of_fmap. by exists (a, ix1). }
    rewrite lookup_insert_ne by done. split; [done|]. destruct (pi_is_empty ix'); [|done].
    rewrite not_elem_of_app, list_elem_of_singleton. done.
  - rewrite deletes_replaced by done. by eapply replaced_ok.
  - intros k b. rewrite deletes_replaced by done. rewrite (replaced_filed _ _ _ _ _ _ _ _ Hix Hva Hp), Hf.
    cbn. rewrite not_elem_of_app. tauto.
  - rewrite deletes_replaced by done. cbn. rewrite usize_add_exact; lia.
Qed.

Lemma hash_iter_NoDup {V} (m : gmap PT V) : NoDup (hash_iter m).*1.
Proof. rewrite hash_iter_perm. apply NoDup_fst_map_to_list. Qed.

Lemma hash_iter_elem {K V} `{Countable K} (m : gmap K V) (i : K) (v : V) :
  (i, v) ∈ hash_iter m ↔ m !! i = Some v.
Proof. rewrite hash_iter_perm. apply elem_of_map_to_list. Qed.

Lemma prune_expired_all_drops ai context clock ks ai' :
  ai_ok ai → prune_expired_all ai context clock = (ks, ai') → drops ai ks ai'.
Proof.
  intros Hok. unfold prune_expired_all. case_match; [intros [= <- <-]; by apply drops_refl|].
  pose proof (ai_size _ Hok) as Hsz. pose proof (ai_bound _ Hok) as Hbd.
  destruct (prune_expired_from_spec ai (hash_iter (per_author_index ai)) (unix_ts_threshold ai context) [] 0
    PrunedKeys_empty (per_author_index ai) (overquota_authors ai)) as (drop & slots & p & index & over & -> & [Hix Hf Hs]).
  - done.
  - apply hash_iter_NoDup.
  - intros a ix Ha%hash_iter_elem. split; [done|]. apply not_elem_of_nil.
  - split; cbn; [apply (ai_index _ Hok)| |lia]. intros k a. pose proof (not_elem_of_nil k). tauto.
  - cbn [reap_pruned]. intros [= <- <-]. cbn [prune_config with_index with_total_size ai_total_size
      per_author_index overquota_authors].
    assert (ai_ok (with_total_size (with_index ai (deletes drop index) over)
      (usize_sub (ai_total_size ai) (reclaimed_size p)))) as Hok'.
    { split; cbn; [done|rewrite usize_sub_exact; lia..]. }
    destruct (SFltb _ _); split; try done.
    destruct Hok' as [? ? ?]. by split.
Qed.

(** *** The checks of the tests *)

Lemma hash_iter_forallb {K V} `{Countable K} (m : gmap K V) (P : K * V → bool) :
  (∀ i v, m !! i = Some v → P (i, v) = true) → forallb P (hash_iter m) = true.
Proof.
  intros HP. apply forallb_forall. intros [i v] Hin%list_elem_of_In%hash_iter_elem. by apply HP.
Qed.

Lemma map_sum_iter {K V} `{Countable K} (f : V → N) (m : gmap K V) :
  map_sum f m = nsum (f <$> (hash_iter m).*2).
Proof. unfold map_sum. by rewrite hash_iter_perm. Qed.

Lemma pi_ok_consistent ix : pi_ok ix → pi_consistent ix = true.
Proof.
  intros Hok. unfold pi_consistent. rewrite !andb_true_iff. split_and!.
  - apply bool_decide_eq_true_2. by apply time_index_size.
  - apply hash_iter_forallb. intros k [t s] Hk. apply bool_decide_eq_true_2, (pi_time _ Hok). eauto.
  - apply bool_decide_eq_true_2. transitivity (foldl (λ t '(_, v), usize_sub t (entry_size v)) (pi_total_size ix)
      (hash_iter (reverse_index ix))).
    + generalize (pi_total_size ix). induction (hash_iter (reverse_index ix)) as [|[k [t s]] l IH]; intros n; [done|].
      cbn. apply IH.
    + apply usize_sub_all; [|apply (pi_bound _ Hok)]. rewrite <- map_sum_iter. apply (pi_size _ Hok).
Qed.

Lemma ai_ok_consistent ai : ai_ok ai → ai_consistent ai = true.
Proof.
  intros [Hix Hs Hb]. unfold ai_consistent. rewrite !andb_true_iff. split_and!.
  - apply forallb_forall. intros a Ha%list_elem_of_In. apply bool_decide_eq_true_2. unfold hash_set_iter in Ha.
    apply list_elem_of_fmap in Ha as ([a' []] & -> & Ha%hash_iter_elem). apply lookup_gset_to_gmap_Some in Ha as [Ha _].
    apply (io_over _ _ Hix) in Ha as (ix & Hix' & _). cbn. eauto.
  - apply hash_iter_forallb. intros a ix Ha. rewrite !andb_true_iff. split_and!.
    + apply negb_true_iff, bool_decide_eq_false_2. by apply (io_nonempty _ _ Hix a).
    + apply bool_decide_eq_true_2. rewrite (io_over _ _ Hix a), Ha. naive_solver.
    + apply pi_ok_consistent. by apply (io_pi _ _ Hix a).
  - apply bool_decide_eq_true_2, usize_sub_all; [|done]. by rewrite <- map_sum_iter.
Qed.
End author_index.
